(* ===== verification/_CoqProject ===== *)
-Q . S2P
Prelude.v
Wheel.v
Scope.v
Clock.v
Agenda.v
Timetable.v
Catalog.v
Ephemeris.v
Pages.v
Almanac.v
Library.v
Index.v
Scene.v
Origin.v
Stage.v
Leased.v
CatalogState.v
CatalogExpiry.v
CatalogReads.v
CatalogWrite.v
CatalogReplica.v
CatalogCoverage.v
CatalogReceive.v
CatalogSources.v
CatalogRun.v
Types.v
Topology.v
Progress.v
Table.v
Stream.v
Projection.v
Subscription.v
Selection.v
Acceptance.v
Edition.v
Encodings.v
Delivery.v
Watch.v
Domains.v
Parcel.v
Dispatch.v
Landing.v
Wires.v
Restore.v
Exchange.v
Lawful.v
ExchangeAccounts.v
ExchangeOrder.v
Replication.v
Ledger.v
Membership.v
Issuer.v
Pulse.v
