(* ===== verification/Prelude.v ===== *)
(** * Verdandi: the Astra data plane

    Verdandi is a registration, discovery and configuration system.  Its C++
    core, [src/astra], is a set of server nodes called Stars, a client library
    called Comet and the code they share.  A Star keeps three domains for its
    clients, each divided into scopes (pairs of a Sector and a Spectrum):

    - the Almanac, durable configuration replicated from one authority and
      ordered by one version per scope;
    - the Catalog, versioned discovery records published through any Star and
      merged across sources;
    - the Ephemeris, leased registrations that their owner updates and renews.

    Stars find one another through a topology policy, exchange facts over
    streams, and push changes to subscribed Comets, which rebuild the scope
    locally.  Pulsar lets nodes in, remembers them in a database and serves the time.  This library models the parts of that code that decide what the
    system means: rules, indexes, schedulers, replication states and client
    projections.  Operating system calls, threads, sockets, gRPC and generated
    messages stay outside.

    ** How the code is rendered

    - A 64-bit counter is a [Z] kept in range, and wrap-around is written out
      with [wrap64] where the code can reach it; a signed nanosecond count is a
      [Z] with the code's own overflow tests.
    - A C++ object that several owners reach (a page, a scope object, an
      intrusive node) is a value when it is immutable, and a name in a map when
      it is shared and mutable.
    - A member function is a function on the state.  Functions that can throw
      run in a monad of this file: [Done v] or [Thrown e] beside the state
      reached and the unread answers of the allocator.  Each allocation
      reads one answer, so a theorem over all scripts covers a
      [std::bad_alloc] at every point.  [std::expected] is a sum.
    - A mutex around an operation makes it one transition.  Theorems on runs
      quantify over every sequence of operations with every argument.
    - The C and C++ libraries leave some answers open ([std::hash], bucket
      counts, object sizes, [inet_pton], [getrandom]): they are parameters,
      classes with their documented laws, or inputs.

    ** Files

    - [Prelude]: integers, bytes, lists, maps, the exception monad, automation.
    - [Wheel] ([common/src/wheel.hpp]): the hierarchical timing wheel.
    - [Scope] ([common/src/scope.cpp]): the UTF-8 gate of every name.
    - [Clock] ([common/src/clock.cpp], [clock_filter.hpp]): the disciplined
      epoch clock and the filter of time exchanges.
    - [Agenda] ([star/src/agenda.hpp]): leases on the wheel in 10 ms ticks.
    - [Catalog], [Ephemeris] ([star/src/catalog.cpp], [ephemeris.cpp]): the pure
      rules of the two dynamic domains.
    - [Pages] ([common/src/pages.hpp]): the copy-on-write radix index.
    - [Almanac], [Library] ([star/src/almanac.cpp], [library.cpp]): one durable
      scope, and all scopes of a Star under global limits.
    - [Index]: rows behind a lookup table, shared by the next two.
    - [Scene] ([star/src/scene.hpp]): the public projection of one dynamic scope.
    - [Origin] ([star/src/origin.hpp]): the facts of one source over all scopes.
    - [Timetable]: what a callback of the agenda has to do for every lease to end on
      time; [Leased], [Stage]: a source with its leases, and the projections of all
      scopes, the parts both dynamic domains keep.
    - [CatalogState] ([star/src/catalog_state.cpp], the expiry of
      [catalog_replica.cpp], [reading.hpp]): the Catalog at run time;
      [CatalogReplica] ([catalog_replica.cpp], [borrowing.hpp]): the facts of other
      Stars.  [CatalogExpiry], [CatalogReads], [CatalogWrite], [CatalogReceive],
      [CatalogSources] prove their operations, [CatalogCoverage] what the coverage of a
      source can record, and [CatalogRun] their histories.
    - [Types], [Topology] ([common/src/types.cpp], [star/src/topology.cpp]):
      identities and endpoints; membership, streams and dial schedule.
    - [Progress] ([star/src/progress.hpp]): fair notification rounds.
    - [Table] ([comet/cpp/src/table.hpp]): the client's paged dictionary.
    - [Stream]: the client projection of a watched scope, over what the three
      domains differ in; [Projection], [Subscription], [Selection]
      ([comet/cpp/src/projection.cpp], [subscription.cpp], [selection.cpp]) are its
      instances for the Almanac, the Catalog and the Ephemeris.  [Acceptance]: what a
      sender has to observe so that the client refuses nothing but for its limits.
    - [Edition] ([star/src/pagination.hpp], [edition.cpp]): frozen batches, merged and
      cut into pages; [Encodings] ([catalog_edition.cpp], [ephemeris_edition.cpp],
      [edition.cpp]) the rows of the three domains; [Delivery] what the client makes of
      them; [Watch] ([downstream.hpp]) the first batch of a watch from the projection to
      the client; [Domains] the instances.
    - [Parcel] ([star/src/parcel.cpp]): the messages between Stars; [Dispatch]
      ([dispatch.hpp]) the sender of a source to one peer; [Landing] ([landing.hpp]) the
      receiver of a baseline; [Wires] their instances for the two dynamic domains.
    - [Restore] ([restore.hpp]): the task that installs a baseline, over the operations of
      a state (the class [Store]); [Lawful] what the replication may rely on, and a plain
      state that keeps it; [Exchange] ([exchange.cpp]) the stream of two Stars: a pipe for
      each dynamic domain and the session of both; [ExchangeAccounts] and [ExchangeOrder]
      prove its budget and its order, [Replication] has the instances and a sample stream.
    - [Ledger] ([pulsar/src/ledger.cpp], the encoding of members of
      [common/src/identity.cpp]): the registry of members over its database, with processes
      that start, fail and end; [Membership] proves it against a log of grants.
    - [Issuer] ([pulsar/src/authority.cpp], [issuer.cpp], [Identity::verify]): accounts,
      admissions, candidates and the two handlers.
    - [Pulse] ([common/src/clock_precision.hpp], [pulse_client.cpp],
      [pulsar/src/physical_clock.cpp], [pulse.cpp]): the reference of the time, its service
      and the batches of a Star.

    Components meet through their lemmas: [Agenda] runs on the theorems of
    [Wheel]; [Almanac], [Scene] and [Origin] store rows through [Pages] and use only
    its refinement to a finite map; [Library] uses the contract of [Almanac];
    [CatalogState] uses those of [Origin], [Scene] and [Agenda] through [Leased] and
    [Stage]; [Stream] uses the contract of [Table], and its instances discharge the laws it
    asks of a domain.  [Watch] joins the two ends: the contracts of [Scene], [Edition] and
    [Stream] meet through the class [Delivery.Delivers], which the encodings satisfy.
    [Dispatch] and [Landing] meet through the class [Dispatch.Carried], which the parcels
    satisfy.  [Exchange] uses the states of the domains through [Restore.Store] and their
    promises through [Lawful.Lawful], and the contracts of [Dispatch], [Landing] and
    [Restore].  [Issuer] uses [Ledger] through the log of [Membership]; [Pulse] checks
    credentials with [Issuer] and composes two clocks of [Clock], one on each machine.

    ** What the theorems show

    - Time: a node of the wheel is ready exactly at its tick ([wheel_exact]);
      a lease ends at the first boundary after its deadline ([lease_timely]);
      the public clock never runs backwards, slews within its bound
      and stays within its error bar ([history_disciplined],
      [history_accurate]).
    - Dynamic rules: Stars that heard the same facts agree ([merge_converges]),
      subscribers wake exactly on visible changes ([merge_visible_exact]), and
      retries are harmless ([highest_order_wins]).
    - Storage: the index is a finite map with the lowest vacant slot
      ([commit_refines_map]); a scope, the library, a scene and a source are
      refinements of abstract maps with versions under every run of
      operations and every allocation failure ([replica_follows_authority],
      [library_refines], [scene_refines], [origin_refines]); history replays are
      complete or refused ([replay_complete], [scene_replays], [origin_delivers]).
    - Catalog at run time: whatever its clients ask, the clock answers and the
      allocator refuses, the state stands for the facts of every source and the
      merged ones, which change by lapses, whole writes and whole receipts only
      ([catalog_refines], [catalog_writes], [catalog_receives]); a live fact of any
      source is public until its deadline unless a higher version is known
      ([catalog_serves]), and a read shows nothing older than one tick and nothing below
      the highest version ([catalog_timely]).
    - Coordination: one stream per member, monotone incarnations, symmetric
      resolution of simultaneous dials ([topology_safe]); no notification is
      lost and rounds drain ([no_lost_wakeup], [rounds_drain]).
    - Client: what a Comet shows is a complete batch the Star sent, versions
      never go back, and a failure keeps the last complete contents
      ([projection_refines], [projection_ordered], [accept_safe]); a registration
      keeps its attribute ([attr_immutable]).
    - End to end: a captured batch is sent once and completely, in bounded pages
      ([edition_pages]); a client that consumes it shows exactly the Star's records at
      the Star's version, or keeps what it had, after any watches it has had before, and
      the pages never break its protocol; the Star refuses only when its clock does not
      answer ([watch_delivers]).
    - Between Stars: a fact reads back as it was sent ([parcel_roundtrip]); the packets of
      a sender are the source's events in order and whole captures of its facts, whatever
      is written meanwhile, and sending never gets stuck ([dispatch_conveys]); a receiver
      takes in a whole baseline or nothing ([landing_exact]), and a sender's capture lands
      as exactly the facts captured ([capture_lands]).  A stream applies the peer's events
      without gap or repetition and acknowledges only what is installed
      ([stream_in_order]); the shared budget is charged with exactly what the streams hold,
      through every error and exception ([exchange_accounts]); the installation of a
      baseline ends, and ends well only when every scope has been installed
      ([restore_settles]).

    - Pulsar: the registry is an append-only log of grants through crashes, failing calls and
      commits of unknown outcome ([ledger_durable]); admissions are fenced over restarts
      ([ledger_fences]), a restart brings everything back ([ledger_recovers]) and what may be
      granted is granted ([ledger_grants]).  Accounts are well formed ([accounts_typed]);
      an admission is given after authentication only, verifies, and lists the current
      members ([admission_current]); a Planet is offered a bounded choice that reaches every
      Star ([candidates_fair]).
    - Time from end to end: with an honest kernel on Pulsar's host and drifts within the
      budgets, a reading of a Star is within its declared error of the reference, up to the
      80 microseconds of drift that the code leaves out of it ([star_time_accurate]); the
      time service stays within its permits and answers, and each answer is true of the
      instants it was read at ([pulse_bounded]).

    ** Bounds and fuel

    Loops whose recursion is not structural take a fuel argument, with the
    enough-fuel argument next to the definition: the wheel cascades at most
    [Levels] times; a visit of the page tree descends [height] levels, and the
    height is at most 16 because a slot number has 64 bits; bit scans consume
    one bit per step; the text scanner consumes at least one byte per step; a round of
    [Exchange.drain] applies at most 256 events and drops a packet otherwise; an
    installation takes at most two steps per scope and two more.
    The theorems are about the fuelled functions at the fuel the definitions fix,
    so they include that the loop ends.

    ** Not modelled

    What a state does to install a scope of a remote source ([install] and [restore] of
    [catalog_replica.cpp]) and the runtime state of the Ephemeris: the replication uses
    them through the class [Store].  The gRPC reactors, sessions and services of Star
    ([downstream.hpp], [gateway.cpp], the services), the durable store,
    process, certificate and option handling, the assembly of Pulsar's servers, the Planet
    node and the networking of Comet are code around system and library calls.
    Of [downstream.hpp] only the choice of the first batch is modelled.  The Go, Rust,
    Lua and web parts are other programs, and the SDKs under [src/sdk] are frozen
    ([src/legacy-sdk.md]).  Memory ordering between a reader that drops a view and the
    next writer is not expressed: views are values. *)
From Stdlib Require Import Strings.Byte.
From stdpp Require Import base numbers strings gmap sorting list.

#[global] Set Default Goal Selector "!".
#[global] Open Scope Z_scope.
#[global] Set Warnings "-clear-no-such-hyp".

(** ** Machine integers

    [std::uint64_t], [std::size_t] and the unsigned [std::chrono] counts are
    [Z] values in [0, 2^64); signed 64-bit counts are [Z] values in
    [-2^63, 2^63).  Wrap-around is always written out with [wrap64]. *)
Definition u64_size : Z := 2 ^ 64.
Definition u64_max : Z := 2 ^ 64 - 1.
Definition i64_max : Z := 2 ^ 63 - 1.
Definition wrap64 (z : Z) : Z := z mod u64_size.
Definition is_u64 (z : Z) : Prop := 0 <= z <= u64_max.
Definition is_i64 (z : Z) : Prop := - 2 ^ 63 <= z <= i64_max.

#[global] Instance is_u64_dec z : Decision (is_u64 z).
Proof. unfold is_u64. apply _. Defined.

Lemma wrap64_small z : is_u64 z → wrap64 z = z.
Proof. intros H. apply Z.mod_small. unfold is_u64, u64_max, u64_size in *. lia. Qed.

Lemma wrap64_u64 z : is_u64 (wrap64 z).
Proof.
  unfold is_u64, wrap64, u64_max, u64_size.
  pose proof (Z.mod_pos_bound z (2 ^ 64) ltac:(lia)). lia.
Qed.

Lemma wrap64_idemp z : wrap64 (wrap64 z) = wrap64 z.
Proof. apply wrap64_small, wrap64_u64. Qed.

(** ** Payloads

    [std::vector<std::uint8_t>].  The sources share immutable payloads behind
    [std::shared_ptr<const Buffer>] and compare the pointers before the bytes;
    equal pointers have equal bytes, so an owned payload is its bytes and a
    null pointer is [None]. *)
Definition Buffer : Type := list Byte.byte.
Definition Value : Type := option Buffer.

#[global] Instance byte_eq_dec : EqDecision Byte.byte.
Proof. intros a b. apply Byte.byte_eq_dec. Defined.
#[global] Instance buffer_eq_dec : EqDecision Buffer.
Proof. unfold Buffer. apply _. Defined.

Definition buffer_size (b : Buffer) : Z := Z.of_nat (length b).

(** ** Results

    [std::expected<A, E>]: a value or a domain error. *)
Inductive expected (A E : Type) : Type :=
| Expected (a : A)
| Unexpected (e : E).
Arguments Expected {A E} a.
Arguments Unexpected {A E} e.

(** Exceptions the sources throw or let through. *)
Inductive exn : Type :=
| bad_alloc
| logic_error
| invalid_argument
| overflow_error
| length_error
| out_of_range
| runtime_error.

#[global] Instance exn_eq_dec : EqDecision exn.
Proof. solve_decision. Defined.

Inductive outcome (A : Type) : Type :=
| Done (a : A)
| Thrown (e : exn).
Arguments Done {A} a.
Arguments Thrown {A} e.

(** ** Effects

    Code that allocates, throws and mutates is a function of a state [S] and
    of an allocation script: [true] makes the next allocation throw
    [std::bad_alloc], [false] or the end of the script lets it succeed.  The
    state reached before an exception is kept, as in C++. *)
Definition faults : Type := list bool.
Definition eff (S A : Type) : Type := S → faults → outcome A * S * faults.

Definition ret {S A} (a : A) : eff S A := λ s f, (Done a, s, f).

Definition bind {S A B} (m : eff S A) (k : A → eff S B) : eff S B :=
  λ s f,
    match m s f with
    | (Done a, s', f') => k a s' f'
    | (Thrown e, s', f') => (Thrown e, s', f')
    end.

Definition throw {S A} (e : exn) : eff S A := λ s f, (Thrown e, s, f).
Definition read {S} : eff S S := λ s f, (Done s, s, f).
Definition gets {S A} (g : S → A) : eff S A := λ s f, (Done (g s), s, f).
Definition modify {S} (g : S → S) : eff S unit := λ s f, (Done tt, g s, f).

Definition alloc {S} : eff S unit :=
  λ s f,
    match f with
    | true :: f' => (Thrown bad_alloc, s, f')
    | false :: f' => (Done tt, s, f')
    | [] => (Done tt, s, [])
    end.

(** [try m catch (...) { h; throw; }]: the handler runs and the exception
    continues. *)
Definition on_throw {S A} (m : eff S A) (h : eff S unit) : eff S A :=
  λ s f,
    match m s f with
    | (Thrown e, s', f') =>
        match h s' f' with
        | (Done _, s'', f'') => (Thrown e, s'', f'')
        | (Thrown e', s'', f'') => (Thrown e', s'', f'')
        end
    | r => r
    end.

(** Run code on a component of the state. *)
Definition zoom {S T A} (get : S → T) (put : T → S → S) (m : eff T A) : eff S A :=
  λ s f, let '(r, t, f') := m (get s) f in (r, put t s, f').

(** A computation that only throws or returns, without touching the state. *)
Definition lift {S A} (o : outcome A) : eff S A := λ s f, (o, s, f).

Declare Scope eff_scope.
Delimit Scope eff_scope with eff.
#[global] Open Scope eff_scope.
Notation "x <- m ;; k" := (bind m (λ x, k))
  (at level 100, m at next level, right associativity) : eff_scope.
Notation "m ;;; k" := (bind m (λ _, k))
  (at level 100, right associativity) : eff_scope.

(** The next step after a fallible one, which returns its error at once. *)
Notation "x <-? m ;; k" :=
  (bind m (λ r, match r with Expected x => k | Unexpected e => ret (Unexpected e) end))
  (at level 100, m at next level, right associativity) : eff_scope.

(** The lifetime of an object whose destructor undoes work: [undo] runs when the
    rest of the block throws or returns an error. *)
Definition scoped {S A F} (undo : S → S) (m : eff S (expected A F)) : eff S (expected A F) :=
  r <- on_throw m (modify undo) ;;
  match r with
  | Expected _ => ret r
  | Unexpected _ => modify undo ;;; ret r
  end.

(** ** A weakest-precondition calculus for [eff]

    [Reliable] runs have no allocation failure; [Faulty] runs may fail at any
    allocation.  [wp mode m Q E s]: every run of [m] from [s] ends in a value
    satisfying [Q] or in an exception satisfying [E]. *)
Inductive reliability : Type := Reliable | Faulty.

Definition admits (r : reliability) (f : faults) : Prop :=
  match r with Reliable => f = [] | Faulty => True end.

Definition wp {S A} (r : reliability) (m : eff S A)
    (Q : A → S → Prop) (E : exn → S → Prop) (s : S) : Prop :=
  ∀ f, admits r f →
    match m s f with
    | (Done a, s', f') => admits r f' ∧ Q a s'
    | (Thrown e, s', f') => admits r f' ∧ E e s'
    end.

Section wp_rules.
Context {S : Type} (r : reliability).
Implicit Types (s : S) (E : exn → S → Prop).

Lemma wp_ret {A} (a : A) Q E s : Q a s → wp r (ret a) Q E s.
Proof. intros HQ f Hf. by split. Qed.

Lemma wp_bind {A B} (m : eff S A) (k : A → eff S B) Q E s :
  wp r m (λ a s', wp r (k a) Q E s') E s → wp r (bind m k) Q E s.
Proof.
  intros Hm f Hf. specialize (Hm f Hf). unfold bind.
  destruct (m s f) as [[[a|e] s'] f']; [|done].
  destruct Hm as [Hf' Hk]. exact (Hk f' Hf').
Qed.

Lemma wp_assoc {A B C} (m : eff S A) (k : A → eff S B) (j : B → eff S C) Q E s :
  wp r (bind (bind m k) j) Q E s → wp r (bind m (λ a, bind (k a) j)) Q E s.
Proof.
  intros H f Hf. specialize (H f Hf). unfold bind in *.
  by destruct (m s f) as [[[a|e] s'] f'].
Qed.

Lemma wp_throw {A} e Q E s : E e s → wp r (throw (A:=A) e) Q E s.
Proof. intros HE f Hf. by split. Qed.

Lemma wp_read Q E s : Q s s → wp r read Q E s.
Proof. intros HQ f Hf. by split. Qed.

Lemma wp_gets {A} (g : S → A) Q E s : Q (g s) s → wp r (gets g) Q E s.
Proof. intros HQ f Hf. by split. Qed.

Lemma wp_modify (g : S → S) Q E s : Q tt (g s) → wp r (modify g) Q E s.
Proof. intros HQ f Hf. by split. Qed.

Lemma wp_alloc Q E s :
  Q tt s → (r = Faulty → E bad_alloc s) → wp r alloc Q E s.
Proof.
  intros HQ HE f Hf. destruct r; simpl in *.
  - by subst.
  - destruct f as [|[] f]; simpl; auto.
Qed.

Lemma wp_on_throw {A} (m : eff S A) h Q E s :
  wp r m Q (λ e s', wp r h (λ _ s'', E e s'') E s') s →
  wp r (on_throw m h) Q E s.
Proof.
  intros Hm f Hf. specialize (Hm f Hf). unfold on_throw.
  destruct (m s f) as [[[a|e] s'] f']; [done|].
  destruct Hm as [Hf' Hh]. specialize (Hh f' Hf').
  by destruct (h s' f') as [[[?|?] ?] ?].
Qed.

Lemma wp_zoom {T A} (get : S → T) (put : T → S → S) (m : eff T A) Q E s :
  wp r m (λ a t, Q a (put t s)) (λ e t, E e (put t s)) (get s) →
  wp r (zoom get put m) Q E s.
Proof.
  intros Hm f Hf. specialize (Hm f Hf). unfold zoom.
  by destruct (m (get s) f) as [[[a|e] t] f'].
Qed.

Lemma wp_lift {A} (o : outcome A) Q E s :
  match o with Done a => Q a s | Thrown e => E e s end → wp r (lift o) Q E s.
Proof. intros H f Hf. unfold lift. by destruct o. Qed.

Lemma wp_mono {A} (m : eff S A) (Q Q' : A → S → Prop) (E E' : exn → S → Prop) s :
  wp r m Q E s → (∀ a s', Q a s' → Q' a s') → (∀ e s', E e s' → E' e s') →
  wp r m Q' E' s.
Proof.
  intros Hm HQ HE f Hf. specialize (Hm f Hf).
  destruct (m s f) as [[[a|e] s'] f']; naive_solver.
Qed.

Lemma wp_and {A} (m : eff S A) (Q Q' : A → S → Prop) (E E' : exn → S → Prop) s :
  wp r m Q E s → wp r m Q' E' s → wp r m (λ a s', Q a s' ∧ Q' a s') (λ e s', E e s' ∧ E' e s') s.
Proof.
  intros H H' f Hf. specialize (H f Hf). specialize (H' f Hf). destruct (m s f) as [[[a|e] s'] f']; naive_solver.
Qed.

Lemma wp_try {A B F} (m : eff S (expected A F)) (k : A → eff S (expected B F)) Q E s :
  wp r m (λ x s', match x with Expected a => wp r (k a) Q E s' | Unexpected e => Q (Unexpected e) s' end) E s →
  wp r (x <-? m ;; k x) Q E s.
Proof.
  intros Hm. apply wp_bind. eapply wp_mono; [exact Hm| |done]. intros [a|e] s' H; [done|by apply wp_ret].
Qed.

Lemma wp_scoped {A F} (undo : S → S) (m : eff S (expected A F)) Q E s :
  wp r m (λ x s', match x with Expected _ => Q x s' | Unexpected _ => Q x (undo s') end) (λ e s', E e (undo s')) s →
  wp r (scoped undo m) Q E s.
Proof.
  intros Hm. apply wp_bind, wp_on_throw. eapply wp_mono; [exact Hm| |].
  - intros [a|e] s' H; [by apply wp_ret|]. apply wp_bind, wp_modify. by apply wp_ret.
  - intros e s' H. by apply wp_modify.
Qed.

Lemma wp_if {A} (b : bool) (m n : eff S A) Q E s :
  (b = true → wp r m Q E s) → (b = false → wp r n Q E s) →
  wp r (if b then m else n) Q E s.
Proof. destruct b; auto. Qed.
End wp_rules.

(** Every run ends. *)
Lemma wp_true {S A} (m : eff S A) s : wp Faulty m (λ _ _, True) (λ _ _, True) s.
Proof. intros f _. by destruct (m s f) as [[[a|e] s'] f']. Qed.

(** A reliable run computes: its outcome is the one at the empty script. *)
Lemma wp_reliable_run {S A} (m : eff S A) Q E s :
  wp Reliable m Q E s →
  match m s [] with
  | (Done a, s', _) => Q a s'
  | (Thrown e, s', _) => E e s'
  end.
Proof.
  intros H. specialize (H [] eq_refl). by destruct (m s []) as [[[?|?] ?] ?]; destruct H.
Qed.

(** ** Sums over maps *)
Section map_sum.
Context {K A : Type} `{Countable K}.
Implicit Types (f g : K → A → Z) (m : gmap K A).

Definition map_sum f m : Z := map_fold (λ k a acc, f k a + acc) 0 m.

Lemma map_sum_insert_new f m i x : m !! i = None → map_sum f (<[i := x]> m) = f i x + map_sum f m.
Proof. intros Hi. unfold map_sum. rewrite map_fold_insert_L; [done| |done]. intros; lia. Qed.

Lemma map_sum_ext f g m : (∀ i x, m !! i = Some x → f i x = g i x) → map_sum f m = map_sum g m.
Proof.
  induction m as [|i x m Hi IH] using map_ind; intros Hfg; [done|]. rewrite !map_sum_insert_new by done.
  rewrite (Hfg i x) by apply lookup_insert_eq. rewrite IH; [done|]. intros j y Hj. apply (Hfg j y).
  rewrite lookup_insert_ne; [done|]. intros ->. congruence.
Qed.

Lemma map_sum_delete f m i x : m !! i = Some x → map_sum f m = f i x + map_sum f (delete i m).
Proof.
  intros Hi. rewrite <- (insert_delete_id m i x Hi) at 1. apply map_sum_insert_new, lookup_delete_eq.
Qed.

Lemma map_sum_insert f m i x y :
  m !! i = Some x → map_sum f (<[i := y]> m) = map_sum f m - f i x + f i y.
Proof.
  intros Hi. rewrite (map_sum_delete f m i x Hi), <- insert_delete_eq, map_sum_insert_new; [lia|].
  apply lookup_delete_eq.
Qed.

Lemma map_sum_nonneg f m : (∀ i x, m !! i = Some x → 0 <= f i x) → 0 <= map_sum f m.
Proof.
  induction m as [|i x m Hi IH] using map_ind; intros Hf; [done|]. rewrite map_sum_insert_new by done.
  pose proof (Hf i x (lookup_insert_eq _ _ _)). assert (0 <= map_sum f m); [|lia]. apply IH.
  intros j y Hj. apply (Hf j y). rewrite lookup_insert_ne; [done|]. intros ->. congruence.
Qed.

Lemma map_sum_member f m i x :
  (∀ j y, m !! j = Some y → 0 <= f j y) → m !! i = Some x → 0 <= f i x <= map_sum f m.
Proof.
  intros Hf Hi. rewrite (map_sum_delete f m i x Hi). pose proof (Hf i x Hi).
  assert (0 <= map_sum f (delete i m)); [|lia]. apply map_sum_nonneg.
  intros j y [_ Hj]%lookup_delete_Some. by apply Hf.
Qed.
End map_sum.

(** The elements of a [std::map] in its iteration order. *)
Definition in_order {A} (m : gmap string A) : list (string * A) :=
  merge_sort (λ p q, String.le p.1 q.1) (map_to_list m).

Lemma in_order_elem {A} (m : gmap string A) k x : (k, x) ∈ in_order m ↔ m !! k = Some x.
Proof. unfold in_order. rewrite merge_sort_Permutation. apply elem_of_map_to_list. Qed.

Lemma in_order_nodup {A} (m : gmap string A) : NoDup (in_order m).
Proof. unfold in_order. rewrite merge_sort_Permutation. apply NoDup_map_to_list. Qed.

Create HintDb astra.
#[export] Hint Resolve wrap64_small wrap64_u64 : astra.

(** One structural step of a [wp] goal. *)
Ltac wp_step :=
  lazymatch goal with
  | |- wp _ (bind _ _) _ _ _ => apply wp_bind
  | |- wp _ (ret _) _ _ _ => apply wp_ret
  | |- wp _ (throw _) _ _ _ => apply wp_throw
  | |- wp _ read _ _ _ => apply wp_read
  | |- wp _ (gets _) _ _ _ => apply wp_gets
  | |- wp _ (modify _) _ _ _ => apply wp_modify
  | |- wp _ alloc _ _ _ => apply wp_alloc; [|intros _]
  | |- wp _ (on_throw _ _) _ _ _ => apply wp_on_throw
  | |- wp _ (zoom _ _ _) _ _ _ => apply wp_zoom
  | |- wp _ (lift _) _ _ _ => apply wp_lift
  end.
