(* ===== verification/Wheel.v ===== *)
(** The hierarchical timing wheel of [astra/common/src/wheel.hpp].

    A wheel has [Levels] arrays of [2 ^ Bits] slots; a node hangs in the slot
    its deadline selects on the level its remaining delay selects, and drops
    to lower levels as the logical clock reaches the slot.  The intrusive
    lists of nodes are lists of node names here; the rest of the state is the
    source's.  The theorems show that this scheme is an exact timer: a node
    becomes ready at the tick its deadline names, never earlier and never
    later, across cascades and across the wrap-around of the 64-bit clock. *)
From stdpp Require Import base numbers gmap list.
From S2P Require Import Prelude.

(** Template parameters of [Wheel] and its [requires] clause. *)
Class Geometry := { Levels : nat; Bits : Z }.
Class GeometryOk (G : Geometry) : Prop := {
  levels_pos : (0 < Levels)%nat;
  bits_pos : 0 < Bits;
  bits_max : Bits <= 10;
  levels_max : Z.of_nat Levels <= 64 / Bits
}.

Definition slots `{Geometry} : Z := Z.shiftl 1 Bits.
Definition mask `{Geometry} : Z := slots - 1.
Definition limit `{Geometry} : Z :=
  Z.shiftr u64_max (64 - Z.of_nat Levels * Bits).

(** [std::bit_width] and [std::countr_zero] on 64-bit values. *)
Definition bit_width (z : Z) : Z := if z =? 0 then 0 else Z.log2 z + 1.
Fixpoint pos_ctz (p : positive) : Z :=
  match p with
  | xO q => 1 + pos_ctz q
  | _ => 0
  end.
Definition countr_zero (z : Z) : Z :=
  match z with
  | Zpos p => pos_ctz p
  | _ => 64
  end.

(** Level a remaining delay selects, from its highest set bit. *)
Definition level_of `{Geometry} (remaining : Z) : nat :=
  Z.to_nat ((bit_width (Z.lor remaining 1) - 1) / Bits).

Section wheel.
Context `{G : Geometry} {N : Type} `{Countable N}.

Record wheel := Wheel {
  clock_ : Z;
  ready_ : list N;
  busy_ : bool;
  wheels_ : gmap (nat * Z) (list N);
  deadline_ : gmap N Z
}.

Definition set_clock (c : Z) (w : wheel) : wheel :=
  Wheel c (ready_ w) (busy_ w) (wheels_ w) (deadline_ w).
Definition set_ready (q : list N) (w : wheel) : wheel :=
  Wheel (clock_ w) q (busy_ w) (wheels_ w) (deadline_ w).
Definition set_busy (b : bool) (w : wheel) : wheel :=
  Wheel (clock_ w) (ready_ w) b (wheels_ w) (deadline_ w).
Definition set_wheels (m : gmap (nat * Z) (list N)) (w : wheel) : wheel :=
  Wheel (clock_ w) (ready_ w) (busy_ w) m (deadline_ w).
Definition set_deadline (n : N) (d : Z) (w : wheel) : wheel :=
  Wheel (clock_ w) (ready_ w) (busy_ w) (wheels_ w) (<[n := d]> (deadline_ w)).

(** [explicit Wheel(std::uint64_t initial_tick)]. *)
Definition make (initial_tick : Z) : wheel :=
  Wheel initial_tick [] false ∅ ∅.

Definition now (w : wheel) : Z := clock_ w.

Definition bucket (w : wheel) (level : nat) (slot : Z) : list N :=
  default [] (wheels_ w !! (level, slot)).

(** Slot index of a tick count on a level: [(t >> (level * Bits)) & mask]. *)
Definition digit (level : nat) (t : Z) : Z :=
  Z.land (Z.shiftr t (Z.of_nat level * Bits)) mask.

Definition deadline_of (w : wheel) (n : N) : Z := default 0 (deadline_ w !! n).

(** [Node::scheduled]: the node hangs in a slot or in the ready queue. *)
Definition scheduled (w : wheel) (n : N) : bool :=
  bool_decide (n ∈ ready_ w) ||
  existsb (λ e : nat * Z * list N, bool_decide (n ∈ e.2)) (map_to_list (wheels_ w)).

Definition without (n : N) (l : list N) : list N := filter (λ m, m ≠ n) l.

Definition cancel (n : N) (w : wheel) : wheel :=
  set_ready (without n (ready_ w)) (set_wheels (without n <$> wheels_ w) w).

Definition insert (n : N) (w : wheel) : wheel :=
  let remaining := wrap64 (deadline_of w n - clock_ w) in
  let level := level_of remaining in
  let slot := digit level (deadline_of w n) in
  set_wheels (<[(level, slot) := n :: bucket w level slot]> (wheels_ w)) w.

Definition schedule (n : N) (delay : Z) (w : wheel) : bool * wheel :=
  if limit <? delay then (false, w)
  else
    let w1 := cancel n w in
    let w2 := set_deadline n (wrap64 (clock_ w1 + Z.max delay 1)) w1 in
    (true, insert n w2).

(** One level of the cascade loop: take the whole bucket, then re-insert its
    nodes one by one. *)
Definition cascade_level (level : nat) (w : wheel) : wheel :=
  let slot := digit level (clock_ w) in
  let nodes := bucket w level slot in
  foldl (λ w n, insert n w) (set_wheels (delete (level, slot) (wheels_ w)) w) nodes.

Fixpoint cascade (level : nat) (w : wheel) : wheel :=
  match level with
  | O => w
  | S low => cascade low (cascade_level level w)
  end.

(** The part of [tick] between the two drains: advance the clock, cascade
    the levels whose low digits are all zero, and take the due bucket. *)
Definition turn (w : wheel) : wheel :=
  let w1 := set_clock (wrap64 (clock_ w + 1)) w in
  let top := Z.to_nat (Z.min (Z.of_nat Levels - 1) (countr_zero (clock_ w1) / Bits)) in
  let w2 := cascade top w1 in
  let slot := digit 0 (clock_ w2) in
  set_ready (bucket w2 0 slot) (set_wheels (delete (0%nat, slot) (wheels_ w2)) w2).

Section callbacks.
Context {U : Type}.

(** [drain]: pop one node at a time and call [fire] with the node detached.
    The callback may cancel or reschedule any node; it cannot add to the ready
    queue, so the queue's length bounds the loop. *)
Fixpoint drain_loop (fuel : nat) (fire : N → eff (wheel * U) unit) : eff (wheel * U) unit :=
  match fuel with
  | O => ret tt
  | S fuel =>
      w <- gets fst;;
      match ready_ w with
      | [] => ret tt
      | n :: rest =>
          modify (λ s, (set_ready rest s.1, s.2));;;
          fire n;;;
          drain_loop fuel fire
      end
  end.

Definition drain (fire : N → eff (wheel * U) unit) : eff (wheel * U) unit :=
  w <- gets fst;;
  drain_loop (length (ready_ w)) fire.

Definition tick (fire : N → eff (wheel * U) unit) : eff (wheel * U) unit :=
  w <- gets fst;;
  if busy_ w then throw logic_error
  else
    modify (λ s, (set_busy true s.1, s.2));;;
    on_throw
      (drain fire;;;
       modify (λ s, (turn s.1, s.2));;;
       drain fire)
      (modify (λ s, (set_busy false s.1, s.2)));;;
    modify (λ s, (set_busy false s.1, s.2)).
End callbacks.
End wheel.

Arguments wheel N {_ _}.

(** ** Arithmetic of levels and digits *)
Section arithmetic.
Context `{G : Geometry} `{GOK : !GeometryOk G}.

(** Width of one slot of a level, in ticks. *)
Definition width (level : nat) : Z := 2 ^ (Z.of_nat level * Bits).

Lemma bits_nonneg : 0 <= Bits.
Proof. pose proof bits_pos. lia. Qed.

Lemma level_bits level : (level < Levels)%nat → Z.of_nat level * Bits + Bits <= 64.
Proof.
  intros Hl. pose proof levels_max as Hm. pose proof bits_pos as Hb.
  assert (Z.of_nat Levels * Bits <= 64).
  { pose proof (Z.mul_div_le 64 Bits Hb). nia. }
  nia.
Qed.

Lemma width_pos level : 0 < width level.
Proof. apply Z.pow_pos_nonneg; [lia|]. pose proof bits_nonneg. nia. Qed.

Lemma width_0 : width 0 = 1.
Proof. reflexivity. Qed.

Lemma width_S level : width (S level) = width level * slots.
Proof.
  unfold width, slots. rewrite Z.shiftl_1_l. pose proof bits_nonneg.
  rewrite <- Z.pow_add_r by nia. f_equal. lia.
Qed.

Lemma slots_gt1 : 2 <= slots.
Proof.
  unfold slots. rewrite Z.shiftl_1_l. pose proof bits_pos.
  pose proof (Z.pow_le_mono_r 2 1 Bits). lia.
Qed.

Lemma width_mono a b : (a <= b)%nat → width a <= width b.
Proof.
  intros Hab. unfold width. pose proof bits_nonneg.
  apply Z.pow_le_mono_r; [lia|nia].
Qed.

Lemma width_divide_u64 level : (level < Levels)%nat → (width level * slots | u64_size).
Proof.
  intros Hl. rewrite <- width_S. unfold width, u64_size.
  pose proof (level_bits level Hl). pose proof bits_nonneg.
  exists (2 ^ (64 - Z.of_nat (S level) * Bits)).
  rewrite <- Z.pow_add_r by nia. f_equal. lia.
Qed.

Lemma digit_spec level t : digit level t = t / width level mod slots.
Proof.
  unfold digit, mask, slots, width. pose proof bits_nonneg.
  rewrite Z.shiftr_div_pow2 by nia. rewrite Z.shiftl_1_l.
  replace (2 ^ Bits - 1) with (Z.ones Bits) by (rewrite Z.ones_equiv; lia).
  by rewrite Z.land_ones by lia.
Qed.

Lemma digit_wrap level t : (level < Levels)%nat → digit level (wrap64 t) = digit level t.
Proof.
  intros Hl. rewrite !digit_spec.
  destruct (width_divide_u64 level Hl) as [k Hk].
  pose proof (width_pos level). pose proof slots_gt1.
  assert (Hw : wrap64 t = t + (- (t / u64_size) * k * slots) * width level).
  { unfold wrap64. rewrite Z.mod_eq by (unfold u64_size; lia). rewrite Hk at 1. ring. }
  rewrite Hw, Z.div_add by lia. by rewrite Z_mod_plus_full.
Qed.

Lemma limit_spec : limit = width Levels - 1.
Proof.
  unfold limit, u64_max, width.
  pose proof (level_bits (Levels - 1)). pose proof levels_pos. pose proof bits_nonneg.
  assert (Z.of_nat Levels * Bits <= 64) by (specialize (H ltac:(lia)); nia).
  rewrite Z.shiftr_div_pow2 by nia.
  replace (2 ^ 64) with (2 ^ (Z.of_nat Levels * Bits) * 2 ^ (64 - Z.of_nat Levels * Bits)).
  2:{ rewrite <- Z.pow_add_r by nia. f_equal. lia. }
  set (p := 2 ^ (64 - _)). set (q := 2 ^ _).
  assert (0 < p) by (apply Z.pow_pos_nonneg; lia).
  symmetry. apply (Z.div_unique _ _ _ (p - 1)); lia.
Qed.

Lemma limit_u64 : 0 < limit <= u64_max.
Proof.
  rewrite limit_spec. unfold u64_max.
  destruct Levels as [|k] eqn:E; [pose proof levels_pos; lia|].
  pose proof (width_divide_u64 k ltac:(lia)) as Hd. rewrite <- width_S in Hd.
  apply Z.divide_pos_le in Hd; [|unfold u64_size; lia]. unfold u64_size in Hd.
  pose proof (width_S k). pose proof (width_pos k). pose proof slots_gt1. nia.
Qed.

(** [std::countr_zero]: the largest power of two dividing a positive value. *)
Lemma pos_ctz_nonneg p : 0 <= pos_ctz p.
Proof. induction p; simpl; lia. Qed.

Lemma pos_ctz_divide p k : 0 <= k → (2 ^ k | Zpos p) ↔ k <= pos_ctz p.
Proof.
  revert k. induction p as [p IH|p IH|]; intros k Hk; cbn [pos_ctz].
  - split; [|intros; assert (k = 0) as -> by lia; apply Z.divide_1_l].
    intros [q Hq]. destruct (decide (k = 0)); [lia|].
    replace k with (1 + (k - 1)) in Hq by lia. rewrite Z.pow_add_r in Hq by lia. lia.
  - destruct (decide (k = 0)) as [->|].
    { pose proof (pos_ctz_nonneg p). split; [lia|]. intros; apply Z.divide_1_l. }
    replace (Zpos (xO p)) with (2 * Zpos p) by lia.
    replace k with (1 + (k - 1)) at 1 by lia. rewrite Z.pow_add_r by lia.
    rewrite Z.mul_divide_cancel_l by lia. rewrite IH by lia. lia.
  - split; [|intros; assert (k = 0) as -> by lia; apply Z.divide_1_l].
    intros [q Hq]. destruct (decide (k = 0)); [lia|].
    replace k with (1 + (k - 1)) in Hq by lia. rewrite Z.pow_add_r in Hq by lia. lia.
Qed.

Lemma countr_zero_divide c k : is_u64 c → 0 <= k <= 64 → (2 ^ k | c) ↔ k <= countr_zero c.
Proof.
  unfold is_u64. intros Hc Hk. destruct c as [|p|p]; simpl.
  - split; [lia|]. intros; apply Z.divide_0_r.
  - apply pos_ctz_divide. lia.
  - lia.
Qed.

Lemma countr_zero_nonneg c : 0 <= countr_zero c.
Proof. destruct c; simpl; try lia. apply pos_ctz_nonneg. Qed.

(** The topmost level the cascade loop starts from is the topmost one whose
    slot boundary the clock has reached. *)
Lemma cascade_top c level :
  is_u64 c → (0 < level < Levels)%nat →
  (width level | c) ↔
    (level <= Z.to_nat (Z.min (Z.of_nat Levels - 1) (countr_zero c / Bits)))%nat.
Proof.
  intros Hc Hl. pose proof (level_bits level ltac:(lia)). pose proof bits_pos.
  unfold width. rewrite (countr_zero_divide c _ Hc) by (split; nia).
  pose proof (countr_zero_nonneg c) as Hn.
  assert (0 <= countr_zero c / Bits) by (apply Z.div_pos; lia).
  assert (Z.of_nat level * Bits <= countr_zero c ↔ Z.of_nat level <= countr_zero c / Bits) as ->.
  { split; intros Hx.
    - apply Z.div_le_lower_bound; lia.
    - pose proof (Z.mul_div_le (countr_zero c) Bits). nia. }
  lia.
Qed.

Lemma level_of_spec r :
  0 <= r <= limit →
  (level_of r < Levels)%nat ∧ r < width (S (level_of r)) ∧
  (0 < r → width (level_of r) <= r) ∧ (r = 0 → level_of r = 0%nat).
Proof.
  intros Hr. pose proof bits_pos as Hb. pose proof limit_spec as Hlim.
  assert (Hk : level_of r = Z.to_nat (Z.log2 r / Bits)).
  { unfold level_of, bit_width. destruct (Z.eqb_spec (Z.lor r 1) 0) as [E|_].
    - apply Z.lor_eq_0_iff in E. lia.
    - rewrite Z.log2_lor by lia. change (Z.log2 1) with 0.
      rewrite Z.max_l by apply Z.log2_nonneg. f_equal. f_equal. lia. }
  pose proof (Z.log2_nonneg r) as Hl0.
  assert (Hq : Z.of_nat (level_of r) = Z.log2 r / Bits).
  { rewrite Hk, Z2Nat.id; [done|]. apply Z.div_pos; lia. }
  pose proof (Z.mul_div_le (Z.log2 r) Bits Hb) as Hlo.
  pose proof (Z.mul_succ_div_gt (Z.log2 r) Bits Hb) as Hhi.
  destruct (decide (r = 0)) as [->|Hnz].
  { simpl in Hk. pose proof levels_pos.
    assert (Hk0 : level_of 0 = 0%nat) by (rewrite Hk; reflexivity).
    rewrite Hk0. pose proof (width_pos 1). lia. }
  pose proof (Z.log2_spec r ltac:(lia)) as [Hs1 Hs2].
  split_and!.
  - assert (Z.log2 r < Z.of_nat Levels * Bits) as Hlt.
    { unfold width in Hlim. apply Z.log2_lt_pow2; lia. }
    assert (Z.log2 r / Bits < Z.of_nat Levels).
    { apply Z.div_lt_upper_bound; lia. }
    lia.
  - eapply Z.lt_le_trans; [exact Hs2|]. unfold width.
    apply Z.pow_le_mono_r; [lia|]. rewrite Nat2Z.inj_succ, Hq. lia.
  - intros _. etrans; [|exact Hs1]. unfold width.
    apply Z.pow_le_mono_r; [lia|]. rewrite Hq. lia.
  - lia.
Qed.

(** Where a node with remaining delay [r] may hang on a level at clock [c]:
    strictly ahead of the clock's slot ([pend] also admits the clock's own
    slot, while it is being cascaded) and at most one revolution ahead. *)
Definition fits (pend : bool) (level : nat) (c r : Z) : Prop :=
  let q := (c + r) / width level - c / width level in
  (if pend then 0 else 1) <= q <= slots - (if c mod width level =? 0 then 1 else 0).

Lemma div_succ c p :
  0 < p → (c + 1) / p = if (c + 1) mod p =? 0 then c / p + 1 else c / p.
Proof.
  intros Hp. pose proof (Z.div_mod c p ltac:(lia)). pose proof (Z.mod_pos_bound c p Hp).
  pose proof (Z.div_mod (c + 1) p ltac:(lia)). pose proof (Z.mod_pos_bound (c + 1) p Hp).
  destruct (Z.eqb_spec ((c + 1) mod p) 0); nia.
Qed.

Lemma fits_tick level c r :
  fits false level c r →
  fits ((c + 1) mod width level =? 0) level (c + 1) (r - 1).
Proof.
  unfold fits. pose proof (width_pos level) as Hp. set (p := width level) in *.
  replace (c + 1 + (r - 1)) with (c + r) by lia. rewrite (div_succ c p Hp).
  destruct (Z.eqb_spec ((c + 1) mod p) 0) as [E|E]; [destruct (c mod p =? 0); lia|].
  destruct (Z.eqb_spec (c mod p) 0) as [E'|E']; [lia|].
  lia.
Qed.

Lemma fits_wrap pend level c r :
  (level < Levels)%nat → fits pend level (wrap64 c) r ↔ fits pend level c r.
Proof.
  intros Hl. destruct (width_divide_u64 level Hl) as [k Hk].
  pose proof (width_pos level) as Hp. unfold fits. set (p := width level) in *.
  assert (Hw : wrap64 c = c + (- (c / u64_size) * k * slots) * p).
  { unfold wrap64. rewrite Z.mod_eq by (unfold u64_size; lia). rewrite Hk at 1. ring. }
  set (z := - (c / u64_size) * k * slots) in *.
  replace (wrap64 c + r) with (c + r + z * p) by lia.
  rewrite Hw, !Z.div_add, Z_mod_plus_full by lia.
  replace ((c + r) / p + z - (c / p + z)) with ((c + r) / p - c / p) by lia. done.
Qed.

(** A freshly inserted node fits its level. *)
Lemma fits_level_of pend c r :
  0 <= r <= limit → (r = 0 → pend = true) → fits pend (level_of r) c r.
Proof.
  intros Hr Hz. destruct (level_of_spec r Hr) as (_ & Hhi & Hlo & H0).
  rewrite width_S in Hhi. unfold fits.
  pose proof (width_pos (level_of r)) as Hp. set (p := width (level_of r)) in *.
  pose proof slots_gt1. pose proof (Z.div_mod c p ltac:(lia)).
  pose proof (Z.mod_pos_bound c p Hp).
  pose proof (Z.div_mod (c + r) p ltac:(lia)). pose proof (Z.mod_pos_bound (c + r) p Hp).
  split.
  - destruct (decide (r = 0)) as [->|].
    + rewrite Hz by done. rewrite Z.add_0_r. lia.
    + specialize (Hlo ltac:(lia)). destruct pend; nia.
  - destruct (Z.eqb_spec (c mod p) 0); nia.
Qed.

(** On a slot boundary, the nodes of the clock's own slot are exactly the
    fitting ones that are less than one slot away. *)
Lemma fits_own_slot pend level c r :
  fits pend level c r → (width level | c) →
  digit level (c + r) = digit level c ↔ (c + r) / width level = c / width level.
Proof.
  intros [Hlo Hhi] Hd. rewrite !digit_spec. split; [|by intros ->].
  pose proof (width_pos level) as Hp. set (p := width level) in *.
  apply Z.mod_divide in Hd; [|lia]. rewrite Hd in Hhi. simpl in Hhi.
  intros Heq. assert (Hs : slots ≠ 0) by (pose proof slots_gt1; lia).
  pose proof (Z.div_mod ((c + r) / p) slots Hs).
  pose proof (Z.div_mod (c / p) slots Hs).
  assert ((c + r) / p - c / p = slots * ((c + r) / p / slots - c / p / slots)) by lia.
  set (z := (c + r) / p / slots - c / p / slots) in *.
  assert (0 <= (c + r) / p - c / p <= slots - 1) by (destruct pend; lia).
  assert (z = 0) by (pose proof slots_gt1; nia). lia.
Qed.

Lemma fits_leave_slot pend level c r :
  fits pend level c r → (c + r) / width level ≠ c / width level →
  fits false level c r.
Proof. unfold fits. destruct pend; lia. Qed.
End arithmetic.

(** ** The invariant and the cascade *)
Section correctness.
Context `{G : Geometry} `{GOK : !GeometryOk G} {N : Type} `{Countable N}.
Implicit Types (w : wheel N) (n m : N).

Inductive place : Type := InReady | InSlot (level : nat) (slot : Z).

Definition at_place w (p : place) : list N :=
  match p with
  | InReady => ready_ w
  | InSlot level slot => bucket w level slot
  end.

(** Ticks left until the node's deadline, modulo the clock's width. *)
Definition left w n : Z := wrap64 (deadline_of w n - clock_ w).

Definition home w n : place :=
  InSlot (level_of (left w n)) (digit (level_of (left w n)) (deadline_of w n)).

Definition hangs w n : Prop := ∃ level slot, n ∈ bucket w level slot.

Record slot_ok (pend : nat → bool) w (level : nat) (slot : Z) n : Prop := {
  slot_level : (level < Levels)%nat;
  slot_deadline : is_u64 (deadline_of w n);
  slot_digit : slot = digit level (deadline_of w n);
  slot_left : left w n <= limit;
  slot_fits : fits (pend level) level (clock_ w) (left w n)
}.

(** [pend] marks the levels whose current slot is still to be cascaded and
    [loose] the nodes taken out of a bucket and not yet re-inserted; both are
    trivial between operations. *)
Record inv (pend : nat → bool) (loose : list N) w : Prop := {
  inv_clock : is_u64 (clock_ w);
  inv_slot : ∀ level slot n, n ∈ bucket w level slot → slot_ok pend w level slot n;
  inv_nodup : ∀ p, NoDup (at_place w p);
  inv_unique : ∀ p p' n, n ∈ at_place w p → n ∈ at_place w p' → p = p';
  inv_loose_nodup : NoDup loose;
  inv_loose : ∀ p n, n ∈ loose → n ∉ at_place w p;
  inv_loose_left : ∀ n, n ∈ loose → is_u64 (deadline_of w n) ∧ left w n <= limit
}.

Definition wf w : Prop := inv (λ _, false) [] w.

Lemma bucket_insert w level slot q level' slot' :
  bucket (set_wheels (<[(level, slot) := q]> (wheels_ w)) w) level' slot' =
  if decide ((level, slot) = (level', slot')) then q else bucket w level' slot'.
Proof. unfold bucket. simpl. rewrite lookup_insert. by case_decide. Qed.

Lemma bucket_delete w level slot level' slot' :
  bucket (set_wheels (delete (level, slot) (wheels_ w)) w) level' slot' =
  if decide ((level, slot) = (level', slot')) then [] else bucket w level' slot'.
Proof. unfold bucket. simpl. rewrite lookup_delete. by case_decide. Qed.

Lemma scheduled_spec w n : scheduled w n = true ↔ n ∈ ready_ w ∨ hangs w n.
Proof.
  unfold scheduled, hangs, bucket. rewrite orb_true_iff, bool_decide_eq_true.
  rewrite existsb_exists. f_equiv. split.
  - intros ([[l s] q] & Hin & Hn). apply list_elem_of_In, elem_of_map_to_list in Hin.
    rewrite bool_decide_eq_true in Hn. exists l, s. by rewrite Hin.
  - intros (l & s & Hn). destruct (wheels_ w !! (l, s)) as [q|] eqn:E; [|by apply not_elem_of_nil in Hn].
    exists ((l, s), q). rewrite bool_decide_eq_true. split; [|done].
    by apply list_elem_of_In, elem_of_map_to_list.
Qed.

Lemma left_bounds w n : 0 <= left w n <= u64_max.
Proof. apply wrap64_u64. Qed.

Lemma left_zero w n :
  is_u64 (clock_ w) → is_u64 (deadline_of w n) →
  left w n = 0 ↔ deadline_of w n = clock_ w.
Proof.
  unfold left, wrap64, is_u64, u64_max, u64_size. intros Hc Hd. split.
  - intros E. apply Z.mod_divide in E as [k Hk]; [|lia]. nia.
  - intros ->. by rewrite Z.sub_diag.
Qed.

(** The deadline is the clock plus what is left, so both select one slot. *)
Lemma digit_deadline w n level :
  (level < Levels)%nat → is_u64 (deadline_of w n) →
  digit level (deadline_of w n) = digit level (clock_ w + left w n).
Proof.
  intros Hl Hd. rewrite <- (digit_wrap level (_ + _)) by done. f_equal.
  unfold left. rewrite <- (wrap64_small (deadline_of w n)) at 1 by done.
  unfold wrap64. rewrite Z.add_mod_idemp_r by (unfold u64_size; lia). f_equal. lia.
Qed.

Lemma inv_weaken pend pend' loose w :
  (∀ level, (level < Levels)%nat → pend level = true → pend' level = true) →
  inv pend loose w → inv pend' loose w.
Proof.
  intros Hp [? Hslot ?????]. split; try done.
  intros l s n Hn. destruct (Hslot l s n Hn) as [Hl ??? Hf]. split; try done.
  specialize (Hp l Hl). unfold fits in *. destruct (pend l), (pend' l); lia.
Qed.

Lemma insert_place n w p m :
  m ∈ at_place (insert n w) p ↔ m ∈ at_place w p ∨ (m = n ∧ p = home w n).
Proof.
  unfold insert, home. fold (left w n). destruct p as [|l s]; simpl.
  - set_solver.
  - rewrite bucket_insert. case_decide as E; [simplify_eq|].
    + rewrite elem_of_cons. naive_solver.
    + naive_solver.
Qed.

Lemma foldl_insert_fields ns w :
  let w' := foldl (λ w n, insert n w) w ns in
  clock_ w' = clock_ w ∧ ready_ w' = ready_ w ∧ busy_ w' = busy_ w ∧ deadline_ w' = deadline_ w.
Proof. revert w. induction ns as [|n ns IH]; intros w; [done|]. simpl. apply (IH (insert n w)). Qed.

Section insertion.
Context (pend : nat → bool).

Lemma insert_inv n loose w :
  inv pend (n :: loose) w → (left w n = 0 → pend 0%nat = true) →
  inv pend loose (insert n w).
Proof.
  intros [Hc Hslot Hnd Hu Hln Hl Hll] Hz.
  apply NoDup_cons in Hln as [Hnl Hln].
  destruct (Hll n ltac:(set_solver)) as [Hd Hleft].
  pose proof (left_bounds w n) as Hb.
  assert (Hr : 0 <= left w n <= limit) by lia.
  destruct (level_of_spec (left w n) Hr) as (Hlev & _ & _ & H0).
  split; try done.
  - intros l s m Hm. apply (insert_place n w (InSlot l s)) in Hm as [Hm|[-> Hh]].
    + destruct (Hslot l s m Hm). by split.
    + injection Hh as -> ->. split; try done.
      apply fits_level_of; [done|].
      intros E. rewrite H0 by done. auto.
  - intros p. specialize (Hnd p). destruct p as [|l s]; [done|].
    unfold insert. simpl. rewrite bucket_insert. case_decide as E; [simplify_eq|done].
    apply NoDup_cons. split; [|exact Hnd].
    apply (Hl (InSlot _ _)). set_solver.
  - intros p p' m Hm Hm'. rewrite insert_place in Hm, Hm'.
    assert (∀ q, m ∈ at_place w q → m ≠ n) as Hne.
    { intros q Hq ->. eapply Hl; [|exact Hq]. set_solver. }
    naive_solver.
  - intros p m Hm. rewrite insert_place. intros [Hp|[-> _]].
    + eapply Hl; [|exact Hp]. set_solver.
    + done.
  - intros m Hm. apply Hll. set_solver.
Qed.

Lemma foldl_insert_inv ns w :
  inv pend ns w → (∀ n, n ∈ ns → left w n = 0 → pend 0%nat = true) →
  let w' := foldl (λ w n, insert n w) w ns in
  inv pend [] w' ∧
  (∀ p m, m ∈ at_place w' p ↔ m ∈ at_place w p ∨ (m ∈ ns ∧ p = home w m)).
Proof.
  revert w. induction ns as [|n ns IH]; intros w Hi Hz; simpl.
  - split; [done|]. set_solver.
  - assert (Hz' : left w n = 0 → pend 0%nat = true) by (apply Hz; set_solver).
    destruct (IH (insert n w)) as [Hinv Hmem].
    + by apply insert_inv.
    + intros m Hm. apply Hz. set_solver.
    + split; [done|]. intros p m. rewrite (Hmem p m), insert_place.
      change (home (insert n w) m) with (home w m). set_solver.
Qed.
End insertion.

(** Two wheels that agree on everything but the layout of the slots. *)
Definition same_frame w w' : Prop :=
  clock_ w' = clock_ w ∧ ready_ w' = ready_ w ∧ busy_ w' = busy_ w ∧ deadline_ w' = deadline_ w.

Lemma same_frame_trans w1 w2 w3 : same_frame w1 w2 → same_frame w2 w3 → same_frame w1 w3.
Proof.
  intros (E1 & E2 & E3 & E4) (F1 & F2 & F3 & F4). unfold same_frame. split_and!; congruence.
Qed.

(** Taking the bucket of the clock's own slot leaves a wheel whose level has
    no pending node. *)
Lemma take_bucket_inv pend w level :
  inv pend [] w → (width level | clock_ w) → (level < Levels)%nat →
  inv (λ k, if decide (k = level) then false else pend k)
      (bucket w level (digit level (clock_ w)))
      (set_wheels (delete (level, digit level (clock_ w)) (wheels_ w)) w).
Proof.
  intros [Hc Hslot Hnd Hu _ _ _] Hdiv Hl. set (slot := digit level (clock_ w)).
  assert (Hsub : ∀ p n,
    n ∈ at_place (set_wheels (delete (level, slot) (wheels_ w)) w) p →
    n ∈ at_place w p ∧ p ≠ InSlot level slot).
  { intros [|l s] n; simpl; [done|]. rewrite bucket_delete. case_decide.
    - by intros ?%not_elem_of_nil.
    - intros; split; [done|]. congruence. }
  split.
  - done.
  - intros l s n Hn. apply (Hsub (InSlot l s)) in Hn as [Hn Hne].
    destruct (Hslot l s n Hn) as [Hlev Hd Hs Hle Hf]. split; try done.
    case_decide as E; [subst l|done].
    eapply fits_leave_slot; [exact Hf|]. intros Heq. apply Hne. f_equal.
    rewrite Hs, (digit_deadline w n level) by done.
    by eapply fits_own_slot.
  - intros [|l s]; simpl; [exact (Hnd InReady)|]. rewrite bucket_delete.
    case_decide; [constructor|exact (Hnd (InSlot l s))].
  - intros p p' n Hn Hn'. eapply Hu; by apply Hsub.
  - exact (Hnd (InSlot level slot)).
  - intros p n Hn Hp. apply Hsub in Hp as [Hp Hne].
    apply Hne. by eapply Hu; [exact Hp|].
  - intros n Hn. by destruct (Hslot _ _ _ Hn).
Qed.

Lemma cascade_level_spec pend w level :
  inv pend [] w → pend 0%nat = true → (0 < level < Levels)%nat → (width level | clock_ w) →
  let w' := cascade_level level w in
  inv (λ k, if decide (k = level) then false else pend k) [] w' ∧
  same_frame w w' ∧ (∀ n, hangs w' n ↔ hangs w n).
Proof.
  intros Hi Hp0 Hl Hdiv. unfold cascade_level. simpl.
  set (slot := digit level (clock_ w)).
  set (w1 := set_wheels (delete (level, slot) (wheels_ w)) w).
  pose proof (take_bucket_inv pend w level Hi Hdiv ltac:(lia)) as Hi1. fold slot w1 in Hi1.
  destruct (foldl_insert_inv _ (bucket w level slot) w1 Hi1) as [Hi2 Hmem].
  { intros n _ _. case_decide; [lia|done]. }
  split; [exact Hi2|]. split.
  { exact (foldl_insert_fields (bucket w level slot) w1). }
  intros n. unfold hangs. split.
  - intros (l & s & Hn). apply (Hmem (InSlot l s)) in Hn as [Hn|[Hn _]]; [|eauto].
    simpl in Hn. unfold w1 in Hn. rewrite bucket_delete in Hn.
    case_decide; [by apply not_elem_of_nil in Hn|eauto].
  - intros (l & s & Hn). destruct (decide ((level, slot) = (l, s))) as [E|E].
    + simplify_eq. eexists _, _. apply (Hmem (home w1 n)). right. split; [done|reflexivity].
    + exists l, s. apply (Hmem (InSlot l s)). left. simpl. unfold w1.
      rewrite bucket_delete. by rewrite decide_False.
Qed.

Lemma cascade_spec pend w top :
  inv pend [] w → pend 0%nat = true → (top < Levels)%nat →
  (∀ level, (0 < level <= top)%nat → (width level | clock_ w)) →
  let w' := cascade top w in
  inv (λ k, if decide (0 < k <= top)%nat then false else pend k) [] w' ∧
  same_frame w w' ∧ (∀ n, hangs w' n ↔ hangs w n).
Proof.
  revert pend w. induction top as [|top IH]; intros pend w Hi Hp0 Ht Hdiv.
  { simpl. split; [|by split]. eapply inv_weaken; [|exact Hi].
    intros k _ Hk. case_decide; [lia|done]. }
  destruct (cascade_level_spec pend w (S top) Hi Hp0 ltac:(lia) ltac:(apply Hdiv; lia))
    as (Hi1 & Hs1 & Hh1).
  destruct (IH _ (cascade_level (S top) w) Hi1) as (Hi2 & Hs2 & Hh2).
  - by rewrite decide_False by lia.
  - lia.
  - intros l Hl. destruct Hs1 as (-> & _). apply Hdiv. lia.
  - simpl. split_and!.
    + eapply inv_weaken; [|exact Hi2]. intros k _. simpl.
      repeat case_decide; (lia || done).
    + by eapply same_frame_trans.
    + intros n. by rewrite Hh2.
Qed.

(** The clock steps; every level whose slot boundary it reached is pending. *)
Lemma step_clock_inv w :
  wf w →
  inv (λ k, wrap64 (clock_ w + 1) mod width k =? 0) [] (set_clock (wrap64 (clock_ w + 1)) w).
Proof.
  intros [Hc Hslot Hnd Hu _ _ _]. split; try done; try apply wrap64_u64.
  - intros l s n Hn. destruct (Hslot l s n Hn) as [Hl Hd Hs Hle Hf].
    assert (Hleft : left (set_clock (wrap64 (clock_ w + 1)) w) n = left w n - 1).
    { assert (1 <= left w n) as H1.
      { destruct (decide (left w n = 0)) as [E|]; [|pose proof (left_bounds w n); lia].
        exfalso. unfold fits in Hf. rewrite E, Z.add_0_r, Z.sub_diag in Hf. lia. }
      pose proof (left_bounds w n) as Hb.
      rewrite <- (wrap64_small (left w n - 1)) by (unfold is_u64; lia).
      unfold left. simpl. change (deadline_of (set_clock _ w) n) with (deadline_of w n).
      unfold wrap64. rewrite Zminus_mod_idemp_r, Zminus_mod_idemp_l. f_equal. lia. }
    split; try done.
    + rewrite Hleft. lia.
    + rewrite Hleft. simpl. apply fits_wrap; [done|].
      apply fits_tick in Hf.
      destruct (width_divide_u64 l Hl) as [k Hk]. pose proof (width_pos l).
      assert (wrap64 (clock_ w + 1) mod width l = (clock_ w + 1) mod width l) as ->; [|done].
      unfold wrap64. rewrite (Z.mod_eq _ u64_size) by (unfold u64_size; lia). rewrite Hk at 1.
      replace (clock_ w + 1 - k * (width l * slots) * ((clock_ w + 1) / u64_size))
        with (clock_ w + 1 + - (k * slots * ((clock_ w + 1) / u64_size)) * width l) by ring.
      by rewrite Z_mod_plus_full.
  - constructor.
  - intros p n Hn. by apply not_elem_of_nil in Hn.
  - intros n Hn. by apply not_elem_of_nil in Hn.
Qed.

(** Collecting the due bucket after the cascade. *)
Lemma collect_spec w :
  inv (λ k, bool_decide (k = 0%nat)) [] w → ready_ w = [] →
  let slot := digit 0 (clock_ w) in
  let w' := set_ready (bucket w 0 slot) (set_wheels (delete (0%nat, slot) (wheels_ w)) w) in
  wf w' ∧
  (∀ n, n ∈ ready_ w' ↔ hangs w n ∧ deadline_of w n = clock_ w) ∧
  (∀ n, hangs w' n ↔ hangs w n ∧ deadline_of w n ≠ clock_ w).
Proof.
  intros Hi Hready slot w'. pose proof Hi as [Hc Hslot Hnd Hu _ _ _].
  pose proof levels_pos as Hlp.
  destruct (take_bucket_inv _ w 0 Hi ltac:(rewrite width_0; apply Z.divide_1_l) Hlp)
    as [_ Hslot' Hnd' Hu' Hln Hl Hll]. fold slot in Hslot', Hnd', Hu', Hln, Hl, Hll.
  assert (Hdue : ∀ n l s, n ∈ bucket w l s →
    (deadline_of w n = clock_ w ↔ (l, s) = (0%nat, slot))).
  { intros n l s Hn. destruct (Hslot l s n Hn) as [Hlev Hd Hs Hle Hf].
    rewrite <- left_zero by done. split.
    - intros E. destruct (decide (l = 0%nat)) as [->|Hne].
      + f_equal. rewrite Hs, (digit_deadline w n 0) by done. by rewrite E, Z.add_0_r.
      + exfalso. unfold fits in Hf. rewrite E, Z.add_0_r, Z.sub_diag in Hf.
        rewrite bool_decide_eq_false_2 in Hf by done. lia.
    - intros [= -> Hss]. rewrite Hs, (digit_deadline w n 0) in Hss by done.
      eapply fits_own_slot in Hss; [|exact Hf|rewrite width_0; apply Z.divide_1_l].
      rewrite width_0, !Z.div_1_r in Hss. lia. }
  assert (Hin : ∀ n l s, n ∈ bucket w' l s ↔ n ∈ bucket w l s ∧ (l, s) ≠ (0%nat, slot)).
  { intros n l s. change (bucket w' l s)
      with (bucket (set_wheels (delete (0%nat, slot) (wheels_ w)) w) l s).
    rewrite bucket_delete. case_decide; [|naive_solver].
    split; [by intros ?%not_elem_of_nil|naive_solver]. }
  split; [|split].
  - split; try done.
    + intros l s n Hn. destruct (Hslot' l s n Hn) as [???? Hf]. split; try done.
      by destruct l.
    + intros [|l s]; [exact (Hnd (InSlot 0 slot))|]. exact (Hnd' (InSlot l s)).
    + intros p p' n Hn Hn'.
      assert (Hx : ∀ l s, n ∈ bucket w 0 slot → n ∉ bucket w' l s).
      { intros l s Hq. exact (Hl (InSlot l s) n Hq). }
      destruct p as [|l s], p' as [|l' s']; simpl in *; [done|naive_solver|naive_solver|].
      exact (Hu' (InSlot l s) (InSlot l' s') n Hn Hn').
    + constructor.
    + intros p n Hn. by apply not_elem_of_nil in Hn.
    + intros n Hn. by apply not_elem_of_nil in Hn.
  - intros n. simpl. split.
    + intros Hn. split; [by exists 0%nat, slot|]. by eapply Hdue.
    + intros [(l & s & Hn) Hd]. apply (Hdue n l s Hn) in Hd. by simplify_eq.
  - intros n. unfold hangs. split.
    + intros (l & s & Hn). apply Hin in Hn as [Hn Hne]. split; [eauto|].
      by rewrite (Hdue n l s Hn).
    + intros [(l & s & Hn) Hd]. exists l, s. apply Hin. split; [done|].
      by rewrite <- (Hdue n l s Hn).
Qed.

(** C-turn: the state change of one tick. *)
Theorem turn_spec w :
  wf w → ready_ w = [] →
  let w' := turn w in
  wf w' ∧ clock_ w' = wrap64 (clock_ w + 1) ∧ busy_ w' = busy_ w ∧
  deadline_ w' = deadline_ w ∧
  (∀ n, n ∈ ready_ w' ↔ hangs w n ∧ deadline_of w n = clock_ w') ∧
  (∀ n, hangs w' n ↔ hangs w n ∧ deadline_of w n ≠ clock_ w').
Proof.
  intros Hwf Hready. unfold turn.
  set (w1 := set_clock (wrap64 (clock_ w + 1)) w).
  pose proof (step_clock_inv w Hwf) as Hi1. fold w1 in Hi1.
  assert (Hc1 : is_u64 (clock_ w1)) by apply wrap64_u64.
  set (top := Z.to_nat _).
  assert (Htop : (top < Levels)%nat) by (pose proof levels_pos; lia).
  destruct (cascade_spec _ w1 top Hi1) as (Hi2 & Hs2 & Hh2); [|done| |].
  { apply Z.eqb_eq, Z.mod_1_r. }
  { intros l Hl. apply cascade_top; [done|lia|]. fold top. lia. }
  destruct Hs2 as (Ec & Er & Eb & Ed).
  destruct (collect_spec (cascade top w1)) as (Hwf' & Hr' & Hh').
  { eapply inv_weaken; [|exact Hi2]. intros k Hk. simpl.
    case_decide as E; [done|]. intros Hd. apply bool_decide_eq_true.
    destruct (decide (k = 0%nat)); [done|]. exfalso.
    apply Z.eqb_eq, Z.mod_divide in Hd; [|pose proof (width_pos k); lia].
    apply (cascade_top (clock_ w1) k Hc1 ltac:(lia)) in Hd. fold top in Hd. lia. }
  { by rewrite Er. }
  assert (Hh1 : ∀ n, hangs w1 n ↔ hangs w n) by done.
  assert (Hdl : ∀ n, deadline_of (cascade top w1) n = deadline_of w n).
  { intros n. unfold deadline_of. by rewrite Ed. }
  split_and!; try done.
  - intros n. rewrite (Hr' n), Hh2, Hdl. simpl. by rewrite Ec.
  - intros n. rewrite (Hh' n), Hh2, Hdl. simpl. by rewrite Ec.
Qed.

(** ** [cancel] and [schedule] *)
Lemma elem_of_without n m (l : list N) : m ∈ without n l ↔ m ∈ l ∧ m ≠ n.
Proof. unfold without. rewrite list_elem_of_filter. tauto. Qed.

Lemma bucket_cancel n w level slot :
  bucket (cancel n w) level slot = without n (bucket w level slot).
Proof. unfold bucket, cancel. simpl. rewrite lookup_fmap. by destruct (wheels_ w !! _). Qed.

Lemma cancel_place n w p m : m ∈ at_place (cancel n w) p ↔ m ∈ at_place w p ∧ m ≠ n.
Proof. destruct p; simpl; rewrite ?bucket_cancel; apply elem_of_without. Qed.

Lemma cancel_inv n w : wf w → wf (cancel n w) ∧ (∀ p, n ∉ at_place (cancel n w) p).
Proof.
  intros [Hc Hslot Hnd Hu _ _ _]. split; [split|]; try done.
  - intros l s m Hm. apply (cancel_place n w (InSlot l s)) in Hm as [Hm _].
    by destruct (Hslot l s m Hm).
  - intros p. specialize (Hnd p). destruct p; simpl in *; rewrite ?bucket_cancel;
      unfold without; by apply NoDup_filter.
  - intros p p' m Hm Hm'. rewrite cancel_place in Hm, Hm'. naive_solver.
  - constructor.
  - intros p m Hm. by apply not_elem_of_nil in Hm.
  - intros m Hm. by apply not_elem_of_nil in Hm.
  - intros p. rewrite cancel_place. naive_solver.
Qed.

Lemma cancel_hangs n w m : hangs (cancel n w) m ↔ hangs w m ∧ m ≠ n.
Proof.
  unfold hangs. setoid_rewrite bucket_cancel. setoid_rewrite elem_of_without. naive_solver.
Qed.

Lemma schedule_refused n delay w : limit < delay → schedule n delay w = (false, w).
Proof. intros Hd. unfold schedule. by rewrite (proj2 (Z.ltb_lt _ _) Hd). Qed.

Lemma schedule_spec n delay w :
  wf w → delay <= limit →
  let w' := (schedule n delay w).2 in
  (schedule n delay w).1 = true ∧ wf w' ∧
  clock_ w' = clock_ w ∧ busy_ w' = busy_ w ∧ ready_ w' = without n (ready_ w) ∧
  deadline_ w' = <[n := wrap64 (clock_ w + Z.max delay 1)]> (deadline_ w) ∧
  (∀ m, hangs w' m ↔ m = n ∨ hangs w m).
Proof.
  intros Hwf Hdelay. unfold schedule.
  rewrite (proj2 (Z.ltb_ge _ _) Hdelay). simpl.
  destruct (cancel_inv n w Hwf) as [Hwf1 Hout].
  set (d := wrap64 (clock_ w + Z.max delay 1)).
  set (w1 := cancel n w) in *. set (w2 := set_deadline n d w1).
  assert (Hother : ∀ m, m ≠ n → deadline_of w2 m = deadline_of w1 m).
  { intros m Hm. unfold deadline_of, w2. simpl. by rewrite lookup_insert_ne. }
  assert (Hn : deadline_of w2 n = d).
  { unfold deadline_of, w2. simpl. by rewrite lookup_insert_eq. }
  pose proof limit_u64 as Hlim.
  assert (Hleft : left w2 n = Z.max delay 1).
  { unfold left. rewrite Hn. change (clock_ w2) with (clock_ w). unfold d, wrap64.
    rewrite Zminus_mod_idemp_l, Z.add_simpl_l. apply Z.mod_small.
    unfold u64_max, u64_size in *. lia. }
  assert (Hi2 : inv (λ _, false) [n] w2).
  { destruct Hwf1 as [Hc Hslot Hnd Hu _ _ _]. split; try done.
    - intros l s m Hm. assert (m ≠ n) as Hne by (intros ->; by apply (Hout (InSlot l s))).
      destruct (Hslot l s m Hm) as [? Hd Hs Hle Hf].
      assert (left w2 m = left w1 m) as Hl2 by (unfold left; by rewrite Hother).
      split; rewrite ?Hl2, ?(Hother m Hne); try done.
    - apply NoDup_singleton.
    - intros p m ->%list_elem_of_singleton. apply Hout.
    - intros m ->%list_elem_of_singleton. rewrite Hleft, Hn. split; [apply wrap64_u64|lia]. }
  split_and!; try done.
  - apply insert_inv; [done|]. lia.
  - intros m. unfold hangs. split.
    + intros (l & s & Hm). apply (insert_place n w2 (InSlot l s)) in Hm as [Hm|[-> _]]; [|by left].
      right. exists l, s. by apply (cancel_place n w (InSlot l s)) in Hm as [? _].
    + intros [->|(l & s & Hm)].
      * eexists _, _. apply (insert_place n w2 (home w2 n)). right. split; reflexivity.
      * destruct (decide (m = n)) as [->|Hne].
        { eexists _, _. apply (insert_place n w2 (home w2 n)). right. split; reflexivity. }
        exists l, s. apply (insert_place n w2 (InSlot l s)). left.
        by apply (cancel_place n w (InSlot l s)).
Qed.

Lemma make_wf initial : is_u64 initial → wf (make initial).
Proof.
  intros Hi. split; try done.
  - intros l s n Hn. by apply not_elem_of_nil in Hn.
  - intros []; constructor.
  - intros p p' n Hn. destruct p; by apply not_elem_of_nil in Hn.
  - constructor.
  - intros p n Hn. by apply not_elem_of_nil in Hn.
  - intros n Hn. by apply not_elem_of_nil in Hn.
Qed.
End correctness.

(** ** Ticks with callbacks *)
Section ticking.
Context `{G : Geometry} `{GOK : !GeometryOk G} {N : Type} `{Countable N} {U : Type}.
Implicit Types (w : wheel N) (u : U) (n : N).

(** Loop rule for [drain]: [I] holds before each pop, and no callback
    lengthens the queue. *)
Section drain_rule.
Context (r : reliability) (fire : N → eff (wheel N * U) unit).
Context (I : wheel N → U → Prop) (E : exn → wheel N * U → Prop).
Hypothesis fire_ok : ∀ n rest w u,
  I w u → ready_ w = n :: rest →
  wp r (fire n)
    (λ _ s, I s.1 s.2 ∧ (length (ready_ s.1) <= length rest)%nat)
    E (set_ready rest w, u).

Lemma wp_drain_loop fuel w u :
  I w u → (length (ready_ w) <= fuel)%nat →
  wp r (drain_loop fuel fire) (λ _ s, I s.1 s.2 ∧ ready_ s.1 = []) E (w, u).
Proof.
  revert w u. induction fuel as [|fuel IH]; intros w u HI Hlen; simpl.
  - wp_step. split; [done|]. simpl. destruct (ready_ w); [done|simpl in Hlen; lia].
  - wp_step. wp_step. simpl. destruct (ready_ w) as [|n rest] eqn:Hr.
    { wp_step. by split. }
    wp_step. wp_step. wp_step. simpl.
    eapply wp_mono; [apply (fire_ok n rest w u HI Hr)| |done].
    intros _ [w' u'] [HI' Hlen']. simpl in *. apply IH; [done|]. lia.
Qed.

Lemma wp_drain w u :
  I w u → wp r (drain fire) (λ _ s, I s.1 s.2 ∧ ready_ s.1 = []) E (w, u).
Proof. intros HI. unfold drain. wp_step. wp_step. by apply wp_drain_loop. Qed.
End drain_rule.

(** Rule for [tick]: [I] is kept by the drain of leftovers, [turn] takes it
    to [I'], and [I'] is kept by the drain of the due nodes.  The reentrancy
    flag is cleared on every exit. *)
Lemma wp_tick r fire (I I' : wheel N → U → Prop) (E : exn → wheel N * U → Prop) w u :
  busy_ w = false → I (set_busy true w) u →
  (∀ n rest w u, I w u → ready_ w = n :: rest →
    wp r (fire n) (λ _ s, I s.1 s.2 ∧ (length (ready_ s.1) <= length rest)%nat)
      E (set_ready rest w, u)) →
  (∀ w u, I w u → ready_ w = [] → I' (turn w) u) →
  (∀ n rest w u, I' w u → ready_ w = n :: rest →
    wp r (fire n) (λ _ s, I' s.1 s.2 ∧ (length (ready_ s.1) <= length rest)%nat)
      E (set_ready rest w, u)) →
  wp r (tick fire)
    (λ _ s, ∃ w', I' w' s.2 ∧ ready_ w' = [] ∧ s.1 = set_busy false w')
    (λ e s, ∃ w', E e (w', s.2) ∧ s.1 = set_busy false w')
    (w, u).
Proof.
  intros Hb HI H1 Hturn H2. unfold tick.
  wp_step. wp_step. simpl. rewrite Hb. wp_step. wp_step. wp_step. wp_step.
  eapply wp_mono with
    (Q := λ _ s, I' s.1 s.2 ∧ ready_ s.1 = []) (E := λ e s, E e s).
  - wp_step. eapply wp_mono; [apply (wp_drain r fire I E H1 _ _ HI)| |done].
    intros _ [w1 u1] [HI1 Hr1]. simpl in *. wp_step. wp_step. simpl.
    apply wp_drain; auto.
  - intros _ [w1 u1] [HI1 Hr1]. simpl in *. wp_step. simpl. exists w1. auto.
  - intros e [w1 u1] HE. wp_step. simpl. eauto.
Qed.

Lemma tick_reentered r fire (Q : unit → wheel N * U → Prop) w u :
  busy_ w = true → wp r (tick fire) Q (λ e s, e = logic_error ∧ s = (w, u)) (w, u).
Proof. intros Hb. unfold tick. wp_step. wp_step. simpl. rewrite Hb. by wp_step. Qed.

Fixpoint ticks (count : nat) (fire : N → eff (wheel N * U) unit) : eff (wheel N * U) unit :=
  match count with
  | O => ret tt
  | S count => tick fire;;; ticks count fire
  end.
End ticking.

(** A callback that only records the tick and the node it is called with. *)
Definition record_fire {A : Type} `{Countable A} (n : A) : eff (wheel A * list (Z * A)) unit :=
  modify (λ s, (s.1, s.2 ++ [(clock_ s.1, n)])).

Section exactness.
Context `{G : Geometry} `{GOK : !GeometryOk G} {N : Type} `{Countable N}.
Implicit Types (w : wheel N) (n : N).

(** What is known of the log after [k] ticks from [w0], for a callback that
    stamps node [n] with [stamp n]. *)
Record logged (stamp : N → Z) (w0 : wheel N) (k : Z) w (log : list (Z * N)) : Prop := {
  logged_wf : wf w;
  logged_clock : clock_ w = wrap64 (clock_ w0 + k);
  logged_deadlines : deadline_ w = deadline_ w0;
  logged_hangs : ∀ n, hangs w n ↔ hangs w0 n ∧ k < left w0 n;
  logged_log : ∀ t n, (t, n) ∈ log ↔ hangs w0 n ∧ left w0 n <= k ∧ t = stamp n ∧ n ∉ ready_ w;
  logged_ready : ∀ n, n ∈ ready_ w → hangs w0 n ∧ left w0 n = k;
  logged_nodup : NoDup log
}.

Lemma wf_set_ready_tail w n rest : wf w → ready_ w = n :: rest → wf (set_ready rest w).
Proof.
  intros [Hc Hslot Hnd Hu H1 H2 H3] Hr.
  assert (Hsub : ∀ p m, m ∈ at_place (set_ready rest w) p → m ∈ at_place w p).
  { intros [|l s] m; [|done]. simpl. rewrite Hr. set_solver. }
  split; try done.
  - intros l s m Hm. by destruct (Hslot l s m Hm).
  - intros [|l s]; [|exact (Hnd (InSlot l s))]. specialize (Hnd InReady). simpl in *.
    rewrite Hr in Hnd. by apply NoDup_cons in Hnd as [_ ?].
  - intros p p' m Hm Hm'. eapply Hu; by apply Hsub.
  - intros p m Hm. by apply not_elem_of_nil in Hm.
Qed.

Lemma logged_fire stamp w0 k w log n rest t :
  logged stamp w0 k w log → ready_ w = n :: rest → t = stamp n →
  logged stamp w0 k (set_ready rest w) (log ++ [(t, n)]).
Proof.
  intros [Hwf Hc Hd Hh Hl Hr Hnd] Hready Ht.
  pose proof (inv_nodup _ _ _ Hwf InReady) as Hndr. simpl in Hndr. rewrite Hready in Hndr.
  apply NoDup_cons in Hndr as [Hnr _].
  destruct (Hr n) as (Hn1 & Hn2); [rewrite Hready; set_solver|].
  split; try done.
  - by eapply wf_set_ready_tail.
  - intros t' m. rewrite elem_of_app, Hl, list_elem_of_singleton, Hready. simpl.
    split.
    + intros [(?&?&?&?)|[= -> ->]]; [set_solver|]. split_and!; [done|lia|done|done].
    + intros (?&?&->&?). destruct (decide (m = n)) as [->|]; [right; by rewrite Ht|].
      left. set_solver.
  - intros m Hm. apply Hr. rewrite Hready. set_solver.
  - apply NoDup_app. split_and!; [done| |apply NoDup_singleton].
    intros x Hin Hx%list_elem_of_singleton. subst x.
    apply Hl in Hin as (_&_&_&Hx). apply Hx. rewrite Hready. set_solver.
Qed.

Lemma deadline_left w n : is_u64 (deadline_of w n) → deadline_of w n = wrap64 (clock_ w + left w n).
Proof.
  intros Hd. unfold left, wrap64. rewrite Z.add_mod_idemp_r by (unfold u64_size; lia).
  replace (clock_ w + (deadline_of w n - clock_ w)) with (deadline_of w n) by lia.
  symmetry. by apply wrap64_small.
Qed.

Lemma logged_turn stamp w0 k w log :
  wf w0 → 0 <= k < u64_max → logged stamp w0 k w log → ready_ w = [] →
  logged stamp w0 (k + 1) (turn w) log.
Proof.
  intros Hwf0 Hk [Hwf Hc Hd Hh Hl Hr Hnd] Hready.
  destruct (turn_spec w Hwf Hready) as (Hwf' & Hc' & _ & Hd' & Hr' & Hh').
  assert (Hck : clock_ (turn w) = wrap64 (clock_ w0 + (k + 1))).
  { rewrite Hc', Hc. unfold wrap64. rewrite Z.add_mod_idemp_l by (unfold u64_size; lia).
    f_equal. lia. }
  assert (Hdl : ∀ n, deadline_of w n = deadline_of w0 n).
  { intros n. unfold deadline_of. by rewrite Hd. }
  assert (Hdue : ∀ n, hangs w0 n → (deadline_of w0 n = clock_ (turn w) ↔ left w0 n = k + 1)).
  { intros n (l & s & Hn). destruct (inv_slot _ _ _ Hwf0 l s n Hn) as [_ Hdn _ _ _].
    rewrite Hck, (deadline_left w0 n Hdn). pose proof (left_bounds w0 n) as Hb.
    unfold wrap64, u64_max, u64_size in *. split; [|by intros ->].
    intros E. assert (((clock_ w0 + left w0 n) - (clock_ w0 + (k + 1))) mod 2 ^ 64 = 0) as E'.
    { rewrite Zminus_mod, E, Z.sub_diag. reflexivity. }
    replace (clock_ w0 + left w0 n - (clock_ w0 + (k + 1))) with (left w0 n - (k + 1)) in E' by lia.
    apply Z.mod_divide in E' as [z Hz]; [|lia]. nia. }
  split; try done.
  - by rewrite Hd'.
  - intros n. rewrite Hh', Hh, Hdl. split.
    + intros [[H1 H2] H3]. split; [done|]. rewrite (Hdue n H1) in H3. lia.
    + intros [H1 H2]. rewrite (Hdue n H1). split; [split; [done|]|]; lia.
  - intros t n. rewrite Hl, Hready. rewrite Hr', Hh, Hdl. split.
    + intros (H1 & H2 & -> & _). split_and!; try done; [lia|]. intros [[_ H3] _]. lia.
    + intros (H1 & H2 & -> & H4). split_and!; try done; [|set_solver].
      rewrite (Hdue n H1) in H4. destruct (decide (left w0 n = k + 1)); [|lia].
      exfalso. apply H4. split; [split; [done|lia]|done].
  - intros n. rewrite Hr', Hh, Hdl. intros [[H1 H2] H3].
    split; [done|]. by apply Hdue.
Qed.

Lemma wf_set_busy b w : wf (set_busy b w) ↔ wf w.
Proof.
  split; intros [Hc Hs Hnd Hu H1 H2 H3]; split; try done;
    intros l s n Hn; by destruct (Hs l s n Hn).
Qed.

Lemma logged_set_busy stamp w0 k b w log :
  logged stamp w0 k (set_busy b w) log ↔ logged stamp w0 k w log.
Proof. split; intros [Hwf]; split; try done; by apply (wf_set_busy b). Qed.

Lemma logged_start stamp w : wf w → ready_ w = [] → logged stamp w 0 w [].
Proof.
  intros Hwf Hr. split; try done.
  - rewrite Z.add_0_r. symmetry. by apply wrap64_small, Hwf.
  - intros n. split; [|by intros [? _]]. intros Hh. split; [done|].
    destruct Hh as (l & s & Hn). destruct (inv_slot _ _ _ Hwf l s n Hn) as [_ _ _ _ Hf].
    pose proof (left_bounds w n). destruct (decide (left w n = 0)) as [E|]; [|lia].
    exfalso. unfold fits in Hf. rewrite E, Z.add_0_r, Z.sub_diag in Hf. lia.
  - intros t n. rewrite elem_of_nil. split; [done|].
    intros ((l & s & Hn) & Hle & _). destruct (inv_slot _ _ _ Hwf l s n Hn) as [_ _ _ _ Hf].
    pose proof (left_bounds w n). assert (E : left w n = 0) by lia.
    unfold fits in Hf. rewrite E, Z.add_0_r, Z.sub_diag in Hf. lia.
  - intros n. rewrite Hr. by intros ?%not_elem_of_nil.
  - constructor.
Qed.

Lemma wp_ticks_record w0 k count w log :
  wf w0 → 0 <= k → k + Z.of_nat count <= u64_max →
  busy_ w = false → ready_ w = [] → logged (deadline_of w0) w0 k w log →
  wp Faulty (ticks count record_fire)
    (λ _ s, busy_ s.1 = false ∧ ready_ s.1 = [] ∧
            logged (deadline_of w0) w0 (k + Z.of_nat count) s.1 s.2)
    (λ _ _, False) (w, log).
Proof.
  intros Hwf0. set (L := logged (deadline_of w0) w0).
  revert k w log. induction count as [|count IH]; intros k w log Hk Hmax Hb Hr HL; simpl.
  { wp_step. simpl. replace (k + Z.of_nat 0) with k by lia. done. }
  assert (Hfire : ∀ k' n rest w u, L k' w u → ready_ w = n :: rest →
    wp Faulty (record_fire n)
      (λ _ s, L k' s.1 s.2 ∧ (length (ready_ s.1) <= length rest)%nat)
      (λ _ _, False) (set_ready rest w, u)).
  { intros k' n rest w1 u1 H1 H2. unfold record_fire. wp_step. simpl.
    split; [|done]. apply logged_fire; [done|done|].
    destruct (logged_ready _ _ _ _ _ H1 n) as [(l & s & Hn) Hl]; [rewrite H2; set_solver|].
    destruct (inv_slot _ _ _ Hwf0 l s n Hn) as [_ Hd _ _ _].
    by rewrite (deadline_left w0 n Hd), Hl, <- (logged_clock _ _ _ _ _ H1). }
  wp_step.
  eapply wp_mono; [apply (wp_tick _ _ (L k) (L (k + 1)) (λ _ _, False)); auto|..].
  - by apply logged_set_busy.
  - intros w1 u1 H1 H2. apply logged_turn; [done|lia|done|done].
  - intros _ [w1 u1] (w2 & H1 & H2 & Heq). simpl in *. subst w1.
    replace (k + Z.of_nat (S count)) with (k + 1 + Z.of_nat count) by lia.
    apply IH; [lia|lia|done|done|by apply logged_set_busy].
  - by intros e s (? & [] & _).
Qed.

(** C1. The wheel is an exact timer.  Started from any consistent idle wheel,
    [count] ticks under every allocation script return normally and call the
    callback for exactly the nodes with at most [count] ticks left, once each
    and at the tick that equals the node's deadline; every other node still
    hangs in the wheel with its deadline unchanged. *)
Theorem wheel_exact (w : wheel N) (count : nat) (f : faults) :
  wf w → busy_ w = false → ready_ w = [] → Z.of_nat count <= u64_max →
  ∃ w' log f',
    ticks count record_fire (w, []) f = (Done tt, (w', log), f') ∧
    wf w' ∧ clock_ w' = wrap64 (clock_ w + Z.of_nat count) ∧
    NoDup log ∧
    (∀ t n, (t, n) ∈ log ↔ hangs w n ∧ left w n <= Z.of_nat count ∧ t = deadline_of w n) ∧
    (∀ n, hangs w' n ↔ hangs w n ∧ Z.of_nat count < left w n) ∧
    (∀ n, deadline_of w' n = deadline_of w n).
Proof.
  intros Hwf Hb Hr Hc.
  pose proof (wp_ticks_record w 0 count w [] Hwf ltac:(lia) ltac:(lia) Hb Hr
    (logged_start _ w Hwf Hr) f I) as Hrun.
  destruct (ticks count record_fire (w, []) f) as [[[[]|e] [w' log]] f']; [|by destruct Hrun].
  destruct Hrun as (_ & _ & Hr' & [Hwf' Hck Hd Hh Hl _ Hnd]). simpl in *.
  exists w', log, f'. split_and!; try done.
  - intros t n. rewrite Hl, Hr'. set_solver.
  - intros n. unfold deadline_of. by rewrite Hd.
Qed.

(** [schedule] followed by ticks: a request within [limit] is accepted and
    the node fires exactly once, [max delay 1] ticks after the call, whatever
    else hangs in the wheel; a larger delay is refused and changes nothing. *)
Theorem schedule_fires_once (w : wheel N) (n : N) (delay : Z) (count : nat) (f : faults) :
  wf w → busy_ w = false → ready_ w = [] → Z.of_nat count <= u64_max →
  (limit < delay → schedule n delay w = (false, w)) ∧
  (delay <= limit →
    ∃ w1 w' log f',
      schedule n delay w = (true, w1) ∧
      ticks count record_fire (w1, []) f = (Done tt, (w', log), f') ∧
      (∀ t, (t, n) ∈ log ↔
        Z.max delay 1 <= Z.of_nat count ∧ t = wrap64 (clock_ w + Z.max delay 1)) ∧
      NoDup log ∧ (hangs w' n ↔ Z.of_nat count < Z.max delay 1)).
Proof.
  intros Hwf Hb Hr Hc. split; [apply schedule_refused|]. intros Hdelay.
  destruct (schedule_spec n delay w Hwf Hdelay) as (H1 & Hwf1 & Hc1 & Hb1 & Hr1 & Hd1 & Hh1).
  destruct (schedule n delay w) as [b w1]. simpl in *. subst b.
  rewrite Hr in Hr1. rewrite Hb in Hb1.
  pose proof (wp_ticks_record w1 0 count w1 [] Hwf1 ltac:(lia) ltac:(lia) Hb1 Hr1
    (logged_start _ w1 Hwf1 Hr1) f I) as Hrun.
  destruct (ticks count record_fire (w1, []) f) as [[[[]|e] [w' log]] f'] eqn:E; [|by destruct Hrun].
  destruct Hrun as (_ & _ & Hr' & [_ _ _ Hh Hl _ Hnd]). simpl in *.
  assert (Hdn : deadline_of w1 n = wrap64 (clock_ w + Z.max delay 1)).
  { unfold deadline_of. by rewrite Hd1, lookup_insert_eq. }
  assert (Hleft : left w1 n = Z.max delay 1).
  { unfold left. rewrite Hdn, Hc1. unfold wrap64.
    rewrite Zminus_mod_idemp_l, Z.add_simpl_l. apply Z.mod_small.
    pose proof limit_u64. unfold u64_max, u64_size in *. lia. }
  assert (Hn : hangs w1 n) by (apply Hh1; by left).
  exists w1, w', log, f'. split_and!; try done.
  - intros t. rewrite Hl, Hr', Hleft, Hdn. set_solver.
  - rewrite Hh, Hleft. naive_solver.
Qed.
End exactness.

(** ** Arbitrary callbacks *)
Section callbacks_safe.
Context `{G : Geometry} `{GOK : !GeometryOk G} {N : Type} `{Countable N} {U : Type}.
Implicit Types (w : wheel N).

(** What a callback may do to the wheel through its interface. *)
Definition evolves w w' : Prop :=
  wf w' ∧ clock_ w' = clock_ w ∧ busy_ w' = busy_ w ∧ ready_ w' `sublist_of` ready_ w.

Lemma evolves_refl w : wf w → evolves w w.
Proof. by intros Hwf. Qed.

Lemma evolves_trans w1 w2 w3 : evolves w1 w2 → evolves w2 w3 → evolves w1 w3.
Proof.
  intros (_ & E1 & E2 & E3) (Hwf & F1 & F2 & F3). unfold evolves.
  split_and!; [done|congruence|congruence|by etrans].
Qed.

Lemma without_sublist n (l : list N) : without n l `sublist_of` l.
Proof. apply sublist_filter. Qed.

Lemma cancel_evolves w n : wf w → evolves w (cancel n w).
Proof.
  intros Hwf. split; [by apply cancel_inv|]. split_and!; try done. apply without_sublist.
Qed.

Lemma schedule_evolves w n delay : wf w → evolves w (schedule n delay w).2.
Proof.
  intros Hwf. destruct (decide (delay <= limit)) as [Hd|Hd].
  - destruct (schedule_spec n delay w Hwf Hd) as (_ & H1 & H2 & H3 & H4 & _).
    split; [done|]. split_and!; try done. rewrite H4. apply without_sublist.
  - rewrite schedule_refused by lia. by apply evolves_refl.
Qed.

Definition respects (fire : N → eff (wheel N * U) unit) : Prop :=
  ∀ r n w u, wf w → busy_ w = true →
    wp r (fire n) (λ _ s, evolves w s.1) (λ _ s, evolves w s.1) (w, u).

(** A tick with any callback that uses the wheel only through [schedule]
    and [cancel] keeps the wheel consistent and its reentrancy flag clear,
    whether the callback returns or throws: a normal return has advanced the
    clock by exactly one and emptied the ready queue; after an exception the
    clock has advanced by one or not at all. *)
Theorem tick_safe (fire : N → eff (wheel N * U) unit) w u :
  respects fire → wf w → busy_ w = false →
  wp Faulty (tick fire)
    (λ _ s, wf s.1 ∧ busy_ s.1 = false ∧ ready_ s.1 = [] ∧
            clock_ s.1 = wrap64 (clock_ w + 1))
    (λ _ s, wf s.1 ∧ busy_ s.1 = false ∧
            (clock_ s.1 = clock_ w ∨ clock_ s.1 = wrap64 (clock_ w + 1)))
    (w, u).
Proof.
  intros Hfire Hwf Hb.
  set (J c := λ (w' : wheel N) (_ : U), wf w' ∧ busy_ w' = true ∧ clock_ w' = c).
  set (E := λ (_ : exn) (s : wheel N * U), wf s.1 ∧
    (clock_ s.1 = clock_ w ∨ clock_ s.1 = wrap64 (clock_ w + 1))).
  assert (Hstep : ∀ c, c = clock_ w ∨ c = wrap64 (clock_ w + 1) →
    ∀ n rest w' u', J c w' u' → ready_ w' = n :: rest →
    wp Faulty (fire n) (λ _ s, J c s.1 s.2 ∧ (length (ready_ s.1) <= length rest)%nat)
      E (set_ready rest w', u')).
  { intros c Hcase n rest w' u' (Hw & Hbw & Hcw) Hrw.
    eapply wp_mono; [apply Hfire; [by eapply wf_set_ready_tail|done]|..].
    - intros _ s (H1 & H2 & H3 & H4). simpl in *. unfold J. split_and!; try congruence.
      by apply sublist_length.
    - intros e s (H1 & H2 & _). split; [done|]. simpl in *. rewrite H2, Hcw. done. }
  eapply wp_mono; [apply (wp_tick _ _ (J (clock_ w)) (J (wrap64 (clock_ w + 1))) E); auto|..].
  - unfold J. rewrite wf_set_busy. auto.
  - intros w' u' (Hw & Hbw & Hcw) Hrw.
    destruct (turn_spec w' Hw Hrw) as (H1 & H2 & H3 & _). unfold J.
    rewrite H3, H2, Hcw. auto.
  - intros _ [w1 u1] (w2 & (H1 & H2 & H3) & H4 & Heq). simpl in *. subst w1.
    rewrite wf_set_busy. auto.
  - intros e [w1 u1] (w2 & [H1 H2] & Heq). simpl in *. subst w1. rewrite wf_set_busy. auto.
Qed.
End callbacks_safe.

(** ** Concrete runs on the default geometry, [Wheel<5, 8>] *)
Module Sample.
#[local] Instance default_geometry : Geometry := {| Levels := 5; Bits := 8 |}.
#[local] Instance default_geometry_ok : GeometryOk default_geometry.
Proof. split; simpl; lia || (vm_compute; congruence). Qed.

(** Two nodes on a wheel whose clock is about to wrap. *)
Definition two_timers : wheel nat :=
  (schedule 7%nat 300 (schedule 3%nat 0 (make (u64_max - 4))).2).2.

Example two_timers_log :
  (ticks 310 record_fire (two_timers, []) []).1 .2.2 =
  [(u64_max - 3, 3%nat); (295, 7%nat)].
Proof. vm_compute. reflexivity. Qed.

Lemma two_timers_ok : wf two_timers ∧ busy_ two_timers = false ∧ ready_ two_timers = [].
Proof.
  assert (H0 : wf (make (N := nat) (u64_max - 4))) by (apply make_wf; vm_compute; split; congruence).
  assert (L3 : 0 <= limit) by (vm_compute; congruence).
  destruct (schedule_spec 3%nat 0 _ H0 L3) as (_ & H1 & _).
  assert (L7 : 300 <= limit) by (vm_compute; congruence).
  destruct (schedule_spec 7%nat 300 _ H1 L7) as (_ & H2 & _).
  split; [exact H2|]. split; vm_compute; reflexivity.
Qed.

Lemma wheel_exact_witness :
  ∃ w' log f',
    ticks 310 record_fire (two_timers, []) [] = (Done tt, (w', log), f') ∧ NoDup log ∧
    (∀ t n, (t, n) ∈ log ↔
       hangs two_timers n ∧ left two_timers n <= 310 ∧ t = deadline_of two_timers n).
Proof.
  destruct two_timers_ok as (H1 & H2 & H3).
  destruct (wheel_exact two_timers 310 [] H1 H2 H3) as (w' & log & f' & E & _ & _ & Hnd & Hl & _).
  { vm_compute. congruence. }
  exists w', log, f'. auto.
Defined.

Lemma schedule_fires_once_witness :
  ∃ w1 w' log f',
    schedule 9%nat 70000 two_timers = (true, w1) ∧
    ticks 1000 record_fire (w1, []) [] = (Done tt, (w', log), f') ∧ hangs w' 9%nat.
Proof.
  destruct two_timers_ok as (H1 & H2 & H3).
  destruct (schedule_fires_once two_timers 9%nat 70000 1000 [] H1 H2 H3) as [_ Hok].
  { vm_compute. congruence. }
  destruct Hok as (w1 & w' & log & f' & E1 & E2 & _ & _ & Hh).
  { vm_compute. congruence. }
  exists w1, w', log, f'. split; [exact E1|]. split; [exact E2|]. apply Hh. vm_compute. reflexivity.
Defined.

(** A callback that allocates and then rearms the node it is called with. *)
Definition rearm (n : nat) : eff (wheel nat * unit) unit :=
  alloc;;; modify (λ s, ((schedule n 2 s.1).2, s.2)).

Lemma tick_safe_witness :
  wp Faulty (tick rearm)
    (λ _ s, wf s.1 ∧ busy_ s.1 = false ∧ ready_ s.1 = [] ∧
            clock_ s.1 = wrap64 (clock_ two_timers + 1))
    (λ _ s, wf s.1 ∧ busy_ s.1 = false ∧
            (clock_ s.1 = clock_ two_timers ∨ clock_ s.1 = wrap64 (clock_ two_timers + 1)))
    (two_timers, tt).
Proof.
  destruct two_timers_ok as (H1 & H2 & H3).
  apply (tick_safe rearm two_timers tt); [|exact H1|exact H2].
  intros r n w u Hwf Hb. unfold rearm. wp_step. wp_step; [|by apply evolves_refl].
  wp_step. apply (schedule_evolves w n 2 Hwf).
Defined.
End Sample.
