(* ===== verification/Scope.v ===== *)
(** Business addresses: [astra/common/include/astra/scope.hpp] and
    [astra/common/src/scope.cpp].

    [text] is the byte-level UTF-8 gate every Sector, Spectrum, Key and API key
    passes.  The theorem shows it accepts exactly the non-empty, bounded,
    NUL-free encodings of sequences of Unicode scalar values: overlong forms,
    surrogates and truncated sequences are all refused. *)
From stdpp Require Import base numbers strings gmap list.
From S2P Require Import Prelude.

(** [std::string_view] as its bytes, each in [0, 256). *)
Definition bytes (value : string) : list Z :=
  (λ c, Z.of_N (Ascii.N_of_ascii c)) <$> String.list_ascii_of_string value.

Definition is_byte (b : Z) : Prop := 0 <= b < 256.

(** Number of continuation bytes a leading byte announces. *)
Definition following (first : Z) : nat :=
  if (0xc2 <=? first) && (first <=? 0xdf) then 1
  else if (0xe0 <=? first) && (first <=? 0xef) then 2
  else if (0xf0 <=? first) && (first <=? 0xf4) then 3
  else 0.

Definition minimum (following : nat) : Z :=
  match following with 1%nat => 0x80 | 2%nat => 0x800 | _ => 0x10000 end.

Definition lead_bits (following : nat) (first : Z) : Z :=
  match following with
  | 1%nat => Z.land first 0x1f
  | 2%nat => Z.land first 0x0f
  | _ => Z.land first 0x07
  end.

(** The inner loop over the continuation bytes of one code point. *)
Fixpoint continuation (code : Z) (bs : list Z) : option Z :=
  match bs with
  | [] => Some code
  | b :: bs =>
      if Z.land b 0xc0 =? 0x80
      then continuation (Z.lor (Z.shiftl code 6) (Z.land b 0x3f)) bs
      else None
  end.

(** The outer loop; every turn consumes at least one byte, so the number of
    remaining bytes is enough fuel. *)
Fixpoint scan (fuel : nat) (rest : list Z) : bool :=
  match fuel, rest with
  | _, [] => true
  | O, _ => false
  | S fuel, first :: rest =>
      if first =? 0 then false
      else if first <? 0x80 then scan fuel rest
      else
        let k := following first in
        if (k =? 0)%nat || (length rest <? k)%nat then false
        else
          match continuation (lead_bits k first) (take k rest) with
          | None => false
          | Some code =>
              if (code <? minimum k) || (0x10ffff <? code)
                 || ((0xd800 <=? code) && (code <=? 0xdfff))
              then false
              else scan fuel (drop k rest)
          end
  end.

Definition text (value : string) (maximum : Z) : bool :=
  let bs := bytes value in
  if bool_decide (bs = []) || (maximum <? Z.of_nat (length bs)) then false
  else scan (length bs) bs.

Record Scope := { sector : string; spectrum : string }.

#[global] Instance scope_eq_dec : EqDecision Scope.
Proof. solve_decision. Defined.

#[global] Instance scope_countable : Countable Scope.
Proof.
  apply (inj_countable' (λ s, (sector s, spectrum s))
    (λ p, {| sector := p.1; spectrum := p.2 |})). by intros [].
Defined.

Definition valid (s : Scope) : bool := text (sector s) 128 && text (spectrum s) 128.

Definition internal (s : Scope) : bool := String.prefix "__" (sector s).

(** ** UTF-8 as a specification *)
Definition scalar (c : Z) : Prop :=
  0 < c <= 0x10ffff ∧ ¬ (0xd800 <= c <= 0xdfff).

Definition encode (c : Z) : list Z :=
  if c <? 0x80 then [c]
  else if c <? 0x800 then [0xc0 + c / 64; 0x80 + c mod 64]
  else if c <? 0x10000 then [0xe0 + c / 4096; 0x80 + c / 64 mod 64; 0x80 + c mod 64]
  else [0xf0 + c / 262144; 0x80 + c / 4096 mod 64; 0x80 + c / 64 mod 64; 0x80 + c mod 64].

Lemma bytes_range value : Forall is_byte (bytes value).
Proof.
  unfold bytes. apply Forall_fmap, Forall_true. intros c. unfold is_byte. simpl.
  pose proof (Ascii.N_ascii_bounded c). lia.
Qed.

Lemma length_bytes value : length (bytes value) = String.length value.
Proof.
  unfold bytes. rewrite length_fmap.
  induction value as [|c value IH]; [done|]. simpl. by rewrite IH.
Qed.

(** Byte masks as arithmetic. *)
Lemma continuation_mask b : is_byte b → (Z.land b 0xc0 =? 0x80) = (128 <=? b) && (b <? 192).
Proof.
  intros Hb.
  assert (H : forallb (λ n, let b := Z.of_nat n in
    Bool.eqb (Z.land b 0xc0 =? 0x80) ((128 <=? b) && (b <? 192))) (seq 0 256) = true)
    by (vm_compute; reflexivity).
  rewrite forallb_forall in H. specialize (H (Z.to_nat b)).
  unfold is_byte in Hb. rewrite in_seq, Z2Nat.id in H by lia.
  apply Bool.eqb_prop, H. lia.
Qed.

Lemma low6 b : Z.land b 0x3f = b mod 64.
Proof. exact (Z.land_ones b 6 ltac:(lia)). Qed.

Lemma shift_or code b : Z.lor (Z.shiftl code 6) (b mod 64) = code * 64 + b mod 64.
Proof.
  assert (Hd : Z.land (Z.shiftl code 6) (b mod 64) = 0).
  { apply Z.bits_inj'. intros i Hi. rewrite Z.land_spec, Z.bits_0, andb_false_iff.
    destruct (decide (i < 6)).
    - left. by rewrite Z.shiftl_spec_low.
    - right. change 64 with (2 ^ 6). apply Z.mod_pow2_bits_high. lia. }
  rewrite <- Z.lxor_lor, <- Z.add_nocarry_lxor by done.
  by rewrite Z.shiftl_mul_pow2 by lia.
Qed.

Lemma continuation_cons code b bs :
  is_byte b →
  continuation code (b :: bs) =
  if (128 <=? b) && (b <? 192) then continuation (code * 64 + b mod 64) bs else None.
Proof. intros Hb. cbn [continuation]. by rewrite continuation_mask, low6, shift_or. Qed.

Lemma lead_bits_mod k first :
  lead_bits k first = first mod match k with 1%nat => 32 | 2%nat => 16 | _ => 8 end.
Proof.
  unfold lead_bits. destruct k as [|[|[|k]]];
    [exact (Z.land_ones first 3 ltac:(lia))|exact (Z.land_ones first 5 ltac:(lia))
    |exact (Z.land_ones first 4 ltac:(lia))|exact (Z.land_ones first 3 ltac:(lia))].
Qed.

(** Leading bytes by range. *)
Lemma following_cases first :
  is_byte first → 128 <= first →
  (following first = 1%nat ∧ 0xc2 <= first <= 0xdf) ∨
  (following first = 2%nat ∧ 0xe0 <= first <= 0xef) ∨
  (following first = 3%nat ∧ 0xf0 <= first <= 0xf4) ∨
  (following first = 0%nat ∧ ¬ (0xc2 <= first <= 0xf4)).
Proof.
  intros Hb H. unfold following.
  destruct (Z.leb_spec 0xc2 first), (Z.leb_spec first 0xdf), (Z.leb_spec 0xe0 first),
    (Z.leb_spec first 0xef), (Z.leb_spec 0xf0 first), (Z.leb_spec first 0xf4); simpl; lia.
Qed.

(** One turn of the outer loop on a multi-byte sequence. *)
Definition point_ok (k : nat) (code : Z) : Prop :=
  minimum k <= code <= 0x10ffff ∧ ¬ (0xd800 <= code <= 0xdfff).

Lemma point_test k code :
  (code <? minimum k) || (0x10ffff <? code) || ((0xd800 <=? code) && (code <=? 0xdfff)) = false
  ↔ point_ok k code.
Proof.
  unfold point_ok.
  destruct (Z.ltb_spec code (minimum k)), (Z.ltb_spec 0x10ffff code),
    (Z.leb_spec 0xd800 code), (Z.leb_spec code 0xdfff); simpl; lia.
Qed.

(** Consumes one continuation byte of hypothesis [H]. *)
Ltac continuation_byte H :=
  rewrite continuation_cons in H by done;
  lazymatch type of H with
  | context [128 <=? ?b] =>
      destruct (Z.leb_spec 128 b), (Z.ltb_spec b 192); try done; cbn [andb] in H
  end.

(** Decoding one point: the accepted byte groups are the encodings. *)
Lemma decode_encode first bs code :
  is_byte first → Forall is_byte bs → 128 <= first →
  following first = length bs → bs ≠ [] →
  continuation (lead_bits (length bs) first) bs = Some code → point_ok (length bs) code →
  first :: bs = encode code ∧ scalar code.
Proof.
  intros Hf Hbs H128 Hk Hk0 Hc [Hrange Hsur]. rewrite lead_bits_mod in Hc.
  assert (Hsc : scalar code).
  { split; [|done]. unfold minimum in Hrange. destruct (length bs) as [|[|[|k]]]; lia. }
  split; [|done]. unfold encode.
  destruct bs as [|b1 bs]; [done|]. apply Forall_cons in Hbs as [B1 Hbs].
  continuation_byte Hc.
  destruct (following_cases first Hf H128) as [[E R]|[[E R]|[[E R]|[E _]]]];
    rewrite E in Hk; simplify_eq/=.
  - destruct bs; [|done]. cbn in Hc, Hrange. injection Hc as Hc.
    destruct (Z.ltb_spec code 0x80); [lia|].
    destruct (Z.ltb_spec code 0x800); [|Z.div_mod_to_equations; lia].
    repeat f_equal; Z.div_mod_to_equations; lia.
  - destruct bs as [|b2 [|]]; try done. apply Forall_cons in Hbs as [B2 _].
    continuation_byte Hc. cbn in Hc, Hrange. injection Hc as Hc.
    destruct (Z.ltb_spec code 0x80); [lia|]. destruct (Z.ltb_spec code 0x800); [lia|].
    destruct (Z.ltb_spec code 0x10000); [|Z.div_mod_to_equations; lia].
    repeat f_equal; Z.div_mod_to_equations; lia.
  - destruct bs as [|b2 [|b3 [|]]]; try done.
    apply Forall_cons in Hbs as [B2 Hbs]. apply Forall_cons in Hbs as [B3 _].
    continuation_byte Hc. continuation_byte Hc. cbn in Hc, Hrange. injection Hc as Hc.
    destruct (Z.ltb_spec code 0x80); [lia|]. destruct (Z.ltb_spec code 0x800); [lia|].
    destruct (Z.ltb_spec code 0x10000); [lia|].
    repeat f_equal; Z.div_mod_to_equations; lia.
Qed.

(** The converse: the encoding of a scalar value is accepted and decodes to
    that value. *)
Record group_ok (c first : Z) (bs : list Z) : Prop := {
  group_bytes : is_byte first ∧ Forall is_byte bs;
  group_lead : 128 <= first;
  group_following : following first = length bs;
  group_tail : bs ≠ [];
  group_code : continuation (lead_bits (length bs) first) bs = Some c;
  group_point : point_ok (length bs) c
}.

Lemma continuation_byte_of code x bs :
  0 <= x < 64 → continuation code (0x80 + x :: bs) = continuation (code * 64 + x) bs.
Proof.
  intros Hx. rewrite continuation_cons by (unfold is_byte; lia).
  rewrite (proj2 (Z.leb_le _ _)), (proj2 (Z.ltb_lt _ _)) by lia. simpl.
  f_equal. Z.div_mod_to_equations; lia.
Qed.

Lemma encode_group c :
  scalar c → 0x80 <= c → ∃ first bs, encode c = first :: bs ∧ group_ok c first bs.
Proof.
  intros [Hr Hs] H. unfold encode. destruct (Z.ltb_spec c 0x80); [lia|].
  assert (Hm : ∀ z, 0 <= z mod 64 < 64) by (intros z; apply Z.mod_pos_bound; lia).
  destruct (Z.ltb_spec c 0x800); [|destruct (Z.ltb_spec c 0x10000)].
  - eexists _, _; split; [done|].
    assert (2 <= c / 64 <= 31) by (Z.div_mod_to_equations; lia).
    assert (F : following (0xc0 + c / 64) = 1%nat).
    { destruct (following_cases (0xc0 + c / 64)) as [[]|[[]|[[]|[]]]]; unfold is_byte; lia. }
    split; cbn [length]; rewrite ?F; try done; try lia.
    + pose proof (Hm c). unfold is_byte. split; [lia|]. repeat constructor; lia.
    + rewrite lead_bits_mod, continuation_byte_of by done. cbn [continuation]. f_equal. Z.div_mod_to_equations; lia.
    + unfold point_ok, minimum. lia.
  - eexists _, _; split; [done|].
    assert (0 <= c / 4096 <= 15) by (Z.div_mod_to_equations; lia).
    assert (F : following (0xe0 + c / 4096) = 2%nat).
    { destruct (following_cases (0xe0 + c / 4096)) as [[]|[[]|[[]|[]]]]; unfold is_byte; lia. }
    split; cbn [length]; rewrite ?F; try done; try lia.
    + pose proof (Hm c). pose proof (Hm (c / 64)). unfold is_byte. split; [lia|]. repeat constructor; lia.
    + rewrite lead_bits_mod, !continuation_byte_of by done. cbn [continuation]. f_equal.
      Z.div_mod_to_equations; lia.
    + unfold point_ok, minimum. lia.
  - eexists _, _; split; [done|].
    assert (0 <= c / 262144 <= 4) by (Z.div_mod_to_equations; lia).
    assert (F : following (0xf0 + c / 262144) = 3%nat).
    { destruct (following_cases (0xf0 + c / 262144)) as [[]|[[]|[[]|[]]]]; unfold is_byte; lia. }
    split; cbn [length]; rewrite ?F; try done; try lia.
    + pose proof (Hm c). pose proof (Hm (c / 64)). pose proof (Hm (c / 4096)).
      unfold is_byte. split; [lia|]. repeat constructor; lia.
    + rewrite lead_bits_mod, !continuation_byte_of by done. cbn [continuation]. f_equal.
      Z.div_mod_to_equations; lia.
    + unfold point_ok, minimum. lia.
Qed.

Lemma scan_group fuel c first bs rest :
  group_ok c first bs → scan (S fuel) (first :: bs ++ rest) = scan fuel rest.
Proof.
  intros [_ Hl Hf Ht Hc Hp]. cbn [scan].
  rewrite (proj2 (Z.eqb_neq _ _)), (proj2 (Z.ltb_ge _ _)) by lia. rewrite Hf.
  rewrite take_app_length, drop_app_length, Hc, (proj2 (point_test _ _) Hp).
  assert ((length bs =? 0)%nat || (length (bs ++ rest) <? length bs)%nat = false) as ->; [|done].
  rewrite length_app. apply orb_false_iff. split.
  - apply Nat.eqb_neq. by destruct bs.
  - apply Nat.ltb_ge. lia.
Qed.

Lemma scan_spec fuel rest :
  (length rest <= fuel)%nat → Forall is_byte rest →
  scan fuel rest = true ↔ ∃ cs, Forall scalar cs ∧ rest = concat (encode <$> cs).
Proof.
  revert rest. induction fuel as [|fuel IH]; intros rest Hlen Hb.
  { destruct rest; [|simpl in Hlen; lia]. split; [|done]. intros _. by exists []. }
  destruct rest as [|first rest].
  { split; [|done]. intros _. by exists []. }
  apply Forall_cons in Hb as [Hf Hb]. simpl in Hlen. split.
  - cbn [scan]. destruct (Z.eqb_spec first 0); [done|].
    destruct (Z.ltb_spec first 0x80) as [Hlow|Hhigh].
    { intros (cs & Hcs & ->)%IH; [|lia|done]. exists (first :: cs). split.
      - constructor; [|done]. unfold scalar, is_byte in *. lia.
      - simpl. unfold encode at 2. by rewrite (proj2 (Z.ltb_lt _ _) Hlow). }
    destruct (_ || _) eqn:E1; [done|]. apply orb_false_iff in E1 as [E1 E2].
    apply Nat.eqb_neq in E1. apply Nat.ltb_ge in E2.
    destruct (continuation _ _) as [code|] eqn:Ec; [|done].
    destruct (_ || _ || _) eqn:Ep; [done|]. apply point_test in Ep.
    set (k := following first) in *.
    assert (Hk : length (take k rest) = k) by (rewrite length_take; lia).
    intros (cs & Hcs & Hrest)%IH; [|rewrite length_drop; lia|by apply Forall_drop].
    destruct (decode_encode first (take k rest) code) as [Henc Hsc]; try done;
      rewrite ?Hk; try done.
    { by apply Forall_take. }
    { intros E. rewrite E in Hk. simpl in Hk. lia. }
    exists (code :: cs). split; [by constructor|]. simpl.
    rewrite <- Henc. simpl. f_equal. rewrite <- (take_drop k rest) at 1. by f_equal.
  - intros ([|c cs] & Hcs & Heq); [done|]. apply Forall_cons in Hcs as [Hc Hcs]. simpl in Heq.
    destruct (decide (c < 0x80)) as [Hlow|Hhigh].
    + unfold encode in Heq at 1. rewrite (proj2 (Z.ltb_lt _ _) Hlow) in Heq. simplify_eq/=.
      destruct Hc as [Hc _]. rewrite (proj2 (Z.eqb_neq _ _)), (proj2 (Z.ltb_lt _ _)) by lia.
      apply IH; [lia| |by exists cs]. by apply Forall_forall; rewrite Forall_forall in Hb.
    + destruct (encode_group c Hc ltac:(lia)) as (f' & bs & Henc & Hg).
      rewrite Henc in Heq. simpl in Heq. injection Heq as -> ->.
      rewrite (scan_group fuel c f' bs _ Hg). rewrite length_app in Hlen.
      apply IH; [lia| |by exists cs]. by apply Forall_app in Hb as [_ ?].
Qed.

(** [Scope::text] accepts a byte string exactly when it is non-empty, not
    longer than the bound, and the UTF-8 encoding of a sequence of Unicode
    scalar values other than NUL. *)
Theorem text_is_utf8 (value : string) (maximum : Z) :
  text value maximum = true ↔
  0 < Z.of_nat (String.length value) <= maximum ∧
  ∃ cs, Forall scalar cs ∧ bytes value = concat (encode <$> cs).
Proof.
  unfold text. rewrite <- length_bytes.
  rewrite <- (scan_spec (length (bytes value))) by (lia || apply bytes_range).
  case_bool_decide as E; simpl.
  { rewrite E. simpl. split; [done|lia]. }
  assert (0 < length (bytes value))%nat by (destruct (bytes value); [done|simpl; lia]).
  destruct (Z.ltb_spec maximum (Z.of_nat (length (bytes value)))); naive_solver lia.
Qed.

Example text_accepts_ascii : text "orders" 128 = true.
Proof. reflexivity. Qed.
