(* ===== verification/Clock.v ===== *)
(** The epoch clock: [astra/common/include/astra/clock.hpp],
    [astra/common/src/clock.cpp] and [astra/common/src/clock_filter.hpp].

    [Clock] serves a continuous Unix time that is disciplined towards outside
    estimates by bounded slewing; [Filter] turns NTP-style four-timestamp
    exchanges into such estimates.  Times and durations are nanosecond counts:
    signed 64-bit values as plain [Z] with proved ranges, unsigned 64-bit
    arithmetic with its wrap-around written out. *)
From stdpp Require Import base numbers sorting list.
From S2P Require Import Prelude.

Definition clock_uncertainty_limit_ns : Z := 500000000.
Definition maximum : Z := i64_max.
Definition freshness : Z := 5000000000.

Definition drift (age ppm : Z) : Z :=
  wrap64 (wrap64 (age / 1000000 * ppm)
          + wrap64 (wrap64 (age mod 1000000 * ppm) + 999999) / 1000000).

Definition magnitude (value : Z) : Z := if value <? 0 then - value else value.

(** [Clock::Estimate]. *)
Record Estimate := {
  e_time : Z;
  e_sampled : Z;
  e_uncertainty_ns : Z;
  e_rtt_ns : Z
}.

Inductive Error := clock_unready | invalid_time | exhausted.

(** [Clock::Reading]. *)
Record Reading := {
  time : Z;
  uncertainty_ns : Z;
  rtt_ns : Z;
  sampled : Z;
  ready : bool;
  synchronized : bool
}.

Definition deadline_after (rd : Reading) (ttl : Z) : expected Z Error :=
  let base := time rd in
  if negb (ready rd) then Unexpected clock_unready
  else if (base <? 0) || (ttl <? 0) then Unexpected invalid_time
  else if maximum - base <? ttl then Unexpected exhausted
  else Expected (time rd + ttl).

(** The members of [Clock]. *)
Record Clock := {
  slew_ppm_ : Z;
  estimate_ : option Estimate;
  local_ : Z;
  epoch_ : Z;
  debt_ : Z;
  fraction_ : Z;
  trusted_ : bool;
  failed_ : bool
}.

(** The constructor throws [std::invalid_argument] outside 1..1000 ppm. *)
Definition make (slew_ppm : Z) : outcome Clock :=
  if (slew_ppm =? 0) || (1000 <? slew_ppm) then Thrown invalid_argument
  else Done {| slew_ppm_ := slew_ppm; estimate_ := None; local_ := 0; epoch_ := 0;
               debt_ := 0; fraction_ := 0; trusted_ := false; failed_ := false |}.

Definition fail (c : Clock) : Clock :=
  {| slew_ppm_ := slew_ppm_ c; estimate_ := estimate_ c; local_ := local_ c;
     epoch_ := epoch_ c; debt_ := debt_ c; fraction_ := fraction_ c;
     trusted_ := trusted_ c; failed_ := true |}.

Definition advance (local : Z) (c : Clock) : bool * Clock :=
  if failed_ c || (local <? local_ c) then (false, fail c)
  else
    let elapsed := wrap64 (local - local_ c) in
    let fraction := wrap64 (wrap64 (elapsed mod 1000000 * slew_ppm_ c) + fraction_ c) in
    let budget := wrap64 (wrap64 (elapsed / 1000000 * slew_ppm_ c) + fraction / 1000000) in
    let correction := Z.min (magnitude (debt_ c)) budget in
    let step := if debt_ c <? 0 then wrap64 (elapsed - correction)
                else wrap64 (elapsed + correction) in
    let base := epoch_ c in
    if maximum - base <? step then (false, fail c)
    else
      let debt := debt_ c + (if debt_ c <? 0 then correction else - correction) in
      (true, {| slew_ppm_ := slew_ppm_ c; estimate_ := estimate_ c; local_ := local;
                epoch_ := epoch_ c + step; debt_ := debt;
                fraction_ := if debt =? 0 then 0 else fraction mod 1000000;
                trusted_ := trusted_ c; failed_ := failed_ c |}).

(** [Clock::read], called by both [now] overloads under the lock. *)
Definition read_clock (local : Z) (c : Clock) : option Reading * Clock :=
  match estimate_ c with
  | None => (None, c)
  | Some e =>
      match advance local c with
      | (false, c') => (None, c')
      | (true, c') =>
          let age := wrap64 (local - e_sampled e) in
          let uncertainty :=
            wrap64 (wrap64 (e_uncertainty_ns e + drift age 2000) + magnitude (debt_ c')) in
          (Some {| time := epoch_ c'; uncertainty_ns := uncertainty;
                   rtt_ns := e_rtt_ns e; sampled := e_sampled e; ready := true;
                   synchronized := trusted_ c' && (age <=? freshness)
                                   && (uncertainty <=? clock_uncertainty_limit_ns) |}, c')
      end
  end.

Definition install (e : Estimate) (c : Clock) : Clock :=
  {| slew_ppm_ := slew_ppm_ c; estimate_ := Some e; local_ := local_ c;
     epoch_ := epoch_ c; debt_ := debt_ c; fraction_ := fraction_ c;
     trusted_ := true; failed_ := failed_ c |}.

(** [Clock::observe], called by both [publish] overloads under the lock. *)
Definition observe_clock (e : Estimate) (local : Z) (c : Clock) : bool * Clock :=
  let target := e_time e in
  if failed_ c || (target <? 0) || (e_sampled e <? 0) || (local <? e_sampled e)
     || (1000000000 <? e_uncertainty_ns e) || (200000000 <? e_rtt_ns e)
     || match estimate_ c with Some old => e_sampled e <=? e_sampled old | None => false end
  then (false, c)
  else
    let age := local - e_sampled e in
    if (freshness <? wrap64 age) || (maximum - age <? target) then (false, c)
    else
      let predicted := e_time e + age in
      match estimate_ c with
      | None =>
          if clock_uncertainty_limit_ns <? wrap64 (e_uncertainty_ns e + drift (wrap64 age) 2000)
          then (false, c)
          else (true, install e {| slew_ppm_ := slew_ppm_ c; estimate_ := None;
                  local_ := local; epoch_ := predicted; debt_ := debt_ c;
                  fraction_ := fraction_ c; trusted_ := trusted_ c; failed_ := failed_ c |})
      | Some _ =>
          match advance local c with
          | (false, c') => (false, c')
          | (true, c') =>
              let debt := predicted - epoch_ c' in
              let fraction :=
                if negb (Bool.eqb (debt <? 0) (debt_ c' <? 0)) || (debt =? 0)
                then 0 else fraction_ c' in
              (true, install e {| slew_ppm_ := slew_ppm_ c'; estimate_ := estimate_ c';
                  local_ := local_ c'; epoch_ := epoch_ c'; debt_ := debt;
                  fraction_ := fraction; trusted_ := trusted_ c'; failed_ := failed_ c' |})
          end
      end.

Definition revoke (c : Clock) : Clock :=
  {| slew_ppm_ := slew_ppm_ c; estimate_ := estimate_ c; local_ := local_ c;
     epoch_ := epoch_ c; debt_ := debt_ c; fraction_ := fraction_ c;
     trusted_ := false; failed_ := failed_ c |}.

(** ** [Filter] *)
Record Filter := {
  local_precision_ : Z;
  best_ : option Estimate;
  count_ : Z
}.

Definition make_filter (local_precision : Z) : outcome Filter :=
  if (local_precision =? 0) || (20000000 <? local_precision) then Thrown invalid_argument
  else Done {| local_precision_ := local_precision; best_ := None; count_ := 0 |}.

(** [std::midpoint] on signed integers rounds towards its first argument. *)
Definition midpoint (a b : Z) : Z := a + Z.quot (b - a) 2.

Definition filter_observe (t0 t1 t2 t3 precision uncertainty : Z) (sync : bool) (f : Filter)
    : bool * Filter :=
  let limit := maximum in
  if negb sync || (precision =? 0) || (20000000 <? precision)
     || (clock_uncertainty_limit_ns <? uncertainty) || (limit <? t0) || (limit <? t1)
     || (limit <? t2) || (t3 <? 0) || (t3 <? t0) || (t2 <? t1)
  then (false, f)
  else
    let elapsed := wrap64 (t3 - t0) in
    let processing := wrap64 (t2 - t1) in
    if (200000000 <? elapsed) || (200000000 <? processing) then (false, f)
    else
      let dispersion := wrap64 (wrap64 (local_precision_ f + precision) + drift elapsed 1500) in
      if (elapsed <? processing) && (wrap64 (2 * dispersion) <? wrap64 (processing - elapsed))
      then (false, f)
      else
        let offset := midpoint (t1 - t0) (t2 - t3) in
        if ((0 <? offset) && (maximum - offset <? t3)) || ((offset <? 0) && (offset <? - t3))
        then (false, f)
        else
          let rtt := Z.max (if processing <? elapsed then elapsed - processing else 0)
                           (local_precision_ f) in
          let error := wrap64 (uncertainty + dispersion + (rtt + 1) / 2 + 1) in
          let best :=
            if match best_ f with None => true | Some b => rtt <=? e_rtt_ns b end
            then Some {| e_time := t3 + offset; e_sampled := t3;
                         e_uncertainty_ns := error; e_rtt_ns := rtt |}
            else best_ f in
          (true, {| local_precision_ := local_precision_ f; best_ := best;
                    count_ := Z.min (count_ f + 1) 8 |}).

Definition filter_result (f : Filter) : option Estimate :=
  if 3 <=? count_ f then best_ f else None.

(** ** The slewing step without machine arithmetic *)
Section slew.
Context (c : Clock).

Definition budget (e : Z) : Z := (e * slew_ppm_ c + fraction_ c) / 1000000.
Definition correction (e : Z) : Z := Z.min (magnitude (debt_ c)) (budget e).
Definition step (e : Z) : Z :=
  if debt_ c <? 0 then e - correction e else e + correction e.
Definition debt_left (e : Z) : Z :=
  debt_ c + (if debt_ c <? 0 then correction e else - correction e).
Definition moved (local : Z) : Clock :=
  let e := local - local_ c in
  {| slew_ppm_ := slew_ppm_ c; estimate_ := estimate_ c; local_ := local;
     epoch_ := epoch_ c + step e; debt_ := debt_left e;
     fraction_ := if debt_left e =? 0 then 0 else (e * slew_ppm_ c + fraction_ c) mod 1000000;
     trusted_ := trusted_ c; failed_ := failed_ c |}.
End slew.

Definition estimate_ok (local : Z) (e : Estimate) : Prop :=
  0 <= e_sampled e <= local ∧ 0 <= e_uncertainty_ns e <= 1000000000 ∧ 0 <= e_rtt_ns e.

(** Ranges of the members between operations. *)
Record ok (c : Clock) : Prop := {
  ok_ppm : 1 <= slew_ppm_ c <= 1000;
  ok_local : 0 <= local_ c <= maximum;
  ok_epoch : 0 <= epoch_ c <= maximum;
  ok_debt : - maximum <= debt_ c <= maximum;
  ok_fraction : 0 <= fraction_ c < 1000000;
  ok_estimate : ∀ e, estimate_ c = Some e → estimate_ok (local_ c) e;
  ok_target : match estimate_ c with
              | None => debt_ c = 0 ∧ epoch_ c = 0
              | Some e => epoch_ c + debt_ c = e_time e + (local_ c - e_sampled e)
              end
}.

Lemma magnitude_abs z : magnitude z = Z.abs z.
Proof. unfold magnitude. destruct (Z.ltb_spec z 0); lia. Qed.

Lemma deadline_after_spec rd ttl d :
  deadline_after rd ttl = Expected d ↔
  ready rd = true ∧ 0 <= time rd ∧ 0 <= ttl ∧ d = time rd + ttl ∧ d <= maximum.
Proof.
  unfold deadline_after. destruct (ready rd); simpl; [|split; [done|by intros (? & _)]].
  destruct (Z.ltb_spec (time rd) 0); simpl; [split; [done|lia]|].
  destruct (Z.ltb_spec ttl 0); simpl; [split; [done|lia]|].
  destruct (Z.ltb_spec (maximum - time rd) ttl); [split; [done|lia]|].
  split; [intros [= <-]; lia|]. intros (_ & _ & _ & -> & _). done.
Qed.

Section advance.
Context (c : Clock) (Hok : ok c).

Lemma budget_bounds e : 0 <= e → 0 <= budget c e <= e.
Proof using Hok.
  intros He. destruct Hok as [Hp _ _ _ Hf _ _]. unfold budget. split.
  - apply Z.div_pos; nia.
  - destruct (decide (e = 0)) as [->|].
    + rewrite Z.div_small by lia. lia.
    + apply Z.lt_succ_r, Z.div_lt_upper_bound; nia.
Qed.

Lemma step_nonneg e : 0 <= e → 0 <= step c e.
Proof using Hok.
  intros He. pose proof (budget_bounds e He). unfold step, correction.
  rewrite magnitude_abs. destruct (Z.ltb_spec (debt_ c) 0); lia.
Qed.

Lemma advance_spec local :
  local_ c <= local <= maximum → failed_ c = false →
  advance local c =
    if maximum <? epoch_ c + step c (local - local_ c)
    then (false, fail c) else (true, moved c local).
Proof using Hok.
  intros Hl Hnf. pose proof (budget_bounds (local - local_ c) ltac:(lia)) as Hbud.
  destruct Hok as [Hp Hlo He Hd Hf _ _]. unfold advance. rewrite Hnf. simpl.
  rewrite (proj2 (Z.ltb_ge _ _)) by lia.
  unfold maximum, i64_max in *. set (e := local - local_ c) in *.
  assert (Hw : wrap64 e = e) by (apply wrap64_small; unfold is_u64, u64_max; lia).
  rewrite Hw.
  pose proof (Z.mod_pos_bound e 1000000 ltac:(lia)) as Hm.
  pose proof (Z.div_mod e 1000000 ltac:(lia)) as Hdm.
  assert (Hq : 0 <= e / 1000000) by (apply Z.div_pos; lia).
  rewrite (wrap64_small (e mod 1000000 * slew_ppm_ c)) by (unfold is_u64, u64_max; nia).
  rewrite (wrap64_small (e mod 1000000 * slew_ppm_ c + fraction_ c))
    by (unfold is_u64, u64_max; nia).
  rewrite (wrap64_small (e / 1000000 * slew_ppm_ c)) by (unfold is_u64, u64_max; nia).
  assert (Hsum : e * slew_ppm_ c + fraction_ c =
    e mod 1000000 * slew_ppm_ c + fraction_ c + (e / 1000000 * slew_ppm_ c) * 1000000) by nia.
  assert (Hbeq : e / 1000000 * slew_ppm_ c + (e mod 1000000 * slew_ppm_ c + fraction_ c) / 1000000
    = budget c e).
  { unfold budget. rewrite Hsum, Z.div_add by lia. lia. }
  rewrite Hbeq. rewrite (wrap64_small (budget c e)) by (unfold is_u64, u64_max; lia).
  fold (correction c e).
  assert (Hc : 0 <= correction c e <= e)
    by (unfold correction; rewrite magnitude_abs; lia).
  assert (Hs : (if debt_ c <? 0 then wrap64 (e - correction c e) else wrap64 (e + correction c e))
    = step c e).
  { unfold step. destruct (debt_ c <? 0); apply wrap64_small; unfold is_u64, u64_max; lia. }
  rewrite Hs. unfold moved. fold e.
  replace ((e mod 1000000 * slew_ppm_ c + fraction_ c) mod 1000000)
    with ((e * slew_ppm_ c + fraction_ c) mod 1000000) by (rewrite Hsum; apply Z_mod_plus_full).
  destruct (Z.ltb_spec (2 ^ 63 - 1 - epoch_ c) (step c e)),
    (Z.ltb_spec (2 ^ 63 - 1) (epoch_ c + step c e)); (lia || done || by rewrite Hnf).
Qed.

Lemma moved_ok local :
  is_Some (estimate_ c) →
  local_ c <= local <= maximum → epoch_ c + step c (local - local_ c) <= maximum →
  ok (moved c local) ∧ epoch_ c <= epoch_ (moved c local).
Proof using Hok.
  intros [est0 Hsome] Hl Hs. set (e := local - local_ c) in *.
  pose proof (step_nonneg e ltac:(lia)). pose proof (budget_bounds e ltac:(lia)).
  destruct Hok as [Hp Hlo He Hd Hf Hest Htgt].
  split; [|simpl; fold e; lia]. split; simpl; fold e; try lia.
  - unfold debt_left, correction. rewrite magnitude_abs. destruct (Z.ltb_spec (debt_ c) 0); lia.
  - destruct (_ =? _); [lia|]. apply Z.mod_pos_bound. lia.
  - intros est E. specialize (Hest est E). unfold estimate_ok in *. lia.
  - rewrite Hsome in *. unfold step, debt_left. destruct (debt_ c <? 0); lia.
Qed.
End advance.

(** Splitting an advance into two changes nothing. *)
Section split.
Context (c : Clock) (Hok : ok c) (e1 e2 : Z) (He1 : 0 <= e1) (He2 : 0 <= e2).

(** The state after the first half, as far as the second half reads it. *)
Let c1 : Clock := moved c (local_ c + e1).

Lemma budget_split :
  budget c (e1 + e2) =
    budget c e1 + (e2 * slew_ppm_ c + (e1 * slew_ppm_ c + fraction_ c) mod 1000000) / 1000000 ∧
  ((e1 + e2) * slew_ppm_ c + fraction_ c) mod 1000000 =
    (e2 * slew_ppm_ c + (e1 * slew_ppm_ c + fraction_ c) mod 1000000) mod 1000000.
Proof using.
  unfold budget. set (n := e1 * slew_ppm_ c + fraction_ c).
  pose proof (Z.div_mod n 1000000 ltac:(lia)) as Hdm.
  replace ((e1 + e2) * slew_ppm_ c + fraction_ c)
    with (e2 * slew_ppm_ c + n mod 1000000 + n / 1000000 * 1000000) by (unfold n in *; lia).
  rewrite Z.div_add, Z_mod_plus_full by lia. lia.
Qed.

Lemma correction_split :
  correction c (e1 + e2) = correction c e1 + correction c1 e2 ∧
  (debt_ c1 ≠ 0 → (debt_ c1 <? 0) = (debt_ c <? 0)) ∧
  (debt_ c1 = 0 → correction c1 e2 = 0).
Proof using Hok He1 He2.
  destruct budget_split as [Hb _].
  pose proof (budget_bounds c Hok e1 He1) as Hb1.
  set (b2 := (e2 * slew_ppm_ c + _) / 1000000) in *.
  assert (Hb2 : 0 <= b2).
  { apply Z.div_pos; [|lia]. destruct Hok as [Hp _ _ _ _ _ _].
    pose proof (Z.mod_pos_bound (e1 * slew_ppm_ c + fraction_ c) 1000000). nia. }
  assert (Hd1 : debt_ c1 = debt_left c e1) by (unfold c1; simpl; f_equal; lia).
  assert (Hx : 0 <= budget c1 e2 ∧ (debt_ c1 ≠ 0 → budget c1 e2 = b2)).
  { unfold budget, c1. simpl. replace (local_ c + e1 - local_ c) with e1 by lia.
    destruct (Z.eqb_spec (debt_left c e1) 0) as [E|E].
    - split; [|intros Hne; exfalso; apply Hne; unfold c1; simpl;
        replace (local_ c + e1 - local_ c) with e1 by lia; done].
      apply Z.div_pos; [|lia]. destruct Hok as [Hp _ _ _ _ _ _]. nia.
    - split; [exact Hb2|done]. }
  destruct Hx as [Hx0 Hx]. rewrite Hd1 in *.
  unfold correction in *. rewrite Hb, Hd1, !magnitude_abs.
  unfold debt_left, correction in *. rewrite magnitude_abs in *.
  destruct (Z.ltb_spec (debt_ c) 0).
  - destruct (decide (debt_ c + Z.abs (debt_ c) `min` budget c e1 = 0)) as [E|E].
    + split_and!; lia.
    + rewrite (Hx E). split_and!; try lia.
  - destruct (decide (debt_ c + - (Z.abs (debt_ c) `min` budget c e1) = 0)) as [E|E].
    + split_and!; lia.
    + rewrite (Hx E). split_and!; try lia.
Qed.

Lemma step_split : step c (e1 + e2) = step c e1 + step c1 e2 ∧
  debt_left c (e1 + e2) = debt_left c1 e2.
Proof using Hok He1 He2.
  destruct correction_split as (Hc & Hs & Hz).
  assert (Hd1 : debt_ c1 = debt_left c e1) by (unfold c1; simpl; f_equal; lia).
  unfold step, debt_left. rewrite Hc.
  destruct (decide (debt_ c1 = 0)) as [E|E].
  - rewrite (Hz E). rewrite Hd1 in E. unfold debt_left in E.
    rewrite Hd1. unfold debt_left. destruct (debt_ c <? 0); rewrite E; simpl; lia.
  - rewrite (Hs E), Hd1. unfold debt_left. destruct (debt_ c <? 0); lia.
Qed.

Lemma moved_split : moved c1 (local_ c + (e1 + e2)) = moved c (local_ c + (e1 + e2)).
Proof using Hok He1 He2.
  destruct step_split as [Hs Hd]. destruct budget_split as [_ Hm].
  assert (Hl1 : local_ c1 = local_ c + e1) by reflexivity.
  unfold moved at 1. rewrite Hl1. replace (local_ c + (e1 + e2) - (local_ c + e1)) with e2 by lia.
  unfold moved at 1. replace (local_ c + (e1 + e2) - local_ c) with (e1 + e2) by lia.
  rewrite <- Hd. f_equal.
  - assert (epoch_ c1 = epoch_ c + step c e1) as -> by (unfold c1, moved; simpl; do 2 f_equal; lia).
    lia.
  - destruct (Z.eqb_spec (debt_left c (e1 + e2)) 0) as [|E]; [done|].
    rewrite Hm. unfold c1. simpl. replace (local_ c + e1 - local_ c) with e1 by lia.
    destruct (Z.eqb_spec (debt_left c e1) 0) as [E1|E1]; [|done].
    exfalso. apply E. rewrite Hd. unfold debt_left.
    destruct correction_split as (_ & _ & Hz).
    assert (E2 : debt_ c1 = 0) by (unfold c1; simpl; rewrite <- E1; f_equal; lia).
    rewrite (Hz E2), E2. done.
Qed.
End split.

(** The public time does not depend on how often it is read: advancing to
    [l2] succeeds with some state exactly when advancing through any
    intermediate instant [l1] succeeds and ends in that same state. *)
Theorem advance_path_independent (c : Clock) (l1 l2 : Z) (c2 : Clock) :
  ok c → is_Some (estimate_ c) → failed_ c = false → local_ c <= l1 <= l2 → l2 <= maximum →
  advance l2 c = (true, c2) ↔
  ∃ c1, advance l1 c = (true, c1) ∧ advance l2 c1 = (true, c2).
Proof.
  intros Hok Hsome Hnf Hl Hmax.
  set (e1 := l1 - local_ c). set (e2 := l2 - l1).
  assert (E1 : l1 = local_ c + e1) by lia. assert (E2 : l2 = local_ c + (e1 + e2)) by lia.
  destruct (step_split c Hok e1 e2 ltac:(lia) ltac:(lia)) as [Hs _].
  pose proof (moved_split c Hok e1 e2 ltac:(lia) ltac:(lia)) as Hm.
  rewrite (advance_spec c Hok l1 ltac:(lia) Hnf), (advance_spec c Hok l2 ltac:(lia) Hnf).
  replace (l2 - local_ c) with (e1 + e2) by lia. replace (l1 - local_ c) with e1 by lia.
  rewrite <- E1, <- E2 in *.
  destruct (Z.ltb_spec maximum (epoch_ c + step c e1)) as [Ho|Ho].
  { split; [|by intros (? & ? & _)].
    assert (0 <= step (moved c l1) e2) as Hpos; [|destruct (Z.ltb_spec maximum (epoch_ c + step c (e1 + e2))); [done|lia]].
    destruct (correction_split c Hok e1 e2 ltac:(lia) ltac:(lia)) as (Hc & _ & _).
    rewrite <- E1 in Hc. unfold step, correction. rewrite magnitude_abs.
    assert (0 <= budget (moved c l1) e2 <= e2); [|destruct (Z.ltb_spec (debt_ (moved c l1)) 0); lia].
    destruct Hok as [Hp _ _ _ Hf _ _]. unfold budget. simpl.
    set (fr := if _ =? 0 then 0 else _). assert (0 <= fr < 1000000).
    { unfold fr. destruct (_ =? 0); [lia|]. apply Z.mod_pos_bound. lia. }
    split; [apply Z.div_pos; nia|]. destruct (decide (e2 = 0)) as [->|]; [rewrite Z.div_small; lia|].
    apply Z.lt_succ_r, Z.div_lt_upper_bound; nia. }
  destruct (moved_ok c Hok l1 Hsome ltac:(lia)) as [Hok1 _]; [by replace (l1 - local_ c) with e1 by lia|].
  assert (Hadv : advance l2 (moved c l1) =
    if maximum <? epoch_ c + step c (e1 + e2) then (false, fail (moved c l1)) else (true, moved c l2)).
  { rewrite (advance_spec (moved c l1) Hok1 l2); [|simpl; lia|done].
    change (local_ (moved c l1)) with l1. fold e2. rewrite Hm.
    replace (epoch_ (moved c l1) + step (moved c l1) e2) with (epoch_ c + step c (e1 + e2)); [done|].
    assert (epoch_ (moved c l1) = epoch_ c + step c e1) as -> by done. lia. }
  destruct (maximum <? epoch_ c + step c (e1 + e2)) eqn:Eo.
  - split; [done|]. intros (c1 & [= <-] & Hx). by rewrite Hadv in Hx.
  - split.
    + intros [= <-]. exists (moved c l1). by rewrite Hadv.
    + intros (c1 & [= <-] & Hx). by rewrite Hadv in Hx.
Qed.

(** ** Histories of calls *)
Inductive op :=
| Now (local : Z)
| Publish (e : Estimate) (local : Z)
| Revoke.

(** Operands are 64-bit values. *)
Definition op_ok (o : op) : Prop :=
  match o with
  | Now local => is_i64 local
  | Publish e local =>
      is_i64 local ∧ is_i64 (e_time e) ∧ is_i64 (e_sampled e) ∧
      is_u64 (e_uncertainty_ns e) ∧ is_u64 (e_rtt_ns e)
  | Revoke => True
  end.

Definition apply (o : op) (c : Clock) : option Reading * Clock :=
  match o with
  | Now local => read_clock local c
  | Publish e local => (None, (observe_clock e local c).2)
  | Revoke => (None, revoke c)
  end.

(** The readings a history returns, each with the local time it was taken at. *)
Fixpoint history (ops : list op) (c : Clock) : list (Z * Reading) :=
  match ops with
  | [] => []
  | o :: ops' =>
      match apply o c with
      | (Some rd, c') => (local_ c', rd) :: history ops' c'
      | (None, c') => history ops' c'
      end
  end.

(** [follows c l t]: the public time may become [t] at local time [l >= local_ c]
    without leaving the slewing band that starts at [c]. *)
Definition band (ppm slack l1 t1 l2 t2 : Z) : Prop :=
  l1 <= l2 ∧ t1 <= t2 ∧
  Z.abs (t2 - t1 - (l2 - l1)) * 1000000 <= ppm * (l2 - l1) + slack.
Definition follows (c : Clock) (l t : Z) : Prop :=
  band (slew_ppm_ c) (fraction_ c) (local_ c) (epoch_ c) l t.

(** What one call leaves behind once the clock is anchored. *)
Record continues (c c' : Clock) : Prop := {
  cont_ok : ok c';
  cont_some : is_Some (estimate_ c');
  cont_ppm : slew_ppm_ c' = slew_ppm_ c;
  cont_band : ∀ l t, follows c' l t → follows c l t
}.

Lemma fail_ok c : ok c → ok (fail c).
Proof. by intros []. Qed.

Lemma continues_refl c : ok c → is_Some (estimate_ c) → continues c c.
Proof. by split. Qed.

Lemma continues_fail c : ok c → is_Some (estimate_ c) → continues c (fail c).
Proof. intros H. split; [by apply fail_ok|done..]. Qed.

Lemma moved_continues c local :
  ok c → is_Some (estimate_ c) → local_ c <= local <= maximum →
  epoch_ c + step c (local - local_ c) <= maximum → continues c (moved c local).
Proof.
  intros Hok Hs Hl Hm. destruct (moved_ok c Hok local Hs Hl Hm) as [Hok' Hmono].
  split; [done|done|done|]. intros l t (H1 & H2 & H3). simpl in *.
  set (e := local - local_ c) in *.
  pose proof (budget_bounds c Hok e ltac:(lia)) as Hb.
  assert (Hstep : Z.abs (step c e - e) <= budget c e).
  { unfold step, correction. rewrite magnitude_abs. destruct (debt_ c <? 0); lia. }
  set (fr := if _ =? 0 then 0 else _) in *.
  assert (Hfr : budget c e * 1000000 + fr <= e * slew_ppm_ c + fraction_ c).
  { unfold budget, fr. pose proof (Z.div_mod (e * slew_ppm_ c + fraction_ c) 1000000 ltac:(lia)).
    pose proof (Z.mod_pos_bound (e * slew_ppm_ c + fraction_ c) 1000000 ltac:(lia)).
    destruct (_ =? 0); lia. }
  unfold follows, band. split_and!; [lia..|].
  assert (slew_ppm_ c * (l - local_ c) = slew_ppm_ c * (l - local) + e * slew_ppm_ c) by nia.
  lia.
Qed.

Lemma advance_continues c local :
  ok c → is_Some (estimate_ c) → is_i64 local →
  match advance local c with
  | (true, c') => c' = moved c local ∧ local_ c <= local ∧ continues c c' ∧ failed_ c = false
  | (false, c') => continues c c'
  end.
Proof.
  intros Hok Hs Hl. destruct (failed_ c) eqn:Ef.
  { unfold advance. rewrite Ef. simpl. by apply continues_fail. }
  destruct (decide (local < local_ c)) as [Hlt|Hge].
  { unfold advance. rewrite Ef, (proj2 (Z.ltb_lt _ _)) by done. by apply continues_fail. }
  unfold is_i64 in Hl. rewrite advance_spec by (done || unfold maximum; lia).
  destruct (Z.ltb_spec maximum (epoch_ c + step c (local - local_ c))).
  { by apply continues_fail. }
  split_and!; [done|lia| |done]. apply moved_continues; (done || unfold maximum; lia).
Qed.

Lemma observe_anchored c e local :
  ok c → is_Some (estimate_ c) → op_ok (Publish e local) →
  continues c (observe_clock e local c).2.
Proof.
  intros Hok Hs (Hl & Ht & Hsm & Hu & Hr). unfold observe_clock.
  destruct (_ || _) eqn:Eg; [by apply continues_refl|].
  rewrite !orb_false_iff, !Z.ltb_ge in Eg. destruct Eg as [[[[[[Hf Ht0] Hs0] Hls] Hu0] Hr0] _].
  destruct ((freshness <? _) || _) eqn:Ea; [by apply continues_refl|].
  rewrite orb_false_iff, !Z.ltb_ge in Ea. destruct Ea as [_ Hp].
  destruct (estimate_ c) as [old|] eqn:Ee; [|by destruct Hs].
  pose proof (advance_continues c local Hok ltac:(by rewrite Ee) Hl) as Hadv.
  destruct (advance local c) as [[] c'] eqn:Ead; [|done].
  destruct Hadv as (-> & Hloc & [Hok' _ Hppm Hband] & _).
  destruct Hok' as [O1 O2 O3 O4 O5 O6 O7].
  unfold is_i64, is_u64, maximum in *.
  split; [| by eexists | done |].
  - split; cbn [snd install slew_ppm_ local_ epoch_ debt_ fraction_ estimate_] in *;
      unfold maximum in *; try lia.
    + destruct (_ || _); lia.
    + intros e' [= <-]. unfold estimate_ok. cbn. lia.
    + change (local_ (moved c local)) with local. lia.
  - intros l t (B1 & B2 & B3). apply Hband. cbn [snd install slew_ppm_ local_ epoch_ fraction_] in *.
    unfold follows, band. split_and!; [done..|].
    destruct (_ || _) in B3; lia.
Qed.

Lemma observe_first c e local :
  ok c → estimate_ c = None → op_ok (Publish e local) →
  ok (observe_clock e local c).2.
Proof.
  intros Hok Hn (Hl & Ht & Hsm & Hu & Hr). unfold observe_clock. rewrite Hn.
  destruct (_ || _) eqn:Eg; [done|].
  rewrite !orb_false_iff, !Z.ltb_ge in Eg. destruct Eg as [[[[[[Hf Ht0] Hs0] Hls] Hu0] Hr0] _].
  destruct ((freshness <? _) || _) eqn:Ea; [done|].
  rewrite orb_false_iff, !Z.ltb_ge in Ea. destruct Ea as [_ Hp].
  destruct (_ <? _); [done|].
  destruct Hok as [O1 O2 O3 O4 O5 O6 O7]. rewrite Hn in O7. destruct O7 as [D E].
  unfold is_i64, is_u64, maximum in *.
  split; cbn; unfold maximum in *; try lia.
  intros e' [= <-]. unfold estimate_ok. lia.
Qed.

Lemma revoke_continues c : ok c → is_Some (estimate_ c) → continues c (revoke c).
Proof. intros [] Hs. by split. Qed.

(** One call from any state the clock can be in. *)
Lemma apply_ok o c : ok c → op_ok o → ok (apply o c).2.
Proof.
  intros Hok Ho. destruct (estimate_ c) as [e0|] eqn:Ee.
  - assert (Hs : is_Some (estimate_ c)) by (by rewrite Ee). destruct o as [l|e l|]; cbn [apply].
    + unfold read_clock. rewrite Ee. pose proof (advance_continues c l Hok Hs Ho) as Ha.
      destruct (advance l c) as [[] c']; cbn; [by apply Ha|by apply Ha].
    + by apply observe_anchored.
    + by apply revoke_continues.
  - destruct o as [l|e l|]; cbn [apply].
    + unfold read_clock. by rewrite Ee.
    + by apply observe_first.
    + by destruct Hok.
Qed.

Lemma apply_anchored o c :
  ok c → is_Some (estimate_ c) → op_ok o →
  continues c (apply o c).2 ∧
  ∀ rd, (apply o c).1 = Some rd → time rd = epoch_ (apply o c).2.
Proof.
  intros Hok Hs Ho. destruct o as [l|e l|]; cbn [apply].
  - unfold read_clock. destruct (estimate_ c) eqn:Ee; [|by destruct Hs].
    pose proof (advance_continues c l Hok ltac:(by rewrite Ee) Ho) as Ha.
    destruct (advance l c) as [[] c']; cbn; [|done].
    split; [by apply Ha|]. by intros rd [= <-].
  - split; [by apply observe_anchored|done].
  - split; [by apply revoke_continues|done].
Qed.

Lemma apply_unanchored o c :
  estimate_ c = None → (apply o c).1 = None.
Proof.
  intros Hn. destruct o; cbn [apply]; [|done|done]. unfold read_clock. by rewrite Hn.
Qed.

Definition tracks (ppm : Z) (a b : Z * Reading) : Prop :=
  band ppm 1000000 a.1 (time a.2) b.1 (time b.2).

Lemma history_anchored ops c :
  ok c → is_Some (estimate_ c) → Forall op_ok ops →
  Forall (λ r, follows c r.1 (time r.2)) (history ops c) ∧
  StronglySorted (tracks (slew_ppm_ c)) (history ops c).
Proof.
  revert c. induction ops as [|o ops IH]; intros c Hok Hs Hops; [split; constructor|].
  inversion_clear Hops as [|?? Ho Hrest].
  destruct (apply_anchored o c Hok Hs Ho) as [[Hok' Hs' Hppm Hband] Hrd]. cbn [history].
  destruct (apply o c) as [[rd|] c']; simpl in *.
  - destruct (IH c' Hok' Hs' Hrest) as [Hall Hsort]. rewrite Hppm in Hsort.
    pose proof (Hrd rd eq_refl) as Ht. pose proof (ok_fraction _ Hok') as Hf. split.
    + constructor; [|eapply Forall_impl; [exact Hall|simpl; auto]].
      apply Hband. simpl. rewrite Ht. unfold follows, band. lia.
    + constructor; [done|]. eapply Forall_impl; [exact Hall|].
      intros r (B1 & B2 & B3). rewrite Hppm in B3. unfold tracks, band. simpl.
      rewrite Ht. split_and!; [done..|]. lia.
  - destruct (IH c' Hok' Hs' Hrest) as [Hall Hsort]. rewrite Hppm in Hsort.
    split; [|done]. eapply Forall_impl; [exact Hall|simpl; auto].
Qed.

Lemma make_ok ppm c : is_u64 ppm → make ppm = Done c → ok c ∧ estimate_ c = None ∧ slew_ppm_ c = ppm.
Proof.
  unfold make, is_u64. intros Hu. destruct (Z.eqb_spec ppm 0); [done|].
  destruct (Z.ltb_spec 1000 ppm); [done|]. intros [= <-].
  split_and!; [|done..]. split; cbn; unfold maximum, i64_max; try lia. done.
Qed.

(** C17. Over any history of reads, publications and revocations the public
    time is disciplined: of two successful readings the later one is at a
    local instant and a public time not before the earlier one's, and the two
    time spans differ by at most the configured slew (plus 1 ns of rounding),
    no matter which estimates were published in between. *)
Theorem history_disciplined (ppm : Z) (c : Clock) (ops : list op) :
  is_u64 ppm → make ppm = Done c → Forall op_ok ops →
  StronglySorted (tracks ppm) (history ops c).
Proof.
  intros Hu Hm. destruct (make_ok ppm c Hu Hm) as (Hok & Hn & Hppm). clear Hm. revert c Hok Hn Hppm.
  induction ops as [|o ops IH]; intros c Hok Hn Hppm Hops; [constructor|].
  inversion_clear Hops as [|?? Ho Hrest].
  pose proof (apply_ok o c Hok Ho) as Hok'. pose proof (apply_unanchored o c Hn) as Hnone.
  assert (Hppm' : slew_ppm_ (apply o c).2 = ppm).
  { destruct o as [l|e l|]; cbn [apply]; [unfold read_clock; by rewrite Hn| |done].
    unfold observe_clock. rewrite Hn. repeat case_match; done. }
  cbn [history]. destruct (apply o c) as [[rd|] c'] eqn:Ea; simpl in *; [done|].
  destruct (estimate_ c') eqn:Ee; [|by apply IH].
  rewrite <- Hppm'. by apply history_anchored; [|rewrite Ee|].
Qed.

(** ** Accuracy

    [steady ppm tau]: the reference time as a function of the local clock
    strays from the local clock by at most the drift the code budgets. *)
Definition steady (ppm : Z) (tau : Z → Z) : Prop :=
  ∀ a b, 0 <= a → 0 <= b - a <= maximum → Z.abs (tau b - tau a - (b - a)) <= drift (b - a) ppm.

Lemma drift_ceil age ppm :
  0 <= age <= maximum → 0 <= ppm <= 2000 → drift age ppm = (age * ppm + 999999) / 1000000.
Proof.
  intros Ha Hp. unfold drift, maximum, i64_max in *.
  pose proof (Z.mod_pos_bound age 1000000 ltac:(lia)) as Hm.
  pose proof (Z.div_mod age 1000000 ltac:(lia)) as Hdm.
  assert (Hq : 0 <= age / 1000000) by (apply Z.div_pos; lia).
  set (q := age / 1000000) in *. set (r := age mod 1000000) in *.
  rewrite (wrap64_small (q * ppm)) by (unfold is_u64, u64_max; nia).
  rewrite (wrap64_small (r * ppm)) by (unfold is_u64, u64_max; nia).
  rewrite (wrap64_small (r * ppm + 999999)) by (unfold is_u64, u64_max; nia).
  assert (0 <= (r * ppm + 999999) / 1000000 <= 3000).
  { split; [apply Z.div_pos; nia|]. apply Z.lt_succ_r, Z.div_lt_upper_bound; nia. }
  rewrite wrap64_small by (unfold is_u64, u64_max; nia).
  replace (age * ppm + 999999) with (r * ppm + 999999 + q * ppm * 1000000) by (rewrite Hdm; nia).
  rewrite Z.div_add by lia. lia.
Qed.

(** [drift] as inequalities [lia] can use. *)
Lemma drift_bounds age ppm :
  0 <= age <= maximum → 0 <= ppm <= 2000 →
  age * ppm <= drift age ppm * 1000000 < age * ppm + 1000000.
Proof.
  intros Ha Hp. rewrite drift_ceil by done.
  pose proof (Z.div_mod (age * ppm + 999999) 1000000 ltac:(lia)).
  pose proof (Z.mod_pos_bound (age * ppm + 999999) 1000000 ltac:(lia)). lia.
Qed.

Lemma steady_weaken p q tau : 0 <= p <= q → q <= 2000 → steady p tau → steady q tau.
Proof.
  intros Hp Hq H a b Ha Hb. pose proof (H a b Ha Hb).
  pose proof (drift_bounds (b - a) p Hb ltac:(lia)).
  pose proof (drift_bounds (b - a) q Hb ltac:(lia)).
  assert ((b - a) * p <= (b - a) * q) by nia. lia.
Qed.

(** An estimate whose error bar, widened by [slack], contains the reference time. *)
Definition sound (tau : Z → Z) (slack : Z) (e : Estimate) : Prop :=
  Z.abs (tau (e_sampled e) - e_time e) <= e_uncertainty_ns e + slack.

Section accuracy.
Context (tau : Z → Z) (slack : Z) (Htau : steady 2000 tau).

Definition covered (r : Z * Reading) : Prop :=
  Z.abs (tau r.1 - time r.2) <= uncertainty_ns r.2 + slack.

Lemma read_covered c local e :
  ok c → estimate_ c = Some e → sound tau slack e → is_i64 local →
  match read_clock local c with
  | (Some rd, c') => covered (local_ c', rd)
  | _ => True
  end.
Proof using Htau.
  intros Hok Ee Hs Hl. unfold read_clock. rewrite Ee.
  pose proof (advance_continues c local Hok ltac:(by rewrite Ee) Hl) as Ha.
  destruct (advance local c) as [[] c']; [|done].
  destruct Ha as (-> & Hloc & [Hok' _ _ _] & _).
  destruct Hok' as [_ O2 O3 O4 _ O6 O7].
  assert (Ee' : estimate_ (moved c local) = Some e) by done. rewrite Ee' in O7.
  specialize (O6 e Ee'). destruct O6 as (Hsm & Hu & _).
  change (local_ (moved c local)) with local in *.
  unfold covered. cbn [fst snd time uncertainty_ns]. rewrite magnitude_abs.
  rewrite (wrap64_small (local - e_sampled e)) by (unfold is_u64, u64_max, maximum, i64_max in *; lia).
  set (age := local - e_sampled e) in *.
  assert (Hage : 0 <= age <= maximum) by lia.
  pose proof (drift_bounds age 2000 Hage ltac:(lia)) as Hd.
  pose proof (Htau (e_sampled e) local ltac:(lia) Hage) as Ht. fold age in Ht.
  unfold sound in Hs. unfold maximum, i64_max in *.
  rewrite (wrap64_small (e_uncertainty_ns e + _)) by (unfold is_u64, u64_max; lia).
  rewrite wrap64_small by (unfold is_u64, u64_max; lia).
  lia.
Qed.

Definition op_sound (o : op) : Prop :=
  match o with Publish e _ => sound tau slack e | _ => True end.

Lemma apply_sound o c e :
  (∀ e0, estimate_ c = Some e0 → sound tau slack e0) → op_sound o →
  estimate_ (apply o c).2 = Some e → sound tau slack e.
Proof using.
  assert (Hadv : ∀ l, estimate_ (advance l c).2 = estimate_ c).
  { intros l. unfold advance. by repeat case_match. }
  intros Hc Ho. destruct o as [l|e' l|]; cbn [apply]; [| |apply Hc].
  - unfold read_clock. destruct (estimate_ c) eqn:Ee; [|by simpl; rewrite Ee].
    specialize (Hadv l). destruct (advance l c) as [[] c']; simpl in *; rewrite Hadv; apply Hc.
  - unfold observe_clock. specialize (Hadv l). destruct (advance l c) as [b c']; simpl in Hadv.
    repeat (case_match; simpl in * ); intros Heq;
      (injection Heq as <-; done) || (apply Hc; congruence).
Qed.
End accuracy.

(** If every published estimate's error bar, widened by [slack], contains the
    reference time at its sampling instant and the reference strays from the
    local clock by at most the budgeted 2000 ppm, then every reading of every
    history is as accurate: the reference time lies within [uncertainty_ns]
    and [slack] of the time read, while slewing and after the source is lost. *)
Theorem history_accurate (tau : Z → Z) (slack ppm : Z) (c : Clock) (ops : list op) :
  steady 2000 tau → is_u64 ppm → make ppm = Done c →
  Forall op_ok ops → Forall (op_sound tau slack) ops →
  Forall (covered tau slack) (history ops c).
Proof.
  intros Htau Hu Hm Hops Hsnd. destruct (make_ok ppm c Hu Hm) as (Hok & Hn & _).
  assert (He : ∀ e, estimate_ c = Some e → sound tau slack e) by (by rewrite Hn). clear Hm Hn.
  revert c Hok He. induction ops as [|o ops IH]; intros c Hok He; [constructor|].
  inversion_clear Hops as [|?? Ho Hrest]. inversion_clear Hsnd as [|?? Hs Hsrest].
  pose proof (apply_ok o c Hok Ho) as Hok'.
  pose proof (λ e, apply_sound tau slack o c e He Hs) as He'.
  cbn [history]. destruct (apply o c) as [[rd|] c'] eqn:Ea; simpl in *; [|by apply IH].
  constructor; [|by apply IH].
  destruct o as [l|e l|]; cbn [apply] in Ea; [|done|done].
  destruct (estimate_ c) as [e|] eqn:Ee.
  - pose proof (read_covered tau slack Htau c l e Hok Ee (He e eq_refl) Ho) as Hr. by rewrite Ea in Hr.
  - unfold read_clock in Ea. by rewrite Ee in Ea.
Qed.

(** ** The filter's error bar *)
Record sample := {
  s_t0 : Z; s_t1 : Z; s_t2 : Z; s_t3 : Z;
  s_precision : Z; s_uncertainty : Z; s_synchronized : bool
}.

Definition sample_ok (s : sample) : Prop :=
  is_u64 (s_t0 s) ∧ is_u64 (s_t1 s) ∧ is_u64 (s_t2 s) ∧ is_i64 (s_t3 s) ∧
  is_u64 (s_precision s) ∧ is_u64 (s_uncertainty s).

Definition feed (f : Filter) (s : sample) : Filter :=
  (filter_observe (s_t0 s) (s_t1 s) (s_t2 s) (s_t3 s) (s_precision s) (s_uncertainty s)
     (s_synchronized s) f).2.

(** A physically possible exchange: the request leaves at local instant [a0],
    is received and answered at reference instants [u1 <= u2], and the answer
    arrives at local instant [a3]; the server's clock reads [r1], [r2] within
    its declared uncertainty and [slack], and all four stamps are truncated to the
    precision of the clock that took them. *)
Definition faithful (tau : Z → Z) (slack local_precision : Z) (s : sample) : Prop :=
  ∃ a0 a3 u1 u2 r1 r2,
    s_t0 s <= a0 <= s_t0 s + local_precision ∧ s_t3 s <= a3 <= s_t3 s + local_precision ∧
    tau a0 <= u1 ∧ u1 <= u2 ∧ u2 <= tau a3 ∧
    Z.abs (r1 - u1) <= s_uncertainty s + slack ∧ Z.abs (r2 - u2) <= s_uncertainty s + slack ∧
    s_t1 s <= r1 <= s_t1 s + s_precision s ∧ s_t2 s <= r2 <= s_t2 s + s_precision s.

Section filter.
Context (tau : Z → Z) (slack : Z) (Htau : steady 1500 tau).

Lemma steady_mono a b : 0 <= a → a <= b → b - a <= maximum → tau a <= tau b.
Proof using Htau.
  intros Ha Hb Hm. pose proof (Htau a b Ha ltac:(lia)).
  pose proof (drift_bounds (b - a) 1500 ltac:(lia) ltac:(lia)). lia.
Qed.

(** The four stamps bracket the reference offset [tau t3 - t3]. *)
Lemma offset_bracket s lp :
  0 <= s_t0 s <= s_t3 s → s_t3 s <= maximum → 1 <= lp <= 20000000 → faithful tau slack lp s →
  let D := tau (s_t3 s) - s_t3 s in
  D - drift (s_t3 s - s_t0 s) 1500 - s_uncertainty s - slack - s_precision s <= s_t1 s - s_t0 s ∧
  s_t2 s - s_t3 s <= D + lp + drift lp 1500 + s_uncertainty s + slack.
Proof using Htau.
  intros H0 H3 Hlp (a0 & a3 & u1 & u2 & r1 & r2 & A0 & A3 & C1 & C2 & C3 & R1 & R2 & P1 & P2) D.
  assert (Hlpm : lp <= maximum) by (unfold maximum, i64_max; lia).
  pose proof (steady_mono (s_t0 s) a0 ltac:(lia) ltac:(lia) ltac:(lia)) as M0.
  pose proof (steady_mono a3 (s_t3 s + lp) ltac:(lia) ltac:(lia) ltac:(lia)) as M3.
  pose proof (Htau (s_t0 s) (s_t3 s) ltac:(lia) ltac:(lia)) as D1.
  pose proof (Htau (s_t3 s) (s_t3 s + lp) ltac:(lia) ltac:(lia)) as D2.
  replace (s_t3 s + lp - s_t3 s) with lp in D2 by lia.
  unfold D. lia.
Qed.

Lemma midpoint_bounds a b : 2 * midpoint a b - 1 <= a + b <= 2 * midpoint a b + 1.
Proof using.
  unfold midpoint. pose proof (Z.quot_rem' (b - a) 2) as Hq.
  assert (-1 <= Z.rem (b - a) 2 <= 1); [|lia].
  pose proof (Z.rem_bound_abs (b - a) 2 ltac:(lia)). lia.
Qed.

(** The error the code computes dominates both sides of the bracket. *)
Lemma error_dominates lp p elapsed processing :
  1 <= lp <= 20000000 → 1 <= p → 0 <= elapsed <= 200000000 → 0 <= processing →
  let rtt := Z.max (if processing <? elapsed then elapsed - processing else 0) lp in
  let excess := elapsed - processing in
  2 * (lp + drift lp 1500) + excess + 1 <=
    2 * (lp + p + drift elapsed 1500 + (rtt + 1) / 2 + 1) ∧
  excess <= rtt.
Proof using.
  intros Hlp Hp He Hpr rtt excess.
  assert (Hm : 200000000 <= maximum) by (unfold maximum, i64_max; lia).
  pose proof (drift_bounds lp 1500 ltac:(lia) ltac:(lia)) as D1.
  pose proof (drift_bounds elapsed 1500 ltac:(lia) ltac:(lia)) as D2.
  assert (Hr : lp <= rtt ∧ excess <= rtt) by (unfold rtt, excess; destruct (Z.ltb_spec processing elapsed); lia).
  pose proof (Z.div_mod (rtt + 1) 2 ltac:(lia)).
  pose proof (Z.mod_pos_bound (rtt + 1) 2 ltac:(lia)).
  assert (Hex : excess <= elapsed) by (unfold excess; lia).
  split; [|lia].
  destruct (Z.le_gt_cases lp elapsed); lia.
Qed.

Definition sharp (f : Filter) : Prop :=
  1 <= local_precision_ f <= 20000000 ∧
  ∀ e, best_ f = Some e →
    sound tau slack e ∧ 0 <= e_time e <= maximum ∧ 0 <= e_sampled e <= maximum ∧
    0 <= e_uncertainty_ns e <= 1000000000 ∧ 0 <= e_rtt_ns e <= 200000000.

Lemma feed_precision f s : local_precision_ (feed f s) = local_precision_ f.
Proof using. unfold feed, filter_observe. by repeat case_match. Qed.

Lemma feed_sharp f s :
  sharp f → sample_ok s → faithful tau slack (local_precision_ f) s → sharp (feed f s).
Proof using Htau.
  intros [Hlp Hb] (O0 & O1 & O2 & O3 & Op & Ou) Hf. split; [by rewrite feed_precision|].
  unfold feed, filter_observe. destruct (_ || _) eqn:Eg; [done|].
  rewrite !orb_false_iff, !Z.ltb_ge, Z.eqb_neq in Eg.
  destruct Eg as [[[[[[[[[Es Hp0] Hp] Hu] Ht0] Ht1] Ht2] Ht3] Ht03] Ht12].
  unfold is_u64, is_i64, i64_max, u64_max, clock_uncertainty_limit_ns in *.
  assert (Hi : maximum = 2 ^ 63 - 1) by done.
  rewrite (wrap64_small (s_t3 s - s_t0 s)), (wrap64_small (s_t2 s - s_t1 s))
    by (unfold is_u64, u64_max; lia).
  set (elapsed := s_t3 s - s_t0 s) in *. set (processing := s_t2 s - s_t1 s) in *.
  destruct (_ || _) eqn:E1; [done|]. rewrite orb_false_iff, !Z.ltb_ge in E1. destruct E1 as [He Hpr].
  pose proof (drift_bounds elapsed 1500 ltac:(lia) ltac:(lia)) as Hd.
  rewrite (wrap64_small (local_precision_ f + _)) by (unfold is_u64, u64_max; lia).
  rewrite (wrap64_small (local_precision_ f + _ + _)) by (unfold is_u64, u64_max; lia).
  destruct (_ && _); [done|]. set (off := midpoint _ _).
  destruct (_ || _) eqn:E2; [done|].
  rewrite orb_false_iff, !andb_false_iff, !Z.ltb_ge in E2.
  cbn [snd best_]. destruct (match best_ f with Some _ => _ | None => _ end); [|done].
  intros e [= <-]. cbn [e_time e_sampled e_uncertainty_ns e_rtt_ns].
  pose proof (offset_bracket s (local_precision_ f) ltac:(lia) ltac:(lia) Hlp Hf) as [Lo Hi'].
  pose proof (error_dominates (local_precision_ f) (s_precision s) elapsed processing
    Hlp ltac:(lia) ltac:(lia) ltac:(lia)) as [Dom Dom2].
  pose proof (midpoint_bounds (s_t1 s - s_t0 s) (s_t2 s - s_t3 s)) as Mid. fold off in Mid.
  set (rtt := Z.max _ _) in *.
  assert (Hrtt : 0 <= rtt <= 200000000) by (unfold rtt; destruct (processing <? elapsed); lia).
  pose proof (Z.div_mod (rtt + 1) 2 ltac:(lia)) as Hdm.
  pose proof (Z.mod_pos_bound (rtt + 1) 2 ltac:(lia)) as Hmod.
  rewrite wrap64_small by (unfold is_u64, u64_max; lia).
  unfold sound. cbn [e_time e_sampled e_uncertainty_ns]. fold elapsed in Lo.
  split_and!; lia.
Qed.
End filter.

(** A batch of physically possible exchanges yields an estimate whose error
    bar, widened by the same [slack], contains the reference time at the sampling instant (1500 ppm of
    relative drift allowed), and whose fields lie in the ranges [Clock]
    accepts for a published estimate. *)
Theorem filter_covers_reference (tau : Z → Z) (slack lp : Z) (f : Filter) (batch : list sample)
    (e : Estimate) :
  steady 1500 tau → is_u64 lp → make_filter lp = Done f →
  Forall sample_ok batch → Forall (faithful tau slack lp) batch →
  filter_result (fold_left feed batch f) = Some e →
  sound tau slack e ∧ 0 <= e_time e <= maximum ∧ 0 <= e_sampled e <= maximum ∧
  0 <= e_uncertainty_ns e <= 1000000000 ∧ 0 <= e_rtt_ns e <= 200000000.
Proof.
  intros Htau Hu Hm Hok Hf Hr.
  assert (Hsharp : sharp tau slack f ∧ local_precision_ f = lp).
  { unfold make_filter, is_u64 in *. destruct (Z.eqb_spec lp 0); [done|].
    destruct (Z.ltb_spec 20000000 lp); [done|]. injection Hm as <-.
    split; [split; cbn; [lia|done]|done]. }
  assert (Hend : sharp tau slack (fold_left feed batch f)).
  { clear Hm Hr. destruct Hsharp as [Hs Hlp]. revert f Hs Hlp.
    induction batch as [|s batch IH]; intros f Hs Hlp; [done|]. simpl.
    inversion_clear Hok. inversion_clear Hf.
    apply IH; [done|done| |by rewrite feed_precision].
    apply feed_sharp; [done..|by rewrite Hlp]. }
  apply Hend. unfold filter_result in Hr. by destruct (_ <=? _).
Qed.

(** ** A concrete history *)
Module Sample.

Definition reference (l : Z) : Z := l + 1700000000000000000.

Lemma reference_steady ppm : steady ppm reference.
Proof.
  intros a b Ha Hb. unfold reference, drift.
  pose proof (wrap64_u64 (wrap64 ((b - a) / 1000000 * ppm)
    + wrap64 (wrap64 ((b - a) mod 1000000 * ppm) + 999999) / 1000000)) as [H _]. lia.
Qed.

(** Two estimates that disagree by about 2 ms, so the second starts a slew. *)
Definition first_estimate : Estimate :=
  {| e_time := reference 1000000; e_sampled := 1000000;
     e_uncertainty_ns := 3000000; e_rtt_ns := 400000 |}.
Definition second_estimate : Estimate :=
  {| e_time := reference 900000000 - 2000000; e_sampled := 900000000;
     e_uncertainty_ns := 3000000; e_rtt_ns := 300000 |}.

Definition ops : list op :=
  [Publish first_estimate 2000000; Now 500000000; Publish second_estimate 1000000000;
   Now 1500000000; Revoke; Now 9000000000].

Definition fresh : Clock :=
  {| slew_ppm_ := 1000; estimate_ := None; local_ := 0; epoch_ := 0; debt_ := 0;
     fraction_ := 0; trusted_ := false; failed_ := false |}.

Definition slewing : Clock :=
  foldl (λ c o, (apply o c).2) fresh
    [Publish first_estimate 2000000; Publish second_estimate 1000000000].

Example history_values :
  map (λ r, (r.1, reference r.1 - time r.2, uncertainty_ns r.2, synchronized r.2))
    (history ops fresh) =
  [(500000000, 0, 3998000, true); (1500000000, 500000, 5700000, true);
   (9000000000, 2000000, 19200000, false)].
Proof. vm_compute. reflexivity. Qed.

Lemma ops_ok : Forall op_ok ops.
Proof. unfold ops. repeat constructor; vm_compute; done. Qed.

Lemma slewing_ok : ok slewing.
Proof.
  pose proof ops_ok as H. unfold ops in H. apply Forall_cons in H as [H1 H].
  apply Forall_cons in H as [_ H]. apply Forall_cons in H as [H2 _].
  destruct (make_ok 1000 fresh) as [Hok _]; [by vm_compute|done|].
  apply (apply_ok (Publish second_estimate 1000000000)); [|done].
  by apply (apply_ok (Publish first_estimate 2000000)).
Qed.

Lemma advance_path_independent_witness :
  advance 3000000000 slewing = (true, (advance 3000000000 slewing).2) ↔
  ∃ c1, advance 1700000001 slewing = (true, c1) ∧
    advance 3000000000 c1 = (true, (advance 3000000000 slewing).2).
Proof.
  apply advance_path_independent.
  - exact slewing_ok.
  - exists second_estimate. vm_compute. reflexivity.
  - by vm_compute.
  - by vm_compute.
  - by vm_compute.
Defined.

Lemma history_disciplined_witness : StronglySorted (tracks 1000) (history ops fresh).
Proof.
  apply history_disciplined.
  - by vm_compute.
  - reflexivity.
  - exact ops_ok.
Defined.

Lemma history_accurate_witness : Forall (covered reference 0) (history ops fresh).
Proof.
  apply (history_accurate reference 0 1000).
  - apply reference_steady.
  - by vm_compute.
  - reflexivity.
  - exact ops_ok.
  - unfold ops. repeat constructor; vm_compute; done.
Defined.

(** Three exchanges with a 1 ms local clock against a 100 ns server clock. *)
Definition exchange (t0 : Z) : sample :=
  {| s_t0 := t0; s_t1 := reference (t0 + 2000000); s_t2 := reference (t0 + 2500000);
     s_t3 := t0 + 4000000; s_precision := 100; s_uncertainty := 5000; s_synchronized := true |}.
Definition batch : list sample := [exchange 1000000000; exchange 1100000000; exchange 1200000000].
Definition filter_ms : Filter := {| local_precision_ := 1000000; best_ := None; count_ := 0 |}.

Lemma exchange_faithful t0 : faithful reference 0 1000000 (exchange t0).
Proof.
  exists t0, (t0 + 4000000), (reference (t0 + 2000000)), (reference (t0 + 2500000)),
    (reference (t0 + 2000000)), (reference (t0 + 2500000)).
  unfold reference. cbn. unfold reference. lia.
Qed.

Definition batch_estimate : Estimate :=
  {| e_time := reference 1204000000 + 250000; e_sampled := 1204000000;
     e_uncertainty_ns := 2761101; e_rtt_ns := 3500000 |}.

Lemma filter_covers_reference_witness :
  sound reference 0 batch_estimate ∧ 0 <= e_time batch_estimate <= maximum ∧
  0 <= e_sampled batch_estimate <= maximum ∧
  0 <= e_uncertainty_ns batch_estimate <= 1000000000 ∧
  0 <= e_rtt_ns batch_estimate <= 200000000.
Proof.
  apply (filter_covers_reference reference 0 1000000 filter_ms batch).
  - apply reference_steady.
  - by vm_compute.
  - reflexivity.
  - unfold batch. repeat constructor; vm_compute; done.
  - unfold batch. repeat constructor; apply exchange_faithful.
  - vm_compute. reflexivity.
Defined.

End Sample.
