(* ===== verification/Agenda.v ===== *)
(** The lease scheduler of one source group: [astra/star/src/agenda.hpp].

    An [Agenda] anchors a [Wheel<4, 8>] of 10 ms ticks to Unix time.  Its own
    members are [time_] and [tick_]; the embedded wheel is the component of
    [Wheel.v], so the state of a running [advance] is the pair of the wheel and
    of the frame together with whatever the callback works on. *)
From stdpp Require Import base numbers gmap list.
From S2P Require Import Prelude Wheel.

(** [using Timer = Wheel<4, 8>]. *)
#[export] Instance timer_geometry : Geometry := {| Levels := 4; Bits := 8 |}.
#[export] Instance timer_geometry_ok : GeometryOk timer_geometry.
Proof. split; simpl; lia || (vm_compute; congruence). Qed.

(** Nanoseconds. *)
Definition interval : Z := 10000000.
Definition time_max : Z := i64_max.

Record frame := { time_ : Z; tick_ : Z }.

Section agenda.
Context {N : Type} `{Countable N}.

Definition make (initial : Z) : outcome (wheel N * frame) :=
  if initial <? 0 then Thrown invalid_argument
  else Done (Wheel.make 0, {| time_ := initial; tick_ := 0 |}).

Definition time (w : wheel N) (fr : frame) : Z :=
  time_ fr + (if now w =? tick_ fr then 0 else interval).

Definition next (w : wheel N) (fr : frame) : Z :=
  let current := time w fr in
  if time_max - current <? interval then time_max else current + interval.

Definition set (n : N) (deadline : Z) (w : wheel N) (fr : frame) : wheel N :=
  let boundary := time w fr in
  let remaining := if boundary <? deadline then wrap64 (deadline - boundary) else 0 in
  let delay := remaining / interval + (if remaining mod interval =? 0 then 0 else 1) in
  (schedule n (Z.min delay limit) w).2.

Definition erase (n : N) (w : wheel N) : wheel N := cancel n w.

Section callbacks.
Context {U : Type}.
Definition sync : eff (wheel N * (frame * U)) unit :=
  modify (λ s, (s.1, ({| time_ := time s.1 s.2.1; tick_ := now s.1 |}, s.2.2))).

(** The lambda [advance] hands to [Wheel::tick]. *)
Definition guarded (fire : N → Z → eff (wheel N * (frame * U)) unit) (n : N) : eff (wheel N * (frame * U)) unit :=
  boundary <- gets (λ s : wheel N * (frame * U), time s.1 s.2.1);;
  on_throw (fire n boundary) (modify (λ s, ((schedule n 1 s.1).2, s.2))).

Fixpoint steps (pending : nat) (fire : N → Z → eff (wheel N * (frame * U)) unit) : eff (wheel N * (frame * U)) unit :=
  match pending with
  | O => ret tt
  | S pending =>
      on_throw (tick (guarded fire)) sync;;;
      sync;;;
      steps pending fire
  end.

Definition advance (target : Z) (fire : N → Z → eff (wheel N * (frame * U)) unit) : eff (wheel N * (frame * U)) unit :=
  fr <- gets (λ s : wheel N * (frame * U), s.2.1);;
  if target <? time_ fr then throw invalid_argument
  else steps (Z.to_nat (wrap64 ((target - time_ fr) / interval))) fire.
End callbacks.

(** ** Invariant *)

(** Between calls: the wheel is consistent and not ticking, and the frame
    belongs to the wheel's current tick. *)
Record settled (w : wheel N) (fr : frame) : Prop := {
  settled_wf : wf w;
  settled_busy : busy_ w = false;
  settled_tick : tick_ fr = clock_ w;
  settled_time : 0 <= time_ fr <= time_max
}.

Lemma settled_now w fr : settled w fr → time w fr = time_ fr.
Proof. intros [_ _ Ht _]. unfold time, now. rewrite Ht, Z.eqb_refl. lia. Qed.

(** Distance in ticks at which [set] hangs a node, from the boundary. *)
Definition ticks_until (boundary deadline : Z) : Z :=
  Z.max 1 (Z.min limit ((deadline - boundary + (interval - 1)) / interval)).

Lemma set_delay w fr deadline :
  0 <= time w fr → deadline <= time_max →
  let remaining := if time w fr <? deadline then wrap64 (deadline - time w fr) else 0 in
  Z.max (Z.min (remaining / interval + (if remaining mod interval =? 0 then 0 else 1)) limit) 1
  = ticks_until (time w fr) deadline.
Proof.
  intros H0 Hd. set (b := time w fr) in *. unfold ticks_until, time_max, i64_max, interval in *.
  assert (Hlim : 1 <= limit) by (vm_compute; congruence).
  destruct (Z.ltb_spec b deadline) as [Hlt|Hge]; simpl.
  - rewrite wrap64_small by (unfold is_u64, u64_max; lia).
    set (r := deadline - b) in *.
    pose proof (Z.div_mod r 10000000 ltac:(lia)). pose proof (Z.mod_pos_bound r 10000000 ltac:(lia)).
    assert (r / 10000000 + (if r mod 10000000 =? 0 then 0 else 1) = (r + (10000000 - 1)) / 10000000) as ->;
      [|lia].
    destruct (Z.eqb_spec (r mod 10000000) 0).
    + apply Z.div_unique with (10000000 - 1); lia.
    + apply Z.div_unique with (r mod 10000000 - 1); lia.
  - assert ((deadline - b + (10000000 - 1)) / 10000000 <= 0).
    { apply Z.lt_succ_r, Z.div_lt_upper_bound; lia. }
    change (0 / 10000000 + _) with 0. lia.
Qed.

(** [set] hangs the node [ticks_until] ticks ahead and touches nothing else. *)
Lemma set_spec n deadline w fr :
  wf w → 0 <= time w fr → deadline <= time_max →
  let w' := set n deadline w fr in
  wf w' ∧ clock_ w' = clock_ w ∧ busy_ w' = busy_ w ∧ ready_ w' = without n (ready_ w) ∧
  (∀ m, hangs w' m ↔ m = n ∨ hangs w m) ∧
  left w' n = ticks_until (time w fr) deadline ∧
  (∀ m, m ≠ n → left w' m = left w m).
Proof.
  intros Hwf H0 Hd. unfold set. cbv zeta.
  pose proof (set_delay w fr deadline H0 Hd) as Hdel. cbv zeta in Hdel.
  set (delay := Z.min _ limit) in *.
  destruct (schedule_spec n delay w Hwf ltac:(unfold delay; lia)) as (_ & W & C & B & R & D & Hh).
  set (w' := (schedule n delay w).2) in *. split_and!; [done..| |].
  - unfold left, deadline_of. rewrite D, lookup_insert_eq, C. simpl. rewrite Hdel.
    unfold wrap64. rewrite Zminus_mod_idemp_l, Z.add_simpl_l. apply Z.mod_small.
    assert (limit < u64_size) by (vm_compute; congruence).
    unfold ticks_until, u64_size in *. lia.
  - intros m Hm. unfold left, deadline_of. by rewrite D, C, lookup_insert_ne.
Qed.
End agenda.

(** ** Exactness *)

(** A callback that only records the boundary and the node it is called with. *)
Definition record {A : Type} `{Countable A} (n : A) (boundary : Z)
    : eff (wheel A * (frame * list (Z * A))) unit :=
  modify (λ s, (s.1, (s.2.1, s.2.2 ++ [(boundary, n)]))).

Lemma wrap64_succ_neq z : wrap64 (z + 1) ≠ wrap64 z.
Proof.
  unfold wrap64, u64_size. intros E.
  assert ((z + 1 - z) mod 2 ^ 64 = 0) by (rewrite Zminus_mod, E, Z.sub_diag; done).
  replace (z + 1 - z) with 1 in * by lia. done.
Qed.

Section exact.
Context {N : Type} `{Countable N} (w0 : wheel N) (t0 : Z).

(** Boundary at which a node hanging in [w0] is due. *)
Definition due (n : N) : Z := t0 + left w0 n * interval.

Definition at_step (k : Z) (w : wheel N) (u : frame * list (Z * N)) : Prop :=
  logged due w0 k w u.2 ∧ u.1 = {| time_ := t0 + k * interval; tick_ := wrap64 (clock_ w0 + k) |}.
Definition mid_step (k : Z) (w : wheel N) (u : frame * list (Z * N)) : Prop :=
  logged due w0 (k + 1) w u.2 ∧
  u.1 = {| time_ := t0 + k * interval; tick_ := wrap64 (clock_ w0 + k) |}.

Lemma time_at_step k w u : at_step k w u → time w u.1 = t0 + k * interval.
Proof using.
  intros [HL ->]. unfold time, now. simpl. rewrite (logged_clock _ _ _ _ _ HL), Z.eqb_refl. lia.
Qed.

Lemma time_mid_step k w u : mid_step k w u → time w u.1 = t0 + (k + 1) * interval.
Proof using.
  intros [HL ->]. unfold time, now. simpl. rewrite (logged_clock _ _ _ _ _ HL).
  rewrite Z.add_assoc, (proj2 (Z.eqb_neq _ _)) by apply wrap64_succ_neq. lia.
Qed.

Lemma guarded_record k n rest w (u : frame * list (Z * N)) t :
  logged due w0 k w u.2 → ready_ w = n :: rest → time w u.1 = t → t = t0 + k * interval →
  wp Faulty (guarded record n)
    (λ _ s, logged due w0 k s.1 s.2.2 ∧ s.2.1 = u.1 ∧ (length (ready_ s.1) <= length rest)%nat)
    (λ _ _, False) (set_ready rest w, u).
Proof using.
  intros HL Hr Ht Hk. unfold guarded, record. wp_step. wp_step. cbn [fst snd].
  assert (time (set_ready rest w) u.1 = t) as -> by done.
  wp_step. wp_step. cbn [fst snd]. split_and!; [|done|done].
  apply logged_fire; [done|done|]. destruct (logged_ready _ _ _ _ _ HL n) as [_ Hl]; [rewrite Hr; set_solver|].
  unfold due. by rewrite Hl.
Qed.

Lemma wp_steps_record k count w u :
  wf w0 →
  0 <= k → k + Z.of_nat count <= u64_max →
  busy_ w = false → ready_ w = [] → at_step k w u →
  wp Faulty (steps count record)
    (λ _ s, busy_ s.1 = false ∧ ready_ s.1 = [] ∧ at_step (k + Z.of_nat count) s.1 s.2)
    (λ _ _, False) (w, u).
Proof using.
  intros Hwf0. revert k w u. induction count as [|count IH]; intros k w u Hk Hmax Hb Hr HA; simpl.
  { wp_step. cbn [fst snd]. replace (k + Z.of_nat 0) with k by lia. done. }
  wp_step. wp_step.
  eapply wp_mono; [apply (wp_tick _ _ (at_step k) (mid_step k) (λ _ _, False)); [done|..]|..].
  - destruct HA as [HL Hf]. split; [by apply logged_set_busy|done].
  - intros n rest w1 u1 HA1 Hr1. pose proof (time_at_step _ _ _ HA1) as Ht. destruct HA1 as [HL Hf].
    eapply wp_mono; [by eapply (guarded_record k)|..|done].
    intros _ s (H1 & H2 & H3). split; [|done]. split; [done|congruence].
  - intros w1 u1 [HL Hf] Hr1. split; [apply logged_turn; [done|lia|done|done]|done].
  - intros n rest w1 u1 HA1 Hr1. pose proof (time_mid_step _ _ _ HA1) as Ht. destruct HA1 as [HL Hf].
    eapply wp_mono; [by eapply (guarded_record (k + 1))|..|done].
    intros _ s (H1 & H2 & H3). split; [|done]. split; [done|congruence].
  - intros _ [w1 u1] (w2 & HA2 & Hr2 & Heq). cbn [fst snd] in *. subst w1.
    wp_step. unfold sync. wp_step. cbn [fst snd].
    pose proof (time_mid_step _ _ _ HA2) as Ht. destruct HA2 as [HL Hf].
    replace (k + Z.of_nat (S count)) with (k + 1 + Z.of_nat count) by lia.
    apply IH; [lia|lia|done|done|]. split; [by apply logged_set_busy|].
    assert (time (set_busy false w2) u1.1 = time w2 u1.1) as -> by done. rewrite Ht.
    unfold now. change (clock_ (set_busy false w2)) with (clock_ w2).
    by rewrite (logged_clock _ _ _ _ _ HL).
  - by intros e s (? & [] & _).
Qed.
End exact.

Section claims.
Context {N : Type} `{Countable N}.

(** [advance] with the recording callback, from any settled agenda. *)
Lemma advance_run (w : wheel N) (fr : frame) (target : Z) (f : faults) :
  settled w fr → ready_ w = [] → time_ fr <= target <= time_max →
  ∃ w' fr' log f',
    advance target record (w, (fr, [])) f = (Done tt, (w', (fr', log)), f') ∧
    settled w' fr' ∧ target - interval < time_ fr' <= target ∧
    (interval | time_ fr' - time_ fr) ∧
    NoDup log ∧
    (∀ b n, (b, n) ∈ log ↔ hangs w n ∧ b = time_ fr + left w n * interval ∧ b <= target) ∧
    (∀ n, hangs w' n ↔ hangs w n ∧ target < time_ fr + left w n * interval).
Proof.
  intros [Hwf Hb Htick Ht] Hr Hle. unfold interval, time_max, i64_max in *.
  set (q := (target - time_ fr) / 10000000).
  pose proof (Z.div_mod (target - time_ fr) 10000000 ltac:(lia)) as Hdm.
  pose proof (Z.mod_pos_bound (target - time_ fr) 10000000 ltac:(lia)) as Hmod. fold q in Hdm.
  assert (Hq : 0 <= q <= 2 ^ 63) by lia.
  assert (Hw : wrap64 q = q) by (apply wrap64_small; unfold is_u64, u64_max; lia).
  pose proof (wp_steps_record w (time_ fr) 0 (Z.to_nat q) w (fr, []) Hwf ltac:(lia)
    ltac:(unfold u64_max; lia) Hb Hr) as Hrun.
  specialize (Hrun ltac:(split; [by apply logged_start|destruct fr; simpl in *; f_equal;
    [lia|rewrite Htick; symmetry; rewrite Z.add_0_r; apply wrap64_small; apply (inv_clock _ _ _ Hwf)]]) f I).
  unfold advance, bind, gets, interval. cbn [fst snd]. rewrite (proj2 (Z.ltb_ge _ _)) by lia.
  fold q. rewrite Hw.
  destruct (steps _ _ _ f) as [[[[]|e] [w' [fr' log]]] f']; [|by destruct Hrun].
  destruct Hrun as (_ & Hb' & Hr' & [Hwf' Hck Hd Hh Hl _ Hnd] & Hfr). cbn [fst snd] in *.
  rewrite Z2Nat.id in * by lia. simpl in Hfr. unfold interval in *. subst fr'.
  exists w', {| time_ := time_ fr + q * 10000000; tick_ := wrap64 (clock_ w + q) |}, log, f'.
  split_and!; simpl; try done.
  - split; simpl; [done|done|by rewrite Hck|unfold time_max, i64_max; lia].
  - lia.
  - lia.
  - exists q. lia.
  - intros b n. rewrite Hl, Hr'. unfold due, interval.
    split; [intros (A1 & A2 & A3 & _)|intros (A1 & A2 & A3)]; split_and!; try done; try lia.
    apply not_elem_of_nil.
  - intros n. rewrite Hh. split; intros (A1 & A2); split; try done; lia.
Qed.

(** C32. Leases are timely.  Put a node with a deadline on any settled agenda
    with an empty ready queue and advance to any later target: the call returns
    normally under every allocation script, and the callback runs for this node
    once if its boundary has been reached and not at all before.  The boundary
    is never before the deadline and less than one 10 ms tick after it; a
    deadline already passed fires at the next tick, one beyond the horizon of
    the wheel wakes early at the horizon.  Every other node keeps its boundary,
    and no part of a tick is lost: the anchor ends at the last whole tick not
    after the target. *)
Theorem lease_timely (w : wheel N) (fr : frame) (n : N) (deadline target : Z) (f : faults) :
  settled w fr → ready_ w = [] → time_ fr <= target <= time_max → deadline <= time_max →
  let boundary := time_ fr + ticks_until (time_ fr) deadline * interval in
  let horizon := time_ fr + limit * interval in
  (∃ w' fr' log f',
    advance target record (set n deadline w fr, (fr, [])) f = (Done tt, (w', (fr', log)), f') ∧
    settled w' fr' ∧ target - interval < time_ fr' <= target ∧
    (interval | time_ fr' - time_ fr) ∧ NoDup log ∧
    (∀ b, (b, n) ∈ log ↔ b = boundary ∧ boundary <= target) ∧
    (∀ b m, m ≠ n → (b, m) ∈ log ↔
      hangs w m ∧ b = time_ fr + left w m * interval ∧ b <= target)) ∧
  (time_ fr < deadline <= horizon → deadline <= boundary < deadline + interval) ∧
  (deadline <= time_ fr → boundary = time_ fr + interval) ∧
  (horizon < deadline → boundary = horizon).
Proof.
  intros HS Hr Ht Hd boundary horizon. pose proof HS as [Hwf Hb Htick Htime].
  destruct (set_spec n deadline w fr Hwf) as (W & C & B & R & Hh & L & Lo);
    [rewrite settled_now by done; lia|done|]. cbv zeta in *.
  set (w1 := set n deadline w fr) in *. rewrite settled_now in L by done.
  split.
  - destruct (advance_run w1 fr target f) as (w' & fr' & log & f' & E & HS' & Ht' & Hdv & Hnd & Hl & _).
    { split; [done|by rewrite B|by rewrite C|done]. }
    { by rewrite R, Hr. }
    { done. }
    exists w', fr', log, f'. split_and!; try done; try lia.
    + intros b. rewrite Hl, Hh, L. unfold boundary. split; [by intros (_ & -> & ?)|intros [-> ?]; auto].
    + intros b m Hm. rewrite Hl, Hh, (Lo m Hm). naive_solver.
  - assert (Hlim : 1 <= limit) by (vm_compute; congruence).
    unfold boundary, horizon, ticks_until, interval in *.
    pose proof (Z.div_mod (deadline - time_ fr + (10000000 - 1)) 10000000 ltac:(lia)) as Hq.
    pose proof (Z.mod_pos_bound (deadline - time_ fr + (10000000 - 1)) 10000000 ltac:(lia)) as Hm.
    split_and!; intros; lia.
Qed.

(** A callback that works on the wheel through [set] and [erase] only and
    leaves the agenda's frame alone. *)
Definition calm {U : Type} (fire : N → Z → eff (wheel N * (frame * U)) unit) : Prop :=
  ∀ r n b w fr u, wf w → busy_ w = true →
    wp r (fire n b) (λ _ s, evolves w s.1 ∧ s.2.1 = fr) (λ _ s, evolves w s.1 ∧ s.2.1 = fr)
      (w, (fr, u)).

Section safe.
Context {U : Type} (fire : N → Z → eff (wheel N * (frame * U)) unit) (Hcalm : calm fire).

(** Some node is due at the very next tick. *)
Definition retried (w : wheel N) : Prop := ∃ n, hangs w n ∧ left w n = 1.

Lemma schedule_next w n : wf w →
  let w' := (schedule n 1 w).2 in
  wf w' ∧ clock_ w' = clock_ w ∧ busy_ w' = busy_ w ∧ retried w'.
Proof using.
  intros Hwf. assert (Hlim : 1 <= limit) by (vm_compute; congruence).
  destruct (schedule_spec n 1 w Hwf Hlim) as (_ & W & C & B & _ & D & Hh).
  split_and!; try done. exists n. split; [apply Hh; by left|].
  unfold left, deadline_of. rewrite D, lookup_insert_eq, C. simpl.
  unfold wrap64. by rewrite Zminus_mod_idemp_l, Z.add_simpl_l.
Qed.

Lemma wp_guarded r n w fr u :
  wf w → busy_ w = true →
  wp r (guarded fire n) (λ _ s, evolves w s.1 ∧ s.2.1 = fr)
    (λ _ s, wf s.1 ∧ clock_ s.1 = clock_ w ∧ s.2.1 = fr ∧ retried s.1) (w, (fr, u)).
Proof using Hcalm.
  intros Hwf Hb. unfold guarded. wp_step. wp_step. cbn [fst snd]. wp_step.
  eapply wp_mono; [by apply Hcalm|done|].
  intros e [w1 [fr1 u1]] [(Hwf1 & C1 & _) Hf]. cbn [fst snd] in *. wp_step. cbn [fst snd].
  destruct (schedule_next w1 n Hwf1) as (? & ? & _ & ?). split_and!; try done; congruence.
Qed.

(** One step of [advance] under any outcome of the callback. *)
Lemma wp_step_safe w fr u :
  settled w fr → time_ fr + interval <= time_max →
  wp Faulty (on_throw (tick (guarded fire)) sync;;; sync)
    (λ _ s, settled s.1 s.2.1 ∧ ready_ s.1 = [] ∧ time_ s.2.1 = time_ fr + interval)
    (λ _ s, settled s.1 s.2.1 ∧ retried s.1 ∧
            (time_ s.2.1 = time_ fr ∨ time_ s.2.1 = time_ fr + interval))
    (w, (fr, u)).
Proof using Hcalm.
  intros [Hwf Hb Htick Ht] Hmax.
  set (J c := λ (w' : wheel N) (v : frame * U), wf w' ∧ busy_ w' = true ∧ clock_ w' = c ∧ v.1 = fr).
  set (c1 := wrap64 (clock_ w + 1)).
  set (E := λ (_ : exn) (s : wheel N * (frame * U)), wf s.1 ∧ s.2.1 = fr ∧ retried s.1 ∧
    (clock_ s.1 = clock_ w ∨ clock_ s.1 = c1)).
  assert (Hne : c1 ≠ clock_ w).
  { unfold c1. rewrite <- (wrap64_small (clock_ w)) at 2 by apply (inv_clock _ _ _ Hwf).
    apply wrap64_succ_neq. }
  assert (Hfire : ∀ c, c = clock_ w ∨ c = c1 → ∀ n rest w' v, J c w' v → ready_ w' = n :: rest →
    wp Faulty (guarded fire n) (λ _ s, J c s.1 s.2 ∧ (length (ready_ s.1) <= length rest)%nat)
      E (set_ready rest w', v)).
  { intros c Hc n rest w' [fr' v] (W & B & C & F) R. simpl in F. subst fr'.
    eapply wp_mono; [apply wp_guarded; [by eapply wf_set_ready_tail|done]|..].
    - intros _ [w2 [fr2 v2]] [(H1 & H2 & H3 & H4) H5]. simpl in *. unfold J.
      split_and!; simpl; try congruence. by apply sublist_length.
    - intros e [w2 [fr2 v2]] (H1 & H2 & H3 & H4). unfold E. simpl in *.
      split_and!; try done. rewrite H2, C. done. }
  assert (Htime : ∀ (w' : wheel N) (v : frame * U), v.1 = fr → clock_ w' = clock_ w → time w' v.1 = time_ fr).
  { intros w' v -> C. unfold time, now. rewrite C, Htick, Z.eqb_refl. lia. }
  assert (Htime1 : ∀ (w' : wheel N) (v : frame * U), v.1 = fr → clock_ w' = c1 → time w' v.1 = time_ fr + interval).
  { intros w' v -> C. unfold time, now. rewrite C, Htick, (proj2 (Z.eqb_neq _ _)) by done. done. }
  assert (Hi : 0 <= interval) by (unfold interval; lia).
  wp_step. wp_step.
  eapply wp_mono; [apply (wp_tick _ _ (J (clock_ w)) (J c1) E); [done| |by eauto| |by eauto]|..].
  - unfold J. rewrite wf_set_busy. done.
  - intros w' v (W & B & C & F) R. destruct (turn_spec w' W R) as (H1 & H2 & H3 & _).
    unfold J. rewrite H3, H2, C. done.
  - intros _ [w1 v1] (w2 & (W & B & C & F) & R & Heq). cbn [fst snd] in *. subst w1.
    unfold sync. wp_step. cbn [fst snd].
    pose proof (Htime1 (set_busy false w2) v1 F C) as Hti. rewrite Hti.
    split_and!; [|done|done]. split; simpl; [by rewrite wf_set_busy|done|done|lia].
  - intros e [w1 v1] (w2 & (W & F & R & C) & Heq). cbn [fst snd] in *. subst w1.
    unfold sync. wp_step. cbn [fst snd].
    assert (Hre : retried (set_busy false w2)) by exact R.
    destruct C as [C|C].
    + rewrite (Htime (set_busy false w2) v1 F C). split_and!; [|done|by left].
      split; simpl; [by rewrite wf_set_busy|done|done|lia].
    + rewrite (Htime1 (set_busy false w2) v1 F C). split_and!; [|done|by right].
      split; simpl; [by rewrite wf_set_busy|done|done|lia].
Qed.

Lemma wp_steps_safe count w fr u :
  settled w fr → time_ fr + Z.of_nat count * interval <= time_max →
  wp Faulty (steps count fire)
    (λ _ s, settled s.1 s.2.1 ∧ time_ s.2.1 = time_ fr + Z.of_nat count * interval)
    (λ _ s, settled s.1 s.2.1 ∧ retried s.1 ∧
       ∃ k, 0 <= k <= Z.of_nat count ∧ time_ s.2.1 = time_ fr + k * interval)
    (w, (fr, u)).
Proof using Hcalm.
  assert (Hi : 0 < interval) by (unfold interval; lia).
  revert w fr u. induction count as [|count IH]; intros w fr u HS Hmax; simpl.
  { wp_step. cbn [fst snd]. split; [done|]. lia. }
  apply (wp_assoc _ _ (λ _, sync)). wp_step.
  eapply wp_mono; [apply wp_step_safe; [done|nia]|..].
  - intros _ [w2 [fr2 u2]] (HS2 & _ & Ht2). cbn [fst snd] in *.
    eapply wp_mono; [apply (IH w2 fr2 u2 HS2); nia|..].
    + intros _ s [? ?]. split; [done|]. lia.
    + intros e s (? & ? & k & ? & ?). split_and!; try done. exists (k + 1). lia.
  - intros e s (HS2 & HR & Hk). split_and!; try done.
    destruct Hk as [Hk|Hk]; [exists 0|exists 1]; lia.
Qed.
End safe.

(** A failing callback never loses a lease or a tick.  Whatever the
    callback does through [set] and [erase], and whenever it throws, [advance]
    leaves a settled agenda whose anchor stands at a whole tick: after a normal
    return at the last one before the target; after an exception at a tick
    already reached, with a node due again at the very next tick.  A target
    before the anchor is refused and changes nothing. *)
Theorem advance_safe {U : Type} (fire : N → Z → eff (wheel N * (frame * U)) unit)
    (w : wheel N) (fr : frame) (u : U) (target : Z) :
  calm fire → settled w fr → target <= time_max →
  wp Faulty (advance target fire)
    (λ _ s, settled s.1 s.2.1 ∧ target - interval < time_ s.2.1 <= target ∧
            (interval | time_ s.2.1 - time_ fr))
    (λ e s, if decide (target < time_ fr) then e = invalid_argument ∧ s = (w, (fr, u))
            else settled s.1 s.2.1 ∧ retried s.1 ∧ time_ fr <= time_ s.2.1 <= target ∧
                 (interval | time_ s.2.1 - time_ fr))
    (w, (fr, u)).
Proof.
  intros Hcalm HS Hmax. pose proof (settled_time _ _ HS) as Ht. unfold advance. wp_step. wp_step.
  cbn [fst snd]. destruct (Z.ltb_spec target (time_ fr)) as [Hlt|Hge].
  { wp_step. by rewrite decide_True. }
  set (q := (target - time_ fr) / interval).
  pose proof (Z.div_mod (target - time_ fr) interval ltac:(done)) as Hdm. fold q in Hdm.
  pose proof (Z.mod_pos_bound (target - time_ fr) interval ltac:(done)) as Hmod.
  unfold interval, time_max, i64_max in *.
  rewrite wrap64_small by (unfold is_u64, u64_max; lia).
  eapply wp_mono; [apply (wp_steps_safe fire Hcalm (Z.to_nat q)); [done|]|..].
  - unfold interval, time_max, i64_max. lia.
  - unfold interval. intros _ s [H1 H2]. rewrite Z2Nat.id in H2 by lia. split_and!; try done; try lia.
    exists q. lia.
  - unfold interval. intros e s (H1 & H2 & k & Hk & Hk2). rewrite decide_False by lia.
    split_and!; try done; try lia. exists k. lia.
Qed.
End claims.

(** ** A concrete agenda *)
Module Sample.

Definition start : Z := 1700000000003000000.
Definition anchor : frame := {| time_ := start; tick_ := 0 |}.
Definition one_lease : wheel nat := set 1%nat (start + 25000000) (Wheel.make 0) anchor.

Lemma one_lease_settled : settled one_lease anchor.
Proof.
  assert (H0 : wf (Wheel.make (N := nat) 0)) by (apply make_wf; vm_compute; split; congruence).
  assert (T : 0 <= time (Wheel.make (N := nat) 0) anchor) by (vm_compute; congruence).
  assert (D : start + 25000000 <= time_max) by (vm_compute; congruence).
  destruct (set_spec 1%nat (start + 25000000) (Wheel.make 0) anchor H0 T D) as (W & C & B & _).
  split; [exact W|vm_compute; reflexivity|vm_compute; reflexivity|vm_compute; split; congruence].
Qed.

Example one_lease_log :
  (advance (start + 34000000) record (set 2%nat (start + 11) one_lease anchor, (anchor, [])) []).1.2.2.2
  = [(start + 10000000, 2%nat); (start + 30000000, 1%nat)].
Proof. vm_compute. reflexivity. Qed.

Lemma lease_timely_witness :
  ∃ w' fr' log f',
    advance (start + 34000000) record (set 2%nat (start + 11) one_lease anchor, (anchor, [])) []
      = (Done tt, (w', (fr', log)), f') ∧
    (∀ b, (b, 2%nat) ∈ log ↔ b = start + 10000000 ∧ start + 10000000 <= start + 34000000).
Proof.
  destruct (lease_timely one_lease anchor 2%nat (start + 11) (start + 34000000) []) as [Hrun _].
  - exact one_lease_settled.
  - vm_compute. reflexivity.
  - vm_compute. split; congruence.
  - vm_compute. congruence.
  - destruct Hrun as (w' & fr' & log & f' & E & _ & _ & _ & _ & Hl & _).
    exists w', fr', log, f'. split; [exact E|exact Hl].
Defined.

(** A callback that may fail to allocate before it renews the lease by 50 ms. *)
Definition renew (n : nat) (b : Z) : eff (wheel nat * (frame * unit)) unit :=
  alloc;;; modify (λ s, (set n (b + 50000000) s.1 s.2.1, s.2)).

Lemma renew_calm : calm renew.
Proof.
  intros r n b w fr u Hwf Hb. unfold renew. wp_step. wp_step; [|by split; [apply evolves_refl|]].
  wp_step. cbn [fst snd]. split; [|done]. unfold set. by apply schedule_evolves.
Qed.

Lemma advance_safe_witness :
  wp Faulty (advance (start + 34000000) renew)
    (λ _ s, settled s.1 s.2.1 ∧
            start + 34000000 - interval < time_ s.2.1 <= start + 34000000 ∧
            (interval | time_ s.2.1 - time_ anchor))
    (λ e s, if decide (start + 34000000 < time_ anchor)
            then e = invalid_argument ∧ s = (one_lease, (anchor, tt))
            else settled s.1 s.2.1 ∧ retried s.1 ∧
                 time_ anchor <= time_ s.2.1 <= start + 34000000 ∧
                 (interval | time_ s.2.1 - time_ anchor))
    (one_lease, (anchor, tt)).
Proof.
  apply (advance_safe renew one_lease anchor tt (start + 34000000)).
  - exact renew_calm.
  - exact one_lease_settled.
  - vm_compute. congruence.
Defined.

End Sample.
