(* ===== verification/Timetable.v ===== *)
(** Leases on an agenda.

    Catalog and Ephemeris drive [Agenda::advance] with the same callback: it finds
    the record of the node, hangs the node again when the deadline is still ahead and
    otherwise removes the lease.  Such an agenda is consistent when the nodes in the
    wheel are exactly the leases and none of them hangs later than the first boundary
    after its deadline; this file shows that [advance] keeps it so, through any
    exception of the callback, and that after a whole tick no lease is overdue. *)
From stdpp Require Import base numbers gmap list.
From S2P Require Import Prelude.
From S2P Require Import Wheel.
From S2P Require Import Agenda.

Section timetable.
Context {N : Type} `{Countable N}.
Implicit Types (w : wheel N) (fr : frame) (lease : N → option Z).

(** The node hangs in a slot or waits in the ready queue ([Node::scheduled]). *)
Definition pending w (n : N) : Prop := hangs w n ∨ n ∈ ready_ w.

Record kept (t : Z) w lease : Prop := {
  kp_wf : wf w;
  kp_pending : ∀ n, pending w n ↔ is_Some (lease n);
  kp_left : ∀ n d, hangs w n → lease n = Some d → left w n <= ticks_until t d
}.

Definition overdue_free (t : Z) lease : Prop := ∀ n d, lease n = Some d → t < d.

Lemma kept_ext t w lease lease' : (∀ n, lease' n = lease n) → kept t w lease → kept t w lease'.
Proof.
  intros Heq [K1 K2 K3]. split; [done| |].
  - intros n. by rewrite Heq.
  - intros n d Hn Hd. rewrite Heq in Hd. by apply K3.
Qed.

Lemma ticks_until_pos t d : 1 <= ticks_until t d.
Proof. unfold ticks_until. lia. Qed.

Lemma ticks_until_step t d : 1 < ticks_until t d → t + interval < d ∧ ticks_until t d - 1 <= ticks_until (t + interval) d.
Proof.
  unfold ticks_until, interval. intros Hlt.
  assert (Hd : t + 10000000 < d).
  { assert (1 < (d - t + (10000000 - 1)) / 10000000) as Hq by lia.
    pose proof (Z.mul_div_le (d - t + (10000000 - 1)) 10000000 ltac:(lia)). lia. }
  split; [done|].
  replace (d - t + (10000000 - 1)) with (d - (t + 10000000) + (10000000 - 1) + 1 * 10000000) by lia.
  rewrite Z.div_add by lia. lia.
Qed.

(** *** The operations of a caller *)
Lemma pending_set w fr n d :
  wf w → 0 <= time w fr → d <= time_max → ∀ m, pending (set n d w fr) m ↔ m = n ∨ pending w m.
Proof.
  intros Hwf Ht Hd m. destruct (set_spec n d w fr Hwf Ht Hd) as (_ & _ & _ & R & Hh & _).
  unfold pending. rewrite Hh, R, elem_of_without. destruct (decide (m = n)); naive_solver.
Qed.

Lemma kept_set t w fr lease lease' n d :
  kept t w lease → time w fr = t → 0 <= t → d <= time_max →
  lease' n = Some d → (∀ m, m ≠ n → lease' m = lease m) → kept t (set n d w fr) lease'.
Proof.
  intros [K1 K2 K3] Ht H0 Hd Hn Ho. destruct (set_spec n d w fr K1 ltac:(by rewrite Ht) Hd) as (W & C & B & R & Hh & L & Lo).
  split; [done| |].
  - intros m. rewrite pending_set by (done || by rewrite Ht). destruct (decide (m = n)) as [->|Hm].
    + rewrite Hn. split; [by eexists|by left].
    + rewrite Ho by done. rewrite K2. naive_solver.
  - intros m d' Hm Hd'. destruct (decide (m = n)) as [->|Hne].
    + rewrite Hn in Hd'. injection Hd' as <-. rewrite L, Ht. done.
    + rewrite Lo by done. rewrite Ho in Hd' by done. apply Hh in Hm as [->|Hm]; [done|]. by apply K3.
Qed.

Lemma pending_cancel w n m : pending (cancel n w) m ↔ pending w m ∧ m ≠ n.
Proof.
  unfold pending. rewrite cancel_hangs. change (ready_ (cancel n w)) with (without n (ready_ w)). rewrite elem_of_without. naive_solver.
Qed.

Lemma kept_erase t w lease lease' n :
  kept t w lease → lease' n = None → (∀ m, m ≠ n → lease' m = lease m) → kept t (erase n w) lease'.
Proof.
  intros [K1 K2 K3] Hn Ho. split.
  - apply cancel_inv, K1.
  - intros m. unfold erase. rewrite pending_cancel, K2. destruct (decide (m = n)) as [->|Hm].
    + rewrite Hn. split; [naive_solver|intros []; done].
    + rewrite Ho by done. naive_solver.
  - intros m d Hm Hd. unfold erase in *. apply cancel_hangs in Hm as [Hm Hne]. rewrite Ho in Hd by done. by apply K3.
Qed.
(** *** One turn of the wheel *)
Lemma left_turn w n :
  wf w → ready_ w = [] → hangs (turn w) n → hangs w n ∧ left (turn w) n = left w n - 1 ∧ 1 <= left (turn w) n.
Proof.
  intros Hwf Hr Hn. destruct (turn_spec w Hwf Hr) as (W & C & _ & D & _ & Hh). apply Hh in Hn as Hn'. destruct Hn' as [Hold Hne].
  destruct Hn as (l & s & Hn). destruct (inv_slot _ _ _ W l s n Hn) as [_ Hd _ Hl _].
  pose proof (left_bounds w n) as Hb. pose proof (left_bounds (turn w) n) as Hb'.
  assert (Hlim : limit < u64_max) by (vm_compute; congruence).
  assert (Heq : deadline_of (turn w) n = deadline_of w n) by (unfold deadline_of; by rewrite D).
  assert (Hl' : left (turn w) n = wrap64 (left w n - 1)).
  { unfold left. rewrite Heq, C. unfold wrap64. rewrite Zminus_mod_idemp_r, (Zminus_mod_idemp_l (_ - _)).
    f_equal. lia. }
  assert (left (turn w) n ≠ 0).
  { intros Hz. apply Hne. rewrite <- Heq. unfold left in Hz.
    pose proof (inv_clock _ _ _ W) as Hc. unfold is_u64, wrap64, u64_size, u64_max in *.
    apply Z.mod_divide in Hz as [z Hz]; [|lia]. nia. }
  split; [done|]. destruct (decide (left w n = 0)) as [E|E].
  - rewrite E in Hl'. change (wrap64 (0 - 1)) with u64_max in Hl'. lia.
  - rewrite wrap64_small in Hl' by (unfold is_u64; lia). lia.
Qed.

Lemma kept_turn t w lease :
  kept t w lease → ready_ w = [] →
  kept (t + interval) (turn w) lease ∧ ∀ n d, hangs (turn w) n → lease n = Some d → t + interval < d.
Proof.
  intros [K1 K2 K3] Hr. destruct (turn_spec w K1 Hr) as (W & C & _ & D & R & Hh).
  assert (Hstep : ∀ n d, hangs (turn w) n → lease n = Some d →
    t + interval < d ∧ left (turn w) n <= ticks_until (t + interval) d).
  { intros n d Hn Hd. destruct (left_turn w n K1 Hr Hn) as (Ho & El & Hpos). specialize (K3 n d Ho Hd).
    destruct (ticks_until_step t d); [lia|]. split; [done|lia]. }
  split; [split; [done| |]|]; [|by intros n d Hn Hd; destruct (Hstep n d Hn Hd)..].
  intros n. rewrite <- K2. unfold pending. rewrite Hh, R, Hr. rewrite elem_of_nil.
  destruct (decide (deadline_of w n = clock_ (turn w))); naive_solver.
Qed.

(** ** [advance] *)
Section advancing.
Context {U : Type} (fire : N → Z → eff (wheel N * (frame * U)) unit).
Context (leases : U → N → option Z) (target : Z) (Inv : U → Prop) (R : U → U → Prop) (Ex : exn → Prop).
Context (R_refl : ∀ u, R u u) (R_trans : ∀ u v x, R u v → R v x → R u x).
Context (short : ∀ u n d, Inv u → leases u n = Some d → d <= time_max).

(** What the callback does with a node taken from the wheel. *)
Definition dutiful : Prop := ∀ n b d w fr u,
  wf w → ¬ pending w n → Inv u → leases u n = Some d → time w fr = b → 0 <= b <= target →
  wp Faulty (fire n b)
    (λ _ s, Inv s.2.2 ∧ R u s.2.2 ∧ s.2.1 = fr ∧
       if b <? d then s.1 = set n d w fr ∧ ∀ m, leases s.2.2 m = leases u m
       else (s.1 = w ∨ s.1 = erase n w) ∧ leases s.2.2 n = None ∧ ∀ m, m ≠ n → leases s.2.2 m = leases u m)
    (λ e s, Ex e ∧ Inv s.2.2 ∧ R u s.2.2 ∧ s.2.1 = fr ∧ s.1 = w ∧ ∀ m, leases s.2.2 m = leases u m)
    (w, (fr, u)).

Context (Hfire : dutiful).

(** Between two callbacks at boundary [t]; [late] tells whether leases may be overdue. *)
Record amid (u0 : U) (c : Z) (fr : frame) (t : Z) (late : bool) (w : wheel N) (v : frame * U) : Prop := {
  am_kept : kept t w (leases v.2);
  am_busy : busy_ w = true;
  am_clock : clock_ w = c;
  am_frame : v.1 = fr;
  am_inv : Inv v.2;
  am_rel : R u0 v.2;
  am_timely : late = false → ∀ n d, hangs w n → leases v.2 n = Some d → t < d
}.

(** A failed callback has hung its node for the next tick. *)
Definition failed (u0 : U) (c : Z) (fr : frame) (t : Z) (e : exn) (s : wheel N * (frame * U)) : Prop :=
  Ex e ∧ kept t s.1 (leases s.2.2) ∧ clock_ s.1 = c ∧ s.2.1 = fr ∧ Inv s.2.2 ∧ R u0 s.2.2.

Lemma popped w n rest : wf w → ready_ w = n :: rest → ¬ pending (set_ready rest w) n.
Proof.
  intros Hwf Hr [Hn|Hn].
  - destruct Hn as (l & s & Hn). assert (InReady = InSlot l s) as [=].
    apply (inv_unique _ _ _ Hwf InReady (InSlot l s) n); [simpl; rewrite Hr; set_solver|done].
  - pose proof (inv_nodup _ _ _ Hwf InReady) as Hnd. simpl in *. rewrite Hr in Hnd. by apply NoDup_cons in Hnd as [? _].
Qed.

Lemma pending_pop w n rest m : ready_ w = n :: rest → pending w m ↔ m = n ∨ pending (set_ready rest w) m.
Proof.
  intros Hr. unfold pending. change (hangs (set_ready rest w) m) with (hangs w m). simpl. rewrite Hr. set_solver.
Qed.

Lemma fire_amid u0 c fr t late n rest w v :
  amid u0 c fr t late w v → ready_ w = n :: rest → time w fr = t → 0 <= t <= target → target <= time_max →
  wp Faulty (guarded fire n) (λ _ s, amid u0 c fr t late s.1 s.2 ∧ (length (ready_ s.1) <= length rest)%nat)
    (failed u0 c fr t) (set_ready rest w, v).
Proof.
  intros [[K1 K2 K3] Hb Hc Hf Hi Hrel Ht] Hr Htime Ht0 Hmax. destruct v as [fr' u]. simpl in Hf. subst fr'.
  assert (Hn : is_Some (leases u n)) by (apply K2; right; rewrite Hr; set_solver). destruct Hn as [d Hd].
  pose proof (wf_set_ready_tail _ _ _ K1 Hr) as Hwf. set (w1 := set_ready rest w).
  pose proof (popped w n rest K1 Hr) as Hout. fold w1 in Hout.
  assert (Hpend : ∀ m, m ≠ n → pending w1 m ↔ is_Some (leases u m)).
  { intros m Hm. rewrite <- K2. rewrite (pending_pop w n rest m Hr). fold w1. naive_solver. }
  assert (Hhang : ∀ m, hangs w1 m ↔ hangs w m) by done.
  assert (Htime1 : time w1 fr = t) by done.
  unfold guarded. wp_step. wp_step. cbn [fst snd]. rewrite Htime1. wp_step.
  eapply wp_mono; [by apply (Hfire n t d w1 fr u)| |].
  - intros [] [w2 [fr2 u2]] (Hi2 & Hr2 & Hf2 & Hcase). cbn [fst snd] in *. subst fr2.
    assert (Hrel2 : R u0 u2) by (by eapply R_trans). pose proof (short u n d Hi Hd) as Hshort.
    destruct (Z.ltb_spec t d) as [Hlt|Hge].
    + destruct Hcase as [-> Hl].
      destruct (set_spec n d w1 fr Hwf ltac:(lia) Hshort) as (W & C & B & Rd & Hh & L & Lo). rewrite Htime1 in L.
      split; [split|]; cbn [snd]; [|by rewrite B|by rewrite C|done|done|done| |].
      * split; [done| |].
        -- intros m. rewrite pending_set by (done || lia). rewrite Hl. destruct (decide (m = n)) as [->|Hm].
           ++ rewrite Hd. split; [by eexists|by left].
           ++ rewrite <- Hpend by done. naive_solver.
        -- intros m d' Hm Hd'. rewrite Hl in Hd'. destruct (decide (m = n)) as [->|Hne]; [simplify_eq; by rewrite L|].
           rewrite Lo by done. apply Hh in Hm as [->|Hm]; [done|]. by apply K3.
      * intros Hlate m d' Hm Hd'. rewrite Hl in Hd'. destruct (decide (m = n)) as [->|Hne]; [by simplify_eq|].
        apply Hh in Hm as [->|Hm]; [done|]. by eapply Ht.
      * rewrite Rd. apply sublist_length, without_sublist.
    + destruct Hcase as (Hw & Hn2 & Ho).
      assert (Hw2 : wf w2 ∧ clock_ w2 = c ∧ busy_ w2 = true ∧ (length (ready_ w2) <= length rest)%nat ∧
        (∀ m, pending w2 m ↔ pending w1 m) ∧ (∀ m, hangs w2 m → hangs w1 m) ∧ ∀ m, left w2 m = left w1 m).
      { destruct Hw as [->| ->]; [done|]. unfold erase. split_and!; try done.
        - by apply cancel_inv.
        - apply (sublist_length (without n rest)), without_sublist.
        - intros m. rewrite pending_cancel. naive_solver.
        - intros m. rewrite cancel_hangs. naive_solver. }
      destruct Hw2 as (W1 & W2 & W3 & W4 & W5 & W6 & W7).
      split; [split|done]; cbn [snd]; try done.
      * split; [done| |].
        -- intros m. rewrite W5. destruct (decide (m = n)) as [->|Hm]; [rewrite Hn2; split; [done|by intros []]|].
           rewrite Ho by done. by apply Hpend.
        -- intros m d' Hm Hd'. destruct (decide (m = n)) as [->|Hne]; [congruence|]. rewrite Ho in Hd' by done.
           rewrite W7. apply K3; [by apply W6|done].
      * intros Hlate m d' Hm Hd'. destruct (decide (m = n)) as [->|Hne]; [congruence|]. rewrite Ho in Hd' by done.
        eapply Ht; [done|by apply W6|done].
  - intros e [w2 [fr2 u2]] (He & Hi2 & Hr2 & Hf2 & Hw2 & Hl). cbn [fst snd] in *. subst fr2 w2. wp_step. cbn [fst snd].
    assert (Hlim : 1 <= limit) by (vm_compute; congruence).
    destruct (schedule_spec n 1 w1 Hwf Hlim) as (_ & W & C & _ & Rd & D & Hh).
    split_and!; try done; try congruence; [|by eapply R_trans]. cbn [fst snd]. split; [done| |].
    + intros m. unfold pending. rewrite Hh, Rd, elem_of_without, Hl. destruct (decide (m = n)) as [->|Hm].
      * rewrite Hd. split; [by eexists|by left; left].
      * rewrite <- Hpend by done. unfold pending. naive_solver.
    + intros m d' Hm Hd'. rewrite Hl in Hd'. destruct (decide (m = n)) as [->|Hne].
      * unfold left, deadline_of. rewrite D, lookup_insert_eq, C. simpl. unfold wrap64.
        rewrite Zminus_mod_idemp_l, Z.add_simpl_l. apply ticks_until_pos.
      * unfold left, deadline_of. rewrite D, lookup_insert_ne, C by done. apply Hh in Hm as [->|Hm]; [done|]. by apply K3.
Qed.

(** Where an agenda stands between calls. *)
Record standing (u0 : U) (s : wheel N * (frame * U)) : Prop := {
  sd_settled : settled s.1 s.2.1;
  sd_kept : kept (time_ s.2.1) s.1 (leases s.2.2);
  sd_inv : Inv s.2.2;
  sd_rel : R u0 s.2.2
}.

Lemma kept_busy t b w lease : kept t (set_busy b w) lease ↔ kept t w lease.
Proof. split; intros [K1 K2 K3]; (split; [by apply (wf_set_busy b)|done|done]). Qed.

Lemma sync_standing u0 c fr t w (v : frame * U) :
  kept t w (leases v.2) → clock_ w = c → v.1 = fr → Inv v.2 → R u0 v.2 → 0 <= t <= time_max →
  time (set_busy false w) fr = t →
  standing u0 (set_busy false w, ({| time_ := t; tick_ := c |}, v.2)).
Proof.
  intros Hk Hc Hf Hi Hr Ht Htime. split; cbn [fst snd]; try done.
  - split; cbn; [apply wf_set_busy, Hk|done|done|done].
  - by apply kept_busy.
Qed.

Lemma step_standing u0 w fr u :
  standing u0 (w, (fr, u)) → time_ fr + interval <= target <= time_max →
  wp Faulty (on_throw (tick (guarded fire)) sync;;; sync)
    (λ _ s, standing u0 s ∧ ready_ s.1 = [] ∧ time_ s.2.1 = time_ fr + interval ∧
       overdue_free (time_ s.2.1) (leases s.2.2))
    (λ e s, Ex e ∧ standing u0 s ∧ time_ fr <= time_ s.2.1 <= time_ fr + interval) (w, (fr, u)).
Proof.
  intros [[Hwf Hb Htick Ht] Hk Hi Hr] Hmax. cbn [fst snd] in *.
  set (c1 := wrap64 (clock_ w + 1)). set (t := time_ fr) in *.
  assert (Hi0 : 0 <= interval) by (unfold interval; lia).
  assert (Hne : c1 ≠ clock_ w).
  { unfold c1. rewrite <- (wrap64_small (clock_ w)) at 2 by apply (inv_clock _ _ _ Hwf). apply wrap64_succ_neq. }
  assert (Htime : ∀ (w' : wheel N), clock_ w' = clock_ w → time w' fr = t).
  { intros w' C. unfold time, now. rewrite C, Htick, Z.eqb_refl. unfold t. lia. }
  assert (Htime1 : ∀ (w' : wheel N), clock_ w' = c1 → time w' fr = t + interval).
  { intros w' C. unfold time, now. by rewrite C, Htick, (proj2 (Z.eqb_neq _ _)) by done. }
  set (E := λ e s, failed u0 (clock_ w) fr t e s ∨ failed u0 c1 fr (t + interval) e s).
  wp_step. wp_step.
  eapply wp_mono; [apply (wp_tick _ _ (amid u0 (clock_ w) fr t true) (amid u0 c1 fr (t + interval) false) E); [done| | | |]|..].
  - split; try done. by apply kept_busy.
  - intros n rest w1 v1 HA Hr1. eapply wp_mono; [apply (fire_amid _ _ _ _ _ _ _ _ _ HA Hr1); try lia|done|by left].
    apply Htime, HA.
  - intros w1 v1 [A1 A2 A3 A4 A5 A6 A7] Hr1. destruct (kept_turn _ _ _ A1 Hr1) as [Hk1 Hd1].
    destruct (turn_spec w1 (kp_wf _ _ _ A1) Hr1) as (_ & H2 & H3 & _). split; try done; [congruence|].
    unfold c1. by rewrite H2, A3.
  - intros n rest w1 v1 HA Hr1. eapply wp_mono; [apply (fire_amid _ _ _ _ _ _ _ _ _ HA Hr1); try lia|done|by right].
    apply Htime1, HA.
  - intros [] [w1 v1] (w2 & [A1 A2 A3 A4 A5 A6 A7] & Hr2 & Heq). cbn [fst snd] in *. subst w1.
    unfold sync. wp_step. cbn [fst snd]. rewrite A4. pose proof (Htime1 (set_busy false w2) A3) as Hti. rewrite Hti.
    unfold now. change (clock_ (set_busy false w2)) with (clock_ w2). rewrite A3.
    assert (Hsd : standing u0 (set_busy false w2, ({| time_ := t + interval; tick_ := c1 |}, v1.2))).
    { apply (sync_standing u0 c1 fr); try done; lia. }
    split_and!; try done. intros n d Hn. apply (A7 eq_refl n d); [|done].
    destruct (proj2 (kp_pending _ _ _ A1 n)) as [?|Hin]; [by eexists|done|]. rewrite Hr2 in Hin. by apply elem_of_nil in Hin.
  - intros e [w1 v1] (w2 & [HE|HE] & Heq); destruct HE as (He & F1 & F2 & F3 & F4 & F5); cbn [fst snd] in *; subst w1;
      unfold sync; wp_step; cbn [fst snd]; rewrite F3;
      [rewrite (Htime (set_busy false w2) F2)|rewrite (Htime1 (set_busy false w2) F2)];
      unfold now; change (clock_ (set_busy false w2)) with (clock_ w2); rewrite F2;
      (split_and!; [done| |cbn; lia|cbn; lia]).
    + apply (sync_standing u0 (clock_ w) fr); try done; by apply Htime.
    + apply (sync_standing u0 c1 fr); try done; [lia|by apply Htime1].
Qed.

Lemma steps_standing count u0 w fr u :
  standing u0 (w, (fr, u)) → time_ fr + Z.of_nat count * interval <= target <= time_max →
  wp Faulty (steps count fire)
    (λ _ s, standing u0 s ∧ time_ s.2.1 = time_ fr + Z.of_nat count * interval ∧
       ((0 < count)%nat ∨ overdue_free (time_ fr) (leases u) → overdue_free (time_ s.2.1) (leases s.2.2)) ∧
       (ready_ w = [] ∨ (0 < count)%nat → ready_ s.1 = []))
    (λ e s, Ex e ∧ standing u0 s ∧ time_ fr <= time_ s.2.1 <= target) (w, (fr, u)).
Proof.
  assert (Hi : 0 < interval) by (unfold interval; lia).
  revert w fr u. induction count as [|count IH]; intros w fr u HS Hmax; simpl.
  { wp_step. cbn [fst snd]. split_and!; [done|lia| |].
    - intros [?|?]; [lia|done].
    - intros [?|?]; [done|lia]. }
  apply (wp_assoc _ _ (λ _, sync)). wp_step.
  eapply wp_mono; [apply (step_standing u0); [done|nia]|..].
  - intros _ [w2 [fr2 u2]] (HS2 & Hr2 & Ht2 & Hfree). cbn [fst snd] in *.
    eapply wp_mono; [apply (IH w2 fr2 u2 HS2); nia|..].
    + intros _ s (H1 & H2 & H3 & H4). split_and!; [done|lia|by intros _; apply H3; right|by intros _; apply H4; left].
    + intros e s (? & ? & ?). split_and!; try done; lia.
  - intros e s (He & HS2 & Hk). split_and!; try done; nia.
Qed.

(** [advance] keeps the table, through every exception of the callback; after a
    normal return the anchor is the last whole tick, and no lease is overdue there
    if a tick passed or none was overdue before. *)
Lemma advance_standing w fr u :
  settled w fr → kept (time_ fr) w (leases u) → Inv u → time_ fr <= target <= time_max →
  wp Faulty (advance target fire)
    (λ _ s, standing u s ∧ target - interval < time_ s.2.1 <= target ∧ time_ fr <= time_ s.2.1 ∧
       (time_ fr + interval <= target ∨ overdue_free (time_ fr) (leases u) → overdue_free (time_ s.2.1) (leases s.2.2)) ∧
       (ready_ w = [] → ready_ s.1 = []))
    (λ e s, Ex e ∧ standing u s ∧ time_ fr <= time_ s.2.1 <= target) (w, (fr, u)).
Proof.
  intros HS Hk Hi Ht. pose proof (settled_time _ _ HS) as H0. unfold advance, time_max, i64_max, interval in *. wp_step. wp_step. cbn [fst snd].
  rewrite (proj2 (Z.ltb_ge _ _)) by lia. set (q := (target - time_ fr) / 10000000).
  pose proof (Z.div_mod (target - time_ fr) 10000000 ltac:(lia)) as Hdm.
  pose proof (Z.mod_pos_bound (target - time_ fr) 10000000 ltac:(lia)) as Hmod. fold q in Hdm.
  assert (Hq : 0 <= q <= 2 ^ 63) by lia.
  rewrite (wrap64_small q) by (unfold is_u64, u64_max; lia).
  eapply wp_mono; [apply (steps_standing (Z.to_nat q) u)| |done].
  - by split.
  - unfold interval, time_max, i64_max. lia.
  - intros [] s (H1 & H2 & H3 & H4). unfold interval in *. rewrite Z2Nat.id in H2 by lia. split_and!; try done; try lia.
    + intros [Hx|Hx]; apply H3; [left; lia|by right].
    + intros Hx. apply H4. by left.
Qed.
End advancing.
End timetable.
