(* ===== verification/Catalog.v ===== *)
(** Versioned discovery records: [astra/star/src/catalog.hpp] and
    [astra/star/src/catalog.cpp].

    Every source Star publishes facts (version, payload, absolute deadline)
    for a key; each Star merges the facts it hears into one visible candidate.
    The functions are pure: they prepare candidates and never modify their
    arguments.  A nullable [const Record*] is an [option]. *)
From stdpp Require Import base numbers sorting sets list.
From S2P Require Import Prelude Clock.

Inductive Error := input | clock | ended | version_error | conflict | exhausted.

(** [Catalog::Record]: a source fact, or a bare version watermark when [value]
    and [deadline] are both empty. *)
Record record := {
  version : Z;
  value : Value;
  deadline : option Z
}.

Record Change := { changed : record; visible : bool }.

#[global] Instance record_eq_dec : EqDecision record.
Proof. solve_decision. Defined.

Definition body_limit : Z := 1024 * 1024.

(** [valid(const Record&)]. *)
Definition valid (r : record) : bool :=
  negb (version r =? 0)
  && Bool.eqb (bool_decide (is_Some (value r))) (bool_decide (is_Some (deadline r)))
  && match value r with
     | None => true
     | Some b => (buffer_size b <=? body_limit) && (0 <=? default 0 (deadline r))
     end.

(** The overload on two nullable records. *)
Definition valid_both (source merged : option record) : bool :=
  match source with Some r => valid r | None => true end
  && match merged with Some r => valid r | None => true end.

Definition error (e : Clock.Error) : Error :=
  match e with
  | clock_unready => clock
  | invalid_time => input
  | Clock.exhausted => exhausted
  end.

(** [ready]: [None] is success. *)
Definition ready (rd : Reading) : option Error :=
  if time rd <? 0 then Some input
  else if negb (Clock.ready rd) then Some clock
  else None.

(** Pointer and content comparison of two non-null payloads, as [v != w && *v != *w]. *)
Definition differ (v w : Value) : bool := negb (bool_decide (v = w)).

(** [check]: [None] is success. *)
Definition check (current : option record) (ver : Z) (v : Value) : option Error :=
  match current with
  | None => None
  | Some c =>
      if ver <? version c then Some version_error
      else if (ver =? version c) && bool_decide (is_Some (value c)) && differ v (value c)
      then Some conflict
      else None
  end.

Definition nanoseconds (ttl : Z) : Z := ttl * 1000000.

Definition max_deadline (a : option Z) (d : Z) : option Z := Some (Z.max (default 0 a) d).

Definition publish (source merged : option record) (v : Value) (ver ttl : Z) (rd : Reading)
    : expected record Error :=
  if negb (valid_both source merged)
     || match v with None => true | Some b => body_limit <? buffer_size b end
     || (ver =? 0) || (ttl <? 1000) || (600000 <? ttl)
  then Unexpected input
  else
    match check source ver v with
    | Some e => Unexpected e
    | None =>
        match check merged ver v with
        | Some e => Unexpected e
        | None =>
            match deadline_after rd (nanoseconds ttl) with
            | Unexpected e => Unexpected (error e)
            | Expected d =>
                let fresh := {| version := ver; value := v; deadline := Some d |} in
                let from_merged :=
                  match merged with
                  | Some m =>
                      if (version m =? ver) && bool_decide (is_Some (value m))
                      then {| version := ver; value := value m; deadline := Some d |}
                      else fresh
                  | None => fresh
                  end in
                Expected
                  match source with
                  | Some s =>
                      if (version s =? ver) && bool_decide (is_Some (value s))
                      then {| version := ver; value := value s; deadline := max_deadline (deadline s) d |}
                      else from_merged
                  | None => from_merged
                  end
            end
        end
    end.

Definition renew (source merged : option record) (ver ttl : Z) (rd : Reading)
    : expected record Error :=
  if negb (valid_both source merged) || (ver =? 0) || (ttl <? 1000) || (600000 <? ttl)
  then Unexpected input
  else
    match ready rd with
    | Some e => Unexpected e
    | None =>
        if match merged with Some m => ver <? version m | None => false end
           || match source with Some s => negb (version s =? ver) | None => false end
        then Unexpected version_error
        else
          match source with
          | None => Unexpected ended
          | Some s =>
              if negb (bool_decide (is_Some (value s))) || (default 0 (deadline s) <=? time rd)
              then Unexpected ended
              else
                match deadline_after rd (nanoseconds ttl) with
                | Unexpected e => Unexpected (error e)
                | Expected d =>
                    Expected {| version := version s; value := value s;
                                deadline := max_deadline (deadline s) d |}
                end
          end
    end.

Definition expire (current : record) (now : Z) : record :=
  match deadline current with
  | Some d => if d <=? now then {| version := version current; value := None; deadline := None |}
              else current
  | None => current
  end.

Definition visible_change (current : option record) (candidate : record) : bool :=
  match current with
  | None => bool_decide (is_Some (value candidate))
  | Some c =>
      match value c with
      | None => bool_decide (is_Some (value candidate))
      | Some _ =>
          if negb (bool_decide (is_Some (value candidate))) || negb (version c =? version candidate)
          then true
          else differ (value c) (value candidate)
      end
  end.

Definition merge (current : option record) (incoming : record) (now : Z)
    : expected Change Error :=
  if negb (valid_both current (Some incoming)) || (now <? 0) then Unexpected input
  else if match current with
          | Some c => (version c =? version incoming) && bool_decide (is_Some (value c))
                      && bool_decide (is_Some (value incoming)) && differ (value c) (value incoming)
          | None => false
          end
  then Unexpected conflict
  else
    let fact := expire incoming now in
    let result :=
      match current with
      | None => fact
      | Some c =>
          let r := expire c now in
          if version c <? version incoming then fact
          else if (version incoming =? version c) && bool_decide (is_Some (value fact)) then
            if negb (bool_decide (is_Some (value r))) then fact
            else {| version := version r; value := value r;
                    deadline := max_deadline (deadline r) (default 0 (deadline fact)) |}
          else r
      end in
    Expected {| changed := result; visible := visible_change current result |}.

(** ** What a set of facts resolves to *)

(** A fact that still carries its payload at time [t]. *)
Definition live (t : Z) (f : record) : Prop :=
  ∃ b d, value f = Some b ∧ deadline f = Some d ∧ t < d.

(** Facts of one version never disagree on the payload. *)
Definition coherent (facts : list record) : Prop :=
  ∀ f g, f ∈ facts → g ∈ facts → version f = version g →
    is_Some (value f) → is_Some (value g) → value f = value g.

(** The highest version wins, alive or not; it is visible with the latest
    deadline any fact of that version gives it, and a watermark otherwise. *)
Record resolves (facts : list record) (t : Z) (r : record) : Prop := {
  resolves_from : ∃ f, f ∈ facts ∧ version f = version r;
  resolves_max : ∀ f, f ∈ facts → version f <= version r;
  resolves_pair : is_Some (value r) ↔ is_Some (deadline r);
  resolves_some : ∀ d, deadline r = Some d →
    t < d ∧ (∃ f, f ∈ facts ∧ version f = version r ∧ value f = value r ∧ deadline f = Some d) ∧
    (∀ f d', f ∈ facts → version f = version r → live t f → deadline f = Some d' → d' <= d);
  resolves_none : deadline r = None → ∀ f, f ∈ facts → version f = version r → ¬ live t f
}.

(** Merging a schedule of (fact, time of arrival). *)
Fixpoint merge_all (current : option record) (s : list (record * Z))
    : expected (option record) Error :=
  match s with
  | [] => Expected current
  | (f, now) :: s' =>
      match merge current f now with
      | Expected ch => merge_all (Some (changed ch)) s'
      | Unexpected e => Unexpected e
      end
  end.

(** ** Shapes *)

(** A valid record either carries payload and deadline or neither. *)
Lemma valid_shape r : valid r = true →
  version r ≠ 0 ∧
  ((value r = None ∧ deadline r = None) ∨
   (∃ b d, value r = Some b ∧ deadline r = Some d ∧ buffer_size b <= body_limit ∧ 0 <= d)).
Proof.
  unfold valid. rewrite !andb_true_iff, negb_true_iff, Z.eqb_neq.
  intros [[Hv Hp] Hb]. split; [done|].
  destruct (value r) as [b|], (deadline r) as [d|]; try done; [right|by left].
  exists b, d. apply andb_true_iff in Hb as [H1 H2]. simpl in H2. split_and!; [done|done|lia|lia].
Qed.

Lemma expire_version r now : version (expire r now) = version r.
Proof. unfold expire. destruct (deadline r); [|done]. by destruct (_ <=? _). Qed.

Lemma expire_live r now : valid r = true →
  (live now r ∧ expire r now = r) ∨
  (¬ live now r ∧ expire r now = {| version := version r; value := None; deadline := None |}).
Proof.
  intros Hv. destruct (valid_shape r Hv) as [_ [[H1 H2]|(b & d & H1 & H2 & _)]]; unfold expire; rewrite H2.
  - right. split; [intros (? & ? & ? & ? & _); congruence|]. destruct r; simpl in *; by subst.
  - destruct (Z.leb_spec d now).
    + right. split; [|done]. intros (? & ? & _ & ? & ?). simplify_eq. lia.
    + left. split; [|done]. exists b, d. split_and!; [done|done|lia].
Qed.

Lemma differ_false v w : differ v w = false ↔ v = w.
Proof. unfold differ. rewrite negb_false_iff. apply bool_decide_eq_true. Qed.

Lemma live_later t t' f : t <= t' → live t' f → live t f.
Proof. intros Ht (b & d & H1 & H2 & H3). exists b, d. split_and!; [done|done|lia]. Qed.

(** ** Convergence *)
Section convergence.
Implicit Types facts : list record.

Lemma resolves_one f now : valid f = true → resolves [f] now (expire f now).
Proof.
  intros Hv. destruct (expire_live f now Hv) as [[Hl E]|[Hl E]]; rewrite E.
  - destruct Hl as (b & d & H1 & H2 & H3). split; rewrite ?H1, ?H2.
    + exists f. set_solver.
    + intros g ->%list_elem_of_singleton. done.
    + done.
    + intros d' [= <-]. split; [done|]. split; [exists f; set_solver|].
      intros g d' ->%list_elem_of_singleton _ _ Hd. rewrite H2 in Hd. by simplify_eq.
    + done.
  - split; simpl.
    + exists f. set_solver.
    + intros g ->%list_elem_of_singleton. done.
    + split; by intros [].
    + done.
    + intros _ g ->%list_elem_of_singleton _. done.
Qed.

Lemma resolves_shape facts t r : resolves facts t r →
  (value r = None ∧ deadline r = None) ∨ (∃ b d, value r = Some b ∧ deadline r = Some d ∧ t < d).
Proof.
  intros [_ _ Hp Hs _]. destruct (value r) as [b|] eqn:Ev, (deadline r) as [d|] eqn:Ed.
  - right. exists b, d. split_and!; [done|done|]. by apply Hs.
  - destruct (proj1 Hp); by eauto.
  - destruct (proj2 Hp); by eauto.
  - by left.
Qed.

Lemma resolves_later facts t t' r : t <= t' → resolves facts t r → resolves facts t' (expire r t').
Proof.
  intros Ht Hr. pose proof (resolves_shape _ _ _ Hr) as Hshape. destruct Hr as [Hf Hm Hp Hs Hn].
  unfold expire. destruct Hshape as [[Ev Ed]|(b & d & Ev & Ed & Hd)]; rewrite Ed.
  - split; try done; rewrite Ed; [done|]. intros _ f H1 H2 H3.
    exact (Hn Ed f H1 H2 (live_later _ _ _ Ht H3)).
  - destruct (Hs d Ed) as (_ & Hw & Hmax). destruct (Z.leb_spec d t').
    + split; simpl; [done|done|split; by intros []|done|].
      intros _ f H1 H2 (b' & d' & V & D & L).
      assert (Hl : live t f) by (exists b', d'; split_and!; [done|done|lia]).
      pose proof (Hmax f d' H1 H2 Hl D). lia.
    + split; try done; rewrite Ed; [|done]. intros d0 [= <-]. split; [lia|]. split; [done|].
      intros f d' H1 H2 H3. apply Hmax; [done|done|by eapply live_later].
Qed.

(** One more fact, with both sides already expired to [t]. *)
Lemma resolves_lower facts t r f :
  resolves facts t r → version f < version r → resolves (facts ++ [f]) t r.
Proof.
  intros [(f0 & H1 & H2) Hm Hp Hs Hn] Hlt.
  assert (Hin : ∀ g, g ∈ facts ++ [f] → g ∈ facts ∨ g = f) by set_solver.
  split; [exists f0; set_solver| |done| |].
  - intros g [Hg| ->]%Hin; [by apply Hm|lia].
  - intros d Hd. destruct (Hs d Hd) as (A & (g & G) & B). split; [done|]. split.
    + exists g. set_solver.
    + intros g' d' [Hg| ->]%Hin Hv; [by apply B|lia].
  - intros Hd g [Hg| ->]%Hin Hv; [by apply Hn|lia].
Qed.

Lemma resolves_higher facts t r f :
  resolves facts t r → valid f = true → version r < version f →
  resolves (facts ++ [f]) t (expire f t).
Proof.
  intros [_ Hm _ _ _] Hv Hlt. destruct (resolves_one f t Hv) as [(f0 & H1 & H2) Hm1 Hp1 Hs1 Hn1].
  rewrite expire_version in *.
  assert (Hin : ∀ g, g ∈ facts ++ [f] → g ∈ facts ∨ g ∈ [f]) by set_solver.
  split; rewrite ?expire_version; [exists f0; set_solver| |done| |].
  - intros g [Hg|Hg]%Hin; [pose proof (Hm g Hg); lia|by apply Hm1].
  - intros d Hd. destruct (Hs1 d Hd) as (A & (g & G) & B). split; [done|]. split.
    + exists g. set_solver.
    + intros g' d' [Hg|Hg]%Hin Hv'; [pose proof (Hm g' Hg); lia|by apply B].
  - intros Hd g [Hg|Hg]%Hin Hv'; [pose proof (Hm g Hg); lia|by apply Hn1].
Qed.

Lemma resolves_dead facts t r f :
  resolves facts t r → version f = version r → ¬ live t f → resolves (facts ++ [f]) t r.
Proof.
  intros [(f0 & H1 & H2) Hm Hp Hs Hn] He Hdead.
  assert (Hin : ∀ g, g ∈ facts ++ [f] → g ∈ facts ∨ g = f) by set_solver.
  split; [exists f0; set_solver| |done| |].
  - intros g [Hg| ->]%Hin; [by apply Hm|lia].
  - intros d Hd. destruct (Hs d Hd) as (A & (g & G) & B). split; [done|]. split.
    + exists g. set_solver.
    + intros g' d' [Hg| ->]%Hin Hv Hl; [by apply B|done].
  - intros Hd g [Hg| ->]%Hin Hv; [by apply Hn|done].
Qed.

Lemma resolves_revive facts t r f b d :
  resolves facts t r → version f = version r → value r = None → deadline r = None →
  value f = Some b → deadline f = Some d → t < d → resolves (facts ++ [f]) t f.
Proof.
  intros [(f0 & H1 & H2) Hm Hp Hs Hn] He Vr Dr Vf Df Hl.
  assert (Hin : ∀ g, g ∈ facts ++ [f] → g ∈ facts ∨ g = f) by set_solver.
  split; rewrite ?Vf, ?Df; [exists f; set_solver| |done| |done].
  - intros g [Hg| ->]%Hin; [rewrite He; by apply Hm|done].
  - intros d0 [= <-]. split; [done|]. split; [exists f; set_solver|].
    intros g d' [Hg| ->]%Hin Hv Hlive Hd; [|rewrite Df in Hd; simplify_eq; lia].
    exfalso. rewrite He in Hv. by eapply Hn.
Qed.

Lemma resolves_extend facts t r f b d d' :
  resolves facts t r → version f = version r → value r = Some b → deadline r = Some d →
  value f = Some b → deadline f = Some d' → t < d' →
  resolves (facts ++ [f]) t {| version := version r; value := value r; deadline := Some (Z.max d d') |}.
Proof.
  intros [(f0 & H1 & H2) Hm Hp Hs Hn] He Vr Dr Vf Df Hl.
  assert (Hin : ∀ g, g ∈ facts ++ [f] → g ∈ facts ∨ g = f) by set_solver.
  destruct (Hs d Dr) as (A & (g0 & G1 & G2 & G3 & G4) & B).
  split; simpl; rewrite ?Vr; [exists f0; set_solver| |done| |done].
  - intros g [Hg| ->]%Hin; [by apply Hm|lia].
  - intros d0 [= <-]. split; [lia|]. split.
    + destruct (Z.max_spec d d') as [[_ ->]|[_ ->]]; [exists f|exists g0].
      * set_solver.
      * rewrite <- Vr. set_solver.
    + intros g d0 [Hg| ->]%Hin Hv Hlive Hd.
      * pose proof (B g d0 Hg Hv Hlive Hd). lia.
      * rewrite Df in Hd. simplify_eq. lia.
Qed.

Lemma resolves_unique facts facts' t r r' :
  coherent facts → (∀ f, f ∈ facts ↔ f ∈ facts') →
  resolves facts t r → resolves facts' t r' → r = r'.
Proof.
  intros Hc Hset Hr Hr'.
  pose proof (resolves_shape _ _ _ Hr) as Hsh. pose proof (resolves_shape _ _ _ Hr') as Hsh'.
  destruct Hr as [(f & F1 & F2) Hm _ Hs Hn], Hr' as [(f' & F1' & F2') Hm' _ Hs' Hn'].
  assert (Hver : version r = version r').
  { pose proof (Hm f' (proj2 (Hset f') F1')). pose proof (Hm' f (proj1 (Hset f) F1)). lia. }
  destruct Hsh as [[V D]|(b & d & V & D & L)], Hsh' as [[V' D']|(b' & d' & V' & D' & L')].
  - destruct r, r'; simpl in *; congruence.
  - destruct (Hs' d' D') as (_ & (g & G1 & G2 & G3 & G4) & _). exfalso.
    apply (Hn D g); [by apply Hset|congruence|]. exists b', d'. split_and!; [congruence|done|done].
  - destruct (Hs d D) as (_ & (g & G1 & G2 & G3 & G4) & _). exfalso.
    apply (Hn' D' g); [by apply Hset|congruence|]. exists b, d. split_and!; [congruence|done|done].
  - destruct (Hs d D) as (_ & (g & G1 & G2 & G3 & G4) & B).
    destruct (Hs' d' D') as (_ & (g' & G1' & G2' & G3' & G4') & B').
    assert (Hg : g ∈ facts') by (by apply Hset). assert (Hg' : g' ∈ facts) by (by apply Hset).
    assert (d' <= d).
    { apply (B g' d'); [done|congruence| |done]. exists b', d'. split_and!; [congruence|done|done]. }
    assert (d <= d').
    { apply (B' g d); [done|congruence| |done]. exists b, d. split_and!; [congruence|done|done]. }
    assert (value g = value g').
    { apply Hc; [done|done|congruence|by rewrite G3, V|by rewrite G3', V']. }
    destruct r, r'; simpl in *. f_equal; [done|congruence|]. rewrite D, D'. f_equal. lia.
Qed.

(** One merge, at or after the time [t] the current record was resolved for. *)
Lemma merge_resolves facts t c f now :
  coherent (facts ++ [f]) → t <= now → 0 <= now → valid c = true → valid f = true →
  resolves facts t c →
  ∃ ch, merge (Some c) f now = Expected ch ∧
    resolves (facts ++ [f]) now (changed ch) ∧ valid (changed ch) = true.
Proof.
  intros Hc Ht H0 Vc Vf Hr.
  assert (Hcontent : ∀ b b', version c = version f → value c = Some b → value f = Some b' → b = b').
  { intros b b' He Hb Hb'. destruct (resolves_shape _ _ _ Hr) as [[E _]|(b0 & d0 & E & D & _)]; [congruence|].
    destruct (resolves_some _ _ _ Hr d0 D) as (_ & (g & G1 & G2 & G3 & _) & _).
    assert (value g = value f) by (apply Hc; [set_solver|set_solver|congruence|by rewrite G3, E|by rewrite Hb']).
    congruence. }
  pose proof (resolves_later _ _ _ _ Ht Hr) as Hr'. set (r := expire c now) in *.
  assert (Hrv : version r = version c) by apply expire_version.
  assert (Vx : ∀ x, valid x = true → valid (expire x now) = true).
  { intros x Hx. destruct (expire_live x now Hx) as [[_ ->]|[_ ->]]; [done|].
    destruct (valid_shape x Hx) as [Hne _]. unfold valid. simpl. by rewrite (proj2 (Z.eqb_neq _ _) Hne). }
  unfold merge. unfold valid_both. rewrite Vc, Vf, (proj2 (Z.ltb_ge _ _) H0). simpl.
  destruct (_ && _) eqn:Ecf.
  { exfalso. rewrite !andb_true_iff, Z.eqb_eq, !bool_decide_eq_true in Ecf.
    destruct Ecf as [[[He [b Hb]] [b' Hb']] Hd]. rewrite Hb, Hb', (Hcontent b b') in Hd by done.
    unfold differ in Hd. by rewrite bool_decide_true in Hd. }
  clear Ecf. eexists. split; [reflexivity|]. simpl. fold r.
  destruct (Z.ltb_spec (version c) (version f)) as [Hlt|Hge].
  { split; [apply (resolves_higher _ _ _ _ Hr'); [done|by rewrite Hrv]|by apply Vx]. }
  destruct (Z.eqb_spec (version f) (version c)) as [He|Hne]; simpl.
  2: { split; [apply resolves_lower; [done|lia]|by apply Vx]. }
  destruct (expire_live f now Vf) as [[Hlf ->]|[Hdf ->]].
  2: { simpl. split; [apply resolves_dead; [done|lia|done]|by apply Vx]. }
  destruct Hlf as (b & d' & Vb & Db & Lb). rewrite Vb, (bool_decide_true (is_Some (Some b))) by done.
  destruct (resolves_shape _ _ _ Hr') as [[V D]|(b0 & d & V & D & L)]; rewrite V; simpl.
  { split; [|done]. eapply resolves_revive; (done || lia). }
  assert (b0 = b) as ->.
  { assert (value c = Some b0); [|by apply (Hcontent b0 b)].
    unfold r, expire in V. destruct (deadline c); [|done]. by destruct (_ <=? _). }
  rewrite D, Db. simpl. split.
  - pose proof (resolves_extend facts now r f b d d' Hr' ltac:(lia) V D Vb Db Lb) as Hx.
    by rewrite V in Hx.
  - pose proof (Vx c Vc) as Vr. fold r in Vr. destruct (valid_shape r Vr) as [Hv0 [[E _]|(b1 & d1 & E1 & E2 & Hsz & Hd)]]; [congruence|].
    unfold valid. simpl. rewrite (proj2 (Z.eqb_neq _ _) Hv0). simpl. simplify_eq.
    rewrite andb_true_iff. split; lia.
Qed.
End convergence.

Lemma merge_all_resolves s : ∀ facts t c,
  coherent (facts ++ s.*1) → valid c = true → resolves facts t c → 0 <= t →
  Forall (λ f, valid f = true) s.*1 → StronglySorted Z.le s.*2 → Forall (Z.le t) s.*2 →
  ∃ r, merge_all (Some c) s = Expected (Some r) ∧
    ∀ T, t <= T → Forall (λ now, now <= T) s.*2 → resolves (facts ++ s.*1) T (expire r T).
Proof.
  induction s as [|[f now] s IH]; intros facts t c Hc Vc Hr H0 Hv Hs Hle; simpl in *.
  { exists c. split; [done|]. intros T HT _. rewrite app_nil_r. by eapply resolves_later. }
  apply Forall_cons in Hv as [Vf Hv]. apply Forall_cons in Hle as [Hn Hle].
  apply StronglySorted_inv in Hs as [Hs Hf].
  destruct (merge_resolves facts t c f now) as (ch & -> & Hres & Hval); try done; try lia.
  { intros g h Hg Hh. apply Hc; set_solver. }
  destruct (IH (facts ++ [f]) now (changed ch)) as (r & -> & Hend); try done; try lia.
  { by rewrite <- app_assoc. }
  exists r. split; [done|]. intros T HT [Hx Hrest]%Forall_cons.
  rewrite <- app_assoc in Hend. by apply Hend.
Qed.

Lemma merge_all_start s :
  s ≠ [] → coherent s.*1 → Forall (λ f, valid f = true) s.*1 →
  StronglySorted Z.le s.*2 → Forall (Z.le 0) s.*2 →
  ∃ r, merge_all None s = Expected (Some r) ∧
    ∀ T, Forall (λ now, now <= T) s.*2 → resolves s.*1 T (expire r T).
Proof.
  destruct s as [|[f now] s]; [done|]. intros _ Hc Hv Hs H0. simpl in *.
  apply Forall_cons in Hv as [Vf Hv]. apply Forall_cons in H0 as [Hn H0].
  apply StronglySorted_inv in Hs as [Hs Hf].
  assert (Vx : valid (expire f now) = true).
  { destruct (expire_live f now Vf) as [[_ ->]|[_ ->]]; [done|].
    destruct (valid_shape f Vf) as [Hne _]. unfold valid. simpl. by rewrite (proj2 (Z.eqb_neq _ _) Hne). }
  assert (Hm : merge None f now =
    Expected {| changed := expire f now; visible := visible_change None (expire f now) |}).
  { unfold merge, valid_both. by rewrite Vf, (proj2 (Z.ltb_ge _ _) Hn). }
  rewrite Hm. simpl.
  destruct (merge_all_resolves s [f] now (expire f now)) as (r & -> & Hend); try done.
  { by apply resolves_one. }
  exists r. split; [done|]. intros T [HT Hrest]%Forall_cons. by apply Hend.
Qed.

(** C28. Stars converge.  Two Stars that have heard the same facts, in any two
    orders, with any repetitions and any non-decreasing arrival times, hold the
    same visible record at every later instant, provided facts of one version
    agree on the payload; no merge fails.  That record is the highest version
    heard, alive or not, visible until the latest deadline any of its facts
    carries and a bare watermark afterwards, so a lower version never comes
    back. *)
Theorem merge_converges (s1 s2 : list (record * Z)) (T : Z) :
  s1 ≠ [] → (∀ f, f ∈ s1.*1 ↔ f ∈ s2.*1) → coherent s1.*1 →
  Forall (λ f, valid f = true) s1.*1 →
  StronglySorted Z.le s1.*2 → StronglySorted Z.le s2.*2 →
  Forall (λ now, 0 <= now <= T) s1.*2 → Forall (λ now, 0 <= now <= T) s2.*2 →
  ∃ r1 r2,
    merge_all None s1 = Expected (Some r1) ∧ merge_all None s2 = Expected (Some r2) ∧
    expire r1 T = expire r2 T ∧ resolves s1.*1 T (expire r1 T).
Proof.
  intros Hne Hset Hc Hv Hs1 Hs2 Ht1 Ht2.
  assert (Hne2 : s2 ≠ []).
  { intros ->. destruct s1 as [|[f now] s1]; [done|]. simpl in Hset.
    apply (not_elem_of_nil f), Hset. set_solver. }
  assert (Hc2 : coherent s2.*1) by (intros f g Hf Hg; apply Hc; by apply Hset).
  assert (Hv2 : Forall (λ f, valid f = true) s2.*1).
  { apply Forall_forall. intros f Hf%Hset. rewrite Forall_forall in Hv. by apply Hv. }
  assert (Hsplit : ∀ l, Forall (λ now, 0 <= now <= T) l → Forall (Z.le 0) l ∧ Forall (λ now, now <= T) l).
  { intros l Hl. split; eapply Forall_impl; try exact Hl; simpl; lia. }
  destruct (Hsplit _ Ht1) as [A1 B1]. destruct (Hsplit _ Ht2) as [A2 B2].
  destruct (merge_all_start s1) as (r1 & E1 & R1); try done.
  destruct (merge_all_start s2) as (r2 & E2 & R2); try done.
  exists r1, r2. split_and!; [done|done| |by apply R1].
  eapply resolves_unique; [exact Hc|exact Hset|by apply R1|by apply R2].
Qed.

(** ** Local candidates *)

(** What a subscriber sees of a key. *)
Definition view (r : option record) : option (Z * Buffer) :=
  match r with
  | Some r => (λ b, (version r, b)) <$> value r
  | None => None
  end.

(** [merge] wakes subscribers exactly when what they see changes: the
    [visible] flag of a successful merge is set iff the (version, payload) pair
    shown for the key differs before and after; watermarks and deadline
    extensions are silent. *)
Theorem merge_visible_exact (current : option record) (incoming : record) (now : Z) (ch : Change) :
  merge current incoming now = Expected ch →
  visible ch = true ↔ view current ≠ view (Some (changed ch)).
Proof.
  unfold merge. destruct (_ || _); [done|].
  destruct (match current with Some _ => _ | None => _ end); [done|].
  set (r := match current with Some _ => _ | None => _ end). intros [= <-]. simpl. clearbody r.
  destruct current as [c|]; simpl.
  - destruct (value c) as [b|] eqn:Ec, (value r) as [b'|] eqn:Er; simpl.
    + destruct (Z.eqb_spec (version c) (version r)) as [->|Hne]; simpl; [|split; congruence].
      unfold differ. rewrite negb_true_iff, bool_decide_eq_false. split; congruence.
    + split; [done|]. done.
    + done.
    + done.
  - destruct (value r); simpl; done.
Qed.

Definition deadline_of (r : record) : Z := default 0 (deadline r).

(** Conditions on a request that are checked before anything else. *)
Definition request_ok (source merged : option record) (ver ttl : Z) : Prop :=
  valid_both source merged = true ∧ ver ≠ 0 ∧ 1000 <= ttl <= 600000.

(** The request does not go below a known version and does not redefine the
    payload of a known one. *)
Definition admissible (known : option record) (ver : Z) (b : Buffer) : Prop :=
  ∀ k, known = Some k →
    version k <= ver ∧ (version k = ver → is_Some (value k) → value k = Some b).

Lemma check_spec known ver b : check known ver (Some b) = None ↔ admissible known ver b.
Proof.
  unfold check, admissible. destruct known as [k|]; [|split; [|done]; intros _ k; done].
  destruct (Z.ltb_spec ver (version k)).
  { split; [done|]. intros Hk. destruct (Hk k eq_refl). lia. }
  destruct (Z.eqb_spec ver (version k)) as [->|Hne]; simpl.
  - destruct (value k) as [b'|] eqn:Ev; simpl.
    + unfold differ. destruct (bool_decide_reflect (Some b = Some b')) as [[= ->]|Hd].
      * rewrite bool_decide_true by done. simpl. split; [|done]. intros _ k' [= <-]. split; [lia|]. intros; congruence.
      * rewrite bool_decide_false by done. simpl. split; [done|]. intros Hk. destruct (Hk k eq_refl) as [_ Hx]. exfalso. apply Hd.
        rewrite Ev in Hx. symmetry. by apply Hx.
    + split; [|done]. intros _ k' [= <-]. split; [lia|]. intros _ [x Hx]. congruence.
  - split; [|done]. intros _ k' [= <-]. split; [lia|]. congruence.
Qed.

Lemma valid_both_spec a b :
  valid_both a b = true ↔
  (∀ x, a = Some x → valid x = true) ∧ (∀ x, b = Some x → valid x = true).
Proof.
  unfold valid_both. rewrite andb_true_iff.
  destruct a, b; split; intros [H1 H2]; split; intros; simplify_eq; auto.
Qed.

(** The record an accepted publication yields, whatever was known before. *)
Lemma publish_shape source merged b ver ttl rd r :
  publish source merged (Some b) ver ttl rd = Expected r →
  request_ok source merged ver ttl ∧ buffer_size b <= body_limit ∧
  admissible source ver b ∧ admissible merged ver b ∧
  deadline_after rd (nanoseconds ttl) = Expected (time rd + nanoseconds ttl) ∧
  version r = ver ∧ value r = Some b ∧ deadline r = Some (deadline_of r) ∧
  time rd + nanoseconds ttl <= deadline_of r ∧
  (∀ s, source = Some s → version s = ver → is_Some (value s) → deadline_of s <= deadline_of r).
Proof.
  unfold publish. destruct (_ || _) eqn:Eg; [done|].
  rewrite !orb_false_iff, negb_false_iff, !Z.ltb_ge, Z.eqb_neq in Eg.
  destruct Eg as [[[[Hv Hsz] Hne] Hlo] Hhi].
  destruct (check source ver (Some b)) eqn:E1; [done|]. apply check_spec in E1.
  destruct (check merged ver (Some b)) eqn:E2; [done|]. apply check_spec in E2.
  destruct (deadline_after rd (nanoseconds ttl)) as [d|] eqn:E3; [|done].
  pose proof (proj1 (deadline_after_spec _ _ _) E3) as (_ & _ & _ & -> & _).
  set (m := match merged with Some _ => _ | None => _ end).
  assert (Hm : version m = ver ∧ value m = Some b ∧ deadline m = Some (time rd + nanoseconds ttl)).
  { unfold m. destruct merged as [x|]; [|done]. destruct (E2 x eq_refl) as [_ Hx].
    destruct (Z.eqb_spec (version x) ver); simpl; [|done].
    destruct (bool_decide_reflect (is_Some (value x))); [|done]. simpl. auto. }
  intros [= <-].
  assert (Hreq : request_ok source merged ver ttl) by (split_and!; (done || lia)).
  unfold deadline_of. destruct Hm as (M1 & M2 & M3).
  destruct source as [s|].
  - destruct (E1 s eq_refl) as [_ Hs].
    destruct (Z.eqb_spec (version s) ver) as [He|Hn]; simpl.
    + destruct (bool_decide_reflect (is_Some (value s))) as [Hi|Hi]; simpl.
      * split_and!; try done; [by apply Hs|lia|]. intros s' [= <-] _ _. lia.
      * rewrite M3. split_and!; try done. intros s' [= <-] _ Hx. done.
    + rewrite M3. split_and!; try done. intros s' [= <-] Hx. done.
  - rewrite M3. split_and!; done.
Qed.

Lemma publish_accepts source merged b ver ttl rd :
  request_ok source merged ver ttl → buffer_size b <= body_limit →
  admissible source ver b → admissible merged ver b →
  Clock.ready rd = true → 0 <= time rd → time rd + nanoseconds ttl <= maximum →
  ∃ r, publish source merged (Some b) ver ttl rd = Expected r.
Proof.
  intros (Hv & Hne & Httl) Hsz Hs Hm Hr H0 Hmax. unfold publish.
  rewrite Hv, (proj2 (Z.ltb_ge _ _)), (proj2 (Z.eqb_neq _ _)), !(proj2 (Z.ltb_ge _ _)) by lia. simpl.
  apply check_spec in Hs, Hm. rewrite Hs, Hm.
  assert (deadline_after rd (nanoseconds ttl) = Expected (time rd + nanoseconds ttl)) as ->; [|eauto].
  apply deadline_after_spec. unfold nanoseconds in *. split_and!; (done || lia).
Qed.

(** Publication.  A publication is accepted exactly when the request is
    well formed, its version is not below the versions known for this source
    and across sources, it does not redefine the payload of a known version,
    and the clock is ready with room for the TTL.  An accepted record carries
    the requested version and payload until at least now plus the TTL, never
    earlier than a deadline already promised for that version, and merging it
    at once cannot fail: the merged view then shows exactly this version and
    payload. *)
Theorem publish_effective (source merged : option record) (b : Buffer) (ver ttl : Z)
    (rd : Reading) :
  ((∃ r, publish source merged (Some b) ver ttl rd = Expected r) ↔
   request_ok source merged ver ttl ∧ buffer_size b <= body_limit ∧
   admissible source ver b ∧ admissible merged ver b ∧
   Clock.ready rd = true ∧ 0 <= time rd ∧ time rd + nanoseconds ttl <= maximum) ∧
  (∀ r, publish source merged (Some b) ver ttl rd = Expected r →
    time rd + nanoseconds ttl <= deadline_of r ∧
    (∀ s, source = Some s → version s = ver → is_Some (value s) → deadline_of s <= deadline_of r) ∧
    ∃ ch, merge merged r (time rd) = Expected ch ∧
      view (Some (changed ch)) = Some (ver, b) ∧ deadline_of r <= deadline_of (changed ch)).
Proof.
  split; [split|].
  - intros [r Hr]. destruct (publish_shape _ _ _ _ _ _ _ Hr) as (H1 & H2 & H3 & H4 & H5 & _).
    apply deadline_after_spec in H5 as (? & ? & ? & _ & ?). done.
  - intros (H1 & H2 & H3 & H4 & H5 & H6 & H7). by apply publish_accepts.
  - intros r Hr.
    destruct (publish_shape _ _ _ _ _ _ _ Hr) as (H1 & H2 & H3 & H4 & H5 & V & B & D & Hd & Hs).
    apply deadline_after_spec in H5 as (_ & H0 & Hns & _ & Hmax). split_and!; [done|done|].
    destruct H1 as (Hvb & Hne & Httl). apply valid_both_spec in Hvb as [_ Hvm].
    assert (Hvr : valid r = true).
    { unfold valid. rewrite V, B, D. simpl. rewrite (proj2 (Z.eqb_neq _ _) Hne). simpl.
      rewrite andb_true_iff. split; lia. }
    assert (Hlive : expire r (time rd) = r).
    { unfold expire. rewrite D. destruct (Z.leb_spec (deadline_of r) (time rd)); [|done].
      unfold nanoseconds in *. lia. }
    unfold merge. rewrite (proj2 (valid_both_spec merged (Some r))), (proj2 (Z.ltb_ge _ _) H0).
    2: { split; [done|]. by intros ? [= <-]. }
    simpl. rewrite Hlive. destruct merged as [m|]; [|eexists; split; [reflexivity|]; simpl; by rewrite B, V].
    destruct (H4 m eq_refl) as [Hge Heq]. rewrite V, B.
    destruct (_ && _) eqn:Ec.
    { exfalso. rewrite !andb_true_iff, Z.eqb_eq, !bool_decide_eq_true in Ec.
      destruct Ec as [[[E1 E2] _] E3]. rewrite (Heq E1 E2) in E3. unfold differ in E3.
      by rewrite bool_decide_true in E3. }
    clear Ec. eexists. split; [reflexivity|]. simpl.
    destruct (Z.ltb_spec (version m) ver); [by rewrite B, V|].
    assert (Hme : version m = ver) by lia. rewrite (proj2 (Z.eqb_eq _ _)) by done. simpl.
    pose proof (expire_version m (time rd)) as Hxv.
    assert (Hmv : value (expire m (time rd)) = None ∨ value (expire m (time rd)) = value m).
    { unfold expire. destruct (deadline m); [|by right]. destruct (_ <=? _); [by left|by right]. }
    destruct (value (expire m (time rd))) as [b'|] eqn:Em; simpl; [|by rewrite B, V].
    destruct Hmv as [?|Hmv]; [done|].
    assert (value m = Some b) as Hmb by (apply Heq; [done|by eexists]).
    rewrite Hxv, Hme. split; [congruence|]. unfold deadline_of at 2. simpl.
    unfold deadline_of. lia.
Qed.

(** Renewal.  A renewal is accepted exactly when this Star still holds the
    live payload of exactly the requested version, no higher version is known,
    and the clock is ready with room for the TTL.  It changes nothing but the
    deadline, which becomes the later of the old one and now plus the TTL: a
    renewal never shortens a lease and never revives an expired one. *)
Theorem renew_extends (source merged : option record) (ver ttl : Z) (rd : Reading) (r : record) :
  renew source merged ver ttl rd = Expected r ↔
  request_ok source merged ver ttl ∧ Clock.ready rd = true ∧ 0 <= time rd ∧
  time rd + nanoseconds ttl <= maximum ∧
  (∀ m, merged = Some m → version m <= ver) ∧
  ∃ s, source = Some s ∧ version s = ver ∧ is_Some (value s) ∧ time rd < deadline_of s ∧
    r = {| version := version s; value := value s;
           deadline := Some (Z.max (deadline_of s) (time rd + nanoseconds ttl)) |}.
Proof.
  unfold renew, request_ok, ready. split.
  - destruct (_ || _) eqn:Eg; [done|].
    rewrite !orb_false_iff, negb_false_iff, !Z.ltb_ge, Z.eqb_neq in Eg.
    destruct Eg as [[[Hv Hne] Hlo] Hhi].
    destruct (Z.ltb_spec (time rd) 0); [done|]. destruct (Clock.ready rd) eqn:Er; simpl; [|done].
    destruct (_ || _) eqn:Ev; [done|]. apply orb_false_iff in Ev as [E1 E2].
    destruct source as [s|]; [|done]. rewrite negb_false_iff, Z.eqb_eq in E2.
    destruct (_ || _) eqn:El; [done|]. rewrite orb_false_iff, negb_false_iff, bool_decide_eq_true, Z.leb_gt in El.
    destruct (deadline_after rd (nanoseconds ttl)) as [d|] eqn:Ed; [|done].
    apply deadline_after_spec in Ed as (_ & _ & _ & -> & Hm). intros [= <-].
    split_and!; try done; try lia.
    + intros m ->. lia.
    + exists s. destruct El. done.
  - intros ((Hv & Hne & Httl) & Hr & H0 & Hmax & Hm & s & -> & He & Hs & Hd & ->).
    rewrite Hv, (proj2 (Z.eqb_neq _ _)), !(proj2 (Z.ltb_ge _ _)), Hr by lia. simpl.
    assert (match merged with Some m => ver <? version m | None => false end = false) as ->.
    { destruct merged as [m|]; [|done]. apply Z.ltb_ge. by apply Hm. }
    rewrite (proj2 (Z.eqb_eq _ _) He), bool_decide_true by done. simpl.
    fold (deadline_of s). rewrite (proj2 (Z.leb_gt _ _) Hd).
    rewrite (proj2 (deadline_after_spec rd (nanoseconds ttl) (time rd + nanoseconds ttl))); [done|].
    unfold nanoseconds in *. split_and!; (done || lia).
Qed.

(** ** Concrete facts *)
Module Sample.

Definition payload : Buffer := [Byte.x01; Byte.x02].
(** Version 7 from two sources with different deadlines, and an old version
    that arrives between them at one Star and first at the other. *)
Definition fact_a : record := {| version := 7; value := Some payload; deadline := Some 5000 |}.
Definition fact_b : record := {| version := 7; value := Some payload; deadline := Some 9000 |}.
Definition old : record := {| version := 3; value := Some [Byte.xff]; deadline := Some 20000 |}.

Definition near : list (record * Z) := [(fact_a, 100); (old, 200); (fact_b, 6000)].
Definition far : list (record * Z) := [(old, 50); (fact_b, 60); (fact_a, 60); (fact_b, 7000)].

Example near_result :
  merge_all None near = Expected (Some fact_b) ∧ merge_all None far = Expected (Some fact_b).
Proof. vm_compute. done. Qed.

Lemma merge_converges_witness :
  ∃ r1 r2,
    merge_all None near = Expected (Some r1) ∧ merge_all None far = Expected (Some r2) ∧
    expire r1 8000 = expire r2 8000 ∧ resolves near.*1 8000 (expire r1 8000).
Proof.
  apply (merge_converges near far 8000).
  - done.
  - intros f. unfold near, far. simpl. set_solver.
  - intros f g. unfold near. simpl. set_unfold. naive_solver.
  - repeat constructor.
  - repeat constructor; by vm_compute.
  - repeat constructor; by vm_compute.
  - repeat constructor; by vm_compute.
  - repeat constructor; by vm_compute.
Defined.

Lemma merge_visible_exact_witness :
  visible {| changed := fact_b; visible := false |} = true ↔
  view (Some fact_a) ≠ view (Some fact_b).
Proof.
  apply (merge_visible_exact (Some fact_a) fact_b 100 {| changed := fact_b; visible := false |}).
  vm_compute. reflexivity.
Defined.

Definition reading : Reading :=
  {| time := 4000; uncertainty_ns := 10; rtt_ns := 5; sampled := 3; Clock.ready := true;
     synchronized := false |}.

Lemma publish_effective_witness :
  ∃ r ch, publish (Some fact_a) (Some fact_b) (Some payload) 7 1000 reading = Expected r ∧
    merge (Some fact_b) r 4000 = Expected ch ∧ view (Some (changed ch)) = Some (7, payload).
Proof.
  destruct (publish_effective (Some fact_a) (Some fact_b) payload 7 1000 reading) as [_ H].
  eexists. edestruct H as (_ & _ & ch & E & Hv & _).
  - vm_compute. reflexivity.
  - exists ch. split; [vm_compute; reflexivity|]. split; [exact E|exact Hv].
Defined.

End Sample.
