(* ===== verification/Ephemeris.v ===== *)
(** Leased registrations: [astra/star/src/ephemeris.hpp] and
    [astra/star/src/ephemeris.cpp].

    A registration has fixed attributes and a fixed TTL, replaceable data and
    one absolute deadline.  Updates and renewals carry two independent order
    numbers chosen by the client, so that retries, duplicates and reordered
    requests are harmless.  The functions are pure and prepare candidates. *)
From stdpp Require Import base numbers list.
From S2P Require Import Prelude Clock.

Inductive Error := input | clock | ended | obsolete | conflict | exhausted.

(** [Ephemeris::Record]. *)
Record record := {
  attr : Value;
  data : Value;
  deadline : Z;
  update_order : Z;
  renewal : Z;
  ttl : Z
}.

(** [Ephemeris::Change]. *)
Record Change := { candidate : record; changed : bool; visible : bool }.

Definition body_limit : Z := 1024 * 1024.

(** [valid(const Value&)]. *)
Definition valid_value (v : Value) : bool :=
  match v with Some b => buffer_size b <=? body_limit | None => false end.

(** [valid(const Record&)]. *)
Definition valid (r : record) : bool :=
  valid_value (attr r) && valid_value (data r) && (1000 <=? ttl r) && (ttl r <=? 600000)
  && (0 <=? deadline r).

Definition error (e : Clock.Error) : Error :=
  match e with
  | clock_unready => clock
  | invalid_time => input
  | Clock.exhausted => exhausted
  end.

(** [valid(std::string_view uuid)] on the bytes of the identifier. *)
Definition valid_uuid (uuid : list Z) : bool :=
  if negb (length uuid =? 16)%nat then false
  else (Z.land (nth 6 uuid 0) 0xf0 =? 0x40) && (Z.land (nth 8 uuid 0) 0xc0 =? 0x80).

(** What one [getrandom] call does: it is interrupted, it fails, it returns
    nothing, or it fills at most the requested number of bytes. *)
Inductive entropy := Interrupted | Failed | Filled (bs : list Z).

Definition stamp_uuid (bs : list Z) : list Z :=
  <[8%nat := Z.lor (Z.land (nth 8 bs 0) 0x3f) 0x80]>
    (<[6%nat := Z.lor (Z.land (nth 6 bs 0) 0x0f) 0x40]> bs).

(** The [while] loop of [uuid] over the results of successive calls; [got] is
    the prefix already filled.  [None]: the script of results ran out. *)
Fixpoint uuid_loop (source : list entropy) (got : list Z) : option (outcome (list Z)) :=
  if (16 <=? length got)%nat then Some (Done (stamp_uuid got))
  else
    match source with
    | [] => None
    | Interrupted :: source => uuid_loop source got
    | Failed :: _ => Some (Thrown runtime_error)
    | Filled [] :: _ => Some (Thrown runtime_error)
    | Filled bs :: source => uuid_loop source (got ++ take (16 - length got) bs)
    end.

Definition uuid (source : list entropy) : option (outcome (list Z)) := uuid_loop source [].

Definition nanoseconds (ttl : Z) : Z := ttl * 1000000.

Definition create (a d : Value) (lease : Z) (rd : Reading) : expected record Error :=
  if negb (valid_value a) || negb (valid_value d) || (lease <? 1000) || (600000 <? lease)
  then Unexpected input
  else
    match deadline_after rd (nanoseconds lease) with
    | Unexpected e => Unexpected (error e)
    | Expected until =>
        Expected {| attr := a; data := d; deadline := until; update_order := 0; renewal := 0;
                    ttl := lease |}
    end.

(** [active]: [None] is success. *)
Definition active (current : record) (rd : Reading) : option Error :=
  if negb (valid current) || (time rd <? 0) then Some input
  else if negb (ready rd) then Some clock
  else if deadline current <=? time rd then Some ended
  else None.

Definition update (current : record) (d : Value) (order : Z) (rd : Reading)
    : expected Change Error :=
  if negb (valid_value d) || (order =? 0) then Unexpected input
  else
    match active current rd with
    | Some e => Unexpected e
    | None =>
        if order <? update_order current then Unexpected obsolete
        else
          let same := bool_decide (d = data current) in
          if order =? update_order current then
            if same then Expected {| candidate := current; changed := false; visible := false |}
            else Unexpected conflict
          else
            Expected {|
              candidate := {| attr := attr current;
                              data := if same then data current else d;
                              deadline := deadline current; update_order := order;
                              renewal := renewal current; ttl := ttl current |};
              changed := true; visible := negb same |}
    end.

Definition renew (current : record) (order : Z) (rd : Reading) : expected Change Error :=
  if order =? 0 then Unexpected input
  else
    match active current rd with
    | Some e => Unexpected e
    | None =>
        if order <? renewal current then Unexpected obsolete
        else if order =? renewal current
        then Expected {| candidate := current; changed := false; visible := false |}
        else
          match deadline_after rd (nanoseconds (ttl current)) with
          | Unexpected e => Unexpected (error e)
          | Expected until =>
              Expected {|
                candidate := {| attr := attr current; data := data current;
                                deadline := Z.max (deadline current) until;
                                update_order := update_order current; renewal := order;
                                ttl := ttl current |};
                changed := true; visible := false |}
          end
    end.

(** ** Histories of one registration *)
Inductive request := Update (d : Value) (order : Z) | Renew (order : Z).

Definition answer (q : request) (rd : Reading) (r : record) : expected Change Error :=
  match q with Update d o => update r d o rd | Renew o => renew r o rd end.

(** A refused request leaves the record alone. *)
Definition handle (r : record) (q : request * Reading) : record :=
  match answer q.1 q.2 r with Expected ch => candidate ch | Unexpected _ => r end.

Definition usable (until : Z) (rd : Reading) : Prop := ready rd = true ∧ 0 <= time rd < until.

Lemma active_spec r rd :
  active r rd = None ↔ valid r = true ∧ usable (deadline r) rd.
Proof.
  unfold active, usable. destruct (valid r); simpl; [|split; [done|by intros [? _]]].
  destruct (Z.ltb_spec (time rd) 0); [split; [done|lia]|].
  destruct (ready rd); simpl; [|split; [done|by intros (_ & ? & _)]].
  destruct (Z.leb_spec (deadline r) (time rd)); split; (done || lia).
Qed.

(** What an accepted change preserves. *)
Record advances (r r' : record) : Prop := {
  adv_attr : attr r' = attr r;
  adv_ttl : ttl r' = ttl r;
  adv_deadline : deadline r <= deadline r';
  adv_update : update_order r <= update_order r';
  adv_renewal : renewal r <= renewal r';
  adv_valid : valid r = true → valid r' = true
}.

Lemma advances_refl r : advances r r.
Proof. split; (done || lia). Qed.

Lemma advances_trans a b c : advances a b → advances b c → advances a c.
Proof. intros [] []. split; (congruence || lia || auto). Qed.

Lemma valid_spec r :
  valid r = true ↔ valid_value (attr r) = true ∧ valid_value (data r) = true ∧
    1000 <= ttl r <= 600000 ∧ 0 <= deadline r.
Proof. unfold valid. rewrite !andb_true_iff, !Z.leb_le. tauto. Qed.

(** [update] on every branch. *)
Lemma update_spec r d o rd ch :
  update r d o rd = Expected ch →
  valid_value d = true ∧ o ≠ 0 ∧ active r rd = None ∧
  ((o = update_order r ∧ d = data r ∧
    ch = {| candidate := r; changed := false; visible := false |}) ∨
   (update_order r < o ∧ changed ch = true ∧ visible ch = negb (bool_decide (d = data r)) ∧
    candidate ch = {| attr := attr r; data := d; deadline := deadline r; update_order := o;
                      renewal := renewal r; ttl := ttl r |})).
Proof.
  unfold update. destruct (_ || _) eqn:Eg; [done|].
  rewrite orb_false_iff, negb_false_iff, Z.eqb_neq in Eg. destruct Eg as [Hv Hne].
  destruct (active r rd) eqn:Ea; [done|].
  destruct (Z.ltb_spec o (update_order r)); [done|].
  destruct (Z.eqb_spec o (update_order r)) as [He|Hd].
  - destruct (bool_decide_reflect (d = data r)); [|done]. intros [= <-]. auto 10.
  - intros [= <-]. split_and!; try done. right. simpl. split_and!; [lia|done|done|].
    destruct (bool_decide_reflect (d = data r)) as [->|]; done.
Qed.

Lemma renew_spec r o rd ch :
  renew r o rd = Expected ch →
  o ≠ 0 ∧ active r rd = None ∧ visible ch = false ∧
  ((o = renewal r ∧ ch = {| candidate := r; changed := false; visible := false |}) ∨
   (renewal r < o ∧ changed ch = true ∧
    candidate ch = {| attr := attr r; data := data r;
                      deadline := Z.max (deadline r) (time rd + nanoseconds (ttl r));
                      update_order := update_order r; renewal := o; ttl := ttl r |})).
Proof.
  unfold renew. destruct (Z.eqb_spec o 0); [done|].
  destruct (active r rd) eqn:Ea; [done|].
  destruct (Z.ltb_spec o (renewal r)); [done|].
  destruct (Z.eqb_spec o (renewal r)) as [He|Hd].
  - intros [= <-]. auto 10.
  - destruct (deadline_after _ _) as [u|] eqn:Ed; [|done].
    apply deadline_after_spec in Ed as (_ & _ & _ & -> & _).
    intros [= <-]. split_and!; try done. right. simpl. split_and!; [lia|done|done].
Qed.

Lemma handle_advances r q : advances r (handle r q).
Proof.
  destruct q as [[d o|o] rd]; unfold handle; simpl.
  - destruct (update r d o rd) as [ch|] eqn:E; [|apply advances_refl].
    destruct (update_spec _ _ _ _ _ E) as (Hv & _ & _ & [(_ & _ & ->)|(Ho & _ & _ & ->)]).
    + apply advances_refl.
    + split; simpl; try (done || lia). intros H%valid_spec. apply valid_spec. simpl. naive_solver.
  - destruct (renew r o rd) as [ch|] eqn:E; [|apply advances_refl].
    destruct (renew_spec _ _ _ _ E) as (_ & _ & _ & [(_ & ->)|(Ho & _ & ->)]).
    + apply advances_refl.
    + split; simpl; try (done || lia). intros H%valid_spec. apply valid_spec. simpl.
      destruct H as (? & ? & ? & ?). split_and!; (done || lia).
Qed.

Lemma history_advances h r : advances r (foldl handle r h).
Proof.
  revert r. induction h as [|q h IH]; intros r; [apply advances_refl|].
  simpl. eapply advances_trans; [apply handle_advances|apply IH].
Qed.

(** Requests of a client that uses an order number for one payload only. *)
Definition disciplined (r : record) (h : list (request * Reading)) : Prop :=
  (∀ d o rd, (Update d o, rd) ∈ h →
     valid_value d = true ∧ 0 < o ∧ (o = update_order r → d = data r)) ∧
  (∀ d d' o rd rd', (Update d o, rd) ∈ h → (Update d' o, rd') ∈ h → d = d').

Lemma handle_updates r q h :
  valid r = true → usable (deadline r) q.2 → disciplined r (q :: h) →
  disciplined (handle r q) h ∧
  (∀ d o, q.1 = Update d o →
     o <= update_order (handle r q) ∧ (o = update_order (handle r q) → d = data (handle r q))) ∧
  ((update_order (handle r q) = update_order r ∧ data (handle r q) = data r) ∨
   q.1 = Update (data (handle r q)) (update_order (handle r q))).
Proof.
  intros Hv Hu [D1 D2]. destruct q as [[d o|o] rd]; unfold handle; simpl in *.
  - destruct (D1 d o rd) as (Hd & Ho & Hsame); [left|].
    assert (Ha : active r rd = None) by (by apply active_spec).
    unfold update. rewrite Hd, (proj2 (Z.eqb_neq o 0)), Ha by lia. simpl.
    destruct (Z.ltb_spec o (update_order r)).
    { split_and!; [|intros ?? [= <- <-]; lia|by left].
      split; [intros; eapply D1; by right|intros; eapply D2; by right]. }
    destruct (Z.eqb_spec o (update_order r)) as [He|Hne].
    { rewrite bool_decide_true by (by apply Hsame). simpl.
      split_and!; [|intros ?? [= <- <-]; split; [lia|by intros; apply Hsame]|by left].
      split; [intros; eapply D1; by right|intros; eapply D2; by right]. }
    set (d1 := if bool_decide _ then _ else _).
    assert (Hd1 : d1 = d) by (unfold d1; destruct (bool_decide_reflect (d = data r)); congruence).
    simpl. rewrite Hd1. split_and!; [|intros ?? [= <- <-]; done|by right].
    split; [|intros; eapply D2; by right]. intros d' o' rd' Hin. simpl.
    destruct (D1 d' o' rd') as (? & ? & _); [by right|]. split_and!; [done|done|].
    intros ->. eapply (D2 d' d o); [by right|by left].
  - destruct (renew r o rd) as [ch|] eqn:E.
    + assert (Hk : update_order (candidate ch) = update_order r ∧ data (candidate ch) = data r).
      { destruct (renew_spec _ _ _ _ E) as (_ & _ & _ & [(_ & ->)|(_ & _ & ->)]); done. }
      destruct Hk as [K1 K2]. split_and!; [|done|by left].
      split; rewrite ?K1, ?K2; [intros; eapply D1; by right|intros; eapply D2; by right].
    + split_and!; [|done|by left].
      split; [intros; eapply D1; by right|intros; eapply D2; by right].
Qed.

(** A request outside the lease changes nothing. *)
Lemma handle_outside r q : ¬ usable (deadline r) q.2 → handle r q = r.
Proof.
  intros Hu. assert (Ha : ∃ e, active r q.2 = Some e).
  { destruct (active r q.2) as [e|] eqn:E; [by exists e|]. apply active_spec in E as [_ ?]. done. }
  destruct Ha as [e Ha]. destruct q as [[d o|o] rd]; unfold handle; simpl in *; unfold update, renew; rewrite Ha; by repeat case_match.
Qed.

#[global] Instance usable_dec until rd : Decision (usable until rd).
Proof. unfold usable. apply _. Defined.

(** The updates that reach the record while its lease runs, as the renewals among the
    requests have extended it by then. *)
Fixpoint heard (r : record) (h : list (request * Reading)) : list (Value * Z) :=
  match h with
  | [] => []
  | q :: h =>
      (match q.1 with Update d o => if decide (usable (deadline r) q.2) then [(d, o)] else [] | Renew _ => [] end)
      ++ heard (handle r q) h
  end.

Lemma heard_sent r h d o : (d, o) ∈ heard r h → ∃ rd, (Update d o, rd) ∈ h.
Proof.
  revert r. induction h as [|q h IH]; intros r; simpl; [by intros ?%elem_of_nil|]. intros [Hq|[rd Hin]%IH]%elem_of_app; [|exists rd; by right].
  exists q.2. destruct q as [[d' o'|o'] rd]; simpl in *; [|by apply elem_of_nil in Hq]. destruct (decide _); [|by apply elem_of_nil in Hq].
  apply list_elem_of_singleton in Hq as [= -> ->]. by left.
Qed.

(** C29. The highest order wins, whatever the network does.  Take any history of updates and
    renewals at any instants, in any order and with any retries, by a client that sends
    payloads within the limit and never uses one update order for two of them.  Of the
    updates that arrive while the lease runs, extended by the renewals accepted before,
    the final record carries the highest order and exactly its data (or the initial ones
    if none was newer); every other request leaves no trace in them.  Attributes and TTL
    are untouched and the deadline never moved backwards. *)
Theorem highest_order_wins (r : record) (h : list (request * Reading)) :
  valid r = true → disciplined r h →
  let r' := foldl handle r h in
  (∀ d o, (d, o) ∈ heard r h → o <= update_order r' ∧ (o = update_order r' → d = data r')) ∧
  ((update_order r' = update_order r ∧ data r' = data r) ∨ (data r', update_order r') ∈ heard r h) ∧
  attr r' = attr r ∧ ttl r' = ttl r ∧ deadline r <= deadline r' ∧ valid r' = true.
Proof.
  intros Hv Hd r'. pose proof (history_advances h r) as [Ha Ht Hdl _ _ Hval].
  cut ((∀ d o, (d, o) ∈ heard r h → o <= update_order r' ∧ (o = update_order r' → d = data r')) ∧
    ((update_order r' = update_order r ∧ data r' = data r) ∨ (data r', update_order r') ∈ heard r h)).
  { intros [A B]. split_and!; auto. }
  clear Ha Ht Hdl Hval. subst r'. revert r Hv Hd. induction h as [|q h IH]; intros r Hv Hd; simpl.
  { split; [|by left]. intros d o []%not_elem_of_nil. }
  destruct (decide (usable (deadline r) q.2)) as [Hq|Hq].
  2: { rewrite (handle_outside r q Hq). destruct Hd as [D1 D2].
    destruct (IH r Hv) as [A B]; [split; [intros; eapply D1; by right|intros; eapply D2; by right]|]. by destruct q.1. }
  destruct (handle_updates r q h Hv Hq Hd) as (Hd' & Hq' & Hk).
  pose proof (handle_advances r q) as [_ _ _ _ _ Hv'].
  pose proof (history_advances h (handle r q)) as [_ _ _ Hmono _ _].
  destruct (IH (handle r q)) as [A B]; [by apply Hv'|done|]. split.
  - intros d o [Heq|Hin]%elem_of_app; [|by eapply A].
    destruct (Hq' d o) as [Q1 Q2]; [destruct q.1; [by apply list_elem_of_singleton in Heq as [= -> ->]|by apply elem_of_nil in Heq]|].
    split; [lia|]. intros Ho. destruct B as [[B1 ->]|[rd' Hin]%heard_sent]; [apply Q2; lia|].
    destruct Hd' as [D1 _]. destruct (D1 _ _ _ Hin) as (_ & _ & Hx). rewrite Hx by lia. apply Q2. lia.
  - destruct B as [[B1 B2]|Hin]; [|right; apply elem_of_app; by right].
    rewrite B1, B2. destruct Hk as [Hk|Hk]; [by left|]. right. rewrite Hk. apply elem_of_app. left. by left.
Qed.

(** Retries are idempotent and leases are final.  Repeating a request that
    was accepted, at any later instant the lease still runs, is accepted again
    and changes nothing; from the deadline on, no request whatsoever changes
    the record. *)
Theorem retry_idempotent_and_final (r : record) (q : request) (rd rd' : Reading) (ch : Change) :
  answer q rd r = Expected ch →
  (active (candidate ch) rd' = None →
    answer q rd' (candidate ch)
      = Expected {| candidate := candidate ch; changed := false; visible := false |}) ∧
  (deadline (candidate ch) <= time rd' →
    ∀ q', ∃ e, answer q' rd' (candidate ch) = Unexpected e).
Proof.
  intros H. split.
  - intros Ha. destruct q as [d o|o]; simpl in *.
    + destruct (update_spec _ _ _ _ _ H) as (Hv & Hne & _ & Hcase).
      unfold update. rewrite Hv, (proj2 (Z.eqb_neq _ _) Hne), Ha. simpl.
      assert (Hk : o = update_order (candidate ch) ∧ d = data (candidate ch)).
      { destruct Hcase as [(-> & -> & ->)|(_ & _ & _ & ->)]; done. }
      destruct Hk as [<- <-]. by rewrite Z.ltb_irrefl, Z.eqb_refl, bool_decide_true.
    + destruct (renew_spec _ _ _ _ H) as (Hne & _ & _ & Hcase).
      unfold renew. rewrite (proj2 (Z.eqb_neq _ _) Hne), Ha.
      assert (o = renewal (candidate ch)) as <-.
      { destruct Hcase as [(-> & ->)|(_ & _ & ->)]; done. }
      by rewrite Z.ltb_irrefl, Z.eqb_refl.
  - intros Hd q'.
    assert (Ha : ∃ e, active (candidate ch) rd' = Some e).
    { destruct (active (candidate ch) rd') eqn:E; [by eexists|].
      apply active_spec in E as (_ & _ & ?). lia. }
    destruct Ha as [e Ha]. destruct q' as [d o|o]; simpl.
    + unfold update. rewrite Ha. destruct (_ || _); by eexists.
    + unfold renew. rewrite Ha. destruct (_ =? _); by eexists.
Qed.

(** ** Identifiers *)
(** Bytes a script of results delivers before it fails or runs out. *)
Fixpoint supply (source : list entropy) : nat :=
  match source with
  | [] => 0
  | Interrupted :: source => supply source
  | Failed :: _ => 0
  | Filled [] :: _ => 0
  | Filled bs :: source => length bs + supply source
  end.

Lemma uuid_loop_spec source got :
  (length got <= 16)%nat →
  match uuid_loop source got with
  | Some (Done u) => ∃ bs, length bs = 16%nat ∧ u = stamp_uuid bs ∧ got `prefix_of` bs
  | _ => (length got + supply source < 16)%nat
  end.
Proof.
  revert got. induction source as [|e source IH]; intros got Hg; cbn [uuid_loop supply].
  { destruct (Nat.leb_spec 16 (length got)); [|lia]. exists got. split_and!; [lia|done|done]. }
  destruct (Nat.leb_spec 16 (length got)); [exists got; split_and!; [lia|done|done]|].
  destruct e as [| |[|b bs]]; [by apply IH|lia|lia|].
  set (chunk := take (16 - length got) (b :: bs)).
  assert (Hc : length chunk = Nat.min (16 - length got) (length (b :: bs))) by apply length_take.
  specialize (IH (got ++ chunk)). rewrite length_app in IH.
  assert (Hl : (length got + length chunk <= 16)%nat) by lia. specialize (IH Hl).
  destruct (uuid_loop source (got ++ chunk)) as [[u|]|].
  - destruct IH as (bs' & H1 & H2 & H3). exists bs'. split_and!; [done|done|].
    etrans; [|exact H3]. by apply prefix_app_r.
  - simpl in *. lia.
  - simpl in *. lia.
Qed.

(** Identifiers.  However the random source splits or interrupts its
    deliveries, [uuid] returns as soon as it has delivered 16 bytes before any
    failure, and every identifier it returns passes the same check the service
    applies to identifiers it receives; outside the six version and variant
    bits the identifier is exactly the delivered bytes. *)
Theorem uuid_valid (source : list entropy) :
  ((16 <= supply source)%nat → ∃ u, uuid source = Some (Done u)) ∧
  (∀ u, uuid source = Some (Done u) →
    valid_uuid u = true ∧ length u = 16%nat ∧
    ∃ bs, length bs = 16%nat ∧
      (∀ i, i ≠ 6%nat → i ≠ 8%nat → nth i u 0 = nth i bs 0) ∧
      Z.land (nth 6 u 0) 0x0f = Z.land (nth 6 bs 0) 0x0f ∧
      Z.land (nth 8 u 0) 0x3f = Z.land (nth 8 bs 0) 0x3f).
Proof.
  pose proof (uuid_loop_spec source [] ltac:(simpl; lia)) as H. unfold uuid. split.
  - intros Hs. destruct (uuid_loop source []) as [[u|]|]; [by eexists|simpl in H; lia|simpl in H; lia].
  - intros u E. rewrite E in H. destruct H as (bs & Hl & -> & _).
    assert (Hget : ∀ i, nth i (stamp_uuid bs) 0 =
      if decide (i = 8%nat) then Z.lor (Z.land (nth 8 bs 0) 0x3f) 0x80
      else if decide (i = 6%nat) then Z.lor (Z.land (nth 6 bs 0) 0x0f) 0x40 else nth i bs 0).
    { intros i. do 16 (destruct bs as [|? bs]; [done|]). destruct bs; [|done].
      do 16 (destruct i as [|i]; [done|]). done. }
    assert (Hlen : length (stamp_uuid bs) = 16%nat)
      by (unfold stamp_uuid; by rewrite !length_insert).
    split_and!; [|done|].
    + unfold valid_uuid. rewrite Hlen, !Hget. simpl.
      assert (Hm : ∀ b keep mark high, Z.land keep high = 0 → Z.land mark high = mark →
        Z.land (Z.lor (Z.land b keep) mark) high = mark).
      { intros b keep mark high H1 H2. rewrite Z.land_lor_distr_l, <- Z.land_assoc, H1, H2, Z.land_0_r.
        done. }
      by rewrite !Hm.
    + exists bs. split_and!; [done| | |].
      * intros i H6 H8. by rewrite Hget, !decide_False.
      * rewrite Hget. simpl. by rewrite Z.land_lor_distr_l, <- Z.land_assoc, Z.lor_0_r.
      * rewrite Hget. simpl. by rewrite Z.land_lor_distr_l, <- Z.land_assoc, Z.lor_0_r.
Qed.

(** ** A concrete registration *)
Module Sample.

Definition reading (t : Z) : Reading :=
  {| time := t; uncertainty_ns := 10; rtt_ns := 5; sampled := 3; ready := true;
     synchronized := true |}.
Definition registered : record :=
  {| attr := Some [Byte.x01]; data := Some []; deadline := 1000001000; update_order := 0;
     renewal := 0; ttl := 1000 |}.

Example created : create (Some [Byte.x01]) (Some []) 1000 (reading 1000) = Expected registered.
Proof. vm_compute. reflexivity. Qed.

(** Update 5 overtakes update 2, and both are retried; a renewal carries the lease past its
    first deadline, and update 7 comes in the time it has won; update 8 is too late. *)
Definition traffic : list (request * Reading) :=
  [(Update (Some [Byte.x05]) 5, reading 2000); (Update (Some [Byte.x02]) 2, reading 3000);
   (Renew 1, reading 900000000); (Update (Some [Byte.x05]) 5, reading 900000001);
   (Update (Some [Byte.x07]) 7, reading 1500000000); (Update (Some [Byte.x02]) 2, reading 1500000001);
   (Update (Some [Byte.x08]) 8, reading 1900000000)].

Example traffic_result :
  data (foldl handle registered traffic) = Some [Byte.x07] ∧ deadline (foldl handle registered traffic) = 1900000000 ∧
  (heard registered traffic).*2 = [5; 2; 5; 7; 2].
Proof. vm_compute. done. Qed.

Lemma highest_order_wins_witness :
  let r' := foldl handle registered traffic in
  (∀ d o, (d, o) ∈ heard registered traffic → o <= update_order r' ∧ (o = update_order r' → d = data r')) ∧
  ((update_order r' = update_order registered ∧ data r' = data registered) ∨ (data r', update_order r') ∈ heard registered traffic) ∧
  attr r' = attr registered ∧ ttl r' = ttl registered ∧ deadline registered <= deadline r' ∧ valid r' = true.
Proof.
  apply (highest_order_wins registered traffic).
  - reflexivity.
  - split.
    + intros d o rd. unfold traffic. rewrite !elem_of_cons, elem_of_nil. intros Hin.
      destruct_or! Hin; simplify_eq; vm_compute; done.
    + intros d d' o rd rd'. unfold traffic. rewrite !elem_of_cons, !elem_of_nil. intros H1 H2.
      destruct_or! H1; destruct_or! H2; simplify_eq; done.
Defined.

Lemma retry_idempotent_and_final_witness :
  ∃ ch, answer (Renew 1) (reading 2000) registered = Expected ch ∧
    answer (Renew 1) (reading 900000000) (candidate ch)
      = Expected {| candidate := candidate ch; changed := false; visible := false |} ∧
    (∀ q', ∃ e, answer q' (reading 1000002000) (candidate ch) = Unexpected e).
Proof.
  eexists. split; [vm_compute; reflexivity|]. split.
  - eapply (retry_idempotent_and_final registered (Renew 1) (reading 2000) (reading 900000000));
      vm_compute; reflexivity.
  - eapply (retry_idempotent_and_final registered (Renew 1) (reading 2000) (reading 1000002000)).
    + vm_compute. reflexivity.
    + vm_compute. congruence.
Defined.

Lemma uuid_valid_witness :
  ∃ u, uuid [Interrupted; Filled (replicate 10 255); Interrupted; Filled (replicate 6 7)]
    = Some (Done u) ∧ valid_uuid u = true.
Proof.
  destruct (uuid_valid [Interrupted; Filled (replicate 10 255); Interrupted; Filled (replicate 6 7)])
    as [Hrun Hok].
  destruct Hrun as [u E]; [simpl; lia|]. exists u. split; [exact E|]. by apply (Hok u E).
Defined.

End Sample.
