(* ===== verification/Pages.v ===== *)
(** The paged copy-on-write index: [astra/common/src/pages.hpp].

    Records live in numbered slots of a radix tree: leaf pages of 64 rows under
    branch pages of 16 children, grown and shrunk at the root.  A page also
    carries the number of rows used below it, which [next] uses to find the
    lowest vacant slot and [page] to skip what was already sent.

    Pages are values here.  A [View] captured from an index is the tree it had
    at that moment; whether a page is also held by a live view decides only
    whether [prepare] allocates, and is an arbitrary function [exclusive] of
    the level. *)
From stdpp Require Import base numbers strings gmap sorting list.
From S2P Require Import Prelude.

#[local] Set Warnings "-register-all".

Definition top_level : nat := 15.

Section pages.
Context {Name Item : Type}.

(** [Leaf] and [Branch], with their common [used].  A [Row] is a key and a
    record; an empty row, with a null key, is [None]. *)
Inductive node : Type :=
| Leaf (used occupied : Z) (rows : list (option (Name * Item)))
| Branch (used : Z) (children : list (option node)).

Definition used (n : node) : Z :=
  match n with Leaf u _ _ => u | Branch u _ => u end.
Definition used_of (link : option node) : Z :=
  match link with Some n => used n | None => 0 end.

Definition empty_leaf : node := Leaf 0 0 (replicate 64 None).
Definition empty_branch : node := Branch 0 (replicate 16 None).

Record pages := { root_ : option node; height_ : nat }.

Definition empty : pages := {| root_ := None; height_ := 0 |}.

(** [std::countr_zero] on a 64-bit word. *)
Fixpoint ctz (p : positive) : nat :=
  match p with xO p => S (ctz p) | _ => 0 end.
Definition countr_zero (z : Z) : nat :=
  match z with Zpos p => ctz p | _ => 64 end.

(** Bits of the slot number below a node of the given level. *)
Definition width (level : nat) : Z := 6 + Z.of_nat level * 4.
Definition capacity (level : nat) : Z := Z.shiftl 1 (width level).

(** [branch]: the four bits a page of level [S low] consumes. *)
Definition branch (slot : Z) (low : nat) : nat :=
  Z.to_nat (Z.land (Z.shiftr slot (width low)) 15).
Definition index (slot : Z) : nat := Z.to_nat (Z.land slot 63).

Definition child (children : list (option node)) (i : nat) : option node :=
  mjoin (children !! i).

(** ** Lookup *)
Fixpoint descend (level : nat) (link : option node) (slot : Z) : option (Name * Item) :=
  match link, level with
  | None, _ => None
  | Some (Leaf _ _ rows), O => mjoin (rows !! index slot)
  | Some (Branch _ children), S low => descend low (child children (branch slot low)) slot
  | Some _, _ => None
  end.

Definition beyond (p : pages) (slot : Z) : bool :=
  (height_ p <? top_level)%nat && negb (Z.shiftr slot (width (height_ p)) =? 0).

Definition find (p : pages) (slot : Z) : option (Name * Item) :=
  if beyond p slot then None else descend (height_ p) (root_ p) slot.

Definition at_slot (p : pages) (slot : Z) : option Item := snd <$> find p slot.

Definition size_of (p : pages) : Z := used_of (root_ p).

(** ** The lowest vacant slot *)

(** First child, from [i] on, with room for another row. *)
Fixpoint roomy (full : Z) (children : list (option node)) (i : nat) : option nat :=
  match children with
  | [] => None
  | c :: children =>
      if match c with None => true | Some n => used n <? full end then Some i
      else roomy full children (S i)
  end.

Fixpoint vacant (level : nat) (link : option node) (prefix : Z) : Z :=
  match link, level with
  | None, _ => prefix
  | Some (Leaf _ occupied _), O =>
      let free := u64_max - occupied in
      if free =? 0 then u64_max else Z.lor prefix (Z.of_nat (countr_zero free))
  | Some (Branch _ children), S low =>
      let reach := if (level =? top_level)%nat then 4%nat else 16%nat in
      match roomy (capacity low) (take reach children) 0 with
      | Some i => vacant low (child children i) (Z.lor prefix (Z.shiftl (Z.of_nat i) (width low)))
      | None => u64_max
      end
  | Some _, _ => u64_max
  end.

Definition next (p : pages) : outcome Z :=
  if (height_ p <? top_level)%nat
     && match root_ p with Some n => used n =? capacity (height_ p) | None => false end
  then Done (capacity (height_ p))
  else
    let slot := vacant (height_ p) (root_ p) 0 in
    if slot =? u64_max then Thrown overflow_error else Done slot.

(** ** Preparing the path to a slot *)
Section preparing.
Context (exclusive : nat → bool).

(** [private_page]: a missing page is created, a page shared with a view is
    cloned, and both allocate; the contents never change. *)
Definition private_page {S} (level : nat) (fresh : node) (link : option node) : eff S node :=
  match link with
  | None => alloc;;; ret fresh
  | Some n => if exclusive level then ret n else alloc;;; ret n
  end.

(** One turn of the growth loop. *)
Definition grow (p : pages) : pages :=
  {| root_ := Some (Branch (used_of (root_ p)) (root_ p :: replicate 15 None));
     height_ := S (height_ p) |}.

Fixpoint grow_loop (fuel : nat) (slot : Z) : eff pages unit :=
  match fuel with
  | O => ret tt
  | S fuel =>
      p <- read;;
      if beyond p slot then alloc;;; modify grow;;; grow_loop fuel slot else ret tt
  end.

(** Replacement of the page reached along [slot] at [level], counted from the
    root page of level [top]. *)
Fixpoint put_page (top level : nat) (link : option node) (slot : Z) (page : node) : option node :=
  match top with
  | O => Some page
  | S low =>
      if (top =? level)%nat then Some page
      else
        match link with
        | Some (Branch u children) =>
            let i := branch slot low in
            Some (Branch u (<[i := put_page low level (child children i) slot page]> children))
        | _ => link
        end
  end.

(** The page reached along [slot] at [level]. *)
Fixpoint get_page (top level : nat) (link : option node) (slot : Z) : option node :=
  match top with
  | O => link
  | S low =>
      if (top =? level)%nat then link
      else
        match link with
        | Some (Branch _ children) => get_page low level (child children (branch slot low)) slot
        | _ => None
        end
  end.

Definition blank (level : nat) : node :=
  match level with O => empty_leaf | S _ => empty_branch end.

(** The downward loop: make the page of each level private, root first. *)
Fixpoint path_loop (level : nat) (slot : Z) : eff pages unit :=
  p <- read;;
  page <- private_page level (blank level) (get_page (height_ p) level (root_ p) slot);;
  modify (λ p, {| root_ := put_page (height_ p) level (root_ p) slot page;
                  height_ := height_ p |});;;
  match level with O => ret tt | S low => path_loop low slot end.

Definition prepare (slot : Z) : eff pages unit :=
  grow_loop (S top_level) slot;;;
  p <- read;;
  path_loop (height_ p) slot.
End preparing.

(** ** Committing *)
Fixpoint set_node (level : nat) (link : option node) (slot : Z) (key : option Name) (r : Item)
    : option node :=
  let added := match key with Some _ => 1 | None => 0 end in
  match link, level with
  | Some (Leaf u occupied rows), O =>
      let i := index slot in
      match key with
      | Some k => Some (Leaf (u + added) (Z.lor occupied (Z.shiftl 1 (Z.of_nat i)))
                             (<[i := Some (k, r)]> rows))
      | None => Some (Leaf (u + added) occupied (alter (λ x, (λ y, (y.1, r)) <$> x) i rows))
      end
  | Some (Branch u children), S low =>
      let i := branch slot low in
      Some (Branch (u + added) (<[i := set_node low (child children i) slot key r]> children))
  | _, _ => link
  end.

Definition set (slot : Z) (key : option Name) (r : Item) (p : pages) : pages :=
  {| root_ := set_node (height_ p) (root_ p) slot key r; height_ := height_ p |}.

Definition release (n : node) : option node := if used n =? 0 then None else Some n.

Fixpoint remove (level : nat) (link : option node) (slot : Z) : option node :=
  match link, level with
  | Some (Leaf u occupied rows), O =>
      let i := index slot in
      release (Leaf (u - 1) (Z.land occupied (u64_max - Z.shiftl 1 (Z.of_nat i)))
                    (<[i := None]> rows))
  | Some (Branch u children), S low =>
      let i := branch slot low in
      release (Branch (u - 1) (<[i := remove low (child children i) slot]> children))
  | _, _ => link
  end.

(** The loop that lowers the root while only its first child exists. *)
Fixpoint shrink (height : nat) (link : option node) : pages :=
  match height, link with
  | S low, Some (Branch u (Some c :: rest)) =>
      if negb (used c =? u) || existsb (λ x : option node, bool_decide (is_Some x)) rest
      then {| root_ := link; height_ := height |}
      else shrink low (Some c)
  | _, _ => {| root_ := link; height_ := height |}
  end.

Definition erase (slot : Z) (p : pages) : pages :=
  match remove (height_ p) (root_ p) slot with
  | None => empty
  | root => shrink (height_ p) root
  end.

(** ** Views *)
Section reading.
Context {S : Type}.

(** [visit]: rows in slot order. *)
Fixpoint visit_rows (reader : Name → Item → eff S unit) (rows : list (option (Name * Item))) : eff S unit :=
  match rows with
  | [] => ret tt
  | None :: rows => visit_rows reader rows
  | Some (k, r) :: rows => reader k r;;; visit_rows reader rows
  end.

Fixpoint visit (reader : Name → Item → eff S unit) (level : nat) (link : option node)
    : eff S unit :=
  match link with
  | None => ret tt
  | Some n =>
      if used n =? 0 then ret tt
      else
        match n, level with
        | Leaf _ _ rows, O => visit_rows reader rows
        | Branch _ children, Datatypes.S low =>
            (fix go cs := match cs with
                          | [] => ret tt
                          | c :: cs => visit reader low c;;; go cs
                          end) children
        | _, _ => ret tt
        end
  end.

Definition each (reader : Name → Item → eff S unit) (p : pages) : eff S unit :=
  visit reader (height_ p) (root_ p).

(** The three references [slice] updates. *)
Record cursor := { skip : Z; remaining : Z; consumed : Z }.

(** The [while (occupied)] loop on one leaf; 64 bits bound it. *)
Fixpoint slice_leaf (reader : Name → Item → eff S bool) (fuel : nat) (rows : list (option (Name * Item)))
    (occupied : Z) (c : cursor) : eff S (bool * cursor) :=
  match fuel with
  | O => ret (true, c)
  | Datatypes.S fuel =>
      if occupied =? 0 then ret (true, c)
      else
        let slot := countr_zero occupied in
        let rest := Z.land occupied (occupied - 1) in
        if negb (skip c =? 0) then
          slice_leaf reader fuel rows rest
            {| skip := skip c - 1; remaining := remaining c; consumed := consumed c |}
        else
          match mjoin (rows !! slot) with
          | None => ret (true, c)
          | Some (k, r) =>
              taken <- reader k r;;
              if negb taken then ret (false, c)
              else
                let c' := {| skip := skip c; remaining := remaining c - 1;
                             consumed := consumed c + 1 |} in
                if remaining c' =? 0 then ret (false, c')
                else slice_leaf reader fuel rows rest c'
          end
  end.

Fixpoint slice (reader : Name → Item → eff S bool) (level : nat) (link : option node)
    (c : cursor) : eff S (bool * cursor) :=
  match link with
  | None => ret (true, c)
  | Some n =>
      if used n =? 0 then ret (true, c)
      else if used n <=? skip c then
        ret (true, {| skip := skip c - used n; remaining := remaining c; consumed := consumed c |})
      else
        match n, level with
        | Branch _ children, Datatypes.S low =>
            (fix go cs c := match cs with
                            | [] => ret (true, c)
                            | x :: cs =>
                                r <- slice reader low x c;;
                                if negb r.1 then ret (false, r.2) else go cs r.2
                            end) children c
        | Leaf _ occupied rows, O => slice_leaf reader 64 rows occupied c
        | _, _ => ret (true, c)
        end
  end.

Definition page (p : pages) (offset maximum : Z) (reader : Name → Item → eff S bool)
    : eff S Z :=
  if size_of p <? offset then throw out_of_range
  else if maximum =? 0 then ret 0
  else
    r <- slice reader (height_ p) (root_ p) {| skip := offset; remaining := maximum; consumed := 0 |};;
    ret (consumed r.2).
End reading.
End pages.

Arguments node : clear implicits.
Arguments pages : clear implicits.

(** [Cell] and [Index = Pages<Cell>] of [astra/common/src/snapshot_index.hpp]. *)
Record Cell := { cell_value : Value; cell_deadline : option Z }.
Definition Index : Type := pages string Cell.

(** ** Bits of a 64-bit word *)
Lemma ctz_spec p k :
  (k < Z.of_nat (ctz p) → Z.testbit (Zpos p) k = false) ∧
  Z.testbit (Zpos p) (Z.of_nat (ctz p)) = true.
Proof.
  revert k. induction p as [p IH|p IH|]; intros k; simpl ctz.
  - split; [|done]. intros Hk. apply Z.testbit_neg_r. lia.
  - rewrite Nat2Z.inj_succ, (Pos2Z.inj_xO p). split.
    + intros Hk. destruct (decide (k < 0)); [by apply Z.testbit_neg_r|].
      destruct (decide (k = 0)) as [->|]; [apply Z.testbit_even_0|].
      replace k with (Z.succ (k - 1)) by lia. rewrite Z.testbit_even_succ by lia. apply IH. lia.
    + rewrite Z.testbit_even_succ by lia. apply (IH 0).
  - split; [|done]. intros Hk. apply Z.testbit_neg_r. lia.
Qed.

Lemma ctz_clear p k :
  0 <= k → Z.testbit (Z.land (Zpos p) (Zpos p - 1)) k = Z.testbit (Zpos p) k && negb (k =? Z.of_nat (ctz p)).
Proof.
  revert k. induction p as [p IH|p IH|]; intros k Hk; simpl ctz; rewrite Z.land_spec.
  - rewrite (Pos2Z.inj_xI p). replace (2 * Zpos p + 1 - 1) with (2 * Zpos p) by lia.
    destruct (decide (k = 0)) as [->|]; [by rewrite Z.testbit_odd_0, Z.testbit_even_0|].
    replace k with (Z.succ (k - 1)) by lia. rewrite Z.testbit_odd_succ, Z.testbit_even_succ by lia.
    rewrite (proj2 (Z.eqb_neq _ _)) by lia. destruct (Z.testbit _ _); done.
  - rewrite (Pos2Z.inj_xO p). replace (2 * Zpos p - 1) with (2 * (Zpos p - 1) + 1) by lia.
    destruct (decide (k = 0)) as [->|]; [by rewrite Z.testbit_even_0|].
    replace k with (Z.succ (k - 1)) by lia. rewrite Z.testbit_odd_succ, Z.testbit_even_succ by lia.
    rewrite <- Z.land_spec, IH by lia. f_equal. f_equal.
    destruct (Z.eqb_spec (k - 1) (Z.of_nat (ctz p))), (Z.eqb_spec (Z.succ (k - 1)) (Z.of_nat (S (ctz p)))); lia || done.
  - destruct (decide (k = 0)) as [->|]; [done|]. simpl. rewrite Z.bits_0, andb_false_r.
    rewrite (Z.bits_above_log2 1 k) by (simpl; lia). done.
Qed.

Lemma lor_add a b k : 0 <= k → (2 ^ k | a) → 0 <= b < 2 ^ k → Z.lor a b = a + b.
Proof.
  intros Hk [q ->] Hb. assert (Hland : Z.land (q * 2 ^ k) b = 0);
    [|pose proof (Z.add_lor_land (q * 2 ^ k) b); lia].
  apply Z.bits_inj. intros i. rewrite Z.land_spec, Z.bits_0.
  destruct (decide (i < k)) as [Hi|Hi].
  - rewrite Z.mul_pow2_bits_low by done. done.
  - rewrite <- (Z.mod_small b (2 ^ k)) by done. rewrite Z.mod_pow2_bits_high by lia. apply andb_false_r.
Qed.

Lemma capacity_pow level : capacity level = 2 ^ width level.
Proof. unfold capacity. rewrite Z.shiftl_1_l. done. Qed.

Lemma page_width_pos level : 6 <= width level.
Proof. unfold width. lia. Qed.

Lemma capacity_pos level : 0 < capacity level.
Proof. rewrite capacity_pow. pose proof (page_width_pos level). lia. Qed.

Lemma capacity_S level : capacity (S level) = 16 * capacity level.
Proof.
  rewrite !capacity_pow. replace (width (S level)) with (width level + 4) by (unfold width; lia).
  pose proof (page_width_pos level). rewrite Z.pow_add_r by lia. lia.
Qed.

Lemma capacity_mono a b : (a <= b)%nat → capacity a <= capacity b.
Proof.
  intros H. rewrite !capacity_pow. apply Z.pow_le_mono_r; unfold width; lia.
Qed.

Lemma index_mod slot : index slot = Z.to_nat (slot mod 64).
Proof. unfold index. change 63 with (Z.ones 6). by rewrite Z.land_ones. Qed.

Lemma branch_div slot low : branch slot low = Z.to_nat (slot / capacity low mod 16).
Proof.
  unfold branch. pose proof (page_width_pos low). change 15 with (Z.ones 4).
  by rewrite Z.shiftr_div_pow2, Z.land_ones, capacity_pow by lia.
Qed.

Lemma branch_lt slot low : (branch slot low < 16)%nat.
Proof. rewrite branch_div. pose proof (Z.mod_pos_bound (slot / capacity low) 16). lia. Qed.

Lemma index_lt slot : (index slot < 64)%nat.
Proof. rewrite index_mod. pose proof (Z.mod_pos_bound slot 64). lia. Qed.

(** ** Well-formed trees *)
Section wf.
Context {Name Item : Type}.
Implicit Types (link : option (node Name Item)) (p : pages Name Item) (rows : list (option (Name * Item))).

(** Number of rows in use. *)
Definition tally rows : Z := Z.of_nat (length (omap id rows)).
Definition total (children : list (option (node Name Item))) : Z :=
  foldr (λ c acc, used_of c + acc) 0 children.

Definition bits_of rows (occupied : Z) : Prop :=
  0 <= occupied <= u64_max ∧
  ∀ i, (i < 64)%nat → Z.testbit occupied (Z.of_nat i) = bool_decide (is_Some (mjoin (rows !! i))).

(** A tree of the given level; at the top level only four children lie inside
    the 64-bit slot space. *)
Fixpoint wf_link (level : nat) link : Prop :=
  match link, level with
  | None, _ => True
  | Some (Leaf u occupied rows), O => length rows = 64%nat ∧ u = tally rows ∧ bits_of rows occupied
  | Some (Branch u children), S low =>
      length children = 16%nat ∧ Forall (wf_link low) children ∧ u = total children ∧
      (level = top_level → ∀ i, (4 <= i)%nat → child children i = None)
  | Some _, _ => False
  end.

Record wf p : Prop := {
  wf_root : wf_link (height_ p) (root_ p);
  wf_height : (height_ p <= top_level)%nat
}.

(** Rows of a tree in slot order. *)
Fixpoint contents (level : nat) link : list (Name * Item) :=
  match link, level with
  | Some (Leaf _ _ rows), O => omap id rows
  | Some (Branch _ children), S low => concat (contents low <$> children)
  | _, _ => []
  end.

Lemma child_wf low children i :
  Forall (wf_link low) children → wf_link low (child children i).
Proof.
  intros H. unfold child. destruct (children !! i) as [c|] eqn:E; [|by destruct low].
  simpl. by eapply Forall_lookup in E.
Qed.

Lemma used_contents level link : wf_link level link → used_of link = Z.of_nat (length (contents level link)).
Proof.
  revert link. induction level as [|low IH]; intros [[u occ rows|u ch]|]; simpl; try done.
  - intros (_ & -> & _). done.
  - intros (_ & Hf & -> & _). induction Hf as [|c ch Hc Hf IHf]; simpl; [done|].
    rewrite IH, length_app, Nat2Z.inj_add, IHf by done. done.
Qed.

Lemma used_nonneg level link : wf_link level link → 0 <= used_of link.
Proof. intros H. rewrite (used_contents _ _ H). lia. Qed.

Lemma tally_bound rows : 0 <= tally rows <= Z.of_nat (length rows).
Proof.
  unfold tally. induction rows as [|[r|] rows IH]; cbn in *; lia.
Qed.

Lemma tally_full rows : tally rows = Z.of_nat (length rows) ↔ Forall is_Some rows.
Proof.
  unfold tally. induction rows as [|[r|] rows IH]; cbn [omap list_omap id length].
  - done.
  - rewrite Forall_cons, <- IH. cbn. split; [intros; split; [done|lia]|lia].
  - pose proof (tally_bound rows) as Hb. unfold tally in Hb. rewrite Forall_cons. cbn.
    split; [lia|]. by intros [[] _].
Qed.

Lemma used_bound level link : wf_link level link → used_of link <= capacity level.
Proof.
  revert link. induction level as [|low IH]; intros [[u occ rows|u ch]|]; simpl; try done.
  - intros (Hl & -> & _). pose proof (tally_bound rows). change (capacity 0) with 64. lia.
  - intros (Hl & Hf & -> & _). rewrite capacity_S.
    assert (total ch <= Z.of_nat (length ch) * capacity low); [|lia]. clear Hl.
    induction Hf as [|c ch Hc Hf IHf]; simpl; [lia|]. specialize (IH c Hc). lia.
  - intros _. pose proof (capacity_pos (S low)). lia.
Qed.

(** Only the low bits of the slot matter below a page. *)
Lemma descend_shift level link base slot :
  (capacity level | base) → descend level link (base + slot) = descend level link slot.
Proof.
  revert link. induction level as [|low IH]; intros [[u occ rows|u ch]|] [q Hq]; simpl; try done.
  - change (capacity 0) with 64 in Hq. rewrite !index_mod. subst base.
    by rewrite Z.add_comm, Z_mod_plus_full.
  - rewrite capacity_S in Hq. pose proof (capacity_pos low).
    assert (branch (base + slot) low = branch slot low) as ->.
    { rewrite !branch_div. subst base. replace (q * (16 * capacity low)) with ((q * 16) * capacity low) by lia.
      rewrite Z.div_add_l by lia. rewrite Z.add_comm, Z_mod_plus_full. done. }
    apply IH. exists (q * 16). lia.
Qed.

Lemma branch_here low i slot :
  (i < 16)%nat → 0 <= slot < capacity low → branch (Z.of_nat i * capacity low + slot) low = i.
Proof.
  intros Hi Hs. rewrite branch_div, Z.div_add_l, (Z.div_small slot) by lia.
  rewrite Z.add_0_r, Z.mod_small by lia. lia.
Qed.

Lemma descend_here low u (ch : list (option (node Name Item))) i slot :
  (i < 16)%nat → 0 <= slot < capacity low →
  descend (S low) (Some (Branch u ch)) (Z.of_nat i * capacity low + slot)
  = descend low (child ch i) slot.
Proof.
  intros Hi Hs. simpl. rewrite branch_here by done. apply descend_shift. by exists (Z.of_nat i).
Qed.

(** A tree is full exactly when every slot below it is occupied. *)
Lemma full_iff level link :
  wf_link level link → (level < top_level)%nat →
  used_of link = capacity level ↔ (∀ slot, 0 <= slot < capacity level → is_Some (descend level link slot)).
Proof.
  revert link. induction level as [|low IH]; intros [[u occ rows|u ch]|]; simpl; try done.
  - intros (Hl & -> & _) _. change (capacity 0) with 64. assert (E : 64 = Z.of_nat (length rows)) by lia.
    rewrite E, tally_full, Forall_lookup. split.
    + intros H slot Hs. destruct (lookup_lt_is_Some_2 rows (index slot)) as [r Hr].
      { rewrite Hl. apply index_lt. }
      rewrite Hr. simpl. by apply (H _ _ Hr).
    + intros H i r Hr. specialize (H (Z.of_nat i)).
      assert (Hi : (i < 64)%nat) by (rewrite <- Hl; by eapply lookup_lt_Some).
      rewrite index_mod, Z.mod_small, Nat2Z.id, Hr in H by lia. apply H. lia.
  - intros _ _. change (capacity 0) with 64. split; [lia|]. intros H. destruct (H 0); [lia|done].
  - intros (Hl & Hf & -> & _) Hlt. rewrite capacity_S.
    assert (Hall : total ch = 16 * capacity low ↔ Forall (λ c, used_of c = capacity low) ch).
    { assert (Hb : Forall (λ c, used_of c <= capacity low) ch)
        by (eapply Forall_impl; [exact Hf|]; intros c Hc; by apply used_bound).
      replace 16 with (Z.of_nat (length ch)) by lia. clear Hl Hf.
      induction Hb as [|c ch Hc Hb IHb]; simpl; [split; [constructor|lia]|].
      rewrite Forall_cons, <- IHb.
      assert (total ch <= Z.of_nat (length ch) * capacity low); [|lia].
      clear IHb. induction Hb as [|c' ch' Hc' Hb' IHb']; simpl; lia. }
    rewrite Hall, Forall_lookup. pose proof (capacity_pos low) as Hp. split.
    + intros H slot Hs.
      set (i := Z.to_nat (slot / capacity low)). set (s := slot mod capacity low).
      assert (Hi : 0 <= slot / capacity low < 16).
      { split; [apply Z.div_pos; lia|]. apply Z.div_lt_upper_bound; lia. }
      assert (Hsm : 0 <= s < capacity low) by (apply Z.mod_pos_bound; lia).
      assert (E : slot = Z.of_nat i * capacity low + s).
      { unfold i, s. rewrite Z2Nat.id by lia. pose proof (Z.div_mod slot (capacity low)). lia. }
      change (is_Some (descend (S low) (Some (Branch (total ch) ch)) slot)).
      rewrite E, descend_here by lia. unfold child.
      destruct (lookup_lt_is_Some_2 ch i) as [c Hc]; [lia|]. rewrite Hc. simpl.
      apply IH; [by eapply Forall_lookup in Hc|lia|by eapply H|done].
    + intros H i c Hc. apply IH; [by eapply Forall_lookup in Hc|lia|].
      intros slot Hs. assert (Hi : (i < 16)%nat) by (rewrite <- Hl; by eapply lookup_lt_Some).
      specialize (H (Z.of_nat i * capacity low + slot) ltac:(nia)).
      change (is_Some (descend (S low) (Some (Branch (total ch) ch)) (Z.of_nat i * capacity low + slot))) in H.
      rewrite descend_here in H by done. unfold child in H. by rewrite Hc in H.
  - intros _ _. pose proof (capacity_pos (S low)). split; [lia|]. intros Hx. destruct (Hx 0); [lia|done].
Qed.

(** *** The lowest vacant slot *)
Lemma complement_bits occ i : 0 <= occ <= u64_max → 0 <= i →
  Z.testbit (u64_max - occ) i = (i <? 64) && negb (Z.testbit occ i).
Proof.
  intros Ho Hi. change u64_max with (Z.ones 64) in *.
  rewrite Z.sub_nocarry_ldiff.
  - rewrite Z.ldiff_spec. f_equal. destruct (Z.ltb_spec i 64).
    + apply Z.ones_spec_low. lia.
    + apply Z.ones_spec_high. lia.
  - apply Z.bits_inj. intros k. rewrite Z.ldiff_spec, Z.bits_0.
    destruct (decide (k < 64)).
    + destruct (decide (k < 0)); [by rewrite Z.testbit_neg_r|].
      rewrite Z.ones_spec_low by lia. apply andb_false_r.
    + rewrite <- (Z.mod_small occ (2 ^ 64)) by (change (Z.ones 64) with (2 ^ 64 - 1) in Ho; lia).
      rewrite Z.mod_pow2_bits_high by lia. done.
Qed.

(** The lowest set bit of a non-zero 64-bit word. *)
Lemma countr_zero_spec z : 0 < z <= u64_max →
  (countr_zero z < 64)%nat ∧ Z.testbit z (Z.of_nat (countr_zero z)) = true ∧
  ∀ k, 0 <= k < Z.of_nat (countr_zero z) → Z.testbit z k = false.
Proof.
  intros Hz. destruct z as [|q|]; [lia| |lia]. cbn [countr_zero]. destruct (ctz_spec q 0) as [_ Ht].
  split_and!; [|done|intros k Hk; apply (ctz_spec q k); lia].
  destruct (decide (ctz q < 64)%nat) as [|Hge]; [done|]. exfalso.
  rewrite <- (Z.mod_small (Zpos q) (2 ^ 64)) in Ht by (unfold u64_max in *; lia).
  by rewrite Z.mod_pow2_bits_high in Ht by lia.
Qed.

Definition least_vacant (level : nat) link (slot : Z) : Prop :=
  descend level link slot = None ∧ ∀ s, 0 <= s < slot → is_Some (descend level link s).

Lemma vacant_leaf u occ rows prefix :
  wf_link 0 (Some (Leaf u occ rows)) → u < 64 → (64 | prefix) →
  ∃ s, 0 <= s < 64 ∧ vacant 0 (Some (Leaf u occ rows)) prefix = prefix + s ∧
    least_vacant 0 (Some (Leaf u occ rows)) s.
Proof.
  intros (Hl & -> & Hocc & Hbits) Hu Hp. simpl.
  assert (Hrow : ∀ i, 0 <= i < 64 → descend 0 (Some (Leaf (tally rows) occ rows)) i = mjoin (rows !! Z.to_nat i)).
  { intros i Hi. simpl. by rewrite index_mod, Z.mod_small. }
  assert (Hfree : u64_max - occ ≠ 0).
  { intros E.
    assert (Hfull : Forall is_Some rows); [|apply tally_full in Hfull; lia].
    apply Forall_lookup. intros i r Hr.
    assert (Hi : (i < 64)%nat) by (rewrite <- Hl; by eapply lookup_lt_Some).
    specialize (Hbits i Hi). pose proof (complement_bits occ (Z.of_nat i) Hocc ltac:(lia)) as Hc.
    rewrite E, Z.bits_0, (proj2 (Z.ltb_lt _ _)), Hbits, Hr in Hc by lia. simpl in Hc.
    destruct r; [done|]. by rewrite bool_decide_false in Hc by (intros [? ?]; done). }
  rewrite (proj2 (Z.eqb_neq _ _) Hfree).
  destruct (countr_zero_spec (u64_max - occ) ltac:(lia)) as (Hlt & Hset & Hlow).
  set (j := countr_zero (u64_max - occ)) in *. exists (Z.of_nat j). split; [lia|]. split.
  { apply (lor_add _ _ 6); [lia|done|lia]. }
  split.
  - rewrite Hrow, Nat2Z.id by lia. rewrite complement_bits in Hset by lia.
    apply andb_true_iff in Hset as [_ Hset%negb_true_iff].
    rewrite Hbits in Hset by done. apply bool_decide_eq_false in Hset. by apply eq_None_not_Some.
  - intros s Hs. rewrite Hrow by lia. specialize (Hlow s ltac:(lia)).
    rewrite complement_bits, (proj2 (Z.ltb_lt _ _)) in Hlow by lia. simpl in Hlow.
    apply negb_false_iff in Hlow. specialize (Hbits (Z.to_nat s) ltac:(lia)).
    rewrite Z2Nat.id, Hlow in Hbits by lia. symmetry in Hbits. by apply bool_decide_eq_true in Hbits.
Qed.

Lemma roomy_spec full (ch : list (option (node Name Item))) i0 :
  0 < full → Forall (λ c, used_of c <= full) ch →
  match roomy full ch i0 with
  | Some j => (i0 <= j)%nat ∧ (∃ c, ch !! (j - i0)%nat = Some c ∧ used_of c < full) ∧
              (∀ i c, (i < j - i0)%nat → ch !! i = Some c → used_of c = full)
  | None => Forall (λ c, used_of c = full) ch
  end.
Proof.
  intros Hf. revert i0. induction ch as [|c ch IH]; intros i0 Hall; simpl; [constructor|].
  apply Forall_cons in Hall as [Hc Hall].
  assert (Hroom : match c with None => true | Some n => used n <? full end = (used_of c <? full)).
  { destruct c; [done|]. simpl. symmetry. by apply Z.ltb_lt. }
  rewrite Hroom. destruct (Z.ltb_spec (used_of c) full) as [Hlt|Hge].
  - rewrite Nat.sub_diag. split_and!; [done|by exists c|]. intros i c' Hi. lia.
  - specialize (IH (S i0) Hall). destruct (roomy full ch (S i0)) as [j|].
    + destruct IH as (H1 & (c' & H2 & H3) & H4). split_and!; [lia| |].
      * exists c'. split; [|done]. by replace (j - i0)%nat with (S (j - S i0)) by lia.
      * intros [|i] c0 Hi Hc0; simpl in Hc0; [simplify_eq; lia|]. apply (H4 i); [lia|done].
    + constructor; [lia|done].
Qed.

(** Slot [t] as a child index and an offset. *)
Lemma slot_split low t : 0 <= t →
  ∃ i s, t = Z.of_nat i * capacity low + s ∧ 0 <= s < capacity low.
Proof.
  intros Ht. pose proof (capacity_pos low) as Hc.
  exists (Z.to_nat (t / capacity low)), (t mod capacity low).
  assert (0 <= t / capacity low) by (apply Z.div_pos; lia).
  pose proof (Z.div_mod t (capacity low) ltac:(lia)). pose proof (Z.mod_pos_bound t (capacity low) Hc).
  rewrite Z2Nat.id by lia. lia.
Qed.

Lemma roomy_branch low u ch reach :
  length ch = 16%nat → Forall (wf_link low) ch → (reach <= 16)%nat → (low < top_level)%nat →
  match roomy (capacity low) (take reach ch) 0 with
  | Some j => (j < reach)%nat ∧ used_of (child ch j) < capacity low ∧ wf_link low (child ch j) ∧
      ∀ s, 0 <= s < capacity low → least_vacant low (child ch j) s →
        least_vacant (S low) (Some (Branch u ch)) (Z.of_nat j * capacity low + s)
  | None => ∀ t, 0 <= t < Z.of_nat reach * capacity low →
      is_Some (descend (S low) (Some (Branch u ch)) t)
  end.
Proof.
  intros Hl Hf Hreach Hlow. pose proof (capacity_pos low) as Hcap.
  assert (Hb : Forall (λ c, used_of c <= capacity low) (take reach ch)).
  { apply Forall_take. eapply Forall_impl; [exact Hf|]. intros c Hc. by apply used_bound. }
  assert (Hfull : ∀ i s, (i < reach)%nat → 0 <= s < capacity low → used_of (child ch i) = capacity low →
    is_Some (descend (S low) (Some (Branch u ch)) (Z.of_nat i * capacity low + s))).
  { intros i s Hi Hs Hu. rewrite descend_here by (done || lia).
    by apply full_iff; [apply child_wf|..]. }
  assert (Hch : ∀ i c, take reach ch !! i = Some c → child ch i = c ∧ (i < reach)%nat).
  { intros i c Hc. apply lookup_take_Some in Hc as [Hc Hi]. unfold child. by rewrite Hc. }
  pose proof (roomy_spec (capacity low) (take reach ch) 0 Hcap Hb) as Hr.
  destruct (roomy (capacity low) (take reach ch) 0) as [j|].
  - destruct Hr as (_ & (c & Hc & Hroom) & Hbefore). rewrite Nat.sub_0_r in *.
    destruct (Hch j c Hc) as [Hcj Hj]. rewrite Hcj. split_and!; [done|done| |].
    { rewrite <- Hcj. by apply child_wf. }
    intros s Hs [Hn Hbelow]. split; [rewrite descend_here by (done || lia); by rewrite Hcj|].
    intros t Ht. destruct (slot_split low t ltac:(lia)) as (i & s' & -> & Hs').
    assert (Hi : (i <= j)%nat) by nia.
    destruct (decide (i = j)) as [->|Hne].
    + rewrite descend_here by (done || lia). rewrite Hcj. apply Hbelow. lia.
    + apply Hfull; [lia|done|]. destruct (lookup_lt_is_Some_2 (take reach ch) i) as [c' Hc'].
      { rewrite length_take. lia. }
      destruct (Hch i c' Hc') as [-> _]. apply (Hbefore i); [lia|done].
  - intros t Ht. destruct (slot_split low t ltac:(lia)) as (i & s' & -> & Hs').
    assert (Hi : (i < reach)%nat) by nia.
    apply Hfull; [done|done|]. destruct (lookup_lt_is_Some_2 (take reach ch) i) as [c' Hc'].
    { rewrite length_take. lia. }
    destruct (Hch i c' Hc') as [-> _]. by eapply Forall_lookup in Hr.
Qed.

Lemma prefix_lor low j prefix :
  (j < 16)%nat → (capacity (S low) | prefix) →
  Z.lor prefix (Z.shiftl (Z.of_nat j) (width low)) = prefix + Z.of_nat j * capacity low.
Proof.
  intros Hj Hp. pose proof (page_width_pos low) as Hw. pose proof (capacity_pos low).
  rewrite Z.shiftl_mul_pow2, <- capacity_pow by lia.
  apply (lor_add _ _ (width low + 4)); [lia| |].
  - rewrite Z.pow_add_r, <- capacity_pow by lia. change (2 ^ 4) with 16.
    by rewrite capacity_S, Z.mul_comm in Hp.
  - rewrite Z.pow_add_r, <- capacity_pow by lia. change (2 ^ 4) with 16. nia.
Qed.

Lemma vacant_spec level link prefix :
  wf_link level link → (level < top_level)%nat → used_of link < capacity level →
  (capacity level | prefix) →
  ∃ s, 0 <= s < capacity level ∧ vacant level link prefix = prefix + s ∧ least_vacant level link s.
Proof.
  revert link prefix. induction level as [|low IH]; intros link prefix Hwf Hlev Hu Hp.
  - destruct link as [[u occ rows|u ch]|]; [by apply vacant_leaf|done|].
    exists 0. split; [done|]. split; [by rewrite Z.add_0_r|]. split; [done|lia].
  - pose proof (capacity_pos low) as Hcap.
    destruct link as [[u occ rows|u ch]|]; [done| |].
    2: { rewrite capacity_S. exists 0. split; [lia|]. split; [simpl; lia|]. split; [done|lia]. }
    cbn [vacant]. rewrite (proj2 (Nat.eqb_neq (S low) top_level)) by lia.
    pose proof Hwf as (Hl & Hf & Hut & _).
    pose proof (roomy_branch low u ch 16 Hl Hf ltac:(lia) ltac:(lia)) as Hr.
    destruct (roomy (capacity low) (take 16 ch) 0) as [j|].
    2: { exfalso. assert (used_of (Some (Branch u ch)) = capacity (S low)); [|lia].
         apply full_iff; [done|done|]. rewrite capacity_S. exact Hr. }
    destruct Hr as (Hj & Hroom & Hcw & Hleast). rewrite prefix_lor by done.
    destruct (IH (child ch j) (prefix + Z.of_nat j * capacity low) Hcw ltac:(lia) Hroom) as (s & Hs & -> & Hv).
    { destruct Hp as [q ->]. rewrite capacity_S. exists (q * 16 + Z.of_nat j). lia. }
    exists (Z.of_nat j * capacity low + s). split; [rewrite capacity_S; nia|]. split; [lia|]. by apply Hleast.
Qed.

Lemma vacant_top u (ch : list (option (node Name Item))) :
  vacant top_level (Some (Branch u ch)) 0 =
  match roomy (capacity 14) (take 4 ch) 0 with
  | Some i => vacant 14 (child ch i) (Z.lor 0 (Z.shiftl (Z.of_nat i) (width 14)))
  | None => u64_max
  end.
Proof. reflexivity. Qed.

Lemma beyond_spec p slot : 0 <= slot →
  beyond p slot = true ↔ (height_ p < top_level)%nat ∧ capacity (height_ p) <= slot.
Proof.
  intros H0. unfold beyond. rewrite andb_true_iff, Nat.ltb_lt, negb_true_iff, Z.eqb_neq.
  pose proof (page_width_pos (height_ p)). rewrite Z.shiftr_div_pow2, <- capacity_pow by lia.
  pose proof (capacity_pos (height_ p)) as Hc.
  assert (slot / capacity (height_ p) ≠ 0 ↔ capacity (height_ p) <= slot); [|tauto].
  rewrite Z.div_small_iff by lia. lia.
Qed.

Lemma find_inside p slot : 0 <= slot < capacity (height_ p) → find p slot = descend (height_ p) (root_ p) slot.
Proof.
  intros H. unfold find. destruct (beyond p slot) eqn:E; [|done].
  apply beyond_spec in E as [_ ?]; lia.
Qed.

Lemma next_spec p :
  wf p →
  match next p with
  | Done slot => 0 <= slot < u64_max ∧ find p slot = None ∧
                 ∀ s, 0 <= s < slot → is_Some (find p s)
  | Thrown e => e = overflow_error ∧ ∀ s, 0 <= s < u64_max → is_Some (find p s)
  end.
Proof.
  intros [Hwf Hh]. unfold next. pose proof (capacity_pos (height_ p)) as Hcap.
  destruct (decide (height_ p = top_level)) as [Htop|Hnt].
  - rewrite (proj2 (Nat.ltb_ge _ _)) by lia. cbn [andb].
    assert (Hbey : ∀ s, find p s = descend (height_ p) (root_ p) s).
    { intros s. unfold find, beyond. by rewrite (proj2 (Nat.ltb_ge _ _)) by lia. }
    rewrite Htop in *.
    destruct (root_ p) as [[u occ rows|u ch]|]; [done| |].
    2: { change (vacant top_level None 0) with 0. cbn [Z.eqb u64_max]. split; [done|].
         rewrite Hbey. split; [done|]. intros s. lia. }
    destruct Hwf as (Hl & Hf & Hut & _). rewrite vacant_top.
    pose proof (roomy_branch 14 u ch 4 Hl Hf ltac:(lia) ltac:(unfold top_level; lia)) as Hr.
    assert (Hc4 : 4 * capacity 14 = u64_max + 1) by (vm_compute; reflexivity).
    destruct (roomy (capacity 14) (take 4 ch) 0) as [j|].
    2: { rewrite Z.eqb_refl. split; [done|]. intros s Hs. rewrite Hbey. apply Hr. lia. }
    destruct Hr as (Hj & Hroom & Hcw & Hleast). rewrite prefix_lor by (lia || by exists 0).
    destruct (vacant_spec 14 (child ch j) (0 + Z.of_nat j * capacity 14) Hcw
      ltac:(unfold top_level; lia) Hroom) as (s & Hs & -> & Hv); [by exists (Z.of_nat j)|].
    specialize (Hleast s Hs Hv). rewrite Z.add_0_l. destruct Hleast as [Hn Hbelow].
    destruct (Z.eqb_spec (Z.of_nat j * capacity 14 + s) u64_max) as [E|E].
    + rewrite E in Hbelow. split; [done|]. intros t Ht. rewrite Hbey. by apply Hbelow.
    + rewrite Hbey. split_and!; [nia|nia|done|]. intros t Ht. rewrite Hbey. by apply Hbelow.
  - rewrite (proj2 (Nat.ltb_lt _ _)) by lia. cbn [andb].
    pose proof (used_bound _ _ Hwf) as Hub.
    assert (Hle : capacity (height_ p) <= capacity 14) by (apply capacity_mono; unfold top_level in *; lia).
    assert (H14 : capacity 14 < u64_max) by (vm_compute; reflexivity).
    assert (Hfull : match root_ p with Some n => used n =? capacity (height_ p) | None => false end
      = (used_of (root_ p) =? capacity (height_ p))).
    { destruct (root_ p); [done|]. cbn [used_of]. symmetry. apply Z.eqb_neq. lia. }
    rewrite Hfull. destruct (Z.eqb_spec (used_of (root_ p)) (capacity (height_ p))) as [E|E].
    + split; [lia|]. split.
      * unfold find. by rewrite (proj2 (beyond_spec p (capacity (height_ p)) ltac:(lia))) by (split; lia).
      * intros s Hs. rewrite find_inside by done. apply full_iff; [done|lia|done|done].
    + destruct (vacant_spec (height_ p) (root_ p) 0 Hwf ltac:(lia) ltac:(lia)) as (s & Hs & -> & Hn & Hbelow);
        [by exists 0|].
      rewrite Z.add_0_l, (proj2 (Z.eqb_neq _ _)) by lia. split_and!; [lia|lia| |].
      * by rewrite find_inside.
      * intros t Ht. rewrite find_inside by lia. by apply Hbelow.
Qed.

(** *** Committing *)

(** All pages on the way to the slot exist. *)
Fixpoint reaches (level : nat) link (slot : Z) : Prop :=
  match link, level with
  | Some (Leaf _ _ _), O => True
  | Some (Branch _ children), S low => reaches low (child children (branch slot low)) slot
  | _, _ => False
  end.

Definition flag {A} (x : option A) : Z := match x with Some _ => 1 | None => 0 end.

Lemma tally_insert rows i x old :
  rows !! i = Some old → tally (<[i := x]> rows) = tally rows - flag old + flag x.
Proof.
  unfold tally. revert i. induction rows as [|r rows IH]; intros [|i] Hi; simplify_eq/=.
  - destruct old, x; cbn; lia.
  - specialize (IH i Hi). destruct r; cbn in *; lia.
Qed.

Lemma total_insert (ch : list (option (node Name Item))) i c old :
  ch !! i = Some old → total (<[i := c]> ch) = total ch - used_of old + used_of c.
Proof.
  revert i. induction ch as [|x ch IH]; intros [|i] Hi; simplify_eq/=; [lia|].
  specialize (IH i Hi). lia.
Qed.

Lemma word_bound z : 0 <= z → (∀ k, 64 <= k → Z.testbit z k = false) → 0 <= z <= u64_max.
Proof.
  intros H0 Hb. split; [done|].
  assert (E : z = z mod 2 ^ 64).
  { apply Z.bits_inj. intros k. destruct (decide (k < 64)).
    - destruct (decide (k < 0)); [by rewrite !Z.testbit_neg_r by lia|].
      by rewrite Z.mod_pow2_bits_low by lia.
    - by rewrite Hb, Z.mod_pow2_bits_high by lia. }
  pose proof (Z.mod_pos_bound z (2 ^ 64) ltac:(lia)). unfold u64_max. lia.
Qed.

Lemma word_high z k : 0 <= z <= u64_max → 64 <= k → Z.testbit z k = false.
Proof.
  intros Hz Hk. rewrite <- (Z.mod_small z (2 ^ 64)) by (unfold u64_max in *; lia).
  by rewrite Z.mod_pow2_bits_high by lia.
Qed.

Lemma bits_insert rows occ i x :
  length rows = 64%nat → (i < 64)%nat → bits_of rows occ →
  bits_of (<[i := x]> rows)
    match x with
    | Some _ => Z.lor occ (Z.shiftl 1 (Z.of_nat i))
    | None => Z.land occ (u64_max - Z.shiftl 1 (Z.of_nat i))
    end.
Proof.
  intros Hl Hi [Ho Hb].
  assert (Hone : 0 <= Z.shiftl 1 (Z.of_nat i) <= u64_max).
  { rewrite Z.shiftl_1_l. unfold u64_max. pose proof (Z.pow_lt_mono_r 2 (Z.of_nat i) 64). lia. }
  assert (Hbit : ∀ k, 0 <= k → Z.testbit (Z.shiftl 1 (Z.of_nat i)) k = (Z.of_nat i =? k)).
  { intros k Hk. rewrite Z.shiftl_1_l. apply Z.pow2_bits_eqb. lia. }
  assert (Hget : ∀ k, (k < 64)%nat → mjoin (<[i:=x]> rows !! k) = if decide (k = i) then x else mjoin (rows !! k)).
  { intros k Hk. destruct (decide (k = i)) as [->|].
    - by rewrite list_lookup_insert_eq by lia.
    - by rewrite list_lookup_insert_ne by done. }
  destruct x as [x|]; split.
  - apply word_bound; [apply Z.lor_nonneg; lia|]. intros k Hk.
    by rewrite Z.lor_spec, !word_high by done.
  - intros k Hk. rewrite Z.lor_spec, Hb, Hbit, Hget by lia.
    destruct (decide (k = i)) as [->|Hne].
    + rewrite Z.eqb_refl, orb_true_r. done.
    + rewrite (proj2 (Z.eqb_neq _ _)) by lia. by rewrite orb_false_r.
  - apply word_bound; [apply Z.land_nonneg; lia|]. intros k Hk.
    by rewrite Z.land_spec, (word_high occ) by done.
  - intros k Hk. rewrite Z.land_spec, Hb, complement_bits, Hbit, Hget by lia.
    rewrite (proj2 (Z.ltb_lt _ _)) by lia. simpl.
    destruct (decide (k = i)) as [->|Hne].
    + rewrite Z.eqb_refl. simpl. by rewrite andb_false_r.
    + rewrite (proj2 (Z.eqb_neq _ _)) by lia. by rewrite andb_true_r.
Qed.

(** Slots that coincide below a page. *)
Definition same (level : nat) (s slot : Z) : Prop := s mod capacity level = slot mod capacity level.

#[global] Instance same_dec level s slot : Decision (same level s slot).
Proof. unfold same. apply _. Defined.

Lemma same_leaf s slot : same 0 s slot ↔ index s = index slot.
Proof.
  unfold same. change (capacity 0) with 64. rewrite !index_mod.
  pose proof (Z.mod_pos_bound s 64). pose proof (Z.mod_pos_bound slot 64). lia.
Qed.

Lemma same_branch low s slot : same (S low) s slot ↔ branch s low = branch slot low ∧ same low s slot.
Proof.
  unfold same. rewrite capacity_S, !branch_div, (Z.mul_comm 16).
  pose proof (capacity_pos low) as Hc. rewrite !Z.rem_mul_r by lia.
  pose proof (Z.mod_pos_bound s (capacity low) Hc). pose proof (Z.mod_pos_bound slot (capacity low) Hc).
  pose proof (Z.mod_pos_bound (s / capacity low) 16). pose proof (Z.mod_pos_bound (slot / capacity low) 16).
  split; [|intros [E1 E2]; rewrite E2; f_equal; f_equal; lia].
  intros E. assert (s / capacity low mod 16 = slot / capacity low mod 16) by nia. split; [congruence|lia].
Qed.

Lemma same_inside level s slot :
  0 <= s < capacity level → 0 <= slot < capacity level → same level s slot ↔ s = slot.
Proof. intros H1 H2. unfold same. by rewrite !Z.mod_small. Qed.

Lemma child_insert (ch : list (option (node Name Item))) i j c :
  length ch = 16%nat → (i < 16)%nat → child (<[i := c]> ch) j = if decide (j = i) then c else child ch j.
Proof.
  intros Hl Hi. unfold child. destruct (decide (j = i)) as [->|].
  - by rewrite list_lookup_insert_eq by lia.
  - by rewrite list_lookup_insert_ne.
Qed.

(** The row [set] leaves in its slot. *)
Definition written (key : option Name) (old : option (Name * Item)) (r : Item) : option (Name * Item) :=
  match key with Some k => Some (k, r) | None => (λ y, (y.1, r)) <$> old end.

(** A key is passed exactly for a new row. *)
Definition fresh_key (key : option Name) (old : option (Name * Item)) : Prop :=
  is_Some key ↔ old = None.

Lemma set_node_spec level link slot key r :
  wf_link level link → reaches level link slot → 0 <= slot <= u64_max →
  fresh_key key (descend level link slot) →
  let link' := set_node level link slot key r in
  wf_link level link' ∧ used_of link' = used_of link + flag key ∧ reaches level link' slot ∧
  (∀ s, descend level link' s =
     if decide (same level s slot) then written key (descend level link slot) r
     else descend level link s).
Proof.
  revert link. induction level as [|low IH]; intros [[u occ rows|u ch]|] Hwf Hr Hs Hk; simpl in *; try done.
  - destruct Hwf as (Hl & -> & Hb). set (i := index slot) in *.
    assert (Hi : (i < 64)%nat) by apply index_lt.
    destruct (lookup_lt_is_Some_2 rows i) as [old Hold]; [lia|].
    rewrite Hold in Hk. simpl in Hk.
    assert (Hget : ∀ x s, mjoin (<[i:=x]> rows !! index s) =
      if decide (same 0 s slot) then x else mjoin (rows !! index s)).
    { intros x s. destruct (decide (same 0 s slot)) as [E|E].
      - apply same_leaf in E. rewrite E. fold i. by rewrite list_lookup_insert_eq by lia.
      - rewrite list_lookup_insert_ne; [done|]. intros E'. apply E, same_leaf. done. }
    destruct key as [k|]; simpl.
    + assert (old = None) as -> by (by apply Hk). split_and!; try done.
      * by rewrite length_insert.
      * rewrite (tally_insert _ _ _ _ Hold). simpl. lia.
      * exact (bits_insert rows occ i (Some (k, r)) Hl Hi Hb).
    + destruct old as [[k0 r0]|]; [|by destruct Hk as [_ []]].
      assert (Halt : alter (λ x, (λ y : Name * Item, (y.1, r)) <$> x) i rows = <[i := Some (k0, r)]> rows).
      { apply list_eq. intros j. destruct (decide (j = i)) as [->|].
        - rewrite list_lookup_alter_eq, list_lookup_insert_eq, Hold by lia. done.
        - by rewrite list_lookup_alter_ne, list_lookup_insert_ne. }
      rewrite Halt. split_and!; try done.
      * by rewrite length_insert.
      * rewrite (tally_insert _ _ _ _ Hold). simpl. lia.
      * destruct (bits_insert rows occ i (Some (k0, r)) Hl Hi Hb) as [_ Hb'].
        destruct Hb as [Ho Hb]. split; [done|]. intros k Hk'. rewrite Hb by done.
        destruct (decide (k = i)) as [->|]; [by rewrite list_lookup_insert_eq, Hold by lia|].
        by rewrite list_lookup_insert_ne.
      * intros s. rewrite Hget, Hold. done.
  - destruct Hwf as (Hl & Hf & -> & Htop). set (i := branch slot low) in *.
    assert (Hi : (i < 16)%nat) by apply branch_lt.
    destruct (lookup_lt_is_Some_2 ch i) as [c Hc]; [lia|].
    assert (Hch : child ch i = c) by (unfold child; by rewrite Hc). rewrite Hch in *.
    assert (Hcw : wf_link low c) by (by eapply Forall_lookup in Hc).
    destruct (IH c Hcw Hr Hs Hk) as (W & Us & Rc & D). split_and!.
    + by rewrite length_insert.
    + by apply Forall_insert.
    + rewrite (total_insert _ _ _ _ Hc), Us. destruct key; simpl; lia.
    + intros Ht j Hj. rewrite child_insert by done. destruct (decide (j = i)) as [->|]; [|by apply Htop].
      exfalso. specialize (Htop Ht i Hj). rewrite Hch in Htop. subst c.
      destruct low; simpl in Hr; done.
    + destruct key; simpl; lia.
    + rewrite child_insert by done. fold i. by rewrite decide_True.
    + intros s. rewrite child_insert by done. destruct (decide (branch s low = i)) as [E|E].
      * rewrite D, E, Hch. destruct (decide (same low s slot)) as [Es|Es].
        -- rewrite decide_True; [done|]. by apply same_branch.
        -- rewrite decide_False; [done|]. by intros [_ ?]%same_branch.
      * rewrite decide_False; [done|]. by intros [? _]%same_branch.
Qed.

Lemma used_zero level link s : wf_link level link → used_of link = 0 → descend level link s = None.
Proof.
  revert link. induction level as [|low IH]; intros [[u occ rows|u ch]|]; simpl; try done.
  - intros (Hl & -> & _) Hz. destruct (rows !! index s) as [[r|]|] eqn:E; try done. exfalso.
    pose proof (tally_insert rows (index s) None _ E) as Ht. simpl in Ht.
    pose proof (tally_bound (<[index s := None]> rows)). lia.
  - intros (Hl & Hf & -> & _) Hz. apply IH; [by apply child_wf|].
    unfold child. destruct (ch !! branch s low) as [c|] eqn:E; [|done]. simpl.
    pose proof (total_insert ch (branch s low) None c E) as Ht. simpl in Ht.
    assert (Hn : ∀ l, Forall (wf_link low) l → 0 <= total l).
    { intros l Hx. induction Hx as [|x l Hx _ IHx]; simpl; [lia|].
      pose proof (used_nonneg _ _ Hx). lia. }
    pose proof (Hn (<[branch s low := None]> ch) ltac:(apply Forall_insert; [done|by destruct low])).
    pose proof (used_nonneg low c ltac:(by eapply Forall_lookup in E)). lia.
Qed.

Lemma release_spec level n s :
  wf_link level (Some n) →
  wf_link level (release n) ∧ used_of (release n) = used n ∧
  descend level (release n) s = descend level (Some n) s.
Proof.
  intros Hwf. unfold release. destruct (Z.eqb_spec (used n) 0) as [E|]; [|done].
  split_and!; [by destruct level|done|]. rewrite (used_zero level (Some n)); [by destruct level|done|done].
Qed.

Lemma remove_spec level link slot old :
  wf_link level link → descend level link slot = Some old →
  let link' := remove level link slot in
  wf_link level link' ∧ used_of link' = used_of link - 1 ∧
  (∀ s, descend level link' s = if decide (same level s slot) then None else descend level link s).
Proof.
  revert link. induction level as [|low IH]; intros [[u occ rows|u ch]|] Hwf Hd; simpl in *; try done.
  - destruct Hwf as (Hl & -> & Hb). set (i := index slot) in *.
    assert (Hi : (i < 64)%nat) by apply index_lt.
    assert (Hold : rows !! i = Some (Some old)).
    { destruct (rows !! i) as [x|]; [|done]. simpl in Hd. by subst. }
    set (n := Leaf _ _ _).
    assert (Hn : wf_link 0 (Some n)).
    { split_and!; [by rewrite length_insert| |exact (bits_insert rows occ i None Hl Hi Hb)].
      rewrite (tally_insert _ _ _ _ Hold). simpl. lia. }
    split_and!.
    + by apply (release_spec 0 n 0).
    + by rewrite (proj1 (proj2 (release_spec 0 n 0 Hn))).
    + intros s. etrans; [exact (proj2 (proj2 (release_spec 0 n s Hn)))|]. simpl.
      destruct (decide (same 0 s slot)) as [E|E].
      * apply same_leaf in E. rewrite E. fold i. by rewrite list_lookup_insert_eq by lia.
      * rewrite list_lookup_insert_ne; [done|]. intros E'. by apply E, same_leaf.
  - pose proof Hwf as (Hl & Hf & -> & Htop). set (i := branch slot low) in *.
    assert (Hi : (i < 16)%nat) by apply branch_lt.
    destruct (lookup_lt_is_Some_2 ch i) as [c Hc]; [lia|].
    assert (Hch : child ch i = c) by (unfold child; by rewrite Hc). rewrite Hch in *.
    assert (Hcw : wf_link low c) by (by eapply Forall_lookup in Hc).
    destruct (IH c Hcw Hd) as (W & Us & D).
    set (n := Branch _ _).
    assert (Hn : wf_link (S low) (Some n)).
    { split_and!; [by rewrite length_insert|by apply Forall_insert| |].
      - rewrite (total_insert _ _ _ _ Hc), Us. lia.
      - intros Ht j Hj. rewrite child_insert by done. destruct (decide (j = i)) as [->|]; [|by apply Htop].
        exfalso. specialize (Htop Ht i Hj). rewrite Hch in Htop. subst c. by destruct low. }
    split_and!.
    + by apply (release_spec (S low) n 0).
    + by rewrite (proj1 (proj2 (release_spec (S low) n 0 Hn))).
    + intros s. etrans; [exact (proj2 (proj2 (release_spec (S low) n s Hn)))|]. simpl.
      rewrite child_insert by done. destruct (decide (branch s low = i)) as [E|E].
      * rewrite D, E, Hch. destruct (decide (same low s slot)) as [Es|Es].
        -- rewrite decide_True; [done|]. by apply same_branch.
        -- rewrite decide_False; [done|]. by intros [_ ?]%same_branch.
      * rewrite decide_False; [done|]. by intros [? _]%same_branch.
Qed.

(** *** Growing and shrinking at the root *)

(** Slots of the 64-bit domain. *)
Definition is_slot (s : Z) : Prop := 0 <= s <= u64_max.

(** Same records, whatever the shape. *)
Definition keeps p p' : Prop :=
  wf p' ∧ size_of p' = size_of p ∧ ∀ s, is_slot s → find p' s = find p s.

Lemma keeps_refl p : wf p → keeps p p.
Proof. done. Qed.

Lemma keeps_trans p1 p2 p3 : keeps p1 p2 → keeps p2 p3 → keeps p1 p3.
Proof.
  intros (_ & U1 & F1) (W & U2 & F2). split_and!; [done|congruence|].
  intros s Hs. by rewrite F2, F1.
Qed.

(** A root whose only child is the first one. *)
Lemma raise_spec u c rest h :
  wf_link h c → (h < top_level)%nat → u = used_of c → Forall (λ x, x = None) rest →
  length rest = 15%nat →
  wf {| root_ := Some (Branch u (c :: rest)); height_ := S h |} ∧
  ∀ s, is_slot s → find {| root_ := Some (Branch u (c :: rest)); height_ := S h |} s =
                   find {| root_ := c; height_ := h |} s.
Proof.
  intros Hwf Hh -> Hrest Hlen. pose proof (capacity_pos h) as Hc.
  assert (Hother : ∀ i, (0 < i)%nat → child (c :: rest) i = None).
  { intros [|i] Hi; [lia|]. unfold child. simpl. destruct (rest !! i) as [x|] eqn:E; [|done].
    eapply Forall_lookup in E; [|exact Hrest]. exact E. }
  assert (H4 : 4 * capacity 14 = u64_max + 1) by (vm_compute; reflexivity).
  split.
  - split; simpl; [|unfold top_level in *; lia]. split_and!; [lia| | |].
    + constructor; [done|]. eapply Forall_impl; [exact Hrest|]. intros x ->. by destruct h.
    + assert (total rest = 0); [|simpl; lia]. clear Hlen Hother.
      induction Hrest as [|x rest -> Hr IH]; simpl; [done|]. done.
    + intros _ i Hi. apply Hother. lia.
  - intros s Hs. unfold is_slot in Hs. destruct (decide (s < capacity h)) as [Hin|Hout].
    + rewrite (find_inside {| root_ := c; height_ := h |}) by (simpl; lia).
      rewrite find_inside by (simpl; rewrite capacity_S; lia).
      cbn [height_ root_]. pose proof (descend_here h (used_of c) (c :: rest) 0 s ltac:(lia) ltac:(lia)) as E.
      by rewrite Z.mul_0_l, Z.add_0_l in E.
    + assert (Hb : find {| root_ := c; height_ := h |} s = None).
      { unfold find. rewrite (proj2 (beyond_spec {| root_ := c; height_ := h |} s ltac:(lia))); [done|].
        simpl. lia. }
      rewrite Hb. unfold find. destruct (beyond _ s) eqn:Eb; [done|].
      cbn [height_ root_ descend]. rewrite Hother; [by destruct h|]. rewrite branch_div.
      assert (Hup : s / capacity h < 16).
      { apply Z.div_lt_upper_bound; [lia|].
        destruct (decide (S h = top_level)) as [Et|Et].
        - assert (h = 14%nat) as -> by (unfold top_level in Et; lia). lia.
        - destruct (Z.le_gt_cases (capacity (S h)) s) as [Hge|]; [|rewrite capacity_S in *; lia].
          assert (beyond {| root_ := Some (Branch (used_of c) (c :: rest)); height_ := S h |} s = true);
            [|congruence].
          apply beyond_spec; [lia|]. simpl. split; [unfold top_level in *; lia|lia]. }
      assert (1 <= s / capacity h) by (apply Z.div_le_lower_bound; lia).
      rewrite Z.mod_small by lia. lia.
Qed.

Lemma grow_keeps p : wf p → (height_ p < top_level)%nat → keeps p (grow p).
Proof.
  intros [Hwf _] Hlt.
  destruct (raise_spec (used_of (root_ p)) (root_ p) (replicate 15 None) (height_ p)) as [W F]; try done.
  { by apply Forall_replicate. }
Qed.

Lemma shrink_keeps h link :
  wf {| root_ := link; height_ := h |} → keeps {| root_ := link; height_ := h |} (shrink h link).
Proof.
  revert link. induction h as [|low IH]; intros link Hwf; simpl; [by destruct link as [[]|]|].
  destruct link as [[u occ rows|u [|[c|] rest]]|]; try done.
  destruct (_ || _) eqn:E; [done|]. apply orb_false_iff in E as [Eu Er].
  apply negb_false_iff, Z.eqb_eq in Eu.
  pose proof Hwf as [(Hl & Hf & Hut & _) Hh]. simpl in Hh. apply Forall_cons in Hf as [Hc Hf].
  assert (Hrest : Forall (λ x : option (node Name Item), x = None) rest).
  { apply Forall_forall. intros x Hx. destruct x as [x|]; [|done]. exfalso.
    assert (Ht : existsb (λ x : option (node Name Item), bool_decide (is_Some x)) rest = true); [|congruence].
    apply existsb_exists. exists (Some x). split; [by apply list_elem_of_In|done]. }
  destruct (raise_spec u (Some c) rest low) as [W F]; try done.
  { simpl in Hl. lia. }
  eapply keeps_trans; [|apply IH; split; [done|simpl; lia]].
  split_and!; [split; [done|simpl; lia]|done|]. intros s Hs. by rewrite F.
Qed.

(** *** Preparing a path *)

(** The pages above [level] on the way to the slot exist. *)
Fixpoint opened (top level : nat) link (slot : Z) : Prop :=
  match top with
  | O => True
  | S low =>
      if (top =? level)%nat then True
      else
        match link with
        | Some (Branch _ children) => opened low level (child children (branch slot low)) slot
        | _ => False
        end
  end.

(** Two trees of one level with the same rows and the same counters. *)
Definition alike (level : nat) link link' : Prop :=
  wf_link level link' ∧ used_of link' = used_of link ∧
  ∀ s, descend level link' s = descend level link s.

Lemma blank_alike level : alike level None (Some (blank level)).
Proof.
  split_and!.
  - destruct level as [|low].
    + split_and!; [done|done|]. split; [vm_compute; split; congruence|]. intros i Hi. rewrite Z.bits_0.
      rewrite (lookup_replicate_2 64 None i Hi). done.
    + split_and!; [done| |done|].
      * apply Forall_replicate. by destruct low.
      * intros _ i _. unfold child. destruct (replicate 16 None !! i) as [x|] eqn:E; [|done].
        by apply lookup_replicate in E as [-> _].
  - by destruct level.
  - intros s. destruct level as [|low]; cbn [blank descend empty_leaf empty_branch].
    + destruct (replicate 64 None !! index s) as [x|] eqn:E; [|done].
      by apply lookup_replicate in E as [-> _].
    + unfold child. destruct (replicate 16 None !! branch s low) as [x|] eqn:E; [|by destruct low].
      apply lookup_replicate in E as [-> _]. by destruct low.
Qed.

Lemma high_branch slot : is_slot slot → (branch slot 14 < 4)%nat.
Proof.
  intros Hs. rewrite branch_div. unfold is_slot in Hs.
  assert (H4 : 4 * capacity 14 = u64_max + 1) by (vm_compute; reflexivity).
  pose proof (capacity_pos 14). assert (0 <= slot / capacity 14 < 4).
  { split; [apply Z.div_pos; lia|]. apply Z.div_lt_upper_bound; lia. }
  rewrite Z.mod_small by lia. lia.
Qed.

Lemma get_page_wf top level link slot :
  (level <= top)%nat → wf_link top link → opened top level link slot →
  wf_link level (get_page top level link slot).
Proof.
  revert link. induction top as [|low IH]; intros link Hle Hwf Ho; cbn [get_page opened] in *.
  - by replace level with O by lia.
  - destruct (Nat.eqb_spec (S low) level) as [<-|Hne]; [done|].
    destruct link as [[|u ch]|]; [done| |done]. destruct Hwf as (_ & Hf & _).
    apply IH; [lia|by apply child_wf|done].
Qed.

Lemma put_page_spec top level link slot page :
  (level <= top)%nat → is_slot slot → wf_link top link → opened top level link slot →
  alike level (get_page top level link slot) (Some page) →
  alike top link (put_page top level link slot page) ∧
  match level with
  | O => reaches top (put_page top level link slot page) slot
  | S low => opened top low (put_page top level link slot page) slot
  end.
Proof.
  revert link. induction top as [|low IH]; intros link Hle Hs Hwf Ho Ha; cbn [get_page put_page opened] in *.
  - assert (level = O) as -> by lia. split; [done|]. destruct Ha as [W _]. by destruct page.
  - destruct (Nat.eqb_spec (S low) level) as [<-|Hne].
    { split; [done|]. destruct Ha as [W _]. rewrite (proj2 (Nat.eqb_neq (S low) low)) by lia.
      destruct page as [|u ch]; [done|]. destruct low as [|low']; [done|].
      cbn [opened]. by rewrite Nat.eqb_refl. }
    destruct link as [[|u ch]|]; [done| |done]. pose proof Hwf as (Hl & Hf & Hut & Htop).
    set (i := branch slot low) in *. assert (Hi : (i < 16)%nat) by apply branch_lt.
    destruct (lookup_lt_is_Some_2 ch i) as [c Hc]; [lia|].
    assert (Hch : child ch i = c) by (unfold child; by rewrite Hc). rewrite Hch in *.
    assert (Hcw : wf_link low c) by (by eapply Forall_lookup in Hc).
    destruct (IH c ltac:(lia) Hs Hcw Ho Ha) as [(W & Us & D) Hnext].
    set (c' := put_page low level c slot page) in *. split.
    + split_and!; [split_and!| |].
      * by rewrite length_insert.
      * by apply Forall_insert.
      * rewrite (total_insert _ _ _ _ Hc), Us. lia.
      * intros Ht j Hj. rewrite child_insert by done. destruct (decide (j = i)) as [->|]; [|by apply Htop].
        exfalso. assert (low = 14%nat) as -> by (unfold top_level in Ht; lia).
        pose proof (high_branch slot Hs). unfold i in Hj. lia.
      * done.
      * intros s. cbn [descend]. rewrite child_insert by done.
        destruct (decide (branch s low = i)) as [->|]; [by rewrite D, Hch|done].
    + destruct level as [|level'].
      * cbn [reaches]. fold i. rewrite child_insert by done. by rewrite decide_True.
      * cbn [opened]. rewrite (proj2 (Nat.eqb_neq (S low) level')) by lia. fold i.
        rewrite child_insert by done. by rewrite decide_True.
Qed.

Lemma alike_keeps h link link' :
  wf {| root_ := link; height_ := h |} → alike h link link' →
  keeps {| root_ := link; height_ := h |} {| root_ := link'; height_ := h |}.
Proof.
  intros [_ Hh] (W & Us & D). split_and!; [split; [done|done]|done|].
  intros s Hs. unfold find, beyond. cbn [height_ root_]. by rewrite D.
Qed.

Definition reachable p (slot : Z) : Prop :=
  beyond p slot = false ∧ reaches (height_ p) (root_ p) slot.

Section prepare.
Context (exclusive : nat → bool).

Lemma wp_path_loop level slot p p0 :
  is_slot slot → (level <= height_ p)%nat → beyond p slot = false →
  keeps p0 p → opened (height_ p) level (root_ p) slot →
  wp Faulty (path_loop exclusive level slot)
    (λ _ p', keeps p0 p' ∧ reachable p' slot) (λ e p', e = bad_alloc ∧ keeps p0 p') p.
Proof.
  intros Hs. revert p. induction level as [|level IH]; intros p Hle Hb Hk Ho.
  all: cbn [path_loop]; wp_step; wp_step; wp_step.
  all: set (g := get_page (height_ p) _ (root_ p) slot).
  all: pose proof (proj1 Hk) as Hwf; pose proof (wf_root _ Hwf) as Hroot.
  all: pose proof (get_page_wf (height_ p) _ (root_ p) slot Hle Hroot Ho) as Hgw; fold g in Hgw.
  all: match goal with |- wp _ (private_page _ ?l _ _) _ _ _ => set (lv := l) in * end.
  all: assert (Hpriv : ∀ Q : node Name Item → pages Name Item → Prop,
    (∀ page, alike lv g (Some page) → Q page p) →
    wp Faulty (private_page exclusive lv (blank lv) g) Q (λ e p', e = bad_alloc ∧ keeps p0 p') p).
  1, 3: intros Q HQ; unfold private_page; destruct g as [n|].
  1, 3: destruct (exclusive lv); [wp_step; by apply HQ|wp_step; wp_step; [wp_step; by apply HQ|done]].
  1, 2: wp_step; wp_step; [wp_step; apply HQ, blank_alike|done].
  all: apply Hpriv; intros page Ha; wp_step; wp_step.
  all: destruct (put_page_spec (height_ p) lv (root_ p) slot page Hle Hs Hroot Ho Ha) as [Hal Hnext].
  all: set (p' := {| root_ := put_page (height_ p) lv (root_ p) slot page; height_ := height_ p |}).
  all: assert (Hk' : keeps p0 p') by
    (eapply keeps_trans; [exact Hk|]; destruct p; by apply alike_keeps).
  - wp_step. split; [done|]. split; [exact Hb|done].
  - apply IH; [simpl; unfold lv in *; lia|exact Hb|done|done].
Qed.

Lemma wp_grow_loop fuel slot p p0 :
  is_slot slot → keeps p0 p → (top_level < fuel + height_ p)%nat →
  wp Faulty (grow_loop fuel slot)
    (λ _ p', keeps p0 p' ∧ beyond p' slot = false) (λ e p', e = bad_alloc ∧ keeps p0 p') p.
Proof.
  intros Hs. revert p. induction fuel as [|fuel IH]; intros p Hk Hf; cbn [grow_loop].
  { pose proof (wf_height _ (proj1 Hk)). lia. }
  wp_step. wp_step. destruct (beyond p slot) eqn:Eb; [|by wp_step].
  pose proof (proj1 (beyond_spec p slot ltac:(unfold is_slot in Hs; lia)) Eb) as [Hh _].
  wp_step. wp_step; [|done]. wp_step. wp_step.
  apply IH; [|simpl; lia]. eapply keeps_trans; [exact Hk|]. apply grow_keeps; [apply Hk|done].
Qed.

Lemma wp_prepare slot p :
  wf p → is_slot slot →
  wp Faulty (prepare exclusive slot)
    (λ _ p', keeps p p' ∧ reachable p' slot) (λ e p', e = bad_alloc ∧ keeps p p') p.
Proof.
  intros Hwf Hs. unfold prepare. wp_step.
  eapply wp_mono; [apply (wp_grow_loop _ _ p p); [done|done|unfold top_level; lia]| |done].
  intros _ p' [Hk Hb]. wp_step. wp_step.
  apply wp_path_loop; [done|done|done|done|].
  destruct (height_ p') as [|h]; [done|]. cbn [opened]. by rewrite Nat.eqb_refl.
Qed.
End prepare.

(** *** The index as a finite map *)
Lemma inside p slot : wf p → is_slot slot → beyond p slot = false → 0 <= slot < capacity (height_ p).
Proof.
  intros [_ Hh] Hs Hb. unfold is_slot in Hs. split; [lia|].
  destruct (decide (height_ p = top_level)) as [->|].
  - assert (u64_max < capacity top_level) by (vm_compute; reflexivity). lia.
  - destruct (Z.lt_ge_cases slot (capacity (height_ p))) as [|Hge]; [done|].
    rewrite (proj2 (beyond_spec p slot ltac:(lia))) in Hb; [done|]. lia.
Qed.

(** A commit that rewrites the tree below the same root height. *)
Lemma commit_find p p' slot (x : option (Name * Item)) :
  wf p → is_slot slot → beyond p slot = false → height_ p' = height_ p →
  (∀ s, descend (height_ p) (root_ p') s =
        if decide (same (height_ p) s slot) then x else descend (height_ p) (root_ p) s) →
  ∀ s, is_slot s → find p' s = if decide (s = slot) then x else find p s.
Proof.
  intros Hwf Hs Hb Hh Hd s Hss. pose proof (inside p slot Hwf Hs Hb) as Hin.
  unfold find, beyond. rewrite Hh. fold (beyond p s). destruct (beyond p s) eqn:Eb.
  - rewrite decide_False; [done|]. intros ->. congruence.
  - pose proof (inside p s Hwf Hss Eb) as Hins. rewrite Hd.
    destruct (decide (same (height_ p) s slot)) as [E|E].
    + rewrite decide_True; [done|]. by apply same_inside in E.
    + rewrite decide_False; [done|]. intros ->. by apply E.
Qed.

Definition represents p (m : gmap Z (Name * Item)) : Prop :=
  wf p ∧ size_of p = Z.of_nat (size m) ∧ (∀ s, is_slot s → find p s = m !! s) ∧
  (∀ s x, m !! s = Some x → is_slot s).

Inductive change :=
| Put (slot : Z) (key : option Name) (r : Item)
| Erase (slot : Z).

(** How the owners of an index change one slot. *)
Definition commit (exclusive : nat → bool) (c : change) : eff (pages Name Item) unit :=
  match c with
  | Put slot key r => prepare exclusive slot;;; modify (set slot key r)
  | Erase slot => prepare exclusive slot;;; modify (erase slot)
  end.

Definition permitted (c : change) (m : gmap Z (Name * Item)) : Prop :=
  match c with
  | Put slot key _ => is_slot slot ∧ fresh_key key (m !! slot)
  | Erase slot => is_slot slot ∧ is_Some (m !! slot)
  end.

Definition effect (c : change) (m : gmap Z (Name * Item)) : gmap Z (Name * Item) :=
  match c with
  | Put slot key r =>
      match written key (m !! slot) r with Some x => <[slot := x]> m | None => m end
  | Erase slot => delete slot m
  end.

(** [next] returns the lowest slot no record uses, below the sentinel
    [UINT64_MAX]; it throws only when all of them are taken. *)
Theorem next_least p (m : gmap Z (Name * Item)) :
  represents p m →
  match next p with
  | Done slot => 0 <= slot < u64_max ∧ m !! slot = None ∧ ∀ s, 0 <= s < slot → is_Some (m !! s)
  | Thrown e => e = overflow_error ∧ ∀ s, 0 <= s < u64_max → is_Some (m !! s)
  end.
Proof.
  intros (W & _ & F & _). pose proof (next_spec p W) as H.
  assert (F' : ∀ s, 0 <= s < u64_max → m !! s = find p s)
    by (intros s Hs; symmetry; apply F; unfold is_slot; lia).
  destruct (next p) as [slot|e].
  - destruct H as (H1 & H2 & H3). split_and!; [lia|lia|by rewrite F'|].
    intros s Hs. rewrite F' by lia. by apply H3.
  - destruct H as [H1 H2]. split; [done|]. intros s Hs. rewrite F' by done. by apply H2.
Qed.

(** The slot [next] returns is free. *)
Lemma next_free p (m : gmap Z (Name * Item)) slot :
  represents p m → next p = Done slot → is_slot slot ∧ m !! slot = None.
Proof.
  intros (W & _ & F & _) E. pose proof (next_spec p W) as H. rewrite E in H.
  destruct H as (H1 & H2 & _). assert (Hs : is_slot slot) by (unfold is_slot; lia).
  split; [done|]. by rewrite <- F.
Qed.

Lemma next_throws p e : wf p → next p = Thrown e → e = overflow_error.
Proof. intros W E. pose proof (next_spec p W) as H. rewrite E in H. by destruct H. Qed.

Lemma represents_empty : represents empty ∅.
Proof.
  split_and!; [split; [done|unfold top_level; simpl; lia]|done| |].
  - intros sl _. unfold find. by destruct (beyond empty sl).
  - intros sl x. by rewrite lookup_empty.
Qed.

Lemma keeps_represents p p' m : represents p m → keeps p p' → represents p' m.
Proof.
  intros (W & Z1 & F & D) (W' & Z2 & F'). split_and!; [done|congruence| |done].
  intros s Hs. by rewrite F', F.
Qed.

Lemma set_represents p m slot key r :
  represents p m → is_slot slot → fresh_key key (m !! slot) → reachable p slot →
  represents (set slot key r p) (effect (Put slot key r) m).
Proof.
  intros (W & Hz & F & D) Hs Hk [Hb Hr].
  assert (Hfind : descend (height_ p) (root_ p) slot = m !! slot).
  { rewrite <- F by done. unfold find. by rewrite Hb. }
  destruct (set_node_spec (height_ p) (root_ p) slot key r (wf_root _ W) Hr Hs ltac:(by rewrite Hfind))
    as (W' & U & _ & D'). rewrite Hfind in D'.
  assert (Hw : ∃ x, written key (m !! slot) r = Some x).
  { destruct key as [k|]; [by eexists|]. destruct (m !! slot) as [[k0 r0]|] eqn:E; [by eexists|].
    destruct (proj2 Hk eq_refl). done. }
  destruct Hw as [x Hx]. cbn [effect]. rewrite Hx in *. split_and!.
  - split; [done|apply (wf_height _ W)].
  - unfold size_of. cbn [set root_]. rewrite U. change (used_of (root_ p)) with (size_of p). rewrite Hz.
    destruct key as [k|].
    + rewrite map_size_insert_None by (by apply Hk). simpl. lia.
    + destruct (m !! slot) as [y|] eqn:E; [|done]. rewrite map_size_insert_Some by (by rewrite E). simpl. lia.
  - intros s Hss. rewrite (commit_find p (set slot key r p) slot (Some x)) by done.
    destruct (decide (s = slot)) as [->|]; [by rewrite lookup_insert_eq|].
    rewrite lookup_insert_ne by done. by apply F.
  - intros s y. destruct (decide (s = slot)) as [->|]; [done|]. rewrite lookup_insert_ne by done. apply D.
Qed.

Lemma erase_represents p m slot :
  represents p m → is_slot slot → is_Some (m !! slot) → reachable p slot →
  represents (erase slot p) (delete slot m).
Proof.
  intros (W & Hz & F & D) Hs [x Hx] [Hb Hr].
  assert (Hfind : descend (height_ p) (root_ p) slot = Some x).
  { rewrite <- Hx, <- F by done. unfold find. by rewrite Hb. }
  destruct (remove_spec (height_ p) (root_ p) slot x (wf_root _ W) Hfind) as (W' & U & D').
  set (link := remove (height_ p) (root_ p) slot) in *.
  set (q := {| root_ := link; height_ := height_ p |}).
  assert (Hq : represents q (delete slot m)).
  { split_and!.
    - split; [done|apply (wf_height _ W)].
    - unfold size_of. cbn [root_ q]. rewrite U. change (used_of (root_ p)) with (size_of p).
      rewrite Hz, map_size_delete_Some by (by rewrite Hx).
      assert (size m ≠ 0%nat); [|lia]. intros E%map_size_empty_inv. subst m. by rewrite lookup_empty in Hx.
    - intros s Hss. rewrite (commit_find p q slot None) by done.
      destruct (decide (s = slot)) as [->|]; [by rewrite lookup_delete_eq|].
      rewrite lookup_delete_ne by done. by apply F.
    - intros s y. rewrite lookup_delete_Some. intros [_ ?]. by eapply D. }
  apply (keeps_represents q); [done|]. unfold erase. fold link. destruct Hq as [Wq _].
  unfold q in *. clearbody link. destruct link as [n|].
  - by apply shrink_keeps.
  - split_and!; [split; simpl; [done|unfold top_level; lia]|done|].
    intros s _. unfold find. cbn [root_ height_ empty]. unfold beyond. cbn [height_ empty].
    repeat case_match; try done; by destruct (height_ p).
Qed.

(** C16. The index is a finite map.  For every sharing of its pages with live
    views and every allocation failure, preparing a slot and then writing or
    erasing it takes an index that represents a map from slots to rows to one
    that represents the updated map; a failed allocation is reported as
    [std::bad_alloc] and leaves the represented map untouched, however far
    growing or cloning had come.  The counters stay exact throughout. *)
Theorem commit_refines_map (exclusive : nat → bool) (c : change) p (m : gmap Z (Name * Item)) :
  represents p m → permitted c m →
  wp Faulty (commit exclusive c)
    (λ _ p', represents p' (effect c m))
    (λ e p', e = bad_alloc ∧ represents p' m) p.
Proof.
  intros Hrep Hc. destruct c as [slot key r|slot]; destruct Hc as [Hs Hc]; cbn [commit]; wp_step.
  all: eapply wp_mono; [apply wp_prepare; [apply Hrep|done]| |].
  all: try (intros e p' [-> Hk]; split; [done|by eapply keeps_represents]).
  all: intros _ p' [Hk Hreach]; wp_step.
  - apply set_represents; [by eapply keeps_represents|done|done|done].
  - apply erase_represents; [by eapply keeps_represents|done|done|done].
Qed.

(** *** Enumeration in slot order *)
Fixpoint row_entries (base : Z) rows : list (Z * (Name * Item)) :=
  match rows with
  | [] => []
  | Some x :: rows => (base, x) :: row_entries (base + 1) rows
  | None :: rows => row_entries (base + 1) rows
  end.

Fixpoint chain (f : option (node Name Item) → Z → list (Z * (Name * Item))) (step base : Z)
    (cs : list (option (node Name Item))) : list (Z * (Name * Item)) :=
  match cs with
  | [] => []
  | c :: cs => f c base ++ chain f step (base + step) cs
  end.

Fixpoint entries (level : nat) link (base : Z) : list (Z * (Name * Item)) :=
  match link, level with
  | Some (Leaf _ _ rows), O => row_entries base rows
  | Some (Branch _ children), S low => chain (entries low) (capacity low) base children
  | _, _ => []
  end.

Lemma entries_contents level link base : (entries level link base).*2 = contents level link.
Proof.
  revert link base. induction level as [|low IH]; intros [[u occ rows|u ch]|] base; simpl; try done.
  - revert base. induction rows as [|[x|] rows IHr]; intros base; cbn; [done| |done].
    f_equal. apply IHr.
  - revert base. induction ch as [|c ch IHc]; intros base; simpl; [done|].
    by rewrite fmap_app, IH, IHc.
Qed.

Lemma row_entries_spec base rows s x :
  (s, x) ∈ row_entries base rows ↔ base <= s ∧ rows !! Z.to_nat (s - base) = Some (Some x).
Proof.
  revert base. induction rows as [|r rows IH]; intros base; simpl.
  { rewrite elem_of_nil, lookup_nil. naive_solver. }
  assert (Hstep : base + 1 <= s ∧ rows !! Z.to_nat (s - (base + 1)) = Some (Some x) ↔
    base + 1 <= s ∧ (r :: rows) !! Z.to_nat (s - base) = Some (Some x)).
  { split; intros [H1 H2]; (split; [done|]);
      replace (Z.to_nat (s - base)) with (S (Z.to_nat (s - (base + 1)))) in * by lia; done. }
  destruct r as [y|]; [rewrite elem_of_cons|]; rewrite IH, Hstep.
  - split.
    + intros [[= -> ->]|[? ?]]; [by rewrite Z.sub_diag|split; [lia|done]].
    + intros [Hle Hl]. destruct (decide (s = base)) as [->|]; [|right; split; [lia|done]].
      left. rewrite Z.sub_diag in Hl. by simplify_eq/=.
  - split; [intros [? ?]; split; [lia|done]|]. intros [Hle Hl].
    destruct (decide (s = base)) as [->|]; [|split; [lia|done]].
    rewrite Z.sub_diag in Hl. by simplify_eq/=.
Qed.

Lemma entries_spec level link base s x :
  wf_link level link →
  (s, x) ∈ entries level link base ↔
    base <= s < base + capacity level ∧ descend level link (s - base) = Some x.
Proof.
  revert link base. induction level as [|low IH]; intros [[u occ rows|u ch]|] base; simpl; try done.
  - intros (Hl & _). rewrite row_entries_spec. change (capacity 0) with 64. split.
    + intros [Hle Hx]. assert (Hlt : (Z.to_nat (s - base) < 64)%nat) by (rewrite <- Hl; by eapply lookup_lt_Some).
      split; [lia|]. by rewrite index_mod, Z.mod_small, Hx by lia.
    + intros [Hin Hx]. split; [lia|]. rewrite index_mod, Z.mod_small in Hx by lia.
      destruct (rows !! _) as [y|]; [|done]. simpl in Hx. by subst.
  - intros _. rewrite elem_of_nil. naive_solver.
  - intros (Hl & Hf & _). pose proof (capacity_pos low) as Hc.
    assert (Hchain : (s, x) ∈ chain (entries low) (capacity low) base ch ↔
      ∃ i c, ch !! i = Some c ∧ (s, x) ∈ entries low c (base + Z.of_nat i * capacity low)).
    { clear Hl Hf. revert base. induction ch as [|c ch IHc]; intros base; simpl.
      - rewrite elem_of_nil. split; [done|]. intros (i & c & Hi & _). by rewrite lookup_nil in Hi.
      - rewrite elem_of_app, IHc. split.
        + intros [H|(i & c' & Hi & H)].
          * exists O, c. split; [done|]. by rewrite Z.mul_0_l, Z.add_0_r.
          * exists (S i), c'. split; [done|]. by replace (base + Z.of_nat (S i) * capacity low)
              with (base + capacity low + Z.of_nat i * capacity low) by lia.
        + intros ([|i] & c' & Hi & H); simplify_eq/=.
          * left. by rewrite Z.mul_0_l, Z.add_0_r in H.
          * right. exists i, c'. split; [done|]. by replace (base + capacity low + Z.of_nat i * capacity low)
              with (base + Z.of_nat (S i) * capacity low) by lia. }
    rewrite Hchain, capacity_S.
    change (descend low (child ch (branch (s - base) low)) (s - base))
      with (descend (S low) (Some (Branch u ch)) (s - base)). split.
    + intros (i & c & Hi & Hin). assert (Hlt : (i < 16)%nat) by (rewrite <- Hl; by eapply lookup_lt_Some).
      apply IH in Hin as [Hr Hd]; [|by eapply Forall_lookup in Hi]. split; [nia|].
      replace (s - base) with (Z.of_nat i * capacity low + (s - (base + Z.of_nat i * capacity low))) by lia.
      rewrite descend_here by lia. unfold child. by rewrite Hi.
    + intros [Hr Hd]. destruct (slot_split low (s - base) ltac:(lia)) as (i & t & E & Ht).
      assert (Hi : (i < 16)%nat) by nia. rewrite E, descend_here in Hd by done.
      destruct (lookup_lt_is_Some_2 ch i) as [c Hcc]; [lia|]. exists i, c. split; [done|].
      apply IH; [by eapply Forall_lookup in Hcc|]. split; [lia|].
      replace (s - (base + Z.of_nat i * capacity low)) with t by lia.
      unfold child in Hd. by rewrite Hcc in Hd.
  - intros _. rewrite elem_of_nil. naive_solver.
Qed.

Lemma sorted_app_lt (l1 l2 : list (Z * (Name * Item))) bound :
  StronglySorted Z.lt l1.*1 → StronglySorted Z.lt l2.*1 →
  (∀ s x, (s, x) ∈ l1 → s < bound) → (∀ s x, (s, x) ∈ l2 → bound <= s) →
  StronglySorted Z.lt (l1 ++ l2).*1.
Proof.
  intros H1 H2 Hlo Hhi. induction l1 as [|[s x] l1 IH]; simpl in *; [done|].
  apply StronglySorted_inv in H1 as [H1 Hf]. constructor.
  - apply IH; [done|]. intros. eapply Hlo. by right.
  - rewrite fmap_app. apply Forall_app. split; [done|]. apply Forall_forall. intros t Ht.
    apply list_elem_of_fmap in Ht as ([t' y] & -> & Hin). simpl.
    pose proof (Hlo s x ltac:(by left)). pose proof (Hhi t' y Hin). lia.
Qed.

Lemma entries_sorted level link base : wf_link level link → StronglySorted Z.lt (entries level link base).*1.
Proof.
  revert link base. induction level as [|low IH]; intros [[u occ rows|u ch]|] base; simpl; try (by constructor).
  - intros _. revert base. induction rows as [|[x|] rows IHr]; intros base; simpl; [constructor| |apply IHr].
    constructor; [apply IHr|]. apply Forall_forall. intros t Ht.
    apply list_elem_of_fmap in Ht as ([t' y] & -> & Hin). apply row_entries_spec in Hin. simpl. lia.
  - intros (_ & Hf & _). revert base. induction Hf as [|c ch Hc Hf IHc]; intros base; simpl; [constructor|].
    apply (sorted_app_lt _ _ (base + capacity low)); [by apply IH|apply IHc| |].
    + intros s x Hin. apply entries_spec in Hin; [lia|done].
    + clear IHc. generalize (base + capacity low) as b. induction Hf as [|c' ch' Hc' Hf' IHf]; intros b s x; simpl.
      * by intros []%not_elem_of_nil.
      * rewrite elem_of_app. intros [Hin|Hin]; [apply entries_spec in Hin; [lia|done]|].
        apply IHf in Hin. pose proof (capacity_pos low). lia.
Qed.

(** *** Reading a view *)
Section reader.
Context {S : Type}.

(** Offer rows one by one until one is refused; how many were taken. *)
Fixpoint deliver (reader : Name → Item → eff S bool) (l : list (Name * Item)) : eff S Z :=
  match l with
  | [] => ret 0
  | (k, r) :: l =>
      taken <- reader k r;;
      if negb taken then ret 0 else (n <- deliver reader l;; ret (n + 1))
  end.

(** [slice] on the flat list of rows. *)
Fixpoint flat (reader : Name → Item → eff S bool) (l : list (Name * Item)) (c : cursor)
    : eff S (bool * cursor) :=
  match l with
  | [] => ret (true, c)
  | (k, r) :: l =>
      if negb (skip c =? 0) then
        flat reader l {| skip := skip c - 1; remaining := remaining c; consumed := consumed c |}
      else
        taken <- reader k r;;
        if negb taken then ret (false, c)
        else
          let c' := {| skip := skip c; remaining := remaining c - 1; consumed := consumed c + 1 |} in
          if remaining c' =? 0 then ret (false, c') else flat reader l c'
  end.

Context (reader : Name → Item → eff S bool).

Lemma flat_app l1 l2 c s f :
  flat reader (l1 ++ l2) c s f =
  (r <- flat reader l1 c;; if negb r.1 then ret (false, r.2) else flat reader l2 r.2) s f.
Proof.
  revert c s f. induction l1 as [|[k r] l1 IH]; intros c s f; [done|]. cbn [flat app].
  destruct (negb (skip c =? 0)); [apply IH|]. unfold bind in *.
  destruct (reader k r s f) as [[[[]|e] s1] f1]; [|done|done]. cbn [negb].
  destruct (remaining _ =? 0); [done|]. apply IH.
Qed.

Lemma flat_skip l c : Z.of_nat (length l) <= skip c →
  flat reader l c = ret (true, {| skip := skip c - Z.of_nat (length l); remaining := remaining c;
                                  consumed := consumed c |}).
Proof.
  revert c. induction l as [|[k r] l IH]; intros [sk rm cs] Hs; simpl in *.
  { by rewrite Z.sub_0_r. }
  rewrite (proj2 (Z.eqb_neq _ _)) by lia. simpl. rewrite IH by (simpl; lia). simpl.
  do 3 f_equal. lia.
Qed.

Lemma omap_drop_none rows i j :
  (i <= j)%nat → (∀ k, (i <= k < j)%nat → mjoin (rows !! k) = None) →
  omap id (drop i rows) = omap id (drop j rows).
Proof.
  intros Hij Hnone. induction Hij as [|j Hij IH]; [done|].
  rewrite IH by (intros k Hk; apply Hnone; lia).
  destruct (decide (j < length rows)%nat) as [Hj|Hj].
  - destruct (lookup_lt_is_Some_2 rows j Hj) as [r Hr].
    rewrite (drop_S _ r j Hr). specialize (Hnone j ltac:(lia)). rewrite Hr in Hnone. simpl in Hnone. by subst.
  - by rewrite !drop_ge by lia.
Qed.

(** The bit loop visits exactly the occupied rows, in order. *)
Lemma slice_leaf_spec fuel rows occ i c st f :
  length rows = 64%nat → 0 <= occ <= u64_max → (64 <= fuel + i)%nat → (i <= 64)%nat →
  (∀ k, (k < i)%nat → Z.testbit occ (Z.of_nat k) = false) →
  (∀ k, (i <= k < 64)%nat → Z.testbit occ (Z.of_nat k) = bool_decide (is_Some (mjoin (rows !! k)))) →
  slice_leaf reader fuel rows occ c st f = flat reader (omap id (drop i rows)) c st f.
Proof.
  intros Hl. revert occ i c st f. induction fuel as [|fuel IH]; intros occ i c st f Ho Hf Hi Hlow Hbits.
  { rewrite drop_ge by lia. done. }
  cbn [slice_leaf]. destruct (Z.eqb_spec occ 0) as [->|Hne].
  { rewrite (omap_drop_none rows i 64 Hi); [by rewrite drop_ge by lia|].
    intros k Hk. specialize (Hbits k Hk). rewrite Z.bits_0 in Hbits. symmetry in Hbits.
    apply bool_decide_eq_false in Hbits. by apply eq_None_not_Some. }
  destruct (countr_zero_spec occ ltac:(lia)) as (Hj & Hset & Hbelow).
  set (j := countr_zero occ) in *.
  assert (Hij : (i <= j)%nat).
  { destruct (decide (i <= j)%nat); [done|]. rewrite Hlow in Hset by lia. done. }
  assert (Hrow : is_Some (mjoin (rows !! j))).
  { rewrite Hbits in Hset by lia. by apply bool_decide_eq_true in Hset. }
  destruct Hrow as [[k r] Hrow].
  assert (Hlook : rows !! j = Some (Some (k, r))).
  { destruct (rows !! j) as [x|]; [|done]. simpl in Hrow. by subst. }
  rewrite (omap_drop_none rows i j Hij).
  2: { intros k' Hk'. specialize (Hbits k' ltac:(lia)). rewrite Hbelow in Hbits by lia.
       symmetry in Hbits. apply bool_decide_eq_false in Hbits. by apply eq_None_not_Some. }
  rewrite (drop_S _ _ _ Hlook). change (omap id (Some (k, r) :: drop (Datatypes.S j) rows))
    with ((k, r) :: omap id (drop (Datatypes.S j) rows)). cbn [flat].
  assert (Hclear : ∀ n, (n < 64)%nat → Z.testbit (Z.land occ (occ - 1)) (Z.of_nat n) =
    Z.testbit occ (Z.of_nat n) && negb (Z.of_nat n =? Z.of_nat j)).
  { intros n _. destruct occ as [|q|]; [lia| |lia]. apply ctz_clear. lia. }
  assert (IH' : ∀ c' st f, slice_leaf reader fuel rows (Z.land occ (occ - 1)) c' st f =
    flat reader (omap id (drop (Datatypes.S j) rows)) c' st f).
  { intros c' st' f'. apply IH; [|lia|lia| |].
    - apply word_bound; [apply Z.land_nonneg; lia|]. intros n Hn. by rewrite Z.land_spec, word_high.
    - intros n Hn. rewrite Hclear by lia. destruct (decide (n = j)) as [->|].
      + by rewrite Z.eqb_refl, andb_false_r.
      + destruct (decide (n < i)%nat); [by rewrite Hlow by lia|]. by rewrite Hbelow by lia.
    - intros n Hn. rewrite Hclear by lia. rewrite (proj2 (Z.eqb_neq _ _)), andb_true_r by lia.
      apply Hbits. lia. }
  rewrite Hlook. cbn [mjoin option_join]. destruct (negb (skip c =? 0)); [apply IH'|].
  unfold bind. destruct (reader k r st f) as [[[[]|e] st1] f1]; [|done|done]. cbn [negb].
  destruct (remaining _ =? 0); [done|]. apply IH'.
Qed.

Lemma slice_spec level link c st f :
  wf_link level link →
  slice reader level link c st f = flat reader (contents level link) c st f.
Proof.
  revert link c st f. induction level as [|low IH]; intros link c st f Hwf.
  all: destruct link as [n|]; [|done].
  all: pose proof (used_contents _ _ Hwf) as Hu; cbn [used_of] in Hu.
  all: cbn [slice]; destruct (Z.eqb_spec (used n) 0) as [Hz|Hnz].
  1, 3: destruct (contents _ (Some n)) eqn:E; [done|rewrite Hu in Hz; simpl in Hz; lia].
  all: destruct (Z.leb_spec (used n) (skip c)) as [Hle|Hgt].
  1, 3: rewrite flat_skip by (rewrite <- Hu; lia); rewrite Hu; done.
  - destruct n as [u occ rows|]; [|done]. destruct Hwf as (Hl & _ & Ho & Hb).
    cbn [contents]. rewrite <- (drop_0 rows) at 2. apply slice_leaf_spec; [done|done|lia|lia|lia|].
    intros k Hk. apply Hb. lia.
  - destruct n as [|u ch]; [done|]. destruct Hwf as (_ & Hf & _). cbn [contents]. clear Hu Hnz Hgt.
    revert c st f. induction Hf as [|x ch Hx Hf IHf]; intros c st f; [done|].
    cbn [fmap list_fmap concat]. rewrite flat_app. unfold bind. rewrite IH by done.
    destruct (flat reader (contents low x) c st f) as [[[[[] c']|e] st1] f1]; [|done|done].
    cbn [negb fst snd]. apply IHf.
Qed.

Lemma flat_deliver l c st f :
  skip c = 0 → 0 < remaining c →
  (r <- flat reader l c;; ret (consumed r.2)) st f =
  (n <- deliver reader (take (Z.to_nat (remaining c)) l);; ret (consumed c + n)) st f.
Proof.
  revert c st f. induction l as [|[k r] l IH]; intros c st f Hs Hr.
  { rewrite take_nil. unfold bind, ret. simpl. by rewrite Z.add_0_r. }
  replace (Z.to_nat (remaining c)) with (Datatypes.S (Z.to_nat (remaining c - 1))) by lia.
  cbn [flat firstn deliver]. rewrite Hs. cbn [Z.eqb negb].
  unfold bind in *. destruct (reader k r st f) as [[[[]|e] st1] f1]; cbn [negb].
  - cbn [remaining]. destruct (Z.eqb_spec (remaining c - 1) 0) as [E|E].
    + rewrite E. simpl. unfold ret. simpl. by rewrite Z.add_0_l.
    + specialize (IH {| skip := 0; remaining := remaining c - 1; consumed := consumed c + 1 |} st1 f1
        eq_refl ltac:(simpl; lia)). cbn [remaining consumed] in IH.
      destruct (flat reader l _ st1 f1) as [[[[b c']|e] st2] f2];
        destruct (deliver reader _ st1 f1) as [[[n|e'] st3] f3]; cbn [ret] in *; unfold ret in *;
        simplify_eq; try done. do 3 f_equal. simpl in *. lia.
  - unfold ret. cbn. by rewrite Z.add_0_r.
  - done.
Qed.

Lemma flat_drop l c :
  0 <= skip c <= Z.of_nat (length l) →
  flat reader l c =
  flat reader (drop (Z.to_nat (skip c)) l) {| skip := 0; remaining := remaining c; consumed := consumed c |}.
Proof.
  revert c. induction l as [|[k r] l IH]; intros c Hs; simpl in Hs.
  { rewrite drop_nil. destruct c as [sk rm cs]. simpl in *. by replace sk with 0 by lia. }
  destruct (Z.eq_dec (skip c) 0) as [E|E].
  { rewrite E. destruct c as [sk rm cs]. simpl in E. by subst. }
  cbn [flat]. rewrite (proj2 (Z.eqb_neq _ _) E). cbn [negb].
  rewrite IH by (simpl; lia). cbn [skip remaining consumed].
  by replace (Z.to_nat (skip c)) with (Datatypes.S (Z.to_nat (skip c - 1))) by lia.
Qed.

Lemma page_spec p offset maximum st f :
  wf p → 0 <= offset → 0 <= maximum →
  page p offset maximum reader st f =
  if size_of p <? offset then (Thrown out_of_range, st, f)
  else deliver reader
         (take (Z.to_nat maximum) (drop (Z.to_nat offset) (contents (height_ p) (root_ p)))) st f.
Proof.
  intros [Hwf _] Ho Hm. unfold page. destruct (Z.ltb_spec (size_of p) offset) as [|Hle]; [done|].
  destruct (Z.eqb_spec maximum 0) as [->|Hne]; [done|].
  unfold size_of in Hle. rewrite (used_contents _ _ Hwf) in Hle.
  transitivity ((r <- flat reader (contents (height_ p) (root_ p))
    {| skip := offset; remaining := maximum; consumed := 0 |};; ret (consumed r.2)) st f).
  { unfold bind. by rewrite slice_spec. }
  rewrite flat_drop by (simpl; lia). rewrite flat_deliver by (simpl; lia). cbn [remaining consumed skip].
  unfold bind. by destruct (deliver _ _ st f) as [[[n|e] st1] f1].
Qed.
End reader.

(** Hand every row to the reader, in order. *)
Fixpoint offer {S : Type} (reader : Name → Item → eff S unit) (l : list (Name * Item)) : eff S unit :=
  match l with
  | [] => ret tt
  | (k, r) :: l => reader k r;;; offer reader l
  end.

Lemma offer_app {S : Type} (reader : Name → Item → eff S unit) l1 l2 st f :
  offer reader (l1 ++ l2) st f = (offer reader l1;;; offer reader l2) st f.
Proof.
  revert st f. induction l1 as [|[k r] l1 IH]; intros st f; [done|]. simpl. unfold bind in *.
  destruct (reader k r st f) as [[[]] ]; [apply IH|done].
Qed.

Lemma visit_spec {S : Type} (reader : Name → Item → eff S unit) level link st f :
  wf_link level link →
  visit reader level link st f = offer reader (contents level link) st f.
Proof.
  revert link st f. induction level as [|low IH]; intros link st f Hwf.
  all: destruct link as [n|]; [|done].
  all: pose proof (used_contents _ _ Hwf) as Hu; cbn [used_of] in Hu.
  all: cbn [visit]; destruct (Z.eqb_spec (used n) 0) as [Hz|Hnz].
  1, 3: destruct (contents _ (Some n)) eqn:E; [done|rewrite Hu in Hz; simpl in Hz; lia].
  - destruct n as [u occ rows|]; [|done]. cbn [contents]. clear. revert st f.
    induction rows as [|[[k r]|] rows IHr]; intros st f; [done| |apply IHr].
    cbn [visit_rows]. change (omap id (Some (k, r) :: rows)) with ((k, r) :: omap id rows). simpl.
    unfold bind in *. destruct (reader k r st f) as [[[]] ]; [apply IHr|done].
  - destruct n as [|u ch]; [done|]. destruct Hwf as (_ & Hf & _). cbn [contents]. clear Hu Hnz.
    revert st f. induction Hf as [|x ch Hx Hf IHf]; intros st f; [done|].
    cbn [fmap list_fmap concat]. rewrite offer_app. unfold bind. rewrite IH by done.
    destruct (offer reader (contents low x) st f) as [[[]] ]; [apply IHf|done].
Qed.

(** Views enumerate the map in slot order.  For an index representing a
    map there is one list of its bindings, strictly increasing in the slot,
    such that reading a page offers the reader exactly the records from
    [offset] on, at most [maximum] of them and not past the first refusal, and
    returns how many were taken, whatever the reader does to its own state or
    throws; an offset past the end is refused; [each] visits the whole list. *)
Theorem page_enumerates p (m : gmap Z (Name * Item)) :
  represents p m →
  ∃ l, StronglySorted Z.lt l.*1 ∧ (∀ s x, (s, x) ∈ l ↔ m !! s = Some x) ∧
    (∀ S (reader : Name → Item → eff S bool) offset maximum st f,
      0 <= offset → 0 <= maximum →
      page p offset maximum reader st f =
      if Z.of_nat (length l) <? offset then (Thrown out_of_range, st, f)
      else deliver reader (take (Z.to_nat maximum) (drop (Z.to_nat offset) l.*2)) st f) ∧
    (∀ S (reader : Name → Item → eff S unit) st f,
      each reader p st f = offer reader l.*2 st f).
Proof.
  intros (W & Hz & F & D). pose proof (wf_root _ W) as Hr.
  exists (entries (height_ p) (root_ p) 0). split_and!.
  - by apply entries_sorted.
  - intros s x. rewrite entries_spec by done. rewrite Z.add_0_l, Z.sub_0_r. split.
    + intros [Hin Hd]. assert (Hs : is_slot s).
      { unfold is_slot. destruct (decide (height_ p = top_level)) as [Ht|Hn].
        - rewrite Ht in *. destruct (root_ p) as [[|u ch]|]; [done| |done].
          destruct Hr as (_ & _ & _ & Htop). split; [lia|].
          destruct (Z.le_gt_cases s u64_max) as [|Hgt]; [done|]. exfalso.
          change top_level with (Datatypes.S 14) in Hd, Htop. cbn [descend] in Hd.
          rewrite (Htop eq_refl) in Hd; [done|].
          assert (H4 : 4 * capacity 14 = u64_max + 1) by (vm_compute; reflexivity).
          pose proof (capacity_pos 14). rewrite branch_div.
          change (capacity top_level) with (capacity (Datatypes.S 14)) in Hin. rewrite capacity_S in Hin.
          assert (4 <= s / capacity 14 < 16).
          { split; [apply Z.div_le_lower_bound; lia|]. apply Z.div_lt_upper_bound; lia. }
          rewrite Z.mod_small by lia. lia.
        - pose proof (wf_height _ W). assert (capacity (height_ p) <= capacity 14) by
            (apply capacity_mono; unfold top_level in *; lia).
          assert (capacity 14 < u64_max) by (vm_compute; reflexivity). lia. }
      rewrite <- F by done. rewrite find_inside by done. done.
    + intros Hx. pose proof (D s x Hx) as Hs. rewrite <- F in Hx by done.
      unfold find in Hx. destruct (beyond p s) eqn:Eb; [done|]. split; [by apply inside|done].
  - intros S reader offset maximum st f Ho Hm. rewrite page_spec, entries_contents by done.
    assert (Z.of_nat (length (entries (height_ p) (root_ p) 0)) = size_of p) as ->; [|done].
    unfold size_of. rewrite (used_contents _ _ Hr), <- (entries_contents _ _ 0). by rewrite length_fmap.
  - intros S reader st f. unfold each. by rewrite visit_spec, entries_contents.
Qed.
End wf.

(** ** A concrete index *)
Module Sample.

Definition all_shared : nat → bool := λ _, false.
Definition index0 : pages nat nat := empty.

(** Slot 70 lies beyond the first leaf, so the tree grows by one level. *)
Definition prepared : pages nat nat := (prepare all_shared 70 index0 []).1.2.
Definition index1 : pages nat nat := set 70 (Some 7%nat) 11%nat prepared.

Example grown : height_ index1 = 1%nat ∧ find index1 70 = Some (7%nat, 11%nat) ∧ next index1 = Done 0.
Proof. vm_compute. done. Qed.

(** Two rows in two leaves; erasing the far one lowers the root again. *)
Example lowered :
  match commit all_shared (Put 3 (Some 4%nat) 5%nat) index1 [] with
  | (Done _, p, _) =>
      match commit all_shared (Erase 70) p [] with
      | (Done _, q, _) => height_ q = 0%nat ∧ find q 3 = Some (4%nat, 5%nat) ∧ next q = Done 0
      | _ => False
      end
  | _ => False
  end.
Proof. vm_compute. done. Qed.

Lemma index0_represents : represents index0 ∅.
Proof. apply represents_empty. Qed.

Lemma slot70 : is_slot 70.
Proof. vm_compute. split; congruence. Qed.

Lemma index1_represents : represents index1 {[70 := (7%nat, 11%nat)]}.
Proof.
  pose proof (wp_prepare all_shared 70 index0 (proj1 index0_represents) slot70 [] I) as H.
  change (prepare all_shared 70 index0 []) with (Done tt, prepared, @nil bool) in H.
  destruct H as (_ & Hk & Hr).
  apply (set_represents prepared ∅ 70 (Some 7%nat) 11%nat); [|exact slot70|split; by eauto|exact Hr].
  by eapply keeps_represents; [exact index0_represents|].
Qed.

Lemma next_least_witness :
  0 <= 0 < u64_max ∧ ({[70 := (7%nat, 11%nat)]} : gmap Z (nat * nat)) !! 0 = None ∧
  ∀ s, 0 <= s < 0 → is_Some (({[70 := (7%nat, 11%nat)]} : gmap Z (nat * nat)) !! s).
Proof. exact (next_least index1 {[70 := (7%nat, 11%nat)]} index1_represents). Defined.

Lemma commit_refines_map_witness :
  wp Faulty (commit all_shared (Erase 70))
    (λ _ p', represents p' (delete 70 {[70 := (7%nat, 11%nat)]}))
    (λ e p', e = bad_alloc ∧ represents p' {[70 := (7%nat, 11%nat)]}) index1.
Proof.
  apply (commit_refines_map all_shared (Erase 70) index1 {[70 := (7%nat, 11%nat)]}).
  - exact index1_represents.
  - split; [exact slot70|]. exists (7%nat, 11%nat). vm_compute. reflexivity.
Defined.

Lemma page_enumerates_witness :
  ∃ l : list (Z * (nat * nat)), StronglySorted Z.lt l.*1 ∧
    (∀ s x, (s, x) ∈ l ↔ ({[70 := (7%nat, 11%nat)]} : gmap Z (nat * nat)) !! s = Some x).
Proof.
  destruct (page_enumerates index1 {[70 := (7%nat, 11%nat)]} index1_represents) as (l & H1 & H2 & _).
  exists l. split; [exact H1|exact H2].
Defined.

End Sample.
