(* ===== verification/Almanac.v ===== *)
(** Replicas of durable configuration scopes: [astra/star/src/almanac.hpp] and
    [astra/star/src/almanac.cpp].

    An [Almanac] holds one scope as installed from the authority: a point-lookup
    map, the paged index of [Pages.v] for views, the authoritative version and
    a bounded history of consecutive changes.  Whole baselines are built in a
    private [Draft] and swapped in by [reset]; single changes must arrive in
    exact version order through [apply].  Every operation runs under one lock,
    so an operation is one transition; a captured [View] is the index value at
    that moment. *)
From stdpp Require Import base numbers strings gmap sorting list.
From S2P Require Import Prelude Pages.

Inductive Error := input | capacity | duplicate | version_error | unready | history_error.

Record Limits := { records : Z; bytes : Z; history : Z; backlog : Z }.

(** The default member initialisers. *)
Definition default_limits : Limits :=
  {| records := 65536; bytes := 64 * 1024 * 1024; history := 1000; backlog := 8 * 1024 * 1024 |}.

(** [Almanac::Change]; an empty value is a deletion. *)
Record Change := { change_key : string; change_value : Value; change_version : Z }.

(** [State::Entry]; the map key is the entry's own key. *)
Record Entry := { value : Value; slot : Z }.

(** [Almanac::State]. *)
Record State := {
  entries : gmap string Entry;
  index : Index;
  version : Z;
  total_bytes : Z
}.

Definition new_state (v : Z) : State :=
  {| entries := ∅; index := Pages.empty; version := v; total_bytes := 0 |}.

(** The members of [Almanac]. *)
Record Almanac := {
  limits_ : Limits;
  state_ : State;
  ready_ : bool;
  history_ : list Change;
  history_bytes_ : Z
}.

Definition make (l : Limits) : Almanac :=
  {| limits_ := l; state_ := new_state 0; ready_ := false; history_ := []; history_bytes_ := 0 |}.

(** [Almanac::Draft]: a moved-from draft has no state. *)
Record Draft := { draft_state : option State; draft_limits : Limits }.

Definition key_size (k : string) : Z := Z.of_nat (String.length k).
Definition value_size (v : Value) : Z :=
  match v with Some b => buffer_size b | None => 0 end.

(** [sizeof(Change)]: two shared pointers and a 64-bit version. *)
Definition sizeof_change : Z := 40.
Definition change_bytes (c : Change) : Z :=
  sizeof_change + key_size (change_key c) + value_size (change_value c).

Definition has_nul (k : string) : bool :=
  existsb (λ c, Ascii.eqb c Ascii.zero) (String.list_ascii_of_string k).

Definition valid (k : string) (v : Value) : bool :=
  negb (key_size k =? 0) && (key_size k <=? 1024) && negb (has_nul k)
  && match v with Some b => buffer_size b <=? 1024 * 1024 | None => true end.

Definition cell (v : Value) : Cell := {| cell_value := v; cell_deadline := None |}.

Definition set_entries (es : gmap string Entry) (s : State) : State :=
  {| entries := es; index := index s; version := version s; total_bytes := total_bytes s |}.
Definition set_index (i : Index) (s : State) : State :=
  {| entries := entries s; index := i; version := version s; total_bytes := total_bytes s |}.
Definition set_bytes (b : Z) (s : State) : State :=
  {| entries := entries s; index := index s; version := version s; total_bytes := b |}.

Section operations.
(** Which pages no live view shares; see [Pages.v]. *)
Context (exclusive : nat → bool).

(** [Almanac::prepare]. *)
Definition prepare (v : Z) (a : Almanac) : Draft :=
  {| draft_state := Some (new_state v); draft_limits := limits_ a |}.

(** The part of [Draft::set] that works on the private state. *)
Definition draft_insert (k : string) (b : Buffer) : eff State unit :=
  alloc;;;
  alloc;;;
  s <- read;;
  new_slot <- lift (next (index s));;
  alloc;;;
  modify (λ s, set_entries (<[k := {| value := Some b; slot := new_slot |}]> (entries s)) s);;;
  on_throw (zoom index set_index (Pages.prepare exclusive new_slot))
    (modify (λ s, set_entries (delete k (entries s)) s));;;
  modify (λ s, set_index (Pages.set new_slot (Some k) (cell (Some b)) (index s)) s);;;
  modify (λ s, set_bytes (total_bytes s + (key_size k + buffer_size b)) s).

(** [Draft::set]; [None] is success. *)
Definition draft_set (k : string) (b : Buffer) : eff Draft (option Error) :=
  d <- read;;
  match draft_state d with
  | None => ret (Some input)
  | Some s =>
      if negb (valid k (Some b)) then ret (Some input)
      else if version s =? 0 then ret (Some version_error)
      else if bool_decide (is_Some (entries s !! k)) then ret (Some duplicate)
      else if (records (draft_limits d) <=? Z.of_nat (size (entries s)))
              || (wrap64 (bytes (draft_limits d) - total_bytes s) <? key_size k + buffer_size b)
      then ret (Some capacity)
      else
        zoom (λ d, default s (draft_state d))
          (λ s d, {| draft_state := Some s; draft_limits := draft_limits d |})
          (draft_insert k b);;;
        ret None
  end.

(** [Almanac::reset]: on success the draft is left empty. *)
Definition reset : eff (Almanac * Draft) (expected bool Error) :=
  p <- read;;
  let '(a, d) := p in
  match draft_state d with
  | None => ret (Unexpected input)
  | Some s =>
      if (records (limits_ a) <? Z.of_nat (size (entries s))) || (bytes (limits_ a) <? total_bytes s)
      then ret (Unexpected capacity)
      else if ready_ a && (version s <? version (state_ a)) then ret (Unexpected version_error)
      else if ready_ a && (version s =? version (state_ a)) then ret (Expected false)
      else
        modify (λ _, ({| limits_ := limits_ a; state_ := s; ready_ := true; history_ := [];
                         history_bytes_ := 0 |},
                      {| draft_state := None; draft_limits := draft_limits d |}));;;
        ret (Expected true)
  end.

Definition set_state (s : State) (a : Almanac) : Almanac :=
  {| limits_ := limits_ a; state_ := s; ready_ := ready_ a; history_ := history_ a;
     history_bytes_ := history_bytes_ a |}.
Definition set_history (h : list Change) (n : Z) (a : Almanac) : Almanac :=
  {| limits_ := limits_ a; state_ := state_ a; ready_ := ready_ a; history_ := h;
     history_bytes_ := n |}.

(** The loop of [apply] that counts the history prefix to evict; the new change
    is the last one that can go, so its position bounds the loop. *)
Fixpoint evict (fuel : nat) (h : list Change) (cost limit budget : Z) (retained backlog : Z)
    (evicted : nat) : nat * Z :=
  match fuel with
  | O => (evicted, backlog)
  | S fuel =>
      if (limit <? retained) || (budget <? backlog) then
        let gone := match h !! evicted with Some c => change_bytes c | None => cost end in
        evict fuel h cost limit budget (retained - 1) (backlog - gone) (S evicted)
      else (evicted, backlog)
  end.

(** [try] body and [catch] of [apply]: prepare the page path, then enqueue the
    change; on failure withdraw the entry just added. *)
Definition apply_stage (c : Change) (target : option Z) (inserted : bool) : eff Almanac unit :=
  on_throw
    (match target with
     | Some sl => zoom (λ a, index (state_ a)) (λ i a, set_state (set_index i (state_ a)) a)
                    (Pages.prepare exclusive sl)
     | None => ret tt
     end;;;
     alloc;;;
     modify (λ a, set_history (history_ a ++ [c]) (history_bytes_ a) a))
    (if inserted
     then modify (λ a, set_state (set_entries (delete (change_key c) (entries (state_ a))) (state_ a)) a)
     else ret tt).

(** The publication part of [apply], after the last operation that can fail. *)
Definition apply_commit (c : Change) (target : option Z) (inserted : bool) (new_bytes new_backlog : Z)
    (evicted : nat) (a : Almanac) : Almanac :=
  let s := state_ a in
  let s1 :=
    match target, change_value c with
    | None, _ => s
    | Some sl, Some b =>
        set_index (Pages.set sl (if inserted then Some (change_key c) else None)
                     (cell (Some b)) (index s))
          (set_entries (<[change_key c := {| value := Some b; slot := sl |}]> (entries s)) s)
    | Some sl, None =>
        set_index (Pages.erase sl (index s)) (set_entries (delete (change_key c) (entries s)) s)
    end in
  {| limits_ := limits_ a;
     state_ := {| entries := entries s1; index := index s1; version := change_version c;
                  total_bytes := new_bytes |};
     ready_ := ready_ a; history_ := drop evicted (history_ a); history_bytes_ := new_backlog |}.

(** [Almanac::apply]; the second component is what [committed] receives. *)
Definition apply (v : Z) (k : string) (val : Value) (retention : Z)
    : eff Almanac (expected bool Error * option Change) :=
  if negb (valid k val) then ret (Unexpected input, None)
  else if v =? 0 then ret (Unexpected version_error, None)
  else
    (match val with Some _ => alloc | None => ret tt end);;;
    a <- read;;
    let s := state_ a in
    let c := {| change_key := k; change_value := val; change_version := v |} in
    if negb (ready_ a) then ret (Unexpected unready, None)
    else if v <=? version s then ret (Expected false, None)
    else if (version s =? u64_max) || negb (v =? version s + 1)
    then ret (Unexpected version_error, None)
    else
      let entry := entries s !! k in
      (match entry with Some _ => ret tt | None => alloc end);;;
      let without := match entry with
                     | Some e => total_bytes s - (key_size k + value_size (value e))
                     | None => total_bytes s
                     end in
      let added := key_size k + value_size val in
      if match val with
         | Some _ => (bool_decide (entry = None) && (records (limits_ a) <=? Z.of_nat (size (entries s))))
                     || (wrap64 (bytes (limits_ a) - without) <? added)
         | None => false
         end
      then ret (Unexpected capacity, None)
      else
        let new_bytes := match val with Some _ => without + added | None => without end in
        let cost := change_bytes c in
        let count := Z.of_nat (length (history_ a)) in
        if (u64_max - history_bytes_ a <? cost) || (count =? u64_max)
        then ret (Unexpected capacity, None)
        else
          let '(evicted, new_backlog) :=
            evict (S (length (history_ a))) (history_ a) cost (history (limits_ a))
              (Z.min (backlog (limits_ a)) retention) (count + 1) (history_bytes_ a + cost) 0 in
          (if (0 <? evicted)%nat then alloc else ret tt);;;
          staged <-
            (match val, entry with
             | Some _, None =>
                 new_slot <- lift (next (index s));;
                 alloc;;;
                 modify (λ a, set_state (set_entries
                   (<[k := {| value := None; slot := new_slot |}]> (entries (state_ a))) (state_ a)) a);;;
                 ret (Some new_slot, true)
             | _, Some e => ret (Some (slot e), false)
             | None, None => ret (None, false)
             end);;
          let '(target, inserted) := staged in
          apply_stage c target inserted;;;
          modify (apply_commit c target inserted new_bytes new_backlog evicted);;;
          ret (Expected true, Some c).
End operations.

(** [Almanac::View]: the captured index with its version, size and bytes. *)
Record View := { root : Index; view_version : Z; view_size : Z; view_bytes : Z }.

Definition view (a : Almanac) : expected View Error :=
  if negb (ready_ a) then Unexpected unready
  else Expected {| root := index (state_ a); view_version := version (state_ a);
                   view_size := size_of (index (state_ a)); view_bytes := total_bytes (state_ a) |}.

(** [Almanac::find]: version and value, empty when the key is absent. *)
Definition find (k : string) (a : Almanac) : expected (Z * Value) Error :=
  if negb (valid k None) then Unexpected input
  else if negb (ready_ a) then Unexpected unready
  else Expected (version (state_ a),
                 match entries (state_ a) !! k with Some e => value e | None => None end).

(** [std::ranges::upper_bound] on the version-ordered history. *)
Fixpoint upper_bound (since : Z) (h : list Change) : list Change :=
  match h with
  | [] => []
  | c :: rest => if since <? change_version c then h else upper_bound since rest
  end.

Definition replay (since : Z) (a : Almanac) : expected (Z * list Change) Error :=
  let s := state_ a in
  if negb (ready_ a) then Unexpected unready
  else if version s <? since then Unexpected version_error
  else if since =? version s then Expected (version s, [])
  else
    match history_ a with
    | [] => Unexpected history_error
    | first :: _ =>
        if since <? change_version first - 1 then Unexpected history_error
        else Expected (version s, upper_bound since (history_ a))
    end.

(** [Almanac::usage]. *)
Definition usage (a : Almanac) : Z * Z * option Z :=
  (total_bytes (state_ a), history_bytes_ a,
   if ready_ a then Some (version (state_ a)) else None).

(** ** What a scope holds *)
Definition contents (s : State) : gmap string Buffer := omap value (entries s).

Definition weight (m : gmap string Buffer) : Z :=
  map_fold (λ k b acc, key_size k + buffer_size b + acc) 0 m.

Definition total (h : list Change) : Z := foldr (λ c acc, change_bytes c + acc) 0 h.

Definition apply_change (m : gmap string Buffer) (c : Change) : gmap string Buffer :=
  match change_value c with
  | Some b => <[change_key c := b]> m
  | None => delete (change_key c) m
  end.

(** The lookup map and the index agree, slot by slot. *)
Definition linked (es : gmap string Entry) (m : gmap Z (string * Cell)) : Prop :=
  (∀ k e, es !! k = Some e → ∃ b, value e = Some b ∧ m !! slot e = Some (k, cell (Some b))) ∧
  (∀ sl k c, m !! sl = Some (k, c) → ∃ e, es !! k = Some e ∧ slot e = sl).

Record state_ok (s : State) : Prop := {
  so_index : ∃ m, represents (index s) m ∧ linked (entries s) m;
  so_bytes : total_bytes s = weight (contents s);
  so_version : is_u64 (version s)
}.

(** Consecutive versions ending at [v]. *)
Definition consecutive (h : list Change) (v : Z) : Prop :=
  ∀ i c, h !! i = Some c → change_version c = v - Z.of_nat (length h) + 1 + Z.of_nat i.

Record limits_ok (l : Limits) : Prop := {
  lo_records : is_u64 (records l);
  lo_bytes : is_u64 (bytes l);
  lo_history : is_u64 (history l);
  lo_backlog : is_u64 (backlog l)
}.

Record ok (a : Almanac) : Prop := {
  ok_limits : limits_ok (limits_ a);
  ok_state : state_ok (state_ a);
  ok_room : total_bytes (state_ a) <= bytes (limits_ a);
  ok_count : Z.of_nat (size (contents (state_ a))) <= records (limits_ a);
  ok_history : consecutive (history_ a) (version (state_ a));
  ok_total : history_bytes_ a = total (history_ a);
  ok_length : Z.of_nat (length (history_ a)) <= history (limits_ a);
  ok_backlog : history_bytes_ a <= backlog (limits_ a)
}.

(** Nothing a reader can observe has changed; page sharing may have. *)
Record still (a a' : Almanac) : Prop := {
  still_ok : ok a';
  still_contents : contents (state_ a') = contents (state_ a);
  still_version : version (state_ a') = version (state_ a);
  still_ready : ready_ a' = ready_ a;
  still_history : history_ a' = history_ a;
  still_limits : limits_ a' = limits_ a
}.

Lemma still_refl a : ok a → still a a.
Proof. by split. Qed.

(** ** Weights *)
Lemma weight_comm (j1 j2 : string) (z1 z2 : Buffer) (y : Z) :
  key_size j1 + buffer_size z1 + (key_size j2 + buffer_size z2 + y) =
  key_size j2 + buffer_size z2 + (key_size j1 + buffer_size z1 + y).
Proof. lia. Qed.

Lemma weight_insert m k b : m !! k = None →
  weight (<[k := b]> m) = key_size k + buffer_size b + weight m.
Proof.
  intros Hk. unfold weight. rewrite map_fold_insert_L; [done| |done].
  intros. apply weight_comm.
Qed.

Lemma weight_delete m k b : m !! k = Some b →
  weight (delete k m) = weight m - (key_size k + buffer_size b).
Proof.
  intros Hk. rewrite <- (insert_delete_id m k b Hk) at 2.
  rewrite weight_insert by apply lookup_delete_eq. lia.
Qed.

Lemma weight_nonneg m : 0 <= weight m.
Proof.
  induction m as [|k b m Hk IH] using map_ind; [done|].
  rewrite weight_insert by done. unfold key_size, buffer_size. lia.
Qed.

Lemma total_app h1 h2 : total (h1 ++ h2) = total h1 + total h2.
Proof. induction h1; simpl; lia. Qed.

Lemma change_bytes_pos c : 0 < change_bytes c.
Proof.
  unfold change_bytes, sizeof_change, key_size, value_size, buffer_size.
  destruct (change_value c); lia.
Qed.

Lemma total_nonneg h : 0 <= total h.
Proof. induction h as [|c h IH]; simpl; [done|]. pose proof (change_bytes_pos c). lia. Qed.

(** The eviction loop keeps the longest suffix within both limits. *)
Lemma evict_spec fuel h c limit budget n :
  0 <= limit → 0 <= budget → (n + fuel = S (length h))%nat →
  let full := h ++ [c] in
  let r := evict fuel h (change_bytes c) limit budget
             (Z.of_nat (length full) - Z.of_nat n) (total (drop n full)) n in
  (r.1 <= length full)%nat ∧ r.2 = total (drop r.1 full) ∧
  Z.of_nat (length (drop r.1 full)) <= limit ∧ r.2 <= budget.
Proof.
  intros Hl Hb. revert n. induction fuel as [|fuel IH]; intros n Hn full; cbn [evict].
  { assert (n = length full) as -> by (unfold full; rewrite length_app; simpl; lia).
    cbv zeta. cbn [fst snd]. rewrite drop_all. simpl. split_and!; lia. }
  assert (Hlen : length full = S (length h)) by (unfold full; rewrite length_app; simpl; lia).
  destruct (_ || _) eqn:E.
  - destruct (lookup_lt_is_Some_2 full n) as [x Hx]; [lia|].
    assert (Hgone : match h !! n with Some c => change_bytes c | None => change_bytes c end = change_bytes x).
    { unfold full in Hx. destruct (decide (n < length h)%nat).
      - rewrite lookup_app_l in Hx by done. by rewrite Hx.
      - rewrite lookup_app_r in Hx by lia. rewrite lookup_ge_None_2 by lia.
        replace (n - length h)%nat with O in Hx by lia. by simplify_eq/=. }
    rewrite Hgone, (drop_S _ _ _ Hx). cbn [total foldr].
    replace (change_bytes x + foldr (λ c acc, change_bytes c + acc) 0 (drop (S n) full) - change_bytes x)
      with (total (drop (S n) full)) by (unfold total; lia).
    replace (Z.of_nat (length full) - Z.of_nat n - 1) with (Z.of_nat (length full) - Z.of_nat (S n)) by lia.
    apply IH. lia.
  - apply orb_false_iff in E as [E1%Z.ltb_ge E2%Z.ltb_ge]. cbn [fst snd].
    split_and!; [lia|done|rewrite length_drop; lia|done].
Qed.

(** ** Entries and slots *)
Lemma contents_lookup s k : contents s !! k = entries s !! k ≫= value.
Proof. unfold contents. apply lookup_omap. Qed.

Lemma linked_values es m k e : linked es m → es !! k = Some e → is_Some (value e).
Proof. intros [H _] Hk. destruct (H k e Hk) as (b & Hb & _). by exists b. Qed.

Lemma linked_size s m : linked (entries s) m → size (contents s) = size (entries s).
Proof.
  intros H. unfold contents. rewrite <- (size_dom (D := gset string) (omap value (entries s))).
  rewrite <- (size_dom (D := gset string) (entries s)). f_equal. apply set_eq. intros k.
  rewrite !elem_of_dom, lookup_omap. split.
  - intros [b Hb]. destruct (entries s !! k); [by eexists|done].
  - intros [e He]. rewrite He. simpl. by eapply linked_values.
Qed.

Lemma linked_write es m k b sl :
  linked es m → (es !! k = None → m !! sl = None) → (∀ e, es !! k = Some e → slot e = sl) →
  linked (<[k := {| value := Some b; slot := sl |}]> es) (<[sl := (k, cell (Some b))]> m).
Proof.
  intros [H1 H2] Hn Hs. split.
  - intros k' e'. destruct (decide (k' = k)) as [->|Hne].
    + rewrite lookup_insert_eq. intros [= <-]. exists b. by rewrite lookup_insert_eq.
    + rewrite lookup_insert_ne by done. intros He. destruct (H1 _ _ He) as (b' & Hb' & Hm).
      exists b'. split; [done|]. rewrite lookup_insert_ne; [done|]. intros ->.
      destruct (es !! k) as [e|] eqn:Ek.
      * destruct (H1 k e Ek) as (b'' & _ & Hm'). rewrite (Hs e eq_refl) in Hm'. congruence.
      * rewrite Hn in Hm by done. done.
  - intros sl' k' c'. destruct (decide (sl' = sl)) as [->|Hne].
    + rewrite lookup_insert_eq. intros [= <- <-]. eexists. by rewrite lookup_insert_eq.
    + rewrite lookup_insert_ne by done. intros Hm. destruct (H2 _ _ _ Hm) as (e & He & Hsl).
      exists e. split; [|done]. rewrite lookup_insert_ne; [done|]. intros ->. apply Hne.
      rewrite <- Hsl. by apply Hs.
Qed.

Lemma linked_delete es m k e :
  linked es m → es !! k = Some e → linked (delete k es) (delete (slot e) m).
Proof.
  intros [H1 H2] Hk. destruct (H1 k e Hk) as (b & Hb & Hm). split.
  - intros k' e' [Hne He]%lookup_delete_Some. destruct (H1 _ _ He) as (b' & Hb' & Hm').
    exists b'. split; [done|]. rewrite lookup_delete_ne; [done|]. intros E. rewrite E in Hm. congruence.
  - intros sl' k' c' [Hne Hm']%lookup_delete_Some. destruct (H2 _ _ _ Hm') as (e' & He' & Hsl).
    exists e'. split; [|done]. apply lookup_delete_Some. split; [|done]. intros <-. congruence.
Qed.

(** ** [apply] step by step *)
Section applying.
Context (exclusive : nat → bool).

(** Fields the staging steps leave alone. *)
Definition framed (a a' : Almanac) : Prop :=
  limits_ a' = limits_ a ∧ ready_ a' = ready_ a ∧ history_bytes_ a' = history_bytes_ a ∧
  version (state_ a') = version (state_ a) ∧ total_bytes (state_ a') = total_bytes (state_ a) ∧
  keeps (index (state_ a)) (index (state_ a')).

Lemma wp_apply_stage a c target inserted :
  wf (index (state_ a)) → (∀ sl, target = Some sl → is_slot sl) →
  wp Faulty (apply_stage exclusive c target inserted)
    (λ _ a', framed a a' ∧ entries (state_ a') = entries (state_ a) ∧
             history_ a' = history_ a ++ [c] ∧
             (∀ sl, target = Some sl → reachable (index (state_ a')) sl))
    (λ e a', e = bad_alloc ∧ framed a a' ∧ history_ a' = history_ a ∧
             entries (state_ a') = if inserted then delete (change_key c) (entries (state_ a))
                                   else entries (state_ a)) a.
Proof.
  intros Hwf Hsl. unfold apply_stage. wp_step.
  assert (Hcatch : ∀ (e : exn) a1, e = bad_alloc → framed a a1 → history_ a1 = history_ a →
    entries (state_ a1) = entries (state_ a) →
    wp Faulty (if inserted
      then modify (λ a, set_state (set_entries (delete (change_key c) (entries (state_ a))) (state_ a)) a)
      else ret tt)
      (λ _ a', e = bad_alloc ∧ framed a a' ∧ history_ a' = history_ a ∧
             entries (state_ a') = if inserted then delete (change_key c) (entries (state_ a))
                                   else entries (state_ a))
      (λ e a', e = bad_alloc ∧ framed a a' ∧ history_ a' = history_ a ∧
             entries (state_ a') = if inserted then delete (change_key c) (entries (state_ a))
                                   else entries (state_ a)) a1).
  { intros e a1 -> Hf Hh He. destruct inserted; wp_step; [|done].
    split_and!; [done|exact Hf|done|]. simpl. by rewrite He. }
  assert (Hrest : ∀ a1, framed a a1 → history_ a1 = history_ a → entries (state_ a1) = entries (state_ a) →
    (∀ sl, target = Some sl → reachable (index (state_ a1)) sl) →
    wp Faulty (alloc;;; modify (λ a, set_history (history_ a ++ [c]) (history_bytes_ a) a))
      (λ _ a', framed a a' ∧ entries (state_ a') = entries (state_ a) ∧
             history_ a' = history_ a ++ [c] ∧
             (∀ sl, target = Some sl → reachable (index (state_ a')) sl))
      (λ e a', e = bad_alloc ∧ framed a a' ∧ history_ a' = history_ a ∧
               entries (state_ a') = entries (state_ a)) a1).
  { intros a1 Hf Hh He Hr. wp_step. wp_step; [|done]. wp_step.
    split_and!; [exact Hf|done|simpl; by rewrite Hh|done]. }
  eapply wp_mono with (E := λ e a', e = bad_alloc ∧ framed a a' ∧ history_ a' = history_ a ∧
               entries (state_ a') = entries (state_ a)); [|intros ? ? HQ; exact HQ|].
  2: { intros e a1 (-> & Hf & Hh & He). by apply Hcatch. }
  assert (Hself : framed a a) by (split_and!; (done || by apply keeps_refl)).
  wp_step. destruct target as [sl|]; [|wp_step; by apply Hrest].
  wp_step. eapply wp_mono; [apply wp_prepare; [done|by apply Hsl]|..].
  - intros _ i [Hk Hr]. apply Hrest; [split_and!; try done; apply Hk|done|done|]. by intros ? [= <-].
  - intros e i [-> Hk]. split_and!; try done; apply Hk.
Qed.

Lemma still_back a a' :
  ok a → framed a a' → history_ a' = history_ a → entries (state_ a') = entries (state_ a) → still a a'.
Proof.
  intros Hok (L & R & HB & V & TB & K) Hh He.
  assert (Hc : contents (state_ a') = contents (state_ a)) by (unfold contents; by rewrite He).
  destruct Hok as [O1 [[m [Hm Hl]] Ob Ov] O3 O4 O5 O6 O7 O8].
  split; [|done..]. split; rewrite ?L, ?TB, ?Hc, ?Hh, ?V, ?HB; try done.
  split; rewrite ?TB, ?Hc, ?V; [|done|done]. exists m. split; [by eapply keeps_represents|by rewrite He].
Qed.

(** What is left of the bookkeeping once entries and index agree again. *)
Lemma publish_ok a c p es m evicted new_bytes new_backlog :
  ok a → represents p m → linked es m →
  let s' := {| entries := es; index := p; version := change_version c; total_bytes := new_bytes |} in
  let a' := {| limits_ := limits_ a; state_ := s'; ready_ := ready_ a;
               history_ := drop evicted (history_ a ++ [c]); history_bytes_ := new_backlog |} in
  contents s' = apply_change (contents (state_ a)) c →
  change_version c = version (state_ a) + 1 → change_version c <= u64_max →
  new_bytes = weight (contents s') → new_bytes <= bytes (limits_ a) →
  Z.of_nat (size (contents s')) <= records (limits_ a) →
  (evicted <= S (length (history_ a)))%nat →
  new_backlog = total (drop evicted (history_ a ++ [c])) →
  Z.of_nat (length (drop evicted (history_ a ++ [c]))) <= history (limits_ a) →
  new_backlog <= backlog (limits_ a) →
  ok a'.
Proof.
  intros Hok Hrep Hlink s' a' Hc Hv Hmax Hb Hroom Hcount Hev Htot Hlen Hback.
  destruct Hok as [O1 [_ _ Ov] _ _ O5 _ _ _].
  split; simpl; try done.
  - split; simpl; [by exists m|done|]. unfold is_u64 in *. lia.
  - intros i x Hx. rewrite lookup_drop in Hx. rewrite length_drop, length_app. simpl.
    destruct (decide (evicted + i < length (history_ a))%nat) as [Hlt|Hge].
    + rewrite lookup_app_l in Hx by done. rewrite (O5 _ _ Hx). lia.
    + rewrite lookup_app_r in Hx by lia.
      destruct (evicted + i - length (history_ a))%nat eqn:E; [|done]. simplify_eq/=. lia.
Qed.

Lemma weight_write m k b : weight (<[k := b]> m) = weight (delete k m) + (key_size k + buffer_size b).
Proof.
  rewrite <- insert_delete_eq. rewrite weight_insert by apply lookup_delete_eq. lia.
Qed.

(** Bytes of the scope without the key being changed. *)
Lemma without_spec s k m :
  linked (entries s) m → total_bytes s = weight (contents s) →
  match entries s !! k with
  | Some e => total_bytes s - (key_size k + value_size (value e))
  | None => total_bytes s
  end = weight (delete k (contents s)).
Proof.
  intros Hl ->. destruct (entries s !! k) as [e|] eqn:Ek.
  - destruct (linked_values _ _ _ _ Hl Ek) as [b Hb]. rewrite Hb. simpl.
    rewrite (weight_delete _ k b); [done|]. by rewrite contents_lookup, Ek.
  - rewrite delete_id; [done|]. by rewrite contents_lookup, Ek.
Qed.

Lemma weight_delete_le m k : weight (delete k m) <= weight m.
Proof.
  destruct (m !! k) as [b|] eqn:E.
  - rewrite (weight_delete _ _ _ E). unfold key_size, buffer_size. lia.
  - by rewrite delete_id.
Qed.

(** Why a change is refused. *)
Definition refused (a : Almanac) (c : Change) (e : Error) : Prop :=
  let m := apply_change (contents (state_ a)) c in
  match e with
  | input => valid (change_key c) (change_value c) = false
  | version_error =>
      change_version c = 0 ∨
      ready_ a = true ∧ version (state_ a) < change_version c ∧
      change_version c ≠ version (state_ a) + 1
  | unready => ready_ a = false
  | capacity =>
      records (limits_ a) < Z.of_nat (size m) ∨ bytes (limits_ a) < weight m ∨
      u64_max - history_bytes_ a < change_bytes c
  | _ => False
  end.

(** What a committed change leaves behind. *)
Record committed (a : Almanac) (c : Change) (retention : Z) (a' : Almanac) : Prop := {
  com_ok : ok a';
  com_ready : ready_ a = true ∧ ready_ a' = true;
  com_limits : limits_ a' = limits_ a;
  com_next : change_version c = version (state_ a) + 1;
  com_version : version (state_ a') = change_version c;
  com_contents : contents (state_ a') = apply_change (contents (state_ a)) c;
  com_history : ∃ n, history_ a' = drop n (history_ a ++ [c]);
  com_backlog : history_bytes_ a' <= retention
}.

Definition apply_result (a : Almanac) (c : Change) (retention : Z)
    (r : expected bool Error * option Change) (a' : Almanac) : Prop :=
  match r with
  | (Expected true, Some c') => c' = c ∧ committed a c retention a'
  | (Expected true, None) => False
  | (Expected false, o) =>
      o = None ∧ still a a' ∧ ready_ a = true ∧ change_version c <= version (state_ a)
  | (Unexpected e, o) => o = None ∧ still a a' ∧ refused a c e
  end.

(** The last steps, for one of the three shapes of change. *)
Lemma wp_apply_finish a a1 c retention target (inserted : bool) m evicted new_bytes new_backlog :
  ok a → ready_ a = true → represents (index (state_ a1)) m → framed a a1 →
  history_ a1 = history_ a → (∀ sl, target = Some sl → is_slot sl) →
  (if inserted then delete (change_key c) (entries (state_ a1)) else entries (state_ a1))
    = entries (state_ a) →
  change_version c = version (state_ a) + 1 → change_version c <= u64_max →
  (∀ p', represents p' m → (∀ sl, target = Some sl → reachable p' sl) →
     let a2 := set_state (set_index p' (state_ a1)) a1 in
     let a3 := apply_commit c target inserted new_bytes new_backlog evicted a2 in
     ∃ m', represents (index (state_ a3)) m' ∧ linked (entries (state_ a3)) m' ∧
       contents (state_ a3) = apply_change (contents (state_ a)) c) →
  new_bytes = weight (apply_change (contents (state_ a)) c) → new_bytes <= bytes (limits_ a) →
  Z.of_nat (size (apply_change (contents (state_ a)) c)) <= records (limits_ a) →
  (evicted <= S (length (history_ a)))%nat →
  new_backlog = total (drop evicted (history_ a ++ [c])) →
  Z.of_nat (length (drop evicted (history_ a ++ [c]))) <= history (limits_ a) →
  new_backlog <= backlog (limits_ a) → new_backlog <= retention →
  wp Faulty (apply_stage exclusive c target inserted;;;
             modify (apply_commit c target inserted new_bytes new_backlog evicted);;;
             ret (Expected true, Some c))
    (apply_result a c retention) (λ e a', (e = bad_alloc ∨ e = overflow_error) ∧ still a a') a1.
Proof.
  intros Hok Hready Hrep Hfr Hh Hsl Hes Hnext Hmax Hcommit Hb Hroom Hcount Hev Htot Hlen Hback Hkeep.
  wp_step. eapply wp_mono; [apply wp_apply_stage; [apply Hrep|done]|..].
  - intros _ a2 (F2 & E2 & H2 & R2). wp_step. wp_step. wp_step.
    assert (Hrep2 : represents (index (state_ a2)) m) by (eapply keeps_represents; [done|apply F2]).
    destruct (Hcommit (index (state_ a2)) Hrep2 R2) as (m' & M1 & M2 & M3).
    assert (Heq : apply_commit c target inserted new_bytes new_backlog evicted a2 =
      {| limits_ := limits_ a;
         state_ := state_ (apply_commit c target inserted new_bytes new_backlog evicted
                     (set_state (set_index (index (state_ a2)) (state_ a1)) a1));
         ready_ := ready_ a; history_ := drop evicted (history_ a ++ [c]);
         history_bytes_ := new_backlog |}).
    { destruct Hfr as (L1 & Rd1 & _). destruct F2 as (L2 & Rd2 & _).
      unfold apply_commit at 1. rewrite H2, Hh, L2, L1, Rd2, Rd1. f_equal.
      unfold apply_commit. cbn [state_ set_state set_index index entries].
      destruct target as [sl|]; [destruct (change_value c)|]; cbn; by rewrite ?E2. }
    rewrite Heq. cbv zeta in M1, M2, M3. split; [done|].
    set (st := state_ (apply_commit _ _ _ _ _ _ (set_state _ a1))) in *.
    assert (Est : st = {| entries := entries st; index := index st; version := change_version c;
                          total_bytes := new_bytes |}) by reflexivity.
    clearbody st. split; cbn [ready_ limits_ state_ history_]; try done.
    + rewrite Est in M3 |- *. apply (publish_ok a c (index st) (entries st) m'); try done.
      all: by rewrite M3.
    + by rewrite Est.
    + by exists evicted.
  - intros e a2 (-> & F2 & H2 & E2). split; [by left|].
    apply still_back; [done| |by rewrite H2|by rewrite E2].
    destruct Hfr as (L1 & Rd1 & HB1 & V1 & T1 & K1). destruct F2 as (L2 & Rd2 & HB2 & V2 & T2 & K2).
    split_and!; try congruence; eapply keeps_trans in K2; try exact K1; apply K2.
Qed.

(** The updated index and lookup map, for each shape of change. *)
Lemma commit_put_ok (s : State) es p m k b sl (inserted : bool) :
  linked es m → represents p m → is_slot sl → reachable p sl →
  (inserted = true → es !! k = None ∧ m !! sl = None) →
  (inserted = false → ∃ e, es !! k = Some e ∧ slot e = sl) →
  ∃ m', represents (Pages.set sl (if inserted then Some k else None) (cell (Some b)) p) m' ∧
        linked (<[k := {| value := Some b; slot := sl |}]> es) m'.
Proof.
  intros Hl Hp Hs Hr Hnew Hold. exists (<[sl := (k, cell (Some b))]> m). split.
  - assert (Hw : written (if inserted then Some k else None) (m !! sl) (cell (Some b)) = Some (k, cell (Some b))
      ∧ fresh_key (if inserted then Some k else None) (m !! sl)).
    { destruct inserted.
      - destruct (Hnew eq_refl) as [_ ->]. split; [done|]. split; [done|by eexists].
      - destruct (Hold eq_refl) as (e & He & <-). destruct Hl as [Hl _].
        destruct (Hl k e He) as (b0 & _ & ->). split; [done|]. split; [by intros []|done]. }
    destruct Hw as [Hw Hk].
    pose proof (set_represents p m sl (if inserted then Some k else None) (cell (Some b)) Hp Hs Hk Hr) as H.
    cbn [effect] in H. by rewrite Hw in H.
  - apply linked_write; [done| |].
    + intros Hn. destruct inserted; [by apply Hnew|]. destruct (Hold eq_refl) as (e & He & _). congruence.
    + intros e He. destruct inserted; [by destruct (Hnew eq_refl); congruence|].
      destruct (Hold eq_refl) as (e' & He' & <-). congruence.
Qed.

Lemma wp_apply a v k val retention :
  ok a → is_u64 v → is_u64 retention →
  wp Faulty (apply exclusive v k val retention)
    (apply_result a {| change_key := k; change_value := val; change_version := v |} retention)
    (λ e a', (e = bad_alloc ∨ e = overflow_error) ∧ still a a') a.
Proof.
  intros Hok Hv Hret. set (c := {| change_key := k; change_value := val; change_version := v |}).
  pose proof (still_refl a Hok) as Hst.
  assert (Hbad : ∀ e : exn, e = bad_alloc → (e = bad_alloc ∨ e = overflow_error) ∧ still a a) by auto.
  unfold apply. destruct (valid k val) eqn:Evalid; cbn [negb]; [|wp_step; simpl; auto].
  destruct (Z.eqb_spec v 0) as [->|Hv0]; [wp_step; simpl; auto|].
  wp_step. apply wp_mono with (Q := λ _ a', a' = a) (E := λ e a', e = bad_alloc ∧ a' = a).
  { destruct val; [wp_step; auto|by wp_step]. }
  2: { intros e a' [-> ->]. auto. }
  intros _ a' ->. wp_step. wp_step. fold c.
  destruct (ready_ a) eqn:Eready; cbn [negb]; [|wp_step; simpl; auto].
  destruct (Z.leb_spec v (version (state_ a))) as [Hle|Hgt]; [wp_step; simpl; auto|].
  destruct (_ || _) eqn:Ever.
  { wp_step. simpl. split_and!; [done|done|]. right. split_and!; [done|lia|].
    unfold is_u64 in *. apply orb_true_iff in Ever as [E%Z.eqb_eq|E%negb_true_iff%Z.eqb_neq]; lia. }
  apply orb_false_iff in Ever as [Emax%Z.eqb_neq Enext%negb_false_iff%Z.eqb_eq].
  pose proof Hok as [Hlim [[m [Hrep Hlink]] Hbytes Hver] Hroom Hcount Hcons Htot Hlen Hback].
  wp_step. apply wp_mono with (Q := λ _ a', a' = a) (E := λ e a', e = bad_alloc ∧ a' = a).
  { destruct (entries (state_ a) !! k); [by wp_step|wp_step; auto]. }
  2: { intros e a' [-> ->]. auto. }
  intros _ a' ->. rewrite (without_spec _ _ m Hlink Hbytes).
  set (w := weight (delete k (contents (state_ a)))).
  assert (Hw : 0 <= w <= total_bytes (state_ a)).
  { unfold w. rewrite Hbytes. pose proof (weight_nonneg (delete k (contents (state_ a)))).
    pose proof (weight_delete_le (contents (state_ a)) k). lia. }
  destruct Hlim as [Lr Lb Lh Lk].
  rewrite (wrap64_small (bytes (limits_ a) - w)) by (unfold is_u64, u64_max in *; lia).
  set (m' := apply_change (contents (state_ a)) c).
  assert (Hnb : match val with Some _ => w + (key_size k + value_size val) | None => w end = weight m').
  { unfold m', apply_change, c. simpl. destruct val as [b|]; [|done]. by rewrite weight_write. }
  assert (Hsize : Z.of_nat (size m') = Z.of_nat (size (contents (state_ a))) +
    match val, entries (state_ a) !! k with
    | Some _, None => 1 | None, Some _ => -1 | _, _ => 0 end).
  { unfold m', apply_change, c. simpl.
    assert (Hk : contents (state_ a) !! k = entries (state_ a) !! k ≫= value) by apply contents_lookup.
    destruct (entries (state_ a) !! k) as [e|] eqn:Ek.
    - destruct (linked_values _ _ _ _ Hlink Ek) as [b0 Hb0]. simpl in Hk. rewrite Hb0 in Hk.
      destruct val; [by rewrite map_size_insert_Some by (by rewrite Hk); lia|].
      rewrite map_size_delete_Some by (by rewrite Hk).
      assert (size (contents (state_ a)) ≠ 0%nat); [|lia].
      intros E%map_size_empty_inv. by rewrite E, lookup_empty in Hk.
    - simpl in Hk. destruct val; [by rewrite map_size_insert_None by done; lia|].
      rewrite delete_id by done. lia. }
  assert (Hes : Z.of_nat (size (entries (state_ a))) = Z.of_nat (size (contents (state_ a))))
    by (by rewrite (linked_size _ m Hlink)).
  match goal with |- wp _ (if ?b then _ else _) _ _ _ => destruct b eqn:Ecap end.
  { wp_step. simpl. split_and!; [done|done|]. fold m'. destruct val as [b|]; [|done].
    apply orb_true_iff in Ecap as [E|E].
    - apply andb_true_iff in E as [E1%bool_decide_eq_true E2%Z.leb_le]. rewrite E1 in Hsize. left. lia.
    - right. left. apply Z.ltb_lt in E. simpl in *. lia. }
  rewrite Hnb. set (cost := change_bytes c).
  destruct ((u64_max - history_bytes_ a <? cost) || _) eqn:Ehist.
  { wp_step. simpl. split_and!; [done|done|]. right. right.
    apply orb_true_iff in Ehist as [E%Z.ltb_lt|E%Z.eqb_eq]; [done|].
    pose proof (change_bytes_pos c) as Hpos. fold cost in Hpos.
    assert (Hge : Z.of_nat (length (history_ a)) <= history_bytes_ a); [|lia].
    rewrite Htot. clear. induction (history_ a) as [|x h IH]; simpl; [done|].
    pose proof (change_bytes_pos x). lia. }
  pose proof (evict_spec (S (length (history_ a))) (history_ a) c (history (limits_ a))
    (Z.min (backlog (limits_ a)) retention) 0 ltac:(unfold is_u64 in *; lia) ltac:(unfold is_u64 in *; lia)
    ltac:(lia)) as Hevict. cbv zeta in Hevict. rewrite drop_0, total_app, length_app in Hevict.
  cbn [total foldr length] in Hevict. fold cost in Hevict.
  replace (Z.of_nat (length (history_ a) + 1) - Z.of_nat 0)
    with (Z.of_nat (length (history_ a)) + 1) in Hevict by lia.
  rewrite Z.add_0_r, <- Htot in Hevict.
  destruct (evict _ _ cost _ _ _ _ _) as [evicted new_backlog]. cbn [fst snd] in Hevict.
  destruct Hevict as (He1 & He2 & He3 & He4).
  cbv beta iota. wp_step. apply wp_mono with (Q := λ _ a', a' = a) (E := λ e a', e = bad_alloc ∧ a' = a).
  { destruct (0 <? evicted)%nat; [wp_step; auto|by wp_step]. }
  2: { intros e a' [-> ->]. auto. }
  intros _ a' ->. wp_step.
  assert (Hfr : framed a a) by (split_and!; try done; apply keeps_refl, Hrep).
  assert (Hcond : weight m' <= bytes (limits_ a) ∧ Z.of_nat (size m') <= records (limits_ a)).
  { rewrite <- Hnb. destruct val as [b|].
    - apply orb_false_iff in Ecap as [E1 E2%Z.ltb_ge]. split; [lia|].
      destruct (entries (state_ a) !! k); [lia|]. simpl in E1. apply Z.leb_gt in E1. lia.
    - split; [lia|]. destruct (entries (state_ a) !! k); lia. }
  destruct Hcond as [Hc1 Hc2].
  assert (Hfin : ∀ a1 target inserted m1,
    represents (index (state_ a1)) m1 → framed a a1 → history_ a1 = history_ a →
    (∀ sl, target = Some sl → is_slot sl) →
    (if inserted : bool then delete k (entries (state_ a1)) else entries (state_ a1)) = entries (state_ a) →
    (∀ p', represents p' m1 → (∀ sl, target = Some sl → reachable p' sl) →
     let a2 := set_state (set_index p' (state_ a1)) a1 in
     let a3 := apply_commit c target inserted (weight m') new_backlog evicted a2 in
     ∃ m', represents (index (state_ a3)) m' ∧ linked (entries (state_ a3)) m' ∧
       contents (state_ a3) = apply_change (contents (state_ a)) c) →
    wp Faulty (apply_stage exclusive c target inserted;;;
             modify (apply_commit c target inserted (weight m') new_backlog evicted);;;
             ret (Expected true, Some c))
    (apply_result a c retention) (λ e a', (e = bad_alloc ∨ e = overflow_error) ∧ still a a') a1).
  { intros a1 target inserted m1 R1 F1 H1 S1 D1 C1.
    apply (wp_apply_finish a a1 c retention target inserted m1); try done.
    - simpl. unfold is_u64 in *. lia.
    - lia.
    - lia.
    - lia. }
  destruct (entries (state_ a) !! k) as [e|] eqn:Ek.
  - assert (Hslot : is_slot (slot e)).
    { destruct Hlink as [L1 _]. destruct (L1 k e Ek) as (b0 & _ & Hm).
      destruct Hrep as (_ & _ & _ & D). by eapply D. }
    assert (Hgo : wp Faulty (apply_stage exclusive c (Some (slot e)) false;;;
             modify (apply_commit c (Some (slot e)) false (weight m') new_backlog evicted);;;
             ret (Expected true, Some c))
      (apply_result a c retention) (λ e a', (e = bad_alloc ∨ e = overflow_error) ∧ still a a') a).
    { apply (Hfin a (Some (slot e)) false m); try done; [by intros ? [= <-]|].
      intros p' Rp Hr. specialize (Hr _ eq_refl). cbv zeta. unfold apply_commit. cbn [c change_value change_key].
      destruct val as [b|]; cbn [state_ set_state index set_index entries set_entries].
      - destruct (commit_put_ok (state_ a) (entries (state_ a)) p' m k b (slot e) false) as (m2 & M1 & M2);
          try done; [by intros _; exists e|].
        exists m2. split_and!; [done|done|]. unfold contents, apply_change. cbn [entries c change_value change_key].
        by rewrite omap_insert.
      - exists (delete (slot e) m). split_and!.
        + apply erase_represents; [done|done| |done]. destruct Hlink as [L1 _].
          destruct (L1 k e Ek) as (b0 & _ & Hm). by eexists.
        + by apply linked_delete.
        + unfold contents, apply_change. cbn [entries c change_value change_key]. by rewrite omap_delete. }
    destruct val as [b|]; wp_step; exact Hgo.
  - destruct val as [b|].
    + wp_step. wp_step. destruct (next (index (state_ a))) as [sl|e] eqn:En.
      2: { split; [right|done]. eapply next_throws; [apply Hrep|done]. }
      destruct (next_free _ _ _ Hrep En) as [Hslot Hfree].
      wp_step. wp_step; [|auto]. wp_step. wp_step. wp_step.
      set (a1 := set_state _ a). apply (Hfin a1 (Some sl) true m); try done.
      * by intros ? [= <-].
      * cbn. by rewrite delete_insert_id.
      * intros p' Rp Hr. specialize (Hr _ eq_refl). cbv zeta. unfold apply_commit.
        cbn [c change_value change_key state_ set_state index set_index entries set_entries a1].
        destruct (commit_put_ok (state_ a) (entries (state_ a)) p' m k b sl true) as (m2 & M1 & M2); try done.
        rewrite insert_insert_eq. exists m2. split_and!; [done|done|].
        unfold contents, apply_change. cbn [entries c change_value change_key]. by rewrite omap_insert.
    + wp_step. apply (Hfin a None false m); try done.
      intros p' Rp _. cbv zeta. unfold apply_commit.
      cbn [state_ set_state index set_index entries]. exists m. split_and!; [done|done|].
      unfold apply_change. cbn [c change_value change_key]. symmetry. apply delete_id.
      rewrite contents_lookup. cbn [entries]. by rewrite Ek.
Qed.

(** ** Drafts and baselines *)

(** A draft under construction for version [v], holding [m]. *)
Definition drafting (l : Limits) (v : Z) (m : gmap string Buffer) (d : Draft) : Prop :=
  draft_limits d = l ∧
  ∃ s, draft_state d = Some s ∧ state_ok s ∧ version s = v ∧ contents s = m ∧
    total_bytes s <= bytes l ∧ Z.of_nat (size m) <= records l.

Lemma new_state_ok v : is_u64 v → state_ok (new_state v).
Proof.
  intros Hv. split; [|done|done]. exists ∅. split.
  - split_and!; [split; [done|unfold top_level; simpl; lia]|done| |].
    + intros sl _. unfold Pages.find. by destruct (beyond _ _).
    + intros sl x. by rewrite lookup_empty.
  - split; [intros k e|intros sl k c]; by rewrite lookup_empty.
Qed.

Lemma prepare_drafting a v : ok a → is_u64 v → drafting (limits_ a) v ∅ (prepare v a).
Proof.
  intros [[Lr Lb _ _] _ _ _ _ _ _ _] Hv. split; [done|]. exists (new_state v). split_and!; try done.
  - by apply new_state_ok.
  - unfold is_u64 in *. simpl. lia.
  - unfold is_u64 in *. rewrite map_size_empty. lia.
Qed.

(** The private part of [Draft::set]: all or nothing. *)
Lemma wp_draft_insert s k b :
  state_ok s → entries s !! k = None →
  wp Faulty (draft_insert exclusive k b)
    (λ _ s', state_ok s' ∧ version s' = version s ∧ contents s' = <[k := b]> (contents s) ∧
             total_bytes s' = total_bytes s + (key_size k + buffer_size b))
    (λ e s', (e = bad_alloc ∨ e = overflow_error) ∧ state_ok s' ∧ version s' = version s ∧
             contents s' = contents s ∧ total_bytes s' = total_bytes s) s.
Proof.
  intros Hok Hk. pose proof Hok as [[m [Hrep Hlink]] Hbytes Hver].
  assert (Hself : ∀ e : exn, e = bad_alloc → (e = bad_alloc ∨ e = overflow_error) ∧ state_ok s ∧
    version s = version s ∧ contents s = contents s ∧ total_bytes s = total_bytes s) by auto.
  unfold draft_insert. wp_step. wp_step; [|auto]. wp_step. wp_step; [|auto]. wp_step. wp_step.
  wp_step. wp_step. destruct (next (index s)) as [sl|e] eqn:En.
  2: { split; [right; by eapply next_throws; [apply Hrep|]|done]. }
  destruct (next_free _ _ _ Hrep En) as [Hslot Hfree].
  wp_step. wp_step; [|auto]. wp_step. wp_step. wp_step. wp_step. wp_step.
  eapply wp_mono; [apply wp_prepare; [apply Hrep|done]|..].
  - intros _ i [Hkeep Hr]. wp_step. wp_step. wp_step.
    cbn [set_index set_entries set_bytes index entries version total_bytes].
    destruct (commit_put_ok s (entries s) i m k b sl true) as (m' & M1 & M2); try done.
    { by eapply keeps_represents. }
    assert (Hc : omap value (<[k := {| value := Some b; slot := sl |}]> (entries s)) = <[k := b]> (contents s))
      by (unfold contents; by rewrite omap_insert).
    split_and!; [|done|exact Hc|done]. split; [by exists m'| |done].
    unfold contents at 1. cbn [entries total_bytes set_bytes set_index set_entries]. rewrite Hc, Hbytes.
    rewrite weight_insert; [lia|]. by rewrite contents_lookup, Hk.
  - intros e i [-> Hkeep]. wp_step. cbn [set_index set_entries index entries version total_bytes].
    rewrite delete_insert_id by done. split; [by left|]. split_and!; try done.
    split; [|done|done]. exists m. split; [by eapply keeps_represents|done].
Qed.

Lemma wp_draft_set l v m k b d :
  limits_ok l → drafting l v m d →
  wp Faulty (draft_set exclusive k b)
    (λ r d', match r with
             | None => m !! k = None ∧ drafting l v (<[k := b]> m) d'
             | Some e => d' = d ∧ (e = duplicate → is_Some (m !! k))
             end)
    (λ e d', drafting l v m d') d.
Proof.
  intros [Lr Lb _ _] (Hl & s & Hs & Hok & Hv & Hm & Hb & Hr). unfold draft_set. wp_step. wp_step.
  rewrite Hs. destruct (negb (valid k (Some b))); [by wp_step|].
  destruct (version s =? 0); [by wp_step|].
  pose proof Hok as [[mm [Hrep Hlink]] Hbytes Hver].
  destruct (bool_decide_reflect (is_Some (entries s !! k))) as [[e He]|Hn].
  { wp_step. split; [done|]. intros _. rewrite <- Hm, contents_lookup, He. simpl.
    by eapply linked_values. }
  apply eq_None_not_Some in Hn.
  assert (Hmk : m !! k = None) by (by rewrite <- Hm, contents_lookup, Hn).
  rewrite Hl, <- (linked_size _ _ Hlink), Hm.
  rewrite (wrap64_small (bytes l - total_bytes s)).
  2: { unfold is_u64, u64_max in *. pose proof (weight_nonneg (contents s)). lia. }
  destruct (_ || _) eqn:Ecap; [by wp_step|].
  apply orb_false_iff in Ecap as [E1%Z.leb_gt E2%Z.ltb_ge].
  wp_step. wp_step. rewrite Hs. cbn [default id].
  eapply wp_mono; [apply wp_draft_insert; [done|done]|..].
  - intros _ s' (H1 & H2 & H3 & H4). wp_step. split; [done|]. split; [done|].
    exists s'. split; [done|]. split; [done|]. split; [by rewrite H2|]. split; [by rewrite H3, Hm|].
    split; [lia|]. rewrite map_size_insert_None by done. lia.
  - intros e s' (_ & H1 & H2 & H3 & H4). split; [done|].
    exists s'. split; [done|]. split; [done|]. split; [by rewrite H2|]. split; [by rewrite H3, Hm|].
    split; [lia|done].
Qed.

(** How a restoring task fills a draft with the rows of one complete baseline:
    the first refusal or exception abandons it. *)
Fixpoint fill (rows : list (string * Buffer)) : eff Draft (option Error) :=
  match rows with
  | [] => ret None
  | (k, b) :: rows =>
      r <- draft_set exclusive k b;;
      match r with
      | None => fill rows
      | Some e => ret (Some e)
      end
  end.

Definition restore (rows : list (string * Buffer)) : eff (Almanac * Draft) (expected bool Error) :=
  r <- zoom snd (λ d p, (p.1, d)) (fill rows);;
  match r with
  | None => reset
  | Some e => ret (Unexpected e)
  end.

Lemma wp_fill l v rows m d :
  limits_ok l → drafting l v m d →
  wp Faulty (fill rows)
    (λ r d', match r with
             | None => drafting l v (list_to_map rows ∪ m) d' ∧ NoDup rows.*1 ∧
                 (∀ k, k ∈ rows.*1 → m !! k = None)
             | Some _ => True
             end)
    (λ _ _, True) d.
Proof.
  intros Hl. revert m d. induction rows as [|[k b] rows IH]; intros m d Hd; cbn [fill].
  { wp_step. rewrite list_to_map_nil, map_empty_union. split_and!; [done|constructor|]. by intros k []%not_elem_of_nil. }
  wp_step. eapply wp_mono; [by apply wp_draft_set| |done].
  intros [e|] d'; [intros _; by wp_step|]. intros [Hmk Hd'].
  eapply wp_mono; [by apply IH| |done].
  intros [e|] d''; [done|]. intros (H1 & H2 & H3).
  assert (Hk : k ∉ rows.*1) by (intros Hin%H3; by rewrite lookup_insert_eq in Hin).
  split_and!.
  - rewrite list_to_map_cons. replace (<[k:=b]> (list_to_map rows) ∪ m) with
      (list_to_map rows ∪ <[k:=b]> m : gmap string Buffer); [done|].
    rewrite <- insert_union_l. rewrite insert_union_r; [done|]. by apply not_elem_of_list_to_map_1.
  - by constructor.
  - intros k' [->|Hin]%elem_of_cons; [done|]. specialize (H3 k' Hin).
    rewrite lookup_insert_ne in H3; [done|]. intros ->. done.
Qed.

Lemma installed_ok l s r :
  limits_ok l → state_ok s → total_bytes s <= bytes l → Z.of_nat (size (contents s)) <= records l →
  ok {| limits_ := l; state_ := s; ready_ := r; history_ := []; history_bytes_ := 0 |}.
Proof.
  intros Hl Hs Hb Hr. pose proof Hl as [_ _ [Hh _] [Hk _]].
  split; simpl; try done.
Qed.

Lemma wp_reset a d v m :
  ok a → drafting (limits_ a) v m d →
  wp Faulty reset
    (λ r p, match r with
            | Expected true =>
                ok p.1 ∧ ready_ p.1 = true ∧ version (state_ p.1) = v ∧ contents (state_ p.1) = m ∧
                history_ p.1 = [] ∧ limits_ p.1 = limits_ a ∧ draft_state p.2 = None ∧
                (ready_ a = true → version (state_ a) < v)
            | Expected false => p = (a, d) ∧ ready_ a = true ∧ v = version (state_ a)
            | Unexpected e => e = version_error ∧ p = (a, d) ∧ ready_ a = true ∧ v < version (state_ a)
            end)
    (λ _ _, False) (a, d).
Proof.
  intros Hok (Hl & s & Hs & Hso & Hv & Hm & Hb & Hr). unfold reset. wp_step. wp_step. cbv beta iota.
  rewrite Hs. pose proof Hso as [[mm [Hrep Hlink]] Hbytes Hver].
  rewrite <- (linked_size _ _ Hlink), Hm, (proj2 (Z.ltb_ge _ _) Hr), (proj2 (Z.ltb_ge _ _) Hb). cbn [orb].
  rewrite Hv. destruct (ready_ a) eqn:Er; cbn [andb].
  - destruct (Z.ltb_spec v (version (state_ a))) as [Hlt|Hge]; [by wp_step|].
    destruct (Z.eqb_spec v (version (state_ a))) as [->|Hne]; [by wp_step|].
    wp_step. wp_step. wp_step. cbn [fst snd ready_ state_ history_ limits_ draft_state].
    split_and!; try done; [|intros; lia]. apply installed_ok; [apply Hok|done|done|by rewrite Hm].
  - wp_step. wp_step. wp_step. cbn [fst snd ready_ state_ history_ limits_ draft_state].
    split_and!; try done. apply installed_ok; [apply Hok|done|done|by rewrite Hm].
Qed.

End applying.

(** ** Following an authority *)

(** What the environment decides for one call: which pages no live view shares
    and which allocations fail. *)
Record circumstances := { sharing : nat → bool; script : faults }.
Inductive event :=
| Deliver (c : Change) (retention : Z)
| Restore (v : Z) (rows : list (string * Buffer)).

Definition play (a : Almanac) (e : event * circumstances) : Almanac :=
  match e.1 with
  | Deliver c retention =>
      (apply (sharing e.2) (change_version c) (change_key c) (change_value c) retention a (script e.2)).1.2
  | Restore v rows => (restore (sharing e.2) rows (a, prepare v a) (script e.2)).1.2.1
  end.

(** The authority's log: consecutive changes on top of a baseline. *)
Record Authority := { base : gmap string Buffer; base_version : Z; log : list Change }.

Definition authority_ok (auth : Authority) : Prop :=
  0 <= base_version auth ∧ base_version auth + Z.of_nat (length (log auth)) <= u64_max ∧
  ∀ i c, log auth !! i = Some c → change_version c = base_version auth + 1 + Z.of_nat i.

(** The scope as of an authoritative version. *)
Definition as_of (auth : Authority) (v : Z) : gmap string Buffer :=
  foldl apply_change (base auth) (take (Z.to_nat (v - base_version auth)) (log auth)).

Definition known (auth : Authority) (v : Z) : Prop :=
  base_version auth <= v <= base_version auth + Z.of_nat (length (log auth)).

(** Deliveries are log entries, in any order and number; baselines are the
    complete rows of one version. *)
Definition genuine (auth : Authority) (e : event) : Prop :=
  match e with
  | Deliver c retention => c ∈ log auth ∧ is_u64 retention
  | Restore v rows => known auth v ∧ list_to_map rows = as_of auth v
  end.

Definition follows (auth : Authority) (l : Limits) (a : Almanac) : Prop :=
  ok a ∧ limits_ a = l ∧ Forall (λ c, c ∈ log auth) (history_ a) ∧ (ready_ a = true →
    known auth (version (state_ a)) ∧ contents (state_ a) = as_of auth (version (state_ a))).

Lemma as_of_next auth v c :
  authority_ok auth → known auth v → c ∈ log auth → change_version c = v + 1 →
  known auth (v + 1) ∧ as_of auth (v + 1) = apply_change (as_of auth v) c.
Proof.
  intros (H0 & Hmax & Hlog) [Hlo Hhi] [i Hi]%list_elem_of_lookup_1 Hv.
  pose proof (Hlog i c Hi) as Hvi. pose proof (lookup_lt_Some _ _ _ Hi) as Hlt.
  split; [unfold known; lia|]. unfold as_of.
  replace (Z.to_nat (v + 1 - base_version auth)) with (S i) by lia.
  replace (Z.to_nat (v - base_version auth)) with i by lia.
  rewrite (take_S_r _ _ _ Hi), foldl_app. done.
Qed.

Lemma play_follows auth l a e f :
  authority_ok auth → genuine auth e → follows auth l a → follows auth l (play a (e, f)).
Proof.
  intros Hauth Hgen (Hok & Hlim & Hhist & Hf). destruct e as [c retention|v rows]; unfold play; cbn [fst snd].
  - destruct Hgen as [Hin Hret].
    assert (Hu : is_u64 (change_version c)).
    { destruct Hauth as (H0 & Hmax & Hlog). apply list_elem_of_lookup_1 in Hin as [i Hi].
      rewrite (Hlog i c Hi). apply lookup_lt_Some in Hi. unfold is_u64. lia. }
    pose proof (wp_apply (sharing f) a (change_version c) (change_key c) (change_value c) retention Hok Hu Hret (script f) I) as Hw.
    replace {| change_key := change_key c; change_value := change_value c; change_version := change_version c |}
      with c in Hw by (by destruct c).
    assert (Hstill : ∀ a', still a a' → follows auth l a').
    { intros a' [S1 S2 S3 S4 S5 S6]. split; [done|]. rewrite S6, S5, S4, S3, S2. done. }
    destruct (apply _ _ _ _ _ a (script f)) as [[[[r o]|e] a'] f']; destruct Hw as [_ Hw]; cbn [fst snd].
    + destruct r as [[]|e]; [|by apply Hstill, Hw|by apply Hstill, Hw].
      destruct o as [c'|]; [|done]. destruct Hw as [-> [C1 [C2 C2'] C3 C4 C5 C6 [n C7] _]]. split; [done|]. split; [by rewrite C3|].
      split; [rewrite C7; apply Forall_drop, Forall_app; by split; [|constructor]|]. intros _.
      destruct (Hf C2) as [Hkn Hct]. rewrite C5, C6, Hct, C4.
      destruct (as_of_next auth _ c Hauth Hkn Hin C4) as [K1 K2]. by split.
    + by apply Hstill, Hw.
  - destruct Hgen as [Hkn Hrows].
    assert (Hu : is_u64 v).
    { destruct Hauth as (H0 & Hmax & _). destruct Hkn. unfold is_u64. lia. }
    assert (Hw : wp Faulty (restore (sharing f) rows) (λ _ p, follows auth l p.1) (λ _ p, follows auth l p.1) (a, prepare v a)).
    { unfold restore. wp_step. wp_step. cbn [fst snd].
      eapply wp_mono; [apply (wp_fill (sharing f) (limits_ a) v rows ∅); [apply Hok|by apply prepare_drafting]|..].
      - intros [e|] d; [intros _; by wp_step|]. intros (Hd & _ & _).
        rewrite map_union_empty in Hd. cbn [fst snd].
        eapply wp_mono; [by apply wp_reset| |done].
        intros [[]|e] p; [|by intros (-> & _)|by intros (_ & -> & _)].
        intros (P1 & P2 & P3 & P4 & P5 & P6 & _). split; [done|]. split; [by rewrite P6|]. rewrite P5. split; [constructor|].
        intros _. by rewrite P3, P4.
      - done. }
    specialize (Hw (script f) I).
    by destruct (restore (sharing f) rows (a, prepare v a) (script f)) as [[[r|e] p] f']; destruct Hw.
Qed.

Lemma history_follows auth l es :
  authority_ok auth → limits_ok l → Forall (λ e, genuine auth e.1) es →
  follows auth l (foldl play (make l) es).
Proof.
  intros Hauth Hl Hes.
  assert (Hstart : follows auth l (make l)).
  { pose proof Hl as [[Hr _] [Hb _] _ _]. split; [|by split_and!; [|constructor|]].
    apply installed_ok; [done|apply new_state_ok; vm_compute; split; congruence|done|].
    unfold contents, new_state. simpl. rewrite omap_empty, map_size_empty. lia. }
  revert Hstart. generalize (make l) as a. induction Hes as [|[e f] es He Hes IH]; intros a Ha; [done|].
  simpl. apply IH. by apply play_follows.
Qed.

(** C2. A replica never shows a state the authority did not have.  Feed a fresh
    replica any sequence of the authority's changes, late, repeated, out of
    order or with gaps, mixed with complete baselines, and let any allocation
    fail on the way: whenever the replica is ready, its contents are exactly
    the authority's contents as of the replica's version, its byte and record
    accounts are exact, and its history stays within both limits. *)
Theorem replica_follows_authority (auth : Authority) (l : Limits) (es : list (event * circumstances)) :
  authority_ok auth → limits_ok l → Forall (λ e, genuine auth e.1) es →
  let a := foldl play (make l) es in
  ready_ a = true →
  known auth (version (state_ a)) ∧ contents (state_ a) = as_of auth (version (state_ a)) ∧
  total_bytes (state_ a) = weight (contents (state_ a)) ∧
  Z.of_nat (size (contents (state_ a))) <= records l ∧ weight (contents (state_ a)) <= bytes l ∧
  Z.of_nat (length (history_ a)) <= history l ∧ total (history_ a) <= backlog l.
Proof.
  intros Hauth Hl Hes a Hr. destruct (history_follows auth l es Hauth Hl Hes) as (Hok & Hlim & _ & Hf).
  fold a in Hok, Hlim, Hf. destruct (Hf Hr) as [H1 H2].
  destruct Hok as [O1 [_ Hb _] O3 O4 O5 O6 O7 O8]. rewrite Hlim in *.
  split; [done|]. split; [done|]. split; [done|]. split; [done|]. split; [by rewrite <- Hb|].
  split; [done|by rewrite <- O6].
Qed.

(** ** Replaying the history *)
Lemma upper_bound_drop since (h : list Change) v :
  consecutive h v → v - Z.of_nat (length h) <= since →
  upper_bound since h = drop (Z.to_nat (since - (v - Z.of_nat (length h)))) h.
Proof.
  revert v. induction h as [|c h IH]; intros v Hc Hs; [by rewrite drop_nil|].
  pose proof (Hc 0%nat c eq_refl) as Hv. simpl in Hs, Hv |- *.
  destruct (Z.ltb_spec since (change_version c)).
  - by replace (Z.to_nat _) with 0%nat by lia.
  - rewrite (IH v).
    + replace (Z.to_nat (since - (v - Z.of_nat (S (length h)))))
        with (S (Z.to_nat (since - (v - Z.of_nat (length h))))) by lia. done.
    + intros i c' Hi. rewrite (Hc (S i) c' Hi). simpl. lia.
    + lia.
Qed.

Lemma as_of_replay auth h v :
  authority_ok auth → Forall (λ c, c ∈ log auth) h → consecutive h v → known auth v →
  foldl apply_change (as_of auth (v - Z.of_nat (length h))) h = as_of auth v.
Proof.
  intros Hauth. revert v. induction h as [|c h IH] using rev_ind; intros v Hin Hc Hk.
  - simpl. by rewrite Z.sub_0_r.
  - apply Forall_app in Hin as [Hh Hcin]. apply Forall_cons in Hcin as [Hcin _].
    assert (Hv : change_version c = v).
    { rewrite (Hc (length h) c); [rewrite length_app; simpl; lia|]. by rewrite list_lookup_middle. }
    assert (Hk' : known auth (v - 1)).
    { pose proof Hauth as (_ & _ & Hlog). apply list_elem_of_lookup_1 in Hcin as [i Hi].
      pose proof (Hlog i c Hi). pose proof (lookup_lt_Some _ _ _ Hi). unfold known in *. lia. }
    rewrite foldl_app, length_app. simpl.
    replace (v - Z.of_nat (length h + 1)) with (v - 1 - Z.of_nat (length h)) by lia.
    rewrite (IH (v - 1)); [|done| |done].
    + destruct (as_of_next auth (v - 1) c Hauth Hk' Hcin) as [_ E]; [lia|].
      by replace (v - 1 + 1) with v in E by lia.
    + intros i c' Hi. rewrite (Hc i c'); [rewrite length_app; simpl; lia|]. by apply lookup_app_l_Some.
Qed.

Lemma consecutive_drop h v n : consecutive h v → consecutive (drop n h) v.
Proof.
  intros Hc i c Hi. rewrite lookup_drop in Hi. rewrite (Hc _ _ Hi), length_drop.
  apply lookup_lt_Some in Hi. lia.
Qed.

(** When [replay] answers, and with which suffix. *)
Lemma replay_spec since a :
  ok a → ready_ a = true →
  let v := version (state_ a) in let n := Z.of_nat (length (history_ a)) in
  replay since a =
    if v <? since then Unexpected version_error
    else if since <? v - n then Unexpected history_error
    else Expected (v, drop (Z.to_nat (since - (v - n))) (history_ a)).
Proof.
  intros Hok Hr. cbv zeta. unfold replay. rewrite Hr. cbn [negb].
  destruct (Z.ltb_spec (version (state_ a)) since); [done|].
  pose proof (ok_history _ Hok) as Hc.
  destruct (Z.eqb_spec since (version (state_ a))) as [->|Hne].
  { rewrite (proj2 (Z.ltb_ge _ _)) by lia. rewrite drop_ge; [done|lia]. }
  destruct (history_ a) as [|first h] eqn:Eh.
  { simpl. rewrite (proj2 (Z.ltb_lt _ _)); [done|lia]. }
  pose proof (Hc 0%nat first eq_refl) as Hv. rewrite Hv.
  replace (version (state_ a) - Z.of_nat (length (first :: h)) + 1 + Z.of_nat 0 - 1) with
    (version (state_ a) - Z.of_nat (length (first :: h))) by lia.
  destruct (Z.ltb_spec since (version (state_ a) - Z.of_nat (length (first :: h)))); [done|].
  by rewrite (upper_bound_drop since (first :: h) (version (state_ a))).
Qed.

(** The replay contract towards subscribers.  After any genuine history of
    deliveries, baselines and allocation failures, [replay since] on a ready
    replica either says the version is in the future, says the retained
    history no longer reaches back (so the subscriber takes a snapshot), or
    returns exactly the authority's changes after [since]: one per version, in
    order, and applying them to the scope as of [since] gives the scope the
    replica shows now. *)
Theorem replay_complete (auth : Authority) (l : Limits) (es : list (event * circumstances)) (since : Z) :
  authority_ok auth → limits_ok l → Forall (λ e, genuine auth e.1) es →
  let a := foldl play (make l) es in
  ready_ a = true →
  match replay since a with
  | Unexpected e =>
      (e = version_error ∧ version (state_ a) < since) ∨
      (e = history_error ∧ since < version (state_ a) - Z.of_nat (length (history_ a)))
  | Expected (v, cs) =>
      v = version (state_ a) ∧ v - Z.of_nat (length (history_ a)) <= since <= v ∧
      change_version <$> cs = seqZ (since + 1) (v - since) ∧
      foldl apply_change (as_of auth since) cs = contents (state_ a)
  end.
Proof.
  intros Hauth Hl Hes a Hr. destruct (history_follows auth l es Hauth Hl Hes) as (Hok & _ & Hin & Hf).
  fold a in Hok, Hin, Hf. destruct (Hf Hr) as [Hk Hct]. rewrite (replay_spec since a Hok Hr).
  destruct (Z.ltb_spec (version (state_ a)) since); [by left|].
  destruct (Z.ltb_spec since (version (state_ a) - Z.of_nat (length (history_ a)))); [by right|].
  set (n := Z.to_nat _). pose proof (consecutive_drop _ _ n (ok_history _ Hok)) as Hc.
  assert (Hlen : Z.of_nat (length (drop n (history_ a))) = version (state_ a) - since).
  { rewrite length_drop. lia. }
  split; [done|]. split; [lia|]. split.
  - apply list_eq. intros i. rewrite list_lookup_fmap.
    destruct (drop n (history_ a) !! i) as [c|] eqn:Ei; simpl.
    + rewrite (Hc i c Ei). apply lookup_lt_Some in Ei. symmetry. apply lookup_seqZ. lia.
    + apply lookup_ge_None in Ei. symmetry. apply lookup_seqZ_ge. lia.
  - rewrite Hct, <- (as_of_replay auth (drop n (history_ a)) (version (state_ a)) Hauth);
      [|by apply Forall_drop|done|done].
    f_equal. f_equal. lia.
Qed.

Module Sample.

Definition calm : circumstances := {| sharing := λ _, false; script := [] |}.
Definition failing (f : faults) : circumstances := {| sharing := λ _, true; script := f |}.
Definition byte : Buffer := [Byte.x2a].
Definition c2 : Change := {| change_key := "b"; change_value := Some byte; change_version := 2 |}.
Definition c3 : Change := {| change_key := "a"; change_value := None; change_version := 3 |}.
Definition auth : Authority :=
  {| base := {[ "a"%string := byte ]}; base_version := 1; log := [c2; c3] |}.
Definition events : list (event * circumstances) :=
  [(Deliver c3 u64_max, calm);                 (* not ready *)
   (Restore 1 [("a"%string, byte)], failing [true]); (* the allocator fails *)
   (Restore 1 [("a"%string, byte)], calm);
   (Deliver c3 u64_max, calm);                 (* a gap *)
   (Deliver c2 u64_max, failing [false; true]);      (* the allocator fails *)
   (Deliver c2 u64_max, calm);
   (Deliver c2 u64_max, calm);                 (* a duplicate *)
   (Deliver c3 u64_max, calm)].

Example runs :
  let a := foldl play (make default_limits) events in
  (ready_ a, version (state_ a), length (history_ a), replay 1 a, replay 0 a) =
  (true, 3, 2%nat, Expected (3, [c2; c3]), Unexpected history_error).
Proof. vm_compute. done. Qed.

Lemma sample_auth_ok : authority_ok auth.
Proof.
  split; [done|]. split; [done|]. intros i c Hi.
  destruct i as [|[|i]]; simpl in Hi; [injection Hi as <-|injection Hi as <-|done]; reflexivity.
Qed.

Lemma sample_limits_ok : limits_ok default_limits.
Proof. split; vm_compute; split; congruence. Qed.

Lemma sample_genuine : Forall (λ e, genuine auth e.1) events.
Proof.
  assert (U : is_u64 u64_max) by (vm_compute; split; congruence).
  assert (K : known auth 1) by (vm_compute; split; congruence).
  repeat apply List.Forall_cons; try apply List.Forall_nil; cbn [fst genuine].
  all: split; [try set_solver|]; done.
Qed.

Lemma replica_follows_authority_witness :
  let a := foldl play (make default_limits) events in
  known auth (version (state_ a)) ∧ contents (state_ a) = as_of auth (version (state_ a)) ∧
  total_bytes (state_ a) = weight (contents (state_ a)) ∧
  Z.of_nat (size (contents (state_ a))) <= records default_limits ∧
  weight (contents (state_ a)) <= bytes default_limits ∧
  Z.of_nat (length (history_ a)) <= history default_limits ∧
  total (history_ a) <= backlog default_limits.
Proof.
  apply (replica_follows_authority auth default_limits events).
  - exact sample_auth_ok.
  - exact sample_limits_ok.
  - exact sample_genuine.
  - vm_compute. reflexivity.
Defined.

Lemma replay_complete_witness :
  let a := foldl play (make default_limits) events in
  match replay 1 a with
  | Unexpected e =>
      (e = version_error ∧ version (state_ a) < 1) ∨
      (e = history_error ∧ 1 < version (state_ a) - Z.of_nat (length (history_ a)))
  | Expected (v, cs) =>
      v = version (state_ a) ∧ v - Z.of_nat (length (history_ a)) <= 1 <= v ∧
      change_version <$> cs = seqZ (1 + 1) (v - 1) ∧
      foldl apply_change (as_of auth 1) cs = contents (state_ a)
  end.
Proof.
  apply (replay_complete auth default_limits events 1).
  - exact sample_auth_ok.
  - exact sample_limits_ok.
  - exact sample_genuine.
  - vm_compute. reflexivity.
Defined.
End Sample.
