(* ===== verification/Library.v ===== *)
(** The two-level routing of durable scopes: [astra/star/src/library.hpp] and
    [astra/star/src/library.cpp].

    A [Library] owns one [Almanac] per installed scope and keeps three global
    accounts: scopes, current bytes and retained history.  Whole scopes are
    built in private drafts and installed by [reset], single keys by [apply].
    A draft and the route share the almanac object, so objects live in a heap
    and routes and drafts hold addresses.  Installers are serialised by
    [writer_]: every operation is one transition.  [notified] records the calls
    of the commit callback [changed_]. *)
From stdpp Require Import base numbers strings gmap sorting list.
From S2P Require Import Prelude Scope Pages Almanac.

(** [Library::Limits]. *)
Record Limits := { scopes : Z; bytes : Z; history : Z; scope : Almanac.Limits }.

Definition default_limits : Limits :=
  {| scopes := 4096; bytes := 256 * 1024 * 1024; history := 64 * 1024 * 1024;
     scope := Almanac.default_limits |}.

(** [Library::Position]. *)
Record Position := { position_scope : Scope; position_version : Z }.

(** What [changed_] receives; an empty key announces a full replacement. *)
Record Notice := {
  notice_scope : Scope;
  notice_key : option string;
  notice_value : Value;
  notice_version : Z
}.

(** [Library::Draft]; a consumed draft has no book. *)
Record Draft := {
  owner_ : nat;
  scope_ : Scope;
  version_ : Z;
  book_ : option nat;
  draft_ : Almanac.Draft;
  draft_bytes_ : Z
}.

(** The members of [Library], its own address and the almanac objects. *)
Record Library := {
  self : nat;
  limits_ : Limits;
  heap : gmap nat Almanac;
  books_ : gmap string (gmap string nat);
  scopes_ : Z;
  bytes_ : Z;
  history_ : Z;
  notified : list Notice
}.

(** The constructor. *)
Definition make (this : nat) (l : Limits) : outcome Library :=
  if (scopes l =? 0) || (16384 <? scopes l) || (bytes l <? Almanac.bytes (scope l))
     || (4 * 1024 * 1024 * 1024 <? bytes l)
  then Thrown invalid_argument
  else Done {| self := this; limits_ := l; heap := ∅; books_ := ∅; scopes_ := 0; bytes_ := 0;
               history_ := 0; notified := [] |}.

Definition set_heap (h : gmap nat Almanac) (l : Library) : Library :=
  {| self := self l; limits_ := limits_ l; heap := h; books_ := books_ l; scopes_ := scopes_ l;
     bytes_ := bytes_ l; history_ := history_ l; notified := notified l |}.
Definition set_books (b : gmap string (gmap string nat)) (l : Library) : Library :=
  {| self := self l; limits_ := limits_ l; heap := heap l; books_ := b; scopes_ := scopes_ l;
     bytes_ := bytes_ l; history_ := history_ l; notified := notified l |}.
Definition count_scope (l : Library) : Library :=
  {| self := self l; limits_ := limits_ l; heap := heap l; books_ := books_ l;
     scopes_ := wrap64 (scopes_ l + 1); bytes_ := bytes_ l; history_ := history_ l;
     notified := notified l |}.
Definition settle (b h : Z) (n : Notice) (l : Library) : Library :=
  {| self := self l; limits_ := limits_ l; heap := heap l; books_ := books_ l; scopes_ := scopes_ l;
     bytes_ := b; history_ := h; notified := notified l ++ [n] |}.

(** The object behind an address held by a route or a draft. *)
Definition deref (id : nat) (l : Library) : Almanac :=
  default (Almanac.make (scope (limits_ l))) (heap l !! id).

(** [Library::locate]. *)
Definition locate (sc : Scope) (l : Library) : option nat :=
  books_ l !! sector sc ≫= λ spectra, spectra !! spectrum sc.

(** [Library::find]. *)
Definition find (sc : Scope) (l : Library) : option Almanac :=
  if Scope.valid sc then (λ id, deref id l) <$> locate sc l else None.

Definition set_draft (d' : Almanac.Draft) (d : Draft) : Draft :=
  {| owner_ := owner_ d; scope_ := scope_ d; version_ := version_ d; book_ := book_ d;
     draft_ := d'; draft_bytes_ := draft_bytes_ d |}.
Definition add_bytes (n : Z) (d : Draft) : Draft :=
  {| owner_ := owner_ d; scope_ := scope_ d; version_ := version_ d; book_ := book_ d;
     draft_ := draft_ d; draft_bytes_ := wrap64 (draft_bytes_ d + n) |}.
Definition release_book (d : Draft) : Draft :=
  {| owner_ := owner_ d; scope_ := scope_ d; version_ := version_ d; book_ := None;
     draft_ := draft_ d; draft_bytes_ := draft_bytes_ d |}.

Section operations.
Context (exclusive : nat → bool).

(** [Library::Draft::set]; [None] is success. *)
Definition draft_set (k : string) (b : Buffer) : eff Draft (option Almanac.Error) :=
  if negb (Scope.text k 1024) then ret (Some input)
  else
    let cost := key_size k + buffer_size b in
    r <- zoom draft_ set_draft (Almanac.draft_set exclusive k b);;
    match r with
    | Some e => ret (Some e)
    | None => modify (add_bytes cost);;; ret None
    end.

(** [Library::Draft::Draft] with the draft state of [Almanac::prepare]. *)
Definition new_draft (l : Library) (sc : Scope) (v : Z) (id : nat) : Draft :=
  {| owner_ := self l; scope_ := sc; version_ := v; book_ := Some id;
     draft_ := Almanac.prepare v (deref id l); draft_bytes_ := 0 |}.

(** [Library::prepare].  An object whose draft could not be constructed is
    unreachable, like the released [shared_ptr]. *)
Definition prepare (sc : Scope) (v : Z) : eff Library (expected Draft Almanac.Error) :=
  if negb (Scope.valid sc) then ret (Unexpected input)
  else
    l <- read;;
    match locate sc l with
    | Some id =>
        if match (usage (deref id l)).2 with Some cv => v <? cv | None => false end
        then ret (Unexpected version_error)
        else alloc;;; ret (Expected (new_draft l sc v id))
    | None =>
        if scopes (limits_ l) <=? scopes_ l then ret (Unexpected capacity)
        else
          alloc;;;
          alloc;;;
          let id := fresh (dom (heap l)) in
          modify (λ l, set_heap (<[id := Almanac.make (scope (limits_ l))]> (heap l)) l);;;
          alloc;;;
          l' <- read;;
          ret (Expected (new_draft l' sc v id))
    end.

(** [book->reset(std::move(draft.draft_))] on the shared object. *)
Definition install (id : nat) : eff (Library * Draft) (expected bool Almanac.Error) :=
  zoom (λ p, (deref id p.1, draft_ p.2))
    (λ q p, (set_heap (<[id := q.1]> (heap p.1)) p.1, set_draft q.2 p.2))
    Almanac.reset.

Definition on_library (g : Library → Library) (p : Library * Draft) : Library * Draft := (g p.1, p.2).

(** Withdraw a route that was added for an installation that failed. *)
Definition unroute (sc : Scope) (created : bool) (l : Library) : Library :=
  let spectra := delete (spectrum sc) (default ∅ (books_ l !! sector sc)) in
  set_books (if created then delete (sector sc) (books_ l)
             else <[sector sc := spectra]> (books_ l)) l.

Definition route (sc : Scope) (id : nat) (l : Library) : Library :=
  set_books (<[sector sc := <[spectrum sc := id]> (default ∅ (books_ l !! sector sc))]> (books_ l)) l.

Definition open_sector (sc : Scope) (l : Library) : Library :=
  set_books (<[sector sc := default ∅ (books_ l !! sector sc)]> (books_ l)) l.

(** The branch of [reset] for a scope that has no route yet. *)
Definition install_new (sc : Scope) (id : nat) : eff (Library * Draft) (expected bool Almanac.Error) :=
  p <- read;;
  let created := bool_decide (books_ p.1 !! sector sc = None) in
  (if created then alloc else ret tt);;;
  modify (on_library (open_sector sc));;;
  on_throw
    (alloc;;;
     modify (on_library (route sc id));;;
     installed <- install id;;
     match installed with
     | Unexpected e => modify (on_library (unroute sc created));;; ret (Unexpected e)
     | Expected b => modify (on_library count_scope);;; ret (Expected b)
     end)
    (modify (on_library (unroute sc created))).

(** The end of [reset]: accounts, the draft's book and the notification. *)
Definition finish_reset (before_bytes before_history : Z) : eff (Library * Draft) (expected bool Almanac.Error) :=
  modify (λ p,
    (settle (wrap64 (wrap64 (bytes_ p.1 - before_bytes) + draft_bytes_ p.2))
       (wrap64 (history_ p.1 - before_history))
       {| notice_scope := scope_ p.2; notice_key := None; notice_value := None;
          notice_version := version_ p.2 |} p.1,
     release_book p.2));;;
  ret (Expected true).

(** [Library::reset]. *)
Definition reset : eff (Library * Draft) (expected bool Almanac.Error) :=
  p <- read;;
  let '(l, d) := p in
  match book_ d with
  | None => ret (Unexpected input)
  | Some id =>
      if negb (owner_ d =? self l)%nat then ret (Unexpected input)
      else
        let existing := locate (scope_ d) l in
        if match existing with Some e => negb (e =? id)%nat | None => false end
        then ret (Unexpected version_error)
        else
          let '(before_bytes, before_history, _) := usage (deref id l) in
          if (wrap64 (bytes (limits_ l) - wrap64 (bytes_ l - before_bytes)) <? draft_bytes_ d)
             || (bool_decide (existing = None) && (scopes_ l =? scopes (limits_ l)))
          then ret (Unexpected capacity)
          else
            match existing with
            | None =>
                installed <- install_new (scope_ d) id;;
                match installed with
                | Unexpected e => ret (Unexpected e)
                | Expected _ => finish_reset before_bytes before_history
                end
            | Some e =>
                installed <- install e;;
                match installed with
                | Expected true => finish_reset before_bytes before_history
                | _ => ret installed
                end
            end
  end.

(** [Library::apply]. *)
Definition apply (sc : Scope) (v : Z) (k : string) (val : Value) : eff Library (expected bool Almanac.Error) :=
  if negb (Scope.valid sc) || negb (Scope.text k 1024) then ret (Unexpected input)
  else
    l <- read;;
    match locate sc l with
    | None => ret (Unexpected unready)
    | Some id =>
        let '(before_bytes, before_history, before_version) := usage (deref id l) in
        if match before_version with Some cv => negb (v =? 0) && (v <=? cv) | None => false end
        then ret (Expected false)
        else
          match Almanac.find k (deref id l) with
          | Unexpected e => ret (Unexpected e)
          | Expected (_, old) =>
              let removed := match old with Some b => key_size k + buffer_size b | None => 0 end in
              let added := match val with Some b => key_size k + buffer_size b | None => 0 end in
              if wrap64 (bytes (limits_ l) - wrap64 (bytes_ l - removed)) <? added
              then ret (Unexpected capacity)
              else
                let retention := wrap64 (history (limits_ l) - wrap64 (history_ l - before_history)) in
                r <- zoom (deref id) (λ a l, set_heap (<[id := a]> (heap l)) l)
                       (Almanac.apply exclusive v k val retention);;
                match r with
                | (Expected true, Some c) =>
                    modify (λ l,
                      let '(after_bytes, after_history, _) := usage (deref id l) in
                      settle (wrap64 (wrap64 (bytes_ l - before_bytes) + after_bytes))
                        (wrap64 (wrap64 (history_ l - before_history) + after_history))
                        {| notice_scope := sc; notice_key := Some (change_key c);
                           notice_value := change_value c; notice_version := change_version c |} l);;;
                    ret (Expected true)
                | (r, _) => ret r
                end
          end
    end.
End operations.

(** [Library::positions]. *)
Definition positions (l : Library) : list Position :=
  '(sec, spectra) ← in_order (books_ l);
  '(spec, id) ← in_order spectra;
  match (usage (deref id l)).2 with
  | Some v => [{| position_scope := {| sector := sec; spectrum := spec |}; position_version := v |}]
  | None => []
  end.

(** ** What a library promises

    The abstract library: a map from scopes to a version and its contents, that
    moves only by full replacement with a higher version or by the next change
    of one scope, and announces every move. *)
Abbreviation address := (string * string)%type.
Definition addr (sc : Scope) : address := (sector sc, spectrum sc).
Abbreviation atlas := (gmap address (Z * gmap string Buffer)).

Inductive spec_step (m : atlas) : Notice → atlas → Prop :=
| spec_replace n c :
    notice_key n = None → notice_value n = None →
    (∀ v0 c0, m !! addr (notice_scope n) = Some (v0, c0) → v0 < notice_version n) →
    spec_step m n (<[addr (notice_scope n) := (notice_version n, c)]> m)
| spec_change n k v0 c0 :
    notice_key n = Some k → m !! addr (notice_scope n) = Some (v0, c0) →
    notice_version n = v0 + 1 →
    spec_step m n (<[addr (notice_scope n) :=
      (notice_version n, apply_change c0 {| change_key := k; change_value := notice_value n;
                                            change_version := notice_version n |})]> m).

Inductive spec_run (m : atlas) : list Notice → atlas → Prop :=
| run_nil : spec_run m [] m
| run_snoc ns m1 n m2 : spec_run m ns m1 → spec_step m1 n m2 → spec_run m (ns ++ [n]) m2.

Lemma spec_run_trans m1 ns1 m2 ns2 m3 :
  spec_run m1 ns1 m2 → spec_run m2 ns2 m3 → spec_run m1 (ns1 ++ ns2) m3.
Proof.
  intros H1 H2. induction H2 as [|ns m' n m'' _ IH Hs]; [by rewrite app_nil_r|].
  rewrite app_assoc. by econstructor.
Qed.

Definition ids (l : Library) : gmap address nat :=
  map_uncurry (M1 := gmap string) (M2 := gmap string) (M12 := gmap (string * string)) (books_ l).
Definition routed (l : Library) : gmap address Almanac := omap (λ id, heap l !! id) (ids l).
Definition abs_book (a : Almanac) : Z * gmap string Buffer := (version (state_ a), contents (state_ a)).
Definition abs (l : Library) : atlas := abs_book <$> routed l.

(** Sums over maps. *)
Definition sum {A} (f : A → Z) (m : gmap address A) : Z := map_sum (λ _, f) m.

Lemma sum_insert_new {A} (f : A → Z) m i x :
  m !! i = None → sum f (<[i := x]> m) = f x + sum f m.
Proof. apply map_sum_insert_new. Qed.

Lemma sum_ext {A} (f g : A → Z) m :
  (∀ i x, m !! i = Some x → f x = g x) → sum f m = sum g m.
Proof. apply map_sum_ext. Qed.

Lemma sum_insert {A} (f : A → Z) m i x y :
  m !! i = Some x → sum f (<[i := y]> m) = sum f m - f x + f y.
Proof. apply map_sum_insert. Qed.

Lemma sum_member {A} (f : A → Z) m i x :
  (∀ j y, m !! j = Some y → 0 <= f y) → m !! i = Some x → 0 <= f x <= sum f m.
Proof. apply map_sum_member. Qed.

Lemma locate_ids sc l : locate sc l = ids l !! addr sc.
Proof. unfold locate, ids, addr. by rewrite lookup_map_uncurry. Qed.

(** ** The invariant *)
Record limits_valid (l : Limits) : Prop := {
  lv_scopes : 1 <= scopes l <= 16384;
  lv_bytes : Almanac.bytes (scope l) <= bytes l <= 4 * 1024 * 1024 * 1024;
  lv_history : is_u64 (history l);
  lv_scope : limits_ok (scope l)
}.

Definition used (a : Almanac) : Z := total_bytes (state_ a).

(** [home] gives the scope each object was created for. *)
Record lib_ok (home : nat → address) (l : Library) : Prop := {
  li_limits : limits_valid (limits_ l);
  li_heap : ∀ id a, heap l !! id = Some a → ok a ∧ Almanac.limits_ a = scope (limits_ l);
  li_route : ∀ i id, ids l !! i = Some id →
    home id = i ∧ ∃ a, heap l !! id = Some a ∧ ready_ a = true;
  li_idle : ∀ id a, heap l !! id = Some a → ids l !! home id ≠ Some id →
    ready_ a = false ∧ used a = 0 ∧ history_bytes_ a = 0;
  li_scopes : scopes_ l = Z.of_nat (size (ids l));
  li_bytes : bytes_ l = sum used (routed l);
  li_history : history_ l = sum history_bytes_ (routed l);
  li_bounds : scopes_ l <= scopes (limits_ l) ∧ bytes_ l <= bytes (limits_ l) ∧
              history_ l <= history (limits_ l)
}.

Record draft_ok (home : nat → address) (l : Library) (d : Draft) : Prop := {
  do_owner : owner_ d = self l;
  do_version : is_u64 (version_ d);
  do_book : ∀ id, book_ d = Some id →
    is_Some (heap l !! id) ∧ home id = addr (scope_ d) ∧
    ∃ m, drafting (scope (limits_ l)) (version_ d) m (draft_ d) ∧ draft_bytes_ d = weight m
}.

(** What an operation may do to a library. *)
Record progress (home : nat → address) (l : Library) (home' : nat → address) (l' : Library) : Prop := {
  pr_ok : lib_ok home' l';
  pr_self : self l' = self l;
  pr_limits : limits_ l' = limits_ l;
  pr_heap : ∀ id, is_Some (heap l !! id) → is_Some (heap l' !! id) ∧ home' id = home id;
  pr_run : ∃ ns, notified l' = notified l ++ ns ∧ spec_run (abs l) ns (abs l')
}.

Lemma progress_refl home l : lib_ok home l → progress home l home l.
Proof. intros H. split; try done. exists []. rewrite app_nil_r. split; [done|constructor]. Qed.

Lemma draft_ok_stable home l home' l' d :
  progress home l home' l' → draft_ok home l d → draft_ok home' l' d.
Proof.
  intros [_ Hs Hl Hh _] [D1 D2 D3]. split; [by rewrite Hs|done|].
  intros id Hid. destruct (D3 id Hid) as (H1 & H2 & H3). destruct (Hh id H1) as [H4 H5].
  rewrite H5, Hl. done.
Qed.

Lemma routed_lookup l i a :
  routed l !! i = Some a ↔ ∃ id, ids l !! i = Some id ∧ heap l !! id = Some a.
Proof. unfold routed. rewrite lookup_omap, bind_Some. done. Qed.

Lemma ok_used_nonneg a : ok a → 0 <= used a.
Proof. intros [_ [_ Hb _] _ _ _ _ _ _]. unfold used. rewrite Hb. apply weight_nonneg. Qed.

Lemma ok_history_nonneg a : ok a → 0 <= history_bytes_ a.
Proof.
  intros [_ _ _ _ _ Ht _ _]. rewrite Ht. clear. induction (Almanac.history_ a) as [|c h IH]; [done|].
  change (0 <= change_bytes c + total h). pose proof (change_bytes_pos c). lia.
Qed.

Section invariant.
Context (home : nat → address) (l : Library) (Hl : lib_ok home l).

Lemma routed_ok i a : routed l !! i = Some a → ok a.
Proof. intros (id & _ & H)%routed_lookup. by destruct (li_heap _ _ Hl id a H). Qed.

Lemma used_member i a : routed l !! i = Some a → 0 <= used a <= bytes_ l.
Proof.
  rewrite (li_bytes _ _ Hl). apply sum_member. intros j y Hj. apply ok_used_nonneg. by eapply routed_ok.
Qed.

Lemma history_member i a : routed l !! i = Some a → 0 <= history_bytes_ a <= history_ l.
Proof.
  rewrite (li_history _ _ Hl). apply sum_member. intros j y Hj. apply ok_history_nonneg. by eapply routed_ok.
Qed.

Lemma bytes_nonneg : 0 <= bytes_ l ∧ 0 <= history_ l.
Proof.
  rewrite (li_bytes _ _ Hl), (li_history _ _ Hl).
  assert (H : ∀ (f : Almanac → Z), (∀ a, ok a → 0 <= f a) → 0 <= sum f (routed l)).
  { intros f Hf. destruct (decide (routed l = ∅)) as [->|(i & a & Hi)%map_choose]; [done|].
    pose proof (sum_member f (routed l) i a
        ltac:(intros j y Hj; apply Hf; by eapply routed_ok) Hi). lia. }
  split; apply H; [apply ok_used_nonneg|apply ok_history_nonneg].
Qed.
End invariant.

(** ** Updating one object *)
Lemma ids_heap h l : ids (set_heap h l) = ids l.
Proof. done. Qed.

(** Writing back a routed object rewrites exactly its scope. *)
Lemma routed_update home l id a :
  lib_ok home l → ids l !! home id = Some id →
  routed (set_heap (<[id := a]> (heap l)) l) = <[home id := a]> (routed l).
Proof.
  intros Hl Hid. apply map_eq. intros i. unfold routed. rewrite ids_heap, lookup_omap.
  destruct (decide (i = home id)) as [->|Hne].
  - rewrite Hid. simpl. by rewrite !lookup_insert_eq.
  - rewrite lookup_insert_ne by done. rewrite lookup_omap.
    destruct (ids l !! i) as [id'|] eqn:Ei; [|done]. simpl.
    destruct (li_route _ _ Hl i id' Ei) as [Hh _]. rewrite lookup_insert_ne; [done|].
    intros ->. done.
Qed.

Lemma routed_idle home l id a :
  lib_ok home l → ids l !! home id ≠ Some id →
  routed (set_heap (<[id := a]> (heap l)) l) = routed l.
Proof.
  intros Hl Hid. apply map_eq. intros i. unfold routed. rewrite ids_heap, !lookup_omap.
  destruct (ids l !! i) as [id'|] eqn:Ei; [|done]. simpl.
  destruct (li_route _ _ Hl i id' Ei) as [Hh _]. rewrite lookup_insert_ne; [done|].
  intros ->. by rewrite Hh in Hid.
Qed.

Lemma still_used a a' : ok a → still a a' → used a' = used a ∧ history_bytes_ a' = history_bytes_ a.
Proof.
  intros Ha [Ha' Hc _ _ Hh _]. unfold used.
  rewrite (so_bytes _ (ok_state _ Ha)), (so_bytes _ (ok_state _ Ha')), Hc.
  by rewrite (ok_total _ Ha), (ok_total _ Ha'), Hh.
Qed.

(** An object that shows the same state can be written back anywhere. *)
Lemma update_still home l id a a' :
  lib_ok home l → heap l !! id = Some a → still a a' →
  progress home l home (set_heap (<[id := a']> (heap l)) l).
Proof.
  intros Hl Hid Hst. destruct (li_heap _ _ Hl id a Hid) as [Ha Hlim].
  destruct (still_used a a' Ha Hst) as [Hu Hh]. pose proof Hst as [Ha' Hc Hv Hr _ Hli].
  set (l' := set_heap _ l).
  assert (Hroute : routed l' = routed l ∨
    (ids l !! home id = Some id ∧ routed l' = <[home id := a']> (routed l) ∧ routed l !! home id = Some a)).
  { destruct (decide (ids l !! home id = Some id)) as [E|E].
    - right. split; [done|]. split; [by apply routed_update|]. apply routed_lookup. by exists id.
    - left. by apply (routed_idle home). }
  assert (Habs : abs l' = abs l).
  { unfold abs. destruct Hroute as [->|(_ & -> & Hra)]; [done|].
    rewrite fmap_insert. apply insert_id. rewrite lookup_fmap, Hra. simpl. unfold abs_book.
    by rewrite Hc, Hv. }
  split; [|done|done| |].
  - split; try apply Hl.
    + intros id' b. simpl. destruct (decide (id' = id)) as [->|Hne].
      * rewrite lookup_insert_eq. intros [= <-]. split; [done|]. by rewrite Hli.
      * rewrite lookup_insert_ne by done. apply Hl.
    + intros i id' Hi. destruct (li_route _ _ Hl i id' Hi) as (H1 & b & H2 & H3). split; [done|].
      simpl. destruct (decide (id' = id)) as [->|Hne].
      * exists a'. rewrite lookup_insert_eq. simplify_eq. by rewrite Hr.
      * exists b. by rewrite lookup_insert_ne.
    + intros id' b. simpl. destruct (decide (id' = id)) as [->|Hne].
      * rewrite lookup_insert_eq. intros [= <-] E.
        destruct (li_idle _ _ Hl id a Hid E) as (I1 & I2 & I3). rewrite Hr, Hu, Hh. done.
      * rewrite lookup_insert_ne by done. apply Hl.
    + change (bytes_ l = sum used (routed l')). rewrite (li_bytes _ _ Hl).
      destruct Hroute as [->|(_ & -> & Hra)]; [done|]. rewrite (sum_insert _ _ _ a) by done. lia.
    + change (history_ l = sum history_bytes_ (routed l')). rewrite (li_history _ _ Hl).
      destruct Hroute as [->|(_ & -> & Hra)]; [done|]. rewrite (sum_insert _ _ _ a) by done. lia.
  - intros id' Hs. split; [|done]. simpl. destruct (decide (id' = id)) as [->|].
    + by rewrite lookup_insert_eq.
    + by rewrite lookup_insert_ne.
  - exists []. rewrite app_nil_r, Habs. split; [done|constructor].
Qed.

(** One committed move: the object [id] now shows [a'], under its own scope. *)
Record moved (home : nat → address) (l : Library) (id : nat) (a a' : Almanac) (n : Notice)
    (l' : Library) : Prop := {
  mv_self : self l' = self l;
  mv_limits : limits_ l' = limits_ l;
  mv_heap : heap l' = <[id := a']> (heap l);
  mv_ids : ids l' = <[home id := id]> (ids l);
  mv_scopes : scopes_ l' = Z.of_nat (size (ids l'));
  mv_bytes : bytes_ l' = bytes_ l - used a + used a';
  mv_history : history_ l' = history_ l - history_bytes_ a + history_bytes_ a';
  mv_bounds : scopes_ l' <= scopes (limits_ l) ∧ bytes_ l' <= bytes (limits_ l) ∧
              history_ l' <= history (limits_ l);
  mv_notified : notified l' = notified l ++ [n]
}.

Lemma moved_routed home l id a a' n l' :
  lib_ok home l → moved home l id a a' n l' → routed l' = <[home id := a']> (routed l).
Proof.
  intros Hl [_ _ Hh Hi _ _ _ _ _]. unfold routed. rewrite Hh, Hi. apply map_eq. intros i.
  rewrite lookup_omap. destruct (decide (i = home id)) as [->|Hne].
  - rewrite !lookup_insert_eq. simpl. by rewrite lookup_insert_eq.
  - rewrite !lookup_insert_ne, lookup_omap by done.
    destruct (ids l !! i) as [id'|] eqn:Ei; [|done]. simpl.
    destruct (li_route _ _ Hl i id' Ei) as [H _]. rewrite lookup_insert_ne; [done|]. by intros ->.
Qed.

(** The accounts follow: an object without a route weighed nothing. *)
Lemma moved_sum home l id a a' n l' (f : Almanac → Z) :
  lib_ok home l → moved home l id a a' n l' → heap l !! id = Some a →
  ids l !! home id = Some id ∨ (ids l !! home id = None ∧ f a = 0) →
  sum f (routed l') = sum f (routed l) - f a + f a'.
Proof.
  intros Hl Hm Ha Hcase. rewrite (moved_routed _ _ _ _ _ _ _ Hl Hm).
  destruct Hcase as [Hid|[Hn Hf]].
  - apply sum_insert. apply routed_lookup. by exists id.
  - rewrite sum_insert_new; [lia|]. unfold routed. by rewrite lookup_omap, Hn.
Qed.

Lemma moved_progress home l id a a' n l' :
  lib_ok home l → heap l !! id = Some a → moved home l id a a' n l' →
  ids l !! home id = Some id ∨ ids l !! home id = None →
  ok a' → Almanac.limits_ a' = scope (limits_ l) → ready_ a' = true →
  spec_step (abs l) n (<[home id := abs_book a']> (abs l)) →
  progress home l home l'.
Proof.
  intros Hl Ha Hm Hcase Hok Hlim Hready Hspec.
  assert (Hidle : ids l !! home id = None → used a = 0 ∧ history_bytes_ a = 0).
  { intros Hn. eapply (li_idle _ _ Hl id a Ha). by rewrite Hn. }
  pose proof (moved_sum _ _ _ _ _ _ _ used Hl Hm Ha ltac:(naive_solver)) as Hsu.
  pose proof (moved_sum _ _ _ _ _ _ _ history_bytes_ Hl Hm Ha ltac:(naive_solver)) as Hsh.
  pose proof (moved_routed _ _ _ _ _ _ _ Hl Hm) as Hr.
  destruct Hm as [M1 M2 M3 M4 M5 M6 M7 M8 M9]. split; [|done|done| |].
  - split; rewrite ?M2, ?M3; try done.
    + apply Hl.
    + intros id' b. destruct (decide (id' = id)) as [->|]; [rewrite lookup_insert_eq|rewrite lookup_insert_ne by done].
      * by intros [= <-].
      * apply Hl.
    + rewrite M4. intros i id'. destruct (decide (i = home id)) as [->|Hne].
      * rewrite lookup_insert_eq. intros [= <-]. split; [done|]. exists a'. by rewrite lookup_insert_eq.
      * rewrite lookup_insert_ne by done. intros Hi. destruct (li_route _ _ Hl i id' Hi) as (H1 & b & H2).
        split; [done|]. exists b. rewrite lookup_insert_ne; [done|]. by intros ->.
    + rewrite M4. intros id' b. destruct (decide (id' = id)) as [->|Hne].
      * intros _. by rewrite lookup_insert_eq.
      * rewrite lookup_insert_ne by done. intros Hb Hn. apply (li_idle _ _ Hl id' b Hb). intros E.
        destruct (decide (home id' = home id)) as [Eh|Eh]; [|by rewrite lookup_insert_ne in Hn].
        rewrite Eh in E. destruct Hcase; congruence.
    + rewrite M6, (li_bytes _ _ Hl). lia.
    + rewrite M7, (li_history _ _ Hl). lia.
  - intros id' Hs. split; [|done]. rewrite M3. destruct (decide (id' = id)) as [->|].
    + by rewrite lookup_insert_eq.
    + by rewrite lookup_insert_ne.
  - exists [n]. split; [done|]. rewrite <- (app_nil_l [n]). econstructor; [constructor|].
    unfold abs. rewrite Hr, fmap_insert. done.
Qed.

(** ** Each operation *)
Section stepping.
Context (exclusive : nat → bool).

Lemma deref_heap l id a : heap l !! id = Some a → deref id l = a.
Proof. intros H. unfold deref. by rewrite H. Qed.

Lemma wp_library_set home l k b d :
  lib_ok home l → draft_ok home l d →
  wp Faulty (draft_set exclusive k b) (λ _ d', draft_ok home l d') (λ _ d', draft_ok home l d') d.
Proof.
  intros Hl Hd. unfold draft_set. destruct (negb (Scope.text k 1024)); [by wp_step|].
  wp_step. wp_step. destruct Hd as [D1 D2 D3].
  destruct (book_ d) as [id|] eqn:Eb.
  - destruct (D3 id eq_refl) as (H1 & H2 & m & Hm & Hb).
    assert (Hlo : limits_ok (scope (limits_ l))) by apply Hl.
    eapply wp_mono; [by apply (Almanac.wp_draft_set exclusive (scope (limits_ l)) (version_ d) m)|..].
    + intros [e|] d'.
      * intros [-> _]. wp_step. split; [done|done|]. intros id' Hid'. simpl in *. simplify_eq. eauto 10.
      * intros [Hk Hd']. wp_step. wp_step. wp_step. split; [done|done|]. intros id' Hid'. simpl in *.
        simplify_eq. split; [done|]. split; [done|]. exists (<[k:=b]> m). split; [done|].
        pose proof (weight_insert m k b Hk) as Hw. rewrite Hb, wrap64_small; [lia|].
        destruct Hd' as (_ & s & _ & Hs & _ & Hc & Htot & _). rewrite (so_bytes _ Hs), Hc in Htot.
        pose proof (weight_nonneg (<[k:=b]> m)). destruct Hlo as [_ Lb _ _]. unfold is_u64 in *. lia.
    + intros e d' Hd'. split; [done|done|]. intros id' Hid'. simpl in *. simplify_eq. eauto 10.
  - assert (Hno : ∀ d', owner_ d' = self l → is_u64 (version_ d') → book_ d' = None → draft_ok home l d').
    { intros d' H1 H2 H3. split; [done|done|]. by rewrite H3. }
    intros f _. destruct (Almanac.draft_set exclusive k b (draft_ d) f) as [[[[e|]|e] d'] f']; split; try done.
    + wp_step. by apply Hno.
    + wp_step. wp_step. wp_step. by apply Hno.
    + by apply Hno.
Qed.

(** A fresh object, not yet routed. *)
Definition adopt (home : nat → address) (id : nat) (i : address) : nat → address :=
  λ j, if (j =? id)%nat then i else home j.

Lemma make_library_ok l : limits_ok l → ok (Almanac.make l).
Proof.
  intros Hl. pose proof Hl as [[Hr _] [Hb _] _ _]. apply installed_ok; [done| |done|].
  - apply new_state_ok. vm_compute. split; congruence.
  - unfold contents, new_state. simpl. rewrite omap_empty, map_size_empty. lia.
Qed.

Lemma adopt_progress home l id i :
  lib_ok home l → heap l !! id = None →
  progress home l (adopt home id i)
    (set_heap (<[id := Almanac.make (scope (limits_ l))]> (heap l)) l).
Proof.
  intros Hl Hid. set (l' := set_heap _ l).
  assert (Hother : ∀ id', is_Some (heap l !! id') → (id' =? id)%nat = false ∧
    heap l' !! id' = heap l !! id').
  { intros id' [a Ha]. assert (id' ≠ id) by congruence. split; [by apply Nat.eqb_neq|].
    simpl. by rewrite lookup_insert_ne. }
  assert (Hroute : ∀ j id', ids l !! j = Some id' → is_Some (heap l !! id')).
  { intros j id' Hj. destruct (li_route _ _ Hl j id' Hj) as (_ & a & Ha & _). by exists a. }
  assert (Hr : routed l' = routed l).
  { apply map_eq. intros j. unfold routed. rewrite !lookup_omap. change (ids l') with (ids l).
    destruct (ids l !! j) as [id'|] eqn:Ej; [|done]. simpl. by apply Hother, (Hroute j). }
  split; [|done|done| |].
  - split; try apply Hl.
    + intros id' a. simpl. destruct (decide (id' = id)) as [->|].
      * rewrite lookup_insert_eq. intros [= <-]. split; [|done]. apply make_library_ok, Hl.
      * rewrite lookup_insert_ne by done. apply Hl.
    + intros j id' Hj. destruct (li_route _ _ Hl j id' Hj) as (H1 & a & H2).
      destruct (Hother id' (Hroute j id' Hj)) as [E1 E2]. unfold adopt. rewrite E1. split; [done|].
      exists a. by rewrite E2.
    + intros id' a. simpl. destruct (decide (id' = id)) as [->|Hne].
      * rewrite lookup_insert_eq. by intros [= <-] _.
      * rewrite lookup_insert_ne by done. unfold adopt. rewrite (proj2 (Nat.eqb_neq _ _)) by done. apply Hl.
    + rewrite Hr. apply Hl.
    + rewrite Hr. apply Hl.
  - intros id' Hs. destruct (Hother id' Hs) as [E1 E2]. rewrite E2. unfold adopt. by rewrite E1.
  - exists []. rewrite app_nil_r. split; [done|]. unfold abs. rewrite Hr. constructor.
Qed.

Lemma new_draft_ok home l sc v id :
  lib_ok home l → is_u64 v → is_Some (heap l !! id) → home id = addr sc →
  draft_ok home l (new_draft l sc v id).
Proof.
  intros Hl Hv [a Ha] Hh. split; [done|done|]. simpl. intros id' [= <-].
  split; [by exists a|]. split; [done|]. exists ∅. split; [|done].
  destruct (li_heap _ _ Hl id a Ha) as [Hok <-]. rewrite (deref_heap _ _ _ Ha). by apply prepare_drafting.
Qed.

Definition prepared (home : nat → address) (l l' : Library) (r : expected Draft Almanac.Error) : Prop :=
  ∃ home', progress home l home' l' ∧ match r with Expected d => draft_ok home' l' d | _ => True end.

Lemma wp_library_prepare home l sc v :
  lib_ok home l → is_u64 v →
  wp Faulty (prepare sc v) (λ r l', prepared home l l' r) (λ _ l', ∃ home', progress home l home' l') l.
Proof.
  intros Hl Hv. pose proof (progress_refl _ _ Hl) as Hp.
  assert (Hsame : ∀ e, prepared home l l (Unexpected e)) by (intros e; by exists home).
  unfold prepare. destruct (negb (Scope.valid sc)); [by wp_step|]. wp_step. wp_step.
  destruct (locate sc l) as [id|] eqn:El.
  - rewrite locate_ids in El. destruct (li_route _ _ Hl _ _ El) as (Hh & a & Ha & Hr).
    match goal with |- wp _ (if ?b then _ else _) _ _ _ => destruct b end; [by wp_step|]. wp_step. wp_step; [|eauto].
    wp_step. exists home. split; [done|]. apply new_draft_ok; eauto.
  - destruct (scopes (limits_ l) <=? scopes_ l); [by wp_step|].
    wp_step. wp_step; [|eauto]. wp_step. wp_step; [|eauto]. wp_step. wp_step.
    set (id := fresh (dom (heap l))).
    assert (Hid : heap l !! id = None) by (apply not_elem_of_dom, is_fresh).
    pose proof (adopt_progress home l id (addr sc) Hl Hid) as Hp'. cbv beta.
    set (l' := set_heap _ l) in *. wp_step. wp_step; [|by exists (adopt home id (addr sc))].
    wp_step. wp_step. wp_step. exists (adopt home id (addr sc)). split; [done|].
    apply new_draft_ok; [apply Hp'|done| |].
    + simpl. by rewrite lookup_insert_eq.
    + unfold adopt. by rewrite Nat.eqb_refl.
Qed.

(** What one key weighs in a scope. *)
Definition cost (k : string) (val : Value) : Z :=
  match val with Some b => key_size k + buffer_size b | None => 0 end.

Lemma cost_nonneg k val : 0 <= cost k val.
Proof. destruct val; simpl; [unfold key_size, buffer_size; lia|done]. Qed.

Lemma weight_without m k : weight (delete k m) = weight m - cost k (m !! k).
Proof.
  destruct (m !! k) as [b|] eqn:E; simpl.
  - rewrite (weight_delete _ _ _ E). lia.
  - rewrite delete_id by done. lia.
Qed.

Lemma weight_change m c :
  weight (apply_change m c) = weight m - cost (change_key c) (m !! change_key c)
                              + cost (change_key c) (change_value c).
Proof.
  unfold apply_change. destruct (change_value c) as [b|]; simpl.
  - rewrite weight_write, weight_without. lia.
  - rewrite weight_without. lia.
Qed.

Lemma find_ready k a : ready_ a = true → Almanac.valid k None = true →
  Almanac.find k a = Expected (version (state_ a), contents (state_ a) !! k).
Proof. intros Hr Hv. unfold Almanac.find. rewrite Hv, Hr, contents_lookup. cbn. by destruct (entries _ !! k). Qed.

Lemma wp_library_apply home l sc v k val :
  lib_ok home l → is_u64 v →
  wp Faulty (apply exclusive sc v k val) (λ _ l', progress home l home l')
    (λ _ l', progress home l home l') l.
Proof.
  intros Hl Hv. pose proof (progress_refl _ _ Hl) as Hp. unfold apply.
  destruct (_ || _); [by wp_step|]. wp_step. wp_step.
  destruct (locate sc l) as [id|] eqn:El; [|by wp_step]. rewrite locate_ids in El.
  destruct (li_route _ _ Hl _ _ El) as (Hh & a & Ha & Hr). rewrite <- Hh in El.
  destruct (li_heap _ _ Hl id a Ha) as [Hok Hlim].
  assert (Hra : routed l !! home id = Some a) by (apply routed_lookup; by exists id).
  pose proof (used_member _ _ Hl _ _ Hra) as Hu. pose proof (history_member _ _ Hl _ _ Hra) as Hhi.
  destruct (li_bounds _ _ Hl) as (_ & Bb & Bh). destruct (li_limits _ _ Hl) as [_ Lb Lh Ls].
  rewrite (deref_heap _ _ _ Ha). unfold usage at 1. rewrite Hr.
  match goal with |- wp _ (if ?b then _ else _) _ _ _ => destruct b end; [by wp_step|].
  destruct (Almanac.valid k None) eqn:Ek.
  2: { unfold Almanac.find. rewrite Ek. cbn [negb]. by wp_step. }
  rewrite find_ready by done. cbv iota.
  set (old := contents (state_ a) !! k). fold (cost k old) (cost k val) (used a).
  assert (Hold : used a = weight (contents (state_ a))) by apply (so_bytes _ (ok_state _ Hok)).
  pose proof (weight_without (contents (state_ a)) k) as Hw. fold old in Hw.
  pose proof (weight_nonneg (delete k (contents (state_ a)))) as Hw0.
  pose proof (cost_nonneg k old) as C1. pose proof (cost_nonneg k val) as C2.
  unfold is_u64, u64_max in *.
  rewrite (wrap64_small (bytes_ l - _)) by (unfold is_u64, u64_max in *; lia).
  rewrite (wrap64_small (bytes _ - _)) by (unfold is_u64, u64_max in *; lia).
  destruct (Z.ltb_spec (bytes (limits_ l) - (bytes_ l - cost k old)) (cost k val)); [by wp_step|].
  rewrite (wrap64_small (history_ l - _)) by (unfold is_u64, u64_max in *; lia).
  rewrite (wrap64_small (history _ - _)) by (unfold is_u64, u64_max in *; lia).
  wp_step. wp_step. rewrite (deref_heap _ _ _ Ha).
  eapply wp_mono; [apply (Almanac.wp_apply exclusive a v k val); [done|done|unfold is_u64, u64_max; lia]|..].
  2: { intros e a' [_ Hst]. by eapply update_still. }
  intros [[[]|e] [c|]] a'; try done.
  - intros [-> Hcm]. wp_step. wp_step. wp_step. unfold deref. simpl. rewrite lookup_insert_eq. simpl.
    destruct Hcm as [C3 [_ C4] C5 C6 C7 C8 _ C9]. simpl in C6, C7.
    assert (Hu' : used a' = used a - cost k old + cost k val).
    { unfold used at 1. rewrite (so_bytes _ (ok_state _ C3)), C8, weight_change. simpl. by rewrite Hold. }
    pose proof (ok_history_nonneg _ C3). fold (used a').
    rewrite !wrap64_small by (rewrite ?wrap64_small; unfold is_u64, u64_max; lia).
    eapply (moved_progress home l id a a'); try done.
    + split; try done.
      * change (ids l = <[home id := id]> (ids l)). by rewrite insert_id.
      * apply Hl.
      * simpl. split; [apply Hl|]. lia.
    + by left.
    + by rewrite C5.
    + rewrite Hh. unfold abs_book. rewrite C7, C8. 
      apply (spec_change _ {| notice_scope := sc; notice_key := Some k; notice_value := val;
        notice_version := v |} k (version (state_ a)) (contents (state_ a))); try done.
      cbn [notice_scope]. rewrite <- Hh. unfold abs. by rewrite lookup_fmap, Hra.
  - intros (_ & Hst & _). wp_step. by eapply update_still.
  - intros (_ & Hst & _). wp_step. by eapply update_still.
  - intros (_ & Hst & _). wp_step. by eapply update_still.
  - intros (_ & Hst & _). wp_step. by eapply update_still.
Qed.

(** Routes: added for an installation, withdrawn without a trace. *)
Lemma ids_route sc n l : ids (route sc n (open_sector sc l)) = <[addr sc := n]> (ids l).
Proof.
  apply map_eq. intros [i j]. unfold ids, route, open_sector, addr. simpl. rewrite lookup_map_uncurry.
  rewrite lookup_insert_eq, insert_insert_eq. cbn [default id]. destruct (decide (i = sector sc)) as [->|Hi].
  - rewrite lookup_insert_eq. simpl. destruct (decide (j = spectrum sc)) as [->|Hj].
    + by rewrite !lookup_insert_eq.
    + rewrite !lookup_insert_ne by congruence. rewrite lookup_map_uncurry.
      by destruct (books_ l !! sector sc).
  - rewrite !lookup_insert_ne by congruence. by rewrite lookup_map_uncurry.
Qed.

Lemma set_books_id l : set_books (books_ l) l = l.
Proof. by destruct l. Qed.

Lemma unroute_books sc l l' spectra :
  locate sc l = None → default ∅ (books_ l !! sector sc) = delete (spectrum sc) spectra →
  books_ l' = <[sector sc := spectra]> (books_ l) →
  books_ (unroute sc (bool_decide (books_ l !! sector sc = None)) l') = books_ l.
Proof.
  unfold locate. intros Hn Hd Hb. unfold unroute. simpl. rewrite Hb.
  destruct (books_ l !! sector sc) as [s|] eqn:Es.
  - rewrite bool_decide_eq_false_2 by done. simpl in Hd. rewrite lookup_insert_eq. cbn [default id].
    rewrite <- Hd, insert_insert_eq, insert_id; done.
  - rewrite bool_decide_eq_true_2 by done. by rewrite delete_insert_id.
Qed.

Lemma unroute_open sc l :
  locate sc l = None →
  unroute sc (bool_decide (books_ l !! sector sc = None)) (open_sector sc l) = l.
Proof.
  intros Hn. pose proof (unroute_books sc l (open_sector sc l) (default ∅ (books_ l !! sector sc)) Hn) as H.
  set (l' := unroute _ _ _) in *. transitivity (set_books (books_ l') l); [done|].
  rewrite H; [apply set_books_id| |done].
  unfold locate in Hn. destruct (books_ l !! sector sc) as [s|]; simpl in *.
  - by rewrite delete_id.
  - by rewrite delete_empty.
Qed.

(** The end of an installation: [a'] replaces [a] as the draft said. *)
Lemma wp_finish_reset home l d id a a' l1 d1 m :
  lib_ok home l → draft_ok home l d → book_ d = Some id → heap l !! id = Some a →
  ids l !! home id = Some id ∨ ids l !! home id = None →
  draft_bytes_ d = weight m → draft_bytes_ d <= bytes (limits_ l) - (bytes_ l - used a) →
  (used a <= bytes_ l ∧ history_bytes_ a <= history_ l) →
  (ready_ a = true → version (state_ a) < version_ d) →
  ok a' → ready_ a' = true → version (state_ a') = version_ d → contents (state_ a') = m →
  Almanac.history_ a' = [] → Almanac.limits_ a' = scope (limits_ l) →
  self l1 = self l → limits_ l1 = limits_ l → heap l1 = <[id := a']> (heap l) →
  ids l1 = <[home id := id]> (ids l) → scopes_ l1 = Z.of_nat (size (ids l1)) →
  scopes_ l1 <= scopes (limits_ l) → bytes_ l1 = bytes_ l → history_ l1 = history_ l →
  notified l1 = notified l →
  owner_ d1 = owner_ d → scope_ d1 = scope_ d → version_ d1 = version_ d → draft_bytes_ d1 = draft_bytes_ d →
  wp Faulty (finish_reset (used a) (history_bytes_ a))
    (λ _ p, progress home l home p.1 ∧ draft_ok home p.1 p.2) (λ _ _, False) (l1, d1).
Proof.
  intros Hl Hd Hb Ha Hcase Hm Hroom [Hu Hh] Hver Hok Hr Hv Hc Hhist Hlim E1 E2 E3 E4 E5 E6 E7 E8 E9 F1 F2 F3 F4.
  unfold finish_reset. wp_step. wp_step. wp_step. cbn [fst snd].
  destruct (do_book _ _ _ Hd id Hb) as (_ & Hhome & _).
  destruct (li_limits _ _ Hl) as [_ Lb Lh _]. destruct (li_bounds _ _ Hl) as (_ & Bb & Bh).
  destruct (li_heap _ _ Hl id a Ha) as [Hoka _]. pose proof (ok_used_nonneg _ Hoka).
  pose proof (ok_history_nonneg _ Hoka). pose proof (bytes_nonneg _ _ Hl) as [N1 N2].
  assert (Hu' : used a' = draft_bytes_ d) by (unfold used; rewrite (so_bytes _ (ok_state _ Hok)), Hc; done).
  assert (Hh' : history_bytes_ a' = 0) by (rewrite (ok_total _ Hok), Hhist; done).
  pose proof (ok_used_nonneg _ Hok). unfold is_u64 in *.
  rewrite E7, E8, F4, !wrap64_small by (rewrite ?wrap64_small; unfold is_u64, u64_max in *; lia).
  split.
  2: { split; [|simpl; rewrite F3; apply Hd|done].
       simpl. rewrite F1, E1. apply Hd. }
  eapply (moved_progress home l id a a'); try done.
  - split; try done.
    + cbn [bytes_ settle]. lia.
    + cbn [history_ settle]. lia.
    + cbn [scopes_ bytes_ history_ settle]. lia.
    + cbn [notified settle]. by rewrite E9.
  - unfold abs_book. rewrite Hv, Hhome, F2, F3.
    apply (spec_replace _ {| notice_scope := scope_ d; notice_key := None; notice_value := None;
      notice_version := version_ d |}); try done.
    cbn [notice_scope notice_version]. intros v0 c0. rewrite <- Hhome. unfold abs. rewrite lookup_fmap.
    destruct Hcase as [Hid|Hn].
    + assert (Hra : routed l !! home id = Some a) by (apply routed_lookup; by exists id).
      rewrite Hra. simpl. intros [= <- _]. apply Hver.
      by destruct (li_route _ _ Hl _ _ Hid) as (_ & b & Hb' & Hrb); simplify_eq.
    + unfold routed. by rewrite lookup_omap, Hn.
Qed.

Definition reset_safe (home : nat → address) (l : Library) (p : Library * Draft) : Prop :=
  progress home l home p.1 ∧ draft_ok home p.1 p.2.

Lemma reset_same home l d : lib_ok home l → draft_ok home l d → reset_safe home l (l, d).
Proof. intros Hl Hd. split; [by apply progress_refl|done]. Qed.

Lemma set_heap_id l id a : heap l !! id = Some a → set_heap (<[id := a]> (heap l)) l = l.
Proof. intros H. rewrite insert_id by done. by destruct l. Qed.

Lemma set_draft_id d : set_draft (draft_ d) d = d.
Proof. by destruct d. Qed.

(** Both branches of [reset], for a draft whose book is [id]. *)
Lemma wp_reset_existing home l d id a m :
  lib_ok home l → draft_ok home l d → book_ d = Some id → heap l !! id = Some a →
  ids l !! home id = Some id → drafting (scope (limits_ l)) (version_ d) m (draft_ d) →
  draft_bytes_ d = weight m → draft_bytes_ d <= bytes (limits_ l) - (bytes_ l - used a) →
  wp Faulty
    (installed <- install id;;
     match installed with
     | Expected true => finish_reset (used a) (history_bytes_ a)
     | _ => ret installed
     end) (λ _ p, reset_safe home l p) (λ _ p, reset_safe home l p) (l, d).
Proof.
  intros Hl Hd Hb Ha Hid Hm Hw Hroom. destruct (li_heap _ _ Hl id a Ha) as [Hok Hlim].
  assert (Hra : routed l !! home id = Some a) by (apply routed_lookup; by exists id).
  pose proof (used_member _ _ Hl _ _ Hra). pose proof (history_member _ _ Hl _ _ Hra).
  wp_step. unfold install. wp_step. cbn [fst snd]. rewrite (deref_heap _ _ _ Ha).
  rewrite <- Hlim in Hm. eapply wp_mono; [by apply (Almanac.wp_reset a (draft_ d) (version_ d) m)| |done].
  intros [[]|e] [a' dd]; cbn [fst snd].
  - intros (P1 & P2 & P3 & P4 & P5 & P6 & P7 & P8).
    eapply wp_mono; [apply (wp_finish_reset home l d id a a' _ _ m); try done|done|done].
    + by left.
    + lia.
    + by rewrite P6.
    + change (ids l = <[home id := id]> (ids l)). by rewrite insert_id.
    + apply Hl.
    + apply Hl.
  - intros ([= -> ->] & _). wp_step. rewrite set_heap_id, set_draft_id by done. by apply reset_same.
  - intros (_ & [= -> ->] & _). wp_step. rewrite set_heap_id, set_draft_id by done. by apply reset_same.
Qed.

Lemma wp_reset_new home l d id a m :
  lib_ok home l → draft_ok home l d → book_ d = Some id → heap l !! id = Some a →
  ids l !! home id = None → drafting (scope (limits_ l)) (version_ d) m (draft_ d) →
  draft_bytes_ d = weight m → draft_bytes_ d <= bytes (limits_ l) - (bytes_ l - used a) →
  scopes_ l ≠ scopes (limits_ l) →
  wp Faulty
    (installed <- install_new (scope_ d) id;;
     match installed with
     | Unexpected e => ret (Unexpected e)
     | Expected _ => finish_reset (used a) (history_bytes_ a)
     end) (λ _ p, reset_safe home l p) (λ _ p, reset_safe home l p) (l, d).
Proof.
  intros Hl Hd Hb Ha Hid Hm Hw Hroom Hsc. destruct (li_heap _ _ Hl id a Ha) as [Hok Hlim].
  destruct (do_book _ _ _ Hd id Hb) as (_ & Hhome & _).
  destruct (li_idle _ _ Hl id a Ha) as (I1 & I2 & I3); [by rewrite Hid|].
  pose proof (bytes_nonneg _ _ Hl) as [N1 N2]. destruct (li_bounds _ _ Hl) as (B1 & _ & _).
  destruct (li_limits _ _ Hl) as [Ls _ _ _].
  assert (Hloc : locate (scope_ d) l = None) by (by rewrite locate_ids, <- Hhome).
  pose proof (reset_same home l d Hl Hd) as Hsame.
  wp_step. unfold install_new. wp_step. wp_step. cbn [fst].
  wp_step. apply wp_mono with (Q := λ _ p, p = (l, d)) (E := λ _ p, p = (l, d)).
  { destruct (bool_decide _); [by wp_step|by wp_step]. }
  2: { by intros e p ->. }
  intros _ p ->. wp_step. wp_step. unfold on_library. cbn [fst snd]. wp_step. wp_step.
  wp_step.
  2: { wp_step. cbn [fst snd]. by rewrite unroute_open. }
  wp_step. wp_step. cbn [fst snd]. wp_step. unfold install. wp_step. cbn [fst snd].
  unfold deref. cbn [heap route open_sector set_books limits_]. rewrite Ha. cbn [default].
  rewrite <- Hlim in Hm. eapply wp_mono; [by apply (Almanac.wp_reset a (draft_ d) (version_ d) m)| |done].
  intros [[]|e] [a' dd]; cbn [fst snd].
  - intros (P1 & P2 & P3 & P4 & P5 & P6 & P7 & P8). wp_step. wp_step. wp_step. cbn [fst snd].
    assert (Hids : ids (count_scope (set_heap (<[id:=a']> (heap (route (scope_ d) id (open_sector (scope_ d) l))))
      (route (scope_ d) id (open_sector (scope_ d) l)))) = <[home id := id]> (ids l))
      by (rewrite Hhome; apply ids_route).
    assert (Hcnt : wrap64 (scopes_ l + 1) = scopes_ l + 1)
      by (apply wrap64_small; rewrite (li_scopes _ _ Hl) in *; unfold is_u64, u64_max; lia).
    eapply wp_mono; [apply (wp_finish_reset home l d id a a' _ _ m); try done|done|done].
    + by right.
    + lia.
    + by rewrite P6.
    + etransitivity; [|exact (f_equal (λ m : gmap address nat, Z.of_nat (size m)) (eq_sym Hids))].
      cbn [scopes_ count_scope set_heap route open_sector set_books].
      rewrite Hcnt, map_size_insert_None, (li_scopes _ _ Hl) by done. lia.
    + cbn [scopes_ count_scope set_heap route open_sector set_books]. rewrite Hcnt. lia.
  - intros (_ & E & _). congruence.
  - intros (_ & _ & E & _). congruence.
Qed.

Lemma wp_library_reset home l d :
  lib_ok home l → draft_ok home l d →
  wp Faulty reset (λ _ p, reset_safe home l p) (λ _ p, reset_safe home l p) (l, d).
Proof.
  intros Hl Hd. pose proof (reset_same home l d Hl Hd) as Hsame. unfold reset. wp_step. wp_step.
  destruct (book_ d) as [id|] eqn:Eb; [|by wp_step].
  destruct (negb _); [by wp_step|].
  destruct (do_book _ _ _ Hd id Eb) as ([a Ha] & Hhome & m & Hm & Hw).
  destruct (li_heap _ _ Hl id a Ha) as [Hok Hlim].
  rewrite (deref_heap _ _ _ Ha). unfold usage. cbv iota. fold (used a).
  pose proof (ok_used_nonneg _ Hok). pose proof (bytes_nonneg _ _ Hl) as [N1 N2].
  destruct (li_limits _ _ Hl) as [_ Lb _ _]. destruct (li_bounds _ _ Hl) as (_ & Bb & _).
  assert (Hu : ids l !! home id = Some id ∨ ids l !! home id = None → used a <= bytes_ l).
  { intros [E|E].
    - apply (used_member _ _ Hl (home id)). apply routed_lookup. by exists id.
    - destruct (li_idle _ _ Hl id a Ha) as (_ & -> & _); [by rewrite E|done]. }
  rewrite locate_ids, <- Hhome in *.
  destruct (ids l !! home id) as [e|] eqn:Ei.
  - destruct (Nat.eqb_spec e id) as [->|]; cbn [negb]; [|by wp_step].
    specialize (Hu ltac:(by left)).
    rewrite !wrap64_small by (rewrite ?wrap64_small; unfold is_u64, u64_max in *; lia).
    destruct (Z.ltb_spec (bytes (limits_ l) - (bytes_ l - used a)) (draft_bytes_ d)); [cbn [orb]; by wp_step|].
    rewrite bool_decide_eq_false_2 by done. cbn [orb andb]. by eapply wp_reset_existing.
  - specialize (Hu ltac:(by right)). cbv iota.
    rewrite !wrap64_small by (rewrite ?wrap64_small; unfold is_u64, u64_max in *; lia).
    destruct (Z.ltb_spec (bytes (limits_ l) - (bytes_ l - used a)) (draft_bytes_ d)); [cbn [orb]; by wp_step|].
    rewrite bool_decide_eq_true_2 by done. cbn [orb andb].
    destruct (Z.eqb_spec (scopes_ l) (scopes (limits_ l))); [by wp_step|]. by eapply wp_reset_new.
Qed.
End stepping.

(** ** Any interleaving of installers

    Drafts live as long as their receivers keep them: every event may use any
    draft made so far, also one that was overtaken or already consumed. *)
Record world := { lib : Library; drafts : list Draft }.

Inductive event :=
| Prepare (sc : Scope) (v : Z)
| Fill (i : nat) (k : string) (b : Buffer)
| Install (i : nat)
| Apply (sc : Scope) (v : Z) (k : string) (val : Value).

(** Versions are [uint64_t]. *)
Definition typed (e : event) : Prop :=
  match e with
  | Prepare _ v | Apply _ v _ _ => is_u64 v
  | _ => True
  end.

Definition step (w : world) (ec : event * circumstances) : world :=
  let '(e, c) := ec in
  match e with
  | Prepare sc v =>
      match prepare sc v (lib w) (script c) with
      | (Done (Expected d), l, _) => {| lib := l; drafts := drafts w ++ [d] |}
      | (_, l, _) => {| lib := l; drafts := drafts w |}
      end
  | Fill i k b =>
      match drafts w !! i with
      | Some d => {| lib := lib w;
                     drafts := <[i := (draft_set (sharing c) k b d (script c)).1.2]> (drafts w) |}
      | None => w
      end
  | Install i =>
      match drafts w !! i with
      | Some d => let '(_, p, _) := reset (lib w, d) (script c) in
                  {| lib := p.1; drafts := <[i := p.2]> (drafts w) |}
      | None => w
      end
  | Apply sc v k val =>
      {| lib := (apply (sharing c) sc v k val (lib w) (script c)).1.2; drafts := drafts w |}
  end.

Definition world_ok (w : world) : Prop :=
  ∃ home, lib_ok home (lib w) ∧ Forall (draft_ok home (lib w)) (drafts w).

(** One event: the invariant holds and the abstract library moves as announced. *)
Definition advances (l : Library) (w : world) : Prop :=
  world_ok w ∧ limits_ (lib w) = limits_ l ∧
  ∃ ns, notified (lib w) = notified l ++ ns ∧ spec_run (abs l) ns (abs (lib w)).

Lemma progress_advances home l home' l' ds :
  progress home l home' l' → Forall (draft_ok home l) ds → advances l {| lib := l'; drafts := ds |}.
Proof.
  intros Hp Hds. split; [|split; apply Hp]. exists home'. split; [apply Hp|].
  eapply Forall_impl; [exact Hds|]. intros d. by apply draft_ok_stable.
Qed.

Lemma step_advances w e c : world_ok w → typed e → advances (lib w) (step w (e, c)).
Proof.
  intros (home & Hl & Hds) Ht. pose proof (progress_refl _ _ Hl) as Hp.
  assert (Hw : advances (lib w) w) by (destruct w; by eapply progress_advances).
  destruct e as [sc v|i k b|i|sc v k val]; cbn [step].
  - pose proof (wp_library_prepare home (lib w) sc v Hl Ht (script c) I) as H.
    destruct (prepare sc v (lib w) (script c)) as [[[[d|e]|e] l'] f']; destruct H as [_ [home' H]].
    + destruct H as [H H']. split; [|split; apply H]. exists home'. split; [apply H|]. apply Forall_app. split; [|by constructor].
      eapply Forall_impl; [exact Hds|]. intros d'. by apply draft_ok_stable.
    + destruct H. by eapply progress_advances.
    + by eapply progress_advances.
  - destruct (drafts w !! i) as [d|] eqn:Ei; [|done].
    pose proof (wp_library_set (sharing c) home (lib w) k b d Hl
      ltac:(by eapply Forall_lookup_1) (script c) I) as H.
    eapply progress_advances; [exact Hp|]. apply Forall_insert; [done|].
    by destruct (draft_set (sharing c) k b d (script c)) as [[[r|e] d'] f']; destruct H.
  - destruct (drafts w !! i) as [d|] eqn:Ei; [|done].
    pose proof (wp_library_reset home (lib w) d Hl ltac:(by eapply Forall_lookup_1) (script c) I) as H.
    destruct (reset (lib w, d) (script c)) as [[r p] f'].
    assert (Hs : reset_safe home (lib w) p) by (by destruct r; destruct H).
    destruct Hs as [Hp' Hd']. split; [|split; apply Hp']. exists home. split; [apply Hp'|].
    apply Forall_insert; [|done]. eapply Forall_impl; [exact Hds|]. intros d'. by apply draft_ok_stable.
  - pose proof (wp_library_apply (sharing c) home (lib w) sc v k val Hl Ht (script c) I) as H.
    destruct (apply (sharing c) sc v k val (lib w) (script c)) as [[[r|e] l'] f'];
      destruct H; by eapply progress_advances.
Qed.

Lemma run_advances l es :
  limits_valid (limits_ l) → (∃ this, make this (limits_ l) = Done l) →
  Forall (λ e, typed e.1) es →
  let w := foldl step {| lib := l; drafts := [] |} es in
  world_ok w ∧ limits_ (lib w) = limits_ l ∧ spec_run ∅ (notified (lib w)) (abs (lib w)).
Proof.
  intros Hlim [this Hmake] Hes.
  assert (Hstart : world_ok {| lib := l; drafts := [] |} ∧ notified l = [] ∧ abs l = ∅).
  { unfold make in Hmake. destruct (_ || _); [done|]. injection Hmake as <-. split; [|done].
    exists (λ _, ("", "")%string). split; [|constructor]. split; try done.
    pose proof (lv_scopes _ Hlim). pose proof (lv_bytes _ Hlim). pose proof (lv_history _ Hlim).
    pose proof (lo_bytes _ (lv_scope _ Hlim)). unfold is_u64 in *. simpl in *. lia. }
  cbv zeta. revert Hstart.
  assert (Hgen : ∀ w, world_ok w → limits_ (lib w) = limits_ l → spec_run ∅ (notified (lib w)) (abs (lib w)) →
    let w' := foldl step w es in
    world_ok w' ∧ limits_ (lib w') = limits_ l ∧ spec_run ∅ (notified (lib w')) (abs (lib w'))).
  { induction Hes as [|[e c] es He Hes IH]; intros w H1 H2 H3; [done|]. cbn [foldl].
    destruct (step_advances w e c H1 He) as (S1 & S2 & ns & S3 & S4).
    apply IH; [done|by rewrite S2|]. rewrite S3. by eapply spec_run_trans. }
  intros (H1 & H2 & H3). apply Hgen; [done|done|]. simpl. rewrite H2, H3. constructor.
Qed.

(** ** Announcements *)
Definition announced (i : address) (ns : list Notice) : list Z :=
  notice_version <$> filter (λ n, addr (notice_scope n) = i) ns.

Lemma run_announces m ns i :
  spec_run ∅ ns m →
  last (announced i ns) = fst <$> m !! i ∧
  Forall (λ v, ∀ v0 c0, m !! i = Some (v0, c0) → v <= v0) (announced i ns) ∧
  StronglySorted Z.lt (announced i ns).
Proof.
  intros Hr. induction Hr as [|ns m1 n m2 _ IH Hs]; [by split_and!; constructor|].
  destruct IH as (I1 & I2 & I3).
  assert (Hup : (∃ c, m2 = <[addr (notice_scope n) := (notice_version n, c)]> m1) ∧
    ∀ v0 c0, m1 !! addr (notice_scope n) = Some (v0, c0) → v0 < notice_version n).
  { destruct Hs as [n c ? ? Hlt|n k v0 c0 ? Hm Hv]; [by eauto|]. split; [by eauto|].
    intros v1 c1 ?. simplify_eq. lia. }
  destruct Hup as [[c ->] Hlt]. unfold announced. rewrite filter_app, fmap_app.
  destruct (decide (addr (notice_scope n) = i)) as [<-|Hne].
  - rewrite filter_cons_True, filter_nil by done. cbn [fmap list_fmap].
    rewrite lookup_insert_eq, last_snoc. split; [done|].
    assert (Hall : Forall (λ v, v < notice_version n) (announced (addr (notice_scope n)) ns)).
    { destruct (m1 !! addr (notice_scope n)) as [[v0 c0]|] eqn:E.
      - eapply Forall_impl; [exact I2|]. simpl. intros v Hv. specialize (Hv v0 c0 eq_refl).
        specialize (Hlt v0 c0 eq_refl). lia.
      - simpl in I1. apply last_None in I1. rewrite I1. constructor. }
    split.
    + apply Forall_app. split; [|constructor; [|constructor]].
      * eapply Forall_impl; [exact Hall|]. simpl. intros v Hv v0 c0 [= <- _]. lia.
      * intros v0 c0 [= <- _]. lia.
    + apply StronglySorted_app_2; [|done|constructor; constructor].
      intros v v' Hv ->%list_elem_of_singleton. rewrite Forall_forall in Hall. by apply Hall.
  - rewrite filter_cons_False, filter_nil, app_nil_r by done. rewrite lookup_insert_ne by done. done.
Qed.

Lemma positions_elem home l sc v :
  lib_ok home l →
  {| position_scope := sc; position_version := v |} ∈ positions l ↔ fst <$> abs l !! addr sc = Some v.
Proof.
  intros Hl. unfold positions, abs. rewrite lookup_fmap, list_elem_of_bind. split.
  - intros ([sec spectra] & Hin & Hsec%in_order_elem). apply list_elem_of_bind in Hin as ([spec id] & Hin & Hspec%in_order_elem).
    assert (Hi : ids l !! (sec, spec) = Some id) by (unfold ids; rewrite lookup_map_uncurry, Hsec; done).
    destruct (li_route _ _ Hl _ _ Hi) as (_ & a & Ha & Hr). rewrite (deref_heap _ _ _ Ha) in Hin.
    unfold usage in Hin. rewrite Hr in Hin. simpl in Hin. apply list_elem_of_singleton in Hin as [= -> ->].
    unfold addr. simpl. assert (routed l !! (sec, spec) = Some a) as -> by (apply routed_lookup; by exists id). done.
  - destruct (routed l !! addr sc) as [a|] eqn:Er; [|done]. intros [= <-].
    apply routed_lookup in Er as (id & Hi & Ha). destruct (li_route _ _ Hl _ _ Hi) as (_ & a' & Ha' & Hr).
    simplify_eq. unfold ids, addr in Hi. rewrite lookup_map_uncurry in Hi.
    apply bind_Some in Hi as (spectra & Hsec & Hspec).
    exists (sector sc, spectra). split; [|by apply in_order_elem]. apply list_elem_of_bind.
    exists (spectrum sc, id). split; [|by apply in_order_elem]. rewrite (deref_heap _ _ _ Ha).
    unfold usage. rewrite Hr. simpl. apply list_elem_of_singleton. by destruct sc.
Qed.

(** C39. The global accounts are exact and bounded.  Under any interleaving of
    preparing, filling and installing drafts (also overtaken or consumed ones)
    with single-key changes, and any allocation failures, the three counters
    equal the number of routed scopes, the sum of their current bytes and the
    sum of their retained history, and each of them stays within its limit. *)
Theorem library_accounts (l : Library) (es : list (event * circumstances)) :
  limits_valid (limits_ l) → (∃ this, make this (limits_ l) = Done l) → Forall (λ e, typed e.1) es →
  let l' := lib (foldl step {| lib := l; drafts := [] |} es) in
  scopes_ l' = Z.of_nat (size (routed l')) ∧
  bytes_ l' = sum (λ a, weight (contents (state_ a))) (routed l') ∧
  history_ l' = sum (λ a, total (Almanac.history_ a)) (routed l') ∧
  scopes_ l' <= scopes (limits_ l) ∧ bytes_ l' <= bytes (limits_ l) ∧ history_ l' <= history (limits_ l).
Proof.
  intros Hlim Hmake Hes l'. destruct (run_advances l es Hlim Hmake Hes) as ((home & Hl & _) & E & _).
  fold l' in Hl, E. destruct (li_bounds _ _ Hl) as (B1 & B2 & B3). rewrite E in *.
  assert (Hsum : ∀ f g : Almanac → Z, (∀ a, ok a → f a = g a) → sum f (routed l') = sum g (routed l')).
  { intros f g Hfg. apply sum_ext. intros i a Ha. apply Hfg. by eapply routed_ok. }
  split.
  - rewrite (li_scopes _ _ Hl). f_equal. rewrite <- !size_dom. f_equal. apply set_eq. intros i.
    rewrite !elem_of_dom. split.
    + intros [id Hi]. destruct (li_route _ _ Hl i id Hi) as (_ & a & Ha & _). exists a.
      apply routed_lookup. by exists id.
    + intros [a (id & Hi & _)%routed_lookup]. by exists id.
  - split; [|split; [|done]].
    + rewrite (li_bytes _ _ Hl). apply Hsum. intros a Ha. apply (so_bytes _ (ok_state _ Ha)).
    + rewrite (li_history _ _ Hl). apply Hsum. intros a Ha. apply (ok_total _ Ha).
Qed.

(** C30. The library refines the abstract versioned map: whatever the
    interleaving and the allocation failures, the routed scopes seen as a map
    from scope to version and contents are reached from the empty map by
    exactly the announced moves, each a replacement by a higher version or the
    next single change of one scope; nothing moves without an announcement. *)
Theorem library_refines (l : Library) (es : list (event * circumstances)) :
  limits_valid (limits_ l) → (∃ this, make this (limits_ l) = Done l) → Forall (λ e, typed e.1) es →
  let l' := lib (foldl step {| lib := l; drafts := [] |} es) in
  spec_run ∅ (notified l') (abs l').
Proof. intros Hlim Hmake Hes l'. by destruct (run_advances l es Hlim Hmake Hes) as (_ & _ & H). Qed.

(** Positions are what was announced.  For every scope the announced
    versions strictly increase, and [positions] lists a scope with a version
    exactly when that version is the last one announced for it. *)
Theorem positions_announced (l : Library) (es : list (event * circumstances)) (sc : Scope) (v : Z) :
  limits_valid (limits_ l) → (∃ this, make this (limits_ l) = Done l) → Forall (λ e, typed e.1) es →
  let l' := lib (foldl step {| lib := l; drafts := [] |} es) in
  StronglySorted Z.lt (announced (addr sc) (notified l')) ∧
  ({| position_scope := sc; position_version := v |} ∈ positions l' ↔
   last (announced (addr sc) (notified l')) = Some v).
Proof.
  intros Hlim Hmake Hes l'. destruct (run_advances l es Hlim Hmake Hes) as ((home & Hl & _) & _ & Hrun).
  destruct (run_announces _ _ (addr sc) Hrun) as (H1 & _ & H3). fold l' in Hl, H1, H3. split; [done|].
  rewrite H1. by eapply positions_elem.
Qed.

Module Sample.

Definition calm : circumstances := {| sharing := λ _, false; script := [] |}.
Definition failing (f : faults) : circumstances := {| sharing := λ _, false; script := f |}.
Definition sc : Scope := {| sector := "a"; spectrum := "b" |}.
Definition byte : Buffer := [Byte.x2a].

(** Two drafts race for one new scope: the second is refused, a third is
    prepared on the installed object. *)
Definition events : list (event * circumstances) :=
  [(Prepare sc 5, calm); (Prepare sc 6, calm); (Fill 0 "k" byte, calm); (Install 0, failing [false; true]);
   (Install 0, calm); (Install 1, calm); (Apply sc 6 "m" (Some byte), calm);
   (Prepare sc 9, calm); (Install 2, calm); (Install 2, calm); (Apply sc 10 "m" (Some byte), calm)].

Definition start : Library :=
  match make 7 default_limits with Done l => l | Thrown _ =>
    {| self := 0; limits_ := default_limits; heap := ∅; books_ := ∅; scopes_ := 0; bytes_ := 0;
       history_ := 0; notified := [] |} end.

Definition final : Library := lib (foldl step {| lib := start; drafts := [] |} events).

Example sample_runs_library :
  (scopes_ final, bytes_ final, history_ final, announced (addr sc) (notified final), positions final) =
  (1, 2, 42, [5; 6; 9; 10], [{| position_scope := sc; position_version := 10 |}]).
Proof. vm_compute. done. Qed.

Lemma start_valid : limits_valid (limits_ start).
Proof. split; [vm_compute; split; congruence ..|]. split; vm_compute; split; congruence. Qed.

Lemma start_made : ∃ this, make this (limits_ start) = Done start.
Proof. exists 7%nat. vm_compute. done. Qed.

Lemma events_typed : Forall (λ e, typed e.1) events.
Proof. repeat apply List.Forall_cons; try apply List.Forall_nil; vm_compute; try split; congruence. Qed.

Lemma library_accounts_witness :
  scopes_ final = Z.of_nat (size (routed final)) ∧
  bytes_ final = sum (λ a, weight (contents (state_ a))) (routed final) ∧
  history_ final = sum (λ a, total (Almanac.history_ a)) (routed final) ∧
  scopes_ final <= scopes (limits_ start) ∧ bytes_ final <= bytes (limits_ start) ∧
  history_ final <= history (limits_ start).
Proof.
  exact (library_accounts start events start_valid start_made events_typed).
Defined.

Lemma library_refines_witness : spec_run ∅ (notified final) (abs final).
Proof. exact (library_refines start events start_valid start_made events_typed). Defined.

Lemma positions_announced_witness :
  StronglySorted Z.lt (announced (addr sc) (notified final)) ∧
  ({| position_scope := sc; position_version := 10 |} ∈ positions final ↔
   last (announced (addr sc) (notified final)) = Some 10).
Proof. exact (positions_announced start events sc 10 start_valid start_made events_typed). Defined.
End Sample.
