(* ===== verification/Index.v ===== *)
(** Rows behind a lookup table, as [scene.hpp] and [origin.hpp] keep them.

    Both templates store a record in a slot of the paged index and remember the
    slot in a table from its key.  This file relates the two structures to the
    finite map of records they stand for, with the effect of a write, of a
    removal and of a roll-back, and the byte accounts both templates keep.  It is
    generic in the key: a plain key inside a scope, or a scoped name. *)
From stdpp Require Import base numbers strings gmap list.
From S2P Require Import Prelude.
From S2P Require Import Pages.

(** What the template takes from its item type and from the compiler: the
    payload measure and the object sizes. *)
Class Layout (Item : Type) := {
  measure : Item → Z;
  sizeof_event : Z;
  sizeof_name : Z;
  sizeof_item : Z;
  measure_range : ∀ i, 0 <= measure i <= u64_max;
  sizeof_range : 0 < sizeof_event <= 4096 ∧ 0 < sizeof_name <= 4096 ∧ 0 < sizeof_item <= 4096
}.

Definition key_size (k : string) : Z := Z.of_nat (String.length k).

Section rows.
Context {K Item : Type} `{Countable K}.

(** The row behind an entry; its absence would be a null dereference. *)
Definition row_of {S} (found : option Z) (t : pages K Item) : eff S (option (K * Item)) :=
  match found with
  | None => ret None
  | Some sl => match Pages.find t sl with Some row => ret (Some row) | None => throw logic_error end
  end.

Definition forget (names : list K) (es : gmap K Z) : gmap K Z := foldl (λ es k, delete k es) es names.

(** The lookup table and the rows of the index agree on the records [m]. *)
Record tied (es : gmap K Z) (rows : gmap Z (K * Item)) (m : gmap K Item) : Prop := {
  ti_row : ∀ k sl, es !! k = Some sl → ∃ it, rows !! sl = Some (k, it) ∧ m !! k = Some it;
  ti_entry : ∀ sl k it, rows !! sl = Some (k, it) → es !! k = Some sl;
  ti_dom : ∀ k it, m !! k = Some it → is_Some (es !! k)
}.
Definition spells (t : pages K Item) (es : gmap K Z) (m : gmap K Item) : Prop :=
  ∃ rows, represents t rows ∧ tied es rows m.

(** *** Tables and rows *)
Lemma tied_size es rows m : tied es rows m → size es = size m.
Proof.
  intros [T1 _ T3]. rewrite <- !size_dom. f_equal. apply set_eq. intros k. rewrite !elem_of_dom. split.
  - intros [sl Hsl]. destruct (T1 _ _ Hsl) as (it & _ & Hm). by exists it.
  - intros [it Hm]. by eapply T3.
Qed.

Lemma tied_rows es rows m : tied es rows m → size rows = size m.
Proof.
  intros Ht. rewrite <- (tied_size es rows m Ht). destruct Ht as [T1 T2 _].
  rewrite <- (length_map_to_list rows), <- (length_map_to_list es).
  rewrite <- (length_fmap fst (map_to_list rows)), <- (length_fmap snd (map_to_list es)).
  apply Permutation_length, NoDup_Permutation.
  - apply NoDup_fst_map_to_list.
  - apply NoDup_fmap_2_strong; [|apply NoDup_map_to_list].
    intros [k1 sl1] [k2 sl2] H1%elem_of_map_to_list H2%elem_of_map_to_list Heq. simpl in Heq. subst sl2.
    destruct (T1 _ _ H1) as (i1 & Hr1 & _), (T1 _ _ H2) as (i2 & Hr2 & _). congruence.
  - intros sl. rewrite !list_elem_of_fmap. split.
    + intros ([sl' [k it]] & -> & Hr%elem_of_map_to_list). exists (k, sl'). split; [done|].
      apply elem_of_map_to_list. by eapply T2.
    + intros ([k sl'] & -> & Hk%elem_of_map_to_list). destruct (T1 _ _ Hk) as (it & Hr & _).
      exists (sl', (k, it)). split; [done|]. by apply elem_of_map_to_list.
Qed.

(** A tree read page by page: the records once each, in one order. *)
Definition turns (t : pages K Item) (l : list (K * Item)) : Prop :=
  ∀ S (reader : K → Item → eff S bool) offset maximum st f, 0 <= offset <= Z.of_nat (length l) → 0 <= maximum →
    Pages.page t offset maximum reader st f = Pages.deliver reader (take (Z.to_nat maximum) (drop (Z.to_nat offset) l)) st f.

Lemma spells_turns t es m :
  spells t es m → ∃ l, NoDup l.*1 ∧ (∀ k i, (k, i) ∈ l ↔ m !! k = Some i) ∧ size_of t = Z.of_nat (length l) ∧ turns t l.
Proof.
  intros (rows & Hrep & Ht). destruct (page_enumerates t rows Hrep) as (l & Hsort & Hin & Hpage & _). pose proof Ht as [T1 T2 T3].
  assert (Hnd : NoDup l).
  { apply (NoDup_fmap_1 fst). revert Hsort. generalize (l.*1). clear. induction 1 as [|x l _ IH Hall]; [constructor|]. constructor; [|done].
    rewrite Forall_forall in Hall. intros Hx. specialize (Hall x Hx). lia. }
  assert (Hperm : l ≡ₚ map_to_list rows).
  { apply NoDup_Permutation; [done|apply NoDup_map_to_list|]. intros [sl x]. by rewrite Hin, elem_of_map_to_list. }
  exists l.*2. split_and!.
  - rewrite <- list_fmap_compose. change (NoDup ((λ x : Z * (K * Item), x.2.1) <$> l)).
    apply NoDup_fmap_2_strong; [|done]. intros [sl [k c]] [sl' [k' c']] H1%Hin H2%Hin E. cbn in E. subst k'.
    pose proof (T2 _ _ _ H1). pose proof (T2 _ _ _ H2). assert (sl = sl') by congruence. subst sl'. congruence.
  - intros k c. rewrite list_elem_of_fmap. split.
    + intros ([sl x] & Hx & Hy%Hin). cbn in Hx. subst x. pose proof (T2 _ _ _ Hy) as He. destruct (T1 _ _ He) as (it & Hr & Hm). congruence.
    + intros Hm. destruct (T3 _ _ Hm) as [sl He]. destruct (T1 _ _ He) as (it & Hr & Hm'). exists (sl, (k, c)). split; [done|]. apply Hin. congruence.
  - destruct Hrep as (_ & -> & _). by rewrite length_fmap, Hperm, length_map_to_list.
  - intros S reader offset maximum st f Ho Hm. rewrite length_fmap in Ho. rewrite Hpage by lia. by rewrite (proj2 (Z.ltb_ge _ _)) by lia.
Qed.

Lemma tied_put es rows m k sl r :
  tied es rows m → match es !! k with Some sl' => sl' = sl | None => rows !! sl = None end →
  tied (<[k := sl]> es) (<[sl := (k, r)]> rows) (<[k := r]> m).
Proof.
  intros [T1 T2 T3] Hk.
  assert (Hfree : ∀ k' sl', k' ≠ k → es !! k' = Some sl' → sl' ≠ sl).
  { intros k' sl' Hne Hk' ->. destruct (T1 _ _ Hk') as (it & Hr & _). destruct (es !! k) as [sl'|] eqn:E; [|congruence].
    subst sl'. destruct (T1 _ _ E) as (it' & Hr' & _). congruence. }
  split.
  - intros k' sl'. destruct (decide (k' = k)) as [->|Hne].
    + rewrite lookup_insert_eq. intros [= <-]. exists r. by rewrite !lookup_insert_eq.
    + rewrite lookup_insert_ne by done. intros Hk'. pose proof (Hfree _ _ Hne Hk').
      rewrite !lookup_insert_ne by done. by apply T1.
  - intros sl' k' it. destruct (decide (sl' = sl)) as [->|Hne].
    + rewrite lookup_insert_eq. intros [= <- <-]. by rewrite lookup_insert_eq.
    + rewrite lookup_insert_ne by done. intros Hr. destruct (decide (k' = k)) as [->|Hk'].
      * pose proof (T2 _ _ _ Hr) as E. rewrite E in Hk. congruence.
      * rewrite lookup_insert_ne by done. by eapply T2.
  - intros k' it. destruct (decide (k' = k)) as [->|Hne]; [rewrite !lookup_insert_eq; intros _; by eexists|].
    rewrite !lookup_insert_ne by done. apply T3.
Qed.

Lemma tied_erase es rows m k sl :
  tied es rows m → es !! k = Some sl → tied (delete k es) (delete sl rows) (delete k m).
Proof.
  intros [T1 T2 T3] Hk. destruct (T1 _ _ Hk) as (it0 & Hr0 & _). split.
  - intros k' sl' [Hne Hk']%lookup_delete_Some. destruct (T1 _ _ Hk') as (it & Hr & Hm). exists it.
    rewrite !lookup_delete_ne by congruence. done.
  - intros sl' k' it [Hne Hr]%lookup_delete_Some. pose proof (T2 _ _ _ Hr) as E.
    rewrite lookup_delete_ne; [done|]. intros <-. congruence.
  - intros k' it [Hne Hm]%lookup_delete_Some. rewrite lookup_delete_ne by done. by eapply T3.
Qed.

(** Writing one change to the index. *)
Definition next_tree (exists_ : bool) (k : K) (record : option Item) (sl : Z) (t : pages K Item) :=
  match record with
  | Some r => Pages.set sl (if exists_ then None else Some k) r t
  | None => Pages.erase sl t
  end.
Definition next_entries (k : K) (record : option Item) (sl : Z) (es : gmap K Z) : gmap K Z :=
  match record with Some _ => <[k := sl]> es | None => delete k es end.
Definition next_shown (k : K) (record : option Item) (m : gmap K Item) : gmap K Item :=
  match record with Some r => <[k := r]> m | None => delete k m end.

(** A slot chosen for [k]: its own, or a free one for a new record. *)
Definition chosen (es : gmap K Z) (rows : gmap Z (K * Item)) (k : K) (record : option Item) (sl : Z) : Prop :=
  match es !! k with Some sl' => sl' = sl | None => rows !! sl = None ∧ is_Some record end.

Lemma write_spells t es rows m k record sl :
  represents t rows → tied es rows m → is_slot sl → reachable t sl → chosen es rows k record sl →
  spells (next_tree (bool_decide (is_Some (es !! k))) k record sl t) (next_entries k record sl es) (next_shown k record m).
Proof.
  intros Hrep Ht Hs Hreach Hc. unfold chosen in Hc. destruct record as [r|]; cbn [next_tree next_entries next_shown].
  - exists (<[sl := (k, r)]> rows). split; [|apply tied_put; [done|destruct (es !! k); [done|by destruct Hc]]].
    destruct (es !! k) as [sl'|] eqn:E.
    + subst sl'. destruct (ti_row _ _ _ Ht _ _ E) as (it & Hr & _).
      rewrite bool_decide_eq_true_2 by (by eexists).
      pose proof (set_represents t rows sl None r Hrep Hs) as Hset. cbn [effect written] in Hset. rewrite Hr in Hset.
      apply Hset; [|done]. split; [by intros []|done].
    + destruct Hc as [Hr _]. rewrite bool_decide_eq_false_2 by (by intros []).
      apply (set_represents t rows sl (Some k) r); try done.
  - destruct (es !! k) as [sl'|] eqn:E; [|by destruct Hc as [_ []]]. subst sl'.
    exists (delete sl rows). split; [|by apply tied_erase].
    apply erase_represents; try done. destruct (ti_row _ _ _ Ht _ _ E) as (it & Hr & _). by eexists.
Qed.

Lemma spells_keeps t t' es m : spells t es m → keeps t t' → spells t' es m.
Proof. intros (rows & Hrep & Ht) Hk. exists rows. split; [by eapply keeps_represents|done]. Qed.

Lemma spells_find t es m k :
  spells t es m →
  match es !! k with
  | Some sl => is_slot sl ∧ ∃ it, Pages.find t sl = Some (k, it) ∧ m !! k = Some it
  | None => m !! k = None
  end.
Proof.
  intros (rows & (W & Z1 & F & D) & [T1 T2 T3]). destruct (es !! k) as [sl|] eqn:E.
  - destruct (T1 _ _ E) as (it & Hr & Hm). pose proof (D _ _ Hr) as Hs. split; [done|]. exists it.
    by rewrite F.
  - destruct (m !! k) eqn:Em; [|done]. destruct (T3 _ _ Em) as [? ?]. congruence.
Qed.

(** *** Roll-backs *)
Lemma forget_lookup names es k : forget names es !! k = if bool_decide (k ∈ names) then None else es !! k.
Proof.
  unfold forget. revert es. induction names as [|n names IH]; intros es; simpl; [done|]. rewrite IH.
  destruct (decide (k = n)) as [->|Hne].
  - rewrite lookup_delete_eq, (bool_decide_eq_true_2 (n ∈ n :: names)) by (by left). by destruct (bool_decide _).
  - rewrite lookup_delete_ne by done. by rewrite (bool_decide_ext (k ∈ n :: names) (k ∈ names)) by set_solver.
Qed.

Lemma forget_app n1 n2 es : forget (n1 ++ n2) es = forget n2 (forget n1 es).
Proof. apply foldl_app. Qed.

Lemma forget_insert names k sl es : k ∉ names → forget names (<[k := sl]> es) = <[k := sl]> (forget names es).
Proof.
  intros Hk. apply map_eq. intros j. rewrite forget_lookup. destruct (decide (j = k)) as [->|Hne].
  - by rewrite bool_decide_eq_false_2, !lookup_insert_eq.
  - rewrite !lookup_insert_ne by done. by rewrite forget_lookup.
Qed.

Lemma forget_size names es :
  NoDup names → (∀ k, k ∈ names → is_Some (es !! k)) →
  Z.of_nat (size (forget names es)) = Z.of_nat (size es) - Z.of_nat (length names).
Proof.
  revert es. induction names as [|n names IH]; intros es Hnd Hin; [simpl; lia|].
  apply NoDup_cons in Hnd as [Hn Hnd]. destruct (Hin n ltac:(by left)) as [sl Hsl].
  change (forget (n :: names) es) with (forget names (delete n es)). rewrite IH; [|done|].
  - rewrite map_size_delete, Hsl. simpl. assert (size es ≠ 0%nat); [|lia].
    intros ->%map_size_empty_iff. by rewrite lookup_empty in Hsl.
  - intros k Hk. rewrite lookup_delete_ne by set_solver. apply Hin. by right.
Qed.

(** *** Accounts
    The sum of a positive cost over all records. *)
Section accounts.
Context (cost : K → Item → Z) (cost_pos : ∀ k i, 0 < cost k i).

Lemma content_put k r m : map_sum cost (<[k := r]> m) = map_sum cost (delete k m) + cost k r.
Proof. rewrite <- insert_delete_eq, map_sum_insert_new by apply lookup_delete_eq. lia. Qed.

Lemma content_delete k m :
  map_sum cost (delete k m) = map_sum cost m - match m !! k with Some r => cost k r | None => 0 end.
Proof.
  destruct (m !! k) as [r|] eqn:E; [rewrite (map_sum_delete cost m k r E); lia|]. rewrite delete_id by done. lia.
Qed.

Lemma content_nonneg m : 0 <= map_sum cost m.
Proof. apply map_sum_nonneg. intros k i _. pose proof (cost_pos k i). lia. Qed.

(** The sums a capacity check works with: taking the old row off the account
    cannot wrap. *)
Lemma account_next k record m limit before after :
  0 <= limit <= u64_max → map_sum cost m <= limit →
  before = match m !! k with Some r => cost k r | None => 0 end →
  after = match record with Some r => cost k r | None => 0 end →
  wrap64 (map_sum cost m - before) = map_sum cost m - before ∧
  map_sum cost m - before + after = map_sum cost (next_shown k record m).
Proof.
  intros HB Hm -> ->. pose proof (content_nonneg (delete k m)) as Hn. rewrite content_delete in Hn. split.
  - apply wrap64_small. unfold is_u64. split; [done|].
    destruct (m !! k) as [r|]; [pose proof (cost_pos k r)|]; lia.
  - destruct record as [r|]; cbn [next_shown]; [rewrite content_put|]; rewrite content_delete; lia.
Qed.
End accounts.

Lemma size_next k record (m : gmap K Item) (limit : Z) (exists_ : bool) :
  exists_ = bool_decide (is_Some (m !! k)) →
  Z.of_nat (size m) <= limit → (exists_ = false → Z.of_nat (size m) ≠ limit) →
  Z.of_nat (size (next_shown k record m)) <= limit.
Proof.
  intros -> H1 H2. destruct record as [r|]; cbn [next_shown].
  - rewrite map_size_insert. destruct (m !! k) eqn:E; simpl; [done|].
    rewrite bool_decide_eq_false_2 in H2 by (by intros []). specialize (H2 eq_refl). lia.
  - rewrite map_size_delete. destruct (m !! k); simpl; lia.
Qed.

End rows.
