(* ===== verification/Scene.v ===== *)
(** The public projection of one scope: [astra/star/src/scene.hpp].

    A [Scene] keeps the visible records of a scope in the paged index of
    [Pages.v], a lookup table from key to slot, a cursor that counts visible
    changes and a bounded history of them.  Writers prepare first and publish
    later without allocating: a single change through an [Edit], a group of
    changes through a [Batch].  Abandoning either one must leave no trace.
    The domain lock makes every operation one transition. *)
From stdpp Require Import base numbers strings gmap list.
From S2P Require Import Prelude.
From S2P Require Import Pages.
From S2P Require Import Index.

(** [Scene::Limits] and [Scene::Error]. *)
Record Limits := { records : Z; bytes : Z; history : Z; backlog : Z; retention : Z }.
Inductive Error := input | capacity | version_error | history_error.

Section scene.
Context {Item : Type} {layout : Layout Item} (limits_ : Limits).

(** [Scene::Event]; an absent record is a deletion. *)
Record Event := {
  event_name : string;
  event_record : option Item;
  event_version : Z;
  event_data : bool;
  event_bytes : Z;
  event_stored : Z
}.

(** The members of [Scene]; names are their keys. *)
Record Scene := {
  tree_ : pages string Item;
  entries_ : gmap string Z;
  history_ : list Event;
  version_ : Z;
  bytes_ : Z;
  backlog_ : Z;
  editing_ : bool
}.

Definition make : outcome Scene :=
  if retention limits_ <? 0 then Thrown invalid_argument
  else Done {| tree_ := Pages.empty; entries_ := ∅; history_ := []; version_ := 0; bytes_ := 0; backlog_ := 0;
               editing_ := false |}.

(** [Scene::weight]: [None] when the sum would not fit. *)
Definition weight (k : string) (i : Item) : option Z :=
  let metadata := sizeof_item + sizeof_name + key_size k + 128 in
  if u64_max - metadata <? measure i then None else Some (metadata + measure i).

Definition idle : eff Scene unit :=
  s <- read ;; if editing_ s then throw logic_error else ret tt.

Definition set_tree (t : pages string Item) (s : Scene) : Scene :=
  {| tree_ := t; entries_ := entries_ s; history_ := history_ s; version_ := version_ s; bytes_ := bytes_ s;
     backlog_ := backlog_ s; editing_ := editing_ s |}.
Definition set_entries (es : gmap string Z) (s : Scene) : Scene :=
  {| tree_ := tree_ s; entries_ := es; history_ := history_ s; version_ := version_ s; bytes_ := bytes_ s;
     backlog_ := backlog_ s; editing_ := editing_ s |}.
Definition set_history (h : list Event) (n : Z) (s : Scene) : Scene :=
  {| tree_ := tree_ s; entries_ := entries_ s; history_ := h; version_ := version_ s; bytes_ := bytes_ s;
     backlog_ := n; editing_ := editing_ s |}.
Definition set_editing (b : bool) (s : Scene) : Scene :=
  {| tree_ := tree_ s; entries_ := entries_ s; history_ := history_ s; version_ := version_ s; bytes_ := bytes_ s;
     backlog_ := backlog_ s; editing_ := b |}.

(** ** Reading *)

(** [Scene::View], and [Scene::empty] for a scope that does not exist. *)
Record View := { view_root : pages string Item; view_version : Z; view_size : Z; view_bytes : Z }.
Definition empty : View := {| view_root := Pages.empty; view_version := 0; view_size := 0; view_bytes := 0 |}.

Definition capture : eff Scene View :=
  idle ;;;
  gets (λ s, {| view_root := tree_ s; view_version := version_ s; view_size := size_of (tree_ s);
                view_bytes := bytes_ s |}).

(** [Scene::find]: the record, if any, and the cursor.  A row missing behind an
    entry would be a null dereference, shown as [logic_error]. *)
Definition find (k : string) : eff Scene (option Item * Z) :=
  idle ;;;
  s <- read ;;
  match entries_ s !! k with
  | None => ret (None, version_ s)
  | Some slot =>
      match Pages.find (tree_ s) slot with
      | Some (_, r) => ret (Some r, version_ s)
      | None => throw logic_error
      end
  end.

Definition history_bytes : eff Scene Z := idle ;;; gets backlog_.

Fixpoint upper_bound (since : Z) (h : list Event) : list Event :=
  match h with
  | [] => []
  | e :: rest => if since <? event_version e then h else upper_bound since rest
  end.

(** [Scene::replay]. *)
Definition replay (since : Z) : eff Scene (expected (list Event) Error) :=
  idle ;;;
  s <- read ;;
  if version_ s <? since then ret (Unexpected version_error)
  else if since =? version_ s then ret (Expected [])
  else
    match history_ s with
    | [] => ret (Unexpected history_error)
    | e :: _ =>
        if since <? event_version e - 1 then ret (Unexpected history_error)
        else
          match upper_bound since (history_ s) with
          | [] => ret (Unexpected history_error)
          | suffix => ret (Expected suffix)
          end
    end.

(** ** Single changes *)
Record Edit := { slot : Z; edit_bytes : Z; evicted : nat; added : bool; queued : bool; event : Event }.

(** The loop that counts the history prefix to drop, over the events from the
    one it looks at: too many, too heavy, or too old. *)
Definition aged (now : Z) (e : Event) : bool :=
  (event_stored e <=? now) && (retention limits_ <=? now - event_stored e).
Fixpoint evict (now budget retained weight : Z) (h : list Event) : nat :=
  match h with
  | [] => 0
  | e :: h =>
      if (history limits_ <? retained) || (budget <? weight) || aged now e
      then S (evict now budget (retained - 1) (weight - event_bytes e) h)
      else 0
  end.

(** [Edit::abort], run by the destructor of an edit that was not committed. *)
Definition abort (e : Edit) (s : Scene) : Scene :=
  let s := if queued e
           then set_history (removelast (history_ s))
                  (backlog_ s - match last (history_ s) with Some x => event_bytes x | None => 0 end) s
           else s in
  let s := if added e then set_entries (delete (event_name (event e)) (entries_ s)) s else s in
  set_editing false s.

Fixpoint heaviness (h : list Event) : Z :=
  match h with [] => 0 | e :: h => event_bytes e + heaviness h end.

(** [Edit::commit]. *)
Definition commit (e : Edit) (s : Scene) : Scene :=
  let ev := event e in
  let s := match event_record ev with
           | Some r => set_tree (Pages.set (slot e) (if added e then Some (event_name ev) else None) r (tree_ s)) s
           | None => set_entries (delete (event_name ev) (entries_ s)) (set_tree (Pages.erase (slot e) (tree_ s)) s)
           end in
  {| tree_ := tree_ s; entries_ := entries_ s; history_ := drop (evicted e) (history_ s);
     version_ := event_version ev; bytes_ := edit_bytes e;
     backlog_ := backlog_ s - heaviness (take (evicted e) (history_ s)); editing_ := false |}.

Section operations.
Context (exclusive : nat → bool).

Definition edit_with (e : Edit) (added queued : bool) (evicted : nat) : Edit :=
  {| slot := slot e; edit_bytes := edit_bytes e; evicted := evicted; added := added; queued := queued;
     event := event e |}.

(** What [sizeof(Event) + sizeof(Name) + key + payload] comes to. *)
Definition event_cost (k : string) (r : option Item) : Z :=
  sizeof_event + sizeof_name + key_size k + match r with Some i => measure i | None => 0 end.

(** The preparation after the checks; every failure runs [abort]. *)
Definition stage (name : string) (record : option Item) (now : Z) (data : bool) (keep : Z) (exists_ : bool)
    (new_bytes : Z) (at_ : Z) : eff Scene (expected Edit Error) :=
  s <- read ;;
  let draft sl ev := {| slot := sl; edit_bytes := new_bytes; evicted := 0; added := false; queued := false;
                        event := ev |} in
  let blank := {| event_name := name; event_record := record; event_version := version_ s + 1; event_data := data;
                  event_bytes := 0; event_stored := now |} in
  sl <- (if exists_ then ret at_
         else on_throw
                (sl <- lift (next (tree_ s)) ;; alloc ;;; modify (λ s, set_entries (<[name := sl]> (entries_ s)) s) ;;;
                 ret sl)
                (modify (abort (draft 0 blank)))) ;;
  let e1 := edit_with (draft sl blank) (negb exists_) false 0 in
  on_throw (zoom tree_ set_tree (Pages.prepare exclusive sl)) (modify (abort e1)) ;;;
  s <- read ;;
  let cost := event_cost name record in
  if (u64_max - (sizeof_event + sizeof_name + key_size name)
        <? match record with Some i => measure i | None => 0 end)
     || (u64_max - backlog_ s <? cost)
  then modify (abort e1) ;;; ret (Unexpected capacity)
  else
    let ev := {| event_name := name; event_record := record; event_version := version_ s + 1; event_data := data;
                 event_bytes := cost; event_stored := now |} in
    on_throw alloc (modify (abort e1)) ;;;
    modify (λ s, set_history (history_ s ++ [ev]) (backlog_ s + cost) s) ;;;
    s <- read ;;
    let n := evict now (Z.min (backlog limits_) keep) (Z.of_nat (length (history_ s))) (backlog_ s) (history_ s) in
    let e2 := edit_with (draft sl ev) (negb exists_) true n in
    on_throw alloc (modify (abort e2)) ;;;
    ret (Expected e2).

(** [Scene::prepare] of one change. *)
Definition prepare (name : option string) (record : option Item) (now : Z) (data : bool) (keep : Z)
    : eff Scene (expected Edit Error) :=
  idle ;;;
  match name with
  | None => ret (Unexpected input)
  | Some name =>
      if (key_size name =? 0) || (1024 <? key_size name) then ret (Unexpected input)
      else
        s <- read ;;
        if version_ s =? u64_max then ret (Unexpected version_error)
        else
          let found := entries_ s !! name in
          let exists_ := bool_decide (is_Some found) in
          let present := bool_decide (is_Some record) in
          if (negb present && negb exists_) || (data && (negb present || negb exists_)) then ret (Unexpected input)
          else
            modify (set_editing true) ;;;
            old <- row_of found (tree_ s) ;;
            let label := match old with Some (k, _) => k | None => name end in
            let before := match old with Some (k, r) => weight k r | None => Some 0 end in
            let after := match record with Some r => weight label r | None => Some 0 end in
            match before, after with
            | Some before, Some after =>
                if (bytes limits_ <? after) || (bytes limits_ - after <? wrap64 (bytes_ s - before))
                   || (negb exists_ && (Z.of_nat (size (entries_ s)) =? records limits_))
                then modify (set_editing false) ;;; ret (Unexpected capacity)
                else stage label record now data keep exists_ (wrap64 (bytes_ s - before) + after) (default 0 found)
            | _, _ => modify (set_editing false) ;;; ret (Unexpected capacity)
            end
  end.

(** ** Groups of changes *)
Record Batch := {
  batch_tree : pages string Item;
  batch_history : list Event;
  batch_events : list Event;
  batch_added : list string;
  batch_removed : list string;
  batch_seen : list string;
  batch_bytes : Z;
  batch_backlog : Z;
  batch_version : Z;
  batch_retention : Z;
  batch_failed : bool
}.

(** [Scene::prepare] of a group: the history is copied, the pages are shared. *)
Definition open_batch (keep : Z) : eff Scene Batch :=
  idle ;;;
  alloc ;;;
  s <- read ;;
  modify (set_editing true) ;;;
  ret {| batch_tree := tree_ s; batch_history := history_ s; batch_events := []; batch_added := [];
         batch_removed := []; batch_seen := []; batch_bytes := bytes_ s; batch_backlog := backlog_ s;
         batch_version := version_ s; batch_retention := keep; batch_failed := false |}.

(** [Batch::find]: a slot freed by this group may already belong to another key. *)
Definition batch_find (k : string) (s : Scene) : option Item * Z :=
  match entries_ s !! k ≫= Pages.find (tree_ s) with
  | Some (k', r) => if String.eqb k' k then (Some r, version_ s) else (None, version_ s)
  | None => (None, version_ s)
  end.

Definition mark_failed (failed : bool) (b : Batch) : Batch :=
  {| batch_tree := batch_tree b; batch_history := batch_history b; batch_events := batch_events b;
     batch_added := batch_added b; batch_removed := batch_removed b; batch_seen := batch_seen b;
     batch_bytes := batch_bytes b; batch_backlog := batch_backlog b; batch_version := batch_version b;
     batch_retention := batch_retention b; batch_failed := failed |}.
Definition push_event (e : Event) (b : Batch) : Batch :=
  {| batch_tree := batch_tree b; batch_history := batch_history b; batch_events := batch_events b ++ [e];
     batch_added := batch_added b; batch_removed := batch_removed b; batch_seen := batch_seen b;
     batch_bytes := batch_bytes b; batch_backlog := batch_backlog b; batch_version := batch_version b;
     batch_retention := batch_retention b; batch_failed := batch_failed b |}.
Definition push_names (added removed seen : list string) (b : Batch) : Batch :=
  {| batch_tree := batch_tree b; batch_history := batch_history b; batch_events := batch_events b;
     batch_added := batch_added b ++ added; batch_removed := batch_removed b ++ removed;
     batch_seen := batch_seen b ++ seen;
     batch_bytes := batch_bytes b; batch_backlog := batch_backlog b; batch_version := batch_version b;
     batch_retention := batch_retention b; batch_failed := batch_failed b |}.
Definition put_tree (t : pages string Item) (b : Batch) : Batch :=
  {| batch_tree := t; batch_history := batch_history b; batch_events := batch_events b;
     batch_added := batch_added b; batch_removed := batch_removed b; batch_seen := batch_seen b;
     batch_bytes := batch_bytes b; batch_backlog := batch_backlog b; batch_version := batch_version b;
     batch_retention := batch_retention b; batch_failed := batch_failed b |}.

(** The end of [Batch::set]: the candidate history is trimmed in place. *)
Definition finish_set (e : Event) (now new_bytes : Z) (b : Batch) : Batch :=
  let h := batch_history b ++ [e] in
  let weight := batch_backlog b + event_bytes e in
  let n := evict now (Z.min (backlog limits_) (batch_retention b)) (Z.of_nat (length h)) weight h in
  {| batch_tree := batch_tree b; batch_history := drop n h; batch_events := batch_events b;
     batch_added := batch_added b; batch_removed := batch_removed b; batch_seen := batch_seen b;
     batch_bytes := new_bytes; batch_backlog := weight - heaviness (take n h);
     batch_version := batch_version b + 1; batch_retention := batch_retention b; batch_failed := false |}.

Definition on_batch (f : Batch → Batch) (p : Scene * Batch) : Scene * Batch := (p.1, f p.2).
Definition on_owner (f : Scene → Scene) (p : Scene * Batch) : Scene * Batch := (f p.1, p.2).

(** The writes of [Batch::set] once the checks have passed. *)
Definition write_batch (label : string) (record : option Item) (now : Z) (exists_ : bool) (sl new_bytes : Z)
    (e : Event) : eff (Scene * Batch) (option Error) :=
  alloc ;;; modify (on_batch (push_event e)) ;;;
  alloc ;;; modify (on_batch (push_names [] [] [label])) ;;;
  (if negb exists_ then
     alloc ;;; modify (on_batch (push_names [label] [] [])) ;;;
     alloc ;;; modify (on_owner (λ s, set_entries (<[label := sl]> (entries_ s)) s))
   else if bool_decide (record = None) then
     alloc ;;; modify (on_batch (push_names [] [label] []))
   else ret tt) ;;;
  zoom (λ p, batch_tree p.2) (λ t, on_batch (put_tree t)) (Pages.prepare exclusive sl) ;;;
  modify (on_batch (λ b, put_tree
    match record with
    | Some r => Pages.set sl (if exists_ then None else Some label) r (batch_tree b)
    | None => Pages.erase sl (batch_tree b)
    end b)) ;;;
  alloc ;;;
  modify (on_batch (finish_set e now new_bytes)) ;;;
  ret None.

(** [Batch::set]; [None] is success. *)
Definition batch_set (name : option string) (record : option Item) (now : Z) (data : bool)
    : eff (Scene * Batch) (option Error) :=
  p <- read ;;
  let '(s, b) := p in
  match name with
  | None => modify (on_batch (mark_failed true)) ;;; ret (Some input)
  | Some name =>
      if batch_failed b || (key_size name =? 0) || (1024 <? key_size name)
      then modify (on_batch (mark_failed true)) ;;; ret (Some input)
      else
        modify (on_batch (mark_failed true)) ;;;
        if batch_version b =? u64_max then ret (Some version_error)
        else
          let found := entries_ s !! name in
          let exists_ := bool_decide (is_Some found) in
          let present := bool_decide (is_Some record) in
          if (negb present && negb exists_) || (data && (negb present || negb exists_))
             || bool_decide (name ∈ batch_seen b)
          then ret (Some input)
          else
            sl <- match found with Some sl => ret sl | None => lift (next (batch_tree b)) end ;;
            old <- row_of found (tree_ s) ;;
            let label := match old with Some (k, _) => k | None => name end in
            let before := match old with Some (k, r) => weight k r | None => Some 0 end in
            let after := match record with Some r => weight label r | None => Some 0 end in
            match before, after with
            | Some before, Some after =>
                let cost := event_cost label record in
                if (bytes limits_ <? after) || (bytes limits_ - after <? wrap64 (batch_bytes b - before))
                   || (negb exists_ && (Z.of_nat (size (entries_ s)) - Z.of_nat (length (batch_removed b))
                                        =? records limits_))
                then ret (Some capacity)
                else if (u64_max - (sizeof_event + sizeof_name + key_size label)
                           <? match record with Some i => measure i | None => 0 end)
                        || (u64_max - batch_backlog b <? cost)
                then ret (Some capacity)
                else
                  write_batch label record now exists_ sl (wrap64 (batch_bytes b - before) + after)
                    {| event_name := label; event_record := record; event_version := batch_version b + 1;
                       event_data := data; event_bytes := cost; event_stored := now |}
            | _, _ => ret (Some capacity)
            end
  end.
End operations.

(** [Batch::commit] and [Batch::abort]. *)
Definition batch_commit (b : Batch) (s : Scene) : Scene :=
  {| tree_ := batch_tree b; entries_ := forget (batch_removed b) (entries_ s); history_ := batch_history b;
     version_ := batch_version b; bytes_ := batch_bytes b; backlog_ := batch_backlog b; editing_ := false |}.

Definition batch_abort (b : Batch) (s : Scene) : Scene :=
  set_editing false (set_entries (forget (batch_added b) (entries_ s)) s).

(** ** What a scene holds
    [log] is every change committed so far, oldest first. *)
Definition apply_event (m : gmap string Item) (e : Event) : gmap string Item :=
  match event_record e with Some r => <[event_name e := r]> m | None => delete (event_name e) m end.
Definition shown (log : list Event) : gmap string Item := foldl apply_event ∅ log.

Definition row_weight (k : string) (i : Item) : Z := sizeof_item + sizeof_name + key_size k + 128 + measure i.
Definition content_bytes (m : gmap string Item) : Z := map_sum row_weight m.

(** The history is a suffix of the log, whose versions count from one. *)
Record chronicle (log h : list Event) (v : Z) : Prop := {
  ch_version : v = Z.of_nat (length log) ∧ v <= u64_max;
  ch_order : ∀ i e, log !! i = Some e → event_version e = Z.of_nat i + 1;
  ch_cost : Forall (λ e, event_bytes e = event_cost (event_name e) (event_record e)) log;
  ch_suffix : h `suffix_of` log
}.

Record scene_ok (s : Scene) (log : list Event) : Prop := {
  so_idle : editing_ s = false;
  so_spells : spells (tree_ s) (entries_ s) (shown log);
  so_bytes : bytes_ s = content_bytes (shown log) ∧ content_bytes (shown log) <= bytes limits_;
  so_size : Z.of_nat (size (shown log)) <= records limits_;
  so_log : chronicle log (history_ s) (version_ s);
  so_backlog : backlog_ s = heaviness (history_ s);
  so_bounds : Z.of_nat (length (history_ s)) <= history limits_ ∧ backlog_ s <= backlog limits_
}.

Record limits_ok : Prop := {
  li_bytes : 0 <= bytes limits_ <= u64_max;
  li_records : 0 <= records limits_;
  li_history : 0 <= history limits_;
  li_backlog : 0 <= backlog limits_
}.

Lemma shown_snoc log e : shown (log ++ [e]) = apply_event (shown log) e.
Proof. unfold shown. by rewrite foldl_app. Qed.

Lemma weight_some k i w : weight k i = Some w → w = row_weight k i.
Proof. unfold weight, row_weight. case_match; [done|]. intros [= <-]. lia. Qed.

Lemma row_weight_pos k i : 0 < row_weight k i.
Proof. unfold row_weight, key_size. pose proof (measure_range i). pose proof sizeof_range. lia. Qed.

Lemma event_cost_pos k r : 0 < event_cost k r.
Proof.
  unfold event_cost, key_size. pose proof sizeof_range.
  destruct r as [i|]; [pose proof (measure_range i)|]; lia.
Qed.

(** *** Histories *)
Lemma heaviness_app h1 h2 : heaviness (h1 ++ h2) = heaviness h1 + heaviness h2.
Proof. induction h1 as [|e h1 IH]; simpl; [done|]. rewrite IH. lia. Qed.

Lemma heaviness_split n h : heaviness h = heaviness (take n h) + heaviness (drop n h).
Proof. rewrite <- heaviness_app. by rewrite take_drop. Qed.

Definition costed (h : list Event) : Prop :=
  Forall (λ e, event_bytes e = event_cost (event_name e) (event_record e)) h.

Lemma heaviness_nonneg h : costed h → 0 <= heaviness h.
Proof.
  induction h as [|e h IH]; simpl; [done|]. intros [He Hh]%Forall_cons. specialize (IH Hh).
  pose proof (event_cost_pos (event_name e) (event_record e)). lia.
Qed.

(** What is left after [evict] fits both bounds. *)
Lemma scene_evict_spec now budget h :
  limits_ok → 0 <= budget → costed h →
  let n := evict now budget (Z.of_nat (length h)) (heaviness h) h in
  Z.of_nat (length (drop n h)) <= history limits_ ∧ heaviness (drop n h) <= budget.
Proof.
  intros HL Hb. induction h as [|e h IH]; intros Hc; simpl.
  { pose proof (li_history HL). lia. }
  apply Forall_cons in Hc as [He Hc]. destruct (_ || _) eqn:E.
  - simpl. replace (Z.of_nat (S (length h)) - 1) with (Z.of_nat (length h)) by lia.
    replace (event_bytes e + heaviness h - event_bytes e) with (heaviness h) by lia. by apply IH.
  - rewrite !orb_false_iff, !Z.ltb_ge in E. simpl. lia.
Qed.

Lemma chronicle_costed log h v : chronicle log h v → costed h.
Proof. intros [_ _ C3 [pre ->]]. unfold costed. by apply Forall_app in C3 as [_ ?]. Qed.

Lemma chronicle_extend log h v e :
  chronicle log h v → v < u64_max → event_version e = v + 1 →
  event_bytes e = event_cost (event_name e) (event_record e) →
  chronicle (log ++ [e]) (h ++ [e]) (v + 1).
Proof.
  intros [[C1 _] C2 C3 [pre ->]] Hv He Hc. split.
  - rewrite C1 in *. rewrite !length_app in *. simpl. lia.
  - intros i x [Hi|[Hi Hx]]%lookup_app_Some; [by apply C2|].
    apply list_lookup_singleton_Some in Hx as [Hx <-]. rewrite He, C1. lia.
  - apply Forall_app_2; [done|]. by apply Forall_singleton.
  - exists pre. by rewrite app_assoc.
Qed.

Lemma chronicle_drop n log h v : chronicle log h v → chronicle log (drop n h) v.
Proof.
  intros [C1 C2 C3 [pre C4]]. split; try done. exists (pre ++ take n h). rewrite <- app_assoc, take_drop. done.
Qed.

(** *** Accounts *)
(** The sums the capacity check works with. *)
Lemma accounts k record m total before after :
  limits_ok → total = content_bytes m → content_bytes m <= bytes limits_ →
  Some before = match m !! k with Some r => weight k r | None => Some 0 end →
  Some after = match record with Some r => weight k r | None => Some 0 end →
  after <= bytes limits_ → wrap64 (total - before) <= bytes limits_ - after →
  wrap64 (total - before) + after = content_bytes (next_shown k record m) ∧
  content_bytes (next_shown k record m) <= bytes limits_.
Proof.
  intros HL -> Hm Hb Ha H1 H2.
  assert (Hbefore : before = match m !! k with Some r => row_weight k r | None => 0 end).
  { destruct (m !! k); [|congruence]. by apply weight_some. }
  assert (Hafter : after = match record with Some r => row_weight k r | None => 0 end).
  { destruct record; [|congruence]. by apply weight_some. }
  destruct (account_next row_weight row_weight_pos k record m _ _ _ (li_bytes HL) Hm Hbefore Hafter) as [E1 E2].
  unfold content_bytes in *. rewrite E1 in *. lia.
Qed.

(** ** Single changes: either committed or without a trace *)
Section edits.
Context (exclusive : nat → bool) (HL : limits_ok).

Definition staged (s : Scene) (t : pages string Item) (es : gmap string Z) (h : list Event) (n : Z) : Scene :=
  {| tree_ := t; entries_ := es; history_ := h; version_ := version_ s; bytes_ := bytes_ s; backlog_ := n;
     editing_ := true |}.
Definition staged_entries (exists_ : bool) (k : string) (sl : Z) (es : gmap string Z) : gmap string Z :=
  if exists_ then es else <[k := sl]> es.

Lemma ok_keeps s log t : scene_ok s log → keeps (tree_ s) t → scene_ok (set_tree t s) log.
Proof. intros [] Hk. split; try done. by eapply spells_keeps. Qed.

(** The scene as it was, up to how its pages are shared. *)
Definition undisturbed (w : Z) (log : list Event) (s : Scene) : Prop := scene_ok s log ∧ backlog_ s = w.

Lemma abort_staged s log t (exists_ : bool) k sl e :
  scene_ok s log → keeps (tree_ s) t → (exists_ = false → entries_ s !! k = None) →
  event_name (event e) = k → added e = negb exists_ → queued e = false →
  undisturbed (backlog_ s) log (abort e (staged s t (staged_entries exists_ k sl (entries_ s)) (history_ s) (backlog_ s))).
Proof.
  intros Hok Hk Hnew Hn Ha Hq.
  assert (abort e (staged s t (staged_entries exists_ k sl (entries_ s)) (history_ s) (backlog_ s)) = set_tree t s) as ->;
    [|by split; [apply ok_keeps|]].
  unfold abort, staged, staged_entries, set_tree. rewrite Hq, Ha, Hn, (so_idle _ _ Hok).
  destruct exists_; [done|]. unfold set_editing, set_entries. cbn.
  by rewrite delete_insert_id by (by apply Hnew).
Qed.

Lemma abort_queued s log t (exists_ : bool) k sl e ev :
  scene_ok s log → keeps (tree_ s) t → (exists_ = false → entries_ s !! k = None) →
  event_name (event e) = k → added e = negb exists_ → queued e = true →
  undisturbed (backlog_ s) log (abort e (staged s t (staged_entries exists_ k sl (entries_ s)) (history_ s ++ [ev])
    (backlog_ s + event_bytes ev))).
Proof.
  intros Hok Hk Hnew Hn Ha Hq. pose proof (abort_staged s log t exists_ k sl (edit_with e (added e) false 0) Hok Hk Hnew Hn Ha eq_refl) as H.
  unfold abort in *. rewrite Hq. cbn [queued edit_with added event] in H.
  unfold set_history. cbn [staged history_ backlog_ tree_ entries_ version_ bytes_ editing_].
  rewrite removelast_last, last_snoc. rewrite Z.add_simpl_r. exact H.
Qed.

Lemma commit_staged s log t rows record k sl now data keep new_bytes :
  scene_ok s log → keeps (tree_ s) t → represents t rows → tied (entries_ s) rows (shown log) →
  is_slot sl → reachable t sl → chosen (entries_ s) rows k record sl → 0 <= keep →
  version_ s < u64_max →
  new_bytes = content_bytes (next_shown k record (shown log)) → new_bytes <= bytes limits_ →
  Z.of_nat (size (next_shown k record (shown log))) <= records limits_ →
  let exists_ := bool_decide (is_Some (entries_ s !! k)) in
  let ev := {| event_name := k; event_record := record; event_version := version_ s + 1; event_data := data;
               event_bytes := event_cost k record; event_stored := now |} in
  let h := history_ s ++ [ev] in
  let n := evict now (Z.min (backlog limits_) keep) (Z.of_nat (length h)) (backlog_ s + event_bytes ev) h in
  let e := {| slot := sl; edit_bytes := new_bytes; evicted := n; added := negb exists_; queued := true; event := ev |} in
  let s' := commit e (staged s t (staged_entries exists_ k sl (entries_ s)) h (backlog_ s + event_bytes ev)) in
  scene_ok s' (log ++ [ev]) ∧ backlog_ s' <= keep.
Proof.
  intros Hok Hk Hrep Ht Hs Hreach Hc Hkeep Hv Hb Hbl Hsz exists_ ev h n e s'. unfold s'. clear s'.
  pose proof (chronicle_extend _ _ _ ev (so_log _ _ Hok) Hv eq_refl eq_refl) as Hch. fold h in Hch.
  assert (Hw : backlog_ s + event_bytes ev = heaviness h).
  { unfold h. rewrite heaviness_app, (so_backlog _ _ Hok). simpl. lia. }
  pose proof (scene_evict_spec now (Z.min (backlog limits_) keep) h HL ltac:(pose proof (li_backlog HL); lia)
    (chronicle_costed _ _ _ Hch)) as [E1 E2]. rewrite <- Hw in E1, E2. fold n in E1, E2.
  pose proof (write_spells t _ rows _ k record sl Hrep Ht Hs Hreach Hc) as Hspell. fold exists_ in Hspell.
  assert (Hshown : shown (log ++ [ev]) = next_shown k record (shown log)) by (rewrite shown_snoc; by destruct record).
  assert (Htree : tree_ (commit e (staged s t (staged_entries exists_ k sl (entries_ s)) h (backlog_ s + event_bytes ev)))
    = next_tree exists_ k record sl t).
  { unfold commit. cbn [event e event_record ev]. by destruct record, exists_. }
  assert (Hent : entries_ (commit e (staged s t (staged_entries exists_ k sl (entries_ s)) h (backlog_ s + event_bytes ev)))
    = next_entries k record sl (entries_ s)).
  { unfold commit, staged_entries. cbn [event e event_record ev]. unfold chosen in Hc.
    destruct record as [r|]; cbn; unfold exists_; destruct (entries_ s !! k) as [sl'|] eqn:E; simpl.
    - subst sl'. symmetry. by apply insert_id.
    - done.
    - done.
    - by destruct Hc as [_ [? ?]]. }
  set (s' := commit e _) in *.
  assert (Hback : backlog_ s' = heaviness h - heaviness (take n h)) by (rewrite <- Hw; unfold s', commit; by destruct record).
  assert (Hhist : history_ s' = drop n h) by (unfold s', commit; by destruct record).
  assert (Hvb : version_ s' = version_ s + 1 ∧ bytes_ s' = new_bytes ∧ editing_ s' = false)
    by (unfold s', commit; by destruct record).
  destruct Hvb as (Hv' & Hb' & He'). pose proof (heaviness_split n h).
  split; [split|]; rewrite ?Hshown, ?Htree, ?Hent, ?Hhist, ?Hv', ?Hb', ?Hback; try done; try lia.
  by apply chronicle_drop.
Qed.

(** What [prepare] promises: a refusal or an exception leaves the scene as it
    was, and an edit can still go both ways. *)
Definition prepared (w keep : Z) (log : list Event) (k : string) (record : option Item) (r : expected Edit Error) (s' : Scene) : Prop :=
  match r with
  | Unexpected _ => undisturbed w log s'
  | Expected e =>
      undisturbed w log (abort e s') ∧ scene_ok (commit e s') (log ++ [event e]) ∧ backlog_ (commit e s') <= keep ∧
      event_name (event e) = k ∧ event_record (event e) = record
  end.
Definition undone (w : Z) (log : list Event) (e : exn) (s' : Scene) : Prop :=
  (e = bad_alloc ∨ e = overflow_error) ∧ undisturbed w log s'.

Lemma stage_wp s log k record now data keep new_bytes :
  scene_ok s log → 0 <= keep → version_ s < u64_max →
  (record = None → is_Some (entries_ s !! k)) →
  new_bytes = content_bytes (next_shown k record (shown log)) → new_bytes <= bytes limits_ →
  Z.of_nat (size (next_shown k record (shown log))) <= records limits_ →
  wp Faulty (stage exclusive k record now data keep (bool_decide (is_Some (entries_ s !! k))) new_bytes
               (default 0 (entries_ s !! k)))
    (prepared (backlog_ s) keep log k record) (undone (backlog_ s) log) (set_editing true s).
Proof.
  intros Hok Hkeep Hv Hrec Hb Hbl Hsz. set (exists_ := bool_decide _).
  assert (Hnew : exists_ = false → entries_ s !! k = None).
  { intros Hx%bool_decide_eq_false. by apply eq_None_not_Some. }
  destruct (so_spells _ _ Hok) as (rows & Hrep & Ht).
  unfold stage. wp_step. wp_step. cbv zeta. wp_step.
  apply wp_mono with (Q := λ sl s1, s1 = staged s (tree_ s) (staged_entries exists_ k sl (entries_ s)) (history_ s) (backlog_ s) ∧
    is_slot sl ∧ chosen (entries_ s) rows k record sl) (E := undone (backlog_ s) log); [| |done].
  { unfold chosen. destruct exists_ eqn:Ex.
    - wp_step. unfold exists_ in Ex. apply bool_decide_eq_true in Ex as [sl E]. rewrite E. simpl. split_and!; try done.
      destruct (ti_row _ _ _ Ht _ _ E) as (it & Hr & _). by eapply Hrep.
    - rewrite Hnew by done. wp_step. wp_step. wp_step. 
      destruct (next (tree_ (set_editing true s))) as [sl|e] eqn:En.
      + destruct (next_free _ _ _ Hrep En) as [Hs Hr]. repeat wp_step.
        * split_and!; try done. destruct record; [by eexists|]. specialize (Hrec eq_refl). rewrite Hnew in Hrec by done. by destruct Hrec.
        * split; [by left|]. unfold abort. cbn. replace (set_editing false (set_editing true s)) with s; [by split|].
          pose proof (so_idle _ _ Hok). destruct s; simpl in *. by subst.
      + wp_step. split; [right; eapply next_throws; [apply Hrep|done]|]. unfold abort. cbn.
        replace (set_editing false (set_editing true s)) with s; [by split|].
        pose proof (so_idle _ _ Hok). destruct s; simpl in *. by subst. }
  intros sl s1 (-> & Hs & Hc). wp_step. wp_step. wp_step. cbn [staged tree_].
  eapply wp_mono; [apply wp_prepare; [apply Hrep|done]| |].
  2: { intros e t [-> Hk]. wp_step. split; [by left|]. by eapply (abort_staged s log t exists_ k sl). }
  intros [] t [Hk Hreach]. wp_step. wp_step. cbn [set_tree staged backlog_ version_].
  apply wp_if; intros Eo.
  { wp_step. wp_step. wp_step. by eapply (abort_staged s log t exists_ k sl). }
  wp_step. wp_step. wp_step; [|wp_step; split; [by left|]; by eapply (abort_staged s log t exists_ k sl)].
  wp_step. wp_step. wp_step. wp_step. wp_step. wp_step.
  pose proof (commit_staged s log t rows record k sl now data keep new_bytes Hok Hk (keeps_represents _ _ _ Hrep Hk) Ht
    Hs Hreach Hc Hkeep Hv Hb Hbl Hsz) as Hcommit. cbv zeta in Hcommit. fold exists_ in Hcommit. destruct Hcommit as [Hcommit Hlight].
  wp_step.
  - wp_step. split_and!; [|exact Hcommit|exact Hlight|done|done].
    by eapply (abort_queued s log t exists_ k sl).
  - wp_step. split; [by left|]. by eapply (abort_queued s log t exists_ k sl).
Qed.

Lemma reopened s : editing_ s = false → set_editing false (set_editing true s) = s.
Proof. intros H. destruct s; simpl in *. by subst. Qed.

Lemma idle_wp {A} (m : eff Scene A) Q E s log : scene_ok s log → wp Faulty m Q E s → wp Faulty (idle ;;; m) Q E s.
Proof. intros Hok Hm. unfold idle. wp_step. wp_step. wp_step. rewrite (so_idle _ _ Hok). by wp_step. Qed.

Lemma row_of_wp s log k (Q : option (string * Item) → Scene → Prop) E s' :
  scene_ok s log →
  Q (match shown log !! k with Some it => Some (k, it) | None => None end) s' →
  wp Faulty (row_of (entries_ s !! k) (tree_ s)) Q E s'.
Proof.
  intros Hok HQ. pose proof (spells_find _ _ _ k (so_spells _ _ Hok)) as Hf. unfold row_of.
  destruct (entries_ s !! k) as [sl|]; [|wp_step; by rewrite Hf in HQ].
  destruct Hf as (_ & it & -> & Hm). rewrite Hm in HQ. by wp_step.
Qed.

Lemma entries_shown s log k : scene_ok s log → bool_decide (is_Some (entries_ s !! k)) = bool_decide (is_Some (shown log !! k)).
Proof.
  intros Hok. pose proof (spells_find _ _ _ k (so_spells _ _ Hok)) as Hf. apply bool_decide_ext.
  destruct (entries_ s !! k); [destruct Hf as (_ & it & _ & ->); split; intros _; by eexists|by rewrite Hf].
Qed.

Lemma size_shown s log : scene_ok s log → size (entries_ s) = size (shown log).
Proof. intros Hok. destruct (so_spells _ _ Hok) as (rows & _ & Ht). by eapply tied_size. Qed.

Lemma prepare_wp s log name record now data keep :
  scene_ok s log → 0 <= keep →
  wp Faulty (prepare exclusive name record now data keep)
    (prepared (backlog_ s) keep log (default ""%string name) record) (undone (backlog_ s) log) s.
Proof.
  intros Hok Hkeep. unfold prepare. eapply idle_wp; [done|]. destruct name as [k|]; [|by wp_step]. change (default ""%string (Some k)) with k.
  apply wp_if; intros _; [by wp_step|]. wp_step. wp_step. apply wp_if; intros Ev; [by wp_step|].
  apply Z.eqb_neq in Ev. cbv zeta. apply wp_if; intros Eg; [by wp_step|]. wp_step. wp_step. wp_step.
  eapply (row_of_wp s log); [done|]. 
  assert (Hlabel : match (match shown log !! k with Some it => Some (k, it) | None => None end) with
    Some (k, _) => k | None => k end = k) by (by destruct (shown log !! k)). rewrite Hlabel.
  assert (Hrefuse : wp Faulty (modify (set_editing false) ;;; ret (Unexpected capacity)) (prepared (backlog_ s) keep log k record)
    (undone (backlog_ s) log) (set_editing true s)).
  { repeat wp_step. unfold prepared. rewrite reopened by apply Hok. by split. }
  set (before := match _ with Some (k, r) => weight k r | None => Some 0 end).
  assert (Hb : before = match shown log !! k with Some r => weight k r | None => Some 0 end)
    by (unfold before; by destruct (shown log !! k)).
  destruct before as [before|]; [|done].
  destruct (match record with Some r => weight k r | None => Some 0 end) as [after|] eqn:Ha; [|done].
  apply wp_if; intros Ec; [done|]. rewrite !orb_false_iff, !Z.ltb_ge in Ec. destruct Ec as [[Ec1 Ec2] Ec3].
  destruct (so_bytes _ _ Hok) as [B1 B2].
  destruct (accounts k record (shown log) (bytes_ s) before after HL B1 B2 Hb (eq_sym Ha) Ec1 Ec2) as [A1 A2].
  apply stage_wp; try done.
  - destruct (so_log _ _ Hok) as [[_ ?] _ _ _]. lia.
  - intros ->. simpl in Eg. destruct (bool_decide (is_Some (entries_ s !! k))) eqn:Ee; [by apply bool_decide_eq_true in Ee|done].
  - by rewrite A1.
  - eapply size_next; [reflexivity|by apply Hok|]. intros Hx. rewrite <- (entries_shown s) in Hx by done.
    rewrite Hx in Ec3. simpl in Ec3. apply Z.eqb_neq in Ec3. by rewrite <- (size_shown s).
Qed.

(** ** Groups of changes *)
(** The owner of a candidate differs from the scene at its opening only by the
    names the candidate added. *)
Definition abortable (s0 s : Scene) (added : list string) : Prop :=
  s = staged s0 (tree_ s0) (entries_ s) (history_ s0) (backlog_ s0) ∧ forget added (entries_ s) = entries_ s0.

Record growing (s0 : Scene) (log : list Event) (s : Scene) (b : Batch) : Prop := {
  gr_abort : abortable s0 s (batch_added b);
  gr_spells : spells (batch_tree b) (forget (batch_removed b) (entries_ s)) (shown (log ++ batch_events b));
  gr_bytes : batch_bytes b = content_bytes (shown (log ++ batch_events b)) ∧
    content_bytes (shown (log ++ batch_events b)) <= bytes limits_;
  gr_size : Z.of_nat (size (shown (log ++ batch_events b))) <= records limits_;
  gr_log : chronicle (log ++ batch_events b) (batch_history b) (batch_version b);
  gr_backlog : batch_backlog b = heaviness (batch_history b);
  gr_bounds : Z.of_nat (length (batch_history b)) <= history limits_ ∧ batch_backlog b <= backlog limits_;
  gr_seen : batch_added b ⊆ batch_seen b ∧ batch_removed b ⊆ batch_seen b ∧
    ∀ k, k ∉ batch_seen b → shown (log ++ batch_events b) !! k = shown log !! k;
  gr_removed : NoDup (batch_removed b) ∧ ∀ k, k ∈ batch_removed b → is_Some (entries_ s !! k);
  gr_keep : 0 <= batch_retention b
}.

Lemma batch_abort_ok s0 log s b : scene_ok s0 log → abortable s0 s (batch_added b) → scene_ok (batch_abort b s) log.
Proof.
  intros Hok [-> Hf]. unfold batch_abort. cbn [staged entries_] in *. rewrite Hf.
  pose proof (so_idle _ _ Hok). replace (set_editing false _) with s0; [done|]. destruct s0; simpl in *. by subst.
Qed.

Lemma batch_commit_ok s0 log s b : growing s0 log s b → scene_ok (batch_commit b s) (log ++ batch_events b).
Proof. by intros []. Qed.

Lemma open_batch_wp s log keep :
  scene_ok s log → 0 <= keep →
  wp Faulty (open_batch keep)
    (λ b s', growing s log s' b ∧ batch_events b = [] ∧ batch_failed b = false) (undone (backlog_ s) log) s.
Proof.
  intros Hok Hkeep. unfold open_batch. eapply idle_wp; [done|]. wp_step. wp_step; [|split; [by left|done]].
  repeat wp_step. split_and!; [|done|done]. pose proof Hok as [O1 O2 O3 O4 O5 O6 O7].
  split; cbn; rewrite ?app_nil_r; try done.
  split; [constructor|]. by intros k Hk%elem_of_nil.
Qed.

Definition dropped (s0 : Scene) (p : Scene * Batch) : Prop :=
  abortable s0 p.1 (batch_added p.2) ∧ batch_failed p.2 = true.

Lemma unseen s0 log s b k :
  growing s0 log s b → k ∉ batch_seen b →
  entries_ s0 !! k = entries_ s !! k ∧ forget (batch_removed b) (entries_ s) !! k = entries_ s !! k.
Proof.
  intros [[_ Hf] _ _ _ _ _ _ (S1 & S2 & _) _ _] Hk. rewrite <- Hf, !forget_lookup.
  by rewrite !bool_decide_eq_false_2 by set_solver.
Qed.

Lemma abortable_add s0 log s b k sl :
  growing s0 log s b → k ∉ batch_seen b → entries_ s !! k = None →
  abortable s0 s (batch_added b ++ [k]) ∧
  abortable s0 (set_entries (<[k := sl]> (entries_ s)) s) (batch_added b ++ [k]).
Proof.
  intros Hg Hk Hnone. destruct (unseen _ _ _ _ _ Hg Hk) as [E0 _]. pose proof Hg as [[Hs Hf] _ _ _ _ _ _ (S1 & _) _ _].
  rewrite Hnone in E0. split; split.
  - done.
  - rewrite forget_app, Hf. simpl. by apply delete_id.
  - rewrite Hs. done.
  - cbn [set_entries entries_]. rewrite forget_app, forget_insert, Hf by set_solver. simpl. by apply delete_insert_id.
Qed.

(** The candidate after a complete [set]. *)
Definition grown (b : Batch) (k : string) (record : option Item) (exists_ : bool) (sl now new_bytes : Z) (e : Event)
    (t : pages string Item) : Batch :=
  finish_set e now new_bytes (put_tree (next_tree exists_ k record sl t)
    (push_names (if exists_ then [] else [k]) (if exists_ && bool_decide (record = None) then [k] else []) [k]
      (push_event e (mark_failed true b)))).

Lemma grown_fields b k record exists_ sl now new_bytes e t :
  let b' := grown b k record exists_ sl now new_bytes e t in
  let h := batch_history b ++ [e] in
  let n := evict now (Z.min (backlog limits_) (batch_retention b)) (Z.of_nat (length h)) (batch_backlog b + event_bytes e) h in
  batch_tree b' = next_tree exists_ k record sl t ∧ batch_history b' = drop n h ∧
  batch_events b' = batch_events b ++ [e] ∧ batch_added b' = batch_added b ++ (if exists_ then [] else [k]) ∧
  batch_removed b' = batch_removed b ++ (if exists_ && bool_decide (record = None) then [k] else []) ∧
  batch_seen b' = batch_seen b ++ [k] ∧ batch_bytes b' = new_bytes ∧
  batch_backlog b' = batch_backlog b + event_bytes e - heaviness (take n h) ∧
  batch_version b' = batch_version b + 1 ∧ batch_retention b' = batch_retention b.
Proof. cbv zeta. split_and!; reflexivity. Qed.

Lemma names_grow (names seen more : list string) k :
  names ⊆ seen → more = [] ∨ more = [k] → names ++ more ⊆ seen ++ [k].
Proof. intros Hn [->| ->]; set_solver. Qed.

Lemma names_distinct (names seen more : list string) k :
  NoDup names → names ⊆ seen → k ∉ seen → more = [] ∨ more = [k] → NoDup (names ++ more).
Proof.
  intros Hn Hs Hk [->| ->]; [by rewrite app_nil_r|]. apply NoDup_app. split_and!; [done|set_solver|apply NoDup_singleton].
Qed.

Lemma grown_ok s0 log s b rows t k record sl now new_bytes e :
  growing s0 log s b → k ∉ batch_seen b → represents t rows →
  tied (forget (batch_removed b) (entries_ s)) rows (shown (log ++ batch_events b)) →
  is_slot sl → reachable t sl → chosen (forget (batch_removed b) (entries_ s)) rows k record sl →
  batch_version b < u64_max →
  new_bytes = content_bytes (next_shown k record (shown (log ++ batch_events b))) → new_bytes <= bytes limits_ →
  Z.of_nat (size (next_shown k record (shown (log ++ batch_events b)))) <= records limits_ →
  event_name e = k → event_record e = record → event_version e = batch_version b + 1 → event_bytes e = event_cost k record →
  let exists_ := bool_decide (is_Some (entries_ s !! k)) in
  growing s0 log (if exists_ then s else set_entries (<[k := sl]> (entries_ s)) s)
    (grown b k record exists_ sl now new_bytes e t).
Proof.
  intros Hg Hk Hrep Ht Hs Hreach Hc Hv Hb Hbl Hsz En Er Ev Ebytes exists_.
  destruct (unseen _ _ _ _ _ Hg Hk) as [E0 E1].
  pose proof Hg as [G1 G2 G3 G4 G5 G6 G7 (S1 & S2 & S3) [R1 R2] G10].
  set (h := batch_history b ++ [e]).
  pose proof (chronicle_extend _ _ _ e G5 Hv Ev ltac:(by rewrite En, Er)) as Hch. fold h in Hch.
  assert (Hw : batch_backlog b + event_bytes e = heaviness h) by (unfold h; rewrite heaviness_app, G6; simpl; lia).
  set (n := evict now (Z.min (backlog limits_) (batch_retention b)) (Z.of_nat (length h)) (batch_backlog b + event_bytes e) h).
  pose proof (scene_evict_spec now (Z.min (backlog limits_) (batch_retention b)) h HL ltac:(pose proof (li_backlog HL); lia)
    (chronicle_costed _ _ _ Hch)) as [V1 V2]. rewrite <- Hw in V1, V2. fold n in V1, V2.
  pose proof (heaviness_split n h) as Hsplit.
  pose proof (write_spells t _ rows _ k record sl Hrep Ht Hs Hreach Hc) as Hspell. rewrite E1 in Hspell. fold exists_ in Hspell.
  assert (Hshown : shown (log ++ batch_events b ++ [e]) = next_shown k record (shown (log ++ batch_events b))).
  { rewrite app_assoc, shown_snoc. unfold apply_event. rewrite En, Er. by destruct record. }
  assert (Hent : forget (batch_removed b ++ (if exists_ && bool_decide (record = None) then [k] else []))
      (entries_ (if exists_ then s else set_entries (<[k := sl]> (entries_ s)) s))
    = next_entries k record sl (forget (batch_removed b) (entries_ s))).
  { unfold chosen in Hc. rewrite E1 in Hc. rewrite forget_app. unfold exists_. destruct (entries_ s !! k) as [sl'|] eqn:Es.
    - subst sl'. rewrite bool_decide_eq_true_2 by (by eexists). destruct record as [r|]; [|done].
      simpl. symmetry. apply insert_id. congruence.
    - rewrite bool_decide_eq_false_2 by (by intros []). destruct record as [r|]; [|by destruct Hc as [_ [? ?]]].
      cbn. apply forget_insert. intros Hin. by apply Hk, S2. }
  destruct (grown_fields b k record exists_ sl now new_bytes e t) as (F1 & F2 & F3 & F4 & F5 & F6 & F7 & F8 & F9 & F10).
  fold h in F2, F8. fold n in F2, F8. set (b' := grown _ _ _ _ _ _ _ _ _) in *. clearbody b'.
  split; rewrite ?F1, ?F2, ?F3, ?F4, ?F5, ?F6, ?F7, ?F8, ?F9, ?F10, ?Hshown, ?Hent; try done; try lia.
  - unfold exists_. destruct (entries_ s !! k) as [sl'|] eqn:Es.
    + rewrite bool_decide_eq_true_2 by (by eexists). by rewrite app_nil_r.
    + rewrite bool_decide_eq_false_2 by (by intros []). by eapply abortable_add.
  - rewrite app_assoc. by apply chronicle_drop.
  - split_and!.
    + apply names_grow; [done|]. destruct exists_; auto.
    + apply names_grow; [done|]. destruct (exists_ && _); auto.
    + intros j [Hj Hjk]%not_elem_of_app. rewrite <- S3 by done. assert (j ≠ k) by (intros ->; apply Hjk; by left).
      destruct record; simpl; [by rewrite lookup_insert_ne|by rewrite lookup_delete_ne].
  - split.
    + eapply names_distinct; try done. destruct (exists_ && _); auto.
    + intros j Hj. apply elem_of_app in Hj as [Hj|Hj].
      * pose proof (R2 j Hj) as Hx. destruct exists_; [done|]. cbn. destruct (decide (j = k)) as [->|]; [rewrite lookup_insert_eq; by eexists|].
        by rewrite lookup_insert_ne.
      * unfold exists_ in *. destruct (bool_decide (is_Some _)) eqn:Eb; simpl in Hj; [|by apply elem_of_nil in Hj].
        apply bool_decide_eq_true in Eb. destruct (bool_decide (record = None)); [|by apply elem_of_nil in Hj].
        by apply list_elem_of_singleton in Hj as ->.
Qed.

Lemma write_batch_wp s0 log s b rows k record sl now new_bytes e :
  growing s0 log s b → k ∉ batch_seen b → represents (batch_tree b) rows →
  tied (forget (batch_removed b) (entries_ s)) rows (shown (log ++ batch_events b)) →
  is_slot sl → chosen (forget (batch_removed b) (entries_ s)) rows k record sl →
  batch_version b < u64_max →
  new_bytes = content_bytes (next_shown k record (shown (log ++ batch_events b))) → new_bytes <= bytes limits_ →
  Z.of_nat (size (next_shown k record (shown (log ++ batch_events b)))) <= records limits_ →
  event_name e = k → event_record e = record → event_version e = batch_version b + 1 → event_bytes e = event_cost k record →
  wp Faulty (write_batch exclusive k record now (bool_decide (is_Some (entries_ s !! k))) sl new_bytes e)
    (λ r p, r = None ∧ growing s0 log p.1 p.2 ∧ batch_events p.2 = batch_events b ++ [e] ∧ batch_failed p.2 = false)
    (λ x p, x = bad_alloc ∧ dropped s0 p) (s, mark_failed true b).
Proof.
  intros Hg Hk Hrep Ht Hs Hc Hv Hb Hbl Hsz En Er Ev Ebytes. set (exists_ := bool_decide _).
  pose proof (gr_abort _ _ _ _ Hg) as Ha.
  assert (Hadd : exists_ = false → abortable s0 s (batch_added b ++ [k]) ∧
    abortable s0 (set_entries (<[k := sl]> (entries_ s)) s) (batch_added b ++ [k])).
  { intros Hx%bool_decide_eq_false. eapply abortable_add; [done|done|]. by apply eq_None_not_Some. }
  set (b1 := push_event e (mark_failed true b)).
  unfold write_batch. wp_step. wp_step; [|done]. wp_step. wp_step. wp_step. wp_step; [|done].
  wp_step. wp_step. wp_step.
  apply wp_mono with (Q := λ (_ : unit) p, p = (if exists_ then s else set_entries (<[k := sl]> (entries_ s)) s,
      push_names (if exists_ then [] else [k]) (if exists_ && bool_decide (record = None) then [k] else []) [k] b1))
    (E := λ x p, x = bad_alloc ∧ dropped s0 p); [| |done].
  { destruct exists_; cbn [negb andb].
    - destruct (bool_decide (record = None)).
      + wp_step. wp_step; [|split; [done|]; split; [cbn; by rewrite app_nil_r|done]]. wp_step.
        unfold on_batch, push_names. cbn. by rewrite !app_nil_r.
      + wp_step. unfold on_batch, push_names. cbn. by rewrite !app_nil_r.
    - destruct (Hadd eq_refl) as [Ha1 Ha2].
      wp_step. wp_step; [|split; [done|]; split; [cbn; by rewrite app_nil_r|done]]. wp_step. wp_step.
      wp_step. wp_step; [|split; [done|]; split; [cbn; by rewrite app_nil_r|done]]. wp_step.
      unfold on_batch, on_owner, push_names. cbn. by rewrite !app_nil_r. }
  intros [] p ->. wp_step. wp_step. cbn [snd push_names batch_tree push_event mark_failed b1].
  set (s1 := if exists_ then s else _). set (b2 := push_names _ _ _ b1).
  assert (Hd : ∀ t, dropped s0 (on_batch (put_tree t) (s1, b2))).
  { intros t. split; [|done]. cbn. unfold s1. destruct exists_; [by rewrite app_nil_r|]. by apply Hadd. }
  eapply wp_mono; [apply wp_prepare; [apply Hrep|done]| |].
  2: { intros x t [-> _]. done. }
  intros [] t [Hkeep Hreach]. wp_step. wp_step. wp_step. wp_step; [|split; [done|apply Hd]].
  wp_step. wp_step. wp_step.
  pose proof (grown_ok s0 log s b rows t k record sl now new_bytes e Hg Hk (keeps_represents _ _ _ Hrep Hkeep) Ht Hs
    Hreach Hc Hv Hb Hbl Hsz En Er Ev Ebytes) as Hgrown. cbv zeta in Hgrown. fold exists_ in Hgrown. fold s1 in Hgrown.
  split_and!; [done| |done|done].
  replace (on_batch _ _) with (s1, grown b k record exists_ sl now new_bytes e t); [exact Hgrown|].
  reflexivity.
Qed.

(** The state of a candidate after [set]: extended by one event, or only fit to
    be abandoned. *)
Definition set_done (s0 : Scene) (log : list Event) (b : Batch) (k : string) (record : option Item)
    (r : option Error) (p : Scene * Batch) : Prop :=
  match r with
  | Some _ => dropped s0 p
  | None => growing s0 log p.1 p.2 ∧ batch_failed p.2 = false ∧
      ∃ e, batch_events p.2 = batch_events b ++ [e] ∧ event_name e = k ∧ event_record e = record
  end.

Lemma dropped_failed s0 log s b : growing s0 log s b → dropped s0 (s, mark_failed true b).
Proof. intros Hg. split; [apply Hg|done]. Qed.

Lemma batch_set_wp s0 log s b name record now data :
  scene_ok s0 log → growing s0 log s b →
  wp Faulty (batch_set exclusive name record now data) (set_done s0 log b (default ""%string name) record)
    (λ x p, (x = bad_alloc ∨ x = overflow_error) ∧ dropped s0 p) (s, b).
Proof.
  intros Hok Hg. pose proof (dropped_failed _ _ _ _ Hg) as Hdrop. unfold batch_set. wp_step. wp_step.
  destruct name as [k|]; [|repeat wp_step; done]. change (default ""%string (Some k)) with k.
  apply wp_if; intros _; [repeat wp_step; done|]. wp_step. wp_step. cbn [on_batch fst snd].
  apply wp_if; intros Ev; [by wp_step|]. apply Z.eqb_neq in Ev.
  cbv zeta. apply wp_if; intros Eg; [by wp_step|].
  apply orb_false_iff in Eg as [Eg Hk%bool_decide_eq_false].
  destruct (unseen _ _ _ _ _ Hg Hk) as [E0 E1]. destruct (gr_spells _ _ _ _ Hg) as (rows & Hrep & Ht).
  pose proof (gr_seen _ _ _ _ Hg) as (_ & _ & S3). pose proof (S3 k Hk) as Hsame.
  assert (Htree : tree_ s = tree_ s0) by (destruct (gr_abort _ _ _ _ Hg) as [-> _]; done).
  wp_step.
  apply wp_mono with (Q := λ sl p, p = (s, mark_failed true b) ∧ is_slot sl ∧
      ((record = None → is_Some (entries_ s !! k)) → chosen (forget (batch_removed b) (entries_ s)) rows k record sl))
    (E := λ x p, (x = bad_alloc ∨ x = overflow_error) ∧ dropped s0 p); [| |done].
  { unfold chosen. rewrite E1. destruct (entries_ s !! k) as [sl|] eqn:Es.
    - wp_step. split_and!; try done. destruct (ti_row _ _ _ Ht _ _ E1) as (it & Hr & _).
      by eapply Hrep.
    - wp_step. destruct (next (batch_tree b)) as [sl|x] eqn:En.
      + destruct (next_free _ _ _ Hrep En) as [Hs Hr]. split_and!; try done. intros Hx. split; [done|].
        destruct record; [by eexists|]. destruct (Hx eq_refl). done.
      + split; [right; eapply next_throws; [apply Hrep|done]|done]. }
  intros sl p (-> & Hs & Hchosen). wp_step. rewrite Htree, <- E0.
  assert (Hrow : ∀ (Q : option (string * Item) → Scene * Batch → Prop) E p,
    Q (match shown log !! k with Some it => Some (k, it) | None => None end) p → wp Faulty (row_of (entries_ s0 !! k) (tree_ s0)) Q E p).
  { intros Q E p HQ. pose proof (spells_find _ _ _ k (so_spells _ _ Hok)) as Hf. unfold row_of.
    destruct (entries_ s0 !! k) as [sl'|]; [|wp_step; by rewrite Hf in HQ].
    destruct Hf as (_ & it & -> & Hm). rewrite Hm in HQ. by wp_step. }
  apply Hrow. rewrite <- Hsame.
  assert (Hlabel : match (match shown (log ++ batch_events b) !! k with Some it => Some (k, it) | None => None end) with
    Some (k, _) => k | None => k end = k) by (by destruct (shown (log ++ batch_events b) !! k)). rewrite Hlabel.
  set (before := match _ with Some (k, r) => weight k r | None => Some 0 end).
  assert (Hb : before = match shown (log ++ batch_events b) !! k with Some r => weight k r | None => Some 0 end)
    by (unfold before; by destruct (shown (log ++ batch_events b) !! k)).
  destruct before as [before|]; [|by wp_step].
  destruct (match record with Some r => weight k r | None => Some 0 end) as [after|] eqn:Hafter; [|by wp_step].
  apply wp_if; intros Ec; [by wp_step|]. rewrite !orb_false_iff, !Z.ltb_ge in Ec. destruct Ec as [[Ec1 Ec2] Ec3].
  apply wp_if; intros Eo; [by wp_step|].
  destruct (gr_bytes _ _ _ _ Hg) as [B1 B2].
  destruct (accounts k record _ (batch_bytes b) before after HL B1 B2 Hb (eq_sym Hafter) Ec1 Ec2) as [A1 A2].
  assert (Hrec : record = None → is_Some (entries_ s !! k)).
  { intros ->. simpl in Eg. destruct (bool_decide (is_Some (entries_ s !! k))) eqn:Ee; [by apply bool_decide_eq_true in Ee|done]. }
  rewrite E0. eapply wp_mono; [eapply (write_batch_wp s0 log s b rows k record); try done| |].
  - by apply Hchosen.
  - destruct (gr_log _ _ _ _ Hg) as [[_ ?] _ _ _]. lia.
  - by rewrite A1.
  - eapply size_next; [reflexivity|by apply Hg|]. intros Hx%bool_decide_eq_false. destruct (gr_removed _ _ _ _ Hg) as [R1 R2].
    rewrite <- (tied_size _ _ _ Ht), forget_size by done.
    rewrite E0 in Ec3. destruct (entries_ s !! k) as [sl'|] eqn:Es; [|simpl in Ec3; by apply Z.eqb_neq in Ec3].
    exfalso. apply Hx. destruct (ti_row _ _ _ Ht _ _ E1) as (it & _ & ->). by eexists.
  - intros r p (-> & Hgr & Hev & Hf). split_and!; try done. by eexists.
  - intros x p [-> Hd]. split; [by left|done].
Qed.
End edits.

(** ** Histories of a scene
    What the owners of a scene do: prepare a change and then publish or abandon
    it, or do so with a group. *)
Inductive operation :=
| Change (name : option string) (record : option Item) (now : Z) (data : bool) (keep : Z) (publish : bool)
| Group (keep : Z) (sets : list (option string * option Item * Z * bool)) (publish : bool).

Fixpoint fill (exclusive : nat → bool) (sets : list (option string * option Item * Z * bool)) : eff (Scene * Batch) bool :=
  match sets with
  | [] => ret true
  | (name, record, now, data) :: sets =>
      r <- batch_set exclusive name record now data ;;
      match r with Some _ => ret false | None => fill exclusive sets end
  end.

(** The events an operation publishes. *)
Definition perform (exclusive : nat → bool) (op : operation) : eff Scene (list Event) :=
  match op with
  | Change name record now data keep publish =>
      r <- prepare exclusive name record now data keep ;;
      match r with
      | Unexpected _ => ret []
      | Expected e => if publish then modify (commit e) ;;; ret [event e] else modify (abort e) ;;; ret []
      end
  | Group keep sets publish =>
      b <- open_batch keep ;;
      λ s f,
        match fill exclusive sets (s, b) f with
        | (Done filled, (s, b), f) =>
            if filled && publish then (Done (batch_events b), batch_commit b s, f) else (Done [], batch_abort b s, f)
        | (Thrown e, (s, b), f) => (Thrown e, batch_abort b s, f)
        end
  end.

Record circumstances := { sharing : nat → bool; script : faults }.

Definition step (st : Scene * list Event) (op : operation * circumstances) : Scene * list Event :=
  match perform (sharing op.2) op.1 st.1 (script op.2) with
  | (Done evs, s, _) => (s, st.2 ++ evs)
  | (Thrown _, s, _) => (s, st.2)
  end.

Definition sane (op : operation) : Prop :=
  match op with Change _ _ _ _ keep _ => 0 <= keep | Group keep _ _ => 0 <= keep end.

Section histories.
Context (HL : limits_ok).

Lemma fill_wp exclusive sets s0 log s b :
  scene_ok s0 log → growing s0 log s b →
  wp Faulty (fill exclusive sets)
    (λ (ok : bool) p, if ok then growing s0 log p.1 p.2 else dropped s0 p)
    (λ x p, (x = bad_alloc ∨ x = overflow_error) ∧ dropped s0 p) (s, b).
Proof.
  intros Hok. revert s b. induction sets as [|[[[name record] now] data] sets IH]; intros s b Hg; cbn [fill]; [by wp_step|].
  wp_step. eapply wp_mono; [by apply (batch_set_wp exclusive HL s0 log)| |done].
  intros [err|] [s' b'] Hr; [by wp_step|]. apply IH. apply Hr.
Qed.

Lemma perform_wp exclusive op s log :
  scene_ok s log → sane op →
  wp Faulty (perform exclusive op) (λ evs s', scene_ok s' (log ++ evs))
    (λ e s', (e = bad_alloc ∨ e = overflow_error) ∧ scene_ok s' log) s.
Proof.
  intros Hok Hs. destruct op as [name record now data keep publish|keep sets publish]; cbn [perform].
  - wp_step. eapply wp_mono; [by apply (prepare_wp exclusive HL s log)| |by intros e s' [? [? _]]].
    intros [e|err] s' Hr; [|wp_step; rewrite app_nil_r; apply Hr].
    destruct Hr as ([H1 _] & H2 & _). destruct publish; repeat wp_step; [done|by rewrite app_nil_r].
  - wp_step. eapply wp_mono; [by apply (open_batch_wp s log keep)| |by intros e s' [? [? _]]].
    intros b s' (Hg & _) f Hf. pose proof (fill_wp exclusive sets s log s' b Hok Hg f Hf) as Hfill.
    destruct (fill exclusive sets (s', b) f) as [[[filled|x] [s2 b2]] f2]; destruct Hfill as [_ Hfill]; simpl in *.
    + destruct filled; simpl.
      * destruct publish; split; try done; [by eapply batch_commit_ok|]. rewrite app_nil_r.
        eapply batch_abort_ok; [done|]. apply Hfill.
      * split; [done|]. rewrite app_nil_r. eapply batch_abort_ok; [done|]. apply Hfill.
    + destruct Hfill as [Hx Hd]. split; [done|]. split; [done|]. eapply batch_abort_ok; [done|]. apply Hd.
Qed.

Lemma scene_run_ok s0 ops :
  make = Done s0 → Forall (λ op, sane op.1) ops →
  let st := foldl step (s0, []) ops in scene_ok st.1 st.2.
Proof.
  intros Hmake Hsane. induction ops as [|op ops IH] using rev_ind; cbn zeta.
  - unfold make in Hmake. destruct (_ <? _); [done|]. injection Hmake as <-. pose proof HL as [L1 L2 L3 L4].
    assert (H0 : content_bytes ∅ = 0) by done. split; cbn; rewrite ?H0; try done; try lia.
    exists ∅. split; [apply represents_empty|split; intros ?; by rewrite ?lookup_empty].
  - apply Forall_app in Hsane as [Ho Hop]. rewrite Forall_singleton in Hop. specialize (IH Ho).
    rewrite foldl_app. cbn [foldl]. destruct (foldl step (s0, []) ops) as [s log]. cbn [fst snd] in IH.
    pose proof (perform_wp (sharing op.2) op.1 s log IH Hop (script op.2) I) as Hp. unfold step. cbn [fst snd].
    destruct (perform _ _ _ _) as [[[evs|x] s'] f']; destruct Hp as [_ Hp]; [done|apply Hp].
Qed.

Lemma scene_find_spec k s log f : scene_ok s log → find k s f = (Done (shown log !! k, version_ s), s, f).
Proof.
  intros Hok. pose proof (spells_find _ _ _ k (so_spells _ _ Hok)) as Hf. unfold find, idle, bind, read, ret. cbn.
  rewrite (so_idle _ _ Hok). destruct (entries_ s !! k) as [sl|].
  - destruct Hf as (_ & it & Hr & ->). by rewrite Hr.
  - by rewrite Hf.
Qed.

(** The rows of a view are those of [m]. *)
Definition lists (v : View) (m : gmap string Item) : Prop :=
  ∃ rows, represents (view_root v) rows ∧ (∀ k r, (∃ sl, rows !! sl = Some (k, r)) ↔ m !! k = Some r) ∧
    view_size v = Z.of_nat (size m).

Lemma scene_capture_spec s log f : scene_ok s log →
  ∃ v, capture s f = (Done v, s, f) ∧ lists v (shown log) ∧ view_version v = version_ s.
Proof.
  intros [O1 (rows & Hrep & Ht) _ _ _ _ _]. eexists. unfold capture, idle, bind, read, ret, gets. cbn. rewrite O1.
  split; [done|]. split; [|done]. exists rows. split_and!; [done| |destruct Hrep as (_ & -> & _)].
  - intros k r. split.
    + intros (sl & Hr). pose proof (ti_entry _ _ _ Ht _ _ _ Hr) as Hk.
      destruct (ti_row _ _ _ Ht _ _ Hk) as (it & Hr' & ->). congruence.
    + intros Hm. destruct (ti_dom _ _ _ Ht _ _ Hm) as [sl Hk].
      destruct (ti_row _ _ _ Ht _ _ Hk) as (it & Hr & Hm'). exists sl. congruence.
  - cbn. f_equal. by eapply tied_rows.
Qed.

Lemma scene_upper_bound_drop since h n :
  (∀ i e, h !! i = Some e → event_version e = n + Z.of_nat i + 1) → n <= since →
  upper_bound since h = drop (Z.to_nat (since - n)) h.
Proof.
  revert n. induction h as [|e h IH]; intros n Hv Hs; simpl; [by rewrite drop_nil|].
  pose proof (Hv 0%nat e eq_refl) as He. destruct (Z.ltb_spec since (event_version e)).
  - by replace (since - n) with 0 by lia.
  - replace (Z.to_nat (since - n)) with (S (Z.to_nat (since - (n + 1)))) by lia. apply IH; [|lia].
    intros i x Hi. rewrite (Hv (S i) x Hi). lia.
Qed.

(** Replay on a consistent scene, without side effect. *)
Lemma scene_replay_spec since s log f :
  scene_ok s log → 0 <= since →
  ∃ r, replay since s f = (Done r, s, f) ∧
    match r with
    | Expected evs => since <= version_ s ∧ evs = drop (Z.to_nat since) log
    | Unexpected e =>
        (e = version_error ∧ version_ s < since) ∨
        (e = history_error ∧ since < version_ s - Z.of_nat (length (history_ s)))
    end.
Proof.
  intros Hok Hs. unfold replay, idle, bind, read, ret. cbn. rewrite (so_idle _ _ Hok).
  destruct (so_log _ _ Hok) as [[C1 _] C2 _ [pre C4]].
  assert (Hlen : version_ s = Z.of_nat (length pre) + Z.of_nat (length (history_ s))).
  { rewrite C1, C4, length_app. lia. }
  assert (Hord : ∀ i e, history_ s !! i = Some e → event_version e = Z.of_nat (length pre) + Z.of_nat i + 1).
  { intros i e Hi. rewrite (C2 (length pre + i)%nat e); [lia|]. rewrite C4, lookup_app_r by lia.
    by replace (length pre + i - length pre)%nat with i by lia. }
  destruct (Z.ltb_spec (version_ s) since); [eexists; split; [done|]; by left|].
  destruct (Z.eqb_spec since (version_ s)) as [->|Hne].
  { eexists. split; [done|]. split; [done|]. rewrite C1, Nat2Z.id. by rewrite drop_all. }
  destruct (history_ s) as [|e h] eqn:Eh; [eexists; split; [done|]; right; split; [done|]; simpl in *; lia|].
  pose proof (Hord 0%nat e eq_refl) as He. destruct (Z.ltb_spec since (event_version e - 1)).
  { eexists. split; [done|]. right. split; [done|]. lia. }
  rewrite (scene_upper_bound_drop since (e :: h) (Z.of_nat (length pre)) Hord) by lia.
  assert (Hdrop : drop (Z.to_nat (since - Z.of_nat (length pre))) (e :: h) = drop (Z.to_nat since) log).
  { rewrite C4, drop_app_ge by lia. f_equal. lia. }
  rewrite Hdrop. destruct (drop (Z.to_nat since) log) as [|x suffix] eqn:Ed; [|by eexists].
  exfalso. assert (Hl : length (drop (Z.to_nat since) log) = 0%nat) by (by rewrite Ed).
  rewrite length_drop in Hl. lia.
Qed.

Context (s0 : Scene) (ops : list (operation * circumstances)).
Context (made : make = Done s0) (sanity : Forall (λ op, sane op.1) ops).

(** C26. The scene refines a counted log of visible changes.  Whatever is prepared,
    published, abandoned or refused, in single changes and in groups, with pages
    shared by live views and any allocation failing: what [find] returns, the rows
    of a captured view and the cursor are those of the published events alone, the
    byte account is exact, and contents and history stay within their limits. *)
Theorem scene_refines :
  let '(s, log) := foldl step (s0, []) ops in
  version_ s = Z.of_nat (length log) ∧
  (∀ k f, find k s f = (Done (shown log !! k, version_ s), s, f)) ∧
  (∀ f, ∃ v, capture s f = (Done v, s, f) ∧ lists v (shown log) ∧ view_version v = version_ s) ∧
  bytes_ s = content_bytes (shown log) ∧ content_bytes (shown log) <= bytes limits_ ∧
  Z.of_nat (size (shown log)) <= records limits_ ∧
  Z.of_nat (length (history_ s)) <= history limits_ ∧ heaviness (history_ s) <= backlog limits_.
Proof.
  pose proof (scene_run_ok s0 ops made sanity) as Hok. destruct (foldl step (s0, []) ops) as [s log]. cbn [fst snd] in Hok.
  pose proof Hok as [O1 O2 [O3 O3'] O4 O5 O6 [O7 O7']]. split_and!; try done.
  - apply O5.
  - intros k f. by apply scene_find_spec.
  - intros f. by apply scene_capture_spec.
  - by rewrite <- O6.
Qed.

(** C38. The recovery contract of a scene.  Asked for the changes after a cursor,
    a scene answers with exactly the published events after it, which take the
    contents at that cursor to the present ones; or it says that the cursor lies in
    the future, or that its history no longer reaches back.  It never returns a
    part, and events of abandoned edits and groups never appear. *)
Theorem scene_replays (since : Z) (f : faults) :
  0 <= since →
  let '(s, log) := foldl step (s0, []) ops in
  ∃ r, replay since s f = (Done r, s, f) ∧
    match r with
    | Expected evs =>
        since <= version_ s ∧ evs = drop (Z.to_nat since) log ∧
        foldl apply_event (shown (take (Z.to_nat since) log)) evs = shown log
    | Unexpected e =>
        (e = version_error ∧ version_ s < since) ∨
        (e = history_error ∧ since < version_ s - Z.of_nat (length (history_ s)))
    end.
Proof.
  intros Hs. pose proof (scene_run_ok s0 ops made sanity) as Hok. destruct (foldl step (s0, []) ops) as [s log]. cbn [fst snd] in Hok.
  destruct (scene_replay_spec since s log f Hok Hs) as (r & Hr & H). exists r. split; [done|].
  destruct r as [evs|e]; [|done]. destruct H as [H ->]. split_and!; try done.
  unfold shown. rewrite <- foldl_app. by rewrite take_drop.
Qed.
End histories.
End scene.

Module Sample.
Local Open Scope string_scope.

#[local] Instance buffers : Layout Buffer.
Proof.
  refine {| measure := λ b, Z.min (buffer_size b) u64_max; sizeof_event := 96; sizeof_name := 40; sizeof_item := 24 |}.
  - intros b. unfold buffer_size, u64_max. lia.
  - lia.
Defined.

Definition limits : Limits :=
  {| records := 2; bytes := 1000; history := 2; backlog := 400; retention := 600 |}.

Lemma limits_fine : limits_ok limits.
Proof. split; cbn; unfold u64_max; lia. Qed.

Definition start : Scene (Item := Buffer) :=
  {| tree_ := Pages.empty; entries_ := ∅; history_ := []; version_ := 0; bytes_ := 0; backlog_ := 0; editing_ := false |}.

Definition calm : circumstances := {| sharing := λ _, false; script := [] |}.
Definition byte : Buffer := [Byte.x2a].

(** A record, an abandoned change, a group that frees a slot and takes it again, a
    group cut by a failed allocation, and a refused third record. *)
Definition ops : list (operation (Item := Buffer) * circumstances) :=
  [(Change (Some "a") (Some byte) 0 false 1000 true, calm);
   (Change (Some "b") (Some byte) 1 false 1000 false, calm);
   (Group 1000 [(Some "a", None, 2, false); (Some "b", Some [], 2, false)] true, calm);
   (Group 1000 [(Some "c", Some [], 3, false)] true, {| sharing := λ _, false; script := [false; false; true] |});
   (Change (Some "c") (Some byte) 4 false 1000 true, calm);
   (Change (Some "d") (Some byte) 5 false 1000 true, calm)].

Definition reached : Scene * list (Event (Item := Buffer)) := foldl (step limits) (start, []) ops.

Example scene_run :
  version_ reached.1 = 4 ∧ length (history_ reached.1) = 2%nat ∧
  shown reached.2 !! "a" = None ∧ shown reached.2 !! "b" = Some [] ∧ shown reached.2 !! "c" = Some byte ∧
  shown reached.2 !! "d" = None.
Proof. by vm_compute. Qed.

Lemma ops_sane : Forall (λ op, sane (Item := Buffer) op.1) ops.
Proof. repeat (apply Forall_cons_2; [by vm_compute|]). by apply Forall_nil_2. Qed.

Lemma scene_refines_witness :
  let '(s, log) := foldl (step limits) (start, []) ops in
  version_ s = Z.of_nat (length log) ∧ bytes_ s = content_bytes (shown log).
Proof.
  pose proof (scene_refines limits limits_fine start ops eq_refl ops_sane) as H.
  destruct (foldl (step limits) (start, []) ops) as [s log]. destruct H as (H1 & _ & _ & H2 & _). exact (conj H1 H2).
Defined.

Lemma scene_replays_witness :
  let '(s, log) := foldl (step limits) (start, []) ops in
  ∃ r, replay 2 s [] = (Done r, s, []) ∧
    match r with
    | Expected evs =>
        2 <= version_ s ∧ evs = drop (Z.to_nat 2) log ∧
        foldl apply_event (shown (take (Z.to_nat 2) log)) evs = shown log
    | Unexpected e =>
        (e = version_error ∧ version_ s < 2) ∨
        (e = history_error ∧ 2 < version_ s - Z.of_nat (length (history_ s)))
    end.
Proof.
  pose proof (scene_replays limits limits_fine start ops eq_refl ops_sane 2 [] ltac:(lia)) as H.
  destruct (foldl (step limits) (start, []) ops) as [s log]. exact H.
Defined.

End Sample.
