(* ===== verification/Origin.v ===== *)
(** The facts of one source: [astra/star/src/origin.hpp].

    An [Origin] keeps every record one source Star has published in one domain,
    over all scopes: the paged index of [Pages.v], a two-level directory Sector ->
    Spectrum -> table from key to slot, one position shared by all scopes, and
    for the Star's own source a bounded history to send from.  Single facts go
    through an [Edit], merged recoveries through a [Batch], whole baselines through
    a private [Draft].  Preparation may fail at any allocation; publication never
    does.  The domain lock makes every operation one transition. *)
From stdpp Require Import base numbers strings gmap list.
From S2P Require Import Prelude.
From S2P Require Import Scope.
From S2P Require Import Pages.
From S2P Require Import Index.

(** [Origin::Limits], [Origin::Error] and [Origin::Form]. *)
Record Limits := { records : Z; scopes : Z; bytes : Z; history : Z; backlog : Z; retention : Z }.
Inductive Error := input | duplicate | capacity | version_error | history_error.
Inductive Form := form_record | form_data | form_renew | form_erase.

#[global] Instance form_eq_dec : EqDecision Form.
Proof. solve_decision. Defined.

(** [Origin::Name]: the shared scope and the key. *)
Record Name := { scope : Scope; key : string }.

#[global] Instance name_eq_dec : EqDecision Name.
Proof. solve_decision. Defined.
#[global] Instance name_countable : Countable Name.
Proof.
  refine (inj_countable' (λ n, (scope n, key n)) (λ p, {| scope := p.1; key := p.2 |}) _). by intros [].
Defined.

(** [Origin::valid_key], for the textual and for the binary domain. *)
Definition valid_key (binary : bool) (k : string) : bool :=
  if binary then
    match Scope.bytes k with
    | [_; _; _; _; _; _; b6; _; b8; _; _; _; _; _; _; _] => (Z.land b6 0xf0 =? 0x40) && (Z.land b8 0xc0 =? 0x80)
    | _ => false
    end
  else Scope.text k 1024.

(** [Origin::Group]: the table of one scope, and the directory of all of them. *)
Record Group := { group_scope : Scope; entries : gmap string Z }.
Abbreviation Groups := (gmap string (gmap string Group)).

Definition locate (gs : Groups) (sc : Scope) : option Group := gs !! sector sc ≫= λ spectra, spectra !! spectrum sc.

(** A change of the table of one group, through its pointer. *)
Definition amend (sc : Scope) (f : gmap string Z → gmap string Z) (gs : Groups) : Groups :=
  match gs !! sector sc with
  | Some spectra =>
      match spectra !! spectrum sc with
      | Some g => <[sector sc := <[spectrum sc := {| group_scope := group_scope g; entries := f (entries g) |}]> spectra]> gs
      | None => gs
      end
  | None => gs
  end.

(** [Origin::directory]: what the directory of one scope is charged. *)
Definition directory (sc : Scope) : Z := 512 + 2 * (key_size (sector sc) + key_size (spectrum sc)).

Section origin.
Context {Item : Type} {layout : Layout Item} (binary_key local_ : bool) (limits_ : Limits).

(** [Origin::Event]; an absent record is an authoritative end. *)
Record Event := {
  event_name : Name;
  event_record : option Item;
  event_position : Z;
  event_form : Form;
  event_bytes : Z;
  event_stored : Z
}.

(** The members of [Origin]. *)
Record Origin := {
  tree_ : pages Name Item;
  groups_ : Groups;
  history_ : list Event;
  position_ : Z;
  records_ : Z;
  scopes_ : Z;
  bytes_ : Z;
  directory_ : Z;
  backlog_ : Z;
  editing_ : bool
}.

Definition blank : Origin :=
  {| tree_ := Pages.empty; groups_ := ∅; history_ := []; position_ := 0; records_ := 0; scopes_ := 0; bytes_ := 0;
     directory_ := 0; backlog_ := 0; editing_ := false |}.

(** The constructor; a missing gate or measure is not representable. *)
Definition make : outcome Origin := if retention limits_ <? 0 then Thrown invalid_argument else Done blank.

Definition set_tree (t : pages Name Item) (o : Origin) : Origin :=
  {| tree_ := t; groups_ := groups_ o; history_ := history_ o; position_ := position_ o; records_ := records_ o;
     scopes_ := scopes_ o; bytes_ := bytes_ o; directory_ := directory_ o; backlog_ := backlog_ o; editing_ := editing_ o |}.
Definition set_groups (gs : Groups) (n d : Z) (o : Origin) : Origin :=
  {| tree_ := tree_ o; groups_ := gs; history_ := history_ o; position_ := position_ o; records_ := records_ o;
     scopes_ := n; bytes_ := bytes_ o; directory_ := d; backlog_ := backlog_ o; editing_ := editing_ o |}.
Definition set_history (h : list Event) (n : Z) (o : Origin) : Origin :=
  {| tree_ := tree_ o; groups_ := groups_ o; history_ := h; position_ := position_ o; records_ := records_ o;
     scopes_ := scopes_ o; bytes_ := bytes_ o; directory_ := directory_ o; backlog_ := n; editing_ := editing_ o |}.
Definition set_editing (b : bool) (o : Origin) : Origin :=
  {| tree_ := tree_ o; groups_ := groups_ o; history_ := history_ o; position_ := position_ o; records_ := records_ o;
     scopes_ := scopes_ o; bytes_ := bytes_ o; directory_ := directory_ o; backlog_ := backlog_ o; editing_ := b |}.
Definition set_position (p : Z) (o : Origin) : Origin :=
  {| tree_ := tree_ o; groups_ := groups_ o; history_ := history_ o; position_ := p; records_ := records_ o;
     scopes_ := scopes_ o; bytes_ := bytes_ o; directory_ := directory_ o; backlog_ := backlog_ o; editing_ := editing_ o |}.
Definition set_rows (r b : Z) (o : Origin) : Origin :=
  {| tree_ := tree_ o; groups_ := groups_ o; history_ := history_ o; position_ := position_ o; records_ := r;
     scopes_ := scopes_ o; bytes_ := b; directory_ := directory_ o; backlog_ := backlog_ o; editing_ := editing_ o |}.

Definition on_groups (f : Groups → Groups) (o : Origin) : Origin := set_groups (f (groups_ o)) (scopes_ o) (directory_ o) o.

(** [Origin::weight]: [None] when the sum would not fit. *)
Definition weight (k : string) (i : Item) : option Z :=
  let metadata := sizeof_item + sizeof_name + key_size k + 128 in
  if u64_max - metadata <? measure i then None else Some (metadata + measure i).

Definition idle : eff Origin unit := o <- read ;; if editing_ o then throw logic_error else ret tt.

(** [Origin::obtain]: an allocation failure leaves no empty Sector behind. *)
Definition obtain (sc : Scope) : eff Origin unit :=
  alloc ;;;
  o <- read ;;
  let created := bool_decide (groups_ o !! sector sc = None) in
  (if created then alloc ;;; modify (on_groups (λ gs, <[sector sc := ∅]> gs)) else ret tt) ;;;
  on_throw
    (alloc ;;;
     modify (λ o,
       let spectra := default ∅ (groups_ o !! sector sc) in
       match spectra !! spectrum sc with
       | Some _ => o
       | None =>
           set_groups (<[sector sc := <[spectrum sc := {| group_scope := sc; entries := ∅ |}]> spectra]> (groups_ o))
             (scopes_ o + 1) (directory_ o + directory sc) o
       end))
    (if created then modify (on_groups (λ gs, delete (sector sc) gs)) else ret tt).

(** [Origin::prune]. *)
Definition prune (sc : Scope) (o : Origin) : Origin :=
  match groups_ o !! sector sc with
  | None => o
  | Some spectra =>
      let vacant := match spectra !! spectrum sc with Some g => bool_decide (entries g = ∅) | None => false end in
      let spectra := if vacant then delete (spectrum sc) spectra else spectra in
      set_groups (if bool_decide (spectra = ∅) then delete (sector sc) (groups_ o) else <[sector sc := spectra]> (groups_ o))
        (if vacant then scopes_ o - 1 else scopes_ o)
        (if vacant then directory_ o - directory sc else directory_ o) o
  end.

(** [if (group_ && group_->entries.empty()) prune(...)]. *)
Definition prune_group (sc : Scope) (o : Origin) : Origin :=
  match locate (groups_ o) sc with
  | Some g => if bool_decide (entries g = ∅) then prune sc o else o
  | None => o
  end.

(** ** Reading *)

(** [Origin::next], [Origin::position] and [Origin::bytes]. *)
Definition next_position : eff Origin (expected Z Error) :=
  idle ;;; o <- read ;; ret (if position_ o =? u64_max then Unexpected version_error else Expected (position_ o + 1)).
Definition get_position : eff Origin Z := idle ;;; gets position_.
Definition get_bytes : eff Origin Z := idle ;;; gets (λ o, bytes_ o + directory_ o).

Definition entry (n : Name) (gs : Groups) : option Z := locate gs (scope n) ≫= λ g, entries g !! key n.

(** [Origin::find]. *)
Definition find (sc : Scope) (k : string) : eff Origin (option Item) :=
  idle ;;;
  o <- read ;;
  row <- row_of (entry {| scope := sc; key := k |} (groups_ o)) (tree_ o) ;;
  ret (snd <$> row).

(** [Origin::View] and [Origin::capture]. *)
Record View := { view_root : pages Name Item; view_position : Z; view_size : Z; view_bytes : Z }.
Definition capture : eff Origin View :=
  idle ;;;
  gets (λ o, {| view_root := tree_ o; view_position := position_ o; view_size := size_of (tree_ o);
                view_bytes := bytes_ o + directory_ o |}).

(** [View::each] and [View::page]. *)
Definition view_each {S} (reader : Scope → string → Item → eff S unit) (v : View) : eff S unit :=
  Pages.each (λ n r, reader (scope n) (key n) r) (view_root v).
Definition view_page {S} (offset maximum : Z) (reader : Scope → string → Item → eff S bool) (v : View) : eff S Z :=
  Pages.page (view_root v) offset maximum (λ n r, reader (scope n) (key n) r).

(** [Origin::each] over one scope or over all of them, as the rows handed to the
    reader; the order inside a scope is that of a hash table and not specified. *)
Fixpoint rows_at (t : pages Name Item) (slots : list Z) : eff Origin (list (Name * Item)) :=
  match slots with
  | [] => ret []
  | sl :: slots =>
      row <- row_of (Some sl) t ;;
      rest <- rows_at t slots ;;
      ret (match row with Some r => r :: rest | None => rest end)
  end.
Definition slots_of (g : Group) : list Z := (map_to_list (entries g)).*2.
Definition each_in (sc : Scope) : eff Origin (list (Name * Item)) :=
  idle ;;;
  o <- read ;;
  match locate (groups_ o) sc with Some g => rows_at (tree_ o) (slots_of g) | None => ret [] end.
Definition groups_in_order (gs : Groups) : list Group :=
  '(_, spectra) ← in_order gs; '(_, g) ← in_order spectra; [g].
Definition each : eff Origin (list (Name * Item)) :=
  idle ;;;
  o <- read ;;
  rows_at (tree_ o) (g ← groups_in_order (groups_ o); slots_of g).

(** [Origin::scopes]. *)
Definition all_scopes : eff Origin (list Scope) :=
  idle ;;; alloc ;;; gets (λ o, group_scope <$> groups_in_order (groups_ o)).

(** [Origin::confirm]. *)
Definition confirm (p : Z) (o : Origin) : bool * Origin :=
  if local_ || editing_ o || (p <? position_ o) then (false, o) else (true, set_position p o).

(** ** Histories *)
Fixpoint upper_bound (since : Z) (h : list Event) : list Event :=
  match h with
  | [] => []
  | e :: rest => if since <? event_position e then h else upper_bound since rest
  end.

(** [Origin::replay]. *)
Definition replay (since : Z) : eff Origin (expected (list Event) Error) :=
  idle ;;;
  o <- read ;;
  if position_ o <? since then ret (Unexpected version_error)
  else if since =? position_ o then ret (Expected [])
  else
    match history_ o with
    | [] => ret (Unexpected history_error)
    | e :: _ =>
        if since <? event_position e - 1 then ret (Unexpected history_error)
        else
          match upper_bound since (history_ o) with
          | [] => ret (Unexpected history_error)
          | suffix => ret (Expected suffix)
          end
    end.

(** [Origin::Delivery] and the loop of [Origin::deliver] from the element at
    distance [index] from the first one. *)
Record Delivery := { head : Z; baseline : option View; events : list Event }.
Fixpoint gather (count budget index used : Z) (h : list Event) : expected (list Event) Error :=
  match h with
  | [] => Expected []
  | e :: h =>
      if count <=? index then Expected []
      else if budget - used <? event_bytes e then if index =? 0 then Unexpected capacity else Expected []
      else match gather count budget (index + 1) (used + event_bytes e) h with
           | Expected l => Expected (e :: l)
           | Unexpected x => Unexpected x
           end
  end.

(** [Origin::deliver]. *)
Definition deliver (since count budget : Z) : eff Origin (expected Delivery Error) :=
  idle ;;;
  o <- read ;;
  if negb local_ || (count =? 0) || (budget =? 0) then ret (Unexpected input)
  else if position_ o <? since then ret (Unexpected version_error)
  else if since =? position_ o then ret (Expected {| head := position_ o; baseline := None; events := [] |})
  else
    let begin := upper_bound since (history_ o) in
    if match begin with e :: _ => negb (event_position e - 1 =? since) | [] => true end
    then v <- capture ;; ret (Expected {| head := position_ o; baseline := Some v; events := [] |})
    else
      match gather count budget 0 0 begin with
      | Expected l => alloc ;;; ret (Expected {| head := position_ o; baseline := None; events := l |})
      | Unexpected x => ret (Unexpected x)
      end.

(** ** Single facts *)

(** [Origin::Edit]; the group pointer is the scope it was found under. *)
Record Edit := {
  edit_group : option Scope;
  edit_name : Name;
  edit_record : option Item;
  edit_position : Z;
  slot : Z;
  edit_bytes : Z;
  old : bool;
  added : bool;
  queued : bool;
  evicted : nat
}.

Definition with_group (g : option Scope) (e : Edit) : Edit :=
  {| edit_group := g; edit_name := edit_name e; edit_record := edit_record e; edit_position := edit_position e;
     slot := slot e; edit_bytes := edit_bytes e; old := old e; added := added e; queued := queued e; evicted := evicted e |}.
Definition with_slot (sl : Z) (a : bool) (e : Edit) : Edit :=
  {| edit_group := edit_group e; edit_name := edit_name e; edit_record := edit_record e; edit_position := edit_position e;
     slot := sl; edit_bytes := edit_bytes e; old := old e; added := a; queued := queued e; evicted := evicted e |}.
Definition with_queue (q : bool) (n : nat) (e : Edit) : Edit :=
  {| edit_group := edit_group e; edit_name := edit_name e; edit_record := edit_record e; edit_position := edit_position e;
     slot := slot e; edit_bytes := edit_bytes e; old := old e; added := added e; queued := q; evicted := n |}.
Definition with_record (r : option Item) (e : Edit) : Edit :=
  {| edit_group := edit_group e; edit_name := edit_name e; edit_record := r; edit_position := edit_position e;
     slot := slot e; edit_bytes := edit_bytes e; old := old e; added := added e; queued := queued e; evicted := evicted e |}.

(** [Edit::abort], run by the destructor of an edit that was not committed. *)
Definition abort (e : Edit) (o : Origin) : Origin :=
  let o := if queued e
           then set_history (removelast (history_ o))
                  (backlog_ o - match last (history_ o) with Some x => event_bytes x | None => 0 end) o
           else o in
  let o := match edit_group e with
           | Some sc =>
               prune_group sc (if added e then on_groups (amend sc (delete (key (edit_name e)))) o else o)
           | None => o
           end in
  set_editing false o.

Fixpoint heaviness (h : list Event) : Z :=
  match h with [] => 0 | e :: h => event_bytes e + heaviness h end.

(** [Edit::commit]. *)
Definition commit (e : Edit) (o : Origin) : Origin :=
  let o :=
    match edit_record e with
    | Some r => set_tree (Pages.set (slot e) (if added e then Some (edit_name e) else None) r (tree_ o)) o
    | None =>
        if old e then
          let o := set_tree (Pages.erase (slot e) (tree_ o)) o in
          let o := match edit_group e with
                   | Some sc => on_groups (amend sc (delete (key (edit_name e)))) o
                   | None => o
                   end in
          set_rows (records_ o - 1) (bytes_ o) o
        else o
    end in
  let o := set_rows (if added e then records_ o + 1 else records_ o) (edit_bytes e) o in
  let o := set_position (edit_position e) o in
  let o := set_history (drop (evicted e) (history_ o)) (backlog_ o - heaviness (take (evicted e) (history_ o))) o in
  let o := match edit_group e with Some sc => prune_group sc o | None => o end in
  set_editing false o.

(** [Edit::revise]: a candidate of the same payload size. *)
Definition revise_last (r : Item) (h : list Event) : list Event :=
  match last h with
  | Some e => removelast h ++ [{| event_name := event_name e; event_record := Some r; event_position := event_position e;
                                  event_form := event_form e; event_bytes := event_bytes e; event_stored := event_stored e |}]
  | None => h
  end.
Definition revise (r : Item) (e : Edit) (o : Origin) : bool * Edit * Origin :=
  match edit_record e with
  | Some old =>
      if measure r =? measure old
      then (true, with_record (Some r) e, if queued e then set_history (revise_last r (history_ o)) (backlog_ o) o else o)
      else (false, e, o)
  | None => (false, e, o)
  end.

(** The loop that counts the history prefix to drop: too many, too heavy or too
    old. *)
Definition aged (now : Z) (e : Event) : bool :=
  (event_stored e <=? now) && (retention limits_ <=? now - event_stored e).
Fixpoint evict (now retained weight : Z) (h : list Event) : nat :=
  match h with
  | [] => 0
  | e :: h =>
      if (history limits_ <? retained) || (backlog limits_ <? weight) || aged now e
      then S (evict now (retained - 1) (weight - event_bytes e) h)
      else 0
  end.

Definition event_cost (k : string) (r : option Item) : Z :=
  sizeof_event + sizeof_name + key_size k + match r with Some i => measure i | None => 0 end.

Definition refuse (e : Edit) (x : Error) : eff Origin (expected Edit Error) := modify (abort e) ;;; ret (Unexpected x).

Section operations.
Context (exclusive : nat → bool).

(** The end of [Origin::prepare]: how much history this change displaces. *)
Definition trim (now : Z) (queued : bool) (e : Edit) : eff Origin (expected Edit Error) :=
  o <- read ;;
  let e := with_queue queued (evict now (Z.of_nat (length (history_ o))) (backlog_ o) (history_ o)) e in
  on_throw alloc (modify (abort e)) ;;;
  ret (Expected e).

(** The event of a numbered change of the Star's own source. *)
Definition announce (position : option Z) (now : Z) (form : Form) (e : Edit) : eff Origin (expected Edit Error) :=
  match position with
  | Some p =>
      if local_ then
        o <- read ;;
        let metadata := sizeof_event + sizeof_name + key_size (key (edit_name e)) in
        let payload := match edit_record e with Some i => measure i | None => 0 end in
        if u64_max - metadata <? payload then refuse e capacity
        else
          let cost := metadata + payload in
          if u64_max - backlog_ o <? cost then refuse e capacity
          else
            on_throw alloc (modify (abort e)) ;;;
            modify (λ o, set_history
              (history_ o ++ [{| event_name := edit_name e; event_record := edit_record e; event_position := p;
                                 event_form := if bool_decide (is_Some (edit_record e)) then form else form_erase;
                                 event_bytes := cost; event_stored := now |}]) (backlog_ o + cost) o) ;;;
            trim now true e
      else trim now false e
  | None => trim now false e
  end.

(** The name, the entry and the pages of the target, after the checks. *)
Definition stage (found : option Z) (e : Edit) : eff Origin Edit :=
  let sc := scope (edit_name e) in
  let present := bool_decide (is_Some (edit_record e)) in
  g <- (if present && negb (old e) && bool_decide (edit_group e = None)
        then on_throw (obtain sc ;;; ret (Some sc)) (modify (abort e))
        else ret (edit_group e)) ;;
  let e := with_group g e in
  (if old e then ret tt else on_throw alloc (modify (abort e))) ;;;
  o <- read ;;
  sl <- (if present && negb (old e)
         then on_throw
                (sl <- lift (Pages.next (tree_ o)) ;;
                 alloc ;;; modify (on_groups (amend sc (λ es, <[key (edit_name e) := sl]> es))) ;;; ret sl)
                (modify (abort e))
         else ret (default 0 found)) ;;
  let e := with_slot sl (present && negb (old e)) e in
  (if present || old e then on_throw (zoom tree_ set_tree (Pages.prepare exclusive sl)) (modify (abort e)) else ret tt) ;;;
  ret e.

(** [Origin::prepare] of one fact. *)
Definition prepare (sc : Scope) (k : string) (record : option Item) (position : option Z) (now : Z) (form : Form)
    : eff Origin (expected Edit Error) :=
  idle ;;;
  let present := bool_decide (is_Some record) in
  if negb (valid sc) || negb (valid_key binary_key k) then ret (Unexpected input)
  else if (present && bool_decide (form = form_erase))
          || (negb present && (bool_decide (form = form_data) || bool_decide (form = form_renew)))
  then ret (Unexpected input)
  else
    o <- read ;;
    if match position with
       | Some p => (position_ o =? u64_max) || negb (p =? position_ o + 1)
       | None => false
       end
    then ret (Unexpected version_error)
    else
      modify (set_editing true) ;;;
      let group := group_scope <$> locate (groups_ o) sc in
      let found := entry {| scope := sc; key := k |} (groups_ o) in
      row <- row_of found (tree_ o) ;;
      let before := match row with Some (n, r) => weight (key n) r | None => Some 0 end in
      let after := match record with Some r => weight k r | None => Some 0 end in
      let exists_ := bool_decide (is_Some row) in
      let e bytes := {| edit_group := group; edit_name := match row with Some (n, _) => n | None => {| scope := sc; key := k |} end;
                        edit_record := record; edit_position := default (position_ o) position; slot := 0;
                        edit_bytes := bytes; old := exists_; added := false; queued := false; evicted := 0 |} in
      match before, after with
      | Some before, Some after =>
          if (bytes limits_ <? after) || (bytes limits_ - after <? wrap64 (bytes_ o - before))
             || (present && negb exists_ && (records_ o =? records limits_))
          then refuse (e 0) capacity
          else
            let e := e (wrap64 (bytes_ o - before) + after) in
            let extra := if present && bool_decide (group = None) then directory sc else 0 in
            if (bytes limits_ <? directory_ o) || (bytes limits_ - directory_ o <? extra)
               || (bytes limits_ - directory_ o - extra <? edit_bytes e)
            then refuse e capacity
            else if negb exists_ && present && bool_decide (group = None) && (scopes_ o =? scopes limits_)
            then refuse e capacity
            else e <- stage found e ;; announce position now form e
      | _, _ => refuse (e 0) capacity
      end.
End operations.

(** [Edit::bytes]. *)
Definition edit_total (e : Edit) (o : Origin) : Z := edit_bytes e + directory_ o.

(** ** Merged recoveries *)

(** [Origin::Batch]; the set of name addresses is the list of names. *)
Record Batch := {
  batch_tree : pages Name Item;
  batch_added : list Name;
  batch_removed : list Name;
  batch_created : list Scope;
  batch_seen : list Name;
  batch_bytes : Z;
  batch_records : Z;
  batch_failed : bool
}.

(** [Origin::prepare] of a batch. *)
Definition open_batch : eff Origin Batch :=
  idle ;;;
  if local_ then throw logic_error
  else
    o <- read ;;
    modify (set_editing true) ;;;
    ret {| batch_tree := tree_ o; batch_added := []; batch_removed := []; batch_created := []; batch_seen := [];
           batch_bytes := bytes_ o; batch_records := records_ o; batch_failed := false |}.

Definition batch_total (b : Batch) (o : Origin) : Z := batch_bytes b + directory_ o.

(** [Batch::find]. *)
Definition batch_find (sc : Scope) (k : string) (o : Origin) (b : Batch) : option Item :=
  let name := {| scope := sc; key := k |} in
  match entry name (groups_ o) ≫= Pages.find (batch_tree b) with
  | Some (n, r) => if bool_decide (n = name) then Some r else None
  | None => None
  end.

Definition mark_failed (b : Batch) : Batch :=
  {| batch_tree := batch_tree b; batch_added := batch_added b; batch_removed := batch_removed b;
     batch_created := batch_created b; batch_seen := batch_seen b; batch_bytes := batch_bytes b;
     batch_records := batch_records b; batch_failed := true |}.
Definition push_names (added removed : list Name) (created : list Scope) (seen : list Name) (b : Batch) : Batch :=
  {| batch_tree := batch_tree b; batch_added := batch_added b ++ added; batch_removed := batch_removed b ++ removed;
     batch_created := batch_created b ++ created; batch_seen := batch_seen b ++ seen; batch_bytes := batch_bytes b;
     batch_records := batch_records b; batch_failed := batch_failed b |}.
Definition put_tree (t : pages Name Item) (b : Batch) : Batch :=
  {| batch_tree := t; batch_added := batch_added b; batch_removed := batch_removed b;
     batch_created := batch_created b; batch_seen := batch_seen b; batch_bytes := batch_bytes b;
     batch_records := batch_records b; batch_failed := batch_failed b |}.
Definition settle (new_bytes new_records : Z) (b : Batch) : Batch :=
  {| batch_tree := batch_tree b; batch_added := batch_added b; batch_removed := batch_removed b;
     batch_created := batch_created b; batch_seen := batch_seen b; batch_bytes := new_bytes;
     batch_records := new_records; batch_failed := false |}.

Definition on_batch (f : Batch → Batch) (p : Origin * Batch) : Origin * Batch := (p.1, f p.2).
Definition on_owner (f : Origin → Origin) (p : Origin * Batch) : Origin * Batch := (f p.1, p.2).

Section batches.
Context (exclusive : nat → bool).

(** Pages of the candidate, made private before they are written. *)
Definition open_pages (sl : Z) : eff (Origin * Batch) unit :=
  zoom (λ p, batch_tree p.2) (λ t, on_batch (put_tree t)) (Pages.prepare exclusive sl).

(** The writes of [Batch::set] once the checks have passed. *)
Definition write_batch (name : Name) (record : Item) (fresh exists_ : bool) (sl new_bytes : Z)
    : eff (Origin * Batch) unit :=
  (if fresh then
     alloc ;;; zoom fst (λ o p, (o, p.2)) (obtain (scope name)) ;;;
     modify (on_batch (push_names [] [] [scope name] []))
   else ret tt) ;;;
  (if exists_ then ret tt
   else
     alloc ;;; modify (on_batch (push_names [name] [] [] [])) ;;;
     alloc ;;; modify (on_owner (on_groups (amend (scope name) (λ es, <[key name := sl]> es))))) ;;;
  alloc ;;; modify (on_batch (push_names [] [] [] [name])) ;;;
  open_pages sl ;;;
  modify (on_batch (λ b, put_tree (Pages.set sl (if exists_ then None else Some name) record (batch_tree b)) b)) ;;;
  modify (on_batch (λ b, settle new_bytes (if exists_ then batch_records b else batch_records b + 1) b)).

(** [Batch::set]; [None] is success. *)
Definition batch_set (sc : Scope) (k : string) (record : Item) : eff (Origin * Batch) (option Error) :=
  p <- read ;;
  let '(o, b) := p in
  modify (on_batch mark_failed) ;;;
  if batch_failed b || negb (valid sc) || negb (valid_key binary_key k) then ret (Some input)
  else
    let name := {| scope := sc; key := k |} in
    let fresh := bool_decide (locate (groups_ o) sc = None) in
    let found := entry name (groups_ o) in
    let exists_ := bool_decide (is_Some found) in
    sl <- match found with Some sl => ret sl | None => lift (Pages.next (batch_tree b)) end ;;
    let row := if exists_ then Pages.find (batch_tree b) sl else None in
    if exists_ && match row with Some (n, _) => negb (bool_decide (n = name)) | None => true end
    then ret (Some duplicate)
    else if exists_ && bool_decide (name ∈ batch_seen b) then ret (Some duplicate)
    else
      let before := match row with Some (_, r) => weight k r | None => Some 0 end in
      let extra := if fresh then directory sc else 0 in
      match before, weight k record with
      | Some before, Some after =>
          let rest := wrap64 (batch_bytes b - before) in
          if (bytes limits_ <? after) || (bytes limits_ - after <? rest)
             || (negb exists_ && (batch_records b =? records limits_))
             || (bytes limits_ <? directory_ o) || (bytes limits_ - directory_ o <? extra)
             || (bytes limits_ - directory_ o - extra <? rest + after)
          then ret (Some capacity)
          else if fresh && (scopes_ o =? scopes limits_) then ret (Some capacity)
          else write_batch name record fresh exists_ sl (rest + after) ;;; ret None
      | _, _ => ret (Some capacity)
      end.

(** [Batch::erase]. *)
Definition batch_erase (sc : Scope) (k : string) : eff (Origin * Batch) (option Error) :=
  p <- read ;;
  let '(o, b) := p in
  if batch_failed b then ret (Some input)
  else
    modify (on_batch mark_failed) ;;;
    let name := {| scope := sc; key := k |} in
    match entry name (groups_ o) with
    | None => ret (Some input)
    | Some sl =>
        match Pages.find (tree_ o) sl with
        | Some (n, r) =>
            if negb (bool_decide (n = name)) || bool_decide (name ∈ batch_seen b) then ret (Some duplicate)
            else
              alloc ;;; modify (on_batch (push_names [] [] [] [name])) ;;;
              alloc ;;; modify (on_batch (push_names [] [name] [] [])) ;;;
              open_pages sl ;;;
              modify (on_batch (λ b, put_tree (Pages.erase sl (batch_tree b)) b)) ;;;
              w <- lift (match weight k r with Some w => Done w | None => Thrown logic_error end) ;;
              modify (on_batch (λ b, settle (wrap64 (batch_bytes b - w)) (batch_records b - 1) b)) ;;;
              ret None
        | None => ret (Some duplicate)
        end
    end.
End batches.

(** [Batch::commit] and [Batch::abort]: all entries leave first, then the groups
    they leave empty. *)
Definition unlist (names : list Name) (o : Origin) : Origin :=
  foldl (λ o n, on_groups (amend (scope n) (delete (key n))) o) o names.
Definition prune_all (scs : list Scope) (o : Origin) : Origin := foldl (λ o sc, prune sc o) o scs.

Definition batch_commit (b : Batch) (o : Origin) : Origin :=
  let o := set_rows (batch_records b) (batch_bytes b) (set_tree (batch_tree b) o) in
  set_editing false (prune_all (scope <$> batch_removed b) (unlist (batch_removed b) o)).
Definition batch_abort (b : Batch) (o : Origin) : Origin :=
  set_editing false (prune_all (batch_created b) (unlist (batch_added b) o)).
End origin.

(** ** Whole baselines *)
Section drafts.
Context {Item : Type} {layout : Layout Item} (binary_key : bool).

(** [Origin::Draft]: a private source without history; [None] after a move. *)
Record Draft := { candidate : option (Origin (Item := Item)); draft_position : Z }.

(** [Origin::prepare] of a draft. *)
Definition open_draft {S} (limits_ : Limits) (position : Z) : eff S Draft :=
  alloc ;;; o <- lift (make limits_) ;; ret {| candidate := Some o; draft_position := position |}.

Definition put_candidate (o : Origin) (d : Draft) : Draft := {| candidate := Some o; draft_position := draft_position d |}.

(** [Draft::set], under the limits the draft was made with. *)
Definition draft_set (exclusive : nat → bool) (limits_ : Limits) (sc : Scope) (k : string) (record : Item) (now : Z)
    : eff Draft (option Error) :=
  d <- read ;;
  match candidate d with
  | None => ret (Some input)
  | Some o =>
      zoom (λ d, default o (candidate d)) put_candidate
        (was <- find sc k ;;
         match was with
         | Some _ => ret (Some duplicate)
         | None =>
             r <- prepare binary_key false limits_ exclusive sc k (Some record) None now form_record ;;
             match r with
             | Unexpected x => ret (Some x)
             | Expected e => modify (commit e) ;;; ret None
             end
         end)
  end.

Definition draft_bytes (d : Draft) : Z :=
  match candidate d with Some o => bytes_ o + directory_ o | None => 0 end.

(** [Origin::validate]; [same_measure] compares the two measure functions. *)
Definition validate (local_ : bool) (limits_ : Limits) (same_measure : bool) (d : Draft)
    : eff (Origin (Item := Item)) (option Error) :=
  idle ;;;
  o <- read ;;
  match candidate d with
  | None => ret (Some input)
  | Some c =>
      if local_ || negb same_measure then ret (Some input)
      else if (draft_position d <? position_ o) || ((draft_position d =? 0) && negb (records_ c =? 0))
      then ret (Some version_error)
      else if (records limits_ <? records_ c) || (scopes limits_ <? scopes_ c) || (bytes limits_ <? directory_ c)
              || (bytes limits_ - directory_ c <? bytes_ c)
      then ret (Some capacity)
      else ret None
  end.

(** [Origin::reset]: everything but the gate and the constants is swapped. *)
Definition reset (local_ : bool) (limits_ : Limits) (same_measure : bool) (d : Draft)
    : eff (Origin (Item := Item)) (option Error) :=
  r <- validate local_ limits_ same_measure d ;;
  match r, candidate d with
  | None, Some c =>
      modify (λ o, {| tree_ := tree_ c; groups_ := groups_ c; history_ := history_ c; position_ := draft_position d;
                      records_ := records_ c; scopes_ := scopes_ c; bytes_ := bytes_ c; directory_ := directory_ c;
                      backlog_ := backlog_ c; editing_ := editing_ o |}) ;;;
      ret None
  | r, _ => ret r
  end.
End drafts.

(** ** The directory as a map from scopes *)
Definition touch (f : gmap string Z → gmap string Z) (g : Group) : Group :=
  {| group_scope := group_scope g; entries := f (entries g) |}.
Abbreviation shelf := (gmap Scope Group).
Definition shelf_bytes (fl : shelf) : Z := map_sum (λ sc _, directory sc) fl.

Definition vacate (sc : Scope) (fl : shelf) : shelf :=
  match fl !! sc with
  | Some g => if bool_decide (entries g = ∅) then delete sc fl else fl
  | None => fl
  end.

Lemma locate_insert sc spectra (gs : Groups) sc' :
  locate (<[sector sc := spectra]> gs) sc' =
  if decide (sector sc' = sector sc) then spectra !! spectrum sc' else locate gs sc'.
Proof.
  unfold locate. destruct (decide _) as [->|Hne]; [by rewrite lookup_insert_eq|]. by rewrite lookup_insert_ne by done.
Qed.

Lemma scope_ext sc sc' : sector sc' = sector sc → spectrum sc' = spectrum sc → sc' = sc.
Proof. destruct sc, sc'. simpl. by intros -> ->. Qed.

Lemma locate_amend sc f (gs : Groups) sc' :
  locate (amend sc f gs) sc' = if decide (sc' = sc) then touch f <$> locate gs sc' else locate gs sc'.
Proof.
  unfold amend. destruct (gs !! sector sc) as [spectra|] eqn:E1.
  2: { destruct (decide _) as [->|]; [|done]. unfold locate. by rewrite E1. }
  destruct (spectra !! spectrum sc) as [g|] eqn:E2.
  2: { destruct (decide _) as [->|]; [|done]. unfold locate. rewrite E1. simpl. by rewrite E2. }
  rewrite locate_insert. destruct (decide (sc' = sc)) as [->|Hne].
  - rewrite decide_True by done. rewrite lookup_insert_eq. unfold locate. rewrite E1. simpl. by rewrite E2.
  - destruct (decide (sector sc' = sector sc)) as [Hs|]; [|done]. rewrite lookup_insert_ne.
    + unfold locate. by rewrite Hs, E1.
    + intros Hx. by apply Hne, scope_ext.
Qed.

Lemma amend_sectors sc f (gs : Groups) :
  (∀ a spectra, gs !! a = Some spectra → spectra ≠ ∅) →
  ∀ a spectra, amend sc f gs !! a = Some spectra → spectra ≠ ∅.
Proof.
  intros Hgs a spectra. unfold amend. destruct (gs !! sector sc) as [sp|]; [|by apply Hgs].
  destruct (sp !! spectrum sc); [|by apply Hgs]. destruct (decide (a = sector sc)) as [->|Hne].
  - rewrite lookup_insert_eq. intros [= <-]. apply insert_non_empty.
  - rewrite lookup_insert_ne by done. apply Hgs.
Qed.

Lemma shelf_alter f sc fl : shelf_bytes (alter f sc fl) = shelf_bytes fl ∧ size (alter f sc fl) = size fl.
Proof.
  unfold shelf_bytes. destruct (fl !! sc) as [g|] eqn:E.
  - rewrite (alter_alt_Some f fl sc g E). rewrite (map_sum_insert _ _ _ _ _ E), map_size_insert, E. split; [lia|done].
  - by rewrite alter_id' by done.
Qed.

Lemma shelf_vacate sc fl : shelf_bytes (vacate sc fl) <= shelf_bytes fl ∧ (size (vacate sc fl) <= size fl)%nat.
Proof.
  unfold vacate. destruct (fl !! sc) as [g|] eqn:E; [|done]. destruct (bool_decide _); [|done]. unfold shelf_bytes.
  rewrite (map_sum_delete _ _ _ _ E), map_size_delete, E. unfold directory, key_size. simpl. lia.
Qed.

Lemma vacate_lookup sc fl sc' :
  vacate sc fl !! sc' =
  match fl !! sc' with
  | Some g => if bool_decide (sc' = sc) && bool_decide (entries g = ∅) then None else Some g
  | None => None
  end.
Proof.
  unfold vacate. destruct (decide (sc' = sc)) as [->|Hne].
  - rewrite (bool_decide_eq_true_2 (sc = sc)) by done. destruct (fl !! sc) as [g|] eqn:E; [|by rewrite E]. simpl.
    destruct (bool_decide _); [by rewrite lookup_delete_eq|done].
  - rewrite (bool_decide_eq_false_2 (sc' = sc)) by done. simpl.
    assert (Hd : delete sc fl !! sc' = fl !! sc') by (by rewrite lookup_delete_ne).
    destruct (fl !! sc) as [g|]; [destruct (bool_decide _)|]; rewrite ?Hd; by destruct (fl !! sc').
Qed.

Lemma vacate_full sc fl : (∀ g, fl !! sc = Some g → entries g ≠ ∅) → vacate sc fl = fl.
Proof.
  intros Hf. unfold vacate. destruct (fl !! sc) as [g|]; [|done]. by rewrite bool_decide_eq_false_2 by (by apply Hf).
Qed.

Section shelves.
Context {Item : Type} {layout : Layout Item}.
Implicit Types (o : Origin (Item := Item)) (fl : shelf).

Record shelved o fl : Prop := {
  sv_locate : ∀ sc, locate (groups_ o) sc = fl !! sc;
  sv_sectors : ∀ a spectra, groups_ o !! a = Some spectra → spectra ≠ ∅;
  sv_scopes : scopes_ o = Z.of_nat (size fl);
  sv_directory : directory_ o = shelf_bytes fl
}.

(** Everything but the directory. *)
Record framed o o' : Prop := {
  fr_tree : tree_ o' = tree_ o;
  fr_history : history_ o' = history_ o;
  fr_position : position_ o' = position_ o;
  fr_records : records_ o' = records_ o;
  fr_bytes : bytes_ o' = bytes_ o;
  fr_backlog : backlog_ o' = backlog_ o;
  fr_editing : editing_ o' = editing_ o
}.

Lemma framed_refl o : framed o o.
Proof. by split. Qed.
Lemma framed_trans o1 o2 o3 : framed o1 o2 → framed o2 o3 → framed o1 o3.
Proof. intros [] []. split; congruence. Qed.

Lemma shelved_amend sc f o fl :
  shelved o fl → shelved (on_groups (amend sc f) o) (alter (touch f) sc fl) ∧ framed o (on_groups (amend sc f) o).
Proof.
  intros [S1 S2 S3 S4]. split; [|by split]. destruct (shelf_alter (touch f) sc fl) as [A1 A2].
  split; cbn; [|by apply amend_sectors|by rewrite A2|by rewrite A1].
  intros sc'. rewrite locate_amend, S1. destruct (decide (sc' = sc)) as [->|]; [by rewrite lookup_alter_eq|].
  by rewrite lookup_alter_ne.
Qed.

Lemma shelved_prune sc o fl : shelved o fl → shelved (prune sc o) (vacate sc fl) ∧ framed o (prune sc o).
Proof.
  intros [S1 S2 S3 S4]. unfold prune. pose proof (S1 sc) as Hsc. unfold locate in Hsc.
  destruct (groups_ o !! sector sc) as [spectra|] eqn:E; simpl in Hsc.
  2: { split; [|apply framed_refl]. unfold vacate. rewrite <- Hsc. by split. }
  split; [|by split]. set (vacant := match spectra !! spectrum sc with Some g => _ | None => false end).
  assert (Hv : vacate sc fl = if vacant then delete sc fl else fl).
  { unfold vacate, vacant. rewrite <- Hsc. by destruct (spectra !! spectrum sc). }
  assert (Hin : vacant = true → ∃ g, fl !! sc = Some g).
  { unfold vacant. rewrite Hsc. destruct (fl !! sc); [by eexists|done]. }
  set (rest := if vacant then _ else _).
  assert (Hrest : ∀ sp, rest !! sp = if vacant && bool_decide (sp = spectrum sc) then None else spectra !! sp).
  { intros sp. unfold rest. destruct vacant; simpl; [|done]. destruct (decide (sp = spectrum sc)) as [->|Hne].
    - rewrite bool_decide_eq_true_2 by done. by rewrite lookup_delete_eq.
    - rewrite bool_decide_eq_false_2 by done. by rewrite lookup_delete_ne. }
  assert (Hloc : ∀ sc', (if decide (sector sc' = sector sc) then rest !! spectrum sc' else locate (groups_ o) sc')
    = vacate sc fl !! sc').
  { intros sc'. rewrite Hv. destruct (decide (sector sc' = sector sc)) as [Hs|Hs].
    - rewrite Hrest. assert (Hl : spectra !! spectrum sc' = fl !! sc') by (by rewrite <- S1; unfold locate; rewrite Hs, E).
      rewrite Hl. destruct vacant; simpl; [|done]. destruct (decide (spectrum sc' = spectrum sc)) as [Hp|Hp].
      + rewrite bool_decide_eq_true_2 by done. rewrite (scope_ext _ _ Hs Hp). by rewrite lookup_delete_eq.
      + rewrite bool_decide_eq_false_2 by done. rewrite lookup_delete_ne; [done|]. by intros ->.
    - rewrite S1. destruct vacant; [|done]. rewrite lookup_delete_ne; [done|]. by intros ->. }
  split; cbn.
  - intros sc'. rewrite <- Hloc. destruct (bool_decide_reflect (rest = ∅)) as [Hr|Hr].
    + unfold locate. destruct (decide (sector sc' = sector sc)) as [->|Hs].
      * rewrite lookup_delete_eq, Hr. by rewrite lookup_empty.
      * by rewrite lookup_delete_ne.
    + by rewrite locate_insert.
  - intros a sp. destruct (bool_decide_reflect (rest = ∅)) as [Hr|Hr].
    + intros [_ Ha]%lookup_delete_Some. by eapply S2.
    + destruct (decide (a = sector sc)) as [->|Hne]; [rewrite lookup_insert_eq; by intros [= <-]|].
      rewrite lookup_insert_ne by done. apply S2.
  - rewrite Hv. destruct vacant; [|done]. destruct (Hin eq_refl) as [g Hg]. rewrite map_size_delete, Hg, S3. simpl.
    assert (size fl ≠ 0%nat); [|lia]. intros ->%map_size_empty_iff. by rewrite lookup_empty in Hg.
  - rewrite Hv. destruct vacant; [|done]. destruct (Hin eq_refl) as [g Hg]. rewrite S4. unfold shelf_bytes.
    rewrite (map_sum_delete _ _ _ _ Hg). lia.
Qed.

Lemma shelved_prune_group sc o fl :
  shelved o fl → shelved (prune_group sc o) (vacate sc fl) ∧ framed o (prune_group sc o).
Proof.
  intros Hs. unfold prune_group. rewrite (sv_locate _ _ Hs). destruct (fl !! sc) as [g|] eqn:E.
  - case_bool_decide; [by apply shelved_prune|]. rewrite vacate_full; [split; [done|apply framed_refl]|]. congruence.
  - rewrite vacate_full; [split; [done|apply framed_refl]|]. congruence.
Qed.

Lemma set_groups_same o : set_groups (groups_ o) (scopes_ o) (directory_ o) o = o.
Proof. by destruct o. Qed.

Lemma obtain_wp sc o fl :
  shelved o fl → fl !! sc = None →
  wp Faulty (obtain sc)
    (λ _ o', shelved o' (<[sc := {| group_scope := sc; entries := ∅ |}]> fl) ∧ framed o o')
    (λ e o', e = bad_alloc ∧ o' = o) o.
Proof.
  intros [S1 S2 S3 S4] Hnew. set (g0 := {| group_scope := sc; entries := ∅ |}).
  assert (Hdone : ∀ spectra gs', gs' = groups_ o ∨ gs' = <[sector sc := ∅]> (groups_ o) →
    spectra = default ∅ (groups_ o !! sector sc) →
    let o' := set_groups (<[sector sc := <[spectrum sc := g0]> spectra]> gs') (scopes_ o + 1) (directory_ o + directory sc) o in
    shelved o' (<[sc := g0]> fl) ∧ framed o o').
  { intros spectra gs' Hgs' Hsp. split; [|by split].
    assert (Hother : ∀ a, a ≠ sector sc → gs' !! a = groups_ o !! a).
    { intros a Ha. destruct Hgs' as [->| ->]; [done|]. by rewrite lookup_insert_ne. }
    assert (Hin : ∀ sc', sector sc' = sector sc → spectra !! spectrum sc' = fl !! sc').
    { intros sc' Hs. rewrite <- S1. unfold locate. rewrite Hs, Hsp. destruct (groups_ o !! sector sc); simpl; [done|].
      by rewrite lookup_empty. }
    split; cbn.
    - intros sc'. rewrite locate_insert. destruct (decide (sector sc' = sector sc)) as [Hs|Hs].
      + destruct (decide (spectrum sc' = spectrum sc)) as [Hp|Hp].
        * rewrite (scope_ext _ _ Hs Hp). by rewrite !lookup_insert_eq.
        * rewrite !lookup_insert_ne by congruence. by apply Hin.
      + rewrite lookup_insert_ne by congruence. rewrite <- S1. unfold locate. by rewrite Hother.
    - intros a sp. destruct (decide (a = sector sc)) as [->|Ha].
      + rewrite lookup_insert_eq. intros [= <-]. apply insert_non_empty.
      + rewrite lookup_insert_ne, Hother by done. apply S2.
    - rewrite map_size_insert, Hnew, S3. simpl. lia.
    - rewrite S4. unfold shelf_bytes. rewrite map_sum_insert_new by done. lia. }
  pose proof (S1 sc) as Hsc. rewrite Hnew in Hsc. unfold locate in Hsc.
  unfold obtain. wp_step. wp_step; [|done]. wp_step. wp_step. cbv zeta. wp_step.
  destruct (groups_ o !! sector sc) as [spectra|] eqn:E; simpl in Hsc.
  - rewrite bool_decide_eq_false_2 by done. wp_step. wp_step. wp_step. wp_step; [|by wp_step]. wp_step.
    rewrite E. simpl. rewrite Hsc. apply Hdone; [by left|done].
  - rewrite bool_decide_eq_true_2 by done. wp_step. wp_step; [|done]. wp_step. wp_step. wp_step. wp_step.
    + wp_step. cbn [on_groups set_groups groups_ scopes_ directory_]. rewrite lookup_insert_eq. simpl.
      rewrite lookup_empty. apply (Hdone ∅); [by right|done].
    + wp_step. split; [done|]. unfold on_groups, set_groups. cbn.
      rewrite delete_insert_id by done. apply set_groups_same.
Qed.
End shelves.

(** ** What a source holds
    [m] are its records over all scopes, [log] the events it has announced and the
    position it stands at. *)
Section contents.
Context {Item : Type} {layout : Layout Item}.
Implicit Types (o : Origin (Item := Item)) (fl : shelf) (m : gmap Name Item) (h : list (Event (Item := Item))).

Definition row_weight (n : Name) (i : Item) : Z := sizeof_item + sizeof_name + key_size (key n) + 128 + measure i.
Definition content_bytes m : Z := map_sum row_weight m.

(** The tables of all scopes as one table over names. *)
Definition listed fl (es : gmap Name Z) : Prop :=
  ∀ n, es !! n = fl !! scope n ≫= λ g, entries g !! key n.
Definition full fl : Prop := ∀ sc g, fl !! sc = Some g → group_scope g = sc ∧ entries g ≠ ∅.

Definition costed h : Prop :=
  Forall (λ e, event_bytes e = event_cost (key (event_name e)) (event_record e)) h.

Record limits_ok (limits_ : Limits) : Prop := {
  li_bytes : 0 <= bytes limits_ <= u64_max;
  li_records : 0 <= records limits_;
  li_scopes : 0 <= scopes limits_;
  li_history : 0 <= history limits_;
  li_backlog : 0 <= backlog limits_
}.

(** Retained history: a suffix of the announced events, which count from one;
    other sources announce nothing. *)
Record chronicle := { told : list (Event (Item := Item)); place : Z }.
Definition extend (log : chronicle) (position : option Z) h : chronicle :=
  {| told := told log ++ h; place := default (place log) position |}.

Record journal (local_ : bool) (limits_ : Limits) o (log : chronicle) : Prop := {
  jo_place : position_ o = place log;
  jo_position : 0 <= position_ o <= u64_max;
  jo_count : if local_ then position_ o = Z.of_nat (length (told log)) else told log = [];
  jo_order : ∀ i e, told log !! i = Some e → event_position e = Z.of_nat i + 1;
  jo_costed : costed (told log);
  jo_suffix : history_ o `suffix_of` told log;
  jo_backlog : backlog_ o = heaviness (history_ o);
  jo_bounds : Z.of_nat (length (history_ o)) <= history limits_ ∧ backlog_ o <= backlog limits_
}.

Record holds (limits_ : Limits) o fl (es : gmap Name Z) m : Prop := {
  ho_shelf : shelved o fl;
  ho_full : full fl;
  ho_listed : listed fl es;
  ho_spells : spells (tree_ o) es m;
  ho_bytes : bytes_ o = content_bytes m ∧ bytes_ o + directory_ o <= bytes limits_;
  ho_records : records_ o = Z.of_nat (size m) ∧ records_ o <= records limits_;
  ho_scopes : scopes_ o <= scopes limits_
}.

Definition origin_ok (local_ : bool) (limits_ : Limits) o m (log : chronicle) : Prop :=
  editing_ o = false ∧ journal local_ limits_ o log ∧ ∃ fl es, holds limits_ o fl es m.

Lemma origin_weight_some n i w : weight (key n) i = Some w → w = row_weight n i.
Proof. unfold weight, row_weight. case_match; [done|]. intros [= <-]. lia. Qed.

Lemma origin_row_weight_pos n i : 0 < row_weight n i.
Proof. unfold row_weight, key_size. pose proof (measure_range i). pose proof sizeof_range. lia. Qed.

Lemma origin_event_cost_pos k (r : option Item) : 0 < event_cost k r.
Proof.
  unfold event_cost, key_size. pose proof sizeof_range. destruct r as [i|]; [pose proof (measure_range i)|]; lia.
Qed.

Lemma shelf_nonneg fl : 0 <= shelf_bytes fl.
Proof. apply map_sum_nonneg. intros sc g _. unfold directory, key_size. lia. Qed.

(** *** The tables *)
Lemma entry_listed o fl es n : shelved o fl → listed fl es → entry n (groups_ o) = es !! n.
Proof. intros Hs Hl. unfold entry. by rewrite (sv_locate _ _ Hs), Hl. Qed.

(** Entering a name; its group is made when it is the first one. *)
Definition enter (n : Name) (sl : Z) fl : shelf :=
  partial_alter (λ g, Some {| group_scope := scope n;
                              entries := <[key n := sl]> (match g with Some g => entries g | None => ∅ end) |}) (scope n) fl.

Lemma enter_here n sl fl :
  enter n sl fl !! scope n =
  Some {| group_scope := scope n; entries := <[key n := sl]> (match fl !! scope n with Some g => entries g | None => ∅ end) |}.
Proof. unfold enter. by rewrite lookup_partial_alter_eq. Qed.

Lemma enter_other n sl fl sc : sc ≠ scope n → enter n sl fl !! sc = fl !! sc.
Proof. intros Hne. unfold enter. by rewrite lookup_partial_alter_ne by done. Qed.

Lemma name_ext n n' : scope n' = scope n → key n' = key n → n' = n.
Proof. destruct n, n'. simpl. by intros -> ->. Qed.

Lemma listed_enter n sl fl es : listed fl es → listed (enter n sl fl) (<[n := sl]> es).
Proof.
  intros Hl n'. destruct (decide (scope n' = scope n)) as [Hs|Hs].
  - rewrite Hs, enter_here. simpl. destruct (decide (key n' = key n)) as [Hk|Hk].
    + rewrite (name_ext _ _ Hs Hk). by rewrite !lookup_insert_eq.
    + rewrite !lookup_insert_ne by congruence. rewrite Hl, Hs. by destruct (fl !! scope n).
  - rewrite enter_other by done. rewrite lookup_insert_ne by congruence. apply Hl.
Qed.

Lemma full_enter n sl fl : full fl → full (enter n sl fl).
Proof.
  intros Hf sc g. destruct (decide (sc = scope n)) as [->|Hne].
  - rewrite enter_here. intros [= <-]. simpl. split; [done|apply insert_non_empty].
  - rewrite enter_other by done. apply Hf.
Qed.

Lemma listed_remove n fl es : listed fl es → listed (alter (touch (delete (key n))) (scope n) fl) (delete n es).
Proof.
  intros Hl n'. destruct (decide (scope n' = scope n)) as [Hs|Hs].
  - rewrite Hs, lookup_alter_eq. destruct (decide (key n' = key n)) as [Hk|Hk].
    + rewrite (name_ext _ _ Hs Hk), lookup_delete_eq. destruct (fl !! scope n); simpl; [|done]. by rewrite lookup_delete_eq.
    + rewrite lookup_delete_ne by congruence. rewrite Hl, Hs. destruct (fl !! scope n); simpl; [|done].
      by rewrite lookup_delete_ne.
  - rewrite lookup_alter_ne by congruence. rewrite lookup_delete_ne by congruence. apply Hl.
Qed.

Lemma listed_vacate sc fl es : listed fl es → listed (vacate sc fl) es.
Proof.
  intros Hl n. rewrite Hl, vacate_lookup. destruct (fl !! scope n) as [g|]; simpl; [|done].
  destruct (bool_decide _ && _) eqn:E; [|done]. apply andb_true_iff in E as [_ E%bool_decide_eq_true].
  rewrite E. simpl. by rewrite lookup_empty.
Qed.

Lemma full_vacate sc f fl : full fl → full (vacate sc (alter (touch f) sc fl)).
Proof.
  intros Hf sc' g. rewrite vacate_lookup. destruct (decide (sc' = sc)) as [->|Hne].
  - rewrite lookup_alter_eq. destruct (fl !! sc) as [g0|] eqn:E; simpl; [|done].
    rewrite (bool_decide_eq_true_2 (sc = sc)) by done. simpl. case_bool_decide as Hg; [done|]. intros [= <-].
    split; [|done]. simpl. by eapply Hf.
  - rewrite lookup_alter_ne by done. rewrite (bool_decide_eq_false_2 (sc' = sc)) by done. simpl.
    destruct (fl !! sc') as [g0|] eqn:E; [|done]. intros [= <-]. by apply Hf.
Qed.

(** Taking back what was entered. *)
Lemma leave_enter n sl fl :
  full fl → (fl !! scope n ≫= λ g, entries g !! key n) = None →
  vacate (scope n) (alter (touch (delete (key n))) (scope n) (enter n sl fl)) = fl.
Proof.
  intros Hf Hn. apply map_eq. intros sc. rewrite vacate_lookup. destruct (decide (sc = scope n)) as [->|Hne].
  - rewrite lookup_alter_eq, enter_here. simpl. rewrite bool_decide_eq_true_2 by done. simpl.
    destruct (fl !! scope n) as [g|] eqn:E; simpl in *.
    + rewrite delete_insert_id by done. destruct (Hf _ _ E) as [Hg Hne]. rewrite bool_decide_eq_false_2 by done.
      f_equal. unfold touch. simpl. rewrite delete_insert_id by done. rewrite <- Hg. by destruct g.
    + rewrite delete_insert_id by apply lookup_empty. by rewrite bool_decide_eq_true_2.
  - rewrite lookup_alter_ne, enter_other by done. rewrite bool_decide_eq_false_2 by done. by destruct (fl !! sc).
Qed.

Lemma enter_existing n sl fl g :
  fl !! scope n = Some g → group_scope g = scope n →
  alter (touch (λ es, <[key n := sl]> es)) (scope n) fl = enter n sl fl.
Proof.
  intros E Hg. apply map_eq. intros sc. destruct (decide (sc = scope n)) as [->|Hne].
  - rewrite lookup_alter_eq, enter_here, E. unfold touch. simpl. by rewrite Hg.
  - by rewrite lookup_alter_ne, enter_other by done.
Qed.

Lemma enter_fresh n sl fl :
  fl !! scope n = None → 
  alter (touch (λ es, <[key n := sl]> es)) (scope n) (<[scope n := {| group_scope := scope n; entries := ∅ |}]> fl) = enter n sl fl.
Proof.
  intros E. apply map_eq. intros sc. destruct (decide (sc = scope n)) as [->|Hne].
  - rewrite lookup_alter_eq, enter_here, E, lookup_insert_eq. done.
  - by rewrite lookup_alter_ne, enter_other, lookup_insert_ne by done.
Qed.

Lemma vacate_fresh sc fl :
  fl !! sc = None → vacate sc (<[sc := {| group_scope := sc; entries := ∅ |}]> fl) = fl.
Proof.
  intros E. unfold vacate. rewrite lookup_insert_eq. simpl. by rewrite delete_insert_id.
Qed.

(** *** Histories *)
Lemma origin_heaviness_app h1 h2 : heaviness (h1 ++ h2) = heaviness h1 + heaviness h2.
Proof. induction h1 as [|e h1 IH]; simpl; [done|]. rewrite IH. lia. Qed.

Lemma origin_heaviness_split n h : heaviness h = heaviness (take n h) + heaviness (drop n h).
Proof. rewrite <- origin_heaviness_app. by rewrite take_drop. Qed.

Lemma costed_nonneg h : costed h → 0 <= heaviness h.
Proof.
  induction h as [|e h IH]; simpl; [done|]. intros [He Hh]%Forall_cons. specialize (IH Hh).
  pose proof (origin_event_cost_pos (key (event_name e)) (event_record e)). lia.
Qed.

Lemma evict_fits limits_ now h :
  limits_ok limits_ →
  let n := evict limits_ now (Z.of_nat (length h)) (heaviness h) h in
  Z.of_nat (length (drop n h)) <= history limits_ ∧ heaviness (drop n h) <= backlog limits_.
Proof.
  intros HL. induction h as [|e h IH]; simpl; [destruct HL; lia|].
  destruct (_ || _) eqn:E.
  - simpl. replace (Z.of_nat (S (length h)) - 1) with (Z.of_nat (length h)) by lia.
    replace (event_bytes e + heaviness h - event_bytes e) with (heaviness h) by lia. done.
  - rewrite !orb_false_iff, !Z.ltb_ge in E. simpl. lia.
Qed.
End contents.

(** ** Single facts: either committed or without a trace *)
Section edits.
Context {Item : Type} {layout : Layout Item} (binary_key local_ : bool) (limits_ : Limits) (HL : limits_ok limits_).
Context (exclusive : nat → bool).
Implicit Types (o : Origin (Item := Item)) (fl : shelf) (m : gmap Name Item) (h : list (Event (Item := Item))).
Implicit Types (e : Edit (Item := Item)) (es : gmap Name Z) (ev : Event (Item := Item)).

Definition undo e fl : shelf :=
  match edit_group e with
  | Some sc => vacate sc (if added e then alter (touch (delete (key (edit_name e)))) sc fl else fl)
  | None => fl
  end.

(** A source while [e] is being prepared on [o0]. *)
Record prepping o0 fl0 e o1 fl1 : Prop := {
  pp_tree : keeps (tree_ o0) (tree_ o1);
  pp_shelf : shelved o1 fl1;
  pp_undo : undo e fl1 = fl0;
  pp_rest : position_ o1 = position_ o0 ∧ records_ o1 = records_ o0 ∧ bytes_ o1 = bytes_ o0;
  pp_history :
    if queued e then ∃ ev, history_ o1 = history_ o0 ++ [ev] ∧ backlog_ o1 = backlog_ o0 + event_bytes ev
    else history_ o1 = history_ o0 ∧ backlog_ o1 = backlog_ o0
}.

Lemma shelved_ext o o' fl :
  groups_ o' = groups_ o → scopes_ o' = scopes_ o → directory_ o' = directory_ o → shelved o fl → shelved o' fl.
Proof. intros E1 E2 E3 [S1 S2 S3 S4]. split; rewrite ?E1, ?E2, ?E3; done. Qed.

Lemma abort_fields e o fl :
  shelved o fl →
  let o' := abort e o in
  shelved o' (undo e fl) ∧ tree_ o' = tree_ o ∧ position_ o' = position_ o ∧ records_ o' = records_ o ∧
  bytes_ o' = bytes_ o ∧ editing_ o' = false ∧
  history_ o' = (if queued e then removelast (history_ o) else history_ o) ∧
  backlog_ o' = (if queued e then backlog_ o - match last (history_ o) with Some x => event_bytes x | None => 0 end
                 else backlog_ o).
Proof.
  intros Hs. unfold abort. set (o1 := if queued e then _ else o).
  assert (H1 : shelved o1 fl) by (unfold o1; destruct (queued e); [by apply (shelved_ext o)|done]).
  cbv zeta. set (o2 := match edit_group e with Some sc => _ | None => o1 end).
  assert (H2 : shelved o2 (undo e fl) ∧ framed o1 o2).
  { unfold o2, undo. destruct (edit_group e) as [sc|]; [|split; [done|apply framed_refl]].
    destruct (added e); [|by apply shelved_prune_group].
    destruct (shelved_amend sc (delete (key (edit_name e))) o1 fl H1) as [Ha Hf].
    destruct (shelved_prune_group sc _ _ Ha) as [Hb Hg]. split; [done|]. by eapply framed_trans. }
  destruct H2 as [H2 [F1 F2 F3 F4 F5 F6 F7]]. split; [by apply (shelved_ext o2)|]. cbn.
  rewrite F1, F2, F3, F4, F5, F6. unfold o1. by destruct (queued e).
Qed.

Lemma abort_ok o0 fl0 es m log e o1 fl1 :
  holds limits_ o0 fl0 es m → journal local_ limits_ o0 log → prepping o0 fl0 e o1 fl1 →
  origin_ok local_ limits_ (abort e o1) m log.
Proof.
  intros [H1 H2 H3 H4 H5 H6 H7] [J0 J1 J2 J3 J4 J5 J6 J7] [P1 P2 P3 (P4 & P5 & P6) P7].
  destruct (abort_fields e o1 fl1 P2) as (A1 & A2 & A3 & A4 & A5 & A6 & A7 & A8). rewrite P3 in A1.
  set (o' := abort e o1) in *. clearbody o'.
  assert (Hh : history_ o' = history_ o0 ∧ backlog_ o' = backlog_ o0).
  { rewrite A7, A8. destruct (queued e); [|done]. destruct P7 as (ev & E1 & E2).
    rewrite E1, E2, removelast_last, last_snoc. split; [done|lia]. }
  destruct Hh as [Hh1 Hh2]. split; [done|]. split.
  - split; rewrite ?A3, ?P4, ?Hh1, ?Hh2; done.
  - exists fl0, es. split; try done.
    + rewrite A2. by eapply spells_keeps.
    + rewrite A5, P6, (sv_directory _ _ A1), <- (sv_directory _ _ H1). done.
    + rewrite A4, P5. done.
    + rewrite (sv_scopes _ _ A1), <- (sv_scopes _ _ H1). done.
Qed.

Definition committed_shelf e fl : shelf :=
  match edit_group e with
  | Some sc =>
      vacate sc (match edit_record e with
                 | None => if old e then alter (touch (delete (key (edit_name e)))) sc fl else fl
                 | Some _ => fl
                 end)
  | None => fl
  end.
Definition committed_tree e (t : pages Name Item) : pages Name Item :=
  match edit_record e with
  | Some r => Pages.set (slot e) (if added e then Some (edit_name e) else None) r t
  | None => if old e then Pages.erase (slot e) t else t
  end.

Lemma commit_fields e o fl :
  shelved o fl →
  let o' := commit e o in
  shelved o' (committed_shelf e fl) ∧ tree_ o' = committed_tree e (tree_ o) ∧ position_ o' = edit_position e ∧
  records_ o' = records_ o - (if bool_decide (edit_record e = None) && old e then 1 else 0) + (if added e then 1 else 0) ∧
  bytes_ o' = edit_bytes e ∧ editing_ o' = false ∧
  history_ o' = drop (evicted e) (history_ o) ∧
  backlog_ o' = backlog_ o - heaviness (take (evicted e) (history_ o)).
Proof.
  intros Hs. unfold commit. set (o1 := match edit_record e with Some _ => _ | None => _ end).
  assert (H1 : shelved o1 (match edit_group e, edit_record e with
      | Some sc, None => if old e then alter (touch (delete (key (edit_name e)))) sc fl else fl
      | _, _ => fl end) ∧
    tree_ o1 = committed_tree e (tree_ o) ∧ history_ o1 = history_ o ∧ backlog_ o1 = backlog_ o ∧
    records_ o1 = records_ o - (if bool_decide (edit_record e = None) && old e then 1 else 0)).
  { unfold o1, committed_tree. destruct (edit_record e) as [r|].
    - split_and!; try done; [|simpl; lia]. destruct (edit_group e); by apply (shelved_ext o).
    - destruct (old e); [|split_and!; try done; [by destruct (edit_group e)|simpl; lia]].
      destruct (edit_group e) as [sc|]; [|split_and!; try done; by apply (shelved_ext o)].
      split_and!; try done. by apply (shelved_ext (on_groups (amend sc (delete (key (edit_name e)))) o)), shelved_amend. }
  destruct H1 as (H1 & E1 & E2 & E3 & E4). cbv zeta. set (o2 := set_history _ _ _).
  assert (H2 : shelved o2 (match edit_group e, edit_record e with
      | Some sc, None => if old e then alter (touch (delete (key (edit_name e)))) sc fl else fl
      | _, _ => fl end)) by (by apply (shelved_ext o1)).
  set (o3 := match edit_group e with Some sc => _ | None => o2 end).
  assert (H3 : shelved o3 (committed_shelf e fl) ∧ framed o2 o3).
  { unfold o3, committed_shelf. destruct (edit_group e) as [sc|]; [|split; [done|apply framed_refl]].
    by apply shelved_prune_group. }
  destruct H3 as [H3 [F1 F2 F3 F4 F5 F6 F7]]. split; [by apply (shelved_ext o3)|]. cbn.
  rewrite F1, F2, F3, F4, F5, F6. unfold o2. cbn. rewrite E1, E2, E3, E4. split_and!; try done.
  destruct (added e); lia.
Qed.

(** What the checks and the staging of an edit have established. *)
Record ready o0 fl0 es (rows : gmap Z (Name * Item)) m e o1 fl1 : Prop := {
  rd_prep : prepping o0 fl0 e o1 fl1;
  rd_old : old e = bool_decide (is_Some (es !! edit_name e));
  rd_added : added e = bool_decide (is_Some (edit_record e)) && negb (old e);
  rd_shelf : fl1 = if added e then enter (edit_name e) (slot e) fl0 else fl0;
  rd_group : edit_group e = Some (scope (edit_name e)) ∨ (edit_group e = None ∧ fl1 !! scope (edit_name e) = None);
  rd_slot : is_Some (edit_record e) ∨ old e = true →
    is_slot (slot e) ∧ reachable (tree_ o1) (slot e) ∧ chosen es rows (edit_name e) (edit_record e) (slot e);
  rd_bytes : edit_bytes e = content_bytes (next_shown (edit_name e) (edit_record e) m) ∧
    edit_bytes e + directory_ o1 <= bytes limits_;
  rd_size : Z.of_nat (size (next_shown (edit_name e) (edit_record e) m)) <= records limits_;
  rd_scopes : scopes_ o1 <= scopes limits_
}.

Lemma group_none_old es fl n : listed fl es → fl !! scope n = None → es !! n = None.
Proof. intros Hl Hn. rewrite Hl, Hn. done. Qed.

Lemma committed_listed o0 fl0 es rows m e o1 fl1 :
  full fl0 → listed fl0 es → ready o0 fl0 es rows m e o1 fl1 →
  full (committed_shelf e fl1) ∧
  listed (committed_shelf e fl1) (if bool_decide (is_Some (edit_record e)) || old e
                                  then next_entries (edit_name e) (edit_record e) (slot e) es else es).
Proof.
  intros Hf Hl [_ Ho Ha -> Hg Hs _ _ _]. set (n := edit_name e) in *.
  assert (Hvac : ∀ fl, full fl → match edit_group e with Some sc => vacate sc fl | None => fl end = fl).
  { intros fl Hfl. destruct (edit_group e) as [sc|]; [|done]. apply vacate_full. intros g Hg'. by eapply Hfl. }
  unfold committed_shelf. destruct (edit_record e) as [r|] eqn:Er.
  - rewrite Ha. rewrite bool_decide_eq_true_2 by (by eexists). cbn [andb orb next_entries].
    destruct (old e) eqn:Eo; cbn [negb].
    + rewrite Hvac by done. split; [done|]. destruct (Hs ltac:(by right)) as (_ & _ & Hc). unfold chosen in Hc.
      symmetry in Ho. apply bool_decide_eq_true in Ho as [sl Hsl]. rewrite Hsl in Hc. subst sl. by rewrite insert_id.
    + pose proof (full_enter n (slot e) fl0 Hf) as Hfe. rewrite Hvac by done. split; [done|]. by apply listed_enter.
  - rewrite Ha. rewrite bool_decide_eq_false_2 by (by intros []). cbn [andb orb].
    destruct (old e) eqn:Eo; [|by rewrite Hvac].
    symmetry in Ho. apply bool_decide_eq_true in Ho as [sl Hsl].
    destruct Hg as [-> | [-> Hg]].
    + split; [by apply full_vacate|]. cbn [next_entries]. apply listed_vacate. by apply listed_remove.
    + rewrite Ha in Hg. cbn in Hg. pose proof (group_none_old es fl0 n Hl Hg). congruence.
Qed.

Lemma committed_spells o0 fl0 es rows m e o1 fl1 :
  represents (tree_ o0) rows → tied es rows m → ready o0 fl0 es rows m e o1 fl1 →
  spells (committed_tree e (tree_ o1))
    (if bool_decide (is_Some (edit_record e)) || old e then next_entries (edit_name e) (edit_record e) (slot e) es else es)
    (next_shown (edit_name e) (edit_record e) m).
Proof.
  intros Hrep Ht [[P1 _ _ _ _] Ho Ha _ _ Hs _ _ _]. pose proof (keeps_represents _ _ _ Hrep P1) as Hrep1.
  set (n := edit_name e) in *. unfold committed_tree. destruct (bool_decide_reflect (is_Some (edit_record e))) as [Hp|Hp].
  - destruct (Hs ltac:(by left)) as (S1 & S2 & S3).
    pose proof (write_spells _ _ _ _ n (edit_record e) (slot e) Hrep1 Ht S1 S2 S3) as H.
    destruct Hp as [r Er]. rewrite Er in H |- *. cbn [orb next_tree] in H |- *. rewrite <- Ho in H. fold n. rewrite Ha. by destruct (old e).
  - apply eq_None_not_Some in Hp. rewrite Hp in *. cbn [orb]. destruct (old e) eqn:Eo.
    + destruct (Hs ltac:(by right)) as (S1 & S2 & S3).
      exact (write_spells _ _ _ _ n None (slot e) Hrep1 Ht S1 S2 S3).
    + symmetry in Ho. apply bool_decide_eq_false in Ho. cbn [next_shown]. rewrite delete_id; [by exists rows|].
      destruct (m !! n) as [it|] eqn:Em; [|done]. exfalso. apply Ho. by eapply ti_dom.
Qed.

Lemma committed_size es rows m e :
  tied es rows m → old e = bool_decide (is_Some (es !! edit_name e)) →
  added e = bool_decide (is_Some (edit_record e)) && negb (old e) →
  Z.of_nat (size (next_shown (edit_name e) (edit_record e) m)) =
  Z.of_nat (size m) - (if bool_decide (edit_record e = None) && old e then 1 else 0) + (if added e then 1 else 0).
Proof.
  intros Ht Ho ->. set (n := edit_name e) in *.
  assert (Hm : old e = bool_decide (is_Some (m !! n))).
  { rewrite Ho. apply bool_decide_ext. split; [|intros [it Hit]; by eapply ti_dom].
    intros [sl Hsl]. destruct (ti_row _ _ _ Ht _ _ Hsl) as (it & _ & ->). by eexists. }
  rewrite Hm. destruct (edit_record e) as [r|]; cbn [next_shown].
  - rewrite map_size_insert. destruct (m !! n); simpl; lia.
  - rewrite map_size_delete. destruct (m !! n) as [i|] eqn:E; simpl; [|lia].
    assert (size m ≠ 0%nat); [|lia]. intros ->%map_size_empty_iff. by rewrite lookup_empty in E.
Qed.

Lemma committed_bounds e fl :
  shelf_bytes (committed_shelf e fl) <= shelf_bytes fl ∧ (size (committed_shelf e fl) <= size fl)%nat.
Proof.
  unfold committed_shelf. destruct (edit_group e) as [sc|]; [|done].
  match goal with |- context [vacate sc ?x] => set (fl' := x) end.
  assert (H1 : shelf_bytes fl' = shelf_bytes fl ∧ size fl' = size fl).
  { unfold fl'. destruct (edit_record e); [done|]. destruct (old e); [apply shelf_alter|done]. }
  pose proof (shelf_vacate sc fl'). lia.
Qed.

Lemma commit_holds o0 fl0 es rows m e o1 fl1 :
  holds limits_ o0 fl0 es m → represents (tree_ o0) rows → tied es rows m → ready o0 fl0 es rows m e o1 fl1 →
  ∃ fl es', holds limits_ (commit e o1) fl es' (next_shown (edit_name e) (edit_record e) m).
Proof.
  intros [H1 H2 H3 H4 H5 [H6 H6'] H7] Hrep Ht Hr.
  pose proof (committed_listed _ _ _ _ _ _ _ _ H2 H3 Hr) as [L1 L2].
  pose proof (committed_spells _ _ _ _ _ _ _ _ Hrep Ht Hr) as Hsp.
  destruct Hr as [[P1 P2 P3 (P4 & P5 & P6) P7] Ho Ha Hfl Hg Hs [B1 B2] Hsz Hsc].
  destruct (commit_fields e o1 fl1 P2) as (C1 & C2 & C3 & C4 & C5 & C6 & C7 & C8).
  pose proof (committed_bounds e fl1) as [D1 D2].
  pose proof (committed_size _ _ _ e Ht Ho Ha) as Hsize.
  eexists _, _. split; [exact C1|exact L1|exact L2|by rewrite C2| | |].
  - rewrite C5, (sv_directory _ _ C1). rewrite (sv_directory _ _ P2) in B2. split; [done|lia].
  - rewrite C4, P5, H6, <- Hsize. split; [done|lia].
  - rewrite (sv_scopes _ _ C1). rewrite (sv_scopes _ _ P2) in Hsc. lia.
Qed.

(** The event an edit announces. *)
Definition fact_event e (p : Z) (form : Form) (now : Z) : Event :=
  {| event_name := edit_name e; event_record := edit_record e; event_position := p;
     event_form := if bool_decide (is_Some (edit_record e)) then form else form_erase;
     event_bytes := event_cost (key (edit_name e)) (edit_record e); event_stored := now |}.

Record recorded o0 e o1 (position : option Z) (form : Form) (now : Z) : Prop := {
  rc_position : edit_position e = default (position_ o0) position;
  rc_next : ∀ p, position = Some p → p = position_ o0 + 1 ∧ p <= u64_max;
  rc_queue : queued e = local_ && bool_decide (is_Some position);
  rc_event : queued e = true →
    history_ o1 = history_ o0 ++ [fact_event e (edit_position e) form now] ∧
    backlog_ o1 = backlog_ o0 + event_cost (key (edit_name e)) (edit_record e);
  rc_evicted : evicted e = evict limits_ now (Z.of_nat (length (history_ o1))) (backlog_ o1) (history_ o1)
}.

Definition announced e (form : Form) (now : Z) : list (Event (Item := Item)) :=
  if queued e then [fact_event e (edit_position e) form now] else [].

Lemma recorded_history o0 fl0 e o1 fl1 position form now :
  prepping o0 fl0 e o1 fl1 → recorded o0 e o1 position form now →
  history_ o1 = history_ o0 ++ announced e form now ∧ backlog_ o1 = backlog_ o0 + heaviness (announced e form now).
Proof.
  intros [_ _ _ _ P] [_ _ _ R _]. unfold announced. destruct (queued e).
  - destruct (R eq_refl) as [-> ->]. split; [done|]. simpl. lia.
  - destruct P as [-> ->]. rewrite app_nil_r. split; [done|]. simpl. lia.
Qed.

Lemma commit_journal o0 fl0 e o1 fl1 position form now log :
  journal local_ limits_ o0 log → prepping o0 fl0 e o1 fl1 → recorded o0 e o1 position form now →
  journal local_ limits_ (commit e o1) (extend log position (announced e form now)).
Proof.
  intros [J0 J1 J2 J3 J4 [pre J5] J6 J7] Hp Hr. destruct (recorded_history _ _ _ _ _ _ _ _ Hp Hr) as [Hh Hb].
  destruct Hr as [R1 R2 R3 R4 R5]. destruct (commit_fields e o1 fl1 (pp_shelf _ _ _ _ _ Hp)) as (_ & _ & C3 & _ & _ & _ & C7 & C8).
  assert (Hw : backlog_ o1 = heaviness (history_ o1)) by (rewrite Hh, Hb, origin_heaviness_app, J6; lia).
  pose proof (evict_fits limits_ now (history_ o1) HL) as Hfit. cbv zeta in Hfit. rewrite <- Hw, <- R5 in Hfit.
  pose proof (origin_heaviness_split (evicted e) (history_ o1)) as Hsplit.
  assert (Hpos : 0 <= edit_position e <= u64_max ∧ (queued e = true → edit_position e = position_ o0 + 1) ∧
    (local_ = true → queued e = false → edit_position e = position_ o0)).
  { rewrite R1, R3. destruct position as [p|]; simpl.
    - destruct (R2 p eq_refl) as [-> ?]. split_and!; [lia|lia|done|]. intros ->. done.
    - split_and!; [lia|lia| |done]. by rewrite andb_false_r. }
  destruct Hpos as (Hp1 & Hp2 & Hp3). unfold announced in *.
  set (o' := commit e o1) in *. clearbody o'.
  split; cbn [extend told place]; rewrite ?C3, ?C7, ?C8; try done.
  - by rewrite R1, J0.
  - destruct local_ eqn:El.
    + rewrite length_app. destruct (queued e); [rewrite Hp2 by done|rewrite Hp3 by done]; simpl; lia.
    + rewrite R3. simpl. by rewrite J2.
  - intros i x [Hi|[Hi Hx]]%lookup_app_Some; [by apply J3|]. destruct (queued e) eqn:Eq; [|done].
    apply list_lookup_singleton_Some in Hx as [Hx <-]. cbn. rewrite Hp2 by done.
    symmetry in R3. apply andb_true_iff in R3 as [Hloc _]. rewrite Hloc in J2. lia.
  - apply Forall_app_2; [done|]. destruct (queued e); [|constructor]. by apply Forall_singleton.
  - rewrite Hh. exists (pre ++ take (evicted e) (history_ o0 ++ (if queued e then [fact_event e (edit_position e) form now] else []))).
    rewrite <- app_assoc, take_drop, app_assoc. by rewrite <- J5.
  - lia.
  - split; [tauto|]. lia.
Qed.

(** What [prepare] promises: a refusal leaves the source as it was; an edit can
    be abandoned, revised or published. *)
Definition editable m (log : chronicle) (n : Name) (record : option Item) (position : option Z) (form : Form) (now : Z) e o1 : Prop :=
  edit_name e = n ∧ edit_record e = record ∧
  ∃ o0 fl0 es rows fl1,
    holds limits_ o0 fl0 es m ∧ journal local_ limits_ o0 log ∧ represents (tree_ o0) rows ∧ tied es rows m ∧
    ready o0 fl0 es rows m e o1 fl1 ∧ recorded o0 e o1 position form now.

Lemma editable_abort m log n record position form now e o1 :
  editable m log n record position form now e o1 → origin_ok local_ limits_ (abort e o1) m log.
Proof.
  intros (_ & _ & o0 & fl0 & es & rows & fl1 & Hh & Hj & _ & _ & Hr & _). eapply abort_ok; try done. apply Hr.
Qed.

Lemma editable_commit m log n record position form now e o1 :
  editable m log n record position form now e o1 →
  origin_ok local_ limits_ (commit e o1) (next_shown n record m) (extend log position (announced e form now)).
Proof.
  intros (<- & <- & o0 & fl0 & es & rows & fl1 & Hh & Hj & Hrep & Ht & Hr & Hrec).
  pose proof (rd_prep _ _ _ _ _ _ _ _ Hr) as Hp. split_and!.
  - apply (commit_fields e o1 fl1 (pp_shelf _ _ _ _ _ Hp)).
  - by eapply commit_journal.
  - by eapply commit_holds.
Qed.

Lemma evict_alike now retained w h ev ev' :
  event_stored ev' = event_stored ev →
  evict limits_ now retained w (h ++ [ev']) = evict limits_ now retained w (h ++ [ev]).
Proof.
  intros Hs. revert retained w. induction h as [|x h IH]; intros retained w; simpl.
  - unfold aged. by rewrite Hs.
  - by rewrite IH.
Qed.

Lemma editable_revise m log n record position form now e o1 r :
  editable m log n record position form now e o1 →
  let '(done_, e', o') := revise r e o1 in
  editable m log n (if done_ then Some r else record) position form now e' o'.
Proof.
  intros (<- & <- & o0 & fl0 & es & rows & fl1 & Hh & Hj & Hrep & Ht & Hr & Hrec). unfold revise.
  destruct (edit_record e) as [was|] eqn:Er; [|by split_and!; [done|done|eexists _, _, _, _, _]].
  destruct (Z.eqb_spec (measure r) (measure was)) as [Hm|Hm]; [|by split_and!; [done|done|eexists _, _, _, _, _]].
  split; [done|]. split; [done|]. exists o0, fl0, es, rows, fl1. split_and!; try done.
  - destruct Hr as [[P1 P2 P3 P4 P5] Ho Ha Hfl Hg Hs Hb Hsz Hsc].
    split; try (destruct (queued e); done).
    + split; try (destruct (queued e); done).
      * destruct (queued e); [by apply (shelved_ext o1)|done].
      * destruct (queued e) eqn:Eq; cbn [with_record queued]; rewrite Eq; [|done]. destruct P5 as (ev & E1 & E2).
        cbn. unfold revise_last. rewrite E1, last_snoc, removelast_last. by eexists.
    + cbn. rewrite Ha, Er. by rewrite !bool_decide_eq_true_2 by (by eexists).
    + intros _. cbn. rewrite Er in Hs. destruct (Hs ltac:(left; by eexists)) as (S1 & S2 & S3). split; [done|].
      split; [by destruct (queued e)|]. unfold chosen in *. destruct (es !! edit_name e); [done|]. by destruct S3.
    + rewrite Er in Hb. cbn [next_shown] in Hb. unfold content_bytes in *. cbn [with_record edit_record edit_name edit_bytes next_shown].
      rewrite content_put in *. unfold row_weight in *. rewrite Hm. by destruct (queued e).
    + cbn. rewrite Er in Hsz. cbn [next_shown] in Hsz. rewrite map_size_insert in *. done.
  - destruct Hrec as [R1 R2 R3 R4 R5]. split; try done.
    + cbn. intros Hq. destruct (R4 Hq) as [E1 E2]. rewrite Hq. cbn. unfold revise_last.
      rewrite E1, last_snoc, removelast_last, E2. unfold fact_event. cbn. unfold event_cost. rewrite Er, Hm. done.
    + cbn. rewrite R5. destruct (queued e) eqn:Eq; [|done]. destruct (R4 eq_refl) as [E1 E2]. cbn. unfold revise_last.
      rewrite E1, last_snoc, removelast_last, !length_app. symmetry. by apply evict_alike.
Qed.

Lemma shelf_enter n sl fl :
  shelf_bytes (enter n sl fl) = shelf_bytes fl + (if bool_decide (fl !! scope n = None) then directory (scope n) else 0) ∧
  Z.of_nat (size (enter n sl fl)) = Z.of_nat (size fl) + (if bool_decide (fl !! scope n = None) then 1 else 0).
Proof.
  assert (He : enter n sl fl = <[scope n := {| group_scope := scope n;
      entries := <[key n := sl]> (match fl !! scope n with Some g => entries g | None => ∅ end) |}]> fl).
  { apply map_eq. intros sc. destruct (decide (sc = scope n)) as [->|Hne]; [by rewrite enter_here, lookup_insert_eq|].
    by rewrite enter_other, lookup_insert_ne. }
  rewrite He. unfold shelf_bytes. rewrite map_size_insert. destruct (fl !! scope n) as [g|] eqn:E; simpl.
  - rewrite (map_sum_insert _ _ _ _ _ E). lia.
  - rewrite map_sum_insert_new by done. lia.
Qed.

(** The shelf after the group of a new name was made, before the name is in it. *)
Definition grouped n fl : shelf :=
  match fl !! scope n with Some _ => fl | None => <[scope n := {| group_scope := scope n; entries := ∅ |}]> fl end.

Lemma grouped_undo n fl : full fl → vacate (scope n) (grouped n fl) = fl.
Proof.
  intros Hf. unfold grouped. destruct (fl !! scope n) as [g|] eqn:E; [|by apply vacate_fresh].
  apply vacate_full. intros g' Hg'. by eapply Hf.
Qed.

Lemma grouped_enter n sl fl :
  full fl → alter (touch (λ t, <[key n := sl]> t)) (scope n) (grouped n fl) = enter n sl fl.
Proof.
  intros Hf. unfold grouped. destruct (fl !! scope n) as [g|] eqn:E; [|by apply enter_fresh].
  eapply enter_existing; [done|]. by eapply Hf.
Qed.

(** The states between the checks and the announcement, all of which can be
    undone. *)
Section staging.
Context (o0 : Origin (Item := Item)) (fl0 : shelf) (es : gmap Name Z) (m : gmap Name Item) (log : chronicle (Item := Item)).
Context (Hh : holds limits_ o0 fl0 es m) (Hj : journal local_ limits_ o0 log).

Definition undone (x : exn) (o : Origin) : Prop :=
  (x = bad_alloc ∨ x = overflow_error) ∧ origin_ok local_ limits_ o m log.

(** Nothing but the directory and page sharing differs from [o0]. *)
Definition aside o fl : Prop :=
  keeps (tree_ o0) (tree_ o) ∧ shelved o fl ∧ position_ o = position_ o0 ∧ records_ o = records_ o0 ∧
  bytes_ o = bytes_ o0 ∧ history_ o = history_ o0 ∧ backlog_ o = backlog_ o0.

Lemma aside_prepping e o fl : aside o fl → queued e = false → undo e fl = fl0 → prepping o0 fl0 e o fl.
Proof. intros (A1 & A2 & A3 & A4 & A5 & A6 & A7) Hq Hu. split; try done. by rewrite Hq. Qed.

Lemma aside_undone e o fl x :
  aside o fl → queued e = false → undo e fl = fl0 → x = bad_alloc ∨ x = overflow_error → undone x (abort e o).
Proof. intros Ha Hq Hu Hx. split; [done|]. eapply abort_ok; try done. by apply aside_prepping. Qed.

Lemma aside_framed o o' fl fl' : aside o fl → framed o o' → shelved o' fl' → aside o' fl'.
Proof.
  intros (A1 & A2 & A3 & A4 & A5 & A6 & A7) [F1 F2 F3 F4 F5 F6 F7] Hs. unfold aside.
  rewrite F1, F2, F3, F4, F5, F6. done.
Qed.

Lemma aside_tree t o fl : aside o fl → keeps (tree_ o) t → aside (set_tree t o) fl.
Proof.
  intros (A1 & A2 & A3 & A4 & A5 & A6 & A7) Hk. unfold aside. cbn. split_and!; try done; [by eapply keeps_trans|].
  by apply (shelved_ext o).
Qed.

Context (e : Edit (Item := Item)) (rows : gmap Z (Name * Item)).
Context (Hrep : represents (tree_ o0) rows) (Ht : tied es rows m).
Abbreviation n := (edit_name e).
Abbreviation present := (bool_decide (is_Some (edit_record e))).
Context (Hgroup : edit_group e = group_scope <$> fl0 !! scope n) (Hold : old e = bool_decide (is_Some (es !! n))).
Context (Hadded : added e = false) (Hqueued : queued e = false).

Lemma group_of_old : old e = true → edit_group e = Some (scope n) ∧ is_Some (fl0 !! scope n).
Proof.
  rewrite Hold. intros [sl Hsl]%bool_decide_eq_true. rewrite (ho_listed _ _ _ _ _ Hh), bind_Some in Hsl.
  destruct Hsl as (g & Hg & _). rewrite Hgroup, Hg. simpl. split; [|by eexists].
  f_equal. by eapply (ho_full _ _ _ _ _ Hh).
Qed.

Lemma group_stays : edit_group e = Some (scope n) ∨ (edit_group e = None ∧ fl0 !! scope n = None).
Proof.
  rewrite Hgroup. destruct (fl0 !! scope n) as [g|] eqn:E; [|by right]. left. simpl. f_equal.
  by eapply (ho_full _ _ _ _ _ Hh).
Qed.

Lemma undo_plain g : g = edit_group e → undo (with_group g e) fl0 = fl0.
Proof.
  intros ->. unfold undo. cbn. rewrite Hadded. destruct (edit_group e) as [sc|]; [|done].
  apply vacate_full. intros g Hg. by eapply (ho_full _ _ _ _ _ Hh).
Qed.

Definition fresh : bool := present && negb (old e) && bool_decide (edit_group e = None).

Lemma stage_group_wp o :
  aside o fl0 →
  wp Faulty (if fresh then on_throw (obtain (scope n) ;;; ret (Some (scope n))) (modify (abort e)) else ret (edit_group e))
    (λ g o', tree_ o' = tree_ o ∧
       if present && negb (old e) then g = Some (scope n) ∧ aside o' (grouped n fl0)
       else g = edit_group e ∧ aside o' fl0)
    undone o.
Proof.
  intros Ha. unfold fresh. destruct (present && negb (old e)) eqn:Ep; cbn [andb]; [|by wp_step].
  destruct (bool_decide_reflect (edit_group e = None)) as [Hg|Hg].
  - assert (Hnone : fl0 !! scope n = None) by (rewrite Hgroup in Hg; by destruct (fl0 !! scope n)).
    wp_step. wp_step. destruct Ha as (A1 & A2 & A3). eapply wp_mono; [by apply (obtain_wp (scope n) o fl0)| |].
    + intros [] o' [Hs Hf]. wp_step. split; [apply Hf|]. split; [done|].
      unfold grouped. rewrite Hnone. by eapply aside_framed.
    + intros x o' [-> ->]. wp_step. eapply aside_undone; [done|done| |by left].
      unfold undo. by rewrite Hg.
  - wp_step. split; [done|]. destruct group_stays as [Hs|[? _]]; [|done]. split; [done|].
    rewrite Hgroup in Hs. unfold grouped. by destruct (fl0 !! scope n).
Qed.

(** The shelf once the name is entered, and that leaving restores it. *)
Definition entered (sl : Z) : shelf := if present && negb (old e) then enter n sl fl0 else fl0.

Lemma undo_entered g sl :
  (if present && negb (old e) then g = Some (scope n) else g = edit_group e) →
  undo (with_slot sl (present && negb (old e)) (with_group g e)) (entered sl) = fl0.
Proof.
  intros Hg. unfold entered. destruct (present && negb (old e)) eqn:Ep.
  - subst g. unfold undo. cbn. apply leave_enter; [apply Hh|].
    apply andb_true_iff in Ep as [_ Ep]. rewrite negb_true_iff, Hold in Ep. apply bool_decide_eq_false in Ep.
    rewrite <- (ho_listed _ _ _ _ _ Hh). by apply eq_None_not_Some.
  - subst g. unfold undo. cbn. destruct (edit_group e) as [sc|]; [|done].
    apply vacate_full. intros g Hg. by eapply (ho_full _ _ _ _ _ Hh).
Qed.

Lemma stage_slot_wp g o fl1 found :
  found = es !! n → tree_ o = tree_ o0 → undo (with_group g e) fl1 = fl0 → aside o fl1 →
  (if present && negb (old e) then fl1 = grouped n fl0 else fl1 = fl0) →
  wp Faulty
    (if present && negb (old e)
     then on_throw
            (sl <- lift (Pages.next (tree_ o)) ;;
             alloc ;;; modify (on_groups (amend (scope n) (λ t, <[key n := sl]> t))) ;;; ret sl)
            (modify (abort (with_group g e)))
     else ret (default 0 found))
    (λ sl o', tree_ o' = tree_ o0 ∧ aside o' (entered sl) ∧
       (present = true ∨ old e = true → is_slot sl ∧ chosen es rows n (edit_record e) sl))
    undone o.
Proof.
  intros -> Htree Hu Ha Hfl. unfold entered, chosen. destruct (present && negb (old e)) eqn:Ep.
  - apply andb_true_iff in Ep as [Ep Eo]. rewrite negb_true_iff, Hold in Eo. apply bool_decide_eq_false in Eo.
    apply bool_decide_eq_true in Ep. apply eq_None_not_Some in Eo. subst fl1. rewrite Eo.
    wp_step. wp_step. wp_step. rewrite Htree. destruct (Pages.next (tree_ o0)) as [sl|x] eqn:En.
    + destruct (next_free _ _ _ Hrep En) as [Hs Hr]. wp_step. wp_step.
      * wp_step. wp_step. wp_step. split; [done|]. split; [|done].
        destruct Ha as (A1 & A2 & A3). destruct (shelved_amend (scope n) (λ t, <[key n := sl]> t) o _ A2) as [As Af].
        rewrite grouped_enter in As by apply Hh. by eapply aside_framed.
      * wp_step. eapply aside_undone; [done|done|done|by left].
    + wp_step. eapply aside_undone; [done|done|done|right]. eapply next_throws; [apply Hrep|done].
  - wp_step. subst fl1. split; [done|]. split; [done|]. intros Hp.
    assert (Eo : old e = true).
    { destruct Hp as [Hp|Hp]; [|done]. rewrite Hp in Ep. simpl in Ep. by apply negb_false_iff in Ep. }
    rewrite Hold in Eo. apply bool_decide_eq_true in Eo as [sl Hsl]. rewrite Hsl. simpl. split; [|done].
    destruct (ti_row _ _ _ Ht _ _ Hsl) as (it & Hr & _). by eapply Hrep.
Qed.

Definition extra : Z := if present && bool_decide (edit_group e = None) then directory (scope n) else 0.

Context (Hbytes : edit_bytes e = content_bytes (next_shown n (edit_record e) m) ∧
  edit_bytes e + directory_ o0 + extra <= bytes limits_).
Context (Hsize : Z.of_nat (size (next_shown n (edit_record e) m)) <= records limits_).
Context (Hroom : fresh = true → scopes_ o0 < scopes limits_).

Lemma entered_accounts o sl : aside o (entered sl) →
  edit_bytes e + directory_ o <= bytes limits_ ∧ scopes_ o <= scopes limits_.
Proof.
  intros (_ & As & _). rewrite (sv_directory _ _ As), (sv_scopes _ _ As). pose proof (ho_shelf _ _ _ _ _ Hh) as Hs.
  pose proof (ho_scopes _ _ _ _ _ Hh) as Hsc. rewrite (sv_scopes _ _ Hs) in Hsc, Hroom.
  destruct Hbytes as [_ Hb]. rewrite (sv_directory _ _ Hs) in Hb. unfold entered, extra, fresh in *.
  assert (Hg : bool_decide (fl0 !! scope n = None) = bool_decide (edit_group e = None)).
  { apply bool_decide_ext. rewrite Hgroup. by destruct (fl0 !! scope n). }
  destruct (shelf_enter n sl fl0) as [E1 E2]. rewrite Hg in E1, E2.
  assert (0 <= directory (scope n)) by (unfold directory, key_size; lia).
  destruct present; cbn [andb] in *; [|lia]. destruct (old e); cbn [negb andb] in *; [destruct (bool_decide (edit_group e = None)); lia|].
  rewrite E1, E2. destruct (bool_decide (edit_group e = None)); cbn [andb] in *; [specialize (Hroom eq_refl)|]; lia.
Qed.

Lemma origin_stage_wp found o :
  found = es !! n → aside o fl0 → tree_ o = tree_ o0 →
  wp Faulty (stage exclusive found e)
    (λ e' o', (∃ fl1, ready o0 fl0 es rows m e' o' fl1) ∧ queued e' = false ∧ edit_name e' = n ∧
       edit_record e' = edit_record e ∧ edit_position e' = edit_position e)
    undone o.
Proof.
  intros Hfound Ha Htree. unfold stage. cbv zeta. wp_step.
  eapply wp_mono; [by apply stage_group_wp| |done]. intros g o1 [Ht1 Hg].
  set (fl1 := if present && negb (old e) then grouped n fl0 else fl0).
  assert (Hg' : if present && negb (old e) then g = Some (scope n) else g = edit_group e) by (revert Hg; destruct (present && negb (old e)); by intros [??]).
  assert (Ha1 : aside o1 fl1) by (unfold fl1; revert Hg; destruct (present && negb (old e)); by intros [??]).
  assert (Hu1 : undo (with_group g e) fl1 = fl0).
  { unfold fl1. clear Hg. revert Hg'. destruct (present && negb (old e)); [|by apply undo_plain]. intros ->. unfold undo. cbn. rewrite Hadded.
    apply grouped_undo, Hh. }
  assert (Hfl1 : if present && negb (old e) then fl1 = grouped n fl0 else fl1 = fl0) by (unfold fl1; by destruct (present && negb (old e))).
  clearbody fl1. clear Hg. wp_step. cbn [with_group old edit_name edit_record].
  apply wp_mono with (Q := λ _ o', o' = o1) (E := undone); [| |done].
  { destruct (old e); [by wp_step|]. wp_step. wp_step; [done|]. wp_step.
    eapply aside_undone; [done|done|done|by left]. }
  intros [] o2 ->. wp_step. wp_step. wp_step.
  eapply wp_mono; [eapply (stage_slot_wp g o1 fl1 found); try done; by rewrite Ht1| |done].
  intros sl o2 (Ht2 & Ha2 & Hsl). pose proof (undo_entered g sl Hg') as Hu2.
  set (e2 := with_slot sl (present && negb (old e)) (with_group g e)) in *.
  destruct (entered_accounts o2 sl Ha2) as [Hacc1 Hacc2]. wp_step.
  apply wp_mono with (Q := λ _ o3, ∃ t, o3 = set_tree t o2 ∧ keeps (tree_ o2) t ∧ (present = true ∨ old e = true → reachable t sl))
    (E := undone); [| |done].
  { change (old e2) with (old e). destruct (present || old e) eqn:Ep.
    - apply orb_true_iff in Ep. destruct (Hsl Ep) as [Hs _]. wp_step. wp_step.
      eapply wp_mono; [apply wp_prepare; [rewrite Ht2; apply Hrep|done]| |].
      + intros [] t [Hk Hreach]. by eexists.
      + intros x t [-> Hk]. wp_step. eapply aside_undone; [by apply aside_tree|done|done|by left].
    - wp_step. exists (tree_ o2). split_and!; [by destruct o2|apply keeps_refl; rewrite Ht2; apply Hrep|].
      intros Hx. apply orb_false_iff in Ep as [E1 E2]. rewrite E1, E2 in Hx. by destruct Hx. }
  intros [] o3 (t & -> & Hk & Hreach). wp_step. split; [|done]. exists (entered sl).
  pose proof (aside_tree t o2 _ Ha2 Hk) as Ha3.
  split; try done.
  - by apply aside_prepping.
  - destruct group_stays as [Hgs|[Hgs Hnone]]; cbn.
    + left. revert Hg'. destruct (present && negb (old e)); congruence.
    + unfold entered. revert Hg'. destruct (present && negb (old e)); [by left|]. intros ->. by right.
  - cbn. intros Hp. assert (Hp' : present = true ∨ old e = true) by (destruct Hp; [left; by apply bool_decide_eq_true_2|by right]).
    destruct (Hsl Hp') as [H1 H2]. split_and!; [done|by apply Hreach|done].
  - cbn. by destruct Hbytes.
Qed.
End staging.

(** An edit after its event was queued, or without one. *)
Lemma ready_plain o0 fl0 es rows m e o fl k :
  ready o0 fl0 es rows m e o fl → queued e = false → ready o0 fl0 es rows m (with_queue false k e) o fl.
Proof.
  intros [[P1 P2 P3 P4 P5] Ho Ha Hfl Hg Hs Hb Hsz Hsc] Hq. rewrite Hq in P5. by split.
Qed.

Lemma ready_queued o0 fl0 es rows m e o fl k ev :
  ready o0 fl0 es rows m e o fl → queued e = false →
  ready o0 fl0 es rows m (with_queue true k e) (set_history (history_ o ++ [ev]) (backlog_ o + event_bytes ev) o) fl.
Proof.
  intros [[P1 P2 P3 P4 P5] Ho Ha Hfl Hg Hs Hb Hsz Hsc] Hq. rewrite Hq in P5. destruct P5 as [E1 E2].
  split; try done. split; try done; [by apply (shelved_ext o)|]. cbn. rewrite E1, E2. by eexists.
Qed.

Section announcing.
Context (o0 : Origin (Item := Item)) (fl0 : shelf) (es : gmap Name Z) (rows : gmap Z (Name * Item)).
Context (m : gmap Name Item) (log : chronicle (Item := Item)).
Context (Hh : holds limits_ o0 fl0 es m) (Hj : journal local_ limits_ o0 log).
Context (Hrep : represents (tree_ o0) rows) (Ht : tied es rows m).
Context (position : option Z) (form : Form) (now : Z).
Context (Hnext : ∀ p, position = Some p → p = position_ o0 + 1 ∧ p <= u64_max).

Definition answered (n : Name) (record : option Item) (r : expected (Edit (Item := Item)) Error) o : Prop :=
  match r with
  | Unexpected _ => origin_ok local_ limits_ o m log
  | Expected e => editable m log n record position form now e o
  end.

Lemma trim_wp q e o fl :
  (∀ k, ready o0 fl0 es rows m (with_queue q k e) o fl) →
  (∀ k, evicted (with_queue q k e) = evict limits_ now (Z.of_nat (length (history_ o))) (backlog_ o) (history_ o) →
        recorded o0 (with_queue q k e) o position form now) →
  wp Faulty (trim limits_ now q e) (answered (edit_name e) (edit_record e)) (undone m log) o.
Proof.
  intros Hr Hc. unfold trim. wp_step. wp_step. cbv zeta. set (k := evict _ _ _ _ _).
  assert (He : editable m log (edit_name e) (edit_record e) position form now (with_queue q k e) o).
  { split; [done|]. split; [done|]. exists o0, fl0, es, rows, fl. split_and!; try done. by apply Hc. }
  wp_step. wp_step. wp_step; [by wp_step|]. wp_step. split; [by left|]. by eapply editable_abort.
Qed.

Lemma announce_wp e o fl :
  ready o0 fl0 es rows m e o fl → queued e = false → edit_position e = default (position_ o0) position →
  wp Faulty (announce local_ limits_ position now form e) (answered (edit_name e) (edit_record e)) (undone m log) o.
Proof.
  intros Hr Hq Hp. pose proof (rd_prep _ _ _ _ _ _ _ _ Hr) as Hpp.
  pose proof (abort_ok _ _ _ _ _ _ _ _ Hh Hj Hpp) as Habort.
  assert (Hrefuse : ∀ x, wp Faulty (refuse e x) (answered (edit_name e) (edit_record e)) (undone m log) o).
  { intros x. unfold refuse. by repeat wp_step. }
  assert (Hplain : local_ && bool_decide (is_Some position) = false →
    wp Faulty (trim limits_ now false e) (answered (edit_name e) (edit_record e)) (undone m log) o).
  { intros Hl. eapply trim_wp; [intros k; by apply ready_plain|]. intros k Hk. by split. }
  unfold announce. destruct position as [p|] eqn:Epos; [|apply Hplain; by rewrite andb_false_r].
  apply wp_if; intros El; [|apply Hplain; by rewrite El].
  wp_step. wp_step. cbv zeta. apply wp_if; intros _; [done|]. apply wp_if; intros _; [done|].
  wp_step. wp_step. wp_step; [|wp_step; split; [by left|done]]. wp_step. wp_step.
  set (ev := {| event_name := _ |}).
  change (sizeof_event + sizeof_name + key_size (key (edit_name e)) + match edit_record e with Some i => measure i | None => 0 end)
    with (event_bytes ev).
  eapply (trim_wp true e); [intros k; by apply ready_queued|].
  pose proof (pp_history _ _ _ _ _ Hpp) as Hhist. rewrite Hq in Hhist. destruct Hhist as [E1 E2].
  intros k Hk. split; rewrite ?El, ?Epos; try done. intros _. cbn. rewrite E1, E2. split; [|done].
  do 2 f_equal. unfold ev, fact_event. cbn. by rewrite Hp.
Qed.
End announcing.

Lemma set_editing_same b o : editing_ o = b → set_editing b o = o.
Proof. intros <-. by destruct o. Qed.

Lemma origin_idle_wp {A} (k : eff (Origin (Item := Item)) A) Q E o : editing_ o = false → wp Faulty k Q E o → wp Faulty (idle ;;; k) Q E o.
Proof. intros Hi Hk. unfold idle. wp_step. wp_step. wp_step. rewrite Hi. by wp_step. Qed.

Lemma origin_row_of_wp {S} t es m n (Q : option (Name * Item) → S → Prop) E s :
  spells t es m → Q (pair n <$> m !! n) s → wp Faulty (row_of (es !! n) t) Q E s.
Proof.
  intros Hs HQ. pose proof (spells_find _ _ _ n Hs) as Hf. unfold row_of.
  destruct (es !! n) as [sl|]; [|wp_step; by rewrite Hf in HQ].
  destruct Hf as (_ & it & -> & Hm). rewrite Hm in HQ. by wp_step.
Qed.

Lemma holds_account o fl es m n record before after :
  holds limits_ o fl es m →
  Some before = match m !! n with Some r => weight (key n) r | None => Some 0 end →
  Some after = match record with Some r => weight (key n) r | None => Some 0 end →
  wrap64 (bytes_ o - before) = bytes_ o - before ∧ bytes_ o - before + after = content_bytes (next_shown n record m).
Proof.
  intros [H1 _ _ _ [H5 H5'] _ _] Hb Ha. pose proof (shelf_nonneg fl) as Hn. rewrite <- (sv_directory _ _ H1) in Hn.
  assert (Hbefore : before = match m !! n with Some r => row_weight n r | None => 0 end).
  { destruct (m !! n); [|congruence]. by apply origin_weight_some. }
  assert (Hafter : after = match record with Some r => row_weight n r | None => 0 end).
  { destruct record; [|congruence]. by apply origin_weight_some. }
  rewrite H5 in *. eapply (account_next row_weight origin_row_weight_pos n record m _ _ _ (li_bytes _ HL)); try done.
  unfold content_bytes in *. lia.
Qed.

Lemma size_holds o fl es m n record :
  holds limits_ o fl es m → (is_Some record → m !! n = None → records_ o ≠ records limits_) →
  Z.of_nat (size (next_shown n record m)) <= records limits_.
Proof.
  intros [_ _ _ _ _ [H6 H6'] _] Hx. rewrite H6 in *. destruct record as [r|]; cbn [next_shown].
  - rewrite map_size_insert. destruct (m !! n) eqn:E; simpl; [done|]. specialize (Hx ltac:(by eexists) eq_refl). lia.
  - rewrite map_size_delete. destruct (m !! n); simpl; lia.
Qed.

Lemma origin_prepare_wp o m log sc k record position now form :
  origin_ok local_ limits_ o m log →
  wp Faulty (prepare binary_key local_ limits_ exclusive sc k record position now form)
    (answered m log position form now {| scope := sc; key := k |} record) (undone m log) o.
Proof.
  intros Hok. pose proof Hok as (Hidle & Hj & fl & es & Hh). set (n := {| scope := sc; key := k |}).
  destruct (ho_spells _ _ _ _ _ Hh) as (rows & Hrep & Ht). pose proof (ho_shelf _ _ _ _ _ Hh) as Hshelf.
  unfold prepare. apply origin_idle_wp; [done|]. cbv zeta.
  apply wp_if; intros _; [by wp_step|]. apply wp_if; intros _; [by wp_step|]. wp_step. wp_step.
  apply wp_if; intros Epos; [by wp_step|].
  assert (Hnext : ∀ p, position = Some p → p = position_ o + 1 ∧ p <= u64_max).
  { intros p ->. apply orb_false_iff in Epos as [E1%Z.eqb_neq E2%negb_false_iff]. apply Z.eqb_eq in E2.
    pose proof (jo_position _ _ _ _ Hj). lia. }
  wp_step. wp_step. fold n. rewrite (entry_listed o fl es n Hshelf (ho_listed _ _ _ _ _ Hh)). wp_step.
  eapply origin_row_of_wp; [exact (ho_spells _ _ _ _ _ Hh)|].
  assert (Hin : ∀ x : option Item, m !! n = x → bool_decide (is_Some (pair n <$> x)) = bool_decide (is_Some (es !! n))).
  { intros x <-. apply bool_decide_ext. pose proof (spells_find _ _ _ n (ho_spells _ _ _ _ _ Hh)) as Hf.
    destruct (es !! n); [destruct Hf as (_ & it & _ & ->)|rewrite Hf]; split; intros [? [=]]; by eexists. }
  specialize (Hin _ eq_refl).
  assert (Hname : match (pair n <$> m !! n) with Some (n', _) => n' | None => n end = n) by (by destruct (m !! n)).
  rewrite Hname, Hin, (sv_locate _ _ Hshelf). 
  set (before := match _ with Some (n, r) => weight (key n) r | None => Some 0 end).
  assert (Hb : before = match m !! n with Some r => weight (key n) r | None => Some 0 end) by (unfold before; by destruct (m !! n)).
  clearbody before. 
  pose (e b := {| edit_group := group_scope <$> fl !! sc; edit_name := n; edit_record := record;
    edit_position := default (position_ o) position; slot := 0; edit_bytes := b; old := bool_decide (is_Some (es !! n));
    added := false; queued := false; evicted := 0 |}). set (o1 := set_editing true o).
  assert (Ha : aside o o1 fl).
  { split_and!; try done; [apply keeps_refl, Hrep|by apply (shelved_ext o)]. }
  assert (Hundo : ∀ b, undo (e b) fl = fl).
  { intros b. unfold undo. cbn. destruct (fl !! sc) as [g|] eqn:Eg; [|done]. simpl. apply vacate_full. intros g' Hg'.
    by eapply (ho_full _ _ _ _ _ Hh). }
  assert (Hrefuse : ∀ b x, wp Faulty (refuse (e b) x) (answered m log position form now n record) (undone m log) o1).
  { intros b x. unfold refuse. repeat wp_step. eapply abort_ok; [done|done|]. by apply (aside_prepping o fl). }
  destruct before as [before|]; [|exact (Hrefuse 0 capacity)].
  destruct (match record with Some r => weight k r | None => Some 0 end) as [after|] eqn:Hafter; [|exact (Hrefuse 0 capacity)].
  destruct (holds_account o fl es m n record before after Hh Hb (eq_sym Hafter)) as [A1 A2]. rewrite A1.
  apply wp_if; intros Ec; [exact (Hrefuse 0 capacity)|]. rewrite !orb_false_iff, !Z.ltb_ge in Ec. destruct Ec as [[Ec1 Ec2] Ec3].
  set (b := bytes_ o - before + after) in *. apply wp_if; intros Ed; [exact (Hrefuse b capacity)|]. rewrite !orb_false_iff, !Z.ltb_ge in Ed. destruct Ed as [[Ed1 Ed2] Ed3].
  apply wp_if; intros Es; [exact (Hrefuse b capacity)|].
  wp_step. cbn [edit_bytes e] in Ed3. eapply wp_mono; [eapply (origin_stage_wp o fl es m log Hh Hj (e b) rows Hrep Ht); try done| |done].
  - cbn. split; [by rewrite A2|]. unfold extra. cbn. lia.
  - cbn. eapply size_holds; [done|]. intros Hp Hnone Heq. rewrite (bool_decide_eq_true_2 (is_Some record)) in Ec3 by done.
    rewrite <- Hin, Hnone in Ec3. simpl in Ec3. by apply Z.eqb_neq in Ec3.
  - unfold fresh. cbn. intros Hf. pose proof (ho_scopes _ _ _ _ _ Hh).
    rewrite (andb_comm (negb _)) in Es. rewrite Hf in Es. cbn in Es. apply Z.eqb_neq in Es. lia.
  - intros e' o' ((fl1 & Hr) & Hq & E1 & E2 & E3). cbn in E1, E2, E3. rewrite <- E1, <- E2.
    eapply (announce_wp o fl es rows m log Hh Hj Hrep Ht); try done.
Qed.
End edits.

(** ** Batches *)
Section shelf_sets.
Implicit Types (fl : shelf) (es : gmap Name Z).

Definition leave (names : list Name) fl : shelf :=
  foldl (λ fl n, alter (touch (delete (key n))) (scope n) fl) fl names.
Definition vacate_all (scs : list Scope) fl : shelf := foldl (λ fl sc, vacate sc fl) fl scs.

(** A directory without empty groups is determined by its names. *)
Lemma listed_unique fl1 fl2 es : full fl1 → full fl2 → listed fl1 es → listed fl2 es → fl1 = fl2.
Proof.
  intros F1 F2 L1 L2.
  assert (Hsome : ∀ fa fb sc g, full fa → listed fa es → listed fb es → fa !! sc = Some g → ∃ g', fb !! sc = Some g').
  { intros fa fb sc g Fa La Lb Hg. destruct (Fa _ _ Hg) as [_ Hne]. apply map_choose in Hne as (k & sl & Hk).
    pose proof (La {| scope := sc; key := k |}) as Ha. pose proof (Lb {| scope := sc; key := k |}) as Hb.
    simpl in Ha, Hb. rewrite Hg in Ha. simpl in Ha. destruct (fb !! sc) as [g'|]; [by exists g'|].
    simpl in Hb. congruence. }
  apply map_eq. intros sc. destruct (fl1 !! sc) as [g1|] eqn:E1.
  - destruct (Hsome fl1 fl2 sc g1 F1 L1 L2 E1) as [g2 E2]. rewrite E2. f_equal.
    destruct (F1 _ _ E1) as [S1 _], (F2 _ _ E2) as [S2 _].
    assert (He : entries g1 = entries g2).
    { apply map_eq. intros k. pose proof (L1 {| scope := sc; key := k |}) as Ha. pose proof (L2 {| scope := sc; key := k |}) as Hb.
      simpl in Ha, Hb. rewrite E1 in Ha. rewrite E2 in Hb. simpl in Ha, Hb. congruence. }
    destruct g1, g2. simpl in *. congruence.
  - destruct (fl2 !! sc) as [g2|] eqn:E2; [|done]. destruct (Hsome fl2 fl1 sc g2 F2 L2 L1 E2) as [g1 ?]. congruence.
Qed.

Lemma listed_leave names fl es : listed fl es → listed (leave names fl) (forget names es).
Proof.
  unfold leave, forget. revert fl es. induction names as [|n names IH]; intros fl es Hl; [done|].
  simpl. apply IH. by apply listed_remove.
Qed.

Lemma listed_vacate_all scs fl es : listed fl es → listed (vacate_all scs fl) es.
Proof.
  unfold vacate_all. revert fl. induction scs as [|sc scs IH]; intros fl Hl; [done|]. simpl. apply IH. by apply listed_vacate.
Qed.

Lemma leave_lookup names fl sc g :
  leave names fl !! sc = Some g → ∃ g0, fl !! sc = Some g0 ∧ group_scope g = group_scope g0.
Proof.
  unfold leave. revert fl. induction names as [|n names IH]; intros fl; simpl; [by exists g|].
  intros (g1 & H1 & H2)%IH. destruct (decide (sc = scope n)) as [->|Hne].
  - rewrite lookup_alter_eq in H1. destruct (fl !! scope n) as [g0|]; simpl in H1; [|done]. injection H1 as <-.
    by exists g0.
  - rewrite lookup_alter_ne in H1 by done. by exists g1.
Qed.

Lemma vacate_all_lookup scs fl sc g :
  vacate_all scs fl !! sc = Some g → fl !! sc = Some g ∧ (sc ∈ scs → entries g ≠ ∅).
Proof.
  unfold vacate_all. revert fl. induction scs as [|a scs IH]; intros fl; simpl; [by intros ?; split; [|intros ?%elem_of_nil]|].
  intros [H1 H2]%IH. rewrite vacate_lookup in H1. destruct (fl !! sc) as [g0|]; [|done].
  destruct (bool_decide_reflect (sc = a)) as [->|Hne]; simpl in H1.
  - case_bool_decide as He; [done|]. injection H1 as <-. by split.
  - injection H1 as <-. split; [done|]. intros [->|Hin]%elem_of_cons; [done|]. by apply H2.
Qed.

Context {Item : Type} {layout : Layout Item}.
Implicit Types (o : Origin (Item := Item)).

Lemma unlist_shelved names o fl : shelved o fl → shelved (unlist names o) (leave names fl) ∧ framed o (unlist names o).
Proof.
  unfold unlist, leave. revert o fl. induction names as [|n names IH]; intros o fl Hs; [split; [done|apply framed_refl]|].
  simpl. destruct (shelved_amend (scope n) (delete (key n)) o fl Hs) as [H1 F1]. destruct (IH _ _ H1) as [H2 F2].
  split; [done|]. by eapply framed_trans.
Qed.

Lemma prune_all_shelved scs o fl : shelved o fl → shelved (prune_all scs o) (vacate_all scs fl) ∧ framed o (prune_all scs o).
Proof.
  unfold prune_all, vacate_all. revert o fl. induction scs as [|sc scs IH]; intros o fl Hs; [split; [done|apply framed_refl]|].
  simpl. destruct (shelved_prune sc o fl Hs) as [H1 F1]. destruct (IH _ _ H1) as [H2 F2].
  split; [done|]. by eapply framed_trans.
Qed.

Lemma clear_shelved scs names o fl :
  shelved o fl →
  shelved (prune_all scs (unlist names o)) (vacate_all scs (leave names fl)) ∧ framed o (prune_all scs (unlist names o)).
Proof.
  intros Hs. destruct (unlist_shelved names o fl Hs) as [H1 F1]. destruct (prune_all_shelved scs _ _ H1) as [H2 F2].
  split; [done|]. by eapply framed_trans.
Qed.

Lemma clear_bounds scs names fl :
  shelf_bytes (vacate_all scs (leave names fl)) <= shelf_bytes fl ∧ (size (vacate_all scs (leave names fl)) <= size fl)%nat.
Proof.
  assert (H1 : shelf_bytes (leave names fl) = shelf_bytes fl ∧ size (leave names fl) = size fl).
  { unfold leave. revert fl. induction names as [|n names IH]; intros fl; [done|]. simpl.
    destruct (IH (alter (touch (delete (key n))) (scope n) fl)) as [-> ->]. apply shelf_alter. }
  destruct H1 as [<- <-]. generalize (leave names fl) as fl'. unfold vacate_all.
  induction scs as [|sc scs IH]; intros fl'; [done|]. simpl. specialize (IH (vacate sc fl')).
  pose proof (shelf_vacate sc fl'). lia.
Qed.
End shelf_sets.

Section merging.
Context {Item : Type} {layout : Layout Item} (binary_key : bool) (limits_ : Limits) (HL : limits_ok limits_).
Context (exclusive : nat → bool).
Implicit Types (o : Origin (Item := Item)) (fl : shelf) (m : gmap Name Item) (es : gmap Name Z) (b : Batch (Item := Item)).

(** The source a batch was opened on. *)
Context (o0 : Origin (Item := Item)) (fl0 : shelf) (es0 : gmap Name Z) (m0 : gmap Name Item).
Context (log : chronicle (Item := Item)) (Hh : holds limits_ o0 fl0 es0 m0) (Hj : journal false limits_ o0 log).

(** It still differs only by the names and groups the batch has added. *)
Record abortable o fl es (added : list Name) (created : list Scope) : Prop := {
  ab_frame : framed (set_editing true o0) o;
  ab_shelf : shelved o fl;
  ab_listed : listed fl es;
  ab_groups : ∀ sc g, fl !! sc = Some g → group_scope g = sc ∧ (sc ∈ created ∨ is_Some (fl0 !! sc));
  ab_names : forget added es = es0
}.

Record growing o b fl es m : Prop := {
  gr_abort : abortable o fl es (batch_added b) (batch_created b);
  gr_full : full fl;
  gr_spells : spells (batch_tree b) (forget (batch_removed b) es) m;
  gr_bytes : batch_bytes b = content_bytes m ∧ batch_bytes b + directory_ o <= bytes limits_;
  gr_records : batch_records b = Z.of_nat (size m) ∧ batch_records b <= records limits_;
  gr_scopes : scopes_ o <= scopes limits_;
  gr_seen : batch_added b ⊆ batch_seen b ∧ batch_removed b ⊆ batch_seen b ∧ ∀ n, n ∉ batch_seen b → m !! n = m0 !! n;
  gr_removed : ∀ n, n ∈ batch_removed b → is_Some (es !! n);
  gr_slots : ∀ n sl, es !! n = Some sl → is_slot sl
}.

Lemma journal_framed o : framed (set_editing true o0) o → ∀ o', framed o o' → journal false limits_ (set_editing false o') log.
Proof.
  intros [F1 F2 F3 F4 F5 F6 F7] o' [G1 G2 G3 G4 G5 G6 G7]. destruct Hj as [J0 J1 J2 J3 J4 J5 J6 J7]. cbn in *.
  split; cbn; rewrite ?G2, ?G3, ?G6, ?F2, ?F3, ?F6; done.
Qed.

Lemma origin_batch_abort_ok o fl es b :
  abortable o fl es (batch_added b) (batch_created b) → origin_ok false limits_ (batch_abort b o) m0 log.
Proof.
  intros [A1 A2 A3 A4 A5]. unfold batch_abort.
  destruct (clear_shelved (batch_created b) (batch_added b) o fl A2) as [Hs Hf].
  assert (Hfl : vacate_all (batch_created b) (leave (batch_added b) fl) = fl0).
  { pose proof (listed_vacate_all (batch_created b) _ _ (listed_leave (batch_added b) fl es A3)) as Hl. rewrite A5 in Hl.
    eapply listed_unique; [|apply Hh|exact Hl|apply Hh]. intros sc g [Hg Hne]%vacate_all_lookup.
    destruct (leave_lookup _ _ _ _ Hg) as (g0 & Hg0 & ->). destruct (A4 _ _ Hg0) as [Hsc [Hin|[g' Hg']]]; split; try done; [by apply Hne|].
    destruct (ho_full _ _ _ _ _ Hh _ _ Hg') as [_ Hfull]. apply map_choose in Hfull as (k & sl & Hk).
    pose proof (ho_listed _ _ _ _ _ Hh {| scope := sc; key := k |}) as H0. simpl in H0. rewrite Hg' in H0. simpl in H0.
    pose proof (listed_leave (batch_added b) fl es A3 {| scope := sc; key := k |}) as H1. rewrite A5 in H1. simpl in H1.
    rewrite Hg in H1. simpl in H1. intros He. rewrite He, lookup_empty in H1. congruence. }
  rewrite Hfl in Hs. pose proof (journal_framed _ A1 _ Hf) as Hjo.
  set (o' := prune_all _ _) in *. clearbody o'. split; [done|]. split; [done|]. exists fl0, es0.
  destruct Hh as [H1 H2 H3 H4 H5 H6 H7]. destruct A1 as [F1 F2 F3 F4 F5 F6 F7], Hf as [G1 G2 G3 G4 G5 G6 G7]. cbn in *.
  split; cbn; try done.
  - by apply (shelved_ext o').
  - by rewrite G1, F1.
  - rewrite G5, F5, (sv_directory _ _ Hs), <- (sv_directory _ _ H1). done.
  - rewrite G4, F4. done.
  - rewrite (sv_scopes _ _ Hs), <- (sv_scopes _ _ H1). done.
Qed.

Lemma origin_batch_commit_ok o fl es b m : growing o b fl es m → origin_ok false limits_ (batch_commit b o) m log.
Proof.
  intros [[A1 A2 A3 A4 A5] G2 G3 [G4 G4'] [G5 G5'] G6 _ _ _]. unfold batch_commit.
  set (o1 := set_rows _ _ _). assert (H1 : shelved o1 fl) by (by apply (shelved_ext o)).
  destruct (clear_shelved (scope <$> batch_removed b) (batch_removed b) o1 fl H1) as [Hs Hf].
  pose proof (listed_vacate_all (scope <$> batch_removed b) _ _ (listed_leave (batch_removed b) fl es A3)) as Hl.
  pose proof (clear_bounds (scope <$> batch_removed b) (batch_removed b) fl) as [B1 B2].
  set (fl' := vacate_all _ _) in *. set (o' := prune_all _ _) in *.
  assert (Hfull : full fl').
  { intros sc g [Hg Hne]%vacate_all_lookup. destruct (leave_lookup _ _ _ _ Hg) as (g0 & Hg0 & ->).
    destruct (G2 _ _ Hg0) as [Hsc Hne0]. split; [done|].
    apply map_choose in Hne0 as (k & sl & Hk). destruct (decide ({| scope := sc; key := k |} ∈ batch_removed b)) as [Hin|Hin].
    - apply Hne. apply list_elem_of_fmap. by exists {| scope := sc; key := k |}.
    - pose proof (listed_leave (batch_removed b) fl es A3 {| scope := sc; key := k |}) as H2. rewrite forget_lookup in H2.
      rewrite bool_decide_eq_false_2 in H2 by done. rewrite (A3 {| scope := sc; key := k |}) in H2. simpl in H2.
      rewrite Hg0, Hg in H2. simpl in H2. intros He. rewrite He, lookup_empty in H2. congruence. }
  destruct A1 as [F1 F2 F3 F4 F5 F6 F7], Hf as [K1 K2 K3 K4 K5 K6 K7]. cbn in *. split; [done|]. split.
  - destruct Hj as [J0 J1 J2 J3 J4 J5 J6 J7]. split; cbn; rewrite ?K2, ?K3, ?K6, ?F2, ?F3, ?F6; done.
  - exists fl', (forget (batch_removed b) es). split; cbn; try done.
    + by apply (shelved_ext o').
    + by rewrite K1.
    + rewrite K5, (sv_directory _ _ Hs). rewrite (sv_directory _ _ A2) in G4'. split; [done|lia].
    + rewrite K4. done.
    + rewrite (sv_scopes _ _ Hs). rewrite (sv_scopes _ _ A2) in G6. lia.
Qed.

Definition dropped (p : Origin (Item := Item) * Batch (Item := Item)) : Prop :=
  batch_failed p.2 = true ∧ ∃ fl es, abortable p.1 fl es (batch_added p.2) (batch_created p.2).

Lemma growing_dropped o b fl es m : growing o b fl es m → dropped (o, mark_failed b).
Proof. intros Hg. split; [done|]. exists fl, es. apply Hg. Qed.

Lemma origin_open_batch_wp (Hidle : editing_ o0 = false) :
  wp Faulty (open_batch false) (λ b o, batch_failed b = false ∧ growing o b fl0 es0 m0) (λ _ _, False) o0.
Proof.
  unfold open_batch. apply origin_idle_wp; [done|]. repeat wp_step. split; [done|]. pose proof Hh as [H1 H2 H3 H4 [H5 H5'] [H6 H6'] H7].
  split; cbn; try done.
  - split; cbn; try done; [by apply (shelved_ext o0)|]. intros sc g Hg. split; [by apply H2|]. right. by exists g.
  - by intros n ?%elem_of_nil.
  - intros n sl Hn. pose proof (spells_find _ _ _ n H4) as Hf. rewrite Hn in Hf. apply Hf.
Qed.

(** *** One record *)
Lemma listed_grouped n fl es : listed fl es → listed (grouped n fl) es.
Proof.
  intros Hl n'. rewrite Hl. unfold grouped. destruct (fl !! scope n) as [g|] eqn:E; [done|].
  destruct (decide (scope n' = scope n)) as [->|Hne]; [|by rewrite lookup_insert_ne].
  rewrite lookup_insert_eq, E. simpl. by rewrite lookup_empty.
Qed.

Lemma forget_enter names n sl es : es !! n = None → forget (names ++ [n]) (<[n := sl]> es) = forget names es.
Proof.
  intros Hn. apply map_eq. intros j. rewrite !forget_lookup. destruct (decide (j = n)) as [->|Hne].
  - rewrite bool_decide_eq_true_2 by (apply elem_of_app; right; by left). rewrite Hn. by destruct (bool_decide _).
  - rewrite lookup_insert_ne by done. rewrite (bool_decide_ext (j ∈ names ++ [n]) (j ∈ names)); [done|].
    rewrite elem_of_app, list_elem_of_singleton. naive_solver.
Qed.

Lemma forget_absent names n es : es !! n = None → forget (names ++ [n]) es = forget names es.
Proof.
  intros Hn. rewrite forget_app. simpl. apply delete_id. rewrite forget_lookup, Hn. by destruct (bool_decide _).
Qed.

Definition fresh_scopes n fl : list Scope := if bool_decide (fl !! scope n = None) then [scope n] else [].

Lemma abortable_group o o1 fl es added created n :
  abortable o fl es added created → framed o o1 → shelved o1 (grouped n fl) →
  abortable o1 (grouped n fl) es added (created ++ fresh_scopes n fl).
Proof.
  intros [A1 A2 A3 A4 A5] Hf Hs. split; [by eapply framed_trans|done|by apply listed_grouped| |done].
  intros sc g. unfold grouped, fresh_scopes. destruct (fl !! scope n) as [g0|] eqn:E.
  - rewrite bool_decide_eq_false_2 by done. rewrite app_nil_r. apply A4.
  - rewrite bool_decide_eq_true_2 by done. destruct (decide (sc = scope n)) as [->|Hne].
    + rewrite lookup_insert_eq. intros [= <-]. split; [done|]. left. apply elem_of_app. right. by left.
    + rewrite lookup_insert_ne by done. intros Hg. destruct (A4 _ _ Hg) as [? [Hin|?]]; split; [done|left; apply elem_of_app; by left|done|by right].
Qed.

Lemma abortable_enter o fl es added created n sl :
  abortable o fl es added created → is_Some (fl !! scope n) → es !! n = None →
  abortable o fl es (added ++ [n]) created ∧
  let o' := on_groups (amend (scope n) (λ t, <[key n := sl]> t)) o in
  abortable o' (enter n sl fl) (<[n := sl]> es) (added ++ [n]) created.
Proof.
  intros [A1 A2 A3 A4 A5] [g Hg] Hn. split.
  - split; try done. by rewrite forget_absent.
  - destruct (shelved_amend (scope n) (λ t, <[key n := sl]> t) o fl A2) as [Hs Hf].
    rewrite (enter_existing n sl fl g) in Hs; [|done|by eapply A4]. split; [by eapply framed_trans|done|by apply listed_enter| |by rewrite forget_enter].
    intros sc g'. destruct (decide (sc = scope n)) as [->|Hne].
    + rewrite enter_here. intros [= <-]. split; [done|]. by eapply A4.
    + rewrite enter_other by done. apply A4.
Qed.

(** The batch after a complete [set]. *)
Definition grown b n (record : Item) fl (exists_ : bool) (sl new_bytes : Z) (t : pages Name Item) : Batch :=
  {| batch_tree := next_tree exists_ n (Some record) sl t;
     batch_added := batch_added b ++ (if exists_ then [] else [n]); batch_removed := batch_removed b;
     batch_created := batch_created b ++ fresh_scopes n fl; batch_seen := batch_seen b ++ [n];
     batch_bytes := new_bytes; batch_records := if exists_ then batch_records b else batch_records b + 1;
     batch_failed := false |}.

Lemma origin_grown_ok o o' b fl es m n record sl new_bytes t rows :
  let exists_ := bool_decide (is_Some (es !! n)) in
  let fl' := if exists_ then fl else enter n sl fl in
  let es' := if exists_ then es else <[n := sl]> es in
  growing o b fl es m →
  abortable o' fl' es' (batch_added b ++ (if exists_ then [] else [n])) (batch_created b ++ fresh_scopes n fl) →
  represents t rows → tied (forget (batch_removed b) es) rows m → is_slot sl → reachable t sl →
  chosen (forget (batch_removed b) es) rows n (Some record) sl →
  forget (batch_removed b) es !! n = es !! n →
  new_bytes = content_bytes (next_shown n (Some record) m) → new_bytes + directory_ o' <= bytes limits_ →
  scopes_ o' <= scopes limits_ → (exists_ = false → batch_records b ≠ records limits_) →
  growing o' (grown b n record fl exists_ sl new_bytes t) fl' es' (<[n := record]> m).
Proof.
  intros exists_ fl' es' [G1 G2 G3 G4 [G5 G5'] G6 (S1 & S2 & S3) G8 G9] Ha Hrep Ht Hs Hreach Hc Hn Hb Hlim Hsc Hrec.
  pose proof (write_spells t _ rows _ n (Some record) sl Hrep Ht Hs Hreach Hc) as Hspell. rewrite Hn in Hspell. fold exists_ in Hspell.
  assert (Hmn : exists_ = bool_decide (is_Some (m !! n))).
  { unfold exists_. rewrite <- Hn. apply bool_decide_ext. split; [|intros [it Hit]; by eapply ti_dom].
    intros [sl' Hsl']. destruct (ti_row _ _ _ Ht _ _ Hsl') as (it & _ & ->). by eexists. }
  assert (Hent : forget (batch_removed b) es' = next_entries n (Some record) sl (forget (batch_removed b) es)).
  { unfold es', exists_. cbn. unfold chosen in Hc. rewrite Hn in Hc. destruct (es !! n) as [sl'|] eqn:E.
    - subst sl'. rewrite bool_decide_eq_true_2 by (by eexists). symmetry. by apply insert_id.
    - rewrite bool_decide_eq_false_2 by (by intros []). apply forget_insert. intros Hin. destruct (G8 _ Hin). congruence. }
  split; cbn [grown batch_tree batch_added batch_removed batch_created batch_seen batch_bytes batch_records]; try done.
  - unfold fl'. destruct exists_; [done|by apply full_enter].
  - by rewrite Hent.
  - rewrite map_size_insert. rewrite Hmn in *. destruct (m !! n) as [it|]; simpl in *; [lia|]. specialize (Hrec eq_refl). lia.
  - split_and!.
    + destruct exists_; [rewrite app_nil_r|]; set_solver.
    + set_solver.
    + intros j [Hj1 Hj2]%not_elem_of_app. rewrite lookup_insert_ne; [by apply S3|]. intros ->. apply Hj2. by left.
  - intros j Hrem. unfold es'. destruct exists_; [by apply G8|]. destruct (decide (j = n)) as [->|]; [rewrite lookup_insert_eq; by eexists|].
    rewrite lookup_insert_ne by done. by apply G8.
  - intros j sl'. unfold es'. destruct exists_; [by apply G9|]. destruct (decide (j = n)) as [->|]; [rewrite lookup_insert_eq; by intros [= <-]|].
    rewrite lookup_insert_ne by done. apply G9.
Qed.

Lemma entered_bounds o' (exists_ : bool) fl es n sl (added : list Name) (created : list Scope) o new_bytes :
  (exists_ = true → is_Some (fl !! scope n)) → shelved o fl →
  abortable o' (if exists_ then fl else enter n sl fl) es added created →
  new_bytes + directory_ o + (if bool_decide (fl !! scope n = None) then directory (scope n) else 0) <= bytes limits_ →
  (fl !! scope n = None → scopes_ o < scopes limits_) → scopes_ o <= scopes limits_ →
  new_bytes + directory_ o' <= bytes limits_ ∧ scopes_ o' <= scopes limits_.
Proof.
  intros Hex Hs [_ Hs' _ _ _] Hb Hr Hsc. rewrite (sv_directory _ _ Hs'), (sv_scopes _ _ Hs').
  rewrite (sv_directory _ _ Hs) in Hb. rewrite (sv_scopes _ _ Hs) in Hsc, Hr. destruct (shelf_enter n sl fl) as [E1 E2].
  destruct exists_.
  - destruct (Hex eq_refl) as [g Hg]. rewrite Hg in *. simpl in Hb. lia.
  - rewrite E1, E2. destruct (fl !! scope n); simpl in *; [lia|]. specialize (Hr eq_refl). lia.
Qed.

Lemma push_nothing b : push_names [] [] [] [] b = b.
Proof. destruct b. unfold push_names. cbn. by rewrite !app_nil_r. Qed.

Lemma origin_write_batch_wp o b fl es m rows n record sl new_bytes :
  let exists_ := bool_decide (is_Some (es !! n)) in
  growing o b fl es m → represents (batch_tree b) rows → tied (forget (batch_removed b) es) rows m → is_slot sl →
  chosen (forget (batch_removed b) es) rows n (Some record) sl → forget (batch_removed b) es !! n = es !! n →
  new_bytes = content_bytes (next_shown n (Some record) m) →
  new_bytes + directory_ o + (if bool_decide (fl !! scope n = None) then directory (scope n) else 0) <= bytes limits_ →
  (fl !! scope n = None → scopes_ o < scopes limits_) → (exists_ = false → batch_records b ≠ records limits_) →
  wp Faulty (write_batch exclusive n record (bool_decide (fl !! scope n = None)) exists_ sl new_bytes)
    (λ _ p, batch_failed p.2 = false ∧ ∃ fl' es', growing p.1 p.2 fl' es' (<[n := record]> m))
    (λ x p, x = bad_alloc ∧ dropped p) (o, mark_failed b).
Proof.
  intros exists_ Hg Hrep Ht Hsl Hc Hn Hb Hlim Hroom Hrec. pose proof (gr_abort _ _ _ _ _ Hg) as Ha.
  pose proof (ab_shelf _ _ _ _ _ Ha) as Hs.
  assert (Hex : exists_ = true → is_Some (fl !! scope n)).
  { intros [sl' Hsl']%bool_decide_eq_true. rewrite (ab_listed _ _ _ _ _ Ha), bind_Some in Hsl'. destruct Hsl' as (g & ? & _). by eexists. }
  unfold write_batch. wp_step.
  apply wp_mono with (Q := λ _ p, p.2 = push_names [] [] (fresh_scopes n fl) [] (mark_failed b) ∧
    abortable p.1 (grouped n fl) es (batch_added b) (batch_created b ++ fresh_scopes n fl))
    (E := λ x p, x = bad_alloc ∧ dropped p); [| |done].
  { unfold fresh_scopes. destruct (bool_decide_reflect (fl !! scope n = None)) as [Hnone|Hsome].
    - wp_step. wp_step; [|split; [done|]; by eapply growing_dropped]. wp_step. wp_step.
      eapply wp_mono; [by apply (obtain_wp (scope n) o fl)| |].
      + intros [] o1 [Hs1 Hf1]. wp_step. split; [done|]. cbn.
        pose proof (abortable_group o o1 fl es (batch_added b) (batch_created b) n Ha Hf1) as Hx.
        unfold grouped, fresh_scopes in Hx |- *. rewrite Hnone in Hx |- *. rewrite bool_decide_eq_true_2 in Hx by done. by apply Hx.
      + intros x o1 [-> ->]. split; [done|]. by eapply growing_dropped.
    - wp_step. rewrite push_nothing, app_nil_r. split; [done|]. unfold grouped. by destruct (fl !! scope n). }
  intros [] [o1 b1] [Hb1 Ha1]. simpl in Hb1. subst b1. simpl in Ha1. set (b1 := push_names _ _ _ _ _).
  assert (Hd1 : dropped (o1, b1)) by (split; [done|]; exists (grouped n fl), es; cbn; by rewrite app_nil_r).
  wp_step.
  apply wp_mono with (Q := λ _ p, p.2 = push_names (if exists_ then [] else [n]) [] [] [] b1 ∧
    abortable p.1 (if exists_ then fl else enter n sl fl) (if exists_ then es else <[n := sl]> es)
      (batch_added b ++ (if exists_ then [] else [n])) (batch_created b ++ fresh_scopes n fl))
    (E := λ x p, x = bad_alloc ∧ dropped p); [| |done].
  { destruct exists_ eqn:Ee.
    - wp_step. rewrite push_nothing, app_nil_r. split; [done|].
      destruct (Hex eq_refl) as [g Hgr]. unfold grouped in Ha1. by rewrite Hgr in Ha1.
    - apply bool_decide_eq_false in Ee. apply eq_None_not_Some in Ee.
      assert (Hgr : is_Some (grouped n fl !! scope n)).
      { unfold grouped. destruct (fl !! scope n) eqn:E; [by eexists|rewrite lookup_insert_eq; by eexists]. }
      destruct (abortable_enter o1 _ es _ _ n sl Ha1 Hgr Ee) as [Ha2 Ha3].
      assert (Hent : enter n sl (grouped n fl) = enter n sl fl).
      { apply map_eq. intros sc. destruct (decide (sc = scope n)) as [->|Hne].
        - rewrite !enter_here. unfold grouped. destruct (fl !! scope n) eqn:E; [by rewrite E|by rewrite lookup_insert_eq].
        - rewrite !enter_other by done. unfold grouped. destruct (fl !! scope n); [done|by rewrite lookup_insert_ne]. }
      rewrite Hent in Ha3. wp_step. wp_step; [|done]. wp_step. wp_step. wp_step. wp_step.
      + wp_step. by split.
      + split; [done|]. split; [done|]. exists (grouped n fl), es. cbn. by rewrite !app_nil_r. }
  intros [] [o2 b2] [Hb2 Ha2]. simpl in Hb2. subst b2. simpl in Ha2. set (b2 := push_names _ _ _ _ b1).
  assert (Hd2 : ∀ b', batch_failed b' = true → batch_added b' = batch_added b2 → batch_created b' = batch_created b2 → dropped (o2, b')).
  { intros b' E1 E2 E3. split; [done|]. simpl. rewrite E2, E3. eexists _, _. cbn. by rewrite !app_nil_r. }
  wp_step. wp_step; [|split; [done|by apply Hd2]]. wp_step. wp_step. wp_step. unfold open_pages. wp_step.
  eapply wp_mono; [apply wp_prepare; [apply Hrep|done]| |].
  2: { intros x t [-> _]. split; [done|]. apply Hd2; cbn; by rewrite ?app_nil_r. }
  intros [] t [Hk Hreach]. wp_step. wp_step. wp_step.
  destruct (entered_bounds o2 exists_ fl _ n sl _ _ o new_bytes Hex Hs Ha2 Hlim Hroom (gr_scopes _ _ _ _ _ Hg)) as [B1 B2].
  pose proof (origin_grown_ok o o2 b fl es m n record sl new_bytes t rows Hg Ha2 (keeps_represents _ _ _ Hrep Hk) Ht Hsl Hreach Hc Hn Hb B1 B2 Hrec) as Hfin.
  fold exists_ in Hfin. set (p := on_batch _ _).
  assert (Hp : p = (o2, grown b n record fl exists_ sl new_bytes t)).
  { unfold p, grown, b2, b1. destruct exists_; unfold on_batch, settle, put_tree, push_names; cbn; by rewrite !app_nil_r. }
  rewrite Hp. split; [done|]. eexists _, _. exact Hfin.
Qed.

Definition merged m (r : option Error) (p : Origin (Item := Item) * Batch (Item := Item)) : Prop :=
  match r with
  | Some _ => dropped p
  | None => batch_failed p.2 = false ∧ ∃ fl es, growing p.1 p.2 fl es m
  end.
Definition broken (x : exn) (p : Origin (Item := Item) * Batch (Item := Item)) : Prop :=
  (x = bad_alloc ∨ x = overflow_error) ∧ dropped p.

Lemma batch_account m n record total before after :
  total = content_bytes m → content_bytes m <= bytes limits_ →
  Some before = match m !! n with Some r => weight (key n) r | None => Some 0 end →
  Some after = match record with Some r => weight (key n) r | None => Some 0 end →
  wrap64 (total - before) = total - before ∧ total - before + after = content_bytes (next_shown n record m).
Proof.
  intros -> Hm Hb Ha.
  assert (Hbefore : before = match m !! n with Some r => row_weight n r | None => 0 end).
  { destruct (m !! n); [|congruence]. by apply origin_weight_some. }
  assert (Hafter : after = match record with Some r => row_weight n r | None => 0 end).
  { destruct record; [|congruence]. by apply origin_weight_some. }
  by apply (account_next row_weight origin_row_weight_pos n record m _ _ _ (li_bytes _ HL)).
Qed.

Lemma growing_content o b fl es m : growing o b fl es m → content_bytes m <= bytes limits_.
Proof.
  intros [[_ A2 _ _ _] _ _ [G4 G4'] _ _ _ _ _]. rewrite (sv_directory _ _ A2) in G4'. pose proof (shelf_nonneg fl). lia.
Qed.

(** The slot [Batch::set] works on, and what its row check has excluded. *)
Lemma batch_slot_wp o b fl es m rows n (record : Item) :
  growing o b fl es m → represents (batch_tree b) rows → tied (forget (batch_removed b) es) rows m →
  wp Faulty (match es !! n with Some sl => ret sl | None => lift (Pages.next (batch_tree b)) end)
    (λ sl p, p = (o, mark_failed b) ∧ is_slot sl ∧
       let row := if bool_decide (is_Some (es !! n)) then Pages.find (batch_tree b) sl else None in
       (bool_decide (is_Some (es !! n)) && match row with Some (n', _) => negb (bool_decide (n' = n)) | None => true end = false →
        row = pair n <$> m !! n ∧ forget (batch_removed b) es !! n = es !! n ∧
        chosen (forget (batch_removed b) es) rows n (Some record) sl))
    broken (o, mark_failed b).
Proof.
  intros Hg Hrep Ht. pose proof (growing_dropped _ _ _ _ _ Hg) as Hd. destruct (es !! n) as [sl|] eqn:E.
  - wp_step. split; [done|]. rewrite bool_decide_eq_true_2 by (by eexists). cbn [andb].
    pose proof (gr_slots _ _ _ _ _ Hg _ _ E) as Hs.
    split; [done|]. intros Hrow. destruct (Pages.find (batch_tree b) sl) as [[n' r]|] eqn:Ef; [|done].
    apply negb_false_iff, bool_decide_eq_true in Hrow. subst n'.
    destruct Hrep as (W & Z1 & F & D). rewrite F in Ef by done.
    pose proof (ti_entry _ _ _ Ht _ _ _ Ef) as He. destruct (ti_row _ _ _ Ht _ _ He) as (it & Hr & Hm).
    unfold chosen. rewrite He, Hm. split_and!; [|done|done]. simpl. congruence.
  - wp_step. destruct (Pages.next (batch_tree b)) as [sl|x] eqn:En.
    + destruct (next_free _ _ _ Hrep En) as [Hs Hr]. split; [done|]. split; [done|].
      rewrite bool_decide_eq_false_2 by (by intros []). cbn [andb]. intros _.
      assert (Hf : forget (batch_removed b) es !! n = None) by (rewrite forget_lookup, E; by destruct (bool_decide _)).
      unfold chosen. rewrite Hf. split_and!; try done. destruct (m !! n) as [it|] eqn:Em; [|done].
      destruct (ti_dom _ _ _ Ht _ _ Em). congruence.
    + split; [right; eapply next_throws; [apply Hrep|done]|done].
Qed.

Lemma origin_batch_set_wp o b fl es m sc k record :
  growing o b fl es m →
  wp Faulty (batch_set binary_key limits_ exclusive sc k record) (merged (<[{| scope := sc; key := k |} := record]> m)) broken (o, b).
Proof.
  intros Hg. pose proof (growing_dropped _ _ _ _ _ Hg) as Hd. pose proof (gr_abort _ _ _ _ _ Hg) as Ha.
  pose proof (ab_shelf _ _ _ _ _ Ha) as Hs. destruct (gr_spells _ _ _ _ _ Hg) as (rows & Hrep & Ht).
  set (n := {| scope := sc; key := k |}). unfold batch_set. wp_step. wp_step. wp_step. wp_step. cbn [on_batch fst snd].
  apply wp_if; intros _; [by wp_step|]. cbv zeta. fold n.
  rewrite (entry_listed o fl es n Hs (ab_listed _ _ _ _ _ Ha)), (sv_locate _ _ Hs).
  wp_step. eapply wp_mono; [by eapply (batch_slot_wp o b fl es m rows n record)| |done].
  intros sl p (-> & Hsl & Hrow). apply wp_if; intros Ed; [by wp_step|]. destruct (Hrow Ed) as (Er & Hn & Hc). clear Hrow. rewrite Er.
  apply wp_if; intros _; [by wp_step|].
  assert (Hb : (match pair n <$> m !! n with Some (_, r) => weight k r | None => Some 0 end)
    = match m !! n with Some r => weight (key n) r | None => Some 0 end) by (by destruct (m !! n)). rewrite Hb.
  destruct (match m !! n with Some r => _ | None => Some 0 end) as [before|] eqn:Eb; [|by wp_step].
  destruct (weight k record) as [after|] eqn:Ea; [|by wp_step].
  destruct (gr_bytes _ _ _ _ _ Hg) as [B1 B2].
  destruct (batch_account m n (Some record) _ before after B1 (growing_content _ _ _ _ _ Hg) (eq_sym Eb) (eq_sym Ea)) as [A1 A2].
  rewrite A1, A2. apply wp_if; intros Ec; [by wp_step|]. rewrite !orb_false_iff, !Z.ltb_ge in Ec.
  destruct Ec as [[[[[Ec1 Ec2] Ec3] Ec4] Ec5] Ec6]. apply wp_if; intros Es; [by wp_step|].
  wp_step. eapply wp_mono; [eapply (origin_write_batch_wp o b fl es m rows n record sl); try done| |].
  - change (scope n) with sc. lia.
  - change (scope n) with sc. intros Hnone. rewrite bool_decide_eq_true_2 in Es by done. cbn in Es. apply Z.eqb_neq in Es.
    pose proof (gr_scopes _ _ _ _ _ Hg). lia.
  - intros Hx. rewrite Hx in Ec3. cbn in Ec3. by apply Z.eqb_neq in Ec3.
  - intros [] p Hp. by wp_step.
  - intros x p [-> Hp]. split; [by left|done].
Qed.

(** *** One removal *)
Lemma shrunk_ok o b fl es m n sl new_bytes t rows :
  growing o b fl es m → n ∉ batch_seen b → es !! n = Some sl → forget (batch_removed b) es !! n = Some sl →
  represents t rows → tied (forget (batch_removed b) es) rows m → is_slot sl → reachable t sl →
  new_bytes = content_bytes (delete n m) →
  growing o (settle new_bytes (batch_records b - 1) (put_tree (Pages.erase sl t) (push_names [] [n] [] [n] b)))
    fl es (delete n m).
Proof.
  intros [G1 G2 G3 [G4 G4'] [G5 G5'] G6 (S1 & S2 & S3) G8 G9] Hn Hes Hf Hrep Ht Hs Hreach Hb.
  destruct (ti_row _ _ _ Ht _ _ Hf) as (it & Hr & Hm).
  assert (Hc : chosen (forget (batch_removed b) es) rows n None sl) by (unfold chosen; by rewrite Hf).
  pose proof (write_spells t _ rows _ n None sl Hrep Ht Hs Hreach Hc) as Hspell. cbn [next_tree next_entries next_shown] in Hspell.
  split; cbn [settle put_tree push_names batch_tree batch_added batch_removed batch_created batch_seen batch_bytes batch_records];
    rewrite ?app_nil_r; try done.
  - rewrite forget_app. exact Hspell.
  - split; [done|]. rewrite Hb. unfold content_bytes in *. rewrite (content_delete row_weight n m), Hm.
    pose proof (origin_row_weight_pos n it). lia.
  - rewrite map_size_delete, Hm. simpl. assert (size m ≠ 0%nat); [|lia].
    intros ->%map_size_empty_iff. by rewrite lookup_empty in Hm.
  - split_and!; [set_solver|set_solver|]. intros j [Hj1 Hj2]%not_elem_of_app.
    rewrite lookup_delete_ne; [by apply S3|]. intros ->. apply Hj2. by left.
  - intros j [Hin|Hin]%elem_of_app; [by apply G8|]. apply list_elem_of_singleton in Hin as ->. by exists sl.
Qed.

Lemma origin_unseen o b fl es m n :
  growing o b fl es m → n ∉ batch_seen b → es0 !! n = es !! n ∧ forget (batch_removed b) es !! n = es !! n.
Proof.
  intros Hg Hn. pose proof (gr_seen _ _ _ _ _ Hg) as (S1 & S2 & _).
  rewrite <- (ab_names _ _ _ _ _ (gr_abort _ _ _ _ _ Hg)), !forget_lookup.
  by rewrite !bool_decide_eq_false_2 by set_solver.
Qed.

Lemma batch_erase_wp o b fl es m sc k :
  growing o b fl es m →
  wp Faulty (batch_erase exclusive sc k) (merged (delete {| scope := sc; key := k |} m)) broken (o, b).
Proof.
  intros Hg. pose proof (growing_dropped _ _ _ _ _ Hg) as Hd. pose proof (gr_abort _ _ _ _ _ Hg) as Ha.
  pose proof (ab_shelf _ _ _ _ _ Ha) as Hs. set (n := {| scope := sc; key := k |}).
  unfold batch_erase. wp_step. wp_step. apply wp_if; intros Ef.
  { wp_step. split; [done|]. by exists fl, es. }
  wp_step. wp_step. cbv zeta. fold n. rewrite (entry_listed o fl es n Hs (ab_listed _ _ _ _ _ Ha)).
  destruct (es !! n) as [sl|] eqn:E; [|by wp_step]. cbn [on_batch fst snd].
  destruct (Pages.find (tree_ o) sl) as [[n' r]|] eqn:Er; [|by wp_step].
  apply wp_if; intros Ed; [by wp_step|]. apply orb_false_iff in Ed as [En%negb_false_iff%bool_decide_eq_true Hn%bool_decide_eq_false].
  subst n'. destruct (origin_unseen _ _ _ _ _ _ Hg Hn) as [E0 E1]. rewrite E in E0, E1.
  destruct (gr_spells _ _ _ _ _ Hg) as (rows & Hrep & Ht). pose proof (gr_slots _ _ _ _ _ Hg _ _ E) as Hslot.
  assert (Hm : m !! n = Some r).
  { destruct (gr_seen _ _ _ _ _ Hg) as (_ & _ & S3). rewrite (S3 n Hn).
    pose proof (spells_find _ _ _ n (ho_spells _ _ _ _ _ Hh)) as Hf. rewrite E0 in Hf. destruct Hf as (_ & it & Hf & ->).
    rewrite (fr_tree _ _ (ab_frame _ _ _ _ _ Ha)) in Er. cbn in Er. congruence. }
  assert (Hdrop : ∀ b', batch_failed b' = true → batch_added b' = batch_added b → batch_created b' = batch_created b → dropped (o, b')).
  { intros b' H1 H2 H3. split; [done|]. exists fl, es. cbn. by rewrite H2, H3. }
  assert (Hgone : broken bad_alloc (o, mark_failed b)) by (split; [by left|done]).
  wp_step. wp_step; [|done]. wp_step. wp_step. wp_step. wp_step; [|split; [by left|]; by apply Hdrop; cbn; rewrite ?app_nil_r].
  wp_step. wp_step. wp_step. unfold open_pages. wp_step.
  eapply wp_mono; [apply wp_prepare; [apply Hrep|done]| |].
  2: { intros x t [-> _]. split; [by left|]. by apply Hdrop; cbn; rewrite ?app_nil_r. }
  intros [] t [Hk Hreach]. wp_step. wp_step. wp_step. wp_step.
  assert (Hw : weight k r = Some (row_weight n r)).
  { unfold weight, row_weight. change (key n) with k. destruct (Z.ltb_spec (u64_max - (sizeof_item + sizeof_name + key_size k + 128)) (measure r)); [|done].
    exfalso. pose proof (growing_content _ _ _ _ _ Hg) as Hc. pose proof (li_bytes _ HL).
    assert (Hpos : ∀ j y, m !! j = Some y → 0 <= row_weight j y) by (intros j y _; pose proof (origin_row_weight_pos j y); lia).
    pose proof (map_sum_member row_weight m n r Hpos Hm) as Hmem.
    unfold content_bytes in Hc. unfold row_weight in Hmem at 1 2. change (key n) with k in Hmem. lia. }
  rewrite Hw. wp_step. wp_step. wp_step. split; [done|]. exists fl, es.
  destruct (gr_bytes _ _ _ _ _ Hg) as [B1 B2].
  destruct (batch_account m n None _ (row_weight n r) 0 B1 (growing_content _ _ _ _ _ Hg)) as [A1 A2]; [by rewrite Hm|done|].
  cbn [next_shown] in A2. rewrite Z.add_0_r in A2.
  pose proof (shrunk_ok o b fl es m n sl (batch_bytes b - row_weight n r) t rows Hg Hn E E1 (keeps_represents _ _ _ Hrep Hk) Ht Hslot
    Hreach A2) as Hfin. rewrite <- A1 in Hfin.
  unfold on_batch, settle, put_tree, push_names in Hfin |- *. cbn in Hfin |- *. rewrite !app_nil_r in Hfin. rewrite !app_nil_r. exact Hfin.
Qed.
End merging.

(** ** Histories of a source
    What its owners do: prepare a fact and revise, publish or abandon it; merge a
    recovery; install a whole baseline; confirm a position. *)
Section histories.
Context {Item : Type} {layout : Layout Item} (binary_key local_ : bool) (limits_ : Limits) (HL : limits_ok limits_).
Implicit Types (o : Origin (Item := Item)).

Inductive change := Upsert (sc : Scope) (k : string) (record : Item) | Remove (sc : Scope) (k : string).

Inductive operation :=
| Change (sc : Scope) (k : string) (record : option Item) (position : option Z) (now : Z) (form : Form)
    (revision : option Item) (publish : bool)
| Merge (changes : list change) (publish : bool)
| Restore (budget : Limits) (position : Z) (content : list (Scope * string * Item * Z)) (same_measure : bool)
| Confirm (position : Z).

(** What an operation tells the outside. *)
Inductive fact :=
| Wrote (n : Name) (record : option Item)
| Cleared
| Placed (position : Z)
| Announced (e : Event (Item := Item)).

Record model := { rows : gmap Name Item; log : chronicle (Item := Item) }.
Definition vacuum : model := {| rows := ∅; log := {| told := []; place := 0 |} |}.
Definition absorb (w : model) (x : fact) : model :=
  match x with
  | Wrote n r => {| rows := next_shown n r (rows w); log := log w |}
  | Cleared => {| rows := ∅; log := log w |}
  | Placed p => {| rows := rows w; log := {| told := told (log w); place := p |} |}
  | Announced e => {| rows := rows w; log := {| told := told (log w) ++ [e]; place := place (log w) |} |}
  end.

Definition apply_change (exclusive : nat → bool) (c : change) : eff (Origin * Batch) (option Error) :=
  match c with
  | Upsert sc k r => batch_set binary_key limits_ exclusive sc k r
  | Remove sc k => batch_erase exclusive sc k
  end.
Definition change_fact (c : change) : fact :=
  match c with
  | Upsert sc k r => Wrote {| scope := sc; key := k |} (Some r)
  | Remove sc k => Wrote {| scope := sc; key := k |} None
  end.

Fixpoint fill (exclusive : nat → bool) (cs : list change) : eff (Origin * Batch) bool :=
  match cs with
  | [] => ret true
  | c :: cs =>
      r <- apply_change exclusive c ;;
      match r with Some _ => ret false | None => fill exclusive cs end
  end.

Fixpoint fill_draft (exclusive : nat → bool) (budget : Limits) (content : list (Scope * string * Item * Z)) : eff Draft bool :=
  match content with
  | [] => ret true
  | (sc, k, r, now) :: content =>
      x <- draft_set binary_key exclusive budget sc k r now ;;
      match x with Some _ => ret false | None => fill_draft exclusive budget content end
  end.
Definition row_fact (x : Scope * string * Item * Z) : fact :=
  let '(sc, k, r, _) := x in Wrote {| scope := sc; key := k |} (Some r).

Definition perform (exclusive : nat → bool) (op : operation) : eff Origin (list fact) :=
  match op with
  | Change sc k record position now form revision publish =>
      r <- prepare binary_key local_ limits_ exclusive sc k record position now form ;;
      match r with
      | Unexpected _ => ret []
      | Expected e =>
          λ o f,
            let '(_, e, o) := match revision with Some r => revise r e o | None => (false, e, o) end in
            if publish
            then (Done (Wrote (edit_name e) (edit_record e)
                        :: match position with Some p => [Placed p] | None => [] end ++ (Announced <$> announced e form now)),
                  commit e o, f)
            else (Done [], abort e o, f)
      end
  | Merge cs publish =>
      b <- open_batch local_ ;;
      λ o f,
        match fill exclusive cs (o, b) f with
        | (Done filled, (o, b), f) =>
            if filled && publish then (Done (change_fact <$> cs), batch_commit b o, f) else (Done [], batch_abort b o, f)
        | (Thrown x, (o, b), f) => (Thrown x, batch_abort b o, f)
        end
  | Restore budget position content same_measure =>
      d <- open_draft budget position ;;
      λ o f,
        match fill_draft exclusive budget content d f with
        | (Done true, d, f) =>
            (r <- reset local_ limits_ same_measure d ;;
             ret (match r with None => Cleared :: (row_fact <$> content) ++ [Placed position] | Some _ => [] end)) o f
        | (Done false, _, f) => (Done [], o, f)
        | (Thrown x, _, f) => (Thrown x, o, f)
        end
  | Confirm p => λ o f, let '(ok, o) := confirm local_ p o in (Done (if ok then [Placed p] else []), o, f)
  end.

Record circumstances := { sharing : nat → bool; script : faults }.

Definition step (st : Origin * model) (op : operation * circumstances) : Origin * model :=
  match perform (sharing op.2) op.1 st.1 (script op.2) with
  | (Done xs, o, _) => (o, foldl absorb st.2 xs)
  | (Thrown _, o, _) => (o, st.2)
  end.

Definition sane (op : operation) : Prop :=
  match op with
  | Change _ _ _ _ _ _ _ _ | Merge _ _ => True
  | Restore budget p _ _ => is_u64 p ∧ limits_ok budget
  | Confirm p => is_u64 p
  end.

Definition agrees o (w : model) : Prop := origin_ok local_ limits_ o (rows w) (log w).

Lemma find_holds (lo : bool) (li : Limits) o m g sc k f :
  origin_ok lo li o m g → find sc k o f = (Done (m !! {| scope := sc; key := k |}), o, f).
Proof.
  intros (Hi & _ & fl & es & Hh). set (n := {| scope := sc; key := k |}).
  pose proof (spells_find _ _ _ n (ho_spells _ _ _ _ _ Hh)) as Hf.
  unfold find, idle, bind, read, ret. cbn. rewrite Hi. cbn. fold n.
  rewrite (entry_listed o fl es n (ho_shelf _ _ _ _ _ Hh) (ho_listed _ _ _ _ _ Hh)). unfold row_of.
  destruct (es !! n) as [sl|]; [destruct Hf as (_ & it & -> & ->)|rewrite Hf]; done.
Qed.

(** *** Drafts *)
Definition empty_log : chronicle (Item := Item) := {| told := []; place := 0 |}.

Definition drafted (budget : Limits) (d : Draft) (m : gmap Name Item) : Prop :=
  ∃ c, candidate d = Some c ∧ origin_ok false budget c m empty_log.

(** A source's position may move ahead without a fact. *)
Lemma confirmed_ok (li : Limits) o m (lg : chronicle) p :
  origin_ok false li o m lg → position_ o <= p → 0 <= p <= u64_max → origin_ok false li (set_position p o) m {| told := told lg; place := p |}.
Proof.
  intros (Hi & [J0 J1 J2 J3 J4 J5 J6 J7] & fl & es & Hh) Hp Hu. split; [done|]. split.
  - by split.
  - exists fl, es. destruct Hh. split; cbn; try done. by apply (shelved_ext o).
Qed.

Lemma blank_ok (lo : bool) (li : Limits) : limits_ok li → origin_ok lo li blank ∅ empty_log.
Proof.
  intros [L1 L2 L3 L4 L5]. split; [done|]. split.
  - split; cbn; try done; try lia; [by destruct lo|by apply Forall_nil].
  - exists ∅, ∅. split; cbn; try lia.
    + split; cbn; [|done|done|done]. intros sc. unfold locate. by rewrite !lookup_empty.
    + intros sc g. by rewrite lookup_empty.
    + intros n. by rewrite !lookup_empty.
    + exists ∅. split; [apply represents_empty|split; intros ?; by rewrite ?lookup_empty].
    + assert (content_bytes (Item := Item) ∅ = 0) by done. lia.
    + rewrite map_size_empty. lia.
Qed.

Lemma origin_draft_set_wp exclusive budget d m sc k r now :
  limits_ok budget → drafted budget d m →
  wp Faulty (draft_set binary_key exclusive budget sc k r now)
    (λ x d', draft_position d' = draft_position d ∧
       (x = None → drafted budget d' (<[{| scope := sc; key := k |} := r]> m)))
    (λ _ _, True) d.
Proof.
  intros HB (c & Hc & Hok). unfold draft_set. wp_step. wp_step. rewrite Hc. wp_step. rewrite Hc. cbn [default id]. wp_step.
  intros f Hf. rewrite (find_holds _ _ _ _ _ sc k f Hok). split; [done|]. clear f Hf.
  set (n := {| scope := sc; key := k |}). destruct (m !! n) as [it|] eqn:Em; [wp_step; by split|].
  wp_step. eapply wp_mono; [by apply (origin_prepare_wp binary_key false budget HB exclusive c m empty_log sc k (Some r) None now form_record)| |done].
  intros [e|x] c' Hr; [|wp_step; by split]. repeat wp_step. split; [done|]. intros _. exists (commit e c'). split; [done|].
  pose proof (editable_commit false budget HB _ _ _ _ _ _ _ _ _ Hr) as Hcommit. cbn [next_shown] in Hcommit.
  destruct Hr as (_ & _ & o0 & fl0 & es & rws & fl1 & _ & _ & _ & _ & _ & Hrec).
  replace (extend empty_log None (announced e form_record now)) with empty_log in Hcommit; [done|].
  unfold extend, announced. by rewrite (rc_queue _ _ _ _ _ _ _ _ Hrec).
Qed.

Lemma fill_draft_wp exclusive budget content d m :
  limits_ok budget → drafted budget d m →
  wp Faulty (fill_draft exclusive budget content)
    (λ (ok : bool) d', draft_position d' = draft_position d ∧
       (ok = true → ∃ w, drafted budget d' (rows (foldl absorb {| rows := m; log := w |} (row_fact <$> content)))))
    (λ _ _, True) d.
Proof.
  intros HB. revert d m. induction content as [|[[[sc k] r] now] content IH]; intros d m Hd; cbn [fill_draft].
  { wp_step. split; [done|]. intros _. by exists empty_log. }
  wp_step. eapply wp_mono; [by apply (origin_draft_set_wp exclusive budget d m sc k r now HB Hd)| |done].
  intros [x|] d' [Hp Hs]; [wp_step; by split|]. specialize (Hs eq_refl).
  eapply wp_mono; [apply (IH d' _ Hs)| |done]. intros ok d2 [Hp2 Hok]. split; [congruence|]. intros Ht.
  destruct (Hok Ht) as [w Hw]. by exists w.
Qed.

(** *** Rows do not depend on the chronicle *)
Lemma absorb_rows xs m g g' :
  Forall (λ x, match x with Wrote _ _ => True | _ => False end) xs →
  rows (foldl absorb {| rows := m; log := g |} xs) = rows (foldl absorb {| rows := m; log := g' |} xs) ∧
  log (foldl absorb {| rows := m; log := g |} xs) = g.
Proof.
  revert m. induction xs as [|x xs IH]; intros m Hx; [done|]. apply Forall_cons in Hx as [Hx Hxs].
  destruct x; try done. cbn. by apply IH.
Qed.

Lemma row_facts_wrote content : Forall (λ x, match x with Wrote _ _ => True | _ => False end) (row_fact <$> content).
Proof. apply Forall_fmap, Forall_true. by intros [[[sc k] r] now]. Qed.

Lemma change_facts_wrote cs : Forall (λ x, match x with Wrote _ _ => True | _ => False end) (change_fact <$> cs).
Proof. apply Forall_fmap, Forall_true. by intros []. Qed.

Lemma reset_wp budget o w d m (same_measure : bool) :
  agrees o w → is_u64 (draft_position d) → drafted budget d m →
  wp Faulty (reset local_ limits_ same_measure d)
    (λ r o', match r with
             | None => agrees o' {| rows := m; log := {| told := told (log w); place := draft_position d |} |}
             | Some _ => agrees o' w
             end) (λ _ _, False) o.
Proof.
  intros Hok Hp (c & Hc & Hcok). pose proof Hok as (Hi & Hj & _). unfold reset, validate. wp_step. apply origin_idle_wp; [done|].
  wp_step. wp_step. rewrite Hc. apply wp_if; intros E1; [by repeat wp_step|]. apply wp_if; intros E2; [by repeat wp_step|].
  apply wp_if; intros E3; [by repeat wp_step|]. repeat wp_step. rewrite !orb_false_iff, !Z.ltb_ge in E3.
  apply orb_false_iff in E1 as [El _]. destruct E3 as [[[E3 E4] E5] E6].
  destruct Hcok as (Hci & [J0 J1 J2 J3 J4 J5 J6 J7] & fl & es & [H1 H2 H3 H4 [H5 H5'] [H6 H6'] H7]).
  destruct Hj as [K0 K1 K2 K3 K4 K5 K6 K7]. cbn in J2, J5.
  assert (Hh : history_ c = []) by (destruct J5 as [pre Hpre]; by destruct (history_ c), pre).
  rewrite El in K2. unfold agrees. split; [done|]. split.
  - split; cbn; rewrite ?Hh, ?El; try done.
    + rewrite K2. by destruct (history_ c).
    + rewrite J6, Hh. done.
    + rewrite J6, Hh. simpl. pose proof (li_history _ HL). pose proof (li_backlog _ HL). lia.
  - exists fl, es. split; cbn; try done; try lia. by apply (shelved_ext c).
Qed.

Lemma absorb_announced w evs :
  foldl absorb w (Announced <$> evs) = {| rows := rows w; log := {| told := told (log w) ++ evs; place := place (log w) |} |}.
Proof.
  revert w. induction evs as [|e evs IH]; intros w; simpl; [destruct w as [? []]; by rewrite app_nil_r|].
  rewrite IH. simpl. by rewrite <- app_assoc.
Qed.

Lemma absorb_change w n record position evs :
  foldl absorb w (Wrote n record :: match position with Some p => [Placed p] | None => [] end ++ (Announced <$> evs)) =
  {| rows := next_shown n record (rows w); log := extend (log w) position evs |}.
Proof. cbn. rewrite foldl_app, absorb_announced. by destruct position. Qed.

Lemma origin_fill_wp exclusive cs o0 fl0 es0 m0 g o b fl es m :
  holds limits_ o0 fl0 es0 m0 → journal false limits_ o0 g →
  growing limits_ o0 fl0 es0 m0 o b fl es m →
  wp Faulty (fill exclusive cs)
    (λ (ok : bool) p, if ok
       then ∃ fl es, growing limits_ o0 fl0 es0 m0 p.1 p.2 fl es (rows (foldl absorb {| rows := m; log := g |} (change_fact <$> cs)))
       else dropped o0 fl0 es0 p)
    (λ _ p, dropped o0 fl0 es0 p) (o, b).
Proof.
  intros Hh Hj. revert o b fl es m. induction cs as [|c cs IH]; intros o b fl es m Hg; cbn [fill].
  { wp_step. by exists fl, es. }
  wp_step. destruct c as [sc k r|sc k]; cbn [apply_change].
  - eapply wp_mono; [by eapply (origin_batch_set_wp binary_key limits_ HL exclusive o0 fl0 es0 m0)| |by intros x p []].
    intros [x|] [o' b'] Hr; [by wp_step|]. destruct Hr as (_ & fl' & es' & Hr). by eapply IH.
  - eapply wp_mono; [by eapply (batch_erase_wp limits_ HL exclusive o0 fl0 es0 m0 g Hh)| |by intros x p []].
    intros [x|] [o' b'] Hr; [by wp_step|]. destruct Hr as (_ & fl' & es' & Hr). by eapply IH.
Qed.

Lemma change_wp exclusive sc k record position now form revision publish o w :
  agrees o w →
  wp Faulty (perform exclusive (Change sc k record position now form revision publish))
    (λ xs o', agrees o' (foldl absorb w xs)) (λ _ o', agrees o' w) o.
Proof.
  intros Hok. cbn [perform]. wp_step.
  eapply wp_mono; [by apply (origin_prepare_wp binary_key local_ limits_ HL exclusive o (rows w) (log w))| |by intros x o' []].
  intros [e|x] o' Hr; [|by wp_step]. intros f Hf.
  set (rv := match revision with Some r => revise r e o' | None => (false, e, o') end).
  assert (Hed : ∃ record', editable local_ limits_ (rows w) (log w) {| scope := sc; key := k |} record' position form now rv.1.2 rv.2).
  { unfold rv. destruct revision as [r|]; [|by exists record].
    pose proof (editable_revise local_ limits_ _ _ _ _ _ _ _ _ _ r Hr) as Hx.
    destruct (revise r e o') as [[ok e2] o2]. by eexists. }
  destruct rv as [[ok e2] o2]. destruct Hed as [record' Hed]. cbn [fst snd] in Hed.
  destruct publish; (split; [done|]).
  - rewrite absorb_change. pose proof (editable_commit local_ limits_ HL _ _ _ _ _ _ _ _ _ Hed) as Hc.
    destruct Hed as (-> & -> & _). exact Hc.
  - by eapply editable_abort.
Qed.

Lemma origin_perform_wp exclusive op o w :
  agrees o w → sane op →
  wp Faulty (perform exclusive op) (λ xs o', agrees o' (foldl absorb w xs)) (λ _ o', agrees o' w) o.
Proof.
  intros Hok Hs. destruct op as [sc k record position now form revision publish|cs publish|budget position content same|p].
  - by apply change_wp.
  - cbn [perform]. wp_step. pose proof Hok as (Hi & Hj & fl & es & Hh). destruct local_ eqn:El.
    { unfold open_batch. apply origin_idle_wp; [done|]. by wp_step. }
    eapply wp_mono; [by apply (origin_open_batch_wp limits_ o fl es (rows w) Hh Hi)| |by intros x o' ?].
    intros b o' [_ Hg] f Hf. pose proof (origin_fill_wp exclusive cs o fl es (rows w) (log w) o' b fl es (rows w) Hh Hj Hg f Hf) as Hfill.
    assert (Hab : ∀ o2 b2 fl' es', abortable o fl es o2 fl' es' (batch_added b2) (batch_created b2) → agrees (batch_abort b2 o2) w).
    { intros o2 b2 fl' es' Ha. unfold agrees. rewrite El. by eapply origin_batch_abort_ok. }
    destruct (fill exclusive cs (o', b) f) as [[[filled|x] [o2 b2]] f2]; destruct Hfill as [Hf2 Hfill]; cbn [fst snd] in Hfill.
    + destruct filled; [|destruct Hfill as (_ & fl' & es' & Ha); split; [done|by eapply Hab]]. destruct Hfill as (fl' & es' & Hgr).
      destruct publish; cbn; (split; [done|]).
      * unfold agrees. rewrite El. destruct w as [m g]. destruct (absorb_rows (change_fact <$> cs) m g g (change_facts_wrote cs)) as [_ ->].
        by eapply origin_batch_commit_ok.
      * eapply Hab, Hgr.
    + destruct Hfill as (_ & fl' & es' & Ha). split; [done|]. by eapply Hab.
  - cbn [perform]. destruct Hs as [Hp HB]. wp_step. unfold open_draft. wp_step. wp_step; [|done]. wp_step. wp_step.
    unfold make. destruct (retention budget <? 0); [done|]. wp_step. intros f Hf.
    set (d := {| candidate := Some blank; draft_position := position |}).
    assert (Hd : drafted budget d ∅) by (exists blank; split; [done|by apply blank_ok]).
    pose proof (fill_draft_wp exclusive budget content d ∅ HB Hd f Hf) as Hfill.
    destruct (fill_draft exclusive budget content d f) as [[[ok|x] d2] f2]; destruct Hfill as [Hf2 Hfill]; [|by split].
    destruct Hfill as [Hp2 Hfill]. destruct ok; [|by split]. destruct (Hfill eq_refl) as [w0 Hd2].
    rewrite <- (proj1 (absorb_rows (row_fact <$> content) ∅ (log w) w0 (row_facts_wrote content))) in Hd2.
    assert (Hreset : wp Faulty (r <- reset local_ limits_ same d2 ;;
        ret (match r with None => Cleared :: (row_fact <$> content) ++ [Placed position] | Some _ => [] end))
      (λ xs o', agrees o' (foldl absorb w xs)) (λ _ o', agrees o' w) o).
    { wp_step. eapply wp_mono; [eapply (reset_wp budget o w d2); [done|by rewrite Hp2|exact Hd2]| |done].
      intros [x|] o' Hr; wp_step; [done|]. cbn [foldl absorb]. rewrite foldl_app. cbn [foldl absorb].
      destruct (absorb_rows (row_fact <$> content) ∅ (log w) w0 (row_facts_wrote content)) as [_ ->]. by rewrite Hp2 in Hr. }
    exact (Hreset f2 Hf2).
  - cbn [perform]. intros f Hf. unfold confirm. destruct (local_ || editing_ o || (p <? position_ o)) eqn:E; [by split|].
    split; [done|]. cbn. rewrite !orb_false_iff, Z.ltb_ge in E. destruct E as [[El _] Ep].
    unfold agrees in *. rewrite El in *. by apply confirmed_ok.
Qed.

Lemma origin_run_ok o0 ops :
  make limits_ = Done o0 → Forall (λ op, sane op.1) ops →
  let st := foldl step (o0, vacuum) ops in agrees st.1 st.2.
Proof.
  intros Hmake Hsane. induction ops as [|op ops IH] using rev_ind; cbn zeta.
  - unfold make in Hmake. destruct (_ <? _); [done|]. injection Hmake as <-. by apply blank_ok.
  - apply Forall_app in Hsane as [Ho Hop]. rewrite Forall_singleton in Hop. specialize (IH Ho).
    rewrite foldl_app. cbn [foldl]. destruct (foldl step (o0, vacuum) ops) as [o w]. cbn [fst snd] in IH.
    pose proof (origin_perform_wp (sharing op.2) op.1 o w IH Hop (script op.2) I) as Hp. unfold step. cbn [fst snd].
    destruct (perform _ _ _ _) as [[[xs|x] o'] f']; by destruct Hp as [_ Hp].
Qed.

(** *** The scopes in use *)
Definition scopes_in (m : gmap Name Item) : gset Scope := set_map scope (dom m).
Definition scope_bytes (scs : gset Scope) : Z := shelf_bytes (gset_to_gmap {| group_scope := {| sector := ""; spectrum := "" |}; entries := ∅ |} scs).

Lemma shelf_bytes_dom (fl1 fl2 : shelf) : dom fl1 = dom fl2 → shelf_bytes fl1 = shelf_bytes fl2.
Proof.
  clear HL. revert fl2. induction fl1 as [|sc g fl1 Hsc IH] using map_ind; intros fl2 Hd.
  - rewrite dom_empty_L in Hd. symmetry in Hd. apply dom_empty_inv_L in Hd as ->. done.
  - assert (Hin : is_Some (fl2 !! sc)) by (apply elem_of_dom; rewrite <- Hd; set_solver). destruct Hin as [g' Hg'].
    unfold shelf_bytes in *. rewrite map_sum_insert_new by done. rewrite (map_sum_delete _ fl2 sc g' Hg').
    rewrite (IH (delete sc fl2)); [done|]. rewrite dom_delete_L, <- Hd, dom_insert_L.
    apply not_elem_of_dom in Hsc. set_solver.
Qed.

Lemma in_scopes (m : gmap Name Item) n r : m !! n = Some r → scope n ∈ scopes_in m.
Proof. intros Hm. unfold scopes_in. apply elem_of_map. exists n. split; [done|]. apply elem_of_dom. by eexists. Qed.

Lemma holds_scopes o fl es m : holds limits_ o fl es m → dom fl = scopes_in m.
Proof.
  intros [_ H2 H3 (rws & _ & Ht) _ _ _]. apply set_eq. intros sc. unfold scopes_in. rewrite elem_of_dom, elem_of_map. split.
  - intros [g Hg]. destruct (H2 _ _ Hg) as [_ Hne]. apply map_choose in Hne as (k & sl & Hk).
    exists {| scope := sc; key := k |}. split; [done|]. apply elem_of_dom.
    assert (He : es !! {| scope := sc; key := k |} = Some sl) by (rewrite H3; simpl; by rewrite Hg).
    destruct (ti_row _ _ _ Ht _ _ He) as (it & _ & ->). by eexists.
  - intros (n & -> & [it Hn]%elem_of_dom). destruct (ti_dom _ _ _ Ht _ _ Hn) as [sl He]. rewrite H3, bind_Some in He.
    destruct He as (g & Hg & _). by eexists.
Qed.

Lemma groups_elem gs g : g ∈ groups_in_order gs ↔ ∃ a b spectra, gs !! a = Some spectra ∧ spectra !! b = Some g.
Proof.
  unfold groups_in_order. rewrite list_elem_of_bind. split.
  - intros ([a spectra] & Hg & Ha%in_order_elem). apply list_elem_of_bind in Hg as ([b g'] & Hg & Hb%in_order_elem).
    apply list_elem_of_singleton in Hg as ->. by exists a, b, spectra.
  - intros (a & b & spectra & Ha & Hb). exists (a, spectra). split; [|by apply in_order_elem]. apply list_elem_of_bind.
    exists (b, g). split; [by left|by apply in_order_elem].
Qed.

(** Groups are listed once each. *)
Lemma groups_nodup gs :
  (∀ a b spectra g, gs !! a = Some spectra → spectra !! b = Some g → group_scope g = {| sector := a; spectrum := b |}) →
  NoDup (groups_in_order gs).
Proof.
  intros Hgs. unfold groups_in_order. apply NoDup_bind; [| |apply in_order_nodup].
  - intros [a1 s1] [a2 s2] g H1%in_order_elem H2%in_order_elem E1 E2.
    apply list_elem_of_bind in E1 as ([b1 g1] & E1 & K1%in_order_elem). apply list_elem_of_bind in E2 as ([b2 g2] & E2 & K2%in_order_elem).
    apply list_elem_of_singleton in E1, E2. subst g1 g2. pose proof (Hgs _ _ _ _ H1 K1). pose proof (Hgs _ _ _ _ H2 K2). congruence.
  - intros [a spectra] Ha%in_order_elem. apply NoDup_bind; [|intros [] _; apply NoDup_singleton|apply in_order_nodup].
    intros [b1 g1] [b2 g2] g K1%in_order_elem K2%in_order_elem E1 E2. apply list_elem_of_singleton in E1, E2. subst g1 g2.
    pose proof (Hgs _ _ _ _ Ha K1). pose proof (Hgs _ _ _ _ Ha K2). congruence.
Qed.

Lemma holds_groups o fl es m :
  holds limits_ o fl es m →
  (∀ g, g ∈ groups_in_order (groups_ o) ↔ fl !! group_scope g = Some g) ∧ NoDup (groups_in_order (groups_ o)).
Proof.
  intros [H1 H2 _ _ _ _ _].
  assert (Hgs : ∀ a b spectra g, groups_ o !! a = Some spectra → spectra !! b = Some g →
    fl !! {| sector := a; spectrum := b |} = Some g).
  { intros a b spectra g Ha Hb. rewrite <- (sv_locate _ _ H1). unfold locate. simpl. by rewrite Ha. }
  split.
  - intros g. rewrite groups_elem. split.
    + intros (a & b & spectra & Ha & Hb). pose proof (Hgs _ _ _ _ Ha Hb) as Hg. destruct (H2 _ _ Hg) as [-> _]. done.
    + intros Hg. rewrite <- (sv_locate _ _ H1) in Hg. unfold locate in Hg. apply bind_Some in Hg as (spectra & Ha & Hb).
      by eexists _, _, spectra.
  - apply groups_nodup. intros a b spectra g Ha Hb. by eapply H2, Hgs.
Qed.

Lemma rows_at_spec t slots (rws : list (Name * Item)) o f :
  Forall2 (λ sl row, Pages.find t sl = Some row) slots rws → rows_at t slots o f = (Done rws, o, f).
Proof.
  induction 1 as [|sl row slots rws Hrow _ IH]; [done|]. cbn [rows_at row_of]. rewrite Hrow.
  unfold bind, ret. by rewrite IH.
Qed.

(** The rows of one group, in the order of its table. *)
Definition rows_of (m : gmap Name Item) (g : Group) : list (Name * Item) :=
  omap (λ p, pair {| scope := group_scope g; key := p.1 |} <$> m !! {| scope := group_scope g; key := p.1 |}) (map_to_list (entries g)).

Lemma rows_of_elem o fl es m g n r :
  holds limits_ o fl es m → fl !! group_scope g = Some g →
  (n, r) ∈ rows_of m g ↔ m !! n = Some r ∧ scope n = group_scope g.
Proof.
  intros [_ _ H3 (rws & _ & Ht) _ _ _] Hg. unfold rows_of. rewrite list_elem_of_omap. split.
  - intros ([k sl] & _ & Hx). apply fmap_Some in Hx as (it & Hm & [= -> ->]). done.
  - intros [Hm Hs]. destruct (ti_dom _ _ _ Ht _ _ Hm) as [sl He]. rewrite H3, Hs, Hg in He. simpl in He.
    exists (key n, sl). split; [by apply elem_of_map_to_list|]. simpl. rewrite <- Hs.
    replace {| scope := scope n; key := key n |} with n by (by destruct n). by rewrite Hm.
Qed.

Lemma rows_of_nodup m g : NoDup (rows_of m g).*1.
Proof.
  unfold rows_of. pose proof (NoDup_fst_map_to_list (entries g)) as Hnd.
  induction (map_to_list (entries g)) as [|[k sl] l IH]; [constructor|]. simpl in Hnd |- *.
  apply NoDup_cons in Hnd as [Hk Hnd]. specialize (IH Hnd).
  destruct (m !! _) as [it|]; simpl; [|done]. constructor; [|done]. intros (x & Hx & Hin)%list_elem_of_fmap.
  apply list_elem_of_omap in Hin as ([k' sl'] & Hl & Hp). apply fmap_Some in Hp as (it' & _ & ->). simpl in Hx. injection Hx as ->.
  apply Hk. apply list_elem_of_fmap. by exists (k', sl').
Qed.

Lemma rows_of_found o fl es m g :
  holds limits_ o fl es m → fl !! group_scope g = Some g →
  Forall2 (λ sl row, Pages.find (tree_ o) sl = Some row) (slots_of g) (rows_of m g).
Proof.
  intros [_ _ H3 (rws & (_ & _ & F & D) & Ht) _ _ _] Hg. unfold slots_of, rows_of.
  assert (Hall : Forall (λ p, entries g !! p.1 = Some p.2) (map_to_list (entries g))).
  { apply Forall_forall. intros [k sl] Hin. by apply elem_of_map_to_list. }
  induction Hall as [|[k sl] l Hp _ IH]; [constructor|]. simpl in Hp |- *.
  assert (He : es !! {| scope := group_scope g; key := k |} = Some sl) by (rewrite H3; simpl; by rewrite Hg).
  destruct (ti_row _ _ _ Ht _ _ He) as (it & Hr & Hm). rewrite Hm. simpl. constructor; [|done].
  rewrite F; [done|]. by eapply D.
Qed.

Lemma all_rows o fl es m (gs : list Group) :
  holds limits_ o fl es m → NoDup gs → Forall (λ g, fl !! group_scope g = Some g) gs →
  Forall2 (λ sl row, Pages.find (tree_ o) sl = Some row) (g ← gs; slots_of g) (g ← gs; rows_of m g) ∧
  NoDup (g ← gs; rows_of m g).*1 ∧
  ∀ n r, (n, r) ∈ (g ← gs; rows_of m g) ↔ m !! n = Some r ∧ ∃ g, g ∈ gs ∧ scope n = group_scope g.
Proof.
  intros Hh. induction gs as [|g gs IH]; intros Hnd Hall; cbn.
  { split_and!; [constructor|constructor|]. intros n r. split; [by intros ?%elem_of_nil|]. intros (_ & g & Hg%elem_of_nil & _). done. }
  apply NoDup_cons in Hnd as [Hg Hnd]. apply Forall_cons in Hall as [Hfl Hall]. destruct (IH Hnd Hall) as (I1 & I2 & I3).
  split_and!.
  - apply Forall2_app; [by eapply rows_of_found|done].
  - rewrite fmap_app. apply NoDup_app. split_and!; [apply rows_of_nodup| |done].
    intros n ([? r] & -> & Hin)%list_elem_of_fmap ([n' r'] & Hn & Hin')%list_elem_of_fmap. simpl in Hn. subst n'.
    apply (rows_of_elem o fl es m g) in Hin as [_ Hs]; [|done|done]. apply I3 in Hin' as (_ & g' & Hg' & Hs').
    rewrite Forall_forall in Hall. pose proof (Hall _ Hg') as Hfl'. rewrite <- Hs', Hs, Hfl in Hfl'. by injection Hfl' as ->.
  - intros n r. rewrite elem_of_app, (rows_of_elem o fl es m g) by done. change (gs ≫= _) with (g ← gs; rows_of m g). rewrite I3. split.
    + intros [[? ?]|(? & g' & ? & ?)]; split; try done; eexists; split; try done; [by left|by right].
    + intros (Hm & g' & [->|Hg']%elem_of_cons & Hs); [by left|right]. split; [done|]. by exists g'.
Qed.

(** *** Sending *)
Lemma gather_spec count budget index used (h : list (Event (Item := Item))) :
  costed h → 0 <= index <= count → 0 <= used <= budget →
  match gather count budget index used h with
  | Unexpected x => x = capacity ∧ index = 0 ∧ ∃ e t, h = e :: t ∧ budget - used < event_bytes e
  | Expected l =>
      l `prefix_of` h ∧ index + Z.of_nat (length l) <= count ∧ used + heaviness l <= budget ∧
      (index + Z.of_nat (length l) < count → ∀ e, h !! length l = Some e → budget < used + heaviness l + event_bytes e) ∧
      (index = 0 → 0 < count → h ≠ [] → l ≠ [])
  end.
Proof.
  revert index used. induction h as [|e h IH]; intros index used Hc Hi Hu; cbn [gather].
  { split; [done|]. split; [simpl; lia|]. split; [simpl; lia|]. done. }
  apply Forall_cons in Hc as [He Hc]. pose proof (origin_event_cost_pos (key (event_name e)) (event_record e)) as Hpos. rewrite <- He in Hpos.
  destruct (Z.leb_spec count index).
  { split; [by exists (e :: h)|]. split; [simpl; lia|]. split; [simpl; lia|]. split; [simpl; lia|]. lia. }
  destruct (Z.ltb_spec (budget - used) (event_bytes e)).
  { destruct (Z.eqb_spec index 0); [split_and!; [done|done|by eexists _, _]|].
    split; [by exists (e :: h)|]. split; [simpl; lia|]. split; [simpl; lia|]. split; [|lia]. intros _ x [= <-]. simpl. lia. }
  specialize (IH (index + 1) (used + event_bytes e) Hc ltac:(lia) ltac:(lia)).
  destruct (gather count budget (index + 1) (used + event_bytes e) h) as [l|x]; [|lia].
  destruct IH as (I1 & I2 & I3 & I4 & _). split; [by apply prefix_cons|]. split; [simpl; lia|]. split; [simpl; lia|]. split; [|done].
  intros Hlt x Hx. simpl in *. specialize (I4 ltac:(lia) x Hx). lia.
Qed.

Lemma later_events since (h : list (Event (Item := Item))) n :
  (∀ i e, h !! i = Some e → event_position e = n + Z.of_nat i + 1) → n <= since →
  upper_bound since h = drop (Z.to_nat (since - n)) h.
Proof.
  revert n. induction h as [|e h IH]; intros n Hv Hs; simpl; [by rewrite drop_nil|].
  pose proof (Hv 0%nat e eq_refl) as He. destruct (Z.ltb_spec since (event_position e)).
  - by replace (since - n) with 0 by lia.
  - replace (Z.to_nat (since - n)) with (S (Z.to_nat (since - (n + 1)))) by lia. apply IH; [|lia].
    intros i x Hi. rewrite (Hv (S i) x Hi). lia.
Qed.

Lemma earlier_events since (h : list (Event (Item := Item))) n :
  (∀ i e, h !! i = Some e → event_position e = n + Z.of_nat i + 1) → since <= n → upper_bound since h = h.
Proof.
  intros Hv Hs. destruct h as [|e h]; [done|]. simpl. pose proof (Hv 0%nat e eq_refl).
  destruct (Z.ltb_spec since (event_position e)); [done|lia].
Qed.

(** The retained events are the last ones announced. *)
Lemma journal_tail o g :
  journal true limits_ o g →
  ∃ n, 0 <= n ∧ position_ o = n + Z.of_nat (length (history_ o)) ∧ drop (Z.to_nat n) (told g) = history_ o ∧
    (∀ i e, history_ o !! i = Some e → event_position e = n + Z.of_nat i + 1) ∧ costed (history_ o).
Proof.
  intros [_ _ J2 J3 J4 [pre J5] _ _]. exists (Z.of_nat (length pre)). split_and!; [lia| | | |].
  - rewrite J2, J5, length_app. lia.
  - rewrite Nat2Z.id, J5. by rewrite drop_app_length.
  - intros i e Hi. rewrite (J3 (length pre + i)%nat e); [lia|]. rewrite J5, lookup_app_r by lia.
    by replace (length pre + i - length pre)%nat with i by lia.
  - unfold costed in *. rewrite J5 in J4. by apply Forall_app in J4 as [_ ?].
Qed.

(** [deliver] and [replay] on a consistent source. *)
Lemma deliver_spec o w since count budget :
  agrees o w → local_ = true → 0 <= since → 0 < count → 0 < budget →
  ∃ r, deliver local_ since count budget o [] = (Done r, o, []) ∧
    match r with
    | Unexpected x =>
        (x = version_error ∧ place (log w) < since) ∨
        (x = capacity ∧ ∃ e, told (log w) !! Z.to_nat since = Some e ∧ budget < event_bytes e)
    | Expected d =>
        since <= place (log w) ∧ head d = place (log w) ∧
        match baseline d with
        | Some v => events d = [] ∧ since < place (log w) - Z.of_nat (length (history_ o)) ∧ capture o [] = (Done v, o, [])
        | None =>
            events d `prefix_of` drop (Z.to_nat since) (told (log w)) ∧
            (since < place (log w) → events d ≠ []) ∧
            Z.of_nat (length (events d)) <= count ∧ heaviness (events d) <= budget
        end
    end.
Proof.
  intros (Hi & Hj & _) Hl Hs Hc Hb. rewrite Hl in Hj. pose proof (jo_place _ _ _ _ Hj) as Hplace. rewrite <- Hplace.
  destruct (journal_tail o _ Hj) as (n & Hn & Hp & Hd & Ho & Hco).
  unfold deliver, capture, idle, gets. unfold bind, read, ret. cbn. rewrite Hi, Hl. cbn.
  destruct (Z.eqb_spec count 0); [lia|]. destruct (Z.eqb_spec budget 0); [lia|]. cbn.
  destruct (Z.ltb_spec (position_ o) since); [eexists; split; [done|]; by left|].
  destruct (Z.eqb_spec since (position_ o)) as [->|Hne].
  { eexists. split; [done|]. cbn. split; [lia|]. split; [done|]. split; [apply prefix_nil|]. lia. }
  destruct (Z.lt_ge_cases since n) as [Hlt|Hge].
  - rewrite (earlier_events since _ n Ho) by lia. eassert (match history_ o with e :: _ => _ | [] => true end = true) as ->.
    { destruct (history_ o) as [|e h] eqn:E; [done|]. rewrite (Ho 0%nat e eq_refl). apply negb_true_iff, Z.eqb_neq. lia. }
    rewrite Hi. eexists. split; [done|]. cbn. split; [lia|]. split; [done|]. split; [done|]. split; [lia|done].
  - rewrite (later_events since _ n Ho) by lia. set (tail := drop (Z.to_nat (since - n)) (history_ o)).
    assert (Htail : tail = drop (Z.to_nat since) (told (log w))).
    { unfold tail. rewrite <- Hd, drop_drop. f_equal. lia. }
    assert (Hlen : (Z.to_nat (since - n) < length (history_ o))%nat) by lia.
    destruct (lookup_lt_is_Some_2 _ _ Hlen) as [e He]. pose proof (drop_S _ _ _ He) as Hsplit. fold tail in Hsplit.
    rewrite Hsplit, (Ho _ _ He), Z2Nat.id by lia. replace (n + (since - n) + 1 - 1) with since by lia. rewrite Z.eqb_refl. cbn [negb].
    rewrite <- Hsplit. assert (Hct : costed tail) by (unfold costed, tail in *; by apply Forall_drop).
    pose proof (gather_spec count budget 0 0 tail Hct ltac:(lia) ltac:(lia)) as Hg.
    destruct (gather count budget 0 0 tail) as [l|x].
    + destruct Hg as (G1 & G2 & G3 & _ & G5). eexists. split; [done|]. cbn. rewrite <- Htail. split; [lia|]. split; [done|].
      split; [done|]. split; [|lia]. intros _. apply G5; [done|lia|]. by rewrite Hsplit.
    + destruct Hg as (-> & _ & e' & t & Ht & Hbig). eexists. split; [done|]. right. split; [done|]. exists e'. split; [|lia].
      rewrite Htail in Ht. pose proof (lookup_drop (told (log w)) (Z.to_nat since) 0) as Hx. rewrite Ht, Nat.add_0_r in Hx. by symmetry.
Qed.

Lemma replay_holds o w since f :
  agrees o w → local_ = true → 0 <= since →
  ∃ r, replay since o f = (Done r, o, f) ∧
    match r with
    | Expected evs => since <= place (log w) ∧ evs = drop (Z.to_nat since) (told (log w))
    | Unexpected x =>
        (x = version_error ∧ place (log w) < since) ∨
        (x = history_error ∧ since < place (log w) - Z.of_nat (length (history_ o)))
    end.
Proof.
  intros (Hi & Hj & _) Hl Hs. rewrite Hl in Hj. pose proof (jo_place _ _ _ _ Hj) as Hplace. rewrite <- Hplace.
  destruct (journal_tail o _ Hj) as (n & Hn & Hp & Hd & Ho & Hco). pose proof (jo_count _ _ _ _ Hj) as Hcount. cbn in Hcount.
  unfold replay, idle, bind, read, ret. cbn. rewrite Hi.
  destruct (Z.ltb_spec (position_ o) since); [eexists; split; [done|]; by left|].
  destruct (Z.eqb_spec since (position_ o)) as [->|Hne].
  { eexists. split; [done|]. split; [done|]. rewrite Hcount, Nat2Z.id. by rewrite drop_all. }
  destruct (history_ o) as [|e h] eqn:Eh; [eexists; split; [done|]; right; split; [done|]; simpl in *; lia|].
  pose proof (Ho 0%nat e eq_refl) as He. destruct (Z.ltb_spec since (event_position e - 1)).
  { eexists. split; [done|]. right. split; [done|]. lia. }
  rewrite (later_events since (e :: h) n Ho) by lia.
  assert (Hdrop : drop (Z.to_nat (since - n)) (e :: h) = drop (Z.to_nat since) (told (log w))).
  { rewrite <- Hd, drop_drop. f_equal. lia. }
  rewrite Hdrop. destruct (drop (Z.to_nat since) (told (log w))) as [|x suffix] eqn:Ed; [|by eexists].
  exfalso. assert (Hlen : length (drop (Z.to_nat since) (told (log w))) = 0%nat) by (by rewrite Ed).
  rewrite length_drop in Hlen. lia.
Qed.

Context (o0 : Origin (Item := Item)) (ops : list (operation * circumstances)).
Context (made : make limits_ = Done o0) (sanity : Forall (λ op, sane op.1) ops).

(** C27. A source refines a map of named records at a position.  Whatever is
    prepared, revised, published, abandoned, merged, restored or confirmed, with
    pages shared by live views and any allocation failing: what [find] returns, the
    rows of a captured view and the position are those of the published facts
    alone; the record, byte, scope and directory accounts are exact, and all four
    limits hold. *)
Theorem origin_refines :
  let '(o, w) := foldl step (o0, vacuum) ops in
  position_ o = place (log w) ∧
  (∀ sc k f, find sc k o f = (Done (rows w !! {| scope := sc; key := k |}), o, f)) ∧
  (∀ f, ∃ v stored, capture o f = (Done v, o, f) ∧ represents (view_root v) stored ∧
     (∀ n r, (∃ sl, stored !! sl = Some (n, r)) ↔ rows w !! n = Some r) ∧
     view_size v = Z.of_nat (size (rows w)) ∧ view_position v = place (log w)) ∧
  records_ o = Z.of_nat (size (rows w)) ∧ records_ o <= records limits_ ∧
  scopes_ o = Z.of_nat (size (scopes_in (rows w))) ∧ scopes_ o <= scopes limits_ ∧
  bytes_ o = content_bytes (rows w) ∧ directory_ o = scope_bytes (scopes_in (rows w)) ∧
  bytes_ o + directory_ o <= bytes limits_.
Proof.
  pose proof (origin_run_ok o0 ops made sanity) as Hok. destruct (foldl step (o0, vacuum) ops) as [o w]. cbn [fst snd] in Hok.
  pose proof Hok as (Hi & Hj & fl & es & Hh). pose proof (holds_scopes _ _ _ _ Hh) as Hdom.
  pose proof Hh as [H1 H2 H3 (stored & Hrep & Ht) [H5 H5'] [H6 H6'] H7]. split_and!; try done.
  - apply Hj.
  - intros sc k f. by eapply find_holds.
  - intros f. eexists _, stored. unfold capture, idle, bind, read, ret, gets. cbn.
    rewrite Hi. split_and!; [done|done| |destruct Hrep as (_ & -> & _)|apply Hj].
    + intros n r. split.
      * intros (sl & Hr). pose proof (ti_entry _ _ _ Ht _ _ _ Hr) as Hk.
        destruct (ti_row _ _ _ Ht _ _ Hk) as (it & Hr' & ->). congruence.
      * intros Hm. destruct (ti_dom _ _ _ Ht _ _ Hm) as [sl Hk].
        destruct (ti_row _ _ _ Ht _ _ Hk) as (it & Hr & Hm'). exists sl. congruence.
    + cbn. f_equal. by eapply tied_rows.
  - rewrite (sv_scopes _ _ H1), <- Hdom. by rewrite size_dom.
  - rewrite (sv_directory _ _ H1). apply shelf_bytes_dom. by rewrite dom_gset_to_gmap.
Qed.

(** Enumeration.  [scopes] lists every scope that has a record and no other,
    once; [each] over a scope hands out its records and no other, once each; and
    [each] over the source hands out all of them. *)
Theorem origin_enumerates :
  let '(o, w) := foldl step (o0, vacuum) ops in
  (∃ l, all_scopes o [] = (Done l, o, []) ∧ NoDup l ∧ ∀ sc, sc ∈ l ↔ sc ∈ scopes_in (rows w)) ∧
  (∀ sc f, ∃ l, each_in sc o f = (Done l, o, f) ∧ NoDup l.*1 ∧
     ∀ n r, (n, r) ∈ l ↔ rows w !! n = Some r ∧ scope n = sc) ∧
  (∀ f, ∃ l, each o f = (Done l, o, f) ∧ l ≡ₚ map_to_list (rows w)).
Proof.
  pose proof (origin_run_ok o0 ops made sanity) as Hok. destruct (foldl step (o0, vacuum) ops) as [o w]. cbn [fst snd] in Hok.
  pose proof Hok as (Hi & Hj & fl & es & Hh). pose proof (holds_scopes _ _ _ _ Hh) as Hdom.
  destruct (holds_groups _ _ _ _ Hh) as [Hgs Hnd]. pose proof Hh as [H1 H2 _ _ _ _ _]. split_and!.
  - eexists. unfold all_scopes, idle, bind, read, ret, gets, alloc. cbn. rewrite Hi. split; [done|]. split.
    + apply NoDup_fmap_2_strong; [|done]. intros g1 g2 E1%Hgs E2%Hgs Heq. rewrite Heq, E2 in E1. by injection E1.
    + intros sc. rewrite <- Hdom, elem_of_dom, list_elem_of_fmap. split.
      * intros (g & -> & Hg%Hgs). by eexists.
      * intros [g Hg]. exists g. destruct (H2 _ _ Hg) as [Hs _]. split; [done|]. apply Hgs. by rewrite Hs.
  - intros sc f. unfold each_in, idle, bind, read, ret. cbn. rewrite Hi, (sv_locate _ _ H1).
    destruct (fl !! sc) as [g|] eqn:Hg.
    + destruct (H2 _ _ Hg) as [Hs _]. rewrite <- Hs in Hg. exists (rows_of (rows w) g). split_and!.
      * apply rows_at_spec. by eapply rows_of_found.
      * apply rows_of_nodup.
      * intros n r. rewrite (rows_of_elem o fl es) by done. by rewrite Hs.
    + exists []. split_and!; [done|constructor|]. intros n r. split; [by intros ?%elem_of_nil|]. intros [Hm <-].
      apply not_elem_of_dom in Hg. rewrite Hdom in Hg. exfalso. by eapply Hg, in_scopes.
  - intros f. unfold each, idle, bind, read, ret. cbn. rewrite Hi.
    destruct (all_rows o fl es (rows w) (groups_in_order (groups_ o)) Hh Hnd) as (A1 & A2 & A3).
    { apply Forall_forall. intros g Hg. by apply Hgs. }
    eexists. split; [by apply rows_at_spec|]. apply NoDup_Permutation; [by eapply NoDup_fmap_1|apply NoDup_map_to_list|].
    intros [n r]. rewrite A3, elem_of_map_to_list. split; [by intros []|]. intros Hm. split; [done|].
    assert (Hsc : scope n ∈ dom fl) by (rewrite Hdom; by eapply in_scopes).
    apply elem_of_dom in Hsc as [g Hg]. destruct (H2 _ _ Hg) as [Hs _]. exists g. split; [|done]. apply Hgs. by rewrite Hs.
Qed.

(** The sending contract of a Star's own source.  Asked for what follows a
    position, [deliver] answers with a non-empty run of exactly the next announced
    events within the requested count and bytes, with the whole contents when the
    history no longer reaches back, with nothing when the peer is up to date, or
    refuses a position in the future or a first event that does not fit.  [replay]
    returns exactly the later events or refuses.  Events of abandoned edits never
    appear, and no event is skipped. *)
Theorem origin_delivers (since count budget : Z) :
  local_ = true → 0 <= since → 0 < count → 0 < budget →
  let '(o, w) := foldl step (o0, vacuum) ops in
  (∃ r, deliver local_ since count budget o [] = (Done r, o, []) ∧
    match r with
    | Unexpected x =>
        (x = version_error ∧ place (log w) < since) ∨
        (x = capacity ∧ ∃ e, told (log w) !! Z.to_nat since = Some e ∧ budget < event_bytes e)
    | Expected d =>
        since <= place (log w) ∧ head d = place (log w) ∧
        match baseline d with
        | Some v => events d = [] ∧ since < place (log w) - Z.of_nat (length (history_ o)) ∧ capture o [] = (Done v, o, [])
        | None =>
            events d `prefix_of` drop (Z.to_nat since) (told (log w)) ∧
            (since < place (log w) → events d ≠ []) ∧
            Z.of_nat (length (events d)) <= count ∧ heaviness (events d) <= budget
        end
    end) ∧
  (∃ r, replay since o [] = (Done r, o, []) ∧
    match r with
    | Expected evs => since <= place (log w) ∧ evs = drop (Z.to_nat since) (told (log w))
    | Unexpected x =>
        (x = version_error ∧ place (log w) < since) ∨
        (x = history_error ∧ since < place (log w) - Z.of_nat (length (history_ o)))
    end) ∧
  Z.of_nat (length (history_ o)) <= history limits_ ∧ heaviness (history_ o) <= backlog limits_.
Proof.
  intros Hl Hs Hc Hb. pose proof (origin_run_ok o0 ops made sanity) as Hok.
  destruct (foldl step (o0, vacuum) ops) as [o w]. cbn [fst snd] in Hok.
  split; [by apply deliver_spec|]. split; [by apply replay_holds|].
  destruct Hok as (_ & [_ _ _ _ _ _ J6 [J7 J8]] & _). split; [done|]. by rewrite <- J6.
Qed.
End histories.

Module Sample.
Local Open Scope string_scope.

#[local] Instance buffers : Layout Buffer.
Proof.
  refine {| measure := λ b, Z.min (buffer_size b) u64_max; sizeof_event := 96; sizeof_name := 40; sizeof_item := 24 |}.
  - intros b. unfold buffer_size, u64_max. lia.
  - lia.
Defined.

Definition limits : Limits :=
  {| records := 3; scopes := 2; bytes := 4000; history := 2; backlog := 1000; retention := 600 |}.

Lemma origin_limits_fine : limits_ok limits.
Proof. split; cbn; unfold u64_max; lia. Qed.

Definition calm : circumstances := {| sharing := λ _, false; script := [] |}.
Definition east : Scope := {| sector := "east"; spectrum := "a" |}.
Definition west : Scope := {| sector := "west"; spectrum := "a" |}.
Definition byte : Buffer := [Byte.x2a].

(** The Star's own source: three numbered facts, one revised before it is
    published, one abandoned, a removal, and an unnumbered clean-up. *)
Definition own : list (operation (Item := Buffer) * circumstances) :=
  [(Change east "k" (Some byte) (Some 1) 0 form_record None true, calm);
   (Change west "k" (Some byte) (Some 2) 1 form_record (Some [Byte.x2b]) true, calm);
   (Change west "j" (Some byte) (Some 3) 2 form_record None false, calm);
   (Change west "j" (Some byte) (Some 3) 2 form_record None true, {| sharing := λ _, false; script := [false; true] |});
   (Change east "k" None (Some 3) 3 form_erase None true, calm);
   (Change west "k" None None 4 form_record None true, calm)].

Lemma own_sane : Forall (λ op, sane (Item := Buffer) op.1) own.
Proof. repeat (apply Forall_cons_2; [by vm_compute|]). by apply Forall_nil_2. Qed.

(** Another Star's source: a baseline, a merge that empties one scope and opens
    another, a merge cut by a failed allocation, and a confirmed position. *)
Definition other : list (operation (Item := Buffer) * circumstances) :=
  [(Restore limits 7 [(east, "a", byte, 0); (west, "b", byte, 0)] true, calm);
   (Merge [Remove east "a"; Upsert west "c" byte] true, calm);
   (Merge [Upsert east "d" byte] true, {| sharing := λ _, false; script := [false; false; false; false; true] |});
   (Confirm 9, calm)].

Lemma other_sane : Forall (λ op, sane (Item := Buffer) op.1) other.
Proof.
  apply Forall_cons_2; [split; [done|apply origin_limits_fine]|]. repeat (apply Forall_cons_2; [done|]). by apply Forall_nil_2.
Qed.

Example own_run :
  let '(o, w) := foldl (step false true limits) (blank, vacuum) own in
  position_ o = 3 ∧ length (history_ o) = 2%nat ∧ scopes_ o = 0 ∧ event_record <$> told (log w) = [Some byte; Some [Byte.x2b]; None].
Proof. by vm_compute. Qed.

Example other_run :
  let '(o, w) := foldl (step false false limits) (blank, vacuum) other in
  position_ o = 9 ∧ scopes_ o = 1 ∧ records_ o = 2 ∧ rows w !! {| scope := west; key := "c" |} = Some byte ∧
  rows w !! {| scope := east; key := "d" |} = None.
Proof. by vm_compute. Qed.

Lemma origin_refines_witness :
  let '(o, w) := foldl (step false false limits) (blank, vacuum) other in
  position_ o = place (log w) ∧ records_ o = Z.of_nat (size (rows w)).
Proof.
  pose proof (origin_refines false false limits origin_limits_fine blank other eq_refl other_sane) as H.
  destruct (foldl (step false false limits) (blank, vacuum) other) as [o w]. destruct H as (H1 & _ & _ & H2 & _). exact (conj H1 H2).
Defined.

Lemma origin_enumerates_witness :
  let '(o, w) := foldl (step false false limits) (blank, vacuum) other in
  ∃ l, all_scopes o [] = (Done l, o, []) ∧ NoDup l ∧ ∀ sc, sc ∈ l ↔ sc ∈ scopes_in (rows w).
Proof.
  pose proof (origin_enumerates false false limits origin_limits_fine blank other eq_refl other_sane) as H.
  destruct (foldl (step false false limits) (blank, vacuum) other) as [o w]. exact (proj1 H).
Defined.

Lemma origin_delivers_witness :
  let '(o, w) := foldl (step false true limits) (blank, vacuum) own in
  ∃ r, replay 1 o [] = (Done r, o, []) ∧
    match r with
    | Expected evs => 1 <= place (log w) ∧ evs = drop (Z.to_nat 1) (told (log w))
    | Unexpected x =>
        (x = version_error ∧ place (log w) < 1) ∨
        (x = history_error ∧ 1 < place (log w) - Z.of_nat (length (history_ o)))
    end.
Proof.
  pose proof (origin_delivers false true limits origin_limits_fine blank own eq_refl own_sane 1 5 400 eq_refl ltac:(lia) ltac:(lia) ltac:(lia)) as H.
  destruct (foldl (step false true limits) (blank, vacuum) own) as [o w]. exact (proj1 (proj2 H)).
Defined.
End Sample.
