(* ===== verification/Stage.v ===== *)
(** The public projections of all scopes: what [catalog_state.cpp] and
    [ephemeris_state.cpp] keep in [scenes_], [scopes_] and [history_], with the calls
    of [notify_].

    A scope gets its [Scene] with the first write and keeps it, so that positions are
    never used twice; all scopes share one budget for the history they retain.  The
    directory is two nested maps, Sector then Spectrum, without empty Sectors. *)
From stdpp Require Import base numbers strings gmap list.
From S2P Require Import Prelude.
From S2P Require Import Scope.
From S2P Require Import Index.
From S2P Require Import Scene.

(** ** Nested directories *)
Section nested.
Context {V : Type}.
Implicit Types (d : gmap string (gmap string V)) (fl : gmap Scope V).

Definition locate d (sc : Scope) : option V := d !! sector sc ≫= λ spectra, spectra !! spectrum sc.
Definition place (sc : Scope) (v : V) d : gmap string (gmap string V) :=
  <[sector sc := <[spectrum sc := v]> (default ∅ (d !! sector sc))]> d.
Definition vacate (sc : Scope) d : gmap string (gmap string V) :=
  match d !! sector sc with
  | Some spectra =>
      let spectra := delete (spectrum sc) spectra in
      if bool_decide (spectra = ∅) then delete (sector sc) d else <[sector sc := spectra]> d
  | None => d
  end.

(** The directory as one map over scopes. *)
Definition flat d fl : Prop := (∀ sc, locate d sc = fl !! sc) ∧ ∀ s spectra, d !! s = Some spectra → spectra ≠ ∅.

Lemma locate_place sc v d sc' : locate (place sc v d) sc' = if decide (sc' = sc) then Some v else locate d sc'.
Proof.
  unfold locate, place. destruct (decide (sector sc' = sector sc)) as [E|E].
  - rewrite E, lookup_insert_eq. simpl. case_decide as E2; [subst; by rewrite lookup_insert_eq|].
    rewrite lookup_insert_ne by (destruct sc, sc'; simpl in *; congruence). by destruct (d !! sector sc).
  - rewrite lookup_insert_ne by done. by rewrite decide_False by (by intros ->).
Qed.

Lemma flat_place sc v d fl : flat d fl → flat (place sc v d) (<[sc := v]> fl).
Proof.
  intros [F1 F2]. split.
  - intros sc'. rewrite locate_place. case_decide as E; [subst; by rewrite lookup_insert_eq|by rewrite lookup_insert_ne].
  - intros s spectra. unfold place. rewrite lookup_insert_Some. intros [[_ <-]|[_ ?]]; [apply insert_non_empty|by eapply F2].
Qed.

Lemma locate_vacate sc d sc' : locate (vacate sc d) sc' = if decide (sc' = sc) then None else locate d sc'.
Proof.
  unfold locate, vacate. destruct (d !! sector sc) as [spectra|] eqn:Ed.
  2: { case_decide as E; [subst; by rewrite Ed|done]. }
  destruct (decide (sector sc' = sector sc)) as [E|E].
  - rewrite E, Ed. simpl. case_decide as E2.
    + subst. case_bool_decide as Hb; [by rewrite lookup_delete_eq|by rewrite lookup_insert_eq; simpl; rewrite lookup_delete_eq].
    + assert (spectrum sc ≠ spectrum sc') by (destruct sc, sc'; simpl in *; congruence).
      case_bool_decide as Hb; [|by rewrite lookup_insert_eq; simpl; rewrite lookup_delete_ne].
      rewrite lookup_delete_eq. simpl. by rewrite <- (lookup_delete_ne spectra (spectrum sc)), Hb, lookup_empty by done.
  - rewrite decide_False by (by intros ->). case_bool_decide; [by rewrite lookup_delete_ne|by rewrite lookup_insert_ne].
Qed.

Lemma flat_vacate sc d fl : flat d fl → flat (vacate sc d) (delete sc fl).
Proof.
  intros [F1 F2]. split.
  - intros sc'. rewrite locate_vacate. case_decide as E; [subst; by rewrite lookup_delete_eq|by rewrite lookup_delete_ne].
  - intros s spectra. unfold vacate. destruct (d !! sector sc) as [sp|] eqn:Ed; [|by apply F2].
    case_bool_decide as Hb; [intros [_ ?]%lookup_delete_Some; by eapply F2|].
    rewrite lookup_insert_Some. intros [[_ <-]|[_ ?]]; [done|by eapply F2].
Qed.
End nested.

Section stage.
Context {Item : Type} {layout : Layout Item} (limits_ : Scene.Limits) (scopes_limit history_limit : Z).
Abbreviation Projection := (Scene (Item := Item)).

(** [notices] is what [notify_] has been called with. *)
Record Stage := {
  scenes_ : gmap string (gmap string Projection);
  scopes_ : Z;
  history_ : Z;
  notices : list (Scope * Event (Item := Item))
}.

Definition set_scenes (d : gmap string (gmap string Projection)) (n : Z) (st : Stage) : Stage :=
  {| scenes_ := d; scopes_ := n; history_ := history_ st; notices := notices st |}.
Definition on_directory (f : gmap string (gmap string Projection) → gmap string (gmap string Projection)) (st : Stage) : Stage :=
  set_scenes (f (scenes_ st)) (scopes_ st) st.

(** [State::locate]. *)
Definition scene_at (sc : Scope) (st : Stage) : option Projection := locate (scenes_ st) sc.

Inductive obtained := Obtained | Bad_scope | Full.

(** [State::obtain]; the pointer it returns is the scope. *)
Definition obtain (sc : Scope) : eff Stage obtained :=
  if negb (Scope.valid sc) then ret Bad_scope
  else
    st <- read ;;
    match scene_at sc st with
    | Some _ => ret Obtained
    | None =>
        if scopes_ st =? scopes_limit then ret Full
        else
          let created := bool_decide (scenes_ st !! sector sc = None) in
          (if created then alloc ;;; modify (on_directory (λ d, <[sector sc := ∅]> d)) else ret tt) ;;;
          on_throw
            (alloc ;;;
             v <- lift (Scene.make limits_) ;;
             modify (λ st, set_scenes (place sc v (scenes_ st)) (scopes_ st + 1) st))
            (if created then modify (on_directory (λ d, delete (sector sc) d)) else ret tt) ;;;
          ret Obtained
    end.

(** The part of [~Pending] that removes a scope made for a write that failed. *)
Definition withdraw (sc : Scope) (st : Stage) : Stage :=
  set_scenes (vacate sc (scenes_ st)) (scopes_ st - 1) st.

(** Code on one scene through its pointer. *)
Definition on_scene {A} (sc : Scope) (m : eff Projection A) : eff Stage A :=
  λ st f,
    match scene_at sc st with
    | Some v => let '(r, v', f') := m v f in (r, on_directory (place sc v') st, f')
    | None => (Thrown logic_error, st, f)
    end.
Definition touch_scene (sc : Scope) (g : Projection → Projection) (st : Stage) : Stage :=
  match scene_at sc st with Some v => on_directory (place sc (g v)) st | None => st end.

(** [State::allowance]. *)
Definition allowance (sc : Scope) : eff Stage Z :=
  h <- on_scene sc history_bytes ;; st <- read ;; ret (wrap64 (history_limit - wrap64 (history_ st - h))).

(** [State::publish] of a committed change. *)
Definition announce (sc : Scope) (before : Z) (ev : Event) (st : Stage) : Stage :=
  {| scenes_ := scenes_ st; scopes_ := scopes_ st;
     history_ := wrap64 (wrap64 (history_ st - before) + match scene_at sc st with Some v => backlog_ v | None => 0 end);
     notices := notices st ++ [(sc, ev)] |}.

(** [Edit::commit] of a projection and [State::publish]. *)
Definition release (sc : Scope) (before : Z) (e : Edit) (st : Stage) : Stage :=
  announce sc before (event e) (touch_scene sc (commit e) st).

(** ** What the stage shows *)
Definition told (sc : Scope) (ns : list (Scope * Event (Item := Item))) : list Event :=
  snd <$> filter (λ n, n.1 = sc) ns.

(** [c] gives what every scope shows. *)
Record stage_ok (st : Stage) (c : Scope → string → option Item) : Prop := {
  sg_flat : ∃ fl, flat (scenes_ st) fl ∧ scopes_ st = Z.of_nat (size fl) ∧
    history_ st = map_sum (λ _ v, backlog_ v) fl;
  sg_scopes : scopes_ st <= scopes_limit;
  sg_history : 0 <= history_ st <= history_limit;
  sg_scene : ∀ sc v, scene_at sc st = Some v → scene_ok limits_ v (told sc (notices st));
  sg_shows : ∀ sc k, shown (told sc (notices st)) !! k = c sc k;
  sg_silent : ∀ sc, scene_at sc st = None → told sc (notices st) = []
}.

(** What every scope shows after one change. *)
Definition amend (sc : Scope) (k : string) (x : option Item) (c : Scope → string → option Item) : Scope → string → option Item :=
  λ sc' k', if decide (sc' = sc ∧ k' = k) then x else c sc' k'.

Record stage_limits : Prop := {
  sl_scene : limits_ok limits_;
  sl_retention : 0 <= retention limits_;
  sl_scopes : 0 <= scopes_limit;
  sl_history : 0 <= history_limit <= u64_max
}.
Context (HL : stage_limits).

Lemma told_snoc sc ns n : told sc (ns ++ [n]) = if decide (n.1 = sc) then told sc ns ++ [n.2] else told sc ns.
Proof.
  unfold told. rewrite filter_app, fmap_app. destruct (decide (n.1 = sc)) as [E|E].
  - by rewrite filter_cons_True.
  - by rewrite filter_cons_False, app_nil_r.
Qed.

Lemma stage_ext st c c' : (∀ sc k, c' sc k = c sc k) → stage_ok st c → stage_ok st c'.
Proof. intros Heq []. split; try done. intros sc k. by rewrite Heq. Qed.

(** Replacing one scene by another. *)
Lemma stage_replace st c sc v v' :
  stage_ok st c → scene_at sc st = Some v → scene_ok limits_ v' (told sc (notices st)) → backlog_ v' = backlog_ v →
  stage_ok (on_directory (place sc v') st) c.
Proof.
  intros [(fl & F1 & F2 & F3) S2 S3 S4 S5 S6] Hv Hv' Hb. pose proof (proj1 F1 sc) as Hf. unfold scene_at in Hv. rewrite Hv in Hf.
  split; cbn; try done.
  - exists (<[sc := v']> fl). split_and!; [by apply flat_place|by rewrite map_size_insert, <- Hf|].
    rewrite (map_sum_insert _ _ _ v) by done. rewrite F3, Hb. lia.
  - intros sc' x. unfold scene_at. cbn. rewrite locate_place. case_decide as E; [intros [= <-]; by subst|apply S4].
  - intros sc'. unfold scene_at. cbn. rewrite locate_place. case_decide; [done|apply S6].
Qed.

Lemma withdraw_ok st c sc v :
  stage_ok st c → scene_at sc st = Some v → told sc (notices st) = [] → stage_ok (withdraw sc st) c.
Proof.
  intros [(fl & F1 & F2 & F3) S2 S3 S4 S5 S6] Hv Ht. pose proof (proj1 F1 sc) as Hf. unfold scene_at in Hv.
  pose proof (S4 sc v Hv) as Hok. rewrite Ht in Hok.
  assert (Hb : backlog_ v = 0).
  { rewrite (so_backlog _ _ _ Hok). destruct (so_log _ _ _ Hok) as [_ _ _ [pre Hpre]].
    by destruct (Scene.history_ v), pre. }
  split; cbn; try done.
  - exists (delete sc fl). rewrite Hv in Hf. split_and!; [by apply flat_vacate| |].
    + rewrite map_size_delete, <- Hf. simpl. assert (size fl ≠ 0)%nat; [|lia].
      eapply map_size_ne_0_lookup_2. rewrite <- Hf. by eexists.
    + rewrite F3, (map_sum_delete _ _ sc v) by done. lia.
  - lia.
  - intros sc' x. unfold scene_at. cbn. rewrite locate_vacate. case_decide; [done|apply S4].
  - intros sc'. unfold scene_at. cbn. rewrite locate_vacate. case_decide as E; [intros _; by subst|apply S6].
Qed.

Lemma make_scene_ok v : Scene.make limits_ = Done v → scene_ok limits_ v [] ∧ backlog_ v = 0.
Proof.
  intros Hv. pose proof (scene_run_ok limits_ (sl_scene HL) v [] Hv (Forall_nil_2 _)) as Hok. split; [done|].
  unfold Scene.make in Hv. destruct (_ <? _); [done|]. by injection Hv as <-.
Qed.

(** A new scope is empty and can be withdrawn. *)
Lemma obtain_stage_wp st c sc :
  stage_ok st c →
  wp Faulty (obtain sc)
    (λ r st', match r with
              | Obtained =>
                  stage_ok st' c ∧ notices st' = notices st ∧ is_Some (scene_at sc st') ∧
                  if decide (is_Some (scene_at sc st)) then st' = st
                  else scopes_ st' = scopes_ st + 1 ∧ told sc (notices st) = []
              | _ => st' = st
              end)
    (λ e st', e = bad_alloc ∧ st' = st) st.
Proof.
  intros Hok. unfold obtain. apply wp_if; intros _; [by wp_step|]. wp_step. wp_step.
  destruct (scene_at sc st) as [v|] eqn:Ev.
  { wp_step. by rewrite Ev. }
  apply wp_if; intros Es; [by wp_step|]. apply Z.eqb_neq in Es.
  destruct (Scene.make limits_) as [v|e] eqn:Em.
  2: { exfalso. unfold Scene.make in Em. destruct (Z.ltb_spec (retention limits_) 0); [|done]. pose proof (sl_retention HL). lia. }
  destruct (make_scene_ok v Em) as [Hv Hb].
  set (created := bool_decide _).
  assert (Hfinal : ∀ st1, (created = true → st1 = on_directory (λ d, <[sector sc := ∅]> d) st) → (created = false → st1 = st) →
    place sc v (scenes_ st1) = place sc v (scenes_ st) ∧ scopes_ st1 = scopes_ st ∧ history_ st1 = history_ st ∧ notices st1 = notices st).
  { intros st1 H1 H2. destruct created eqn:Ec.
    - rewrite H1 by done. split_and!; try done. cbn. unfold place. rewrite lookup_insert_eq. simpl. rewrite insert_insert_eq.
      unfold created in Ec. apply bool_decide_eq_true in Ec. by rewrite Ec.
    - by rewrite H2. }
  assert (Hback : ∀ st1, (created = true → st1 = on_directory (λ d, <[sector sc := ∅]> d) st) → (created = false → st1 = st) →
    wp Faulty (if created then modify (on_directory (λ d, delete (sector sc) d)) else ret tt)
      (λ _ st', bad_alloc = bad_alloc ∧ st' = st) (λ e st', e = bad_alloc ∧ st' = st) st1).
  { intros st1 H1 H2. destruct created eqn:Ec; wp_step; (split; [done|]); [|by apply H2]. rewrite H1 by done.
    unfold created in Ec. apply bool_decide_eq_true in Ec. destruct st; cbn in *. unfold on_directory, set_scenes. cbn.
    by rewrite delete_insert_id. }
  wp_step. apply wp_mono with (Q := λ _ st1, (created = true → st1 = on_directory (λ d, <[sector sc := ∅]> d) st) ∧
    (created = false → st1 = st)) (E := λ e st', e = bad_alloc ∧ st' = st); [| |done].
  { destruct created; repeat wp_step; done. }
  intros _ st1 [H1 H2]. wp_step. wp_step. wp_step. wp_step; [|by apply Hback]. wp_step. wp_step. wp_step. wp_step.
  destruct (Hfinal st1 H1 H2) as (P1 & P2 & P3 & P4). rewrite P1, P2.
  destruct Hok as [(fl & F1 & F2 & F3) S2 S3 S4 S5 S6]. pose proof (S6 sc Ev) as Hsil.
  assert (Hnone : fl !! sc = None) by (rewrite <- (proj1 F1 sc); exact Ev).
  assert (Hat : ∀ sc', scene_at sc' (set_scenes (place sc v (scenes_ st)) (scopes_ st + 1) st1) =
    if decide (sc' = sc) then Some v else scene_at sc' st) by (intros sc'; apply locate_place).
  split_and!; try done.
  - split; cbn [set_scenes scopes_ history_ notices scenes_]; rewrite ?P3, ?P4; try done.
    + exists (<[sc := v]> fl). split_and!; [by apply flat_place|rewrite map_size_insert, Hnone, F2; simpl; lia|].
      rewrite map_sum_insert_new, Hb by done. lia.
    + lia.
    + intros sc' x. rewrite Hat. case_decide as E; [intros [= <-]; subst; by rewrite Hsil|apply S4].
    + intros sc'. rewrite Hat. case_decide; [done|apply S6].
  - rewrite Hat, decide_True by done. by eexists.
Qed.

(** ** One change of one scene *)
Lemma on_scene_wp {A} sc (m : eff Projection A) (Q : A → Stage → Prop) E st v :
  scene_at sc st = Some v →
  wp Faulty m (λ a v', Q a (on_directory (place sc v') st)) (λ e v', E e (on_directory (place sc v') st)) v →
  wp Faulty (on_scene sc m) Q E st.
Proof.
  intros Hv Hm f Hf. specialize (Hm f Hf). unfold on_scene. rewrite Hv. by destruct (m v f) as [[[a|e] v'] f'].
Qed.

Lemma place_same sc v st : scene_at sc st = Some v → on_directory (place sc v) st = st.
Proof.
  intros Hv. destruct st as [d n h ns]. unfold on_directory, set_scenes, scene_at, locate, place in *. cbn in *. f_equal.
  destruct (d !! sector sc) as [spectra|] eqn:Ed; [|done]. simpl in *. rewrite insert_id; [done|].
  by rewrite insert_id.
Qed.

Lemma backlog_bound st c sc v : stage_ok st c → scene_at sc st = Some v → 0 <= backlog_ v <= history_ st.
Proof.
  intros [(fl & F1 & F2 & F3) S2 S3 S4 S5 S6] Hv. rewrite F3. apply (map_sum_member (λ _ v, backlog_ v) fl sc v).
  - intros sc' x Hx. rewrite <- (proj1 F1 sc') in Hx. pose proof (S4 sc' x Hx) as Hok. rewrite (so_backlog _ _ _ Hok).
    eapply heaviness_nonneg, chronicle_costed, Hok.
  - rewrite <- (proj1 F1 sc). exact Hv.
Qed.

Lemma allowance_wp st c sc v (Q : Z → Stage → Prop) E :
  stage_ok st c → scene_at sc st = Some v → Q (history_limit - (history_ st - backlog_ v)) st →
  wp Faulty (allowance sc) Q E st.
Proof.
  intros Hok Hv HQ. pose proof (backlog_bound st c sc v Hok Hv) as Hb. pose proof (sg_history _ _ Hok) as Hh.
  pose proof (sl_history HL) as Hl. unfold allowance. wp_step. eapply on_scene_wp; [done|]. unfold history_bytes.
  eapply idle_wp; [by eapply sg_scene|]. wp_step. rewrite place_same by done. wp_step. wp_step. wp_step.
  rewrite (wrap64_small (history_ st - backlog_ v)) by (unfold is_u64; lia). by rewrite wrap64_small by (unfold is_u64; lia).
Qed.

Lemma history_wp st c sc v (Q : Z → Stage → Prop) E :
  stage_ok st c → scene_at sc st = Some v → Q (backlog_ v) st → wp Faulty (on_scene sc history_bytes) Q E st.
Proof.
  intros Hok Hv HQ. eapply on_scene_wp; [done|]. unfold history_bytes. eapply idle_wp; [by eapply sg_scene|]. wp_step.
  by rewrite place_same.
Qed.

(** An open edit of the scene of [sc] can be abandoned or released. *)
Record projecting (st : Stage) (c : Scope → string → option Item) (sc : Scope) (k : string) (x : option Item)
    (before : Z) (ns : list (Scope * Event (Item := Item))) (e : Edit) : Prop := {
  pj_abort : stage_ok (touch_scene sc (abort e) st) c;
  pj_there : is_Some (scene_at sc st);
  pj_notices : notices st = ns;
  pj_release : stage_ok (release sc before e st) (amend sc k x c)
}.

Definition prepared_stage (c : Scope → string → option Item) (sc : Scope) (k : string) (x : option Item) (before : Z)
    (ns : list (Scope * Event (Item := Item))) (r : expected Edit Error) (st : Stage) : Prop :=
  match r with
  | Unexpected _ => stage_ok st c ∧ is_Some (scene_at sc st) ∧ notices st = ns
  | Expected e => projecting st c sc k x before ns e
  end.
Definition undone_stage (c : Scope → string → option Item) (sc : Scope) (ns : list (Scope * Event (Item := Item)))
    (e : exn) (st : Stage) : Prop :=
  (e = bad_alloc ∨ e = overflow_error) ∧ stage_ok st c ∧ is_Some (scene_at sc st) ∧ notices st = ns.

Lemma scene_at_place sc v st sc' :
  scene_at sc' (on_directory (place sc v) st) = if decide (sc' = sc) then Some v else scene_at sc' st.
Proof. apply locate_place. Qed.

Lemma place_place sc v v' st : on_directory (place sc v') (on_directory (place sc v) st) = on_directory (place sc v') st.
Proof.
  destruct st as [d n h ns]. unfold on_directory, set_scenes, place. cbn. f_equal. rewrite lookup_insert_eq. simpl.
  by rewrite !insert_insert_eq.
Qed.

Lemma touch_place sc g v st : touch_scene sc g (on_directory (place sc v) st) = on_directory (place sc (g v)) st.
Proof. unfold touch_scene. rewrite scene_at_place, decide_True by done. apply place_place. Qed.

Lemma release_ok st c sc v v1 k x e :
  stage_ok st c → scene_at sc st = Some v →
  scene_ok limits_ (commit e v1) (told sc (notices st) ++ [event e]) →
  backlog_ (commit e v1) <= history_limit - (history_ st - backlog_ v) →
  event_name (event e) = k → event_record (event e) = x →
  stage_ok (release sc (backlog_ v) e (on_directory (place sc v1) st)) (amend sc k x c).
Proof.
  intros Hok Hv Hc Hkeep Hk Hx. pose proof (backlog_bound st c sc v Hok Hv) as Hb.
  destruct Hok as [(fl & F1 & F2 & F3) S2 S3 S4 S5 S6]. pose proof (proj1 F1 sc) as Hf. unfold scene_at in Hv. rewrite Hv in Hf.
  unfold release. rewrite touch_place. unfold announce. set (v' := commit e v1) in *.
  pose proof (sl_history HL) as Hl. rewrite scene_at_place, decide_True by done.
  assert (Hn : 0 <= backlog_ v').
  { rewrite (so_backlog _ _ _ Hc). eapply heaviness_nonneg, chronicle_costed, Hc. }
  cbn [history_ on_directory set_scenes].
  rewrite (wrap64_small (history_ st - backlog_ v)) by (unfold is_u64; lia). rewrite wrap64_small by (unfold is_u64; lia).
  assert (Htold : ∀ sc', told sc' (notices st ++ [(sc, event e)]) = if decide (sc' = sc) then told sc (notices st) ++ [event e] else told sc' (notices st)).
  { intros sc'. rewrite told_snoc. cbn. destruct (decide (sc = sc')) as [->|]; [by rewrite decide_True|by rewrite decide_False]. }
  split; cbn [scenes_ scopes_ history_ notices on_directory set_scenes].
  - exists (<[sc := v']> fl). split_and!; [by apply flat_place|by rewrite map_size_insert, <- Hf|].
    rewrite (map_sum_insert _ _ _ v) by done. rewrite F3. lia.
  - done.
  - lia.
  - intros sc' y. rewrite Htold. unfold scene_at. cbn. rewrite locate_place. case_decide; [by intros [= <-]|apply S4].
  - intros sc' k'. rewrite Htold. unfold amend. destruct (decide (sc' = sc)) as [->|Hne].
    + rewrite shown_snoc. unfold apply_event. rewrite Hx, Hk. destruct x as [i|].
      * destruct (decide (k' = k)) as [->|Hk']; [rewrite lookup_insert_eq, decide_True by done; done|].
        rewrite lookup_insert_ne, decide_False by naive_solver. apply S5.
      * destruct (decide (k' = k)) as [->|Hk']; [rewrite lookup_delete_eq, decide_True by done; done|].
        rewrite lookup_delete_ne, decide_False by naive_solver. apply S5.
    + rewrite decide_False by naive_solver. apply S5.
  - intros sc'. rewrite Htold. unfold scene_at. cbn. rewrite locate_place. case_decide; [done|apply S6].
Qed.

Lemma prepare_stage_wp exclusive st c sc v k x now data keep :
  stage_ok st c → scene_at sc st = Some v → keep = history_limit - (history_ st - backlog_ v) →
  wp Faulty (on_scene sc (prepare limits_ exclusive (Some k) x now data keep))
    (prepared_stage c sc k x (backlog_ v) (notices st)) (undone_stage c sc (notices st)) st.
Proof.
  intros Hok Hv ->. pose proof (backlog_bound st c sc v Hok Hv) as Hb. pose proof (sg_history _ _ Hok) as Hh.
  pose proof (sg_scene _ _ Hok sc v Hv) as Hs. eapply on_scene_wp; [done|].
  eapply wp_mono; [apply (prepare_wp limits_ exclusive (sl_scene HL) v (told sc (notices st)) (Some k) x now data); [done|lia]| |].
  - intros [e|err] v1 Hp.
    + destruct Hp as ([H1 H2] & H3 & H4 & H5 & H6). split.
      * rewrite touch_place. by eapply stage_replace.
      * rewrite scene_at_place, decide_True by done. by eexists.
      * done.
      * by apply release_ok.
    + destruct Hp as [H1 H2]. split_and!; [by eapply stage_replace| |done]. rewrite scene_at_place, decide_True by done. by eexists.
  - intros e v1 (He & H1 & H2). split_and!; [done|by eapply stage_replace| |done].
    rewrite scene_at_place, decide_True by done. by eexists.
Qed.

(** ** Reading a scene *)
Lemma pure_wp {S A} (x : eff S A) (Q : A → S → Prop) E s :
  (∀ f, ∃ v, x s f = (Done v, s, f) ∧ Q v s) → wp Faulty x Q E s.
Proof. intros Hx f _. destruct (Hx f) as (v & -> & HQ). done. Qed.

Lemma cursor_told st c sc v : stage_ok st c → scene_at sc st = Some v → version_ v = Z.of_nat (length (told sc (notices st))).
Proof. intros Hok Hv. by apply (sg_scene _ _ Hok sc v Hv). Qed.

Lemma find_stage_wp st c sc v k (Q : option Item * Z → Stage → Prop) E :
  stage_ok st c → scene_at sc st = Some v → Q (c sc k, Z.of_nat (length (told sc (notices st)))) st →
  wp Faulty (on_scene sc (Scene.find k)) Q E st.
Proof.
  intros Hok Hv HQ. eapply on_scene_wp; [done|]. apply pure_wp. intros f. eexists. split; [by eapply scene_find_spec, (sg_scene _ _ Hok)|].
  rewrite place_same by done. by rewrite (sg_shows _ _ Hok), (cursor_told st c sc v).
Qed.

Lemma capture_stage_wp st c sc v (Q : View → Stage → Prop) E :
  stage_ok st c → scene_at sc st = Some v →
  (∀ x m, lists x m → (∀ k, m !! k = c sc k) → view_version x = Z.of_nat (length (told sc (notices st))) → Q x st) →
  wp Faulty (on_scene sc Scene.capture) Q E st.
Proof.
  intros Hok Hv HQ. eapply on_scene_wp; [done|]. apply pure_wp. intros f.
  destruct (scene_capture_spec limits_ v _ f (sg_scene _ _ Hok sc v Hv)) as (x & Hx & Hl & Hc). exists x. split; [done|].
  rewrite place_same by done. apply (HQ x _ Hl); [by apply (sg_shows _ _ Hok)|]. by rewrite Hc, (cursor_told st c sc v).
Qed.

Lemma replay_stage_wp st c sc v since (Q : expected (list Event) Error → Stage → Prop) E :
  stage_ok st c → scene_at sc st = Some v → 0 <= since →
  (since <= Z.of_nat (length (told sc (notices st))) → Q (Expected (drop (Z.to_nat since) (told sc (notices st)))) st) →
  (Z.of_nat (length (told sc (notices st))) < since → Q (Unexpected version_error) st) →
  Q (Unexpected history_error) st →
  wp Faulty (on_scene sc (Scene.replay since)) Q E st.
Proof.
  intros Hok Hv Hs H1 H2 H3. eapply on_scene_wp; [done|]. apply pure_wp. intros f. rewrite place_same by done.
  destruct (scene_replay_spec limits_ since v _ f (sg_scene _ _ Hok sc v Hv) Hs) as (r & Hr & Hx). exists r. split; [done|].
  rewrite (cursor_told st c sc v Hok Hv) in Hx. destruct r as [evs|e]; [destruct Hx as [? ->]; by apply H1|].
  destruct Hx as [[-> ?]|[-> _]]; [by apply H2|done].
Qed.
End stage.
