(* ===== verification/Leased.v ===== *)
(** Facts with leases: what the Catalog and the Ephemeris keep for this Star, for
    the merged view and for every remote Star ([catalog_state.hpp],
    [ephemeris_state.hpp]): an [Origin], the [Agenda] its leases are on, and the
    table of timers by name.

    The three structures agree when the timers are exactly the names whose record has
    a deadline and every timer is on the agenda in time. *)
From stdpp Require Import base numbers strings gmap list.
From S2P Require Import Prelude.
From S2P Require Import Wheel.
From S2P Require Import Agenda.
From S2P Require Import Timetable.
From S2P Require Import Scope.
From S2P Require Import Pages.
From S2P Require Import Index.
From S2P Require Import Origin.

Abbreviation Timers := (wheel Name * frame)%type.

Section leased.
Context {Item : Type} {layout : Layout Item} (lease : Item → option Z).

(** An agenda is allocated with the first lease. *)
Record Leased := { facts : Origin (Item := Item); agenda : option Timers; timers : gset Name }.

Definition set_facts (o : Origin) (g : Leased) : Leased := {| facts := o; agenda := agenda g; timers := timers g |}.
Definition set_agenda (a : option Timers) (g : Leased) : Leased := {| facts := facts g; agenda := a; timers := timers g |}.
Definition set_timers (t : gset Name) (g : Leased) : Leased := {| facts := facts g; agenda := agenda g; timers := t |}.

(** The record a source holds under a name. *)
Definition found (o : Origin (Item := Item)) (n : Name) : option Item :=
  snd <$> (entry n (groups_ o) ≫= Pages.find (tree_ o)).

Definition lease_of (m : gmap Name Item) (n : Name) : option Z := m !! n ≫= lease.

(** [observed] is the latest instant the clock has shown. *)
Record scheduled (observed : option Z) (m : gmap Name Item) (a : option Timers) : Prop := {
  sc_none : a = None → ∀ n, lease_of m n = None;
  sc_some : ∀ w fr, a = Some (w, fr) →
    settled w fr ∧ kept (time_ fr) w (lease_of m) ∧ ∃ t, observed = Some t ∧ time_ fr <= t;
  sc_short : ∀ n d, lease_of m n = Some d → d <= time_max
}.

Record leased_ok (local_ : bool) (limits_ : Limits) (observed : option Z) (g : Leased) (m : gmap Name Item)
    (log : chronicle (Item := Item)) : Prop := {
  le_facts : origin_ok local_ limits_ (facts g) m log;
  le_timers : ∀ n, n ∈ timers g ↔ is_Some (lease_of m n);
  le_agenda : scheduled observed m (agenda g)
}.

(** *** Reading *)
Lemma found_ok local_ limits_ o m log n : origin_ok local_ limits_ o m log → found o n = m !! n.
Proof.
  intros (_ & _ & fl & es & Hh). unfold found. rewrite (entry_listed o fl es n (ho_shelf _ _ _ _ _ Hh) (ho_listed _ _ _ _ _ Hh)).
  pose proof (spells_find _ _ _ n (ho_spells _ _ _ _ _ Hh)) as Hf.
  destruct (es !! n) as [sl|]; simpl; [|done]. by destruct Hf as (_ & it & -> & ->).
Qed.

Lemma find_wp local_ limits_ o m log sc k (Q : option Item → Origin → Prop) E :
  origin_ok local_ limits_ o m log → Q (m !! {| scope := sc; key := k |}) o → wp Faulty (find sc k) Q E o.
Proof.
  intros Hok HQ. pose proof Hok as (Hidle & _ & fl & es & Hh). unfold find. apply origin_idle_wp; [done|]. wp_step. wp_step. wp_step.
  set (n := {| scope := sc; key := k |}) in *.
  rewrite (entry_listed o fl es n (ho_shelf _ _ _ _ _ Hh) (ho_listed _ _ _ _ _ Hh)).
  eapply origin_row_of_wp; [exact (ho_spells _ _ _ _ _ Hh)|]. wp_step. by destruct (m !! n).
Qed.

(** *** Accounts *)

(** What [Origin::bytes] tells: the records and the directory of their scopes. *)
Definition load (m : gmap Name Item) : Z := content_bytes m + scope_bytes (scopes_in m).
Definition held_bytes (o : Origin (Item := Item)) : Z := bytes_ o + directory_ o.

Lemma held_load local_ limits_ o m log : origin_ok local_ limits_ o m log → held_bytes o = load m.
Proof.
  intros (_ & _ & fl & es & Hh). unfold held_bytes, load. rewrite (proj1 (ho_bytes _ _ _ _ _ Hh)).
  rewrite (sv_directory _ _ (ho_shelf _ _ _ _ _ Hh)). f_equal. apply shelf_bytes_dom.
  rewrite dom_gset_to_gmap. by eapply holds_scopes.
Qed.

Lemma held_wp local_ limits_ o m log (Q : Z → Origin → Prop) E :
  origin_ok local_ limits_ o m log → Q (load m) o → wp Faulty get_bytes Q E o.
Proof.
  intros Hok HQ. unfold get_bytes. apply origin_idle_wp; [apply Hok|]. wp_step. change (bytes_ o + directory_ o) with (held_bytes o).
  by erewrite held_load.
Qed.

Lemma load_nonneg m : 0 <= load m.
Proof.
  unfold load, content_bytes. pose proof (shelf_nonneg (gset_to_gmap {| group_scope := {| sector := ""; spectrum := "" |}; entries := ∅ |} (scopes_in m))) as Hs.
  fold (scope_bytes (scopes_in m)) in Hs. assert (0 <= map_sum row_weight m); [|lia].
  apply map_sum_nonneg. intros n i _. pose proof (origin_row_weight_pos n i). lia.
Qed.

Lemma load_replace m n r r' : m !! n = Some r → measure r' <= measure r → load (<[n := r']> m) <= load m.
Proof.
  intros Hn Hm. unfold load, content_bytes. rewrite (map_sum_insert _ _ _ r) by done.
  replace (scopes_in (<[n := r']> m)) with (scopes_in m); [unfold row_weight; lia|].
  unfold scopes_in. rewrite dom_insert_lookup_L by (by eexists). done.
Qed.

(** *** Clocks move forward *)
Lemma scheduled_later observed t m a :
  scheduled observed m a → (∀ o, observed = Some o → o <= t) → scheduled (Some t) m a.
Proof.
  intros [S1 S2 S3] Ht. split; try done. intros w fr Ha. destruct (S2 w fr Ha) as (H1 & H2 & o & Ho & Hle).
  split_and!; try done. exists t. split; [done|]. specialize (Ht o Ho). lia.
Qed.

Lemma leased_later local_ limits_ observed t g m log :
  leased_ok local_ limits_ observed g m log → (∀ o, observed = Some o → o <= t) →
  leased_ok local_ limits_ (Some t) g m log.
Proof. intros [L1 L2 L3] Ht. split; try done. by eapply scheduled_later. Qed.

(** *** A new record *)
Lemma lease_insert m n i n' : lease_of (<[n := i]> m) n' = if decide (n' = n) then lease i else lease_of m n'.
Proof. unfold lease_of. case_decide as E; [by rewrite E, lookup_insert_eq|by rewrite lookup_insert_ne]. Qed.

Lemma lease_next m n (x : option Item) n' :
  lease_of (next_shown n x m) n' = if decide (n' = n) then x ≫= lease else lease_of m n'.
Proof.
  destruct x as [i|]; simpl; [apply lease_insert|]. unfold lease_of. case_decide as E; [by rewrite E, lookup_delete_eq|by rewrite lookup_delete_ne].
Qed.

(** The first lease makes the agenda. *)
Lemma fresh_scheduled (t : Z) m w fr :
  Agenda.make t = Done (w, fr) → t <= time_max → (∀ n, lease_of m n = None) → scheduled (Some t) m (Some (w, fr)).
Proof.
  unfold Agenda.make. destruct (Z.ltb_spec t 0); [done|]. intros [= <- <-] Ht Hm. split; [done| |].
  - intros w fr [= <- <-]. split_and!.
    + split; cbn; [apply make_wf; vm_compute; split; congruence|done|done|lia].
    + split; [apply make_wf; vm_compute; split; congruence| |].
      * intros n. rewrite Hm. split; [|by intros []]. intros [Hn|Hn]; [|by apply elem_of_nil in Hn].
        destruct Hn as (l & sl & Hn). by apply elem_of_nil in Hn.
      * intros n d Hn. destruct Hn as (l & sl & Hn). by apply elem_of_nil in Hn.
    + by exists t.
  - intros n d Hn. by rewrite Hm in Hn.
Qed.

Lemma scheduled_set observed m w fr n (x : option Item) d :
  scheduled observed m (Some (w, fr)) → x ≫= lease = Some d → d <= time_max →
  scheduled observed (next_shown n x m) (Some (Agenda.set n d w fr, fr)).
Proof.
  intros [_ S2 S3] Hx Hd. destruct (S2 w fr eq_refl) as (Hs & Hk & Ho). pose proof (settled_now _ _ Hs) as Hnow.
  pose proof (settled_time _ _ Hs) as Ht.
  destruct (set_spec n d w fr (settled_wf _ _ Hs) ltac:(lia) Hd) as (W & C & B & _). split; [done| |].
  - intros w' fr' [= <- <-]. split_and!; [|eapply kept_set; try done|done].
    + destruct Hs as [? Hb Hti ?]. by split; rewrite ?B, ?C.
    + lia.
    + rewrite lease_next. by rewrite decide_True.
    + intros n' Hn'. rewrite lease_next. by rewrite decide_False.
  - intros n' d'. rewrite lease_next. case_decide; [congruence|apply S3].
Qed.

Lemma scheduled_erase observed m w fr n (x : option Item) :
  scheduled observed m (Some (w, fr)) → x ≫= lease = None →
  scheduled observed (next_shown n x m) (Some (Agenda.erase n w, fr)).
Proof.
  intros [_ S2 S3] Hx. destruct (S2 w fr eq_refl) as (Hs & Hk & Ho). split; [done| |].
  - intros w' fr' [= <- <-]. split_and!; [|eapply kept_erase; try done|done].
    + destruct Hs as [? ? ? ?]. split; try done. by apply cancel_inv.
    + rewrite lease_next. by rewrite decide_True.
    + intros n' Hn'. rewrite lease_next. by rewrite decide_False.
  - intros n' d'. rewrite lease_next. case_decide; [congruence|apply S3].
Qed.

Lemma scheduled_unleased observed m n (x : option Item) a :
  scheduled observed m a → x ≫= lease = None → lease_of m n = None → scheduled observed (next_shown n x m) a.
Proof.
  intros [S1 S2 S3] Hx Hn.
  assert (Heq : ∀ n', lease_of (next_shown n x m) n' = lease_of m n').
  { intros n'. rewrite lease_next. case_decide as E; [by rewrite Hx, E, Hn|done]. }
  split.
  - intros Ha n'. by rewrite Heq, S1.
  - intros w fr Ha. destruct (S2 w fr Ha) as (? & ? & ?). split_and!; try done. by eapply kept_ext.
  - intros n' d. rewrite Heq. apply S3.
Qed.
End leased.
