(* ===== verification/CatalogState.v ===== *)
(** The Catalog of a Star at run time: [astra/star/src/catalog_state.{hpp,cpp}].

    [Catalog::State] composes the parts modelled elsewhere: the pure rules
    ([Catalog]), this Star's own facts and the facts merged over all sources
    ([Origin]), one public projection per scope ([Scene]) and the leases of both
    groups of facts ([Agenda]).  A write prepares an edit of every part, takes the
    time again, publishes all of them and only then notifies; an edit that is not
    published is rolled back by its destructor.  Expiry is driven by the agendas.

    The domain lock makes every operation one transition.  The answers of the clock,
    of [steady_clock] and of the sharing of pages come from outside and are the
    script [World]; every allocation may fail. *)
From stdpp Require Import base numbers strings gmap list.
From S2P Require Import Prelude.
From S2P Require Import Clock.
From S2P Require Import Wheel.
From S2P Require Import Agenda.
From S2P Require Import Timetable.
From S2P Require Import Scope.
From S2P Require Import Index.
From S2P Require Import Scene.
From S2P Require Import Stage.
From S2P Require Import Origin.
From S2P Require Import Leased.
From S2P Require Import Catalog.

(** [State::Error]. *)
Inductive Failure :=
| failed_input | failed_clock | failed_ended | failed_version | failed_conflict | failed_exhausted | failed_capacity
| failed_history.

(** [State::Content]. *)
Record Content := { content_version : Z; content_value : Value }.

(** The object sizes the accounts use. *)
Class Sizes := {
  sizeof_fact_event : Z;
  sizeof_view_event : Z;
  sizeof_fact_name : Z;
  sizeof_fact : Z;
  sizeof_content : Z;
  sizes_range : 0 < sizeof_fact_event <= 4096 ∧ 0 < sizeof_view_event <= 4096 ∧ 0 < sizeof_fact_name <= 4096 ∧
    0 < sizeof_fact <= 4096 ∧ 0 < sizeof_content <= 4096
}.

(** [State::measure]; [size()] of a vector is a [std::size_t]. *)
Definition measure_value (v : Value) : Z := match v with Some b => wrap64 (buffer_size b) | None => 0 end.

Lemma measure_value_range v : 0 <= measure_value v <= u64_max.
Proof. destruct v as [b|]; simpl; [apply wrap64_u64|unfold u64_max; lia]. Qed.

#[export] Instance fact_layout `{Sizes} : Layout record.
Proof.
  refine {| measure := λ r, measure_value (value r); Index.sizeof_event := sizeof_fact_event;
            Index.sizeof_name := sizeof_fact_name; Index.sizeof_item := sizeof_fact |}.
  - intros r. apply measure_value_range.
  - pose proof sizes_range. lia.
Defined.

#[export] Instance content_layout `{Sizes} : Layout Content.
Proof.
  refine {| measure := λ c, measure_value (content_value c); Index.sizeof_event := sizeof_view_event;
            Index.sizeof_name := sizeof_fact_name; Index.sizeof_item := sizeof_content |}.
  - intros c. apply measure_value_range.
  - pose proof sizes_range. lia.
Defined.

(** [State::error], for the three error types. *)
Definition of_rule (e : Catalog.Error) : Failure :=
  match e with
  | Catalog.input => failed_input | Catalog.clock => failed_clock | Catalog.ended => failed_ended
  | Catalog.version_error => failed_version | Catalog.conflict => failed_conflict | Catalog.exhausted => failed_exhausted
  end.
Definition of_source (e : Origin.Error) : Failure :=
  match e with
  | Origin.input => failed_input | Origin.duplicate => failed_conflict | Origin.capacity => failed_capacity
  | Origin.version_error => failed_exhausted | Origin.history_error => failed_history
  end.
Definition of_scene (e : Scene.Error) : Failure :=
  match e with
  | Scene.input => failed_input | Scene.capacity => failed_capacity | Scene.version_error => failed_exhausted
  | Scene.history_error => failed_history
  end.

(** [State::Limits]. *)
Record Limits := {
  source_limits : Origin.Limits;
  projection_limits : Scene.Limits;
  scopes_limit : Z;
  history_limit : Z;
  replicas_limit : Z;
  replica_bytes_limit : Z
}.

(** What comes from outside: the answers of [time_], of [steady_clock::now] and of
    the sharing test of pages, in the order they are asked for. *)
Record World := { readings : list (option Reading); steadies : list Z; sharings : list (nat → bool) }.

Section state.
Context `{Sizes}.

Abbreviation Facts := (Leased (Item := record)).
Abbreviation Views := (Stage (Item := Content)).

(** [State::Replica]; [lent] says that another thread holds its mutex. *)
Record Replica := { group : Facts; coverage : list (Name * Z); retired : bool; lent : bool }.

(** The members of [State]: [own_] is [source_] with [agenda_] and [timers_], [all_] is
    [merged_] with [outlook_] and [deadlines_], [stage_] is [scenes_] with [scopes_] and
    [history_].  A timer is identified by the name it is found under. *)
Record State := {
  world_ : World;
  observed_ : option Z;
  due_ : Z;
  own_ : Facts;
  all_ : Facts;
  stage_ : Views;
  replicas_ : gmap string Replica;
  replica_bytes_ : Z
}.

Definition set_world (x : World) (s : State) : State :=
  {| world_ := x; observed_ := observed_ s; due_ := due_ s; own_ := own_ s; all_ := all_ s; stage_ := stage_ s;
     replicas_ := replicas_ s; replica_bytes_ := replica_bytes_ s |}.
Definition set_observed (x : option Z) (s : State) : State :=
  {| world_ := world_ s; observed_ := x; due_ := due_ s; own_ := own_ s; all_ := all_ s; stage_ := stage_ s;
     replicas_ := replicas_ s; replica_bytes_ := replica_bytes_ s |}.
Definition set_due (x : Z) (s : State) : State :=
  {| world_ := world_ s; observed_ := observed_ s; due_ := x; own_ := own_ s; all_ := all_ s; stage_ := stage_ s;
     replicas_ := replicas_ s; replica_bytes_ := replica_bytes_ s |}.
Definition set_stage (x : Views) (s : State) : State :=
  {| world_ := world_ s; observed_ := observed_ s; due_ := due_ s; own_ := own_ s; all_ := all_ s; stage_ := x;
     replicas_ := replicas_ s; replica_bytes_ := replica_bytes_ s |}.
Definition set_replicas (x : gmap string Replica) (b : Z) (s : State) : State :=
  {| world_ := world_ s; observed_ := observed_ s; due_ := due_ s; own_ := own_ s; all_ := all_ s; stage_ := stage_ s;
     replicas_ := x; replica_bytes_ := b |}.

(** The groups of facts: this Star's own, those merged over all sources, and those of
    one remote Star.  Code holds a reference to the group of a remote Star only while
    the directory lists it; [nothing] is never read. *)
Inductive side := Own | All | Remote (id : string).
#[global] Instance side_eq_dec : EqDecision side.
Proof. solve_decision. Defined.

Definition nothing : Facts := {| facts := blank; agenda := None; timers := ∅ |}.
Definition group_of (sd : side) (s : State) : Facts :=
  match sd with
  | Own => own_ s
  | All => all_ s
  | Remote id => match replicas_ s !! id with Some r => group r | None => nothing end
  end.
Definition set_own (g : Facts) (s : State) : State :=
  {| world_ := world_ s; observed_ := observed_ s; due_ := due_ s; own_ := g; all_ := all_ s; stage_ := stage_ s;
     replicas_ := replicas_ s; replica_bytes_ := replica_bytes_ s |}.
Definition set_all (g : Facts) (s : State) : State :=
  {| world_ := world_ s; observed_ := observed_ s; due_ := due_ s; own_ := own_ s; all_ := g; stage_ := stage_ s;
     replicas_ := replicas_ s; replica_bytes_ := replica_bytes_ s |}.
Definition regroup (g : Facts) (r : Replica) : Replica :=
  {| group := g; coverage := coverage r; retired := retired r; lent := lent r |}.
Definition set_group (sd : side) (g : Facts) (s : State) : State :=
  match sd with
  | Own => set_own g s
  | All => set_all g s
  | Remote id => set_replicas (alter (regroup g) id (replicas_ s)) (replica_bytes_ s) s
  end.
Definition on_group (sd : side) (f : Facts → Facts) (s : State) : State := set_group sd (f (group_of sd s)) s.
Definition on_facts {A} (sd : side) (m : eff (Origin.Origin (Item := record)) A) : eff State A :=
  zoom (λ s, facts (group_of sd s)) (λ o, on_group sd (set_facts o)) m.
Definition on_stage {A} (m : eff Views A) : eff State A := zoom stage_ set_stage m.

Definition refused {A E} (f : E → Failure) (x : expected A E) : expected A Failure :=
  match x with Expected a => Expected a | Unexpected e => Unexpected (f e) end.
Definition refusing {A E} (f : E → Failure) (m : eff State (expected A E)) : eff State (expected A Failure) :=
  x <- m ;; ret (refused f x).

(** ** What comes from outside *)
Definition steady : eff State Z :=
  s <- read ;;
  let w := world_ s in
  modify (set_world {| readings := readings w; steadies := tail (steadies w); sharings := sharings w |}) ;;;
  ret (hd 0 (steadies w)).
Definition sharing : eff State (nat → bool) :=
  s <- read ;;
  let w := world_ s in
  modify (set_world {| readings := readings w; steadies := steadies w; sharings := tail (sharings w) |}) ;;;
  ret (hd (λ _, false) (sharings w)).

(** [State::reading]. *)
Definition reading : eff State (expected Reading Failure) :=
  s <- read ;;
  let w := world_ s in
  modify (set_world {| readings := tail (readings w); steadies := steadies w; sharings := sharings w |}) ;;;
  match hd None (readings w) with
  | None => ret (Unexpected failed_clock)
  | Some v =>
      if negb (Clock.ready v) || (Clock.time v <? 0)
         || match observed_ s with Some o => Clock.time v <? o | None => false end
      then ret (Unexpected failed_clock)
      else modify (set_observed (Some (Clock.time v))) ;;; ret (Expected v)
  end.

Context (limits_ : Limits).

(** ** Edits of the parts *)

(** [Origin::prepare] of one of the groups, and what can become of the edit. *)
Definition prepare_fact (sd : side) (sc : Scope) (k : string) (r : option record) (position : option Z) (form : Form)
    : eff State (expected (Origin.Edit (Item := record)) Failure) :=
  exclusive <- sharing ;;
  now <- steady ;;
  refusing of_source
    (on_facts sd (Origin.prepare false (bool_decide (sd = Own)) (source_limits limits_) exclusive sc k r position now form)).
Definition abort_fact (sd : side) (e : Origin.Edit (Item := record)) : State → State :=
  on_group sd (λ g, set_facts (Origin.abort e (facts g)) g).
Definition commit_fact (sd : side) (e : Origin.Edit (Item := record)) : State → State :=
  on_group sd (λ g, set_facts (Origin.commit e (facts g)) g).
Definition revise_fact (sd : side) (r : record) (e : Origin.Edit (Item := record))
    : eff State (bool * Origin.Edit (Item := record)) :=
  g <- gets (group_of sd) ;;
  let '(done_, e', o) := Origin.revise r e (facts g) in
  modify (on_group sd (set_facts o)) ;;; ret (done_, e').

(** [State::obtain]. *)
Definition obtain_scope (sc : Scope) : eff State (expected unit Failure) :=
  x <- on_stage (Stage.obtain (projection_limits limits_) (scopes_limit limits_) sc) ;;
  ret match x with
      | Obtained => Expected tt
      | Bad_scope => Unexpected failed_input
      | Full => Unexpected failed_capacity
      end.
Definition prepare_scene (sc : Scope) (k : string) (x : option Content) (retention : Z)
    : eff State (expected (Scene.Edit (Item := Content)) Failure) :=
  exclusive <- sharing ;;
  now <- steady ;;
  refusing of_scene (on_stage (on_scene sc (Scene.prepare (projection_limits limits_) exclusive (Some k) x now false retention))).
Definition abort_scene (sc : Scope) (e : option (Scene.Edit (Item := Content))) (s : State) : State :=
  match e with Some e => set_stage (touch_scene sc (Scene.abort e) (stage_ s)) s | None => s end.
Definition commit_scene (sc : Scope) (e : option (Scene.Edit (Item := Content))) (s : State) : State :=
  match e with Some e => set_stage (touch_scene sc (Scene.commit e) (stage_ s)) s | None => s end.
(** [State::publish] of a committed change, if there is one. *)
Definition publish_scene (sc : Scope) (before : Z) (e : option (Scene.Edit (Item := Content))) (s : State) : State :=
  match e with Some e => set_stage (Stage.announce sc before (Scene.event e) (stage_ s)) s | None => s end.

(** The first lease of a group allocates its agenda. *)
Definition ensure (sd : side) (t : Z) : eff State unit :=
  g <- gets (group_of sd) ;;
  match agenda g with
  | Some _ => ret tt
  | None =>
      alloc ;;;
      a <- lift (Agenda.make t) ;;
      modify (λ s, set_due (Z.min (due_ s) (Agenda.next a.1 a.2)) (on_group sd (set_agenda (Some a)) s))
  end.

(** A timer for a name that has none yet; the result tells whether it is new. *)
Definition hook (sd : side) (n : Name) : eff State bool :=
  g <- gets (group_of sd) ;;
  if bool_decide (n ∈ timers g) then ret false
  else alloc ;;; modify (on_group sd (λ g, set_timers ({[n]} ∪ timers g) g)) ;;; ret true.
Definition unhook (sd : side) (n : Name) : State → State :=
  on_group sd (λ g, set_timers (timers g ∖ {[n]}) g).

(** [agenda->set] through the pointers; a missing agenda or deadline would be a null
    dereference. *)
Definition set_timer (sd : side) (n : Name) (d : option Z) : eff State unit :=
  g <- gets (group_of sd) ;;
  match agenda g, d with
  | Some (w, fr), Some d => modify (on_group sd (set_agenda (Some (Agenda.set n d w fr, fr))))
  | _, _ => throw logic_error
  end.

(** ** Expiry *)

(** While an agenda advances, its wheel and frame are at hand and the rest of the state
    is behind them. *)
Abbreviation Running := (wheel Name * (frame * State))%type.
Definition inner {A} (m : eff State A) : eff Running A := zoom (λ t, t.2.2) (λ s t, (t.1, (t.2.1, s))) m.

(** The group whose records are public. *)
Definition projected (sd : side) : bool := bool_decide (sd = All).

(** [State::expire]; it only runs inside [advance], whose wheel holds the timer. *)
Definition expire (sd : side) (n : Name) (t : Z) : eff Running (expected unit Failure) :=
  let sc := Origin.scope n in
  old <- inner (on_facts sd (Origin.find sc (Origin.key n))) ;;
  match old with
  | Some r =>
      match value r, deadline r with
      | Some _, Some d =>
          if t <? d then ret (Unexpected failed_ended)
          else
            room <-? inner (if projected sd then
                              _ <-? obtain_scope sc ;;
                              before <- on_stage (on_scene sc history_bytes) ;;
                              retention <- on_stage (allowance (history_limit limits_) sc) ;;
                              ret (Expected (before, retention))
                            else ret (Expected (0, 0))) ;;
            origin <-? inner (prepare_fact sd sc (Origin.key n) (Some (Catalog.expire r t)) None form_record) ;;
            scoped (λ s, (s.1, (s.2.1, abort_fact sd origin s.2.2)))
              (projection <-? inner (if projected sd then
                                       e <-? prepare_scene sc (Origin.key n) None room.2 ;; ret (Expected (Some e))
                                     else ret (Expected None)) ;;
               scoped (λ s, (s.1, (s.2.1, abort_scene sc projection s.2.2)))
                 (known <- inner (gets (λ s, bool_decide (n ∈ timers (group_of sd s)))) ;;
                  if negb known then throw logic_error
                  else
                    inner (modify (commit_fact sd origin)) ;;;
                    inner (modify (commit_scene sc projection)) ;;;
                    modify (λ s, (Agenda.erase n s.1, s.2)) ;;;
                    inner (modify (unhook sd n)) ;;;
                    inner (modify (publish_scene sc room.1 projection)) ;;;
                    ret (Expected tt)))
      | _, _ => ret (Unexpected failed_ended)
      end
  | None => ret (Unexpected failed_ended)
  end.

(** Expiry of a remote fact: only its own group changes. *)
Definition total_bytes (sd : side) : eff State Z := on_facts sd get_bytes.
Definition expire_remote (sd : side) (n : Name) (r : record) (t : Z) : eff Running unit :=
  bytes <- inner (total_bytes sd) ;;
  origin <- inner (prepare_fact sd (Origin.scope n) (Origin.key n) (Some (Catalog.expire r t)) None form_record) ;;
  match origin with
  | Unexpected _ => throw runtime_error
  | Expected origin =>
      inner (modify (commit_fact sd origin)) ;;;
      after <- inner (total_bytes sd) ;;
      inner (modify (λ s, set_replicas (replicas_ s) (wrap64 (wrap64 (replica_bytes_ s - bytes) + after)) s)) ;;;
      modify (λ s, (Agenda.erase n s.1, s.2)) ;;;
      inner (modify (unhook sd n))
  end.

(** The callback [State::advance] hands to the agenda of a group. *)
Definition fire (sd : side) (n : Name) (boundary : Z) : eff Running unit :=
  r <- inner (on_facts sd (Origin.find (Origin.scope n) (Origin.key n))) ;;
  match r with
  | Some r =>
      match value r, deadline r with
      | Some _, Some d =>
          if boundary <? d then modify (λ s, (Agenda.set n d s.1 s.2.1, s.2))
          else
            alloc ;;;
            match sd with
            | Remote _ => expire_remote sd n r boundary
            | _ =>
                removed <- expire sd n boundary ;;
                match removed with Expected _ => ret tt | Unexpected _ => throw runtime_error end
            end
      | _, _ => throw logic_error
      end
  | None => throw logic_error
  end.

(** [State::advance] of one group. *)
Definition advance_group (sd : side) (now : Z) : eff State unit :=
  g <- gets (group_of sd) ;;
  match agenda g with
  | None => ret tt
  | Some (w, fr) =>
      zoom (λ s, (w, (fr, s))) (λ t _, on_group sd (set_agenda (Some (t.1, t.2.1))) t.2.2)
        (Agenda.advance now (fire sd))
  end.

(** The next boundary of a group. *)
Definition next_of (g : Facts) : Z := match agenda g with Some (w, fr) => Agenda.next w fr | None => time_max end.

(** The loop over the replicas; the result is the first busy one that still has
    something to do. *)
Fixpoint advance_replicas (now : Z) (held : option string) (ids : list string) (blocked : option string)
    : eff State (option string) :=
  match ids with
  | [] => ret blocked
  | id :: ids =>
      s <- read ;;
      match replicas_ s !! id with
      | None => advance_replicas now held ids blocked
      | Some r =>
          if bool_decide (held = Some id) then advance_replicas now held ids blocked
          else if lent r then
            advance_replicas now held ids
              (match blocked with
               | Some _ => blocked
               | None => if retired r || (next_of (group r) <=? now) && bool_decide (is_Some (agenda (group r)))
                         then Some id else None
               end)
          else
            advance_group (Remote id) now ;;;
            s <- read ;;
            match replicas_ s !! id with
            | Some r =>
                (if retired r && bool_decide (timers (group r) = ∅) then
                   bytes <- total_bytes (Remote id) ;;
                   modify (λ s, set_replicas (delete id (replicas_ s)) (wrap64 (replica_bytes_ s - bytes)) s)
                 else ret tt) ;;;
                advance_replicas now held ids blocked
            | None => advance_replicas now held ids blocked
            end
      end
  end.

(** [State::advance]; [held] is the source the caller has already locked. *)
Definition advance (now : Z) (held : option string) : eff State (option string) :=
  s <- read ;;
  if now <? due_ s then ret None
  else
    advance_group Own now ;;;
    advance_group All now ;;;
    s <- read ;;
    blocked <- advance_replicas now held ((in_order (replicas_ s)).*1) None ;;
    modify (λ s,
      let due := foldr Z.min time_max (next_of <$> own_ s :: all_ s :: (group <$> (in_order (replicas_ s)).*2)) in
      set_due (if bool_decide (is_Some blocked) then Z.min due now else due) s) ;;;
    ret blocked.

(** ** Writes *)

(** [Catalog::renew] or [Catalog::publish]. *)
Definition rule (renewal : bool) (old known : option record) (v : Value) (ver ttl : Z) (rd : Reading)
    : expected record Catalog.Error :=
  if renewal then Catalog.renew old known ver ttl rd else Catalog.publish old known v ver ttl rd.

(** The end of [State::change]: the final check and the publication of the prepared
    edits. *)
Definition conclude (n : Name) (old known : option record) (v : Value) (ver ttl : Z) (renewal : bool)
    (before : Z) (origin merged : Origin.Edit (Item := record)) (projection : option (Scene.Edit (Item := Content)))
    : eff State (expected unit Failure) :=
  stamp <-? reading ;;
  candidate <-? ret (refused of_rule (rule renewal old known v ver ttl stamp)) ;;
  match Catalog.merge known candidate (Clock.time stamp) with
  | Unexpected _ => throw logic_error
  | Expected combined =>
      x <- revise_fact Own candidate origin ;;
      if negb x.1 then throw logic_error
      else
        y <- revise_fact All (changed combined) merged ;;
        if negb y.1 then throw logic_error
        else
          modify (commit_fact Own x.2) ;;;
          modify (commit_fact All y.2) ;;;
          modify (commit_scene (Origin.scope n) projection) ;;;
          set_timer Own n (deadline candidate) ;;;
          set_timer All n (deadline (changed combined)) ;;;
          modify (publish_scene (Origin.scope n) before projection) ;;;
          ret (Expected tt)
  end.

(** Agendas and timers for both facts. *)
Definition arm (n : Name) (t : Z) (k : eff State (expected unit Failure)) : eff State (expected unit Failure) :=
  ensure Own t ;;;
  ensure All t ;;;
  timer <- hook Own n ;;
  scoped (λ s, if (timer : bool) then unhook Own n s else s)
    (hooked <- hook All n ;;
     scoped (λ s, if (hooked : bool) then unhook All n s else s) k).

(** [State::change], of which [publish] and [renew] are the two cases.  [Pending] and the
    destructors of the edits undo what was prepared; they touch different members, so
    that their order does not matter. *)
Definition change (sc : Scope) (k : string) (v : Value) (ver ttl : Z) (renewal : bool) : eff State (expected unit Failure) :=
  if negb (Scope.valid sc) || negb (Scope.text k 1024) then ret (Unexpected failed_input)
  else
    stamp <-? reading ;;
    advance (Clock.time stamp) None ;;;
    old <- on_facts Own (Origin.find sc k) ;;
    known <- on_facts All (Origin.find sc k) ;;
    first <-? ret (refused of_rule (rule renewal old known v ver ttl stamp)) ;;
    combined <-? ret (refused of_rule (Catalog.merge known first (Clock.time stamp))) ;;
    scopes <- gets (λ s, Stage.scopes_ (stage_ s)) ;;
    _ <-? obtain_scope sc ;;
    created <- gets (λ s, negb (Stage.scopes_ (stage_ s) =? scopes)) ;;
    scoped (λ s, if (created : bool) then set_stage (withdraw sc (stage_ s)) s else s)
      (before <- on_stage (on_scene sc history_bytes) ;;
       retention <- on_stage (allowance (history_limit limits_) sc) ;;
       position <-? refusing of_source (on_facts Own next_position) ;;
       origin <-? prepare_fact Own sc k (Some first) (Some position) (if renewal then form_renew else form_record) ;;
       scoped (abort_fact Own origin)
         (merged <-? prepare_fact All sc k (Some (changed combined)) None form_record ;;
          scoped (abort_fact All merged)
            (projection <-? (if visible combined then
                               e <-? prepare_scene sc k
                                 (Some {| content_version := version (changed combined);
                                          content_value := value (changed combined) |}) retention ;;
                               ret (Expected (Some e))
                             else ret (Expected None)) ;;
             scoped (abort_scene sc projection)
               (arm {| Origin.scope := sc; Origin.key := k |} (Clock.time stamp)
                  (conclude {| Origin.scope := sc; Origin.key := k |} old known (value first) ver ttl renewal before
                     origin merged projection))))).

Definition publish (sc : Scope) (k : string) (v : Value) (ver ttl : Z) : eff State (expected unit Failure) :=
  change sc k v ver ttl false.
Definition renew (sc : Scope) (k : string) (ver ttl : Z) : eff State (expected unit Failure) :=
  change sc k None ver ttl true.

(** ** Reads *)

(** One round of [State::tick]: [true] when it returns, [false] when it must wait for a
    busy source and go round again. *)
Definition tick_round : eff State bool :=
  s <- read ;;
  if bool_decide (agenda (own_ s) = None) && bool_decide (agenda (all_ s) = None) && bool_decide (replicas_ s = ∅)
  then ret true
  else
    stamp <- reading ;;
    match stamp with
    | Unexpected _ => throw runtime_error
    | Expected stamp => blocked <- advance (Clock.time stamp) None ;; ret (bool_decide (blocked = None))
    end.

(** [Reading::execute]: the shared path while no boundary has passed, and one round of
    the exclusive path, where [None] is the wait for a busy source. *)
Definition execute_shared {A} (action : eff State (expected A Failure)) : eff State (option (expected A Failure)) :=
  stamp <- reading ;;
  match stamp with
  | Unexpected e => ret (Some (Unexpected e))
  | Expected stamp =>
      s <- read ;;
      if Clock.time stamp <? due_ s then x <- action ;; ret (Some x) else ret None
  end.
Definition execute_round {A} (action : eff State (expected A Failure)) : eff State (option (expected A Failure)) :=
  stamp <- reading ;;
  match stamp with
  | Unexpected e => ret (Some (Unexpected e))
  | Expected stamp =>
      blocked <- advance (Clock.time stamp) None ;;
      if bool_decide (blocked = None) then x <- action ;; ret (Some x) else ret None
  end.

Definition capture_action (sc : Scope) : eff State (expected (Scene.View (Item := Content)) Failure) :=
  s <- read ;;
  match scene_at sc (stage_ s) with
  | Some _ => v <- on_stage (on_scene sc Scene.capture) ;; ret (Expected v)
  | None => ret (Expected Scene.empty)
  end.
Definition find_action (sc : Scope) (k : string) : eff State (expected (option Content * Z) Failure) :=
  s <- read ;;
  match scene_at sc (stage_ s) with
  | Some _ => x <- on_stage (on_scene sc (Scene.find k)) ;; ret (Expected x)
  | None => ret (Expected (None, 0))
  end.
Definition changes_action (sc : Scope) (since : Z) : eff State (expected (list (Scene.Event (Item := Content))) Failure) :=
  s <- read ;;
  match scene_at sc (stage_ s) with
  | Some _ =>
      x <- on_stage (on_scene sc (Scene.replay since)) ;;
      ret (refused (λ e, match e with Scene.version_error => failed_input | _ => of_scene e end) x)
  | None => ret (if negb (since =? 0) then Unexpected failed_input else Expected [])
  end.

(** [State::source], [State::events] and [State::deliver]. *)
Definition own_view : eff State (Origin.View (Item := record)) := on_facts Own Origin.capture.
Definition of_delivery (e : Origin.Error) : Failure :=
  match e with Origin.version_error => failed_input | _ => of_source e end.
Definition own_events (since : Z) : eff State (expected (list (Origin.Event (Item := record))) Failure) :=
  refusing of_delivery (on_facts Own (Origin.replay since)).
Definition own_delivery (since count budget : Z) : eff State (expected (Origin.Delivery (Item := record)) Failure) :=
  refusing of_delivery (on_facts Own (Origin.deliver true since count budget)).

(** ** Construction and the public reads *)

(** [State::State]. *)
Definition start (w : World) : outcome State :=
  match Origin.make (source_limits limits_) with
  | Done o =>
      let g := {| facts := o; agenda := None; timers := ∅ |} in
      Done {| world_ := w; observed_ := None; due_ := 0; own_ := g; all_ := g;
              stage_ := {| Stage.scenes_ := ∅; Stage.scopes_ := 0; Stage.history_ := 0; notices := [] |};
              replicas_ := ∅; replica_bytes_ := 0 |}
  | Thrown e => Thrown e
  end.

(** [State::capture], [State::find] and [State::changes], on the shared path or one round
    of the exclusive one. *)
Definition execute {A} (exclusive : bool) (action : eff State (expected A Failure)) : eff State (option (expected A Failure)) :=
  if exclusive then execute_round action else execute_shared action.
Definition capture (exclusive : bool) (sc : Scope) : eff State (option (expected (Scene.View (Item := Content)) Failure)) :=
  if negb (Scope.valid sc) then ret (Some (Unexpected failed_input)) else execute exclusive (capture_action sc).
Definition find (exclusive : bool) (sc : Scope) (k : string) : eff State (option (expected (option Content * Z) Failure)) :=
  if negb (Scope.valid sc) || negb (Scope.text k 1024) then ret (Some (Unexpected failed_input))
  else execute exclusive (find_action sc k).
Definition changes (exclusive : bool) (sc : Scope) (since : Z)
    : eff State (option (expected (list (Scene.Event (Item := Content))) Failure)) :=
  if negb (Scope.valid sc) then ret (Some (Unexpected failed_input)) else execute exclusive (changes_action sc since).

(** ** What the state stands for *)

(** The facts of every group, with the positions it has given out. *)
Abbreviation Record_map := (gmap Name record).
Abbreviation Ghost := (side → option (Record_map * Origin.chronicle (Item := record))).

Definition content_of (m : Record_map) (sc : Scope) (k : string) : option Content :=
  r ← m !! {| Origin.scope := sc; Origin.key := k |};
  b ← value r; Some {| content_version := version r; content_value := Some b |}.
Definition showing (a : Ghost) (sc : Scope) (k : string) : option Content := g ← a All; content_of g.1 sc k.

Definition present (sd : side) (s : State) : Prop :=
  match sd with Remote id => is_Some (replicas_ s !! id) | _ => True end.

(** An instant is a signed 64-bit count of nanoseconds. *)
Definition typed (w : World) : Prop := Forall (λ x, ∀ v, x = Some v → Clock.time v <= time_max) (readings w).

Definition is_own (sd : side) : bool := bool_decide (sd = Own).
Abbreviation lim := (source_limits limits_).

Definition sound (m : Record_map) : Prop := map_Forall (λ _ r, valid r = true) m.

(** A group whose agenda is at hand elsewhere is [idle] apart from it. *)
Record group_ok (running : bool) (observed : option Z) (sd : side) (g : Facts) (x : Record_map * Origin.chronicle (Item := record)) : Prop := {
  go_facts : origin_ok (is_own sd) lim (facts g) x.1 x.2;
  go_timers : ∀ n, n ∈ timers g ↔ is_Some (lease_of deadline x.1 n);
  go_agenda : running = false → scheduled deadline observed x.1 (agenda g);
  go_sound : sound x.1;
  go_short : ∀ n d, lease_of deadline x.1 n = Some d → d <= time_max
}.

(** The budget of the remote facts. *)
Definition remote_load (rs : gmap string Replica) : Z := map_sum (λ _ r, held_bytes (facts (group r))) rs.

Record outside_ok (s : State) (a : Ghost) : Prop := {
  ou_world : typed (world_ s);
  ou_observed : ∀ t, observed_ s = Some t → 0 <= t <= time_max;
  ou_there : ∀ sd, is_Some (a sd) ↔ present sd s;
  ou_due : ∀ sd, present sd s → due_ s <= next_of (group_of sd s);
  ou_bytes : replica_bytes_ s = remote_load (replicas_ s) ∧ replica_bytes_ s <= replica_bytes_limit limits_
}.

Definition stage_fits (st : Views) (c : Scope → string → option Content) : Prop :=
  stage_ok (projection_limits limits_) (scopes_limit limits_) (history_limit limits_) st c.

(** [running] is the group whose agenda is advancing, if any. *)
Record state_ok (running : option side) (s : State) (a : Ghost) : Prop := {
  st_group : ∀ sd x, a sd = Some x → group_ok (bool_decide (running = Some sd)) (observed_ s) sd (group_of sd s) x;
  st_stage : stage_fits (stage_ s) (showing a);
  st_outside : outside_ok s a
}.

Record limits_fit : Prop := {
  lf_source : Origin.limits_ok lim;
  lf_stage : stage_limits (projection_limits limits_) (scopes_limit limits_) (history_limit limits_);
  lf_bytes : 0 <= replica_bytes_limit limits_ <= u64_max;
  lf_retention : 0 <= Origin.retention lim
}.
Context (HL : limits_fit).

(** *** Groups *)
Lemma group_set_group sd sd' g s :
  present sd s → group_of sd' (set_group sd g s) = if decide (sd' = sd) then g else group_of sd' s.
Proof.
  intros Hp. destruct sd as [| |id], sd' as [| |id']; try done; cbn.
  destruct (decide (Remote id' = Remote id)) as [[= ->]|Hne].
  - rewrite lookup_alter_eq. by destruct Hp as [r ->].
  - rewrite lookup_alter_ne; [done|]. congruence.
Qed.

Lemma present_set_group sd sd' g s : present sd' (set_group sd g s) ↔ present sd' s.
Proof.
  destruct sd as [| |id], sd' as [| |id']; try done; cbn. rewrite lookup_alter. case_decide as E; [|done].
  rewrite fmap_is_Some. by rewrite E.
Qed.

Lemma set_group_same sd s : present sd s → set_group sd (group_of sd s) s = s.
Proof.
  intros Hp. destruct s, sd as [| |id]; try done. cbn in *. unfold set_replicas. cbn. f_equal. destruct Hp as [r Hr].
  apply map_eq. intros id'. rewrite lookup_alter. case_decide as E; [|done]. rewrite <- E. rewrite Hr. by destruct r.
Qed.

Lemma set_group_fields sd g s :
  world_ (set_group sd g s) = world_ s ∧ observed_ (set_group sd g s) = observed_ s ∧ due_ (set_group sd g s) = due_ s ∧
  stage_ (set_group sd g s) = stage_ s ∧ replica_bytes_ (set_group sd g s) = replica_bytes_ s.
Proof. by destruct sd. Qed.

Lemma on_facts_wp {A} sd (m : eff (Origin.Origin (Item := record)) A) (Q : A → State → Prop) E s :
  wp Faulty m (λ x o, Q x (on_group sd (set_facts o) s)) (λ e o, E e (on_group sd (set_facts o) s)) (facts (group_of sd s)) →
  wp Faulty (on_facts sd m) Q E s.
Proof. intros Hm. unfold on_facts. by apply wp_zoom. Qed.

Lemma on_stage_wp {A} (m : eff Views A) (Q : A → State → Prop) E s :
  wp Faulty m (λ x st, Q x (set_stage st s)) (λ e st, E e (set_stage st s)) (stage_ s) → wp Faulty (on_stage m) Q E s.
Proof. intros Hm. unfold on_stage. by apply wp_zoom. Qed.

(** *** Answers from outside *)
Lemma steady_wp (Q : Z → State → Prop) E s :
  typed (world_ s) → (∀ t w, typed w → Q t (set_world w s)) → wp Faulty steady Q E s.
Proof. intros Hw HQ. unfold steady. repeat wp_step. by apply HQ. Qed.

Lemma sharing_wp (Q : (nat → bool) → State → Prop) E s :
  typed (world_ s) → (∀ x w, typed w → Q x (set_world w s)) → wp Faulty sharing Q E s.
Proof. intros Hw HQ. unfold sharing. repeat wp_step. by apply HQ. Qed.

Lemma reading_wp (Q : expected Reading Failure → State → Prop) E s :
  typed (world_ s) →
  (∀ w, typed w → Q (Unexpected failed_clock) (set_world w s)) →
  (∀ v w, typed w → Clock.ready v = true → 0 <= Clock.time v <= time_max →
     (∀ o, observed_ s = Some o → o <= Clock.time v) →
     Q (Expected v) (set_observed (Some (Clock.time v)) (set_world w s))) →
  wp Faulty reading Q E s.
Proof.
  intros Hw H1 H2. unfold reading. wp_step. wp_step. wp_step. wp_step.
  assert (Hw' : typed {| readings := tail (readings (world_ s)); steadies := steadies (world_ s); sharings := sharings (world_ s) |}).
  { unfold typed in *. cbn. destruct (readings (world_ s)); [done|]. by apply Forall_cons in Hw as [_ ?]. }
  destruct (hd None (readings (world_ s))) as [v|] eqn:Ev; [|wp_step; by apply H1].
  apply wp_if; intros Eb; [wp_step; by apply H1|].
  rewrite !orb_false_iff, negb_false_iff, Z.ltb_ge in Eb. destruct Eb as [[E1 E2] E3]. wp_step. wp_step. wp_step.
  apply H2; try done.
  - split; [done|]. unfold typed in Hw. destruct (readings (world_ s)) as [|x l]; [done|]. simpl in Ev.
    apply Forall_cons in Hw as [Hx _]. by apply Hx.
  - intros o Ho. rewrite Ho in E3. by apply Z.ltb_ge in E3.
Qed.

(** *** Frames *)
Definition upd (sd : side) (x : Record_map * Origin.chronicle (Item := record)) (a : Ghost) : Ghost :=
  λ sd', if decide (sd' = sd) then Some x else a sd'.

Lemma state_world running s a w : state_ok running s a → typed w → state_ok running (set_world w s) a.
Proof.
  intros [G1 G2 [O1 O2 O3 O4 O5]] Hw. split; [|done|split; try done].
  - intros sd x Hx. specialize (G1 sd x Hx). by destruct sd.
Qed.

Lemma state_observed running s a t :
  state_ok running s a → 0 <= t <= time_max → (∀ o, observed_ s = Some o → o <= t) →
  state_ok running (set_observed (Some t) s) a.
Proof.
  intros [G1 G2 [O1 O2 O3 O4 O5]] Ht Hle. split; [|done|split; try done].
  - intros sd x Hx. specialize (G1 sd x Hx). assert (Hg : group_of sd (set_observed (Some t) s) = group_of sd s) by (by destruct sd).
    rewrite Hg. destruct G1 as [H1 H2 H3 H4 H5]. split; try done. intros Hr. eapply scheduled_later; [by apply H3|done].
  - by intros t' [= <-].
Qed.

(** A state that differs from another one in the stage, in one group and in the script. *)
Definition shape (sd : side) (u : State) (st : Views) (g : Facts) (w : World) : State :=
  set_stage st (set_group sd g (set_world w u)).

Section shapes.
Context (sd : side) (u : State) (Hp : present sd u).

Lemma shape_same : shape sd u (stage_ u) (group_of sd u) (world_ u) = u.
Proof.
  unfold shape. replace (set_world (world_ u) u) with u by (by destruct u). rewrite set_group_same by done. by destruct u.
Qed.

Lemma shape_group st g w sd' : group_of sd' (shape sd u st g w) = if decide (sd' = sd) then g else group_of sd' u.
Proof.
  transitivity (group_of sd' (set_group sd g (set_world w u))); [by destruct sd'|].
  rewrite group_set_group by (by destruct sd). case_decide; [done|by destruct sd'].
Qed.

Lemma shape_on_group st g w f : on_group sd f (shape sd u st g w) = shape sd u st (f g) w.
Proof.
  unfold on_group. rewrite shape_group, decide_True by done. destruct sd as [| |id]; try done. unfold shape, set_stage, set_group, set_replicas.
  cbn. f_equal. apply map_eq. intros id'. rewrite !lookup_alter.
  case_decide as E; [|done]. rewrite decide_True by done. by destruct (replicas_ u !! _).
Qed.

Lemma shape_world st g w w' : set_world w' (shape sd u st g w) = shape sd u st g w'.
Proof. clear Hp. by destruct sd. Qed.

Lemma shape_stage st g w st' : set_stage st' (shape sd u st g w) = shape sd u st' g w.
Proof. done. Qed.

Lemma shape_present st g w sd' : present sd' (shape sd u st g w) ↔ present sd' u.
Proof. unfold shape. pose proof (present_set_group sd sd' g (set_world w u)). by destruct sd'. Qed.

Lemma shape_fields st g w :
  world_ (shape sd u st g w) = w ∧ observed_ (shape sd u st g w) = observed_ u ∧ due_ (shape sd u st g w) = due_ u ∧
  stage_ (shape sd u st g w) = st.
Proof. clear Hp. by destruct sd. Qed.

Lemma shape_load st g w :
  remote_load (replicas_ (shape sd u st g w)) =
  remote_load (replicas_ u) +
  match sd with Remote _ => held_bytes (facts g) - held_bytes (facts (group_of sd u)) | _ => 0 end.
Proof.
  destruct sd as [| |id]; cbn; [lia..|]. destruct Hp as [r Hr]. cbn in Hr. rewrite Hr.
  assert (Ha : alter (regroup g) id (replicas_ u) = <[id := regroup g r]> (replicas_ u)).
  { apply map_eq. intros id'. rewrite lookup_alter, lookup_insert. case_decide as E; [|done]. subst id'. by rewrite Hr. }
  rewrite Ha. unfold remote_load. rewrite (map_sum_insert _ _ _ r) by done. cbn. lia.
Qed.

(** The whole state again, after the group and the stage have been settled. *)
Lemma shape_ok_bytes running a st g w x b :
  state_ok running u a → typed w → group_ok (bool_decide (running = Some sd)) (observed_ u) sd g x →
  due_ u <= next_of g → stage_fits st (showing (upd sd x a)) →
  b = remote_load (replicas_ (shape sd u st g w)) → b <= replica_bytes_limit limits_ →
  state_ok running (set_replicas (replicas_ (shape sd u st g w)) b (shape sd u st g w)) (upd sd x a).
Proof.
  intros [G1 G2 [O1 O2 O3 O4 O5]] Hw Hg Hdue Hst Hb Hlim. destruct (shape_fields st g w) as (F1 & F2 & F3 & F4).
  set (v := set_replicas _ _ _). assert (Hv : ∀ sd', group_of sd' v = group_of sd' (shape sd u st g w)) by (by intros []).
  assert (Hpv : ∀ sd', present sd' v ↔ present sd' (shape sd u st g w)) by (by intros []).
  assert (Ho : observed_ v = observed_ u) by done. assert (Hd : due_ v = due_ u) by done.
  assert (Hst' : stage_ v = st) by done. assert (Hwv : world_ v = w) by done. split.
  - intros sd' x'. unfold upd. rewrite Hv, shape_group, Ho. destruct (decide (sd' = sd)) as [E|E]; [|apply G1].
    intros Hx. injection Hx as <-. by subst sd'.
  - by rewrite Hst'.
  - split; rewrite ?Hwv, ?Ho, ?Hd; try done.
    + intros sd'. rewrite Hpv, shape_present. unfold upd. destruct (decide (sd' = sd)) as [E|E]; [|apply O3].
      subst sd'. split; [done|by eexists].
    + intros sd' Hp'. rewrite Hv, shape_group. destruct (decide (sd' = sd)); [done|]. apply O4. by apply Hpv, shape_present in Hp'.
Qed.

Lemma shape_ok running a st g w x :
  state_ok running u a → typed w → group_ok (bool_decide (running = Some sd)) (observed_ u) sd g x →
  due_ u <= next_of g → stage_fits st (showing (upd sd x a)) →
  (∀ id, sd = Remote id → held_bytes (facts g) = held_bytes (facts (group_of sd u))) →
  state_ok running (shape sd u st g w) (upd sd x a).
Proof.
  intros Hok Hw Hg Hdue Hst Hheld. pose proof (ou_bytes _ _ (st_outside _ _ _ Hok)) as [O5 O6].
  pose proof (shape_ok_bytes running a st g w x (replica_bytes_ u) Hok Hw Hg Hdue Hst) as Hs.
  replace (set_replicas _ _ _) with (shape sd u st g w) in Hs by (clear; by destruct sd). apply Hs; [|done].
  rewrite shape_load. destruct sd as [| |id]; [lia..|]. rewrite (Hheld id eq_refl). lia.
Qed.
End shapes.

Lemma upd_same sd x a : a sd = Some x → ∀ sd', upd sd x a sd' = a sd'.
Proof. intros Ha sd'. unfold upd. destruct (decide (sd' = sd)) as [->|]; by rewrite ?Ha. Qed.

Lemma state_ghost running s a a' : (∀ sd, a' sd = a sd) → state_ok running s a → state_ok running s a'.
Proof.
  intros Heq [G1 G2 [O1 O2 O3 O4 O5]]. split; [|eapply stage_ext; [|done]|split; try done].
  - intros sd x. rewrite Heq. apply G1.
  - intros sc k. unfold showing. by rewrite Heq.
  - intros sd. rewrite Heq. apply O3.
Qed.

(** *** Preparing edits *)
Definition oom (e : exn) : Prop := e = bad_alloc ∨ e = overflow_error.

Lemma group_of_world sd w s : group_of sd (set_world w s) = group_of sd s.
Proof. by destruct sd. Qed.

Lemma prepare_fact_wp sd sc k r position form u m log (Q : expected (Origin.Edit (Item := record)) Failure → State → Prop) E :
  typed (world_ u) → origin_ok (is_own sd) lim (facts (group_of sd u)) m log →
  (∀ w o e, typed w → origin_ok (is_own sd) lim o m log → Q (Unexpected e) (on_group sd (set_facts o) (set_world w u))) →
  (∀ w o e now, typed w →
     editable (is_own sd) lim m log {| Origin.scope := sc; Origin.key := k |} r position form now e o →
     Q (Expected e) (on_group sd (set_facts o) (set_world w u))) →
  (∀ w o e, typed w → oom e → origin_ok (is_own sd) lim o m log → E e (on_group sd (set_facts o) (set_world w u))) →
  wp Faulty (prepare_fact sd sc k r position form) Q E u.
Proof.
  intros Hw Hok H1 H2 H3. unfold prepare_fact. wp_step. apply sharing_wp; [done|]. intros x w1 Hw1.
  wp_step. apply steady_wp; [done|]. intros now w2 Hw2. replace (set_world w2 (set_world w1 u)) with (set_world w2 u) by done.
  unfold refusing. wp_step. apply on_facts_wp. rewrite group_of_world.
  eapply wp_mono; [apply (origin_prepare_wp false _ _ (lf_source HL) x _ m log); exact Hok| |].
  - intros [e|e] o Ho; wp_step; [by eapply H2|by apply H1].
  - intros e o [He Ho]. by apply H3.
Qed.

Lemma prepare_scene_wp sc k x keep u c v (Q : expected (Scene.Edit (Item := Content)) Failure → State → Prop) E :
  typed (world_ u) → stage_fits (stage_ u) c → scene_at sc (stage_ u) = Some v →
  keep = history_limit limits_ - (Stage.history_ (stage_ u) - Scene.backlog_ v) →
  (∀ w st e, typed w → stage_fits st c → is_Some (scene_at sc st) → notices st = notices (stage_ u) →
     Q (Unexpected e) (set_stage st (set_world w u))) →
  (∀ w st e, typed w →
     projecting (projection_limits limits_) (scopes_limit limits_) (history_limit limits_) st c sc k x (Scene.backlog_ v) (notices (stage_ u)) e →
     Q (Expected e) (set_stage st (set_world w u))) →
  (∀ w st e, typed w → oom e → stage_fits st c → is_Some (scene_at sc st) → notices st = notices (stage_ u) →
     E e (set_stage st (set_world w u))) →
  wp Faulty (prepare_scene sc k x keep) Q E u.
Proof.
  intros Hw Hok Hv Hkeep H1 H2 H3. unfold prepare_scene. wp_step. apply sharing_wp; [done|]. intros f w1 Hw1.
  wp_step. apply steady_wp; [done|]. intros now w2 Hw2. replace (set_world w2 (set_world w1 u)) with (set_world w2 u) by done.
  unfold refusing. wp_step. apply on_stage_wp.
  eapply wp_mono; [by apply (prepare_stage_wp _ _ _ (lf_stage HL) f _ c sc v)| |].
  - intros [e|e] st Hst; wp_step; [by apply H2|]. destruct Hst as (? & ? & ?). by apply H1.
  - intros e st (? & ? & ? & ?). by apply H3.
Qed.
End state.
