(* ===== verification/CatalogExpiry.v ===== *)
(** Expiry in the Catalog ([catalog_state.cpp], [catalog_replica.cpp]).

    The leases of every group of facts hang on an agenda.  This file shows that the
    callback the Catalog hands to [Agenda::advance] does its duty: an expired fact
    becomes the watermark of its version, its timer goes, and where the fact was
    public the projection of its scope withdraws it.  A failed expiry changes
    nothing, so that whatever is thrown on the way the state still fits together. *)
From stdpp Require Import base numbers strings gmap list.
From S2P Require Import Prelude.
From S2P Require Import Clock.
From S2P Require Import Wheel.
From S2P Require Import Agenda.
From S2P Require Import Timetable.
From S2P Require Import Scope.
From S2P Require Import Index.
From S2P Require Import Scene.
From S2P Require Import Stage.
From S2P Require Import Origin.
From S2P Require Import Leased.
From S2P Require Import Catalog.
From S2P Require Import CatalogState.

Section expiry.
Context `{Sizes} (limits_ : CatalogState.Limits) (HL : limits_fit limits_).
Abbreviation Running := (wheel Name * (frame * State))%type.
Abbreviation Record_map := (gmap Name record).
Abbreviation Group := (Record_map * Origin.chronicle (Item := record))%type.
Abbreviation Ghost := (side → option Group).
Abbreviation lim := (source_limits limits_).
Implicit Types (a : Ghost) (m : Record_map) (u s : State).

(** ** What time does to the facts *)
Definition watermark (r : record) : record := {| version := version r; value := None; deadline := None |}.

(** Records whose deadline has passed may have become watermarks; nothing else. *)
Definition faded (now : Z) (x x' : option record) : Prop :=
  x' = x ∨ ∃ r d, x = Some r ∧ deadline r = Some d ∧ d <= now ∧ x' = Some (watermark r).
Definition lapsed (now : Z) m m' : Prop := ∀ n, faded now (m !! n) (m' !! n).

(** A remote Star that has been retired goes with its last lease. *)
Definition aged (now : Z) a a' : Prop :=
  ∀ sd, match a sd, a' sd with
        | Some x, Some x' => lapsed now x.1 x'.1 ∧ x'.2 = x.2
        | None, None => True
        | Some _, None => ∃ id, sd = Remote id
        | None, Some _ => False
        end.

Lemma lapsed_refl now m : lapsed now m m.
Proof. intros n. by left. Qed.

Lemma lapsed_trans now m1 m2 m3 : lapsed now m1 m2 → lapsed now m2 m3 → lapsed now m1 m3.
Proof.
  intros H1 H2 n. destruct (H2 n) as [->|(r & d & Hr & Hd & Hle & ->)]; [apply H1|].
  destruct (H1 n) as [E|(r' & d' & _ & _ & _ & E)]; rewrite E in Hr.
  - right. by exists r, d.
  - by injection Hr as <-.
Qed.

Lemma aged_refl now a : aged now a a.
Proof. intros sd. destruct (a sd); [|done]. split; [apply lapsed_refl|done]. Qed.

Lemma aged_trans now a1 a2 a3 : aged now a1 a2 → aged now a2 a3 → aged now a1 a3.
Proof.
  intros H1 H2 sd. specialize (H1 sd). specialize (H2 sd). destruct (a1 sd), (a2 sd), (a3 sd); try done.
  destruct H1 as [H1 E1], H2 as [H2 E2]. split; [by eapply lapsed_trans|congruence].
Qed.

Lemma lapsed_one now m n r d :
  m !! n = Some r → deadline r = Some d → d <= now → lapsed now m (<[n := watermark r]> m).
Proof.
  intros Hn Hd Hle n'. destruct (decide (n' = n)) as [->|Hne]; [|left; by rewrite lookup_insert_ne].
  right. exists r, d. by rewrite lookup_insert_eq.
Qed.

Lemma aged_upd now a sd x x' : a sd = Some x → lapsed now x.1 x'.1 → x'.2 = x.2 → aged now a (upd sd x' a).
Proof.
  intros Ha H1 H2 sd'. unfold upd. destruct (decide (sd' = sd)) as [->|]; [by rewrite Ha|]. apply aged_refl.
Qed.

Lemma expired_record r t d : deadline r = Some d → d <= t → Catalog.expire r t = watermark r.
Proof. intros Hd Hle. unfold Catalog.expire. rewrite Hd. by rewrite (proj2 (Z.leb_le _ _) Hle). Qed.

(** What an operation on one group leaves as it was. *)
Record beside (sd : side) u u' : Prop := {
  be_observed : observed_ u' = observed_ u;
  be_due : due_ u' = due_ u;
  be_agenda : agenda (group_of sd u') = agenda (group_of sd u);
  be_group : ∀ sd', sd' ≠ sd → group_of sd' u' = group_of sd' u;
  be_replicas : (λ r, (coverage r, retired r, lent r)) <$> replicas_ u' = (λ r, (coverage r, retired r, lent r)) <$> replicas_ u
}.

Lemma beside_refl sd u : beside sd u u.
Proof. done. Qed.

Lemma beside_shape sd u st g w : present sd u → agenda g = agenda (group_of sd u) → beside sd u (shape sd u st g w).
Proof.
  intros Hp Hg. destruct (shape_fields sd u st g w) as (_ & F2 & F3 & _). split; [done|done| | |].
  - by rewrite shape_group, decide_True by done.
  - intros sd' Hne. by rewrite shape_group, decide_False by done.
  - clear -Hp. destruct sd as [| |id]; try done. apply map_eq. intros id'. rewrite !lookup_fmap. unfold shape. cbn. rewrite lookup_alter.
    case_decide as E; [|done]. subst id'. by destruct (replicas_ u !! id).
Qed.

(** ** Settling an edit of one group *)
Section settle.
Context (running : option side) (u : State) (a : Ghost) (Hok : state_ok limits_ running u a).
Context (sd : side) (m : Record_map) (log : Origin.chronicle (Item := record)) (Ha : a sd = Some (m, log)).

Lemma there : present sd u.
Proof. apply (ou_there _ _ _ (st_outside _ _ _ _ Hok)). by eexists. Qed.

Lemma group_fits : group_ok limits_ (bool_decide (running = Some sd)) (observed_ u) sd (group_of sd u) (m, log).
Proof. by apply (st_group _ _ _ _ Hok). Qed.

Lemma facts_fit : origin_ok (is_own sd) lim (facts (group_of sd u)) m log.
Proof. apply group_fits. Qed.

Lemma refit o st w :
  typed w → origin_ok (is_own sd) lim o m log → stage_fits limits_ st (showing a) →
  state_ok limits_ running (shape sd u st (set_facts o (group_of sd u)) w) a.
Proof.
  intros Hw Ho Hst. pose proof there as Hp. pose proof group_fits as Hg. apply (state_ghost limits_ running _ (upd sd (m, log) a)).
  { intros sd'. symmetry. by apply upd_same. }
  apply shape_ok; try done.
  - by destruct Hg.
  - by apply (ou_due _ _ _ (st_outside _ _ _ _ Hok)).
  - eapply stage_ext; [|exact Hst]. intros sc k. unfold showing. by rewrite (upd_same sd (m, log) a Ha All).
  - intros id _. cbn. rewrite (held_load _ _ _ _ _ Ho). by rewrite (held_load _ _ _ _ _ facts_fit).
Qed.

Lemma shape_facts o w : on_group sd (set_facts o) (set_world w u) = shape sd u (stage_ u) (set_facts o (group_of sd u)) w.
Proof.
  pose proof there as Hp. unfold on_group. rewrite group_of_world. unfold shape.
  destruct (set_group_fields sd (set_facts o (group_of sd u)) (set_world w u)) as (_ & _ & _ & E & _).
  set (x := set_group _ _ _) in *. transitivity (set_stage (stage_ x) x); [by destruct x|]. by rewrite E.
Qed.
End settle.

Lemma editable_quiet sd m log n r form now e o :
  editable (is_own sd) lim m log n r None form now e o →
  origin_ok (is_own sd) lim (Origin.commit e o) (next_shown n r m) log.
Proof.
  intros He. pose proof (editable_commit _ _ (lf_source _ HL) _ _ _ _ _ _ _ _ _ He) as Hc.
  destruct He as (_ & _ & o0 & fl0 & es & rows & fl1 & _ & _ & _ & _ & _ & Hrec).
  assert (Hq : announced e form now = []).
  { unfold announced. rewrite (rc_queue _ _ _ _ _ _ _ _ Hrec). by rewrite andb_false_r. }
  rewrite Hq in Hc. destruct log as [tl pl]. unfold extend in Hc. cbn in Hc. by rewrite app_nil_r in Hc.
Qed.

Lemma wp_inner {A} (x : eff State A) (Q : A → Running → Prop) E w fr s :
  wp Faulty x (λ v s', Q v (w, (fr, s'))) (λ e s', E e (w, (fr, s'))) s → wp Faulty (inner x) Q E (w, (fr, s)).
Proof. intros Hx. unfold inner. by apply wp_zoom. Qed.

(** ** One expiry *)
Section expire.
Context (sd : side) (Hsd : sd = Own ∨ sd = All) (n : Name) (t : Z) (u : State) (a : Ghost).
Context (Hok : state_ok limits_ (Some sd) u a) (m : Record_map) (log : Origin.chronicle (Item := record)) (Ha : a sd = Some (m, log)).
Context (r : record) (d : Z) (Hr : m !! n = Some r) (Hd : deadline r = Some d).
Abbreviation sc := (Origin.scope n).
Abbreviation k := (Origin.key n).
Abbreviation g := (group_of sd u).

(** The edit of the projection, when there is one. *)
Definition staging (before : Z) (pr : option (Scene.Edit (Item := Content))) (st : Stage) : Prop :=
  match pr with
  | Some e => projected sd = true ∧
      projecting (projection_limits limits_) (scopes_limit limits_) (history_limit limits_) st (showing a) sc k None before (notices (stage_ u)) e
  | None => projected sd = false ∧ stage_fits limits_ st (showing a)
  end.
Definition retracted (before : Z) (pr : option (Scene.Edit (Item := Content))) (st : Stage) : Stage :=
  match pr with Some e => release sc before e st | None => st end.

Definition after : Ghost := upd sd (<[n := watermark r]> m, log) a.

Lemma carries : ∃ b, value r = Some b ∧ valid r = true.
Proof.
  pose proof (go_sound _ _ _ _ _ _ (group_fits _ _ _ Hok _ _ _ Ha) n r Hr) as Hv. destruct (valid_shape r Hv) as [_ [[_ E]|(b & d' & E & _)]].
  - congruence.
  - by exists b.
Qed.

Lemma showing_after before pr st : staging before pr st → stage_fits limits_ (retracted before pr st) (showing after).
Proof.
  destruct pr as [e|]; cbn.
  - intros [Hpr [_ _ _ Hrel]]. unfold projected in Hpr. apply bool_decide_eq_true in Hpr. eapply stage_ext; [|exact Hrel].
    intros sc' k'. unfold showing, after, upd, Stage.amend. rewrite Hpr, decide_True by done. cbn. rewrite Hpr in Ha. rewrite Ha. cbn.
    unfold content_of. destruct (decide (sc' = sc ∧ k' = k)) as [[-> ->]|Hne].
    + replace {| Origin.scope := sc; Origin.key := k |} with n by (by destruct n). by rewrite lookup_insert_eq.
    + rewrite lookup_insert_ne; [done|]. intros ->. by apply Hne.
  - intros [Hpr Hst]. unfold projected in Hpr. apply bool_decide_eq_false in Hpr. eapply stage_ext; [|exact Hst].
    intros sc' k'. unfold showing, after, upd. by rewrite decide_False.
Qed.

Lemma watermark_group o :
  origin_ok (is_own sd) lim o (<[n := watermark r]> m) log →
  group_ok limits_ true (observed_ u) sd (set_timers (timers g ∖ {[n]}) (set_facts o g)) (<[n := watermark r]> m, log).
Proof.
  intros Ho. pose proof (group_fits _ _ _ Hok _ _ _ Ha) as Hg. destruct Hg as [G1 G2 G3 G4 G5]. cbn [fst snd] in *. split; cbn [fst snd]; try done.
  - intros n'. cbn. rewrite lease_insert. rewrite elem_of_difference, elem_of_singleton, G2.
    destruct (decide (n' = n)) as [->|]; [split; [naive_solver|by intros []]|naive_solver].
  - apply map_Forall_insert_2; [|done]. destruct carries as (b & _ & Hv). unfold valid in *.
    cbn. apply andb_true_iff in Hv as [[Hv _]%andb_true_iff _]. by rewrite Hv.
  - intros n' d'. rewrite lease_insert. destruct (decide (n' = n)); [done|apply G5].
Qed.

Lemma expire_settled before pr st o w :
  typed w → staging before pr st → origin_ok (is_own sd) lim o (<[n := watermark r]> m) log →
  state_ok limits_ (Some sd) (shape sd u (retracted before pr st) (set_timers (timers g ∖ {[n]}) (set_facts o g)) w) after.
Proof.
  intros Hw Hst Ho. apply shape_ok; try done.
  - by eapply there.
  - rewrite bool_decide_eq_true_2 by done. by apply watermark_group.
  - apply (ou_due _ _ _ (st_outside _ _ _ _ Hok)). by eapply there.
  - by apply showing_after.
  - intros id ->. by destruct Hsd.
Qed.

Definition expired (w : wheel Name) (fr : frame) (x : expected unit Failure) (z : Running) : Prop :=
  z.2.1 = fr ∧ beside sd u z.2.2 ∧
  match x with
  | Expected _ => z.1 = Agenda.erase n w ∧ state_ok limits_ (Some sd) z.2.2 after
  | Unexpected _ => z.1 = w ∧ state_ok limits_ (Some sd) z.2.2 a
  end.
Definition spared (w : wheel Name) (fr : frame) (e : exn) (z : Running) : Prop :=
  oom e ∧ z.2.1 = fr ∧ z.1 = w ∧ beside sd u z.2.2 ∧ state_ok limits_ (Some sd) z.2.2 a.

(** The public projection of the record can be edited. *)
Lemma room_wp (Q : expected (Z * Z) Failure → State → Prop) E :
  (∀ e, Q (Unexpected e) u) → E bad_alloc u →
  (∀ before keep,
     (projected sd = true → ∃ v, scene_at sc (stage_ u) = Some v ∧ before = Scene.backlog_ v ∧
        keep = history_limit limits_ - (Stage.history_ (stage_ u) - Scene.backlog_ v)) →
     Q (Expected (before, keep)) u) →
  wp Faulty (if projected sd then
               _ <-? obtain_scope limits_ sc ;;
               before <- on_stage (on_scene sc history_bytes) ;;
               retention <- on_stage (allowance (history_limit limits_) sc) ;;
               ret (Expected (before, retention))
             else ret (Expected (0, 0))) Q E u.
Proof.
  intros H1 H2 H3. destruct carries as (b & Hb & _). destruct (projected sd) eqn:Hpr; [|wp_step; by apply H3].
  pose proof (st_stage _ _ _ _ Hok) as Hst. assert (Hsame : set_stage (stage_ u) u = u) by (by destruct u).
  assert (Hv : is_Some (scene_at sc (stage_ u))).
  { destruct (scene_at sc (stage_ u)) eqn:E1; [by eexists|]. exfalso. pose proof (sg_shows _ _ _ _ _ Hst sc k) as Hs.
    rewrite (sg_silent _ _ _ _ _ Hst sc E1) in Hs. unfold showing, content_of in Hs.
    apply bool_decide_eq_true in Hpr. rewrite Hpr in Ha. rewrite Ha in Hs. cbn in Hs.
    replace {| Origin.scope := sc; Origin.key := k |} with n in Hs by (by destruct n). rewrite Hr in Hs. cbn in Hs.
    by rewrite Hb in Hs. }
  apply wp_try. unfold obtain_scope. wp_step. apply on_stage_wp.
  eapply wp_mono; [apply (obtain_stage_wp _ _ _ (lf_stage _ HL) _ (showing a)); exact Hst| |].
  - intros [| |] st Hx; wp_step; try (subst st; rewrite Hsame; apply H1). destruct Hx as (_ & _ & _ & Hx). rewrite decide_True in Hx by done.
    subst st. rewrite Hsame. destruct Hv as [v Hv]. wp_step. apply on_stage_wp. eapply history_wp; [exact Hst|exact Hv|]. rewrite Hsame.
    wp_step. apply on_stage_wp. eapply allowance_wp; [apply HL|exact Hst|exact Hv|]. rewrite Hsame. wp_step. apply H3. intros _. by exists v.
  - intros e st [-> ->]. by rewrite Hsame.
Qed.

Lemma project_wp before keep o w (Q : expected (option (Scene.Edit (Item := Content))) Failure → State → Prop) E :
  typed w →
  (projected sd = true → ∃ v, scene_at sc (stage_ u) = Some v ∧ before = Scene.backlog_ v ∧
     keep = history_limit limits_ - (Stage.history_ (stage_ u) - Scene.backlog_ v)) →
  (∀ w st e, typed w → stage_fits limits_ st (showing a) → Q (Unexpected e) (shape sd u st (set_facts o g) w)) →
  (∀ w st pr, typed w → staging before pr st → Q (Expected pr) (shape sd u st (set_facts o g) w)) →
  (∀ w st e, typed w → oom e → stage_fits limits_ st (showing a) → E e (shape sd u st (set_facts o g) w)) →
  wp Faulty (if projected sd then e <-? prepare_scene limits_ sc k None keep ;; ret (Expected (Some e)) else ret (Expected None))
    Q E (shape sd u (stage_ u) (set_facts o g) w).
Proof.
  intros Hw Hroom H1 H2 H3. pose proof (st_stage _ _ _ _ Hok) as Hst. destruct (projected sd) eqn:Hpr.
  2: { wp_step. by apply H2. }
  destruct (Hroom eq_refl) as (v & Hv & Hb & Hk). apply wp_try.
  assert (Hgo : ∀ st w', set_stage st (set_world w' (shape sd u (stage_ u) (set_facts o g) w)) = shape sd u st (set_facts o g) w').
  { intros st w'. by rewrite shape_world. }
  apply (prepare_scene_wp limits_ HL _ _ _ _ _ (showing a) v); rewrite ?(proj2 (proj2 (proj2 (shape_fields _ _ _ _ _)))); try done.
  - by rewrite (proj1 (shape_fields _ _ _ _ _)).
  - intros w' st e Hw' Hf _ _. rewrite Hgo. by apply H1.
  - intros w' st e Hw' Hp. rewrite Hgo. wp_step. apply H2; [done|]. split; [done|]. by rewrite Hb.
  - intros w' st e Hw' He Hf _ _. rewrite Hgo. by apply H3.
Qed.

Lemma expire_wp w fr : d <= t → wp Faulty (expire limits_ sd n t) (expired w fr) (spared w fr) (w, (fr, u)).
Proof.
  intros Hle. pose proof (there _ _ _ Hok _ _ _ Ha) as Hp. pose proof (facts_fit _ _ _ Hok _ _ _ Ha) as Hfacts.
  pose proof (st_stage _ _ _ _ Hok) as Hst. pose proof (ou_world _ _ _ (st_outside _ _ _ _ Hok)) as Hworld.
  destruct carries as (b & Hb & _). assert (Hself : spared w fr bad_alloc (w, (fr, u))) by (by split_and!; [left|..]).
  assert (Hbeside : ∀ st o w', beside sd u (shape sd u st (set_facts o g) w')) by (intros; by apply beside_shape).
  assert (Hback : ∀ st o w', typed w' → origin_ok (is_own sd) lim o m log → stage_fits limits_ st (showing a) →
    state_ok limits_ (Some sd) (shape sd u st (set_facts o g) w') a) by (intros; by eapply refit).
  unfold expire. wp_step. apply wp_inner, on_facts_wp. eapply find_wp; [exact Hfacts|].
  replace {| Origin.scope := sc; Origin.key := k |} with n by (by destruct n). rewrite Hr, Hb, Hd, (proj2 (Z.ltb_ge _ _) Hle).
  replace (on_group sd (set_facts (facts g)) u) with u.
  2: { unfold on_group. rewrite <- (set_group_same sd u Hp) at 1. f_equal. by destruct g. }
  apply wp_try, wp_inner, room_wp; [by intros e|done|]. intros before keep Hroom. cbn [fst snd].
  apply wp_try, wp_inner. eapply prepare_fact_wp; [apply HL|exact Hworld|exact Hfacts|..].
  - intros w' o e Hw' Ho. rewrite (shape_facts _ _ _ Hok _ _ _ Ha). split_and!; try done; cbn; auto.
  - intros w' o origin now Hw' He. replace {| Origin.scope := sc; Origin.key := k |} with n in He by (by destruct n).
    rewrite (shape_facts _ _ _ Hok _ _ _ Ha). apply wp_scoped.
    pose proof (editable_abort _ _ _ _ _ _ _ _ _ _ _ He) as Hab. pose proof (editable_quiet _ _ _ _ _ _ _ _ _ He) as Hco.
    rewrite (expired_record r t d Hd Hle) in Hco. cbn [next_shown] in Hco.
    assert (Hundo : ∀ st w'', abort_fact sd origin (shape sd u st (set_facts o g) w'') = shape sd u st (set_facts (Origin.abort origin o) g) w'').
    { intros. unfold abort_fact. by rewrite shape_on_group. }
    apply wp_try, wp_inner, (project_wp before keep); try done.
    + intros w'' st e Hw'' Hf. split_and!; cbn; rewrite ?Hundo; auto.
    + intros w'' st pr Hw'' Hs. apply wp_scoped. wp_step. apply wp_inner. wp_step. rewrite shape_group, decide_True by done.
      rewrite bool_decide_eq_true_2.
      2: { apply (go_timers _ _ _ _ _ _ (group_fits _ _ _ Hok _ _ _ Ha)). unfold lease_of. cbn. rewrite Hr. by eexists. }
      cbn [negb]. do 2 (wp_step; apply wp_inner; wp_step). wp_step. wp_step. cbn [fst snd]. do 2 (wp_step; apply wp_inner; wp_step). wp_step.
      replace (publish_scene _ _ _ _) with
        (shape sd u (retracted before pr st) (set_timers (timers g ∖ {[n]}) (set_facts (Origin.commit origin o) g)) w'').
      2: { unfold commit_fact, unhook. rewrite shape_on_group by done. destruct pr as [e|]; cbn; unfold publish_scene, commit_scene.
        - rewrite shape_stage, shape_on_group by done. by rewrite shape_stage.
        - by rewrite shape_on_group. }
      split_and!; [done|by apply beside_shape|done|]. by apply expire_settled.
    + intros w'' st e Hw'' He' Hf. split_and!; cbn; rewrite ?Hundo; auto.
  - intros w' o e Hw' He Ho. rewrite (shape_facts _ _ _ Hok _ _ _ Ha). split_and!; cbn; auto.
Qed.

(** Facts of a remote Star: the account of all remote facts follows. *)
Definition remote_spared (w : wheel Name) (fr : frame) (e : exn) (z : Running) : Prop :=
  (oom e ∨ e = runtime_error) ∧ z.2.1 = fr ∧ z.1 = w ∧ beside sd u z.2.2 ∧ state_ok limits_ (Some sd) z.2.2 a.

Lemma total_wp (m' : Record_map) log' u' (Q : Z → State → Prop) E :
  present sd u' → origin_ok (is_own sd) lim (facts (group_of sd u')) m' log' → Q (load m') u' → wp Faulty (total_bytes sd) Q E u'.
Proof.
  intros Hp Ho HQ. unfold total_bytes. apply on_facts_wp. eapply held_wp; [exact Ho|].
  replace (on_group sd (set_facts (facts (group_of sd u'))) u') with u'; [done|].
  unfold on_group. rewrite <- (set_group_same sd u' Hp) at 1. f_equal. by destruct (group_of sd u').
Qed.

Lemma remote_account id : sd = Remote id →
  let b := wrap64 (wrap64 (replica_bytes_ u - load m) + load (<[n := watermark r]> m)) in
  b = replica_bytes_ u + (load (<[n := watermark r]> m) - load m) ∧ b <= replica_bytes_limit limits_.
Proof.
  intros Eid. cbv zeta. pose proof (ou_bytes _ _ _ (st_outside _ _ _ _ Hok)) as [Hb Hmax]. pose proof (lf_bytes _ HL) as Hlim.
  assert (Hless : load (<[n := watermark r]> m) <= load m).
  { eapply load_replace; [exact Hr|]. cbn. apply measure_value_range. }
  pose proof (load_nonneg (<[n := watermark r]> m)) as H0.
  assert (Hin : load m <= replica_bytes_ u).
  { rewrite Hb. pose proof (there _ _ _ Hok _ _ _ Ha) as Hp. pose proof (facts_fit _ _ _ Hok _ _ _ Ha) as Hf.
    rewrite <- (held_load _ _ _ _ _ Hf). rewrite Eid in Hp |- *. destruct Hp as [rep Hrep]. cbn. rewrite Hrep.
    apply (map_sum_member (λ _ r, held_bytes (facts (group r))) (replicas_ u) id rep); [|done].
    intros id' rep' Hrep'. destruct (proj2 (ou_there _ _ _ (st_outside _ _ _ _ Hok) (Remote id'))) as [[m' log'] Hx]; [by eexists|].
    pose proof (facts_fit _ _ _ Hok _ _ _ Hx) as Hf'. cbn in Hf'. rewrite Hrep' in Hf'. rewrite (held_load _ _ _ _ _ Hf'). apply load_nonneg. }
  rewrite (wrap64_small (replica_bytes_ u - load m)) by (unfold is_u64; lia). rewrite wrap64_small by (unfold is_u64; lia). lia.
Qed.

Lemma expire_remote_wp id w fr : sd = Remote id → d <= t →
  wp Faulty (expire_remote limits_ sd n r t)
    (λ _ z, expired w fr (Expected tt) z) (remote_spared w fr) (w, (fr, u)).
Proof.
  intros Eid Hle. pose proof (there _ _ _ Hok _ _ _ Ha) as Hp. pose proof (facts_fit _ _ _ Hok _ _ _ Ha) as Hfacts.
  pose proof (ou_world _ _ _ (st_outside _ _ _ _ Hok)) as Hworld. pose proof (remote_account id Eid) as Hacc. cbv zeta in Hacc.
  assert (Hback : ∀ o w', typed w' → origin_ok (is_own sd) lim o m log →
    state_ok limits_ (Some sd) (shape sd u (stage_ u) (set_facts o g) w') a) by (intros; eapply refit; try done; apply Hok).
  assert (Hbeside : ∀ st o w', beside sd u (shape sd u st (set_facts o g) w')) by (intros; by apply beside_shape).
  unfold expire_remote. wp_step. apply wp_inner. eapply total_wp; [done|exact Hfacts|].
  wp_step. apply wp_inner. eapply prepare_fact_wp; [apply HL|exact Hworld|exact Hfacts|..].
  - intros w' o e Hw' Ho. rewrite (shape_facts _ _ _ Hok _ _ _ Ha). wp_step. split_and!; cbn; auto.
  - intros w' o origin now Hw' He. replace {| Origin.scope := sc; Origin.key := k |} with n in He by (by destruct n).
    rewrite (shape_facts _ _ _ Hok _ _ _ Ha). pose proof (editable_quiet _ _ _ _ _ _ _ _ _ He) as Hco.
    rewrite (expired_record r t d Hd Hle) in Hco. cbn [next_shown] in Hco.
    wp_step. apply wp_inner. wp_step. unfold commit_fact. rewrite shape_on_group by done. cbn [set_facts facts agenda timers].
    set (v := shape sd u _ _ _).
    assert (Hpv : present sd v) by (by apply shape_present).
    assert (Hgv : group_of sd v = set_facts (Origin.commit origin o) g).
    { unfold v. by rewrite shape_group, decide_True by done. }
    wp_step. apply wp_inner. eapply total_wp; [done|rewrite Hgv; exact Hco|]. wp_step. apply wp_inner. wp_step. wp_step. wp_step. apply wp_inner. wp_step.
    assert (Hbv : replica_bytes_ v = replica_bytes_ u) by (unfold v; clear; by destruct sd). rewrite Hbv. cbn [fst snd].
    set (b := wrap64 (wrap64 _ + _)) in *. destruct Hacc as [Hb1 Hb2].
    set (g' := set_timers (timers g ∖ {[n]}) (set_facts (Origin.commit origin o) g)).
    replace (unhook sd n (set_replicas (replicas_ v) b v)) with
      (set_replicas (replicas_ (shape sd u (stage_ u) g' w')) b (shape sd u (stage_ u) g' w')).
    2: { transitivity (set_replicas (replicas_ (unhook sd n v)) b (unhook sd n v)); [|clear; by destruct sd].
      unfold unhook, v. by rewrite shape_on_group. }
    pose proof (beside_shape sd u (stage_ u) g' w' Hp eq_refl) as [B1 B2 B3 B3' B4].
    split_and!; [done|split; [exact B1|exact B2|rewrite <- B3; clear; by destruct sd|intros sd' Hne; rewrite <- B3' by done; clear; by destruct sd'|exact B4]|done|].
    apply shape_ok_bytes; try done.
    + rewrite bool_decide_eq_true_2 by done. by apply watermark_group.
    + by apply (ou_due _ _ _ (st_outside _ _ _ _ Hok)).
    + apply (showing_after 0 None). split; [by rewrite Eid|]. apply Hok.
    + rewrite shape_load by done. rewrite Eid at 1. rewrite Hb1. rewrite (proj1 (ou_bytes _ _ _ (st_outside _ _ _ _ Hok))).
      unfold g'. cbn [set_timers set_facts facts]. rewrite (held_load _ _ _ _ _ Hco), (held_load _ _ _ _ _ Hfacts). lia.
  - intros w' o e Hw' He Ho. rewrite (shape_facts _ _ _ Hok _ _ _ Ha). split_and!; cbn; auto.
Qed.
End expire.

(** ** The callback of an agenda *)
Definition halt (e : exn) : Prop := oom e ∨ e = runtime_error.

Lemma beside_trans sd u1 u2 u3 : beside sd u1 u2 → beside sd u2 u3 → beside sd u1 u3.
Proof. intros [? ? ? A1 ?] [? ? ? A2 ?]. split; try congruence. intros sd' Hne. by rewrite A2, A1. Qed.

Section callback.
Context (sd : side) (s0 : State) (a0 : Ghost) (now : Z).

Definition leases u (n : Name) : option Z := found (facts (group_of sd u)) n ≫= deadline.
Definition under_way u : Prop :=
  ∃ a, state_ok limits_ (Some sd) u a ∧ is_Some (a sd) ∧ aged now a0 a ∧ beside sd s0 u.

Lemma leases_of running u a m log n : state_ok limits_ running u a → a sd = Some (m, log) → leases u n = lease_of deadline m n.
Proof. intros Hok Ha. unfold leases, lease_of. by rewrite (found_ok _ _ _ _ _ n (facts_fit _ _ _ Hok _ _ _ Ha)). Qed.

Lemma leases_after u u' a m log n r :
  state_ok limits_ (Some sd) u a → a sd = Some (m, log) → state_ok limits_ (Some sd) u' (upd sd (<[n := watermark r]> m, log) a) →
  leases u' n = None ∧ ∀ n', n' ≠ n → leases u' n' = leases u n'.
Proof.
  intros Hok Ha Hok'.
  assert (Hu : upd sd (<[n := watermark r]> m, log) a sd = Some (<[n := watermark r]> m, log)) by (unfold upd; by rewrite decide_True).
  split; [|intros n' Hne; rewrite (leases_of _ _ _ _ _ n' Hok Ha)]; rewrite (leases_of _ _ _ _ _ _ Hok' Hu), lease_insert.
  - by rewrite decide_True.
  - by rewrite decide_False.
Qed.

Lemma fire_dutiful : dutiful (fire limits_ sd) leases now under_way (λ _ _, True) halt.
Proof.
  intros n b d w fr u Hwf Hout (a & Hok & [[m log] Ha] & Haged & Hbe) Hlease Htime Hb.
  pose proof (there _ _ _ Hok _ _ _ Ha) as Hp. pose proof (facts_fit _ _ _ Hok _ _ _ Ha) as Hfacts.
  rewrite (leases_of _ _ _ _ _ n Hok Ha) in Hlease. unfold lease_of in Hlease. apply bind_Some in Hlease as (r & Hr & Hd).
  destruct (carries sd n u a Hok m log Ha r d Hr Hd) as (v & Hv & _).
  assert (Hstay : ∀ u', state_ok limits_ (Some sd) u' a → beside sd u u' → under_way u' ∧ ∀ n', leases u' n' = leases u n').
  { intros u' Hok' Hbe'. split; [exists a; split_and!; [done|by eexists|done|by eapply beside_trans]|].
    intros n'. by rewrite (leases_of _ _ _ _ _ n' Hok Ha), (leases_of _ _ _ _ _ n' Hok' Ha). }
  assert (Hgo : ∀ u', state_ok limits_ (Some sd) u' (after sd n a m log r) → beside sd u u' → d <= b →
    under_way u' ∧ leases u' n = None ∧ ∀ n', n' ≠ n → leases u' n' = leases u n').
  { intros u' Hok' Hbe' Hle. split; [|by eapply leases_after]. eexists. split_and!; [exact Hok'|unfold after, upd; by rewrite decide_True| |by eapply beside_trans].
    eapply aged_trans; [exact Haged|]. unfold after. eapply aged_upd; [exact Ha| |done]. cbn. eapply lapsed_one; [done..|lia]. }
  unfold fire. wp_step. apply wp_inner, on_facts_wp. eapply find_wp; [exact Hfacts|].
  replace {| Origin.scope := Origin.scope n; Origin.key := Origin.key n |} with n by (by destruct n). rewrite Hr, Hv, Hd.
  replace (on_group sd (set_facts (facts (group_of sd u))) u) with u.
  2: { unfold on_group. rewrite <- (set_group_same sd u Hp) at 1. f_equal. by destruct (group_of sd u). }
  destruct (Z.ltb_spec b d) as [Hlt|Hge].
  { wp_step. cbn [fst snd]. destruct (Hstay u Hok (beside_refl sd u)). by split_and!. }
  wp_step. wp_step.
  2: { cbn [fst snd]. destruct (Hstay u Hok (beside_refl sd u)). split_and!; try done. by left; left. }
  destruct (decide (sd = Own ∨ sd = All)) as [Hsd|Hsd].
  - assert (Hex : wp Faulty (removed <- expire limits_ sd n b ;; match removed with Expected _ => ret tt | Unexpected _ => throw runtime_error end)
      (λ _ z, under_way z.2.2 ∧ True ∧ z.2.1 = fr ∧ (z.1 = w ∨ z.1 = erase n w) ∧ leases z.2.2 n = None ∧ ∀ n', n' ≠ n → leases z.2.2 n' = leases u n')
      (λ e z, halt e ∧ under_way z.2.2 ∧ True ∧ z.2.1 = fr ∧ z.1 = w ∧ ∀ n', leases z.2.2 n' = leases u n') (w, (fr, u))).
    { wp_step. eapply wp_mono; [by eapply (expire_wp sd Hsd n b u a Hok m log Ha r d)| |].
      - intros [[]|e] z (E1 & E2 & E3 & E4); wp_step.
        + destruct (Hgo z.2.2 E4 E2 Hge) as (? & ? & ?). split_and!; try done. by right.
        + destruct (Hstay z.2.2 E4 E2). split_and!; try done. by right.
      - intros e z (E1 & E2 & E3 & E4 & E5). destruct (Hstay z.2.2 E5 E4). split_and!; try done. by left. }
    assert (Hm : ∀ X Y : eff Running unit, match sd with Remote _ => X | _ => Y end = Y) by (intros; by destruct Hsd as [-> | ->]).
    rewrite Hm. exact Hex.
  - assert (∃ id, sd = Remote id) as [id Eid] by (clear -Hsd; destruct sd as [| |id]; [tauto|tauto|by exists id]).
    assert (Hm : ∀ X Y : eff Running unit, match sd with Remote _ => X | _ => Y end = X) by (intros; by rewrite Eid).
    rewrite Hm. eapply wp_mono; [by eapply (expire_remote_wp sd n b u a Hok m log Ha r d)| |].
    + intros _ z (E1 & E2 & E3 & E4). destruct (Hgo z.2.2 E4 E2 Hge) as (? & ? & ?). split_and!; try done. by right.
    + intros e z (E1 & E2 & E3 & E4 & E5). destruct (Hstay z.2.2 E5 E4). by split_and!.
Qed.
End callback.

(** ** One group up to an instant *)
Lemma state_running s a : state_ok limits_ None s a → ∀ running, state_ok limits_ running s a.
Proof.
  intros [G1 G2 G3] running. split; try done. intros sd x Hx. destruct (G1 sd x Hx) as [A1 A2 A3 A4 A5]. split; try done.
  intros _. by apply A3.
Qed.

Lemma next_mono (w w' : wheel Name) fr fr' :
  settled w fr → settled w' fr' → time_ fr <= time_ fr' → next w fr <= next w' fr'.
Proof.
  intros H1 H2 Hle. unfold next. rewrite (settled_now _ _ H1), (settled_now _ _ H2).
  pose proof (settled_time _ _ H1). pose proof (settled_time _ _ H2). unfold interval.
  repeat match goal with |- context [?x <? ?y] => destruct (Z.ltb_spec x y) end; lia.
Qed.

(** Every lease of the group ends after the last boundary of its agenda. *)
Definition timely (sd : side) s : Prop :=
  ∀ w fr, agenda (group_of sd s) = Some (w, fr) → overdue_free (time_ fr) (leases sd s).

(** From one state to a later one. *)
Record moved (now : Z) s a s' a' : Prop := {
  mv_ok : state_ok limits_ None s' a';
  mv_aged : aged now a a';
  mv_observed : observed_ s' = observed_ s;
  mv_due : due_ s' = due_ s
}.

Lemma moved_refl now s a : state_ok limits_ None s a → moved now s a s a.
Proof. intros Hok. split; try done. apply aged_refl. Qed.

Lemma moved_trans now s1 a1 s2 a2 s3 a3 : moved now s1 a1 s2 a2 → moved now s2 a2 s3 a3 → moved now s1 a1 s3 a3.
Proof. intros [] []. split; try done; [by eapply aged_trans|congruence..]. Qed.

Lemma resume sd s a m log w fr :
  state_ok limits_ (Some sd) s a → a sd = Some (m, log) → scheduled deadline (observed_ s) m (Some (w, fr)) → due_ s <= next w fr →
  state_ok limits_ None (on_group sd (set_agenda (Some (w, fr))) s) a.
Proof.
  intros Hok Ha Hsch Hdue. pose proof (there _ _ _ Hok _ _ _ Ha) as Hp. pose proof (group_fits _ _ _ Hok _ _ _ Ha) as Hg.
  replace (on_group sd (set_agenda (Some (w, fr))) s) with (shape sd s (stage_ s) (set_agenda (Some (w, fr)) (group_of sd s)) (world_ s)).
  2: { transitivity (on_group sd (set_agenda (Some (w, fr))) (shape sd s (stage_ s) (group_of sd s) (world_ s))).
    - by rewrite shape_on_group.
    - by rewrite shape_same. }
  apply (state_ghost limits_ None _ (upd sd (m, log) a)); [intros sd'; symmetry; by apply upd_same|].
  pose proof (shape_ok limits_ sd s Hp (Some sd) a (stage_ s) (set_agenda (Some (w, fr)) (group_of sd s)) (world_ s) (m, log) Hok) as Hs.
  destruct Hs as [G1 G2 G3].
  - apply (ou_world _ _ _ (st_outside _ _ _ _ Hok)).
  - by destruct Hg.
  - done.
  - eapply stage_ext; [|apply (st_stage _ _ _ _ Hok)]. intros sc k. unfold showing. by rewrite (upd_same sd (m, log) a Ha All).
  - done.
  - split; try done. intros sd' x Hx. destruct (G1 sd' x Hx) as [A1 A2 A3 A4 A5]. split; try done. intros _.
    rewrite shape_group in * by done. destruct (decide (sd' = sd)) as [->|Hne].
    + unfold upd in Hx. rewrite decide_True in Hx by done. injection Hx as <-.
      rewrite (proj1 (proj2 (shape_fields _ _ _ _ _))). exact Hsch.
    + apply A3, bool_decide_eq_false. congruence.
Qed.

Lemma advance_group_wp sd s a now :
  state_ok limits_ None s a → observed_ s = Some now → present sd s →
  wp Faulty (advance_group limits_ sd now)
    (λ _ s', ∃ a', moved now s a s' a' ∧ (timely sd s → timely sd s') ∧
       (∀ w fr, agenda (group_of sd s') = Some (w, fr) → now - interval < time_ fr) ∧
       (∀ sd', sd' ≠ sd → group_of sd' s' = group_of sd' s) ∧ (∀ sd', present sd' s → present sd' s'))
    (λ e s', halt e ∧ ∃ a', moved now s a s' a') s.
Proof.
  intros Hok Hobs Hp. pose proof (st_outside _ _ _ _ Hok) as Hout. pose proof (proj2 (ou_there _ _ _ Hout sd) Hp) as [[m log] Ha].
  pose proof (ou_observed _ _ _ Hout now Hobs) as Hnow. pose proof (group_fits _ _ _ Hok _ _ _ Ha) as Hg.
  unfold advance_group. wp_step. wp_step. destruct (agenda (group_of sd s)) as [[w fr]|] eqn:Eag.
  2: { wp_step. exists a. split_and!; [by apply moved_refl|done|by rewrite Eag|done|done]. }
  destruct (sc_some _ _ _ _ (go_agenda _ _ _ _ _ _ Hg eq_refl) w fr Eag) as (Hset & Hkept & o & Ho & Hle). cbn [fst] in Hkept.
  rewrite Hobs in Ho. injection Ho as <-. wp_step.
  assert (Hend : ∀ z, standing (leases sd) (under_way sd s a now) (λ _ _, True) s z → time_ fr <= time_ z.2.1 <= now →
    ∃ a', moved now s a (on_group sd (set_agenda (Some (z.1, z.2.1))) z.2.2) a' ∧
    (∀ sd', sd' ≠ sd → group_of sd' (on_group sd (set_agenda (Some (z.1, z.2.1))) z.2.2) = group_of sd' s) ∧
    (∀ sd', present sd' s → present sd' (on_group sd (set_agenda (Some (z.1, z.2.1))) z.2.2)) ∧
    group_of sd (on_group sd (set_agenda (Some (z.1, z.2.1))) z.2.2) = set_agenda (Some (z.1, z.2.1)) (group_of sd z.2.2)).
  { intros [w' [fr' u]] [S1 S2 (a' & I1 & [[m' log'] I2] & I3 & I4) _] Hfr. cbn [fst snd] in *.
    pose proof (there _ _ _ I1 _ _ _ I2) as Hpu. destruct I4 as [B1 B2 B3 B4 B5]. exists a'. split_and!.
    - split; [|done|by unfold on_group; rewrite (proj1 (proj2 (set_group_fields _ _ _)))|by unfold on_group; rewrite (proj1 (proj2 (proj2 (set_group_fields _ _ _))))].
      eapply resume; [exact I1|exact I2| |].
      + split; [done| |].
        * intros w1 fr1 [= <- <-]. split_and!; [done| |exists now; rewrite B1, Hobs; split; [done|lia]].
          eapply kept_ext; [|exact S2]. intros n. by rewrite (leases_of _ _ _ _ _ _ n I1 I2).
        * intros n d Hd. by eapply (go_short _ _ _ _ _ _ (group_fits _ _ _ I1 _ _ _ I2)).
      + rewrite B2. transitivity (next w fr); [|apply next_mono; [done|done|lia]].
        pose proof (ou_due _ _ _ Hout sd Hp) as Hd. unfold next_of in Hd. by rewrite Eag in Hd.
    - intros sd' Hne. unfold on_group. rewrite group_set_group, decide_False by done. by apply B4.
    - intros sd' Hp'. unfold on_group. apply present_set_group. destruct sd' as [| |id]; [done|done|]. cbn in Hp' |- *.
      apply (f_equal (.!! id)) in B5. rewrite !lookup_fmap in B5. destruct Hp' as [r0 Hr0]. rewrite Hr0 in B5. cbn in B5.
      by destruct (replicas_ u !! id).
    - unfold on_group. by rewrite group_set_group, decide_True by done. }
  eapply wp_mono; [apply (advance_standing (fire limits_ sd) (leases sd) now (under_way sd s a now) (λ _ _, True) halt); try done|..].
  - intros u n d (a' & I1 & [[m' log'] I2] & _) Hd. rewrite (leases_of _ _ _ _ _ _ n I1 I2) in Hd.
    by eapply (go_short _ _ _ _ _ _ (group_fits _ _ _ I1 _ _ _ I2)).
  - apply fire_dutiful.
  - eapply kept_ext; [|exact Hkept]. intros n. by rewrite (leases_of _ _ _ _ _ _ n Hok Ha).
  - exists a. split_and!; [by apply state_running|by eexists|apply aged_refl|apply beside_refl].
  - lia.
  - intros [] z (HS & Ht & Hf & Hfree & _). destruct (Hend z HS ltac:(lia)) as (a' & Hmv & Hoth & Hpr & Hsd). exists a'. split_and!; try done.
    + intros Htl w1 fr1. rewrite Hsd. cbn. intros [= <- <-]. unfold leases at 1. rewrite Hsd. cbn.
      apply Hfree. right. by eapply Htl.
    + intros w1 fr1. rewrite Hsd. cbn. intros [= <- <-]. lia.
  - intros e z (He & HS & Ht). split; [done|]. destruct (Hend z HS ltac:(lia)) as (a' & Hmv & _). by exists a'.
Qed.

(** ** All groups up to an instant *)

(** A retired source without leases leaves with its bytes. *)
Definition dismiss (id : string) a : Ghost := λ sd, if decide (sd = Remote id) then None else a sd.
Definition removed (id : string) s : State :=
  set_replicas (delete id (replicas_ s)) (wrap64 (replica_bytes_ s - held_bytes (facts (group_of (Remote id) s)))) s.

Lemma group_removed id sd s : group_of sd (removed id s) = if decide (sd = Remote id) then nothing else group_of sd s.
Proof.
  destruct sd as [| |id']; try done. cbn. destruct (decide (Remote id' = Remote id)) as [[= ->]|Hne].
  - by rewrite lookup_delete_eq.
  - rewrite lookup_delete_ne by congruence. done.
Qed.

Lemma remote_load_nonneg running s a id r : state_ok limits_ running s a → replicas_ s !! id = Some r → 0 <= held_bytes (facts (group r)).
Proof.
  intros Hok Hr. destruct (proj2 (ou_there _ _ _ (st_outside _ _ _ _ Hok) (Remote id))) as [[m' log'] Hx]; [by eexists|].
  pose proof (facts_fit _ _ _ Hok _ _ _ Hx) as Hf. cbn in Hf. rewrite Hr in Hf. rewrite (held_load _ _ _ _ _ Hf). apply load_nonneg.
Qed.

Lemma removed_ok id s a : state_ok limits_ None s a → is_Some (replicas_ s !! id) → state_ok limits_ None (removed id s) (dismiss id a).
Proof.
  intros Hok [r Hr]. pose proof (λ id r, remote_load_nonneg _ _ _ id r Hok) as Hnn. destruct Hok as [G1 G2 [O1 O2 O3 O4 [O5 O6]]].
  pose proof (lf_bytes _ HL) as Hlim. assert (Hsum : 0 <= held_bytes (facts (group r)) <= remote_load (replicas_ s)).
  { by apply (map_sum_member (λ _ r, held_bytes (facts (group r))) (replicas_ s) id r). }
  assert (Hpres : ∀ sd, present sd (removed id s) ↔ present sd s ∧ sd ≠ Remote id).
  { intros [| |id']; cbn; [by split..|]. destruct (decide (id' = id)) as [->|Hne].
    - rewrite lookup_delete_eq. split; [by intros []|by intros []].
    - rewrite lookup_delete_ne by done. naive_solver. }
  split; [|eapply stage_ext; [|exact G2]; done|split; try done].
  - intros sd x. unfold dismiss. rewrite group_removed. destruct (decide (sd = Remote id)); [done|apply G1].
  - intros sd. rewrite Hpres. unfold dismiss. destruct (decide (sd = Remote id)) as [->|].
    + split; [by intros []|naive_solver].
    + rewrite O3. naive_solver.
  - intros sd [Hp Hne]%Hpres. rewrite group_removed, decide_False by done. by apply O4.
  - unfold removed, set_replicas. cbn [replica_bytes_ replicas_ group_of]. rewrite Hr. unfold remote_load in *.
    rewrite (map_sum_delete _ _ id r Hr) in O5, Hsum.
    rewrite wrap64_small by (unfold is_u64; lia). lia.
Qed.

Lemma removed_timely id sd s : timely sd s → timely sd (removed id s).
Proof.
  intros Ht w fr. rewrite group_removed. destruct (decide (sd = Remote id)) as [->|Hne]; [done|]. intros Ha n d.
  unfold leases. rewrite group_removed, decide_False by done. exact (Ht w fr Ha n d).
Qed.

(** What a visit of the remote sources keeps. *)
Record visited (now : Z) s a s' a' : Prop := {
  vi_moved : moved now s a s' a';
  vi_own : own_ s' = own_ s ∧ all_ s' = all_ s;
  vi_timely : ∀ sd, timely sd s → timely sd s'
}.

Lemma visited_trans now s1 a1 s2 a2 s3 a3 : visited now s1 a1 s2 a2 → visited now s2 a2 s3 a3 → visited now s1 a1 s3 a3.
Proof.
  intros [M1 [O1 A1] T1] [M2 [O2 A2] T2]. split; [by eapply moved_trans|split; congruence|]. intros sd Ht. by apply T2, T1.
Qed.

Lemma timely_other sd sd' s s' : (∀ x, x ≠ sd → group_of x s' = group_of x s) → sd' ≠ sd → timely sd' s → timely sd' s'.
Proof. intros Hg Hne Ht w fr. rewrite Hg by done. intros Ha n d. unfold leases. rewrite Hg by done. exact (Ht w fr Ha n d). Qed.

(** The source the caller has borrowed stays. *)
Definition spares (held : option string) s s' : Prop := ∀ id, held = Some id → present (Remote id) s → present (Remote id) s'.

Lemma advance_replicas_wp now held ids blocked s a :
  state_ok limits_ None s a → observed_ s = Some now →
  wp Faulty (advance_replicas limits_ now held ids blocked)
    (λ _ s', ∃ a', visited now s a s' a' ∧ spares held s s') (λ e s', halt e ∧ ∃ a', moved now s a s' a') s.
Proof.
  revert blocked s a. induction ids as [|id ids IH]; intros blocked s a Hok Hobs.
  { cbn. wp_step. exists a. split; [|by intros ?]. split; [by apply moved_refl|done|done]. }
  assert (Hnext : ∀ blocked s' a', visited now s a s' a' → spares held s s' → observed_ s' = Some now →
    wp Faulty (advance_replicas limits_ now held ids blocked) (λ _ s'', ∃ a'', visited now s a s'' a'' ∧ spares held s s'')
      (λ e s'', halt e ∧ ∃ a'', moved now s a s'' a'') s').
  { intros b s' a' Hv Hsp Hobs'. eapply wp_mono; [apply (IH b s' a'); [apply Hv|done]| |].
    - intros _ s'' (a'' & Hv' & Hsp'). exists a''. split; [by eapply visited_trans|]. intros i Ei Hp. apply Hsp'; [done|]. by apply Hsp.
    - intros e s'' (He & a'' & Hm). split; [done|]. exists a''. eapply moved_trans; [apply Hv|done]. }
  assert (Hself : visited now s a s a) by (split; [by apply moved_refl|done|done]). assert (Hsp0 : spares held s s) by (by intros ?).
  cbn [advance_replicas]. wp_step. wp_step. destruct (replicas_ s !! id) as [r|] eqn:Er; [|by eapply Hnext].
  apply wp_if; intros Eheld; [by eapply Hnext|]. apply bool_decide_eq_false in Eheld. apply wp_if; intros _; [by eapply Hnext|].
  wp_step. eapply wp_mono; [apply (advance_group_wp (Remote id) s a now Hok Hobs); by eexists| |done].
  intros _ s1 (a1 & Hm & Ht & _ & Hg & Hpr). wp_step. wp_step. assert (Hsp1 : spares held s s1) by (intros i _; apply Hpr).
  assert (Hv : visited now s a s1 a1).
  { split; [done| |].
    - pose proof (Hg Own ltac:(done)) as E1. pose proof (Hg All ltac:(done)) as E2. done.
    - intros sd Hs. destruct (decide (sd = Remote id)) as [->|Hne]; [by apply Ht|]. by eapply timely_other. }
  pose proof (mv_observed _ _ _ _ _ Hm) as Ho1. rewrite Hobs in Ho1.
  destruct (replicas_ s1 !! id) as [r1|] eqn:Er1; [|by eapply Hnext].
  wp_step. apply wp_if; intros _; [|wp_step; by eapply Hnext].
  pose proof (mv_ok _ _ _ _ _ Hm) as Hok1.
  destruct (proj2 (ou_there _ _ _ (st_outside _ _ _ _ Hok1) (Remote id))) as [[m log] Hx]; [by eexists|].
  pose proof (facts_fit _ _ _ Hok1 _ _ _ Hx) as Hf.
  wp_step. eapply (total_wp (Remote id) m log); [by eexists|exact Hf|]. wp_step. rewrite <- (held_load _ _ _ _ _ Hf).
  change (set_replicas _ _ _) with (removed id s1). apply (Hnext blocked (removed id s1) (dismiss id a1)); [| |done].
  2: { intros i Ei Hp. specialize (Hsp1 i Ei Hp). cbn in *. rewrite lookup_delete_ne; [done|]. intros ->. done. }
  split; [|apply Hv|].
  - split; [apply removed_ok; [done|by eexists]| |apply Hm|apply Hm]. eapply aged_trans; [apply Hm|].
    intros sd. unfold dismiss. destruct (decide (sd = Remote id)) as [->|]; [rewrite Hx; by exists id|]. apply aged_refl.
  - intros sd Hs. by apply removed_timely, Hv.
Qed.

(** The state is brought up to [now]: records that have lapsed may be gone, nothing
    else has changed, and the agendas of the own and the merged facts stand at most
    one tick behind. *)
Record caught_up (now : Z) s a s' a' : Prop := {
  cu_ok : state_ok limits_ None s' a';
  cu_aged : aged now a a';
  cu_observed : observed_ s' = Some now;
  cu_timely : ∀ sd, timely sd s → timely sd s';
  cu_near : ∀ sd w fr, sd = Own ∨ sd = All → agenda (group_of sd s') = Some (w, fr) → now - interval < time_ fr
}.
Definition stopped (now : Z) s a (e : exn) s' : Prop := halt e ∧ ∃ a', moved now s a s' a'.

Lemma fold_min_le (l : list Z) x : x ∈ l → foldr Z.min time_max l <= x.
Proof. induction l as [|y l IH]; [by intros ?%elem_of_nil|]. intros [->|Hx]%elem_of_cons; cbn; [lia|]. specialize (IH Hx). lia. Qed.

Lemma state_due s a due :
  state_ok limits_ None s a → (∀ sd, present sd s → due <= next_of (group_of sd s)) → state_ok limits_ None (set_due due s) a.
Proof.
  intros [G1 G2 [O1 O2 O3 O4 O5]] Hd. split; [|done|split; try done].
  - intros sd x Hx. specialize (G1 sd x Hx). by destruct sd.
Qed.

Lemma next_near (w : wheel Name) fr now : settled w fr → now < next w fr → now - interval < time_ fr.
Proof.
  intros Hs. unfold next. rewrite (settled_now _ _ Hs). unfold interval. destruct (Z.ltb_spec (time_max - time_ fr) 10000000); lia.
Qed.

(** Before the next boundary the agendas are at most one tick behind. *)
Lemma due_near s a now sd w fr :
  state_ok limits_ None s a → now < due_ s → sd = Own ∨ sd = All → agenda (group_of sd s) = Some (w, fr) → now - interval < time_ fr.
Proof.
  intros Hok Ed Hsd Hag. assert (Hp : present sd s) by (by destruct Hsd as [-> | ->]).
  pose proof (ou_due _ _ _ (st_outside _ _ _ _ Hok) sd Hp) as Hd. unfold next_of in Hd. rewrite Hag in Hd.
  destruct (proj2 (ou_there _ _ _ (st_outside _ _ _ _ Hok) sd) Hp) as [[m log] Ha].
  pose proof (go_agenda _ _ _ _ _ _ (group_fits _ _ _ Hok _ _ _ Ha) eq_refl) as Hsch.
  eapply next_near; [by apply (sc_some _ _ _ _ Hsch w fr Hag)|lia].
Qed.

Lemma advance_wp now held s a :
  state_ok limits_ None s a → observed_ s = Some now →
  wp Faulty (CatalogState.advance limits_ now held) (λ _ s', ∃ a', caught_up now s a s' a' ∧ spares held s s') (stopped now s a) s.
Proof.
  intros Hok Hobs. unfold CatalogState.advance. wp_step. wp_step. apply wp_if; intros Ed.
  { wp_step. exists a. split; [|by intros ?]. split; try done; [apply aged_refl|]. intros sd w fr Hsd Hag. apply Z.ltb_lt in Ed. by eapply due_near. }
  wp_step. eapply wp_mono; [by apply (advance_group_wp Own s a now)| |done].
  intros _ s1 (a1 & Hm1 & Ht1 & Hn1 & Hg1 & Hp1). wp_step. pose proof (mv_observed _ _ _ _ _ Hm1) as Ho1. rewrite Hobs in Ho1.
  eapply wp_mono; [apply (advance_group_wp All s1 a1 now); [apply Hm1|done|done]| |].
  2: { intros e s' (He & a' & Hm). split; [done|]. exists a'. by eapply moved_trans. }
  intros _ s2 (a2 & Hm2 & Ht2 & Hn2 & Hg2 & Hp2). pose proof (mv_observed _ _ _ _ _ Hm2) as Ho2. rewrite Ho1 in Ho2.
  pose proof (moved_trans _ _ _ _ _ _ _ Hm1 Hm2) as Hm. wp_step. wp_step. wp_step.
  eapply wp_mono; [apply (advance_replicas_wp now held _ None s2 a2); [apply Hm|done]| |].
  2: { intros e s' (He & a' & Hm'). split; [done|]. exists a'. by eapply moved_trans. }
  intros blocked s3 (a3 & Hv & Hsp). destruct Hv as [Hm3 [Eo Ea] Ht3]. pose proof (moved_trans _ _ _ _ _ _ _ Hm Hm3) as Hmv.
  wp_step. wp_step. wp_step. exists a3. set (due := foldr _ _ _).
  assert (Hsd : ∀ sd x, group_of sd (set_due x s3) = group_of sd s3) by (by intros []).
  split; [split|intros id Eid Hp; by apply (Hsp id Eid), Hp2, Hp1].
  - apply state_due; [apply Hmv|]. intros sd Hp.
    assert (Hin : due <= next_of (group_of sd s3)).
    { apply fold_min_le, list_elem_of_fmap. exists (group_of sd s3). split; [done|]. destruct sd as [| |id]; [by left|by right; left|].
      right. right. apply list_elem_of_fmap. destruct Hp as [r Hr]. exists r. split; [cbn; by rewrite Hr|].
      apply list_elem_of_fmap. exists (id, r). split; [done|]. by apply in_order_elem. }
    destruct (bool_decide _); lia.
  - apply Hmv.
  - cbn. rewrite (mv_observed _ _ _ _ _ Hmv). done.
  - intros sd Ht w fr. rewrite Hsd. unfold leases. rewrite Hsd. revert w fr. apply Ht3.
    destruct (decide (sd = Own)) as [->|Hne].
    + eapply timely_other; [exact Hg2|done|]. by apply Ht1.
    + assert (timely sd s1) by (by eapply timely_other). destruct (decide (sd = All)) as [->|]; [by apply Ht2|by eapply timely_other].
  - intros sd w fr Hx. rewrite Hsd. destruct Hx as [-> | ->]; cbn; rewrite ?Eo, ?Ea; [|apply Hn2].
    pose proof (Hg2 Own ltac:(done)) as E. cbn in E. rewrite E. apply Hn1.
Qed.
End expiry.
