(* ===== verification/CatalogReads.v ===== *)
(** Reads of the Catalog ([catalog_state.cpp], [reading.hpp]).

    A read takes the time, brings the expiry up to it unless no boundary has passed,
    and answers from the public projection of the scope.  The answers are those of
    the facts the Catalog stands for, and no answer is more than one tick out of
    date. *)
From stdpp Require Import base numbers strings gmap list.
From S2P Require Import Prelude.
From S2P Require Import Clock.
From S2P Require Import Wheel.
From S2P Require Import Agenda.
From S2P Require Import Timetable.
From S2P Require Import Scope.
From S2P Require Import Pages.
From S2P Require Import Index.
From S2P Require Import Scene.
From S2P Require Import Stage.
From S2P Require Import Origin.
From S2P Require Import Leased.
From S2P Require Import Catalog.
From S2P Require Import CatalogState.
From S2P Require Import CatalogExpiry.

Section reads.
Context `{Sizes} (limits_ : CatalogState.Limits) (HL : limits_fit limits_).
Abbreviation Record_map := (gmap Name record).
Abbreviation Ghost := (side → option (Record_map * Origin.chronicle (Item := record))).
Implicit Types (a : Ghost) (s : State).

(** ** Taking the time *)
Lemma state_read s a w t :
  state_ok limits_ None s a → typed w → 0 <= t <= time_max → (∀ o, observed_ s = Some o → o <= t) →
  state_ok limits_ None (set_observed (Some t) (set_world w s)) a.
Proof. intros Hok Hw Ht Hle. apply state_observed; [by apply state_world|done|done]. Qed.

Lemma timely_read sd s w o : timely sd s ↔ timely sd (set_observed o (set_world w s)).
Proof. by destruct sd. Qed.

(** An operation that could not read the clock has changed nothing else. *)
Definition blind s a s' : Prop := state_ok limits_ None s' a ∧ ∃ w, s' = set_world w s.

(** Later, with the facts that have lapsed possibly gone. *)
Definition passed s a s' a' : Prop := ∃ now,
  state_ok limits_ None s' a' ∧ aged now a a' ∧ observed_ s' = Some now ∧ (∀ o, observed_ s = Some o → o <= now).

Lemma read_wp {A} s a (k : Reading → eff State A) (fail : Failure → eff State A) (Q : A → State → Prop) E :
  state_ok limits_ None s a →
  (∀ w, typed w → state_ok limits_ None (set_world w s) a → wp Faulty (fail failed_clock) Q E (set_world w s)) →
  (∀ v w, typed w → Clock.ready v = true → 0 <= Clock.time v <= time_max → (∀ o, observed_ s = Some o → o <= Clock.time v) →
     let s' := set_observed (Some (Clock.time v)) (set_world w s) in
     state_ok limits_ None s' a → wp Faulty (k v) Q E s') →
  wp Faulty (x <- reading ;; match x with Expected v => k v | Unexpected e => fail e end) Q E s.
Proof.
  intros Hok H1 H2. wp_step. apply reading_wp; [apply (ou_world _ _ _ (st_outside _ _ _ _ Hok))|..].
  - intros w Hw. apply H1; [done|]. by apply state_world.
  - intros v w Hw Hr Ht Ho. apply H2; try done. by apply state_read.
Qed.

(** ** Reading once the expiry is up to date *)
Section serve.
Context {A : Type} (action : eff State (expected A Failure)) (Answer : expected A Failure → State → Ghost → Prop).
Context (Hact : ∀ s a, state_ok limits_ None s a →
  wp Faulty action (λ x s', s' = s ∧ Answer x s a) (λ _ _, False) s).

(** What a read has found, or [None] when it has to wait for a busy source. *)
Definition served s a (x : option (expected A Failure)) s' : Prop :=
  (x = Some (Unexpected failed_clock) ∧ blind s a s') ∨
  (∃ now a', (∀ o, observed_ s = Some o → o <= now) ∧ aged now a a' ∧ (∀ sd, timely sd s → timely sd s') ∧
     match x with
     | Some y => caught_up limits_ now s a s' a' ∧ Answer y s' a'
     | None => passed s a s' a'
     end).
Definition refused_read s a (e : exn) s' : Prop := halt e ∧ ∃ a', passed s a s' a'.

Lemma act_wp s a (Q : option (expected A Failure) → State → Prop) E :
  state_ok limits_ None s a → (∀ x, Answer x s a → Q (Some x) s) → wp Faulty (x <- action ;; ret (Some x)) Q E s.
Proof.
  intros Hok HQ. wp_step. eapply wp_mono; [by apply Hact| |done]. intros x s' [-> Hx]. wp_step. by apply HQ.
Qed.

Lemma execute_round_wp s a : state_ok limits_ None s a → wp Faulty (execute_round limits_ action) (served s a) (refused_read s a) s.
Proof.
  intros Hok. unfold execute_round. apply (read_wp s a); [done|..].
  - intros w Hw Hs. wp_step. left. split; [done|]. split; [done|by exists w].
  - intros v w Hw Hr Ht Ho s1 Hs. wp_step. eapply wp_mono; [by apply (advance_wp limits_ HL (Clock.time v) None s1 a)|..].
    + intros blocked s2 (a2 & [C1 C2 C3 C4 C5] & _). assert (Ht2 : ∀ sd, timely sd s → timely sd s2) by (intros sd Hx; by apply C4, timely_read).
      apply wp_if; intros _.
      * apply (act_wp s2 a2 _ _ C1). intros x Hx. right. exists (Clock.time v), a2. by split_and!.
      * wp_step. right. exists (Clock.time v), a2. split_and!; try done. by exists (Clock.time v).
    + intros e s2 (He & a2 & [M1 M2 M3 M4]). split; [done|]. exists a2, (Clock.time v). by rewrite M3.
Qed.

Lemma execute_shared_wp s a : state_ok limits_ None s a → wp Faulty (execute_shared action) (served s a) (λ _ _, False) s.
Proof.
  intros Hok. unfold execute_shared. apply (read_wp s a); [done|..].
  - intros w Hw Hs. wp_step. left. split; [done|]. split; [done|by exists w].
  - intros v w Hw Hr Ht Ho s1 Hs. wp_step. wp_step. pose proof (aged_refl (Clock.time v) a) as Hag. apply wp_if; intros Hd.
    + apply (act_wp s1 a _ _ Hs). intros x Hx. right. exists (Clock.time v), a. split_and!; try done.
      split; try done. intros sd wh fr Hsd Hwh. apply Z.ltb_lt in Hd. by eapply (due_near limits_).
    + wp_step. right. exists (Clock.time v), a. split_and!; try done. by exists (Clock.time v).
Qed.
End serve.

(** ** What the reads answer *)
Definition cursor (sc : Scope) s : Z := Z.of_nat (length (Stage.told sc (notices (stage_ s)))).
Definition point_answer (sc : Scope) (k : string) (x : expected (option Content * Z) Failure) s a : Prop :=
  x = Expected (showing a sc k, cursor sc s).
Definition view_answer (sc : Scope) (x : expected (Scene.View (Item := Content)) Failure) s a : Prop :=
  ∃ v m, x = Expected v ∧ lists v m ∧ (∀ k, m !! k = showing a sc k) ∧ view_version v = cursor sc s.
Definition changes_answer (sc : Scope) (since : Z) (x : expected (list (Scene.Event (Item := Content))) Failure) s a : Prop :=
  match x with
  | Expected evs => since <= cursor sc s ∧ evs = drop (Z.to_nat since) (Stage.told sc (notices (stage_ s)))
  | Unexpected e => (e = failed_input ∧ cursor sc s < since) ∨ e = failed_history
  end.

Lemma set_stage_same s : set_stage (stage_ s) s = s.
Proof. by destruct s. Qed.

Lemma silent s a sc : state_ok limits_ None s a → scene_at sc (stage_ s) = None → cursor sc s = 0 ∧ ∀ k, showing a sc k = None.
Proof.
  intros Hok Hv. pose proof (st_stage _ _ _ _ Hok) as Hst. unfold cursor. rewrite (sg_silent _ _ _ _ _ Hst sc Hv). split; [done|].
  intros k. rewrite <- (sg_shows _ _ _ _ _ Hst), (sg_silent _ _ _ _ _ Hst sc Hv). done.
Qed.

Lemma find_action_wp sc k s a : state_ok limits_ None s a →
  wp Faulty (find_action sc k) (λ x s', s' = s ∧ point_answer sc k x s a) (λ _ _, False) s.
Proof.
  intros Hok. unfold find_action, point_answer. wp_step. wp_step. destruct (scene_at sc (stage_ s)) as [v|] eqn:Ev.
  - wp_step. apply on_stage_wp. eapply find_stage_wp; [apply Hok|exact Ev|]. rewrite set_stage_same. by wp_step.
  - wp_step. destruct (silent s a sc Hok Ev) as [-> Hs]. by rewrite Hs.
Qed.

Lemma capture_action_wp sc s a : state_ok limits_ None s a →
  wp Faulty (capture_action sc) (λ x s', s' = s ∧ view_answer sc x s a) (λ _ _, False) s.
Proof.
  intros Hok. unfold capture_action, view_answer. wp_step. wp_step. destruct (scene_at sc (stage_ s)) as [v|] eqn:Ev.
  - wp_step. apply on_stage_wp. eapply capture_stage_wp; [apply Hok|exact Ev|]. intros x m Hl Hm Hc. rewrite set_stage_same. wp_step.
    split; [done|]. by exists x, m.
  - wp_step. destruct (silent s a sc Hok Ev) as [Hc Hs]. split; [done|]. exists Scene.empty, ∅. split_and!; [done| |by intros k; rewrite Hs|by rewrite Hc].
    exists ∅. split_and!; [apply represents_empty| |done]. intros k r. rewrite lookup_empty. split; [intros [sl ?]; by rewrite lookup_empty in *|done].
Qed.

Lemma changes_action_wp sc since s a : 0 <= since → state_ok limits_ None s a →
  wp Faulty (changes_action sc since) (λ x s', s' = s ∧ changes_answer sc since x s a) (λ _ _, False) s.
Proof.
  intros Hs Hok. unfold changes_action, changes_answer. wp_step. wp_step. destruct (scene_at sc (stage_ s)) as [v|] eqn:Ev.
  - wp_step. apply on_stage_wp. eapply replay_stage_wp; [apply Hok|exact Ev|done|..]; rewrite set_stage_same.
    + intros Hle. wp_step. by split_and!.
    + intros Hlt. wp_step. split; [done|]. by left.
    + wp_step. split; [done|]. by right.
  - wp_step. destruct (silent s a sc Hok Ev) as [Hc _]. split; [done|]. destruct (Z.eqb_spec since 0) as [->|Hne]; cbn.
    + split; [by rewrite Hc|]. rewrite (sg_silent _ _ _ _ _ (st_stage _ _ _ _ Hok) sc Ev). done.
    + left. split; [done|]. rewrite Hc. lia.
Qed.

(** ** Ticks *)
Lemma tick_round_wp s a : state_ok limits_ None s a →
  wp Faulty (tick_round limits_)
    (λ x s', s' = s ∨ ∃ a' now, (∀ o, observed_ s = Some o → o <= now) ∧ caught_up limits_ now s a s' a')
    (λ e s', halt e ∧ (blind s a s' ∨ ∃ a', passed s a s' a')) s.
Proof.
  intros Hok. unfold tick_round. wp_step. wp_step. apply wp_if; intros _; [wp_step; by left|].
  apply (read_wp s a _ (λ _, throw runtime_error)); [done|..].
  - intros w Hw Hs. wp_step. split; [by right|]. left. split; [done|by exists w].
  - intros v w Hw Hr Ht Ho s1 Hs. wp_step. eapply wp_mono; [by apply (advance_wp limits_ HL (Clock.time v) None s1 a)|..].
    + intros blocked s2 (a2 & [C1 C2 C3 C4 C5] & _). wp_step. right. exists a2, (Clock.time v). split; [done|]. by split.
    + intros e s2 (He & a2 & [M1 M2 M3 M4]). split; [done|]. right. exists a2, (Clock.time v). by rewrite M3.
Qed.
End reads.
