(* ===== verification/CatalogWrite.v ===== *)
(** Writes of the Catalog ([Catalog::State::change], [catalog_state.cpp]).

    A write prepares the edit of the own fact, of the merged fact and, where the
    public view changes, of the projection; it makes room for the timers, reads the
    clock again, decides once more with the final time, and only then publishes
    everything.  Whatever refuses or throws on the way is rolled back; the final
    decision cannot contradict the first one, so the code's "cannot happen" branch
    does not happen. *)
From stdpp Require Import base numbers strings gmap list.
From S2P Require Import Prelude.
From S2P Require Import Clock.
From S2P Require Import Wheel.
From S2P Require Import Agenda.
From S2P Require Import Timetable.
From S2P Require Import Scope.
From S2P Require Import Index.
From S2P Require Import Scene.
From S2P Require Import Stage.
From S2P Require Import Origin.
From S2P Require Import Leased.
From S2P Require Import Catalog.
From S2P Require Import CatalogState.
From S2P Require Import CatalogExpiry.
From S2P Require Import CatalogReads.

(** ** The rules, decided twice *)
(** A record with a payload that outlives [t]. *)
Definition lively (t : Z) (r : record) : Prop := ∃ b d, value r = Some b ∧ deadline r = Some d ∧ t < d <= time_max.

Definition bounded (r : option record) : Prop := ∀ x d, r = Some x → deadline x = Some d → d <= time_max.

Lemma publish_bound old known v ver ttl rd r :
  bounded old → Catalog.publish old known v ver ttl rd = Expected r → ∀ d, deadline r = Some d → d <= time_max.
Proof.
  intros Hb. unfold Catalog.publish. destruct (_ || _); [done|]. destruct (check old ver v); [done|]. destruct (check known ver v); [done|].
  destruct (deadline_after rd (nanoseconds ttl)) as [d'|] eqn:E; [|done]. apply deadline_after_spec in E as (_ & H0 & H1 & -> & Hm).
  unfold maximum, time_max in *. intros [= <-] d. destruct old as [s|].
  - destruct (_ && _); [|destruct known as [m|]; [destruct (_ && _)|]; cbn; intros [= <-]; lia].
    cbn. intros [= <-]. specialize (Hb s). destruct (deadline s) as [x|]; cbn; [|lia]. specialize (Hb x eq_refl eq_refl). unfold time_max in *. lia.
  - destruct known as [m|]; [destruct (_ && _)|]; cbn; intros [= <-]; lia.
Qed.

Lemma lively_valid t r : lively t r → version r ≠ 0 → 0 <= t → (∀ b, value r = Some b → buffer_size b <= body_limit) → valid r = true.
Proof.
  intros (b & d & Hb & Hd & Hlt) Hv Ht Hs. unfold valid. rewrite Hb, Hd, (proj2 (Z.eqb_neq _ _) Hv). cbn. specialize (Hs b Hb).
  rewrite andb_true_iff, !Z.leb_le. lia.
Qed.

Lemma rule_shape renewal old known v ver ttl rd r :
  bounded old → rule renewal old known v ver ttl rd = Expected r →
  valid r = true ∧ version r = ver ∧ lively (Clock.time rd) r ∧ (∀ m, known = Some m → version m <= ver) ∧
  (if renewal then ∃ s, old = Some s ∧ value r = value s else value r = v) ∧ 0 <= Clock.time rd.
Proof.
  intros Hb. unfold rule. destruct renewal.
  - intros Hr. apply renew_extends in Hr as ((Hv & Hne & Httl) & _ & H0 & Hmax & Hm & s & -> & He & [b Hs] & Hd & ->). cbn.
    apply valid_both_spec in Hv as [Hv _]. specialize (Hv s eq_refl). destruct (valid_shape s Hv) as [_ [[E _]|(b' & d & E1 & E2 & E3 & E4)]]; [congruence|].
    assert (Hl : lively (Clock.time rd) {| version := version s; value := value s;
      deadline := Some (Z.max (deadline_of s) (Clock.time rd + nanoseconds ttl)) |}).
    { exists b. eexists. split_and!; [done|done|lia|]. specialize (Hb s d eq_refl E2). unfold deadline_of in *. rewrite E2 in *. cbn in *.
      unfold time_max, maximum in *. lia. }
    split_and!; try done; [|by exists s]. eapply lively_valid; [exact Hl|cbn; lia|done|]. cbn. intros x Hx. congruence.
  - intros Hr. pose proof (publish_bound _ _ _ _ _ _ _ Hb Hr) as Hbound. destruct v as [b|].
    2: { exfalso. revert Hr. unfold Catalog.publish. by rewrite orb_true_r. }
    destruct (publish_shape _ _ _ _ _ _ _ Hr) as ((Hv & Hne & Httl) & Hsz & Ha & Hm & Hda & V & B & D & Hd & _).
    apply deadline_after_spec in Hda as (_ & H0 & Hns & _ & Hmax).
    assert (Hl : lively (Clock.time rd) r).
    { exists b, (deadline_of r). split_and!; [done|done| |by apply Hbound]. unfold nanoseconds in *. lia. }
    split_and!; try done.
    + eapply lively_valid; [exact Hl|lia|done|]. intros x Hx. congruence.
    + intros m Hk. by apply Hm.
Qed.

(** The merged record carries the candidate's version and payload. *)
Lemma merge_fresh known r t ch :
  Catalog.merge known r t = Expected ch → lively t r → (∀ m, known = Some m → version m <= version r) → bounded known →
  version (changed ch) = version r ∧ value (changed ch) = value r ∧ lively t (changed ch) ∧ valid (changed ch) = true ∧
  visible ch = visible_change known (changed ch) ∧ deadline_of r <= deadline_of (changed ch).
Proof.
  intros Hm Hl Hk Hb. pose proof Hl as (b & d & Hv & Hd & Hlt). unfold Catalog.merge in Hm. destruct (_ || _) eqn:Eg; [done|].
  apply orb_false_iff in Eg as [Eg Et]. apply negb_false_iff in Eg. apply valid_both_spec in Eg as [Vk Vr]. specialize (Vr r eq_refl).
  assert (Hx : Catalog.expire r t = r) by (unfold Catalog.expire; rewrite Hd; by rewrite (proj2 (Z.leb_gt _ _)) by lia). rewrite Hx in Hm.
  destruct known as [c|]; [|injection Hm as <-; by split_and!]. destruct (_ && _ && _ && _) eqn:Ec; [done|].
  destruct (Z.ltb_spec (version c) (version r)) as [Hlt'|Hge]; [injection Hm as <-; by split_and!|].
  assert (Hver : version c = version r) by (specialize (Hk c eq_refl); lia). rewrite Hv in Hm. rewrite Hver, Z.eqb_refl in Hm. cbn in Hm.
  rewrite Hver, Z.eqb_refl in Ec. cbn in Ec. destruct (value (Catalog.expire c t)) as [b'|] eqn:Ee; cbn in Hm; [|injection Hm as <-; by split_and!].
  assert (Hc : Catalog.expire c t = c).
  { unfold Catalog.expire in *. destruct (deadline c); [|done]. by destruct (_ <=? _). }
  rewrite Hc in *. rewrite Ee, Hv in Ec. cbn in Ec. apply differ_false in Ec.
  injection Hm as <-. cbn [changed visible version value deadline]. rewrite Hver, Ee.
  assert (Hl' : lively t {| version := version r; value := Some b'; deadline := max_deadline (deadline c) (default 0 (deadline r)) |}).
  { exists b'. eexists. split_and!; [done|done|rewrite Hd; cbn; lia|]. rewrite Hd. cbn. specialize (Hb c). destruct (deadline c) as [x|]; cbn; [|lia].
    specialize (Hb x eq_refl eq_refl). lia. }
  split_and!; try done; [congruence| |unfold visible_change; by rewrite Ee; cbn; rewrite Hver|unfold deadline_of; cbn; lia].
  eapply lively_valid; [exact Hl'| |lia|].
  - cbn. by destruct (valid_shape r Vr).
  - cbn. intros x [= <-]. specialize (Vk c eq_refl). destruct (valid_shape c Vk) as [_ [[E _]|(b2 & d2 & E1 & _ & E3 & _)]]; congruence.
Qed.

Lemma merge_again known r1 t1 ch r2 t2 :
  Catalog.merge known r1 t1 = Expected ch → version r2 = version r1 → value r2 = value r1 → valid r2 = true → 0 <= t2 →
  ∃ ch', Catalog.merge known r2 t2 = Expected ch'.
Proof.
  intros Hm Hv Hb Hval Ht. unfold Catalog.merge in *. destruct (negb (valid_both known (Some r1)) || _) eqn:E1; [done|].
  apply orb_false_iff in E1 as [E1 _]. apply negb_false_iff, valid_both_spec in E1 as [V1 _].
  rewrite (proj2 (valid_both_spec known (Some r2))) by (split; [done|by intros ? [= <-]]). rewrite (proj2 (Z.ltb_ge _ _) Ht). cbn [negb orb].
  rewrite Hv, Hb. destruct (match known with Some c => _ | None => false end); [done|]. by eexists.
Qed.

Section write.
Context `{Sizes} (limits_ : CatalogState.Limits) (HL : limits_fit limits_).
Abbreviation Facts := (Leased (Item := record)).
Abbreviation Views := (Stage (Item := Content)).
Abbreviation Record_map := (gmap Name record).
Abbreviation Ghost := (side → option (Record_map * Origin.chronicle (Item := record))).
Abbreviation lim := (source_limits limits_).

(** ** Edits of the own facts *)
Definition own_event (n : Name) (r : record) (p : Z) (form : Form) (now : Z) : Origin.Event (Item := record) :=
  {| Origin.event_name := n; Origin.event_record := Some r; event_position := p; event_form := form;
     Origin.event_bytes := Origin.event_cost (Origin.key n) (Some r); Origin.event_stored := now |}.

Lemma editable_local m log n r p form now e o :
  editable (is_own Own) lim m log n (Some r) (Some p) form now e o →
  p = place log + 1 ∧ announced e form now = [own_event n r p form now].
Proof.
  intros (E1 & E2 & o0 & fl0 & es & rows & fl1 & _ & Hj & _ & _ & _ & [R1 R2 R3 _ _]). destruct (R2 p eq_refl) as [Hp _].
  split; [by rewrite Hp, (jo_place _ _ _ _ Hj)|]. unfold announced. rewrite R3. cbn. unfold fact_event. by rewrite E1, E2, R1.
Qed.

Lemma revise_ok sd m log n (r r' : record) position form now e o :
  editable (is_own sd) lim m log n (Some r) position form now e o → measure r' = measure r →
  ∃ e' o', Origin.revise r' e o = (true, e', o') ∧ editable (is_own sd) lim m log n (Some r') position form now e' o'.
Proof.
  intros He Hm. pose proof (editable_revise _ _ _ _ _ _ _ _ _ _ _ r' He) as Hx. destruct He as (_ & E & _). revert Hx.
  unfold Origin.revise. rewrite E, Hm, Z.eqb_refl. intros Hx. by eexists _, _.
Qed.

(** No lease of [m] ends before the last boundary of the agenda. *)
Definition on_time (m : Record_map) (A : option Timers) : Prop :=
  ∀ w fr, A = Some (w, fr) → overdue_free (time_ fr) (lease_of deadline m).

Lemma timely_state running sd s a m log :
  state_ok limits_ running s a → a sd = Some (m, log) → timely sd s ↔ on_time m (agenda (group_of sd s)).
Proof.
  intros Hok Ha. split; intros Ht w fr Hag n d Hn; apply (Ht w fr Hag n d); [by rewrite (leases_of _ _ _ _ _ _ _ n Hok Ha)|].
  by rewrite (leases_of _ _ _ _ _ _ _ n Hok Ha) in Hn.
Qed.

(** ** The state while a write is prepared *)
Section prepared.
Context (s : State) (a : Ghost) (Hok : state_ok limits_ None s a) (t1 : Z) (Hobs : observed_ s = Some t1).
Context (m1 m2 : Record_map) (log1 log2 : Origin.chronicle (Item := record)).
Context (Ha1 : a Own = Some (m1, log1)) (Ha2 : a All = Some (m2, log2)).

(** Only these members change. *)
Definition put (w : World) (ob : option Z) (du : Z) (g1 g2 : Facts) (st : Views) : State :=
  {| world_ := w; observed_ := ob; due_ := du; own_ := g1; all_ := g2; stage_ := st;
     replicas_ := replicas_ s; replica_bytes_ := replica_bytes_ s |}.

Record parts (w : World) (ob : option Z) (du : Z) (A1 A2 : option Timers) : Prop := {
  pa_world : typed w;
  pa_observed : ∃ t, ob = Some t ∧ 0 <= t <= time_max ∧ t1 <= t;
  pa_due : du <= due_ s ∧ (∀ w fr, A1 = Some (w, fr) → du <= next w fr) ∧ (∀ w fr, A2 = Some (w, fr) → du <= next w fr);
  pa_time : (on_time m1 (agenda (own_ s)) → on_time m1 A1) ∧ (on_time m2 (agenda (all_ s)) → on_time m2 A2)
}.

Lemma put_ok w ob du g1 g2 st x1 x2 :
  parts w ob du (agenda g1) (agenda g2) → group_ok limits_ false ob Own g1 x1 → group_ok limits_ false ob All g2 x2 →
  stage_fits limits_ st (showing (upd Own x1 (upd All x2 a))) →
  state_ok limits_ None (put w ob du g1 g2 st) (upd Own x1 (upd All x2 a)).
Proof.
  intros [P1 (t & -> & Ht & Hle) (P3 & P4 & P5) _] H1 H2 Hst. destruct Hok as [G1 G2 [O1 O2 O3 O4 O5]].
  pose proof (O2 t1 Hobs) as Ht1. assert (Hdu : du <= time_max).
  { specialize (O4 Own I). unfold next_of in O4. destruct (agenda (group_of Own s)) as [[w0 fr0]|]; [|lia]. unfold next in O4.
    destruct (Z.ltb_spec (time_max - time w0 fr0) interval); lia. }
  assert (Hnext : ∀ g, (∀ w fr, agenda g = Some (w, fr) → du <= next w fr) → du <= next_of g).
  { intros g Hg. unfold next_of. destruct (agenda g) as [[w0 fr0]|]; [by apply Hg|done]. }
  split; [|done|split; try done].
  - intros sd x. unfold upd. destruct (decide (sd = Own)) as [->|]; [by intros [= <-]|].
    destruct (decide (sd = All)) as [->|]; [by intros [= <-]|]. intros Hx. specialize (G1 sd x Hx). destruct sd as [| |id]; try done.
    destruct G1 as [A1 A2 A3 A4 A5]. split; try done. intros _. eapply scheduled_later; [by apply A3|]. intros o Ho. rewrite Hobs in Ho.
    by injection Ho as <-.
  - by intros t' [= <-].
  - intros sd. unfold upd. destruct (decide (sd = Own)) as [->|]; [split; [done|by eexists]|].
    destruct (decide (sd = All)) as [->|]; [split; [done|by eexists]|]. rewrite O3. by destruct sd.
  - intros sd Hp. destruct sd as [| |id]; [by apply Hnext|by apply Hnext|]. specialize (O4 (Remote id) Hp). cbn in *. lia.
Qed.

Lemma revise_own_wp w ob du g1 g2 st r e b e' o' (Q : bool * Origin.Edit → State → Prop) E :
  Origin.revise r e (facts g1) = (b, e', o') → Q (b, e') (put w ob du (set_facts o' g1) g2 st) →
  wp Faulty (revise_fact Own r e) Q E (put w ob du g1 g2 st).
Proof.
  intros Hr HQ. unfold revise_fact. wp_step. wp_step. change (group_of Own (put w ob du g1 g2 st)) with g1. rewrite Hr. wp_step. wp_step. by wp_step.
Qed.

Lemma revise_all_wp w ob du g1 g2 st r e b e' o' (Q : bool * Origin.Edit → State → Prop) E :
  Origin.revise r e (facts g2) = (b, e', o') → Q (b, e') (put w ob du g1 (set_facts o' g2) st) →
  wp Faulty (revise_fact All r e) Q E (put w ob du g1 g2 st).
Proof.
  intros Hr HQ. unfold revise_fact. wp_step. wp_step. change (group_of All (put w ob du g1 g2 st)) with g2. rewrite Hr. wp_step. wp_step. by wp_step.
Qed.

(** What is left when a write is given up after [G1], [G2] and [ST] have been put
    back: the clock has been read, and there may be new, empty agendas. *)
Definition left_over (G1 G2 : Facts) (ST : Views) (s' : State) : Prop := ∃ w ob du A1 A2,
  s' = put w ob du (set_agenda A1 G1) (set_agenda A2 G2) ST ∧ parts w ob du A1 A2 ∧
  scheduled deadline ob m1 A1 ∧ scheduled deadline ob m2 A2.

Lemma left_here w ob du (g1 g2 : Facts) st :
  parts w ob du (agenda g1) (agenda g2) → scheduled deadline ob m1 (agenda g1) → scheduled deadline ob m2 (agenda g2) →
  left_over g1 g2 st (put w ob du g1 g2 st).
Proof.
  intros Hp H1 H2. exists w, ob, du, (agenda g1), (agenda g2). split_and!; try done. by destruct g1, g2.
Qed.

(** Facts and timers of a group at rest. *)
Definition at_rest (sd : side) (m : Record_map) (log : Origin.chronicle (Item := record)) (g : Facts) : Prop :=
  origin_ok (is_own sd) lim (facts g) m log ∧ ∀ n, n ∈ timers g ↔ is_Some (lease_of deadline m n).

Lemma own_rest : at_rest Own m1 log1 (own_ s).
Proof. pose proof (group_fits _ _ _ _ Hok _ _ _ Ha1) as []. done. Qed.
Lemma all_rest : at_rest All m2 log2 (all_ s).
Proof. pose proof (group_fits _ _ _ _ Hok _ _ _ Ha2) as []. done. Qed.

Lemma rest_group sd m log g ob A :
  a sd = Some (m, log) → at_rest sd m log g → scheduled deadline ob m A → group_ok limits_ false ob sd (set_agenda A g) (m, log).
Proof.
  intros Ha [Ho Ht] Hs. pose proof (group_fits _ _ _ _ Hok _ _ _ Ha) as [_ _ _ G4 G5]. by split.
Qed.

Lemma left_over_ok G1 G2 ST s' :
  at_rest Own m1 log1 G1 → at_rest All m2 log2 G2 → stage_fits limits_ ST (showing a) → left_over G1 G2 ST s' →
  state_ok limits_ None s' a.
Proof.
  intros R1 R2 Hst (w & ob & du & A1 & A2 & -> & Hp & S1 & S2).
  assert (Heq : ∀ sd, a sd = upd Own (m1, log1) (upd All (m2, log2) a) sd).
  { intros sd. unfold upd. destruct (decide (sd = Own)) as [->|]; [done|]. by destruct (decide (sd = All)) as [->|]. }
  eapply state_ghost; [exact Heq|]. apply put_ok; [done|by apply rest_group|by apply rest_group|].
  eapply stage_ext; [|exact Hst]. intros sc k. unfold showing. by rewrite <- Heq.
Qed.

(** ** The decision, taken twice *)
Context (n : Name) (renewal : bool) (v : Value) (ver ttl : Z) (rd1 : Reading) (first : record) (comb : Change).
Context (Hrule : rule renewal (m1 !! n) (m2 !! n) v ver ttl rd1 = Expected first) (Hrd : Clock.time rd1 = t1).
Context (Hmerge : Catalog.merge (m2 !! n) first (Clock.time rd1) = Expected comb).
Abbreviation form := (if renewal then form_renew else form_record).

(** The write took effect with the clock showing [rd]. *)
Definition written (s' : State) : Prop := ∃ rd cand ch now,
  t1 <= Clock.time rd ∧ rule renewal (m1 !! n) (m2 !! n) v ver ttl rd = Expected cand ∧
  Catalog.merge (m2 !! n) cand (Clock.time rd) = Expected ch ∧ observed_ s' = Some (Clock.time rd) ∧
  (∀ sd, timely sd s → timely sd s') ∧
  state_ok limits_ None s'
    (upd Own (<[n := cand]> m1, extend log1 (Some (place log1 + 1)) [own_event n cand (place log1 + 1) form now])
       (upd All (<[n := changed ch]> m2, log2) a)).

Lemma own_bounded : bounded (m1 !! n).
Proof.
  intros x d Hx Hd. eapply (go_short _ _ _ _ _ _ (group_fits _ _ _ _ Hok _ _ _ Ha1) n). unfold lease_of. cbn. by rewrite Hx.
Qed.
Lemma all_bounded : bounded (m2 !! n).
Proof.
  intros x d Hx Hd. eapply (go_short _ _ _ _ _ _ (group_fits _ _ _ _ Hok _ _ _ Ha2) n). unfold lease_of. cbn. by rewrite Hx.
Qed.

Record decided (rd : Reading) (cand : record) (ch : Change) : Prop := {
  de_rule : rule renewal (m1 !! n) (m2 !! n) v ver ttl rd = Expected cand;
  de_merge : Catalog.merge (m2 !! n) cand (Clock.time rd) = Expected ch;
  de_valid : valid cand = true ∧ valid (changed ch) = true;
  de_same : version (changed ch) = version cand ∧ value (changed ch) = value cand;
  de_lively : lively (Clock.time rd) cand ∧ lively (Clock.time rd) (changed ch);
  de_visible : visible ch = visible_change (m2 !! n) (changed ch);
  de_longer : deadline_of cand <= deadline_of (changed ch)
}.

Lemma decide_once rd cand ch :
  rule renewal (m1 !! n) (m2 !! n) v ver ttl rd = Expected cand → Catalog.merge (m2 !! n) cand (Clock.time rd) = Expected ch →
  decided rd cand ch.
Proof.
  intros Hr Hm. destruct (rule_shape _ _ _ _ _ _ _ _ own_bounded Hr) as (H1 & H2 & H3 & H4 & H5 & H6). rewrite <- H2 in H4.
  destruct (merge_fresh _ _ _ _ Hm H3 H4 all_bounded) as (M1 & M2 & M3 & M4 & M5 & M6). by split.
Qed.

(** The second decision repeats version and payload of the first one. *)
Lemma decide_twice rd cand :
  rule renewal (m1 !! n) (m2 !! n) (value first) ver ttl rd = Expected cand →
  ∃ ch, decided rd cand ch ∧ version cand = version first ∧ value cand = value first.
Proof.
  intros Hr. destruct (rule_shape _ _ _ _ _ _ _ _ own_bounded Hrule) as (F1 & F2 & F3 & F4 & F5 & F6).
  destruct (rule_shape _ _ _ _ _ _ _ _ own_bounded Hr) as (H1 & H2 & H3 & H4 & H5 & H6).
  assert (Hv : version cand = version first) by congruence.
  assert (Hb : value cand = value first).
  { destruct renewal; [|done]. destruct H5 as (x & E1 & ->), F5 as (y & E2 & ->). congruence. }
  destruct (merge_again _ _ _ _ _ (Clock.time rd) Hmerge Hv Hb H1 H6) as [ch Hch]. exists ch. split; [|done]. apply decide_once; [|done].
  unfold rule in *. destruct renewal; [done|]. by rewrite F5 in Hr.
Qed.

(** ** The end of a write *)
Definition content (r : record) : Content := {| content_version := version r; content_value := value r |}.

(** The edit of the projection, when the first decision asked for one. *)
Definition displaying (ns : list (Scope * Scene.Event (Item := Content))) (before : Z) (pr : option (Scene.Edit (Item := Content)))
    (st : Views) : Prop :=
  match pr with
  | Some e => visible comb = true ∧
      projecting (projection_limits limits_) (scopes_limit limits_) (history_limit limits_) st (showing a) (Origin.scope n) (Origin.key n)
        (Some (content (changed comb))) before ns e
  | None => visible comb = false ∧ stage_fits limits_ st (showing a)
  end.
Definition displayed (before : Z) (pr : option (Scene.Edit (Item := Content))) (st : Views) : Views :=
  match pr with Some e => release (Origin.scope n) before e st | None => st end.

Lemma invisible_content r : visible_change (m2 !! n) r = false → is_Some (value r) →
  ∃ c, m2 !! n = Some c ∧ version c = version r ∧ value c = value r.
Proof.
  unfold visible_change. intros Hv [b Hb]. rewrite Hb in Hv. destruct (m2 !! n) as [c|]; [|done]. exists c. split; [done|].
  destruct (value c) as [b'|]; [|done]. cbn in Hv. destruct (Z.eqb_spec (version c) (version r)) as [E|]; [|done]. cbn in Hv.
  apply differ_false in Hv. split; [done|]. congruence.
Qed.

(** The projection shows the final record, although it was prepared with the first one. *)
Lemma displayed_fits ns before pr st x1 r :
  displaying ns before pr st → version r = version first → value r = value first →
  stage_fits limits_ (displayed before pr st) (showing (upd Own x1 (upd All (<[n := r]> m2, log2) a))).
Proof.
  intros Hd Hv Hb. destruct (decide_once rd1 first comb Hrule Hmerge) as [_ _ _ [D1 D2] [(b & d & D3 & _) _] D4 _].
  assert (Hn : {| Origin.scope := Origin.scope n; Origin.key := Origin.key n |} = n) by (by destruct n).
  assert (Hshow : ∀ sc k, showing (upd Own x1 (upd All (<[n := r]> m2, log2) a)) sc k =
    if decide (sc = Origin.scope n ∧ k = Origin.key n) then Some (content (changed comb)) else showing a sc k).
  { intros sc k. unfold showing, upd. rewrite (decide_False (P := All = Own)), decide_True, Ha2 by done. cbn. unfold content_of. destruct (decide (sc = _ ∧ k = _)) as [[-> ->]|Hne].
    - rewrite Hn, lookup_insert_eq. cbn. rewrite Hb, D3. cbn. unfold content. by rewrite D1, D2, Hv, D3.
    - rewrite lookup_insert_ne; [done|]. intros ->. by apply Hne. }
  destruct pr as [e|]; cbn in *.
  - destruct Hd as [_ [_ _ _ Hrel]]. eapply stage_ext; [|exact Hrel]. intros sc k. by rewrite Hshow.
  - destruct Hd as [Hvis Hst]. eapply stage_ext; [|exact Hst]. intros sc k. rewrite Hshow. destruct (decide _) as [[-> ->]|]; [|done].
    rewrite Hvis in D4. symmetry in D4. destruct (invisible_content _ D4) as (c & Hc & E1 & E2); [rewrite D2, D3; by eexists|].
    unfold showing. rewrite Ha2. cbn. unfold content_of. rewrite Hn, Hc. cbn. rewrite E2, D2, D3. cbn. unfold content. by rewrite E1, D2, D3.
Qed.

(** A group with its new record and timer. *)
Lemma renewed_group sd m log m' log' (g : Facts) ob w fr o r d :
  a sd = Some (m, log) → scheduled deadline ob m (Some (w, fr)) → m' = <[n := r]> m →
  (∀ n', n' ∈ timers g ↔ n' = n ∨ is_Some (lease_of deadline m n')) →
  origin_ok (is_own sd) lim o m' log' → valid r = true → deadline r = Some d → d <= time_max →
  group_ok limits_ false ob sd (set_agenda (Some (Agenda.set n d w fr, fr)) (set_facts o g)) (m', log').
Proof.
  intros Ha Hs -> Ht Ho Hv Hd Hmax. pose proof (group_fits _ _ _ _ Hok _ _ _ Ha) as [_ _ _ G4 G5]. cbn [fst snd] in *. split; cbn [fst snd]; try done.
  - intros n'. cbn. rewrite Ht, lease_insert. destruct (decide (n' = n)) as [->|]; [rewrite Hd; split; [by eexists|by left]|naive_solver].
  - intros _. cbn. by apply (scheduled_set deadline ob m w fr n (Some r) d).
  - by apply map_Forall_insert_2.
  - intros n' d'. rewrite lease_insert. destruct (decide (n' = n)); [congruence|apply G5].
Qed.

Lemma next_set (w : wheel Name) fr d : settled w fr → d <= time_max → next (Agenda.set n d w fr) fr = next w fr.
Proof.
  intros Hs Hd. destruct (set_spec n d w fr (settled_wf _ _ Hs)) as (_ & C & _); [|done|].
  - rewrite (settled_now _ _ Hs). apply Hs.
  - unfold next, time, now. by rewrite C.
Qed.

Definition ended (G1 G2 : Facts) (ST : Views) (x : expected unit Failure) (s' : State) : Prop :=
  match x with Expected _ => written s' | Unexpected _ => left_over G1 G2 ST s' end.

(** The new lease ends after the present instant. *)
Lemma timed_insert t m (w : wheel Name) fr r d :
  scheduled deadline (Some t) m (Some (w, fr)) → on_time m (Some (w, fr)) → deadline r = Some d → t < d →
  on_time (<[n := r]> m) (Some (Agenda.set n d w fr, fr)).
Proof.
  intros Hs Ht Hd Hlt w' fr' [= <- <-] n' d'. rewrite lease_insert. destruct (decide (n' = n)) as [->|]; [|by apply (Ht w fr)].
  rewrite Hd. intros [= <-]. destruct (sc_some _ _ _ _ Hs w fr eq_refl) as (_ & _ & o & [= <-] & Hle). lia.
Qed.

Section conclude.
Context (w : World) (ob : option Z) (du : Z) (g1 g2 : Facts) (st : Views) (w1 w2 : wheel Name) (fr1 fr2 : frame).
Context (Hag1 : agenda g1 = Some (w1, fr1)) (Hag2 : agenda g2 = Some (w2, fr2)) (Hparts : parts w ob du (agenda g1) (agenda g2)).
Context (Hs1 : scheduled deadline ob m1 (agenda g1)) (Hs2 : scheduled deadline ob m2 (agenda g2)).
Context (p now1 now2 : Z) (e1 e2 : Origin.Edit (Item := record)).
Context (He1 : editable (is_own Own) lim m1 log1 n (Some first) (Some p) form now1 e1 (facts g1)).
Context (He2 : editable (is_own All) lim m2 log2 n (Some (changed comb)) None form_record now2 e2 (facts g2)).
Context (Ht1 : ∀ n', n' ∈ timers g1 ↔ n' = n ∨ is_Some (lease_of deadline m1 n')).
Context (Ht2 : ∀ n', n' ∈ timers g2 ↔ n' = n ∨ is_Some (lease_of deadline m2 n')).
Context (ns : list (Scope * Scene.Event (Item := Content))) (before : Z) (pr : option (Scene.Edit (Item := Content))).
Context (Hpr : displaying ns before pr st).

Lemma parts_later w' t :
  typed w' → 0 <= t <= time_max → (∀ o, ob = Some o → o <= t) → parts w' (Some t) du (agenda g1) (agenda g2) ∧ t1 <= t.
Proof.
  intros Hw Ht Hle. destruct Hparts as [P1 (o & Ho & _ & Ho1) P3]. specialize (Hle o Ho). split; [|lia]. split; try done. exists t. split_and!; try done; lia.
Qed.

Lemma conclude_wp :
  wp Faulty (conclude n (m1 !! n) (m2 !! n) (value first) ver ttl renewal before e1 e2 pr)
    (ended g1 g2 st) (λ _ _, False) (put w ob du g1 g2 st).
Proof.
  unfold conclude. apply wp_try, reading_wp; [apply Hparts|..].
  { intros w' Hw'. apply left_here; [|done|done]. destruct Hparts. by split. }
  intros rd w' Hw' _ Ht Ho. cbn [observed_ put] in Ho. destruct (parts_later w' (Clock.time rd) Hw' Ht Ho) as [Hp' Hle].
  assert (Hl1 : scheduled deadline (Some (Clock.time rd)) m1 (agenda g1)) by (by eapply scheduled_later).
  assert (Hl2 : scheduled deadline (Some (Clock.time rd)) m2 (agenda g2)) by (by eapply scheduled_later).
  apply wp_try. wp_step. destruct (rule renewal (m1 !! n) (m2 !! n) (value first) ver ttl rd) as [cand|er] eqn:Er; cbn [refused].
  2: by apply left_here.
  destruct (decide_twice rd cand Er) as (ch & Hd & Hv & Hb). pose proof Hd as [D1 D2 [D3 D3'] [D4 D4'] [(b1 & d1 & _ & E1 & L1) (b2 & d2 & _ & E2 & L2)] D6 _].
  rewrite D2. destruct (decide_once rd1 first comb Hrule Hmerge) as [_ _ _ [_ F2] _ _ _].
  destruct (revise_ok Own _ _ _ _ cand _ _ _ _ _ He1) as (e1' & o1' & Hr1 & Hf1). { cbn. by rewrite Hb. }
  destruct (revise_ok All _ _ _ _ (changed ch) _ _ _ _ _ He2) as (e2' & o2' & Hr2 & Hf2). { cbn. by rewrite D4', F2, Hb. }
  change (set_observed _ _) with (put w' (Some (Clock.time rd)) du g1 g2 st).
  wp_step. eapply revise_own_wp; [exact Hr1|]. cbn [fst negb]. wp_step. eapply revise_all_wp; [exact Hr2|]. cbn [fst snd negb].
  wp_step. wp_step. change (commit_fact Own e1' _) with
    (put w' (Some (Clock.time rd)) du (set_facts (Origin.commit e1' o1') g1) (set_facts o2' g2) st).
  wp_step. wp_step. change (commit_fact All e2' _) with
    (put w' (Some (Clock.time rd)) du (set_facts (Origin.commit e1' o1') g1) (set_facts (Origin.commit e2' o2') g2) st).
  wp_step. wp_step.
  set (st1 := match pr with Some e => touch_scene (Origin.scope n) (Scene.commit e) st | None => st end).
  replace (commit_scene (Origin.scope n) pr _) with
    (put w' (Some (Clock.time rd)) du (set_facts (Origin.commit e1' o1') g1) (set_facts (Origin.commit e2' o2') g2) st1).
  2: { unfold st1. by destruct pr. }
  unfold set_timer. wp_step. wp_step. wp_step. cbn [group_of put own_ set_facts agenda]. rewrite Hag1, E1. wp_step.
  wp_step. wp_step. wp_step. cbn [on_group group_of set_group set_own put all_ set_facts agenda]. rewrite Hag2, E2. wp_step.
  wp_step. wp_step. wp_step.
  assert (Hset1 : settled w1 fr1) by (by apply (sc_some _ _ _ _ Hs1)). assert (Hset2 : settled w2 fr2) by (by apply (sc_some _ _ _ _ Hs2)).
  destruct (editable_local _ _ _ _ _ _ _ _ _ Hf1) as [Hpos Han].
  pose proof (editable_commit _ _ (lf_source _ HL) _ _ _ _ _ _ _ _ _ Hf1) as Hc1. rewrite Han in Hc1. cbn [next_shown] in Hc1.
  pose proof (editable_quiet _ HL _ _ _ _ _ _ _ _ _ Hf2) as Hc2. cbn [next_shown] in Hc2.
  replace (publish_scene _ _ _ _) with
    (put w' (Some (Clock.time rd)) du (set_agenda (Some (Agenda.set n d1 w1 fr1, fr1)) (set_facts (Origin.commit e1' o1') g1))
       (set_agenda (Some (Agenda.set n d2 w2 fr2, fr2)) (set_facts (Origin.commit e2' o2') g2)) (displayed before pr st)).
  2: { unfold st1, displayed, publish_scene. by destruct pr. }
  set (final := put _ _ _ _ _ _). rewrite Hag1 in Hl1. rewrite Hag2 in Hl2.
  assert (Hfinal : state_ok limits_ None final
    (upd Own (<[n := cand]> m1, extend log1 (Some p) [own_event n cand p form now1]) (upd All (<[n := changed ch]> m2, log2) a))).
  2: { exists rd, cand, ch, now1. rewrite <- Hpos. split_and!; try done. intros sd Hsd. destruct Hp' as [_ _ _ [P6 P7]].
    destruct (decide (sd = Own)) as [->|]; [|destruct (decide (sd = All)) as [->|]; [|by destruct sd]].
    - eapply timely_state; [exact Hfinal|done|]. eapply timely_state in Hsd; [|exact Hok|exact Ha1]. rewrite Hag1 in P6. eapply timed_insert; [exact Hl1|by apply P6|done|lia].
    - eapply timely_state; [exact Hfinal|done|]. eapply timely_state in Hsd; [|exact Hok|exact Ha2]. rewrite Hag2 in P7. eapply timed_insert; [exact Hl2|by apply P7|done|lia]. }
  apply put_ok.
  - destruct Hp' as [P1 P2 (P3 & P4 & P5) [P6 P7]]. split; [done|done|..]; cbn [agenda set_agenda]; split_and!; try done.
    + intros w0 fr0 [= <- <-]. rewrite next_set by (done || lia). by apply P4.
    + intros w0 fr0 [= <- <-]. rewrite next_set by (done || lia). by apply P5.
    + intros Hx w0 fr0 [= <- <-]. by apply (P6 Hx w1 fr1).
    + intros Hx w0 fr0 [= <- <-]. by apply (P7 Hx w2 fr2).
  - eapply renewed_group; try done. lia.
  - eapply renewed_group; try done. lia.
  - eapply displayed_fits; [exact Hpr|congruence..].
Qed.
End conclude.

(** ** Agendas and timers *)
Lemma fresh_agenda : ∃ w fr, Agenda.make (N := Name) t1 = Done (w, fr) ∧ 0 <= t1 <= time_max.
Proof.
  pose proof (ou_observed _ _ _ (st_outside _ _ _ _ Hok) t1 Hobs) as Ht. unfold Agenda.make. rewrite (proj2 (Z.ltb_ge _ _)) by lia. by eexists _, _.
Qed.

Lemma ensure_own_wp w du g1 g2 st :
  parts w (Some t1) du (agenda g1) (agenda g2) → scheduled deadline (Some t1) m1 (agenda g1) →
  wp Faulty (ensure Own t1)
    (λ _ s', ∃ du' w1 fr1, s' = put w (Some t1) du' (set_agenda (Some (w1, fr1)) g1) g2 st ∧
       parts w (Some t1) du' (Some (w1, fr1)) (agenda g2) ∧ scheduled deadline (Some t1) m1 (Some (w1, fr1)))
    (λ e s', oom e ∧ s' = put w (Some t1) du g1 g2 st) (put w (Some t1) du g1 g2 st).
Proof.
  intros Hp Hs. unfold ensure. wp_step. wp_step. change (group_of Own (put w (Some t1) du g1 g2 st)) with g1.
  destruct (agenda g1) as [[w1 fr1]|] eqn:Ea.
  { wp_step. exists du, w1, fr1. split_and!; try done. f_equal. destruct g1; cbn in *. by subst. }
  wp_step. wp_step; [|by split; [left|]]. destruct fresh_agenda as (w1 & fr1 & Hm & Ht). wp_step. rewrite Hm. wp_step. wp_step. cbn [fst snd].
  eexists _, w1, fr1. split; [done|]. split; [|eapply fresh_scheduled; [done|lia|by apply (sc_none _ _ _ _ Hs)]].
  destruct Hp as [P1 P2 (P3 & P4 & P5) [P6 P7]]. split; [done|done|..]; cbn [due_ put]; split_and!; try done; [lia|intros w0 fr0 [= <- <-]; lia| |].
  - intros w0 fr0 E. specialize (P5 w0 fr0 E). lia.
  - intros _ w0 fr0 _ n' d'. by rewrite (sc_none _ _ _ _ Hs).
Qed.

Lemma ensure_all_wp w du g1 g2 st :
  parts w (Some t1) du (agenda g1) (agenda g2) → scheduled deadline (Some t1) m2 (agenda g2) →
  wp Faulty (ensure All t1)
    (λ _ s', ∃ du' w2 fr2, s' = put w (Some t1) du' g1 (set_agenda (Some (w2, fr2)) g2) st ∧
       parts w (Some t1) du' (agenda g1) (Some (w2, fr2)) ∧ scheduled deadline (Some t1) m2 (Some (w2, fr2)))
    (λ e s', oom e ∧ s' = put w (Some t1) du g1 g2 st) (put w (Some t1) du g1 g2 st).
Proof.
  intros Hp Hs. unfold ensure. wp_step. wp_step. change (group_of All (put w (Some t1) du g1 g2 st)) with g2.
  destruct (agenda g2) as [[w2 fr2]|] eqn:Ea.
  { wp_step. exists du, w2, fr2. split_and!; try done. f_equal. destruct g2; cbn in *. by subst. }
  wp_step. wp_step; [|by split; [left|]]. destruct fresh_agenda as (w2 & fr2 & Hm & Ht). wp_step. rewrite Hm. wp_step. wp_step. cbn [fst snd].
  eexists _, w2, fr2. split; [done|]. split; [|eapply fresh_scheduled; [done|lia|by apply (sc_none _ _ _ _ Hs)]].
  destruct Hp as [P1 P2 (P3 & P4 & P5) [P6 P7]]. split; [done|done|..]; cbn [due_ put]; split_and!; try done; [lia| |intros w0 fr0 [= <- <-]; lia|].
  - intros w0 fr0 E. specialize (P4 w0 fr0 E). lia.
  - intros _ w0 fr0 _ n' d'. by rewrite (sc_none _ _ _ _ Hs).
Qed.

Definition hooked (b : bool) (g : Facts) : Facts := if b then set_timers ({[n]} ∪ timers g) g else g.

Lemma hook_wp sd s0 g (Q : bool → State → Prop) (E : exn → State → Prop) :
  group_of sd s0 = g → present sd s0 → (∀ b : bool, (if b then n ∉ timers g else n ∈ timers g) → Q b (on_group sd (hooked b) s0)) → E bad_alloc s0 →
  wp Faulty (hook sd n) Q E s0.
Proof.
  intros Hg Hp HQ HE. unfold hook. wp_step. wp_step. rewrite Hg. destruct (bool_decide_reflect (n ∈ timers g)) as [Hin|Hin].
  - wp_step. replace s0 with (on_group sd (hooked false) s0) by (unfold on_group; cbn; by apply set_group_same). by apply HQ.
  - wp_step. wp_step; [|done]. wp_step. wp_step. wp_step. by apply (HQ true).
Qed.

Lemma hooked_timers (b : bool) (g : Facts) (m : Record_map) :
  (if b then n ∉ timers g else n ∈ timers g) → (∀ n', n' ∈ timers g ↔ is_Some (lease_of deadline m n')) →
  ∀ n', n' ∈ timers (hooked b g) ↔ n' = n ∨ is_Some (lease_of deadline m n').
Proof.
  intros Hb Ht n'. destruct b; cbn; [rewrite elem_of_union, elem_of_singleton, Ht; done|]. rewrite <- Ht. naive_solver.
Qed.

Lemma unhook_group (b : bool) (g : Facts) (A : option Timers) :
  (if b then n ∉ timers g else n ∈ timers g) →
  (if b then set_timers (timers (set_agenda A (hooked b g)) ∖ {[n]}) (set_agenda A (hooked b g)) else set_agenda A (hooked b g)) = set_agenda A g.
Proof.
  intros Hb. destruct b; [|done]. destruct g as [o ag ti]. unfold set_agenda, set_timers, hooked. cbn in *. f_equal. set_solver.
Qed.

Lemma left_unhook_own (b : bool) (g : Facts) A G2 ST s' :
  (if b then n ∉ timers g else n ∈ timers g) → left_over (hooked b (set_agenda A g)) G2 ST s' →
  left_over g G2 ST (if b then unhook Own n s' else s').
Proof.
  intros Hb (w & ob & du & A1 & A2 & -> & Hp & H1 & H2). exists w, ob, du, A1, A2. split_and!; try done.
  transitivity (put w ob du (set_agenda A1 (set_agenda A g)) (set_agenda A2 G2) ST); [|done].
  rewrite <- (unhook_group b (set_agenda A g) A1) by done. by destruct b.
Qed.

Lemma left_unhook_all (b : bool) G1 (g : Facts) A ST s' :
  (if b then n ∉ timers g else n ∈ timers g) → left_over G1 (hooked b (set_agenda A g)) ST s' →
  left_over G1 g ST (if b then unhook All n s' else s').
Proof.
  intros Hb (w & ob & du & A1 & A2 & -> & Hp & H1 & H2). exists w, ob, du, A1, A2. split_and!; try done.
  transitivity (put w ob du (set_agenda A1 G1) (set_agenda A2 (set_agenda A g)) ST); [|done].
  rewrite <- (unhook_group b (set_agenda A g) A2) by done. by destruct b.
Qed.

(** ** From the prepared edits on *)
Definition given_up (G1 G2 : Facts) (ST : Views) (e : exn) (s' : State) : Prop := oom e ∧ left_over G1 G2 ST s'.

Lemma arm_wp w du g1 g2 st p now1 now2 e1 e2 ns before pr :
  parts w (Some t1) du (agenda g1) (agenda g2) →
  scheduled deadline (Some t1) m1 (agenda g1) → scheduled deadline (Some t1) m2 (agenda g2) →
  editable (is_own Own) lim m1 log1 n (Some first) (Some p) form now1 e1 (facts g1) →
  editable (is_own All) lim m2 log2 n (Some (changed comb)) None form_record now2 e2 (facts g2) →
  (∀ n', n' ∈ timers g1 ↔ is_Some (lease_of deadline m1 n')) → (∀ n', n' ∈ timers g2 ↔ is_Some (lease_of deadline m2 n')) →
  displaying ns before pr st →
  wp Faulty (arm n t1 (conclude n (m1 !! n) (m2 !! n) (value first) ver ttl renewal before e1 e2 pr))
    (ended g1 g2 st) (given_up g1 g2 st) (put w (Some t1) du g1 g2 st).
Proof.
  intros Hp Hs1 Hs2 He1 He2 Ht1 Ht2 Hpr. unfold arm. wp_step.
  eapply wp_mono; [by apply ensure_own_wp|..]. 2: { intros e s' [He ->]. split; [done|]. by apply left_here. }
  intros _ s1 (du1 & w1 & fr1 & -> & Hp1 & Hs1'). set (h1 := set_agenda (Some (w1, fr1)) g1).
  assert (Hl1 : left_over g1 g2 st (put w (Some t1) du1 h1 g2 st)).
  { exists w, (Some t1), du1, (Some (w1, fr1)), (agenda g2). split_and!; try done. by destruct g2. }
  wp_step. eapply wp_mono; [by apply (ensure_all_wp w du1 h1 g2 st)|..]. 2: { intros e s' [He ->]. by split. }
  intros _ s2 (du2 & w2 & fr2 & -> & Hp2 & Hs2'). set (h2 := set_agenda (Some (w2, fr2)) g2).
  assert (Hl2 : left_over g1 g2 st (put w (Some t1) du2 h1 h2 st)).
  { exists w, (Some t1), du2, (Some (w1, fr1)), (Some (w2, fr2)). by split_and!. }
  wp_step. apply (hook_wp Own _ h1); [done|done| |by split; [left|]]. intros b1 Hb1.
  change (on_group Own (hooked b1) _) with (put w (Some t1) du2 (hooked b1 h1) h2 st). apply wp_scoped.
  wp_step. apply (hook_wp All _ h2); [done|done| |].
  2: { split; [by left|]. eapply (left_unhook_own b1 g1 (Some (w1, fr1))); [done|].
    exists w, (Some t1), du2, (Some (w1, fr1)), (Some (w2, fr2)). split_and!; try done. by destruct b1. }
  intros b2 Hb2. change (on_group All (hooked b2) _) with (put w (Some t1) du2 (hooked b1 h1) (hooked b2 h2) st). apply wp_scoped.
  assert (Hag1 : agenda (hooked b1 h1) = Some (w1, fr1)) by (by destruct b1).
  assert (Hag2 : agenda (hooked b2 h2) = Some (w2, fr2)) by (by destruct b2).
  eapply wp_mono; [eapply (conclude_wp w (Some t1) du2 (hooked b1 h1) (hooked b2 h2) st w1 w2 fr1 fr2); try done|..].
  - by rewrite Hag1, Hag2.
  - by rewrite Hag1.
  - by rewrite Hag2.
  - by destruct b1.
  - by destruct b2.
  - by apply hooked_timers.
  - by apply hooked_timers.
  - intros [[]|e] s' Hx; [done|]. cbn [ended] in *. eapply (left_unhook_own b1 g1 (Some (w1, fr1))); [done|].
    by eapply (left_unhook_all b2 _ g2 (Some (w2, fr2))).
  - done.
Qed.

(** ** The edits themselves *)
Abbreviation sc := (Origin.scope n).
Abbreviation k := (Origin.key n).
Abbreviation ns := (notices (stage_ s)).

Definition stage_rest (ST : Views) : Prop := stage_fits limits_ ST (showing a) ∧ is_Some (scene_at sc ST) ∧ notices ST = ns.
Definition staged_over (G1 G2 : Facts) (s' : State) : Prop := ∃ ST, left_over G1 G2 ST s' ∧ stage_rest ST.
Definition merged_over (G1 : Facts) (s' : State) : Prop := ∃ G2, staged_over G1 G2 s' ∧ at_rest All m2 log2 G2.
Definition rest_over (s' : State) : Prop := ∃ G1, merged_over G1 s' ∧ at_rest Own m1 log1 G1.

Definition outcome (over : State → Prop) (x : expected unit Failure) (s' : State) : Prop :=
  match x with Expected _ => written s' | Unexpected _ => over s' end.

Lemma abort_own_over G1 s' e :
  at_rest Own m1 log1 (set_facts (Origin.abort e (facts G1)) G1) → merged_over G1 s' → rest_over (abort_fact Own e s').
Proof.
  intros Hr (G2 & (ST & (w & ob & du & A1 & A2 & -> & Hp & H1 & H2) & Hst) & Hr2). eexists. split; [|exact Hr].
  exists G2. split; [|done]. exists ST. split; [|done]. by exists w, ob, du, A1, A2.
Qed.

Lemma abort_all_over G1 G2 s' e :
  at_rest All m2 log2 (set_facts (Origin.abort e (facts G2)) G2) → staged_over G1 G2 s' → merged_over G1 (abort_fact All e s').
Proof.
  intros Hr (ST & (w & ob & du & A1 & A2 & -> & Hp & H1 & H2) & Hst). eexists. split; [|exact Hr].
  exists ST. split; [|done]. by exists w, ob, du, A1, A2.
Qed.

Lemma abort_scene_over G1 G2 before pr st s' :
  displaying ns before pr st → is_Some (scene_at sc st) → notices st = ns → left_over G1 G2 st s' →
  staged_over G1 G2 (abort_scene sc pr s').
Proof.
  intros Hd Hv Hn (w & ob & du & A1 & A2 & -> & Hp & H1 & H2). destruct pr as [e|]; cbn in *.
  - destruct Hd as [_ [P1 [v' P2] P3 P4]]. eexists. split; [by exists w, ob, du, A1, A2|]. split; [done|].
    unfold touch_scene. cbn [stage_ put]. rewrite P2. split; [rewrite scene_at_place, decide_True by done; by eexists|done].
  - exists st. split; [by exists w, ob, du, A1, A2|]. by destruct Hd.
Qed.

Lemma project_write_wp w du g1 g2 st v0 p now1 now2 e1 e2 :
  parts w (Some t1) du (agenda g1) (agenda g2) →
  scheduled deadline (Some t1) m1 (agenda g1) → scheduled deadline (Some t1) m2 (agenda g2) →
  editable (is_own Own) lim m1 log1 n (Some first) (Some p) form now1 e1 (facts g1) →
  editable (is_own All) lim m2 log2 n (Some (changed comb)) None form_record now2 e2 (facts g2) →
  (∀ n', n' ∈ timers g1 ↔ is_Some (lease_of deadline m1 n')) → (∀ n', n' ∈ timers g2 ↔ is_Some (lease_of deadline m2 n')) →
  stage_rest st → scene_at sc st = Some v0 →
  wp Faulty
    (projection <-? (if visible comb then
                       e <-? prepare_scene limits_ sc k
                         (Some {| content_version := version (changed comb); content_value := value (changed comb) |})
                         (history_limit limits_ - (Stage.history_ st - Scene.backlog_ v0)) ;;
                       ret (Expected (Some e))
                     else ret (Expected None)) ;;
     scoped (abort_scene sc projection)
       (arm n t1 (conclude n (m1 !! n) (m2 !! n) (value first) ver ttl renewal (Scene.backlog_ v0) e1 e2 projection)))
    (outcome (staged_over g1 g2)) (λ e s', oom e ∧ staged_over g1 g2 s') (put w (Some t1) du g1 g2 st).
Proof.
  intros Hp Hs1 Hs2 He1 He2 Ht1 Ht2 (R1 & R2 & R3) Hv.
  assert (Hover : ∀ w' st', typed w' → stage_rest st' → staged_over g1 g2 (put w' (Some t1) du g1 g2 st')).
  { intros w' st' Hw' Hst'. exists st'. split; [|done]. apply left_here; try done. by destruct Hp. }
  assert (Hgo : ∀ w' st' pr, typed w' → displaying ns (Scene.backlog_ v0) pr st' → is_Some (scene_at sc st') → notices st' = ns →
    wp Faulty (scoped (abort_scene sc pr) (arm n t1 (conclude n (m1 !! n) (m2 !! n) (value first) ver ttl renewal (Scene.backlog_ v0) e1 e2 pr)))
      (outcome (staged_over g1 g2)) (λ e s', oom e ∧ staged_over g1 g2 s') (put w' (Some t1) du g1 g2 st')).
  { intros w' st' pr Hw' Hd Hx Hn. apply wp_scoped. eapply wp_mono; [eapply arm_wp; try done; by destruct Hp|..].
    - intros [[]|e] s' Hy; [done|]. by eapply abort_scene_over.
    - intros e s' [He Hy]. split; [done|]. by eapply abort_scene_over. }
  apply wp_try. destruct (visible comb) eqn:Ev.
  - apply wp_try. apply (prepare_scene_wp limits_ HL sc k _ _ _ (showing a) v0); try done.
    + apply Hp.
    + intros w' st' e Hw' H1 H2 H3. apply Hover; [done|]. split_and!; [done|done|]. by rewrite H3.
    + intros w' st' e Hw' Hpj. wp_step. apply Hgo; [done| |apply Hpj|by rewrite (pj_notices _ _ _ _ _ _ _ _ _ _ _ Hpj)].
      split; [done|]. rewrite <- R3. exact Hpj.
    + intros w' st' e Hw' He H1 H2 H3. split; [done|]. apply Hover; [done|]. split_and!; [done|done|]. by rewrite H3.
  - wp_step. apply Hgo; try done. apply Hp.
Qed.

Lemma start_parts w : typed w → parts w (Some t1) (due_ s) (agenda (own_ s)) (agenda (all_ s)).
Proof.
  intros Hw. pose proof (st_outside _ _ _ _ Hok) as [O1 O2 O3 O4 O5]. split; [done|exists t1; split_and!; try done; by apply O2| |done].
  split_and!; [done| |]; intros w0 fr0 E; [specialize (O4 Own I)|specialize (O4 All I)]; unfold next_of in O4; cbn in O4; by rewrite E in O4.
Qed.

Lemma merge_write_wp w g1 st v0 p now1 e1 :
  typed w → agenda g1 = agenda (own_ s) → timers g1 = timers (own_ s) →
  editable (is_own Own) lim m1 log1 n (Some first) (Some p) form now1 e1 (facts g1) →
  stage_rest st → scene_at sc st = Some v0 →
  wp Faulty
    (merged <-? prepare_fact limits_ All sc k (Some (changed comb)) None form_record ;;
     scoped (abort_fact All merged)
       (projection <-? (if visible comb then
                          e <-? prepare_scene limits_ sc k
                            (Some {| content_version := version (changed comb); content_value := value (changed comb) |})
                            (history_limit limits_ - (Stage.history_ st - Scene.backlog_ v0)) ;;
                          ret (Expected (Some e))
                        else ret (Expected None)) ;;
        scoped (abort_scene sc projection)
          (arm n t1 (conclude n (m1 !! n) (m2 !! n) (value first) ver ttl renewal (Scene.backlog_ v0) e1 merged projection))))
    (outcome (merged_over g1)) (λ e s', oom e ∧ merged_over g1 s') (put w (Some t1) (due_ s) g1 (all_ s) st).
Proof.
  intros Hw Hag Hti He1 Hst Hv. destruct all_rest as [Ro Rt]. destruct own_rest as [_ Rt1].
  assert (Hparts : ∀ w', typed w' → parts w' (Some t1) (due_ s) (agenda g1) (agenda (all_ s))).
  { rewrite Hag. apply start_parts. }
  assert (Hsch1 : scheduled deadline (Some t1) m1 (agenda g1)).
  { rewrite Hag. pose proof (go_agenda _ _ _ _ _ _ (group_fits _ _ _ _ Hok _ _ _ Ha1) eq_refl) as Hg. by rewrite Hobs in Hg. }
  assert (Hsch2 : scheduled deadline (Some t1) m2 (agenda (all_ s))).
  { pose proof (go_agenda _ _ _ _ _ _ (group_fits _ _ _ _ Hok _ _ _ Ha2) eq_refl) as Hg. by rewrite Hobs in Hg. }
  assert (Hn : {| Origin.scope := sc; Origin.key := k |} = n) by (by destruct n).
  assert (Hover : ∀ w' o, typed w' → origin_ok (is_own All) lim o m2 log2 → merged_over g1 (put w' (Some t1) (due_ s) g1 (set_facts o (all_ s)) st)).
  { intros w' o Hw' Ho. exists (set_facts o (all_ s)). split; [|by split]. exists st. split; [|done]. apply left_here; try done. by apply Hparts. }
  apply wp_try. eapply (prepare_fact_wp limits_ HL All); [done|exact Ro|..].
  - intros w' o e Hw' Ho. by apply Hover.
  - intros w' o e2 now2 Hw' He2. rewrite Hn in He2. apply wp_scoped.
    change (on_group All (set_facts o) _) with (put w' (Some t1) (due_ s) g1 (set_facts o (all_ s)) st).
    pose proof (editable_abort _ _ _ _ _ _ _ _ _ _ _ He2) as Hab.
    assert (Hrest : at_rest All m2 log2 (set_facts (Origin.abort e2 (facts (set_facts o (all_ s)))) (set_facts o (all_ s)))) by (by split).
    eapply wp_mono; [eapply project_write_wp; try done|..].
    + by apply Hparts.
    + by rewrite Hti.
    + intros [[]|e] s' Hx; [done|]. by eapply abort_all_over.
    + intros e s' [He Hx]. split; [done|]. by eapply abort_all_over.
  - intros w' o e Hw' He Ho. split; [done|]. by apply Hover.
Qed.

Lemma next_position_wp (Q : expected Z Origin.Error → Origin.Origin → Prop) E o :
  origin_ok (is_own Own) lim o m1 log1 → (∀ e, Q (Unexpected e) o) → (∀ p, Q (Expected p) o) → wp Faulty next_position Q E o.
Proof.
  intros Ho H1 H2. unfold next_position. apply origin_idle_wp; [apply Ho|]. wp_step. wp_step. wp_step. destruct (_ =? _); auto.
Qed.

Lemma own_write_wp st v0 :
  stage_rest st → scene_at sc st = Some v0 →
  wp Faulty
    (position <-? refusing of_source (on_facts Own next_position) ;;
     origin <-? prepare_fact limits_ Own sc k (Some first) (Some position) form ;;
     scoped (abort_fact Own origin)
       (merged <-? prepare_fact limits_ All sc k (Some (changed comb)) None form_record ;;
        scoped (abort_fact All merged)
          (projection <-? (if visible comb then
                             e <-? prepare_scene limits_ sc k
                               (Some {| content_version := version (changed comb); content_value := value (changed comb) |})
                               (history_limit limits_ - (Stage.history_ st - Scene.backlog_ v0)) ;;
                             ret (Expected (Some e))
                           else ret (Expected None)) ;;
           scoped (abort_scene sc projection)
             (arm n t1 (conclude n (m1 !! n) (m2 !! n) (value first) ver ttl renewal (Scene.backlog_ v0) origin merged projection)))))
    (outcome rest_over) (λ e s', oom e ∧ rest_over s') (set_stage st s).
Proof.
  intros Hst Hv. destruct own_rest as [Ro Rt].
  assert (Hn : {| Origin.scope := sc; Origin.key := k |} = n) by (by destruct n).
  assert (Hover : ∀ w' o, typed w' → origin_ok (is_own Own) lim o m1 log1 → rest_over (put w' (Some t1) (due_ s) (set_facts o (own_ s)) (all_ s) st)).
  { intros w' o Hw' Ho. exists (set_facts o (own_ s)). split; [|by split]. exists (all_ s). split; [|apply all_rest]. exists st. split; [|done].
    apply left_here.
    - by apply start_parts.
    - pose proof (go_agenda _ _ _ _ _ _ (group_fits _ _ _ _ Hok _ _ _ Ha1) eq_refl) as Hg. by rewrite Hobs in Hg.
    - pose proof (go_agenda _ _ _ _ _ _ (group_fits _ _ _ _ Hok _ _ _ Ha2) eq_refl) as Hg. by rewrite Hobs in Hg. }
  assert (Hw : typed (world_ s)) by apply Hok.
  assert (Hputs : set_stage st s = put (world_ s) (Some t1) (due_ s) (own_ s) (all_ s) st) by (unfold put, set_stage; by rewrite Hobs).
  assert (Hputs' : on_group Own (set_facts (facts (own_ s))) (set_stage st s) = put (world_ s) (Some t1) (due_ s) (set_facts (facts (own_ s)) (own_ s)) (all_ s) st).
  { by rewrite Hputs. }
  apply wp_try. unfold refusing. wp_step. apply on_facts_wp. apply (next_position_wp _ _ _ Ro).
  { intros e. wp_step. cbn [refused]. rewrite Hputs'. by apply Hover. }
  intros p. wp_step. cbn [refused]. rewrite Hputs'. apply wp_try. eapply (prepare_fact_wp limits_ HL Own); [done|exact Ro|..].
  - intros w' o e Hw' Ho. by apply Hover.
  - intros w' o e1 now1 Hw' He1. rewrite Hn in He1. apply wp_scoped.
    change (on_group Own (set_facts o) _) with (put w' (Some t1) (due_ s) (set_facts o (own_ s)) (all_ s) st).
    pose proof (editable_abort _ _ _ _ _ _ _ _ _ _ _ He1) as Hab.
    assert (Hrest : at_rest Own m1 log1 (set_facts (Origin.abort e1 (facts (set_facts o (own_ s)))) (set_facts o (own_ s)))) by (by split).
    eapply wp_mono; [by eapply merge_write_wp|..].
    + intros [[]|e] s' Hx; [done|]. by eapply abort_own_over.
    + intros e s' [He Hx]. split; [done|]. by eapply abort_own_over.
  - intros w' o e Hw' He Ho. split; [done|]. by apply Hover.
Qed.

(** *** Giving up *)
Lemma left_observed G1 G2 ST s' : left_over G1 G2 ST s' → ∃ t, observed_ s' = Some t ∧ t1 <= t.
Proof. intros (w & ob & du & A1 & A2 & -> & [_ (t & -> & _ & Ht) _] & _). by exists t. Qed.

(** A scope that the write created has no history yet and is removed again. *)
Lemma forgo (created : bool) s' :
  (created = true → Stage.told sc ns = []) → rest_over s' →
  let s'' := if created then set_stage (withdraw sc (stage_ s')) s' else s' in
  state_ok limits_ None s'' a ∧ (∃ t, observed_ s'' = Some t ∧ t1 <= t) ∧ ∀ sd, timely sd s → timely sd s''.
Proof.
  intros Hc (G1 & (G2 & (ST & Hl & R1 & [v0 R2] & R3) & H2) & H1). cbv zeta.
  set (s'' := if created then _ else _). set (ST' := if created then withdraw sc ST else ST).
  assert (Hl' : left_over G1 G2 ST' s'').
  { destruct Hl as (w & ob & du & A1 & A2 & -> & Hp & S1 & S2). exists w, ob, du, A1, A2. split_and!; try done. by destruct created. }
  assert (Hst : stage_fits limits_ ST' (showing a)).
  { unfold ST'. destruct created; [|done]. eapply withdraw_ok; [exact R1|exact R2|]. rewrite R3. by apply Hc. }
  assert (Hs'' : state_ok limits_ None s'' a) by (by eapply left_over_ok).
  split; [done|]. split; [by eapply left_observed|]. intros sd Hsd. clearbody s'' ST'.
  destruct Hl' as (w & ob & du & A1 & A2 & -> & [_ _ _ [P6 P7]] & _). destruct sd as [| |id]; [| |done].
  - eapply timely_state; [exact Hs''|exact Ha1|]. apply P6. by apply (timely_state None Own s a m1 log1).
  - eapply timely_state; [exact Hs''|exact Ha2|]. apply P7. by apply (timely_state None All s a m2 log2).
Qed.
End prepared.

(** ** The whole write *)

(** Clocks do not go back. *)
Definition later (s s' : State) : Prop := ∀ o, observed_ s = Some o → ∃ o', observed_ s' = Some o' ∧ o <= o'.

(** Only time has passed: facts whose deadline has come may have lapsed. *)
Definition since (s : State) (a : Ghost) (s' : State) (a' : Ghost) : Prop :=
  state_ok limits_ None s' a' ∧ later s s' ∧ (a' = a ∨ ∃ now t, aged now a a' ∧ observed_ s' = Some t ∧ now <= t).

Lemma since_refl s a : state_ok limits_ None s a → since s a s a.
Proof. intros Hok. split_and!; [done| |by left]. intros o Ho. by exists o. Qed.

Lemma since_world s a w : state_ok limits_ None s a → typed w → since s a (set_world w s) a.
Proof. intros Hok Hw. split_and!; [by apply state_world| |by left]. intros o Ho. by exists o. Qed.

Lemma since_time s a s' a' now t :
  state_ok limits_ None s' a' → aged now a a' → observed_ s' = Some t → now <= t → (∀ o, observed_ s = Some o → o <= now) → since s a s' a'.
Proof.
  intros Hok Ha Ht Hle Ho. split_and!; [done| |right; by exists now, t]. intros o E. exists t. split; [done|]. specialize (Ho o E). lia.
Qed.

Definition change_post (n : Name) (renewal : bool) (v : Value) (ver ttl : Z) (s : State) (a : Ghost) (x : expected unit Failure)
    (s' : State) : Prop :=
  match x with
  | Expected _ => ∃ s1 t a1 m1 log1 m2 log2,
      aged t a a1 ∧ (∀ o, observed_ s = Some o → o <= t) ∧ (∀ sd, timely sd s → timely sd s1) ∧
      a1 Own = Some (m1, log1) ∧ a1 All = Some (m2, log2) ∧
      written s1 a1 t m1 m2 log1 log2 n renewal v ver ttl s'
  | Unexpected _ => (∃ a', since s a s' a') ∧ ∀ sd, timely sd s → timely sd s'
  end.

Lemma catalog_change_wp sc k v ver ttl renewal s a :
  state_ok limits_ None s a →
  wp Faulty (change limits_ sc k v ver ttl renewal)
    (change_post {| Origin.scope := sc; Origin.key := k |} renewal v ver ttl s a)
    (λ e s', halt e ∧ ∃ a', since s a s' a') s.
Proof.
  intros Hok. set (n := {| Origin.scope := sc; Origin.key := k |}). unfold change.
  apply wp_if; intros _; [wp_step; split; [exists a; by apply since_refl|done]|].
  apply wp_try. apply reading_wp; [apply Hok|..].
  { intros w Hw. split; [exists a; by apply since_world|]. intros sd. by destruct sd. }
  intros rd w Hw _ Ht Ho. pose proof (state_read limits_ s a w (Clock.time rd) Hok Hw Ht Ho) as Hok1. set (s1 := set_observed _ _) in *.
  wp_step. eapply wp_mono; [by apply (advance_wp limits_ HL (Clock.time rd) None s1 a)|..].
  2: { intros e s' (He & a' & [M1 M2 M3 M4]). split; [done|]. exists a'. eapply (since_time _ _ _ _ (Clock.time rd) (Clock.time rd)); by rewrite ?M3. }
  intros _ s2 (a2 & [C1 C2 C3 C4 C5] & _). assert (Htime : ∀ sd, timely sd s → timely sd s2).
  { intros sd Hsd. by apply C4, timely_read. }
  assert (Hback : (∃ a', since s a s2 a') ∧ ∀ sd, timely sd s → timely sd s2).
  { split; [|done]. exists a2. by eapply (since_time _ _ _ _ (Clock.time rd) (Clock.time rd)). }
  destruct (proj2 (ou_there _ _ _ (st_outside _ _ _ _ C1) Own) I) as [[m1 log1] Ha1].
  destruct (proj2 (ou_there _ _ _ (st_outside _ _ _ _ C1) All) I) as [[m2 log2] Ha2].
  pose proof (facts_fit _ _ _ _ C1 _ _ _ Ha1) as F1. pose proof (facts_fit _ _ _ _ C1 _ _ _ Ha2) as F2.
  assert (Hsame1 : on_group Own (set_facts (facts (own_ s2))) s2 = s2) by (by destruct s2 as [? ? ? [] ? ? ?]).
  assert (Hsame2 : on_group All (set_facts (facts (all_ s2))) s2 = s2) by (by destruct s2 as [? ? ? ? [] ? ?]).
  wp_step. apply on_facts_wp. eapply find_wp; [exact F1|]. fold n. cbn [group_of]. rewrite Hsame1.
  wp_step. apply on_facts_wp. eapply find_wp; [exact F2|]. fold n. cbn [group_of]. rewrite Hsame2.
  apply wp_try. wp_step. destruct (rule renewal (m1 !! n) (m2 !! n) v ver ttl rd) as [first|] eqn:Er; cbn [refused]; [|done].
  apply wp_try. wp_step. destruct (Catalog.merge (m2 !! n) first (Clock.time rd)) as [comb|] eqn:Em; cbn [refused]; [|done].
  wp_step. wp_step. apply wp_try. unfold obtain_scope. wp_step. apply on_stage_wp. pose proof (st_stage _ _ _ _ C1) as Hst.
  eapply wp_mono; [apply (obtain_stage_wp _ _ _ (lf_stage _ HL) _ (showing a2)); exact Hst|..].
  2: { intros e st [-> ->]. rewrite set_stage_same. split; [by left; left|apply Hback]. }
  intros [| |] st Hx; wp_step; try (subst st; rewrite set_stage_same; done).
  destruct Hx as (X1 & X2 & [v0 X3] & X4). wp_step. wp_step. set (created := negb _).
  assert (Hcr : created = true → Stage.told sc (notices (stage_ s2)) = []).
  { unfold created. cbn [stage_ set_stage]. destruct (decide _); [subst st; by rewrite Z.eqb_refl|]. by destruct X4. }
  apply wp_scoped. wp_step. apply on_stage_wp. eapply history_wp; [exact X1|exact X3|].
  change (set_stage st (set_stage st s2)) with (set_stage st s2).
  wp_step. apply on_stage_wp. eapply allowance_wp; [apply HL|exact X1|exact X3|]. change (set_stage st (set_stage st s2)) with (set_stage st s2).
  assert (Hgive : ∀ s', rest_over s2 a2 (Clock.time rd) m1 m2 log1 log2 n s' →
    let s'' := if created then set_stage (withdraw sc (stage_ s')) s' else s' in (∃ a', since s a s'' a') ∧ ∀ sd, timely sd s → timely sd s'').
  { intros s' Hr. destruct (forgo s2 a2 C1 (Clock.time rd) C3 m1 m2 log1 log2 Ha1 Ha2 n created s' Hcr Hr) as (G1 & (t & G2 & G3) & G4).
    split; [|intros sd Hsd; by apply G4, Htime]. exists a2. by eapply (since_time _ _ _ _ (Clock.time rd) t). }
  eapply wp_mono; [apply (own_write_wp s2 a2 C1 (Clock.time rd) C3 m1 m2 log1 log2 Ha1 Ha2 n renewal v ver ttl rd first comb Er eq_refl Em st v0); [by split_and!|exact X3]|..].
  - intros [[]|e] s' Hy; [|by apply Hgive]. exists s2, (Clock.time rd), a2, m1, log1, m2, log2. by split_and!.
  - intros e s' [He Hy]. split; [by left|]. by apply Hgive.
Qed.
End write.
