(* ===== verification/CatalogReplica.v ===== *)
(** Facts from other Stars: [astra/star/src/catalog_replica.cpp], with the locking of
    [borrowing.hpp].

    The Catalog keeps the facts of every admitted Star apart and merges them.  A Star
    sends its facts in order, each at the next position; a fact that cannot be applied
    is asked for again and comes back as a repair, possibly ahead of the positions in
    between.  What a repair has covered is remembered, so that the older facts on
    their way do not undo it.

    A source that another thread is preparing is busy: the operation lets go of the
    domain lock, waits for the source and looks it up again.  [same] is what the
    comparison of the two lookups yields; an operation that has to wait returns [None]
    here and is entered again afterwards. *)
From stdpp Require Import base numbers strings gmap list.
From S2P Require Import Prelude.
From S2P Require Import Clock.
From S2P Require Import Wheel.
From S2P Require Import Agenda.
From S2P Require Import Scope.
From S2P Require Import Index.
From S2P Require Import Scene.
From S2P Require Import Stage.
From S2P Require Import Origin.
From S2P Require Import Leased.
From S2P Require Import Catalog.
From S2P Require Import CatalogState.

Section replica.
Context `{Sizes} (limits_ : CatalogState.Limits).
Abbreviation Facts := (Leased (Item := record)).

(** ** Borrowing a source *)
Inductive borrowed := Unknown | Busy | Held.

(** [State::acquire]. *)
Definition acquire (same : bool) (id : string) : eff State borrowed :=
  gets (λ s, match replicas_ s !! id with
             | None => Unknown
             | Some r => if lent r then Busy else if same then Held else Unknown
             end).

Definition borrowing {A} (same : bool) (id : string) (m : eff State (expected A Failure))
    : eff State (option (expected A Failure)) :=
  b <- acquire same id ;;
  match b with
  | Unknown => ret (Some (Unexpected failed_input))
  | Busy => ret None
  | Held => x <- m ;; ret (Some x)
  end.

(** Members of a source other than its facts. *)
Definition on_replica (id : string) (f : Replica → Replica) (s : State) : State :=
  set_replicas (alter f id (replicas_ s)) (replica_bytes_ s) s.
Definition set_coverage (c : list (Name * Z)) (r : Replica) : Replica :=
  {| group := group r; coverage := c; retired := retired r; lent := lent r |}.
Definition set_retired (r : Replica) : Replica :=
  {| group := group r; coverage := []; retired := true; lent := lent r |}.
Definition covered_by (id : string) (s : State) : list (Name * Z) :=
  match replicas_ s !! id with Some r => coverage r | None => [] end.
Definition is_retired (id : string) (s : State) : bool :=
  match replicas_ s !! id with Some r => retired r | None => false end.

(** ** The directory of sources *)

(** [State::admit]. *)
Definition admit_source (id : string) : eff State (expected unit Failure) :=
  if negb (Scope.text id 1024) then ret (Unexpected failed_input)
  else
    s <- read ;;
    match replicas_ s !! id with
    | Some r => ret (if retired r then Unexpected failed_version else Expected tt)
    | None =>
        if Z.of_nat (size (replicas_ s)) =? replicas_limit limits_ then ret (Unexpected failed_capacity)
        else
          alloc ;;;
          o <- lift (Origin.make (source_limits limits_)) ;;
          alloc ;;;
          modify (λ s, set_replicas
            (<[id := {| group := {| facts := o; agenda := None; timers := ∅ |}; coverage := []; retired := false; lent := false |}]> (replicas_ s))
            (replica_bytes_ s) s) ;;;
          ret (Expected tt)
    end.

(** [State::retire]. *)
Definition retire (id : string) : eff State unit :=
  s <- read ;;
  match replicas_ s !! id with
  | Some _ => modify (λ s, set_due 0 (on_replica id set_retired s))
  | None => ret tt
  end.

(** [State::received]. *)
Definition received (same : bool) (id : string) : eff State (option (expected Z Failure)) :=
  borrowing same id (p <- on_facts (Remote id) get_position ;; ret (Expected p)).

(** [State::replica]. *)
Definition replica_find (same : bool) (id : string) (sc : Scope) (k : string)
    : eff State (option (expected (option record) Failure)) :=
  if negb (Scope.valid sc) || negb (Scope.text k 1024) then ret (Some (Unexpected failed_input))
  else borrowing same id (r <- on_facts (Remote id) (Origin.find sc k) ;; ret (Expected r)).

(** [State::resolve]. *)
Definition resolve (sc : Scope) (k : string) : eff State (expected (Z * option record) Failure) :=
  if negb (Scope.valid sc) || negb (Scope.text k 1024) then ret (Unexpected failed_input)
  else
    p <- on_facts Own get_position ;;
    r <- on_facts Own (Origin.find sc k) ;;
    ret (Expected (p, r)).

(** [State::prepare]: a draft for a whole source. *)
Definition prepare (same : bool) (id : string) (position : Z)
    : eff State (option (expected (Origin.Draft (Item := record)) Failure)) :=
  borrowing same id
    (s <- read ;;
     if is_retired id s then ret (Unexpected failed_version)
     else
       p <- on_facts (Remote id) get_position ;;
       if (position <? p) || existsb (λ c, position <? c.2) (covered_by id s) then ret (Unexpected failed_version)
       else d <- open_draft (source_limits limits_) position ;; ret (Expected d)).

(** [State::finish]: the position of a source that has been installed as a whole. *)
Definition finish (same : bool) (id : string) (position : Z) : eff State (option (expected unit Failure)) :=
  borrowing same id
    (s <- read ;;
     if is_retired id s || existsb (λ c, position <? c.2) (covered_by id s) then ret (Unexpected failed_version)
     else
       g <- gets (group_of (Remote id)) ;;
       let '(done_, o) := Origin.confirm false position (facts g) in
       if negb done_ then ret (Unexpected failed_version)
       else
         modify (on_group (Remote id) (set_facts o)) ;;;
         modify (on_replica id (set_coverage [])) ;;;
         ret (Expected tt)).

(** ** Coverage *)
Definition whole (n : Name) : bool := bool_decide (Origin.key n = "").

(** Whether a fact at [position] is covered, for [covered]. *)
Definition covers_target (sc : Scope) (k : string) (position : Z) (c : Name * Z) : bool :=
  bool_decide (Origin.scope c.1 = sc) && (whole c.1 || bool_decide (Origin.key c.1 = k)) && (position <=? c.2).
(** The entry of exactly this target, and the position the target is covered to. *)
Definition entry_of (sc : Scope) (k : string) (c : list (Name * Z)) : option (nat * (Name * Z)) :=
  list_find (λ x, x.1 = {| Origin.scope := sc; Origin.key := k |}) c.
Definition covered_to (sc : Scope) (k : string) (c : list (Name * Z)) : Z :=
  foldl (λ m x, if bool_decide (Origin.scope x.1 = sc) && whole x.1 then Z.max m x.2 else m)
    (match entry_of sc k c with Some (_, x) => x.2 | None => 0 end) c.
(** [std::erase_if] of what the position has caught up with. *)
Definition outlive (position : Z) (c : list (Name * Z)) : list (Name * Z) := filter (λ x, position < x.2) c.
Definition settle_coverage (id : string) (position : Z) (s : State) : State :=
  on_replica id (λ r, set_coverage (outlive position (coverage r)) r) s.

(** A covered fact only moves the position. *)
Definition skip (id : string) (sc : Scope) (k : string) (position : Z) : eff State (expected unit Failure) :=
  old <- on_facts (Remote id) (Origin.find sc k) ;;
  skipped <-? prepare_fact limits_ (Remote id) sc k old (Some position) form_record ;;
  modify (commit_fact (Remote id) skipped) ;;;
  modify (settle_coverage id position) ;;;
  ret (Expected tt).

(** The next position, or an answer at once. *)
Definition out_of_order (p position : Z) : bool := (p =? u64_max) || negb (position =? p + 1).

(** [State::covered]. *)
Definition covered (same : bool) (id : string) (position : Z) (sc : Scope) (k : string)
    : eff State (option (expected bool Failure)) :=
  if negb (Scope.valid sc) || negb (Scope.text k 1024) || (position =? 0) then ret (Some (Unexpected failed_input))
  else
    borrowing same id
      (s <- read ;;
       if is_retired id s then ret (Unexpected failed_version)
       else
         p <- on_facts (Remote id) get_position ;;
         if position <=? p then ret (Expected true)
         else if out_of_order p position then ret (Unexpected failed_history)
         else if negb (existsb (covers_target sc k position) (covered_by id s)) then ret (Expected false)
         else _ <-? skip id sc k position ;; ret (Expected true)).

(** ** One fact of a source *)
Definition live_record (r : option record) : bool :=
  match r with Some r => bool_decide (is_Some (value r)) | None => false end.
Definition deadline_past (r : option record) (t : Z) : bool :=
  live_record r && match r ≫= deadline with Some d => d <=? t | None => false end.

(** A renewal needs the payload it renews, and a source does not take back what it
    has said. *)
Definition unrenewable (old r : option record) : bool :=
  match old, r with
  | Some o, Some r =>
      negb (bool_decide (is_Some (value o))) || negb (bool_decide (is_Some (value r))) || negb (version o =? version r)
  | _, _ => true
  end.
Definition contradicts (old r : option record) : bool :=
  match old, r with
  | Some o, Some r =>
      (version r <? version o)
      || (version r =? version o) && bool_decide (is_Some (value o)) && bool_decide (is_Some (value r))
         && (differ (value o) (value r) || (default 0 (deadline r) <? default 0 (deadline o)))
  | _, _ => false
  end.

(** [Agenda::erase] and removal from the table. *)
Definition drop_timer (sd : side) (n : Name) : State → State :=
  on_group sd (λ g, set_timers (timers g ∖ {[n]})
    (set_agenda (match agenda g with Some (w, fr) => Some (Agenda.erase n w, fr) | None => None end) g)).
Definition retime (sd : side) (n : Name) (r : option record) (hooked : bool) : eff State unit :=
  if live_record r then set_timer sd n (r ≫= deadline)
  else if hooked then modify (drop_timer sd n) else ret tt.

Definition recover (position : Z) (repair : bool) (n : Name) (c : list (Name * Z)) : list (Name * Z) :=
  if repair then
    match entry_of (Origin.scope n) (Origin.key n) c with
    | Some (i, x) => <[i := (x.1, position)]> c
    | None => c ++ [(n, position)]
    end
  else outlive position c.

Definition abort_merged (e : option (Origin.Edit (Item := record))) (s : State) : State :=
  match e with Some e => abort_fact All e s | None => s end.
Definition commit_merged (e : option (Origin.Edit (Item := record))) (s : State) : State :=
  match e with Some e => commit_fact All e s | None => s end.

(** The end of [State::receive]: the final look at the clock and the publication. *)
Definition accept (id : string) (n : Name) (position : Z) (repair : bool) (fact merged_fact : option record) (bytes before : Z)
    (prepared hooked : bool) (origin : Origin.Edit (Item := record)) (merged : option (Origin.Edit (Item := record)))
    (projection : option (Scene.Edit (Item := Content))) : eff State (expected unit Failure) :=
  stamp <-? reading ;;
  if deadline_past fact (Clock.time stamp) || deadline_past merged_fact (Clock.time stamp) then ret (Unexpected failed_ended)
  else
    (if prepared then alloc ;;; modify (on_group (Remote id) (λ g, set_timers ({[n]} ∪ timers g) g)) else ret tt) ;;;
    modify (commit_fact (Remote id) origin) ;;;
    modify (commit_merged merged) ;;;
    modify (commit_scene (Origin.scope n) projection) ;;;
    after <- total_bytes (Remote id) ;;
    modify (λ s, set_replicas (replicas_ s) (wrap64 (wrap64 (replica_bytes_ s - bytes) + after)) s) ;;;
    retime (Remote id) n fact (prepared || hooked) ;;;
    (match merged_fact with
     | Some _ => s <- read ;; retime All n merged_fact (bool_decide (n ∈ timers (all_ s)))
     | None => ret tt
     end) ;;;
    modify (on_replica id (λ r, set_coverage (recover position repair n (coverage r)) r)) ;;;
    modify (publish_scene (Origin.scope n) before projection) ;;;
    ret (Expected tt).

(** Agendas, timers and room for the coverage. *)
Definition equip (id : string) (n : Name) (t : Z) (fact merged_fact : option record) (room : bool)
    (k : bool → bool → eff State (expected unit Failure)) : eff State (expected unit Failure) :=
  hooked <- gets (λ s, bool_decide (n ∈ timers (group_of (Remote id) s))) ;;
  let prepared := live_record fact && negb hooked in
  (if prepared then ensure (Remote id) t ;;; alloc ;;; alloc else ret tt) ;;;
  absent <- gets (λ s, negb (bool_decide (n ∈ timers (all_ s)))) ;;
  let wanted := live_record merged_fact && absent in
  (if wanted then ensure All t ;;; alloc ;;; modify (on_group All (λ g, set_timers ({[n]} ∪ timers g) g)) else ret tt) ;;;
  scoped (λ s, if (wanted : bool) then unhook All n s else s)
    ((if room then alloc else ret tt) ;;; k prepared hooked).

(** The public projection of the merged fact, where it shows. *)
Definition project (sc : Scope) (k : string) (combined : option Change)
    (body : Z → option (Scene.Edit (Item := Content)) → eff State (expected unit Failure)) : eff State (expected unit Failure) :=
  let shows := match combined with Some ch => visible ch | None => false end in
  there <- gets (λ s, bool_decide (is_Some (scene_at sc (stage_ s)))) ;;
  let created := shows && negb there in
  _ <-? (if created then obtain_scope limits_ sc else ret (Expected tt)) ;;
  scoped (λ s, if (created : bool) then set_stage (withdraw sc (stage_ s)) s else s)
    (before <- (if there || created then on_stage (on_scene sc history_bytes) else ret 0) ;;
     projection <-? match combined with
                    | Some ch =>
                        if visible ch then
                          retention <- on_stage (allowance (history_limit limits_) sc) ;;
                          e <-? prepare_scene limits_ sc k
                            (match value (changed ch) with
                             | Some b => Some {| content_version := version (changed ch); content_value := Some b |}
                             | None => None
                             end) retention ;;
                          ret (Expected (Some e))
                        else ret (Expected None)
                    | None => ret (Expected None)
                    end ;;
     scoped (abort_scene sc projection) (body before projection)).

(** The edits of the source and of the merged facts. *)
Definition incorporate (id : string) (position : Z) (sc : Scope) (k : string) (fact : option record) (repair room : bool)
    (combined : option Change) (t : Z) : eff State (expected unit Failure) :=
  bytes <- total_bytes (Remote id) ;;
  origin <-? prepare_fact limits_ (Remote id) sc k fact (if repair then None else Some position) form_record ;;
  scoped (abort_fact (Remote id) origin)
    (total <- gets (λ s, Origin.edit_total origin (facts (group_of (Remote id) s))) ;;
     s <- read ;;
     if (replica_bytes_limit limits_ <? total)
        || (replica_bytes_limit limits_ - total <? wrap64 (replica_bytes_ s - bytes))
     then ret (Unexpected failed_capacity)
     else
       merged <-? match combined with
                  | Some ch => e <-? prepare_fact limits_ All sc k (Some (changed ch)) None form_record ;; ret (Expected (Some e))
                  | None => ret (Expected None)
                  end ;;
       scoped (abort_merged merged)
         (project sc k combined (λ before projection,
            equip id {| Origin.scope := sc; Origin.key := k |} t fact (changed <$> combined) room (λ prepared hooked,
              accept id {| Origin.scope := sc; Origin.key := k |} position repair fact (changed <$> combined) bytes before
                prepared hooked origin merged projection)))).

(** [State::receive], of which [apply] and [repair] are the two cases. *)
Definition receive (same : bool) (id : string) (position : Z) (sc : Scope) (k : string) (fact : option record) (form : Form)
    (repair : bool) : eff State (option (expected unit Failure)) :=
  if negb (Scope.valid sc) || negb (Scope.text k 1024) || (position =? 0)
     || match fact with Some r => negb (valid r) | None => false end
     || negb repair && bool_decide (fact = None)
     || negb (bool_decide (form = form_record)) && negb (bool_decide (form = form_renew))
  then ret (Some (Unexpected failed_input))
  else
    borrowing same id
      (s <- read ;;
       if is_retired id s then ret (Unexpected failed_version)
       else
         p <- on_facts (Remote id) get_position ;;
         if position <=? p then ret (Expected tt)
         else if negb repair && out_of_order p position then ret (Unexpected failed_history)
         else
           let c := covered_by id s in
           if position <=? covered_to sc k c then (if repair then ret (Expected tt) else skip id sc k position)
           else
             let room := repair && bool_decide (entry_of sc k c = None) in
             if room && (128 <=? Z.of_nat (length (filter (λ x, whole x.1 = false) c))) then ret (Unexpected failed_capacity)
             else
               stamp <-? reading ;;
               let t := Clock.time stamp in
               advance_group limits_ (Remote id) t ;;;
               CatalogState.advance limits_ t (Some id) ;;;
               old <- on_facts (Remote id) (Origin.find sc k) ;;
               if bool_decide (form = form_renew) && unrenewable old fact then ret (Unexpected failed_ended)
               else if contradicts old fact then ret (Unexpected failed_conflict)
               else
                 let fact := (λ r, Catalog.expire r t) <$> fact in
                 known <- on_facts All (Origin.find sc k) ;;
                 combined <-? ret match fact with
                                  | Some r => refused of_rule (match Catalog.merge known r t with
                                                               | Expected ch => Expected (Some ch)
                                                               | Unexpected e => Unexpected e
                                                               end)
                                  | None => Expected None
                                  end ;;
                 incorporate id position sc k fact repair room combined t).

Definition apply (same : bool) (id : string) (position : Z) (sc : Scope) (k : string) (fact : record) (form : Form)
    : eff State (option (expected unit Failure)) := receive same id position sc k (Some fact) form false.
Definition repair (same : bool) (id : string) (position : Z) (sc : Scope) (k : string) (fact : option record)
    : eff State (option (expected unit Failure)) := receive same id position sc k fact form_record true.
End replica.
