(* ===== verification/CatalogCoverage.v ===== *)
(** What the coverage of a source records: the frame of [CatalogState] and
    [CatalogReplica] with respect to the member [coverage] of [State::Replica].

    Only an accepted repair adds to it; every other step, refused or interrupted ones
    included, keeps the entries or drops some.  The argument goes by the shape of the
    operations. *)
From stdpp Require Import base numbers strings gmap list.
From S2P Require Import Prelude.
From S2P Require Import Clock.
From S2P Require Import Wheel.
From S2P Require Import Agenda.
From S2P Require Import Scope.
From S2P Require Import Index.
From S2P Require Import Scene.
From S2P Require Import Stage.
From S2P Require Import Origin.
From S2P Require Import Leased.
From S2P Require Import Catalog.
From S2P Require Import CatalogState.
From S2P Require Import CatalogReplica.

(** ** Computations within a relation *)
Section stays.
Context {S : Type} (R : S → S → Prop) `{!PreOrder R}.

(** However [m] ends, its final state is related to its first one. *)
Definition stays {A} (m : eff S A) : Prop := ∀ s f, R s (m s f).1.2.

Lemma stays_ret {A} (a : A) : stays (ret a).
Proof. intros s f. done. Qed.
Lemma stays_throw {A} e : stays (throw (A := A) e).
Proof. intros s f. done. Qed.
Lemma stays_read : stays read.
Proof. intros s f. done. Qed.
Lemma stays_gets {A} (g : S → A) : stays (gets g).
Proof. intros s f. done. Qed.
Lemma stays_lift {A} (o : outcome A) : stays (lift o).
Proof. intros s f. done. Qed.
Lemma stays_alloc : stays alloc.
Proof. intros s [|[] f]; done. Qed.
Lemma stays_modify g : (∀ s, R s (g s)) → stays (modify g).
Proof. intros Hg s f. apply Hg. Qed.
Lemma stays_bind {A B} (m : eff S A) (k : A → eff S B) : stays m → (∀ a, stays (k a)) → stays (bind m k).
Proof.
  intros Hm Hk s f. unfold bind. specialize (Hm s f). destruct (m s f) as [[[a|e] s'] f']; [|done]. etrans; [exact Hm|apply Hk].
Qed.
Lemma stays_on_throw {A} (m : eff S A) h : stays m → stays h → stays (on_throw m h).
Proof.
  intros Hm Hh s f. unfold on_throw. specialize (Hm s f). destruct (m s f) as [[[a|e] s'] f']; [done|].
  specialize (Hh s' f'). destruct (h s' f') as [[[u|e'] s''] f'']; by etrans.
Qed.
Lemma stays_scoped {A F} (undo : S → S) (m : eff S (expected A F)) : (∀ s, R s (undo s)) → stays m → stays (scoped undo m).
Proof.
  intros Hu Hm. apply stays_bind; [by apply stays_on_throw, stays_modify|]. intros [x|e]; [apply stays_ret|].
  apply stays_bind; [by apply stays_modify|]. intros _. apply stays_ret.
Qed.
Lemma stays_zoom {T A} (get : S → T) (put : T → S → S) (m : eff T A) : (∀ t s, R s (put t s)) → stays (zoom get put m).
Proof. intros Hp s f. unfold zoom. destruct (m (get s) f) as [[r t] f']. apply Hp. Qed.

(** As [stays], but a computation that accepts may go further, along [R']. *)
Context (R' : S → S → Prop) (Hin : ∀ s s', R s s' → R' s s') (Hseq : ∀ s s' s'', R s s' → R' s' s'' → R' s s'').
Definition gains {A F} (m : eff S (expected A F)) : Prop :=
  ∀ s f, match m s f with (Done (Expected _), s', _) => R' s s' | (_, s', _) => R s s' end.

Lemma gains_keeps {A F} (m : eff S (expected A F)) : stays m → gains m.
Proof. intros Hm s f. specialize (Hm s f). destruct (m s f) as [[[[x|e]|e] s'] f']; try done. by apply Hin. Qed.
Lemma gains_bind {A B F} (m : eff S A) (k : A → eff S (expected B F)) : stays m → (∀ a, gains (k a)) → gains (bind m k).
Proof.
  intros Hm Hk s f. unfold bind. specialize (Hm s f). destruct (m s f) as [[[a|e] s'] f']; [|done]. specialize (Hk a s' f').
  destruct (k a s' f') as [[[[x|e]|e] s''] f'']; [by eapply Hseq|by etrans..].
Qed.
Lemma gains_try {A B F} (m : eff S (expected A F)) (k : A → eff S (expected B F)) :
  stays m → (∀ a, gains (k a)) → gains (x <-? m ;; k x).
Proof. intros Hm Hk. apply gains_bind; [done|]. intros [a|e]; [apply Hk|]. apply gains_keeps, stays_ret. Qed.
Lemma gains_scoped {A F} (undo : S → S) (m : eff S (expected A F)) : (∀ s, R s (undo s)) → gains m → gains (scoped undo m).
Proof.
  intros Hu Hm s f. unfold scoped, bind, on_throw, modify, ret. specialize (Hm s f).
  destruct (m s f) as [[[[x|e]|e] s'] f']; [done|by etrans..].
Qed.
End stays.

(** One step of such an argument, by the shape of the computation. *)
Ltac keep_step :=
  lazymatch goal with
  | |- stays _ (bind _ _) => apply stays_bind; [apply _| |intros ?]
  | |- stays _ (ret _) => apply stays_ret; apply _
  | |- stays _ (throw _) => apply stays_throw; apply _
  | |- stays _ read => apply stays_read; apply _
  | |- stays _ (gets _) => apply stays_gets; apply _
  | |- stays _ (lift _) => apply stays_lift; apply _
  | |- stays _ alloc => apply stays_alloc; apply _
  | |- stays _ (modify _) => apply stays_modify; intros ?
  | |- stays _ (on_throw _ _) => apply stays_on_throw; [apply _| |]
  | |- stays _ (scoped _ _) => apply stays_scoped; [apply _|intros ?|]
  | |- stays _ (match ?x with _ => _ end) => destruct x
  | |- stays _ (let _ := _ in _) => cbv zeta
  end.

(** ** The wheel behind a group *)
Section wheels.
Context {N : Type} `{Countable N} {U : Type} (R : U → U → Prop) `{!PreOrder R}.

Definition behind (s s' : wheel N * (frame * U)) : Prop := R s.2.2 s'.2.2.
#[export] Instance behind_preorder : PreOrder behind.
Proof. unfold behind. split; [intros x; reflexivity|]. intros x y z Hxy Hyz. by etrans. Qed.

Lemma behind_wheel s s' : s.2.2 = s'.2.2 → behind s s'.
Proof using PreOrder0. unfold behind. by intros ->. Qed.

Lemma stays_agenda target (fire : N → Z → eff (wheel N * (frame * U)) unit) :
  (∀ n b, stays behind (fire n b)) → stays behind (Agenda.advance target fire).
Proof using PreOrder0.
  intros Hf.
  assert (Hdrain : ∀ fuel, stays behind (drain_loop fuel (guarded fire))).
  { induction fuel as [|fuel IH]; cbn [drain_loop]; unfold guarded; repeat keep_step; apply Hf || apply IH || by apply behind_wheel. }
  assert (Htick : stays behind (tick (guarded fire))).
  { unfold tick, drain. repeat keep_step; apply Hdrain || by apply behind_wheel. }
  unfold Agenda.advance. repeat keep_step. generalize (Z.to_nat (wrap64 ((target - time_ a) / interval))).
  induction n as [|n IH]; cbn [steps]; unfold sync; repeat keep_step; done || by apply behind_wheel.
Qed.
End wheels.

Create HintDb coverage.

(** ** The Catalog *)
Section coverage.
Context `{Sizes} (limits_ : CatalogState.Limits).

(** No source is covered further. *)
Definition dwindles (s s' : State) : Prop := ∀ id x, x ∈ covered_by id s' → x ∈ covered_by id s.
#[export] Instance dwindles_preorder : PreOrder dwindles.
Proof. unfold dwindles. split; [by intros s id x|]. intros s1 s2 s3. naive_solver. Qed.

Lemma group_covers id sd g s : covered_by id (set_group sd g s) = covered_by id s.
Proof.
  destruct sd as [| |id']; [done|done|]. unfold covered_by, set_group. cbn [set_replicas replicas_].
  destruct (decide (id' = id)) as [->|Hne]; [rewrite lookup_alter_eq; by destruct (replicas_ s !! id)|by rewrite lookup_alter_ne].
Qed.

Lemma dwindles_same s s' : (∀ id, covered_by id s' = covered_by id s) → dwindles s s'.
Proof. intros Hs id x. by rewrite Hs. Qed.
Lemma dwindles_on_group sd g s : dwindles s (on_group sd g s).
Proof. apply dwindles_same. intros id. apply group_covers. Qed.
Lemma dwindles_on_replica id f s : (∀ r x, x ∈ coverage (f r) → x ∈ coverage r) → dwindles s (on_replica id f s).
Proof.
  intros Hf id' x. unfold covered_by, on_replica. cbn [set_replicas replicas_].
  destruct (decide (id = id')) as [->|Hne]; [rewrite lookup_alter_eq|by rewrite lookup_alter_ne]. destruct (replicas_ s !! id'); cbn; [apply Hf|done].
Qed.
Lemma dwindles_delete id b s : dwindles s (set_replicas (delete id (replicas_ s)) b s).
Proof.
  intros id' x. unfold covered_by. cbn [set_replicas replicas_].
  destruct (decide (id = id')) as [->|Hne]; [rewrite lookup_delete_eq; by intros ?%not_elem_of_nil|by rewrite lookup_delete_ne].
Qed.
Lemma dwindles_admit id g b s :
  dwindles s (set_replicas (<[id := {| group := g; coverage := []; retired := false; lent := false |}]> (replicas_ s)) b s).
Proof.
  intros id' x. unfold covered_by. cbn [set_replicas replicas_].
  destruct (decide (id = id')) as [->|Hne]; [rewrite lookup_insert_eq; by intros ?%not_elem_of_nil|by rewrite lookup_insert_ne].
Qed.

Lemma stays_on_facts {A} sd (m : eff (Origin.Origin (Item := record)) A) : stays dwindles (on_facts sd m).
Proof. apply stays_zoom. intros o s. apply dwindles_on_group. Qed.
Lemma stays_on_stage {A} (m : eff (Stage (Item := Content)) A) : stays dwindles (on_stage m).
Proof. apply stays_zoom. by intros o s id x. Qed.
(** What comes from outside, and the edits of the parts. *)
Ltac calm := first [apply dwindles_on_group | apply stays_on_facts | apply stays_on_stage | by apply dwindles_same].

Lemma stays_steady : stays dwindles CatalogState.steady.
Proof. unfold CatalogState.steady. repeat keep_step; calm. Qed.
Lemma stays_sharing : stays dwindles sharing.
Proof. unfold sharing. repeat keep_step; calm. Qed.
Lemma stays_reading : stays dwindles reading.
Proof. unfold reading. repeat keep_step; calm. Qed.
Lemma stays_refusing {A E} f (m : eff State (expected A E)) : stays dwindles m → stays dwindles (refusing f m).
Proof. intros Hm. unfold refusing. by repeat keep_step. Qed.
Lemma stays_prepare_fact sd sc k r p form : stays dwindles (prepare_fact limits_ sd sc k r p form).
Proof. unfold prepare_fact. repeat keep_step; [apply stays_sharing|apply stays_steady|apply stays_refusing, stays_on_facts]. Qed.
Lemma stays_revise_fact sd r e : stays dwindles (revise_fact sd r e).
Proof. unfold revise_fact. repeat keep_step; calm. Qed.
Lemma stays_obtain_scope sc : stays dwindles (obtain_scope limits_ sc).
Proof. unfold obtain_scope. repeat keep_step; calm. Qed.
Lemma stays_prepare_scene sc k x retention : stays dwindles (prepare_scene limits_ sc k x retention).
Proof. unfold prepare_scene. repeat keep_step; [apply stays_sharing|apply stays_steady|apply stays_refusing, stays_on_stage]. Qed.
Lemma stays_ensure sd t : stays dwindles (ensure sd t).
Proof. unfold ensure. repeat keep_step. apply dwindles_same. intros id. apply (group_covers id sd). Qed.
Lemma stays_hook sd n : stays dwindles (hook sd n).
Proof. unfold hook. repeat keep_step; calm. Qed.
Lemma stays_set_timer sd n d : stays dwindles (set_timer sd n d).
Proof. unfold set_timer. repeat keep_step; calm. Qed.
Lemma dwindles_abort_scene sc e s : dwindles s (abort_scene sc e s).
Proof. destruct e; calm. Qed.
Lemma dwindles_commit_scene sc e s : dwindles s (commit_scene sc e s).
Proof. destruct e; calm. Qed.
Lemma dwindles_publish_scene sc b e s : dwindles s (publish_scene sc b e s).
Proof. destruct e; calm. Qed.
Lemma dwindles_abort_merged e s : dwindles s (abort_merged e s).
Proof. destruct e; [apply dwindles_on_group|done]. Qed.
Lemma dwindles_commit_merged e s : dwindles s (commit_merged e s).
Proof. destruct e; [apply dwindles_on_group|done]. Qed.
Lemma dwindles_undo (b : bool) g s : (∀ s, dwindles s (g s)) → dwindles s (if b then g s else s).
Proof. intros Hg. destruct b; [apply Hg|done]. Qed.

(** Expiry. *)
Lemma stays_inner {A} (m : eff State A) : stays dwindles m → stays (behind dwindles) (inner m).
Proof. intros Hm [w [fr s]] f. unfold inner, zoom. specialize (Hm s f). cbn. by destruct (m s f) as [[r s'] f']. Qed.
Lemma dwindles_abort_fact sd e s : dwindles s (abort_fact sd e s).
Proof. apply dwindles_on_group. Qed.
Lemma dwindles_commit_fact sd e s : dwindles s (commit_fact sd e s).
Proof. apply dwindles_on_group. Qed.
Lemma dwindles_unhook sd n s : dwindles s (unhook sd n s).
Proof. apply dwindles_on_group. Qed.

Hint Resolve stays_steady stays_sharing stays_reading stays_refusing stays_prepare_fact stays_revise_fact stays_obtain_scope
  stays_prepare_scene stays_ensure stays_hook stays_set_timer stays_on_facts stays_on_stage stays_inner : coverage.
Hint Resolve dwindles_on_group dwindles_abort_scene dwindles_commit_scene dwindles_publish_scene dwindles_abort_merged
  dwindles_commit_merged dwindles_delete dwindles_abort_fact dwindles_commit_fact dwindles_unhook : coverage.

(** Through a computation and into the parts that have their lemma. *)
Ltac keep :=
  repeat first
    [keep_step | progress cbn [fst snd] | apply stays_inner | apply dwindles_undo; intros ?
    | lazymatch goal with |- behind _ _ _ => unfold behind; cbn [fst snd] end | reflexivity | solve [auto with coverage]
    | lazymatch goal with |- dwindles _ _ => by apply dwindles_same end].

Lemma stays_expire sd n t : stays (behind dwindles) (expire limits_ sd n t).
Proof. unfold expire. keep. Qed.
Lemma stays_expire_remote sd n r t : stays (behind dwindles) (expire_remote limits_ sd n r t).
Proof. unfold expire_remote, total_bytes. keep. Qed.
Hint Resolve stays_expire stays_expire_remote : coverage.
Lemma stays_fire sd n b : stays (behind dwindles) (fire limits_ sd n b).
Proof. unfold fire. keep. Qed.
Lemma stays_advance_group sd now : stays dwindles (advance_group limits_ sd now).
Proof.
  unfold advance_group. keep. intros s f0. unfold zoom. pose proof (stays_agenda dwindles now (fire limits_ sd) (stays_fire sd) (w, (f, s)) f0) as Ha.
  destruct (Agenda.advance _ _ _ _) as [[r t] f']. cbn in *. etrans; [exact Ha|apply dwindles_on_group].
Qed.
Hint Resolve stays_advance_group : coverage.
Lemma stays_advance_replicas now held ids blocked : stays dwindles (advance_replicas limits_ now held ids blocked).
Proof. revert blocked. induction ids as [|id ids IH]; intros blocked; cbn [advance_replicas]; unfold total_bytes; keep; apply IH. Qed.
Hint Resolve stays_advance_replicas : coverage.
Lemma stays_advance now held : stays dwindles (CatalogState.advance limits_ now held).
Proof. unfold CatalogState.advance. keep. Qed.
Hint Resolve stays_advance : coverage.

(** Writes and reads. *)
Lemma stays_conclude n old known v ver ttl renewal before origin merged projection :
  stays dwindles (conclude n old known v ver ttl renewal before origin merged projection).
Proof. unfold conclude. keep. Qed.
Lemma stays_arm n t k : stays dwindles k → stays dwindles (arm n t k).
Proof. intros Hk. unfold arm. keep. Qed.
Hint Resolve stays_conclude stays_arm : coverage.
Lemma stays_change sc k v ver ttl renewal : stays dwindles (change limits_ sc k v ver ttl renewal).
Proof. unfold change. keep. Qed.
Hint Resolve stays_change : coverage.
Lemma stays_tick_round : stays dwindles (tick_round limits_).
Proof. unfold tick_round. keep. Qed.
Lemma stays_execute {A} exclusive (action : eff State (expected A Failure)) :
  stays dwindles action → stays dwindles (execute limits_ exclusive action).
Proof. intros Ha. unfold execute, execute_round, execute_shared. keep. Qed.
Hint Resolve stays_tick_round stays_execute : coverage.
Lemma stays_capture exclusive sc : stays dwindles (CatalogState.capture limits_ exclusive sc).
Proof. unfold CatalogState.capture. keep. apply stays_execute. unfold capture_action. keep. Qed.
Lemma stays_find exclusive sc k : stays dwindles (CatalogState.find limits_ exclusive sc k).
Proof. unfold CatalogState.find. keep. apply stays_execute. unfold find_action. keep. Qed.
Lemma stays_changes exclusive sc since : stays dwindles (CatalogState.changes limits_ exclusive sc since).
Proof. unfold CatalogState.changes. keep. apply stays_execute. unfold changes_action. keep. Qed.

(** The directory of sources. *)
Lemma stays_borrowing {A} same id (m : eff State (expected A Failure)) : stays dwindles m → stays dwindles (borrowing same id m).
Proof. intros Hm. unfold borrowing, acquire. keep. Qed.
Lemma stays_admit id : stays dwindles (admit_source limits_ id).
Proof. unfold admit_source. keep. apply dwindles_admit. Qed.
Lemma stays_retire id : stays dwindles (retire id).
Proof. unfold retire. keep. refine (dwindles_on_replica id set_retired s _). by intros r0 x ?%not_elem_of_nil. Qed.
Lemma stays_prepare same id position : stays dwindles (prepare limits_ same id position).
Proof. unfold prepare, open_draft. apply stays_borrowing. keep. Qed.
Lemma stays_finish same id position : stays dwindles (finish same id position).
Proof. unfold finish. apply stays_borrowing. keep. apply dwindles_on_replica. by intros r x ?%not_elem_of_nil. Qed.
Lemma dwindles_settle id position s : dwindles s (settle_coverage id position s).
Proof. apply dwindles_on_replica. intros r x Hx. by apply list_elem_of_filter in Hx as []. Qed.
Hint Resolve stays_borrowing dwindles_settle : coverage.
Lemma stays_skip id sc k position : stays dwindles (skip limits_ id sc k position).
Proof. unfold skip. keep. Qed.
Hint Resolve stays_skip : coverage.
Lemma stays_covered same id position sc k : stays dwindles (covered limits_ same id position sc k).
Proof. unfold covered. keep. apply stays_borrowing. keep. Qed.

(** ** Receiving *)

(** At most [n] of the source [id] is covered further, to [position]. *)
Definition covers_more (repair : bool) (id : string) (n : Name) (position : Z) (s s' : State) : Prop :=
  ∀ id' x, x ∈ covered_by id' s' → x ∈ covered_by id' s ∨ (repair = true ∧ id' = id ∧ x = (n, position)).

Lemma recover_adds position repair n c x : x ∈ recover position repair n c → x ∈ c ∨ (repair = true ∧ x = (n, position)).
Proof.
  unfold recover. destruct repair; [|by intros [_ Hx]%list_elem_of_filter; left]. destruct (entry_of _ _ c) as [[i y]|] eqn:E.
  - apply list_find_Some in E as (Hi & Hy & _). intros [j Hj]%list_elem_of_lookup. destruct (decide (i = j)) as [->|Hne].
    + rewrite list_lookup_insert_eq in Hj by (by eapply lookup_lt_Some). injection Hj as <-. right. rewrite Hy. by destruct n.
    + rewrite list_lookup_insert_ne in Hj by done. left. by eapply list_elem_of_lookup_2.
  - intros [Hx|Hx%list_elem_of_singleton]%elem_of_app; [by left|by right].
Qed.

Section gaining.
Context (repair : bool) (id : string) (n : Name) (position : Z).
Abbreviation more := (covers_more repair id n position).
Lemma more_in s s' : dwindles s s' → more s s'.
Proof. intros Hd id' x Hx. left. by apply Hd. Qed.
Lemma more_seq s s' s'' : dwindles s s' → more s' s'' → more s s''.
Proof. intros Hd Hm id' x Hx. destruct (Hm id' x Hx); [left; by apply Hd|by right]. Qed.


Ltac gain_step :=
  lazymatch goal with
  | |- gains _ _ (bind ?m (λ r, match r with Expected x => _ | Unexpected e => ret (Unexpected e) end)) =>
      apply (gains_try dwindles more more_in more_seq); [keep|intros ?]
  | |- gains _ _ (bind _ _) => apply (gains_bind dwindles more more_seq); [keep|intros ?]
  | |- gains _ _ (ret _) => apply (gains_keeps dwindles more more_in), stays_ret; apply _
  | |- gains _ _ (throw _) => apply (gains_keeps dwindles more more_in), stays_throw; apply _
  | |- gains _ _ (scoped _ _) => apply gains_scoped; [apply _|intros ?; keep|]
  | |- gains _ _ (match ?x with _ => _ end) => destruct x
  | |- gains _ _ (let _ := _ in _) => cbv zeta
  end.

Lemma stays_retime sd r hooked : stays dwindles (retime sd n r hooked).
Proof. unfold retime, drop_timer. keep. Qed.
Hint Resolve stays_retime : coverage.

(** The end of [accept]: nothing fails once the coverage has grown. *)
Lemma gains_end g :
  (∀ s, dwindles s (g s)) →
  gains dwindles more (modify (on_replica id (λ r, set_coverage (recover position repair n (coverage r)) r)) ;;; modify g ;;; ret (Expected (E := Failure) tt)).
Proof.
  intros Hg s f. cbn. set (s1 := on_replica _ _ s). intros id' x Hx%Hg. revert Hx. unfold s1, covered_by, on_replica. cbn [set_replicas replicas_].
  destruct (decide (id = id')) as [<-|Hne]; [rewrite lookup_alter_eq|rewrite lookup_alter_ne by done; by left].
  destruct (replicas_ s !! id) as [r|]; cbn; [|by left]. intros [?|[-> ->]]%recover_adds; [by left|by right].
Qed.

Lemma gains_accept fact merged_fact bytes before prepared hooked origin merged projection :
  gains dwindles more (accept id n position repair fact merged_fact bytes before prepared hooked origin merged projection).
Proof.
  unfold accept, total_bytes. repeat (lazymatch goal with |- gains _ _ (modify (on_replica _ _) ;;; _) => fail | _ => gain_step end).
  apply gains_end. auto with coverage.
Qed.

Lemma gains_equip t fact merged_fact room k :
  (∀ prepared hooked, gains dwindles more (k prepared hooked)) → gains dwindles more (equip id n t fact merged_fact room k).
Proof. intros Hk. unfold equip. repeat gain_step. apply Hk. Qed.

Lemma gains_project sc k combined body :
  (∀ before projection, gains dwindles more (body before projection)) → gains dwindles more (project limits_ sc k combined body).
Proof. intros Hb. unfold project. repeat gain_step. apply Hb. Qed.

Lemma gains_incorporate sc k fact room combined t :
  n = {| Origin.scope := sc; Origin.key := k |} → gains dwindles more (incorporate limits_ id position sc k fact repair room combined t).
Proof.
  intros Hn. unfold incorporate, total_bytes. rewrite <- Hn. repeat gain_step.
  apply gains_project. intros before projection. apply gains_equip. intros prepared hooked. apply gains_accept.
Qed.

Lemma gains_borrowing same (m : eff State (expected unit Failure)) s f :
  gains dwindles more m →
  match borrowing same id m s f with (Done (Some (Expected _)), s', _) => more s s' | (_, s', _) => dwindles s s' end.
Proof.
  intros Hm. unfold borrowing, acquire, bind, gets, ret. destruct (replicas_ s !! id) as [r|]; [|done]. destruct (lent r); [done|]. destruct same; [|done].
  specialize (Hm s f). by destruct (m s f) as [[[[x|e]|e] s'] f'].
Qed.

Lemma gains_receive same sc k fact form s f :
  n = {| Origin.scope := sc; Origin.key := k |} →
  match receive limits_ same id position sc k fact form repair s f with
  | (Done (Some (Expected _)), s', _) => more s s' ∧ Scope.text k 1024 = true
  | (_, s', _) => dwindles s s'
  end.
Proof.
  intros Hn. unfold receive. destruct (_ || _) eqn:Eg; [cbn; reflexivity|]. rewrite !orb_false_iff in Eg.
  destruct Eg as [[[[[_ Hk%negb_false_iff] _] _] _] _].
  match goal with |- context [borrowing same id ?m s f] => pose proof (gains_borrowing same m s f) as Hb end.
  destruct (borrowing same id _ s f) as [[[[[x|e]|]|e] s'] f']; [split; [|done]|..]; apply Hb; clear Hb.
  all: repeat first [apply (gains_keeps dwindles more more_in); solve [keep] | by apply gains_incorporate | gain_step].
Qed.
End gaining.

(** Only a repair that is accepted covers more, and its key is a proper one. *)
Lemma receive_covers same id position sc k fact form repair s f :
  match receive limits_ same id position sc k fact form repair s f with
  | (Done (Some (Expected _)), s', _) =>
      covers_more repair id {| Origin.scope := sc; Origin.key := k |} position s s' ∧ Scope.text k 1024 = true
  | (_, s', _) => dwindles s s'
  end.
Proof. by apply gains_receive. Qed.

(** What [receive] consults: some entry of the target, or of its whole scope. *)
Lemma covered_to_entry sc k c position :
  0 < position → position <= covered_to sc k c →
  ∃ m q, (m, q) ∈ c ∧ position <= q ∧ Origin.scope m = sc ∧ (Origin.key m = k ∨ Origin.key m = "").
Proof.
  intros Hp. unfold covered_to.
  assert (Hgen : ∀ c' z, position <= foldl (λ m x, if bool_decide (Origin.scope x.1 = sc) && whole x.1 then Z.max m x.2 else m) z c' →
    position <= z ∨ ∃ m q, (m, q) ∈ c' ∧ position <= q ∧ Origin.scope m = sc ∧ Origin.key m = "").
  { induction c' as [|[m q] c' IH]; intros z; cbn [foldl]; [by left|]. intros [Hz|(m' & q' & Hm & Hq)]%IH.
    - unfold whole in Hz. cbn [fst snd] in Hz. destruct (bool_decide_reflect (Origin.scope m = sc)) as [Es|]; cbn [andb] in Hz; [|by left].
      destruct (bool_decide_reflect (Origin.key m = "")) as [Ek|]; [|by left].
      destruct (Z.le_gt_cases position z); [by left|]. right. exists m, q. split_and!; [by left|lia|done|done].
    - right. exists m', q'. split; [by right|done]. }
  intros [Hz|(m & q & Hm & Hq & Es & Ek)]%Hgen; [|exists m, q; split_and!; auto].
  destruct (entry_of sc k c) as [[i [m q]]|] eqn:E; [|lia]. apply list_find_Some in E as (Hi & Hy & _). cbn in Hy, Hz.
  exists m, q. subst m. split_and!; [by eapply list_elem_of_lookup_2|done|done|by left].
Qed.

(** What is not covered lies beyond every entry of the target. *)
Lemma entry_covered_to sc k c i x : entry_of sc k c = Some (i, x) → x.2 <= covered_to sc k c.
Proof.
  intros E. unfold covered_to. rewrite E. generalize (x.2). clear. induction c as [|y c IH]; intros z; cbn [foldl]; [done|].
  etrans; [|apply IH]. destruct (_ && _); lia.
Qed.
End coverage.
