(* ===== verification/CatalogReceive.v ===== *)
(** Facts received from a remote Star ([Catalog::State::receive],
    [catalog_replica.cpp]).

    Like a write of this Star, a received fact is prepared in the facts of its source,
    in the merged facts and, where the public view changes, in the projection; the
    clock is read again and everything is published together, or nothing is. *)
From stdpp Require Import base numbers strings gmap list.
From S2P Require Import Prelude.
From S2P Require Import Clock.
From S2P Require Import Wheel.
From S2P Require Import Agenda.
From S2P Require Import Timetable.
From S2P Require Import Scope.
From S2P Require Import Index.
From S2P Require Import Scene.
From S2P Require Import Stage.
From S2P Require Import Origin.
From S2P Require Import Leased.
From S2P Require Import Catalog.
From S2P Require Import CatalogState.
From S2P Require Import CatalogExpiry.
From S2P Require Import CatalogReads.
From S2P Require Import CatalogWrite.
From S2P Require Import CatalogReplica.

(** ** The rule of merging *)
Lemma expire_valid r t : valid r = true → valid (Catalog.expire r t) = true.
Proof.
  intros Hv. destruct (expire_live r t Hv) as [[_ ->]|[_ ->]]; [done|]. destruct (valid_shape r Hv) as [Hne _].
  unfold valid. cbn. by rewrite (proj2 (Z.eqb_neq _ _) Hne).
Qed.

Lemma expire_bounded r t : bounded (Some r) → bounded (Some (Catalog.expire r t)).
Proof.
  intros Hb x d [= <-]. unfold Catalog.expire. destruct (deadline r) as [d0|] eqn:E; [|congruence]. destruct (_ <=? _); [done|].
  rewrite E. intros [= <-]. by apply (Hb r d0).
Qed.

Lemma merge_shape known r t ch :
  Catalog.merge known r t = Expected ch → bounded known → bounded (Some r) →
  valid (changed ch) = true ∧ bounded (Some (changed ch)) ∧ visible ch = visible_change known (changed ch) ∧ 0 <= t.
Proof.
  intros Hm Hk Hr. unfold Catalog.merge in Hm. destruct (_ || _) eqn:Eg; [done|]. apply orb_false_iff in Eg as [Eg Et].
  apply negb_false_iff in Eg. apply valid_both_spec in Eg as [Vk Vr]. specialize (Vr r eq_refl). apply Z.ltb_ge in Et.
  destruct (match known with Some _ => _ | None => _ end); [done|]. injection Hm as <-. cbn [changed visible]. split_and!; try done.
  - destruct known as [c|]; [|by apply expire_valid]. specialize (Vk c eq_refl). destruct (_ <? _); [by apply expire_valid|].
    destruct (expire_live c t Vk) as [[(b & d & Hb & Hd & Hlt) ->]|[_ ->]].
    + destruct (_ && _); [|done]. rewrite bool_decide_eq_true_2 by (rewrite Hb; by eexists). cbn [negb].
      destruct (valid_shape c Vk) as [Hne [[E _]|(b' & d' & E1 & E2 & E3 & E4)]]; [congruence|]. unfold valid. cbn.
      rewrite (proj2 (Z.eqb_neq _ _) Hne), E1. cbn. rewrite andb_true_iff, !Z.leb_le. rewrite E2. cbn. lia.
    + cbn. destruct (_ && _); [by apply expire_valid|]. unfold valid. cbn. destruct (valid_shape c Vk) as [Hne _]. by rewrite (proj2 (Z.eqb_neq _ _) Hne).
  - destruct known as [c|]; [|by apply expire_bounded]. destruct (_ <? _); [by apply expire_bounded|].
    destruct (_ && _); [|by apply expire_bounded]. destruct (negb _); [by apply expire_bounded|]. intros x d [= <-]. cbn. intros [= <-].
    pose proof (expire_bounded c t Hk) as Hc. pose proof (expire_bounded r t Hr) as Hr'. set (c' := Catalog.expire c t) in *. set (r' := Catalog.expire r t) in *.
    specialize (Hc c'). specialize (Hr' r'). destruct (deadline c') as [dc|], (deadline r') as [dr|]; cbn;
      try specialize (Hc dc eq_refl eq_refl); try specialize (Hr' dr eq_refl eq_refl); unfold time_max, i64_max in *; lia.
Qed.

(** What the public shows of a record. *)
Definition shows (r : option record) : option Content :=
  r ← r; b ← value r; Some {| content_version := version r; content_value := Some b |}.

Lemma unseen_change known r : visible_change known r = false → shows known = shows (Some r).
Proof.
  unfold visible_change, shows. destruct known as [c|]; cbn.
  - destruct (value c) as [b|]; cbn.
    + destruct (value r) as [b'|]; cbn; [|done]. destruct (Z.eqb_spec (version c) (version r)) as [E|]; [|done]. cbn. intros Hd%differ_false.
      by rewrite E, Hd.
    + by destruct (value r).
  - by destruct (value r).
Qed.

Section receive.
Context `{Sizes} (limits_ : CatalogState.Limits) (HL : limits_fit limits_).
Abbreviation Facts := (Leased (Item := record)).
Abbreviation Views := (Stage (Item := Content)).
Abbreviation Record_map := (gmap Name record).
Abbreviation Log := (Origin.chronicle (Item := record)).
Abbreviation Ghost := (side → option (Record_map * Log)).
Abbreviation lim := (source_limits limits_).

(** ** Timers *)

(** A group whose facts are already those of [m'], with a timer for the new fact. *)
Record awaiting (sd : side) (ob : option Z) (n : Name) (fact : option record) (m : Record_map) (log' : Log) (g : Facts) : Prop := {
  aw_facts : origin_ok (is_own sd) lim (facts g) (next_shown n fact m) log';
  aw_timers : ∀ n', n' ∈ timers g ↔ (live_record fact = true ∧ n' = n) ∨ is_Some (lease_of deadline m n');
  aw_agenda : scheduled deadline ob m (agenda g);
  aw_ready : live_record fact = true → is_Some (agenda g);
  aw_sound : sound m;
  aw_fact : ∀ r, fact = Some r → valid r = true ∧ bounded (Some r)
}.

Definition later_than (t : Z) (fact : option record) : Prop := ∀ r d, fact = Some r → deadline r = Some d → t < d.

Lemma sound_next m n fact : sound m → (∀ r, fact = Some r → valid r = true ∧ bounded (Some r)) → sound (next_shown n fact m).
Proof.
  intros Hs Hf. destruct fact as [r|]; cbn; [|by apply map_Forall_delete]. apply map_Forall_insert_2; [|done]. by apply Hf.
Qed.

Lemma dead_lease fact : (∀ r, fact = Some r → valid r = true ∧ bounded (Some r)) → live_record fact = false → fact ≫= deadline = None.
Proof.
  intros Hf Hl. destruct fact as [r|]; [|done]. cbn in *. apply bool_decide_eq_false in Hl. destruct (Hf r eq_refl) as [Hv _].
  destruct (valid_shape r Hv) as [_ [[_ E]|(b & d & E & _)]]; [done|]. rewrite E in Hl. destruct Hl. by eexists.
Qed.

Lemma live_lease fact : (∀ r, fact = Some r → valid r = true ∧ bounded (Some r)) → live_record fact = true →
  ∃ r b d, fact = Some r ∧ value r = Some b ∧ deadline r = Some d ∧ d <= time_max.
Proof.
  intros Hf Hl. destruct fact as [r|]; [|done]. cbn in Hl. apply bool_decide_eq_true in Hl as [b Hb]. destruct (Hf r eq_refl) as [Hv Hd].
  destruct (valid_shape r Hv) as [_ [[E _]|(b' & d & E1 & E2 & _)]]; [congruence|]. exists r, b, d. split_and!; try done. by apply (Hd r d).
Qed.

(** The timer follows the fact. *)
Definition retimed (sd : side) (ob : option Z) (n : Name) (fact : option record) (m : Record_map) (log' : Log) (g g' : Facts) : Prop :=
  group_ok limits_ false ob sd g' (next_shown n fact m, log') ∧ next_of g' = next_of g ∧ facts g' = facts g ∧
  (∀ t, ob = Some t → later_than t fact → on_time m (agenda g) → on_time (next_shown n fact m) (agenda g')).

Lemma retime_wp sd ob n fact m log' g hooked s' :
  group_of sd s' = g → present sd s' → awaiting sd ob n fact m log' g → hooked = bool_decide (n ∈ timers g) →
  wp Faulty (retime sd n fact hooked) (λ _ s'', ∃ g', s'' = set_group sd g' s' ∧ retimed sd ob n fact m log' g g') (λ _ _, False) s'.
Proof.
  intros Hg Hp [A1 A2 A3 A4 A5 A6] Eh. assert (Hshort : ∀ n' d, lease_of deadline (next_shown n fact m) n' = Some d → d <= time_max).
  { intros n' d. rewrite lease_next. destruct (decide (n' = n)); [|apply (sc_short _ _ _ _ A3)]. destruct fact as [r|]; [|done]. cbn.
    intros Hd. by apply (proj2 (A6 r eq_refl) r d). }
  pose proof (sound_next m n fact A5 A6) as Hsnd. unfold retime. destruct (live_record fact) eqn:El.
  - destruct (live_lease fact A6 El) as (r & b & d & Ef & _ & Hd & Hmax). destruct (A4 eq_refl) as [[w fr] Hag].
    subst fact. cbn [mbind option_bind]. unfold set_timer. wp_step. wp_step. rewrite Hg, Hag, Hd. wp_step.
    exists (set_agenda (Some (Agenda.set n d w fr, fr)) g). split; [unfold on_group; by rewrite Hg|]. rewrite Hag in A3.
    destruct (sc_some _ _ _ _ A3 w fr eq_refl) as (Hset & _ & o & Ho & Hle). split_and!; [|unfold next_of; cbn; by rewrite Hag, next_set|done|].
    + split; cbn [fst snd set_agenda facts timers agenda]; try done.
      * intros n'. rewrite A2, lease_next. destruct (decide (n' = n)) as [->|]; [cbn; rewrite Hd; split; [by eexists|by left]|naive_solver].
      * intros _. by apply scheduled_set.
    + intros t -> Hlt Hon. injection Ho as <-. cbn [agenda set_agenda]. intros w' fr' [= <- <-] n' d'. rewrite lease_next.
      destruct (decide (n' = n)) as [->|]; [|by apply (Hon w fr)]. cbn. rewrite Hd. intros [= <-]. specialize (Hlt r d eq_refl Hd). lia.
  - pose proof (dead_lease fact A6 El) as Hnone. assert (Hleft : ∀ A, on_time m A → on_time (next_shown n fact m) A).
    { intros A Hon w fr E n' d. rewrite lease_next. destruct (decide (n' = n)) as [->|]; [by rewrite Hnone|by apply (Hon w fr)]. }
    destruct hooked; symmetry in Eh.
    + wp_step. eexists. split; [unfold drop_timer, on_group; rewrite Hg; done|]. split_and!; [| |done|].
      * split; cbn [fst snd set_timers set_agenda facts timers agenda]; try done.
        -- intros n'. rewrite elem_of_difference, elem_of_singleton, A2, lease_next. destruct (decide (n' = n)) as [->|]; [rewrite Hnone; split; [naive_solver|by intros []]|naive_solver].
        -- intros _. destruct (agenda g) as [[w fr]|]; [by apply scheduled_erase|]. apply scheduled_unleased; [done|done|]. by apply (sc_none _ _ _ _ A3).
      * unfold next_of. cbn. by destruct (agenda g) as [[w fr]|].
      * intros t -> _ Hon. cbn. destruct (agenda g) as [[w fr]|]; [|by apply Hleft]. intros w' fr' [= <- <-]. apply (Hleft (Some (w, fr)) Hon w fr eq_refl).
    + apply bool_decide_eq_false in Eh. assert (Hout : lease_of deadline m n = None).
      { destruct (lease_of deadline m n) eqn:E; [|done]. destruct Eh. apply A2. right. by rewrite E. }
      wp_step. exists g. split; [rewrite <- Hg; by rewrite set_group_same|]. split_and!; [|done|done|intros t _ _; by apply Hleft].
      split; cbn [fst snd]; try done.
      * intros n'. rewrite A2, lease_next. destruct (decide (n' = n)) as [->|]; [rewrite Hnone, Hout; split; [naive_solver|by intros []]|naive_solver].
      * intros _. by apply scheduled_unleased.
Qed.

(** ** Edits *)

(** A published edit is not heavier than announced. *)
Lemma editable_held sd (m : Record_map) log n fact position form now e o :
  editable (is_own sd) lim m log n fact position form now e o → held_bytes (Origin.commit e o) <= edit_total e o.
Proof.
  intros (_ & _ & o0 & fl0 & es & rows & fl1 & _ & _ & _ & _ & Hr & _). pose proof (pp_shelf _ _ _ _ _ (rd_prep _ _ _ _ _ _ _ _ _ Hr)) as Hs.
  destruct (commit_fields e o fl1 Hs) as (C1 & _ & _ & _ & C5 & _). unfold held_bytes, edit_total. rewrite C5, (sv_directory _ _ C1), (sv_directory _ _ Hs).
  pose proof (committed_bounds e fl1). lia.
Qed.

(** Other sources announce nothing. *)
Lemma editable_remote id (m : Record_map) log n fact position form now e o :
  editable (is_own (Remote id)) lim m log n fact position form now e o →
  origin_ok (is_own (Remote id)) lim (Origin.commit e o) (next_shown n fact m) (extend log position []).
Proof.
  intros He. pose proof (editable_commit _ _ (lf_source _ HL) _ _ _ _ _ _ _ _ _ He) as Hc.
  destruct He as (_ & _ & o0 & fl0 & es & rows & fl1 & _ & _ & _ & _ & _ & Hrec).
  assert (Hq : announced e form now = []) by (unfold announced; by rewrite (rc_queue _ _ _ _ _ _ _ _ Hrec)). by rewrite Hq in Hc.
Qed.

(** An agenda for a group, from now on if it has none yet. *)
Lemma ensure_wp sd t s' g m :
  group_of sd s' = g → present sd s' → scheduled deadline (Some t) m (agenda g) → 0 <= t <= time_max →
  wp Faulty (ensure sd t)
    (λ _ s'', ∃ du w fr, s'' = set_due du (on_group sd (set_agenda (Some (w, fr))) s') ∧ scheduled deadline (Some t) m (Some (w, fr)) ∧
       ((agenda g = Some (w, fr) ∧ du = due_ s') ∨ (du = Z.min (due_ s') (next w fr) ∧ ∀ n, lease_of deadline m n = None)))
    (λ e s'', oom e ∧ s'' = s') s'.
Proof.
  intros Hg Hp Hs Ht. unfold ensure. wp_step. wp_step. rewrite Hg. destruct (agenda g) as [[w fr]|] eqn:Ea.
  - wp_step. exists (due_ s'), w, fr. split_and!; [|done|by left]. unfold on_group. rewrite Hg. replace (set_agenda (Some (w, fr)) g) with g.
    + rewrite <- Hg, set_group_same by done. by destruct s'.
    + destruct g; cbn in *. by subst.
  - wp_step. wp_step; [|by split; [left|]]. unfold Agenda.make. rewrite (proj2 (Z.ltb_ge _ _)) by lia. wp_step. wp_step. wp_step. cbn [fst snd].
    eexists _, _, _. split; [done|]. pose proof (sc_none _ _ _ _ Hs eq_refl) as Hnone. split; [|by right].
    eapply fresh_scheduled; [|lia|done]. unfold Agenda.make. by rewrite (proj2 (Z.ltb_ge _ _)) by lia.
Qed.

(** ** The state while a fact is prepared *)
Section prepared.
Context (s : State) (a : Ghost) (Hok : state_ok limits_ None s a) (t1 : Z) (Hobs : observed_ s = Some t1).
Context (id : string) (r0 : Replica) (Hr0 : replicas_ s !! id = Some r0).
Context (m1 m2 : Record_map) (log1 log2 : Log) (Ha1 : a (Remote id) = Some (m1, log1)) (Ha2 : a All = Some (m2, log2)).

(** Only these members change. *)
Definition remote (g : Facts) (cv : list (Name * Z)) : Replica := {| group := g; coverage := cv; retired := retired r0; lent := lent r0 |}.
Definition put_remote (w : World) (ob : option Z) (du : Z) (g1 g2 : Facts) (st : Views) (b : Z) (cv : list (Name * Z)) : State :=
  {| world_ := w; observed_ := ob; due_ := du; own_ := own_ s; all_ := g2; stage_ := st;
     replicas_ := <[id := remote g1 cv]> (replicas_ s); replica_bytes_ := b |}.
Abbreviation put := put_remote.

Lemma put_start : s = put (world_ s) (Some t1) (due_ s) (group r0) (all_ s) (stage_ s) (replica_bytes_ s) (coverage r0).
Proof.
  unfold put_remote. rewrite <- Hobs. replace (remote (group r0) (coverage r0)) with r0 by (unfold remote; by destruct r0). rewrite insert_id by done. by destruct s.
Qed.

Lemma put_group w ob du g1 g2 st b cv sd :
  group_of sd (put w ob du g1 g2 st b cv) = if decide (sd = Remote id) then g1 else if decide (sd = All) then g2 else group_of sd s.
Proof.
  destruct sd as [| |id']; try done. cbn. destruct (decide (Remote id' = Remote id)) as [[= ->]|Hne]; [by rewrite lookup_insert_eq|].
  rewrite lookup_insert_ne by congruence. done.
Qed.

Lemma put_here w ob du g1 g2 st b cv : group_of (Remote id) (put w ob du g1 g2 st b cv) = g1.
Proof. cbn. by rewrite lookup_insert_eq. Qed.

Lemma put_present w ob du g1 g2 st b cv sd : present sd (put w ob du g1 g2 st b cv) ↔ present sd s.
Proof.
  destruct sd as [| |id']; try done. cbn. destruct (decide (id' = id)) as [->|]; [|by rewrite lookup_insert_ne].
  rewrite lookup_insert_eq, Hr0. split; by eexists.
Qed.

Lemma put_set w ob du g1 g2 st b cv g : set_group (Remote id) g (put w ob du g1 g2 st b cv) = put w ob du g g2 st b cv.
Proof. cbn. unfold set_replicas, put_remote. cbn. by rewrite alter_insert_eq. Qed.

Lemma put_on w ob du g1 g2 st b cv f : on_group (Remote id) f (put w ob du g1 g2 st b cv) = put w ob du (f g1) g2 st b cv.
Proof. unfold on_group. by rewrite put_here, put_set. Qed.

Lemma put_cover w ob du g1 g2 st b cv h :
  on_replica id (λ r, set_coverage (h (coverage r)) r) (put w ob du g1 g2 st b cv) = put w ob du g1 g2 st b (h cv).
Proof. unfold on_replica, set_replicas, put_remote. cbn. by rewrite alter_insert_eq. Qed.

Record steady_parts (w : World) (ob : option Z) (du : Z) (A1 A2 : option Timers) : Prop := {
  sp_world : typed w;
  sp_observed : ∃ t, ob = Some t ∧ 0 <= t <= time_max ∧ t1 <= t;
  sp_due : du <= due_ s ∧ (∀ w fr, A1 = Some (w, fr) → du <= next w fr) ∧ (∀ w fr, A2 = Some (w, fr) → du <= next w fr)
}.
Abbreviation parts := steady_parts.
(** The agendas are as punctual as before. *)
Definition keeps_time (A1 A2 : option Timers) : Prop :=
  (on_time m1 (agenda (group r0)) → on_time m1 A1) ∧ (on_time m2 (agenda (all_ s)) → on_time m2 A2).

Lemma due_bounded : due_ s <= time_max.
Proof.
  pose proof (ou_observed _ _ _ (st_outside _ _ _ _ Hok) t1 Hobs) as Ht1.
  pose proof (ou_due _ _ _ (st_outside _ _ _ _ Hok) Own I) as O4. unfold next_of in O4. destruct (agenda (group_of Own s)) as [[w0 fr0]|]; [|lia].
  unfold next in O4. destruct (Z.ltb_spec (time_max - time w0 fr0) interval); lia.
Qed.

Lemma parts_start w : typed w → parts w (Some t1) (due_ s) (agenda (group r0)) (agenda (all_ s)).
Proof.
  intros Hw. pose proof (st_outside _ _ _ _ Hok) as [O1 O2 O3 O4 O5]. split; [done|exists t1; split_and!; try done; by apply O2|].
  split_and!; [done| |]; intros w0 fr0 E; [specialize (O4 (Remote id))|specialize (O4 All I)]; unfold next_of in O4; cbn in O4.
  - rewrite Hr0 in O4. rewrite E in O4. apply O4. by eexists.
  - by rewrite E in O4.
Qed.

(** The account of the remote facts. *)
Definition account (g1 : Facts) : Z := replica_bytes_ s - held_bytes (facts (group r0)) + held_bytes (facts g1).

Lemma put_remote_ok w ob du g1 g2 st b cv x1 x2 :
  parts w ob du (agenda g1) (agenda g2) → group_ok limits_ false ob (Remote id) g1 x1 → group_ok limits_ false ob All g2 x2 →
  stage_fits limits_ st (showing (upd (Remote id) x1 (upd All x2 a))) → b = account g1 → b <= replica_bytes_limit limits_ →
  state_ok limits_ None (put w ob du g1 g2 st b cv) (upd (Remote id) x1 (upd All x2 a)).
Proof.
  intros [P1 (t & -> & Ht & Hle) (P3 & P4 & P5)] H1 H2 Hst Hb Hmax. pose proof due_bounded as Hdb. destruct Hok as [G1 G2 [O1 O2 O3 O4 [O5 O6]]].
  assert (Hnext : ∀ g, (∀ w fr, agenda g = Some (w, fr) → du <= next w fr) → du <= next_of g).
  { intros g Hg. unfold next_of. destruct (agenda g) as [[w0 fr0]|]; [by apply Hg|lia]. }
  split; [|done|split; try done].
  - intros sd x. unfold upd. rewrite put_group. destruct (decide (sd = Remote id)) as [->|]; [by intros [= <-]|].
    destruct (decide (sd = All)) as [->|]; [by intros [= <-]|]. intros Hx. destruct (G1 sd x Hx) as [A1 A2 A3 A4 A5].
    split; try done. intros _. eapply scheduled_later; [by apply A3|]. intros o Ho. rewrite Hobs in Ho. by injection Ho as <-.
  - by intros t' [= <-].
  - intros sd. unfold upd. rewrite put_present. destruct (decide (sd = Remote id)) as [->|]; [split; [intros _; by eexists|by eexists]|].
    destruct (decide (sd = All)) as [->|]; [split; [done|by eexists]|]. apply O3.
  - intros sd Hp%put_present. rewrite put_group. cbn [due_ put_remote].
    destruct (decide (sd = Remote id)); [by apply Hnext|]. destruct (decide (sd = All)); [by apply Hnext|]. specialize (O4 sd Hp). lia.
  - cbn [replica_bytes_ replicas_ put_remote]. split; [|done]. rewrite Hb. unfold account, remote_load. rewrite (map_sum_insert _ _ _ r0) by done.
    cbn [remote group]. rewrite O5. unfold remote_load. lia.
Qed.

(** Facts and timers of the groups at rest: the write has been given up. *)
Lemma rest_ok w ob du g1 g2 st cv :
  parts w ob du (agenda g1) (agenda g2) → at_rest limits_ (Remote id) m1 log1 g1 → at_rest limits_ All m2 log2 g2 →
  scheduled deadline ob m1 (agenda g1) → scheduled deadline ob m2 (agenda g2) → stage_fits limits_ st (showing a) →
  state_ok limits_ None (put w ob du g1 g2 st (replica_bytes_ s) cv) a.
Proof.
  intros Hp [R1 R1'] [R2 R2'] S1 S2 Hst. pose proof (group_fits _ _ _ _ Hok _ _ _ Ha1) as [F1 _ _ F4 F5]. pose proof (group_fits _ _ _ _ Hok _ _ _ Ha2) as [_ _ _ G4 G5].
  assert (Heq : ∀ sd, a sd = upd (Remote id) (m1, log1) (upd All (m2, log2) a) sd).
  { intros sd. unfold upd. destruct (decide (sd = Remote id)) as [->|]; [done|]. by destruct (decide (sd = All)) as [->|]. }
  eapply state_ghost; [exact Heq|]. apply put_remote_ok; [done|by split|by split| | |].
  - eapply stage_ext; [|exact Hst]. intros sc k. unfold showing. by rewrite <- Heq.
  - unfold account. cbn in F1. rewrite Hr0 in F1. rewrite (held_load _ _ _ _ _ F1), (held_load _ _ _ _ _ R1). lia.
  - apply (ou_bytes _ _ _ (st_outside _ _ _ _ Hok)).
Qed.
(** ** The fact and what it changes *)
Context (n : Name) (position : Z) (repair : bool) (fact : option record) (combined : option Change).
Context (Hfact : ∀ r, fact = Some r → valid r = true ∧ bounded (Some r)).
Context (Hcomb : match fact with
                 | Some r => ∃ ch, combined = Some ch ∧ Catalog.merge (m2 !! n) r t1 = Expected ch
                 | None => combined = None
                 end).
Abbreviation sc := (Origin.scope n).
Abbreviation k := (Origin.key n).
Abbreviation ns := (notices (stage_ s)).
Abbreviation merged_fact := (changed <$> combined).
Abbreviation target := (if repair then None else Some position).

Lemma known_bounded : bounded (m2 !! n).
Proof.
  intros x d Hx Hd. eapply (go_short _ _ _ _ _ _ (group_fits _ _ _ _ Hok _ _ _ Ha2) n). unfold lease_of. cbn. by rewrite Hx.
Qed.

Lemma merged_shape ch : combined = Some ch →
  valid (changed ch) = true ∧ bounded (Some (changed ch)) ∧ visible ch = visible_change (m2 !! n) (changed ch).
Proof.
  intros Ec. destruct fact as [r|]; [|by rewrite Hcomb in Ec]. destruct Hcomb as (ch' & E & Hm). rewrite Ec in E. injection E as <-.
  destruct (merge_shape _ _ _ _ Hm known_bounded) as (H1 & H2 & H3 & _); [by apply Hfact|]. done.
Qed.

(** The merged facts afterwards; a source that no longer knows the fact does not
    change them. *)
Definition merged_after : Record_map := match combined with Some ch => <[n := changed ch]> m2 | None => m2 end.
Definition received_after : Ghost :=
  upd (Remote id) (next_shown n fact m1, extend log1 target []) (upd All (merged_after, log2) a).

(** The fact took effect. *)
Definition taken (s' : State) : Prop := ∃ t,
  t1 <= t ∧ observed_ s' = Some t ∧ (∀ sd, timely sd s → timely sd s') ∧ state_ok limits_ None s' received_after.

(** The edit of the projection, where the public view changes. *)
Definition visibly : bool := match combined with Some ch => visible ch | None => false end.
Definition displaying_fact (before : Z) (pr : option (Scene.Edit (Item := Content))) (st : Views) : Prop :=
  match pr with
  | Some e => visibly = true ∧
      projecting (projection_limits limits_) (scopes_limit limits_) (history_limit limits_) st (showing a) sc k
        (shows merged_fact) before ns e
  | None => visibly = false ∧ stage_fits limits_ st (showing a)
  end.

Lemma displayed_after before pr st :
  displaying_fact before pr st → stage_fits limits_ (displayed n before pr st) (showing received_after).
Proof.
  pose proof merged_shape as Hms. clear Hcomb. assert (Hn : {| Origin.scope := sc; Origin.key := k |} = n) by (by destruct n).
  assert (Hshow : ∀ sc' k', showing received_after sc' k' =
    if decide (sc' = sc ∧ k' = k) then match combined with Some _ => shows merged_fact | None => showing a sc k end else showing a sc' k').
  { intros sc' k'. unfold showing, received_after, upd. rewrite (decide_False (P := All = Remote id)), decide_True, Ha2 by done. cbn.
    unfold merged_after. destruct combined as [ch|]; [|by destruct (decide _) as [[-> ->]|]]. unfold content_of. destruct (decide _) as [[-> ->]|Hne].
    - by rewrite Hn, lookup_insert_eq.
    - rewrite lookup_insert_ne; [done|]. intros ->. by apply Hne. }
  destruct pr as [e|]; cbn.
  - intros [Hv [_ _ _ Hrel]]. eapply stage_ext; [|exact Hrel]. intros sc' k'. rewrite Hshow. unfold visibly in Hv. by destruct combined.
  - intros [Hv Hst]. unfold visibly in Hv. eapply stage_ext; [|exact Hst]. intros sc' k'. rewrite Hshow. destruct (decide _) as [[-> ->]|]; [|done].
    destruct combined as [ch|]; [|done]. destruct (Hms ch eq_refl) as (_ & _ & E). rewrite Hv in E.
    change (shows (Some (changed ch)) = showing a sc k). rewrite <- (unseen_change _ _ (eq_sym E)). unfold showing. rewrite Ha2. cbn. unfold content_of. by rewrite Hn.
Qed.

(** The merged facts with their open edit, if there is one. *)
Definition merging (g2 : Facts) (e2 : option (Origin.Edit (Item := record))) : Prop :=
  match combined, e2 with
  | Some ch, Some e => ∃ now, editable (is_own All) lim m2 log2 n (Some (changed ch)) None form_record now e (facts g2)
  | None, None => origin_ok (is_own All) lim (facts g2) m2 log2
  | _, _ => False
  end.
Definition hooked_for (x : option record) (m : Record_map) (g : Facts) : Prop :=
  (∀ n', n' ∈ timers g ↔ (live_record x = true ∧ n' = n) ∨ is_Some (lease_of deadline m n')) ∧
  (live_record x = true → is_Some (agenda g)).
(** ** The end of a receipt *)
Definition stalled (du : Z) (g1 g2 : Facts) (st : Views) (s' : State) : Prop := ∃ w ob,
  s' = put w ob du g1 g2 st (replica_bytes_ s) (coverage r0) ∧ parts w ob du (agenda g1) (agenda g2) ∧
  scheduled deadline ob m1 (agenda g1) ∧ scheduled deadline ob m2 (agenda g2).

Lemma next_parts w ob du (g1 g2 g1' g2' : Facts) :
  parts w ob du (agenda g1) (agenda g2) → next_of g1' = next_of g1 → next_of g2' = next_of g2 → parts w ob du (agenda g1') (agenda g2').
Proof.
  intros [P1 P2 (P3 & P4 & P5)] E1 E2. split; [done|done|]. pose proof due_bounded as Hdb.
  assert (Hn : ∀ g, (∀ w fr, agenda g = Some (w, fr) → du <= next w fr) → du <= next_of g).
  { intros g Hg. unfold next_of. destruct (agenda g) as [[w0 fr0]|]; [by apply Hg|lia]. }
  split_and!; [done| |]; intros w0 fr0 E.
  - specialize (Hn g1 P4). rewrite <- E1 in Hn. unfold next_of in Hn. by rewrite E in Hn.
  - specialize (Hn g2 P5). rewrite <- E2 in Hn. unfold next_of in Hn. by rewrite E in Hn.
Qed.

Lemma taken_ok w t du (g1 g2 g1' g2' : Facts) st b cv :
  parts w (Some t) du (agenda g1') (agenda g2') → t1 <= t → keeps_time (agenda g1) (agenda g2) →
  group_ok limits_ false (Some t) (Remote id) g1' (next_shown n fact m1, extend log1 target []) →
  (on_time m1 (agenda g1) → on_time (next_shown n fact m1) (agenda g1')) →
  group_ok limits_ false (Some t) All g2' (merged_after, log2) → (on_time m2 (agenda g2) → on_time merged_after (agenda g2')) →
  stage_fits limits_ st (showing received_after) → b = account g1' → b <= replica_bytes_limit limits_ →
  taken (put w (Some t) du g1' g2' st b cv).
Proof.
  intros Hp Ht [K1 K2] G1 T1 G2 T2 Hst Hb Hmax. exists t. assert (Hfinal : state_ok limits_ None (put w (Some t) du g1' g2' st b cv) received_after) by (by apply put_remote_ok).
  split_and!; try done. intros sd Hsd. destruct (decide (sd = Remote id)) as [->|H1]; [|destruct (decide (sd = All)) as [->|H2]].
  - eapply timely_state in Hsd; [|exact Hok|exact Ha1]. cbn in Hsd. rewrite Hr0 in Hsd. eapply timely_state; [exact Hfinal| |].
    + unfold received_after, upd. by rewrite decide_True.
    + rewrite put_here. by apply T1, K1.
  - eapply timely_state in Hsd; [|exact Hok|exact Ha2]. eapply timely_state; [exact Hfinal| |].
    + unfold received_after, upd. by rewrite (decide_False (P := All = Remote id)), decide_True.
    + by apply T2, K2.
  - intros w0 fr0. rewrite put_group, !decide_False by done. intros Hag n' d. unfold leases. rewrite put_group, !decide_False by done. exact (Hsd w0 fr0 Hag n' d).
Qed.
Lemma not_past x t : (∀ r, x = Some r → valid r = true ∧ bounded (Some r)) → deadline_past x t = false → later_than t x.
Proof.
  intros Hx Hp r d -> Hd. unfold deadline_past in Hp. destruct (live_record (Some r)) eqn:El.
  - cbn in Hp. rewrite Hd in Hp. by apply Z.leb_gt in Hp.
  - pose proof (dead_lease (Some r) Hx El) as E. cbn in E. congruence.
Qed.

Lemma merged_valid r : merged_fact = Some r → valid r = true ∧ bounded (Some r).
Proof. intros E. apply fmap_Some in E as (ch & Ec & ->). destruct (merged_shape ch Ec) as (? & ? & _). done. Qed.

Definition committed (e2 : option (Origin.Edit (Item := record))) (g2 : Facts) : Facts :=
  match e2 with Some e => set_facts (Origin.commit e (facts g2)) g2 | None => g2 end.

Lemma retime_merged_wp w t du g1 g2 e2 st b cv :
  merging g2 e2 → hooked_for merged_fact m2 g2 → scheduled deadline (Some t) m2 (agenda g2) → later_than t merged_fact →
  wp Faulty (match merged_fact with
             | Some _ => s <- read ;; retime All n merged_fact (bool_decide (n ∈ timers (all_ s)))
             | None => ret tt
             end)
    (λ _ s', ∃ g2', s' = put w (Some t) du g1 g2' st b cv ∧ group_ok limits_ false (Some t) All g2' (merged_after, log2) ∧
       next_of g2' = next_of g2 ∧ (on_time m2 (agenda g2) → on_time merged_after (agenda g2')))
    (λ _ _, False) (put w (Some t) du g1 (committed e2 g2) st b cv).
Proof.
  intros Hm [Hh1 Hh2] Hs Hl. pose proof (group_fits _ _ _ _ Hok _ _ _ Ha2) as [_ _ _ G4 G5]. cbn [fst snd] in G4, G5. pose proof merged_valid as Hmv. unfold merged_after.
  unfold merging in Hm. destruct combined as [ch|]; cbn [fmap option_fmap option_map] in *.
  - destruct e2 as [e|]; [|done]. destruct Hm as [now He]. pose proof (editable_quiet _ HL _ _ _ _ _ _ _ _ _ He) as Hc.
    wp_step. wp_step. eapply wp_mono; [eapply (retime_wp All (Some t) n (Some (changed ch)) m2 log2 (committed (Some e) g2)); try done; by split| |done].
    intros _ s' (g2' & -> & R1 & R2 & _ & R4). exists g2'. split_and!; [done|done|done|by apply (R4 t)].
  - destruct e2; [done|]. wp_step. exists g2. split_and!; try done. split; cbn [fst snd]; try done. intros n'. rewrite Hh1. naive_solver.
Qed.

Lemma accept_fact_wp w ob du g1 g2 st now1 e1 e2 before pr :
  parts w ob du (agenda g1) (agenda g2) → keeps_time (agenda g1) (agenda g2) →
  scheduled deadline ob m1 (agenda g1) → scheduled deadline ob m2 (agenda g2) →
  editable (is_own (Remote id)) lim m1 log1 n fact target form_record now1 e1 (facts g1) →
  merging g2 e2 → (∀ n', n' ∈ timers g1 ↔ is_Some (lease_of deadline m1 n')) → hooked_for merged_fact m2 g2 →
  (live_record fact = true → is_Some (agenda g1)) → displaying_fact before pr st →
  replica_bytes_ s - load m1 + edit_total e1 (facts g1) <= replica_bytes_limit limits_ → load m1 <= replica_bytes_ s →
  let hooked := bool_decide (n ∈ timers g1) in
  wp Faulty (accept id n position repair fact merged_fact (load m1) before (live_record fact && negb hooked) hooked e1 e2 pr)
    (λ x s', match x with Expected _ => taken s' | Unexpected _ => stalled du g1 g2 st s' end)
    (λ e s', oom e ∧ stalled du g1 g2 st s') (put w ob du g1 g2 st (replica_bytes_ s) (coverage r0)).
Proof.
  intros Hp Hk Hs1 Hs2 He Hm Hti Hh Hready Hd Hroom Hload hooked. unfold accept. pose proof (editable_remote _ _ _ _ _ _ _ _ _ _ He) as Hc.
  pose proof (editable_held _ _ _ _ _ _ _ _ _ _ He) as Hheld. pose proof (held_load _ _ _ _ _ Hc) as Hload'. pose proof (load_nonneg (next_shown n fact m1)) as Hnn.
  apply wp_try, reading_wp; [apply Hp|..].
  { intros w' Hw'. exists w', ob. split_and!; try done. by destruct Hp. }
  intros rd w' Hw' _ Ht Ho. cbn [observed_ put_remote] in Ho. set (t := Clock.time rd) in *.
  assert (Hp' : parts w' (Some t) du (agenda g1) (agenda g2) ∧ t1 <= t).
  { destruct Hp as [P1 (o & Eo & _ & Ho1) P3]. specialize (Ho o Eo). split; [|lia]. split; try done. exists t. split_and!; try done; lia. }
  destruct Hp' as [Hp' Hle]. assert (Hl1 : scheduled deadline (Some t) m1 (agenda g1)) by (by eapply scheduled_later).
  assert (Hl2 : scheduled deadline (Some t) m2 (agenda g2)) by (by eapply scheduled_later).
  change (set_observed _ _) with (put w' (Some t) du g1 g2 st (replica_bytes_ s) (coverage r0)).
  apply wp_if; intros Epast; [wp_step; by exists w', (Some t)|]. apply orb_false_iff in Epast as [Ep1 Ep2].
  set (h1 := if live_record fact && negb hooked then set_timers ({[n]} ∪ timers g1) g1 else g1).
  wp_step. apply wp_mono with (Q := λ _ s', s' = put w' (Some t) du h1 g2 st (replica_bytes_ s) (coverage r0))
    (E := λ e s', oom e ∧ stalled du g1 g2 st s'); [| |done].
  { unfold h1. destruct (_ && _); [|by wp_step]. wp_step. wp_step; [wp_step; by rewrite put_on|]. split; [by left|]. by exists w', (Some t). }
  assert (Ef : facts h1 = facts g1) by (unfold h1; by destruct (_ && _)). assert (Ea : agenda h1 = agenda g1) by (unfold h1; by destruct (_ && _)).
  intros _ s' ->. wp_step. wp_step. unfold commit_fact at 1. rewrite put_on. cbv beta. rewrite Ef. set (h1' := set_facts _ h1). wp_step. wp_step.
  replace (commit_merged e2 _) with (put w' (Some t) du h1' (committed e2 g2) st (replica_bytes_ s) (coverage r0)) by (by destruct e2).
  wp_step. wp_step. set (st1 := match pr with Some e => touch_scene sc (Scene.commit e) st | None => st end).
  replace (commit_scene sc pr _) with (put w' (Some t) du h1' (committed e2 g2) st1 (replica_bytes_ s) (coverage r0)) by (unfold st1; by destruct pr).
  wp_step. eapply (total_wp limits_ (Remote id) (next_shown n fact m1) (extend log1 target [])); [apply put_present; by eexists|rewrite put_here; exact Hc|].
  wp_step. wp_step. wp_step.
  pose proof (ou_bytes _ _ _ (st_outside _ _ _ _ Hok)) as [Hb Hmax]. pose proof (lf_bytes _ HL) as Hlim.
  cbn [replica_bytes_ put_remote]. rewrite (wrap64_small (replica_bytes_ s - load m1)) by (unfold is_u64; lia). rewrite wrap64_small by (unfold is_u64; lia).
  set (b := _ + load _). change (set_replicas _ b _) with (put w' (Some t) du h1' (committed e2 g2) st1 b (coverage r0)).
  assert (Hin : n ∈ timers h1 ↔ live_record fact = true ∨ n ∈ timers g1).
  { unfold h1. destruct (live_record fact), (bool_decide_reflect (n ∈ timers g1)); cbn; set_solver. }
  eapply wp_mono; [eapply (retime_wp (Remote id) (Some t) n fact m1 (extend log1 target []) h1'); [apply put_here|apply put_present; by eexists| |]| |done].
  { split; cbn [set_facts facts timers agenda h1']; try done; [|by rewrite Ea|by rewrite Ea|apply (go_sound _ _ _ _ _ _ (group_fits _ _ _ _ Hok _ _ _ Ha1))].
    intros n'. destruct (decide (n' = n)) as [->|Hne]; [rewrite Hin, Hti; naive_solver|]. rewrite <- Hti. unfold h1. destruct (_ && _); cbn; set_solver. }
  { change (timers h1') with (timers h1). rewrite (bool_decide_ext _ _ Hin). unfold hooked. destruct (live_record fact); repeat case_bool_decide; naive_solver. }
  intros _ s' (g1' & -> & R1 & R2 & R3 & R4). rewrite put_set. wp_step.
  eapply wp_mono; [by eapply (retime_merged_wp w' t du g1' g2 e2 st1 b); [..|apply not_past; [apply merged_valid|]]| |done].
  intros _ s' (g2' & -> & M1 & M2 & M3). wp_step. wp_step. rewrite (put_cover _ _ _ _ _ _ _ _ (recover position repair n)). wp_step. wp_step. wp_step.
  set (cv := recover _ _ _ _).
  replace (publish_scene _ _ _ _) with (put w' (Some t) du g1' g2' (displayed n before pr st) b cv).
  2: { unfold st1, displayed, publish_scene. by destruct pr. }
  apply (taken_ok w' t du g1 g2); try done.
  - eapply next_parts; [exact Hp'| |done]. rewrite R2. unfold next_of, h1'. cbn. by rewrite Ea.
  - intros Hon. apply (R4 t eq_refl); [by apply not_past|]. cbn. by rewrite Ea.
  - by apply displayed_after.
  - unfold b, account. rewrite R3. cbn [h1' set_facts facts]. pose proof (facts_fit _ _ _ _ Hok _ _ _ Ha1) as F1. cbn in F1. rewrite Hr0 in F1.
    rewrite (held_load _ _ _ _ _ F1), Hload'. lia.
  - unfold b. lia.
Qed.
(** ** Agendas and timers *)

(** The receipt has been given up after [g1], [g2] and [st]; there may be new, empty
    agendas. *)
Definition loosened (g1 g2 : Facts) (st : Views) (s' : State) : Prop := ∃ du A1 A2,
  stalled du (set_agenda A1 g1) (set_agenda A2 g2) st s' ∧ keeps_time A1 A2.

Lemma parts_first w ob du A1 A2 w1 fr1 :
  parts w ob du A1 A2 → parts w ob (Z.min du (next w1 fr1)) (Some (w1, fr1)) A2.
Proof.
  intros [P1 P2 (P3 & P4 & P5)]. split; [done|done|]. split_and!; [lia|intros w0 fr0 [= <- <-]; lia|]. intros w0 fr0 E. specialize (P5 w0 fr0 E). lia.
Qed.
Lemma parts_second w ob du A1 A2 w2 fr2 :
  parts w ob du A1 A2 → parts w ob (Z.min du (next w2 fr2)) A1 (Some (w2, fr2)).
Proof.
  intros [P1 P2 (P3 & P4 & P5)]. split; [done|done|]. split_and!; [lia| |intros w0 fr0 [= <- <-]; lia]. intros w0 fr0 E. specialize (P4 w0 fr0 E). lia.
Qed.

Lemma now_bounds : 0 <= t1 <= time_max.
Proof. by apply (ou_observed _ _ _ (st_outside _ _ _ _ Hok)). Qed.

Lemma unleased_time (m : Record_map) A : (∀ n, lease_of deadline m n = None) → on_time m A.
Proof. intros Hm w fr _ n' d. by rewrite Hm. Qed.

Lemma same_agenda (g : Facts) : set_agenda (agenda g) g = g.
Proof. by destruct g. Qed.

Section equip.
Context (w : World) (du : Z) (g1 g2 : Facts) (st : Views).
Context (Hparts : parts w (Some t1) du (agenda g1) (agenda g2)) (Hkeeps : keeps_time (agenda g1) (agenda g2)).
Context (Hs1 : scheduled deadline (Some t1) m1 (agenda g1)) (Hs2 : scheduled deadline (Some t1) m2 (agenda g2)).
Abbreviation here := (λ du g1 g2, put w (Some t1) du g1 g2 st (replica_bytes_ s) (coverage r0)).

Lemma loose_here : loosened g1 g2 st (here du g1 g2).
Proof. exists du, (agenda g1), (agenda g2). rewrite !same_agenda. split; [|done]. by exists w, (Some t1). Qed.

Lemma ready_remote_wp (prepared : bool) :
  wp Faulty (if prepared then ensure (Remote id) t1 ;;; alloc ;;; alloc else ret tt)
    (λ _ s', ∃ du' A1, s' = here du' (set_agenda A1 g1) g2 ∧ parts w (Some t1) du' A1 (agenda g2) ∧ keeps_time A1 (agenda g2) ∧
       scheduled deadline (Some t1) m1 A1 ∧ (prepared = true ∨ is_Some (agenda g1) → is_Some A1))
    (λ e s', oom e ∧ loosened g1 g2 st s') (here du g1 g2).
Proof.
  pose proof loose_here as Hloose. destruct prepared.
  2: { wp_step. exists du, (agenda g1). rewrite same_agenda. split_and!; try done. by intros [?|?]. }
  wp_step. eapply wp_mono; [eapply (ensure_wp (Remote id) t1 _ g1 m1); [apply put_here|apply put_present; by eexists|done|apply now_bounds]| |by intros e s' [He ->]].
  intros _ s' (du' & w1 & fr1 & -> & Hsch & Hdu). rewrite put_on. cbn [due_ put_remote] in Hdu.
  change (set_due du' _) with (here du' (set_agenda (Some (w1, fr1)) g1) g2).
  assert (Hnew : parts w (Some t1) du' (Some (w1, fr1)) (agenda g2) ∧ keeps_time (Some (w1, fr1)) (agenda g2)).
  { destruct Hdu as [[Ea ->]|[-> Hnone]]; [by rewrite <- Ea|]. split; [by eapply parts_first|]. split; [intros _; by apply unleased_time|apply Hkeeps]. }
  destruct Hnew as [Hp' Hk']. assert (Hl : loosened g1 g2 st (here du' (set_agenda (Some (w1, fr1)) g1) g2)).
  { exists du', (Some (w1, fr1)), (agenda g2). rewrite same_agenda. split; [|done]. by exists w, (Some t1). }
  wp_step. wp_step; [|by split; [left|]]. wp_step; [|by split; [left|]]. exists du', (Some (w1, fr1)). by split_and!.
Qed.

Lemma ready_all_wp (wanted : bool) :
  wp Faulty (if wanted then ensure All t1 ;;; alloc ;;; modify (on_group All (λ g, set_timers ({[n]} ∪ timers g) g)) else ret tt)
    (λ _ s', ∃ du' A2, s' = here du' g1 (set_agenda A2 (if wanted then set_timers ({[n]} ∪ timers g2) g2 else g2)) ∧
       parts w (Some t1) du' (agenda g1) A2 ∧ keeps_time (agenda g1) A2 ∧
       scheduled deadline (Some t1) m2 A2 ∧ (wanted = true ∨ is_Some (agenda g2) → is_Some A2))
    (λ e s', oom e ∧ loosened g1 g2 st s') (here du g1 g2).
Proof.
  pose proof loose_here as Hloose. destruct wanted.
  2: { wp_step. exists du, (agenda g2). rewrite same_agenda. split_and!; try done. by intros [?|?]. }
  wp_step. eapply wp_mono; [eapply (ensure_wp All t1 _ g2 m2); [done|done|done|apply now_bounds]| |by intros e s' [He ->]].
  intros _ s' (du' & w2 & fr2 & -> & Hsch & Hdu). cbn [due_ put_remote] in Hdu.
  change (set_due du' _) with (here du' g1 (set_agenda (Some (w2, fr2)) g2)).
  assert (Hnew : parts w (Some t1) du' (agenda g1) (Some (w2, fr2)) ∧ keeps_time (agenda g1) (Some (w2, fr2))).
  { destruct Hdu as [[Ea ->]|[-> Hnone]]; [by rewrite <- Ea|]. split; [by eapply parts_second|]. split; [apply Hkeeps|intros _; by apply unleased_time]. }
  destruct Hnew as [Hp' Hk']. assert (Hl : loosened g1 g2 st (here du' g1 (set_agenda (Some (w2, fr2)) g2))).
  { exists du', (agenda g1), (Some (w2, fr2)). rewrite same_agenda. split; [|done]. by exists w, (Some t1). }
  wp_step. wp_step; [|by split; [left|]]. wp_step. exists du', (Some (w2, fr2)). by split_and!.
Qed.
End equip.
Lemma stalled_unhook (wanted : bool) (g1 g2 : Facts) A1 A2 du st s' :
  (wanted = true → n ∉ timers g2) → keeps_time A1 A2 →
  stalled du (set_agenda A1 g1) (set_agenda A2 (if wanted then set_timers ({[n]} ∪ timers g2) g2 else g2)) st s' →
  loosened g1 g2 st (if wanted then unhook All n s' else s').
Proof.
  intros Hn Hk (w & ob & -> & Hp & H1 & H2). exists du, A1, A2. split; [|done]. exists w, ob. split_and!; [|by destruct wanted..].
  destruct wanted; [|done]. unfold unhook. change (on_group All ?f (put w ob du ?x ?y st ?b ?cv)) with (put w ob du x (f y) st b cv).
  f_equal. destruct g2 as [o ag ti]. unfold set_agenda, set_timers. cbn. f_equal. specialize (Hn eq_refl). cbn in Hn. set_solver.
Qed.

Definition settled_by (over : State → Prop) (x : expected unit Failure) (s' : State) : Prop :=
  match x with Expected _ => taken s' | Unexpected _ => over s' end.

Lemma equip_wp w du g1 g2 st now1 e1 e2 before pr room :
  parts w (Some t1) du (agenda g1) (agenda g2) → keeps_time (agenda g1) (agenda g2) →
  scheduled deadline (Some t1) m1 (agenda g1) → scheduled deadline (Some t1) m2 (agenda g2) →
  editable (is_own (Remote id)) lim m1 log1 n fact target form_record now1 e1 (facts g1) → merging g2 e2 →
  (∀ n', n' ∈ timers g1 ↔ is_Some (lease_of deadline m1 n')) → (∀ n', n' ∈ timers g2 ↔ is_Some (lease_of deadline m2 n')) →
  displaying_fact before pr st →
  replica_bytes_ s - load m1 + edit_total e1 (facts g1) <= replica_bytes_limit limits_ → load m1 <= replica_bytes_ s →
  wp Faulty (equip id n t1 fact merged_fact room (λ prepared hooked,
      accept id n position repair fact merged_fact (load m1) before prepared hooked e1 e2 pr))
    (settled_by (loosened g1 g2 st)) (λ e s', oom e ∧ loosened g1 g2 st s')
    (put w (Some t1) du g1 g2 st (replica_bytes_ s) (coverage r0)).
Proof.
  intros Hp Hk Hs1 Hs2 He Hm Ht1 Ht2 Hd Hroom Hload. unfold equip. wp_step. wp_step. rewrite put_here. set (hooked := bool_decide (n ∈ timers g1)).
  set (prepared := live_record fact && negb hooked). wp_step. eapply wp_mono; [by apply (ready_remote_wp w du g1 g2 st Hp Hk Hs1 Hs2 prepared)| |done].
  intros _ s1 (du1 & A1 & -> & Hp1 & Hk1 & Hs1' & HA1). wp_step. wp_step. cbn [all_ put_remote].
  set (wanted := live_record merged_fact && negb (bool_decide (n ∈ timers g2))). wp_step.
  eapply wp_mono; [by apply (ready_all_wp w du1 (set_agenda A1 g1) g2 st Hp1 Hk1 Hs1' Hs2 wanted)| |done].
  intros _ s2 (du2 & A2 & -> & Hp2 & Hk2 & Hs2' & HA2). set (h2 := set_agenda A2 _).
  assert (Hw : wanted = true → n ∉ timers g2) by (unfold wanted; rewrite andb_true_iff, negb_true_iff, bool_decide_eq_false; naive_solver).
  apply wp_scoped. wp_step.
  apply wp_mono with (Q := λ _ s', s' = put w (Some t1) du2 (set_agenda A1 g1) h2 st (replica_bytes_ s) (coverage r0))
    (E := λ e s', e = bad_alloc ∧ s' = put w (Some t1) du2 (set_agenda A1 g1) h2 st (replica_bytes_ s) (coverage r0)); [by destruct room; repeat wp_step| |].
  2: { intros e s' [-> ->]. split; [by left|]. eapply (stalled_unhook wanted g1 g2 A1 A2); try done. by exists w, (Some t1). }
  intros _ s' ->. eapply wp_mono; [eapply (accept_fact_wp w (Some t1) du2 (set_agenda A1 g1) h2 st now1 e1 e2 before pr); try done|..].
  - by destruct combined, e2, wanted.
  - split.
    + intros n'. unfold h2, wanted. destruct (live_record merged_fact) eqn:El, (bool_decide_reflect (n ∈ timers g2)) as [Hin|Hin]; cbn;
        rewrite ?elem_of_union, ?elem_of_singleton, Ht2; naive_solver.
    + intros El. apply HA2. unfold wanted. rewrite El. destruct (bool_decide_reflect (n ∈ timers g2)) as [Hin|Hin]; [right|by left].
      destruct (agenda g2) eqn:E; [done|]. apply Ht2 in Hin as [d Hin]. by rewrite (sc_none _ _ _ _ Hs2 eq_refl) in Hin.
  - intros El. apply HA1. unfold prepared. rewrite El. destruct (bool_decide_reflect (n ∈ timers g1)) as [Hin|Hin]; [right|by left].
    destruct (agenda g1) eqn:E; [done|]. apply Ht1 in Hin as [d Hin]. by rewrite (sc_none _ _ _ _ Hs1 eq_refl) in Hin.
  - intros [[]|e] s' Hx; [done|]. by eapply (stalled_unhook wanted g1 g2 A1 A2).
  - intros e s' [Hoom Hx]. split; [done|]. by eapply (stalled_unhook wanted g1 g2 A1 A2).
Qed.
(** ** The projection *)
Definition resting (seen : bool) (ST : Views) : Prop :=
  stage_fits limits_ ST (showing a) ∧ notices ST = ns ∧ (seen = true → is_Some (scene_at sc ST)).
Definition staged_loose (seen : bool) (g1 g2 : Facts) (s' : State) : Prop := ∃ ST, loosened g1 g2 ST s' ∧ resting seen ST.

Section project.
Context (g1 g2 : Facts) (now1 : Z) (e1 : Origin.Edit (Item := record)) (e2 : option (Origin.Edit (Item := record))) (room : bool).
Context (Hag1 : agenda g1 = agenda (group r0)) (Hag2 : agenda g2 = agenda (all_ s)).
Context (He : editable (is_own (Remote id)) lim m1 log1 n fact target form_record now1 e1 (facts g1)) (Hm : merging g2 e2).
Context (Ht1 : ∀ n', n' ∈ timers g1 ↔ is_Some (lease_of deadline m1 n')) (Ht2 : ∀ n', n' ∈ timers g2 ↔ is_Some (lease_of deadline m2 n')).
Context (Hroom : replica_bytes_ s - load m1 + edit_total e1 (facts g1) <= replica_bytes_limit limits_) (Hload : load m1 <= replica_bytes_ s).
Abbreviation at_stage := (λ w st, put w (Some t1) (due_ s) g1 g2 st (replica_bytes_ s) (coverage r0)).
Abbreviation body := (λ before projection, equip id n t1 fact merged_fact room (λ prepared hooked,
  accept id n position repair fact merged_fact (load m1) before prepared hooked e1 e2 projection)).

Lemma sched_remote : scheduled deadline (Some t1) m1 (agenda g1).
Proof.
  rewrite Hag1. pose proof (go_agenda _ _ _ _ _ _ (group_fits _ _ _ _ Hok _ _ _ Ha1) eq_refl) as Hg. rewrite Hobs in Hg. cbn in Hg. by rewrite Hr0 in Hg.
Qed.
Lemma sched_all : scheduled deadline (Some t1) m2 (agenda g2).
Proof. rewrite Hag2. pose proof (go_agenda _ _ _ _ _ _ (group_fits _ _ _ _ Hok _ _ _ Ha2) eq_refl) as Hg. by rewrite Hobs in Hg. Qed.

Lemma at_parts w : typed w → parts w (Some t1) (due_ s) (agenda g1) (agenda g2).
Proof. rewrite Hag1, Hag2. apply parts_start. Qed.
Lemma at_time : keeps_time (agenda g1) (agenda g2).
Proof. rewrite Hag1, Hag2. by split. Qed.

Lemma loose_stage seen w ST : typed w → resting seen ST → staged_loose seen g1 g2 (at_stage w ST).
Proof. intros Hw Hr. exists ST. split; [|done]. apply loose_here; [by apply at_parts|apply at_time|apply sched_remote|apply sched_all]. Qed.

(** From the prepared edit of the projection on. *)
Lemma body_wp seen w st before pr :
  typed w → displaying_fact before pr st → (seen = true → is_Some (scene_at sc st)) → notices st = ns →
  wp Faulty (scoped (abort_scene sc pr) (body before pr)) (settled_by (staged_loose seen g1 g2))
    (λ e s', oom e ∧ staged_loose seen g1 g2 s') (at_stage w st).
Proof.
  intros Hw Hd Hv Hn.
  assert (Hundo : ∀ s', loosened g1 g2 st s' → staged_loose seen g1 g2 (abort_scene sc pr s')).
  { intros s' (du & A1 & A2 & (w' & ob & -> & Hp) & Hk). destruct pr as [e|]; cbn in *.
    - destruct Hd as [_ [P1 [v' P2] P3 P4]]. eexists. split; [exists du, A1, A2; split; [by exists w', ob|done]|]. split_and!; [done| |].
      + unfold touch_scene. cbn [stage_ put_remote]. by rewrite P2.
      + intros _. unfold touch_scene. cbn [stage_ put_remote]. rewrite P2, scene_at_place, decide_True by done. by eexists.
    - exists st. split; [exists du, A1, A2; split; [by exists w', ob|done]|]. by destruct Hd. }
  apply wp_scoped. eapply wp_mono; [eapply equip_wp; try done|..].
  - by apply at_parts.
  - apply at_time.
  - apply sched_remote.
  - apply sched_all.
  - intros [[]|e] s' Hx; [done|]. by apply Hundo.
  - intros e s' [Ho Hx]. split; [done|]. by apply Hundo.
Qed.

Lemma project_scene_wp seen w st :
  typed w → resting seen st → (visibly = true → seen = true) →
  wp Faulty
    (before <- (if seen then on_stage (on_scene sc history_bytes) else ret 0) ;;
     projection <-? match combined with
                    | Some ch =>
                        if visible ch then
                          retention <- on_stage (allowance (history_limit limits_) sc) ;;
                          e <-? prepare_scene limits_ sc k
                            (match value (changed ch) with
                             | Some b => Some {| content_version := version (changed ch); content_value := Some b |}
                             | None => None
                             end) retention ;;
                          ret (Expected (Some e))
                        else ret (Expected None)
                    | None => ret (Expected None)
                    end ;;
     scoped (abort_scene sc projection) (body before projection))
    (settled_by (staged_loose seen g1 g2)) (λ e s', oom e ∧ staged_loose seen g1 g2 s') (at_stage w st).
Proof.
  intros Hw Hrest Hvis. pose proof Hrest as (R1 & R2 & R3). wp_step.
  apply wp_mono with (Q := λ before s', s' = at_stage w st ∧ (seen = true → ∃ v, scene_at sc st = Some v ∧ before = Scene.backlog_ v))
    (E := λ _ _, False); [| |done].
  { destruct seen; [|by wp_step]. destruct (R3 eq_refl) as [v Hv]. apply on_stage_wp. eapply history_wp; [exact R1|exact Hv|]. split; [done|]. by exists v. }
  intros before s' [-> Hb]. apply wp_try.
  apply wp_mono with (E := λ e s', oom e ∧ staged_loose seen g1 g2 s')
    (Q := λ x s', match x with
                  | Expected pr => ∃ w' st', typed w' ∧ s' = at_stage w' st' ∧ displaying_fact before pr st' ∧
                      (seen = true → is_Some (scene_at sc st')) ∧ notices st' = ns
                  | Unexpected _ => staged_loose seen g1 g2 s'
                  end); [| |done].
  2: { intros [pr|e] s' Hx; [|done]. destruct Hx as (w' & st' & Hw' & -> & Hd & Hv & Hn). by apply body_wp. }
  assert (Hno : visibly = false → ∃ w' st', typed w' ∧ at_stage w st = at_stage w' st' ∧ displaying_fact before None st' ∧
    (seen = true → is_Some (scene_at sc st')) ∧ notices st' = ns) by (intros Hno; by exists w, st).
  unfold visibly in Hno, Hvis. destruct combined as [ch|] eqn:Ec; [|wp_step; by apply Hno]. destruct (visible ch) eqn:Ev; [|wp_step; by apply Hno].
  destruct (Hb (Hvis eq_refl)) as (v & Hv & ->). wp_step. apply on_stage_wp. eapply allowance_wp; [apply HL|exact R1|exact Hv|].
  change (set_stage st (at_stage w st)) with (at_stage w st). apply wp_try. apply (prepare_scene_wp limits_ HL sc k _ _ _ (showing a) v); try done.
  - intros w' st' e Hw' H1 H2 H3. apply (loose_stage seen w' st' Hw'). split_and!; [done| |done]. by rewrite H3.
  - intros w' st' e Hw' Hpj. wp_step. exists w', st'. split_and!; [done|done| |intros _; apply Hpj|by rewrite (pj_notices _ _ _ _ _ _ _ _ _ _ _ Hpj)].
    split; [unfold visibly; by rewrite Ec|]. rewrite <- R2, Ec. exact Hpj.
  - intros w' st' e Hw' Ho H1 H2 H3. split; [done|]. apply (loose_stage seen w' st' Hw'). split_and!; [done| |done]. by rewrite H3.
Qed.

Lemma project_fact_wp w :
  typed w → wp Faulty (project limits_ sc k combined body) (settled_by (staged_loose false g1 g2)) (λ e s', oom e ∧ staged_loose false g1 g2 s')
    (at_stage w (stage_ s)).
Proof.
  intros Hw. pose proof (st_stage _ _ _ _ Hok) as Hst. unfold project. fold visibly. wp_step. wp_step. cbn [stage_ put_remote].
  assert (Hweak : ∀ seen s', staged_loose seen g1 g2 s' → staged_loose false g1 g2 s').
  { intros seen s' (ST & H1 & H2 & H3 & _). exists ST. split; [done|]. by split_and!. }
  assert (Hback : staged_loose false g1 g2 (at_stage w (stage_ s))) by (apply loose_stage; [done|by split_and!]).
  destruct (scene_at sc (stage_ s)) as [v|] eqn:Ev.
  - rewrite bool_decide_eq_true_2 by (by eexists). rewrite andb_false_r. apply wp_try. wp_step. apply wp_scoped.
    eapply wp_mono; [apply (project_scene_wp true w (stage_ s)); [done|split_and!; [done|done|by eexists]|done]|..].
    + intros [[]|e] s' Hx; [done|]. by eapply Hweak.
    + intros e s' [Ho Hx]. split; [done|]. by eapply Hweak.
  - rewrite bool_decide_eq_false_2 by (by intros []). cbn [negb orb]. rewrite andb_true_r. destruct visibly eqn:Evis.
    + apply wp_try. unfold obtain_scope. wp_step. apply on_stage_wp.
      eapply wp_mono; [apply (obtain_stage_wp _ _ _ (lf_stage _ HL) _ (showing a)); exact Hst|..].
      2: { intros e st [-> ->]. split; [by left|done]. }
      intros [| |] st Hx; wp_step; try (by subst st). destruct Hx as (X1 & X2 & X3 & X4). cbn [stage_ put_remote] in X4. rewrite Ev, decide_False in X4 by (by intros []).
      change (set_stage st _) with (at_stage w st). apply wp_scoped.
      assert (Hundo : ∀ s', staged_loose true g1 g2 s' → staged_loose false g1 g2 (set_stage (withdraw sc (stage_ s')) s')).
      { intros s' (ST & (du & A1 & A2 & (w' & ob & -> & Hp) & Hk) & H1 & H2 & H3). destruct (H3 eq_refl) as [v Hv]. exists (withdraw sc ST).
        split; [exists du, A1, A2; split; [by exists w', ob|done]|]. split_and!; [|done|done]. eapply withdraw_ok; [exact H1|exact Hv|]. rewrite H2. apply X4. }
      eapply wp_mono; [apply (project_scene_wp true w st); [done|by split_and!|done]|..].
      * intros [[]|e] s' Hx; [done|]. by eapply Hundo.
      * intros e s' [Ho Hx]. split; [done|]. by eapply Hundo.
    + apply wp_try. wp_step. apply wp_scoped. eapply wp_mono; [apply (project_scene_wp false w (stage_ s)); [done|by split_and!|by rewrite Evis]|..].
      * by intros [[]|e] s' Hx.
      * done.
Qed.
End project.
(** ** The edits *)

(** Nothing but the clock has moved on. *)
Definition given_back (s' : State) : Prop :=
  state_ok limits_ None s' a ∧ (∃ t, observed_ s' = Some t ∧ t1 <= t) ∧ ∀ sd, timely sd s → timely sd s'.

Lemma loose_back seen g1 g2 s' :
  at_rest limits_ (Remote id) m1 log1 g1 → at_rest limits_ All m2 log2 g2 → staged_loose seen g1 g2 s' → given_back s'.
Proof.
  intros R1 R2 (ST & (du & A1 & A2 & (w & ob & -> & Hp & H1 & H2) & [K1 K2]) & Hst & _).
  assert (Hs : state_ok limits_ None (put w ob du (set_agenda A1 g1) (set_agenda A2 g2) ST (replica_bytes_ s) (coverage r0)) a) by (by apply rest_ok).
  split; [done|]. split; [destruct Hp as [_ (t & -> & _ & Hle) _]; by exists t|]. intros sd Hsd.
  destruct (decide (sd = Remote id)) as [->|N1]; [|destruct (decide (sd = All)) as [->|N2]].
  - eapply timely_state in Hsd; [|exact Hok|exact Ha1]. cbn in Hsd. rewrite Hr0 in Hsd. eapply timely_state; [exact Hs|exact Ha1|]. rewrite put_here. by apply K1.
  - eapply timely_state in Hsd; [|exact Hok|exact Ha2]. eapply timely_state; [exact Hs|exact Ha2|]. by apply K2.
  - intros w0 fr0. rewrite put_group, !decide_False by done. intros Hag n' d. unfold leases. rewrite put_group, !decide_False by done. exact (Hsd w0 fr0 Hag n' d).
Qed.

Lemma remote_rest : at_rest limits_ (Remote id) m1 log1 (group r0).
Proof. pose proof (group_fits _ _ _ _ Hok _ _ _ Ha1) as [G1 G2 _ _ _]. cbn in G1, G2. rewrite Hr0 in G1, G2. done. Qed.
Lemma merged_rest : at_rest limits_ All m2 log2 (all_ s).
Proof. pose proof (group_fits _ _ _ _ Hok _ _ _ Ha2) as []. done. Qed.

Lemma remote_within : load m1 <= replica_bytes_ s.
Proof.
  pose proof (ou_bytes _ _ _ (st_outside _ _ _ _ Hok)) as [-> _]. destruct remote_rest as [Ho _]. rewrite <- (held_load _ _ _ _ _ Ho).
  apply (map_sum_member (λ _ r, held_bytes (facts (group r))) (replicas_ s) id r0); [|done]. intros id' r Hr. by eapply remote_load_nonneg.
Qed.

Lemma loose_undone_all (e2 : option (Origin.Edit (Item := record))) g1 g2 s' :
  staged_loose false g1 g2 s' →
  staged_loose false g1 (match e2 with Some e => set_facts (Origin.abort e (facts g2)) g2 | None => g2 end) (abort_merged e2 s').
Proof.
  intros (ST & (du & A1 & A2 & (w & ob & -> & Hp) & Hk) & Hst). exists ST. split; [|done]. exists du, A1, A2. split; [|done]. exists w, ob.
  by destruct e2.
Qed.

Lemma loose_undone_remote e1 g1 g2 s' :
  staged_loose false g1 g2 s' → staged_loose false (set_facts (Origin.abort e1 (facts g1)) g1) g2 (abort_fact (Remote id) e1 s').
Proof.
  intros (ST & (du & A1 & A2 & (w & ob & -> & Hp) & Hk) & Hst). exists ST. split; [|done]. exists du, A1, A2. split; [|done]. exists w, ob.
  unfold abort_fact. by rewrite put_on.
Qed.

Abbreviation start := (put (world_ s) (Some t1) (due_ s) (group r0) (all_ s) (stage_ s) (replica_bytes_ s) (coverage r0)).
Lemma merge_fact_wp w o1 now1 e1 room :
  typed w → editable (is_own (Remote id)) lim m1 log1 n fact target form_record now1 e1 o1 →
  replica_bytes_ s - load m1 + edit_total e1 o1 <= replica_bytes_limit limits_ →
  wp Faulty
    (merged <-? match combined with
                | Some ch => e <-? prepare_fact limits_ All sc k (Some (changed ch)) None form_record ;; ret (Expected (Some e))
                | None => ret (Expected None)
                end ;;
     scoped (abort_merged merged)
       (project limits_ sc k combined (λ before projection,
          equip id n t1 fact merged_fact room (λ prepared hooked,
            accept id n position repair fact merged_fact (load m1) before prepared hooked e1 merged projection))))
    (settled_by (λ s', ∃ g2, at_rest limits_ All m2 log2 g2 ∧ staged_loose false (set_facts o1 (group r0)) g2 s'))
    (λ e s', oom e ∧ ∃ g2, at_rest limits_ All m2 log2 g2 ∧ staged_loose false (set_facts o1 (group r0)) g2 s')
    (put w (Some t1) (due_ s) (set_facts o1 (group r0)) (all_ s) (stage_ s) (replica_bytes_ s) (coverage r0)).
Proof.
  intros Hw He Hroom. destruct merged_rest as [Ro Rt]. destruct remote_rest as [_ Rt1]. pose proof (st_stage _ _ _ _ Hok) as Hst.
  assert (Hn : {| Origin.scope := sc; Origin.key := k |} = n) by (by destruct n).
  assert (Hover : ∀ w' o, typed w' → origin_ok (is_own All) lim o m2 log2 →
    ∃ g2, at_rest limits_ All m2 log2 g2 ∧ staged_loose false (set_facts o1 (group r0)) g2
      (put w' (Some t1) (due_ s) (set_facts o1 (group r0)) (set_facts o (all_ s)) (stage_ s) (replica_bytes_ s) (coverage r0))).
  { intros w' o Hw' Ho. exists (set_facts o (all_ s)). split; [by split|]. apply loose_stage; try done; by split_and!. }
  apply wp_try. apply wp_mono with (E := λ e s', oom e ∧ ∃ g2, at_rest limits_ All m2 log2 g2 ∧ staged_loose false (set_facts o1 (group r0)) g2 s')
    (Q := λ x s', match x with
                  | Expected e2 => ∃ w' o2, typed w' ∧ merging (set_facts o2 (all_ s)) e2 ∧
                      s' = put w' (Some t1) (due_ s) (set_facts o1 (group r0)) (set_facts o2 (all_ s)) (stage_ s) (replica_bytes_ s) (coverage r0)
                  | Unexpected _ => ∃ g2, at_rest limits_ All m2 log2 g2 ∧ staged_loose false (set_facts o1 (group r0)) g2 s'
                  end); [| |done].
  { unfold merging. destruct combined as [ch|].
    - apply wp_try. eapply (prepare_fact_wp limits_ HL All); [done|exact Ro|..].
      + intros w' o e Hw' Ho. by apply Hover.
      + intros w' o e2 now2 Hw' He2. rewrite Hn in He2. wp_step. exists w', o. split_and!; [done|by exists now2|done].
      + intros w' o e Hw' Ho' Ho. split; [done|]. by apply Hover.
    - wp_step. exists w, (facts (all_ s)). split_and!; [done|done|]. by destruct (all_ s). }
  intros [e2|e] s' Hx; [|done]. destruct Hx as (w' & o2 & Hw' & Hm & ->). apply wp_scoped.
  assert (Hab : at_rest limits_ All m2 log2 (match e2 with Some e => set_facts (Origin.abort e o2) (set_facts o2 (all_ s)) | None => set_facts o2 (all_ s) end)).
  { unfold merging in Hm. clear Hcomb Hover. destruct combined as [ch|], e2 as [e2|]; try done. destruct Hm as [now2 He2]. split; [|done]. by eapply editable_abort. }
  eapply wp_mono; [eapply (project_fact_wp (set_facts o1 (group r0)) (set_facts o2 (all_ s)) now1 e1 e2 room); try done; apply remote_within|..].
  - intros [[]|e] s' Hx; [done|]. eexists. split; [exact Hab|]. by apply (loose_undone_all e2) in Hx.
  - intros e s' [Ho Hx]. split; [done|]. eexists. split; [exact Hab|]. by apply (loose_undone_all e2) in Hx.
Qed.

Lemma incorporate_wp room :
  wp Faulty (incorporate limits_ id position sc k fact repair room combined t1) (settled_by given_back)
    (λ e s', oom e ∧ given_back s') start.
Proof.
  destruct remote_rest as [Ro Rt]. assert (Hn : {| Origin.scope := sc; Origin.key := k |} = n) by (by destruct n). pose proof (st_stage _ _ _ _ Hok) as Hst.
  assert (Hw : typed (world_ s)) by apply Hok. pose proof remote_within as Hin. pose proof (ou_bytes _ _ _ (st_outside _ _ _ _ Hok)) as [Hb Hmax].
  pose proof (lf_bytes _ HL) as Hlim. pose proof (load_nonneg m1) as Hnn.
  assert (Hback : ∀ w o, typed w → origin_ok (is_own (Remote id)) lim o m1 log1 →
    given_back (put w (Some t1) (due_ s) (set_facts o (group r0)) (all_ s) (stage_ s) (replica_bytes_ s) (coverage r0))).
  { intros w o Hw' Ho. eapply (loose_back false (set_facts o (group r0)) (all_ s)); [by split|apply merged_rest|]. apply loose_stage; try done; by split_and!. }
  unfold incorporate. rewrite Hn. wp_step. eapply (total_wp limits_ (Remote id) m1 log1); [apply put_present; by eexists|rewrite put_here; exact Ro|].
  apply wp_try. eapply (prepare_fact_wp limits_ HL (Remote id)); [done|rewrite put_here; exact Ro|..].
  - intros w o e Hw' Ho. change (set_world w start) with (put w (Some t1) (due_ s) (group r0) (all_ s) (stage_ s) (replica_bytes_ s) (coverage r0)). rewrite put_on. by apply Hback.
  - intros w o e1 now1 Hw' He. rewrite Hn in He. change (set_world w start) with (put w (Some t1) (due_ s) (group r0) (all_ s) (stage_ s) (replica_bytes_ s) (coverage r0)).
    rewrite put_on. pose proof (editable_abort _ _ _ _ _ _ _ _ _ _ _ He) as Hab.
    assert (Hundo : ∀ s', (∃ g2, at_rest limits_ All m2 log2 g2 ∧ staged_loose false (set_facts o (group r0)) g2 s') → given_back (abort_fact (Remote id) e1 s')).
    { intros s' (g2 & R2 & Hl). apply (loose_undone_remote e1) in Hl. by eapply loose_back; [| |exact Hl]. }
    apply wp_scoped. wp_step. wp_step. wp_step. wp_step. rewrite put_here. cbn [replica_bytes_ put_remote facts set_facts].
    rewrite (wrap64_small (replica_bytes_ s - load m1)) by (unfold is_u64; lia). apply wp_if; intros Ec.
    + wp_step. unfold abort_fact. rewrite put_on. by apply Hback.
    + apply orb_false_iff in Ec as [E1%Z.ltb_ge E2%Z.ltb_ge].
      eapply wp_mono; [apply (merge_fact_wp w o now1 e1 room); [done|done|lia]|..].
      * intros [[]|e] s' Hx; [done|]. by apply Hundo.
      * intros e s' [Ho Hx]. split; [done|]. by apply Hundo.
  - intros w o e Hw' Ho' Ho. split; [done|]. change (set_world w start) with (put w (Some t1) (due_ s) (group r0) (all_ s) (stage_ s) (replica_bytes_ s) (coverage r0)). rewrite put_on. by apply Hback.
Qed.
End prepared.
End receive.
