(* ===== verification/CatalogSources.v ===== *)
(** The operations on remote sources as a whole: what [admit], [retire], [received],
    [replica], [resolve], [prepare], [finish], [covered], [apply] and [repair] of
    [catalog_replica.cpp] do to the Catalog, whatever fails on the way. *)
From stdpp Require Import base numbers strings gmap list.
From S2P Require Import Prelude.
From S2P Require Import Clock.
From S2P Require Import Wheel.
From S2P Require Import Agenda.
From S2P Require Import Timetable.
From S2P Require Import Scope.
From S2P Require Import Index.
From S2P Require Import Scene.
From S2P Require Import Stage.
From S2P Require Import Origin.
From S2P Require Import Leased.
From S2P Require Import Catalog.
From S2P Require Import CatalogState.
From S2P Require Import CatalogExpiry.
From S2P Require Import CatalogReads.
From S2P Require Import CatalogWrite.
From S2P Require Import CatalogReplica.
From S2P Require Import CatalogReceive.

Section sources.
Context `{Sizes} (limits_ : CatalogState.Limits) (HL : limits_fit limits_).
Abbreviation Record_map := (gmap Name record).
Abbreviation Log := (Origin.chronicle (Item := record)).
Abbreviation Ghost := (side → option (Record_map * Log)).
Abbreviation lim := (source_limits limits_).
Implicit Types (a : Ghost) (s : State).

(** ** Steps of the directory *)

(** Members of a source beside its facts do not matter to what the state stands for. *)
Lemma on_replica_group id f s sd : (∀ r, group (f r) = group r) → group_of sd (on_replica id f s) = group_of sd s.
Proof.
  intros Hf. destruct sd as [| |id']; [done|done|]. cbn. rewrite lookup_alter. case_decide as E; [|done]. subst id'.
  destruct (replicas_ s !! id); [|done]. cbn. by rewrite Hf.
Qed.

Lemma on_replica_present id f s sd : present sd (on_replica id f s) ↔ present sd s.
Proof. destruct sd as [| |id']; [done|done|]. cbn. rewrite lookup_alter. case_decide as E; [|done]. subst id'. by rewrite fmap_is_Some. Qed.

Lemma on_replica_ok id f s a :
  (∀ r, group (f r) = group r) → state_ok limits_ None s a → state_ok limits_ None (on_replica id f s) a.
Proof.
  intros Hf [G1 G2 [O1 O2 O3 O4 O5]]. split; [|done|split; try done].
  - intros sd x Hx. rewrite on_replica_group by done. by apply (G1 sd).
  - intros sd. rewrite on_replica_present. apply O3.
  - intros sd Hp%on_replica_present. rewrite on_replica_group by done. by apply O4.
  - cbn [on_replica set_replicas replicas_ replica_bytes_]. destruct O5 as [-> O6]. split; [|done]. unfold remote_load.
    destruct (replicas_ s !! id) as [r|] eqn:Er; [|by rewrite alter_id by (intros x; by rewrite Er)].
    replace (alter f id (replicas_ s)) with (<[id := f r]> (replicas_ s)).
    + rewrite (map_sum_insert _ _ _ r) by done. rewrite Hf. lia.
    + apply map_eq. intros id'. rewrite lookup_insert, lookup_alter. case_decide as E; [|done]. subst id'. by rewrite Er.
Qed.

(** Groups that keep their agenda and the deadlines of their facts are as punctual as
    before. *)
Lemma timely_kept s a s' a' :
  state_ok limits_ None s a → state_ok limits_ None s' a' → (∀ sd, agenda (group_of sd s') = agenda (group_of sd s)) →
  (∀ sd, fst <$> a' sd = fst <$> a sd) → ∀ sd, timely sd s → timely sd s'.
Proof.
  intros Hok Hok' Hag Hm sd Hsd. specialize (Hm sd). destruct (a' sd) as [[m' log']|] eqn:E', (a sd) as [[m log]|] eqn:E; try done.
  - cbn in Hm. injection Hm as ->. eapply timely_state in Hsd; [|exact Hok|exact E]. eapply timely_state; [exact Hok'|exact E'|]. by rewrite Hag.
  - intros w fr. assert (Hno : ¬ present sd s').
    { intros Hp%(ou_there _ _ _ (st_outside _ _ _ _ Hok')). rewrite E' in Hp. by destruct Hp. }
    destruct sd as [| |id]; [by destruct Hno..|]. cbn in *. destruct (replicas_ s' !! id); [by destruct Hno; eexists|done].
Qed.

(** Nothing has happened but time. *)
Definition idled s a s' : Prop := (∃ a', since limits_ s a s' a') ∧ ∀ sd, timely sd s → timely sd s'.

Lemma idled_refl s a : state_ok limits_ None s a → idled s a s.
Proof. intros Hok. split; [exists a; by apply since_refl|done]. Qed.

Lemma idled_facts s a sd m log w o :
  state_ok limits_ None s a → a sd = Some (m, log) → typed w → origin_ok (is_own sd) lim o m log →
  idled s a (on_group sd (set_facts o) (set_world w s)).
Proof.
  intros Hok Ha Hw Ho. rewrite (shape_facts limits_ None s a Hok sd m log Ha o w).
  assert (Hok' : state_ok limits_ None (shape sd s (stage_ s) (set_facts o (group_of sd s)) w) a) by (eapply refit; try done; apply Hok).
  pose proof (there _ _ _ _ Hok _ _ _ Ha) as Hp. split.
  - exists a. split_and!; [done| |by left]. intros t Ht. exists t. by rewrite (proj1 (proj2 (shape_fields _ _ _ _ _))).
  - apply (timely_kept s a _ a); try done. intros sd'. rewrite shape_group by done. by destruct (decide (sd' = sd)) as [->|].
Qed.

(** The position of a source has moved, and nothing else. *)
Definition stepped id (position : Z) s a s' : Prop := ∃ m log,
  a (Remote id) = Some (m, log) ∧ place log <= position ∧ observed_ s' = observed_ s ∧ (∀ sd, timely sd s → timely sd s') ∧
  state_ok limits_ None s' (upd (Remote id) (m, extend log (Some position) []) a).

Lemma stepped_ok id position m log o w s a f :
  state_ok limits_ None s a → a (Remote id) = Some (m, log) → place log <= position → typed w →
  origin_ok (is_own (Remote id)) lim o m (extend log (Some position) []) → (∀ r, group (f r) = group r) →
  stepped id position s a (on_replica id f (shape (Remote id) s (stage_ s) (set_facts o (group_of (Remote id) s)) w)).
Proof.
  intros Hok Ha Hle Hw Ho Hf. pose proof (there _ _ _ _ Hok _ _ _ Ha) as Hp. pose proof (group_fits _ _ _ _ Hok _ _ _ Ha) as [G1 G2 G3 G4 G5].
  assert (Hok' : state_ok limits_ None (shape (Remote id) s (stage_ s) (set_facts o (group_of (Remote id) s)) w) (upd (Remote id) (m, extend log (Some position) []) a)).
  { apply shape_ok; try done.
    - by apply (ou_due _ _ _ (st_outside _ _ _ _ Hok)).
    - eapply stage_ext; [|apply Hok]. intros sc k. done.
    - intros id' _. cbn [set_facts facts]. rewrite (held_load _ _ _ _ _ Ho). by rewrite (held_load _ _ _ _ _ G1). }
  apply (on_replica_ok id f _ _ Hf) in Hok'. exists m, log. split_and!; [done|done|done| |done]. apply (timely_kept s a _ _ Hok Hok').
  - intros sd. rewrite on_replica_group, shape_group by done. by destruct (decide (sd = Remote id)) as [->|].
  - intros sd. unfold upd. destruct (decide (sd = Remote id)) as [->|]; [by rewrite Ha|done].
Qed.

(** ** Borrowing *)
Lemma borrowing_wp {A} same id (m : eff State (expected A Failure)) (Q : option (expected A Failure) → State → Prop) E s :
  Q (Some (Unexpected failed_input)) s → Q None s →
  (∀ r, replicas_ s !! id = Some r → lent r = false → wp Faulty m (λ x, Q (Some x)) E s) → wp Faulty (borrowing same id m) Q E s.
Proof.
  intros H1 H2 H3. unfold borrowing, acquire. wp_step. wp_step. destruct (replicas_ s !! id) as [r|] eqn:Er; [|by wp_step].
  destruct (lent r) eqn:El; [by wp_step|]. destruct same; [|by wp_step]. wp_step. eapply wp_mono; [by eapply H3| |done]. intros x s' Hx. by wp_step.
Qed.

Lemma facts_back sd s : present sd s → on_group sd (set_facts (facts (group_of sd s))) s = s.
Proof. intros Hp. unfold on_group. replace (set_facts _ _) with (group_of sd s) by (by destruct (group_of sd s)). by apply set_group_same. Qed.

Section looking.
Context (s : State) (a : Ghost) (Hok : state_ok limits_ None s a) (sd : side) (m : Record_map) (log : Log) (Ha : a sd = Some (m, log)).

Lemma position_wp (Q : Z → State → Prop) E : Q (place log) s → wp Faulty (on_facts sd get_position) Q E s.
Proof.
  intros HQ. pose proof (facts_fit _ _ _ _ Hok _ _ _ Ha) as Ho. apply on_facts_wp. unfold get_position. apply origin_idle_wp; [apply Ho|]. wp_step.
  rewrite facts_back by (by eapply there). destruct Ho as (_ & [-> _ _ _ _ _ _ _] & _). done.
Qed.

Lemma look_wp sc k (Q : option record → State → Prop) E :
  Q (m !! {| Origin.scope := sc; Origin.key := k |}) s → wp Faulty (on_facts sd (Origin.find sc k)) Q E s.
Proof.
  intros HQ. pose proof (facts_fit _ _ _ _ Hok _ _ _ Ha) as Ho. apply on_facts_wp. eapply find_wp; [exact Ho|].
  by rewrite facts_back by (by eapply there).
Qed.
End looking.

Lemma source_of id r s a : state_ok limits_ None s a → replicas_ s !! id = Some r → ∃ m log, a (Remote id) = Some (m, log).
Proof. intros Hok Hr. destruct (proj2 (ou_there _ _ _ (st_outside _ _ _ _ Hok) (Remote id))) as [[m log] Ha]; [by eexists|]. by exists m, log. Qed.

(** ** A covered fact *)
Lemma skip_wp id sc k position s a m log :
  state_ok limits_ None s a → a (Remote id) = Some (m, log) → place log <= position →
  wp Faulty (skip limits_ id sc k position)
    (λ x s', match x with Expected _ => stepped id position s a s' | Unexpected _ => idled s a s' end)
    (λ e s', oom e ∧ idled s a s') s.
Proof.
  intros Hok Ha Hle. unfold skip. wp_step. eapply look_wp; [exact Hok|exact Ha|]. set (n := {| Origin.scope := sc; Origin.key := k |}).
  apply wp_try. eapply (prepare_fact_wp limits_ HL (Remote id)); [apply Hok|by eapply facts_fit|..].
  - intros w o e Hw Ho. by eapply idled_facts.
  - intros w o e now Hw He. wp_step. wp_step. wp_step. wp_step. wp_step. pose proof (editable_remote limits_ HL _ _ _ _ _ _ _ _ _ _ He) as Hc. fold n in Hc.
    assert (Hm : next_shown n (m !! n) m = m) by (unfold next_shown; destruct (m !! n) eqn:E; [by apply insert_id|by apply delete_id]). rewrite Hm in Hc.
    rewrite (shape_facts limits_ None s a Hok (Remote id) m log Ha o w). unfold commit_fact. rewrite shape_on_group by (by eapply there).
    by eapply stepped_ok.
  - intros w o e Hw Ho' Ho. split; [done|]. by eapply idled_facts.
Qed.

(** ** Receiving *)

(** A fact arrived, at instant [t] and after what was due then had lapsed.  A source
    sends what lies ahead of its position, the next fact unless it is a repair, and does
    not contradict itself. *)
Definition accepted_as (t : Z) (n : Name) (position : Z) (repair : bool) (fact : option record) (known : option record)
    (m1 : Record_map) (log1 : Log) (combined : option Change) : Prop :=
  place log1 < position ∧ (repair = false → position = place log1 + 1 ∧ is_Some fact) ∧ contradicts (m1 !! n) fact = false ∧
  match fact with
  | Some r => ∃ ch, combined = Some ch ∧ valid r = true ∧ Catalog.merge known (Catalog.expire r t) t = Expected ch
  | None => combined = None
  end.
Definition arrived id (n : Name) (position : Z) (repair : bool) (fact : option record) s a s' : Prop := ∃ s1 t a1 m1 log1 m2 log2 combined,
  aged t a a1 ∧ (∀ o, observed_ s = Some o → o <= t) ∧ (∀ sd, timely sd s → timely sd s1) ∧
  a1 (Remote id) = Some (m1, log1) ∧ a1 All = Some (m2, log2) ∧
  accepted_as t n position repair fact (m2 !! n) m1 log1 combined ∧
  taken limits_ s1 a1 t id m1 m2 log1 log2 n position repair ((λ r, Catalog.expire r t) <$> fact) combined s'.

(** What is accepted lies at or below the position of its source, or below what a repair has
    covered, or is new. *)
Definition receive_post id (n : Name) (position : Z) (repair : bool) (fact : option record) s a
    (x : option (expected unit Failure)) s' : Prop :=
  match x with
  | Some (Expected _) => ∃ m log, a (Remote id) = Some (m, log) ∧
      ((position <= place log ∧ s' = s) ∨
       (place log < position ∧
        ((position <= covered_to (Origin.scope n) (Origin.key n) (covered_by id s) ∧
          if repair then s' = s else position = place log + 1 ∧ stepped id position s a s') ∨
         (covered_to (Origin.scope n) (Origin.key n) (covered_by id s) < position ∧ arrived id n position repair fact s a s'))))
  | _ => idled s a s'
  end.

Lemma given_idled s a s1 a1 t s' :
  aged t a a1 → (∀ o, observed_ s = Some o → o <= t) → (∀ sd, timely sd s → timely sd s1) →
  given_back limits_ s1 a1 t s' → idled s a s'.
Proof.
  intros Hag Ho Ht (G1 & (t' & G2 & G3) & G4). split; [|intros sd Hsd; by apply G4, Ht]. exists a1. by eapply (since_time _ _ _ _ _ t t').
Qed.

(** From the moment the clock has been read. *)
Lemma take_in_wp id sc k position repair fact (form : Form) room s a r m log :
  state_ok limits_ None s a → replicas_ s !! id = Some r → a (Remote id) = Some (m, log) →
  (∀ r, fact = Some r → valid r = true ∧ bounded (Some r)) → place log < position →
  (repair = false → position = place log + 1 ∧ is_Some fact) →
  wp Faulty
    (stamp <-? reading ;;
     let t := Clock.time stamp in
     advance_group limits_ (Remote id) t ;;;
     CatalogState.advance limits_ t (Some id) ;;;
     old <- on_facts (Remote id) (Origin.find sc k) ;;
     if bool_decide (form = form_renew) && unrenewable old fact then ret (Unexpected failed_ended)
     else if contradicts old fact then ret (Unexpected failed_conflict)
     else
       let fact := (λ r, Catalog.expire r t) <$> fact in
       known <- on_facts All (Origin.find sc k) ;;
       combined <-? ret match fact with
                        | Some r => refused of_rule (match Catalog.merge known r t with
                                                     | Expected ch => Expected (Some ch)
                                                     | Unexpected e => Unexpected e
                                                     end)
                        | None => Expected None
                        end ;;
       incorporate limits_ id position sc k fact repair room combined t)
    (λ x s', match x with
             | Expected _ => arrived id {| Origin.scope := sc; Origin.key := k |} position repair fact s a s'
             | Unexpected _ => idled s a s'
             end)
    (λ e s', halt e ∧ ∃ a', since limits_ s a s' a') s.
Proof.
  intros Hok Hr Ha Hfact Hpos Hnext. set (n := {| Origin.scope := sc; Origin.key := k |}). apply wp_try. apply reading_wp; [apply Hok|..].
  { intros w Hw. split; [exists a; by apply since_world|]. intros sd. by destruct sd. }
  intros rd w Hw _ Ht Ho. pose proof (state_read limits_ s a w (Clock.time rd) Hok Hw Ht Ho) as Hok1. set (t := Clock.time rd) in *.
  cbv zeta. set (u1 := set_observed _ _) in *. assert (Hp1 : present (Remote id) u1) by (by eexists).
  assert (Hstop : ∀ e u' a', halt e → moved limits_ t u1 a u' a' → halt e ∧ ∃ a', since limits_ s a u' a').
  { intros e u' a' He [M1 M2 M3 M4]. split; [done|]. exists a'. eapply (since_time _ _ _ _ _ t t); by rewrite ?M3. }
  wp_step. eapply wp_mono; [by apply (advance_group_wp limits_ HL (Remote id) u1 a t)| |by intros e u' (He & a' & Hm); eapply Hstop].
  intros _ u2 (a2 & Hm & Ht2 & _ & Hg2 & Hpr2). pose proof (mv_observed _ _ _ _ _ _ Hm) as Ho2. change (observed_ u1) with (Some t) in Ho2.
  wp_step. eapply wp_mono; [apply (advance_wp limits_ HL t (Some id) u2 a2); [apply Hm|done]| |].
  2: { intros e u' (He & a' & Hm'). eapply Hstop; [done|]. by eapply moved_trans. }
  intros _ u3 (a3 & [C1 C2 C3 C4 _] & Hsp). pose proof (Hsp id eq_refl (Hpr2 _ Hp1)) as [r3 Hr3].
  assert (Htime : ∀ sd, timely sd s → timely sd u3).
  { intros sd Hsd. apply C4. apply (timely_read sd s w (Some t)) in Hsd. destruct (decide (sd = Remote id)) as [->|]; [by apply Ht2|by eapply timely_other]. }
  assert (Hag : aged t a a3) by (eapply aged_trans; [apply Hm|done]).
  assert (Hidle : idled s a u3) by (split; [exists a3; by eapply (since_time _ _ _ _ _ t t)|done]).
  destruct (source_of id r3 u3 a3 C1 Hr3) as (m1 & log1 & Ha1). destruct (proj2 (ou_there _ _ _ (st_outside _ _ _ _ C1) All) I) as [[m2 log2] Ha2].
  assert (Hlog : log1 = log) by (pose proof (Hag (Remote id)) as Hx; rewrite Ha, Ha1 in Hx; by destruct Hx). subst log1.
  wp_step. eapply look_wp; [exact C1|exact Ha1|]. fold n. apply wp_if; intros _; [by wp_step|]. apply wp_if; intros Ec; [by wp_step|].
  wp_step. eapply look_wp; [exact C1|exact Ha2|]. fold n. apply wp_try. wp_step.
  assert (Hgo : ∀ combined,
    match fact with
    | Some r => ∃ ch, combined = Some ch ∧ valid r = true ∧ Catalog.merge (m2 !! n) (Catalog.expire r t) t = Expected ch
    | None => combined = None
    end →
    wp Faulty (incorporate limits_ id position sc k ((λ r, Catalog.expire r t) <$> fact) repair room combined t)
      (λ x s', match x with Expected _ => arrived id n position repair fact s a s' | Unexpected _ => idled s a s' end)
      (λ e s', halt e ∧ ∃ a', since limits_ s a s' a') u3).
  { intros combined Hc. rewrite (put_start limits_ u3 a3 C1 t C3 id r3 Hr3) at 1. change sc with (Origin.scope n). change k with (Origin.key n).
    eapply wp_mono; [apply (incorporate_wp limits_ HL u3 a3 C1 t C3 id r3 Hr3 m1 m2 log log2 Ha1 Ha2 n position repair _ combined)|..].
    - intros x Hx. apply fmap_Some in Hx as (r' & Er & ->). destruct (Hfact r' Er). split; [by apply expire_valid|by apply expire_bounded].
    - destruct fact as [r'|]; cbn; [|done]. destruct Hc as (ch & Ech & _ & Hmg). by exists ch.
    - intros [[]|e] s' Hx; [|by eapply given_idled]. exists u3, t, a3, m1, log, m2, log2, combined. by split_and!.
    - intros e s' [He Hx]. split; [by left|]. by eapply given_idled in Hx as [? _]. }
  destruct fact as [r'|]; cbn [fmap option_fmap option_map]; [|by apply Hgo].
  destruct (Catalog.merge (m2 !! n) (Catalog.expire r' t) t) as [ch|] eqn:Em; cbn [refused]; [|done].
  apply (Hgo (Some ch)). exists ch. split_and!; [done|by apply Hfact|done].
Qed.

Lemma receive_wp same id position sc k fact form repair s a :
  state_ok limits_ None s a → (∀ r, fact = Some r → bounded (Some r)) →
  wp Faulty (receive limits_ same id position sc k fact form repair)
    (receive_post id {| Origin.scope := sc; Origin.key := k |} position repair fact s a)
    (λ e s', halt e ∧ ∃ a', since limits_ s a s' a') s.
Proof.
  intros Hok Hb. pose proof (idled_refl s a Hok) as Hself. unfold receive. apply wp_if; intros Eg; [by wp_step|].
  rewrite !orb_false_iff, andb_false_iff, negb_false_iff in Eg. destruct Eg as [[[_ Hv] Hrep] _].
  assert (Hfact : ∀ r, fact = Some r → valid r = true ∧ bounded (Some r)).
  { intros r ->. split; [by apply negb_false_iff in Hv|by apply Hb]. }
  apply borrowing_wp; [done|done|]. intros r Hr _. destruct (source_of id r s a Hok Hr) as (m & log & Ha).
  wp_step. wp_step. apply wp_if; intros _; [by wp_step|]. wp_step. eapply position_wp; [exact Hok|exact Ha|].
  apply wp_if; intros Ep; [wp_step; exists m, log; split; [done|]; left; split; [by apply Z.leb_le|done]|].
  apply Z.leb_gt in Ep. apply wp_if; intros Eo; [by wp_step|].
  assert (Hnext : repair = false → position = place log + 1 ∧ is_Some fact).
  { intros ->. cbn in Eo. unfold out_of_order in Eo. apply orb_false_iff in Eo as [_ Eo]. apply negb_false_iff, Z.eqb_eq in Eo. split; [done|].
    destruct Hrep as [?|Hx]; [done|]. apply bool_decide_eq_false in Hx. by destruct fact; [eexists|]. }
  apply wp_if; intros Ecov; [apply Z.leb_le in Ecov|apply Z.leb_gt in Ecov].
  { destruct repair; [wp_step; exists m, log; split; [done|]; right; split; [done|]; by left|]. eapply wp_mono; [eapply (skip_wp id sc k position s a m log); try done; lia|..].
    - intros [[]|e] s' Hx; [|done]. exists m, log. split; [done|]. right. split; [done|]. left. split; [done|]. split; [by apply Hnext|done].
    - intros e s' [He [Hx _]]. split; [by left|done]. }
  apply wp_if; intros _; [by wp_step|]. eapply wp_mono; [by apply (take_in_wp id sc k position repair fact form _ s a r m log)|..].
  - intros [[]|e] s' Hx; [|done]. exists m, log. split; [done|]. right. split; [done|]. by right.
  - done.
Qed.

(** ** The other operations *)
Definition covered_post id position s a (x : option (expected bool Failure)) s' : Prop :=
  idled s a s' ∨ (x = Some (Expected true) ∧ stepped id position s a s').

Lemma covered_wp same id position sc k s a :
  state_ok limits_ None s a →
  wp Faulty (covered limits_ same id position sc k) (covered_post id position s a) (λ e s', oom e ∧ idled s a s') s.
Proof.
  intros Hok. pose proof (idled_refl s a Hok) as Hself. unfold covered. apply wp_if; intros _; [wp_step; by left|].
  apply borrowing_wp; [by left|by left|]. intros r Hr _. destruct (source_of id r s a Hok Hr) as (m & log & Ha).
  wp_step. wp_step. apply wp_if; intros _; [wp_step; by left|]. wp_step. eapply position_wp; [exact Hok|exact Ha|].
  apply wp_if; intros Ep; [wp_step; by left|]. apply Z.leb_gt in Ep. apply wp_if; intros _; [wp_step; by left|]. apply wp_if; intros _; [wp_step; by left|].
  apply wp_try. eapply wp_mono; [eapply (skip_wp id sc k position s a m log); try done; lia| |done].
  intros [[]|e] s' Hx; [wp_step; by right|by left].
Qed.

(** A Star has been admitted: its facts start out empty. *)
Definition admitted_to id s a s' : Prop :=
  a (Remote id) = None ∧ observed_ s' = observed_ s ∧ (∀ sd, timely sd s → timely sd s') ∧
  state_ok limits_ None s' (upd (Remote id) (∅, empty_log) a).

Lemma admit_ok id s a o :
  state_ok limits_ None s a → replicas_ s !! id = None → origin_ok false lim o ∅ empty_log →
  admitted_to id s a (set_replicas
    (<[id := {| group := {| facts := o; agenda := None; timers := ∅ |}; coverage := []; retired := false; lent := false |}]> (replicas_ s))
    (replica_bytes_ s) s).
Proof.
  intros Hok Hr Ho. set (r := {| group := _ |}). set (s' := set_replicas _ _ _). destruct Hok as [G1 G2 [O1 O2 O3 O4 [O5 O6]]] eqn:Eok. clear Eok.
  assert (Hnone : a (Remote id) = None).
  { destruct (a (Remote id)) eqn:E; [|done]. destruct (proj1 (O3 (Remote id))) as [x Hx]; [by rewrite E|]. congruence. }
  assert (Hg : ∀ sd, group_of sd s' = if decide (sd = Remote id) then group r else group_of sd s).
  { intros [| |id']; [done|done|]. cbn. destruct (decide (Remote id' = Remote id)) as [[= ->]|]; [by rewrite lookup_insert_eq|]. by rewrite lookup_insert_ne by congruence. }
  assert (Hp : ∀ sd, present sd s' ↔ sd = Remote id ∨ present sd s).
  { intros [| |id']; [naive_solver|naive_solver|]. cbn. destruct (decide (id' = id)) as [->|]; [rewrite lookup_insert_eq; naive_solver|].
    rewrite lookup_insert_ne by done. naive_solver. }
  assert (Hdue : due_ s <= time_max).
  { specialize (O4 Own I). unfold next_of in O4. destruct (agenda (group_of Own s)) as [[w fr]|]; [|done]. unfold next in O4.
    destruct (Z.ltb_spec (time_max - time w fr) interval); lia. }
  assert (Hok' : state_ok limits_ None s' (upd (Remote id) (∅, empty_log) a)).
  { split; [|done|split; try done].
    - intros sd x. unfold upd. rewrite Hg. destruct (decide (sd = Remote id)) as [->|]; [|by apply G1]. intros [= <-]. split; cbn; try done.
      intros n. rewrite elem_of_empty. split; [done|by intros []].
    - intros sd. unfold upd. rewrite Hp, <- O3. destruct (decide (sd = Remote id)) as [->|]; [split; [by left|by eexists]|naive_solver].
    - intros sd [->|Hp']%Hp; rewrite Hg; [by rewrite decide_True|]. destruct (decide (sd = Remote id)); [done|by apply O4].
    - cbn [s' set_replicas replicas_ replica_bytes_]. split; [|done]. rewrite O5. unfold remote_load, map_sum.
      rewrite map_fold_insert_L; [|lia|done]. cbn [r group]. cbn [facts]. rewrite (held_load _ _ _ _ _ Ho). done. }
  split_and!; try done. intros sd Ht w fr. rewrite Hg. destruct (decide (sd = Remote id)) as [|Hne]; [done|]. intros Hag n d. unfold leases. rewrite Hg, decide_False by done. exact (Ht w fr Hag n d).
Qed.

Lemma admit_wp id s a :
  state_ok limits_ None s a →
  wp Faulty (admit_source limits_ id) (λ x s', idled s a s' ∨ (x = Expected tt ∧ admitted_to id s a s')) (λ e s', e = bad_alloc ∧ s' = s) s.
Proof.
  intros Hok. pose proof (idled_refl s a Hok) as Hself. unfold admit_source. apply wp_if; intros _; [wp_step; by left|]. wp_step. wp_step.
  destruct (replicas_ s !! id) as [r|] eqn:Er; [wp_step; by left|]. apply wp_if; intros _; [wp_step; by left|].
  wp_step. wp_step; [|done]. wp_step. unfold Origin.make. rewrite (proj2 (Z.ltb_ge _ _)) by apply (lf_retention _ HL). wp_step. wp_step. wp_step; [|done].
  wp_step. wp_step. wp_step. right. split; [done|]. apply admit_ok; [done|done|apply blank_ok, HL].
Qed.

(** A retired source stays until its facts have lapsed; the next reader sees to it. *)
Lemma retire_wp id s a : state_ok limits_ None s a → wp Faulty (retire id) (λ _ s', idled s a s') (λ _ _, False) s.
Proof.
  intros Hok. pose proof (idled_refl s a Hok) as Hself. unfold retire. wp_step. wp_step. destruct (replicas_ s !! id); [|by wp_step]. wp_step.
  pose proof (on_replica_ok id set_retired s a (λ r, eq_refl) Hok) as Hok1.
  assert (Hok2 : state_ok limits_ None (set_due 0 (on_replica id set_retired s)) a).
  { apply state_due; [done|]. intros sd Hp. destruct (proj2 (ou_there _ _ _ (st_outside _ _ _ _ Hok1) sd) Hp) as [[m log] Ha].
    pose proof (go_agenda _ _ _ _ _ _ (group_fits _ _ _ _ Hok1 _ _ _ Ha) eq_refl) as Hsch. unfold next_of.
    destruct (agenda _) as [[w fr]|] eqn:Ea; [|unfold time_max, i64_max; lia]. destruct (sc_some _ _ _ _ Hsch w fr eq_refl) as (Hset & _).
    unfold next. rewrite (settled_now _ _ Hset). pose proof (settled_time _ _ Hset). unfold interval, time_max, i64_max in *. destruct (_ <? _); lia. }
  assert (Hg : ∀ sd, group_of sd (set_due 0 (on_replica id set_retired s)) = group_of sd s).
  { intros sd. rewrite <- (on_replica_group id set_retired s sd) by done. by destruct sd. }
  split; [exists a; split_and!; [done| |by left]; intros t Ht; by exists t|]. apply (timely_kept s a _ a); try done. intros sd. by rewrite Hg.
Qed.

Definition finish_post id position s a (x : option (expected unit Failure)) s' : Prop :=
  idled s a s' ∨ (x = Some (Expected tt) ∧ stepped id position s a s').

Lemma finish_wp same id position s a :
  state_ok limits_ None s a → 0 <= position <= u64_max →
  wp Faulty (finish same id position) (finish_post id position s a) (λ _ _, False) s.
Proof.
  intros Hok Hpos. pose proof (idled_refl s a Hok) as Hself. unfold finish.
  apply borrowing_wp; [by left|by left|]. intros r Hr _. destruct (source_of id r s a Hok Hr) as (m & log & Ha).
  wp_step. wp_step. apply wp_if; intros _; [wp_step; by left|]. wp_step. wp_step. unfold Origin.confirm.
  pose proof (facts_fit _ _ _ _ Hok _ _ _ Ha) as Ho. set (o := facts (group_of (Remote id) s)) in *.
  destruct (false || editing_ o || (position <? position_ o)) eqn:E; cbn [negb]; [wp_step; by left|].
  rewrite !orb_false_iff, Z.ltb_ge in E. destruct E as [_ E]. assert (Hplace : position_ o = place log) by (destruct Ho as (_ & [Hj _ _ _ _ _ _ _] & _); exact Hj).
  wp_step. wp_step. wp_step. wp_step. wp_step. right. split; [done|].
  replace (on_group (Remote id) (set_facts (set_position position o)) s) with (on_group (Remote id) (set_facts (set_position position o)) (set_world (world_ s) s)) by (by destruct s).
  rewrite (shape_facts limits_ None s a Hok (Remote id) m log Ha). eapply stepped_ok; try done; [lia|apply Hok|].
  unfold extend. rewrite app_nil_r. by apply confirmed_ok.
Qed.

(** Reading changes nothing. *)
Lemma received_wp same id s a :
  state_ok limits_ None s a →
  wp Faulty (received same id) (λ x s', s' = s ∧ ∀ p, x = Some (Expected p) → ∃ m log, a (Remote id) = Some (m, log) ∧ p = place log) (λ _ _, False) s.
Proof.
  intros Hok. unfold received. apply borrowing_wp; [by split|by split|]. intros r Hr _. destruct (source_of id r s a Hok Hr) as (m & log & Ha).
  wp_step. eapply position_wp; [exact Hok|exact Ha|]. wp_step. split; [done|]. intros p [= <-]. by exists m, log.
Qed.

Lemma replica_find_wp same id sc k s a :
  state_ok limits_ None s a →
  wp Faulty (replica_find same id sc k)
    (λ x s', s' = s ∧ ∀ r, x = Some (Expected r) → ∃ m log, a (Remote id) = Some (m, log) ∧ r = m !! {| Origin.scope := sc; Origin.key := k |})
    (λ _ _, False) s.
Proof.
  intros Hok. unfold replica_find. apply wp_if; intros _; [by wp_step|]. apply borrowing_wp; [by split|by split|]. intros r Hr _.
  destruct (source_of id r s a Hok Hr) as (m & log & Ha).
  wp_step. eapply look_wp; [exact Hok|exact Ha|]. wp_step. split; [done|]. intros x [= <-]. by exists m, log.
Qed.

Lemma resolve_wp sc k s a :
  state_ok limits_ None s a →
  wp Faulty (resolve sc k)
    (λ x s', s' = s ∧ ∀ p r, x = Expected (p, r) → ∃ m log, a Own = Some (m, log) ∧ p = place log ∧ r = m !! {| Origin.scope := sc; Origin.key := k |})
    (λ _ _, False) s.
Proof.
  intros Hok. unfold resolve. apply wp_if; intros _; [by wp_step|]. destruct (proj2 (ou_there _ _ _ (st_outside _ _ _ _ Hok) Own) I) as [[m log] Ha].
  wp_step. eapply position_wp; [exact Hok|exact Ha|]. wp_step. eapply look_wp; [exact Hok|exact Ha|]. wp_step. split; [done|].
  intros p r [= <- <-]. by exists m, log.
Qed.

Lemma source_prepare_wp same id position s a :
  state_ok limits_ None s a → wp Faulty (prepare limits_ same id position) (λ _ s', s' = s) (λ e s', e = bad_alloc ∧ s' = s) s.
Proof.
  intros Hok. unfold prepare. apply borrowing_wp; [done|done|]. intros r Hr _. destruct (source_of id r s a Hok Hr) as (m & log & Ha).
  wp_step. wp_step. apply wp_if; intros _; [by wp_step|]. wp_step. eapply position_wp; [exact Hok|exact Ha|]. apply wp_if; intros _; [by wp_step|].
  wp_step. unfold open_draft. wp_step. wp_step; [|done]. wp_step. unfold Origin.make. rewrite (proj2 (Z.ltb_ge _ _)) by apply (lf_retention _ HL).
  wp_step. wp_step. by wp_step.
Qed.
End sources.
