(* ===== verification/CatalogRun.v ===== *)
(** Histories of the Catalog.

    Every operation of a Star's own clients, in any order, with any answers of the
    clock and any failing allocation: what the Catalog stands for evolves by lapses
    and writes only, the state keeps agreeing with it, an own fact that is still
    alive is public unless a higher version is known, and reads are at most one tick
    out of date. *)
From stdpp Require Import base numbers strings gmap list relations.
From S2P Require Import Prelude.
From S2P Require Import Clock.
From S2P Require Import Wheel.
From S2P Require Import Agenda.
From S2P Require Import Timetable.
From S2P Require Import Scope.
From S2P Require Import Index.
From S2P Require Import Scene.
From S2P Require Import Stage.
From S2P Require Import Origin.
From S2P Require Import Leased.
From S2P Require Import Catalog.
From S2P Require Import CatalogState.
From S2P Require Import CatalogExpiry.
From S2P Require Import CatalogReads.
From S2P Require Import CatalogWrite.
From S2P Require Import CatalogReplica.
From S2P Require Import CatalogCoverage.
From S2P Require Import CatalogReceive.
From S2P Require Import CatalogSources.

Section run.
Context `{Sizes} (limits_ : CatalogState.Limits) (HL : limits_fit limits_).
Abbreviation Record_map := (gmap Name record).
Abbreviation Ghost := (side → option (Record_map * Origin.chronicle (Item := record))).
Abbreviation lim := (source_limits limits_).
Implicit Types (a : Ghost) (s : State).

(** ** The beginning *)
Definition vacant : Ghost := λ sd, match sd with Remote _ => None | _ => Some (∅, empty_log) end.

Lemma start_ok w s : typed w → start limits_ w = Done s → state_ok limits_ None s vacant.
Proof.
  intros Hw Hs. unfold start in Hs. destruct (Origin.make lim) as [o|] eqn:Eo; [|done]. injection Hs as <-.
  assert (Ho : ∀ b, origin_ok b lim o ∅ empty_log).
  { intros b. unfold Origin.make in Eo. destruct (_ <? _); [done|]. injection Eo as <-. apply blank_ok, HL. }
  assert (Hl : ∀ n, lease_of deadline ∅ n = None) by done.
  pose proof (lf_stage _ HL) as [S1 S2 S3 S4]. pose proof (lf_bytes _ HL) as Hb.
  split; [| |split; try done].
  - intros sd x Hx. destruct sd as [| |id]; [..|done]; injection Hx as <-; (split; cbn; [done| |split; [done|done|done]|done|done]);
      intros n; rewrite elem_of_empty, Hl; (split; [done|by intros []]).
  - split; cbn; try done; [|lia].
    by exists ∅.
  - intros [| |id]; cbn; [by split; [|eexists]..|]. rewrite lookup_empty. split; by intros [].
  - intros [| |id]; cbn; unfold time_max, i64_max; [lia..|]. rewrite lookup_empty. by intros [].
  - cbn. split; [done|lia].
Qed.

(** ** Requests *)
Inductive request :=
| Publish (sc : Scope) (k : string) (v : Value) (ver ttl : Z)
| Renew (sc : Scope) (k : string) (ver ttl : Z)
| Tick
| Capture (exclusive : bool) (sc : Scope)
| Find (exclusive : bool) (sc : Scope) (k : string)
| Changes (exclusive : bool) (sc : Scope) (since : Z)
| Source
| Events (since : Z)
| Deliver (since count budget : Z)
| Admit (id : string)
| Retire (id : string)
| Received (same : bool) (id : string)
| Replica (same : bool) (id : string) (sc : Scope) (k : string)
| Resolve (sc : Scope) (k : string)
| Prepare (same : bool) (id : string) (position : Z)
| Covered (same : bool) (id : string) (position : Z) (sc : Scope) (k : string)
| Apply (same : bool) (id : string) (position : Z) (sc : Scope) (k : string) (fact : record) (form : Form)
| Repair (same : bool) (id : string) (position : Z) (sc : Scope) (k : string) (fact : option record)
| Finish (same : bool) (id : string) (position : Z).

Definition serve (q : request) : eff State unit :=
  match q with
  | Publish sc k v ver ttl => CatalogState.publish limits_ sc k v ver ttl ;;; ret tt
  | Renew sc k ver ttl => CatalogState.renew limits_ sc k ver ttl ;;; ret tt
  | Tick => tick_round limits_ ;;; ret tt
  | Capture exclusive sc => CatalogState.capture limits_ exclusive sc ;;; ret tt
  | Find exclusive sc k => CatalogState.find limits_ exclusive sc k ;;; ret tt
  | Changes exclusive sc since => CatalogState.changes limits_ exclusive sc since ;;; ret tt
  | Source => own_view ;;; ret tt
  | Events since => own_events since ;;; ret tt
  | Deliver since count budget => own_delivery since count budget ;;; ret tt
  | Admit id => admit_source limits_ id ;;; ret tt
  | Retire id => retire id
  | Received same id => received same id ;;; ret tt
  | Replica same id sc k => replica_find same id sc k ;;; ret tt
  | Resolve sc k => resolve sc k ;;; ret tt
  | Prepare same id position => prepare limits_ same id position ;;; ret tt
  | Covered same id position sc k => covered limits_ same id position sc k ;;; ret tt
  | Apply same id position sc k fact form => apply limits_ same id position sc k fact form ;;; ret tt
  | Repair same id position sc k fact => repair limits_ same id position sc k fact ;;; ret tt
  | Finish same id position => finish same id position ;;; ret tt
  end.

(** Positions and cursors are unsigned 64-bit numbers, deadlines signed ones. *)
Definition proper (q : request) : Prop :=
  match q with
  | Changes _ _ since | Events since => 0 <= since
  | Apply _ _ _ _ _ fact _ => bounded (Some fact)
  | Repair _ _ _ _ _ fact => bounded fact
  | Finish _ _ position => 0 <= position <= u64_max
  | _ => True
  end.

(** One request, with the allocations that fail. *)
Definition step (s : State) (q : request * faults) : State := let '(_, s', _) := serve q.1 s q.2 in s'.

(** ** How what the Catalog stands for evolves *)

(** A write of [n] at the latest instant [t]. *)
Definition wrote (n : Name) (renewal : bool) (v : Value) (ver ttl : Z) (t : Z) a a' : Prop :=
  ∃ rd cand ch m1 log1 m2 log2 now,
    Clock.time rd = t ∧ a Own = Some (m1, log1) ∧ a All = Some (m2, log2) ∧
    rule renewal (m1 !! n) (m2 !! n) v ver ttl rd = Expected cand ∧
    Catalog.merge (m2 !! n) cand t = Expected ch ∧
    a' = upd Own (<[n := cand]> m1, extend log1 (Some (place log1 + 1))
           [own_event n cand (place log1 + 1) (if renewal then form_renew else form_record) now])
           (upd All (<[n := changed ch]> m2, log2) a).

(** A fact of [id] about [n] at the latest instant [t]. *)
Definition heard_from id (n : Name) (position : Z) (repair : bool) (fact : option record) (t : Z) a a' : Prop :=
  ∃ m1 log1 m2 log2 combined,
    bounded fact ∧ a (Remote id) = Some (m1, log1) ∧ a All = Some (m2, log2) ∧
    accepted_as t n position repair fact (m2 !! n) m1 log1 combined ∧
    a' = received_after a id m1 m2 log1 log2 n position repair ((λ r, Catalog.expire r t) <$> fact) combined.

Inductive evolves : option Z * Ghost → option Z * Ghost → Prop :=
| Passes o o' a : (∀ t, o = Some t → ∃ t', o' = Some t' ∧ t <= t') → evolves (o, a) (o', a)
| Lapses t now a a' : now <= t → aged now a a' → evolves (Some t, a) (Some t, a')
| Writes t n renewal v ver ttl a a' : wrote n renewal v ver ttl t a a' → evolves (Some t, a) (Some t, a')
| Hears t id n position repair fact a a' : heard_from id n position repair fact t a a' → evolves (Some t, a) (Some t, a')
| Admits o id a : a (Remote id) = None → evolves (o, a) (o, upd (Remote id) (∅, empty_log) a)
| Steps o id position m log a : a (Remote id) = Some (m, log) → place log <= position →
    evolves (o, a) (o, upd (Remote id) (m, extend log (Some position) []) a).

Lemma since_evolves s a s' a' : since limits_ s a s' a' → rtc evolves (observed_ s, a) (observed_ s', a').
Proof.
  intros (_ & Hl & Hx). eapply rtc_l; [by apply (Passes _ (observed_ s'))|]. destruct Hx as [->|(now & t & Ha & -> & Hle)]; [done|].
  apply rtc_once. by apply (Lapses t now).
Qed.

(** The state after a request. *)
Definition follows s a s' : Prop := ∃ a', rtc evolves (observed_ s, a) (observed_ s', a') ∧ state_ok limits_ None s' a'.

Lemma since_follows s a s' a' : since limits_ s a s' a' → follows s a s'.
Proof. intros Hx. exists a'. split; [by apply since_evolves|apply Hx]. Qed.

Lemma change_follows n renewal v ver ttl s a x s' :
  state_ok limits_ None s a → change_post limits_ n renewal v ver ttl s a x s' → follows s a s'.
Proof.
  intros Hok. destruct x as [[]|e]; cbn; [|by intros ((a' & Hx) & _); eapply since_follows].
  intros (s1 & t & a1 & m1 & log1 & m2 & log2 & Hag & Ho & _ & H1 & H2 & rd & cand & ch & now & Hle & Hr & Hm & Hobs & _ & Hs').
  eexists. split; [|exact Hs']. rewrite Hobs.
  eapply rtc_l; [apply (Passes _ (Some t))|]. { intros o Eo. exists t. split; [done|]. by apply Ho. }
  eapply rtc_l; [by apply (Lapses t t)|]. eapply rtc_l; [apply (Passes _ (Some (Clock.time rd)))|]. { intros o [= <-]. by exists (Clock.time rd). }
  apply rtc_once. eapply (Writes _ n renewal v ver ttl). by exists rd, cand, ch, m1, log1, m2, log2, now.
Qed.

Lemma idled_follows s a s' : idled limits_ s a s' → follows s a s'.
Proof. intros [[a' Hx] _]. by eapply since_follows. Qed.

Lemma stepped_follows id position s a s' : stepped limits_ id position s a s' → follows s a s'.
Proof.
  intros (m & log & Ha & Hle & Ho & _ & Hok). eexists. split; [|exact Hok]. rewrite Ho. apply rtc_once. by apply Steps.
Qed.

Lemma arrived_follows id n position repair fact s a s' : bounded fact → arrived limits_ id n position repair fact s a s' → follows s a s'.
Proof.
  intros Hb (s1 & t & a1 & m1 & log1 & m2 & log2 & combined & Hag & Ho & _ & H1 & H2 & Hacc & (t' & Hle & Ht' & _ & Hok)).
  eexists. split; [|exact Hok]. rewrite Ht'.
  eapply rtc_l; [apply (Passes _ (Some t))|]. { intros o Eo. exists t. split; [done|]. by apply Ho. }
  eapply rtc_l; [by apply (Lapses t t)|]. eapply rtc_l; [apply (Hears t id n position repair fact); by exists m1, log1, m2, log2, combined|].
  apply rtc_once. apply Passes. intros o [= <-]. by exists t'.
Qed.

Lemma passed_since s a s' a' : passed limits_ s a s' a' → since limits_ s a s' a'.
Proof. intros (now & H1 & H2 & H3 & H4). by eapply (since_time _ _ _ _ _ now now). Qed.

Lemma caught_since now s a s' a' : caught_up limits_ now s a s' a' → (∀ o, observed_ s = Some o → o <= now) → since limits_ s a s' a'.
Proof. intros [] Ho. by eapply (since_time _ _ _ _ _ now now). Qed.

Lemma served_follows {A} (Answer : expected A Failure → State → Ghost → Prop) s a x s' :
  served limits_ Answer s a x s' → follows s a s'.
Proof.
  intros [[_ [Hok [w Hw]]]|(now & a' & Ho & Hag & Ht & Hx)].
  - exists a. split; [|done]. apply rtc_once. subst s'. apply Passes. intros t Et. by exists t.
  - eapply (since_follows _ _ _ a'). destruct x as [y|]; [|by apply passed_since]. destruct Hx as [Hx _]. by eapply caught_since.
Qed.

Lemma execute_follows {A} exclusive (action : eff State (expected A Failure)) (Answer : expected A Failure → State → Ghost → Prop) s a :
  (∀ s a, state_ok limits_ None s a → wp Faulty action (λ x s', s' = s ∧ Answer x s a) (λ _ _, False) s) →
  state_ok limits_ None s a →
  wp Faulty (execute limits_ exclusive action) (served limits_ Answer s a) (refused_read limits_ s a) s.
Proof.
  intros Hact Hok. destruct exclusive; cbn [execute].
  - by apply (execute_round_wp limits_ HL).
  - eapply wp_mono; [by apply (execute_shared_wp limits_ action Answer)|done|by intros ? ? []].
Qed.

Lemma own_read_wp {A} (x : eff (Origin.Origin (Item := record)) A) s a m log :
  state_ok limits_ None s a → a Own = Some (m, log) →
  (∀ o, origin_ok (is_own Own) lim o m log → wp Faulty x (λ _ o', o' = o) (λ e o', e = bad_alloc ∧ o' = o) o) →
  wp Faulty (on_facts Own x) (λ _ s', s' = s) (λ e s', e = bad_alloc ∧ s' = s) s.
Proof.
  intros Hok Ha Hx. apply on_facts_wp. assert (Hsame : on_group Own (set_facts (facts (group_of Own s))) s = s) by (by destruct s as [? ? ? [] ? ? ?]).
  eapply wp_mono; [apply Hx; by eapply (facts_fit limits_)|..].
  - intros _ o' ->. done.
  - intros e o' [-> ->]. done.
Qed.

Definition answered_by s a (e : exn) s' : Prop := halt e ∧ follows s a s'.

(** After a request that returned. *)
Definition onward s a s' : Prop := follows s a s' ∧ ∀ sd, timely sd s → timely sd s'.

Lemma change_timely n renewal v ver ttl s a x s' :
  change_post limits_ n renewal v ver ttl s a x s' → ∀ sd, timely sd s → timely sd s'.
Proof.
  destruct x as [[]|e]; cbn; [|by intros []].
  intros (s1 & t & a1 & m1 & log1 & m2 & log2 & _ & _ & Ht & _ & _ & rd & cand & ch & now & _ & _ & _ & _ & Ht' & _) sd Hsd. by apply Ht', Ht.
Qed.

Lemma served_timely {A} (Answer : expected A Failure → State → Ghost → Prop) s a x s' :
  served limits_ Answer s a x s' → ∀ sd, timely sd s → timely sd s'.
Proof. intros [[_ [_ [w ->]]]|(now & a' & _ & _ & Ht & _)]; [by intros []|done]. Qed.

(** *** Requests about other Stars *)
Lemma request_wp {A} (x : eff State A) (Q : A → State → Prop) E s a :
  wp Faulty x Q E s → (∀ y s', Q y s' → onward s a s') → (∀ e s', E e s' → answered_by s a e s') →
  wp Faulty (x ;;; ret tt) (λ _ s', onward s a s') (answered_by s a) s.
Proof. intros Hx HQ HE. wp_step. eapply wp_mono; [exact Hx| |exact HE]. intros y s' Hy. wp_step. by eapply HQ. Qed.

Lemma idled_onward s a s' : idled limits_ s a s' → onward s a s'.
Proof. intros Hx. split; [by apply idled_follows|apply Hx]. Qed.
Lemma stepped_onward id position s a s' : stepped limits_ id position s a s' → onward s a s'.
Proof. intros Hx. split; [by eapply stepped_follows|]. by destruct Hx as (m & log & _ & _ & _ & Ht & _). Qed.
Lemma arrived_onward id n position repair fact s a s' : bounded fact → arrived limits_ id n position repair fact s a s' → onward s a s'.
Proof.
  intros Hb Hx. split; [by eapply arrived_follows|]. destruct Hx as (s1 & t & a1 & m1 & log1 & m2 & log2 & combined & _ & _ & Ht & _ & _ & _ & (t' & _ & _ & Ht' & _)).
  intros sd Hsd. by apply Ht', Ht.
Qed.
Lemma admitted_onward id s a s' : admitted_to limits_ id s a s' → onward s a s'.
Proof. intros (Ha & Ho & Ht & Hok). split; [|done]. eexists. split; [|exact Hok]. rewrite Ho. apply rtc_once. by apply Admits. Qed.

Lemma receive_request_wp same id position sc k fact form repair s a :
  state_ok limits_ None s a → bounded fact →
  wp Faulty (receive limits_ same id position sc k fact form repair ;;; ret tt) (λ _ s', onward s a s') (answered_by s a) s.
Proof.
  intros Hok Hb. pose proof (idled_onward s a s (idled_refl limits_ s a Hok)) as Hself.
  eapply request_wp; [apply (receive_wp limits_ HL same id position sc k fact form repair s a Hok); by intros r ->|..].
  - intros [[[]|]|] s' Hx; cbn [receive_post] in Hx; [|by apply idled_onward..]. destruct Hx as (m & log & _ & [[_ E]|[_ [[_ Hx]|[_ Hx]]]]);
      [by subst s'| |by eapply arrived_onward]. destruct repair; [by subst s'|]. by eapply stepped_onward, Hx.
  - intros e s' (He & a' & Hx). split; [done|]. by eapply since_follows.
Qed.

Definition about_sources (q : request) : Prop :=
  match q with
  | Admit _ | Retire _ | Received _ _ | Replica _ _ _ _ | Resolve _ _ | Prepare _ _ _ | Covered _ _ _ _ _ | Apply _ _ _ _ _ _ _
  | Repair _ _ _ _ _ _ | Finish _ _ _ => True
  | _ => False
  end.

Lemma serve_sources_wp q s a :
  about_sources q → proper q → state_ok limits_ None s a → wp Faulty (serve q) (λ _ s', onward s a s') (answered_by s a) s.
Proof.
  intros Hs Hq Hok. pose proof (idled_onward s a s (idled_refl limits_ s a Hok)) as Hself. assert (Hhalt : halt bad_alloc) by (by left; left).
  destruct q as [| | | | | | | | |id|id|same id|same id sc k|sc k|same id position|same id position sc k|same id position sc k fact form
    |same id position sc k fact|same id position]; try done; cbn [serve].
  - eapply request_wp; [by apply (admit_wp limits_ HL id s a)|..].
    + intros x s' [Hx|[_ Hx]]; [by apply idled_onward|by eapply admitted_onward].
    + intros e s' [-> ->]. by split; [|apply Hself].
  - eapply wp_mono; [by apply (retire_wp limits_ id s a)| |done]. intros x s' Hx. by apply idled_onward.
  - eapply request_wp; [by apply (received_wp limits_ same id s a)|by intros x s' [-> _]|done].
  - eapply request_wp; [by apply (replica_find_wp limits_ same id sc k s a)|by intros x s' [-> _]|done].
  - eapply request_wp; [by apply (resolve_wp limits_ sc k s a)|by intros x s' [-> _]|done].
  - eapply request_wp; [by apply (source_prepare_wp limits_ HL same id position s a)|by intros x s' ->|]. intros e s' [-> ->]. by split; [|apply Hself].
  - eapply request_wp; [by apply (covered_wp limits_ HL same id position sc k s a)|..].
    + intros x s' [Hx|[_ Hx]]; [by apply idled_onward|by eapply stepped_onward].
    + intros e s' [He Hx]. split; [by left|by apply idled_follows].
  - by apply receive_request_wp.
  - by apply receive_request_wp.
  - eapply request_wp; [by apply (finish_wp limits_ same id position s a)| |done].
    intros x s' [Hx|[_ Hx]]; [by apply idled_onward|by eapply stepped_onward].
Qed.

Lemma serve_wp q s a : proper q → state_ok limits_ None s a → wp Faulty (serve q) (λ _ s', onward s a s') (answered_by s a) s.
Proof.
  intros Hq Hok. assert (Hself : onward s a s) by (split; [eapply since_follows; by apply since_refl|done]).
  destruct (proj2 (ou_there _ _ _ (st_outside _ _ _ _ Hok) Own) I) as [[m log] Ha].
  assert (Hhalt : halt bad_alloc) by (by left; left).
  assert (Hchange : ∀ sc k v ver ttl renewal, wp Faulty (change limits_ sc k v ver ttl renewal;;; ret tt) (λ _ s', onward s a s') (answered_by s a) s).
  { intros. wp_step. eapply wp_mono; [by apply (catalog_change_wp limits_ HL _ _ _ _ _ _ s a)|..].
    - intros x s' Hx. wp_step. split; [by eapply change_follows|by eapply change_timely].
    - intros e s' (He & a' & Hs). split; [done|]. by eapply since_follows. }
  assert (Hexec : ∀ A exclusive (action : eff State (expected A Failure)) (Answer : expected A Failure → State → Ghost → Prop),
    (∀ s a, state_ok limits_ None s a → wp Faulty action (λ x s', s' = s ∧ Answer x s a) (λ _ _, False) s) →
    wp Faulty (execute limits_ exclusive action;;; ret tt) (λ _ s', onward s a s') (answered_by s a) s).
  { intros A exclusive action Answer Hact. wp_step. eapply wp_mono; [by apply (execute_follows exclusive action Answer)|..].
    - intros x s' Hx. wp_step. split; [by eapply served_follows|by eapply served_timely].
    - intros e s' (He & a' & Hs). split; [done|]. by eapply since_follows, passed_since. }
  assert (Hread : ∀ A (x : eff (Origin.Origin (Item := record)) A) (Q : A → State → Prop),
    (∀ o, origin_ok (is_own Own) lim o m log → wp Faulty x (λ _ o', o' = o) (λ e o', e = bad_alloc ∧ o' = o) o) →
    (∀ y, Q y s) → wp Faulty (on_facts Own x) Q (answered_by s a) s).
  { intros A x Q Hx HQ. eapply wp_mono; [by eapply own_read_wp|..]; [intros y s' ->; apply HQ|]. intros e s' [-> ->]. split; [done|apply Hself]. }
  destruct q as [sc k v ver ttl|sc k ver ttl| |ex sc|ex sc k|ex sc since| |since|since count budget| | | | | | | | | |];
    try (by apply serve_sources_wp); cbn [serve].
  - apply Hchange.
  - apply Hchange.
  - wp_step. eapply wp_mono; [by apply (tick_round_wp limits_ HL s a)|..].
    + intros x s' [->|(a' & now & Ho & Hc)]; wp_step; [done|]. split; [by eapply since_follows, caught_since|apply Hc].
    + intros e s' [He [[Hs [w ->]]|[a' Hp]]]; (split; [done|]); [|by eapply since_follows, passed_since].
      eapply since_follows, since_world; [done|]. apply Hs.
  - unfold CatalogState.capture. destruct (negb _); [by repeat wp_step|]. eapply Hexec, capture_action_wp.
  - unfold CatalogState.find. destruct (_ || _); [by repeat wp_step|]. eapply Hexec, find_action_wp.
  - unfold CatalogState.changes. destruct (negb _); [by repeat wp_step|]. eapply Hexec. intros. by eapply changes_action_wp.
  - wp_step. apply Hread; [|by intros y; wp_step]. intros o Ho. unfold Origin.capture. apply origin_idle_wp; [apply Ho|]. by wp_step.
  - unfold own_events, refusing. wp_step. wp_step. apply Hread; [|intros y; by repeat wp_step]. intros o Ho. apply pure_wp. intros f.
    destruct (replay_holds true lim o {| rows := m; log := log |} since f Ho eq_refl Hq) as (r & Hr & _). by exists r.
  - unfold own_delivery, refusing. wp_step. wp_step. apply Hread; [|intros y; by repeat wp_step]. intros o Ho. unfold Origin.deliver.
    apply origin_idle_wp; [apply Ho|]. wp_step. wp_step. apply wp_if; intros _; [by wp_step|]. apply wp_if; intros _; [by wp_step|].
    apply wp_if; intros _; [by wp_step|]. apply wp_if; intros _.
    + wp_step. unfold Origin.capture. apply origin_idle_wp; [apply Ho|]. by repeat wp_step.
    + destruct (gather _ _ _ _ _); [|by wp_step]. wp_step. by wp_step; [wp_step|].
Qed.

(** ** Own facts are served *)

(** At [t], the merged record [r'] stands for the fact [r]. *)
Definition covers (t : Z) (r r' : record) : Prop :=
  version r < version r' ∨
  (version r = version r' ∧ ∀ d, deadline r = Some d → t < d → value r' = value r ∧ ∃ d', deadline r' = Some d' ∧ d <= d').

Record serving (z : option Z * Ghost) : Prop := {
  sv_bounded : ∀ sd x n, z.2 sd = Some x → bounded (x.1 !! n);
  sv_covers : ∀ sd x1 x2 n r, z.2 sd = Some x1 → z.2 All = Some x2 → x1.1 !! n = Some r →
    ∃ t r', z.1 = Some t ∧ x2.1 !! n = Some r' ∧ covers t r r'
}.

Lemma vacant_serving : serving (None, vacant).
Proof.
  split; cbn.
  - intros sd x n Hx y d Hy. destruct sd; simplify_eq/=.
  - intros sd x1 x2 n r Hx _ Hr. destruct sd; simplify_eq/=.
Qed.

Lemma covers_later t t' r r' : t <= t' → covers t r r' → covers t' r r'.
Proof. intros Ht [Hv|[Hv Hd]]; [by left|]. right. split; [done|]. intros d E Hlt. apply Hd; [done|lia]. Qed.

Lemma lapsed_bounded now m m' n : lapsed now m m' → bounded (m !! n) → bounded (m' !! n).
Proof. intros Hl Hb x d Hx Hd. destruct (Hl n) as [E|(r & d' & _ & _ & _ & E)]; rewrite E in Hx; [by eapply Hb|]. by injection Hx as <-. Qed.

(** A lapse of either record leaves the other one covered. *)
Lemma lapsed_covers now t m1 m1' m2 m2' n r :
  now <= t → lapsed now m1 m1' → lapsed now m2 m2' → m1' !! n = Some r →
  (∀ r, m1 !! n = Some r → ∃ r', m2 !! n = Some r' ∧ covers t r r') → ∃ r', m2' !! n = Some r' ∧ covers t r r'.
Proof.
  intros Hle H1 H2 Hr Hc.
  assert (Hx : ∃ r0, m1 !! n = Some r0 ∧ (r = r0 ∨ r = watermark r0)).
  { destruct (H1 n) as [E|(r0 & d & E & _ & _ & E')]; [exists r; rewrite <- E; by split; [|left]|]. exists r0. rewrite E' in Hr. injection Hr as <-. by split; [|right]. }
  destruct Hx as (r0 & E0 & Hr0). destruct (Hc r0 E0) as (r' & E' & Hcov).
  assert (Hcov' : covers t r r') by (destruct Hr0 as [->| ->]; [done|]; destruct Hcov as [?|[? _]]; [by left|right; by split]).
  destruct (H2 n) as [E|(r1 & d' & E1 & Hd' & Hle' & E)]; [exists r'; by rewrite E|]. rewrite E' in E1. injection E1 as <-.
  exists (watermark r'). split; [done|]. destruct Hcov' as [Hv|[Hv Hd]]; [by left|]. right. split; [done|]. intros d E2 Hlt.
  destruct (Hd d E2 Hlt) as (_ & d2 & E3 & Hle2). rewrite Hd' in E3. injection E3 as <-. lia.
Qed.

Lemma covers_refl t r : covers t r r.
Proof. right. split; [done|]. intros d Hd _. split; [done|]. by exists d. Qed.

Lemma covers_expire t r r' : covers t r r' → covers t r (Catalog.expire r' t).
Proof.
  unfold Catalog.expire. destruct (deadline r') as [d'|] eqn:E; [|done]. destruct (Z.leb_spec d' t); [|done]. intros [Hv|[Hv Hd]]; [by left|]. right.
  split; [done|]. intros d Ed Hlt. destruct (Hd d Ed Hlt) as (_ & d2 & E2 & Hle). rewrite E in E2. injection E2 as <-. lia.
Qed.

(** The merged record stands for the new fact and for every fact the known one stood
    for. *)
Lemma merge_covers known r t ch :
  Catalog.merge known r t = Expected ch → covers t r (changed ch) ∧ ∀ c r0, known = Some c → covers t r0 c → covers t r0 (changed ch).
Proof.
  intros Hm. pose proof (covers_expire t r r (covers_refl t r)) as Hself. unfold Catalog.merge in Hm. destruct (_ || _) eqn:Eg; [done|].
  apply orb_false_iff in Eg as [Eg _]. apply negb_false_iff, valid_both_spec in Eg as [Vk Vr]. specialize (Vr r eq_refl).
  destruct (match known with Some _ => _ | None => _ end) eqn:Ec; [done|]. injection Hm as <-. cbn [changed]. destruct known as [c|]; [|done].
  specialize (Vk c eq_refl). assert (Hver : version (Catalog.expire c t) = version c) by (unfold Catalog.expire; destruct (deadline c); [by destruct (_ <=? _)|done]).
  assert (Hver' : version (Catalog.expire r t) = version r) by (unfold Catalog.expire; destruct (deadline r); [by destruct (_ <=? _)|done]).
  destruct (Z.ltb_spec (version c) (version r)) as [Hlt|Hge].
  { split; [done|]. intros c' r0 [= <-] Hc. left. destruct Hc as [?|[? _]]; lia. }
  destruct (expire_live r t Vr) as [[(br & dr & Hbr & Hdr & Hltr) Er]|[Hdead Er]]; rewrite Er in *; cbn [value version deadline].
  2: { rewrite andb_false_r. split; [|intros c' r0 [= <-]; apply covers_expire]. unfold covers. rewrite Hver. destruct (Z.eq_dec (version r) (version c)) as [Ev|]; [|left; lia].
    right. split; [done|]. intros d Hd Hlt. destruct Hdead. destruct (valid_shape r Vr) as [_ [[_ E]|(b & d' & E1 & E2 & _)]]; [congruence|]. exists b, d. by split_and!. }
  rewrite bool_decide_eq_true_2 by (rewrite Hbr; by eexists). rewrite andb_true_r. destruct (Z.eqb_spec (version r) (version c)) as [Ev|Nv].
  2: { split; [left; lia|]. intros c' r0 [= <-]. apply covers_expire. }
  destruct (expire_live c t Vk) as [[(bc & dc & Hbc & Hdc & Hltc) Ecx]|[Hdead Ecx]]; rewrite Ecx in *; cbn [value version deadline].
  - rewrite bool_decide_eq_true_2 by (rewrite Hbc; by eexists). cbn [negb]. rewrite Ev, Z.eqb_refl, Hbc, Hbr in Ec. cbn in Ec. apply differ_false in Ec.
    rewrite Hdc, Hdr. cbn [default max_deadline]. split.
    + right. split; [done|]. intros d Hd _. rewrite Hdr in Hd. injection Hd as <-. split; [cbn; congruence|]. eexists. split; [done|]. cbn. lia.
    + intros c' r0 [= <-] [Hv|[Hv Hd]]; [by left|]. right. split; [done|]. intros d E Hlt. destruct (Hd d E Hlt) as (V1 & d2 & E2 & Hle).
      split; [cbn; congruence|]. rewrite Hdc in E2. injection E2 as <-. eexists. split; [done|]. cbn. lia.
  - rewrite bool_decide_eq_false_2 by (by intros []). cbn [negb]. split; [apply covers_refl|]. intros c' r0 [= <-] [Hv|[Hv Hd]]. { left. lia. }
    right. split; [lia|]. intros d E Hlt. destruct (Hd d E Hlt) as (V1 & d2 & E2 & Hle).
    destruct Hdead. destruct (valid_shape c Vk) as [_ [[_ X]|(b & d' & X1 & X2 & _)]]; [congruence|]. exists b, d2. split_and!; [done|done|lia].
Qed.

(** One fact of a source and its merging. *)
Lemma serving_merged t a sd m1 log1 m2 log2 n r ch log1' :
  serving (Some t, a) → sd ≠ All → a sd = Some (m1, log1) → a All = Some (m2, log2) → bounded (Some r) →
  Catalog.merge (m2 !! n) r t = Expected ch →
  serving (Some t, upd sd (<[n := r]> m1, log1') (upd All (<[n := changed ch]> m2, log2) a)).
Proof.
  intros [Sb Sc] Hsd H1 H2 Hb Hm. destruct (merge_covers _ _ _ _ Hm) as [C1 C2].
  destruct (merge_shape _ _ _ _ Hm (Sb All _ n H2) Hb) as (_ & Hb' & _ & _). split; cbn [fst snd].
  - intros sd' x n'. unfold upd. destruct (decide (sd' = sd)) as [->|]; [|destruct (decide (sd' = All)) as [->|]; [|by apply Sb]]; intros [= <-]; cbn [fst];
      (destruct (decide (n' = n)) as [->|]; [by rewrite lookup_insert_eq|rewrite lookup_insert_ne by done]).
    + exact (Sb sd _ n' H1).
    + exact (Sb All _ n' H2).
  - intros sd' x1 x2 n' r'. unfold upd. rewrite (decide_False (P := All = sd)), (decide_True (P := All = All)) by congruence.
    assert (Hold : ∀ sd' y, a sd' = Some y → y.1 !! n' = Some r' → ∃ t' r'', Some t = Some t' ∧ <[n := changed ch]> m2 !! n' = Some r'' ∧ covers t' r' r'').
    { intros sd'' y Hy Hr'. destruct (Sc sd'' y _ n' r' Hy H2 Hr') as (t' & r'' & [= <-] & E & Hc). cbn in E. exists t. destruct (decide (n' = n)) as [->|].
      - exists (changed ch). rewrite lookup_insert_eq. split_and!; try done. by eapply C2.
      - exists r''. by rewrite lookup_insert_ne. }
    intros Hx [= <-] Hr'. cbn [fst]. destruct (decide (sd' = sd)) as [->|]; [|destruct (decide (sd' = All)) as [->|]; [|by eapply Hold]].
    + injection Hx as <-. cbn in Hr'. destruct (decide (n' = n)) as [->|].
      * rewrite lookup_insert_eq in Hr'. injection Hr' as <-. exists t, (changed ch). by rewrite lookup_insert_eq.
      * rewrite lookup_insert_ne in Hr' by done. by eapply (Hold sd).
    + injection Hx as <-. cbn in Hr'. exists t, r'. split_and!; [done|done|apply covers_refl].
Qed.

(** A source that says nothing new. *)
Lemma serving_less o a sd x' :
  serving (o, a) → sd ≠ All → (∀ n r, x'.1 !! n = Some r → ∃ x, a sd = Some x ∧ x.1 !! n = Some r) → serving (o, upd sd x' a).
Proof.
  intros [Sb Sc] Hsd Hx. split; cbn [fst snd].
  - intros sd' x n. unfold upd. destruct (decide (sd' = sd)) as [->|]; [|by apply Sb]. intros [= <-] r d Hr. destruct (Hx n r Hr) as (y & Hy & Hyr). by apply (Sb sd y n Hy).
  - intros sd' x1 x2 n r. unfold upd. rewrite (decide_False (P := All = sd)) by congruence. destruct (decide (sd' = sd)) as [->|]; [|by apply Sc].
    intros [= <-] H2 Hr. destruct (Hx n r Hr) as (y & Hy & Hyr). by eapply (Sc sd).
Qed.

Lemma evolves_serving z z' : evolves z z' → serving z → serving z'.
Proof.
  intros Hev Hsv. pose proof Hsv as [Sb Sc].
  destruct Hev as [o o' a Ho|t now a a' Hle Hag|t n renewal v ver ttl a a' Hw|t id n position repair fact a a' Hh|o id a Ha|o id position m log a Ha _]; cbn in Sb, Sc.
  - split; cbn; [done|]. intros sd x1 x2 n r H1 H2 H3. destruct (Sc sd x1 x2 n r H1 H2 H3) as (t & r' & -> & E & Hc).
    destruct (Ho t eq_refl) as (t' & -> & Hle). exists t', r'. split_and!; try done. by eapply covers_later.
  - split; cbn.
    + intros sd x n Hx. specialize (Hag sd). rewrite Hx in Hag. destruct (a sd) as [y|] eqn:Ey; [|done]. destruct Hag as [Hl _].
      eapply lapsed_bounded; [exact Hl|by eapply Sb].
    + intros sd x1 x2 n r H1 H2 Hr. pose proof (Hag sd) as A1. pose proof (Hag All) as A2. rewrite H1 in A1. rewrite H2 in A2.
      destruct (a sd) as [y1|] eqn:E1; [|done]. destruct (a All) as [y2|] eqn:E2; [|done]. destruct A1 as [L1 _], A2 as [L2 _].
      destruct (lapsed_covers now t _ _ _ _ n r Hle L1 L2 Hr) as (r' & E' & Hc); [|by exists t, r'].
      intros r0 Hr0. destruct (Sc sd y1 y2 n r0 E1 eq_refl Hr0) as (t' & r' & [= <-] & E' & Hc). by exists r'.
  - destruct Hw as (rd & cand & ch & m1 & log1 & m2 & log2 & now & <- & H1 & H2 & Hr & Hm & ->).
    destruct (rule_shape _ _ _ _ _ _ _ _ (Sb Own (m1, log1) n H1) Hr) as (_ & _ & (b & d & _ & E & Hlt) & _ & _ & _).
    eapply serving_merged; try done. intros x d' [= <-] E'. rewrite E in E'. injection E' as <-. lia.
  - destruct Hh as (m1 & log1 & m2 & log2 & combined & Hb & H1 & H2 & (_ & _ & _ & Hc) & ->). unfold received_after, merged_after. destruct fact as [r|].
    + destruct Hc as (ch & -> & Hv & Hm). by eapply serving_merged; try done; apply expire_bounded.
    + subst combined. cbn. apply serving_less; [|done|].
      * destruct Hsv as [X1 X2]. cbn in X1, X2. assert (Hsame : ∀ sd, upd All (m2, log2) a sd = a sd) by (by apply upd_same).
        split; cbn; intros sd; setoid_rewrite Hsame; [apply X1|apply X2].
      * intros n' r Hr. cbn in Hr. exists (m1, log1). split; [unfold upd; by rewrite decide_False|]. by apply lookup_delete_Some in Hr as [_ Hr].
  - apply serving_less; [done|done|]. intros n r. cbn. by rewrite lookup_empty.
  - apply serving_less; [done|done|]. intros n r Hr. by exists (m, log).
Qed.

(** ** Histories *)

(** Every request of the list returned. *)
Fixpoint returned s (qs : list (request * faults)) : Prop :=
  match qs with
  | [] => True
  | q :: qs => (match serve q.1 s q.2 with (Done _, _, _) => True | _ => False end) ∧ returned (step s q) qs
  end.

Lemma step_follows s a q : proper q.1 → state_ok limits_ None s a → follows s a (step s q).
Proof.
  intros Hq Hok. pose proof (serve_wp q.1 s a Hq Hok q.2 I) as Hs. unfold step.
  destruct (serve q.1 s q.2) as [[[[]|e] s'] f']; destruct Hs as [_ Hs]; apply Hs.
Qed.

Lemma run_follows qs s a : Forall (λ q, proper q.1) qs → state_ok limits_ None s a → follows s a (foldl step s qs).
Proof.
  revert s a. induction qs as [|q qs IH]; intros s a Hqs Hok; cbn; [eapply since_follows; by apply since_refl|].
  apply Forall_cons in Hqs as [Hq Hqs]. destruct (step_follows s a q Hq Hok) as (a1 & E1 & Hok1).
  destruct (IH _ a1 Hqs Hok1) as (a2 & E2 & Hok2). exists a2. split; [by etrans|done].
Qed.

Lemma run_timely qs s a sd :
  Forall (λ q, proper q.1) qs → state_ok limits_ None s a → returned s qs → timely sd s → timely sd (foldl step s qs).
Proof.
  revert s a. induction qs as [|q qs IH]; intros s a Hqs Hok Hret Ht; cbn; [done|]. apply Forall_cons in Hqs as [Hq Hqs]. destruct Hret as [Hd Hret].
  destruct (step_follows s a q Hq Hok) as (a1 & _ & Hok1). apply (IH _ a1); try done.
  pose proof (serve_wp q.1 s a Hq Hok q.2 I) as Hs. unfold step. destruct (serve q.1 s q.2) as [[[[]|e] s'] f']; [|done].
  destruct Hs as [_ [_ Hs]]. by apply Hs.
Qed.

Section histories.
Context (w : World) (Hw : typed w) (s0 : State) (Hs0 : start limits_ w = Done s0).
Context (qs : list (request * faults)) (Hqs : Forall (λ q, proper q.1) qs).
Abbreviation s := (foldl step s0 qs).

Lemma catalog_run_ok : ∃ a m1 log1 m2 log2, rtc evolves (None, vacant) (observed_ s, a) ∧ state_ok limits_ None s a ∧
  a Own = Some (m1, log1) ∧ a All = Some (m2, log2) ∧ serving (observed_ s, a).
Proof.
  pose proof (start_ok w s0 Hw Hs0) as Hok. destruct (run_follows qs s0 vacant Hqs Hok) as (a & Hev & Hs).
  assert (Ho : observed_ s0 = None).
  { unfold start in Hs0. destruct (Origin.make lim); [|done]. by injection Hs0 as <-. }
  rewrite Ho in Hev. destruct (proj2 (ou_there _ _ _ (st_outside _ _ _ _ Hs) Own) I) as [[m1 log1] H1].
  destruct (proj2 (ou_there _ _ _ (st_outside _ _ _ _ Hs) All) I) as [[m2 log2] H2]. exists a, m1, log1, m2, log2. split_and!; try done.
  clear -Hev. remember (None, vacant) as z0 eqn:Ez. remember (observed_ s, a) as z1 eqn:Ez1. clear Ez1.
  assert (Hz : serving z0) by (rewrite Ez; apply vacant_serving). clear Ez. induction Hev as [|x y z Hxy _ IH]; [done|]. by eapply IH, evolves_serving.
Qed.

(** C3. The Catalog of a Star refines maps of versioned facts.  Take any sequence of
    writes, renewals, ticks and reads of its clients, of Stars admitted and retired
    and of facts, repairs and positions received from them, with any answers of the
    clock and any failing allocation.  What the state stands for, the facts of every
    source with their positions and the facts merged over all sources, has evolved by
    lapses of records whose deadline has come and by whole writes and receipts only;
    every source holds exactly these facts, every lease and nothing else has its
    timer, each public scope shows exactly the payloads of the merged facts, its
    notified changes add up to them, and the totals stay within the limits.  No
    request ever reaches a branch the code holds to be impossible. *)
Theorem catalog_refines :
  ∃ a m2 log2,
    rtc evolves (None, vacant) (observed_ s, a) ∧ a All = Some (m2, log2) ∧ (∀ sd, is_Some (a sd) ↔ present sd s) ∧
    (∀ sd m log, a sd = Some (m, log) →
       (∀ n, found (facts (group_of sd s)) n = m !! n) ∧ position_ (facts (group_of sd s)) = place log ∧
       ∀ n, n ∈ timers (group_of sd s) ↔ is_Some (lease_of deadline m n)) ∧
    (∀ sc k f, ∃ f', find_action sc k s f = (Done (Expected (content_of m2 sc k, cursor sc s)), s, f')) ∧
    (∀ sc k, shown (Stage.told sc (notices (stage_ s))) !! k = content_of m2 sc k) ∧
    Stage.scopes_ (stage_ s) <= scopes_limit limits_ ∧ Stage.history_ (stage_ s) <= history_limit limits_ ∧
    replica_bytes_ s = remote_load (replicas_ s) ∧ replica_bytes_ s <= replica_bytes_limit limits_ ∧
    (∀ q f, proper q → match serve q s f with (Thrown e, _, _) => halt e | _ => True end).
Proof.
  destruct catalog_run_ok as (a & m1 & log1 & m2 & log2 & Hev & Hok & H1 & H2 & _). exists a, m2, log2.
  pose proof (st_stage _ _ _ _ Hok) as Hst. pose proof (ou_bytes _ _ _ (st_outside _ _ _ _ Hok)) as [Hb1 Hb2].
  assert (Hshow : ∀ sc k, showing a sc k = content_of m2 sc k) by (intros; unfold showing; by rewrite H2).
  split_and!; try done.
  - intros sd. apply (ou_there _ _ _ (st_outside _ _ _ _ Hok)).
  - intros sd m log Ha. pose proof (group_fits _ _ _ _ Hok _ _ _ Ha) as G. pose proof (go_facts _ _ _ _ _ _ G) as Ho.
    split_and!; [intros n; apply (found_ok _ _ _ _ _ n Ho)| |apply (go_timers _ _ _ _ _ _ G)]. destruct Ho as (_ & Hj & _). apply (jo_place _ _ _ _ Hj).
  - intros sc k f. pose proof (find_action_wp limits_ sc k s a Hok f I) as Hf.
    destruct (find_action sc k s f) as [[[x|e] s'] f']; destruct Hf as [_ Hf]; [|done]. destruct Hf as [-> ->]. exists f'. by rewrite Hshow.
  - intros sc k. rewrite (sg_shows _ _ _ _ _ Hst). apply Hshow.
  - apply Hst.
  - apply Hst.
  - intros q f Hq. pose proof (serve_wp q s a Hq Hok f I) as Hs. destruct (serve q s f) as [[[x|e] s'] f']; [done|]. by destruct Hs as (_ & Hs & _).
Qed.

(** C25. A Star serves the facts it knows.  After any such history, a fact of this Star
    or of an admitted one whose deadline is still ahead of the latest instant the
    clock has shown is public with its version and payload, unless a higher version
    of the same key is known, and is not withdrawn before its deadline. *)
Theorem catalog_serves (sd : side) (n : Name) (r : record) (d t : Z) :
  found (facts (group_of sd (foldl step s0 qs))) n = Some r → deadline r = Some d → observed_ s = Some t → t < d →
  ∃ r', found (facts (all_ s)) n = Some r' ∧
    (version r < version r' ∨
     ((∃ d', deadline r' = Some d' ∧ d <= d') ∧
      ∀ f, ∃ c f', find_action (Origin.scope n) (Origin.key n) s f = (Done (Expected (Some (content r), c)), s, f'))).
Proof.
  intros Hr Hd Ht Hlt. destruct catalog_run_ok as (a & _ & _ & m2 & log2 & _ & Hok & _ & H2 & [_ Hsv]).
  destruct (a sd) as [[m1 log1]|] eqn:H1.
  2: { assert (Hno : ¬ present sd s) by (intros Hp%(ou_there _ _ _ (st_outside _ _ _ _ Hok)); rewrite H1 in Hp; by destruct Hp).
    destruct sd as [| |id]; [by destruct Hno..|]. cbn in Hr, Hno. destruct (replicas_ s !! id); [by destruct Hno; eexists|done]. }
  pose proof (group_fits _ _ _ _ Hok _ _ _ H1) as G1. pose proof (group_fits _ _ _ _ Hok _ _ _ H2) as G2.
  assert (F1 : found (facts (group_of sd s)) n = m1 !! n) by apply (found_ok _ _ _ _ _ n (go_facts _ _ _ _ _ _ G1)).
  assert (F2 : found (facts (all_ s)) n = m2 !! n) by apply (found_ok _ _ _ _ _ n (go_facts _ _ _ _ _ _ G2)). rewrite F1 in Hr. rewrite F2.
  destruct (Hsv _ _ _ n r H1 H2 Hr) as (t' & r' & Et & Er & Hc). cbn in Et, Er. rewrite Ht in Et. injection Et as <-. exists r'. split; [done|].
  destruct Hc as [?|[Hv Hc]]; [by left|]. right. destruct (Hc d Hd Hlt) as [Hval Hd']. split; [done|]. intros f.
  pose proof (find_action_wp limits_ (Origin.scope n) (Origin.key n) s a Hok f I) as Hf.
  destruct (find_action _ _ s f) as [[[x|e] s'] f']; destruct Hf as [_ Hf]; [|done]. destruct Hf as [-> ->]. eexists _, f'. do 3 f_equal.
  unfold showing. rewrite H2. cbn. unfold content_of. replace {| Origin.scope := Origin.scope n; Origin.key := Origin.key n |} with n by (by destruct n).
  pose proof (go_sound _ _ _ _ _ _ G1 n r Hr) as Hsound. destruct (valid_shape r Hsound) as [_ [[_ E]|(b & d0 & E & _)]]; [congruence|].
  rewrite Er. cbn. rewrite Hval, E. cbn. unfold content. by rewrite Hv, E.
Qed.

(** Every fact of a source is covered by the merged one. *)
Lemma held_covered a sd n r :
  state_ok limits_ None s a → serving (observed_ s, a) → found (facts (group_of sd s)) n = Some r →
  ∃ t r', observed_ s = Some t ∧ found (facts (group_of All s)) n = Some r' ∧ covers t r r'.
Proof.
  intros Hok [_ Hsv] Hr. destruct (a sd) as [[m1 log1]|] eqn:H1.
  2: { assert (Hno : ¬ present sd s) by (intros Hp%(ou_there _ _ _ (st_outside _ _ _ _ Hok)); rewrite H1 in Hp; by destruct Hp).
    destruct sd as [| |id]; [by destruct Hno..|]. cbn in Hr, Hno. destruct (replicas_ s !! id); [by destruct Hno; eexists|done]. }
  destruct (proj2 (ou_there _ _ _ (st_outside _ _ _ _ Hok) All) I) as [[m2 log2] H2].
  pose proof (found_ok _ _ _ _ _ n (go_facts _ _ _ _ _ _ (group_fits _ _ _ _ Hok _ _ _ H1))) as F1. cbn [fst] in F1.
  pose proof (found_ok _ _ _ _ _ n (go_facts _ _ _ _ _ _ (group_fits _ _ _ _ Hok _ _ _ H2))) as F2. cbn [fst] in F2.
  rewrite F1 in Hr. rewrite F2. exact (Hsv _ _ _ n r H1 H2 Hr).
Qed.

(** C24. Reads are exact to one tick.  After any history whose requests all returned, a
    point read answered at instant [now], on the shared path or with the expiry
    brought up to date, returns the merged payload of every key whose deadline is
    still ahead, and returns no payload whose deadline passed 10 ms ago or more; what
    it returns is the payload of the highest version any source has: no source, this Star
    included, holds a higher version of the key, and one that holds the same version with
    its deadline still ahead holds this very payload. *)
Theorem catalog_timely (exclusive : bool) (sc : Scope) (k : string) (f : faults) :
  returned s0 qs →
  match CatalogState.find limits_ exclusive sc k s f with
  | (Done (Some (Expected (c, _))), s', _) =>
      ∃ now, observed_ s' = Some now ∧
        (∀ r d, found (facts (all_ s)) {| Origin.scope := sc; Origin.key := k |} = Some r → deadline r = Some d → now < d →
           c = Some (content r)) ∧
        (∀ x, c = Some x → ∃ r d, found (facts (all_ s)) {| Origin.scope := sc; Origin.key := k |} = Some r ∧
           deadline r = Some d ∧ x = content r ∧ now - interval < d ∧
           ∀ sd r1, found (facts (group_of sd s)) {| Origin.scope := sc; Origin.key := k |} = Some r1 →
             version r1 <= version r ∧ (∀ d1, version r1 = version r → deadline r1 = Some d1 → now < d1 → x = content r1))
  | _ => True
  end.
Proof.
  intros Hret. destruct catalog_run_ok as (a & m1 & log1 & m2 & log2 & _ & Hok & H1 & H2 & Hsv). pose proof (start_ok w s0 Hw Hs0) as Hok0.
  assert (Ht : timely All s).
  { eapply run_timely; try done. intros wh fr. unfold start in Hs0. destruct (Origin.make lim); [|done]. by injection Hs0 as <-. }
  set (n := {| Origin.scope := sc; Origin.key := k |}). pose proof (group_fits _ _ _ _ Hok _ _ _ H2) as G2.
  assert (F2 : found (facts (all_ s)) n = m2 !! n) by apply (found_ok _ _ _ _ _ n (go_facts _ _ _ _ _ _ G2)). rewrite F2. unfold CatalogState.find. destruct (_ || _); [done|].
  pose proof (execute_follows exclusive (find_action sc k) (point_answer sc k) s a (λ s a, find_action_wp limits_ sc k s a) Hok f I) as Hx.
  destruct (execute _ _ _ _ _) as [[[[[[c cur]|]|]|] s'] f']; try done. destruct Hx as [_ [[E _]|(now & a' & Hnow & _ & Htl & [Hc1 Hc2 Hc3 Hc4 Hc5] & Hans)]]; [done|].
  injection Hans as -> ->. exists now. split; [done|]. pose proof (Hc2 All) as Hall. rewrite H2 in Hall.
  destruct (proj2 (ou_there _ _ _ (st_outside _ _ _ _ Hc1) All) I) as [[m2' log2'] Ha']. rewrite Ha' in Hall. destruct Hall as [Hl _]. cbn [fst] in Hl.
  unfold showing. rewrite Ha'. cbn. fold n. split.
  - intros r d Hr Hd Hlt. assert (Hr' : m2' !! n = Some r).
    { destruct (Hl n) as [->|(r0 & d0 & E0 & Ed & Hle & _)]; [done|]. rewrite Hr in E0. injection E0 as <-. rewrite Hd in Ed. injection Ed as <-. lia. }
    destruct (valid_shape r (go_sound _ _ _ _ _ _ G2 n r Hr)) as [_ [[_ E]|(b & d0 & E & _)]]; [congruence|].
    unfold content_of. fold n. rewrite Hr'. cbn. rewrite E. cbn. unfold content. by rewrite E.
  - intros x. unfold content_of. fold n. destruct (m2' !! n) as [r|] eqn:Er; [|done]. cbn. destruct (value r) as [b|] eqn:Eb; [|done]. cbn. intros [= <-].
    assert (Hr : m2 !! n = Some r).
    { destruct (Hl n) as [<-|(r0 & d0 & _ & _ & _ & E0)]; [done|]. rewrite Er in E0. injection E0 as ->. done. }
    pose proof (group_fits _ _ _ _ Hc1 _ _ _ Ha') as G2'. destruct (valid_shape r (go_sound _ _ _ _ _ _ G2' n r Er)) as [_ [[E _]|(b' & d & _ & Ed & _)]]; [congruence|].
    exists r, d. split_and!; [done|done|unfold content; by rewrite Eb| |].
    2: { intros sd r1 Hr1. destruct (held_covered a sd n r1 Hok Hsv Hr1) as (t & r' & Et & Er' & Hcov). unfold content. rewrite <- Eb.
      cbn [group_of] in Er'. rewrite F2, Hr in Er'. injection Er' as <-. destruct Hcov as [Hv|[Hv Hcov]]; [split; intros; lia|]. split; [lia|].
      intros d1 _ Hd1 Hlt. destruct (Hcov d1 Hd1) as [Hval _]; [specialize (Hnow t Et); lia|]. by rewrite Hv, Hval. }
    assert (Hlease : lease_of deadline m2' n = Some d) by (unfold lease_of; by rewrite Er). pose proof (go_agenda _ _ _ _ _ _ G2' eq_refl) as Hsch.
    destruct (agenda (group_of All s')) as [[wh fr]|] eqn:Ea; [|by rewrite (sc_none _ _ _ _ Hsch eq_refl) in Hlease].
    pose proof (Hc5 All wh fr (or_intror eq_refl) Ea) as Hnear. specialize (Htl All Ht wh fr Ea n d). rewrite (leases_of _ _ _ _ _ _ _ n Hc1 Ha') in Htl.
    specialize (Htl Hlease). lia.
Qed.

(** Nothing was announced, and facts have at most faded, none of them before its
    deadline; a deadline is not negative.  Retired sources may be gone. *)
Definition aside (t : Z) (s s' : State) (sd : side) (n : Name) : Prop :=
  faded t (found (facts (group_of sd s)) n) (found (facts (group_of sd s')) n).
Definition untouched (s s' : State) : Prop :=
  ∃ t, (t < 0 ∨ ∃ o, observed_ s' = Some o ∧ t <= o) ∧
    ∀ sd, present sd s' → position_ (facts (group_of sd s')) = position_ (facts (group_of sd s)) ∧ ∀ n, aside t s s' sd n.

Lemma group_facts (u : State) (a : Ghost) sd m log :
  state_ok limits_ None u a → a sd = Some (m, log) →
  (∀ n, found (facts (group_of sd u)) n = m !! n) ∧ position_ (facts (group_of sd u)) = place log.
Proof.
  intros Hok Ha. pose proof (go_facts _ _ _ _ _ _ (group_fits _ _ _ _ Hok _ _ _ Ha)) as Ho.
  split; [intros n; apply (found_ok _ _ _ _ _ n Ho)|]. destruct Ho as (_ & Hj & _). apply (jo_place _ _ _ _ Hj).
Qed.

Lemma aged_later t t' (a a' : Ghost) : t <= t' → aged t a a' → aged t' a a'.
Proof.
  intros Hle Hag sd. specialize (Hag sd). destruct (a sd), (a' sd); try done. destruct Hag as [Hl E]. split; [|done]. intros n.
  destruct (Hl n) as [?|(r & d & E1 & E2 & Hd & E3)]; [by left|]. right. exists r, d. split_and!; try done. lia.
Qed.

(** What lapses do, seen from outside. *)
Lemma aged_aside (u u' : State) (a a' : Ghost) t sd :
  state_ok limits_ None u a → state_ok limits_ None u' a' → aged t a a' → present sd u' →
  position_ (facts (group_of sd u')) = position_ (facts (group_of sd u)) ∧ ∀ n, aside t u u' sd n.
Proof.
  intros Hok Hok' Hag Hp. destruct (proj2 (ou_there _ _ _ (st_outside _ _ _ _ Hok') sd) Hp) as [[m' log'] Ha']. specialize (Hag sd). rewrite Ha' in Hag.
  destruct (a sd) as [[m log]|] eqn:Ha; [|done]. destruct Hag as [Hl E]. cbn in Hl, E. subst log'.
  destruct (group_facts u a sd m log Hok Ha) as [F P]. destruct (group_facts u' a' sd m' log Hok' Ha') as [F' P'].
  split; [congruence|]. intros n. unfold aside. rewrite F, F'. apply Hl.
Qed.

Lemma since_untouched (u u' : State) (a a' : Ghost) : state_ok limits_ None u a → since limits_ u a u' a' → untouched u u'.
Proof.
  intros Hok (Hok' & _ & Hx). destruct Hx as [->|(now & t & Hag & Ho & Hle)].
  - exists (-1). split; [left; lia|]. intros sd Hp. eapply aged_aside; [done|done|apply aged_refl|done].
  - exists now. split; [right; by exists t|]. intros sd Hp. by eapply aged_aside.
Qed.

(** C4. A write of the Catalog is atomic.  After any such history, a publication or a
    renewal takes effect as a whole or not at all, whatever fails on the way.  If it
    is accepted, the rules of publication and merging, applied to the facts held at
    the final instant, give exactly the own and the merged fact that are stored; the
    own history is one position longer and every other fact, of any source, is as it
    was or has lapsed in time.  If it is refused or an exception escapes, nothing but
    time has passed, and the exception is one of an allocation or of an expiry that
    could not be prepared. *)
Theorem catalog_writes (renewal : bool) (sc : Scope) (k : string) (v : Value) (ver ttl : Z) (f : faults) :
  let n := {| Origin.scope := sc; Origin.key := k |} in
  match change limits_ sc k v ver ttl renewal s f with
  | (Done (Expected _), s', _) =>
      ∃ rd old known cand ch,
        observed_ s' = Some (Clock.time rd) ∧
        faded (Clock.time rd) (found (facts (own_ s)) n) old ∧ faded (Clock.time rd) (found (facts (all_ s)) n) known ∧
        rule renewal old known v ver ttl rd = Expected cand ∧ Catalog.merge known cand (Clock.time rd) = Expected ch ∧
        found (facts (own_ s')) n = Some cand ∧ found (facts (all_ s')) n = Some (changed ch) ∧
        position_ (facts (own_ s')) = position_ (facts (own_ s)) + 1 ∧
        ∀ sd n', present sd s' → (sd = Own ∨ sd = All → n' ≠ n) → aside (Clock.time rd) s s' sd n'
  | (Done (Unexpected _), s', _) => untouched s s'
  | (Thrown e, s', _) => halt e ∧ untouched s s'
  end.
Proof.
  intros n. destruct catalog_run_ok as (a & m1 & log1 & m2 & log2 & _ & Hok & H1 & H2 & _).
  pose proof (catalog_change_wp limits_ HL sc k v ver ttl renewal s a Hok f I) as Hc.
  destruct (change _ _ _ _ _ _ _ _ _) as [[[[[]|]|e] s'] f']; destruct Hc as [_ Hc].
  - destruct Hc as (s1 & t & a1 & m1' & log1' & m2' & log2' & Hag & _ & _ & H1' & H2' & rd & cand & ch & now & Hle & Hr & Hm & Ho & _ & Hok').
    pose proof (aged_later t (Clock.time rd) a a1 Hle Hag) as Hag'.
    pose proof (Hag' Own) as A1. pose proof (Hag' All) as A2. rewrite H1, H1' in A1. rewrite H2, H2' in A2. destruct A1 as [A1 E1], A2 as [A2 _]. cbn in E1.
    destruct (group_facts _ _ Own _ _ Hok H1) as [F1 P1]. destruct (group_facts _ _ All _ _ Hok H2) as [F2 _].
    destruct (group_facts _ _ Own _ _ Hok' ltac:(done)) as [F1' P1']. destruct (group_facts _ _ All _ _ Hok' ltac:(done)) as [F2' _].
    cbn [group_of] in F1, F2, F1', F2', P1, P1'. rewrite F1, F2, F1', F2', P1, P1', !lookup_insert_eq.
    exists rd, (m1' !! n), (m2' !! n), cand, ch. split_and!; try done; [cbn; by rewrite E1|].
    intros sd n' Hp Hne. destruct (proj2 (ou_there _ _ _ (st_outside _ _ _ _ Hok') sd) Hp) as [[m log] Ha]. unfold aside.
    destruct (group_facts _ _ _ _ _ Hok' Ha) as [-> _]. unfold upd in Ha.
    destruct (decide (sd = Own)) as [->|]; [|destruct (decide (sd = All)) as [->|]].
    + injection Ha as <- <-. rewrite lookup_insert_ne by (apply not_eq_sym; by apply Hne; left). cbn [group_of]. rewrite F1. apply A1.
    + injection Ha as <- <-. rewrite lookup_insert_ne by (apply not_eq_sym; by apply Hne; right). cbn [group_of]. rewrite F2. apply A2.
    + specialize (Hag' sd). rewrite Ha in Hag'. destruct (a sd) as [[m0 log0]|] eqn:Ea; [|done]. destruct (group_facts _ _ _ _ _ Hok Ea) as [-> _]. by apply Hag'.
  - destruct Hc as [[a' Hs] _]. by eapply since_untouched.
  - destruct Hc as [He [a' Hs]]. split; [done|]. by eapply since_untouched.
Qed.
(** Only the position of [id] has moved, to [position]. *)
Definition skipped_to (id : string) (position : Z) (s s' : State) : Prop :=
  position_ (facts (group_of (Remote id) s)) <= position ∧ position_ (facts (group_of (Remote id) s')) = position ∧
  ∀ sd, (sd ≠ Remote id → position_ (facts (group_of sd s')) = position_ (facts (group_of sd s))) ∧
    ∀ n, found (facts (group_of sd s')) n = found (facts (group_of sd s)) n.

Lemma stepped_skipped id position (u u' : State) (a : Ghost) :
  state_ok limits_ None u a → stepped limits_ id position u a u' → skipped_to id position u u'.
Proof.
  intros Hok (m & log & Ha & Hle & _ & _ & Hok'). destruct (group_facts _ _ _ _ _ Hok Ha) as [F P].
  destruct (group_facts _ _ (Remote id) m (extend log (Some position) []) Hok') as [F' P']; [unfold upd; by rewrite decide_True|].
  split_and!; [by rewrite P|by rewrite P'|]. intros sd. destruct (decide (sd = Remote id)) as [->|Hne]; [split; [done|]; intros n; by rewrite F, F'|].
  destruct (a sd) as [[m1 log1]|] eqn:E.
  - destruct (group_facts _ _ _ _ _ Hok E) as [G Q]. destruct (group_facts _ _ sd m1 log1 Hok') as [G' Q']; [unfold upd; by rewrite decide_False|].
    split; [congruence|]. intros n. by rewrite G, G'.
  - assert (Hno : ∀ v b, state_ok limits_ None v b → b sd = None → group_of sd v = nothing).
    { intros v b Hv Hb. pose proof (ou_there _ _ _ (st_outside _ _ _ _ Hv) sd) as Hth. rewrite Hb in Hth.
      destruct sd as [| |id']; [by destruct (proj2 Hth I)..|].
      cbn. destruct (replicas_ v !! id') eqn:Er; [|done]. destruct (source_of limits_ id' _ v b Hv Er) as (? & ? & Hx). congruence. }
    rewrite (Hno u a Hok E), (Hno u' _ Hok'); [done|]. unfold upd. by rewrite decide_False.
Qed.

(** The fact took effect at [t]: the source holds it, the merged fact is the one of the
    rule. *)
Definition took_in (id : string) (n : Name) (position : Z) (repair : bool) (fact : option record) (t : Z) (s s' : State) : Prop :=
  let p := position_ (facts (group_of (Remote id) s)) in
  p < position ∧ position_ (facts (group_of (Remote id) s')) = (if repair then p else position) ∧ (repair = false → position = p + 1) ∧
  found (facts (group_of (Remote id) s')) n = (λ r, Catalog.expire r t) <$> fact ∧
  (∃ known, faded t (found (facts (all_ s)) n) known ∧
    match fact with
    | Some r => ∃ ch, Catalog.merge known (Catalog.expire r t) t = Expected ch ∧ found (facts (all_ s')) n = Some (changed ch)
    | None => found (facts (all_ s')) n = known
    end) ∧
  ∀ sd n', present sd s' → (sd = Remote id ∨ sd = All → n' ≠ n) → aside t s s' sd n'.

Lemma arrived_took_in id n position repair fact (u u' : State) (a : Ghost) m2 log2 :
  state_ok limits_ None u a → a All = Some (m2, log2) → arrived limits_ id n position repair fact u a u' →
  ∃ t t', observed_ u' = Some t' ∧ t <= t' ∧ took_in id n position repair fact t u u'.
Proof.
  intros Hok H2 (s1 & t & a1 & m1' & log1' & m2' & log2' & combined & Hag & _ & _ & H1' & H2' & (Hlt & Hnext & _ & Hc) & (t' & Hle & Ho & _ & Hok')).
  exists t, t'. split_and!; [done|done|]. pose proof (Hag (Remote id)) as A1. pose proof (Hag All) as A2. rewrite H1' in A1. rewrite H2, H2' in A2.
  destruct (a (Remote id)) as [[m1 log1]|] eqn:H1; [|done]. destruct A1 as [A1 E1], A2 as [A2 _]. cbn in A1, E1, A2. subst log1'.
  destruct (group_facts _ _ _ _ _ Hok H1) as [F1 P1]. destruct (group_facts _ _ _ _ _ Hok H2) as [F2 _].
  destruct (group_facts _ _ (Remote id) _ _ Hok' ltac:(unfold received_after, upd; by rewrite decide_True)) as [F1' P1'].
  destruct (group_facts _ _ All _ _ Hok' ltac:(unfold received_after, upd; by rewrite decide_False, decide_True)) as [F2' _].
  unfold took_in. cbv zeta. change (all_ u) with (group_of All u). change (all_ u') with (group_of All u'). rewrite P1, P1', F1', F2', F2. split_and!.
  - done.
  - by destruct repair.
  - intros Hr. by apply Hnext.
  - destruct fact; cbn; [by rewrite lookup_insert_eq|by rewrite lookup_delete_eq].
  - exists (m2' !! n). split; [apply A2|]. unfold merged_after. destruct fact as [r|]; [|by subst combined]. destruct Hc as (ch & -> & _ & Hm).
    exists ch. by rewrite lookup_insert_eq.
  - intros sd n' Hp Hne. destruct (proj2 (ou_there _ _ _ (st_outside _ _ _ _ Hok') sd) Hp) as [[m log] Ha]. unfold aside.
    destruct (group_facts _ _ _ _ _ Hok' Ha) as [-> _]. unfold received_after, upd in Ha.
    destruct (decide (sd = Remote id)) as [->|]; [|destruct (decide (sd = All)) as [->|]].
    + injection Ha as <- <-. rewrite F1. assert (n' ≠ n) by (by apply Hne; left). destruct fact; cbn; [rewrite lookup_insert_ne by done|rewrite lookup_delete_ne by done]; apply A1.
    + injection Ha as <- <-. rewrite F2. assert (n' ≠ n) by (by apply Hne; right). unfold merged_after. destruct combined; [rewrite lookup_insert_ne by done|]; apply A2.
    + specialize (Hag sd). rewrite Ha in Hag. destruct (a sd) as [[m0 log0]|] eqn:Ea; [|done]. destruct (group_facts _ _ _ _ _ Hok Ea) as [-> _]. by apply Hag.
Qed.

(** An earlier repair of [id] for this key at position [q] was accepted. *)
Definition repaired (qs : list (request * faults)) (id : string) (sc : Scope) (k : string) (q : Z) : Prop :=
  ∃ qs1 same fact f qs2 s' f', qs = qs1 ++ (Repair same id q sc k fact, f) :: qs2 ∧
    repair limits_ same id q sc k fact (foldl step s0 qs1) f = (Done (Some (Expected tt)), s', f').

Lemma repaired_app qs1 qs2 id sc k q : repaired qs1 id sc k q → repaired (qs1 ++ qs2) id sc k q.
Proof. intros (l1 & same & fact & f & l2 & s' & f' & -> & Hr). exists l1, same, fact, f, (l2 ++ qs2), s', f'. by rewrite <- app_assoc. Qed.

Lemma receive_plain same id position sc k fact form : stays dwindles (receive limits_ same id position sc k fact form false).
Proof.
  intros u f. pose proof (receive_covers limits_ same id position sc k fact form false u f) as Hc.
  destruct (receive _ _ _ _ _ _ _ _ _ _ _) as [[[[[x|e]|]|e] s'] f']; try done. intros id' x' Hx. destruct Hc as [Hc _]. by destruct (Hc id' x' Hx) as [|[]].
Qed.

(** A step other than a repair does not add to what is covered. *)
Lemma serve_dwindles q : (∀ same id position sc k fact, q ≠ Repair same id position sc k fact) → stays dwindles (serve q).
Proof.
  intros Hq. destruct q; cbn [serve]; unfold CatalogState.publish, CatalogState.renew, own_view, own_events, own_delivery, received, replica_find, resolve;
    try by destruct (Hq same id position sc k fact).
  all: first [apply stays_retire | apply stays_bind; [apply _| |intros ?; apply stays_ret; apply _]].
  all: try first [apply stays_change | apply stays_tick_round | apply stays_capture | apply stays_find | apply stays_changes | apply stays_on_facts
    | apply stays_refusing, stays_on_facts | apply stays_admit | apply stays_prepare | apply stays_covered | apply receive_plain | apply stays_finish].
  all: repeat first [apply stays_borrowing | keep_step | apply stays_on_facts].
Qed.

(** Whatever the coverage of a source holds was once accepted as a repair. *)
Lemma coverage_repaired id n q :
  (n, q) ∈ covered_by id s → repaired qs id (Origin.scope n) (Origin.key n) q ∧ Scope.text (Origin.key n) 1024 = true.
Proof.
  clear Hqs. induction qs as [|[r f] l IH] using rev_ind.
  { cbn. unfold covered_by. unfold start in Hs0. destruct (Origin.make lim); [|done]. injection Hs0 as <-. cbn. rewrite lookup_empty. by intros ?%not_elem_of_nil. }
  rewrite foldl_app. cbn [foldl]. set (u := foldl step s0 l) in *. intros Hn.
  assert (Hold : (n, q) ∈ covered_by id u → repaired (l ++ [(r, f)]) id (Origin.scope n) (Origin.key n) q ∧ Scope.text (Origin.key n) 1024 = true).
  { intros [Hr Ht]%IH. split; [by apply repaired_app|done]. }
  assert (Hcase : (∃ same id position sc k fact, r = Repair same id position sc k fact) ∨ ∀ same id position sc k fact, r ≠ Repair same id position sc k fact).
  { destruct r; try (right; congruence). left. eauto 7. }
  destruct Hcase as [(same & id' & position & sc & k & fact & ->)|Hother].
  - unfold step in Hn. cbn [fst snd serve] in Hn. unfold bind, ret in Hn.
    pose proof (receive_covers limits_ same id' position sc k fact form_record true u f) as Hc. fold (repair limits_ same id' position sc k fact) in Hc.
    destruct (repair _ _ _ _ _ _ _ _ _) as [[[[[[]|e]|]|e] s'] f'] eqn:Er; [|by apply Hold, Hc..].
    destruct Hc as [Hc Ht]. destruct (Hc id (n, q) Hn) as [?|(_ & -> & [= -> ->])]; [by apply Hold|]. cbn. split; [|done].
    by exists l, same, fact, f, [], s', f'.
  - apply Hold. pose proof (serve_dwindles r Hother u f) as Hd. unfold step in Hn. cbn [fst snd] in Hn.
    destruct (serve r u f) as [[o s'] f']. by apply Hd.
Qed.

(** The fact was covered by an earlier repair of the same key. *)
Lemma covered_repaired id sc k position :
  0 < position → position <= covered_to sc k (covered_by id s) →
  ∃ q, position <= q ∧ ({| Origin.scope := sc; Origin.key := k |}, q) ∈ covered_by id s ∧ repaired qs id sc k q.
Proof.
  intros Hp (n & q & Hin & Hq & Hsc & Hk)%covered_to_entry; [|done]. destruct (coverage_repaired id n q Hin) as [Hr Ht].
  destruct Hk as [Hk|Hk]; [|by rewrite Hk in Ht]. exists q. destruct n; cbn in *. by subst.
Qed.

(** C5. A receipt is atomic.  After any such history, a fact or a repair of another Star
    takes effect as a whole or not at all, whatever fails on the way.  If it is accepted, one
    of three things has happened.  Its position is one its source has reached already, and
    nothing has changed.  Or it lies ahead, but a repair of the same key at that position or
    a later one was accepted earlier: then a repair changes nothing, and a fact, which comes
    at the next position, only moves the position there.  Or no such repair is remembered:
    then its source now holds it, expired where its deadline has passed, and the merged fact
    is what the rule of merging makes of it; a fact comes at the next position and moves it
    there, a repair moves nothing; every other fact is as it was or has lapsed in time.  If it
    is refused, has to wait, or an exception escapes, nothing but time has passed. *)
Theorem catalog_receives (same : bool) (id : string) (position : Z) (sc : Scope) (k : string) (fact : option record) (form : Form)
    (repair : bool) (f : faults) :
  bounded fact →
  match receive limits_ same id position sc k fact form repair s f with
  | (Done (Some (Expected _)), s', _) =>
      let n := {| Origin.scope := sc; Origin.key := k |} in
      let p := position_ (facts (group_of (Remote id) s)) in
      (position <= p ∧ s' = s) ∨
      (p < position ∧ (∃ q, position <= q ∧ (n, q) ∈ covered_by id s ∧ repaired qs id sc k q) ∧
       if repair then s' = s else position = p + 1 ∧ skipped_to id position s s') ∨
      (covered_to sc k (covered_by id s) < position ∧
       ∃ t t', observed_ s' = Some t' ∧ t <= t' ∧ took_in id n position repair fact t s s')
  | (Done _, s', _) => untouched s s'
  | (Thrown e, s', _) => halt e ∧ untouched s s'
  end.
Proof.
  intros Hb. destruct catalog_run_ok as (a & _ & _ & m2 & log2 & _ & Hok & _ & H2 & _).
  pose proof (receive_wp limits_ HL same id position sc k fact form repair s a Hok) as Hr. specialize (Hr ltac:(by intros r ->) f I).
  destruct (receive _ _ _ _ _ _ _ _ _ _ _) as [[[[[[]|]|]|e] s'] f']; destruct Hr as [_ Hr].
  - destruct Hr as (m & log & Ha & Hr). cbn zeta. destruct (group_facts _ _ _ _ _ Hok Ha) as [_ P]. rewrite P.
    assert (Hp : 0 <= place log) by (rewrite <- P; destruct (facts_fit _ _ _ _ Hok _ _ _ Ha) as (_ & Hj & _); apply (jo_position _ _ _ _ Hj)).
    destruct Hr as [?|[Hlt [[Hc Hr]|[Hc Hr]]]]; [by left| |].
    + right; left. split; [done|]. split; [apply covered_repaired; [lia|done]|]. destruct repair; [done|]. destruct Hr as [-> Hr]. split; [done|].
      by eapply stepped_skipped.
    + right; right. split; [done|]. by eapply arrived_took_in.
  - destruct Hr as [[a' Hs] _]. by eapply since_untouched.
  - destruct Hr as [[a' Hs] _]. by eapply since_untouched.
  - destruct Hr as [He [a' Hs]]. split; [done|]. by eapply since_untouched.
Qed.
End histories.
End run.

(** ** A concrete Catalog *)
Module Sample.
Local Open Scope string_scope.

#[export] Instance sizes : Sizes.
Proof.
  refine {| sizeof_fact_event := 96; sizeof_view_event := 88; sizeof_fact_name := 48; sizeof_fact := 40; sizeof_content := 24 |}. lia.
Defined.

Definition small : CatalogState.Limits :=
  {| source_limits := {| Origin.records := 8; Origin.scopes := 4; Origin.bytes := 100000; Origin.history := 4; Origin.backlog := 10000; Origin.retention := 1000000 |};
     projection_limits := {| Scene.records := 8; Scene.bytes := 100000; Scene.history := 4; Scene.backlog := 10000; Scene.retention := 1000000 |};
     scopes_limit := 4; history_limit := 10000; replicas_limit := 3; replica_bytes_limit := 100000 |}.

Lemma small_fit : limits_fit small.
Proof. split; [split; cbn; unfold u64_max; lia|split; [split; cbn; unfold u64_max; lia|cbn; unfold u64_max; lia..]|cbn; unfold u64_max; lia|cbn; lia]. Qed.

Definition at_time (t : Z) : option Reading :=
  Some {| Clock.time := t; uncertainty_ns := 0; rtt_ns := 0; sampled := t; Clock.ready := true; synchronized := true |}.
(** The clock shows one second, again, a half second later for a while, and then the
    end of the leases. *)
Definition outside : World :=
  {| readings := replicate 2 (at_time 1000000000) ++ replicate 6 (at_time 1500000000) ++ replicate 3 (at_time 2600000000);
     steadies := [5; 6; 7]; sharings := [λ _, true] |}.

Definition east : Scope := {| sector := "east"; spectrum := "a" |}.
Definition begin : State :=
  {| world_ := outside; observed_ := None; due_ := 0; own_ := nothing; all_ := nothing;
     stage_ := {| Stage.scenes_ := ∅; Stage.scopes_ := 0; Stage.history_ := 0; notices := [] |}; replicas_ := ∅; replica_bytes_ := 0 |}.

Example begun : start small outside = Done begin.
Proof. reflexivity. Qed.

Definition requests : list (request * faults) :=
  [(Publish east "svc" (Some [Byte.x2a]) 3 1000, []);
   (Renew east "svc" 3 1000, []);
   (Admit "other", []);
   (Apply true "other" 1 east "db" {| version := 4; value := Some [Byte.x2b]; deadline := Some 2400000000 |} form_record, [])].

Lemma outside_typed : typed outside.
Proof. unfold typed, outside. cbn. repeat (apply Forall_cons; split; [intros v [= <-]; cbn; unfold time_max, i64_max; lia|]). by apply Forall_nil. Qed.

Lemma requests_proper : Forall (λ q, proper q.1) requests.
Proof. repeat (apply Forall_cons; split; [cbn; try done|]); [|by apply Forall_nil]. intros x d [= <-] [= <-]. unfold time_max, i64_max. lia. Qed.

Definition after_requests : State := foldl (step small) begin requests.

Example renewed :
  found (facts (own_ after_requests)) {| Origin.scope := east; Origin.key := "svc" |} =
  Some {| version := 3; value := Some [Byte.x2a]; deadline := Some 2500000000 |}.
Proof. vm_compute. reflexivity. Qed.

Definition svc : Name := {| Origin.scope := east; Origin.key := "svc" |}.
Definition fact : record := {| version := 3; value := Some [Byte.x2a]; deadline := Some 2500000000 |}.

Definition db : Name := {| Origin.scope := east; Origin.key := "db" |}.
Definition other_fact : record := {| version := 4; value := Some [Byte.x2b]; deadline := Some 2400000000 |}.

Example heard_fact :
  found (facts (group_of (Remote "other") after_requests)) db = Some other_fact ∧
  (find_action east "db" after_requests []).1.1 = Done (Expected (Some (content other_fact), 2)).
Proof. split; vm_compute; reflexivity. Qed.

Lemma catalog_refines_witness :
  ∃ a m2 log2, rtc evolves (None, vacant) (observed_ after_requests, a) ∧ a All = Some (m2, log2) ∧
    found (facts (all_ after_requests)) svc = m2 !! svc.
Proof.
  destruct (catalog_refines small small_fit outside outside_typed begin begun requests requests_proper)
    as (a & m2 & log2 & H1 & H2 & _ & H3 & _).
  exists a, m2, log2. split; [exact H1|]. split; [exact H2|]. exact (proj1 (H3 All m2 log2 H2) svc).
Defined.

Lemma catalog_serves_witness :
  ∃ r', found (facts (all_ after_requests)) db = Some r' ∧
    (version other_fact < version r' ∨
     ((∃ d', deadline r' = Some d' ∧ 2400000000 <= d') ∧
      ∀ f, ∃ c f', find_action (Origin.scope db) (Origin.key db) after_requests f = (Done (Expected (Some (content other_fact), c)), after_requests, f'))).
Proof.
  assert (H1 : found (facts (group_of (Remote "other") (foldl (step small) begin requests))) db = Some other_fact) by (vm_compute; reflexivity).
  assert (H2 : observed_ (foldl (step small) begin requests) = Some 1500000000) by (vm_compute; reflexivity).
  unfold after_requests.
  exact (catalog_serves small small_fit outside outside_typed begin begun requests requests_proper (Remote "other") db other_fact 2400000000 1500000000 H1 eq_refl H2 eq_refl).
Defined.

Lemma catalog_timely_witness :
  returned small begin requests ∧
  match CatalogState.find small true east "svc" after_requests [] with
  | (Done (Some (Expected (c, _))), s', _) =>
      ∃ now, observed_ s' = Some now ∧
        (∀ r d, found (facts (all_ after_requests)) svc = Some r → deadline r = Some d → now < d → c = Some (content r)) ∧
        (∀ x, c = Some x → ∃ r d, found (facts (all_ after_requests)) svc = Some r ∧ deadline r = Some d ∧ x = content r ∧ now - interval < d ∧
           ∀ sd r1, found (facts (group_of sd after_requests)) svc = Some r1 →
             version r1 <= version r ∧ (∀ d1, version r1 = version r → deadline r1 = Some d1 → now < d1 → x = content r1))
  | _ => True
  end.
Proof.
  assert (Hr : returned small begin requests) by (vm_compute; split_and!; exact I). split; [exact Hr|]. unfold after_requests, svc.
  exact (catalog_timely small small_fit outside outside_typed begin begun requests requests_proper true east "svc" [] Hr).
Defined.

Lemma catalog_writes_witness :
  match change small east "svc" (Some [Byte.x2a]) 3 1000 false after_requests [] with
  | (Done (Expected _), s', _) =>
      ∃ rd cand, observed_ s' = Some (Clock.time rd) ∧ found (facts (own_ s')) svc = Some cand
  | (Done (Unexpected _), s', _) => untouched after_requests s'
  | (Thrown e, s', _) => halt e ∧ untouched after_requests s'
  end.
Proof.
  pose proof (catalog_writes small small_fit outside outside_typed begin begun requests requests_proper false east "svc" (Some [Byte.x2a]) 3 1000 []) as Hw.
  cbv zeta in Hw. unfold after_requests, svc. destruct (change small east "svc" (Some [Byte.x2a]) 3 1000 false (foldl (step small) begin requests) []) as [[[[u|e]|e] s'] f'].
  - destruct Hw as (rd & old & known & cand & ch & H1 & _ & _ & _ & _ & H2 & _). exists rd, cand. split; [exact H1|exact H2].
  - exact Hw.
  - exact Hw.
Defined.

(** The next fact of the other Star, a renewal of what it has said. *)
Definition later_fact : record := {| version := 4; value := Some [Byte.x2b]; deadline := Some 2550000000 |}.
Definition after_receipt : State := let '(_, s', _) := receive small true "other" 2 east "db" (Some later_fact) form_renew false after_requests [] in s'.

Example receipt :
  found (facts (all_ after_receipt)) db = Some later_fact ∧ position_ (facts (group_of (Remote "other") after_receipt)) = 2.
Proof. split; vm_compute; reflexivity. Qed.

Lemma catalog_receives_witness :
  bounded (Some later_fact) ∧
  match receive small true "other" 2 east "db" (Some later_fact) form_renew false after_requests [] with
  | (Done (Some (Expected _)), s', _) =>
      let n := {| Origin.scope := east; Origin.key := "db" |} in
      let p := position_ (facts (group_of (Remote "other") after_requests)) in
      (2 <= p ∧ s' = after_requests) ∨
      (p < 2 ∧ (∃ q, 2 <= q ∧ (n, q) ∈ covered_by "other" after_requests ∧ repaired small begin requests "other" east "db" q) ∧
       if false then s' = after_requests else 2 = p + 1 ∧ skipped_to "other" 2 after_requests s') ∨
      (covered_to east "db" (covered_by "other" after_requests) < 2 ∧
       ∃ t t', observed_ s' = Some t' ∧ t <= t' ∧ took_in "other" n 2 false (Some later_fact) t after_requests s')
  | (Done _, s', _) => untouched after_requests s'
  | (Thrown e, s', _) => halt e ∧ untouched after_requests s'
  end.
Proof.
  assert (Hb : bounded (Some later_fact)) by (intros x d [= <-] [= <-]; unfold time_max, i64_max; lia). split; [exact Hb|]. unfold after_requests.
  pose proof (catalog_receives small small_fit outside outside_typed begin begun requests requests_proper true "other" 2 east "db" (Some later_fact) form_renew false [] Hb) as Hx.
  cbv beta iota zeta in Hx. exact Hx.
Defined.

(** A repair of the same key far ahead covers the facts on their way: the next fact only
    moves the position. *)
Definition repairs : list (request * faults) := requests ++ [(Repair true "other" 5 east "db" (Some later_fact), [])].
Definition after_repair : State := foldl (step small) begin repairs.
Definition passed_by : State := let '(_, s', _) := receive small true "other" 2 east "db" (Some other_fact) form_record false after_repair [] in s'.

Example covered_receipt :
  covered_by "other" after_repair = [(db, 5)] ∧ found (facts (group_of (Remote "other") passed_by)) db = Some later_fact ∧
  position_ (facts (group_of (Remote "other") after_repair)) = 1 ∧ position_ (facts (group_of (Remote "other") passed_by)) = 2.
Proof. split_and!; vm_compute; reflexivity. Qed.
End Sample.
