(* ===== verification/Types.v ===== *)
(** Identities, endpoints and shared policy rules: [astra/common/include/astra/types.hpp],
    [astra/common/src/types.cpp] and [astra/common/src/policy.cpp].

    [inet_pton] and [inet_ntop] belong to the C library: the class [Inet] states
    what their manual pages promise. *)
From Stdlib Require Import Ascii.
From stdpp Require Import base numbers strings countable list.
From S2P Require Import Prelude Scope.

(** [Status::Code]; the diagnostic text is not modelled. *)
Inductive Code :=
| configuration | identity | protocol | conflict | capacity | timeout | transport | cancelled | internal.

#[global] Instance code_eq_dec : EqDecision Code.
Proof. solve_decision. Defined.

Abbreviation Result A := (expected A Code).

(** [Status::name]. *)
Definition name (code : Code) : string :=
  match code with
  | configuration => "configuration"
  | identity => "identity"
  | protocol => "protocol"
  | conflict => "conflict"
  | capacity => "capacity"
  | timeout => "timeout"
  | transport => "transport"
  | cancelled => "cancelled"
  | internal => "internal"
  end.

(** ** Characters *)
Definition ord (c : Ascii.ascii) : Z := Z.of_N (Ascii.N_of_ascii c).
Definition chr (z : Z) : Ascii.ascii := Ascii.ascii_of_N (Z.to_N z).
Definition chars : string → list Ascii.ascii := String.list_ascii_of_string.
Definition of_chars : list Ascii.ascii → string := String.string_of_list_ascii.

Lemma chars_of_chars l : chars (of_chars l) = l.
Proof. apply String.list_ascii_of_string_of_list_ascii. Qed.
Lemma of_chars_chars s : of_chars (chars s) = s.
Proof. apply String.string_of_list_ascii_of_string. Qed.

Lemma ord_chr z : 0 <= z < 256 → ord (chr z) = z.
Proof.
  intros Hz. unfold ord, chr. rewrite Ascii.N_ascii_embedding; [lia|]. lia.
Qed.
Lemma chr_ord c : chr (ord c) = c.
Proof. unfold ord, chr. rewrite N2Z.id. apply Ascii.ascii_N_embedding. Qed.
Lemma ord_inj c d : ord c = ord d → c = d.
Proof. intros H. by rewrite <- (chr_ord c), H, chr_ord. Qed.

Definition is_digit (c : Ascii.ascii) : bool := (48 <=? ord c) && (ord c <=? 57).

(** ** Deployment digests *)
Module Principal.

Record Principal := { bytes : list Z }.

#[global] Instance principal_eq_dec : EqDecision Principal.
Proof. solve_decision. Defined.

#[global] Instance principal_countable : Countable Principal.
Proof. apply (inj_countable' bytes Build_Principal). by intros []. Defined.

(** The array has 32 bytes. *)
Definition well_formed (p : Principal) : Prop :=
  length (bytes p) = 32%nat ∧ Forall (λ b, 0 <= b < 256) (bytes p).

Definition accepted (c : Ascii.ascii) : bool :=
  ((48 <=? ord c) && (ord c <=? 57)) || ((97 <=? ord c) && (ord c <=? 102)).

Definition nibble (c : Ascii.ascii) : Z := if ord c <=? 57 then ord c - 48 else ord c - 97 + 10.

(** The loop of [parse] at index [i]. *)
Fixpoint parse_loop (cs : list Ascii.ascii) (i : nat) (result : list Z) : Result (list Z) :=
  match cs with
  | [] => Expected result
  | c :: cs =>
      if negb (accepted c) then Unexpected identity
      else
        let old := default 0 (result !! (i / 2)%nat) in
        parse_loop cs (S i)
          (<[(i / 2)%nat := Z.lor (Z.shiftl old 4) (nibble c) mod 256]> result)
  end.

Definition parse (value : string) : Result Principal :=
  if negb (Z.of_nat (String.length value) =? 32 * 2) then Unexpected identity
  else
    match parse_loop (chars value) 0 (replicate 32 0) with
    | Expected bs => Expected {| bytes := bs |}
    | Unexpected e => Unexpected e
    end.

Definition digit (n : Z) : Ascii.ascii := default Ascii.zero (chars "0123456789abcdef" !! Z.to_nat n).

Definition text (p : Principal) : string :=
  of_chars (b ← bytes p; [digit (Z.shiftr b 4); digit (Z.land b 15)]).

Lemma hex_digit_spec n : 0 <= n < 16 → accepted (digit n) = true ∧ nibble (digit n) = n.
Proof.
  intros Hn. assert (n = 0 ∨ n = 1 ∨ n = 2 ∨ n = 3 ∨ n = 4 ∨ n = 5 ∨ n = 6 ∨ n = 7 ∨ n = 8 ∨ n = 9 ∨
    n = 10 ∨ n = 11 ∨ n = 12 ∨ n = 13 ∨ n = 14 ∨ n = 15) as H by lia.
  repeat (destruct H as [->|H]; [vm_compute; done|]). subst. vm_compute. done.
Qed.

Lemma digit_nibble c : accepted c = true → 0 <= nibble c < 16 ∧ digit (nibble c) = c.
Proof. destruct c as [[] [] [] [] [] [] [] []]; vm_compute; try done; intros _; by split. Qed.

Lemma join a b : 0 <= a < 16 → 0 <= b < 16 → Z.lor (Z.shiftl a 4) b = a * 16 + b.
Proof.
  intros Ha Hb. pose proof (Z.add_lor_land (Z.shiftl a 4) b) as H.
  assert (H0 : Z.land (Z.shiftl a 4) b = 0).
  { apply Z.bits_inj'. intros n Hn. rewrite Z.land_spec, Z.bits_0. destruct (Z.lt_ge_cases n 4).
    - rewrite Z.shiftl_spec_low by lia. done.
    - rewrite (Z.bits_above_log2 b); [apply andb_false_r|lia|]. destruct (decide (b = 0)) as [->|]; [simpl; lia|].
      apply Z.lt_le_trans with 4; [|lia]. apply Z.log2_lt_pow2; lia. }
  rewrite Z.shiftl_mul_pow2 in * by lia. lia.
Qed.

Lemma list_insert_middle {A} (pre post : list A) x y :
  <[length pre := y]> (pre ++ x :: post) = pre ++ y :: post.
Proof. rewrite insert_app_r_alt, Nat.sub_diag by lia. done. Qed.

(** Two characters fill one byte. *)
Lemma parse_pair c d cs pre post :
  accepted c = true → accepted d = true →
  parse_loop (c :: d :: cs) (2 * length pre) (pre ++ 0 :: post) =
  parse_loop cs (2 * length (pre ++ [nibble c * 16 + nibble d])) (pre ++ (nibble c * 16 + nibble d) :: post).
Proof.
  intros Hc Hd. destruct (digit_nibble c Hc) as [Rc _]. destruct (digit_nibble d Hd) as [Rd _].
  cbn [parse_loop]. rewrite Hc, Hd. cbn [negb].
  replace (Nat.div (2 * length pre) 2) with (length pre) by (rewrite Nat.mul_comm, Nat.div_mul; lia).
  replace (Nat.div (S (2 * length pre)) 2) with (length pre).
  2: { rewrite <- Nat.div2_div, Nat.div2_succ_double. done. }
  rewrite !list_insert_middle, !list_lookup_middle by done. cbn [default from_option id]. unfold id.
  rewrite Z.shiftl_0_l, Z.lor_0_l, (Z.mod_small (nibble c)), join by lia. rewrite Z.mod_small by lia.
  f_equal. rewrite length_app. simpl. lia.
Qed.

Lemma pair_text b : 0 <= b < 256 →
  0 <= Z.shiftr b 4 < 16 ∧ 0 <= Z.land b 15 < 16 ∧ Z.shiftr b 4 * 16 + Z.land b 15 = b.
Proof.
  intros Hb. rewrite Z.shiftr_div_pow2 by lia. change 15 with (Z.ones 4). rewrite Z.land_ones by lia.
  change (2 ^ 4) with 16. pose proof (Z.mod_pos_bound b 16 ltac:(lia)).
  pose proof (Z.div_mod b 16 ltac:(lia)). lia.
Qed.

Lemma parse_text_loop bs pre post :
  Forall (λ b, 0 <= b < 256) bs → length post = length bs → Forall (eq 0) post →
  parse_loop (b ← bs; [digit (Z.shiftr b 4); digit (Z.land b 15)]) (2 * length pre) (pre ++ post) =
  Expected (pre ++ bs).
Proof.
  intros Hbs. revert pre post. induction Hbs as [|b bs Hb Hbs IH]; intros pre post Hlen Hpost.
  { destruct post; [done|]. simpl in Hlen. lia. }
  destruct post as [|x post]; [simpl in Hlen; lia|]. apply Forall_cons_1 in Hpost as [<- Hpost].
  destruct (pair_text b Hb) as (H1 & H2 & H3). destruct (hex_digit_spec _ H1) as [A1 N1].
  destruct (hex_digit_spec _ H2) as [A2 N2].
  change (b ← b :: bs; [digit (Z.shiftr b 4); digit (Z.land b 15)]) with
    (digit (Z.shiftr b 4) :: digit (Z.land b 15) :: (b ← bs; [digit (Z.shiftr b 4); digit (Z.land b 15)])).
  rewrite parse_pair by done. rewrite N1, N2, H3.
  specialize (IH (pre ++ [b]) post). rewrite <- !app_assoc in IH. apply IH; [simpl in Hlen; lia|done].
Qed.

Lemma parse_loop_text n cs pre post bs :
  length cs = (2 * n)%nat → length post = n → Forall (eq 0) post →
  parse_loop cs (2 * length pre) (pre ++ post) = Expected bs →
  ∃ bs', bs = pre ++ bs' ∧ length bs' = n ∧ Forall (λ b, 0 <= b < 256) bs' ∧
    (b ← bs'; [digit (Z.shiftr b 4); digit (Z.land b 15)]) = cs.
Proof.
  revert cs pre post. induction n as [|n IH]; intros cs pre post Hcs Hpost Hz Hp.
  { destruct cs; [|simpl in Hcs; lia]. destruct post; [|done]. simpl in Hp. injection Hp as <-.
    exists []. done. }
  destruct cs as [|c [|d cs]]; simpl in Hcs; [lia|lia|]. destruct post as [|x post]; [simpl in Hpost; lia|].
  apply Forall_cons_1 in Hz as [<- Hz].
  destruct (accepted c) eqn:Hc; [|cbn [parse_loop] in Hp; by rewrite Hc in Hp].
  destruct (accepted d) eqn:Hd; [|cbn [parse_loop] in Hp; by rewrite Hc, Hd in Hp].
  rewrite parse_pair in Hp by done. set (v := nibble c * 16 + nibble d) in *.
  specialize (IH cs (pre ++ [v]) post). rewrite <- app_assoc in IH.
  destruct (IH ltac:(lia) ltac:(simpl in Hpost; lia) Hz Hp) as (bs' & -> & H1 & H2 & H3).
  destruct (digit_nibble c Hc) as [Rc Dc]. destruct (digit_nibble d Hd) as [Rd Dd].
  exists (v :: bs'). rewrite <- app_assoc. split; [done|]. split; [simpl; lia|].
  assert (Hv : 0 <= v < 256) by (unfold v; lia). split; [by constructor|].
  change (b ← v :: bs'; [digit (Z.shiftr b 4); digit (Z.land b 15)]) with
    (digit (Z.shiftr v 4) :: digit (Z.land v 15) :: (b ← bs'; [digit (Z.shiftr b 4); digit (Z.land b 15)])).
  rewrite H3. destruct (pair_text v Hv) as (P1 & P2 & P3). unfold v in P3.
  assert (Z.shiftr v 4 = nibble c ∧ Z.land v 15 = nibble d) as [-> ->] by (unfold v in *; lia).
  by rewrite Dc, Dd.
Qed.

Lemma length_chars s : length (chars s) = String.length s.
Proof. induction s as [|c s IH]; [done|]. simpl. by rewrite IH. Qed.

Lemma length_bind_pairs (bs : list Z) (f g : Z → Ascii.ascii) :
  length (b ← bs; [f b; g b]) = (2 * length bs)%nat.
Proof. induction bs as [|b bs IH]; [done|]. simpl. unfold mbind in IH. rewrite IH. lia. Qed.

(** Parsing and printing deployment digests are inverse: a printed digest parses
    back to itself, and a text that parses is exactly the printed form of the
    digest, so a digest has one spelling only. *)
Theorem principal_roundtrip :
  (∀ p, well_formed p → parse (text p) = Expected p) ∧
  (∀ s p, parse s = Expected p → well_formed p ∧ text p = s).
Proof.
  split.
  - intros [bs] [Hlen Hbs]. unfold parse, text. simpl in *.
    rewrite <- length_chars, chars_of_chars, length_bind_pairs, Hlen. simpl.
    pose proof (parse_text_loop bs [] (replicate 32 0) Hbs) as H. simpl in H.
    rewrite H; [done|by rewrite Hlen|]. repeat constructor.
  - intros s p. unfold parse. rewrite <- length_chars.
    destruct (Z.eqb_spec (Z.of_nat (length (chars s))) (32 * 2)) as [E|]; [|done]. cbn [negb].
    destruct (parse_loop (chars s) 0 (replicate 32 0)) as [bs|] eqn:Ep; [|done]. intros [= <-].
    destruct (parse_loop_text 32 (chars s) [] (replicate 32 0) bs) as (bs' & -> & H1 & H2 & H3); try done.
    + lia.
    + repeat constructor.
    + split; [by split|]. unfold text. simpl. by rewrite H3, of_chars_chars.
Qed.
End Principal.

(** ** Numbers in text *)

(** [std::from_chars] into an [unsigned], base 10: the digits read and the rest. *)
Fixpoint from_digits (acc : Z) (cs : list Ascii.ascii) : Z * list Ascii.ascii :=
  match cs with
  | c :: rest => if is_digit c then from_digits (acc * 10 + (ord c - 48)) rest else (acc, cs)
  | [] => (acc, [])
  end.

Definition from_chars (cs : list Ascii.ascii) : option (Z * list Ascii.ascii) :=
  match cs with
  | c :: _ =>
      if is_digit c then
        let '(n, rest) := from_digits 0 cs in
        if 2 ^ 32 <=? n then None else Some (n, rest)
      else None
  | [] => None
  end.

(** [std::to_string] of an unsigned number; twenty digits cover 64 bits. *)
Fixpoint digits (fuel : nat) (n : Z) (tail : list Ascii.ascii) : list Ascii.ascii :=
  match fuel with
  | O => tail
  | S fuel =>
      let tail := chr (48 + n mod 10) :: tail in
      if n <? 10 then tail else digits fuel (n / 10) tail
  end.

Definition to_string (n : Z) : string := of_chars (digits 20 n []).

Lemma is_digit_chr d : 0 <= d < 10 → is_digit (chr (48 + d)) = true ∧ ord (chr (48 + d)) - 48 = d.
Proof.
  intros Hd. unfold is_digit. rewrite ord_chr by lia. split; [|lia].
  by rewrite (proj2 (Z.leb_le _ _)), (proj2 (Z.leb_le _ _)) by lia.
Qed.

Lemma from_digits_digits fuel n tail :
  0 <= n < 10 ^ Z.of_nat fuel →
  ∃ k, ∀ acc, from_digits acc (digits fuel n tail) = from_digits (acc * k + n) tail.
Proof.
  revert n tail. induction fuel as [|fuel IH]; intros n tail Hn.
  { simpl in Hn. exists 1. intros acc. simpl. f_equal. lia. }
  pose proof (Z.mod_pos_bound n 10 ltac:(lia)). pose proof (Z.div_mod n 10 ltac:(lia)).
  destruct (is_digit_chr (n mod 10)) as [D1 D2]; [lia|]. cbn [digits].
  destruct (Z.ltb_spec n 10) as [Hlt|Hge].
  - exists 10. intros acc. cbn [from_digits]. rewrite D1, D2, Z.mod_small by lia. done.
  - destruct (IH (n / 10) (chr (48 + n mod 10) :: tail)) as [k Hk].
    { rewrite Nat2Z.inj_succ, Z.pow_succ_r in Hn by lia. split; [apply Z.div_pos; lia|].
      apply Z.div_lt_upper_bound; lia. }
    exists (10 * k). intros acc. rewrite Hk. cbn [from_digits]. rewrite D1, D2. f_equal. lia.
Qed.

Lemma digits_shape fuel n tail :
  0 <= n → Forall (λ c, is_digit c = true) tail → (0 < fuel)%nat →
  ∃ c rest, digits fuel n tail = c :: rest ∧ Forall (λ c, is_digit c = true) (c :: rest).
Proof.
  revert n tail. induction fuel as [|fuel IH]; intros n tail Hn Ht Hf; [lia|]. cbn [digits].
  pose proof (Z.mod_pos_bound n 10 ltac:(lia)). destruct (is_digit_chr (n mod 10)) as [D1 _]; [lia|].
  assert (Ht' : Forall (λ c, is_digit c = true) (chr (48 + n mod 10) :: tail)) by (by constructor).
  destruct (n <? 10); [by eauto|]. destruct fuel as [|fuel]; [by simpl; eauto|].
  apply IH; [apply Z.div_pos; lia|done|lia].
Qed.

Lemma from_chars_to_string n :
  0 <= n < 2 ^ 32 → from_chars (chars (to_string n)) = Some (n, []).
Proof.
  intros Hn. unfold to_string. rewrite chars_of_chars.
  destruct (digits_shape 20 n []) as (c & rest & E & Hd); [lia|constructor|lia|].
  destruct (from_digits_digits 20 n []) as [k Hk]; [simpl; lia|].
  unfold from_chars. rewrite E in *. apply Forall_cons_1 in Hd as [Hc _]. rewrite Hc, Hk. cbn [from_digits].
  rewrite Z.mul_0_l, Z.add_0_l. by rewrite (proj2 (Z.leb_gt _ _)) by lia.
Qed.

(** The text before and after the last [sep]: [rfind] and [substr]. *)
Fixpoint split_last (sep : Ascii.ascii) (cs : list Ascii.ascii) : option (list Ascii.ascii * list Ascii.ascii) :=
  match cs with
  | [] => None
  | c :: cs =>
      match split_last sep cs with
      | Some (pre, post) => Some (c :: pre, post)
      | None => if Ascii.eqb c sep then Some ([], cs) else None
      end
  end.

Lemma split_last_none sep cs : sep ∉ cs → split_last sep cs = None.
Proof.
  induction cs as [|c cs IH]; intros H; [done|]. apply not_elem_of_cons in H as [H1 H2]. simpl.
  rewrite IH by done. destruct (Ascii.eqb_spec c sep); [by subst|done].
Qed.

Lemma split_last_app sep pre post : sep ∉ post → split_last sep (pre ++ sep :: post) = Some (pre, post).
Proof.
  intros H. induction pre as [|c pre IH]; simpl.
  - rewrite split_last_none by done. by rewrite Ascii.eqb_refl.
  - by rewrite IH.
Qed.

(** [std::views::split]. *)
Fixpoint split_on (sep : Ascii.ascii) (cs : list Ascii.ascii) : list (list Ascii.ascii) :=
  match cs with
  | [] => [[]]
  | c :: cs =>
      if Ascii.eqb c sep then [] :: split_on sep cs
      else match split_on sep cs with
           | part :: parts => (c :: part) :: parts
           | [] => [[c]]
           end
  end.

Definition colon : Ascii.ascii := ":"%char.
Definition starts_with (c : Ascii.ascii) (cs : list Ascii.ascii) : bool :=
  match head cs with Some d => Ascii.eqb c d | None => false end.
Definition ends_with (c : Ascii.ascii) (cs : list Ascii.ascii) : bool :=
  match last cs with Some d => Ascii.eqb c d | None => false end.

(** [port_number]. *)
Definition port_number (value : list Ascii.ascii) (local : bool) : Result Z :=
  match from_chars value with
  | Some (port, []) =>
      if (65535 <? port) || (negb local && (port =? 0)) then Unexpected configuration
      else Expected port
  | _ => Unexpected configuration
  end.

Lemma port_number_range value local port :
  port_number value local = Expected port → (0 <= port <= 65535) ∧ (local = false → port ≠ 0).
Proof.
  unfold port_number, from_chars. destruct value as [|c cs]; [done|].
  destruct (is_digit c); [|done]. destruct (from_digits 0 (c :: cs)) as [n rest] eqn:E.
  assert (Hn : 0 <= n).
  { assert (H : ∀ l acc, 0 <= acc → 0 <= (from_digits acc l).1).
    { clear. induction l as [|x l IH]; intros acc Ha; [done|]. cbn [from_digits].
      destruct (is_digit x) eqn:Ex; [|done]. apply IH. unfold is_digit in Ex.
      apply andb_true_iff in Ex as [Ex _]. apply Z.leb_le in Ex. lia. }
    specialize (H (c :: cs) 0 ltac:(lia)). by rewrite E in H. }
  destruct (2 ^ 32 <=? n); [done|]. destruct rest; [|done].
  destruct (Z.ltb_spec 65535 n); [done|]. cbn [orb].
  destruct (negb local && (n =? 0)) eqn:E0; [done|]. intros [= <-]. split; [lia|].
  intros ->. simpl in E0. by apply Z.eqb_neq.
Qed.

Lemma port_number_text port local :
  0 <= port <= 65535 → (local = false → port ≠ 0) → port_number (chars (to_string port)) local = Expected port.
Proof.
  intros Hp Hl. unfold port_number. rewrite from_chars_to_string by lia.
  rewrite (proj2 (Z.ltb_ge _ _)) by lia. cbn [orb].
  destruct local; [done|]. cbn [negb andb]. by rewrite (proj2 (Z.eqb_neq _ _)) by auto.
Qed.

(** ** The C library's address conversions *)
Definition family_size (ipv6 : bool) : nat := if ipv6 then 16 else 4.
Definition octets (ipv6 : bool) (b : list Z) : Prop :=
  length b = family_size ipv6 ∧ Forall (λ x, 0 <= x < 256) b.

(** Characters of a numeric address: hexadecimal digits, dots and colons. *)
Definition numeric_char (c : Ascii.ascii) : bool :=
  is_digit c || ((97 <=? ord c) && (ord c <=? 102)) || Ascii.eqb c "."%char || Ascii.eqb c colon.

(** [inet_pton] reads the address of one family, [inet_ntop] writes numeric
    text that reads back to the same octets. *)
Class Inet := {
  inet_pton : bool → string → option (list Z);
  inet_ntop : bool → list Z → option string;
  pton_octets : ∀ ipv6 s b, inet_pton ipv6 s = Some b → octets ipv6 b;
  ntop_pton : ∀ ipv6 b s, octets ipv6 b → inet_ntop ipv6 b = Some s → inet_pton ipv6 s = Some b;
  ntop_numeric : ∀ ipv6 b s, octets ipv6 b → inet_ntop ipv6 b = Some s →
    Forall (λ c, numeric_char c = true) (chars s)
}.

(** ** Endpoints *)
Module Endpoint.

Record Endpoint := { host : string; port : Z; ipv6 : bool; wildcard : bool }.

#[global] Instance endpoint_eq_dec : EqDecision Endpoint.
Proof. solve_decision. Defined.

Definition opening : Ascii.ascii := "["%char.
Definition closing : Ascii.ascii := "]"%char.

(** [Endpoint::text]. *)
Definition text (e : Endpoint) : string :=
  ((if ipv6 e then "[" +:+ host e +:+ "]" else host e) +:+ ":" +:+ to_string (port e)).

Section parsing.
Context `{Inet}.

(** The part of [Endpoint::parse] after the port has been read. *)
Definition parse_host (host : list Ascii.ascii) (port : Z) (local : bool) : Result Endpoint :=
  let ipv6 := starts_with opening host && ends_with closing host in
  let host := if ipv6 then take (length host - 2) (drop 1 host) else host in
  if existsb (λ c, Ascii.eqb c Ascii.zero) host then Unexpected configuration
  else
    match inet_pton ipv6 (of_chars host) with
    | None => Unexpected configuration
    | Some bytes =>
        let at_ i := default 0 (bytes !! i) in
        let wildcard := forallb (Z.eqb 0) bytes in
        let multicast := if ipv6 then at_ 0%nat =? 255 else (224 <=? at_ 0%nat) && (at_ 0%nat <=? 239) in
        let mapped := ipv6 && forallb (Z.eqb 0) (take 10 bytes) && (at_ 10%nat =? 255) && (at_ 11%nat =? 255) in
        if multicast || mapped || (negb local && wildcard) then Unexpected configuration
        else
          match inet_ntop ipv6 bytes with
          | None => Unexpected internal
          | Some normalized =>
              Expected {| host := normalized; port := port; ipv6 := ipv6; wildcard := wildcard |}
          end
    end.

Definition parse (value : string) (local : bool) : Result Endpoint :=
  match split_last colon (chars value) with
  | None => Unexpected configuration
  | Some (host, port) =>
      match port_number port local with
      | Unexpected e => Unexpected e
      | Expected port => parse_host host port local
      end
  end.

Lemma chars_app s t : chars (s +:+ t) = chars s ++ chars t.
Proof. induction s as [|c s IH]; [done|]. simpl. by rewrite IH. Qed.

Lemma port_text_plain n : 0 <= n → colon ∉ chars (to_string n).
Proof.
  intros Hn. unfold to_string. rewrite chars_of_chars.
  destruct (digits_shape 20 n []) as (c & rest & -> & Hd); [lia|constructor|lia|].
  intros Hin. eapply Forall_forall in Hd; [|exact Hin]. done.
Qed.

(** The printed host reads back as the same family and the same text. *)
Lemma parse_host_text e v6 b local port :
  octets v6 b → inet_ntop v6 b = Some e →
  parse_host (chars (if v6 then "[" +:+ e +:+ "]" else e)) port local =
  let at_ i := default 0 (b !! i) in
  let wildcard := forallb (Z.eqb 0) b in
  let multicast := if v6 then at_ 0%nat =? 255 else (224 <=? at_ 0%nat) && (at_ 0%nat <=? 239) in
  let mapped := v6 && forallb (Z.eqb 0) (take 10 b) && (at_ 10%nat =? 255) && (at_ 11%nat =? 255) in
  if multicast || mapped || (negb local && wildcard) then Unexpected configuration
  else Expected {| host := e; port := port; ipv6 := v6; wildcard := wildcard |}.
Proof.
  intros Hb He. pose proof (ntop_numeric v6 b e Hb He) as Hnum. unfold parse_host.
  assert (Hflag : (let host := chars (if v6 then "[" +:+ e +:+ "]" else e) in
    starts_with opening host && ends_with closing host) = v6).
  { destruct v6; cbv zeta.
    - rewrite !chars_app. change (chars "[") with [opening]. change (chars "]") with [closing].
      unfold starts_with, ends_with. rewrite last_app, last_app. simpl. done.
    - destruct (chars e) as [|c cs]; [done|]. apply Forall_cons_1 in Hnum as [Hc _].
      unfold starts_with. cbn [head]. destruct (Ascii.eqb_spec opening c) as [<-|]; [done|done]. }
  cbv zeta in Hflag. rewrite Hflag.
  assert (Hhost : (if v6 then take (length (chars (if v6 then "[" +:+ e +:+ "]" else e)) - 2)
      (drop 1 (chars (if v6 then "[" +:+ e +:+ "]" else e)))
    else chars (if v6 then "[" +:+ e +:+ "]" else e)) = chars e).
  { destruct v6; [|done]. rewrite !chars_app. change (chars "[") with [opening]. change (chars "]") with [closing].
    simpl. rewrite length_app. simpl. replace (length (chars e) + 1 - 1)%nat with (length (chars e)) by lia.
    apply take_app_length. }
  cbv zeta. rewrite Hhost.
  replace (existsb (λ c, Ascii.eqb c Ascii.zero) (chars e)) with false.
  2: { symmetry. apply not_true_is_false. intros (c & Hin & Hc)%existsb_exists.
       apply Ascii.eqb_eq in Hc as ->. apply list_elem_of_In in Hin.
       eapply Forall_forall in Hnum; [|exact Hin]. done. }
  rewrite of_chars_chars, (ntop_pton v6 b e Hb He), He. by destruct (_ || _).
Qed.

(** What [parse] returns. *)
Lemma parse_host_inv host0 port0 local e :
  parse_host host0 port0 local = Expected e →
  port e = port0 ∧
  ∃ b, octets (ipv6 e) b ∧ inet_ntop (ipv6 e) b = Some (host e) ∧
    parse_host (chars (if ipv6 e then "[" +:+ host e +:+ "]" else host e)) port0 local = Expected e.
Proof.
  intros Hp. pose proof Hp as Hp'. unfold parse_host in Hp.
  set (v6 := starts_with opening host0 && ends_with closing host0) in *.
  cbv beta zeta in Hp. destruct (existsb _ _); [done|].
  destruct (inet_pton v6 _) as [b|] eqn:Eb; [|done]. apply pton_octets in Eb as Hb.
  match type of Hp with (if ?c then _ else _) = _ => destruct c eqn:Ec end; [done|].
  destruct (inet_ntop v6 b) as [s|] eqn:Es; [|done]. injection Hp as <-. cbn [Endpoint.host Endpoint.port Endpoint.ipv6 Endpoint.wildcard]. split; [done|].
  exists b. split; [done|]. split; [done|]. rewrite (parse_host_text s v6 b) by done. cbv beta zeta.
  by rewrite Ec.
Qed.

(** Endpoints have one spelling: what [parse] accepts it has normalised, since
    the printed form of the result parses to the same endpoint; so two accepted
    endpoints with the same text are the same endpoint. *)
Theorem endpoint_canonical (value : string) (local : bool) (e : Endpoint) :
  parse value local = Expected e →
  parse (text e) local = Expected e ∧
  ∀ value' local' e', parse value' local' = Expected e' → text e' = text e → e' = e.
Proof.
  assert (Hcan : ∀ value local e, parse value local = Expected e →
    parse (text e) local = Expected e ∧ parse (text e) true = Expected e).
  { clear. intros value local e Hp. unfold parse in Hp.
    destruct (split_last colon (chars value)) as [[h p]|]; [|done].
    destruct (port_number p local) as [n|] eqn:En; [|done].
    destruct (port_number_range _ _ _ En) as [Hn H0].
    destruct (parse_host_inv _ _ _ _ Hp) as (<- & b & Hb & He & Hp').
    assert (Hsplit : split_last colon (chars (text e)) =
      Some (chars (if ipv6 e then "[" +:+ host e +:+ "]" else host e), chars (to_string (port e)))).
    { unfold text. rewrite !chars_app. change (chars ":") with [colon]. simpl app.
      apply split_last_app, port_text_plain. lia. }
    unfold parse. rewrite Hsplit, !port_number_text by (auto; lia). split; [done|].
    rewrite (parse_host_text (host e) (ipv6 e) b) in Hp' |- * by done. cbv beta zeta in *.
    match type of Hp' with (if ?m || ?w then _ else _) = _ => destruct m eqn:Em; [done|] end.
    cbn [orb negb andb] in *. by destruct (negb local && _). }
  intros Hp. destruct (Hcan _ _ _ Hp) as [H1 H2]. split; [done|].
  intros value' local' e' Hp' Ht. destruct (Hcan _ _ _ Hp') as [_ H3]. rewrite Ht in H3. congruence.
Qed.
End parsing.
End Endpoint.

(** ** Members *)

(** [Member::Role]. *)
Inductive Role := star | planet | polaris | astrolabe.

#[global] Instance role_eq_dec : EqDecision Role.
Proof. solve_decision. Defined.

Record Member := {
  galaxy : string;
  id : string;
  principal : Principal.Principal;
  address : Endpoint.Endpoint;
  epoch : Z;
  role : Role;
  group : string
}.

#[global] Instance member_eq_dec : EqDecision Member.
Proof. solve_decision. Defined.

Definition letter (c : ascii) : bool :=
  ((97 <=? ord c) && (ord c <=? 122)) || ((65 <=? ord c) && (ord c <=? 90)).

(** [Member::valid_name]. *)
Definition valid_name (value : string) : bool :=
  let cs := chars value in
  negb (bool_decide (cs = [])) && (Z.of_nat (length cs) <=? 64)
  && forallb (λ c, letter c || is_digit c || Ascii.eqb c "."%char || Ascii.eqb c "_"%char
                   || Ascii.eqb c "-"%char) cs.

(** [Member::valid_id]. *)
Definition valid_id (value : string) : bool :=
  let cs := chars value in
  if bool_decide (cs = []) || (128 <? Z.of_nat (length cs)) then false
  else forallb (λ part, bool_decide (part = []) || Scope.text (of_chars part) 128)
         (split_on Ascii.zero cs).

Section members.
Context `{Inet}.

(** [Member::validate]; every constructor of [Role] is a supported role. *)
Definition validate (m : Member) : Result unit :=
  if negb (valid_name (galaxy m)) || negb (valid_name (group m)) || negb (valid_id (id m)) || (epoch m =? 0)
  then Unexpected identity
  else
    match Endpoint.parse (Endpoint.text (address m)) false with
    | Expected endpoint =>
        if bool_decide (endpoint = address m) then Expected tt else Unexpected identity
    | Unexpected _ => Unexpected identity
    end.

(** Valid members with the same printed address have the same address. *)
Lemma validate_address m m' :
  validate m = Expected tt → validate m' = Expected tt →
  Endpoint.text (address m) = Endpoint.text (address m') → address m = address m'.
Proof.
  assert (Hv : ∀ m, validate m = Expected tt →
    Endpoint.parse (Endpoint.text (address m)) false = Expected (address m)).
  { clear. intros m. unfold validate. destruct (_ || _); [done|].
    destruct (Endpoint.parse _ _) as [e|]; [|done]. by case_bool_decide; subst. }
  intros H1%Hv H2%Hv E. rewrite E in H1. congruence.
Qed.

(** [std::string(host).c_str()] as a C function reads it. *)
Fixpoint until_nul (cs : list ascii) : list ascii :=
  match cs with
  | [] => []
  | c :: cs => if Ascii.eqb c Ascii.zero then [] else c :: until_nul cs
  end.

Definition label_ok (part : list ascii) : bool :=
  negb (bool_decide (part = [])) && (Z.of_nat (length part) <=? 63)
  && negb (starts_with "-"%char part) && negb (ends_with "-"%char part)
  && forallb (λ c, letter c || is_digit c || Ascii.eqb c "-"%char) part.

(** [Config::format_pulsar]. *)
Definition format_pulsar (value : string) : Result string :=
  match Endpoint.parse value false with
  | Expected endpoint => Expected (Endpoint.text endpoint)
  | Unexpected _ =>
      match split_last colon (chars value) with
      | None => Unexpected configuration
      | Some (host, port) =>
          match port_number port false with
          | Unexpected _ => Unexpected configuration
          | Expected _ =>
              if bool_decide (is_Some (inet_pton false (of_chars (until_nul host))))
              then Unexpected configuration
              else if bool_decide (host = []) || (253 <? Z.of_nat (length host))
              then Unexpected configuration
              else if negb (forallb label_ok (split_on "."%char host)) then Unexpected configuration
              else Expected value
          end
      end
  end.
End members.

(** ** Shared policy rules: [policy.cpp] *)

(** The retry settings of [Config] the rules use. *)
Record Retry := { reconnect_min : Z; reconnect_max : Z }.

(** [supersedes]. *)
Definition supersedes (candidate current : Member) : Result bool :=
  if bool_decide (principal candidate ≠ principal current) || bool_decide (role candidate ≠ role current)
     || bool_decide (address candidate ≠ address current) || bool_decide (galaxy candidate ≠ galaxy current)
     || (epoch candidate <? epoch current)
     || ((epoch candidate =? epoch current) && bool_decide (candidate ≠ current))
  then Unexpected conflict
  else Expected (epoch current <? epoch candidate).

(** [retry_delay]; durations are 64-bit counts of milliseconds. *)
Definition retry_delay (failures : Z) (config : Retry) (salt : Z) : Z :=
  let shift := Z.min (if failures =? 0 then 0 else failures - 1) 16 in
  let base := Z.min (reconnect_min config * Z.shiftl 1 shift) (reconnect_max config) in
  let lower := Z.max (base - base / 4) (reconnect_min config) in
  let upper := Z.min (base + base / 4) (reconnect_max config) in
  lower + wrap64 (salt + failures) mod (upper - lower + 1).

(** The exponential the delay follows. *)
Definition backoff (failures : Z) (config : Retry) : Z :=
  Z.min (reconnect_min config * 2 ^ Z.min (Z.max 0 (failures - 1)) 16) (reconnect_max config).

(** Retries stay within the configured bounds.  The delay lies between
    [reconnect_min] and [reconnect_max] and within a quarter of the capped
    exponential of the failure count, and no intermediate value leaves the
    64-bit range. *)
Theorem retry_delay_bounds (failures : Z) (config : Retry) (salt : Z) :
  0 <= failures < 2 ^ 32 → 0 < reconnect_min config <= reconnect_max config →
  reconnect_max config * 2 ^ 17 <= i64_max →
  let d := retry_delay failures config salt in let b := backoff failures config in
  reconnect_min config <= d <= reconnect_max config ∧
  b - b / 4 <= d <= b + b / 4 ∧
  0 <= reconnect_min config * 2 ^ 16 <= i64_max ∧ b + b / 4 + 1 <= i64_max.
Proof.
  intros Hf Hc Hmax d b.
  assert (Hb : Z.min (reconnect_min config * Z.shiftl 1 (Z.min (if failures =? 0 then 0 else failures - 1) 16))
                 (reconnect_max config) = b).
  { unfold b, backoff. rewrite Z.shiftl_1_l. do 3 f_equal. destruct (Z.eqb_spec failures 0); lia. }
  unfold d, retry_delay. rewrite Hb.
  assert (Hlow : reconnect_min config <= b <= reconnect_max config).
  { unfold b, backoff. assert (1 <= 2 ^ Z.min (Z.max 0 (failures - 1)) 16); [|nia].
    change 1 with (2 ^ 0) at 1. apply Z.pow_le_mono_r; lia. }
  pose proof (Z.div_pos b 4 ltac:(lia) ltac:(lia)). pose proof (Z.mul_div_le b 4 ltac:(lia)).
  set (lower := Z.max _ _). set (upper := Z.min _ _).
  pose proof (Z.mod_pos_bound (wrap64 (salt + failures)) (upper - lower + 1) ltac:(lia)).
  change (2 ^ 17) with 131072 in Hmax. change (2 ^ 16) with 65536. lia.
Qed.

Module Sample.

(** A numeric notation that satisfies the laws: two hexadecimal digits for each
    octet of either family. *)
Definition hex (b : list Z) : list ascii :=
  o ← b; [Principal.digit (Z.shiftr o 4); Principal.digit (Z.land o 15)].

Definition hex_pton (v6 : bool) (s : string) : option (list Z) :=
  if (length (chars s) =? 2 * family_size v6)%nat then
    match Principal.parse_loop (chars s) 0 (replicate (family_size v6) 0) with
    | Expected b => Some b
    | Unexpected _ => None
    end
  else None.

Definition hex_ntop (v6 : bool) (b : list Z) : option string := Some (of_chars (hex b)).

Lemma zeros n : Forall (eq 0) (replicate n 0).
Proof. by apply Forall_replicate. Qed.

Lemma hex_pton_octets v6 s b : hex_pton v6 s = Some b → octets v6 b.
Proof.
  unfold hex_pton. destruct (Nat.eqb_spec (length (chars s)) (2 * family_size v6)) as [E|]; [|done].
  destruct (Principal.parse_loop _ _ _) as [bs|] eqn:Ep; [|done]. intros [= <-].
  destruct (Principal.parse_loop_text (family_size v6) (chars s) [] (replicate (family_size v6) 0) bs)
    as (bs' & -> & H1 & H2 & _); [done|by rewrite length_replicate|apply zeros|done|]. by split.
Qed.

Lemma hex_ntop_pton v6 b s : octets v6 b → hex_ntop v6 b = Some s → hex_pton v6 s = Some b.
Proof.
  intros [Hl Hb] [= <-]. unfold hex_pton. rewrite chars_of_chars. unfold hex.
  rewrite Principal.length_bind_pairs, Hl, Nat.eqb_refl.
  pose proof (Principal.parse_text_loop b [] (replicate (family_size v6) 0) Hb) as H. simpl in H.
  rewrite H; [done|by rewrite length_replicate, Hl|apply zeros].
Qed.

Lemma hex_ntop_numeric v6 b s :
  octets v6 b → hex_ntop v6 b = Some s → Forall (λ c, numeric_char c = true) (chars s).
Proof.
  intros [_ Hb] [= <-]. rewrite chars_of_chars. unfold hex. induction Hb as [|x b Hx Hb IH]; [constructor|].
  assert (Hd : ∀ n, 0 <= n < 16 → numeric_char (Principal.digit n) = true).
  { intros n Hn. destruct (Principal.hex_digit_spec n Hn) as [Ha _]. unfold Principal.accepted in Ha.
    unfold numeric_char, is_digit. by rewrite Ha. }
  destruct (Principal.pair_text x Hx) as (P1 & P2 & _). simpl. constructor; [by apply Hd|].
  constructor; [by apply Hd|exact IH].
Qed.

#[export] Instance hex_inet : Inet := {
  inet_pton := hex_pton; inet_ntop := hex_ntop; pton_octets := hex_pton_octets;
  ntop_pton := hex_ntop_pton; ntop_numeric := hex_ntop_numeric
}.

Definition endpoint : Endpoint.Endpoint :=
  {| Endpoint.host := "7f000001"; Endpoint.port := 80; Endpoint.ipv6 := false; Endpoint.wildcard := false |}.

Example parses :
  Endpoint.parse "7f000001:0080" false = Expected endpoint ∧ Endpoint.text endpoint = "7f000001:80"%string.
Proof. vm_compute. done. Qed.

Lemma endpoint_canonical_witness :
  Endpoint.parse (Endpoint.text endpoint) false = Expected endpoint ∧
  ∀ value' local' e', Endpoint.parse value' local' = Expected e' →
    Endpoint.text e' = Endpoint.text endpoint → e' = endpoint.
Proof.
  apply (Endpoint.endpoint_canonical "7f000001:0080" false endpoint). vm_compute. reflexivity.
Defined.

Lemma retry_delay_bounds_witness :
  let c := {| reconnect_min := 100; reconnect_max := 5000 |} in
  let d := retry_delay 4 c 77 in let b := backoff 4 c in
  reconnect_min c <= d <= reconnect_max c ∧ b - b / 4 <= d <= b + b / 4 ∧
  0 <= reconnect_min c * 2 ^ 16 <= i64_max ∧ b + b / 4 + 1 <= i64_max.
Proof.
  apply (retry_delay_bounds 4 {| reconnect_min := 100; reconnect_max := 5000 |} 77);
    vm_compute; try split; congruence.
Defined.
End Sample.
