(* ===== verification/Topology.v ===== *)
(** The star topology policy: [astra/star/src/topology.hpp] and
    [astra/star/src/topology.cpp], with the interface of
    [astra/common/include/astra/policy.hpp].

    [Star] keeps the known members, the one active stream of each and the retry
    schedule.  It performs no I/O: every operation runs under one mutex and
    returns the sessions its caller must cancel.  Times are nanoseconds of the
    monotonic clock.  [std::hash] is a parameter. *)
From Stdlib Require Import Ascii.
From stdpp Require Import base numbers strings gmap sorting list.
From S2P Require Import Prelude Scope Types.

Abbreviation Principal := Principal.Principal.
Abbreviation Generation := Z.

(** [Policy::Direction]. *)
Inductive Direction := outbound | inbound.

#[global] Instance direction_eq_dec : EqDecision Direction.
Proof. solve_decision. Defined.

(** The settings of [Config] the policy uses. *)
Record Config := {
  config_galaxy : string;
  max_members : Z;
  retry : Retry;
  stable_connection : Z
}.

(** [Star::Entry]; slot 0 is outbound, slot 1 inbound. *)
Record Entry := {
  member : Member;
  out_session : option Generation;
  in_session : option Generation;
  pending : bool;
  failures : Z;
  next : Z;
  connected : Z
}.

Definition new_entry (m : Member) : Entry :=
  {| member := m; out_session := None; in_session := None; pending := false; failures := 0;
     next := 0; connected := 0 |}.

Record Star := { config_ : Config; local_ : option Member; members_ : gmap Principal Entry }.

Definition make_star (config : Config) : Star :=
  {| config_ := config; local_ := None; members_ := ∅ |}.

(** [std::map] order: digests compare byte by byte. *)
Fixpoint bytes_leb (a b : list Z) : bool :=
  match a, b with
  | [], _ => true
  | _ :: _, [] => false
  | x :: a, y :: b => (x <? y) || ((x =? y) && bytes_leb a b)
  end.

Definition principal_le (p q : Principal * Entry) : Prop :=
  Is_true (bytes_leb (Principal.bytes p.1) (Principal.bytes q.1)).

#[global] Instance principal_le_dec : RelDecision principal_le.
Proof. intros p q. unfold principal_le. apply _. Defined.

Definition in_order (m : gmap Principal Entry) : list (Principal * Entry) :=
  merge_sort principal_le (map_to_list m).

Definition set_members (m : gmap Principal Entry) (s : Star) : Star :=
  {| config_ := config_ s; local_ := local_ s; members_ := m |}.

(** [std::expected::has_value]. *)
Definition has_value {A E} (r : expected A E) : bool :=
  match r with Expected _ => true | Unexpected _ => false end.

(** ** Installing a member list *)

Section operations.
Context `{Inet}.

(** The loop of [initialize] over the complete list. *)
Fixpoint initialize_loop (config : Config) (local : Member) (members : list Member)
    (prepared : gmap Principal Entry) (previous : option string) (found : bool)
    : Result (gmap Principal Entry * bool) :=
  match members with
  | [] => Expected (prepared, found)
  | m :: rest =>
      if negb (has_value (validate m)) || bool_decide (galaxy m ≠ config_galaxy config)
         || bool_decide (role m ≠ star)
         || match previous with Some p => String.leb (id m) p | None => false end
      then Unexpected identity
      else if bool_decide (principal m = principal local) then
        if bool_decide (m ≠ local) then Unexpected identity
        else initialize_loop config local rest prepared (Some (id m)) true
      else if bool_decide (is_Some (prepared !! principal m)) then Unexpected identity
      else initialize_loop config local rest (<[principal m := new_entry m]> prepared) (Some (id m)) found
  end.

(** [std::ranges::adjacent_find]. *)
Fixpoint adjacent_equal (l : list string) : bool :=
  match l with
  | a :: (b :: _) as rest => String.eqb a b || adjacent_equal rest
  | _ => false
  end.

(** The checks of [initialize], up to the final lock. *)
Definition prepare_list (config : Config) (local : Member) (members : list Member)
    : Result (gmap Principal Entry) :=
  if bool_decide (members = []) || (max_members config <? Z.of_nat (length members))
  then Unexpected capacity
  else
    match initialize_loop config local members ∅ None false with
    | Unexpected e => Unexpected e
    | Expected (prepared, found) =>
        if negb found then Unexpected identity
        else if adjacent_equal (merge_sort String.le ((λ m, Endpoint.text (address m)) <$> members))
        then Unexpected identity
        else Expected prepared
    end.

(** [Star::initialize]. *)
Definition initialize (local : Member) (members : list Member) (s : Star) : Result unit * Star :=
  match prepare_list (config_ s) local members with
  | Unexpected e => (Unexpected e, s)
  | Expected prepared =>
      match local_ s with
      | Some _ => (Unexpected conflict, s)
      | None => (Expected tt, {| config_ := config_ s; local_ := Some local; members_ := prepared |})
      end
  end.

Definition sessions (e : Entry) : list Generation :=
  match out_session e with Some g => [g] | None => [] end ++
  match in_session e with Some g => [g] | None => [] end.

(** The merge loop of [refresh]. *)
Fixpoint merge_loop (incoming : list (Principal * Entry)) (prepared : gmap Principal Entry)
    (dropped : list Generation) : Result (gmap Principal Entry * list Generation) :=
  match incoming with
  | [] => Expected (prepared, dropped)
  | (p, e) :: rest =>
      match prepared !! p with
      | None => merge_loop rest (<[p := e]> prepared) dropped
      | Some old =>
          if epoch (member e) <? epoch (member old) then merge_loop rest prepared dropped
          else
            match supersedes (member e) (member old) with
            | Unexpected err => Unexpected err
            | Expected false => merge_loop rest prepared dropped
            | Expected true => merge_loop rest (<[p := e]> prepared) (dropped ++ sessions old)
            end
      end
  end.

(** The alias and capacity loop of [refresh]. *)
Fixpoint alias_loop (local : Member) (entries : list (Principal * Entry)) (ids : list string)
    (addresses : list Endpoint.Endpoint) (stars : Z) : Result Z :=
  match entries with
  | [] => Expected stars
  | (_, e) :: rest =>
      let m := member e in
      let stars := if bool_decide (role m = star) then stars + 1 else stars in
      if String.eqb (id m) (id local) || bool_decide (address m = address local)
         || bool_decide (id m ∈ ids) || bool_decide (address m ∈ addresses)
      then Unexpected identity
      else alias_loop local rest (id m :: ids) (address m :: addresses) stars
  end.

(** [Star::refresh]. *)
Definition refresh (local : Member) (members : list Member) (s : Star)
    : Result (list Generation) * Star :=
  match initialize local members (make_star (config_ s)) with
  | (Unexpected e, _) => (Unexpected e, s)
  | (Expected _, candidate) =>
      if bool_decide (local_ s ≠ Some local) then (Unexpected identity, s)
      else
        match merge_loop (in_order (members_ candidate)) (members_ s) [] with
        | Unexpected e => (Unexpected e, s)
        | Expected (prepared, dropped) =>
            match alias_loop local (in_order prepared) [] [] 1 with
            | Unexpected e => (Unexpected e, s)
            | Expected stars =>
                if max_members (config_ s) <? stars then (Unexpected capacity, s)
                else (Expected dropped, set_members prepared s)
            end
        end
  end.
End operations.

(** ** Sessions *)

(** The guards of [accept] before the member is looked up. *)
Definition admissible (remote : Member) (d : Direction) (expected : option Member) (local : Member) : bool :=
  negb ((bool_decide (role remote ≠ star) && bool_decide (role remote ≠ planet))
        || bool_decide (galaxy remote ≠ galaxy local)
        || String.eqb (id remote) (id local) || bool_decide (principal remote = principal local)
        || bool_decide (address remote = address local)
        || (bool_decide (role remote = planet) && bool_decide (d ≠ inbound)))
  && match expected with
     | Some m => bool_decide (remote = m) && bool_decide (d = outbound)
     | None => true
     end.

Definition aliases (remote : Member) (s : Star) : bool :=
  existsb (λ p : Principal * Entry,
    bool_decide (p.1 ≠ principal remote)
    && (String.eqb (id (member p.2)) (id remote) || bool_decide (address (member p.2) = address remote)))
    (in_order (members_ s)).

Definition count_role (r : Role) (m : gmap Principal Entry) : Z :=
  Z.of_nat (length (filter (λ p : Principal * Entry, role (member p.2) = r) (in_order m))).

(** The member part of [accept]: the entry to use and the sessions it replaces. *)
Definition admit_member (remote : Member) (s : Star) : Result (Entry * list Generation) :=
  match members_ s !! principal remote with
  | None =>
      let maximum := max_members (config_ s) - (if bool_decide (role remote = star) then 1 else 0) in
      if maximum <=? count_role (role remote) (members_ s) then Unexpected capacity
      else Expected (new_entry remote, [])
  | Some existing =>
      match supersedes remote (member existing) with
      | Unexpected e => Unexpected e
      | Expected true => Expected (new_entry remote, sessions existing)
      | Expected false => Expected (existing, [])
      end
  end.

Definition slot (d : Direction) (e : Entry) : option Generation :=
  match d with outbound => out_session e | inbound => in_session e end.

Definition opposite (d : Direction) : Direction :=
  match d with outbound => inbound | inbound => outbound end.

(** [std::lexicographical_compare] on unsigned bytes: the candidate stream's
    initiator sorts before the current one's. *)
Definition preferred (d : Direction) (local remote : Member) : bool :=
  match d with
  | outbound => String.ltb (id local) (id remote)
  | inbound => String.ltb (id remote) (id local)
  end.

(** The final assignments of [accept]. *)
Definition occupy (d : Direction) (g : Generation) (drop_opposite : bool) (now : Z) (e : Entry) : Entry :=
  {| member := member e;
     out_session := match d with
                    | outbound => Some g
                    | inbound => if drop_opposite then None else out_session e
                    end;
     in_session := match d with
                   | inbound => Some g
                   | outbound => if drop_opposite then None else in_session e
                   end;
     pending := match d with outbound => false | inbound => pending e end;
     failures := failures e; next := next e; connected := now |}.

(** [Star::accept]. *)
Definition accept (remote : Member) (d : Direction) (g : Generation) (expected : option Member) (now : Z)
    (s : Star) : Result (list Generation) * Star :=
  match local_ s with
  | None => (Unexpected identity, s)
  | Some local =>
      if negb (admissible remote d expected local) then (Unexpected identity, s)
      else if aliases remote s then (Unexpected conflict, s)
      else
        match admit_member remote s with
        | Unexpected e => (Unexpected e, s)
        | Expected (entry, dropped) =>
            let put e := set_members (<[principal remote := e]> (members_ s)) s in
            match slot d entry with
            | Some _ => (Unexpected conflict, put entry)
            | None =>
                match slot (opposite d) entry with
                | Some other =>
                    if bool_decide (role remote = star) then
                      if preferred d local remote
                      then (Expected (dropped ++ [other]), put (occupy d g true now entry))
                      else (Unexpected conflict, put entry)
                    else (Expected dropped, put (occupy d g false now entry))
                | None => (Expected dropped, put (occupy d g false now entry))
                end
            end
        end
  end.

(** ** The retry schedule *)
Section schedule.
Context (hash : string → Z).

Definition nanoseconds (milliseconds : Z) : Z := milliseconds * 1000000.

Definition salt (p : Principal) (local : Member) : Z :=
  wrap64 (default 0 (Principal.bytes p !! 0%nat) + hash (id local)).

(** The entry after its current stream has gone. *)
Definition reset_entry (s : Star) (local : Member) (p : Principal) (now : Z) (d : Direction) (e : Entry) : Entry :=
  let fails := if nanoseconds (stable_connection (config_ s)) <=? now - connected e then 1
               else Z.min (failures e + 1) 100 in
  {| member := member e;
     out_session := match d with outbound => None | inbound => out_session e end;
     in_session := match d with inbound => None | outbound => in_session e end;
     pending := pending e; failures := fails;
     next := now + nanoseconds (retry_delay fails (retry (config_ s)) (salt p local));
     connected := connected e |}.

Definition holds (g : Generation) (e : Entry) : option Direction :=
  if bool_decide (out_session e = Some g) then Some outbound
  else if bool_decide (in_session e = Some g) then Some inbound else None.

(** [Star::closed]: the first slot that holds the generation. *)
Fixpoint closed_loop (g : Generation) (entries : list (Principal * Entry)) : option (Principal * Entry * Direction) :=
  match entries with
  | [] => None
  | (p, e) :: rest =>
      match holds g e with
      | Some d => Some (p, e, d)
      | None => closed_loop g rest
      end
  end.

(** An active session exists only after [initialize]: [local_] is set. *)
Definition closed (g : Generation) (now : Z) (s : Star) : Star :=
  match closed_loop g (in_order (members_ s)), local_ s with
  | Some (p, e, d), Some local =>
      set_members (<[p := reset_entry s local p now d e]> (members_ s)) s
  | _, _ => s
  end.

(** The condition of [due]. *)
Definition eligible (now : Z) (e : Entry) : bool :=
  bool_decide (role (member e) = star) && negb (pending e) && bool_decide (out_session e = None)
  && bool_decide (in_session e = None) && (next e <=? now).

Definition set_pending (b : bool) (e : Entry) : Entry :=
  {| member := member e; out_session := out_session e; in_session := in_session e; pending := b;
     failures := failures e; next := next e; connected := connected e |}.

(** [Star::due]. *)
Definition due (now : Z) (s : Star) : option Member * Star :=
  match local_ s with
  | None => (None, s)
  | Some _ =>
      match find (λ p : Principal * Entry, eligible now p.2) (in_order (members_ s)) with
      | Some (p, e) => (Some (member e), set_members (<[p := set_pending true e]> (members_ s)) s)
      | None => (None, s)
      end
  end.

(** [Star::failed]. *)
Definition failed (target : Member) (now : Z) (s : Star) : Star :=
  match members_ s !! principal target, local_ s with
  | Some e, Some local =>
      if bool_decide (member e = target) then
        let p := principal target in
        let e := set_pending false e in
        if bool_decide (is_Some (out_session e)) || bool_decide (is_Some (in_session e))
        then set_members (<[p := e]> (members_ s)) s
        else
          let fails := Z.min (failures e + 1) 100 in
          set_members (<[p := {| member := member e; out_session := None; in_session := None;
            pending := false; failures := fails;
            next := now + nanoseconds (retry_delay fails (retry (config_ s)) (salt p local));
            connected := connected e |}]> (members_ s)) s
      else s
  | _, _ => s
  end.
End schedule.

(** [Star::needs_refresh]. *)
Definition needs_refresh (now : Z) (s : Star) : bool := false.

(** [Policy::State] as a star fills it. *)
Record State := { initialized : bool; members : Z; state_inbound : Z; state_outbound : Z; planet_inbound : Z }.

Definition bit {A} (o : option A) : Z := match o with Some _ => 1 | None => 0 end.

(** One entry's share of [status]. *)
Definition tally (r : State) (p : Principal * Entry) : State :=
  if bool_decide (role (member p.2) = star) then
    {| initialized := initialized r; members := members r + 1;
       state_inbound := state_inbound r + bit (in_session p.2);
       state_outbound := state_outbound r + bit (out_session p.2);
       planet_inbound := planet_inbound r |}
  else
    {| initialized := initialized r; members := members r; state_inbound := state_inbound r;
       state_outbound := state_outbound r; planet_inbound := planet_inbound r + bit (in_session p.2) |}.

(** [Star::status]. *)
Definition status (s : Star) : State :=
  foldl tally {| initialized := bool_decide (is_Some (local_ s)); members := bit (local_ s);
                 state_inbound := 0; state_outbound := 0; planet_inbound := 0 |}
    (in_order (members_ s)).

(** ** Events *)
Inductive event :=
| Initialize (local : Member) (ms : list Member)
| Refresh (local : Member) (ms : list Member)
| Accept (remote : Member) (d : Direction) (g : Generation) (expected : option Member) (now : Z)
| Closed (g : Generation) (now : Z)
| Due (now : Z)
| Failed (target : Member) (now : Z).

Definition step `{Inet} (hash : string → Z) (s : Star) (e : event) : Star :=
  match e with
  | Initialize local ms => (initialize local ms s).2
  | Refresh local ms => (refresh local ms s).2
  | Accept remote d g expected now => (accept remote d g expected now s).2
  | Closed g now => closed hash g now s
  | Due now => (due now s).2
  | Failed target now => failed hash target now s
  end.

(** ** Incarnations *)

(** [m'] is the same deployment as [m] in the same or a later incarnation. *)
Record later (m m' : Member) : Prop := {
  lt_principal : principal m' = principal m;
  lt_role : role m' = role m;
  lt_address : address m' = address m;
  lt_galaxy : galaxy m' = galaxy m;
  lt_epoch : epoch m <= epoch m';
  lt_same : epoch m = epoch m' → m = m'
}.

Lemma later_refl m : later m m.
Proof. by split. Qed.

Lemma later_trans m1 m2 m3 : later m1 m2 → later m2 m3 → later m1 m3.
Proof.
  intros [] []. split; try congruence; [lia|]. intros E.
  assert (epoch m1 = epoch m2) by lia. assert (epoch m2 = epoch m3) by lia. naive_solver.
Qed.

Lemma supersedes_later m m' b : supersedes m' m = Expected b →
  later m m' ∧ (b = false → m' = m).
Proof.
  unfold supersedes. match goal with |- (if ?c then _ else _) = _ → _ => destruct c eqn:E end; [done|].
  intros [= <-]. rewrite !orb_false_iff, !bool_decide_eq_false in E.
  destruct E as [[[[[E1 E2] E3] E4] E5%Z.ltb_ge] E6].
  apply dec_stable in E1, E2, E3, E4.
  assert (Hsame : epoch m = epoch m' → m = m').
  { intros Heq. rewrite Heq, Z.eqb_refl in E6. simpl in E6. apply bool_decide_eq_false, dec_stable in E6. done. }
  split; [by split|]. intros Hle%Z.ltb_ge. symmetry. apply Hsame. lia.
Qed.

Definition evolves (m m' : gmap Principal Entry) : Prop :=
  ∀ p e, m !! p = Some e → ∃ e', m' !! p = Some e' ∧ later (member e) (member e').

Lemma star_evolves_refl m : evolves m m.
Proof. intros p e He. exists e. split; [done|apply later_refl]. Qed.

Lemma star_evolves_trans m1 m2 m3 : evolves m1 m2 → evolves m2 m3 → evolves m1 m3.
Proof.
  intros H1 H2 p e He. destruct (H1 p e He) as (e' & He' & L1). destruct (H2 p e' He') as (e'' & He'' & L2).
  exists e''. split; [done|by eapply later_trans].
Qed.

Lemma evolves_insert m p e' :
  (∀ e, m !! p = Some e → later (member e) (member e')) → evolves m (<[p := e']> m).
Proof.
  intros H q e He. destruct (decide (q = p)) as [->|Hne].
  - exists e'. rewrite lookup_insert_eq. split; [done|by apply H].
  - exists e. rewrite lookup_insert_ne by done. split; [done|apply later_refl].
Qed.

(** ** Traversals *)
Lemma in_order_perm m : in_order m ≡ₚ map_to_list m.
Proof. apply merge_sort_Permutation. Qed.

Lemma in_order_member m p e : (p, e) ∈ in_order m ↔ m !! p = Some e.
Proof. rewrite in_order_perm. apply elem_of_map_to_list. Qed.

Lemma members_in_order_nodup m : NoDup (in_order m).
Proof. rewrite in_order_perm. apply NoDup_map_to_list. Qed.

Lemma in_order_insert m p e : m !! p = None → in_order (<[p := e]> m) ≡ₚ (p, e) :: in_order m.
Proof. intros H. by rewrite !in_order_perm, map_to_list_insert. Qed.

Definition share (r : Role) (e : Entry) : Z := if bool_decide (role (member e) = r) then 1 else 0.

Lemma count_perm r m l : in_order m ≡ₚ l →
  count_role r m = Z.of_nat (length (filter (λ p : Principal * Entry, role (member p.2) = r) l)).
Proof. intros H. unfold count_role. by rewrite H. Qed.

Lemma count_insert_new r m p e : m !! p = None → count_role r (<[p := e]> m) = count_role r m + share r e.
Proof.
  intros H. rewrite (count_perm _ _ _ (in_order_insert m p e H)). unfold share.
  rewrite filter_cons. simpl. unfold count_role. case_decide; case_bool_decide; try done; simpl; lia.
Qed.

Lemma count_insert r m p e e' : m !! p = Some e →
  count_role r (<[p := e']> m) = count_role r m - share r e + share r e'.
Proof.
  intros H. rewrite <- (insert_delete_id m p e H) at 2. rewrite <- insert_delete_eq.
  rewrite !count_insert_new by apply lookup_delete_eq. lia.
Qed.

Lemma count_le r m m' :
  (∀ p e, m !! p = Some e → role (member e) = r → m' !! p = Some e) → count_role r m <= count_role r m'.
Proof.
  intros H. unfold count_role. apply Nat2Z.inj_le, submseteq_length, NoDup_submseteq.
  - apply NoDup_filter, members_in_order_nodup.
  - intros [p e]. rewrite !list_elem_of_filter, !in_order_member. simpl. intros [Hr He]. eauto.
Qed.

(** ** Complete lists *)
Lemma adjacent_nodup l : StronglySorted String.le l → adjacent_equal l = false → NoDup l.
Proof.
  induction 1 as [|a l Hl IH Ha]; [constructor|]. intros Hadj. destruct l as [|b l].
  { constructor; [by intros []%not_elem_of_nil|constructor]. }
  cbn [adjacent_equal] in Hadj. apply orb_false_iff in Hadj as [Hab%String.eqb_neq Hadj].
  constructor; [|by apply IH]. intros [->|Hin]%elem_of_cons; [done|].
  apply StronglySorted_inv in Hl as [_ Hb]. rewrite Forall_forall in Hb, Ha.
  apply Hab, (anti_symm String.le); [apply Ha; set_solver|by apply Hb].
Qed.

Lemma text_nodup l : adjacent_equal (merge_sort String.le l) = false → NoDup l.
Proof.
  intros H. rewrite <- (merge_sort_Permutation String.le l). apply adjacent_nodup; [|done].
  apply (StronglySorted_merge_sort _).
Qed.

Section lists.
Context `{Inet}.

Definition listed (config : Config) (local : Member) (m : Member) : Prop :=
  validate m = Expected tt ∧ galaxy m = config_galaxy config ∧ role m = star ∧
  (principal m = principal local → m = local).

(** What the loop of [initialize] establishes. *)
Lemma initialize_loop_spec config local ms prepared previous found r f :
  initialize_loop config local ms prepared previous found = Expected (r, f) →
  Forall (listed config local) ms ∧ NoDup (id <$> ms) ∧
  (∀ p, previous = Some p → Forall (λ m, ¬ String.le (id m) p) ms) ∧
  (f = true → found = true ∨ local ∈ ms) ∧
  Z.of_nat (size r) = Z.of_nat (size prepared) +
    Z.of_nat (length (filter (λ m, principal m ≠ principal local) ms)) ∧
  (∀ p e, r !! p = Some e → prepared !! p = Some e ∨
     ∃ m, m ∈ ms ∧ principal m = p ∧ p ≠ principal local ∧ e = new_entry m).
Proof.
  revert prepared previous found. induction ms as [|m ms IH]; intros prepared previous found; cbn [initialize_loop].
  { intros [= -> ->]. split_and!; try constructor; auto. simpl. lia. }
  match goal with |- (if ?c then _ else _) = _ → _ => destruct c eqn:E end; [done|].
  rewrite !orb_false_iff in E. destruct E as [[[E1 E2] E3] E4].
  apply negb_false_iff in E1. apply bool_decide_eq_false, dec_stable in E2. apply bool_decide_eq_false, dec_stable in E3.
  assert (Hvalid : validate m = Expected tt) by (by destruct (validate m) as [[]|]).
  assert (Hcommon : ∀ prepared' found', (principal m = principal local → m = local) →
    initialize_loop config local ms prepared' (Some (id m)) found' = Expected (r, f) →
    Forall (listed config local) (m :: ms) ∧ NoDup (id <$> m :: ms) ∧
    (∀ p, previous = Some p → Forall (λ m, ¬ String.le (id m) p) (m :: ms))).
  { intros prepared' found' Hloc Hrun. destruct (IH _ _ _ Hrun) as (I1 & I2 & I3 & _).
    specialize (I3 _ eq_refl). split; [by constructor|]. split.
    - simpl. constructor; [|done]. intros (m' & Eq & Hin)%list_elem_of_fmap.
      rewrite Forall_forall in I3. apply (I3 m' Hin). by rewrite Eq.
    - intros p ->. assert (Hp : ¬ String.le (id m) p) by (unfold String.le; rewrite E4; by intros []).
      constructor; [done|]. eapply Forall_impl; [exact I3|]. simpl. intros m' Hm' Hle. apply Hm'.
      destruct (total String.le p (id m)); [by etransitivity|done]. }
  case_bool_decide as Hp.
  - case_bool_decide as Hm; [done|]. subst m. intros Hrun.
    destruct (Hcommon prepared true ltac:(done) Hrun) as (C1 & C2 & C3).
    destruct (IH _ _ _ Hrun) as (_ & _ & _ & I4 & I5 & I6). split; [done|]. split; [done|]. split; [done|].
    split; [intros _; right; apply elem_of_cons; by left|]. split.
    + rewrite I5, filter_cons_False by (intros ?; done). done.
    + intros p e He. destruct (I6 p e He) as [|(m & Hin & Hrest)]; [by left|]. right. exists m.
      split; [by apply elem_of_cons; right|done].
  - case_bool_decide as Hdup; [done|]. intros Hrun. apply eq_None_not_Some in Hdup.
    destruct (Hcommon _ _ ltac:(intros ?; done) Hrun) as (C1 & C2 & C3).
    destruct (IH _ _ _ Hrun) as (_ & _ & _ & I4 & I5 & I6). split; [done|]. split; [done|]. split; [done|].
    split; [intros Hf; destruct (I4 Hf); [by left|right; by apply elem_of_cons; right]|]. split.
    + rewrite I5, filter_cons_True by done. rewrite map_size_insert_None by done. simpl. lia.
    + intros p e He. destruct (I6 p e He) as [He'|(m' & Hin & Hrest)].
      * destruct (decide (p = principal m)) as [->|Hne]; [|rewrite lookup_insert_ne in He' by done; by left].
        rewrite lookup_insert_eq in He'. injection He' as <-. right. exists m. split; [by left|done].
      * right. exists m'. split; [by apply elem_of_cons; right|done].
Qed.

(** A prepared list: distinct, valid stars around the local one. *)
Record prepared_ok (config : Config) (local : Member) (r : gmap Principal Entry) : Prop := {
  po_local : galaxy local = config_galaxy config;
  po_entry : ∀ p e, r !! p = Some e → ∃ m, e = new_entry m ∧ principal m = p ∧ p ≠ principal local ∧
    listed config local m ∧ id m ≠ id local ∧ address m ≠ address local;
  po_unique : ∀ p q e f, r !! p = Some e → r !! q = Some f →
    id (member e) = id (member f) ∨ address (member e) = address (member f) → p = q;
  po_size : Z.of_nat (size r) + 1 <= max_members config
}.

Lemma nodup_fmap_eq {A B} (f : A → B) l x y :
  NoDup (f <$> l) → x ∈ l → y ∈ l → f x = f y → x = y.
Proof.
  intros Hnd [i Hi]%list_elem_of_lookup_1 [j Hj]%list_elem_of_lookup_1 E.
  assert (i = j) as ->; [|congruence].
  apply (NoDup_lookup _ i j (f x) Hnd); rewrite list_lookup_fmap; [by rewrite Hi|by rewrite Hj, E].
Qed.

Lemma prepare_list_ok config local ms r :
  prepare_list config local ms = Expected r → prepared_ok config local r.
Proof.
  unfold prepare_list. destruct (bool_decide (ms = []) || _) eqn:Esize; [done|].
  apply orb_false_iff in Esize as [_ Hmax%Z.ltb_ge].
  destruct (initialize_loop config local ms ∅ None false) as [[r' f]|] eqn:El; [|done].
  destruct f; [|done]. cbn [negb]. destruct (adjacent_equal _) eqn:Ea; [done|]. intros [= <-].
  apply text_nodup in Ea. destruct (initialize_loop_spec _ _ _ _ _ _ _ _ El) as (L1 & L2 & _ & L4 & L5 & L6).
  destruct (L4 eq_refl) as [|Hlocal]; [done|]. rewrite Forall_forall in L1.
  assert (Haddr : ∀ m m', m ∈ ms → m' ∈ ms → address m = address m' → m = m').
  { intros m m' Hm Hm' E. apply (nodup_fmap_eq _ ms m m' Ea); [done|done|]. by rewrite E. }
  assert (Hid : ∀ m m', m ∈ ms → m' ∈ ms → id m = id m' → m = m').
  { intros m m' Hm Hm' E. by apply (nodup_fmap_eq id ms m m' L2). }
  assert (Hentry : ∀ p e, r' !! p = Some e → ∃ m, m ∈ ms ∧ principal m = p ∧ p ≠ principal local ∧ e = new_entry m).
  { intros p e He. destruct (L6 p e He) as [He'|]; [by rewrite lookup_empty in He'|done]. }
  split.
  - by destruct (L1 local Hlocal) as (_ & ? & _).
  - intros p e He. destruct (Hentry p e He) as (m & Hm & <- & Hne & ->). exists m.
    split_and!; try done; [by apply L1|..]; intros E; apply Hne.
    + by rewrite (Hid m local Hm Hlocal E).
    + by rewrite (Haddr m local Hm Hlocal E).
  - intros p q e f He Hf Hor. destruct (Hentry p e He) as (m & Hm & <- & _ & ->).
    destruct (Hentry q f Hf) as (m' & Hm' & <- & _ & ->). simpl in Hor.
    destruct Hor as [E|E]; [by rewrite (Hid m m')|by rewrite (Haddr m m')].
  - rewrite L5, map_size_empty.
    assert (Hlt : (length (filter (λ m, principal m ≠ principal local) ms) < length ms)%nat); [|lia].
    apply (length_filter_lt _ ms local Hlocal). by intros ?.
Qed.
End lists.

(** ** The invariant *)
Record entry_ok (local : Member) (p : Principal) (e : Entry) : Prop := {
  eo_key : principal (member e) = p;
  eo_role : role (member e) = star ∨ role (member e) = planet;
  eo_galaxy : galaxy (member e) = galaxy local;
  eo_other : p ≠ principal local ∧ id (member e) ≠ id local ∧ address (member e) ≠ address local;
  eo_single : out_session e = None ∨ in_session e = None;
  eo_planet : role (member e) = planet → out_session e = None ∧ pending e = false
}.

Record members_ok (config : Config) (local : Member) (m : gmap Principal Entry) : Prop := {
  mo_local : galaxy local = config_galaxy config;
  mo_entry : ∀ p e, m !! p = Some e → entry_ok local p e;
  mo_unique : ∀ p q e f, m !! p = Some e → m !! q = Some f →
    id (member e) = id (member f) ∨ address (member e) = address (member f) → p = q;
  mo_stars : count_role star m + 1 <= max_members config;
  mo_planets : count_role planet m <= max_members config
}.

Definition topo_ok (s : Star) : Prop :=
  1 <= max_members (config_ s) ∧
  match local_ s with
  | None => members_ s = ∅
  | Some local => members_ok (config_ s) local (members_ s)
  end.

(** Rewriting one entry without touching its identity. *)
Lemma update_entry_ok config local m p e e' :
  members_ok config local m → m !! p = Some e → member e' = member e →
  (out_session e' = None ∨ in_session e' = None) →
  (role (member e) = planet → out_session e' = None ∧ pending e' = false) →
  members_ok config local (<[p := e']> m) ∧ evolves m (<[p := e']> m).
Proof.
  intros Hm He Hmem Hs Hpl. split.
  2: { apply evolves_insert. intros e0 He0. simplify_eq. rewrite Hmem. apply later_refl. }
  destruct Hm as [M1 M2 M3 M4 M5].
  assert (Hsame : ∀ q f, <[p := e']> m !! q = Some f → ∃ f0, m !! q = Some f0 ∧ member f0 = member f).
  { intros q f. destruct (decide (q = p)) as [->|Hne].
    - rewrite lookup_insert_eq. intros [= <-]. by exists e.
    - rewrite lookup_insert_ne by done. by exists f. }
  assert (Hshare : ∀ r, share r e' = share r e) by (intros r; unfold share; by rewrite Hmem).
  split; [done| | | |].
  - intros q f. destruct (decide (q = p)) as [->|Hne].
    + rewrite lookup_insert_eq. intros [= <-]. destruct (M2 p e He) as [E1 E2 E3 E4 E5 E6].
      split; rewrite ?Hmem; done.
    + rewrite lookup_insert_ne by done. apply M2.
  - intros q1 q2 f1 f2 H1 H2. destruct (Hsame _ _ H1) as (g1 & G1 & <-). destruct (Hsame _ _ H2) as (g2 & G2 & <-).
    by apply M3.
  - rewrite (count_insert _ _ _ e) by done. rewrite Hshare. lia.
  - rewrite (count_insert _ _ _ e) by done. rewrite Hshare. lia.
Qed.

Lemma count_stars_le m : count_role star m <= Z.of_nat (size m).
Proof.
  unfold count_role. apply Nat2Z.inj_le. etransitivity; [apply length_filter|].
  by rewrite in_order_perm, length_map_to_list.
Qed.

Lemma new_members_ok `{Inet} config local r : prepared_ok config local r → members_ok config local r.
Proof.
  intros [P1 P2 P3 P4].
  assert (Hstar : ∀ p e, r !! p = Some e → role (member e) = star).
  { intros p e He. by destruct (P2 p e He) as (m & -> & _ & _ & (_ & _ & ? & _) & _). }
  split; [done| |done| |].
  - intros p e He. destruct (P2 p e He) as (m & -> & <- & H1 & (_ & H2 & H3 & _) & H4 & H5).
    split; simpl; try done; [by left|congruence|by left].
  - pose proof (count_stars_le r). lia.
  - transitivity (count_role planet ∅).
    2: { assert (count_role planet ∅ = 0) as -> by (vm_compute; done). lia. }
    apply count_le. intros p e He Hr. rewrite (Hstar p e He) in Hr. done.
Qed.

(** ** Each operation *)
Lemma initialize_ok `{Inet} local ms s :
  topo_ok s → let s' := (initialize local ms s).2 in
  topo_ok s' ∧ config_ s' = config_ s ∧ evolves (members_ s) (members_ s').
Proof.
  intros Hs. unfold initialize. destruct (prepare_list _ _ _) as [r|] eqn:Ep.
  - destruct Hs as [Hmax Hs]. destruct (local_ s) eqn:El; simpl.
    + split_and!; [split; [done|by rewrite El]|done|apply star_evolves_refl].
    + split_and!; [split; [done|by eapply new_members_ok, prepare_list_ok]|done|].
      rewrite Hs. intros p e. by rewrite lookup_empty.
  - simpl. split_and!; [done|done|apply star_evolves_refl].
Qed.

Lemma alias_loop_spec local es ids addrs n k :
  alias_loop local es ids addrs n = Expected k →
  Forall (λ p : Principal * Entry, id (member p.2) ≠ id local ∧ address (member p.2) ≠ address local ∧
    (id (member p.2) ∉ ids) ∧ (address (member p.2) ∉ addrs)) es ∧
  NoDup ((λ p : Principal * Entry, id (member p.2)) <$> es) ∧
  NoDup ((λ p : Principal * Entry, address (member p.2)) <$> es) ∧
  k = n + Z.of_nat (length (filter (λ p : Principal * Entry, role (member p.2) = star) es)).
Proof.
  revert ids addrs n. induction es as [|[p e] es IH]; intros ids addrs n; cbn [alias_loop].
  { intros [= ->]. split_and!; try constructor. simpl. lia. }
  match goal with |- (if ?c then _ else _) = _ → _ => destruct c eqn:E end; [done|].
  rewrite !orb_false_iff, !bool_decide_eq_false in E. destruct E as [[[E1%String.eqb_neq E2] E3] E4].
  intros Hrun. destruct (IH _ _ _ Hrun) as (I1 & I2 & I3 & I4).
  split; [constructor; [done|]; eapply Forall_impl; [exact I1|]; simpl; set_solver|].
  rewrite Forall_forall in I1.
  split; [simpl; constructor; [|done]; intros ([q f] & Eq & Hin)%list_elem_of_fmap;
    destruct (I1 _ Hin) as (_ & _ & Hn & _); simpl in *; set_solver|].
  split; [simpl; constructor; [|done]; intros ([q f] & Eq & Hin)%list_elem_of_fmap;
    destruct (I1 _ Hin) as (_ & _ & _ & Hn); simpl in *; set_solver|].
  rewrite I4, filter_cons. simpl. case_decide; case_bool_decide; try done; simpl; lia.
Qed.

Lemma merge_loop_spec inc m c r c' :
  merge_loop inc m c = Expected (r, c') →
  evolves m r ∧ ∀ p e, r !! p = Some e → m !! p = Some e ∨ (p, e) ∈ inc.
Proof.
  revert m c. induction inc as [|[p e] inc IH]; intros m c; cbn [merge_loop].
  { intros [= <- _]. split; [apply star_evolves_refl|by left]. }
  assert (Hkeep : ∀ c0, merge_loop inc m c0 = Expected (r, c') →
    evolves m r ∧ ∀ q f, r !! q = Some f → m !! q = Some f ∨ (q, f) ∈ (p, e) :: inc).
  { intros c0 Hrun. destruct (IH _ _ Hrun) as [I1 I2]. split; [done|]. intros q f Hf.
    destruct (I2 q f Hf); [by left|right; by apply elem_of_cons; right]. }
  assert (Hput : ∀ c0, (∀ old, m !! p = Some old → later (member old) (member e)) →
    merge_loop inc (<[p := e]> m) c0 = Expected (r, c') →
    evolves m r ∧ ∀ q f, r !! q = Some f → m !! q = Some f ∨ (q, f) ∈ (p, e) :: inc).
  { intros c0 Hl Hrun. destruct (IH _ _ Hrun) as [I1 I2].
    split; [by eapply star_evolves_trans; [apply evolves_insert|]|]. intros q f Hf.
    destruct (I2 q f Hf) as [Hq|Hq]; [|right; by apply elem_of_cons; right].
    destruct (decide (q = p)) as [->|Hne].
    - rewrite lookup_insert_eq in Hq. injection Hq as ->. right. by apply elem_of_cons; left.
    - rewrite lookup_insert_ne in Hq by done. by left. }
  destruct (m !! p) as [old|] eqn:Ep; [|by apply Hput].
  destruct (epoch (member e) <? epoch (member old)); [by apply Hkeep|].
  destruct (supersedes (member e) (member old)) as [[]|] eqn:Es; [|by apply Hkeep|done].
  apply Hput. intros old' ?. simplify_eq. by eapply supersedes_later.
Qed.

Lemma refresh_ok `{Inet} local ms s :
  topo_ok s → let s' := (refresh local ms s).2 in
  topo_ok s' ∧ config_ s' = config_ s ∧ evolves (members_ s) (members_ s').
Proof.
  intros Hs. assert (Hsame : topo_ok s ∧ config_ s = config_ s ∧ evolves (members_ s) (members_ s))
    by (split_and!; [done|done|apply star_evolves_refl]).
  unfold refresh, initialize. cbn [config_ local_ make_star].
  destruct (prepare_list _ _ _) as [cand|] eqn:Ep; [|done]. apply prepare_list_ok in Ep as [_ P2 P3 _].
  case_bool_decide as Hloc; [done|]. cbn [members_].
  destruct (merge_loop _ _ _) as [[r dropped]|] eqn:Em; [|done].
  destruct (alias_loop _ _ _ _ _) as [stars|] eqn:Ea; [|done].
  destruct (Z.ltb_spec (max_members (config_ s)) stars); [done|]. cbn [snd].
  destruct (merge_loop_spec _ _ _ _ _ Em) as [Hev Hfrom].
  destruct (alias_loop_spec _ _ _ _ _ _ Ea) as (A1 & A2 & A3 & A4). rewrite Forall_forall in A1.
  destruct Hs as [Hmax Hs]. split_and!; [|done|done]. split; [done|]. cbn [local_ set_members config_ members_].
  rewrite Hloc in *. destruct Hs as [M1 M2 M3 M4 M5].
  assert (Hcand : ∀ p e, (p, e) ∈ in_order cand → ∃ m, e = new_entry m ∧ principal m = p ∧ p ≠ principal local ∧
    galaxy m = config_galaxy (config_ s) ∧ role m = star).
  { intros p e He%in_order_member. destruct (P2 p e He) as (m & -> & ? & ? & (_ & ? & ? & _) & _). by exists m. }
  split; [done| | | |].
  - intros p e He. destruct (A1 (p, e) ltac:(by apply in_order_member)) as (N1 & N2 & _). simpl in N1, N2.
    destruct (Hfrom p e He) as [Hold|Hin]; [by apply M2|].
    destruct (Hcand p e Hin) as (m & -> & <- & H1 & H2 & H3).
    split; simpl; try done; [by left|congruence|by left].
  - intros p q e f He Hf Hor. apply in_order_member in He, Hf.
    assert ((p, e) = (q, f)) as E; [|by injection E].
    destruct Hor as [E|E]; [by apply (nodup_fmap_eq _ _ _ _ A2)|by apply (nodup_fmap_eq _ _ _ _ A3)].
  - unfold count_role. lia.
  - etransitivity; [|exact M5]. apply count_le. intros p e He Hr.
    destruct (Hfrom p e He) as [|Hin]; [done|]. destruct (Hcand p e Hin) as (m & -> & _ & _ & _ & H3).
    simpl in Hr. congruence.
Qed.

Lemma insert_member_ok config local m p e' :
  members_ok config local m → entry_ok local p e' →
  (∀ q f, m !! q = Some f → q ≠ p → id (member f) ≠ id (member e') ∧ address (member f) ≠ address (member e')) →
  count_role star (<[p := e']> m) + 1 <= max_members config →
  count_role planet (<[p := e']> m) <= max_members config →
  members_ok config local (<[p := e']> m).
Proof.
  intros [M1 M2 M3 M4 M5] He Hal Hst Hpl. split; [done| | |done|done].
  - intros q f. destruct (decide (q = p)) as [->|Hne].
    + rewrite lookup_insert_eq. by intros [= <-].
    + rewrite lookup_insert_ne by done. apply M2.
  - intros q1 q2 f1 f2. destruct (decide (q1 = p)) as [->|N1], (decide (q2 = p)) as [->|N2];
      rewrite ?lookup_insert_eq, ?lookup_insert_ne by done; try done.
    + intros [= <-] H2 [E|E]; destruct (Hal q2 f2 H2 N2); congruence.
    + intros H1 [= <-] [E|E]; destruct (Hal q1 f1 H1 N1); congruence.
    + apply M3.
Qed.

Lemma admissible_inv remote d expected local :
  admissible remote d expected local = true →
  (role remote = star ∨ role remote = planet) ∧ galaxy remote = galaxy local ∧ id remote ≠ id local ∧
  principal remote ≠ principal local ∧ address remote ≠ address local ∧
  (role remote = planet → d = inbound) ∧ (∀ m, expected = Some m → remote = m ∧ d = outbound).
Proof.
  unfold admissible. intros [H1%negb_true_iff H2]%andb_true_iff. rewrite !orb_false_iff in H1.
  destruct H1 as [[[[[E1 E2] E3%String.eqb_neq] E4] E5] E6].
  apply bool_decide_eq_false, dec_stable in E2. apply bool_decide_eq_false in E4, E5.
  split_and!; try done.
  - destruct (role remote); auto; done.
  - intros Hr. rewrite Hr in E6. destruct d; done.
  - intros m ->. apply andb_true_iff in H2 as [H2%bool_decide_eq_true H3%bool_decide_eq_true]. done.
Qed.

Lemma aliases_inv remote s : aliases remote s = false →
  ∀ q f, members_ s !! q = Some f → q ≠ principal remote →
    id (member f) ≠ id remote ∧ address (member f) ≠ address remote.
Proof.
  unfold aliases. intros H q f Hf Hne. apply in_order_member, list_elem_of_In in Hf.
  split; intros E; apply (not_true_iff_false _) in H; apply H, existsb_exists; exists (q, f); (split; [done|]);
    cbn [fst snd]; rewrite bool_decide_eq_true_2 by done; rewrite E; cbn [andb].
  - by rewrite String.eqb_refl.
  - rewrite bool_decide_eq_true_2 by done. by rewrite orb_true_r.
Qed.

(** Occupying a slot of an entry that has at most one session. *)
Lemma occupy_ok local p d g b now e :
  entry_ok local p e → (role (member e) = planet → d = inbound) →
  slot (opposite d) e = None ∨ b = true → entry_ok local p (occupy d g b now e).
Proof.
  intros [E1 E2 E3 E4 E5 E6] Hd Hopp. split; simpl; try done.
  - destruct d; [right|left]; destruct Hopp as [Ho| ->]; try done; destruct b; done.
  - intros Hr. rewrite (Hd Hr). destruct (E6 Hr) as [H1 H2]. rewrite H1, H2. by destruct b.
Qed.

Lemma accept_ok remote d g expected now s :
  topo_ok s → let s' := (accept remote d g expected now s).2 in
  topo_ok s' ∧ config_ s' = config_ s ∧ evolves (members_ s) (members_ s').
Proof.
  intros Hs. assert (Hsame : topo_ok s ∧ config_ s = config_ s ∧ evolves (members_ s) (members_ s))
    by (split_and!; [done|done|apply star_evolves_refl]).
  unfold accept. destruct (local_ s) as [local|] eqn:El; [|done].
  destruct (admissible remote d expected local) eqn:Ea; [|done]. cbn [negb].
  destruct (admissible_inv _ _ _ _ Ea) as (A1 & A2 & A3 & A4 & A5 & A6 & _).
  destruct (aliases remote s) eqn:Eal; [done|]. pose proof (aliases_inv _ _ Eal) as Hal.
  pose proof Hs as [Hmax Hm]. rewrite El in Hm. pose proof Hm as [M1 M2 M3 M4 M5].
  assert (Hnew : ∀ b, entry_ok local (principal remote) (occupy d g b now (new_entry remote))).
  { intros b. apply occupy_ok; [|done|by destruct d; left]. split; simpl; try done; by left. }
  assert (Hdone : ∀ e', members_ok (config_ s) local (<[principal remote := e']> (members_ s)) →
    evolves (members_ s) (<[principal remote := e']> (members_ s)) →
    let s' := set_members (<[principal remote := e']> (members_ s)) s in
    topo_ok s' ∧ config_ s' = config_ s ∧ evolves (members_ s) (members_ s')).
  { intros e' H1 H2. split; [|done]. split; [done|]. cbn [local_ set_members]. by rewrite El. }
  unfold admit_member. destruct (members_ s !! principal remote) as [old|] eqn:Eo.
  - destruct (supersedes remote (member old)) as [[]|] eqn:Es; [| |done].
    + destruct (supersedes_later _ _ _ Es) as [Hlat _].
      destruct (slot d (new_entry remote)) eqn:E1; [by destruct d|].
      destruct (slot (opposite d) (new_entry remote)) eqn:E2; [by destruct d|]. cbn [snd].
      apply Hdone.
      * assert (Hsh : ∀ r, share r (occupy d g false now (new_entry remote)) = share r old).
        { intros r. unfold share. simpl. by rewrite (lt_role _ _ Hlat). }
        apply insert_member_ok; try done; rewrite (count_insert _ _ _ old) by done; rewrite Hsh; lia.
      * apply evolves_insert. intros e ?. by simplify_eq.
    + destruct (supersedes_later _ _ _ Es) as [_ Heq]. specialize (Heq eq_refl).
      pose proof (M2 _ _ Eo) as Hold.
      assert (Hput : ∀ e', entry_ok local (principal remote) e' → member e' = member old →
        let s' := set_members (<[principal remote := e']> (members_ s)) s in
        topo_ok s' ∧ config_ s' = config_ s ∧ evolves (members_ s) (members_ s')).
      { intros e' He' Hmem. destruct (update_entry_ok _ _ _ _ old e' Hm Eo Hmem) as [U1 U2];
          [apply He'| |by apply Hdone]. rewrite <- Hmem. apply He'. }
      assert (Hocc : ∀ b, slot (opposite d) old = None ∨ b = true →
        entry_ok local (principal remote) (occupy d g b now old)).
      { intros b Hb. apply occupy_ok; [done| |done]. by rewrite <- Heq. }
      destruct (slot d old); [by apply Hput|].
      destruct (slot (opposite d) old) as [other|] eqn:E2.
      * case_bool_decide as Hst; [destruct (preferred d local remote)|]; [|by apply Hput|].
        -- cbn [snd]. apply Hput; [by apply Hocc; right|done].
        -- exfalso. assert (Hp : role remote = planet) by (by destruct A1).
           rewrite (A6 Hp) in E2. destruct (eo_planet _ _ _ Hold) as [Hn _]; [by rewrite <- Heq|].
           simpl in E2. congruence.
      * cbn [snd]. apply Hput; [by apply Hocc; left|done].
  - match goal with |- context [if ?c then _ else _] => destruct c eqn:Ec end; [done|].
    apply Z.leb_gt in Ec.
    destruct (slot d (new_entry remote)) eqn:E1; [by destruct d|].
    destruct (slot (opposite d) (new_entry remote)) eqn:E2; [by destruct d|]. cbn [snd].
    apply Hdone.
    + apply insert_member_ok; try done; rewrite count_insert_new by done; unfold share;
        cbn [member occupy new_entry]; destruct A1 as [Hr|Hr]; rewrite Hr in *;
        repeat case_bool_decide; try done; lia.
    + apply evolves_insert. intros e ?. simplify_eq.
Qed.

Lemma update_topo s local p e e' :
  topo_ok s → local_ s = Some local → members_ s !! p = Some e → member e' = member e →
  (out_session e' = None ∨ in_session e' = None) →
  (role (member e) = planet → out_session e' = None ∧ pending e' = false) →
  let s' := set_members (<[p := e']> (members_ s)) s in
  topo_ok s' ∧ config_ s' = config_ s ∧ evolves (members_ s) (members_ s').
Proof.
  intros [Hmax Hm] El He H1 H2 H3. rewrite El in Hm.
  destruct (update_entry_ok _ _ _ _ e e' Hm He H1 H2 H3) as [U1 U2]. split; [|done].
  split; [done|]. cbn [local_ set_members]. by rewrite El.
Qed.

Lemma closed_loop_spec g es p e d :
  closed_loop g es = Some (p, e, d) → (p, e) ∈ es ∧ slot d e = Some g.
Proof.
  induction es as [|[q f] es IH]; [done|]. cbn [closed_loop]. unfold holds.
  repeat case_bool_decide; try (intros [= <- <- <-]; split; [by left|done]).
  intros [H1 H2]%IH. split; [by right|done].
Qed.

Section schedule_ok.
Context (hash : string → Z).

Lemma closed_ok g now s :
  topo_ok s → let s' := closed hash g now s in
  topo_ok s' ∧ config_ s' = config_ s ∧ evolves (members_ s) (members_ s').
Proof.
  intros Hs. unfold closed. pose proof Hs as [Hmax Hm].
  destruct (closed_loop g _) as [[[p e] d]|] eqn:Ec; [|split_and!; [done|done|apply star_evolves_refl]].
  destruct (local_ s) as [local|] eqn:El; [|split_and!; [done|done|apply star_evolves_refl]].
  destruct (closed_loop_spec _ _ _ _ _ Ec) as [He%in_order_member _].
  destruct (mo_entry _ _ _ Hm p e He) as [_ _ _ _ E5 E6].
  eapply (update_topo s local p e); try done; simpl.
  - destruct d; [by left|by right].
  - intros Hr. destruct (E6 Hr) as [-> ->]. by destruct d.
Qed.

Lemma find_spec {A} (f : A → bool) l :
  match find f l with
  | Some x => x ∈ l ∧ f x = true
  | None => ∀ x, x ∈ l → f x = false
  end.
Proof.
  induction l as [|x l IH]; simpl; [by intros x []%not_elem_of_nil|]. destruct (f x) eqn:E.
  - split; [by left|done].
  - destruct (find f l) as [y|].
    + destruct IH. split; [by right|done].
    + intros y [->|Hy]%elem_of_cons; [done|by apply IH].
Qed.

Lemma eligible_inv now e : eligible now e = true ↔
  role (member e) = star ∧ pending e = false ∧ out_session e = None ∧ in_session e = None ∧ next e <= now.
Proof.
  unfold eligible. rewrite !andb_true_iff, !bool_decide_eq_true, negb_true_iff, Z.leb_le. tauto.
Qed.

Lemma due_ok now s :
  topo_ok s → let s' := (due now s).2 in
  topo_ok s' ∧ config_ s' = config_ s ∧ evolves (members_ s) (members_ s').
Proof.
  intros Hs. unfold due. destruct (local_ s) as [local|] eqn:El; [|split_and!; [done|done|apply star_evolves_refl]].
  pose proof (find_spec (λ p : Principal * Entry, eligible now p.2) (in_order (members_ s))) as Hf.
  destruct (find _ _) as [[p e]|]; [|split_and!; [done|done|apply star_evolves_refl]].
  destruct Hf as [He%in_order_member Hel%eligible_inv]. destruct Hel as (H1 & _ & H2 & _).
  cbn [snd] in *. eapply (update_topo s local p e); try done; simpl; [by left|intros Hr; exfalso; congruence].
Qed.

Lemma failed_ok target now s :
  topo_ok s → let s' := failed hash target now s in
  topo_ok s' ∧ config_ s' = config_ s ∧ evolves (members_ s) (members_ s').
Proof.
  intros Hs. unfold failed. pose proof Hs as [Hmax Hm].
  assert (Hsame : topo_ok s ∧ config_ s = config_ s ∧ evolves (members_ s) (members_ s))
    by (split_and!; [done|done|apply star_evolves_refl]).
  destruct (members_ s !! principal target) as [e|] eqn:Ee; [|done].
  destruct (local_ s) as [local|] eqn:El; [|done].
  case_bool_decide; [|done].
  destruct (mo_entry _ _ _ Hm _ e Ee) as [_ _ _ _ E5 E6].
  destruct (_ || _); eapply (update_topo s local _ e); try done; simpl.
  - intros Hr. by destruct (E6 Hr).
  - by left.
Qed.

Context `{Inet}.

Lemma step_ok s e :
  topo_ok s → let s' := step hash s e in
  topo_ok s' ∧ config_ s' = config_ s ∧ evolves (members_ s) (members_ s').
Proof.
  intros Hs. destruct e; simpl.
  - by apply initialize_ok.
  - by apply refresh_ok.
  - by apply accept_ok.
  - by apply closed_ok.
  - by apply due_ok.
  - by apply failed_ok.
Qed.

Lemma run_ok config es :
  1 <= max_members config →
  topo_ok (foldl (step hash) (make_star config) es) ∧
  config_ (foldl (step hash) (make_star config) es) = config.
Proof.
  intros Hmax. assert (Hs : topo_ok (make_star config)) by done.
  assert (Hgen : ∀ s, topo_ok s → topo_ok (foldl (step hash) s es) ∧
    config_ (foldl (step hash) s es) = config_ s).
  { induction es as [|e es IH]; intros s H1; [done|]. cbn [foldl].
    destruct (step_ok s e H1) as (S1 & S2 & _). destruct (IH _ S1) as [I1 I2]. by rewrite I2, S2. }
  by apply Hgen.
Qed.

Lemma tally_spec l r0 :
  (∀ p e, (p, e) ∈ l → out_session e = None ∨ in_session e = None) →
  let r := foldl tally r0 l in
  let stars := Z.of_nat (length (filter (λ p : Principal * Entry, role (member p.2) = star) l)) in
  members r = members r0 + stars ∧
  state_inbound r + state_outbound r <= state_inbound r0 + state_outbound r0 + stars ∧
  planet_inbound r <= planet_inbound r0 + (Z.of_nat (length l) - stars).
Proof.
  revert r0. induction l as [|[p e] l IH]; intros r0 Hl; [cbn; lia|]. cbn [foldl].
  destruct (IH (tally r0 (p, e))) as (I1 & I2 & I3); [intros q f Hq; apply (Hl q f); by right|].
  assert (bit (in_session e) + bit (out_session e) <= 1 ∧ bit (in_session e) <= 1).
  { destruct (Hl p e ltac:(by left)) as [->| ->]; destruct (in_session e), (out_session e); simpl; lia. }
  rewrite filter_cons. unfold tally in I1, I2, I3. simpl in I1, I2, I3.
  unfold tally. simpl. case_decide; case_bool_decide; try done; simpl in *; lia.
Qed.

Lemma roles_cover m :
  (∀ p e, m !! p = Some e → role (member e) = star ∨ role (member e) = planet) →
  Z.of_nat (length (in_order m)) <= count_role star m + count_role planet m.
Proof.
  intros Hm. unfold count_role.
  assert (Hl : ∀ p e, (p, e) ∈ in_order m → role (member e) = star ∨ role (member e) = planet)
    by (intros p e He%in_order_member; eauto).
  revert Hl. generalize (in_order m) as l. clear.
  induction l as [|[p e] l IH]; intros Hl; [simpl; lia|].
  specialize (IH ltac:(intros q f Hq; apply (Hl q f); by right)).
  destruct (Hl p e ltac:(by left)) as [Hr|Hr]; rewrite !filter_cons; simpl; rewrite Hr;
    repeat case_decide; try done; simpl; lia.
Qed.

(** C18. A star's network stays bounded and unambiguous.  After any sequence of
    lists, handshakes, closures, dials and failures: members are known under
    their own digest, no two of them (nor the local star) share an id or an
    address, all belong to the local galaxy, each has at most one active
    stream, planets are never dialled, the stars with the local one and the
    planets each fit the configured maximum, and so the active star streams
    number at most the members less one.  The configured maximum is at least one. *)
Theorem topology_safe (config : Config) (es : list event) :
  1 <= max_members config →
  let s := foldl (step hash) (make_star config) es in
  (∀ local, local_ s = Some local → members_ok config local (members_ s)) ∧
  let st := status s in
  members st <= Z.max (max_members config) 0 ∧ state_inbound st + state_outbound st <= members st ∧
  (is_Some (local_ s) → state_inbound st + state_outbound st <= max_members config - 1) ∧
  planet_inbound st <= max_members config.
Proof.
  intros Hmax s. destruct (run_ok config es Hmax) as [[_ Hs] Hc]. fold s in Hs, Hc. rewrite Hc in Hs.
  split; [intros local El; by rewrite El in Hs|].
  destruct (local_ s) as [local|] eqn:El.
  - destruct Hs as [M1 M2 M3 M4 M5].
    destruct (tally_spec (in_order (members_ s)) {| initialized := bool_decide (is_Some (local_ s));
      members := bit (local_ s); state_inbound := 0; state_outbound := 0; planet_inbound := 0 |}) as (T1 & T2 & T3).
    { intros p e He%in_order_member. by destruct (M2 p e He). }
    fold (status s) in T1, T2, T3. rewrite El in T1. fold (count_role star (members_ s)) in T1, T2, T3.
    cbn [members state_inbound state_outbound planet_inbound bit] in T1, T2, T3.
    assert (Hpl := roles_cover (members_ s) ltac:(intros p e He; by destruct (M2 p e He))).
    cbv zeta. split; [lia|]. split; [lia|]. split; [intros _; lia|lia].
  - assert (Hst : status s = {| initialized := false; members := 0; state_inbound := 0; state_outbound := 0;
      planet_inbound := 0 |}) by (unfold status; rewrite El, Hs; vm_compute; done).
    cbv zeta. rewrite Hst. cbn. split; [lia|]. split; [lia|]. split; [by intros [? ?]|lia].
Qed.

(** Incarnations only move forward.  Along any history no known member is
    forgotten, its role, address and galaxy never change, its epoch never
    decreases, and at an unchanged epoch the whole record is unchanged: late
    lists and handshakes cannot roll a member back. *)
Theorem incarnations_monotone (config : Config) (before after : list event) (p : Principal) (e : Entry) :
  1 <= max_members config →
  members_ (foldl (step hash) (make_star config) before) !! p = Some e →
  ∃ e', members_ (foldl (step hash) (make_star config) (before ++ after)) !! p = Some e' ∧
    later (member e) (member e').
Proof.
  intros Hmax He. rewrite foldl_app. destruct (run_ok config before Hmax) as [Hs _].
  revert He Hs. generalize (foldl (step hash) (make_star config) before) as s.
  assert (Hev : ∀ s, topo_ok s → evolves (members_ s) (members_ (foldl (step hash) s after))).
  { induction after as [|a after IH]; intros s Hs; [apply star_evolves_refl|]. cbn [foldl].
    destruct (step_ok s a Hs) as (S1 & _ & S3). eapply star_evolves_trans; [exact S3|by apply IH]. }
  intros s He Hs. by apply (Hev s Hs p e).
Qed.
End schedule_ok.

(** ** Refusals *)
Lemma put_same (s : Star) p e : members_ s !! p = Some e → set_members (<[p := e]> (members_ s)) s = s.
Proof. intros H. rewrite insert_id by done. by destruct s. Qed.

(** A refused operation has no effect: whenever [initialize], [refresh] or
    [accept] returns an error, the policy is exactly as before. *)
Theorem refusals_change_nothing `{Inet} (s : Star) :
  (∀ local ms c s', initialize local ms s = (Unexpected c, s') → s' = s) ∧
  (∀ local ms c s', refresh local ms s = (Unexpected c, s') → s' = s) ∧
  (∀ remote d g expected now c s', accept remote d g expected now s = (Unexpected c, s') → s' = s).
Proof.
  split; [|split].
  - intros local ms c s'. unfold initialize. destruct (prepare_list _ _ _); [destruct (local_ s)|]; naive_solver.
  - intros local ms c s'. unfold refresh. destruct (initialize _ _ _) as [[] ?]; [|naive_solver].
    case_bool_decide; [naive_solver|]. destruct (merge_loop _ _ _) as [[]|]; [|naive_solver].
    destruct (alias_loop _ _ _ _ _); [|naive_solver].
    destruct (max_members (config_ s) <? _); naive_solver.
  - intros remote d g expected now c s'. unfold accept. destruct (local_ s); [|naive_solver].
    destruct (negb _); [naive_solver|]. destruct (aliases _ _); [naive_solver|].
    unfold admit_member. destruct (members_ s !! principal remote) as [old|] eqn:Eo.
    + destruct (supersedes _ _) as [[]|]; [by destruct d| |naive_solver].
      destruct (slot d old); [rewrite put_same by done; naive_solver|].
      destruct (slot (opposite d) old); [|done]. case_bool_decide; [|done].
      destruct (preferred _ _ _); [done|rewrite put_same by done; naive_solver].
    + match goal with |- context [if ?c then _ else _] => destruct c end; [naive_solver|]. by destruct d.
Qed.

(** ** Simultaneous dials *)
Lemma supersedes_refl m : supersedes m m = Expected false.
Proof.
  unfold supersedes. rewrite !bool_decide_eq_false_2 by (intros E; by apply E).
  rewrite Z.ltb_irrefl, andb_false_r. done.
Qed.

(** A handshake with a known star whose slot is free. *)
Lemma accept_known s local remote d g expected now e :
  local_ s = Some local → members_ok (config_ s) local (members_ s) →
  members_ s !! principal remote = Some e → member e = remote → role remote = star →
  (∀ m, expected = Some m → m = remote ∧ d = outbound) → slot d e = None →
  accept remote d g expected now s =
  let put e := set_members (<[principal remote := e]> (members_ s)) s in
  match slot (opposite d) e with
  | None => (Expected [], put (occupy d g false now e))
  | Some other =>
      if preferred d local remote then (Expected [other], put (occupy d g true now e))
      else (Unexpected conflict, put e)
  end.
Proof.
  intros El [M1 M2 M3 M4 M5] He Hm Hr Hex Hs. unfold accept. rewrite El.
  destruct (M2 _ _ He) as [_ _ E3 (E4 & E4' & E4'') _ _]. rewrite Hm in *.
  assert (Hadm : admissible remote d expected local = true).
  { unfold admissible. rewrite Hr. apply andb_true_iff. split.
    - apply negb_true_iff. rewrite !orb_false_iff. split_and!; try done.
      + by rewrite bool_decide_eq_false_2 by (intros E; by apply E).
      + by apply String.eqb_neq.
      + by rewrite bool_decide_eq_false_2.
      + by rewrite bool_decide_eq_false_2.
    - destruct expected as [m|]; [|done]. destruct (Hex m eq_refl) as [-> ->].
      by rewrite !bool_decide_eq_true_2. }
  rewrite Hadm. cbn [negb].
  assert (Hal : aliases remote s = false).
  { apply not_true_is_false. intros ([q f] & Hin & Hc)%existsb_exists. apply list_elem_of_In, in_order_member in Hin.
    apply andb_true_iff in Hc as [Hq%bool_decide_eq_true Hor%orb_true_iff]. simpl in *.
    apply Hq, (M3 q (principal remote) f e Hin He). rewrite Hm.
    destruct Hor as [E%String.eqb_eq|E%bool_decide_eq_true]; auto. }
  rewrite Hal. unfold admit_member. rewrite He, Hm, supersedes_refl, Hs.
  destruct (slot (opposite d) e); [|done]. by rewrite bool_decide_eq_true_2.
Qed.

(** Both streams between two stars reach [accept], in either order. *)
Definition both (first : Direction) (remote : Member) (g_out g_in now : Z) (s : Star) : Star :=
  let dial s := (accept remote outbound g_out (Some remote) now s).2 in
  let answer s := (accept remote inbound g_in None now s).2 in
  match first with outbound => answer (dial s) | inbound => dial (answer s) end.

Definition idle (s : Star) (local remote : Member) : Prop :=
  topo_ok s ∧ local_ s = Some local ∧ role remote = star ∧
  ∃ e, members_ s !! principal remote = Some e ∧ member e = remote ∧
       out_session e = None ∧ in_session e = None.

Definition active (s : Star) (remote : Member) : option (option Z * option Z) :=
  (λ e, (out_session e, in_session e)) <$> members_ s !! principal remote.

Lemma both_settles first s local remote g_out g_in now :
  idle s local remote →
  active (both first remote g_out g_in now s) remote =
    Some (match first with
          | outbound => if preferred inbound local remote then (None, Some g_in) else (Some g_out, None)
          | inbound => if preferred outbound local remote then (Some g_out, None) else (None, Some g_in)
          end).
Proof.
  intros ([Hmax Hm] & El & Hr & e & He & Hmem & Ho & Hi). rewrite El in Hm.
  assert (Hone : ∀ d g expected, (∀ m, expected = Some m → m = remote ∧ d = outbound) →
    let e1 := occupy d g false now e in
    let s1 := set_members (<[principal remote := e1]> (members_ s)) s in
    (accept remote d g expected now s).2 = s1 ∧ local_ s1 = Some local ∧
    members_ok (config_ s1) local (members_ s1) ∧ members_ s1 !! principal remote = Some e1).
  { intros d g expected Hex e1 s1.
    rewrite (accept_known s local remote d g expected now e) by (try done; by destruct d).
    destruct (slot (opposite d) e) eqn:Es; [destruct d; simpl in Es; congruence|]. split; [done|].
    split; [done|]. split; [|by unfold s1; simpl; rewrite lookup_insert_eq].
    apply (update_entry_ok _ _ _ _ e e1 Hm He); [done|..].
    - unfold e1. destruct d; simpl; auto.
    - rewrite Hmem. congruence. }
  unfold both, active. destruct first.
  - destruct (Hone outbound g_out (Some remote)) as (-> & H1 & H2 & H3); [by intros ? [= ->]|].
    rewrite (accept_known _ local remote inbound g_in None now _ H1 H2 H3) by (try done; simpl; congruence).
    cbn [opposite slot occupy out_session].
    destruct (preferred inbound local remote); simpl; rewrite !lookup_insert_eq; simpl; by rewrite ?Hi.
  - destruct (Hone inbound g_in None) as (-> & H1 & H2 & H3); [done|].
    rewrite (accept_known _ local remote outbound g_out (Some remote) now _ H1 H2 H3)
      by (try done; simpl; try congruence; by intros ? [= ->]).
    cbn [opposite slot occupy in_session].
    destruct (preferred outbound local remote); simpl; rewrite !lookup_insert_eq; simpl; by rewrite ?Ho.
Qed.

Lemma ltb_flip a b : a ≠ b → String.ltb b a = negb (String.ltb a b).
Proof.
  intros Hne. unfold String.ltb. rewrite (String.compare_antisym b a).
  destruct (String.compare a b) eqn:E; [by apply String.compare_eq_iff in E|done|done].
Qed.

(** Simultaneous dials converge without coordination.  When stars [a] and [b]
    dial each other at the same time, each side may admit the two streams in
    its own order; afterwards both sides keep the same stream, the one dialled
    by the smaller id, and only that one. *)
Theorem simultaneous_dial_converges (sa sb : Star) (a b : Member) (first_a first_b : Direction)
    (a_out a_in b_out b_in now : Z) :
  idle sa a b → idle sb b a → id a ≠ id b →
  active (both first_a b a_out a_in now sa) b =
    Some (if String.ltb (id a) (id b) then (Some a_out, None) else (None, Some a_in)) ∧
  active (both first_b a b_out b_in now sb) a =
    Some (if String.ltb (id a) (id b) then (None, Some b_in) else (Some b_out, None)).
Proof.
  intros Ha Hb Hne. rewrite (both_settles first_a sa a b), (both_settles first_b sb b a) by done.
  unfold preferred. rewrite (ltb_flip (id a) (id b)) by done.
  destruct first_a, first_b, (String.ltb (id a) (id b)); done.
Qed.

(** ** Dialling *)

(** [due] is exact: it returns a member exactly when some star without a stream
    and without a dial in progress has reached its retry time; it picks such a
    one, marks it so that it is not picked again, and leaves every other member
    alone. *)
Theorem due_exact (s : Star) (local : Member) (now : Z) :
  topo_ok s → local_ s = Some local →
  match due now s with
  | (None, s') => s' = s ∧ ∀ p e, members_ s !! p = Some e → eligible now e = false
  | (Some target, s') =>
      ∃ e, members_ s !! principal target = Some e ∧ member e = target ∧ eligible now e = true ∧
        members_ s' = <[principal target := set_pending true e]> (members_ s) ∧
        ∀ now' e', members_ s' !! principal target = Some e' → eligible now' e' = false
  end.
Proof.
  intros [_ Hm] El. rewrite El in Hm. unfold due. rewrite El.
  pose proof (find_spec (λ p : Principal * Entry, eligible now p.2) (in_order (members_ s))) as Hf.
  destruct (find _ _) as [[p e]|].
  - destruct Hf as [He%in_order_member Hel]. rewrite (eo_key _ _ _ (mo_entry _ _ _ Hm p e He)).
    exists e. split_and!; try done. intros now' e'. simpl. rewrite lookup_insert_eq. intros [= <-].
    unfold eligible. simpl. by rewrite andb_false_r.
  - split; [done|]. intros p e He. apply (Hf (p, e)). by apply in_order_member.
Qed.

Module Sample.
Import Types.Sample.

Definition config : Config :=
  {| config_galaxy := "g"; max_members := 4; retry := {| reconnect_min := 100; reconnect_max := 5000 |};
     stable_connection := 5000 |}.

Definition mk (i : string) (b : Z) (host : string) (ep : Z) : Member :=
  {| galaxy := "g"; id := i; principal := {| Principal.bytes := replicate 32 b |};
     address := {| Endpoint.host := host; Endpoint.port := 80; Endpoint.ipv6 := false; Endpoint.wildcard := false |};
     epoch := ep; role := star; group := "default" |}.

Definition a : Member := mk "a" 1 "7f000001" 1.
Definition b : Member := mk "b" 2 "7f000002" 1.
Definition b' : Member := mk "b2" 2 "7f000002" 2.
Definition hash (s : string) : Z := Z.of_nat (String.length s).

Definition events : list event :=
  [Initialize a [a; b]; Due 0; Accept b outbound 1 (Some b) 5; Accept b inbound 2 None 6; Closed 1 10;
   Refresh a [a; b']; Accept b inbound 3 None 7].

(** The closed stream is forgotten, the refreshed member is in its second
    incarnation and the late handshake of the first one is refused. *)
Example sample_runs_topology :
  let s := foldl (step hash) (make_star config) events in
  (member <$> members_ s !! principal b, active s b, members (status s)) =
  (Some b', Some (None, None), 2).
Proof. vm_compute. done. Qed.

Lemma topology_safe_witness :
  let s := foldl (step hash) (make_star config) events in
  (∀ local, local_ s = Some local → members_ok config local (members_ s)) ∧
  let st := status s in
  members st <= Z.max (max_members config) 0 ∧ state_inbound st + state_outbound st <= members st ∧
  (is_Some (local_ s) → state_inbound st + state_outbound st <= max_members config - 1) ∧
  planet_inbound st <= max_members config.
Proof. apply (topology_safe hash config events). vm_compute. congruence. Defined.

Definition entry_b : Entry := new_entry b.

Lemma incarnations_monotone_witness :
  ∃ e', members_ (foldl (step hash) (make_star config) (take 1 events ++ drop 1 events)) !! principal b = Some e' ∧
    later (member entry_b) (member e').
Proof.
  apply (incarnations_monotone hash config (take 1 events) (drop 1 events) (principal b) entry_b).
  - vm_compute. congruence.
  - vm_compute. reflexivity.
Defined.

Definition at_a : Star := (initialize a [a; b] (make_star config)).2.
Definition at_b : Star := (initialize b [a; b] (make_star config)).2.

Lemma at_ok local : topo_ok (initialize local [a; b] (make_star config)).2.
Proof. apply initialize_ok. split; [vm_compute; congruence|done]. Qed.

Lemma idle_a : idle at_a a b.
Proof. split; [apply at_ok|]. split; [vm_compute; done|]. split; [done|]. exists (new_entry b). vm_compute. done. Qed.

Lemma idle_b : idle at_b b a.
Proof. split; [apply at_ok|]. split; [vm_compute; done|]. split; [done|]. exists (new_entry a). vm_compute. done. Qed.

Lemma simultaneous_dial_converges_witness :
  active (both outbound b 1 2 5 at_a) b = Some (if String.ltb (id a) (id b) then (Some 1, None) else (None, Some 2)) ∧
  active (both outbound a 3 4 5 at_b) a = Some (if String.ltb (id a) (id b) then (None, Some 4) else (Some 3, None)).
Proof.
  apply (simultaneous_dial_converges at_a at_b a b outbound outbound 1 2 3 4 5).
  - exact idle_a.
  - exact idle_b.
  - vm_compute. congruence.
Defined.

Lemma due_exact_witness :
  match due 0 at_a with
  | (None, s') => s' = at_a ∧ ∀ p e, members_ at_a !! p = Some e → eligible 0 e = false
  | (Some target, s') =>
      ∃ e, members_ at_a !! principal target = Some e ∧ member e = target ∧ eligible 0 e = true ∧
        members_ s' = <[principal target := set_pending true e]> (members_ at_a) ∧
        ∀ now' e', members_ s' !! principal target = Some e' → eligible now' e' = false
  end.
Proof. apply (due_exact at_a a 0); [apply at_ok|vm_compute; reflexivity]. Defined.
End Sample.
