(* ===== verification/Progress.v ===== *)
(** Notification rounds: [astra/star/src/progress.hpp].

    Every scope with subscribers has a [Group]; a commit is published to its
    group, and the control loop takes one stream at a time, rotating over the
    groups with work.  The queue of groups is an intrusive doubly linked list:
    groups hold [previous] and [next], the scheduler [head_] and [tail_].
    Groups and streams are named by numbers; [streams] is the ordered key list
    of the owning [std::map], and a cursor is the key its iterator points at,
    with [None] for [end()].  All operations run under the caller's index lock. *)
From stdpp Require Import base numbers gmap sorting list.
From S2P Require Import Prelude.

Record Group := {
  streams : list Z;
  first : option Z;
  version : Z;
  reset : option Z;
  cursor : option (option Z);
  through : Z;
  previous : option nat;
  next : option nat
}.

Definition new_group : Group :=
  {| streams := []; first := None; version := 0; reset := None; cursor := None; through := 0;
     previous := None; next := None |}.

(** [Progress], with the groups its caller owns. *)
Record Progress := { groups : gmap nat Group; head_ : option nat; tail_ : option nat }.

Definition empty : Progress := {| groups := ∅; head_ := None; tail_ := None |}.

(** [Group::covers]. *)
Definition covers (g : Group) (baseline : Z) : bool :=
  match reset g with Some r => r <=? baseline | None => true end
  && match first g with Some f => (baseline =? u64_max) || (f <=? baseline + 1) | None => true end.

Definition set_streams (l : list Z) (g : Group) : Group :=
  {| streams := l; first := first g; version := version g; reset := reset g; cursor := cursor g;
     through := through g; previous := previous g; next := next g |}.
Definition set_cursor (c : option (option Z)) (g : Group) : Group :=
  {| streams := streams g; first := first g; version := version g; reset := reset g; cursor := c;
     through := through g; previous := previous g; next := next g |}.
Definition set_through (t : Z) (g : Group) : Group :=
  {| streams := streams g; first := first g; version := version g; reset := reset g; cursor := cursor g;
     through := t; previous := previous g; next := next g |}.
Definition set_links (p n : option nat) (g : Group) : Group :=
  {| streams := streams g; first := first g; version := version g; reset := reset g; cursor := cursor g;
     through := through g; previous := p; next := n |}.
Definition set_previous (p : option nat) (g : Group) : Group := set_links p (next g) g.
Definition set_next (n : option nat) (g : Group) : Group := set_links (previous g) n g.

Definition update (f : Group → Group) (id : nat) (s : Progress) : Progress :=
  {| groups := alter f id (groups s); head_ := head_ s; tail_ := tail_ s |}.
Definition set_head (h : option nat) (s : Progress) : Progress :=
  {| groups := groups s; head_ := h; tail_ := tail_ s |}.
Definition set_tail (t : option nat) (s : Progress) : Progress :=
  {| groups := groups s; head_ := head_ s; tail_ := t |}.

(** [Progress::append]. *)
Definition append (id : nat) (s : Progress) : Progress :=
  let s := update (set_links (tail_ s) None) id s in
  let s := match tail_ s with
           | Some t => update (set_next (Some id)) t s
           | None => set_head (Some id) s
           end in
  set_tail (Some id) s.

(** [Progress::detach]. *)
Definition detach (id : nat) (s : Progress) : Progress :=
  match groups s !! id with
  | None => s
  | Some g =>
      let s := match previous g with
               | Some p => update (set_next (next g)) p s
               | None => set_head (next g) s
               end in
      let s := match next g with
               | Some n => update (set_previous (previous g)) n s
               | None => set_tail (previous g) s
               end in
      update (set_links None None) id s
  end.

(** [Progress::finish]. *)
Definition finish (id : nat) (s : Progress) : Progress :=
  match groups s !! id with
  | None => s
  | Some g =>
      if negb (bool_decide (streams g = [])) && negb (through g =? version g) then
        append id (update (λ g, set_through (version g) (set_cursor (Some (head (streams g))) g)) id s)
      else update (set_cursor None) id s
  end.

(** [Progress::publish]. *)
Definition note (v : Z) (replacement : bool) (g : Group) : Group :=
  {| streams := streams g;
     first := match first g with Some f => Some f | None => Some v end;
     version := v;
     reset := if replacement || match first g with
                                | Some _ => (version g =? u64_max) || negb (v =? version g + 1)
                                | None => false
                                end
              then Some v else reset g;
     cursor := cursor g; through := through g; previous := previous g; next := next g |}.

Definition publish (id : nat) (v : Z) (replacement : bool) (s : Progress) : Progress :=
  let s := update (note v replacement) id s in
  match groups s !! id with
  | None => s
  | Some g =>
      if bool_decide (cursor g = None) && negb (bool_decide (streams g = [])) then
        append id (update (λ g, set_through v (set_cursor (Some (head (streams g))) g)) id s)
      else s
  end.

(** The iterator's successor in an ordered map. *)
Definition after (k : Z) (l : list Z) : option Z := head (filter (λ x, k < x) l).

(** [Progress::take]: the stream with its group. *)
Definition take (s : Progress) : option (nat * Z) * Progress :=
  match head_ s with
  | None => (None, s)
  | Some id =>
      match groups s !! id with
      | Some g =>
          match cursor g with
          | Some (Some k) =>
              let c := after k (streams g) in
              let s := update (set_cursor (Some c)) id s in
              let s := detach id s in
              (Some (id, k), match c with None => finish id s | Some _ => append id s end)
          | _ => (None, s)
          end
      | None => (None, s)
      end
  end.

(** [Progress::erase]. *)
Definition erase (id : nat) (k : Z) (s : Progress) : Progress :=
  match groups s !! id with
  | None => s
  | Some g =>
      if negb (bool_decide (k ∈ streams g)) then s
      else
        let s := if bool_decide (cursor g = Some (Some k))
                 then update (set_cursor (Some (after k (streams g)))) id s else s in
        let s := update (λ g, set_streams (filter (λ x, x ≠ k) (streams g)) g) id s in
        match groups s !! id with
        | Some g => if bool_decide (cursor g = Some None) then finish id (detach id s) else s
        | None => s
        end
  end.

(** [Progress::pending]. *)
Definition pending (s : Progress) : bool := bool_decide (is_Some (head_ s)).

(** The router adds a stream to a group ([downstream.hpp], [readout.cpp]), and
    creates the group with its first stream. *)
Fixpoint add_stream (k : Z) (l : list Z) : list Z :=
  match l with
  | [] => [k]
  | x :: l' => if k <? x then k :: l else if k =? x then l else x :: add_stream k l'
  end.

Definition join (id : nat) (k : Z) (s : Progress) : Progress :=
  let s := match groups s !! id with
           | None => {| groups := <[id := new_group]> (groups s); head_ := head_ s; tail_ := tail_ s |}
           | Some _ => s
           end in
  update (λ g, set_streams (add_stream k (streams g)) g) id s.

(** A closing stream is erased, and an empty group destroyed. *)
Definition leave (id : nat) (k : Z) (s : Progress) : Progress :=
  let s := erase id k s in
  match groups s !! id with
  | Some g => if bool_decide (streams g = [])
              then {| groups := delete id (groups s); head_ := head_ s; tail_ := tail_ s |} else s
  | None => s
  end.

(** ** The linked queue *)

(** A segment of the list: [q] in order, entered from [p] and left to [n]. *)
Fixpoint seg (m : gmap nat Group) (p : option nat) (q : list nat) (n : option nat) : Prop :=
  match q with
  | [] => True
  | id :: q => (∃ g, m !! id = Some g ∧ previous g = p ∧
                     next g = match head q with Some x => Some x | None => n end) ∧ seg m (Some id) q n
  end.

(** The links spell the queue [q]. *)
Record links (s : Progress) (q : list nat) : Prop := {
  lk_nodup : NoDup q;
  lk_head : head_ s = head q;
  lk_tail : tail_ s = last q;
  lk_seg : seg (groups s) None q None
}.

(** Everything but the links. *)
Definition strip : Group → Group := set_links None None.
Definition data (s : Progress) : gmap nat Group := strip <$> groups s.

Lemma data_lookup s id g : groups s !! id = Some g → data s !! id = Some (strip g).
Proof. intros H. unfold data. by rewrite lookup_fmap, H. Qed.

Lemma data_inv s id g : data s !! id = Some g → ∃ g0, groups s !! id = Some g0 ∧ strip g0 = g.
Proof. unfold data. rewrite lookup_fmap. destruct (groups s !! id) as [g0|]; [|done]. intros [= <-]. eauto. Qed.

Lemma data_update f id s : (∀ g, strip (f g) = f (strip g)) → data (update f id s) = alter f id (data s).
Proof.
  intros Hf. apply map_eq. intros j. unfold data. simpl. rewrite lookup_fmap.
  destruct (decide (j = id)) as [->|Hne].
  - rewrite !lookup_alter_eq, lookup_fmap. destruct (groups s !! id); [|done]. simpl. by rewrite Hf.
  - by rewrite !lookup_alter_ne, lookup_fmap.
Qed.

Lemma data_relink f id s : (∀ g, strip (f g) = strip g) → data (update f id s) = data s.
Proof.
  intros Hf. apply map_eq. intros j. unfold data. simpl. rewrite !lookup_fmap.
  destruct (decide (j = id)) as [->|Hne]; [|by rewrite lookup_alter_ne].
  rewrite lookup_alter_eq. destruct (groups s !! id); [|done]. simpl. by rewrite Hf.
Qed.

Lemma data_set_head h s : data (set_head h s) = data s.
Proof. done. Qed.
Lemma data_set_tail t s : data (set_tail t s) = data s.
Proof. done. Qed.

Lemma data_append id s : data (append id s) = data s.
Proof.
  unfold append. cbn [tail_ update]. destruct (tail_ s) as [t|].
  - change (data (update (set_next (Some id)) t (update (set_links (Some t) None) id s)) = data s).
    by rewrite !data_relink.
  - change (data (update (set_links None None) id s) = data s). by rewrite data_relink.
Qed.

Lemma data_detach id s : data (detach id s) = data s.
Proof.
  unfold detach. destruct (groups s !! id) as [g|]; [|done]. rewrite data_relink by done.
  destruct (next g) as [n|]; destruct (previous g) as [p|]; rewrite ?data_set_tail, ?data_relink, ?data_set_head by done;
    done.
Qed.

Definition or_else {A} (a b : option A) : option A := match a with Some x => Some x | None => b end.

Lemma seg_app m p q1 q2 n :
  seg m p (q1 ++ q2) n ↔ seg m p q1 (or_else (head q2) n) ∧ seg m (or_else (last q1) p) q2 n.
Proof.
  revert p. induction q1 as [|a q1 IH]; intros p; [simpl; naive_solver|].
  cbn [seg app]. rewrite IH. assert (or_else (last (a :: q1)) p = or_else (last q1) (Some a)) as ->.
  { destruct q1 as [|b q1] using rev_ind; [done|]. by rewrite app_comm_cons, !last_snoc. }
  assert (match head (q1 ++ q2) with Some x => Some x | None => n end =
    match head q1 with Some x => Some x | None => or_else (head q2) n end) as -> by (by destruct q1).
  tauto.
Qed.

Lemma seg_frame m p q n f id : id ∉ q → seg m p q n → seg (alter f id m) p q n.
Proof.
  revert p. induction q as [|a q IH]; intros p Hid; [done|]. apply not_elem_of_cons in Hid as [Ha Hq].
  intros [(g & G1 & G2) Hs]. split; [|by apply IH]. exists g. by rewrite lookup_alter_ne.
Qed.

(** Relinking one node of a segment. *)
Lemma seg_one m p n id g f :
  m !! id = Some g → previous (f g) = p → next (f g) = n → seg (alter f id m) p [id] n.
Proof. intros H1 H2 H3. split; [|done]. exists (f g). by rewrite lookup_alter_eq, H1. Qed.

Lemma links_update f id s q :
  (∀ g, previous (f g) = previous g ∧ next (f g) = next g) → links s q → links (update f id s) q.
Proof.
  intros Hf [L1 L2 L3 L4]. split; [done..|]. simpl. revert L4. generalize (None (A:=nat)) at 1 3 as p.
  clear -Hf. induction q as [|a q IH]; intros p; [done|]. intros [(g & G1 & G2 & G3) Hs].
  split; [|by apply IH]. destruct (decide (a = id)) as [->|Hne].
  - exists (f g). rewrite lookup_alter_eq, G1. destruct (Hf g) as [-> ->]. done.
  - exists g. by rewrite lookup_alter_ne.
Qed.

Lemma append_links id s q :
  links s q → id ∉ q → is_Some (groups s !! id) → links (append id s) (q ++ [id]).
Proof.
  intros [L1 L2 L3 L4] Hid [g Hg]. unfold append. cbn [tail_ update].
  assert (Hnew : NoDup (q ++ [id])).
  { apply NoDup_app. split; [done|]. split; [|apply NoDup_singleton]. by intros j Hj ->%list_elem_of_singleton. }
  destruct (tail_ s) as [t|] eqn:Et.
  - symmetry in L3. apply last_Some in L3 as [q0 ->]. apply not_elem_of_app in Hid as [Hid0 Hidt].
    apply NoDup_app in L1 as (_ & Hd & _). assert (Htq : t ∉ q0) by (intros Ht; by apply (Hd t Ht); left).
    assert (Hne : id ≠ t) by set_solver.
    split; [done|cbn [head_ set_tail update]; rewrite L2; by destruct q0|by cbn [tail_ set_tail]; rewrite last_snoc|].
    cbn [groups set_tail update]. apply seg_app in L4 as [S1 [(gt & T1 & T2 & _) _]]. simpl in S1.
    rewrite <- app_assoc. apply seg_app. split; [apply seg_frame; [done|by apply seg_frame]|].
    apply (seg_app _ _ [t] [id]). split.
    + eapply seg_one; [by rewrite lookup_alter_ne|done|done].
    + apply seg_frame; [set_solver|]. by eapply seg_one.
  - symmetry in L3. apply last_None in L3 as ->. split; [done|done|done|].
    cbn [groups set_tail set_head update]. by eapply seg_one.
Qed.

Lemma detach_links id s q1 q2 :
  links s (q1 ++ id :: q2) → links (detach id s) (q1 ++ q2).
Proof.
  intros [L1 L2 L3 L4]. apply NoDup_app in L1 as (N1 & Nd & N2%NoDup_cons). destruct N2 as [N3 N2].
  assert (Hd1 : id ∉ q1) by (intros H; apply (Nd id H); by left).
  apply seg_app in L4 as [S1 [(g & G1 & G2 & G3) S2]]. simpl in S1.
  unfold detach. rewrite G1.
  assert (Hnd : NoDup (q1 ++ q2)) by (apply NoDup_app; split_and!; [done|intros x H1 H2; apply (Nd x H1); by right|done]).
  rewrite G3, G2. destruct q1 as [|p q1 _] using rev_ind.
  - simpl. destruct q2 as [|n q2]; simpl.
    + split; [constructor|done..].
    + split; [done|done|cbn; by rewrite L3|]. cbn [groups update set_head]. apply seg_frame; [done|].
      destruct S2 as [(gn & M1 & M2 & M3) S2]. apply (seg_app _ _ [n] q2). apply NoDup_cons in N2 as [Nn _].
      split; [by eapply seg_one|by apply seg_frame].
  - rewrite last_snoc. cbn [or_else]. apply NoDup_app in N1 as (N1 & Nd1 & _).
    assert (Hp1 : p ∉ q1) by (intros H; by apply (Nd1 p H); left).
    assert (Hp2 : p ∉ q2) by (intros H; apply (Nd p); [set_solver|by right]).
    apply seg_app in S1 as [S1 [(gp & P1 & P2 & P3) _]]. simpl in S1.
    apply not_elem_of_app in Hd1 as [Hd1 Hidp]. assert (Hip : p ≠ id) by set_solver.
    destruct q2 as [|n q2]; cbn [head].
    + rewrite !app_nil_r in *. split; [done|cbn; rewrite L2; by destruct q1|by cbn; rewrite last_snoc|].
      cbn [groups update set_tail]. apply seg_frame; [set_solver|]. apply seg_app.
      split; [by apply seg_frame|by eapply seg_one].
    + destruct S2 as [(gn & M1 & M2 & M3) S2]. apply NoDup_cons in N2 as [Nn _].
      assert (Hnq : n ∉ q1) by (intros H; apply (Nd n); [set_solver|right; by left]).
      split; [done|cbn; rewrite L2; by destruct q1| |].
      { cbn. rewrite L3, !last_app. done. }
      cbn [groups update]. apply seg_frame; [set_solver|]. rewrite <- app_assoc. apply seg_app.
      split; [apply seg_frame; [done|by apply seg_frame]|]. apply (seg_app _ _ [p] (n :: q2)). split.
      * apply seg_frame; [set_solver|]. by eapply seg_one.
      * apply (seg_app _ _ [n] q2). split.
        -- eapply seg_one; [by rewrite lookup_alter_ne by set_solver|done|done].
        -- apply seg_frame; [done|]. apply seg_frame; [set_solver|done].
Qed.

Lemma seg_delete m p q n id : id ∉ q → seg m p q n → seg (delete id m) p q n.
Proof.
  revert p. induction q as [|a q IH]; intros p Hid; [done|]. apply not_elem_of_cons in Hid as [Ha Hq].
  intros [(g & G1 & G2) Hs]. split; [|by apply IH]. exists g. by rewrite lookup_delete_ne.
Qed.

Lemma seg_insert_new m p q n id g : m !! id = None → seg m p q n → seg (<[id := g]> m) p q n.
Proof.
  intros Hid. revert p. induction q as [|a q IH]; intros p; [done|].
  intros [(ga & G1 & G2) Hs]. split; [|by apply IH]. exists ga. rewrite lookup_insert_ne; [done|]. congruence.
Qed.

Lemma links_known s q id : links s q → id ∈ q → is_Some (groups s !! id).
Proof.
  intros [_ _ _ L4]. revert L4. generalize (None (A:=nat)) at 1 as p.
  induction q as [|a q IH]; intros p; [by intros _ []%not_elem_of_nil|].
  intros [(g & G1 & _) Hs] [->|Hin]%elem_of_cons; [by exists g|by eapply IH].
Qed.

(** ** Ordered keys *)
Abbreviation ordered := (StronglySorted Z.lt).

Lemma after_spec k l : ordered l →
  match after k l with
  | Some k' => k' ∈ l ∧ k < k' ∧ ∀ x, x ∈ l → k < x → k' <= x
  | None => ∀ x, x ∈ l → x <= k
  end.
Proof.
  unfold after. induction 1 as [|a l Hl IH Ha]; [by intros x []%not_elem_of_nil|].
  rewrite filter_cons. case_decide as Hk; simpl.
  - split; [by left|]. split; [done|]. intros x [->|Hx]%elem_of_cons _; [lia|].
    rewrite Forall_forall in Ha. specialize (Ha x Hx). lia.
  - destruct (head (filter (λ x, k < x) l)) as [k'|].
    + destruct IH as (H1 & H2 & H3). split; [by right|]. split; [done|].
      intros x [->|Hx]%elem_of_cons; [lia|by apply H3].
    + intros x [->|Hx]%elem_of_cons; [lia|by apply IH].
Qed.

Lemma ordered_filter (P : Z → Prop) `{∀ x, Decision (P x)} l : ordered l → ordered (filter P l).
Proof.
  induction 1 as [|a l Hl IH Ha]; [constructor|]. rewrite filter_cons. case_decide; [|done].
  constructor; [done|]. rewrite Forall_forall in *. intros x [_ Hx]%list_elem_of_filter. by apply Ha.
Qed.

Lemma add_stream_spec k l : ordered l → ordered (add_stream k l) ∧ ∀ x, x ∈ add_stream k l ↔ x = k ∨ x ∈ l.
Proof.
  induction 1 as [|a l Hl [IH1 IH2] Ha]; [split; [repeat constructor|set_solver]|]. cbn [add_stream].
  destruct (Z.ltb_spec k a); [|destruct (Z.eqb_spec k a) as [->|]].
  - split; [|set_solver]. constructor; [by constructor|]. constructor; [done|].
    eapply Forall_impl; [exact Ha|]. simpl. lia.
  - split; [by constructor|set_solver].
  - split; [|set_solver]. constructor; [done|]. rewrite Forall_forall in *. intros x [->|Hx]%IH2; [lia|by apply Ha].
Qed.

(** ** Wakeups

    [informed] records, for every stream, the version its group had when the
    stream was last taken, or when it joined with a snapshot of that version. *)
Record group_ok (q : list nat) (informed : gmap (nat * Z) Z) (id : nat) (g : Group) : Prop := {
  go_ordered : ordered (streams g);
  go_cursor : match cursor g with
              | None => id ∉ q
              | Some None => False
              | Some (Some c) => id ∈ q ∧ c ∈ streams g ∧ through g <= version g
              end;
  go_informed : ∀ k, k ∈ streams g → ∃ v, informed !! (id, k) = Some v ∧ v <= version g ∧
    match cursor g with
    | None => v = version g
    | Some (Some c) => k < c → through g <= v
    | Some None => True
    end
}.

Definition all_ok (s : Progress) (q : list nat) (informed : gmap (nat * Z) Z) : Prop :=
  links s q ∧ ∀ id g, data s !! id = Some g → group_ok q informed id g.

(** The groups other than [id] are in order. *)
Definition others_ok (s : Progress) (q : list nat) (informed : gmap (nat * Z) Z) (id : nat) : Prop :=
  links s q ∧ (id ∉ q) ∧ ∀ j g, j ≠ id → data s !! j = Some g → group_ok q informed j g.

Lemma group_ok_queue q q' informed informed' id g :
  (id ∈ q ↔ id ∈ q') → (∀ k, k ∈ streams g → informed' !! (id, k) = informed !! (id, k)) →
  group_ok q informed id g → group_ok q' informed' id g.
Proof.
  intros Hq Hi [G1 G2 G3]. split; [done| |].
  - destruct (cursor g) as [[c|]|]; [|done|]; by rewrite <- Hq.
  - intros k Hk. rewrite Hi by done. by apply G3.
Qed.

Lemma data_one f id s g :
  (∀ g, strip (f g) = f (strip g)) → data s !! id = Some g →
  data (update f id s) !! id = Some (f g) ∧ ∀ j, j ≠ id → data (update f id s) !! j = data s !! j.
Proof.
  intros Hf Hg. rewrite data_update by done. split; [by rewrite lookup_alter_eq, Hg|].
  intros j Hj. by rewrite lookup_alter_ne.
Qed.

(** Put a group with a pending round at the back of the queue. *)
Lemma enqueue_ok s q informed id g f :
  others_ok s q informed id → data s !! id = Some g → (∀ g, strip (f g) = f (strip g)) →
  (∀ g, previous (f g) = previous g ∧ next (f g) = next g) → group_ok (q ++ [id]) informed id (f g) →
  all_ok (append id (update f id s)) (q ++ [id]) informed.
Proof.
  intros (Hl & Hid & Ho) Hg Hf Hn Hok. destruct (data_one f id s g Hf Hg) as [D1 D2].
  destruct (data_inv _ _ _ D1) as (g0 & Hg0 & _).
  split; [apply append_links; [by apply links_update|done|by exists g0]|]. rewrite data_append.
  intros j gj Hj. destruct (decide (j = id)) as [->|Hne]; [by simplify_eq|]. rewrite D2 in Hj by done.
  eapply group_ok_queue; [| |by apply Ho]; [|done]. set_solver.
Qed.

Lemma settle_ok s q informed id g f :
  others_ok s q informed id → data s !! id = Some g → (∀ g, strip (f g) = f (strip g)) →
  (∀ g, previous (f g) = previous g ∧ next (f g) = next g) → group_ok q informed id (f g) →
  all_ok (update f id s) q informed.
Proof.
  intros (Hl & Hid & Ho) Hg Hf Hn Hok. destruct (data_one f id s g Hf Hg) as [D1 D2].
  split; [by apply links_update|]. intros j gj Hj.
  destruct (decide (j = id)) as [->|Hne]; [by simplify_eq|]. rewrite D2 in Hj by done. by apply Ho.
Qed.

(** A new round starts at the first stream. *)
Lemma round_ok q informed id g :
  ordered (streams g) → streams g ≠ [] → id ∈ q →
  (∀ k, k ∈ streams g → ∃ v, informed !! (id, k) = Some v ∧ v <= version g) →
  group_ok q informed id (set_through (version g) (set_cursor (Some (head (streams g))) g)).
Proof.
  intros Hs Hne Hid Hi. destruct (streams g) as [|c l] eqn:E; [done|]. split; simpl; rewrite ?E.
  - done.
  - split; [done|]. split; [by left|lia].
  - intros k Hk. destruct (Hi k Hk) as (v & H1 & H2). exists v. split; [done|]. split; [done|].
    intros Hlt. apply StronglySorted_inv in Hs as [_ Hall]. rewrite Forall_forall in Hall.
    apply elem_of_cons in Hk as [->|Hk]; [lia|]. specialize (Hall k Hk). lia.
Qed.

(** The end of a round. *)
Lemma round_finish_ok s q informed id g :
  others_ok s q informed id → data s !! id = Some g → ordered (streams g) → through g <= version g →
  (∀ k, k ∈ streams g → ∃ v, informed !! (id, k) = Some v ∧ through g <= v <= version g) →
  ∃ q', all_ok (finish id s) q' informed.
Proof.
  intros Ho Hg Hs Ht Hi. destruct (data_inv _ _ _ Hg) as (g0 & Hg0 & <-). unfold finish. rewrite Hg0.
  case_bool_decide as He; simpl in *.
  - exists q. eapply settle_ok; try done. split; simpl; [done|apply Ho|]. by rewrite He; intros k []%not_elem_of_nil.
  - destruct (Z.eqb_spec (through g0) (version g0)) as [E|E]; simpl.
    + exists q. eapply settle_ok; try done. split; simpl; [done|apply Ho|]. intros k Hk.
      destruct (Hi k Hk) as (v & H1 & H2). exists v. split; [done|]. lia.
    + exists (q ++ [id]). eapply enqueue_ok; try done. apply round_ok; try done; [set_solver|].
      intros k Hk. destruct (Hi k Hk) as (v & H1 & H2). exists v. split; [done|]. simpl. lia.
Qed.

Lemma all_others s q informed id :
  all_ok s q informed → id ∉ q → others_ok s q informed id.
Proof. intros [Hl Hg] Hid. split; [done|]. split; [done|]. eauto. Qed.

(** Taking the head of the queue out. *)
Lemma dequeue_ok s q1 id q2 informed f :
  all_ok s (q1 ++ id :: q2) informed → (∀ g, strip (f g) = f (strip g)) →
  (∀ g, previous (f g) = previous g ∧ next (f g) = next g) →
  others_ok (detach id (update f id s)) (q1 ++ q2) informed id.
Proof.
  intros [Hl Hg] Hf Hn. assert (Hl' : links (update f id s) (q1 ++ id :: q2)) by (by apply links_update).
  pose proof (lk_nodup _ _ Hl) as (N1 & Nd & N2%NoDup_cons)%NoDup_app.
  split; [by apply detach_links|]. split.
  - intros [Hin|Hin]%elem_of_app; [apply (Nd id Hin); by left|by apply N2].
  - intros j g Hne. rewrite data_detach, data_update, lookup_alter_ne by done. intros Hj.
    eapply group_ok_queue; [| |by apply Hg]; [set_solver|done].
Qed.

Lemma notify_publish_ok s q informed id v r :
  all_ok s q informed → (∀ g, groups s !! id = Some g → version g <= v) →
  ∃ q', all_ok (publish id v r s) q' informed.
Proof.
  intros Hall Hv. unfold publish. destruct (groups s !! id) as [g|] eqn:Eg.
  2: { assert (groups (update (note v r) id s) !! id = None) as -> by (simpl; by rewrite lookup_alter_eq, Eg).
       exists q. destruct Hall as [Hl Hg]. split; [by apply links_update|]. intros j gj.
       rewrite data_update by done. destruct (decide (j = id)) as [->|Hne]; [|rewrite lookup_alter_ne by done; apply Hg].
       rewrite lookup_alter_eq. unfold data. by rewrite lookup_fmap, Eg. }
  assert (groups (update (note v r) id s) !! id = Some (note v r g)) as -> by (simpl; by rewrite lookup_alter_eq, Eg).
  pose proof (data_lookup _ _ _ Eg) as Hd. pose proof Hall as [Hl Hg]. destruct (Hg id _ Hd) as [G1 G2 G3].
  specialize (Hv g eq_refl). simpl in G1, G2, G3. cbn [cursor note streams].
  assert (Hbound : ∀ k, k ∈ streams g → ∃ v', informed !! (id, k) = Some v' ∧ v' <= v).
  { intros k Hk. destruct (G3 k Hk) as (v' & H1 & H2 & _). exists v'. split; [done|lia]. }
  destruct (data_one (note v r) id s _ ltac:(done) Hd) as [D1 D2].
  destruct (cursor g) as [[c|]|] eqn:Ec; [|done|].
  - rewrite bool_decide_eq_false_2 by done. simpl. exists q. split; [by apply links_update|].
    intros j gj Hj. destruct (decide (j = id)) as [->|Hne]; [|rewrite D2 in Hj by done; by apply Hg].
    rewrite D1 in Hj. injection Hj as <-. split; simpl; [done|rewrite Ec|rewrite Ec].
    + destruct G2 as (H1 & H2 & H3). split; [done|]. split; [done|]. lia.
    + intros k Hk. destruct (G3 k Hk) as (v' & H1 & H2 & H3). exists v'. split; [done|]. split; [lia|done].
  - rewrite bool_decide_eq_true_2 by done. simpl.
    assert (Ho : others_ok (update (note v r) id s) q informed id).
    { split; [by apply links_update|]. split; [done|]. intros j gj Hne Hj. rewrite D2 in Hj by done. by apply Hg. }
    case_bool_decide as He; simpl.
    + exists q. split; [by apply links_update|]. intros j gj Hj.
      destruct (decide (j = id)) as [->|Hne]; [|rewrite D2 in Hj by done; by apply Hg].
      rewrite D1 in Hj. injection Hj as <-. split; simpl; [done|by rewrite Ec|].
      rewrite He. by intros k []%not_elem_of_nil.
    + exists (q ++ [id]). eapply (enqueue_ok _ _ _ _ _ _ Ho D1); try done.
      apply (round_ok (q ++ [id]) informed id (note v r (strip g))); simpl; try done. set_solver.
Qed.

(** What the next [take] will return. *)
Lemma take_ready s q informed id :
  all_ok s q informed → head_ s = Some id →
  ∃ q2 g c, q = id :: q2 ∧ groups s !! id = Some g ∧ cursor g = Some (Some c) ∧ c ∈ streams g.
Proof.
  intros [Hl Hg] Hh. rewrite (lk_head _ _ Hl) in Hh. destruct q as [|x q2]; [done|]. simpl in Hh. injection Hh as ->.
  destruct (links_known _ _ id Hl ltac:(by left)) as [g G].
  destruct (Hg id _ (data_lookup _ _ _ G)) as [_ G2 _]. simpl in G2.
  destruct (cursor g) as [[c|]|] eqn:Ec; [|done|].
  - exists q2, g, c. naive_solver.
  - exfalso. apply G2. by left.
Qed.

Definition version_of (id : nat) (s : Progress) : Z := match groups s !! id with Some g => version g | None => 0 end.

Lemma take_ok s q informed :
  all_ok s q informed →
  match take s with
  | (None, s') => s' = s ∧ head_ s = None
  | (Some (id, k), s') => ∃ q', all_ok s' q' (<[(id, k) := version_of id s]> informed)
  end.
Proof.
  intros Hall. unfold take. destruct (head_ s) as [id|] eqn:Eh; [|done].
  destruct (take_ready _ _ _ _ Hall Eh) as (q2 & g & c & -> & Eg & Ec & Hc). rewrite Eg, Ec.
  pose proof Hall as [_ Hg]. destruct (Hg id _ (data_lookup _ _ _ Eg)) as [G1 G2 G3]. simpl in G1, G2, G3.
  rewrite Ec in G2, G3. destruct G2 as (_ & _ & Ht).
  assert (version_of id s = version g) as -> by (unfold version_of; by rewrite Eg).
  set (inf := <[(id, c) := version g]> informed).
  pose proof (after_spec c (streams g) G1) as Ha. set (n := after c (streams g)) in *.
  assert (Ho : others_ok (detach id (update (set_cursor (Some n)) id s)) q2 inf id).
  { destruct (dequeue_ok s [] id q2 informed (set_cursor (Some n)) Hall) as (O1 & O2 & O3); [done..|].
    split; [done|]. split; [done|]. intros j gj Hne Hj. eapply group_ok_queue; [done| |by apply O3].
    intros k _. unfold inf. rewrite lookup_insert_ne; [done|]. congruence. }
  assert (Hd : data (detach id (update (set_cursor (Some n)) id s)) !! id = Some (set_cursor (Some n) (strip g))).
  { rewrite data_detach. by apply data_one, data_lookup. }
  assert (Hinf : ∀ k, k ∈ streams g → k <= c → ∃ v, inf !! (id, k) = Some v ∧ through g <= v <= version g).
  { intros k Hk Hle. destruct (decide (k = c)) as [->|Hne].
    - exists (version g). unfold inf. rewrite lookup_insert_eq. split; [done|lia].
    - destruct (G3 k Hk) as (v & V1 & V2 & V3). exists v. unfold inf.
      rewrite lookup_insert_ne by congruence. split; [done|]. split; [apply V3; lia|done]. }
  destruct n as [n|].
  - destruct Ha as (H1 & H2 & H3). exists (q2 ++ [id]).
    destruct (data_inv _ _ _ Hd) as (g0 & Hg0 & Hs0). destruct Ho as (O1 & O2 & O3).
    split; [apply append_links; [done|done|by exists g0]|]. rewrite data_append. intros j gj Hj.
    destruct (decide (j = id)) as [->|Hne].
    + rewrite Hd in Hj. injection Hj as <-. split; simpl; [done|split; [set_solver|done]|].
      intros k Hk. destruct (Z.le_gt_cases k c).
      * destruct (Hinf k Hk) as (v & V1 & V2); [done|]. exists v. split; [done|]. split; [lia|]. lia.
      * destruct (G3 k Hk) as (v & V1 & V2 & _). exists v. unfold inf.
        rewrite lookup_insert_ne by (intros [= ->]; lia). split; [done|]. split; [done|].
        specialize (H3 k Hk ltac:(lia)). lia.
    + eapply group_ok_queue; [| |by apply O3]; [set_solver|done].
  - eapply round_finish_ok; [exact Ho|exact Hd|done|done|]. simpl. intros k Hk. by apply Hinf; [|apply Ha].
Qed.

Lemma stream_erase_ok s q informed id k :
  all_ok s q informed → ∃ q', all_ok (erase id k s) q' informed.
Proof.
  intros Hall. unfold erase. destruct (groups s !! id) as [g|] eqn:Eg; [|by exists q].
  case_bool_decide as Hk; simpl; [|by exists q].
  pose proof (data_lookup _ _ _ Eg) as Hd. pose proof Hall as [Hl Hg].
  destruct (Hg id _ Hd) as [G1 G2 G3]. simpl in G1, G2, G3.
  pose proof (ordered_filter (λ x, x ≠ k) _ G1) as Gf.
  assert (Hsub : ∀ x, x ∈ filter (λ x, x ≠ k) (streams g) ↔ x ∈ streams g ∧ x ≠ k)
    by (intros x; rewrite list_elem_of_filter; tauto).
  case_bool_decide as Hc.
  - rewrite Hc in G2, G3. destruct G2 as (Hin & _ & Ht). pose proof (after_spec k (streams g) G1) as Ha.
    set (n := after k (streams g)) in *. set (f := λ g, set_streams (filter (λ x, x ≠ k) (streams g)) g).
    set (c := set_cursor (Some n)). cbn [groups update]. rewrite !lookup_alter_eq, Eg. cbn [fmap option_fmap option_map].
    change (update f id (update c id s)) with (update (λ g, f g) id (update c id s)).
    assert (Hone : data (update f id (update c id s)) !! id = Some (f (c (strip g))) ∧
      ∀ j, j ≠ id → data (update f id (update c id s)) !! j = data s !! j).
    { destruct (data_one c id s _ ltac:(done) Hd) as [D1 D2].
      destruct (data_one f id (update c id s) _ ltac:(done) D1) as [D3 D4]. split; [done|].
      intros j Hne. by rewrite D4, D2. }
    destruct Hone as [D1 D2]. unfold c, f in *. cbn [cursor set_streams set_cursor].
    destruct n as [n|].
    + rewrite bool_decide_eq_false_2 by done. exists q. split; [by apply links_update, links_update|].
      intros j gj Hj. destruct (decide (j = id)) as [->|Hne]; [|rewrite D2 in Hj by done; by apply Hg].
      rewrite D1 in Hj. injection Hj as <-. destruct Ha as (H1 & H2 & H3).
      split; simpl; [done|split; [done|split; [apply Hsub; split; [done|lia]|done]]|].
      intros x [Hx Hxk]%Hsub. destruct (G3 x Hx) as (v & V1 & V2 & V3). exists v. split; [done|]. split; [done|].
      intros Hlt. apply V3. destruct (Z.lt_trichotomy x k) as [|[|]]; [done|done|]. specialize (H3 x Hx ltac:(done)). lia.
    + rewrite bool_decide_eq_true_2 by done. apply list_elem_of_split in Hin as (q1 & q2 & ->).
      assert (Hq : others_ok (detach id (update (λ g, f g) id (update c id s))) (q1 ++ q2) informed id).
      { assert (Hlu : links (update (λ g, f g) id (update c id s)) (q1 ++ id :: q2)) by (by apply links_update, links_update).
        pose proof (lk_nodup _ _ Hl) as (N1 & Nd & N2%NoDup_cons)%NoDup_app.
        split; [by apply detach_links|]. split; [intros [Hi|Hi]%elem_of_app; [apply (Nd id Hi); by left|by apply N2]|].
        intros j gj Hne. rewrite data_detach. unfold f, c. rewrite D2 by done. intros Hj.
        eapply group_ok_queue; [| |by apply Hg]; [set_solver|done]. }
      unfold f, c in Hq. eapply (round_finish_ok _ _ _ _ (set_streams (filter (λ x, x ≠ k) (streams g)) (set_cursor (Some None) (strip g))));
        [exact Hq|by rewrite data_detach|done|done|].
      simpl. intros x [Hx Hxk]%Hsub. destruct (G3 x Hx) as (v & V1 & V2 & V3). exists v. split; [done|].
      specialize (Ha x Hx). split; [apply V3; lia|done].
  - set (f := λ g, set_streams (filter (λ x, x ≠ k) (streams g)) g).
    destruct (data_one f id s _ ltac:(done) Hd) as [D1 D2]. cbn [groups update]. rewrite lookup_alter_eq, Eg.
    cbn [fmap option_fmap option_map].
    rewrite bool_decide_eq_false_2 by (intros E; change (cursor g = Some None) in E; by rewrite E in G2).
    exists q. split; [by apply links_update|]. intros j gj Hj.
    destruct (decide (j = id)) as [->|Hne]; [|rewrite D2 in Hj by done; by apply Hg].
    rewrite D1 in Hj. injection Hj as <-. split; simpl; [done| |].
    + destruct (cursor g) as [[c|]|]; [|done|done]. destruct G2 as (H1 & H2 & H3). split; [done|]. split; [|done].
      apply Hsub. split; [done|congruence].
    + intros x [Hx _]%Hsub. by apply G3.
Qed.

Lemma leave_ok s q informed id k :
  all_ok s q informed → ∃ q', all_ok (leave id k s) q' informed.
Proof.
  intros Hall. unfold leave. destruct (stream_erase_ok _ _ _ id k Hall) as [q' Hall']. set (s' := erase id k s) in *.
  destruct (groups s' !! id) as [g|] eqn:Eg; [|by exists q']. case_bool_decide as He; [|by exists q'].
  exists q'. destruct Hall' as [Hl Hg]. destruct (Hg id _ (data_lookup _ _ _ Eg)) as [_ G2 _]. simpl in G2.
  assert (Hid : id ∉ q').
  { destruct (cursor g) as [[c|]|]; [|done|done]. rewrite He in G2. destruct G2 as (_ & []%not_elem_of_nil & _). }
  split.
  - destruct Hl as [L1 L2 L3 L4]. split; [done..|]. simpl. by apply seg_delete.
  - intros j gj. unfold data. simpl. rewrite fmap_delete. intros [_ Hj]%lookup_delete_Some. by apply Hg.
Qed.

Lemma join_ok s q informed id k :
  all_ok s q informed → (∀ g, groups s !! id = Some g → k ∉ streams g) →
  all_ok (join id k s) q (<[(id, k) := version_of id s]> informed).
Proof.
  intros [Hl Hg] Hk. unfold join.
  set (s1 := match groups s !! id with None => _ | Some _ => s end).
  assert (H1 : links s1 q ∧ (∀ j, j ≠ id → data s1 !! j = data s !! j) ∧
    ∃ g, data s1 !! id = Some g ∧ version g = version_of id s ∧ (k ∉ streams g) ∧ group_ok q informed id g).
  { unfold s1, version_of. destruct (groups s !! id) as [g|] eqn:Eg.
    - split; [done|]. split; [done|]. exists (strip g). pose proof (data_lookup _ _ _ Eg) as Hd.
      split; [done|]. split; [done|]. split; [by apply (Hk g)|by apply Hg].
    - split; [destruct Hl as [L1 L2 L3 L4]; split; [done..|]; by apply seg_insert_new|]. split.
      + intros j Hne. unfold data. simpl. by rewrite fmap_insert, lookup_insert_ne.
      + exists new_group. unfold data. simpl. rewrite fmap_insert, lookup_insert_eq. split; [done|]. split; [done|].
        split; [by intros []%not_elem_of_nil|]. split; simpl; [constructor| |by intros x []%not_elem_of_nil].
        intros Hin. destruct (links_known _ _ _ Hl Hin) as [g Hg']. congruence. }
  destruct H1 as (Hl1 & Hoth & g & Hd & Hv & Hnk & [G1 G2 G3]).
  destruct (add_stream_spec k (streams g) G1) as [A1 A2].
  split; [by apply links_update|]. intros j gj. rewrite data_update by done.
  destruct (decide (j = id)) as [->|Hne].
  - rewrite lookup_alter_eq, Hd. intros [= <-]. split; simpl; [done| |].
    + destruct (cursor g) as [[c|]|]; [|done|done]. destruct G2 as (H2 & H3 & H4). split; [done|]. split; [|done].
      apply A2. by right.
    + intros x Hx%A2. destruct (decide (x = k)) as [->|Hxk].
      * exists (version g). rewrite lookup_insert_eq, Hv. split; [done|]. split; [lia|].
        destruct (cursor g) as [[c|]|]; [|done|done]. intros _. destruct G2 as (_ & _ & ?). lia.
      * destruct Hx as [|Hx]; [done|]. rewrite lookup_insert_ne by congruence. by apply G3.
  - rewrite lookup_alter_ne, Hoth by done. intros Hj. eapply group_ok_queue; [done| |by apply Hg].
    intros x _. rewrite lookup_insert_ne; [done|]. congruence.
Qed.

(** ** Runs *)
Inductive event :=
| Publish (id : nat) (v : Z) (replacement : bool)
| Take
| Join (id : nat) (k : Z)
| Leave (id : nat) (k : Z).

Record world := { progress : Progress; informed : gmap (nat * Z) Z }.

Definition start : world := {| progress := empty; informed := ∅ |}.

Definition step (w : world) (e : event) : world :=
  let s := progress w in
  match e with
  | Publish id v r => {| progress := publish id v r s; informed := informed w |}
  | Take =>
      match take s with
      | (Some (id, k), s') => {| progress := s'; informed := <[(id, k) := version_of id s]> (informed w) |}
      | (None, s') => {| progress := s'; informed := informed w |}
      end
  | Join id k => {| progress := join id k s; informed := <[(id, k) := version_of id s]> (informed w) |}
  | Leave id k => {| progress := leave id k s; informed := informed w |}
  end.

(** Versions of one scope never go back, and a stream joins once. *)
Definition orderly (w : world) (e : event) : Prop :=
  match e with
  | Publish id v _ => ∀ g, groups (progress w) !! id = Some g → version g <= v
  | Join id k => ∀ g, groups (progress w) !! id = Some g → k ∉ streams g
  | _ => True
  end.

Fixpoint orderly_run (w : world) (es : list event) : Prop :=
  match es with
  | [] => True
  | e :: es => orderly w e ∧ orderly_run (step w e) es
  end.

Lemma step_all_ok w q e : all_ok (progress w) q (informed w) → orderly w e →
  ∃ q', all_ok (progress (step w e)) q' (informed (step w e)).
Proof.
  intros Hall Ho. destruct e as [id v r| |id k|id k]; cbn [step].
  - by apply notify_publish_ok with q.
  - pose proof (take_ok _ _ _ Hall) as Ht. destruct (take (progress w)) as [[[id k]|] s']; [done|].
    destruct Ht as [-> _]. by exists q.
  - exists q. by apply join_ok.
  - by eapply leave_ok.
Qed.

Lemma run_all_ok w q es : all_ok (progress w) q (informed w) → orderly_run w es →
  ∃ q', all_ok (progress (foldl step w es)) q' (informed (foldl step w es)).
Proof.
  revert w q. induction es as [|e es IH]; intros w q Hall Ho; [by exists q|]. destruct Ho as [H1 H2].
  cbn [foldl]. destruct (step_all_ok w q e Hall H1) as [q' Hall']. by eapply IH.
Qed.

Lemma start_all_ok : all_ok (progress start) [] (informed start).
Proof. split; [split; [constructor|done..]|]. intros id g. unfold data. simpl. by rewrite fmap_empty, lookup_empty. Qed.

(** The intrusive queue is sound.  After any run the links spell a queue
    without repetition; a group is in it exactly when it has a cursor, and that
    cursor points at one of the group's own streams, so [take] never follows a
    dangling link or dereferences [end()], and a group without streams is not
    linked when it is destroyed. *)
Theorem queue_sound (es : list event) :
  orderly_run start es →
  let s := progress (foldl step start es) in
  ∃ q, links s q ∧
    (∀ id, id ∈ q ↔ ∃ g c, groups s !! id = Some g ∧ cursor g = Some (Some c) ∧ c ∈ streams g) ∧
    (∀ id g, groups s !! id = Some g → cursor g = None ↔ id ∉ q).
Proof.
  intros Ho s. destruct (run_all_ok start [] es start_all_ok Ho) as [q [Hl Hg]]. fold s in Hl, Hg.
  exists q. split; [done|].
  assert (Hcase : ∀ id g, groups s !! id = Some g → match cursor g with
    | None => id ∉ q | Some None => False | Some (Some c) => id ∈ q ∧ c ∈ streams g end).
  { intros id g G. destruct (Hg id _ (data_lookup _ _ _ G)) as [_ G2 _]. simpl in G2.
    destruct (cursor g) as [[c|]|]; naive_solver. }
  split.
  - intros id. split.
    + intros Hin. destruct (links_known _ _ _ Hl Hin) as [g G]. specialize (Hcase id g G). exists g.
      destruct (cursor g) as [[c|]|]; [|done|done]. exists c. naive_solver.
    + intros (g & c & G & Hc & _). specialize (Hcase id g G). rewrite Hc in Hcase. naive_solver.
  - intros id g G. specialize (Hcase id g G). destruct (cursor g) as [[c|]|]; naive_solver.
Qed.

(** C15. No wakeup is lost.  When nothing is pending, every subscribed stream has
    been taken since the last commit of its scope, or joined after it, however
    commits, joins and departures interleaved with the rounds.  The versions of a
    scope do not go back and a stream joins once, as their owners see to it. *)
Theorem no_lost_wakeup (es : list event) :
  orderly_run start es →
  let w := foldl step start es in
  pending (progress w) = false →
  ∀ id g k, groups (progress w) !! id = Some g → k ∈ streams g → informed w !! (id, k) = Some (version g).
Proof.
  intros Ho w Hp id g k G Hk. destruct (run_all_ok start [] es start_all_ok Ho) as [q [Hl Hg]]. fold w in Hl, Hg.
  unfold pending in Hp. apply bool_decide_eq_false, eq_None_not_Some in Hp.
  rewrite (lk_head _ _ Hl) in Hp. destruct q; [|done].
  destruct (Hg id _ (data_lookup _ _ _ G)) as [_ G2 G3]. simpl in G2, G3.
  destruct (G3 k Hk) as (v & V1 & V2 & V3). rewrite V1.
  destruct (cursor g) as [[c|]|]; [|done|by rewrite V3]. destruct G2 as [[]%not_elem_of_nil _].
Qed.

(** ** How much work is left *)
Definition work (g : Group) : nat :=
  match cursor g with
  | Some (Some c) => length (filter (λ x, c <= x) (streams g)) +
                     (if through g =? version g then 0 else length (streams g))
  | _ => 0
  end.

Definition backlog (s : Progress) : nat := map_fold (λ _ g acc, work g + acc)%nat 0%nat (groups s).

Definition sum (m : gmap nat Group) : nat := map_fold (λ _ g acc, work g + acc)%nat 0%nat m.

Lemma work_insert_new m id g : m !! id = None → sum (<[id := g]> m) = (work g + sum m)%nat.
Proof. intros H. unfold sum. rewrite map_fold_insert_L; [done| |done]. intros. lia. Qed.

Lemma sum_split m id g : m !! id = Some g → sum m = (work g + sum (delete id m))%nat.
Proof.
  intros H. rewrite <- (insert_delete_id m id g H) at 1. apply work_insert_new, lookup_delete_eq.
Qed.

Lemma backlog_data s : backlog s = sum (data s).
Proof.
  unfold backlog, data. fold (sum (groups s)). induction (groups s) as [|id g m Hid IH] using map_ind; [done|].
  rewrite fmap_insert, !work_insert_new; [by rewrite IH|by rewrite lookup_fmap, Hid|done].
Qed.

Lemma filter_ext_in (P Q : Z → Prop) `{∀ x, Decision (P x), ∀ x, Decision (Q x)} (l : list Z) :
  (∀ x, x ∈ l → P x ↔ Q x) → filter P l = filter Q l.
Proof.
  induction l as [|a l IH]; intros Hpq; [done|]. rewrite !filter_cons.
  rewrite IH by (intros x Hx; apply Hpq; by right). pose proof (Hpq a ltac:(by left)).
  repeat case_decide; tauto.
Qed.

Lemma filter_after c l : ordered l → c ∈ l →
  length (filter (λ x, c <= x) l) =
  S match after c l with Some n => length (filter (λ x, n <= x) l) | None => 0 end.
Proof.
  intros Hs Hc. pose proof (after_spec c l Hs) as Ha. revert Hc Ha. unfold after.
  induction Hs as [|a l Hl IH Hall]; [by intros []%not_elem_of_nil|]. intros Hc.
  rewrite Forall_forall in Hall. destruct (decide (a = c)) as [->|Hne].
  - rewrite (filter_cons_True (λ x, c <= x)) by lia. rewrite (filter_cons_False (λ x, c < x)) by lia. simpl.
    assert (E : filter (λ x, c <= x) l = filter (λ x, c < x) l)
      by (apply filter_ext_in; intros x Hx; specialize (Hall x Hx); lia).
    rewrite E. destruct (head (filter (λ x, c < x) l)) as [n|] eqn:En.
    + intros (_ & Hn & Hmin). rewrite (filter_cons_False (λ x, n <= x)) by lia. f_equal. f_equal.
      apply filter_ext_in. intros x Hx. split; [|lia].
      intros Hlt. apply Hmin; [by right|done].
    + intros _. by destruct (filter (λ x, c < x) l).
  - apply elem_of_cons in Hc as [->|Hc]; [done|]. specialize (Hall c Hc).
    rewrite (filter_cons_False (λ x, c <= x)), (filter_cons_False (λ x, c < x)) by lia. intros Ha.
    destruct (head (filter (λ x, c < x) l)) as [n|] eqn:En.
    + destruct Ha as (H1 & H2 & H3). rewrite (filter_cons_False (λ x, n <= x)) by lia. apply IH; [done|].
      split; [apply elem_of_cons in H1 as [->|H1]; [lia|done]|]. split; [done|].
      intros x Hx. apply H3. by right.
    + apply IH; [done|]. intros x Hx. apply Ha. by right.
Qed.

Lemma sum_update s id g f :
  (∀ g, strip (f g) = f (strip g)) → data s !! id = Some g →
  (sum (data (update f id s)) + work g = sum (data s) + work (f g))%nat.
Proof.
  intros Hf Hg. rewrite (sum_split (data s) id g Hg). rewrite data_update by done.
  rewrite (sum_split _ id (f g)) by (by rewrite lookup_alter_eq, Hg).
  assert (delete id (alter f id (data s)) = delete id (data s)) as ->; [|lia].
  apply map_eq. intros j. destruct (decide (j = id)) as [->|]; [by rewrite !lookup_delete_eq|].
  by rewrite !lookup_delete_ne, lookup_alter_ne.
Qed.

(** Every [take] does exactly one unit of the outstanding work. *)
Lemma take_work s q inf : all_ok s q inf →
  match (take s).1 with
  | None => backlog s = 0%nat
  | Some _ => backlog s = S (backlog (take s).2)
  end.
Proof.
  intros Hall. rewrite backlog_data. unfold take. destruct (head_ s) as [id|] eqn:Eh.
  - destruct (take_ready _ _ _ _ Hall Eh) as (q2 & g & c & -> & Eg & Ec & Hc). rewrite Eg, Ec. cbn [fst snd].
    pose proof (data_lookup _ _ _ Eg) as Hd. pose proof Hall as [_ Hg]. destruct (Hg id _ Hd) as [G1 _ _]. simpl in G1.
    pose proof (filter_after c (streams g) G1 Hc) as Hf. set (n := after c (streams g)) in *.
    rewrite backlog_data.
    assert (Hs1 : (sum (data (detach id (update (set_cursor (Some n)) id s))) + work (strip g) =
      sum (data s) + work (set_cursor (Some n) (strip g)))%nat) by (rewrite data_detach; by apply sum_update).
    unfold work in Hs1. simpl in Hs1. rewrite Ec in Hs1. destruct n as [n|].
    + rewrite data_append. lia.
    + set (s1 := detach id (update (set_cursor (Some None)) id s)) in *.
      assert (Hd1 : data s1 !! id = Some (set_cursor (Some None) (strip g)))
        by (unfold s1; rewrite data_detach; by apply data_one).
      destruct (data_inv _ _ _ Hd1) as (g0 & Hg0 & Hs0). unfold finish. rewrite Hg0.
      assert (streams g0 = streams g ∧ through g0 = through g ∧ version g0 = version g) as (-> & -> & ->)
        by (by pose proof (f_equal streams Hs0); pose proof (f_equal through Hs0); pose proof (f_equal version Hs0)).
      destruct (Z.eqb_spec (through g) (version g)) as [E|E]; cbn [negb]; rewrite ?andb_false_r, ?andb_true_r.
      * pose proof (sum_update s1 id _ (set_cursor None) ltac:(done) Hd1) as H. unfold work in H. simpl in H. lia.
      * case_bool_decide as He; [by rewrite He in Hc; apply not_elem_of_nil in Hc|]. cbn [negb]. rewrite data_append.
        pose proof (sum_update s1 id _ (λ g, set_through (version g) (set_cursor (Some (head (streams g))) g))
          ltac:(done) Hd1) as H. unfold work in H. simpl in H. destruct (streams g) as [|a l]; [done|]. simpl in H.
        rewrite Z.eqb_refl in H. rewrite (filter_cons_True (λ x, a <= x)) in H by lia.
        assert (El : filter (λ x, a <= x) l = l).
        { apply StronglySorted_inv in G1 as [_ Ha]. clear -Ha. induction Ha as [|b l Hb Hl IH]; [done|].
          rewrite filter_cons_True by lia. by rewrite IH. }
        rewrite El in H. simpl in *. lia.
  - cbn [fst]. destruct Hall as [Hl Hg]. rewrite (lk_head _ _ Hl) in Eh. destruct q; [|done]. clear Hl.
    revert Hg. generalize (data s) as m. induction m as [|id g m Hid IH] using map_ind; [done|]. intros Hg.
    rewrite work_insert_new by done. rewrite IH.
    + destruct (Hg id g) as [_ G2 _]; [apply lookup_insert_eq|]. unfold work.
      destruct (cursor g) as [[c|]|]; [|done|done]. by destruct G2 as [[]%not_elem_of_nil _].
    + intros j gj Hj. apply Hg. rewrite lookup_insert_ne; [done|]. congruence.
Qed.

Definition takes (n : nat) : list event := replicate n Take.

(** Rounds end.  Without new commits the control loop drains in exactly as many
    takes as there is outstanding work, at most two visits for each stream, and
    every take before that returns a stream. *)
Theorem rounds_drain (es : list event) (n : nat) :
  orderly_run start es →
  let w := foldl step start es in
  backlog (progress (foldl step w (takes n))) = (backlog (progress w) - n)%nat ∧
  (pending (progress (foldl step w (takes n))) = true ↔ (n < backlog (progress w))%nat) ∧
  (backlog (progress w) <= map_fold (λ _ g acc, 2 * length (streams g) + acc) 0 (groups (progress w)))%nat.
Proof.
  intros Ho w. destruct (run_all_ok start [] es start_all_ok Ho) as [q Hall]. fold w in Hall. clearbody w.
  split; [|split].
  - revert w q Hall. induction n as [|n IH]; intros w q Hall; [simpl; lia|]. cbn [takes replicate foldl].
    fold (takes n). destruct (step_all_ok w q Take Hall I) as [q' Hall']. rewrite (IH _ _ Hall').
    pose proof (take_work _ _ _ Hall) as Hw. cbn [step].
    pose proof (take_ok _ _ _ Hall) as Ht. destruct (take (progress w)) as [[[id k]|] s']; cbn [fst snd progress] in *.
    + lia.
    + destruct Ht as [-> _]. lia.
  - revert w q Hall. induction n as [|n IH]; intros w q Hall.
    + simpl. pose proof (take_work _ _ _ Hall) as Hw. pose proof (take_ok _ _ _ Hall) as Ht.
      unfold pending. rewrite bool_decide_eq_true.
      destruct (head_ (progress w)) as [id|] eqn:Eh.
      * destruct (take_ready _ _ _ _ Hall Eh) as (q2 & g & c & -> & Eg & Ec & Hc).
        unfold take in Hw. rewrite Eh, Eg, Ec in Hw. cbn [fst] in Hw. split; [lia|by eexists].
      * unfold take in Hw. rewrite Eh in Hw. cbn [fst] in Hw. split; [by intros []|lia].
    + cbn [takes replicate foldl]. fold (takes n). destruct (step_all_ok w q Take Hall I) as [q' Hall'].
      rewrite (IH _ _ Hall'). pose proof (take_work _ _ _ Hall) as Hw. cbn [step].
      pose proof (take_ok _ _ _ Hall) as Ht. destruct (take (progress w)) as [[[id k]|] s']; cbn [fst snd progress] in *.
      * lia.
      * destruct Ht as [-> _]. lia.
  - unfold backlog. clear. induction (groups (progress w)) as [|id g m Hid IH] using map_ind; [done|].
    rewrite !map_fold_insert_L by (done || (intros; lia)). enough (work g <= 2 * length (streams g))%nat by lia.
    unfold work. destruct (cursor g) as [[c|]|]; [|lia|lia]. pose proof (length_filter (λ x, c <= x) (streams g)).
    destruct (through g =? version g); lia.
Qed.

Module Sample.

(** Two groups; a commit arrives while the first round of group 1 is running,
    and one of its streams leaves at the cursor. *)
Definition events : list event :=
  [Join 1 10; Join 1 20; Join 1 30; Join 2 40; Publish 1 5 false; Publish 2 7 true; Take; Publish 1 6 false;
   Leave 1 20; Take; Take].

Definition reached : world := foldl step start events.

Example sample_runs_progress : (backlog (progress reached), head_ (progress reached), tail_ (progress reached),
    informed reached !! (1%nat, 10), informed reached !! (2%nat, 40)) =
  (2%nat, Some 1%nat, Some 1%nat, Some 5, Some 7).
Proof. vm_compute. done. Qed.

Lemma events_orderly : orderly_run start events.
Proof.
  cbn [orderly_run events]. repeat split.
  all: intros g Hg; vm_compute in Hg; try done; injection Hg as <-; try (vm_compute; congruence);
    refine (bool_decide_unpack _ _); vm_compute; exact I.
Qed.

Definition drained : list event := events ++ [Take; Take].

Lemma drained_orderly : orderly_run start drained.
Proof.
  cbn [orderly_run drained events app]. repeat split.
  all: intros g Hg; vm_compute in Hg; try done; injection Hg as <-; try (vm_compute; congruence);
    refine (bool_decide_unpack _ _); vm_compute; exact I.
Qed.

Lemma queue_sound_witness :
  ∃ q, links (progress reached) q ∧
    (∀ id, id ∈ q ↔ ∃ g c, groups (progress reached) !! id = Some g ∧ cursor g = Some (Some c) ∧ c ∈ streams g) ∧
    (∀ id g, groups (progress reached) !! id = Some g → cursor g = None ↔ id ∉ q).
Proof. exact (queue_sound events events_orderly). Defined.

Lemma no_lost_wakeup_witness :
  pending (progress (foldl step start drained)) = false ∧
  informed (foldl step start drained) !! (1%nat, 30) = Some 6.
Proof.
  split; [by vm_compute|]. set (w := foldl step start drained).
  destruct (groups (progress w) !! 1%nat) as [g|] eqn:E; [|by vm_compute in E].
  etrans; [apply (no_lost_wakeup drained drained_orderly ltac:(by vm_compute) 1%nat g 30 E)|].
  - vm_compute in E. injection E as <-. refine (bool_decide_unpack _ _). vm_compute. exact I.
  - vm_compute in E. by injection E as <-.
Defined.

Lemma rounds_drain_witness :
  backlog (progress (foldl step reached (takes 1))) = (backlog (progress reached) - 1)%nat ∧
  (pending (progress (foldl step reached (takes 1))) = true ↔ (1 < backlog (progress reached))%nat) ∧
  (backlog (progress reached) <=
     map_fold (λ _ g acc, 2 * length (streams g) + acc) 0 (groups (progress reached)))%nat.
Proof. exact (rounds_drain events 1 events_orderly). Defined.
End Sample.
