(* ===== verification/Table.v ===== *)
(** The client's paged dictionary: [astra/comet/cpp/src/table.hpp].

    A [Table] is 256 immutable pages selected by the low hash bits.  A batch
    works on a [Draft]: the first change of a page copies it into [dirty_] and
    sets its bit in a 256-bit map; [finish] walks the set bits and publishes.
    [std::hash], the bucket counts of [std::unordered_map] and object sizes are
    unspecified by the language and stay parameters. *)
From stdpp Require Import base numbers strings gmap list.
From S2P Require Import Prelude.

(** What the template asks of its records: a payload size and a fixed overhead. *)
Class TableRecord (R : Type) := {
  bytes : R → Z;
  record_overhead : Z;
  bytes_nonneg : ∀ r, 0 <= bytes r
}.

(** What the implementation of C++ chooses: the string hash, object sizes, and
    the bucket counts of a new page, of a copy and after an insertion. *)
Class Platform (R : Type) := {
  hash : string → Z;
  sizeof_page : Z;
  sizeof_table : Z;
  sizeof_draft : Z;
  sizeof_entry : Z;
  fresh_buckets : Z;
  copied_buckets : gmap string R → Z → Z;
  grown_buckets : gmap string R → Z → Z
}.

Section table.
Context {R : Type} {record : TableRecord R} {platform : Platform R}.

Record Page := { rows : gmap string R; bucket_count : Z }.

Definition measure (p : Page) : Z := sizeof_page + 32 + bucket_count p * 8.

(** An absent slot is a null pointer. *)
Record Table := { pages_ : gmap Z Page; size_ : Z; bytes_ : Z; overhead_ : Z }.

Definition empty : Table := {| pages_ := ∅; size_ := 0; bytes_ := 0; overhead_ := 0 |}.

Definition slot_of (k : string) : Z := Z.land (hash k) 255.

(** [Table::find]. *)
Definition find (k : string) (t : Table) : option R := pages_ t !! slot_of k ≫= λ p, rows p !! k.

(** [Table::each], in page order. *)
Definition each (t : Table) : list (string * R) :=
  s ← seqZ 0 256; match pages_ t !! s with Some p => map_to_list (rows p) | None => [] end.

Record Draft := {
  draft_pages : gmap Z Page;
  dirty_ : gmap Z Page;
  changed_ : list Z;
  draft_size : Z;
  draft_bytes : Z;
  draft_overhead : Z
}.

(** [Draft::Draft]. *)
Definition draft (base : Table) : Draft :=
  {| draft_pages := pages_ base; dirty_ := ∅; changed_ := [0; 0; 0; 0]; draft_size := size_ base;
     draft_bytes := bytes_ base; draft_overhead := overhead_ base |}.

(** [Draft::edit]. *)
Definition edit (slot : Z) (d : Draft) : Page * Draft :=
  match dirty_ d !! slot with
  | Some p => (p, d)
  | None =>
      let page := match draft_pages d !! slot with
                  | Some old => {| rows := rows old; bucket_count := copied_buckets (rows old) (bucket_count old) |}
                  | None => {| rows := ∅; bucket_count := fresh_buckets |}
                  end in
      let before := match draft_pages d !! slot with Some old => measure old | None => 0 end in
      let word := Z.to_nat (slot / 64) in
      (page,
       {| draft_pages := draft_pages d; dirty_ := <[slot := page]> (dirty_ d);
          changed_ := <[word := Z.lor (default 0 (changed_ d !! word)) (Z.shiftl 1 (slot mod 64))]> (changed_ d);
          draft_size := draft_size d; draft_bytes := draft_bytes d;
          draft_overhead := wrap64 (wrap64 (draft_overhead d - before) + measure page) |})
  end.

Definition put_page (slot : Z) (p : Page) (size bytes overhead : Z) (d : Draft) : Draft :=
  {| draft_pages := draft_pages d; dirty_ := <[slot := p]> (dirty_ d); changed_ := changed_ d;
     draft_size := size; draft_bytes := bytes; draft_overhead := overhead |}.

Definition length_of (k : string) : Z := Z.of_nat (String.length k).

(** [Draft::set]. *)
Definition set (k : string) (r : R) (d : Draft) : outcome Draft :=
  let payload := bytes r in
  if u64_max - length_of k <? payload then Thrown length_error
  else
    let cost := wrap64 (length_of k + payload) in
    let slot := slot_of k in
    let '(page, d) := edit slot d in
    let old := rows page !! k in
    let previous := match old with Some r => wrap64 (length_of k + bytes r) | None => 0 end in
    if u64_max - wrap64 (draft_bytes d - previous) <? cost then Thrown length_error
    else
      let new_bytes := wrap64 (wrap64 (draft_bytes d - previous) + cost) in
      match old with
      | Some _ =>
          Done (put_page slot {| rows := <[k := r]> (rows page); bucket_count := bucket_count page |}
                  (draft_size d) new_bytes (draft_overhead d) d)
      | None =>
          let page' := {| rows := <[k := r]> (rows page);
                          bucket_count := grown_buckets (rows page) (bucket_count page) |} in
          Done (put_page slot page' (wrap64 (draft_size d + 1)) new_bytes
                  (wrap64 (wrap64 (draft_overhead d - measure page) + measure page')) d)
      end.

(** [Draft::erase]. *)
Definition erase (k : string) (d : Draft) : Draft :=
  let slot := slot_of k in
  if bool_decide (dirty_ d !! slot = None)
     && match draft_pages d !! slot with Some p => bool_decide (rows p !! k = None) | None => true end
  then d
  else
    let '(page, d) := edit slot d in
    match rows page !! k with
    | None => d
    | Some r =>
        put_page slot {| rows := delete k (rows page); bucket_count := bucket_count page |}
          (wrap64 (draft_size d - 1)) (wrap64 (draft_bytes d - wrap64 (length_of k + bytes r))) (draft_overhead d) d
    end.

(** [Table::footprint] and [Draft::footprint]. *)
Definition footprint (t : Table) : Z :=
  wrap64 (bytes_ t + sizeof_table + size_ t * (sizeof_entry + record_overhead + 32) + overhead_ t).
Definition draft_footprint (d : Draft) : Z :=
  wrap64 (draft_bytes d + sizeof_draft + draft_size d * (sizeof_entry + record_overhead + 32) + draft_overhead d).

(** [std::countr_zero]. *)
Fixpoint ctz (p : positive) : Z :=
  match p with xO p => 1 + ctz p | _ => 0 end.
Definition countr_zero (z : Z) : Z := match z with Zpos p => ctz p | _ => 64 end.

(** One changed page of [Draft::finish]. *)
Definition publish_page (d : Draft) (slot : Z) (acc : gmap Z Page * Z) : gmap Z Page * Z :=
  match dirty_ d !! slot with
  | Some p =>
      if bool_decide (rows p = ∅) then (delete slot acc.1, wrap64 (acc.2 - measure p))
      else (<[slot := p]> acc.1, acc.2)
  | None => acc
  end.

(** The inner loop of [finish]: each turn clears the lowest set bit of a 64-bit
    word, so 64 turns are enough. *)
Fixpoint finish_word (fuel : nat) (d : Draft) (group bits : Z) (acc : gmap Z Page * Z) : gmap Z Page * Z :=
  match fuel with
  | O => acc
  | S fuel =>
      if bits =? 0 then acc
      else finish_word fuel d group (Z.land bits (bits - 1))
             (publish_page d (group * 64 + countr_zero bits) acc)
  end.

Definition word_bits : nat := 64.

(** The outer loop over the four words. *)
Fixpoint walk {A} (visit : Z → Z → A → A) (group : Z) (words : list Z) (acc : A) : A :=
  match words with
  | [] => acc
  | bits :: words => walk visit (group + 1) words (visit group bits acc)
  end.

Definition finish_words (d : Draft) : Z → list Z → gmap Z Page * Z → gmap Z Page * Z :=
  walk (finish_word word_bits d).

(** [Draft::finish]. *)
Definition finish (d : Draft) : Table :=
  let '(pages, overhead) := finish_words d 0 (changed_ d) (draft_pages d, draft_overhead d) in
  {| pages_ := pages; size_ := draft_size d; bytes_ := draft_bytes d; overhead_ := overhead |}.

(** ** Walking the bit map *)
Lemma lowest_bit_spec p : 0 <= ctz p ∧ Z.testbit (Zpos p) (ctz p) = true ∧
  ∀ i, 0 <= i → Z.testbit (Z.land (Zpos p) (Zpos p - 1)) i = Z.testbit (Zpos p) i && negb (i =? ctz p).
Proof.
  induction p as [p IH|p (IH1 & IH2 & IH3)|].
  - split; [done|]. split; [done|]. intros i Hi. cbn [ctz]. rewrite Z.land_spec.
    change (Zpos p~1 - 1) with (Zpos p~0).
    replace (Zpos p~1) with (2 * Zpos p + 1) by lia. replace (Zpos p~0) with (2 * Zpos p) by lia.
    destruct (Z.eqb_spec i 0) as [->|Hne].
    + rewrite Z.testbit_even_0. by rewrite !andb_false_r.
    + replace i with (Z.succ (i - 1)) by lia. rewrite Z.testbit_odd_succ, Z.testbit_even_succ by lia.
      by rewrite andb_diag, andb_true_r.
  - cbn [ctz]. split; [lia|]. replace (Zpos p~0) with (2 * Zpos p) by lia. split.
    + replace (1 + ctz p) with (Z.succ (ctz p)) by lia. by rewrite Z.testbit_even_succ.
    + intros i Hi. rewrite Z.land_spec. replace (2 * Zpos p - 1) with (2 * (Zpos p - 1) + 1) by lia.
      destruct (decide (i = 0)) as [->|H0]; [by rewrite Z.testbit_even_0|].
      replace i with (Z.succ (i - 1)) by lia. rewrite Z.testbit_even_succ, Z.testbit_odd_succ by lia.
      specialize (IH3 (i - 1) ltac:(lia)). rewrite Z.land_spec in IH3. rewrite IH3. f_equal. f_equal.
      destruct (Z.eqb_spec (i - 1) (ctz p)), (Z.eqb_spec (Z.succ (i - 1)) (1 + ctz p)); lia.
  - split; [done|]. split; [done|]. intros i Hi. cbn [ctz]. change (Z.land 1 (1 - 1)) with 0. rewrite Z.bits_0.
    destruct (Z.eqb_spec i 0) as [->|Hne]; [done|]. rewrite andb_true_r.
    symmetry. apply Z.bits_above_log2; [lia|]. simpl. lia.
Qed.

(** The set positions of a word from [j] on. *)
Definition set_bits (bits j : Z) : list Z := filter (λ i, Z.testbit bits i = true) (seqZ j (64 - j)).

Lemma filter_none (P : Z → Prop) `{∀ x, Decision (P x)} (l : list Z) : (∀ x, x ∈ l → ¬ P x) → filter P l = [].
Proof.
  induction l as [|a l IH]; intros Hn; [done|]. rewrite filter_cons_False by (apply Hn; by left).
  apply IH. intros x Hx. apply Hn. by right.
Qed.

Lemma filter_agree (P Q : Z → Prop) `{∀ x, Decision (P x), ∀ x, Decision (Q x)} (l : list Z) :
  (∀ x, x ∈ l → P x ↔ Q x) → filter P l = filter Q l.
Proof.
  induction l as [|a l IH]; intros Hpq; [done|]. rewrite !filter_cons.
  rewrite IH by (intros x Hx; apply Hpq; by right). pose proof (Hpq a ltac:(by left)).
  repeat case_decide; tauto.
Qed.

Lemma set_bits_next p j :
  0 <= j → (∀ i, 0 <= i < j → Z.testbit (Zpos p) i = false) → ctz p < 64 →
  j <= ctz p ∧ set_bits (Zpos p) j = ctz p :: set_bits (Z.land (Zpos p) (Zpos p - 1)) (ctz p + 1).
Proof.
  intros Hj Hlow Hc. destruct (lowest_bit_spec p) as (C1 & C2 & C3).
  assert (Hle : j <= ctz p) by (destruct (Z.lt_ge_cases (ctz p) j) as [Hlt|]; [rewrite (Hlow (ctz p)) in C2 by lia; done|done]).
  split; [done|]. unfold set_bits.
  assert (Hskip : ∀ i, 0 <= i < ctz p → Z.testbit (Zpos p) i = false).
  { clear. induction p as [p IH|p IH|]; cbn [ctz]; intros i Hi; [lia| |lia].
    replace (Zpos p~0) with (2 * Zpos p) by lia. destruct (decide (i = 0)) as [->|]; [apply Z.testbit_even_0|].
    replace i with (Z.succ (i - 1)) by lia. rewrite Z.testbit_even_succ by lia. apply IH. lia. }
  replace (seqZ j (64 - j)) with (seqZ j (ctz p - j) ++ seqZ (ctz p) (64 - ctz p)).
  2: { pose proof (seqZ_app j (ctz p - j) (64 - ctz p) ltac:(lia) ltac:(lia)) as E.
       replace (j + (ctz p - j)) with (ctz p) in E by lia. rewrite <- E. f_equal. lia. }
  rewrite filter_app, filter_none; [|intros x Hx%elem_of_seqZ; by rewrite Hskip by lia].
  rewrite seqZ_cons by lia. simpl. rewrite filter_cons_True by done. f_equal.
  replace (Z.pred (64 - ctz p)) with (64 - (ctz p + 1)) by lia. replace (Z.succ (ctz p)) with (ctz p + 1) by lia.
  apply filter_agree. intros x Hx%elem_of_seqZ. rewrite C3 by lia.
  rewrite (proj2 (Z.eqb_neq x _)) by lia. by rewrite andb_true_r.
Qed.

Lemma finish_word_spec fuel d group bits acc j :
  0 <= bits → 0 <= j → (∀ i, 0 <= i < j → Z.testbit bits i = false) → (∀ i, 64 <= i → Z.testbit bits i = false) →
  64 - j <= Z.of_nat fuel →
  finish_word fuel d group bits acc = foldl (λ acc i, publish_page d (group * 64 + i) acc) acc (set_bits bits j).
Proof.
  revert bits acc j. induction fuel as [|fuel IH]; intros bits acc j Hb Hj Hlow Hhigh Hfuel.
  { unfold set_bits. by rewrite seqZ_nil by lia. }
  cbn [finish_word]. destruct (Z.eqb_spec bits 0) as [->|Hne].
  - unfold set_bits. rewrite filter_none; [done|]. intros x _. by rewrite Z.bits_0.
  - destruct bits as [|p|]; [done| |lia]. cbn [countr_zero]. destruct (lowest_bit_spec p) as (C1 & C2 & C3).
    assert (Hc : ctz p < 64) by (destruct (Z.lt_ge_cases (ctz p) 64); [done|rewrite Hhigh in C2 by done; done]).
    destruct (set_bits_next p j Hj Hlow Hc) as [Hle ->]. cbn [foldl]. apply IH.
    + apply Z.land_nonneg. lia.
    + lia.
    + intros i Hi. rewrite C3 by lia. destruct (Z.eqb_spec i (ctz p)) as [->|]; [apply andb_false_r|].
      rewrite andb_true_r. destruct (Z.testbit (Zpos p) i) eqn:Et; [|done].
      assert (E : i ∈ set_bits (Zpos p) 0) by (apply list_elem_of_filter; split; [done|apply elem_of_seqZ; lia]).
      destruct (set_bits_next p 0 ltac:(lia) ltac:(lia) Hc) as [_ E']. rewrite E' in E.
      apply elem_of_cons in E as [|[_ E]%list_elem_of_filter]; [lia|]. apply elem_of_seqZ in E. lia.
    + intros i Hi. rewrite C3 by lia. by rewrite Hhigh.
    + lia.
Qed.

(** The slots a bit map names. *)
Fixpoint slots (group : Z) (words : list Z) : list Z :=
  match words with
  | [] => []
  | w :: words => ((λ i, group * 64 + i) <$> set_bits w 0) ++ slots (group + 1) words
  end.

Definition word_ok (w : Z) : Prop := 0 <= w ∧ ∀ i, 64 <= i → Z.testbit w i = false.

Lemma walk_fold {A} (visit : Z → Z → A → A) (touch : A → Z → A) group words acc :
  (∀ group w acc, w ∈ words →
     visit group w acc = foldl (λ acc i, touch acc (group * 64 + i)) acc (set_bits w 0)) →
  walk visit group words acc = foldl touch acc (slots group words).
Proof.
  revert group acc. induction words as [|w words IH]; intros group acc Hv; [done|].
  cbn [walk slots]. rewrite Hv by (by left). rewrite foldl_app, foldl_fmap. apply IH.
  intros g w' acc' Hw. apply Hv. by right.
Qed.

Lemma finish_words_spec d group words acc :
  Forall word_ok words →
  finish_words d group words acc = foldl (λ acc s, publish_page d s acc) acc (slots group words).
Proof.
  intros Hw. apply walk_fold. intros g w acc' Hin. rewrite Forall_forall in Hw. destruct (Hw w Hin) as [W1 W2].
  apply (finish_word_spec word_bits d g w acc' 0); [done|lia|lia|done|unfold word_bits; lia].
Qed.

Lemma slots_elem group words s :
  s ∈ slots group words ↔ group * 64 <= s < (group + Z.of_nat (length words)) * 64 ∧
    ∃ w, words !! Z.to_nat (s / 64 - group) = Some w ∧ Z.testbit w (s mod 64) = true.
Proof.
  revert group. induction words as [|w words IH]; intros group; cbn [slots length].
  { split; [by intros []%not_elem_of_nil|]. intros [_ (w & Hw & _)]. by rewrite lookup_nil in Hw. }
  pose proof (Z.div_mod s 64 ltac:(lia)). pose proof (Z.mod_pos_bound s 64 ltac:(lia)).
  rewrite elem_of_app, IH, list_elem_of_fmap. unfold set_bits. split.
  - intros [(i & -> & [Hb Hi%elem_of_seqZ]%list_elem_of_filter)|[Hr (w' & Hw & Hb)]].
    + split; [lia|]. exists w. replace ((group * 64 + i) / 64) with group by (apply Z.div_unique with i; lia).
      rewrite Z.sub_diag. split; [done|]. by replace ((group * 64 + i) mod 64) with i by (apply Z.mod_unique with group; lia).
    + split; [lia|]. exists w'. split; [|done]. assert (group + 1 <= s / 64) by (apply Z.div_le_lower_bound; lia).
      by replace (Z.to_nat (s / 64 - group)) with (S (Z.to_nat (s / 64 - (group + 1)))) by lia.
  - intros [Hr (w' & Hw & Hb)]. destruct (decide (s / 64 = group)) as [Eq|Hne].
    + left. rewrite Eq, Z.sub_diag in Hw. injection Hw as <-. exists (s mod 64). split; [lia|].
      apply list_elem_of_filter. split; [done|]. apply elem_of_seqZ. lia.
    + right. assert (group <= s / 64) by (apply Z.div_le_lower_bound; lia). split; [lia|]. exists w'. split; [|done].
      by replace (Z.to_nat (s / 64 - group)) with (S (Z.to_nat (s / 64 - (group + 1)))) in Hw by lia.
Qed.

Lemma slots_nodup group words : NoDup (slots group words).
Proof.
  revert group. induction words as [|w words IH]; intros group; [constructor|]. cbn [slots].
  apply NoDup_app. split_and!; [|intros s Hs Hs'|apply IH].
  - apply NoDup_fmap; [intros i j; lia|]. apply NoDup_filter, NoDup_seqZ.
  - apply list_elem_of_fmap in Hs as (i & -> & [_ Hi%elem_of_seqZ]%list_elem_of_filter).
    apply slots_elem in Hs' as [Hr _]. lia.
Qed.

(** ** Publishing *)
Definition weigh : Z → Page → Z := λ _, measure.

(** The pages still to publish override those already published. *)
Definition over (d : Draft) (ss : list Z) (m : gmap Z Page) : gmap Z Page :=
  filter (λ p : Z * Page, p.1 ∈ ss) (dirty_ d) ∪ m.

Lemma over_lookup d ss m s :
  over d ss m !! s = match (if bool_decide (s ∈ ss) then dirty_ d !! s else None) with
                     | Some p => Some p | None => m !! s end.
Proof.
  unfold over. rewrite lookup_union, map_lookup_filter. destruct (dirty_ d !! s) as [p|]; simpl.
  - case_bool_decide as Hs.
    + rewrite option_guard_True by done. by destruct (m !! s).
    + rewrite option_guard_False by done. by destruct (m !! s).
  - case_bool_decide; by destruct (m !! s).
Qed.

Lemma wrap64_sub a b : wrap64 (wrap64 a - b) = wrap64 (a - b).
Proof. unfold wrap64. by rewrite Zminus_mod_idemp_l. Qed.
Lemma wrap64_add a b : wrap64 (wrap64 a + b) = wrap64 (a + b).
Proof. unfold wrap64. by rewrite Zplus_mod_idemp_l. Qed.

Lemma publish_fold d ss acc :
  NoDup ss → (∀ s, s ∈ ss → is_Some (dirty_ d !! s)) → acc.2 = wrap64 (map_sum weigh (over d ss acc.1)) →
  let r := foldl (λ acc s, publish_page d s acc) acc ss in
  r.2 = wrap64 (map_sum weigh r.1) ∧
  ∀ s, r.1 !! s = if bool_decide (s ∈ ss)
                  then dirty_ d !! s ≫= λ p, if bool_decide (rows p = ∅) then None else Some p
                  else acc.1 !! s.
Proof.
  intros Hnd. revert acc. induction Hnd as [|s ss Hs Hnd IH]; intros [m o] Hd Ho; cbn [foldl fst snd] in *.
  { split; [|done]. rewrite Ho. do 2 f_equal. apply map_eq. intros s. by rewrite over_lookup. }
  destruct (Hd s ltac:(by left)) as [p Hp]. 
  assert (publish_page d s (m, o) = if bool_decide (rows p = ∅) then (delete s m, wrap64 (o - measure p))
    else (<[s := p]> m, o)) as -> by (unfold publish_page; by rewrite Hp).
  assert (Hover : ∀ m', (∀ t, t ≠ s → m' !! t = m !! t) →
    ∀ t, over d ss m' !! t = if decide (t = s) then m' !! s else over d (s :: ss) m !! t).
  { intros m' Hm' t. rewrite !over_lookup. destruct (decide (t = s)) as [->|Hne].
    - by rewrite bool_decide_eq_false_2.
    - rewrite Hm' by done. rewrite (bool_decide_ext (t ∈ s :: ss) (t ∈ ss)) by set_solver. done. }
  assert (Hat : over d (s :: ss) m !! s = Some p).
  { rewrite over_lookup, bool_decide_eq_true_2 by (by left). by rewrite Hp. }
  assert (Hfin : ∀ m' o', (∀ t, t ≠ s → m' !! t = m !! t) →
    m' !! s = (if bool_decide (rows p = ∅) then None else Some p) →
    o' = wrap64 (map_sum weigh (over d ss m')) →
    let r := foldl (λ acc s, publish_page d s acc) (m', o') ss in
    r.2 = wrap64 (map_sum weigh r.1) ∧
    ∀ t, r.1 !! t = if bool_decide (t ∈ s :: ss)
                    then dirty_ d !! t ≫= λ p, if bool_decide (rows p = ∅) then None else Some p
                    else m !! t).
  { intros m' o' H1 H2 H3. destruct (IH (m', o')) as [I1 I2]; [intros t Ht; apply Hd; by right|done|].
    split; [done|]. intros t. rewrite I2. cbn [fst]. destruct (decide (t = s)) as [->|Hne].
    - rewrite bool_decide_eq_false_2, bool_decide_eq_true_2 by (done || by left). by rewrite H2, Hp.
    - rewrite H1 by done. by rewrite (bool_decide_ext (t ∈ s :: ss) (t ∈ ss)) by set_solver. }
  case_bool_decide as Hr.
  - apply Hfin; [intros t Ht; by rewrite lookup_delete_ne|apply lookup_delete_eq|].
    rewrite Ho, (map_sum_delete weigh _ s p Hat), wrap64_sub. f_equal.
    assert (over d ss (delete s m) = delete s (over d (s :: ss) m)) as ->; [|unfold weigh; lia].
    apply map_eq. intros t. rewrite (Hover (delete s m)) by (intros; by rewrite lookup_delete_ne).
    destruct (decide (t = s)) as [->|]; [by rewrite !lookup_delete_eq|by rewrite lookup_delete_ne].
  - apply Hfin; [intros t Ht; by rewrite lookup_insert_ne|apply lookup_insert_eq|].
    rewrite Ho. do 2 f_equal. apply map_eq. intros t.
    rewrite (Hover (<[s := p]> m)) by (intros; by rewrite lookup_insert_ne).
    destruct (decide (t = s)) as [->|]; [by rewrite lookup_insert_eq|done].
Qed.

(** ** What tables and drafts hold *)
Definition cost (k : string) (r : R) : Z := length_of k + bytes r.
Definition weight (m : gmap string R) : Z := map_sum cost m.

Lemma table_cost_nonneg k r : 0 <= cost k r.
Proof. unfold cost, length_of. pose proof (bytes_nonneg r). lia. Qed.

(** Pages that spell the dictionary [m]. *)
Record holds (pages : gmap Z Page) (m : gmap string R) : Prop := {
  ho_range : ∀ s p, pages !! s = Some p → 0 <= s < 256;
  ho_place : ∀ s p k r, pages !! s = Some p → rows p !! k = Some r → slot_of k = s;
  ho_view : ∀ k, pages !! slot_of k ≫= (λ p, rows p !! k) = m !! k
}.

Record table_ok (t : Table) (m : gmap string R) : Prop := {
  to_holds : holds (pages_ t) m;
  to_full : ∀ s p, pages_ t !! s = Some p → rows p ≠ ∅;
  to_size : size_ t = wrap64 (Z.of_nat (size m));
  to_bytes : bytes_ t = weight m ∧ weight m <= u64_max;
  to_overhead : overhead_ t = wrap64 (map_sum weigh (pages_ t))
}.

(** The pages a draft shows: its own before the shared ones. *)
Definition merged (d : Draft) : gmap Z Page := dirty_ d ∪ draft_pages d.

Record draft_ok (d : Draft) (m : gmap string R) : Prop := {
  dr_words : length (changed_ d) = 4%nat ∧ Forall word_ok (changed_ d);
  dr_bits : ∀ s, is_Some (dirty_ d !! s) ↔ s ∈ slots 0 (changed_ d);
  dr_full : ∀ s p, draft_pages d !! s = Some p → rows p ≠ ∅;
  dr_holds : holds (merged d) m;
  dr_size : draft_size d = wrap64 (Z.of_nat (size m));
  dr_bytes : draft_bytes d = weight m ∧ weight m <= u64_max;
  dr_overhead : draft_overhead d = wrap64 (map_sum weigh (merged d))
}.

Lemma merged_lookup d s : merged d !! s = match dirty_ d !! s with Some p => Some p | None => draft_pages d !! s end.
Proof. unfold merged. rewrite lookup_union. by destruct (dirty_ d !! s), (draft_pages d !! s). Qed.

Lemma slot_range k : 0 <= slot_of k < 256.
Proof.
  unfold slot_of. change 255 with (Z.ones 8). rewrite Z.land_ones by lia.
  pose proof (Z.mod_pos_bound (hash k) (2 ^ 8) ltac:(lia)). lia.
Qed.

Lemma draft_fresh_ok t m : table_ok t m → draft_ok (draft t) m.
Proof.
  intros [T1 T2 T3 T4 T5]. assert (Hm : merged (draft t) = pages_ t) by (unfold merged; simpl; apply map_empty_union).
  split; rewrite ?Hm; try done.
  - split; [done|]. assert (W : word_ok 0) by (split; [done|intros; apply Z.bits_0]). repeat (apply Forall_cons_2; [exact W|]). by apply Forall_nil_2.
  - intros s. cbn [draft dirty_ changed_]. rewrite lookup_empty. split; [by intros []|]. intros Hs%slots_elem.
    destruct Hs as (_ & w & Hw & Hb).
    assert (w = 0) as ->; [|by rewrite Z.bits_0 in Hb].
    apply list_elem_of_lookup_2 in Hw. set_solver.
Qed.

(** Setting the bit of a slot. *)
Lemma mark_bits words s w t :
  length words = 4%nat → Forall word_ok words → 0 <= s < 256 → words !! Z.to_nat (s / 64) = Some w →
  Forall word_ok (<[Z.to_nat (s / 64) := Z.lor w (Z.shiftl 1 (s mod 64))]> words) ∧
  (t ∈ slots 0 (<[Z.to_nat (s / 64) := Z.lor w (Z.shiftl 1 (s mod 64))]> words) ↔ t = s ∨ t ∈ slots 0 words).
Proof.
  intros Hlen Hw Hs Hlook. pose proof (Z.mod_pos_bound s 64 ltac:(lia)). pose proof (Z.div_mod s 64 ltac:(lia)).
  assert (Hbit : ∀ i, 0 <= i → Z.testbit (Z.lor w (Z.shiftl 1 (s mod 64))) i = Z.testbit w i || (i =? s mod 64)).
  { intros i Hi. rewrite Z.lor_spec, Z.shiftl_1_l, Z.pow2_bits_eqb by lia. f_equal. apply Z.eqb_sym. }
  split.
  - apply Forall_insert; [done|]. eapply Forall_lookup_1 in Hw as [W1 W2]; [|exact Hlook]. split.
    + apply Z.lor_nonneg. split; [done|]. rewrite Z.shiftl_1_l. apply Z.pow_nonneg. lia.
    + intros i Hi. rewrite Hbit, W2, (proj2 (Z.eqb_neq _ _)) by lia. done.
  - rewrite !slots_elem, length_insert, !Z.sub_0_r. pose proof (Z.mod_pos_bound t 64 ltac:(lia)).
    pose proof (Z.div_mod t 64 ltac:(lia)).
    destruct (decide (Z.to_nat (t / 64) = Z.to_nat (s / 64))) as [E|E].
    + rewrite E, list_lookup_insert_eq by (apply lookup_lt_Some in Hlook; done). split.
      * intros (Hr & w' & [= <-] & Hb). rewrite Hbit in Hb by lia. apply orb_true_iff in Hb as [Hb|Hb%Z.eqb_eq].
        -- right. split; [done|]. by exists w.
        -- left. assert (0 <= t / 64) by (apply Z.div_pos; lia). assert (0 <= s / 64) by (apply Z.div_pos; lia). lia.
      * intros [->|(Hr & w' & Hw' & Hb)].
        -- split; [lia|]. eexists. split; [done|]. rewrite Hbit, Z.eqb_refl, orb_true_r by lia. done.
        -- split; [done|]. eexists. split; [done|]. rewrite Hlook in Hw'. injection Hw' as <-.
           rewrite Hbit, Hb by lia. done.
    + rewrite list_lookup_insert_ne by done. split; [tauto|]. intros [->|]; [done|done].
Qed.

(** [edit] makes a page private without changing what the draft shows. *)
Lemma edit_ok s d m :
  0 <= s < 256 → draft_ok d m →
  let '(p, d') := edit s d in
  draft_ok d' m ∧ dirty_ d' !! s = Some p ∧ merged d' !! s = Some p ∧
  rows p = match merged d !! s with Some p => rows p | None => ∅ end.
Proof.
  intros Hs Hd. pose proof Hd as [[D1 D1'] D2 D3 [H1 H2 H3] D5 D6 D7]. unfold edit.
  destruct (dirty_ d !! s) as [p|] eqn:Ed.
  { assert (Hm : merged d !! s = Some p) by (by rewrite merged_lookup, Ed). rewrite Hm. done. }
  assert (Hms : merged d !! s = draft_pages d !! s) by (by rewrite merged_lookup, Ed).
  set (p := match draft_pages d !! s with Some _ => _ | None => _ end).
  assert (Hrows : rows p = match merged d !! s with Some p => rows p | None => ∅ end)
    by (rewrite Hms; unfold p; by destruct (draft_pages d !! s)).
  destruct (changed_ d !! Z.to_nat (s / 64)) as [w|] eqn:Ew.
  2: { exfalso. apply lookup_ge_None in Ew. rewrite D1 in Ew.
       assert (s / 64 < 4) by (apply Z.div_lt_upper_bound; lia). lia. }
  cbn [default]. set (d' := {| draft_pages := _ |}).
  assert (Hm : merged d' = <[s := p]> (merged d)).
  { apply map_eq. intros t. rewrite merged_lookup. simpl. destruct (decide (t = s)) as [->|Hne].
    - by rewrite !lookup_insert_eq.
    - rewrite !lookup_insert_ne by done. by rewrite merged_lookup. }
  split_and!; [|simpl; apply lookup_insert_eq|by rewrite Hm, lookup_insert_eq|done].
  split; [split|..]; try done.
  - simpl. by rewrite length_insert.
  - apply (mark_bits (changed_ d) s w s); done.
  - intros t. cbn [dirty_ changed_ d']. destruct (mark_bits (changed_ d) s w t D1 D1' Hs Ew) as [_ Hmark].
    unfold id. rewrite Hmark, <- D2. destruct (decide (t = s)) as [->|Hne].
    + rewrite lookup_insert_eq. split; [by left|by eexists].
    + rewrite lookup_insert_ne by done. naive_solver.
  - rewrite Hm. split.
    + intros t q. destruct (decide (t = s)) as [->|Hne]; [done|]. rewrite lookup_insert_ne by done. apply H1.
    + intros t q k r. destruct (decide (t = s)) as [->|Hne]; [|rewrite lookup_insert_ne by done; apply H2].
      rewrite lookup_insert_eq. intros [= <-]. rewrite Hrows. destruct (merged d !! s) as [q|] eqn:Eq; [by eapply H2|].
      by rewrite lookup_empty.
    + intros k. rewrite <- H3. destruct (decide (slot_of k = s)) as [Heq|Hne]; [|by rewrite lookup_insert_ne].
      rewrite Heq, lookup_insert_eq. simpl. rewrite Hrows. by destruct (merged d !! s).
  - rewrite Hm. simpl. rewrite D7, wrap64_sub, wrap64_add. f_equal.
    destruct (draft_pages d !! s) as [old|] eqn:Eo.
    + rewrite (map_sum_insert weigh _ s old) by (by rewrite Hms). done.
    + rewrite map_sum_insert_new by (by rewrite Hms). unfold weigh at 2. lia.
Qed.

(** Replacing a private page. *)
Lemma put_page_ok s p q n b o d m m' :
  draft_ok d m → dirty_ d !! s = Some p →
  (∀ k, slot_of k ≠ s → m' !! k = m !! k) → (∀ k, slot_of k = s → rows q !! k = m' !! k) →
  (∀ k r, rows q !! k = Some r → slot_of k = s) →
  n = wrap64 (Z.of_nat (size m')) → b = weight m' ∧ weight m' <= u64_max →
  o = wrap64 (draft_overhead d - measure p + measure q) →
  draft_ok (put_page s q n b o d) m'.
Proof.
  intros [D1 D2 D3 [H1 H2 H3] D5 D6 D7] Hp Hother Hhere Hplace Hn Hb Ho.
  assert (Hmp : merged d !! s = Some p) by (by rewrite merged_lookup, Hp).
  assert (Hm : merged (put_page s q n b o d) = <[s := q]> (merged d)).
  { apply map_eq. intros t. rewrite merged_lookup. simpl. destruct (decide (t = s)) as [->|Hne].
    - by rewrite !lookup_insert_eq.
    - rewrite !lookup_insert_ne by done. by rewrite merged_lookup. }
  split; try done.
  - intros t. cbn [put_page dirty_ changed_]. rewrite <- D2. destruct (decide (t = s)) as [->|Hne].
    + rewrite lookup_insert_eq, Hp. split; intros _; by eexists.
    + by rewrite lookup_insert_ne.
  - rewrite Hm. split.
    + intros t x. destruct (decide (t = s)) as [->|Hne]; [intros _; by eapply H1|].
      rewrite lookup_insert_ne by done. apply H1.
    + intros t x k r. destruct (decide (t = s)) as [->|Hne]; [|rewrite lookup_insert_ne by done; apply H2].
      rewrite lookup_insert_eq. intros [= <-]. apply Hplace.
    + intros k. destruct (decide (slot_of k = s)) as [Heq|Hne].
      * rewrite Heq, lookup_insert_eq. simpl. by apply Hhere.
      * rewrite lookup_insert_ne by done. rewrite H3. symmetry. by apply Hother.
  - rewrite Hm, (map_sum_insert weigh _ s p) by done. cbn [put_page draft_overhead]. rewrite Ho, D7.
    unfold weigh at 2 3. unfold wrap64. rewrite <- (Zplus_mod_idemp_l (_ - _)), Zminus_mod_idemp_l, Zplus_mod_idemp_l. done.
Qed.

Lemma table_weight_nonneg m : 0 <= weight m.
Proof. apply map_sum_nonneg. intros. apply table_cost_nonneg. Qed.

Lemma table_weight_insert k r m : weight (<[k := r]> m) = cost k r + weight (delete k m).
Proof. unfold weight. rewrite <- insert_delete_eq, map_sum_insert_new; [done|apply lookup_delete_eq]. Qed.

Lemma table_weight_delete k m :
  weight (delete k m) = weight m - match m !! k with Some r => cost k r | None => 0 end.
Proof.
  unfold weight. destruct (m !! k) as [r|] eqn:E.
  - rewrite (map_sum_delete cost m k r E). lia.
  - rewrite delete_id by done. lia.
Qed.

Lemma weight_share k m : 0 <= match m !! k with Some r => cost k r | None => 0 end <= weight m.
Proof.
  destruct (m !! k) as [r|] eqn:E.
  - apply (map_sum_member cost); [intros; apply table_cost_nonneg|done].
  - pose proof (table_weight_nonneg m). lia.
Qed.

Lemma size_wraps k (r : R) (m : gmap string R) :
  wrap64 (Z.of_nat (size (<[k := r]> m))) =
  match m !! k with Some _ => wrap64 (Z.of_nat (size m)) | None => wrap64 (wrap64 (Z.of_nat (size m)) + 1) end.
Proof.
  rewrite map_size_insert. destruct (m !! k); simpl; [done|]. rewrite wrap64_add. f_equal. lia.
Qed.

(** The page [edit] hands out shows the dictionary's entries of its slot. *)
Lemma edit_view k d m :
  draft_ok d m →
  let '(p, d') := edit (slot_of k) d in
  draft_ok d' m ∧ dirty_ d' !! slot_of k = Some p ∧
  (∀ j, slot_of j = slot_of k → rows p !! j = m !! j) ∧
  (∀ j r, rows p !! j = Some r → slot_of j = slot_of k).
Proof.
  intros Hd. pose proof (edit_ok (slot_of k) d m (slot_range k) Hd) as He. destruct (edit (slot_of k) d) as [p d'].
  destruct He as (Hd' & Hp & Hm & _). pose proof (dr_holds _ _ Hd') as [H1 H2 H3]. split_and!; try done.
  - intros j Hj. rewrite <- H3, Hj, Hm. done.
  - intros j r. by apply H2.
Qed.

(** [set] throws exactly when the dictionary would outgrow [size_t]. *)
Lemma set_ok k r d m :
  draft_ok d m →
  match set k r d with
  | Done d' => draft_ok d' (<[k := r]> m)
  | Thrown e => e = length_error ∧ u64_max < weight (<[k := r]> m)
  end.
Proof.
  intros Hd. pose proof (table_weight_nonneg (delete k m)) as Hrest. pose proof (table_cost_nonneg k r) as Hcost.
  pose proof (weight_share k m) as Hshare. unfold set, cost in *. rewrite table_weight_insert, table_weight_delete in *. unfold cost in *.
  destruct (Z.ltb_spec (u64_max - length_of k) (bytes r)) as [Hbig|Hsmall]; [split; [done|lia]|].
  pose proof (edit_view k d m Hd) as He. destruct (edit (slot_of k) d) as [p d'].
  destruct He as (Hd' & Hp & Hview & Hplace). rewrite (Hview k eq_refl).
  pose proof (dr_bytes _ _ Hd') as [Hb Hw].
  rewrite (wrap64_small (length_of k + bytes r)) by (unfold is_u64; lia).
  set (prev := match m !! k with Some r => wrap64 _ | None => 0 end).
  assert (prev = match m !! k with Some r => length_of k + bytes r | None => 0 end) as Hprev.
  { unfold prev. destruct (m !! k); [|done]. apply wrap64_small. unfold is_u64. lia. }
  rewrite Hb, (wrap64_small (weight m - prev)) by (unfold is_u64; lia).
  destruct (Z.ltb_spec (u64_max - (weight m - prev)) (length_of k + bytes r)) as [Hover|Hfit]; [split; [done|lia]|].
  rewrite (wrap64_small (weight m - prev + _)) by (unfold is_u64; lia).
  assert (Hput : ∀ bc n o,
    n = wrap64 (Z.of_nat (size (<[k := r]> m))) →
    o = wrap64 (draft_overhead d' - measure p + measure {| rows := <[k := r]> (rows p); bucket_count := bc |}) →
    draft_ok (put_page (slot_of k) {| rows := <[k := r]> (rows p); bucket_count := bc |} n
      (weight m - prev + (length_of k + bytes r)) o d') (<[k := r]> m)).
  { intros bc n o Hn Ho. eapply put_page_ok; try done; simpl.
    - intros j Hj. rewrite lookup_insert_ne; congruence.
    - intros j Hj. destruct (decide (k = j)) as [->|Hne]; [by rewrite !lookup_insert_eq|].
      rewrite !lookup_insert_ne by done. by apply Hview.
    - intros j x. destruct (decide (k = j)) as [->|Hne]; [done|]. rewrite lookup_insert_ne by done. apply Hplace.
    - rewrite table_weight_insert, table_weight_delete. unfold cost. lia. }
  rewrite size_wraps in Hput. pose proof (dr_size _ _ Hd') as Hs.
  destruct (m !! k) as [old|] eqn:E; apply Hput; try (by rewrite Hs).
  - rewrite (dr_overhead _ _ Hd'). unfold measure. simpl. rewrite Z.sub_add. by rewrite wrap64_idemp.
  - by rewrite wrap64_add.
Qed.

Lemma table_erase_ok k d m : draft_ok d m → draft_ok (erase k d) (delete k m).
Proof.
  intros Hd. unfold erase. pose proof (dr_holds _ _ Hd) as [_ _ H3]. specialize (H3 k).
  destruct (bool_decide _ && _) eqn:Eg.
  { apply andb_true_iff in Eg as [Eg%bool_decide_eq_true Ep]. rewrite delete_id; [done|].
    rewrite <- H3, merged_lookup, Eg. destruct (draft_pages d !! slot_of k); [|done].
    by apply bool_decide_eq_true in Ep. }
  clear Eg H3. pose proof (edit_view k d m Hd) as He. destruct (edit (slot_of k) d) as [p d'].
  destruct He as (Hd' & Hp & Hview & Hplace). rewrite (Hview k eq_refl).
  destruct (m !! k) as [r|] eqn:E; [|by rewrite delete_id].
  pose proof (dr_bytes _ _ Hd') as [Hb Hw]. pose proof (weight_share k m) as Hs. rewrite E in Hs.
  pose proof (table_weight_delete k m) as Hdel. rewrite E in Hdel. unfold cost in *.
  eapply put_page_ok; try done; simpl.
  - intros j Hj. rewrite lookup_delete_ne; congruence.
  - intros j Hj. destruct (decide (k = j)) as [->|Hne]; [by rewrite !lookup_delete_eq|].
    rewrite !lookup_delete_ne by done. by apply Hview.
  - intros j x [_ Hx]%lookup_delete_Some. by eapply Hplace.
  - rewrite (dr_size _ _ Hd'), wrap64_sub. f_equal. rewrite map_size_delete, E. simpl.
    assert (size m ≠ 0%nat); [|lia]. intros ->%map_size_empty_iff. by rewrite lookup_empty in E.
  - rewrite Hb, (wrap64_small (length_of k + bytes r)), wrap64_small by (unfold is_u64; lia). lia.
  - rewrite (dr_overhead _ _ Hd'). unfold measure. simpl. rewrite Z.sub_add. by rewrite wrap64_idemp.
Qed.

Lemma table_finish_ok d m : draft_ok d m → table_ok (finish d) m.
Proof.
  intros [[D1 D1'] D2 D3 [H1 H2 H3] D5 D6 D7]. unfold finish.
  rewrite finish_words_spec by done.
  destruct (publish_fold d (slots 0 (changed_ d)) (draft_pages d, draft_overhead d)) as [Ho Hp].
  { apply slots_nodup. }
  { intros s Hs. by apply D2. }
  { simpl. rewrite D7. do 2 f_equal. apply map_eq. intros s. rewrite over_lookup, merged_lookup.
    case_bool_decide as Hs; [done|]. rewrite <- D2 in Hs. by apply eq_None_not_Some in Hs as ->. }
  destruct (foldl _ _ _) as [pages o]. cbn [fst snd] in *.
  assert (Hpage : ∀ s, pages !! s = merged d !! s ≫= λ p, if bool_decide (rows p = ∅) then None else Some p).
  { intros s. rewrite Hp, merged_lookup. case_bool_decide as Hs.
    - apply D2 in Hs as [p ->]. done.
    - rewrite <- D2 in Hs. apply eq_None_not_Some in Hs as ->. destruct (draft_pages d !! s) as [p|] eqn:E; [|done].
      simpl. by rewrite bool_decide_eq_false_2 by (by eapply D3). }
  assert (Hsome : ∀ s p, pages !! s = Some p → merged d !! s = Some p ∧ rows p ≠ ∅).
  { intros s p. rewrite Hpage. destruct (merged d !! s); [|done]. simpl. by case_bool_decide; intros [= <-]. }
  split; try done; cbn [pages_].
  - split.
    + intros s p [Hs _]%Hsome. by eapply H1.
    + intros s p k r [Hs _]%Hsome. by apply H2.
    + intros k. rewrite <- H3, Hpage. destruct (merged d !! slot_of k) as [p|]; [|done]. simpl.
      case_bool_decide as Hr; simpl; [|done]. by rewrite Hr, lookup_empty.
  - intros s p [_ Hs]%Hsome. done.
Qed.

Lemma empty_ok : table_ok empty ∅.
Proof. by repeat split. Qed.

Lemma each_ok t m : table_ok t m → each t ≡ₚ map_to_list m.
Proof.
  intros [[H1 H2 H3] _ _ _ _]. apply NoDup_Permutation; [|apply NoDup_map_to_list|].
  - apply NoDup_bind; [|intros s _|apply NoDup_seqZ].
    + intros s s' [k r] _ _ Hs Hs'.
      destruct (pages_ t !! s) as [p|] eqn:E; [|by apply elem_of_nil in Hs].
      destruct (pages_ t !! s') as [p'|] eqn:E'; [|by apply elem_of_nil in Hs'].
      apply elem_of_map_to_list in Hs, Hs'. rewrite <- (H2 _ _ _ _ E Hs). by eapply H2.
    + destruct (pages_ t !! s); [apply NoDup_map_to_list|constructor].
  - intros [k r]. unfold each. rewrite list_elem_of_bind, elem_of_map_to_list, <- H3. split.
    + intros (s & Hin & _). destruct (pages_ t !! s) as [p|] eqn:E; [|by apply elem_of_nil in Hin].
      apply elem_of_map_to_list in Hin. rewrite (H2 _ _ _ _ E Hin), E. done.
    + intros (p & Hp & Hr)%bind_Some. exists (slot_of k). rewrite Hp. split; [by apply elem_of_map_to_list|].
      apply elem_of_seqZ. pose proof (slot_range k). lia.
Qed.

(** ** Batches
    A caller prepares the changes of one batch on a fresh draft and publishes it;
    when a change throws it drops the draft and keeps the table it has. *)
Inductive change := Put (k : string) (r : R) | Remove (k : string).

Fixpoint prepare (cs : list change) (d : Draft) : outcome Draft :=
  match cs with
  | [] => Done d
  | Put k r :: cs => match set k r d with Done d => prepare cs d | Thrown e => Thrown e end
  | Remove k :: cs => prepare cs (erase k d)
  end.

Definition publish (cs : list change) (t : Table) : Table :=
  match prepare cs (draft t) with Done d => finish d | Thrown _ => t end.

Definition publications (bs : list (list change)) : Table := foldl (λ t cs, publish cs t) empty bs.

(** The reference: a finite map, and a batch that leaves it alone when some
    prefix of the batch weighs more than [SIZE_MAX]. *)
Fixpoint amend (cs : list change) (m : gmap string R) : option (gmap string R) :=
  match cs with
  | [] => Some m
  | Put k r :: cs => let m := <[k := r]> m in if weight m <=? u64_max then amend cs m else None
  | Remove k :: cs => amend cs (delete k m)
  end.

Definition dictionary (bs : list (list change)) : gmap string R :=
  foldl (λ m cs, default m (amend cs m)) ∅ bs.

Lemma prepare_ok cs d m :
  draft_ok d m →
  match prepare cs d with
  | Done d' => ∃ m', amend cs m = Some m' ∧ draft_ok d' m'
  | Thrown _ => amend cs m = None
  end.
Proof.
  revert d m. induction cs as [|[k r|k] cs IH]; intros d m Hd; cbn [prepare amend].
  - by exists m.
  - pose proof (set_ok k r d m Hd) as Hs. destruct (set k r d) as [d'|e]; [|destruct Hs as [_ Hs]].
    + rewrite (proj2 (Z.leb_le _ _)) by apply (dr_bytes _ _ Hs). by apply IH.
    + by rewrite (proj2 (Z.leb_gt _ _)).
  - apply IH. by apply table_erase_ok.
Qed.

Lemma table_publish_ok cs t m : table_ok t m → table_ok (publish cs t) (default m (amend cs m)).
Proof.
  intros Ht. unfold publish. pose proof (prepare_ok cs (draft t) m (draft_fresh_ok t m Ht)) as Hp.
  destruct (prepare cs (draft t)) as [d|e]; [|by rewrite Hp]. destruct Hp as (m' & -> & Hd). by apply table_finish_ok.
Qed.

Lemma publications_ok bs : table_ok (publications bs) (dictionary bs).
Proof.
  unfold publications, dictionary. assert (H : table_ok empty ∅) by apply empty_ok. revert H.
  generalize empty as t, (∅ : gmap string R) as m. induction bs as [|cs bs IH]; intros t m Ht; [done|].
  apply IH. by apply table_publish_ok.
Qed.

(** C33. After any sequence of batches on an empty table, for any hash function
    and any bucket policy, the published table is the dictionary the batches
    describe, batches that would outgrow [SIZE_MAX] having had no effect: [find]
    looks up that dictionary, [each] visits exactly its entries once each, the
    record count and byte total are the dictionary's, and the overhead is the sum
    over the live pages, none of which is empty. *)
Theorem table_refines (bs : list (list change)) :
  let t := publications bs in
  let m := dictionary bs in
  (∀ k, find k t = m !! k) ∧ each t ≡ₚ map_to_list m ∧
  size_ t = wrap64 (Z.of_nat (size m)) ∧ bytes_ t = weight m ∧
  overhead_ t = wrap64 (map_sum weigh (pages_ t)) ∧
  ∀ s p, pages_ t !! s = Some p → rows p ≠ ∅.
Proof.
  pose proof (publications_ok bs) as Ht. cbv zeta. rewrite each_ok by done.
  destruct Ht as [Hh Hf Hs [Hb _] Ho]. split_and!; try done. apply Hh.
Qed.
End table.

Module Sample.

#[local] Instance number_record : TableRecord Z :=
  {| bytes := Z.abs; record_overhead := 56; bytes_nonneg := Z.abs_nonneg |}.

#[local] Instance platform : Platform Z :=
  {| hash := length_of; sizeof_page := 56; sizeof_table := 2072; sizeof_draft := 4152; sizeof_entry := 40;
     fresh_buckets := 1; copied_buckets := λ _ b, b;
     grown_buckets := λ rows b, Z.max b (Z.of_nat (size rows) + 1) |}.

Definition batches : list (list (@change Z)) :=
  [[Put "a" 5; Put "bb" 7; Put "b" 9]; [Remove "a"; Remove "b"; Put "bb" 8]; [Put "big" u64_max]]%string.

(** The page of one-letter names is gone, the oversized batch left no trace. *)
Example final_is :
  let final := publications batches in
  find "bb" final = Some 8 ∧ size_ final = 1 ∧ bytes_ final = 10 ∧ overhead_ final = 96.
Proof. by vm_compute. Qed.

Lemma table_refines_witness : find "bb" (publications batches) = dictionary batches !! "bb"%string.
Proof. exact (proj1 (table_refines batches) "bb"%string). Defined.

End Sample.
