(* ===== verification/Stream.v ===== *)
(** What the three client projections share: [astra/comet/cpp/src/projection.cpp],
    [subscription.cpp] and [selection.cpp].

    A stream delivers batches of pages.  [accept] validates a page, applies its
    changes to a private draft of the paged dictionary (see [Table]) and, at the
    last page of a batch, publishes the draft as the new contents.  Every
    allocation may fail; [consume] is the caller's handling of one page
    ([watching.hpp]): an exception discards the candidate.  The byte size of a
    message, the answers of the budget callback and the bucket count of the
    de-duplication set come from outside and are inputs.

    The three classes are copies of one another up to the record, the key test,
    the [switch] on the action and the scope of a version.  The class [Domain]
    holds these differences, with what the dictionary relies on; the files
    [Projection], [Subscription] and [Selection] are its instances. *)
From stdpp Require Import base numbers strings gmap list.
From S2P Require Import Prelude.
From S2P Require Import Scope.
From S2P Require Import Table.

(** [Error::Code]. *)
Inductive Code :=
| input | session | closed | version_behind | conflict | ended | obsolete | history
| limit | busy | instance_mismatch | clock | timeout | transport | protocol | internal_error.

Inductive Mode := MODE_UNSPECIFIED | MODE_RESET | MODE_APPLY | MODE_OTHER (n : Z).
#[export] Instance mode_eq_dec : EqDecision Mode.
Proof. solve_decision. Defined.

(** One domain of the client.  [act] is the [switch] on the action of a change, given
    the mode of the batch and the published record of its key: a record to set, an
    erasure, or a refusal.  [by_star] says that versions count per Star.  [repairs]
    says that the class restarts once from a full reset when history is missing. *)
Class Domain := {
  Row : Type;
  row_record :: TableRecord Row;
  Action : Type;
  key_ok : string → bool;
  by_star : bool;
  repairs : bool;
  act : Mode → option Row → Action → expected (option Row) Code;
  row_ok : Row → Prop;
  key_bound : ∀ k, key_ok k = true → length_of k <= 1024;
  row_bound : ∀ r, row_ok r → bytes r <= 2 * 1024 * 1024;
  act_ok : ∀ m old a r, (∀ was, old = Some was → row_ok was) → act m old a = Expected (Some r) → row_ok r
}.

Section stream.
(** [sizeof(std::string)] and the bucket count of the de-duplication set after the
    given insertions, latest first. *)
Context {domain : Domain} {platform : Platform Row} (sizeof_string : Z) (seen_buckets : list string → Z).

(** ** Messages *)
Record Change := { key : string; action : Action }.

(** A watch reply; [byte_size] is [ByteSizeLong()]. *)
Record Reply := {
  mode : Mode;
  complete : bool;
  reply_version : option Z;
  reply_instance : string;
  changes : list Change;
  byte_size : Z
}.

(** [version()] of a message without the field reads zero. *)
Definition version_of (page : Reply) : Z := default 0 (reply_version page).

(** ** State *)
Record Contents := { data : Table (R := Row); instance : string; version : Z }.

Inductive State := waiting | ready | stale | failed | shut.

(** The view handed to the application. *)
Record View := { view_contents : option Contents; view_state : State; view_scope : Scope; view_target : string;
                 view_error : option Code }.

(** The accessors of a view; one without contents reads as empty. *)
Definition view_instance (v : View) : string := match view_contents v with Some c => instance c | None => ""%string end.
Definition view_version (v : View) : option Z := version <$> view_contents v.
Definition view_size (v : View) : Z := match view_contents v with Some c => size_ (data c) | None => 0 end.
Definition view_find (k : string) (v : View) : option Row := c ← view_contents v; find k (data c).
Definition view_visit (v : View) : list (string * Row) :=
  match view_contents v with Some c => each (data c) | None => [] end.

(** The constant members; [metered] tells whether [reserve_] is set. *)
Record Options := { scope_ : Scope; target_ : string; limit_bytes : Z; limit_records : Z; metered : bool }.

(** [held_] is the amount last passed to [reserve_].  A class that does not repair
    never sets [repaired_] and [fresh_]. *)
Record Projection := {
  current_ : option Contents;
  draft_ : option (Draft (R := Row));
  seen_ : list string;
  seen_bytes_ : Z;
  expected_ : string;
  mode_ : Mode;
  first_ : bool;
  valid_ : bool;
  held_ : Z;
  repaired_ : bool;
  fresh_ : bool
}.

Context (o : Options).

(** [Projection::Projection]. *)
Definition make : outcome Projection :=
  if (limit_bytes o =? 0) || (1024 * 1024 * 1024 <? limit_bytes o) || (limit_records o =? 0) || (65536 <? limit_records o)
  then Thrown invalid_argument
  else Done {| current_ := None; draft_ := None; seen_ := []; seen_bytes_ := 0; expected_ := "";
               mode_ := MODE_UNSPECIFIED; first_ := true; valid_ := false; held_ := 0; repaired_ := false; fresh_ := false |}.

Definition footprint_of (c : option Contents) : Z :=
  match c with Some c => footprint (data c) | None => 0 end.

(** A call of [reserve_]. *)
Definition reserve (n : Z) (p : Projection) : Projection :=
  {| current_ := current_ p; draft_ := draft_ p; seen_ := seen_ p; seen_bytes_ := seen_bytes_ p;
     expected_ := expected_ p; mode_ := mode_ p; first_ := first_ p; valid_ := valid_ p;
     held_ := if metered o then n else held_ p; repaired_ := repaired_ p; fresh_ := fresh_ p |}.

(** [Projection::discard]. *)
Definition discard (p : Projection) : Projection :=
  reserve (footprint_of (current_ p))
    {| current_ := current_ p; draft_ := None; seen_ := []; seen_bytes_ := 0; expected_ := expected_ p;
       mode_ := MODE_UNSPECIFIED; first_ := first_ p; valid_ := valid_ p; held_ := held_ p;
     repaired_ := repaired_ p; fresh_ := fresh_ p |}.

(** [Projection::begin]. *)
Definition begin (expected : string) (p : Projection) : Projection :=
  let p := discard p in
  {| current_ := current_ p; draft_ := draft_ p; seen_ := seen_ p; seen_bytes_ := seen_bytes_ p;
     expected_ := expected; mode_ := mode_ p; first_ := true; valid_ := true; held_ := held_ p;
     repaired_ := repaired_ p; fresh_ := fresh_ p |}.

Definition invalidate (p : Projection) : Projection :=
  {| current_ := current_ p; draft_ := draft_ p; seen_ := seen_ p; seen_bytes_ := seen_bytes_ p;
     expected_ := expected_ p; mode_ := mode_ p; first_ := first_ p; valid_ := false; held_ := held_ p;
     repaired_ := repaired_ p; fresh_ := fresh_ p |}.

Abbreviation answer := (expected (option View) Code).

(** [Projection::fail]. *)
Definition fail (code : Code) : eff Projection answer :=
  modify (λ p, invalidate (discard p)) ;;; ret (Unexpected code).

(** [Projection::view]. *)
Definition view (state : State) (error : option Code) (p : Projection) : View :=
  {| view_contents := current_ p; view_state := state; view_scope := scope_ o; view_target := target_ o;
     view_error := error |}.

Definition with_draft (d : Draft (R := Row)) (p : Projection) : Projection :=
  {| current_ := current_ p; draft_ := Some d; seen_ := seen_ p; seen_bytes_ := seen_bytes_ p;
     expected_ := expected_ p; mode_ := mode_ p; first_ := first_ p; valid_ := valid_ p; held_ := held_ p;
     repaired_ := repaired_ p; fresh_ := fresh_ p |}.

Definition open_batch (m : Mode) (base : Table (R := Row)) (p : Projection) : Projection :=
  with_draft (draft base)
    {| current_ := current_ p; draft_ := draft_ p; seen_ := seen_ p; seen_bytes_ := seen_bytes_ p;
       expected_ := expected_ p; mode_ := m; first_ := first_ p; valid_ := valid_ p; held_ := held_ p;
     repaired_ := repaired_ p; fresh_ := fresh_ p |}.

Definition remember (k : string) (p : Projection) : Projection :=
  {| current_ := current_ p; draft_ := draft_ p; seen_ := k :: seen_ p;
     seen_bytes_ := wrap64 (seen_bytes_ p + length_of k); expected_ := expected_ p; mode_ := mode_ p;
     first_ := first_ p; valid_ := valid_ p; held_ := held_ p;
     repaired_ := repaired_ p; fresh_ := fresh_ p |}.

(** Reading an empty [std::optional] or a null [std::shared_ptr] is undefined
    behaviour, shown as [logic_error]. *)
Definition the_draft : eff Projection (Draft (R := Row)) :=
  p <- read ;; match draft_ p with Some d => ret d | None => throw logic_error end.
Definition the_current : eff Projection Contents :=
  p <- read ;; match current_ p with Some c => ret c | None => throw logic_error end.

(** [draft_->set]: the payload, the copy of the page and the new entry allocate. *)
Definition draft_set (k : string) (r : Row) : eff Projection unit :=
  alloc ;;;
  d <- the_draft ;;
  alloc ;;;
  modify (with_draft (edit (slot_of k) d).2) ;;;
  alloc ;;;
  d <- lift (set k r d) ;;
  modify (with_draft d).

(** [draft_->erase]: the copy of the page allocates. *)
Definition draft_erase (k : string) : eff Projection unit :=
  d <- the_draft ;; alloc ;;; modify (with_draft (erase k d)).

(** The tracking of one change in [seen_]: [Some] is the refusal. *)
Definition track_change (track : bool) (k : string) : eff Projection (option Code) :=
  if track then
    p <- read ;;
    if Z.of_nat (length (seen_ p)) =? wrap64 (limit_records o * 2)
    then ret (Some (if bool_decide (k ∈ seen_ p) then protocol else limit))
    else
      alloc ;;;
      if bool_decide (k ∈ seen_ p) then ret (Some protocol)
      else modify (remember k) ;;; ret None
  else ret None.

(** The published record of a key, read by the [switch] on the action. *)
Definition published (k : string) (p : Projection) : option Row := c ← current_ p; find k (data c).

Definition act_on (c : Change) : eff Projection (option Code) :=
  p <- read ;;
  match act (mode_ p) (published (key c) p) (action c) with
  | Unexpected code => ret (Some code)
  | Expected (Some r) => draft_set (key c) r ;;; ret None
  | Expected None => draft_erase (key c) ;;; ret None
  end.

(** One turn of the loop over the changes. *)
Definition change_step (track : bool) (c : Change) : eff Projection (option Code) :=
  if negb (key_ok (key c)) || (negb (String.eqb (target_ o) "") && negb (String.eqb (target_ o) (key c)))
  then ret (Some protocol)
  else
    t <- track_change track (key c) ;;
    match t with
    | Some code => ret (Some code)
    | None =>
        a <- act_on c ;;
        match a with
        | Some code => ret (Some code)
        | None =>
            d <- the_draft ;;
            if (wrap64 (limit_records o * 2) <? draft_size d) || (wrap64 (limit_bytes o * 2) <? draft_bytes d)
            then ret (Some limit) else ret None
        end
    end.

Fixpoint change_loop (track : bool) (cs : list Change) : eff Projection (option Code) :=
  match cs with
  | [] => ret None
  | c :: cs =>
      r <- change_step track c ;;
      match r with Some code => ret (Some code) | None => change_loop track cs end
  end.

(** The guards of [accept] on one page, in order. *)
Definition malformed (page : Reply) (p : Projection) : bool :=
  negb (valid_ p)
  || (negb (bool_decide (mode page = MODE_RESET)) && negb (bool_decide (mode page = MODE_APPLY)))
  || negb (Bool.eqb (complete page) (bool_decide (is_Some (reply_version page))))
  || negb (Bool.eqb (complete page) (negb (String.eqb (reply_instance page) "")))
  || (negb (complete page) && bool_decide (changes page = []))
  || (8 * 1024 * 1024 <? byte_size page).

Definition misplaced (page : Reply) (p : Projection) : bool :=
  complete page
  && (negb (text (reply_instance page) 128)
      || (negb (String.eqb (expected_ p) "") && negb (String.eqb (expected_ p) (reply_instance page)))
      || match current_ p with
         | Some c => (negb by_star || String.eqb (instance c) (reply_instance page)) && (version_of page <? version c)
         | None => false
         end).

(** The candidate of this page's batch: [Some] is the refusal. *)
Definition open_draft (page : Reply) : eff Projection (option Code) :=
  p <- read ;;
  match draft_ p with
  | None =>
      if (bool_decide (mode page = MODE_RESET) && negb (first_ p))
         || (bool_decide (mode page = MODE_APPLY) && (negb (bool_decide (is_Some (current_ p))) || fresh_ p))
      then ret (Some protocol)
      else if bool_decide (mode page = MODE_RESET)
      then modify (open_batch (mode page) empty) ;;; ret None
      else c <- the_current ;; modify (open_batch (mode page) (data c)) ;;; ret None
  | Some _ => if bool_decide (mode_ p = mode page) then ret None else ret (Some protocol)
  end.

(** The position of a completed apply. *)
Definition misapplied (page : Reply) : eff Projection bool :=
  p <- read ;;
  if complete page && bool_decide (mode_ p = MODE_APPLY) then
    c <- the_current ;;
    ret (negb (String.eqb (instance c) (reply_instance page))
         || ((version_of page =? version c)
             && (negb (first_ p) || negb (bool_decide (seen_ p = [])) || negb (bool_decide (changes page = [])))))
  else ret false.

Definition tracked (page : Reply) (p : Projection) : bool :=
  negb (complete page) || negb (Z.of_nat (length (changes page)) =? 1) || negb (bool_decide (seen_ p = [])).

(** What the candidate and its metadata are billed as. *)
Definition prepared (d : Draft (R := Row)) (p : Projection) : Z :=
  wrap64 (draft_footprint d
    + (seen_bytes_ p + Z.of_nat (length (seen_ p)) * (sizeof_string + 32) + seen_buckets (seen_ p) * 8)).

Definition commit (next : Contents) (p : Projection) : Projection :=
  discard
    {| current_ := Some next; draft_ := draft_ p; seen_ := seen_ p; seen_bytes_ := seen_bytes_ p;
       expected_ := instance next; mode_ := mode_ p; first_ := false; valid_ := valid_ p; held_ := held_ p;
       repaired_ := repaired_ p; fresh_ := false |}.

(** The end of [accept] on the last page of a batch. *)
Definition complete_batch (page : Reply) : eff Projection answer :=
  d <- the_draft ;;
  if (limit_records o <? draft_size d) || (limit_bytes o <? draft_bytes d) then fail limit
  else if (version_of page =? 0) && negb (draft_size d =? 0) then fail protocol
  else
    alloc ;;;
    v <- gets (view ready None) ;;
    let next := {| data := finish d; instance := reply_instance page; version := version_of page |} in
    if limit_bytes o <? footprint (data next) then fail limit
    else
      modify (commit next) ;;;
      ret (Expected (Some {| view_contents := Some next; view_state := view_state v; view_scope := view_scope v;
                             view_target := view_target v; view_error := view_error v |})).

(** [Projection::accept]; [grant] is what [reserve_] answers. *)
Definition accept (grant : Z → bool) (page : Reply) : eff Projection answer :=
  p <- read ;;
  if malformed page p then fail protocol
  else if misplaced page p then fail protocol
  else
    r <- open_draft page ;;
    match r with
    | Some code => fail code
    | None =>
        m <- misapplied page ;;
        if (m : bool) then fail protocol
        else
          track <- gets (tracked page) ;;
          r <- change_loop track (changes page) ;;
          match r with
          | Some code => fail code
          | None =>
              d <- the_draft ;;
              p <- read ;;
              let need := wrap64 (prepared d p + footprint_of (current_ p)) in
              if wrap64 (limit_bytes o * 2) <? prepared d p then fail limit
              else
                modify (reserve need) ;;;
                if metered o && negb (grant need) then fail limit
                else if negb (complete page) then ret (Expected None)
                else complete_batch page
          end
    end.

(** [repair] and [resume]. *)
Definition repair (code : Code) (p : Projection) : bool * Projection :=
  match code with
  | history =>
      if negb repairs || repaired_ p then (false, p)
      else (true, {| current_ := current_ p; draft_ := draft_ p; seen_ := seen_ p; seen_bytes_ := seen_bytes_ p;
                     expected_ := expected_ p; mode_ := mode_ p; first_ := first_ p; valid_ := valid_ p; held_ := held_ p;
                     repaired_ := true; fresh_ := true |})
  | _ => (false, p)
  end.
Definition resume (p : Projection) : bool := negb (fresh_ p).

(** The caller's treatment of one page ([Watching::poll]): a refusal may ask for a
    repair, an exception discards the candidate. *)
Definition consume (grant : Z → bool) (page : Reply) : eff Projection answer :=
  on_throw
    (a <- accept grant page ;;
     match a with
     | Unexpected code => modify (λ p, (repair code p).2) ;;; ret a
     | Expected _ => ret a
     end)
    (modify discard).

(** ** The dictionary a stream describes *)
Record Published := { at_instance : string; at_version : Z; entries : gmap string Row }.

Definition was (pub : option Published) (k : string) : option Row := b ← pub; entries b !! k.

Definition apply_change (md : Mode) (pub : option Published) (m : gmap string Row) (c : Change) : gmap string Row :=
  match act md (was pub (key c)) (action c) with
  | Expected (Some r) => <[key c := r]> m
  | Expected None => delete (key c) m
  | Unexpected _ => m
  end.

(** A reset starts from nothing, an apply from what is published. *)
Definition base (m : Mode) (pub : option Published) : gmap string Row :=
  match m, pub with MODE_APPLY, Some b => entries b | _, _ => ∅ end.

Definition candidate (m : Mode) (pub : option Published) (pend : list Change) : gmap string Row :=
  foldl (apply_change m pub) (base m pub) pend.

Definition shows (c : option Contents) (pub : option Published) : Prop :=
  match c, pub with
  | None, None => True
  | Some c, Some b =>
      instance c = at_instance b ∧ version c = at_version b ∧ table_ok (data c) (entries b) ∧
      Z.of_nat (size (entries b)) <= limit_records o ∧ weight (entries b) <= limit_bytes o ∧
      footprint (data c) <= limit_bytes o ∧ (at_version b = 0 → entries b = ∅) ∧
      map_Forall (λ _, row_ok) (entries b)
  | _, _ => False
  end.

(** A change the projection may install. *)
Definition admissible (m : Mode) (pub : option Published) (c : Change) : Prop :=
  key_ok (key c) = true ∧ (target_ o = ""%string ∨ target_ o = key c) ∧
  ∃ r, act m (was pub (key c)) (action c) = Expected r.

Record batch_ok (p : Projection) (pub : option Published) (pend : list Change) (track : bool) : Prop := {
  ba_draft : ∃ d, draft_ p = Some d ∧ draft_ok d (candidate (mode_ p) pub pend);
  ba_size : Z.of_nat (size (candidate (mode_ p) pub pend)) <= limit_records o * 2;
  ba_weight : weight (candidate (mode_ p) pub pend) <= limit_bytes o * 2;
  ba_seen : track = true → seen_ p = reverse (key <$> pend);
  ba_keys : NoDup (key <$> pend);
  ba_changes : Forall (admissible (mode_ p) pub) pend;
  ba_rows : map_Forall (λ _, row_ok) (candidate (mode_ p) pub pend)
}.

(** Fields the preparation of a candidate leaves alone. *)
Record stable (p p' : Projection) : Prop := {
  st_current : current_ p' = current_ p;
  st_mode : mode_ p' = mode_ p;
  st_first : first_ p' = first_ p;
  st_expected : expected_ p' = expected_ p;
  st_valid : valid_ p' = valid_ p;
  st_fresh : fresh_ p' = fresh_ p;
  st_repaired : repaired_ p' = repaired_ p
}.

#[local] Instance stable_preorder : PreOrder stable.
Proof. split; [by intros p|]. intros p q r [] []. split; congruence. Qed.

Section bounded.
Context (bounds : 0 < limit_bytes o <= 1024 * 1024 * 1024 ∧ 0 < limit_records o <= 65536).

Lemma twice_bytes : wrap64 (limit_bytes o * 2) = limit_bytes o * 2.
Proof. apply wrap64_small. unfold is_u64, u64_max. lia. Qed.
Lemma twice_records : wrap64 (limit_records o * 2) = limit_records o * 2.
Proof. apply wrap64_small. unfold is_u64, u64_max. lia. Qed.

Lemma size_fits (m : gmap string Row) n : Z.of_nat (size m) <= n → n <= u64_max → wrap64 (Z.of_nat (size m)) = Z.of_nat (size m).
Proof. intros H1 H2. apply wrap64_small. unfold is_u64. lia. Qed.

(** A failed allocation before the last write leaves the published state alone. *)
Definition interrupted (p : Projection) (e : exn) (p' : Projection) : Prop := e = bad_alloc ∧ stable p p'.

Lemma wp_the_draft d (Q : Draft → Projection → Prop) E p :
  draft_ p = Some d → Q d p → wp Faulty the_draft Q E p.
Proof. intros Hd HQ. unfold the_draft. wp_step. wp_step. rewrite Hd. by wp_step. Qed.

Lemma draft_set_wp k r d m p :
  draft_ p = Some d → draft_ok d m → weight (<[k := r]> m) <= u64_max →
  wp Faulty (draft_set k r)
    (λ _ p', ∃ d', p' = with_draft d' p ∧ draft_ok d' (<[k := r]> m)) (interrupted p) p.
Proof.
  intros Hd Hok Hw. unfold draft_set. pose proof (set_ok k r d m Hok) as Hs.
  repeat wp_step; [|by split|by split..]. apply (wp_the_draft d); [done|]. repeat wp_step; try by split.
  destruct (set k r d) as [d'|e]; [|lia]. wp_step. by exists d'.
Qed.

Lemma draft_erase_wp k d m p :
  draft_ p = Some d → draft_ok d m →
  wp Faulty (draft_erase k) (λ _ p', ∃ d', p' = with_draft d' p ∧ draft_ok d' (delete k m)) (interrupted p) p.
Proof.
  intros Hd Hok. unfold draft_erase. wp_step. apply (wp_the_draft d); [done|]. repeat wp_step; [|by split].
  exists (erase k d). split; [done|]. by apply table_erase_ok.
Qed.

Lemma track_change_wp track k p :
  wp Faulty (track_change track k)
    (λ r p', match r with
             | Some _ => stable p p'
             | None => p' = (if track then remember k p else p) ∧ (track = true → k ∉ seen_ p)
             end) (interrupted p) p.
Proof.
  unfold track_change. destruct track; [|by wp_step]. repeat wp_step.
  apply wp_if; intros _; [by wp_step|]. repeat wp_step; [|by split].
  apply wp_if; intros E; [by wp_step|]. repeat wp_step. split; [done|]. intros _.
  by apply bool_decide_eq_false in E.
Qed.

Lemma weight_bound k r (m : gmap string Row) :
  key_ok k = true → row_ok r → weight m <= limit_bytes o * 2 → weight (<[k := r]> m) <= u64_max.
Proof.
  intros Hk%key_bound Hr%row_bound Hm. rewrite table_weight_insert, table_weight_delete. pose proof (weight_share k m).
  unfold cost in *. simpl in *. unfold u64_max. lia.
Qed.

Lemma published_was k p pub : shows (current_ p) pub → published k p = was pub k.
Proof.
  unfold published, was. destruct (current_ p) as [c|], pub as [b|]; try done. intros (_ & _ & Ht & _). simpl. apply Ht.
Qed.

Lemma was_ok c pub k r : shows c pub → was pub k = Some r → row_ok r.
Proof.
  unfold was. destruct c as [c|], pub as [b|]; try done. intros (_ & _ & _ & _ & _ & _ & _ & Hrows) Hk. by apply (Hrows k).
Qed.

Lemma act_on_wp c d m p pub :
  shows (current_ p) pub → draft_ p = Some d → draft_ok d m → key_ok (key c) = true → weight m <= limit_bytes o * 2 →
  wp Faulty (act_on c)
    (λ r p', match r with
             | Some _ => stable p p'
             | None => (∃ d', p' = with_draft d' p ∧ draft_ok d' (apply_change (mode_ p) pub m c)) ∧
                 ∃ x, act (mode_ p) (was pub (key c)) (action c) = Expected x
             end) (interrupted p) p.
Proof.
  intros Hs Hd Hok Hk Hw. unfold act_on, apply_change. wp_step. wp_step. rewrite (published_was _ _ _ Hs).
  destruct (act (mode_ p) (was pub (key c)) (action c)) as [[r|]|code] eqn:Ea; [| |by wp_step].
  - wp_step. eapply wp_mono.
    + apply (draft_set_wp (key c) r d m p Hd Hok). apply weight_bound; [done| |done].
      eapply act_ok; [|exact Ea]. intros x Hx. by eapply was_ok.
    + intros [] p' Hp'. wp_step. split; [done|by eexists].
    + done.
  - wp_step. eapply wp_mono.
    + by apply (draft_erase_wp (key c) d m p).
    + intros [] p' Hp'. wp_step. split; [done|by eexists].
    + done.
Qed.

Lemma rows_step md pub c c0 m :
  shows c0 pub → map_Forall (λ _, row_ok) m → map_Forall (λ _, row_ok) (apply_change md pub m c).
Proof.
  intros Hs Hm. unfold apply_change. destruct (act md (was pub (key c)) (action c)) as [[r|]|code] eqn:Ea; [| |done].
  - apply map_Forall_insert_2; [|done]. eapply act_ok; [|exact Ea]. intros x Hx. by eapply was_ok.
  - by apply map_Forall_delete.
Qed.

Lemma size_step md pub c (m : gmap string Row) : Z.of_nat (size (apply_change md pub m c)) <= Z.of_nat (size m) + 1.
Proof.
  unfold apply_change. destruct (act _ _ _) as [[r|]|]; [rewrite map_size_insert|rewrite map_size_delete|lia].
  all: destruct (m !! key c); simpl; lia.
Qed.

Lemma candidate_snoc m pub pend c : candidate m pub (pend ++ [c]) = apply_change m pub (candidate m pub pend) c.
Proof. unfold candidate. by rewrite foldl_app. Qed.

Lemma change_step_wp track c p pub pend :
  shows (current_ p) pub → batch_ok p pub pend track → (track = false → pend = []) →
  wp Faulty (change_step track c)
    (λ r p', stable p p' ∧ (r = None → batch_ok p' pub (pend ++ [c]) track)) (interrupted p) p.
Proof.
  intros Hs [(d & Hd & Hok) Hsize Hweight Hseen Hkeys Hadm Hrows] Huntracked. unfold change_step.
  apply wp_if; intros Eg; [by wp_step|]. apply orb_false_iff in Eg as [Ek%negb_false_iff Et].
  wp_step. eapply wp_mono; [apply track_change_wp| |done].
  intros [code|] p1; [intros; by wp_step|]. intros [-> Hnew].
  set (p1 := if track then _ else _). assert (Hp1 : draft_ p1 = Some d ∧ stable p p1) by (by destruct track).
  destruct Hp1 as [Hd1 Hs1]. wp_step.
  assert (Hmode1 : mode_ p1 = mode_ p) by apply Hs1.
  eapply wp_mono; [apply (act_on_wp c d (candidate (mode_ p) pub pend) p1 pub); [by rewrite (st_current _ _ Hs1)|done..]| |].
  2: { intros e p' [-> Hst]. split; [done|]. by etrans. }
  intros [code|] p2; [intros Hst; wp_step; split; [by etrans|done]|].
  intros [(d' & -> & Hok') Hact]. wp_step. apply (wp_the_draft d'); [done|].
  assert (Hst : stable p (with_draft d' p1)) by (by etrans).
  apply wp_if; intros El; wp_step; (split; [done|]); [done|]. intros _.
  apply orb_false_iff in El as [El1%Z.ltb_ge El2%Z.ltb_ge]. rewrite twice_records in El1. rewrite twice_bytes in El2.
  assert (Hmode : mode_ (with_draft d' p1) = mode_ p) by apply Hst. rewrite Hmode1 in Hok', Hact.
  rewrite (dr_size _ _ Hok') in El1. destruct (dr_bytes _ _ Hok') as [Eb _]. rewrite Eb in El2. pose proof (size_step (mode_ p) pub c (candidate (mode_ p) pub pend)) as Hstep.
  rewrite (size_fits _ (limit_records o * 2 + 1)) in El1 by (unfold u64_max; lia).
  split; rewrite ?Hmode, ?candidate_snoc; try done.
  - by exists d'.
  - intros ->. rewrite fmap_app, reverse_app. simpl. by rewrite Hseen.
  - rewrite fmap_app. apply NoDup_app. split_and!; [done| |apply NoDup_singleton].
    intros x Hx ->%list_elem_of_singleton. destruct track; [|rewrite (Huntracked eq_refl) in Hx; by apply elem_of_nil in Hx].
    apply (Hnew eq_refl). rewrite Hseen by done. by apply elem_of_reverse.
  - apply Forall_app_2; [done|]. apply Forall_singleton. split_and!; [done| |done].
    destruct (String.eqb_spec (target_ o) ""); [by left|]. destruct (String.eqb_spec (target_ o) (key c)); [by right|done].
  - by eapply rows_step.
Qed.

Lemma change_loop_wp track cs p pub pend :
  shows (current_ p) pub → batch_ok p pub pend track → (track = false → pend = [] ∧ (length cs <= 1)%nat) →
  wp Faulty (change_loop track cs)
    (λ r p', stable p p' ∧ (r = None → batch_ok p' pub (pend ++ cs) track)) (interrupted p) p.
Proof.
  revert p pend. induction cs as [|c cs IH]; intros p pend Hs Hb Hu; cbn [change_loop].
  { wp_step. split; [done|]. by rewrite app_nil_r. }
  wp_step. eapply wp_mono; [apply change_step_wp; [done|done|naive_solver]| |done].
  intros [code|] p' [Hst Hb']; [by wp_step|]. specialize (Hb' eq_refl).
  destruct track.
  - eapply wp_mono; [apply IH; [by rewrite (st_current _ _ Hst)|done|done]| |].
    + intros r p'' [Hst' Hb'']. split; [by etrans|]. by rewrite <- app_assoc in Hb''.
    + intros e p'' [-> Hst']. split; [done|]. by etrans.
  - destruct (Hu eq_refl) as [-> Hlen]. destruct cs; [|simpl in Hlen; lia]. cbn [change_loop]. by wp_step.
Qed.

(** ** Pages *)
Definition moded (p : Projection) (pub : option Published) : Prop :=
  (mode_ p = MODE_RESET ∧ first_ p = true) ∨ (mode_ p = MODE_APPLY ∧ is_Some pub ∧ fresh_ p = false).

(** A full reset is due only after the one repair. *)
Definition mended (p : Projection) : Prop := fresh_ p = true → repairs = true ∧ repaired_ p = true.

Definition sound (p : Projection) (pub : option Published) : Prop := shows (current_ p) pub ∧ mended p.

(** A reset falls due only by the one repair. *)
Definition spent (p p' : Projection) : Prop :=
  (repaired_ p = true → repaired_ p' = true) ∧
  (fresh_ p' = true → fresh_ p = true ∨ (repaired_ p = false ∧ repaired_ p' = true)).

#[local] Instance spent_transitive : Transitive spent.
Proof. intros p q r [H1 H2] [H3 H4]. split; [auto|]. destruct (repaired_ p), (repaired_ q); naive_solver. Qed.

(** What a page keeps unless it completes a batch. *)
Definition kept (p q : Projection) : Prop :=
  current_ q = current_ p ∧ fresh_ q = fresh_ p ∧ repaired_ q = repaired_ p.

Lemma kept_stable p q r : kept p q → stable q r → kept p r.
Proof. intros (H1 & H2 & H3) []. split_and!; congruence. Qed.

Lemma sound_kept p q pub : sound p pub → kept p q → sound q pub.
Proof. intros [H1 H2] (E1 & E2 & E3). split; [by rewrite E1|]. unfold mended. by rewrite E2, E3. Qed.

(** [pend] are the changes of the pages accepted so far of an unfinished batch. *)
Definition inv (p : Projection) (pub : option Published) (pend : list Change) : Prop :=
  sound p pub ∧
  match draft_ p with
  | None => pend = [] ∧ seen_ p = [] ∧ (metered o = true → held_ p = footprint_of (current_ p))
  | Some d =>
      batch_ok p pub pend true ∧ moded p pub ∧
      (metered o = true → held_ p = wrap64 (prepared d p + footprint_of (current_ p)))
  end.

Lemma discard_inv p pub : sound p pub → inv (discard p) pub [].
Proof. intros Hs. split; [done|]. simpl. split_and!; try done. by intros ->. Qed.

Lemma begin_inv expected p pub : sound p pub → inv (begin expected p) pub [].
Proof. apply discard_inv. Qed.

Lemma shows_some c pub : shows c pub → is_Some c ↔ is_Some pub.
Proof. destruct c, pub; simpl; split; intros []; try done; by eexists. Qed.

Lemma base_table_ok c pub : shows (Some c) pub → table_ok (data c) (base MODE_APPLY pub) ∧
  Z.of_nat (size (base MODE_APPLY pub)) <= limit_records o * 2 ∧ weight (base MODE_APPLY pub) <= limit_bytes o * 2 ∧
  map_Forall (λ _, row_ok) (base MODE_APPLY pub).
Proof.
  destruct pub as [b|]; [|done]. intros (_ & _ & Ht & Hs & Hw & _ & _ & Hr). simpl. split_and!; done || lia.
Qed.

Lemma open_batch_ok m t p pub :
  seen_ p = [] → table_ok t (base m pub) → Z.of_nat (size (base m pub)) <= limit_records o * 2 →
  weight (base m pub) <= limit_bytes o * 2 → map_Forall (λ _, row_ok) (base m pub) →
  batch_ok (open_batch m t p) pub [] true.
Proof.
  intros Hseen Ht Hsize Hw Hr. split; try done; [|by apply NoDup_nil_2].
  eexists. split; [done|]. by apply draft_fresh_ok.
Qed.

Lemma open_draft_wp page p pub pend :
  inv p pub pend → mode page = MODE_RESET ∨ mode page = MODE_APPLY →
  wp Faulty (open_draft page)
    (λ r p', kept p p' ∧ first_ p' = first_ p ∧ seen_ p' = seen_ p ∧
       (r = None → mode_ p' = mode page ∧ batch_ok p' pub pend true ∧ moded p' pub)) (λ _ _, False) p.
Proof.
  intros [[Hshows Hmend] Hinv] Hmode. unfold open_draft. wp_step. wp_step. destruct (draft_ p) as [d|] eqn:Ed.
  - destruct Hinv as (Hb & Hm & _). apply wp_if; intros E; wp_step; split_and!; try done.
    apply bool_decide_eq_true in E. done.
  - destruct Hinv as (-> & Hseen & _). apply wp_if; intros E; [by wp_step|].
    apply orb_false_iff in E as [E1 E2]. destruct Hmode as [Em|Em]; rewrite Em in *.
    + rewrite bool_decide_eq_true_2 in * by done. repeat wp_step. split_and!; try done. intros _.
      split_and!; [done| |left; by apply negb_false_iff in E1].
      change (base MODE_RESET pub) with (∅ : gmap string Row) in *.
      apply open_batch_ok; [done|apply empty_ok|..|apply map_Forall_empty];
        [change (0 <= limit_records o * 2)|change (0 <= limit_bytes o * 2)]; lia.
    + rewrite bool_decide_eq_false_2 in E1 by done. rewrite bool_decide_eq_true_2 in E2 by done.
      apply orb_false_iff in E2 as [E2 Ef]. apply negb_false_iff, bool_decide_eq_true in E2.
      rewrite bool_decide_eq_false_2 by done.
      pose proof (proj1 (shows_some _ _ Hshows) E2) as Hpub. destruct E2 as [c Ec].
      rewrite Ec in Hshows. destruct (base_table_ok c pub Hshows) as (T1 & T2 & T3 & T4).
      unfold the_current. repeat wp_step. rewrite Ec. repeat wp_step. split_and!; try done. intros _.
      split_and!; [done| |by right]. by apply open_batch_ok.
Qed.

(** What a completed page publishes, and on which conditions. *)
Definition install (pub : option Published) (pend : list Change) (page : Reply) : Published :=
  {| at_instance := reply_instance page; at_version := version_of page;
     entries := candidate (mode page) pub (pend ++ changes page) |}.

Record in_order (p : Projection) (pub : option Published) (pend : list Change) (page : Reply) : Prop := {
  or_complete : complete page = true;
  or_keys : NoDup (key <$> pend ++ changes page);
  or_changes : Forall (admissible (mode page) pub) (pend ++ changes page);
  or_reset : mode page = MODE_RESET → first_ p = true;
  or_apply : mode page = MODE_APPLY → ∃ b, pub = Some b ∧ at_instance b = reply_instance page ∧
    (at_version b < version_of page ∨ pend ++ changes page = []);
  or_version : ∀ b, pub = Some b → by_star = false ∨ at_instance b = reply_instance page → at_version b <= version_of page;
  or_fresh : mode page = MODE_APPLY → fresh_ p = false;
  or_stream : expected_ p = ""%string ∨ expected_ p = reply_instance page
}.

Definition accepted (p : Projection) (pub : option Published) (pend : list Change) (page : Reply)
    (r : answer) (p' : Projection) : Prop :=
  match r with
  | Unexpected _ => current_ p' = current_ p ∧ draft_ p' = None ∧ valid_ p' = false ∧ inv p' pub [] ∧ spent p p'
  | Expected None =>
      current_ p' = current_ p ∧ complete page = false ∧ is_Some (draft_ p') ∧ inv p' pub (pend ++ changes page) ∧
      spent p p'
  | Expected (Some v) =>
      in_order p pub pend page ∧ inv p' (Some (install pub pend page)) [] ∧ draft_ p' = None ∧
      is_Some (current_ p') ∧ v = view ready None p' ∧ spent p p'
  end.

Lemma kept_spent p q : kept p q → spent p q.
Proof. intros (_ & H1 & H2). split; [congruence|]. intros H. left. congruence. Qed.

Lemma fail_wp code p q pub pend page E :
  sound p pub → kept p q →
  wp Faulty (fail code) (accepted p pub pend page) E q.
Proof.
  intros Hs Hc. unfold fail. repeat wp_step. split_and!; try done; [apply Hc| |by apply kept_spent].
  apply (discard_inv q). by eapply sound_kept.
Qed.

Lemma commit_inv next q b :
  shows (Some next) (Some b) → inv (commit next q) (Some b) [].
Proof. intros Hs. by apply discard_inv. Qed.

Lemma complete_batch_wp p q pub pend page track :
  sound p pub → kept p q → mode_ q = mode page →
  batch_ok q pub (pend ++ changes page) track → in_order p pub pend page →
  wp Faulty (complete_batch page) (accepted p pub pend page) (λ e p', e = bad_alloc ∧ kept p p') q.
Proof.
  intros Hs Hc Hm [(d & Hd & Hok) Hsize Hw _ _ _ Hrows] Hord. rewrite Hm in *.
  unfold complete_batch. wp_step. apply (wp_the_draft d); [done|].
  pose proof (dr_size _ _ Hok) as Es. rewrite (size_fits _ (limit_records o * 2)) in Es by (unfold u64_max; lia).
  destruct (dr_bytes _ _ Hok) as [Eb _].
  apply wp_if; intros E1; [by apply fail_wp|]. apply orb_false_iff in E1 as [E1%Z.ltb_ge E2%Z.ltb_ge].
  apply wp_if; intros E3; [by apply fail_wp|].
  wp_step. wp_step; [|done]. wp_step. wp_step.
  apply wp_if; intros E4; [by apply fail_wp|]. apply Z.ltb_ge in E4.
  repeat wp_step. split_and!; [done| |done|by eexists|done|by split; [destruct Hc as (_ & _ & <-)|]]. apply commit_inv. split_and!; try done; simpl.
  - by apply table_finish_ok.
  - lia.
  - lia.
  - intros Hv. rewrite Hv in E3. simpl in E3. apply negb_false_iff, Z.eqb_eq in E3.
    apply map_size_empty_iff. lia.
Qed.

Lemma well_formed_page page p : malformed page p = false →
  valid_ p = true ∧ (mode page = MODE_RESET ∨ mode page = MODE_APPLY) ∧
  (complete page = false → changes page ≠ []).
Proof.
  unfold malformed. rewrite !orb_false_iff. intros [[[[[H1 H2] _] _] H5] _].
  apply negb_false_iff in H1. split; [done|]. split.
  - destruct (decide (mode page = MODE_RESET)); [by left|]. right. rewrite bool_decide_eq_false_2 in H2 by done.
    by apply negb_false_iff, bool_decide_eq_true in H2.
  - intros Hc. rewrite Hc in H5. simpl in H5. by apply bool_decide_eq_false in H5.
Qed.

Lemma misapplied_wp page p pub (Q : bool → Projection → Prop) E :
  shows (current_ p) pub → moded p pub →
  (∀ m, (m = false → complete page = true → mode_ p = MODE_APPLY →
         ∃ b, pub = Some b ∧ at_instance b = reply_instance page ∧
           (at_version b = version_of page → seen_ p = [] ∧ changes page = [])) → Q m p) →
  wp Faulty (misapplied page) Q E p.
Proof.
  intros Hs Hm HQ. unfold misapplied. wp_step. wp_step. apply wp_if; intros E1.
  - apply andb_true_iff in E1 as [_ E1%bool_decide_eq_true].
    destruct Hm as [[Em _]|(_ & [b ->] & _)]; [congruence|]. destruct (current_ p) as [c|] eqn:Ec; [|done].
    destruct Hs as (I1 & I2 & _). unfold the_current. repeat wp_step. rewrite Ec. repeat wp_step. apply HQ.
    intros Hfalse _ _. exists b. apply orb_false_iff in Hfalse as [F1 F2]. apply negb_false_iff, String.eqb_eq in F1.
    rewrite <- I1, <- I2. split_and!; try done. intros Hv. rewrite <- Hv in F2.
    rewrite Z.eqb_refl in F2. simpl in F2. rewrite !orb_false_iff, !negb_false_iff, !bool_decide_eq_true in F2. tauto.
  - wp_step. apply HQ. intros _ Hc Ha. rewrite Hc, Ha in E1. done.
Qed.

Lemma well_placed page p pub : misplaced page p = false → complete page = true → shows (current_ p) pub →
  (expected_ p = ""%string ∨ expected_ p = reply_instance page) ∧
  ∀ b, pub = Some b → by_star = false ∨ at_instance b = reply_instance page → at_version b <= version_of page.
Proof.
  unfold misplaced. intros E Hc Hs. rewrite Hc in E. simpl in E. rewrite !orb_false_iff in E. destruct E as [[_ E1] E2].
  split.
  - destruct (String.eqb_spec (expected_ p) ""); [by left|].
    destruct (String.eqb_spec (expected_ p) (reply_instance page)); [by right|done].
  - intros b -> Hstar. destruct (current_ p) as [c|]; [|done]. destruct Hs as (Hi & <- & _).
    assert (Hsame : negb by_star || String.eqb (instance c) (reply_instance page) = true).
    { destruct Hstar as [->|<-]; [done|]. rewrite Hi, String.eqb_refl. apply orb_true_r. }
    rewrite Hsame in E2. by apply Z.ltb_ge in E2.
Qed.

Lemma batch_track p pub pend track : batch_ok p pub pend true → batch_ok p pub pend track.
Proof. intros [B1 B2 B3 B4 B5 B6 B7]. split; try done. intros _. by apply B4. Qed.

Lemma batch_reserve n p pub pend track : batch_ok p pub pend track → batch_ok (reserve n p) pub pend track.
Proof. by intros []. Qed.

(** The decisions of [accept] that lead to its last part. *)
Lemma untracked page p pub pend :
  batch_ok p pub pend true → tracked page p = false → complete page = true ∧ pend = [] ∧ length (changes page) = 1%nat.
Proof.
  intros Hb. unfold tracked. rewrite !orb_false_iff, !negb_false_iff. intros [[H1 H2%Z.eqb_eq] H3%bool_decide_eq_true].
  rewrite (ba_seen _ _ _ _ Hb eq_refl) in H3. split_and!; [done| |lia].
  destruct pend; [done|]. rewrite fmap_cons, reverse_cons in H3. by apply app_nil in H3 as [_ ?].
Qed.

Lemma finish_page_wp grant page p p1 p2 pub pend track :
  sound p pub → kept p p1 → stable p1 p2 → mode_ p1 = mode page → moded p1 pub →
  batch_ok p2 pub (pend ++ changes page) track → (track = false → complete page = true) →
  (complete page = true → in_order p pub pend page) →
  wp Faulty
    (d <- the_draft ;;
     q <- read ;;
     let need := wrap64 (prepared d q + footprint_of (current_ q)) in
     if wrap64 (limit_bytes o * 2) <? prepared d q then fail limit
     else
       modify (reserve need) ;;;
       if metered o && negb (grant need) then fail limit
       else if negb (complete page) then ret (Expected None)
       else complete_batch page)
    (accepted p pub pend page) (λ e p', e = bad_alloc ∧ kept p p') p2.
Proof.
  intros Hs Hc1 Hst Hm1 Hm Hb Hu Hord. destruct (ba_draft _ _ _ _ Hb) as (d & Hd & Hok).
  assert (Hc2 : kept p p2) by (by eapply kept_stable).
  wp_step. apply (wp_the_draft d); [done|]. wp_step. wp_step. cbv zeta.
  apply wp_if; intros _; [by apply fail_wp|]. wp_step. wp_step.
  apply wp_if; intros _; [by apply fail_wp|]. apply wp_if; intros Ec.
  - apply negb_true_iff in Ec. wp_step. split_and!; try done; [apply Hc2| |by apply kept_spent]. split; [by apply (sound_kept p2); [eapply sound_kept|]|].
    simpl. rewrite Hd. split_and!.
    + apply batch_reserve. destruct track; [done|]. by rewrite Hu in Ec.
    + destruct Hst as [_ St1 St2 _ _ St3 _]. unfold moded in *. simpl. by rewrite St1, St2, St3.
    + by intros ->.
  - apply negb_false_iff in Ec. eapply (complete_batch_wp _ _ _ _ _ track); try done.
    + simpl. rewrite <- Hm1. apply Hst.
    + by apply batch_reserve.
    + by apply Hord.
Qed.

Lemma accept_wp grant page p pub pend :
  inv p pub pend →
  wp Faulty (accept grant page) (accepted p pub pend page) (λ e p', e = bad_alloc ∧ kept p p') p.
Proof.
  intros Hinv. pose proof (proj1 Hinv) as Hs. unfold accept. wp_step. wp_step.
  apply wp_if; intros E1; [by apply fail_wp|]. apply well_formed_page in E1 as (_ & Hmode & _).
  apply wp_if; intros E2; [by apply fail_wp|].
  wp_step. eapply wp_mono; [by apply (open_draft_wp page p pub pend)| |done].
  intros [code|] p1 (Hc1 & Hf1 & Hseen1 & Hopen); [by apply fail_wp|].
  destruct (Hopen eq_refl) as (Hm1 & Hb1 & Hmd1). clear Hopen.
  pose proof (sound_kept _ _ _ Hs Hc1) as [Hs1 _]. wp_step. eapply misapplied_wp; [done|done|]. intros m Happly.
  apply wp_if; intros Em; [by apply fail_wp|]. specialize (Happly Em).
  wp_step. wp_step. wp_step. set (track := tracked page p1).
  assert (Hun : track = false → complete page = true ∧ pend = [] ∧ length (changes page) = 1%nat)
    by (by apply (untracked page p1 pub)).
  eapply wp_mono; [apply (change_loop_wp track (changes page) p1 pub pend)| |].
  - done.
  - by apply batch_track.
  - intros Ht. destruct (Hun Ht) as (_ & ? & ?). split; [done|lia].
  - intros [code|] p2 [Hst Hb2].
    { apply fail_wp; [done|]. by eapply kept_stable. }
    specialize (Hb2 eq_refl). eapply (finish_page_wp _ _ _ p1 _ _ _ track); try done; [naive_solver|].
    intros Hc. destruct (well_placed page p pub E2 Hc (proj1 Hs)) as [Hexp Hver]. split; try done.
    + apply Hb2.
    + pose proof (ba_changes _ _ _ _ Hb2) as Hadm. by rewrite (st_mode _ _ Hst), Hm1 in Hadm.
    + intros Hr. destruct Hmd1 as [[_ ?]|(? & _)]; congruence.
    + intros Ha. destruct Happly as (b & -> & Hi & Hv); [done|congruence|]. exists b. split_and!; try done.
      specialize (Hver b eq_refl (or_intror Hi)). destruct (decide (at_version b = version_of page)) as [Ev|]; [|left; lia].
      right. destruct (Hv Ev) as [Hz ->]. rewrite (ba_seen _ _ _ _ Hb1 eq_refl) in Hz.
      destruct pend; [done|]. rewrite fmap_cons, reverse_cons in Hz. by apply app_nil in Hz as [_ ?].
    + intros Ha. destruct Hc1 as (_ & <- & _). destruct Hmd1 as [[? _]|(_ & _ & ?)]; congruence.
  - intros e p' [-> Hst]. split; [done|]. by eapply kept_stable.
Qed.

Lemma repair_inv code p pub : draft_ p = None → inv p pub [] → inv (repair code p).2 pub [].
Proof.
  intros Hd [[Hs Hm] Hi]. unfold repair. destruct code; try done. destruct (negb repairs || repaired_ p) eqn:E; [done|].
  apply orb_false_iff in E as [E%negb_false_iff _]. split; [split; [done|]|]; [|simpl; by rewrite Hd in *]. by intros _.
Qed.

Lemma repair_keeps code p :
  current_ (repair code p).2 = current_ p ∧ draft_ (repair code p).2 = draft_ p ∧ valid_ (repair code p).2 = valid_ p ∧
  spent p (repair code p).2.
Proof.
  assert (spent p p) by (split; auto).
  unfold repair. destruct code; try done. destruct (negb repairs || repaired_ p) eqn:E; [done|].
  apply orb_false_iff in E as [_ E]. split_and!; try done. split; [done|]. intros _. by right.
Qed.

Lemma consume_wp grant page p pub pend :
  inv p pub pend →
  wp Faulty (consume grant page) (accepted p pub pend page)
    (λ e p', e = bad_alloc ∧ current_ p' = current_ p ∧ draft_ p' = None ∧ inv p' pub [] ∧ spent p p') p.
Proof.
  intros Hinv. unfold consume. wp_step. wp_step. eapply wp_mono; [by apply accept_wp| |].
  - intros [a|code] p' Ha; repeat wp_step; [done|]. destruct Ha as (H1 & H2 & H3 & H4 & H5).
    pose proof (repair_keeps code p') as (R1 & R2 & R3 & R4).
    split_and!; [congruence..|by apply repair_inv|by etrans].
  - intros e p' [-> Hc]. wp_step. split_and!; [done|apply Hc|done| |by apply kept_spent].
    apply discard_inv. eapply sound_kept; [apply Hinv|done].
Qed.
End bounded.

(** ** Streams
    Everything a caller does to a projection; [Page] carries the answer of the
    budget and the allocations that fail. *)
Inductive event := Begin (expected : string) | Page (grant : Z → bool) (page : Reply) (f : faults) | Drop.

(** What a stream has published, and the changes of its unfinished batch. *)
Definition note (r : outcome answer) (page : Reply) (pub : option Published) (pend : list Change) :
    option Published * list Change :=
  match r with
  | Done (Expected None) => (pub, pend ++ changes page)
  | Done (Expected (Some _)) => (Some (install pub pend page), [])
  | _ => (pub, [])
  end.

Abbreviation run_state := (Projection * (option Published * list Change))%type.

Definition step (st : run_state) (e : event) : run_state :=
  let '(p, (pub, pend)) := st in
  match e with
  | Begin expected => (begin expected p, (pub, []))
  | Drop => (discard p, (pub, []))
  | Page grant page f => let '(r, p', _) := consume grant page p f in (p', note r page pub pend)
  end.

Definition run (es : list event) (p : Projection) : run_state := foldl step (p, (None, [])) es.

Section started.
Context (p0 : Projection) (is_bytes : is_u64 (limit_bytes o)) (is_records : is_u64 (limit_records o)) (made : make = Done p0).

Lemma make_projection_ok : (0 < limit_bytes o <= 1024 * 1024 * 1024 ∧ 0 < limit_records o <= 65536) ∧ inv p0 None [].
Proof.
  unfold make in made. destruct (_ || _) eqn:E; [done|]. injection made as <-.
  rewrite !orb_false_iff, !Z.ltb_ge, !Z.eqb_neq in E. unfold is_u64 in *. split; [lia|]. by split.
Qed.

Lemma page_ok grant page f p pub pend :
  inv p pub pend →
  match consume grant page p f with
  | (Done r, p', _) => accepted p pub pend page r p'
  | (Thrown e, p', _) => e = bad_alloc ∧ current_ p' = current_ p ∧ draft_ p' = None ∧ inv p' pub [] ∧ spent p p'
  end.
Proof.
  intros Hinv. pose proof (consume_wp (proj1 make_projection_ok) grant page p pub pend Hinv f I) as H.
  destruct (consume grant page p f) as [[[r|e] p'] f']; apply H.
Qed.

Lemma step_inv st e : inv st.1 st.2.1 st.2.2 → inv (step st e).1 (step st e).2.1 (step st e).2.2.
Proof.
  destruct st as [p [pub pend]]. simpl. intros Hinv. destruct e as [x|grant page f|].
  - apply begin_inv, Hinv.
  - pose proof (page_ok grant page f p pub pend Hinv) as Hp. simpl.
    destruct (consume grant page p f) as [[[[[v|]|c]|e] p'] f']; simpl; apply Hp.
  - apply discard_inv, Hinv.
Qed.

(** A step leaves the contents alone or installs the batch its page completes. *)
Lemma step_ordered p pub pend e :
  inv p pub pend →
  let '(p', (pub', pend')) := step (p, (pub, pend)) e in
  (pub' = pub ∧ current_ p' = current_ p) ∨
  ∃ grant page f, e = Page grant page f ∧ in_order p pub pend page ∧ pub' = Some (install pub pend page).
Proof.
  intros Hinv. destruct e as [x|grant page f|]; simpl; [by left| |by left].
  pose proof (page_ok grant page f p pub pend Hinv) as Hp.
  destruct (consume grant page p f) as [[[[[v|]|c]|e] p'] f']; simpl.
  - right. exists grant, page, f. split_and!; try done. apply Hp.
  - left. split; [done|apply Hp].
  - left. split; [done|apply Hp].
  - left. split; [done|apply Hp].
Qed.

Lemma run_inv es : inv (run es p0).1 (run es p0).2.1 (run es p0).2.2.
Proof.
  unfold run. induction es as [|e es IH] using rev_ind; [apply make_projection_ok|]. rewrite foldl_app. by apply step_inv.
Qed.

Lemma step_spent p pub pend e : inv p pub pend → spent p (step (p, (pub, pend)) e).1.
Proof.
  intros Hinv. assert (Hp : spent p p) by (split; auto). destruct e as [x|grant page f|]; [done| |done]. simpl.
  pose proof (page_ok grant page f p pub pend Hinv) as Hpage.
  destruct (consume grant page p f) as [[[[[v|]|c]|e] p'] f']; simpl; apply Hpage.
Qed.

(** How many steps of a history, the last first, give up the position to resume from. *)
Fixpoint restarts (es : list event) : nat :=
  match es with
  | [] => 0
  | e :: es =>
      (if resume (run (reverse es) p0).1 && negb (resume (run (reverse (e :: es)) p0).1) then 1 else 0) + restarts es
  end.

Lemma restarts_bound es : (restarts es <= if repaired_ (run (reverse es) p0).1 then 1 else 0)%nat.
Proof.
  induction es as [|e es IH]; [simpl; lia|]. cbn [restarts].
  pose proof (run_inv (reverse es)) as Hinv. rewrite !reverse_cons. unfold run in *. rewrite foldl_app. cbn [foldl].
  destruct (foldl step (p0, (None, [])) (reverse es)) as [p [pub pend]]. cbn [fst snd] in *.
  destruct (step_spent p pub pend e Hinv) as [S1 S2]. set (p' := (step (p, (pub, pend)) e).1) in *.
  unfold resume. revert IH S1 S2. destruct (fresh_ p), (fresh_ p'), (repaired_ p), (repaired_ p'); simpl; intros IH S1 S2; try lia;
    first [exfalso; discriminate (S1 eq_refl) | destruct (S2 eq_refl) as [?|[? ?]]; discriminate].
Qed.

(** What a reader of the contents sees. *)
Definition reads (c : option Contents) (pub : option Published) : Prop :=
  match c, pub with
  | None, None => True
  | Some c, Some b =>
      instance c = at_instance b ∧ version c = at_version b ∧
      (∀ k, find k (data c) = entries b !! k) ∧ each (data c) ≡ₚ map_to_list (entries b) ∧
      Z.of_nat (size (entries b)) <= limit_records o ∧ weight (entries b) <= limit_bytes o ∧
      footprint (data c) <= limit_bytes o
  | _, _ => False
  end.

Lemma shows_reads c pub : shows c pub → reads c pub.
Proof.
  destruct c as [c|], pub as [b|]; try done. intros (H1 & H2 & H3 & H4 & H5 & H6 & _). split_and!; try done.
  - apply H3.
  - by apply each_ok.
Qed.

(** C6. Through any history of streams, pages, dropped candidates, budget answers
    and failing allocations, the contents a reader sees are exactly what the
    completed batches spell: nothing before the first one, then for each reset
    its own entries and for each apply the previous contents with the changes of
    all the pages of the batch; unfinished and refused batches show nothing.  The
    contents respect the limits, and with a budget callback the amount held is
    the footprint of the contents, plus that of the candidate while there is one. *)
Theorem projection_refines (es : list event) :
  let '(p, (pub, pend)) := run es p0 in
  reads (current_ p) pub ∧
  (metered o = true →
   held_ p = match draft_ p with
             | None => footprint_of (current_ p)
             | Some d => wrap64 (prepared d p + footprint_of (current_ p))
             end).
Proof.
  pose proof (run_inv es) as [[Hs _] Hd]. destruct (run es p0) as [p [pub pend]]. simpl in *.
  split; [by apply shows_reads|]. destruct (draft_ p); apply Hd.
Qed.

(** C31. The published position moves only on a completed page and only forward:
    a batch is installed when its keys are pairwise distinct over all its pages
    and admissible, a reset only as the first batch of a stream, an apply only on
    published contents of the same instance, not while a repair is due, and, unless
    it is an empty one, at a higher version. *)
Theorem projection_ordered (es : list event) (e : event) :
  let '(p, (pub, pend)) := run es p0 in
  let '(p', (pub', pend')) := run (es ++ [e]) p0 in
  (pub' = pub ∧ current_ p' = current_ p) ∨
  ∃ grant page f, e = Page grant page f ∧ in_order p pub pend page ∧ pub' = Some (install pub pend page).
Proof.
  pose proof (run_inv es) as Hinv. unfold run. rewrite foldl_app. cbn [foldl]. fold (run es p0).
  destruct (run es p0) as [p [pub pend]]. by apply step_ordered.
Qed.

(** Handling a page at any point of any history, whatever it holds and
    whichever allocation fails: no null pointer is read and no size overflows (the
    only exception is the failed allocation); unless the page completes a batch the
    contents are untouched; a refusal ends the stream and drops the candidate; and
    the view handed out is the contents just published. *)
Theorem accept_safe (es : list event) (grant : Z → bool) (page : Reply) (f : faults) :
  let p := (run es p0).1 in
  let '(r, p', _) := consume grant page p f in
  match r with
  | Thrown e => e = bad_alloc ∧ current_ p' = current_ p ∧ draft_ p' = None
  | Done (Unexpected _) => current_ p' = current_ p ∧ draft_ p' = None ∧ valid_ p' = false
  | Done (Expected None) => current_ p' = current_ p ∧ complete page = false ∧ is_Some (draft_ p')
  | Done (Expected (Some v)) => is_Some (current_ p') ∧ view_contents v = current_ p' ∧ draft_ p' = None
  end.
Proof.
  pose proof (page_ok grant page f _ _ _ (run_inv es)) as Hp. cbv zeta.
  destruct (consume grant page (run es p0).1 f) as [[[[[v|]|c]|e] p'] f']; simpl in Hp.
  - destruct Hp as (_ & _ & Hd & Hc & -> & _). done.
  - naive_solver.
  - naive_solver.
  - naive_solver.
Qed.
End started.
End stream.
