(* ===== verification/Projection.v ===== *)
(** The client's Almanac projection: [astra/comet/cpp/src/projection.{hpp,cpp}], the
    instance of [Stream] whose records are payloads without a version of their own
    and whose versions come from one authority. *)
From stdpp Require Import base numbers strings gmap list.
From S2P Require Import Prelude.
From S2P Require Import Scope.
From S2P Require Import Table.
From S2P Require Import Stream.

(** [Datum]: a record is its payload. *)
Record Datum := { value : Buffer }.

Inductive AlmanacAction := kValue (payload : Buffer) | kErase | ACTION_NOT_SET.

Lemma text_length k n : text k n = true → length_of k <= n.
Proof.
  unfold text, length_of. rewrite length_bytes. destruct (_ || _) eqn:E; [done|]. intros _.
  apply orb_false_iff in E as [_ E%Z.ltb_ge]. done.
Qed.

(** The [switch] on the action of an [AlmanacChange]. *)
Definition almanac_act (m : Mode) (old : option Datum) (a : AlmanacAction) : expected (option Datum) Code :=
  match a with
  | kValue payload =>
      if 1024 * 1024 <? buffer_size payload then Unexpected limit else Expected (Some {| value := payload |})
  | kErase => if negb (bool_decide (m = MODE_APPLY)) then Unexpected protocol else Expected None
  | ACTION_NOT_SET => Unexpected protocol
  end.

Section almanac.
(** [sizeof(std::vector)]. *)
Context (sizeof_vector : Z).

#[local] Instance datum_record : TableRecord Datum :=
  {| bytes := λ d, buffer_size (value d); record_overhead := sizeof_vector + 32;
     bytes_nonneg := λ d, Nat2Z.is_nonneg (length (value d)) |}.

Lemma datum_bound (d : Datum) : buffer_size (value d) <= 1024 * 1024 → bytes d <= 2 * 1024 * 1024.
Proof. simpl. lia. Qed.

Lemma almanac_act_ok m old a d :
  (∀ was, old = Some was → buffer_size (value was) <= 1024 * 1024) →
  almanac_act m old a = Expected (Some d) → buffer_size (value d) <= 1024 * 1024.
Proof.
  intros _. destruct a as [payload| |]; simpl; [|by destruct (negb _)|done].
  destruct (Z.ltb_spec (1024 * 1024) (buffer_size payload)); [done|]. by intros [= <-].
Qed.

Definition almanac : Domain :=
  {| Row := Datum; Action := AlmanacAction; key_ok := λ k, text k 1024; by_star := false; repairs := false;
     act := almanac_act; row_ok := λ d, buffer_size (value d) <= 1024 * 1024;
     key_bound := λ k, text_length k 1024; row_bound := datum_bound; act_ok := almanac_act_ok |}.
End almanac.

(** ** [Reader::View] *)
Section reader.
Context (sizeof_vector : Z).
#[local] Instance reader_domain : Domain := almanac sizeof_vector.

(** A null pointer stands for an absent key. *)
Definition reader_find {platform : Platform Row} (k : string) (v : View) : Value := value <$> view_find k v.
Definition reader_visit (v : View) : list (string * Buffer) := prod_map id value <$> view_visit v.
End reader.

Module Sample.
Local Open Scope string_scope.

#[local] Instance domain : Domain := almanac 24.
#[local] Instance platform : Platform Row :=
  {| hash := length_of; sizeof_page := 56; sizeof_table := 2072; sizeof_draft := 4152; sizeof_entry := 48;
     fresh_buckets := 1; copied_buckets := λ _ b, b;
     grown_buckets := λ rows b, Z.max b (Z.of_nat (size rows) + 1) |}.

Definition options : Options :=
  {| scope_ := {| sector := "a"; spectrum := "b" |}; target_ := ""; limit_bytes := 65536; limit_records := 4;
     metered := true |}.

Definition fresh : Projection :=
  {| current_ := None; draft_ := None; seen_ := []; seen_bytes_ := 0; expected_ := ""; mode_ := MODE_UNSPECIFIED;
     first_ := true; valid_ := false; held_ := 0; repaired_ := false; fresh_ := false |}.

Definition put (k : string) (b : Buffer) : Change := {| key := k; action := (kValue b : Action) |}.
Definition drop (k : string) : Change := {| key := k; action := (kErase : Action) |}.

Definition part (m : Mode) (cs : list Change) : Reply :=
  {| mode := m; complete := false; reply_version := None; reply_instance := ""; changes := cs; byte_size := 100 |}.
Definition tail (m : Mode) (v : Z) (cs : list Change) : Reply :=
  {| mode := m; complete := true; reply_version := Some v; reply_instance := "star"; changes := cs; byte_size := 100 |}.

Definition page (r : Reply) : event := Page (λ _, true) r [].

(** A reset in two pages, an apply, an apply cut by a failed allocation, and an
    apply that does not advance. *)
Definition events : list event :=
  [Begin "star"; page (part MODE_RESET [put "x" [Byte.x01]]); page (tail MODE_RESET 7 [put "y" [Byte.x02]]);
   page (tail MODE_APPLY 8 [drop "x"; put "z" []]);
   Page (λ _, true) (tail MODE_APPLY 9 [put "z" [Byte.x03]]) [true];
   page (tail MODE_APPLY 8 [put "w" []])].

Definition buckets (l : list string) : Z := Z.of_nat (length l).
Definition final : Projection := (run 32 buckets options events fresh).1.

Example final_contents :
  match current_ final with
  | Some c => version c = 8 ∧ find "x" (data c) = None ∧ find "y" (data c) = Some {| value := [Byte.x02] |} ∧
      find "z" (data c) = Some {| value := [] |} ∧ find "w" (data c) = None
  | None => False
  end ∧ valid_ final = false.
Proof. by vm_compute. Qed.

Lemma projection_refines_witness :
  make options = Done fresh ∧
  let '(p, (pub, pend)) := run 32 buckets options events fresh in
  reads options (current_ p) pub.
Proof.
  split; [done|].
  pose proof (projection_refines 32 buckets options fresh ltac:(by vm_compute) ltac:(by vm_compute) eq_refl events) as H.
  destruct (run 32 buckets options events fresh) as [p [pub pend]]. exact (proj1 H).
Defined.

Lemma projection_ordered_witness :
  let '(p, (pub, pend)) := run 32 buckets options events fresh in
  let '(p', (pub', pend')) := run 32 buckets options (events ++ [Drop]) fresh in
  (pub' = pub ∧ current_ p' = current_ p) ∨
  ∃ grant page f, Drop = Page grant page f ∧ in_order options p pub pend page ∧ pub' = Some (install pub pend page).
Proof.
  exact (projection_ordered 32 buckets options fresh ltac:(by vm_compute) ltac:(by vm_compute) eq_refl events Drop).
Defined.

Lemma accept_safe_witness :
  let '(r, p', _) := consume 32 buckets options (λ _, true) (tail MODE_APPLY 9 []) final [true] in
  match r with
  | Thrown e => e = bad_alloc ∧ current_ p' = current_ final ∧ draft_ p' = None
  | Done (Unexpected _) => current_ p' = current_ final ∧ draft_ p' = None ∧ valid_ p' = false
  | Done (Expected None) => current_ p' = current_ final ∧ complete (tail MODE_APPLY 9 []) = false ∧ is_Some (draft_ p')
  | Done (Expected (Some v)) => is_Some (current_ p') ∧ view_contents v = current_ p' ∧ draft_ p' = None
  end.
Proof.
  exact (accept_safe 32 buckets options fresh ltac:(by vm_compute) ltac:(by vm_compute) eq_refl events
    (λ _, true) (tail MODE_APPLY 9 []) [true]).
Defined.

End Sample.
