(* ===== verification/Subscription.v ===== *)
(** The client's Catalog projection: [astra/comet/cpp/src/subscription.{hpp,cpp}], the
    instance of [Stream] whose records carry the version of their publication and
    whose positions count per Star. *)
From stdpp Require Import base numbers strings gmap list.
From S2P Require Import Prelude.
From S2P Require Import Scope.
From S2P Require Import Table.
From S2P Require Import Stream.
From S2P Require Import Projection.

(** [Subscriber::Record] and [Publication]. *)
Record Record_ := { record_version : Z; record_value : Buffer }.
Record Publication := { record : Record_ }.

(** [CatalogChange]: the version is a field beside the action. *)
Inductive catalog_case := catalog_kValue (payload : Buffer) | catalog_kErase | catalog_ACTION_NOT_SET.
Record CatalogAction := { change_version : Z; action_case : catalog_case }.

(** The [switch] on the action of a [CatalogChange]. *)
Definition catalog_act (m : Mode) (old : option Publication) (a : CatalogAction) : expected (option Publication) Code :=
  match action_case a with
  | catalog_kValue payload =>
      if change_version a =? 0 then Unexpected protocol
      else if 1024 * 1024 <? buffer_size payload then Unexpected limit
      else Expected (Some {| record := {| record_version := change_version a; record_value := payload |} |})
  | catalog_kErase =>
      if negb (bool_decide (m = MODE_APPLY)) || negb (change_version a =? 0) then Unexpected protocol else Expected None
  | catalog_ACTION_NOT_SET => Unexpected protocol
  end.

(** What an installed record satisfies. *)
Definition publication_ok (r : Publication) : Prop :=
  record_version (record r) ≠ 0 ∧ buffer_size (record_value (record r)) <= 1024 * 1024.

Section catalog.
(** [sizeof(std::vector)]. *)
Context (sizeof_vector : Z).

#[local] Instance publication_record : TableRecord Publication :=
  {| bytes := λ r, buffer_size (record_value (record r)); record_overhead := sizeof_vector + 32;
     bytes_nonneg := λ r, Nat2Z.is_nonneg (length (record_value (record r))) |}.

Lemma publication_bound (r : Publication) : publication_ok r → bytes r <= 2 * 1024 * 1024.
Proof. intros [_ ?]. simpl. lia. Qed.

Lemma catalog_act_ok m old a r :
  (∀ was, old = Some was → publication_ok was) → catalog_act m old a = Expected (Some r) → publication_ok r.
Proof.
  intros _. unfold catalog_act. destruct (action_case a) as [payload| |]; [|by destruct (_ || _)|done].
  destruct (Z.eqb_spec (change_version a) 0); [done|].
  destruct (Z.ltb_spec (1024 * 1024) (buffer_size payload)); [done|]. by intros [= <-].
Qed.

Definition catalog : Domain :=
  {| Row := Publication; Action := CatalogAction; key_ok := λ k, text k 1024; by_star := true; repairs := false;
     act := catalog_act; row_ok := publication_ok;
     key_bound := λ k, text_length k 1024; row_bound := publication_bound; act_ok := catalog_act_ok |}.

#[local] Existing Instance catalog.
Context {platform : Platform Row} (sizeof_string : Z) (seen_buckets : list string → Z) (o : Options).

(** [Subscription] is [Stream] at [catalog]. *)
Definition subscription_make : outcome Projection := make o.
Definition subscription_discard : Projection → Projection := discard o.
Definition subscription_begin : string → Projection → Projection := begin o.
Definition subscription_view : State → option Code → Projection → View := view o.
Definition subscription_accept : (Z → bool) → Reply → eff Projection (expected (option View) Code) :=
  accept sizeof_string seen_buckets o.

(** [Subscriber::View]. *)
Definition subscriber_find (k : string) (v : View) : option Record_ := record <$> view_find k v.
Definition subscriber_visit (v : View) : list (string * Record_) := prod_map id record <$> view_visit v.

Context (p0 : Projection) (is_bytes : is_u64 (limit_bytes o)) (is_records : is_u64 (limit_records o))
  (made : subscription_make = Done p0).

(** A subscriber never reads a record without a version, nor one larger than the
    payload limit, whatever the streams delivered; and a Star that lags behind an
    earlier one is followed, so the position of a view moves backwards only when
    its instance changes. *)
Theorem subscription_positions (es : list event) (e : event) :
  let p := (run sizeof_string seen_buckets o es p0).1 in
  let p' := (run sizeof_string seen_buckets o (es ++ [e]) p0).1 in
  let v := subscription_view ready None p in
  let v' := subscription_view ready None p' in
  (∀ k r, subscriber_find k v = Some r → record_version r ≠ 0 ∧ buffer_size (record_value r) <= 1024 * 1024) ∧
  (∀ n n', view_version v = Some n → view_version v' = Some n' → n' < n → view_instance v' ≠ view_instance v).
Proof.
  pose proof (run_inv sizeof_string seen_buckets o p0 is_bytes is_records made es) as Hinv.
  pose proof (run_inv sizeof_string seen_buckets o p0 is_bytes is_records made (es ++ [e])) as Hinv'.
  unfold run in *. rewrite foldl_app in *. cbn [foldl] in *. fold (run sizeof_string seen_buckets o es p0) in *.
  destruct (run sizeof_string seen_buckets o es p0) as [p [pub pend]].
  pose proof (step_ordered sizeof_string seen_buckets o p0 is_bytes is_records made p pub pend e Hinv) as Hstep.
  destruct (step sizeof_string seen_buckets o (p, (pub, pend)) e) as [p' [pub' pend']]. simpl in *.
  destruct Hinv as [[Hs _] _], Hinv' as [[Hs' _] _]. split.
  - intros k r Hr. unfold subscriber_find, view_find in Hr. simpl in Hr.
    change (record <$> published k p = Some r) in Hr. rewrite (published_was _ _ _ _ Hs) in Hr.
    apply fmap_Some in Hr as (w & Hw & ->). by apply (was_ok _ _ _ _ _ Hs) in Hw.
  - unfold view_version, view_instance. simpl. intros n n' Hn Hn' Hlt.
    destruct (current_ p) as [c|], (current_ p') as [c'|]; try done. simplify_eq/=.
    destruct pub as [b|]; [|done]. destruct pub' as [b'|]; [|done].
    destruct Hs as (I1 & V1 & _), Hs' as (I2 & V2 & _).
    destruct Hstep as [[[= ->] [= ->]]|(grant & page & f & -> & Hord & [= ->])]; [lia|].
    intros Heq. pose proof (or_version _ _ _ _ _ Hord b eq_refl) as Hv. simpl in *.
    assert (at_version b <= version_of page); [|lia]. apply Hv. right. congruence.
Qed.
End catalog.

Module Sample.
Local Open Scope string_scope.

#[local] Instance domain : Domain := catalog 24.
#[local] Instance platform : Platform Row :=
  {| hash := length_of; sizeof_page := 56; sizeof_table := 2072; sizeof_draft := 4152; sizeof_entry := 48;
     fresh_buckets := 1; copied_buckets := λ _ b, b;
     grown_buckets := λ rows b, Z.max b (Z.of_nat (size rows) + 1) |}.

Definition options : Options :=
  {| scope_ := {| sector := "a"; spectrum := "b" |}; target_ := ""; limit_bytes := 65536; limit_records := 4;
     metered := false |}.

Definition fresh : Projection :=
  {| current_ := None; draft_ := None; seen_ := []; seen_bytes_ := 0; expected_ := ""; mode_ := MODE_UNSPECIFIED;
     first_ := true; valid_ := false; held_ := 0; repaired_ := false; fresh_ := false |}.

Definition put (k : string) (v : Z) : Change :=
  {| key := k; action := ({| change_version := v; action_case := catalog_kValue [Byte.x2a] |} : Action) |}.

Definition tail (star : string) (v : Z) (cs : list Change) : event :=
  Page (λ _, true)
    {| mode := MODE_RESET; complete := true; reply_version := Some v; reply_instance := star; changes := cs;
       byte_size := 100 |} [].

Definition buckets (l : list string) : Z := Z.of_nat (length l).

(** A view of one Star, then a move to a Star whose position is lower. *)
Definition events : list event := [Begin "one"; tail "one" 7 [put "x" 3]; Begin "two"].

Example moved_back :
  let p := (run 32 buckets options (events ++ [tail "two" 2 [put "x" 3]]) fresh).1 in
  let v := subscription_view 24 options ready None p in
  view_version v = Some 2 ∧ view_instance v = "two" ∧
  subscriber_find 24 "x" v = Some {| record_version := 3; record_value := [Byte.x2a] |}.
Proof. by vm_compute. Qed.

Definition before : View := subscription_view 24 options ready None (run 32 buckets options events fresh).1.
Definition after : View :=
  subscription_view 24 options ready None (run 32 buckets options (events ++ [tail "two" 2 [put "x" 3]]) fresh).1.

Lemma subscription_positions_witness :
  view_version before = Some 7 ∧ view_version after = Some 2 ∧ view_instance after ≠ view_instance before.
Proof.
  split; [by vm_compute|]. split; [by vm_compute|].
  exact (proj2 (subscription_positions 24 32 buckets options fresh ltac:(by vm_compute) ltac:(by vm_compute) eq_refl
    events (tail "two" 2 [put "x" 3])) 7 2 ltac:(by vm_compute) ltac:(by vm_compute) ltac:(lia)).
Defined.
End Sample.
