(* ===== verification/Selection.v ===== *)
(** The client's Ephemeris projection: [astra/comet/cpp/src/selection.{hpp,cpp}], the
    instance of [Stream] whose records are a fixed attribute and a changing datum,
    under UUIDs.  A change may carry the datum alone; when its base is unknown the
    stream is given up and, once in the life of the object, restarted from a full
    reset. *)
From stdpp Require Import base numbers strings gmap list.
From S2P Require Import Prelude.
From S2P Require Import Scope.
From S2P Require Import Table.
From S2P Require Import Stream.

(** [Registration]. *)
Record Registration := { attr : Buffer; datum : Buffer }.

(** [EphemerisChange]. *)
Inductive EphemerisAction := kRecord (record_attr record_data : Buffer) | kData (payload : Buffer) | kErased | kNone.

(** [Selection::valid], on the bytes of the identifier. *)
Definition selection_valid (uuid : string) : bool :=
  let bs := Scope.bytes uuid in
  if negb (length_of uuid =? 16) then false
  else (Z.land (nth 6 bs 0) 0xf0 =? 0x40) && (Z.land (nth 8 bs 0) 0xc0 =? 0x80).

(** The [switch] on the action of an [EphemerisChange].  A batch applies only to
    published contents ([open_draft]), so in [kData] the pointer is not null and an
    absent [old] is an unknown UUID. *)
Definition ephemeris_act (m : Mode) (old : option Registration) (a : EphemerisAction) : expected (option Registration) Code :=
  match a with
  | kRecord record_attr record_data =>
      if (1024 * 1024 <? buffer_size record_attr) || (1024 * 1024 <? buffer_size record_data) then Unexpected limit
      else
        let same := match old with Some old => bool_decide (attr old = record_attr) | None => false end in
        if bool_decide (m = MODE_APPLY) && bool_decide (is_Some old) && negb same then Unexpected protocol
        else
          let kept := match old with Some old => if same then attr old else record_attr | None => record_attr end in
          Expected (Some {| attr := kept; datum := record_data |})
  | kData payload =>
      if negb (bool_decide (m = MODE_APPLY)) then Unexpected protocol
      else if 1024 * 1024 <? buffer_size payload then Unexpected limit
      else match old with
           | None => Unexpected history
           | Some old => Expected (Some {| attr := attr old; datum := payload |})
           end
  | kErased => if negb (bool_decide (m = MODE_APPLY)) then Unexpected protocol else Expected None
  | kNone => Unexpected protocol
  end.

Definition registration_ok (r : Registration) : Prop :=
  buffer_size (attr r) <= 1024 * 1024 ∧ buffer_size (datum r) <= 1024 * 1024.

Lemma uuid_length k : selection_valid k = true → length_of k <= 1024.
Proof. unfold selection_valid. destruct (Z.eqb_spec (length_of k) 16); [lia|done]. Qed.

Lemma ephemeris_act_ok m old a r :
  (∀ was, old = Some was → registration_ok was) → ephemeris_act m old a = Expected (Some r) → registration_ok r.
Proof.
  intros Hold. destruct a as [ra rd|payload| |]; simpl; [| |by destruct (negb _)|done].
  - destruct (_ || _) eqn:E; [done|]. apply orb_false_iff in E as [E1%Z.ltb_ge E2%Z.ltb_ge].
    destruct (_ && negb _); [done|]. intros [= <-]. split; simpl; [|done].
    destruct old as [w|]; [|done]. destruct (bool_decide_reflect (attr w = ra)); [by apply Hold|done].
  - destruct (negb _); [done|]. destruct (Z.ltb_spec (1024 * 1024) (buffer_size payload)); [done|].
    destruct old as [w|]; [|done]. intros [= <-]. split; simpl; [by apply Hold|done].
Qed.

(** An apply keeps the attribute of a known UUID. *)
Lemma apply_keeps_attr old a r : ephemeris_act MODE_APPLY (Some old) a = Expected (Some r) → attr r = attr old.
Proof.
  destruct a as [ra rd|payload| |]; simpl; [| |done|done].
  - destruct (_ || _); [done|]. destruct (bool_decide_reflect (attr old = ra)) as [->|]; simpl; [|done].
    by intros [= <-].
  - destruct (1024 * 1024 <? buffer_size payload); [done|]. by intros [= <-].
Qed.

Section ephemeris.
(** [sizeof(std::vector)]. *)
Context (sizeof_vector : Z).

#[local] Instance registration_record : TableRecord Registration.
Proof.
  refine {| bytes := λ r, buffer_size (attr r) + buffer_size (datum r); record_overhead := 2 * (sizeof_vector + 32) |}.
  intros r. unfold buffer_size. lia.
Defined.

Lemma registration_bound (r : Registration) : registration_ok r → bytes r <= 2 * 1024 * 1024.
Proof. intros [? ?]. simpl. lia. Qed.

Definition ephemeris : Domain :=
  {| Row := Registration; Action := EphemerisAction; key_ok := selection_valid; by_star := true; repairs := true;
     act := ephemeris_act; row_ok := registration_ok;
     key_bound := uuid_length; row_bound := registration_bound; act_ok := ephemeris_act_ok |}.

#[local] Existing Instance ephemeris.
Context {platform : Platform Row} (sizeof_string : Z) (seen_buckets : list string → Z) (o : Options).

(** [Selection] is [Stream] at [ephemeris]. *)
Definition selection_make : outcome Projection := make o.
Definition selection_discard : Projection → Projection := discard o.
Definition selection_begin : string → Projection → Projection := begin o.
Definition selection_view : State → option Code → Projection → View := view o.
Definition selection_accept : (Z → bool) → Reply → eff Projection (expected (option View) Code) :=
  accept sizeof_string seen_buckets o.
Definition selection_repair : Code → Projection → bool * Projection := repair.
Definition selection_resume : Projection → bool := resume.

(** [Observer::View]. *)
Definition observer_find (k : string) (v : View) : option Registration := view_find k v.
Definition observer_visit (v : View) : list (string * Registration) := view_visit v.

Lemma candidate_attr pub pend k b r r' :
  pub = Some b → entries b !! k = Some r → candidate MODE_APPLY pub pend !! k = Some r' → attr r' = attr r.
Proof.
  intros -> Hr. revert r'. induction pend as [|c pend IH] using rev_ind; intros r'.
  { intros H. change (entries b !! k = Some r') in H. congruence. }
  rewrite candidate_snoc. unfold apply_change. change (was (Some b) (key c)) with (entries b !! key c).
  destruct (act MODE_APPLY (entries b !! key c) (action c)) as [[x|]|code] eqn:Ea; [| |by apply IH].
  - intros [[Hk <-]|[_ ?]]%lookup_insert_Some; [|by apply IH]. rewrite Hk in Ea.
    apply (apply_keeps_attr r (action c)). by rewrite <- Hr.
  - intros [_ ?]%lookup_delete_Some. by apply IH.
Qed.

Context (p0 : Projection) (is_bytes : is_u64 (limit_bytes o)) (is_records : is_u64 (limit_records o))
  (made : selection_make = Done p0).

(** At any point of any history, whatever a page of an apply holds (a full record,
    a datum alone, an erasure) the attribute an observer reads for a UUID that is
    there before and after is the same. *)
Theorem attr_immutable (es : list event) (grant : Z → bool) (page : Reply) (f : faults) (k : string) (r r' : Registration) :
  mode page = MODE_APPLY →
  let p := (run sizeof_string seen_buckets o es p0).1 in
  let p' := (run sizeof_string seen_buckets o (es ++ [Page grant page f]) p0).1 in
  observer_find k (selection_view ready None p) = Some r →
  observer_find k (selection_view ready None p') = Some r' →
  attr r' = attr r.
Proof.
  intros Hmode. pose proof (run_inv sizeof_string seen_buckets o p0 is_bytes is_records made es) as Hinv.
  pose proof (run_inv sizeof_string seen_buckets o p0 is_bytes is_records made (es ++ [Page grant page f])) as Hinv'.
  unfold run in *. rewrite foldl_app in *. cbn [foldl] in *. fold (run sizeof_string seen_buckets o es p0) in *.
  destruct (run sizeof_string seen_buckets o es p0) as [p [pub pend]].
  pose proof (step_ordered sizeof_string seen_buckets o p0 is_bytes is_records made p pub pend (Page grant page f) Hinv) as Hstep.
  destruct (step sizeof_string seen_buckets o (p, (pub, pend)) (Page grant page f)) as [p' [pub' pend']]. simpl in Hstep, Hinv, Hinv'.
  destruct Hinv as [[Hs _] _], Hinv' as [[Hs' _] _]. cbv zeta. unfold observer_find, view_find. simpl.
  change (published k p = Some r → published k p' = Some r' → attr r' = attr r).
  rewrite (published_was _ _ _ _ Hs), (published_was _ _ _ _ Hs').
  destruct Hstep as [[-> _]|(g & q & h & [= <- <- <-] & Hord & ->)]; [congruence|].
  unfold was. destruct pub as [b|]; [|done]. simpl. rewrite Hmode. by apply candidate_attr.
Qed.

(** A history gives up the position to resume from, and so asks for everything
    again, at most once, however often a base is missing. *)
Theorem repair_once (es : list event) :
  (restarts sizeof_string seen_buckets o p0 es <= 1)%nat ∧
  ((run sizeof_string seen_buckets o (reverse es) p0).1.(repaired_) = false →
   restarts sizeof_string seen_buckets o p0 es = 0%nat).
Proof.
  pose proof (restarts_bound sizeof_string seen_buckets o p0 is_bytes is_records made es) as H.
  split; [|intros E; rewrite E in H; lia]. revert H. destruct (repaired_ _); lia.
Qed.
End ephemeris.

Module Sample.
Local Open Scope string_scope.

#[local] Instance domain : Domain := ephemeris 24.
#[local] Instance platform : Platform Row :=
  {| hash := length_of; sizeof_page := 56; sizeof_table := 2072; sizeof_draft := 4152; sizeof_entry := 48;
     fresh_buckets := 1; copied_buckets := λ _ b, b;
     grown_buckets := λ rows b, Z.max b (Z.of_nat (size rows) + 1) |}.

Definition options : Options :=
  {| scope_ := {| sector := "a"; spectrum := "b" |}; target_ := ""; limit_bytes := 65536; limit_records := 4;
     metered := true |}.

Definition new : Projection :=
  {| current_ := None; draft_ := None; seen_ := []; seen_bytes_ := 0; expected_ := ""; mode_ := MODE_UNSPECIFIED;
     first_ := true; valid_ := false; held_ := 0; repaired_ := false; fresh_ := false |}.

(** An identifier of the shape of a UUIDv4, given by its first byte. *)
Definition uuid (c : Byte.byte) : string :=
  String.string_of_list_byte
    [c; Byte.x01; Byte.x02; Byte.x03; Byte.x04; Byte.x05; Byte.x46; Byte.x07;
     Byte.x88; Byte.x09; Byte.x0a; Byte.x0b; Byte.x0c; Byte.x0d; Byte.x0e; Byte.x0f].

Definition change (c : Byte.byte) (a : EphemerisAction) : Change := {| key := uuid c; action := (a : Action) |}.
Definition tail (m : Mode) (v : Z) (cs : list Change) : Reply :=
  {| mode := m; complete := true; reply_version := Some v; reply_instance := "star"; changes := cs; byte_size := 100 |}.
Definition page (r : Reply) : event := Page (λ _, true) r [].

Definition buckets (l : list string) : Z := Z.of_nat (length l).

(** A registration and then its datum alone. *)
Definition base : list event :=
  [Begin "star"; page (tail MODE_RESET 3 [change Byte.x61 (kRecord [Byte.x01] [Byte.x02])])].
Definition next : Reply := tail MODE_APPLY 4 [change Byte.x61 (kData [Byte.x05])].

Lemma attr_immutable_witness :
  observer_find 24 (uuid Byte.x61) (selection_view 24 options ready None (run 32 buckets options (base ++ [page next]) new).1) =
    Some {| attr := [Byte.x01]; datum := [Byte.x05] |} ∧ [Byte.x01] = [Byte.x01].
Proof.
  split; [by vm_compute|].
  exact (attr_immutable 24 32 buckets options new ltac:(by vm_compute) ltac:(by vm_compute) eq_refl base
    (λ _, true) next [] (uuid Byte.x61) {| attr := [Byte.x01]; datum := [Byte.x02] |}
    {| attr := [Byte.x01]; datum := [Byte.x05] |} eq_refl ltac:(by vm_compute) ltac:(by vm_compute)).
Defined.

(** The datum of an unknown identifier, twice: the first time asks for everything
    again, the second time does not. *)
Definition missing : event := page (tail MODE_APPLY 5 [change Byte.x62 (kData [])]).
Definition lost : list event :=
  base ++ [missing; Begin "star"; page (tail MODE_RESET 6 []); missing; Begin "star"].

Lemma repair_once_witness :
  selection_resume 24 (run 32 buckets options (base ++ [missing]) new).1 = false ∧
  selection_resume 24 (run 32 buckets options lost new).1 = true ∧
  (restarts 32 buckets options new (reverse lost) <= 1)%nat.
Proof.
  split; [by vm_compute|]. split; [by vm_compute|].
  exact (proj1 (repair_once 24 32 buckets options new ltac:(by vm_compute) ltac:(by vm_compute) eq_refl (reverse lost))).
Defined.
End Sample.
