(* ===== verification/Acceptance.v ===== *)
(** Pages that the client projections of [Stream] have no reason to refuse.

    [accept] refuses a page that breaks the protocol and one that exceeds the client's
    limits.  This file states what a well-behaved sender observes ([courteous]) and
    shows that its pages are refused for the limits only. *)
From stdpp Require Import base numbers strings gmap list.
From S2P Require Import Prelude.
From S2P Require Import Scope.
From S2P Require Import Table.
From S2P Require Import Stream.

Section acceptance.
Context {domain : Domain} {platform : Platform Row} (sizeof_string : Z) (seen_buckets : list string → Z) (o : Options).
Context (bounds : 0 < limit_bytes o <= 1024 * 1024 * 1024 ∧ 0 < limit_records o <= 65536).

(** A refusal for lack of room. *)
Definition full (r : option Code) : Prop := ∀ code, r = Some code → code = limit.

Lemma change_step_full track c p pub :
  shows o (current_ p) pub → admissible o (mode_ p) pub c → key c ∉ seen_ p →
  wp Faulty (change_step o track c) (λ r _, full r) (λ _ _, True) p.
Proof.
  intros Hs (Hk & Ht & x & Ha) Hnew. unfold change_step. rewrite Hk. cbn [negb orb].
  assert (Et : negb (String.eqb (target_ o) "") && negb (String.eqb (target_ o) (key c)) = false).
  { destruct Ht as [-> | ->]; [done|]. rewrite String.eqb_refl. apply andb_false_r. }
  rewrite Et. wp_step.
  apply wp_mono with (Q := λ t p', (t = None → mode_ p' = mode_ p ∧ current_ p' = current_ p) ∧ full t) (E := λ _ _, True); [| |done].
  - unfold track_change. apply wp_if; intros _; [|by wp_step]. repeat wp_step. rewrite (bool_decide_eq_false_2 (key c ∈ seen_ p)) by done.
    apply wp_if; intros _; [wp_step; split; [done|]; by intros ? [= <-]|]. by repeat wp_step.
  - intros [code|] p' [Hsame Hf]; [by wp_step|]. destruct (Hsame eq_refl) as [Hm Hc]. wp_step.
    apply wp_mono with (Q := λ a _, a = None) (E := λ _ _, True); [| |done].
    + unfold act_on. wp_step. wp_step. rewrite (published_was o _ _ pub) by (by rewrite Hc). rewrite Hm, Ha.
      destruct x as [r|]; wp_step; (eapply wp_mono; [apply wp_true| |done]); intros; by wp_step.
    + intros a p'' ->. wp_step. eapply wp_mono; [apply wp_true| |done]. intros d q _.
      apply wp_if; intros _; wp_step; [by intros ? [= <-]|done].
Qed.

Lemma change_loop_full track cs p pub pend :
  shows o (current_ p) pub → batch_ok o p pub pend track → (track = false → pend = [] ∧ (length cs <= 1)%nat ∧ seen_ p = []) →
  Forall (admissible o (mode_ p) pub) cs → NoDup (key <$> pend ++ cs) →
  wp Faulty (change_loop o track cs) (λ r _, full r) (λ _ _, True) p.
Proof.
  revert p pend. induction cs as [|c cs IH]; intros p pend Hs Hb Hu Hadm Hnd; cbn [change_loop]; [by wp_step|].
  apply Forall_cons in Hadm as [Ha Hadm]. wp_step.
  assert (Hnew : key c ∉ seen_ p).
  { destruct track; [rewrite (ba_seen _ _ _ _ _ Hb eq_refl), elem_of_reverse|by rewrite (proj2 (proj2 (Hu eq_refl))); apply not_elem_of_nil].
    intros Hin. rewrite fmap_app, fmap_cons in Hnd. apply NoDup_app in Hnd as (_ & Hdis & _). apply (Hdis (key c) Hin). left. }
  eapply wp_mono; [apply wp_and; [by apply (change_step_full track c p pub)|apply (change_step_wp o bounds track c p pub pend); [done|done|naive_solver]]| |done].
  intros [code|] p' [Hf [Hst Hb']]; [wp_step; intros ? [= <-]; by apply Hf|]. specialize (Hb' eq_refl). destruct track.
  - apply (IH p' (pend ++ [c])); [by rewrite (st_current _ _ Hst)|done|done|by rewrite (st_mode _ _ Hst)|by rewrite <- app_assoc].
  - destruct (Hu eq_refl) as (_ & Hlen & _). destruct cs; [|simpl in Hlen; lia]. cbn [change_loop]. by wp_step.
Qed.

(** What a sender observes with the next page of a batch, [pend] being the changes it
    has sent so far. *)
Record courteous (p : Projection) (pub : option Published) (pend : list Change) (page : Reply) : Prop := {
  co_valid : valid_ p = true;
  co_mode : mode page = MODE_RESET ∨ mode page = MODE_APPLY;
  co_opens : draft_ p = None → if decide (mode page = MODE_RESET) then first_ p = true else is_Some pub ∧ fresh_ p = false;
  co_continues : is_Some (draft_ p) → mode_ p = mode page;
  co_version : is_Some (reply_version page) ↔ complete page = true;
  co_named : reply_instance page ≠ ""%string ↔ complete page = true;
  co_some : complete page = false → changes page ≠ [];
  co_size : byte_size page <= 8 * 1024 * 1024;
  co_instance : complete page = true → text (reply_instance page) 128 = true ∧ (expected_ p = ""%string ∨ expected_ p = reply_instance page);
  co_forward : complete page = true → ∀ b, pub = Some b → by_star = false ∨ at_instance b = reply_instance page → at_version b <= version_of page;
  co_apply : complete page = true → mode page = MODE_APPLY → ∀ b, pub = Some b →
    at_instance b = reply_instance page ∧ (at_version b = version_of page → first_ p = true ∧ pend ++ changes page = []);
  co_keys : NoDup (key <$> pend ++ changes page);
  co_changes : Forall (admissible o (mode page) pub) (changes page);
  co_zero : complete page = true → version_of page = 0 → candidate (mode page) pub (pend ++ changes page) = ∅
}.

Lemma bool_decide_iff (P : Prop) `{Decision P} (b : bool) : (P ↔ b = true) → bool_decide P = b.
Proof. intros HP. destruct b; [apply bool_decide_eq_true_2|apply bool_decide_eq_false_2]; naive_solver. Qed.

Lemma courteous_formed p pub pend page : courteous p pub pend page → malformed page p = false.
Proof.
  intros [C1 C2 _ _ C5 C6 C7 C8 _ _ _ _ _ _]. unfold malformed. rewrite C1. cbn [negb orb].
  rewrite (bool_decide_iff _ (complete page) C5), Bool.eqb_reflx. cbn [negb].
  assert (E : negb (String.eqb (reply_instance page) "") = complete page).
  { destruct (String.eqb_spec (reply_instance page) "") as [E|E]; cbn; [|by symmetry; apply C6].
    destruct (complete page); [|done]. by destruct (proj2 C6 eq_refl). }
  rewrite E, Bool.eqb_reflx. cbn [negb]. rewrite (proj2 (Z.ltb_ge _ _)) by lia.
  assert (E2 : negb (complete page) && bool_decide (changes page = []) = false).
  { destruct (complete page); [done|]. cbn. apply bool_decide_eq_false_2. by apply C7. }
  rewrite E2. destruct C2 as [-> | ->]; done.
Qed.

Lemma courteous_placed p pub pend page : shows o (current_ p) pub → courteous p pub pend page → misplaced page p = false.
Proof.
  intros Hs Hco. unfold misplaced. destruct (complete page) eqn:Ec; [|done]. cbn [andb].
  destruct (co_instance _ _ _ _ Hco Ec) as [-> Hexp]. cbn [negb orb].
  assert (E : negb (String.eqb (expected_ p) "") && negb (String.eqb (expected_ p) (reply_instance page)) = false).
  { destruct Hexp as [-> | ->]; [done|]. rewrite String.eqb_refl. apply andb_false_r. }
  rewrite E. cbn [orb]. destruct (current_ p) as [c|]; [|done]. destruct pub as [b|]; [|done]. destruct Hs as (Hi & Hv & _).
  destruct (negb by_star || String.eqb (instance c) (reply_instance page)) eqn:E1; [|done]. cbn [andb]. apply Z.ltb_ge. rewrite Hv.
  apply (co_forward _ _ _ _ Hco Ec b eq_refl). apply orb_true_iff in E1 as [E1%negb_true_iff|E1%String.eqb_eq]; [by left|right; congruence].
Qed.

(** What the next page of a batch starts from. *)
Record continues (p p' : Projection) (page : Reply) : Prop := {
  cn_valid : valid_ p' = valid_ p;
  cn_mode : mode_ p' = mode page;
  cn_first : first_ p' = first_ p;
  cn_expected : expected_ p' = expected_ p;
  cn_fresh : fresh_ p' = fresh_ p
}.

Definition welcome (p : Projection) (page : Reply) (r : expected (option View) Code) (p' : Projection) : Prop :=
  match r with
  | Unexpected code => code = limit
  | Expected None => continues p p' page
  | Expected (Some _) => complete page = true
  end.

Lemma fail_welcome p page q : wp Faulty (fail o limit) (welcome p page) (λ _ _, True) q.
Proof. unfold fail. by repeat wp_step. Qed.

Lemma complete_batch_welcome p page q pub pend track :
  complete page = true → mode_ q = mode page → batch_ok o q pub (pend ++ changes page) track → courteous p pub pend page →
  wp Faulty (complete_batch o page) (welcome p page) (λ _ _, True) q.
Proof.
  intros Ec Hm [(d & Hd & Hok) Hsize Hw _ _ _ _] Hco. rewrite Hm in *. unfold complete_batch. wp_step.
  apply (wp_the_draft d); [done|]. apply wp_if; intros _; [by apply fail_welcome|].
  assert (E : (version_of page =? 0) && negb (draft_size d =? 0) = false).
  { destruct (Z.eqb_spec (version_of page) 0) as [E0|]; [|done]. cbn [andb]. rewrite (dr_size _ _ Hok).
    rewrite (co_zero _ _ _ _ Hco Ec E0). done. }
  rewrite E. wp_step. wp_step; [|done]. wp_step. wp_step. cbv zeta. apply wp_if; intros _; [by apply fail_welcome|]. by repeat wp_step.
Qed.

(** A courteous page is taken in, or refused for lack of room. *)
Lemma accept_welcome grant page p pub pend :
  inv sizeof_string seen_buckets o p pub pend → courteous p pub pend page →
  wp Faulty (accept sizeof_string seen_buckets o grant page) (welcome p page) (λ _ _, True) p.
Proof.
  intros Hinv Hco. pose proof (proj1 Hinv) as Hs. unfold accept. wp_step. wp_step.
  rewrite (courteous_formed _ _ _ _ Hco), (courteous_placed _ _ _ _ (proj1 Hs) Hco). wp_step.
  pose proof (open_draft_wp sizeof_string seen_buckets o bounds page p pub pend Hinv (co_mode _ _ _ _ Hco)) as Hwp.
  assert (Hnone : wp Faulty (open_draft page) (λ r p', r = None ∧ expected_ p' = expected_ p ∧ valid_ p' = valid_ p) (λ _ _, True) p).
  { unfold open_draft. wp_step. wp_step. destruct (draft_ p) as [d|] eqn:Ed.
    - rewrite bool_decide_eq_true_2 by (apply Hco; by rewrite Ed). by wp_step.
    - pose proof (co_opens _ _ _ _ Hco Ed) as Ho. destruct (co_mode _ _ _ _ Hco) as [Em|Em]; rewrite Em in *.
      + rewrite decide_True in Ho by done. rewrite Ho. rewrite (bool_decide_eq_true_2 (MODE_RESET = MODE_RESET)), (bool_decide_eq_false_2 (MODE_RESET = MODE_APPLY)) by done. cbn. by repeat wp_step.
      + rewrite decide_False in Ho by done. destruct Ho as [Hp Hfr]. destruct Hs as [Hsh _].
        destruct (proj2 (shows_some _ _ _ Hsh) Hp) as [c Ec]. rewrite Ec, Hfr. rewrite (bool_decide_eq_false_2 (MODE_APPLY = MODE_RESET)), (bool_decide_eq_true_2 (MODE_APPLY = MODE_APPLY)) by done.
        cbn. unfold the_current. repeat wp_step. rewrite Ec. by repeat wp_step. }
  eapply wp_mono; [exact (wp_and _ _ _ _ _ _ _ Hwp Hnone)| |done]. clear Hwp Hnone. intros r p1 [(Hc1 & Hf1 & Hseen1 & Hopen) (-> & He1 & Hv1)]. destruct (Hopen eq_refl) as (Hm1 & Hb1 & Hmd1). clear Hopen.
  pose proof (sound_kept _ _ _ _ Hs Hc1) as [Hs1 _]. wp_step.
  apply wp_mono with (Q := λ m q, m = false ∧ q = p1) (E := λ _ _, True); [| |done].
  { unfold misapplied. wp_step. wp_step. apply wp_if; intros E; [|by wp_step]. apply andb_true_iff in E as [Ec E%bool_decide_eq_true].
    destruct Hmd1 as [[? _]|(_ & [b ->] & _)]; [congruence|]. destruct (current_ p1) as [c|] eqn:Ecur; [|done].
    destruct Hs1 as (I1 & I2 & _). unfold the_current. repeat wp_step. rewrite Ecur. repeat wp_step. split; [|done].
    destruct (co_apply _ _ _ _ Hco Ec ltac:(congruence) b eq_refl) as [Hi Heq]. rewrite I1, Hi, String.eqb_refl. cbn [negb orb].
    destruct (Z.eqb_spec (version_of page) (version c)) as [E1|]; [|done]. cbn [andb]. destruct Heq as [Hfst Happ]; [lia|].
    apply app_nil in Happ as [-> Hch]. rewrite Hf1, Hfst, Hch. rewrite (ba_seen _ _ _ _ _ Hb1 eq_refl). done. }
  intros m q [-> ->]. wp_step. wp_step. wp_step. set (track := tracked page p1).
  assert (Hun : track = false → complete page = true ∧ pend = [] ∧ length (changes page) = 1%nat) by (by apply (untracked o page p1 pub)).
  assert (Hseen : track = false → seen_ p1 = []).
  { intros Ht. destruct (Hun Ht) as (_ & -> & _). by rewrite (ba_seen _ _ _ _ _ Hb1 eq_refl). }
  eapply wp_mono; [apply wp_and; [apply (change_loop_full track (changes page) p1 pub pend)|apply (change_loop_wp o bounds track (changes page) p1 pub pend)]| |done].
  1, 6: done. 1, 5: by apply batch_track. 
  - intros Ht. destruct (Hun Ht) as (_ & ? & ?). split_and!; [done|lia|by apply Hseen].
  - rewrite Hm1. apply Hco.
  - apply Hco.
  - intros Ht. destruct (Hun Ht) as (_ & ? & ?). split; [done|lia].
  - intros [code|] p2 [Hfull [Hst Hb2]]; [rewrite (Hfull code eq_refl); by apply fail_welcome|].
    specialize (Hb2 eq_refl). destruct (ba_draft _ _ _ _ _ Hb2) as (d & Hd & _). wp_step. apply (wp_the_draft d); [done|]. wp_step. wp_step.
    cbv zeta. apply wp_if; intros _; [by apply fail_welcome|]. wp_step. wp_step. apply wp_if; intros _; [by apply fail_welcome|].
    apply wp_if; intros Ec.
    + wp_step. destruct Hst, Hc1 as (_ & ? & _). split; cbn; congruence.
    + apply negb_false_iff in Ec. eapply (complete_batch_welcome _ _ _ pub pend track); try done; [cbn; rewrite <- Hm1; apply Hst|by apply batch_reserve].
Qed.

(** The caller's treatment. *)
Lemma consume_welcome grant page p pub pend :
  inv sizeof_string seen_buckets o p pub pend → courteous p pub pend page →
  wp Faulty (consume sizeof_string seen_buckets o grant page) (welcome p page) (λ _ _, True) p.
Proof.
  intros Hinv Hco. unfold consume. wp_step. wp_step. eapply wp_mono; [by apply (accept_welcome grant page p pub pend)| |].
  - intros [a|code] p' Ha; [by wp_step|]. by repeat wp_step.
  - intros e p' _. by wp_step.
Qed.
End acceptance.
