(* ===== verification/Edition.v ===== *)
(** Frozen batches on their way to a watching client: [astra/star/src/pagination.hpp]
    with the encodings of [catalog_edition.hpp], [ephemeris_edition.hpp] and their
    [.cpp], and [edition.hpp] and [edition.cpp] for the Almanac.

    A batch is captured once, as a whole scope, one record or the changes after a
    cursor, and is then sent page by page without looking at the domain again.  The
    changes of one record are merged into one; a page holds at most 256 rows and, its
    first row apart, at most 256 KiB.  The last page, and only it, carries the version
    and the instance of the Star.

    [Edition] and [Pagination] build their pages alike.  They differ in how a row is
    charged and encoded, which is the class [Encoding], and in their constructors.
    A page is the message the client reads ([Stream.Reply]). *)
From stdpp Require Import base numbers strings gmap list sorting.
From S2P Require Import Prelude.
From S2P Require Import Scope.
From S2P Require Import Pages.
From S2P Require Import Scene.
From S2P Require Import Table.
From S2P Require Import Stream.

Section edition.
(** The client's domain, the public contents of a record and the items of a captured
    index with the contents they hold. *)
Context {domain : Domain} {Content Item : Type} (held : Item → option Content).
Abbreviation Event := (Scene.Event (Item := Content)).

(** A row to send: the contents, or the erasure, of a key; [line_data] asks for the
    changing part alone. *)
Record Line := { line_key : string; line_content : option Content; line_data : bool }.

(** [payload] checks a row and measures it, [encode] is the row of the message,
    [combine] merges an event into the earlier one of the same record ([merge]) and
    [content_size] bills a record ([measure]). *)
Class Encoding := {
  overhead : Z;
  content_size : Content → Z;
  payload : Line → outcome Z;
  encode : Line → Action;
  combine : Event → Event → Event
}.
Context {encoding : Encoding}.

(** [data_]; [Blank] is the empty alternative of [Edition]. *)
Inductive Data :=
| Blank
| Whole (root : pages string Item) (count : Z)
| Point (k : string) (record : option Content)
| Lines (ls : list Line).

Record Edition := {
  data_ : Data;
  edition_mode : Mode;
  edition_version : Z;
  edition_bytes : Z;
  offset_ : Z;
  complete_ : bool
}.

Definition frozen (d : Data) (m : Mode) (v b : Z) : Edition :=
  {| data_ := d; edition_mode := m; edition_version := v; edition_bytes := b; offset_ := 0; complete_ := false |}.

(** ** One page *)
Definition hard : Z := 8 * 1024 * 1024.
Definition soft : Z := 256 * 1024.

(** The page under construction and its conservative size. *)
Record Building := { rows_ : list Change; size_ : Z }.

Definition add_row (l : Line) (cost : Z) (b : Building) : Building :=
  {| rows_ := rows_ b ++ [{| key := line_key l; action := encode l |}]; size_ := size_ b + cost |}.

(** [append]. *)
Definition append (l : Line) : eff Building bool :=
  n <- lift (payload l) ;;
  if (hard <? length_of (line_key l)) || (hard <? n) then throw length_error
  else
    let cost := length_of (line_key l) + n + overhead in
    b <- read ;;
    if (hard <=? size_ b) || (hard - size_ b <? cost) then throw length_error
    else if negb (bool_decide (rows_ b = []))
            && ((256 <=? Z.of_nat (length (rows_ b))) || (soft - Z.min (size_ b) soft <? cost))
    then ret false
    else alloc ;;; modify (add_row l cost) ;;; ret true.

(** The loop over frozen changes. *)
Fixpoint append_all (ls : list Line) : eff Building Z :=
  match ls with
  | [] => ret 0
  | l :: ls =>
      more <- append l ;;
      if negb more then ret 0 else (n <- append_all ls ;; ret (n + 1))
  end.

Definition full_line (k : string) (c : option Content) : Line := {| line_key := k; line_content := c; line_data := false |}.

(** How far this page gets, and whether it is the last one. *)
Definition fill_page (e : Edition) : eff Building (bool * Z) :=
  match data_ e with
  | Blank => ret (true, 0)
  | Whole root count =>
      n <- Pages.page root (offset_ e) 256 (λ k i, append (full_line k (held i))) ;;
      ret (offset_ e + n =? count, n)
  | Point k None => ret (true, 0)
  | Point k (Some c) => append (full_line k (Some c)) ;;; ret (true, 1)
  | Lines ls =>
      n <- append_all (drop (Z.to_nat (offset_ e)) ls) ;;
      ret (offset_ e + n =? Z.of_nat (length ls), n)
  end.

(** [ByteSizeLong()] of the finished page. *)
Context (wire_size : Mode → option Z → string → list Change → Z).

Definition page_of (e : Edition) (last : bool) (instance : string) (cs : list Change) : Reply :=
  let v := if last then Some (edition_version e) else None in
  let i := if last then instance else ""%string in
  {| mode := edition_mode e; complete := last; reply_version := v; reply_instance := i; changes := cs;
     byte_size := wire_size (edition_mode e) v i cs |}.

Definition turn_page (n : Z) (last : bool) (e : Edition) : Edition :=
  {| data_ := data_ e; edition_mode := edition_mode e; edition_version := edition_version e; edition_bytes := edition_bytes e;
     offset_ := offset_ e + n; complete_ := last |}.

(** [next]: the page is a local object, an exception leaves the position alone. *)
Definition next (instance : string) : eff Edition Reply :=
  λ e f,
    if complete_ e then (Thrown logic_error, e, f)
    else if (length_of instance =? 0) || (128 <? length_of instance) then (Thrown invalid_argument, e, f)
    else
      match (x <- fill_page e ;; (if (x.1 : bool) then alloc else ret tt) ;;; ret x)
              {| rows_ := []; size_ := length_of instance + 64 |} f with
      | (Done (last, n), b, f) => (Done (page_of e last instance (rows_ b)), turn_page n last e, f)
      | (Thrown x, _, f) => (Thrown x, e, f)
      end.

(** ** Changes *)

(** By key, then by version. *)
Definition earlier (a b : Event) : Prop :=
  (String.le (event_name a) (event_name b) ∧ event_name a ≠ event_name b)
  ∨ (event_name a = event_name b ∧ event_version a <= event_version b).
#[export] Instance earlier_dec a b : Decision (earlier a b).
Proof. unfold earlier. apply _. Defined.

(** [std::ranges::sort] unless the changes are in order. *)
Definition arrange (es : list Event) : list Event :=
  if bool_decide (Sorted earlier es) then es else merge_sort earlier es.

(** The loop that merges the changes of one record. *)
Fixpoint compact_from (latest : Event) (es : list Event) : list Event :=
  match es with
  | [] => [latest]
  | e :: es => if bool_decide (event_name e = event_name latest) then compact_from (combine latest e) es else latest :: compact_from e es
  end.
Definition compact (es : list Event) : list Event := match es with [] => [] | e :: es => compact_from e es end.

Definition line_of (e : Event) : Line := {| line_key := event_name e; line_content := event_record e; line_data := event_data e |}.
Definition total_bytes (es : list Event) : Z := foldr (λ e n, event_bytes e + n) 0 es.

(** ** Construction
    The shared data is one allocation, whose failure leaves no edition. *)

(** A whole scope. *)
Definition paginate_view (v : Scene.View (Item := Item)) : Edition :=
  frozen (Whole (Scene.view_root v) (Scene.view_size v)) MODE_RESET (Scene.view_version v) (Scene.view_bytes v).

(** [sizeof(Point)] and [sizeof(Event)]. *)
Context (sizeof_point sizeof_event : Z).

(** One record, or none. *)
Definition paginate_point (k : string) (p : option Content * Z) : Edition :=
  frozen (Point k p.1) MODE_RESET p.2 (sizeof_point + length_of k + match p.1 with Some c => content_size c | None => 0 end).

(** A change that no scope can have published; names are never null here. *)
Definition improper (v : Z) (e : Event) : bool :=
  (event_version e =? 0) || (v <? event_version e) || (event_data e && negb (bool_decide (is_Some (event_record e)))).

Definition targeted (target : string) (es : list Event) : list Event :=
  if String.eqb target "" then es else filter (λ e, event_name e = target) es.

(** The changes after a cursor, in a vector of [capacity] elements. *)
Definition paginate_changes (v : Z) (es : list Event) (target : string) (capacity : Z) : outcome Edition :=
  if existsb (improper v) es then Thrown invalid_argument
  else
    let merged := compact (arrange (targeted target es)) in
    Done (frozen (Lines (line_of <$> merged)) MODE_APPLY v
            (total_bytes merged + (capacity - Z.of_nat (length merged)) * sizeof_event)).

(** ** What a page holds *)

(** A row that can be sent. *)
Record fits (l : Line) : Prop := {
  fi_key : length_of (line_key l) <= 1024;
  fi_payload : ∃ n, payload l = Done n ∧ 0 <= n <= 2 * 1024 * 1024
}.
Definition cost_of (l : Line) : Z :=
  length_of (line_key l) + match payload l with Done n => n | Thrown _ => 0 end + overhead.
Definition row_of_line (l : Line) : Change := {| key := line_key l; action := encode l |}.
Definition widest : Z := 2 * 1024 * 1024 + 1024 + 64.

Context (overhead_small : 0 < overhead <= 64).

Lemma cost_bounds l : fits l → 0 < cost_of l <= widest.
Proof.
  intros [H1 (n & Hn & Hb)]. unfold cost_of, widest. rewrite Hn. unfold length_of in *. lia.
Qed.

(** A page stays within the soft limit unless it holds a single row. *)
Record bounded_page (start : Z) (b : Building) : Prop := {
  bp_start : 64 <= start <= 192;
  bp_rows : Z.of_nat (length (rows_ b)) <= 256;
  bp_size : start <= size_ b ∧ (size_ b <= soft ∨ (length (rows_ b) <= 1)%nat ∧ size_ b <= start + widest);
  bp_empty : rows_ b = [] → size_ b = start
}.

(** Memory ran out, which it does in no reliable run. *)
Definition short (r : reliability) (x : exn) : Prop := r = Faulty ∧ x = bad_alloc.

Lemma append_wp r start l b :
  fits l → bounded_page start b →
  wp r (append l)
    (λ more b', (more = true ∧ b' = add_row l (cost_of l) b ∧ bounded_page start b') ∨ (more = false ∧ b' = b ∧ rows_ b ≠ []))
    (λ x _, short r x) b.
Proof.
  intros Hf [B1 B2 B3 B4]. pose proof (cost_bounds l Hf) as Hc. destruct Hf as [H1 (n & Hn & Hb)].
  assert (Ec : length_of (line_key l) + n + overhead = cost_of l) by (unfold cost_of; by rewrite Hn).
  assert (Htop : size_ b <= Z.max soft (start + widest)) by lia.
  unfold append. wp_step. rewrite Hn. wp_step. unfold hard, soft, widest in *.
  rewrite !(proj2 (Z.ltb_ge _ _)) by lia. cbn [orb]. cbv zeta. wp_step. wp_step. rewrite Ec.
  rewrite (proj2 (Z.leb_gt _ _)), (proj2 (Z.ltb_ge _ _)) by lia. cbn [orb].
  apply wp_if; intros E.
  - wp_step. right. split_and!; try done. apply andb_true_iff in E as [E _]. by apply negb_true_iff, bool_decide_eq_false in E.
  - wp_step. apply wp_alloc; [|done]. wp_step. wp_step. wp_step. left. split_and!; try done. apply andb_false_iff in E.
    split; cbn [rows_ size_ add_row]; [done| | |].
    + rewrite length_app. cbn. destruct E as [E|E].
      * apply negb_false_iff, bool_decide_eq_true in E. rewrite E. cbn. lia.
      * apply orb_false_iff in E as [E%Z.leb_gt _]. lia.
    + unfold soft, widest. split; [lia|]. destruct E as [E|E].
      * apply negb_false_iff, bool_decide_eq_true in E. rewrite (B4 E) in *. right. rewrite E. cbn. lia.
      * apply orb_false_iff in E as [_ E%Z.ltb_ge]. left. lia.
    + intros E'. by destruct (rows_ b).
Qed.

Lemma append_all_wp r start ls b :
  Forall fits ls → bounded_page start b →
  wp r (append_all ls)
    (λ n b', 0 <= n <= Z.of_nat (length ls) ∧ rows_ b' = rows_ b ++ (row_of_line <$> take (Z.to_nat n) ls) ∧ bounded_page start b' ∧
       size_ b' = size_ b + foldr (λ l x, cost_of l + x) 0 (take (Z.to_nat n) ls) ∧ (n < Z.of_nat (length ls) → rows_ b' ≠ []))
    (λ x _, short r x) b.
Proof.
  revert b. induction ls as [|l ls IH]; intros b Hf Hb; cbn [append_all].
  { wp_step. change (Z.to_nat 0) with 0%nat. cbn [take fmap list_fmap foldr length]. rewrite app_nil_r. split_and!; try done; intros; lia. }
  apply Forall_cons in Hf as [Hl Hf]. wp_step. eapply wp_mono; [by apply append_wp| |done].
  intros more b' [(-> & -> & Hb')|(-> & -> & Hne)]; cbn [negb].
  - wp_step. eapply wp_mono; [by apply IH| |done]. intros n b'' (H1 & H2 & H3 & H4 & H5). wp_step.
    replace (Z.to_nat (n + 1)) with (S (Z.to_nat n)) by lia. cbn [take fmap list_fmap foldr length]. split_and!; [lia|lia| |done| |].
    + rewrite H2. cbn [add_row rows_]. by rewrite <- app_assoc.
    + rewrite H4. cbn [add_row size_]. lia.
    + intros Hlt. apply H5. lia.
  - wp_step. change (Z.to_nat 0) with 0%nat. cbn [take fmap list_fmap foldr]. rewrite app_nil_r. split_and!; try done; cbn; lia.
Qed.

(** The rows of a captured index, in the order of its pages. *)
Definition enumerates (root : pages string Item) (l : list (string * Item)) : Prop :=
  ∀ (reader : string → Item → eff Building bool) offset maximum st f, 0 <= offset <= Z.of_nat (length l) → 0 <= maximum →
    Pages.page root offset maximum reader st f = deliver reader (take (Z.to_nat maximum) (drop (Z.to_nat offset) l)) st f.

Definition full_lines (l : list (string * Item)) : list Line := (λ x, full_line x.1 (held x.2)) <$> l.

(** The batch consists of these rows. *)
Definition carries (d : Data) (ls : list Line) : Prop :=
  match d with
  | Blank => ls = []
  | Whole root count => ∃ l, enumerates root l ∧ count = Z.of_nat (length l) ∧ ls = full_lines l
  | Point k None => ls = []
  | Point k (Some c) => ls = [full_line k (Some c)]
  | Lines ls' => ls = ls'
  end.

Lemma deliver_append l st f : deliver (λ k i, append (full_line k (held i))) l st f = append_all (full_lines l) st f.
Proof.
  revert st f. induction l as [|[k i] l IH]; intros st f; [done|]. cbn [deliver append_all full_lines fmap list_fmap fst snd].
  unfold bind at 1 3. destruct (append _ st f) as [[[more|x] st'] f']; [|done]. destruct more; [|done]. cbn [negb]. unfold bind. by rewrite IH.
Qed.

(** Where a page of the batch ends. *)
Record page_step (e : Edition) (ls : list Line) (start : Z) (last : bool) (n : Z) (b : Building) : Prop := {
  ps_count : 0 <= n <= 256;
  ps_last : last = (offset_ e + n =? Z.of_nat (length ls));
  ps_within : offset_ e + n <= Z.of_nat (length ls);
  ps_rows : rows_ b = row_of_line <$> take (Z.to_nat n) (drop (Z.to_nat (offset_ e)) ls);
  ps_some : last = false → rows_ b ≠ [];
  ps_bytes : size_ b = start + foldr (λ l x, cost_of l + x) 0 (take (Z.to_nat n) (drop (Z.to_nat (offset_ e)) ls));
  ps_bounded : bounded_page start b
}.

Lemma page_step_of e ls start more n b :
  Forall fits ls → 0 <= offset_ e <= Z.of_nat (length ls) → more `prefix_of` drop (Z.to_nat (offset_ e)) ls →
  (more = drop (Z.to_nat (offset_ e)) ls ∨ length more = 256%nat) →
  0 <= n <= Z.of_nat (length more) → rows_ b = row_of_line <$> take (Z.to_nat n) more → bounded_page start b →
  size_ b = start + foldr (λ l x, cost_of l + x) 0 (take (Z.to_nat n) more) → (n < Z.of_nat (length more) → rows_ b ≠ []) →
  page_step e ls start (offset_ e + n =? Z.of_nat (length ls)) n b.
Proof.
  intros Hf Ho [rest Hpre] Hmore Hn Hrows Hb Hs Hne.
  assert (Hlen : Z.of_nat (length more) + Z.of_nat (length rest) = Z.of_nat (length ls) - offset_ e).
  { apply (f_equal length) in Hpre. rewrite length_drop, length_app in Hpre. lia. }
  assert (Htake : take (Z.to_nat n) (drop (Z.to_nat (offset_ e)) ls) = take (Z.to_nat n) more).
  { rewrite Hpre. rewrite take_app_le; [done|lia]. }
  assert (Hrl : length (rows_ b) = Z.to_nat n) by (rewrite Hrows, length_fmap, length_take; lia).
  split; rewrite ?Htake; try done; [pose proof (bp_rows _ _ Hb); lia|lia|].
  intros E%Z.eqb_neq. destruct (decide (n < Z.of_nat (length more))); [by apply Hne|]. intros E0. rewrite E0 in Hrl. cbn in Hrl.
  assert (n = 0) by lia. destruct Hmore as [Hm|Hm]; [|lia]. apply (f_equal length) in Hm. rewrite length_drop in Hm. lia.
Qed.

Lemma fill_page_wp r e ls start b :
  carries (data_ e) ls → Forall fits ls → 0 <= offset_ e <= Z.of_nat (length ls) →
  (∀ k c, data_ e = Point k (Some c) → offset_ e = 0) → bounded_page start b → rows_ b = [] →
  wp r (fill_page e) (λ x b', page_step e ls start x.1 x.2 b') (λ x _, short r x) b.
Proof.
  intros Hc Hf Ho Hp Hb Hb0. pose proof (bp_empty _ _ Hb Hb0) as Hs. assert (Hd : Forall fits (drop (Z.to_nat (offset_ e)) ls)) by (by apply Forall_drop).
  assert (Hnil : ls = [] → page_step e ls start true 0 b).
  { intros ->. cbn in Ho. assert (E0 : offset_ e = 0) by lia. split; rewrite ?E0; change (Z.to_nat 0) with 0%nat; cbn; try done; lia. }
  unfold fill_page. destruct (data_ e) as [|root count|k [c|]|ls']; cbn [carries] in Hc.
  - wp_step. by apply Hnil.
  - destruct Hc as (l & He & -> & ->). wp_step. set (more := take 256 (drop (Z.to_nat (offset_ e)) l)).
    apply wp_mono with (Q := λ n b', 0 <= n <= Z.of_nat (length (full_lines more)) ∧
      rows_ b' = rows_ b ++ (row_of_line <$> take (Z.to_nat n) (full_lines more)) ∧ bounded_page start b' ∧
      size_ b' = size_ b + foldr (λ l x, cost_of l + x) 0 (take (Z.to_nat n) (full_lines more)) ∧
      (n < Z.of_nat (length (full_lines more)) → rows_ b' ≠ [])) (E := λ x _, short r x); [| |done].
    + intros f Hf'. rewrite He; [|unfold full_lines in Ho; rewrite length_fmap in Ho; lia|lia]. rewrite deliver_append. change (Z.to_nat 256) with 256%nat. fold more.
      apply (append_all_wp r start (full_lines more) b); [|done|done]. unfold more, full_lines. rewrite fmap_take, fmap_drop. by apply Forall_take.
    + intros n b' (H1 & H2 & H3 & H4 & H5). wp_step. cbn [fst snd]. rewrite Hb0 in H2. rewrite Hs in H4.
      replace (Z.of_nat (length l)) with (Z.of_nat (length (full_lines l))) by (unfold full_lines; by rewrite length_fmap).
      apply (page_step_of e (full_lines l) start (full_lines more)); try done.
      * unfold more, full_lines. rewrite fmap_take, fmap_drop. apply prefix_take.
      * unfold more, full_lines. rewrite fmap_take, fmap_drop. set (x := drop _ _). destruct (decide (length x <= 256)%nat); [left; by apply take_ge|right].
        rewrite length_take. lia.
  - subst ls. wp_step. rewrite (Hp k c eq_refl) in *. eapply wp_mono; [apply (append_wp r start (full_line k (Some c)) b); [by rewrite Forall_singleton in Hf|done]| |done].
    intros more b' [(-> & -> & Hb')|(_ & _ & Hne)]; [|by rewrite Hb0 in Hne]. wp_step. cbn [fst snd].
    split; cbn [add_row rows_ size_]; rewrite ?(Hp k c eq_refl), ?Hb0; change (Z.to_nat 0) with 0%nat; change (Z.to_nat 1) with 1%nat; cbn; try done; lia.
  - wp_step. by apply Hnil.
  - subst ls'. wp_step. eapply wp_mono; [by apply (append_all_wp r start)| |done]. intros n b' (H1 & H2 & H3 & H4 & H5). wp_step. cbn [fst snd].
    rewrite Hb0 in H2. rewrite Hs in H4. eapply page_step_of; try done. by left.
Qed.
(** ** A whole batch *)
Record sending (e : Edition) (ls : list Line) : Prop := {
  sn_carries : carries (data_ e) ls;
  sn_offset : 0 <= offset_ e <= Z.of_nat (length ls);
  sn_point : ∀ k c, data_ e = Point k (Some c) → complete_ e = false → offset_ e = 0;
  sn_complete : complete_ e = true → offset_ e = Z.of_nat (length ls)
}.

Lemma frozen_sending d m v b ls : carries d ls → sending (frozen d m v b) ls.
Proof. intros Hc. split; cbn; [done|lia|done|done]. Qed.

Definition serving_name (instance : string) : Prop := 0 < length_of instance <= 128.

(** The page starts where the last one ended. *)
Definition next_page (instance : string) (e : Edition) (ls : list Line) (page : Reply) (e' : Edition) : Prop := ∃ n b,
  page_step e ls (length_of instance + 64) (complete page) n b ∧ page = page_of e (complete page) instance (rows_ b) ∧
  e' = turn_page n (complete page) e ∧ sending e' ls.

Lemma next_wp r instance e ls :
  serving_name instance → sending e ls → Forall fits ls → complete_ e = false →
  wp r (next instance) (next_page instance e ls) (λ x e', short r x ∧ e' = e) e.
Proof.
  intros [I1 I2] [S1 S2 S3 S4] Hf Hc f Hfa. unfold next. rewrite Hc. rewrite (proj2 (Z.eqb_neq _ _)), (proj2 (Z.ltb_ge _ _)) by lia. cbn [orb].
  set (b0 := {| rows_ := []; size_ := length_of instance + 64 |}).
  assert (Hb : bounded_page (length_of instance + 64) b0) by (split; cbn; unfold soft, widest; lia).
  assert (Hw : wp r (x <- fill_page e ;; (if (x.1 : bool) then alloc else ret tt) ;;; ret x)
    (λ x b', page_step e ls (length_of instance + 64) x.1 x.2 b') (λ x _, short r x) b0).
  { wp_step. eapply wp_mono; [apply (fill_page_wp r e ls); try done; intros k c Ed; by apply (S3 k c)| |done].
    intros [last n] b' Hp. cbn [fst snd] in *. wp_step. destruct last; [apply wp_alloc; [|done]|wp_step]; by wp_step. }
  specialize (Hw f Hfa). destruct (bind _ _ b0 f) as [[[[last n]|x] b] f']; destruct Hw as [Hfa' Hw]; [|done].
  split; [done|]. cbn [fst snd] in Hw. exists n, b. split_and!; try done. destruct Hw as [P1 P2 P3 P4 P5 P6 P7]. cbn [complete page_of]. split; cbn [data_ offset_ complete_ turn_page].
  - done.
  - lia.
  - intros k c Ed El. subst last. destruct (data_ e) as [| |? [?|]|]; try done. cbn in S1. subst ls. cbn in *. exfalso. rewrite (S3 _ _ eq_refl Hc) in *.
    apply Z.eqb_neq in El. destruct (decide (n = 0)) as [->|]; [|lia]. by apply P5.
  - intros ->. symmetry in P2. by apply Z.eqb_eq in P2.
Qed.

(** Pages are asked for until the batch is complete; an attempt that runs out of memory
    may be repeated. *)
Definition attempt (instance : string) (st : Edition * list Reply) (f : faults) : Edition * list Reply :=
  if complete_ st.1 then st
  else match next instance st.1 f with
       | (Done page, e, _) => (e, st.2 ++ [page])
       | (Thrown _, e, _) => (e, st.2)
       end.

(** The encoded page is within the soft limit, or it holds a single row. *)
Definition page_small (page : Reply) : Prop :=
  byte_size page <= soft ∨ (length (changes page) <= 1)%nat ∧ byte_size page <= 192 + widest.

(** What every page respects. *)
Record page_fine (e : Edition) (page : Reply) : Prop := {
  pf_mode : mode page = edition_mode e;
  pf_count : Z.of_nat (length (changes page)) <= 256;
  pf_some : complete page = false → changes page ≠ [] ∧ reply_version page = None ∧ reply_instance page = ""%string
}.
Definition last_page (instance : string) (e : Edition) (page : Reply) : Prop :=
  complete page = true ∧ reply_version page = Some (edition_version e) ∧ reply_instance page = instance.

(** The pages so far: none but the last of a finished batch is complete. *)
Record sent (instance : string) (e0 : Edition) (ls : list Line) (st : Edition * list Reply) : Prop := {
  se_sending : sending st.1 ls;
  se_same : edition_mode st.1 = edition_mode e0 ∧ edition_version st.1 = edition_version e0;
  se_rows : concat (changes <$> st.2) = row_of_line <$> take (Z.to_nat (offset_ st.1)) ls;
  se_fine : Forall (page_fine e0) st.2;
  se_sizes : Forall page_small st.2;
  se_open : if complete_ st.1 then ∃ ps p, st.2 = ps ++ [p] ∧ Forall (λ q, complete q = false) ps ∧ last_page instance e0 p
            else Forall (λ q, complete q = false) st.2;
  se_steps : complete_ st.1 = false → Z.of_nat (length st.2) <= offset_ st.1
}.

(** The encoded size of a page, an upper bound of which the code computes row by row. *)
Context (wire_frugal : ∀ m v i ls, Forall fits ls → wire_size m v i (row_of_line <$> ls) <= length_of i + 64 + foldr (λ l x, cost_of l + x) 0 ls).

Lemma attempt_sent instance e0 ls st f :
  serving_name instance → Forall fits ls → sent instance e0 ls st → sent instance e0 ls (attempt instance st f).
Proof.
  intros Hi Hf [T1 [T2 T2'] T3 T4 T5 T6 T7]. unfold attempt. destruct (complete_ st.1) eqn:Ec; [split; rewrite ?Ec; done|].
  pose proof (next_wp Faulty instance st.1 ls Hi T1 Hf Ec f I) as Hn. destruct st as [e ps]. cbn [fst snd] in *.
  destruct (next instance e f) as [[[page|x] e'] f']; destruct Hn as [_ Hn]; [|destruct Hn as [_ ->]; split; cbn [fst snd]; rewrite ?Ec; done].
  destruct Hn as (n & b & [P1 P2 P3 P4 P5 P6 [Q1 Q2 Q3 Q4]] & Ep & -> & Hs).
  assert (Epage : mode page = edition_mode e ∧ changes page = rows_ b ∧
    reply_version page = (if complete page then Some (edition_version e) else None) ∧ reply_instance page = (if complete page then instance else ""%string) ∧
    byte_size page = wire_size (edition_mode e) (reply_version page) (reply_instance page) (rows_ b)).
  { revert Ep. generalize (complete page). intros last ->. done. }
  destruct Epage as (Em & Ech & Ev & Ei & Eb). clear Ep. pose proof (sn_offset _ _ T1) as Ho.
  assert (Hlen : Z.of_nat (length (rows_ b)) = n) by (rewrite P4, length_fmap, length_take, length_drop; lia).
  split; cbn [fst snd turn_page edition_mode edition_version complete_ offset_]; try done.
  - rewrite fmap_app, concat_app, T3. cbn. rewrite app_nil_r, Ech, P4, <- fmap_app. f_equal.
    replace (Z.to_nat (offset_ e + n)) with (Z.to_nat (offset_ e) + Z.to_nat n)%nat by lia. by rewrite take_take_drop.
  - apply Forall_app. split; [done|]. apply Forall_singleton. split; [congruence|rewrite Ech; lia|]. intros El. rewrite Ech, Ev, Ei, El. by split; [apply P5|].
  - apply Forall_app. split; [done|]. apply Forall_singleton.
    assert (byte_size page <= size_ b); [|destruct Hi, Q3 as [_ [?|[? ?]]]; [left|right]; rewrite ?Ech; unfold widest in *; lia].
    rewrite Eb, P4. etrans; [apply wire_frugal; by apply Forall_take, Forall_drop|]. destruct Hi.
    assert (length_of (reply_instance page) <= length_of instance); [|lia]. rewrite Ei. destruct (complete page); [done|]. unfold length_of in *. cbn. lia.
  - destruct (complete page) eqn:El.
    + exists ps, page. split_and!; [done|done|]. split_and!; [done|by rewrite Ev, T2'|done].
    + apply Forall_app. split; [done|]. by apply Forall_singleton.
  - intros El. rewrite length_app. cbn. specialize (T7 eq_refl). destruct (rows_ b) eqn:Er; [by destruct (P5 El)|]. cbn in Hlen. lia.
Qed.
(** Each reliable attempt adds a page until the batch is complete. *)
Lemma attempt_progress instance e0 ls st :
  serving_name instance → Forall fits ls → sent instance e0 ls st → complete_ st.1 = false →
  length (attempt instance st []).2 = S (length st.2).
Proof.
  intros Hi Hf Ht Ec. pose proof (wp_reliable_run _ _ _ _ (next_wp Reliable instance st.1 ls Hi (se_sending _ _ _ _ Ht) Hf Ec)) as Hn.
  unfold attempt. rewrite Ec. destruct (next instance st.1 []) as [[[page|x] e'] f']; [|by destruct Hn as [[? _] _]].
  cbn. rewrite length_app. cbn. lia.
Qed.

Lemma attempt_grows instance st f : complete_ st.1 = false → (length st.2 <= length (attempt instance st f).2)%nat.
Proof.
  intros Ec. unfold attempt. rewrite Ec. destruct (next instance st.1 f) as [[[page|x] e'] f']; cbn; [rewrite length_app|]; lia.
Qed.

(** The attempts that had the memory they needed. *)
Definition undisturbed_by (f : faults) : nat := match f with [] => 1 | _ => 0 end.
Definition reliable (fs : list faults) : nat := foldr (λ f n, undisturbed_by f + n)%nat 0%nat fs.

Lemma reliable_snoc fs f : reliable (fs ++ [f]) = (reliable fs + undisturbed_by f)%nat.
Proof. unfold reliable. induction fs as [|g fs IH]; cbn [foldr app]; [lia|]. rewrite IH. lia. Qed.

Lemma attempts_sent instance e ls fs :
  serving_name instance → Forall fits ls → sending e ls → offset_ e = 0 → complete_ e = false →
  let st := foldl (attempt instance) (e, []) fs in
  sent instance e ls st ∧ (complete_ st.1 = false → (reliable fs <= length st.2)%nat).
Proof.
  intros Hi Hf Hs Ho Hc. cbv zeta. induction fs as [|f fs [IH1 IH2]] using rev_ind.
  { split; [|done]. split; cbn [foldl fst snd fmap list_fmap concat]; rewrite ?Hc, ?Ho; done. }
  rewrite foldl_app. cbn [foldl]. split; [by apply attempt_sent|]. intros Ec. rewrite reliable_snoc.
  set (st := foldl (attempt instance) (e, []) fs) in *. destruct (complete_ st.1) eqn:E0.
  { assert (E1 : attempt instance st f = st) by (unfold attempt; by rewrite E0). congruence. }
  specialize (IH2 eq_refl). destruct f as [|x f]; cbn [undisturbed_by].
  - rewrite (attempt_progress instance e ls) by done. lia.
  - pose proof (attempt_grows instance st (x :: f) E0). lia.
Qed.

(** A finished batch. *)
Record delivered (instance : string) (e : Edition) (ls : list Line) (pages : list Reply) : Prop := {
  de_rows : concat (changes <$> pages) = row_of_line <$> ls;
  de_fine : Forall (page_fine e) pages;
  de_sizes : Forall page_small pages;
  de_last : ∃ ps p, pages = ps ++ [p] ∧ Forall (λ q, complete q = false) ps ∧ last_page instance e p
}.

Lemma sent_delivered instance e ls st : sent instance e ls st → complete_ st.1 = true → delivered instance e ls st.2.
Proof.
  intros [T1 T2 T3 T4 T5 T6 T7] Ec. rewrite Ec in T6. split; try done. rewrite T3, (sn_complete _ _ T1 Ec), Nat2Z.id. by rewrite take_ge.
Qed.

(** C34. A frozen batch is sent exactly once, page by page.  However often a page is
    asked for and whichever allocation fails meanwhile, the pages returned so far hold
    the first rows of the batch in order, each at most 256 of them; none but the last
    one is complete, and it carries the version and the instance; a page of two rows or
    more is within the soft limit of 256 KiB, and a page of one row within what one row
    can take.  A page that is not the last is never empty, and with one undisturbed
    attempt more than there are rows the batch is complete and all its rows were sent.
    Assumed: the rows have keys of at most 1 KiB and payloads of at most 2 MiB, the name
    of the instance has 1 to 128 bytes, and an encoded page takes no more than the code
    reckons for its rows ([wire_frugal]). *)
Theorem edition_pages (instance : string) (e : Edition) (ls : list Line) (fs : list faults) :
  serving_name instance → carries (data_ e) ls → Forall fits ls → offset_ e = 0 → complete_ e = false →
  let st := foldl (attempt instance) (e, []) fs in
  concat (changes <$> st.2) = row_of_line <$> take (Z.to_nat (offset_ st.1)) ls ∧
  Forall (page_fine e) st.2 ∧ Forall page_small st.2 ∧
  (if complete_ st.1 then delivered instance e ls st.2 else Forall (λ page, complete page = false) st.2) ∧
  ((length ls < reliable fs)%nat → complete_ st.1 = true).
Proof.
  intros Hi Hc Hf Ho He. assert (Hs : sending e ls) by (split; rewrite ?Ho; [done|lia|done|congruence]).
  pose proof (attempts_sent instance e ls fs Hi Hf Hs Ho He) as [Ht Hn]. cbv zeta in *.
  set (st := foldl _ _ _) in *. split_and!; [apply Ht..| |]; destruct (complete_ st.1) eqn:Ec; [by apply sent_delivered| |done|].
  - pose proof (se_open _ _ _ _ Ht) as Hopen. by rewrite Ec in Hopen.
  - intros Hlen. specialize (Hn eq_refl). pose proof (se_steps _ _ _ _ Ht Ec). pose proof (sn_offset _ _ (se_sending _ _ _ _ Ht)). lia.
Qed.
End edition.

Arguments Encoding : clear implicits.
Arguments Encoding {domain} Content.
Arguments Data : clear implicits.
Arguments Edition : clear implicits.
