(* ===== verification/Encodings.v ===== *)
(** How the three domains fill the pages of [Edition]: [Catalog::Encoding]
    ([star/src/catalog_edition.hpp] and [.cpp]), [Ephemeris::Encoding]
    ([ephemeris_edition.hpp] and [.cpp]), and the Almanac's own [Edition::append] with
    its constructors ([edition.cpp]). *)
From stdpp Require Import base numbers strings gmap list.
From S2P Require Import Prelude.
From S2P Require Import Scope.
From S2P Require Import Pages.
From S2P Require Import Scene.
From S2P Require Import Table.
From S2P Require Import Stream.
From S2P Require Import Edition.
From S2P Require Import Projection.
From S2P Require Import Subscription.
From S2P Require Import Selection.
From S2P Require Import Ephemeris.
From S2P Require Import Almanac.
From S2P Require Import CatalogState.

(** A pointer that a check has shown to be set; [size()] of what it points to. *)
Definition size_at (v : Value) : Z := match v with Some b => buffer_size b | None => 0 end.
Definition is_null (v : Value) : bool := negb (bool_decide (is_Some v)).

Section domains.
(** [sizeof(std::vector)] of the client. *)
Context (sizeof_vector : Z).

(** ** Catalog *)
Section catalog.
#[local] Instance catalog_side : Domain := Subscription.catalog sizeof_vector.

Definition catalog_payload (l : Line (Content := Content)) : outcome Z :=
  if negb (text (line_key l) 1024)
     || match line_content l with Some c => is_null (content_value c) || (content_version c =? 0) | None => false end
  then Thrown invalid_argument
  else Done (match line_content l with Some c => size_at (content_value c) | None => 0 end).

(** The value was found present by [catalog_payload]; without it nothing is set. *)
Definition catalog_encode (l : Line (Content := Content)) : CatalogAction :=
  match line_content l with
  | None => {| Subscription.change_version := 0; action_case := catalog_kErase |}
  | Some c =>
      {| Subscription.change_version := content_version c;
         action_case := match content_value c with Some b => catalog_kValue b | None => catalog_ACTION_NOT_SET end |}
  end.

(** [merge]: every increment is complete. *)
Definition catalog_merge (previous current : Scene.Event (Item := Content)) : Scene.Event (Item := Content) := current.

Definition catalog_encoding : Encoding Content :=
  {| overhead := 48; content_size := λ c, size_at (content_value c); payload := catalog_payload;
     encode := catalog_encode; combine := catalog_merge |}.

(** [target]. *)
Definition catalog_target (k : string) : bool := text k 1024.
End catalog.

(** ** Ephemeris *)

(** [Ephemeris::State::Content]. *)
Record Registered := { content_attr : Value; content_data : Value }.

Section ephemeris.
#[local] Instance ephemeris_side : Domain := Selection.ephemeris sizeof_vector.

Definition ephemeris_valid (k : string) : bool := valid_uuid (Scope.bytes k).

Definition ephemeris_payload (l : Line (Content := Registered)) : outcome Z :=
  if negb (ephemeris_valid (line_key l))
     || match line_content l with Some c => is_null (content_attr c) || is_null (content_data c) | None => false end
  then Thrown invalid_argument
  else Done (match line_content l with
             | Some c => size_at (content_data c) + (if line_data l then 0 else size_at (content_attr c))
             | None => 0
             end).

Definition ephemeris_encode (l : Line (Content := Registered)) : EphemerisAction :=
  match line_content l with
  | None => kErased
  | Some c =>
      match content_attr c, content_data c with
      | Some a, Some d => if line_data l then kData d else kRecord a d
      | _, _ => kNone
      end
  end.

(** [merge]: the attribute must be sent when it is not known that the client has it. *)
Definition ephemeris_merge (previous current : Scene.Event (Item := Registered)) : Scene.Event (Item := Registered) :=
  if bool_decide (is_Some (event_record current)) && (negb (bool_decide (is_Some (event_record previous))) || negb (event_data previous))
  then {| event_name := event_name current; event_record := event_record current; event_version := event_version current;
          event_data := false; event_bytes := event_bytes current; event_stored := event_stored current |}
  else current.

Definition ephemeris_encoding : Encoding Registered :=
  {| overhead := 48; content_size := λ c, size_at (content_attr c) + size_at (content_data c);
     payload := ephemeris_payload; encode := ephemeris_encode; combine := ephemeris_merge |}.

Definition ephemeris_target (k : string) : bool := ephemeris_valid k.
End ephemeris.

(** ** Almanac *)
Section almanac.
#[local] Instance almanac_side : Domain := Projection.almanac sizeof_vector.

Definition almanac_encode (l : Line (Content := Buffer)) : AlmanacAction :=
  match line_content l with Some b => kValue b | None => kErase end.

Definition almanac_merge (previous current : Scene.Event (Item := Buffer)) : Scene.Event (Item := Buffer) := current.

Definition almanac_encoding : Encoding Buffer :=
  {| overhead := 32; content_size := buffer_size; payload := λ l, Done (size_at (line_content l));
     encode := almanac_encode; combine := almanac_merge |}.
#[local] Existing Instance almanac_encoding.

Abbreviation Announcement := (Edition.Edition Buffer Cell).

(** [Edition()]: the authority has no such scope. *)
Definition edition_blank : Announcement := frozen Blank MODE_RESET 0 0.

Definition edition_view (v : Almanac.View) : Announcement :=
  frozen (Whole (Almanac.root v) (Almanac.view_size v)) MODE_RESET (Almanac.view_version v) (Almanac.view_bytes v).

Definition edition_point (k : string) (p : Z * Value) : Announcement :=
  frozen (Point k p.2) MODE_RESET p.1 (match p.2 with Some b => length_of k + buffer_size b | None => 0 end).

(** A change as the generic code sees it. *)
Definition event_of (c : Almanac.Change) : Scene.Event (Item := Buffer) :=
  {| event_name := change_key c; event_record := change_value c; event_version := Almanac.change_version c; event_data := false;
     event_bytes := change_bytes c; event_stored := 0 |}.

(** [std::ranges::find_if] over the reversed changes. *)
Definition last_of (target : string) (cs : list Almanac.Change) : option Almanac.Change :=
  last (filter (λ c, change_key c = target) cs).

(** [Edition(Replay, target)], the changes in a vector of [capacity] elements. *)
Definition edition_replay (replay : Z * list Almanac.Change) (target : string) (capacity : Z) : Announcement :=
  if String.eqb target "" then
    let kept := compact (arrange (event_of <$> replay.2)) in
    frozen (Lines (line_of <$> kept)) MODE_APPLY replay.1 (Edition.total_bytes kept + (capacity - Z.of_nat (length kept)) * sizeof_change)
  else
    match last_of target replay.2 with
    | Some c => frozen (Lines [line_of (event_of c)]) MODE_APPLY replay.1 (change_bytes c)
    | None => frozen Blank MODE_APPLY replay.1 0
    end.

(** [Edition::next] is the generic one over cells. *)
Definition edition_next (wire_size : Mode → option Z → string → list Stream.Change → Z) : string → eff Announcement Reply :=
  next cell_value wire_size.
End almanac.
End domains.
