(* ===== verification/Delivery.v ===== *)
(** From a Star to a client: the rows of [Edition] read by the projections of [Stream].

    The class [Delivers] says what a domain's encoding promises to the client's
    [switch]: a complete row is its record, a row with the changing part alone is
    understood where the record is known, an erasure erases.  From it follow that
    merging the changes of a record loses nothing, that the pages of a batch never
    offend the client's protocol, and that a client which consumes them shows what the
    Star captured. *)
From stdpp Require Import base numbers strings gmap list sorting.
From S2P Require Import Prelude.
From S2P Require Import Scope.
From S2P Require Import Pages.
From S2P Require Import Index.
From S2P Require Import Scene.
From S2P Require Import Table.
From S2P Require Import Stream.
From S2P Require Import Acceptance.
From S2P Require Import Edition.

(** ** Merging *)
Section compaction.
Context {domain : Domain} {Content : Type} {encoding : Encoding Content}.
Abbreviation Event := (Scene.Event (Item := Content)).
Implicit Types (es : list Event) (k : string).

(** The changes of one record. *)
Definition of_key k es : list Event := filter (λ e, event_name e = k) es.

Context (combine_name : ∀ p c : Event, event_name (combine p c) = event_name c).

#[local] Instance name_le_trans : Transitive (λ a b : Event, String.le (event_name a) (event_name b)).
Proof. intros a b c. apply (transitivity (R := String.le)). Qed.

Definition by_name es : Prop := StronglySorted (λ a b : Event, String.le (event_name a) (event_name b)) es.

Lemma compact_from_spec es latest :
  Forall (λ e, String.le (event_name latest) (event_name e)) es → by_name es →
  compact_from latest es =
    foldl combine latest (of_key (event_name latest) es) :: compact (filter (λ e, event_name e ≠ event_name latest) es).
Proof.
  revert latest. induction es as [|e es IH]; intros latest Hle Hs; [done|].
  apply Forall_cons in Hle as [He Hle]. apply StronglySorted_inv in Hs as [Hs Hall]. cbn [compact_from].
  unfold of_key. rewrite !filter_cons. destruct (bool_decide_reflect (event_name e = event_name latest)) as [E|E].
  - rewrite decide_True by done. rewrite decide_False by (intros H; by apply H). cbn [foldl].
    rewrite IH; rewrite ?combine_name; [by rewrite E|done|done].
  - rewrite decide_False by done. rewrite decide_True by done.
    assert (Hnone : Forall (λ x, event_name x ≠ event_name latest) es).
    { apply Forall_forall. intros x Hx E'. rewrite Forall_forall in Hall. specialize (Hall x Hx). rewrite E' in Hall.
      apply E. by apply (anti_symm String.le). }
    assert (F1 : filter (λ e, event_name e = event_name latest) es = []).
    { destruct (filter _ es) as [|x l] eqn:Ef; [done|]. assert (Hx : x ∈ filter (λ e, event_name e = event_name latest) es) by (rewrite Ef; left).
      apply list_elem_of_filter in Hx as [? Hx]. rewrite Forall_forall in Hnone. by destruct (Hnone x Hx). }
    assert (F2 : filter (λ e, event_name e ≠ event_name latest) es = es).
    { clear -Hnone. induction Hnone as [|x l Hx Hl IHl]; [done|]. rewrite filter_cons, decide_True by done. by rewrite IHl. }
    rewrite F1, F2. done.
Qed.

Lemma by_name_filter (P : Event → Prop) `{!∀ e, Decision (P e)} es : by_name es → by_name (filter P es).
Proof.
  induction 1 as [|e es Hs IH Hall]; [constructor|]. rewrite filter_cons. destruct (decide (P e)); [|done].
  constructor; [done|]. apply Forall_forall. intros x [_ Hx]%list_elem_of_filter. rewrite Forall_forall in Hall. by apply Hall.
Qed.

(** The merged changes: one of each record that changed, the merger of all of its own. *)
Record merged es (ms : list Event) : Prop := {
  me_names : NoDup (event_name <$> ms);
  me_known : ∀ k, k ∈ event_name <$> ms ↔ of_key k es ≠ [];
  me_event : ∀ m, m ∈ ms → ∃ e rest, of_key (event_name m) es = e :: rest ∧ m = foldl combine e rest
}.

Lemma fold_combine_name (e : Event) rest : Forall (λ x, event_name x = event_name e) rest → event_name (foldl combine e rest) = event_name e.
Proof.
  revert e. induction rest as [|x rest IH]; intros e Hr; [done|]. apply Forall_cons in Hr as [Hx Hr]. cbn [foldl].
  rewrite IH; rewrite combine_name; [done|]. by rewrite Hx.
Qed.

Lemma of_key_names k es : Forall (λ x, event_name x = k) (of_key k es).
Proof. apply Forall_forall. by intros x [? _]%list_elem_of_filter. Qed.

Lemma of_key_other k j es : k ≠ j → of_key k (filter (λ e, event_name e ≠ j) es) = of_key k es.
Proof.
  intros Hne. unfold of_key. rewrite list_filter_filter. apply list_filter_iff. intros e. split; [by intros [? _]|]. intros ->. done.
Qed.

Lemma compact_merged es : by_name es → merged es (compact es).
Proof.
  remember (length es) as n eqn:En. revert es En. induction (lt_wf n) as [n _ IH]. intros es -> Hs.
  destruct es as [|e es]; [split; cbn; [constructor|intros k; set_solver|set_solver]|].
  pose proof Hs as [Hs' Hall]%StronglySorted_inv. cbn [compact]. rewrite compact_from_spec by done.
  set (later := filter (λ x, event_name x ≠ event_name e) es).
  assert (Hk : ∀ k, of_key k (e :: es) = if decide (k = event_name e) then e :: of_key k es else of_key k later).
  { intros k. unfold of_key at 1. rewrite filter_cons. destruct (decide (k = event_name e)) as [->|Hne]; [by rewrite decide_True|].
    rewrite decide_False by done. unfold later. symmetry. by apply of_key_other. }
  destruct (IH (length later)) with (es := later) as [M1 M2 M3]; [| |by apply by_name_filter|].
  { unfold later. cbn. pose proof (length_filter (λ x, event_name x ≠ event_name e) es). lia. }
  { done. }
  assert (Hn : event_name (foldl combine e (of_key (event_name e) es)) = event_name e) by (apply fold_combine_name, of_key_names).
  assert (Hfresh : event_name e ∉ event_name <$> compact later).
  { rewrite M2. intros []. destruct (of_key (event_name e) later) as [|x l] eqn:Ef; [done|].
    assert (Hx : x ∈ of_key (event_name e) later) by (rewrite Ef; left). unfold of_key, later in Hx.
    by apply list_elem_of_filter in Hx as [? [? _]%list_elem_of_filter]. }
  split.
  - rewrite fmap_cons, Hn. by constructor.
  - intros k. rewrite fmap_cons, Hn, elem_of_cons, Hk, M2. destruct (decide (k = event_name e)) as [->|]; naive_solver.
  - intros m [->|Hm]%elem_of_cons.
    + rewrite Hn, Hk, decide_True by done. eauto.
    + rewrite Hk. rewrite decide_False; [by apply M3|]. intros E. apply Hfresh. rewrite <- E. by apply list_elem_of_fmap_2.
Qed.

#[local] Instance earlier_trans : Transitive (earlier (Content := Content)).
Proof.
  intros a b c [[H1 H2]|[H1 H2]] [[H3 H4]|[H3 H4]]; unfold earlier.
  - left. split; [by etrans|]. intros E. rewrite E in H1. apply H4. by apply (anti_symm String.le).
  - left. by rewrite <- H3.
  - left. by rewrite H1.
  - right. split; [congruence|lia].
Qed.

#[local] Instance earlier_total : Total (earlier (Content := Content)).
Proof.
  intros a b. unfold earlier. destruct (decide (event_name a = event_name b)) as [E|E].
  - destruct (Z.le_ge_cases (event_version a) (event_version b)); [left|right]; right; split; congruence || lia.
  - destruct (base.total String.le (event_name a) (event_name b)); [left|right]; left; split; congruence || done.
Qed.

Lemma arrange_sorted es : StronglySorted earlier (arrange es) ∧ arrange es ≡ₚ es.
Proof.
  unfold arrange. destruct (bool_decide_reflect (Sorted earlier es)); [split; [apply Sorted_StronglySorted; [apply earlier_trans|done]|done]|].
  split; [apply (StronglySorted_merge_sort earlier)|apply merge_sort_Permutation].
Qed.

Lemma arrange_by_name es : by_name (arrange es).
Proof.
  destruct (arrange_sorted es) as [H _]. unfold by_name. induction H as [|e l Hs IH Hall]; [constructor|]. constructor; [done|].
  eapply Forall_impl; [done|]. intros x [[H1 _]|[-> _]]; [done|reflexivity].
Qed.

(** Changes come in the order of their versions. *)
Definition chronological es : Prop := StronglySorted (λ a b : Event, event_version a < event_version b) es.

Lemma arrange_of_key k es : chronological es → of_key k (arrange es) = of_key k es.
Proof.
  intros Hc. destruct (arrange_sorted es) as [Hs Hp].
  set (R := λ a b : Event, event_version a <= event_version b).
  assert (Hin : ∀ a b, a ∈ es → b ∈ es → event_version a = event_version b → a = b).
  { clear -Hc. induction Hc as [|e es Hc IH Hall]; [set_solver|]. rewrite Forall_forall in Hall.
    intros a b [->|Ha]%elem_of_cons [->|Hb]%elem_of_cons E; [done| | |by apply IH];
      [specialize (Hall b Hb)|specialize (Hall a Ha)]; lia. }
  apply (StronglySorted_unique_strong R).
  - intros a b [_ Ha]%list_elem_of_filter [_ Hb]%list_elem_of_filter H1 H2. apply Hin; [by rewrite <- Hp|done|]. unfold R in *. lia.
  - clear -Hs. unfold of_key. induction Hs as [|e l Hs IH Hall]; [constructor|]. rewrite filter_cons. destruct (decide _) as [E|]; [|done].
    constructor; [done|]. rewrite Forall_forall in Hall. apply Forall_forall. intros x [Ex Hx]%list_elem_of_filter.
    destruct (Hall x Hx) as [[_ Hne]|[_ Hle]]; [|done]. congruence.
  - clear -Hc. unfold of_key. induction Hc as [|e l Hs IH Hall]; [constructor|]. rewrite filter_cons. destruct (decide _) as [E|]; [|done].
    constructor; [done|]. rewrite Forall_forall in Hall. apply Forall_forall. intros x [_ Hx]%list_elem_of_filter. specialize (Hall x Hx). unfold R. lia.
  - unfold of_key. by rewrite Hp.
Qed.

Lemma compaction_merged es : chronological es → merged es (compact (arrange es)).
Proof.
  intros Hc. destruct (compact_merged (arrange es) (arrange_by_name es)) as [M1 M2 M3]. split; [done| |].
  - intros k. by rewrite M2, arrange_of_key.
  - intros m Hm. destruct (M3 m Hm) as (e & rest & H1 & H2). rewrite arrange_of_key in H1 by done. eauto.
Qed.
End compaction.

(** ** What a domain promises *)

(** [row_of] is the record a client shows for the contents a Star holds; contents are
    [akin] when one may follow the other under one key.  With [partial] a row may carry
    the changing part alone. *)
Class Delivers {domain : Domain} {Content : Type} (encoding : Encoding Content) := {
  row_of : Content → Row;
  sendable : Content → Prop;
  akin : Content → Content → Prop;
  partial : bool;
  overhead_fits : 0 < overhead <= 64;
  sends_size : ∀ k c d, key_ok k = true → (∀ x, c = Some x → sendable x) →
    ∃ n, payload {| line_key := k; line_content := c; line_data := d |} = Done n ∧ 0 <= n <= 2 * 1024 * 1024;
  sends_reset : ∀ k c old, sendable c → act MODE_RESET old (encode (full_line k (Some c))) = Expected (Some (row_of c));
  sends_apply : ∀ k c d old, sendable c → (∀ c0, old = Some c0 → akin c0 c) →
    (partial = true → d = true → is_Some old) →
    act MODE_APPLY (row_of <$> old) (encode {| line_key := k; line_content := Some c; line_data := d |}) = Expected (Some (row_of c));
  sends_erase : ∀ k d old, act MODE_APPLY old (encode {| line_key := k; line_content := None; line_data := d |}) = Expected None;
  merges_name : ∀ p c, event_name (combine p c) = event_name c;
  merges_record : ∀ p c, event_record (combine p c) = event_record c;
  merges_data : ∀ p c, partial = true → event_data (combine p c) = true → is_Some (event_record c) →
    event_data p = true ∧ is_Some (event_record p)
}.

Section exactness.
Context {domain : Domain} {Content : Type} {encoding : Encoding Content} {delivers : Delivers encoding}.
Abbreviation Event := (Scene.Event (Item := Content)).
Implicit Types (es : list Event) (k : string).

Lemma candidate_snoc_of md pub cs c : candidate md pub (cs ++ [c]) = Stream.apply_change md pub (candidate md pub cs) c.
Proof. unfold candidate. by rewrite foldl_app. Qed.

Lemma candidate_out md pub cs k : k ∉ key <$> cs → candidate md pub cs !! k = Stream.base md pub !! k.
Proof.
  induction cs as [|c cs IH] using rev_ind; [done|]. rewrite fmap_app, elem_of_app, candidate_snoc_of. intros Hk.
  unfold Stream.apply_change. assert (Hne : key c ≠ k) by set_solver.
  destruct (act _ _ _) as [[r|]|]; rewrite ?lookup_insert_ne, ?lookup_delete_ne by done; apply IH; set_solver.
Qed.

Lemma candidate_in md pub cs c r :
  NoDup (key <$> cs) → c ∈ cs → act md (was pub (key c)) (action c) = Expected r → candidate md pub cs !! key c = r.
Proof.
  intros Hnd Hc Hr. induction cs as [|c' cs IH] using rev_ind; [by apply elem_of_nil in Hc|]. rewrite candidate_snoc_of.
  rewrite fmap_app in Hnd. apply NoDup_app in Hnd as (Hnd & Hdis & _). apply elem_of_app in Hc as [Hc| ->%list_elem_of_singleton].
  - assert (Hne : key c' ≠ key c).
    { intros E. apply (Hdis (key c)); [by apply list_elem_of_fmap_2|]. rewrite <- E. cbn. left. }
    unfold Stream.apply_change. destruct (act _ _ (action c')) as [[r'|]|]; rewrite ?lookup_insert_ne, ?lookup_delete_ne by done; by apply IH.
  - unfold Stream.apply_change. rewrite Hr. destruct r; [apply lookup_insert_eq|apply lookup_delete_eq].
Qed.

Lemma apply_events_lookup (m : gmap string Content) es k :
  foldl apply_event m es !! k = match last (of_key k es) with Some e => event_record e | None => m !! k end.
Proof.
  induction es as [|e es IH] using rev_ind; [done|]. rewrite foldl_app. cbn [foldl]. unfold of_key, apply_event at 1. rewrite filter_app.
  rewrite filter_cons, filter_nil. destruct (decide (event_name e = k)) as [<-|Hne].
  - rewrite last_snoc. destruct (event_record e); cbn; [apply lookup_insert_eq|apply lookup_delete_eq].
  - rewrite app_nil_r. destruct (event_record e); cbn; rewrite ?lookup_insert_ne, ?lookup_delete_ne by done; apply IH.
Qed.

Lemma merged_record (e : Event) rest : event_record (foldl combine e rest) = event_record (default e (last rest)).
Proof.
  induction rest as [|x rest IH] using rev_ind; [done|]. rewrite foldl_app, last_snoc. cbn. apply merges_record.
Qed.

Lemma merged_data (e : Event) rest :
  partial = true → event_data (foldl combine e rest) = true → is_Some (event_record (foldl combine e rest)) →
  event_data e = true ∧ is_Some (event_record e).
Proof.
  intros Hp. revert e. induction rest as [|x rest IH]; intros e Hd Hr; [done|]. cbn [foldl] in *.
  destruct (IH (combine e x) Hd Hr) as [H1 H2]. rewrite merges_record in H2. by apply (merges_data e x).
Qed.

(** Changes that follow the records [base]: in order, sendable, a record keeps its
    kind, and the changing part alone is reported of known records only. *)
Record follows (base : gmap string Content) es : Prop := {
  fo_order : chronological es;
  fo_keys : Forall (λ e, key_ok (event_name e) = true) es;
  fo_records : ∀ e c, e ∈ es → event_record e = Some c → sendable c ∧ ∀ c0, base !! event_name e = Some c0 → akin c0 c;
  fo_data : ∀ k e rest, of_key k es = e :: rest → partial = true → event_data e = true → is_Some (base !! k)
}.

Definition change_of (e : Event) : Change := row_of_line (line_of e).

(** How the client reads one merged change. *)
Lemma merged_reads base es b m :
  follows base es → entries b = row_of <$> base → m ∈ compact (arrange es) →
  act MODE_APPLY (was (Some b) (event_name m)) (action (change_of m)) =
    Expected (row_of <$> foldl apply_event base es !! event_name m).
Proof.
  intros [F1 F2 F3 F4] Eb Hm. destruct (me_event _ _ (compaction_merged merges_name es F1) m Hm) as (e & rest & Ek & Em).
  rewrite apply_events_lookup, Ek, last_cons.
  assert (Er : event_record m = event_record (default e (last rest))) by (by rewrite Em, merged_record).
  unfold was. cbn. rewrite Eb, lookup_fmap.
  assert (Hin : default e (last rest) ∈ es ∧ event_name (default e (last rest)) = event_name m).
  { assert (H : default e (last rest) ∈ of_key (event_name m) es); [|by apply list_elem_of_filter in H as [? ?]].
    rewrite Ek. destruct (last rest) as [x|] eqn:El; cbn; [right; by apply last_Some_elem_of in El|left]. }
  assert (Elast : match last rest with Some y => Some y | None => Some e end = Some (default e (last rest))) by (by destruct (last rest)).
  rewrite Elast. unfold change_of, row_of_line, line_of. cbn [action]. rewrite <- Er. destruct Hin as [Hin Hname].
  destruct (event_record m) as [c|] eqn:Ec; [|by rewrite sends_erase]. cbn [fmap option_fmap option_map].
  destruct (F3 _ c Hin ltac:(congruence)) as [Hs Ha]. rewrite Hname in Ha. apply sends_apply; [done|done|].
  intros Hp Hd. subst m. destruct (merged_data e rest Hp Hd) as [H1 _]; [by rewrite Ec|]. by apply (F4 _ _ _ Ek).
Qed.

Lemma compaction_reads base es b :
  follows base es → entries b = row_of <$> base →
  let rows := change_of <$> compact (arrange es) in
  NoDup (key <$> rows) ∧ Forall (λ c, key_ok (key c) = true ∧ ∃ r, act MODE_APPLY (was (Some b) (key c)) (action c) = Expected r) rows ∧
  candidate MODE_APPLY (Some b) rows = row_of <$> foldl apply_event base es.
Proof.
  intros Hf Eb. cbv zeta. pose proof (compaction_merged merges_name es (fo_order _ _ Hf)) as [M1 M2 M3].
  assert (Ekeys : key <$> (change_of <$> compact (arrange es)) = event_name <$> compact (arrange es)).
  { rewrite <- list_fmap_compose. done. }
  assert (Hnd : NoDup (key <$> (change_of <$> compact (arrange es)))) by (by rewrite Ekeys). split_and!; [done| |].
  - apply Forall_fmap, Forall_forall. intros m Hm. cbn. split; [|by eexists; apply (merged_reads base)].
    destruct (M3 m Hm) as (e & rest & Ek & _). assert (He : e ∈ of_key (event_name m) es) by (rewrite Ek; left).
    apply list_elem_of_filter in He as [<- He]. pose proof (fo_keys _ _ Hf) as Hk. rewrite Forall_forall in Hk. by apply Hk.
  - apply map_eq. intros k. rewrite lookup_fmap. destruct (decide (k ∈ event_name <$> compact (arrange es))) as [Hk|Hk].
    + apply list_elem_of_fmap in Hk as (m & -> & Hm). change (event_name m) with (key (change_of m)) at 1.
      apply candidate_in; [done|by apply list_elem_of_fmap_2|]. by apply (merged_reads base).
    + rewrite candidate_out by (by rewrite Ekeys). cbn. rewrite Eb, lookup_fmap, apply_events_lookup. rewrite M2 in Hk.
      destruct (of_key k es); [done|]. by destruct Hk.
Qed.
End exactness.

(** ** A client that consumes a batch *)
Section watching.
Context {domain : Domain} {platform : Platform Row} (sizeof_string : Z) (seen_buckets : list string → Z) (o : Options).
Context (bounds : 0 < limit_bytes o <= 1024 * 1024 * 1024 ∧ 0 < limit_records o <= 65536).
Abbreviation answer := (expected (option Stream.View) Code).
Abbreviation run_state := (Projection * (option Published * list Change))%type.
Abbreviation inv := (inv sizeof_string seen_buckets o).
Abbreviation consume := (consume sizeof_string seen_buckets o).

(** Pages that arrive one after the other, each with the answer of the budget and the
    allocations that fail; a refusal or an exception ends the stream. *)
Fixpoint feed (ds : list ((Z → bool) * Reply * faults)) (st : run_state) : option (outcome answer) * run_state :=
  match ds with
  | [] => (None, st)
  | (grant, page, f) :: ds =>
      let '(p, (pub, pend)) := st in
      let '(r, p', _) := consume grant page p f in
      let st := (p', note r page pub pend) in
      match r with Done (Expected _) => feed ds st | _ => (Some r, st) end
  end.

(** The batch: its mode, position, sender and rows. *)
Record Batch := { batch_mode : Mode; batch_version : Z; batch_instance : string; batch_rows : list Change }.

(** A client that waits for the batch. *)
Record awaits (p : Projection) (pub : option Published) (b : Batch) : Prop := {
  aw_valid : valid_ p = true;
  aw_mode : batch_mode b = MODE_RESET ∧ first_ p = true ∨
    batch_mode b = MODE_APPLY ∧ fresh_ p = false ∧ ∃ x, pub = Some x ∧ at_instance x = batch_instance b ∧
      (at_version x = batch_version b → first_ p = true ∧ batch_rows b = []);
  aw_forward : ∀ x, pub = Some x → by_star = false ∨ at_instance x = batch_instance b → at_version x <= batch_version b;
  aw_stream : expected_ p = ""%string ∨ expected_ p = batch_instance b
}.

(** Rows the client can install. *)
Record installable (pub : option Published) (b : Batch) : Prop := {
  in_instance : text (batch_instance b) 128 = true;
  in_keys : NoDup (key <$> batch_rows b);
  in_rows : Forall (admissible o (batch_mode b) pub) (batch_rows b);
  in_zero : batch_version b = 0 → candidate (batch_mode b) pub (batch_rows b) = ∅
}.

(** What the pages look like. *)
Definition inner_page (b : Batch) (q : Reply) : Prop :=
  mode q = batch_mode b ∧ complete q = false ∧ changes q ≠ [] ∧ reply_version q = None ∧ reply_instance q = ""%string ∧
  byte_size q <= 8 * 1024 * 1024.
Definition final_page (b : Batch) (q : Reply) : Prop :=
  mode q = batch_mode b ∧ complete q = true ∧ reply_version q = Some (batch_version b) ∧ reply_instance q = batch_instance b ∧
  byte_size q <= 8 * 1024 * 1024.

Definition installed (pub : option Published) (b : Batch) : Published :=
  {| at_instance := batch_instance b; at_version := batch_version b; entries := candidate (batch_mode b) pub (batch_rows b) |}.

Definition fed (p : Projection) (pub : option Published) (b : Batch) (res : option (outcome answer) * run_state) : Prop :=
  let '(stop, (p', (pub', pend'))) := res in
  inv p' pub' pend' ∧
  match stop with
  | None => pub' = Some (installed pub b) ∧ pend' = []
  | Some r => pub' = pub ∧ current_ p' = current_ p ∧ (r = Thrown bad_alloc ∨ r = Done (Unexpected limit))
  end.

Lemma text_nonempty k n : text k n = true → k ≠ ""%string.
Proof. intros H ->. unfold text in H. rewrite length_bytes in H. done. Qed.

(** The page that comes after the changes [pend]. *)
Lemma page_courteous p pub b pend page rest :
  awaits p pub b → installable pub b → (draft_ p = None → pend = []) → (is_Some (draft_ p) → mode_ p = batch_mode b) →
  batch_rows b = pend ++ changes page ++ rest → (inner_page b page ∨ final_page b page ∧ rest = []) →
  courteous o p pub pend page.
Proof.
  intros [A1 A2 A3 A4] [I1 I2 I3 I4] Hnone Hsome Erows Hpage.
  assert (Em : mode page = batch_mode b) by (destruct Hpage as [[? _]|[[? _] _]]; done).
  assert (Hc : complete page = true → final_page b page ∧ rest = []).
  { intros Hc. destruct Hpage as [(_ & ? & _)|?]; [congruence|done]. }
  pose proof I2 as Hnd. rewrite Erows, app_assoc, fmap_app in Hnd. apply NoDup_app in Hnd as [Hnd _].
  pose proof I3 as Hadm. rewrite Erows in Hadm. apply Forall_app in Hadm as [_ Hadm]. apply Forall_app in Hadm as [Hadm _].
  assert (Hv : complete page = true → version_of page = batch_version b ∧ reply_instance page = batch_instance b ∧ pend ++ changes page = batch_rows b).
  { intros E. destruct (Hc E) as [(_ & _ & Ev & Ei & _) ->]. unfold version_of. rewrite Ev, app_nil_r in *. done. }
  split; rewrite ?Em; try done.
  - destruct A2 as [[-> _]|[-> _]]; [by left|by right].
  - intros Hd. destruct A2 as [[E1 E2]|(E1 & E2 & x & -> & _)]; rewrite E1; [rewrite decide_True by done|rewrite decide_False by done]; done.
  - split; [|by intros (E & _)%Hc; destruct E as (_ & _ & -> & _)]. destruct Hpage as [(_ & _ & _ & -> & _)|[(_ & ? & _) _]]; [by intros []|done].
  - split; [destruct Hpage as [(_ & _ & _ & _ & -> & _)|[(_ & ? & _) _]]; done|]. intros (E & _)%Hc. destruct E as (_ & _ & _ & -> & _). by eapply text_nonempty.
  - destruct Hpage as [(_ & _ & ? & _)|[(_ & ? & _) _]]; [done|congruence].
  - destruct Hpage as [(_ & _ & _ & _ & _ & ?)|[(_ & _ & _ & _ & ?) _]]; done.
  - intros (_ & -> & _)%Hv. done.
  - intros (-> & -> & _)%Hv. done.
  - intros (-> & -> & ->)%Hv Ha x Hx. destruct A2 as [[? _]|(_ & _ & y & Hy & ? & ?)]; [congruence|].
    rewrite Hx in Hy. injection Hy as <-. done.
  - intros (-> & _ & ->)%Hv. done.
Qed.

Lemma feed_fed ds ps q b p pub pend :
  inv p pub pend → awaits p pub b → installable pub b → (is_Some (draft_ p) → mode_ p = batch_mode b) →
  ds.*1.*2 = ps ++ [q] → Forall (inner_page b) ps → final_page b q → batch_rows b = pend ++ concat (changes <$> ps ++ [q]) →
  fed p pub b (feed ds (p, (pub, pend))).
Proof.
  revert ps p pend. induction ds as [|[[grant page] f] ds IH]; intros ps p pend Hinv Haw Hin Hmode Hds Hps Hq Hrows; [by destruct ps|].
  assert (Hpage : ∃ rest, batch_rows b = pend ++ changes page ++ rest ∧ (inner_page b page ∨ final_page b page ∧ rest = [])).
  { destruct ps as [|x ps]; cbn in Hds, Hrows.
    - injection Hds as -> _. exists []. rewrite app_nil_r in *. auto.
    - injection Hds as -> _. apply Forall_cons in Hps as [Hx _]. eexists. rewrite Hrows. auto. }
  destruct Hpage as (rest & Hrest & Hpage).
  assert (Hnone : draft_ p = None → pend = []) by (intros Hd; destruct Hinv as [_ Hi]; rewrite Hd in Hi; apply Hi).
  pose proof (page_courteous p pub b pend page rest Haw Hin Hnone Hmode Hrest Hpage) as Hco.
  pose proof (wp_and _ _ _ _ _ _ _ (consume_wp sizeof_string seen_buckets o bounds grant page p pub pend Hinv)
    (consume_welcome sizeof_string seen_buckets o bounds grant page p pub pend Hinv Hco) f I) as Hw.
  cbn [feed]. destruct (consume grant page p f) as [[[[[v|]|code]|x] p'] f']; destruct Hw as [_ [Ha Hw]]; cbn [note accepted welcome] in *.
  - assert (Ec : complete page = true) by done. assert (Hfin : final_page b page ∧ rest = []) by (destruct Hpage as [(_ & ? & _)|?]; [congruence|done]).
    destruct Hfin as [(F1 & _ & F3 & F4 & _) ->]. assert (Ed : ds = []).
    { destruct ps as [|y ps]; cbn in Hds; injection Hds as E1 E2; [by destruct ds|]. subst y. apply Forall_cons in Hps as [(_ & ? & _) _]. congruence. }
    subst ds. cbn. destruct Ha as (_ & Hi & _). split; [done|]. split; [|done]. unfold install, installed, version_of. rewrite F1, F3, F4, Hrest. by rewrite app_nil_r.
  - destruct Ha as (E1 & E2 & Hd & Hi & _). destruct Hw as [W1 W2 W3 W4 W5]. destruct ps as [|y ps]; cbn in Hds; injection Hds as Ey Eds.
    { subst q. destruct Hq as (_ & ? & _). congruence. }
    subst y. apply Forall_cons in Hps as [Hy Hps]. assert (Hf : fed p' pub b (feed ds (p', (pub, pend ++ changes page)))).
    { apply (IH ps); try done.
      - destruct Haw as [A1 A2 A3 A4]. split; rewrite ?W1, ?W3, ?W4, ?W5; done.
      - intros _. rewrite W2. apply Hy.
      - rewrite Hrows. cbn. by rewrite <- app_assoc. }
    unfold fed in *. destruct (feed ds _) as [[r|] [p'' [pub'' pend'']]]; [|done]. destruct Hf as (? & ? & ? & ?). split_and!; try done. congruence.
  - destruct Ha as (E1 & _ & _ & Hi & _). split; [done|]. subst code. by split_and!; [| |right].
  - destruct Ha as (-> & E1 & _ & Hi & _). split; [done|]. by split_and!; [| |left].
Qed.
End watching.
