(* ===== verification/Watch.v ===== *)
(** The first batch of a watch, from the Star's projection to the client's contents:
    [initial] of [star/src/downstream.hpp] over the reads of [Scene], the batch of
    [Edition] and the client of [Stream].

    The theorem of this file composes them over histories of both: writes on the Star,
    watches of it that end anywhere, and whatever other Stars send to the client. *)
From stdpp Require Import base numbers strings gmap list.
From S2P Require Import Prelude.
From S2P Require Import Scope.
From S2P Require Import Pages.
From S2P Require Import Index.
From S2P Require Import Scene.
From S2P Require Import Table.
From S2P Require Import Stream.
From S2P Require Import Edition.
From S2P Require Import Delivery.

(** The request of a watch: the position to resume from, its Star, and the record. *)
Record Request := { requested : option Z; request_instance : string; request_target : string }.

(** The status returned instead of a batch. *)
Inductive Refusal := cursor_unavailable | baseline_unavailable.

Section initial.
Context {domain : Domain} {Content Failure : Type} {encoding : Encoding Content} (sizeof_point sizeof_event : Z).
Abbreviation Event := (Scene.Event (Item := Content)).
Abbreviation Captured := (Edition.Edition Content Content).

(** The errors after which a full batch is sent. *)
Context (falls_back : Failure → bool).

(** [Downstream::initial], given the answers of the state's reads and the capacity of
    the vector of changes. *)
Definition initial (own : string) (rq : Request) (changes : Z → expected (list Event) Failure)
    (find : string → expected (option Content * Z) Failure) (capture : expected (Scene.View (Item := Content)) Failure) (capacity : Z)
    : expected (outcome Captured) Refusal :=
  let baseline :=
    if negb (String.eqb (request_target rq) "") then
      match find (request_target rq) with
      | Expected point => Expected (Done (paginate_point sizeof_point (request_target rq) point))
      | Unexpected _ => Unexpected baseline_unavailable
      end
    else
      match capture with
      | Expected v => Expected (Done (paginate_view v))
      | Unexpected _ => Unexpected baseline_unavailable
      end in
  match requested rq with
  | Some since =>
      if String.eqb (request_instance rq) own then
        match changes since with
        | Expected es =>
            let v := match last es with None => since | Some e => event_version e end in
            Expected (paginate_changes sizeof_event v es (request_target rq) capacity)
        | Unexpected e => if falls_back e then baseline else Unexpected cursor_unavailable
        end
      else baseline
  | None => baseline
  end.
End initial.

(** ** Captured contents *)
Section captured.
Context {domain : Domain} {Content : Type} {encoding : Encoding Content} {delivers : Delivers encoding}.
Abbreviation Event := (Scene.Event (Item := Content)).
Abbreviation Line := (Edition.Line (Content := Content)).
Implicit Types (m : gmap string Content) (ls : list Line).

(** The rows of a full batch. *)
Record spells_lines ls m : Prop := {
  sl_keys : NoDup (line_key <$> ls);
  sl_line : ∀ x, x ∈ ls ↔ ∃ k c, m !! k = Some c ∧ x = full_line k (Some c)
}.

Definition presentable m : Prop := ∀ k c, m !! k = Some c → key_ok k = true ∧ sendable c.

Lemma spelled_reads ls m pub :
  spells_lines ls m → presentable m →
  let rows := row_of_line <$> ls in
  NoDup (key <$> rows) ∧ Forall (λ c, key_ok (key c) = true ∧ ∃ r, act MODE_RESET (was pub (key c)) (action c) = Expected r) rows ∧
  candidate MODE_RESET pub rows = row_of <$> m.
Proof.
  intros [S1 S2] Hp. cbv zeta. assert (Ek : key <$> (row_of_line <$> ls) = line_key <$> ls) by (by rewrite <- list_fmap_compose).
  assert (Hnd : NoDup (key <$> (row_of_line <$> ls))) by (by rewrite Ek).
  assert (Hread : ∀ k c, m !! k = Some c → act MODE_RESET (was pub k) (encode (full_line k (Some c))) = Expected (Some (row_of c))).
  { intros k c Hk. by apply sends_reset, (Hp k c). }
  split_and!; [done| |].
  - apply Forall_fmap, Forall_forall. intros x (k & c & Hk & ->)%S2. cbn. split; [by apply (Hp k c)|]. eexists. by apply Hread.
  - apply map_eq. intros k. rewrite lookup_fmap. destruct (m !! k) as [c|] eqn:Hk.
    + assert (Hx : full_line k (Some c) ∈ ls) by (apply S2; eauto).
      change k with (key (row_of_line (full_line k (Some c)))) at 1. apply candidate_in; [done|by apply list_elem_of_fmap_2|]. by apply Hread.
    + rewrite candidate_out; [done|]. rewrite Ek. intros (x & -> & (j & c & Hj & ->)%S2)%list_elem_of_fmap. cbn in Hk. congruence.
Qed.

Lemma spelled_fits ls m : spells_lines ls m → presentable m → Forall fits ls.
Proof.
  intros [_ S2] Hp. apply Forall_forall. intros x (k & c & Hk & ->)%S2. destruct (Hp k c Hk) as [H1 H2].
  split; [by apply key_bound|]. apply sends_size; [done|]. by intros y [= <-].
Qed.

(** A tree whose rows stand for [m], read to its end. *)
Lemma tied_lines (t : pages string Content) es m :
  spells t es m → ∃ ls, carries Some (Whole t (Z.of_nat (size m))) ls ∧ spells_lines ls m.
Proof.
  intros Hs. destruct (spells_turns _ _ _ Hs) as (l & L1 & L2 & L3 & L4). destruct Hs as (rows & (_ & Hsize & _) & Ht).
  assert (Hlen : Z.of_nat (size m) = Z.of_nat (length l)) by (by rewrite <- L3, Hsize, (tied_rows _ _ _ Ht)).
  exists (full_lines Some l). split; [exists l; split_and!; try done; intros ? ? ? ?; apply L4|].
  split.
  - unfold full_lines. by rewrite <- list_fmap_compose.
  - intros x. unfold full_lines. rewrite list_elem_of_fmap. split.
    + intros ([k c] & -> & Hx%L2). eauto.
    + intros (k & c & Hm & ->). exists (k, c). split; [done|]. by apply L2.
Qed.

(** What a watch of [target] sees of a scope. *)
Definition visible (target : string) m : gmap string Content :=
  if String.eqb target "" then m else filter (λ x, x.1 = target) m.

Lemma visible_lookup target m k :
  visible target m !! k = if decide (target = ""%string ∨ target = k) then m !! k else None.
Proof.
  unfold visible. destruct (String.eqb_spec target ""); [by rewrite decide_True by auto|].
  destruct (decide _) as [[?| ->]|Hne]; [done| |].
  - destruct (m !! k) eqn:E; [by apply map_lookup_filter_Some|apply map_lookup_filter_None; auto].
  - apply map_lookup_filter_None. right. intros x _ E. cbn in E. naive_solver.
Qed.

Lemma visible_nothing target : visible target (shown []) = ∅.
Proof. unfold visible. destruct (String.eqb target ""); [done|apply map_filter_empty]. Qed.

Lemma point_lines k m :
  k ≠ ""%string → ∃ ls, (∀ Item (held : Item → option Content), carries held (Point k (m !! k)) ls) ∧ spells_lines ls (visible k m).
Proof.
  intros Hk. destruct (m !! k) as [c|] eqn:E.
  - exists [full_line k (Some c)]. split; [done|]. split; [apply NoDup_singleton|]. intros x. rewrite list_elem_of_singleton. split.
    + intros ->. exists k, c. split; [|done]. rewrite visible_lookup, decide_True; auto.
    + intros (j & d & Hj & ->). rewrite visible_lookup in Hj. destruct (decide _) as [[?| ->]|]; [done| |done]. congruence.
  - exists []. split; [done|]. split; [constructor|]. intros x. split; [by intros ?%elem_of_nil|].
    intros (j & d & Hj & ->). rewrite visible_lookup in Hj. destruct (decide _) as [[?| ->]|]; [done| |done]. congruence.
Qed.

Lemma visible_apply target m (es : list Event) :
  foldl apply_event (visible target m) (targeted target es) = visible target (foldl apply_event m es).
Proof.
  apply map_eq. intros k. rewrite visible_lookup, !apply_events_lookup, visible_lookup.
  assert (Ek : of_key k (targeted target es) = if decide (target = ""%string ∨ target = k) then of_key k es else []).
  { unfold targeted. destruct (String.eqb_spec target ""); [by rewrite decide_True by auto|].
    unfold of_key. rewrite list_filter_filter. destruct (decide _) as [[?| ->]|Hne]; [done|apply list_filter_iff; intros; naive_solver|].
    induction es as [|e es IH]; [done|]. rewrite filter_cons, decide_False; [done|]. intros [? ?]. naive_solver. }
  rewrite Ek. by destruct (decide _).
Qed.

(** ** What a domain writes into a projection *)

(** Names and records are sendable, the records of a name are akin to each other, and
    the changing part alone is written of a record that is there. *)
Record genuine (log : list Event) : Prop := {
  ge_keys : ∀ e, e ∈ log → key_ok (event_name e) = true;
  ge_records : ∀ e c, e ∈ log → event_record e = Some c → sendable c;
  ge_akin : ∀ e e' c c', e ∈ log → e' ∈ log → event_name e = event_name e' → event_record e = Some c → event_record e' = Some c' → akin c c';
  ge_data : ∀ pre e post, log = pre ++ e :: post → event_data e = true →
    is_Some (event_record e) ∧ (partial = true → is_Some (shown pre !! event_name e))
}.

Lemma shown_elem (log : list Event) k c : shown log !! k = Some c → ∃ e, e ∈ log ∧ event_name e = k ∧ event_record e = Some c.
Proof.
  unfold shown. rewrite apply_events_lookup. destruct (last (of_key k log)) as [e|] eqn:E; [|by rewrite lookup_empty].
  intros Hc. apply last_Some_elem_of in E. apply list_elem_of_filter in E as [? ?]. eauto.
Qed.

Lemma genuine_presentable log : genuine log → presentable (shown log).
Proof. intros Hg k c (e & He & <- & Hc)%shown_elem. split; [by apply (ge_keys _ Hg)|by apply (ge_records _ Hg e)]. Qed.

Lemma visible_presentable target m : presentable m → presentable (visible target m).
Proof. intros Hp k c. rewrite visible_lookup. destruct (decide _); [apply Hp|done]. Qed.

Lemma of_key_first k (es : list Event) e rest : of_key k es = e :: rest → ∃ l1 l2, es = l1 ++ e :: l2 ∧ of_key k l1 = [] ∧ event_name e = k.
Proof.
  induction es as [|x es IH]; [done|]. unfold of_key. rewrite filter_cons. destruct (decide (event_name x = k)) as [E|E].
  - intros [= -> _]. by exists [], es.
  - intros H. destruct (IH H) as (l1 & l2 & -> & H1 & H2). exists (x :: l1), l2. split_and!; [done| |done]. unfold of_key. by rewrite filter_cons, decide_False.
Qed.

Lemma chronological_of (es : list Event) n :
  (∀ i e, es !! i = Some e → event_version e = n + Z.of_nat i + 1) → chronological es.
Proof.
  revert n. induction es as [|e es IH]; intros n Hv; [constructor|]. constructor.
  - apply (IH (n + 1)). intros i x Hi. rewrite (Hv (S i) x Hi). lia.
  - apply Forall_forall. intros x [i Hi]%list_elem_of_lookup_1. rewrite (Hv 0%nat e eq_refl), (Hv (S i) x Hi). lia.
Qed.

Lemma chronological_filter (P : Event → Prop) `{!∀ e, Decision (P e)} es : chronological es → chronological (filter P es).
Proof.
  induction 1 as [|e es Hs IH Hall]; [constructor|]. rewrite filter_cons. destruct (decide (P e)); [|done].
  constructor; [done|]. apply Forall_forall. intros x [_ Hx]%list_elem_of_filter. rewrite Forall_forall in Hall. by apply Hall.
Qed.

Lemma targeted_elem target (es : list Event) e : e ∈ targeted target es → e ∈ es ∧ (target = ""%string ∨ target = event_name e).
Proof.
  unfold targeted. destruct (String.eqb_spec target ""); [by auto|]. intros [? ?]%list_elem_of_filter. auto.
Qed.

(** The changes after a position follow the contents at that position. *)
Lemma genuine_follows target log n :
  genuine log → (∀ i e, log !! i = Some e → event_version e = Z.of_nat i + 1) → (n <= length log)%nat →
  follows (visible target (shown (take n log))) (targeted target (drop n log)).
Proof.
  intros Hg Hv Hn. assert (Hsub : ∀ e, e ∈ targeted target (drop n log) → e ∈ log).
  { intros e [He _]%targeted_elem. by apply (subseteq_drop n log). }
  split.
  - assert (Hc : chronological (drop n log)).
    { apply (chronological_of _ (Z.of_nat n)). intros i e Hi. rewrite lookup_drop in Hi. rewrite (Hv _ _ Hi). lia. }
    unfold targeted. destruct (String.eqb target ""); [done|by apply chronological_filter].
  - apply Forall_forall. intros e He. by apply (ge_keys _ Hg), Hsub.
  - intros e c He Hc. split; [by apply (ge_records _ Hg e); [apply Hsub|]|]. intros c0. rewrite visible_lookup.
    destruct (decide _); [|done]. intros (e0 & He0 & Hname & Hc0)%shown_elem.
    apply (ge_akin _ Hg e0 e); try done; [|by apply Hsub]. by apply (subseteq_take n log).
  - intros k e rest Hk Hp Hd. assert (He : e ∈ targeted target (drop n log)).
    { assert (H : e ∈ of_key k (targeted target (drop n log))) by (rewrite Hk; left). by apply list_elem_of_filter in H as [_ ?]. }
    pose proof (targeted_elem _ _ _ He) as [_ Ht]. destruct (of_key_first _ _ _ _ Hk) as (_ & _ & _ & _ & En). subst k.
    rewrite visible_lookup, decide_True by done.
    assert (Hk' : of_key (event_name e) (drop n log) = e :: rest).
    { rewrite <- Hk. unfold targeted. destruct (String.eqb_spec target ""); [done|]. destruct Ht as [?| ->]; [done|].
      unfold of_key. rewrite list_filter_filter. apply list_filter_iff. intros; naive_solver. }
    destruct (of_key_first _ _ _ _ Hk') as (l1 & l2 & Hl & Hl1 & _).
    destruct (ge_data _ Hg (take n log ++ l1) e l2) as [_ Hs]; [by rewrite <- app_assoc, <- Hl, take_drop|done|]. specialize (Hs Hp).
    unfold shown in *. rewrite foldl_app, apply_events_lookup, Hl1 in Hs. done.
Qed.

(** Merged changes come from the changes themselves. *)
Lemma merged_from m (es : list Event) x :
  follows m es → x ∈ compact (arrange es) → ∃ e, e ∈ es ∧ event_name e = event_name x ∧ event_record e = event_record x.
Proof.
  intros Hf Hx. destruct (me_event _ _ (compaction_merged merges_name es (fo_order _ _ Hf)) x Hx) as (e & rest & Ek & Ex).
  exists (default e (last rest)). assert (H : default e (last rest) ∈ of_key (event_name x) es).
  { rewrite Ek. destruct (last rest) as [y|] eqn:El; cbn; [right; by apply last_Some_elem_of in El|left]. }
  apply list_elem_of_filter in H as [? ?]. split_and!; [done..|]. by rewrite Ex, merged_record.
Qed.

Lemma merged_fits m (es : list Event) : follows m es → Forall fits (line_of <$> compact (arrange es)).
Proof.
  intros Hf. apply Forall_fmap, Forall_forall. intros x Hx. destruct (merged_from m es x Hf Hx) as (e & He & En & Er).
  pose proof (fo_keys _ _ Hf) as Hk. rewrite Forall_forall in Hk. specialize (Hk e He). rewrite En in Hk.
  split; [by apply key_bound|]. apply sends_size; [done|]. intros c Hc. apply (fo_records _ _ Hf e); congruence.
Qed.
End captured.

(** ** The composition *)
Section watch.
Context {domain : Domain} {platform : Platform Row} {Content : Type} {encoding : Encoding Content} {delivers : Delivers encoding}.
Context {layout : Layout Content} (limits : Scene.Limits) (sizeof_string : Z) (seen_buckets : list string → Z) (o : Options).
Context (sizeof_point sizeof_event : Z).

(** A read of the projection, which has no side effect. *)
Definition look {A} (m : eff (Scene.Scene (Item := Content)) A) (s : Scene.Scene (Item := Content)) (otherwise : A) : A :=
  match m s [] with (Done a, _, _) => a | _ => otherwise end.

(** The state reports a cursor from the future as [input]. *)
Definition scene_falls_back (e : Scene.Error) : bool := match e with version_error | history_error => true | _ => false end.

(** A read of the state is refused when its clock does not answer, and answered from the
    projection otherwise. *)
Inductive Denial := no_clock | no_scene (e : Scene.Error).
Definition denial_falls_back (d : Denial) : bool := match d with no_clock => false | no_scene e => scene_falls_back e end.
Definition clocked {A} (tick : bool) (a : expected A Scene.Error) : expected A Denial :=
  if tick then match a with Expected x => Expected x | Unexpected e => Unexpected (no_scene e) end else Unexpected no_clock.

(** [tick] and [tock] say whether the clock answers to the first and to the second read. *)
Definition respond (own : string) (rq : Request) (s : Scene.Scene (Item := Content)) (tick tock : bool) (capacity : Z)
    : expected (outcome (Edition.Edition Content Content)) Refusal :=
  initial sizeof_point sizeof_event denial_falls_back own rq (λ since, clocked tick (look (Scene.replay since) s (Unexpected Scene.input)))
    (λ k, clocked tock (Expected (look (Scene.find k) s (None, 0)))) (clocked tock (Expected (look Scene.capture s Scene.empty))) capacity.

(** A refusal is one of the clock. *)
Lemma respond_clock own rq s tick tock capacity :
  respond own rq s tick tock capacity = respond own rq s true true capacity ∨
  (tick = false ∧ respond own rq s tick tock capacity = Unexpected cursor_unavailable) ∨
  (tock = false ∧ respond own rq s tick tock capacity = Unexpected baseline_unavailable).
Proof.
  unfold respond, initial, clocked. destruct tick, tock; [by left|..]; destruct (requested rq) as [since|]; try destruct (String.eqb (request_instance rq) own);
    try destruct (look (Scene.replay since) s (Unexpected Scene.input)) as [es|e]; cbn; try destruct (scene_falls_back e);
    destruct (negb (String.eqb (request_target rq) "")); auto.
Qed.

(** The client's request ([Watching::start]). *)
Definition asks (p : Projection) : Request :=
  match current_ p with
  | Some c => if resume p then {| requested := Some (version c); request_instance := instance c; request_target := target_ o |}
              else {| requested := None; request_instance := ""; request_target := target_ o |}
  | None => {| requested := None; request_instance := ""; request_target := target_ o |}
  end.

(** What the client shows of this Star is what the Star had at that position. *)
Definition authentic (own : string) (log : list (Scene.Event (Item := Content))) (pub : option Published) : Prop :=
  ∀ b, pub = Some b → at_instance b = own →
    0 <= at_version b <= Z.of_nat (length log) ∧
    entries b = row_of <$> visible (target_ o) (shown (take (Z.to_nat (at_version b)) log)).

Definition current_of (own : string) (s : Scene.Scene (Item := Content)) (log : list (Scene.Event (Item := Content))) : Published :=
  {| at_instance := own; at_version := Scene.version_ s; entries := row_of <$> visible (target_ o) (shown log) |}.

(** A batch that brings the client to the present. *)
Record fitting (own : string) (p : Projection) (pub : option Published) (s : Scene.Scene (Item := Content)) (log : list (Scene.Event (Item := Content)))
    (e : Edition.Edition Content Content) (ls : list (Edition.Line (Content := Content))) : Prop := {
  ft_start : offset_ e = 0 ∧ complete_ e = false;
  ft_carries : carries Some (data_ e) ls;
  ft_fits : Forall fits ls;
  ft_awaits : let b := {| batch_mode := edition_mode e; batch_version := edition_version e; batch_instance := own; batch_rows := row_of_line <$> ls |} in
    awaits p pub b ∧ installable o pub b ∧ installed pub b = current_of own s log
}.

Context (star_positions : by_star = true).

Section answered.
Context (own : string) (p : Projection) (pub : option Published) (s : Scene.Scene (Item := Content)) (log : list (Scene.Event (Item := Content))).
Context (own_text : text own 128 = true) (scene : scene_ok limits s log) (real : genuine log).
Context (client : shows o (current_ p) pub) (starts : valid_ p = true ∧ first_ p = true) (bound : expected_ p = ""%string ∨ expected_ p = own).
Context (honest : authentic own log pub).

Lemma at_present : Scene.version_ s = Z.of_nat (length log) ∧ (∀ i e, log !! i = Some e → event_version e = Z.of_nat i + 1).
Proof. destruct (so_log _ _ _ scene) as [[-> _] H _ _]. done. Qed.

Lemma reset_fitting d n ls :
  carries Some d ls → spells_lines ls (visible (target_ o) (shown log)) →
  fitting own p pub s log (frozen d MODE_RESET (Scene.version_ s) n) ls.
Proof.
  intros Hc Hs. pose proof (visible_presentable (target_ o) _ (genuine_presentable log real)) as Hp.
  destruct (spelled_reads ls _ pub Hs Hp) as (R1 & R2 & R3). destruct at_present as [Hv _]. destruct starts as [V1 V2].
  split; [done|done|by eapply spelled_fits|]. cbn [edition_mode edition_version frozen]. cbv zeta. split_and!.
  - split; cbn [batch_mode batch_version batch_instance batch_rows]; [done|by left| |done]. intros x Hx [?|Hi]; [congruence|]. rewrite Hv. by apply (honest x Hx Hi).
  - split; cbn [batch_mode batch_version batch_instance batch_rows]; [done|done| |].
    + rewrite Forall_forall in R2 |- *. intros c Hin. destruct (R2 c Hin) as [K1 K2]. split_and!; [done| |done].
      apply list_elem_of_fmap in Hin as (x & -> & Hx). apply (sl_line _ _ Hs) in Hx as (k & y & Hk & ->). cbn.
      rewrite visible_lookup in Hk. by destruct (decide _).
    + rewrite R3. intros E. rewrite Hv in E. destruct log; [|cbn in E; lia]. by rewrite visible_nothing, fmap_empty.
  - unfold installed, current_of. cbn [batch_mode batch_version batch_instance batch_rows]. by rewrite R3.
Qed.

Lemma apply_fitting b n capacity :
  pub = Some b → at_instance b = own → fresh_ p = false → n = Z.to_nat (at_version b) →
  let es := drop n log in
  let v := match last es with None => at_version b | Some e => event_version e end in
  ∃ e ls, paginate_changes sizeof_event v es (target_ o) capacity = Done e ∧ fitting own p pub s log e ls.
Proof.
  intros Hpub Hi Hfresh ->. cbv zeta. set (n := Z.to_nat (at_version b)). destruct at_present as [Hv Hord].
  destruct (honest b Hpub Hi) as [Hrange Hent]. destruct starts as [V1 V2].
  assert (Hn : (n <= length log)%nat) by (unfold n; lia).
  assert (Ev : match last (drop n log) with None => at_version b | Some e => event_version e end = Scene.version_ s).
  { destruct (last (drop n log)) as [e|] eqn:El.
    - rewrite last_lookup, lookup_drop in El. rewrite (Hord _ _ El). rewrite length_drop. apply lookup_lt_Some in El. rewrite length_drop in El. lia.
    - apply last_None in El. apply (f_equal length) in El. rewrite length_drop in El. cbn in El. lia. }
  rewrite Ev. unfold paginate_changes.
  assert (Hproper : existsb (improper (Scene.version_ s)) (drop n log) = false).
  { apply not_true_iff_false. intros (e & He & Hbad)%existsb_exists. apply list_elem_of_In in He.
    apply list_elem_of_lookup_1 in He as [i Hi']. pose proof Hi' as Hl. rewrite lookup_drop in Hl. pose proof (Hord _ _ Hl) as He.
    pose proof (lookup_lt_Some _ _ _ Hl). unfold improper in Hbad. rewrite !orb_true_iff in Hbad. destruct Hbad as [[Hb%Z.eqb_eq|Hb%Z.ltb_lt]|Hb]; [lia|lia|].
    apply andb_true_iff in Hb as [Hd Hr]. destruct (list_elem_of_split_length _ _ _ Hl) as (l1 & l2 & El & _).
    destruct (ge_data _ real _ _ _ El Hd) as [Hsome _]. by rewrite bool_decide_eq_true_2 in Hr. }
  rewrite Hproper. eexists. exists (line_of <$> compact (arrange (targeted (target_ o) (drop n log)))). split; [done|].
  pose proof (genuine_follows (target_ o) log n real Hord Hn) as Hf.
  destruct (compaction_reads _ _ b Hf Hent) as (R1 & R2 & R3).
  assert (Hrows : row_of_line <$> (line_of <$> compact (arrange (targeted (target_ o) (drop n log)))) = change_of <$> compact (arrange (targeted (target_ o) (drop n log)))).
  { by rewrite <- list_fmap_compose. }
  assert (Hnow : foldl apply_event (visible (target_ o) (shown (take n log))) (targeted (target_ o) (drop n log)) = visible (target_ o) (shown log)).
  { rewrite visible_apply. unfold shown. by rewrite <- foldl_app, take_drop. }
  split; [done|done|by eapply merged_fits|]. cbn [edition_mode edition_version frozen]. cbv zeta. rewrite Hrows. split_and!.
  - split; cbn [batch_mode batch_version batch_instance batch_rows]; [done| | |done].
    + right. split_and!; [done|done|]. exists b. split_and!; [done|done|]. intros E. split; [done|].
      assert (Hd : drop n log = []) by (apply drop_ge; unfold n; lia). rewrite Hd. unfold targeted. by destruct (String.eqb _ _).
    + intros x Hx _. assert (x = b) as -> by congruence. lia.
  - split; cbn [batch_mode batch_version batch_instance batch_rows]; [done|done| |].
    + rewrite Forall_forall in R2 |- *. intros c Hin. destruct (R2 c Hin) as [K1 K2]. rewrite Hpub. split_and!; [done| |done].
      apply list_elem_of_fmap in Hin as (x & -> & Hx). destruct (merged_from _ _ _ Hf Hx) as (e & He & En & _).
      apply targeted_elem in He as [_ He]. cbn. by rewrite <- En.
    + intros E. rewrite Hpub, R3, Hnow. rewrite Hv in E. destruct log; [|cbn in E; lia]. by rewrite visible_nothing, fmap_empty.
  - unfold installed, current_of. cbn [batch_mode batch_version batch_instance batch_rows]. by rewrite Hpub, R3, Hnow.
Qed.

Lemma look_find k d : look (Scene.find k) s d = (shown log !! k, Scene.version_ s).
Proof. unfold look. by rewrite (scene_find_spec limits k s log [] scene). Qed.

Lemma look_capture d :
  look Scene.capture s d = {| view_root := Scene.tree_ s; Scene.view_version := Scene.version_ s; Scene.view_size := Z.of_nat (size (shown log));
                              Scene.view_bytes := Scene.bytes_ s |}.
Proof.
  destruct (so_spells _ _ _ scene) as (rows & (_ & Hsize & _) & Ht). unfold look, Scene.capture, idle, bind, read, ret, gets. cbn.
  rewrite (so_idle _ _ _ scene). by rewrite Hsize, (tied_rows _ _ _ Ht).
Qed.

Lemma client_position : current_ p = None ∨ ∃ c b, current_ p = Some c ∧ pub = Some b ∧ instance c = at_instance b ∧ version c = at_version b.
Proof. revert client. destruct (current_ p) as [c|], pub as [b|]; try done; [|by left]. intros (? & ? & _). right. by exists c, b. Qed.

(** Every request that is not refused is answered with a batch that brings this client to
    the present. *)
Lemma respond_fitting capacity : ∃ e ls, respond own (asks p) s true true capacity = Expected (Done e) ∧ fitting own p pub s log e ls.
Proof.
  assert (Hbase : ∃ e ls,
    (if negb (String.eqb (target_ o) "")
     then Expected (Done (paginate_point sizeof_point (target_ o) (look (Scene.find (target_ o)) s (None, 0))))
     else Expected (Done (paginate_view (look Scene.capture s Scene.empty)))) = (Expected (Done e) : expected _ Refusal) ∧
    fitting own p pub s log e ls).
  { rewrite look_find, look_capture. destruct (String.eqb_spec (target_ o) "") as [E|E]; cbn [negb].
    - destruct (tied_lines _ _ _ (so_spells _ _ _ scene)) as (ls & Hc & Hs). eexists. exists ls. split; [done|]. apply reset_fitting; [done|]. by rewrite E.
    - destruct (point_lines (target_ o) (shown log) E) as (ls & Hc & Hs). eexists. exists ls. split; [done|]. apply reset_fitting; [apply Hc|done]. }
  unfold respond, initial, asks, clocked. destruct client_position as [Ec|(c & b & Ec & Hpub & I1 & I2)]; rewrite Ec; [exact Hbase|].
  unfold resume. destruct (bool_decide_reflect (fresh_ p = true)) as [Efr|Efr%not_true_iff_false]; rewrite Efr; [exact Hbase|].
  cbn [negb requested request_instance request_target]. destruct (String.eqb_spec (instance c) own) as [Ei|]; [|exact Hbase].
  destruct (honest b Hpub ltac:(congruence)) as [Hrange _]. rewrite I2.
  destruct (scene_replay_spec limits (at_version b) s log [] scene ltac:(lia)) as (r & Hr & Hspec). unfold look at 1. rewrite Hr.
  destruct r as [es|e]; [|destruct Hspec as [[-> _]|[-> _]]; exact Hbase]. destruct Hspec as [_ ->].
  destruct (apply_fitting b _ capacity Hpub ltac:(congruence) Efr eq_refl) as (e & ls & He & Hfit). exists e, ls. split; [by f_equal|done].
Qed.
End answered.

Lemma text_bounds k n : text k n = true → 0 < length_of k <= n.
Proof.
  unfold text, length_of. rewrite length_bytes. destruct (_ || _) eqn:E; [done|]. intros _. apply orb_false_iff in E as [E1 E2%Z.ltb_ge].
  split; [|done]. destruct k; [done|cbn; lia].
Qed.

Context (wire_size : Mode → option Z → string → list Change → Z).
Context (wire_frugal : ∀ m v i ls, Forall fits ls → wire_size m v i (row_of_line <$> ls) <= length_of i + 64 + foldr (λ l x, cost_of l + x) 0 ls).

(** The pages of a finished batch, as the client sees them. *)
Lemma delivered_pages own (e : Edition.Edition Content Content) ls pages :
  serving_name own → delivered own e ls pages →
  let b := {| batch_mode := edition_mode e; batch_version := edition_version e; batch_instance := own; batch_rows := row_of_line <$> ls |} in
  ∃ ps q, pages = ps ++ [q] ∧ Forall (inner_page b) ps ∧ final_page b q ∧ batch_rows b = concat (changes <$> ps ++ [q]).
Proof.
  intros Hi [D1 D2 D3 (ps & q & -> & Hps & Hq)]. cbv zeta. exists ps, q. apply Forall_app in D2 as [F1 F2], D3 as [G1 G2].
  rewrite Forall_singleton in F2, G2. unfold page_small, soft, widest in *. split_and!; [done| | |by rewrite D1].
  - rewrite Forall_forall in *. intros x Hx. destruct (F1 x Hx) as [E1 _ E3]. specialize (Hps x Hx). specialize (G1 x Hx). cbn in Hps, G1.
    destruct (E3 Hps) as (E4 & E5 & E6). unfold inner_page. cbn. split_and!; try done. lia.
  - destruct Hq as (Q1 & Q2 & Q3). destruct F2 as [E1 _ _]. unfold final_page. cbn. split_and!; try done. lia.
Qed.

Context (p0 : Projection) (is_bytes : is_u64 (limit_bytes o)) (is_records : is_u64 (limit_records o)) (made : Stream.make o = Done p0).
Context (s0 : Scene.Scene (Item := Content)) (opened : Scene.make limits = Done s0) (sound_limits : limits_ok limits).

(** ** Histories of a Star and a client
    The Star writes; the client talks to other Stars, whose pages bear other names; and it
    watches this Star and takes in some of the pages of the answer before it stops, for a
    reason of its own or because of the network. *)
Inductive moment :=
| Written (op : operation (Item := Content) * circumstances)
| Elsewhere (e : Stream.event)
| Watched (bound : string) (tick tock : bool) (room : Z) (fs : list faults) (ds : list ((Z → bool) * Reply * faults)).

Abbreviation both := ((Scene.Scene (Item := Content) * list (Scene.Event (Item := Content))) * (Projection * (option Published * list Change)))%type.

Definition happens (w : both) (m : moment) : both :=
  match m with
  | Written op => (Scene.step limits w.1 op, w.2)
  | Elsewhere e => (w.1, Stream.step sizeof_string seen_buckets o w.2 e)
  | Watched bound _ _ _ _ ds => (w.1, (feed sizeof_string seen_buckets o ds (Stream.step sizeof_string seen_buckets o w.2 (Begin bound))).2)
  end.

(** The pages built so far of the answer to a watch that starts now. *)
Definition answered_with (own bound : string) (tick tock : bool) (room : Z) (fs : list faults) (w : both) : list Reply :=
  match respond own (asks (begin o bound w.2.1)) w.1.1 tick tock room with
  | Expected (Done e) => (foldl (attempt Some wire_size own) (e, []) fs).2
  | _ => []
  end.

Definition possible (own : string) (w : both) (m : moment) : Prop :=
  match m with
  | Written op => sane op.1
  | Elsewhere (Page _ page _) => reply_instance page ≠ own
  | Elsewhere _ => True
  | Watched bound tick tock room fs ds =>
      (bound = ""%string ∨ bound = own) ∧ ds.*1.*2 `prefix_of` answered_with own bound tick tock room fs w
  end.

Inductive seen (own : string) : both → Prop :=
| seen_start : seen own ((s0, []), (p0, (None, [])))
| seen_next w m : seen own w → possible own w m → seen own (happens w m).

Lemma genuine_prefix (log more : list (Scene.Event (Item := Content))) : genuine (log ++ more) → genuine log.
Proof.
  intros [G1 G2 G3 G4]. split.
  - intros e He. apply G1, elem_of_app. by left.
  - intros e c He. apply G2, elem_of_app. by left.
  - intros e e' c c' He He'. apply G3; apply elem_of_app; by left.
  - intros pre e post ->. apply (G4 pre e (post ++ more)). by rewrite <- app_assoc.
Qed.

Lemma authentic_prefix own (log more : list (Scene.Event (Item := Content))) pub : authentic own log pub → authentic own (log ++ more) pub.
Proof.
  intros Ha b Hb Hi. destruct (Ha b Hb Hi) as [H1 H2]. rewrite length_app. split; [lia|]. rewrite take_app_le by lia. done.
Qed.

(** Pages that complete nothing change nothing that is shown. *)
Lemma feed_open ds p pub pend :
  inv sizeof_string seen_buckets o p pub pend → Forall (λ q, complete q = false) ds.*1.*2 →
  let '(_, (p', (pub', pend'))) := feed sizeof_string seen_buckets o ds (p, (pub, pend)) in inv sizeof_string seen_buckets o p' pub' pend' ∧ pub' = pub.
Proof using p0 is_bytes is_records made.
  pose proof (proj1 (make_projection_ok sizeof_string seen_buckets o p0 is_bytes is_records made)) as Hb.
  revert p pend. induction ds as [|[[grant page] f] ds IH]; intros p pend Hinv Hds; [done|]. cbn [fmap list_fmap fst snd] in Hds. apply Forall_cons in Hds as [Hc Hds].
  pose proof (consume_wp sizeof_string seen_buckets o Hb grant page p pub pend Hinv f I) as Hw. cbn [feed].
  destruct (consume _ _ _ grant page p f) as [[[[[v|]|code]|x] p'] f']; destruct Hw as [_ Ha]; cbn [note accepted] in *.
  - destruct Ha as [Ho _]. exfalso. destruct Ho. congruence.
  - apply IH; [|done]. apply Ha.
  - split; [apply Ha|done].
  - split; [apply Ha|done].
Qed.

(** A watch that has run to some page. *)
Lemma watched_keeps own bound tick tock room fs ds (w : both) :
  text own 128 = true → scene_ok limits w.1.1 w.1.2 → genuine w.1.2 → inv sizeof_string seen_buckets o w.2.1 w.2.2.1 w.2.2.2 → authentic own w.1.2 w.2.2.1 →
  bound = ""%string ∨ bound = own → ds.*1.*2 `prefix_of` answered_with own bound tick tock room fs w →
  let '(stop, (p', (pub', pend'))) := feed sizeof_string seen_buckets o ds (Stream.step sizeof_string seen_buckets o w.2 (Begin bound)) in
  inv sizeof_string seen_buckets o p' pub' pend' ∧ (pub' = w.2.2.1 ∨ pub' = Some (current_of own w.1.1 w.1.2)) ∧
  (ds.*1.*2 = answered_with own bound tick tock room fs w → Forall (λ q, complete q = false) ds.*1.*2 ∨
   match stop with
   | None => pub' = Some (current_of own w.1.1 w.1.2)
   | Some r => current_ p' = current_ (begin o bound w.2.1) ∧ (r = Thrown bad_alloc ∨ r = Done (Unexpected limit))
   end).
Proof using wire_frugal p0 is_bytes is_records made star_positions.
  destruct w as [[s log] [p [pub pend]]]. cbn [fst snd Stream.step]. intros Hown Hok Hg Hinv Ha Hbound Hpre.
  pose proof (text_bounds _ _ Hown) as Hname. pose proof (proj1 (make_projection_ok sizeof_string seen_buckets o p0 is_bytes is_records made)) as Hb.
  assert (Hinv0 : inv sizeof_string seen_buckets o (begin o bound p) pub []) by (apply begin_inv, Hinv).
  assert (Hopen : Forall (λ q, complete q = false) ds.*1.*2 →
    let '(_, (p', (pub', pend'))) := feed sizeof_string seen_buckets o ds (begin o bound p, (pub, [])) in inv sizeof_string seen_buckets o p' pub' pend' ∧ pub' = pub)
    by (by apply feed_open).
  unfold answered_with in *. cbn [fst snd] in *.
  destruct (respond own (asks (begin o bound p)) s tick tock room) as [[e|x]|x] eqn:Er.
  2,3: apply prefix_nil_inv in Hpre; rewrite Hpre in *; specialize (Hopen ltac:(constructor)); destruct (feed _ _ _ _ _) as [stop [p' [pub' pend']]];
    destruct Hopen as [? ->]; split_and!; [done|by left|]; intros _; left; constructor.
  destruct (respond_fitting own (begin o bound p) pub s log Hown Hok Hg (proj1 (proj1 Hinv0)) (conj eq_refl eq_refl) Hbound Ha room) as (e' & ls & He & Hfit).
  assert (e' = e) as ->.
  { destruct (respond_clock own (asks (begin o bound p)) s tick tock room) as [E|[[_ E]|[_ E]]]; congruence. }
  destruct Hfit as [[F1 F2] F3 F4 (F5 & F6 & F7)].
  assert (Hs : sending Some e ls) by (split; rewrite ?F1; [done|lia|done|congruence]).
  destruct (attempts_sent Some wire_size overhead_fits wire_frugal own e ls fs Hname F4 Hs F1 F2) as [Hsent _].
  pose proof (se_open _ _ _ _ _ Hsent) as Hso. set (st := foldl _ _ _) in *.
  assert (Hcases : Forall (λ q, complete q = false) ds.*1.*2 ∨ complete_ st.1 = true ∧ ds.*1.*2 = st.2).
  { destruct (complete_ st.1); [|left; destruct Hpre as [k Hk]; rewrite Hk in Hso; by apply Forall_app in Hso as [? _]].
    destruct Hso as (ps & q & E & Hps & _). rewrite E in Hpre. destruct Hpre as [k Hk]. destruct k as [|y k' _] using rev_ind.
    - right. split; [done|]. rewrite app_nil_r in Hk. congruence.
    - left. rewrite app_assoc in Hk. apply app_inj_2 in Hk as [-> _]; [|done]. by apply Forall_app in Hps as [? _]. }
  destruct Hcases as [Hall|[Hdone Hpages]].
  { specialize (Hopen Hall). destruct (feed _ _ _ _ _) as [stop [p' [pub' pend']]]. destruct Hopen as [? ->]. split_and!; [done|by left|by left]. }
  destruct (delivered_pages own e ls _ Hname (sent_delivered _ _ _ _ _ Hsent Hdone)) as (ps & q & Ep & Hps & Hq & Hrows). rewrite Ep in Hpages.
  pose proof (feed_fed sizeof_string seen_buckets o Hb ds ps q _ (begin o bound p) pub [] Hinv0 F5 F6 ltac:(by intros []) Hpages Hps Hq Hrows) as Hfed.
  unfold fed in Hfed. destruct (feed _ _ _ _ _) as [[stop|] [p' [pub' pend']]]; destruct Hfed as [Hinv' Hfed].
  - destruct Hfed as (-> & ? & ?). split_and!; [done|by left|by right].
  - destruct Hfed as [-> _]. rewrite F7 in *. split_and!; [done|by right|by right].
Qed.

Lemma seen_inv own w :
  text own 128 = true → seen own w → genuine w.1.2 →
  scene_ok limits w.1.1 w.1.2 ∧ inv sizeof_string seen_buckets o w.2.1 w.2.2.1 w.2.2.2 ∧ authentic own w.1.2 w.2.2.1.
Proof using wire_frugal p0 is_bytes is_records made star_positions opened sound_limits.
  intros Hown. induction 1 as [|w m Hw IH Hm]; intros Hg.
  - split_and!; [apply (scene_run_ok limits sound_limits s0 [] opened); constructor|apply (make_projection_ok sizeof_string seen_buckets o p0 is_bytes is_records made)|done].
  - destruct m as [op|e|bound tick tock room fs ds]; cbn [happens fst snd possible] in *.
    + assert (Hstep : ∃ more, (Scene.step limits w.1 op).2 = w.1.2 ++ more).
      { unfold Scene.step. destruct (Scene.perform _ _ _ _ _) as [[[evs|x] s'] f']; [by exists evs|exists []; by rewrite app_nil_r]. }
      destruct Hstep as [more Hmore]. rewrite Hmore in Hg. destruct (IH (genuine_prefix _ _ Hg)) as (H1 & H2 & H3).
      split_and!; [|done|rewrite Hmore; by apply authentic_prefix].
      pose proof (perform_wp limits sound_limits (sharing op.2) op.1 w.1.1 w.1.2 H1 Hm (script op.2) I) as Hp. unfold Scene.step.
      destruct (Scene.perform _ _ _ _ _) as [[[evs|x] s'] f']; apply Hp.
    + destruct (IH Hg) as (H1 & H2 & H3). destruct w as [sl [p [pub pend]]]. cbn [fst snd] in *.
      split_and!; [done|by apply (step_inv sizeof_string seen_buckets o p0 is_bytes is_records made (p, (pub, pend)))|].
      pose proof (step_ordered sizeof_string seen_buckets o p0 is_bytes is_records made p pub pend e H2) as Ho.
      destruct (Stream.step _ _ _ _ e) as [p' [pub' pend']]. cbn [fst snd]. destruct Ho as [[-> _]|(grant & page & f & -> & _ & ->)]; [done|].
      intros b [= <-] Hi. by destruct Hm.
    + destruct (IH Hg) as (H1 & H2 & H3). destruct Hm as [Hbound Hpre].
      pose proof (watched_keeps own bound tick tock room fs ds w Hown H1 Hg H2 H3 Hbound Hpre) as Hk.
      destruct (feed _ _ _ ds _) as [stop [p' [pub' pend']]]. cbn [fst snd]. destruct Hk as (K1 & K2 & _). split_and!; [done|done|].
      destruct K2 as [-> | ->]; [done|]. intros b [= <-] _. cbn [at_version entries current_of].
      destruct (so_log _ _ _ H1) as [[-> _] _ _ _]. split; [lia|]. by rewrite Nat2Z.id, take_ge.
Qed.

End watch.
