(* ===== verification/Domains.v ===== *)
(** The encodings of the three domains keep the promise of [Delivery.Delivers] to the
    client projections, and concrete watches of the Ephemeris. *)
From stdpp Require Import base numbers strings gmap list.
From S2P Require Import Prelude.
From S2P Require Import Scope.
From S2P Require Import Pages.
From S2P Require Import Index.
From S2P Require Import Scene.
From S2P Require Import Table.
From S2P Require Import Stream.
From S2P Require Import Projection.
From S2P Require Import Subscription.
From S2P Require Import Selection.
From S2P Require Import Edition.
From S2P Require Import Ephemeris.
From S2P Require Import CatalogState.
From S2P Require Import Encodings.
From S2P Require Import Delivery.
From S2P Require Import Watch.

Section domains.
Context (sizeof_vector : Z).

(** ** Catalog *)
Definition catalog_row (c : Content) : Publication :=
  {| Subscription.record := {| record_version := content_version c; record_value := default [] (content_value c) |} |}.
Definition catalog_sendable (c : Content) : Prop :=
  content_version c ≠ 0 ∧ ∃ b, content_value c = Some b ∧ buffer_size b <= 1024 * 1024.

#[export] Instance catalog_delivers : @Delivers (catalog_side sizeof_vector) Content (catalog_encoding sizeof_vector).
Proof.
  refine (@Build_Delivers (catalog_side sizeof_vector) Content (catalog_encoding sizeof_vector) catalog_row catalog_sendable (λ _ _, True) false _ _ _ _ _ _ _ _).
  - cbn. lia.
  - intros k c d Hk Hs. cbn. unfold catalog_payload. cbn [line_key line_content]. cbn in Hk. rewrite Hk. cbn [negb orb].
    destruct c as [c|]; [|exists 0; split; [done|lia]]. destruct (Hs c eq_refl) as (Hv & b & Hb & Hsize). rewrite Hb. cbn.
    rewrite (proj2 (Z.eqb_neq _ _)) by done. exists (buffer_size b). split; [done|]. unfold buffer_size in *. lia.
  - intros k c old (Hv & b & Hb & Hsize). cbn. unfold catalog_act, catalog_row. cbn. rewrite Hb. cbn.
    rewrite (proj2 (Z.eqb_neq _ _)), (proj2 (Z.ltb_ge _ _)) by done. done.
  - intros k c d old (Hv & b & Hb & Hsize) _ _. cbn. unfold catalog_act, catalog_row. cbn. rewrite Hb. cbn.
    rewrite (proj2 (Z.eqb_neq _ _)), (proj2 (Z.ltb_ge _ _)) by done. done.
  - done.
  - done.
  - done.
  - done.
Defined.

(** ** Ephemeris *)
Definition ephemeris_row (c : Registered) : Registration :=
  {| Selection.attr := default [] (content_attr c); datum := default [] (content_data c) |}.
Definition ephemeris_sendable (c : Registered) : Prop :=
  ∃ a d, content_attr c = Some a ∧ content_data c = Some d ∧ buffer_size a <= 1024 * 1024 ∧ buffer_size d <= 1024 * 1024.
Definition same_attr (c c' : Registered) : Prop := content_attr c = content_attr c'.

Lemma ephemeris_valid_uuid k : ephemeris_valid k = selection_valid k.
Proof.
  unfold ephemeris_valid, valid_uuid, selection_valid, length_of. rewrite <- length_bytes.
  destruct (Nat.eqb_spec (length (Scope.bytes k)) 16) as [E|E]; cbn [negb].
  - rewrite E. done.
  - rewrite (proj2 (Z.eqb_neq _ _)) by lia. done.
Qed.

#[export] Instance ephemeris_delivers : @Delivers (ephemeris_side sizeof_vector) Registered (ephemeris_encoding sizeof_vector).
Proof.
  refine (@Build_Delivers (ephemeris_side sizeof_vector) Registered (ephemeris_encoding sizeof_vector) ephemeris_row ephemeris_sendable same_attr true _ _ _ _ _ _ _ _).
  - cbn. lia.
  - intros k c d Hk Hs. cbn. unfold ephemeris_payload. cbn [line_key line_content line_data]. rewrite ephemeris_valid_uuid. cbn in Hk. rewrite Hk. cbn [negb orb].
    destruct c as [c|]; [|exists 0; split; [done|lia]]. destruct (Hs c eq_refl) as (a & b & Ha & Hb & Hsize & Hsize'). rewrite Ha, Hb. cbn.
    eexists. split; [done|]. unfold buffer_size in *. destruct d; lia.
  - intros k c old (a & b & Ha & Hb & Hsize & Hsize'). cbn. unfold ephemeris_encode, ephemeris_row. cbn. rewrite Ha, Hb. cbn.
    rewrite !(proj2 (Z.ltb_ge _ _)) by done. cbn. destruct old as [old|]; [|done]. cbn. destruct (bool_decide_reflect (Selection.attr old = a)) as [->|]; done.
  - intros k c d old (a & b & Ha & Hb & Hsize & Hsize') Hakin Hdata. cbn. unfold ephemeris_encode, ephemeris_row. cbn. rewrite Ha, Hb. cbn.
    destruct d.
    + destruct (Hdata eq_refl eq_refl) as [c0 ->]. specialize (Hakin c0 eq_refl). unfold same_attr in Hakin. cbn.
      rewrite (proj2 (Z.ltb_ge _ _)) by done. cbn. by rewrite Hakin, Ha.
    + cbn. rewrite !(proj2 (Z.ltb_ge _ _)) by done. cbn. destruct old as [c0|]; [|done]. specialize (Hakin c0 eq_refl). unfold same_attr in Hakin. cbn.
      rewrite Hakin, Ha. change (default [] (Some a)) with a. by rewrite (bool_decide_eq_true_2 (a = a)).
  - done.
  - intros p c. cbn. unfold ephemeris_merge. by destruct (_ && _).
  - intros p c. cbn. unfold ephemeris_merge. by destruct (_ && _).
  - intros p c _. cbn. unfold ephemeris_merge. intros Hd Hr. rewrite bool_decide_eq_true_2 in Hd by done. cbn in Hd.
    destruct (bool_decide_reflect (is_Some (event_record p))), (event_data p); done.
Defined.

(** ** Almanac *)
#[export] Instance almanac_delivers : @Delivers (almanac_side sizeof_vector) Buffer (almanac_encoding sizeof_vector).
Proof.
  refine (@Build_Delivers (almanac_side sizeof_vector) Buffer (almanac_encoding sizeof_vector) (λ b, {| Projection.value := b |}) (λ b, buffer_size b <= 1024 * 1024)
    (λ _ _, True) false _ _ _ _ _ _ _ _).
  - cbn. lia.
  - intros k c d Hk Hs. cbn. eexists. split; [done|]. destruct c as [b|]; cbn; [|lia]. specialize (Hs b eq_refl). cbn in Hs. unfold buffer_size in *. lia.
  - intros k c old Hs. cbn in *. by rewrite (proj2 (Z.ltb_ge _ _)).
  - intros k c d old Hs _ _. cbn in *. by rewrite (proj2 (Z.ltb_ge _ _)).
  - done.
  - done.
  - done.
  - done.
Defined.
End domains.

Module Sample.
Local Open Scope string_scope.

#[local] Instance client_side : Domain := ephemeris_side 24.
#[local] Instance codec : Encoding Registered := ephemeris_encoding 24.
#[local] Instance promise : Delivers codec := ephemeris_delivers 24.
#[local] Instance platform : Platform Row := Selection.Sample.platform.
#[local] Instance registrations : Layout Registered.
Proof.
  refine {| Index.measure := λ c, Z.min (size_at (content_attr c) + size_at (content_data c)) u64_max;
            Index.sizeof_event := 96; Index.sizeof_name := 40; Index.sizeof_item := 32 |}.
  - intros [[a|] [d|]]; cbn; unfold buffer_size, u64_max; lia.
  - lia.
Defined.

(** What the fields of a row take, and room for their tags and lengths. *)
Definition row_wire (c : Stream.Change) : Z :=
  length_of (key c) + 24 +
  match (action c : EphemerisAction) with
  | kRecord a d => buffer_size a + buffer_size d
  | kData d => buffer_size d
  | kErased => 0
  | kNone => 0
  end.
Definition wire (m : Mode) (v : option Z) (i : string) (cs : list Stream.Change) : Z := length_of i + 32 + foldr (λ c n, row_wire c + n) 0 cs.

Lemma row_wire_frugal l : fits l → row_wire (row_of_line l) <= cost_of l.
Proof.
  intros [_ (n & Hn & _)]. unfold row_wire, cost_of. rewrite Hn. destruct l as [k c d]. revert Hn.
  change (ephemeris_payload {| line_key := k; line_content := c; line_data := d |} = Done n →
    length_of k + 24 + match ephemeris_encode {| line_key := k; line_content := c; line_data := d |} with
      | kRecord a d => buffer_size a + buffer_size d | kData d => buffer_size d | kErased => 0 | kNone => 0 end <= length_of k + n + 48).
  unfold ephemeris_payload, ephemeris_encode. cbn [line_key line_content line_data]. destruct (_ || _) eqn:E; [done|].
  apply orb_false_iff in E as [_ E]. intros [= <-]. destruct c as [[[a|] [x|]]|]; try done; [|lia]. cbn. unfold buffer_size. destruct d; lia.
Qed.

Lemma wire_frugal m v i ls : Forall fits ls → wire m v i (row_of_line <$> ls) <= length_of i + 64 + foldr (λ l x, cost_of l + x) 0 ls.
Proof.
  intros Hf. unfold wire. assert (H : foldr (λ c n, row_wire c + n) 0 (row_of_line <$> ls) <= foldr (λ l x, cost_of l + x) 0 ls); [|lia].
  induction Hf as [|l ls Hl Hf IH]; cbn [fmap list_fmap foldr]; [lia|]. pose proof (row_wire_frugal l Hl). lia.
Qed.

Definition limits : Scene.Limits := {| Scene.records := 8; Scene.bytes := 100000; Scene.history := 8; Scene.backlog := 100000; Scene.retention := 600 |}.
Lemma watch_limits_fine : limits_ok limits.
Proof. split; cbn; unfold u64_max; lia. Qed.

Definition start : Scene.Scene (Item := Registered) :=
  {| Scene.tree_ := Pages.empty; Scene.entries_ := ∅; Scene.history_ := []; Scene.version_ := 0; Scene.bytes_ := 0; Scene.backlog_ := 0;
     Scene.editing_ := false |}.

Definition registered (d : Byte.byte) : option Registered := Some {| content_attr := Some [Byte.x01]; content_data := Some [d] |}.
Definition write (k : Byte.byte) (r : option Registered) (data : bool) : operation (Item := Registered) * circumstances :=
  (Scene.Change (Some (Selection.Sample.uuid k)) r 0 data 100000 true, Scene.Sample.calm).

(** Two registrations; the datum of the first changes twice, the second ends. *)
Definition ops : list (operation (Item := Registered) * circumstances) :=
  [write Byte.x61 (registered Byte.x02) false; write Byte.x62 (registered Byte.x03) false; write Byte.x61 (registered Byte.x04) true;
   write Byte.x62 None false; write Byte.x61 (registered Byte.x05) true].

Abbreviation both := ((Scene.Scene (Item := Registered) * list (Scene.Event (Item := Registered))) * (Projection * (option Published * list Stream.Change)))%type.
Abbreviation next := (happens limits 32 Selection.Sample.buckets Selection.Sample.options).
Abbreviation pages_of := (answered_with Selection.Sample.options 48 96 wire "star").
Definition granted (pages : list Reply) : list ((Z → bool) * Reply * faults) := (λ page, (λ _, true, page, [])) <$> pages.

(** The client sees the first registration alone, turns to another Star, and comes back
    after the other writes. *)
Definition started : both := ((start, []), (Selection.Sample.new, (None, []))).
Definition written : both := next started (Written (write Byte.x61 (registered Byte.x02) false)).
Definition first_watch : moment (Content := Registered) := Watched "star" true true 8 [[]; []] (granted (pages_of "star" true true 8 [[]; []] written)).
Definition away : both := next (next written first_watch) (Elsewhere (Begin "far")).
Definition reached : both := foldl next away (Written <$> drop 1 ops).
Definition client : Projection := begin Selection.Sample.options "" reached.2.1.

Lemma granted_pages pages : (granted pages).*1.*2 = pages.
Proof. unfold granted. rewrite <- !list_fmap_compose. apply list_fmap_id. Qed.

Lemma written_seen (w : both) ops' :
  Forall (λ op, sane (Item := Registered) op.1) ops' →
  seen limits 32 Selection.Sample.buckets Selection.Sample.options 48 96 wire Selection.Sample.new start "star" w →
  seen limits 32 Selection.Sample.buckets Selection.Sample.options 48 96 wire Selection.Sample.new start "star" (foldl next w (Written <$> ops')).
Proof.
  intros Hs. revert w. induction Hs as [|op ops' Hop Hs IH]; intros w Hw; [done|]. cbn [fmap list_fmap foldl]. apply IH. by apply seen_next.
Qed.

Definition answer : option (Edition.Edition Registered Registered) :=
  match respond 48 96 "star" (asks Selection.Sample.options client) reached.1.1 true true 8 with Expected (Done e) => Some e | _ => None end.
Definition pages : list Reply :=
  match answer with Some e => (foldl (attempt Some wire "star") (e, []) [[true]; []; []; []]).2 | None => [] end.
Definition shipped : list ((Z → bool) * Reply * faults) := granted pages.

(** One page: the datum alone of the first registration, once, and the end of the
    second, which the client never saw. *)
Example shipped_rows :
  (λ c, (key c, action c : EphemerisAction)) <$> concat (Stream.changes <$> pages) =
    [(Selection.Sample.uuid Byte.x61, kData [Byte.x05]); (Selection.Sample.uuid Byte.x62, kErased)].
Proof. by vm_compute. Qed.

Definition log : list (Scene.Event (Item := Registered)) := reached.1.2.

Definition noted (k : Byte.byte) (r : option Registered) (data : bool) (v b : Z) : Scene.Event (Item := Registered) :=
  {| event_name := Selection.Sample.uuid k; event_record := r; event_version := v; event_data := data; event_bytes := b; event_stored := 0 |}.

Lemma log_is :
  log = [noted Byte.x61 (registered Byte.x02) false 1 154; noted Byte.x62 (registered Byte.x03) false 2 154;
         noted Byte.x61 (registered Byte.x04) true 3 154; noted Byte.x62 None false 4 152; noted Byte.x61 (registered Byte.x05) true 5 154].
Proof. by vm_compute. Qed.

Lemma log_genuine : genuine log.
Proof.
  rewrite log_is. split.
  - intros e He. repeat (apply elem_of_cons in He as [->|He]; [by vm_compute|]). by apply elem_of_nil in He.
  - intros e c He. repeat (apply elem_of_cons in He as [->|He]; [intros [= <-]; eexists _, _; split_and!; done|]). by apply elem_of_nil in He.
  - intros e e' c c' He He' _ Hc Hc'. assert (Ha : ∀ x y, x ∈ [noted Byte.x61 (registered Byte.x02) false 1 154; noted Byte.x62 (registered Byte.x03) false 2 154;
         noted Byte.x61 (registered Byte.x04) true 3 154; noted Byte.x62 None false 4 152; noted Byte.x61 (registered Byte.x05) true 5 154] →
      event_record x = Some y → content_attr y = Some [Byte.x01]).
    { intros x y Hx. repeat (apply elem_of_cons in Hx as [->|Hx]; [by intros [= <-]|]). by apply elem_of_nil in Hx. }
    unfold akin, promise, ephemeris_delivers, same_attr. by rewrite (Ha e c He Hc), (Ha e' c' He' Hc').
  - intros pre e post E Hd.
    do 5 (destruct pre as [|? pre]; [injection E as <- _; first [done | (split; [done|intros _; by eexists])]|injection E as <- E]).
    by destruct pre.
Qed.

Definition scripts : list faults := [[true]; []; []; []].

Lemma watch_ops_sane : Forall (λ op, sane (Item := Registered) op.1) ops.
Proof. repeat (apply Forall_cons_2; [by vm_compute|]). by apply Forall_nil_2. Qed.

Lemma reached_seen : seen limits 32 Selection.Sample.buckets Selection.Sample.options 48 96 wire Selection.Sample.new start "star" reached.
Proof.
  unfold reached. apply written_seen; [apply Forall_drop, watch_ops_sane|]. unfold away. apply seen_next; [|done]. unfold first_watch. apply seen_next.
  - unfold written. apply seen_next; [apply seen_start|]. by vm_compute.
  - split; [by right|]. by rewrite granted_pages.
Qed.

Lemma client_showed : (λ b, (at_instance b, at_version b)) <$> reached.2.2.1 = Some ("star", 1).
Proof. by vm_compute. Qed.

Lemma all_sent :
  match answer with Some e => complete_ (foldl (attempt Some wire "star") (e, []) scripts).1 | None => false end = true.
Proof. by vm_compute. Qed.

Lemma all_consumed :
  match (feed 32 Selection.Sample.buckets Selection.Sample.options shipped (client, (reached.2.2.1, []))).1 with None => true | Some _ => false end = true.
Proof. by vm_compute. Qed.


(** Two rows that do not fit into one page, and an allocation that fails. *)
Definition heavy (d : Byte.byte) : Registered := {| content_attr := Some [Byte.x01]; content_data := Some (repeat d (Z.to_nat 150000)) |}.
Definition lines : list (Edition.Line (Content := Registered)) :=
  [full_line (Selection.Sample.uuid Byte.x61) (Some (heavy Byte.x02)); full_line (Selection.Sample.uuid Byte.x62) (Some (heavy Byte.x03))].
Definition bulk : Edition.Edition Registered Registered := frozen (Lines lines) MODE_RESET 7 0.

Lemma lines_fit : Forall fits lines.
Proof. repeat (apply Forall_cons_2; [split; [by vm_compute|eexists; split; [vm_compute; reflexivity|lia]]|]). by apply Forall_nil_2. Qed.

Lemma edition_pages_witness :
  length (foldl (attempt Some wire "star") (bulk, []) [[true]; []; [false; true]; []; []]).2 = 2%nat ∧
  complete_ (foldl (attempt Some wire "star") (bulk, []) [[true]; []; [false; true]; []; []]).1 = true.
Proof.
  split; [by vm_compute|].
  pose proof (edition_pages Some wire overhead_fits wire_frugal "star" bulk lines [[true]; []; [false; true]; []; []]
    ltac:(by vm_compute) eq_refl lines_fit eq_refl eq_refl) as (_ & _ & _ & _ & H).
  apply H. vm_compute. lia.
Defined.
End Sample.
