(* ===== verification/Parcel.v ===== *)
(** Facts on their way between Stars: [astra/star/src/parcel.hpp] and [parcel.cpp].

    A Star sends its own facts to the others as messages of [proto/astra.proto] and
    reads theirs.  A message is a record of its fields; a submessage that is absent
    reads as its default, and a [oneof] is a sum with a case for none.  [bytes] and
    [string] fields hold any bytes; the generated code copies them.

    What a Star encodes, another decodes to the same fact, and whatever it accepts
    is the encoding of the fact it takes in. *)
From stdpp Require Import base numbers strings gmap list.
From S2P Require Import Prelude.
From S2P Require Import Clock.
From S2P Require Import Scope.
From S2P Require Import Catalog.
From S2P Require Import Ephemeris.
From S2P Require Import Origin.

(** [Scope], [CatalogRecord] and [EphemerisRecord]. *)
Record ScopeMessage := { sector_bytes : string; spectrum_bytes : string }.

Inductive CatalogBody := BodyValue (value : Buffer) (deadline : Z) | BodyWatermark | BodyUnset.
Record CatalogMessage := { message_version : Z; message_body : CatalogBody }.

Record EphemerisMessage := {
  message_attr : Buffer;
  message_data : Buffer;
  message_deadline : Z;
  message_update : Z;
  message_renewal : Z;
  message_ttl : Z
}.

(** [CatalogDelta] and [EphemerisDelta]. *)
Inductive CatalogAction := CatalogFull (m : CatalogMessage) | CatalogLease (version deadline : Z) | CatalogNothing.
Inductive EphemerisAction :=
| EphemerisFull (m : EphemerisMessage) | EphemerisData (data : Buffer) (order : Z) | EphemerisLease (deadline order : Z)
| EphemerisErase | EphemerisNothing.

Record Delta (Action : Type) := { delta_position : Z; delta_scope : ScopeMessage; delta_key : string; delta_action : Action }.
Arguments delta_position {Action}.
Arguments delta_scope {Action}.
Arguments delta_key {Action}.
Arguments delta_action {Action}.

(** [CatalogChanges] and [EphemerisChanges]; [changes_bytes] is [ByteSizeLong()]. *)
Record Changes (Action : Type) := { changes_entries : list (Delta Action); changes_head : Z; changes_bytes : Z }.
Arguments changes_entries {Action}.
Arguments changes_head {Action}.
Arguments changes_bytes {Action}.

(** ** Fields *)

(** [valid(Scope)], and [scope] in both directions. *)
Definition scope_valid (m : ScopeMessage) : bool := text (sector_bytes m) 128 && text (spectrum_bytes m) 128.
Definition scope_of (m : ScopeMessage) : option Scope :=
  if scope_valid m then Some {| sector := sector_bytes m; spectrum := spectrum_bytes m |} else None.
Definition to_scope (sc : Scope) : ScopeMessage := {| sector_bytes := sector sc; spectrum_bytes := spectrum sc |}.

(** [time]. *)
Definition time_of (v : Z) : option Z := if negb (v =? 0) && (v <=? i64_max) then Some v else None.
Definition timed (v : Z) : bool := bool_decide (is_Some (time_of v)).

(** A native time as an unsigned field. *)
Definition to_time (t : Z) : Z := wrap64 t.

(** ** Catalog *)
Definition catalog_valid (m : CatalogMessage) : bool :=
  negb (message_version m =? 0)
  && match message_body m with
     | BodyWatermark => true
     | BodyValue v d => (buffer_size v <=? 1024 * 1024) && timed d
     | BodyUnset => false
     end.

(** A null deadline beside a value is excluded by [Catalog::valid]. *)
Definition to_catalog (r : Catalog.record) : outcome CatalogMessage :=
  if negb (Catalog.valid r) then Thrown logic_error
  else Done {| message_version := Catalog.version r;
               message_body := match Catalog.value r with
                               | Some b => BodyValue b (to_time (default 0 (Catalog.deadline r)))
                               | None => BodyWatermark
                               end |}.

Definition of_catalog (m : CatalogMessage) : option Catalog.record :=
  if negb (catalog_valid m) then None
  else match message_body m with
       | BodyWatermark => Some {| Catalog.version := message_version m; Catalog.value := None; Catalog.deadline := None |}
       | BodyValue v d => Some {| Catalog.version := message_version m; Catalog.value := Some v; Catalog.deadline := time_of d |}
       | BodyUnset => None
       end.

Definition catalog_delta (e : Origin.Event (Item := Catalog.record)) : outcome (Delta CatalogAction) :=
  let n := event_name e in
  if negb (Scope.valid (scope n)) || negb (text (key n) 1024) || (event_position e =? 0)
     || match event_record e with Some r => negb (Catalog.valid r) | None => true end
  then Thrown logic_error
  else
    match event_record e with
    | None => Thrown logic_error
    | Some r =>
        let message a := {| delta_position := event_position e; delta_scope := to_scope (scope n); delta_key := key n; delta_action := a |} in
        match event_form e, Catalog.deadline r with
        | form_renew, Some d => Done (message (CatalogLease (Catalog.version r) (to_time d)))
        | form_record, _ => match to_catalog r with Done m => Done (message (CatalogFull m)) | Thrown x => Thrown x end
        | _, _ => Thrown logic_error
        end
    end.

Definition catalog_action_valid (a : CatalogAction) : bool :=
  match a with
  | CatalogFull m => catalog_valid m
  | CatalogLease v d => negb (v =? 0) && timed d
  | CatalogNothing => false
  end.

(** ** Ephemeris *)
Definition ephemeris_valid (m : EphemerisMessage) : bool :=
  (buffer_size (message_attr m) <=? 1024 * 1024) && (buffer_size (message_data m) <=? 1024 * 1024)
  && (1000 <=? message_ttl m) && (message_ttl m <=? 600000) && timed (message_deadline m).

Definition to_ephemeris (r : Ephemeris.record) : outcome EphemerisMessage :=
  match Ephemeris.attr r, Ephemeris.data r with
  | Some a, Some d =>
      if (1024 * 1024 <? buffer_size a) || (1024 * 1024 <? buffer_size d) || (Ephemeris.ttl r <? 1000) || (600000 <? Ephemeris.ttl r)
         || (Ephemeris.deadline r <=? 0)
      then Thrown logic_error
      else Done {| message_attr := a; message_data := d; message_deadline := to_time (Ephemeris.deadline r);
                   message_update := update_order r; message_renewal := renewal r; message_ttl := Ephemeris.ttl r |}
  | _, _ => Thrown logic_error
  end.

Definition of_ephemeris (m : EphemerisMessage) : option Ephemeris.record :=
  if negb (ephemeris_valid m) then None
  else Some {| Ephemeris.attr := Some (message_attr m); Ephemeris.data := Some (message_data m);
               Ephemeris.deadline := default 0 (time_of (message_deadline m)); update_order := message_update m;
               renewal := message_renewal m; Ephemeris.ttl := message_ttl m |}.

Definition valid_identifier (k : string) : bool := valid_uuid (Scope.bytes k).

Definition ephemeris_delta (e : Origin.Event (Item := Ephemeris.record)) : outcome (Delta EphemerisAction) :=
  let n := event_name e in
  let erased := match event_form e with form_erase => true | _ => false end in
  if negb (Scope.valid (scope n)) || negb (valid_identifier (key n)) || (event_position e =? 0)
     || negb (Bool.eqb erased (bool_decide (event_record e = None)))
  then Thrown logic_error
  else
    let message a := {| delta_position := event_position e; delta_scope := to_scope (scope n); delta_key := key n; delta_action := a |} in
    match event_form e, event_record e with
    | form_record, Some r => match to_ephemeris r with Done m => Done (message (EphemerisFull m)) | Thrown x => Thrown x end
    | form_data, Some r =>
        match Ephemeris.data r with
        | Some d => if update_order r =? 0 then Thrown logic_error else Done (message (EphemerisData d (update_order r)))
        | None => Thrown logic_error
        end
    | form_renew, Some r =>
        if (renewal r =? 0) || (Ephemeris.deadline r <=? 0) then Thrown logic_error
        else Done (message (EphemerisLease (to_time (Ephemeris.deadline r)) (renewal r)))
    | _, _ => Done (message EphemerisErase)
    end.

Definition ephemeris_action_valid (a : EphemerisAction) : bool :=
  match a with
  | EphemerisFull m => ephemeris_valid m
  | EphemerisData d order => negb (order =? 0) && (buffer_size d <=? 1024 * 1024)
  | EphemerisLease d order => negb (order =? 0) && timed d
  | EphemerisErase => true
  | EphemerisNothing => false
  end.

(** ** Packets *)
Section packets.
Context {Action : Type} (key_valid : string → bool) (action_valid : Action → bool).

(** The loop of [valid(Changes)]; [previous] is zero before the first entry. *)
Fixpoint entries_valid (head previous : Z) (l : list (Delta Action)) : bool :=
  match l with
  | [] => true
  | d :: l =>
      if negb (scope_valid (delta_scope d)) || negb (key_valid (delta_key d)) || (delta_position d =? 0) || (head <? delta_position d)
         || (negb (previous =? 0) && ((previous =? u64_max) || negb (delta_position d =? previous + 1)))
      then false
      else if negb (action_valid (delta_action d)) then false
      else entries_valid head (delta_position d) l
  end.

Definition changes_valid (m : Changes Action) : bool :=
  if (256 <? Z.of_nat (length (changes_entries m))) || (8 * 1024 * 1024 <? changes_bytes m) then false
  else entries_valid (changes_head m) 0 (changes_entries m).
End packets.

Definition catalog_changes_valid : Changes CatalogAction → bool := changes_valid (λ k, text k 1024) catalog_action_valid.
Definition ephemeris_changes_valid : Changes EphemerisAction → bool := changes_valid valid_identifier ephemeris_action_valid.

(** ** Round trips *)

(** A generated field of type [uint64] holds an unsigned number. *)
Definition catalog_fields (m : CatalogMessage) : Prop := match message_body m with BodyValue _ d => is_u64 d | _ => True end.

(** The records that travel: valid, with a deadline after the epoch.  [Catalog::valid]
    admits a deadline at the epoch, which no message carries. *)
Definition catalog_travels (r : Catalog.record) : Prop :=
  Catalog.valid r = true ∧ ∀ d, Catalog.deadline r = Some d → 0 < d <= i64_max.
Definition ephemeris_travels (r : Ephemeris.record) : Prop := Ephemeris.valid r = true ∧ 0 < Ephemeris.deadline r <= i64_max.

Lemma to_time_id t : 0 < t <= i64_max → to_time t = t.
Proof. intros H. apply wrap64_small. unfold is_u64, u64_max, i64_max in *. lia. Qed.

Lemma time_of_some v t : time_of v = Some t → 0 <= v → t = v ∧ 0 < v <= i64_max.
Proof. unfold time_of. destruct (_ && _) eqn:E; [|done]. intros [= <-] Hv. rewrite andb_true_iff, negb_true_iff, Z.eqb_neq, Z.leb_le in E. lia. Qed.

Lemma time_of_id t : 0 < t <= i64_max → time_of t = Some t ∧ timed t = true.
Proof.
  intros H. assert (E : time_of t = Some t).
  { unfold time_of. rewrite (proj2 (Z.eqb_neq t 0)) by lia. by rewrite (proj2 (Z.leb_le _ _)) by lia. }
  split; [done|]. unfold timed. rewrite E. by apply bool_decide_eq_true.
Qed.

Lemma timed_some v : timed v = true → time_of v = Some v.
Proof. unfold timed, time_of. destruct (_ && _); [done|]. intros E%bool_decide_eq_true. by destruct E. Qed.

Lemma scope_roundtrip sc : scope_of (to_scope sc) = if Scope.valid sc then Some sc else None.
Proof. by destruct sc. Qed.

Lemma scope_of_some m sc : scope_of m = Some sc → Scope.valid sc = true ∧ to_scope sc = m.
Proof. unfold scope_of. destruct (scope_valid m) eqn:E; [|done]. intros [= <-]. by destruct m. Qed.

Lemma catalog_encodes r : catalog_travels r → ∃ m, to_catalog r = Done m ∧ of_catalog m = Some r ∧ catalog_fields m.
Proof.
  destruct r as [ver v d]. intros [Hv Hd]. unfold to_catalog. rewrite Hv. cbn. eexists. split; [done|]. unfold Catalog.valid in Hv. cbn in *.
  unfold of_catalog, catalog_valid, catalog_fields. cbn. rewrite !andb_true_iff in Hv. destruct Hv as [[H1 H2] H3]. destruct v as [b|], d as [t|]; try done.
  - specialize (Hd t eq_refl). destruct (time_of_id t Hd) as [E1 E2].
    apply andb_true_iff in H3 as [H3 _]. unfold Catalog.body_limit in H3. cbn [default]. unfold id. rewrite to_time_id, H1, H3, E2, E1 by done. split; [done|]. unfold is_u64, u64_max, i64_max in *. lia.
  - by rewrite H1.
Qed.

Lemma catalog_decodes m r : of_catalog m = Some r → catalog_fields m → catalog_travels r ∧ to_catalog r = Done m.
Proof.
  unfold of_catalog. destruct (catalog_valid m) eqn:E; [|done]. destruct m as [ver body]. unfold catalog_valid, catalog_fields in *. cbn in *.
  apply andb_true_iff in E as [Ev E]. destruct body as [b d| |]; [| |done]; intros [= <-] Hf.
  - apply andb_true_iff in E as [Eb Et]. pose proof (timed_some d Et) as Ed. rewrite Ed. destruct Hf as [Hf _]. destruct (time_of_some _ _ Ed Hf) as [_ Hd].
    assert (Hv : Catalog.valid {| Catalog.version := ver; Catalog.value := Some b; Catalog.deadline := Some d |} = true).
    { unfold Catalog.valid, Catalog.body_limit. cbn. rewrite Ev, Eb. cbn. apply Z.leb_le. lia. }
    split; [split; [done|intros ? [= <-]; done]|]. unfold to_catalog. rewrite Hv. cbn. by rewrite to_time_id.
  - assert (Hv : Catalog.valid {| Catalog.version := ver; Catalog.value := None; Catalog.deadline := None |} = true).
    { unfold Catalog.valid. cbn. by rewrite Ev. }
    split; [done|]. unfold to_catalog. by rewrite Hv.
Qed.

Lemma ephemeris_encodes r : ephemeris_travels r → ∃ m, to_ephemeris r = Done m ∧ of_ephemeris m = Some r ∧ is_u64 (message_deadline m).
Proof.
  destruct r as [a x d up re ttl]. intros [Hv Hd]. unfold Ephemeris.valid in Hv. cbn [Ephemeris.attr Ephemeris.data Ephemeris.deadline Ephemeris.ttl update_order renewal valid_value] in *. rewrite !andb_true_iff, !Z.leb_le in Hv. destruct Hv as ((((Ha & Hx) & H1) & H2) & _).
  destruct a as [a|], x as [x|]; try done. unfold valid_value, Ephemeris.body_limit in Ha, Hx. rewrite Z.leb_le in Ha, Hx.
  unfold to_ephemeris. cbn [Ephemeris.attr Ephemeris.data Ephemeris.deadline Ephemeris.ttl update_order renewal valid_value]. rewrite !(proj2 (Z.ltb_ge _ _)) by lia. rewrite (proj2 (Z.leb_gt _ _)) by lia. cbn [orb]. eexists. split; [done|].
  unfold of_ephemeris, ephemeris_valid. cbn [message_attr message_data message_deadline message_update message_renewal message_ttl]. rewrite to_time_id by done. destruct (time_of_id d Hd) as [-> ->].
  rewrite !(proj2 (Z.leb_le _ _)) by lia. split; [done|]. unfold is_u64, u64_max, i64_max in *. lia.
Qed.

Lemma ephemeris_decodes m r : of_ephemeris m = Some r → is_u64 (message_deadline m) → ephemeris_travels r ∧ to_ephemeris r = Done m.
Proof.
  unfold of_ephemeris. destruct (ephemeris_valid m) eqn:E; [|done]. destruct m as [a x d up re ttl]. unfold ephemeris_valid in E. cbn in *. intros [= <-] Hf.
  rewrite !andb_true_iff, !Z.leb_le in E. destruct E as ((((Ha & Hx) & H1) & H2) & Ht). pose proof (timed_some d Ht) as Ed. rewrite Ed.
  destruct Hf as [Hf _]. destruct (time_of_some _ _ Ed Hf) as [_ Hd]. split; [split; [|done]|].
  - unfold Ephemeris.valid, valid_value, Ephemeris.body_limit. cbn. by rewrite !(proj2 (Z.leb_le _ _)) by lia.
  - unfold to_ephemeris. cbn. rewrite !(proj2 (Z.ltb_ge _ _)) by lia. rewrite (proj2 (Z.leb_gt _ _)) by lia. cbn. by rewrite to_time_id.
Qed.

Lemma ephemeris_invalid r : Ephemeris.valid r = false → to_ephemeris r = Thrown logic_error.
Proof.
  intros Hr. unfold to_ephemeris. destruct r as [[a|] [x|] d up re ttl]; try done. unfold Ephemeris.valid, valid_value, Ephemeris.body_limit in Hr.
  cbn [Ephemeris.attr Ephemeris.data Ephemeris.deadline Ephemeris.ttl update_order renewal valid_value] in *.
  destruct (_ || _) eqn:E; [done|]. exfalso. rewrite !orb_false_iff, !Z.ltb_ge, Z.leb_gt in E.
  rewrite !(proj2 (Z.leb_le _ _)) in Hr by lia. done.
Qed.

(** *** Deltas *)
Lemma catalog_delta_sound e d :
  (∀ r, event_record e = Some r → catalog_travels r) → catalog_delta e = Done d →
  delta_position d = event_position e ∧ event_position e ≠ 0 ∧ scope_of (delta_scope d) = Some (scope (event_name e)) ∧
  delta_key d = key (event_name e) ∧ text (delta_key d) 1024 = true ∧ catalog_action_valid (delta_action d) = true.
Proof.
  intros Ht. unfold catalog_delta. destruct (_ || _) eqn:E; [done|]. rewrite !orb_false_iff, !negb_false_iff, Z.eqb_neq in E. destruct E as (((E1 & E2) & E3) & _).
  destruct (event_record e) as [r|] eqn:Er; [|done]. destruct (Ht r eq_refl) as [Hv Hd].
  assert (Hname : ∀ a, catalog_action_valid a = true →
    d = {| delta_position := event_position e; delta_scope := to_scope (scope (event_name e)); delta_key := key (event_name e); delta_action := a |} →
    delta_position d = event_position e ∧ event_position e ≠ 0 ∧ scope_of (delta_scope d) = Some (scope (event_name e)) ∧
    delta_key d = key (event_name e) ∧ text (delta_key d) 1024 = true ∧ catalog_action_valid (delta_action d) = true).
  { intros a Ha ->. cbn. rewrite scope_roundtrip, E1. done. }
  destruct (event_form e), (Catalog.deadline r) as [t|] eqn:Edl; try done.
  3: { intros [= <-]. eapply Hname; [|done]. cbn. specialize (Hd t eq_refl). rewrite to_time_id by done. destruct (time_of_id t Hd) as [_ ->].
       unfold Catalog.valid in Hv. rewrite !andb_true_iff in Hv. destruct Hv as [[-> _] _]. done. }
  all: destruct (catalog_encodes r (Ht r eq_refl)) as (m & Hm & Hof & _); rewrite Hm; intros [= <-]; (eapply Hname; [|done]);
    cbn [catalog_action_valid]; unfold of_catalog in Hof; by destruct (catalog_valid m).
Qed.

Lemma ephemeris_delta_sound e d :
  (∀ r, event_record e = Some r → ephemeris_travels r) → ephemeris_delta e = Done d →
  delta_position d = event_position e ∧ event_position e ≠ 0 ∧ scope_of (delta_scope d) = Some (scope (event_name e)) ∧
  delta_key d = key (event_name e) ∧ valid_identifier (delta_key d) = true ∧ ephemeris_action_valid (delta_action d) = true.
Proof.
  intros Ht. unfold ephemeris_delta. destruct (_ || _) eqn:E; [done|]. rewrite !orb_false_iff, !negb_false_iff, Z.eqb_neq in E. destruct E as (((E1 & E2) & E3) & E4).
  assert (Hname : ∀ a, ephemeris_action_valid a = true →
    d = {| delta_position := event_position e; delta_scope := to_scope (scope (event_name e)); delta_key := key (event_name e); delta_action := a |} →
    delta_position d = event_position e ∧ event_position e ≠ 0 ∧ scope_of (delta_scope d) = Some (scope (event_name e)) ∧
    delta_key d = key (event_name e) ∧ valid_identifier (delta_key d) = true ∧ ephemeris_action_valid (delta_action d) = true).
  { intros a Ha ->. cbn. rewrite scope_roundtrip, E1. done. }
  destruct (event_record e) as [r|] eqn:Er.
  2: { destruct (event_form e); try done. intros [= <-]. by apply (Hname EphemerisErase). }
  pose proof (Ht r eq_refl) as [Hv Hd]. destruct (event_form e); [| | |done].
  - destruct (ephemeris_encodes r (Ht r eq_refl)) as (m & Hm & Hof & _). rewrite Hm. intros [= <-]. eapply Hname; [|done].
    cbn [ephemeris_action_valid]. unfold of_ephemeris in Hof. by destruct (ephemeris_valid m).
  - unfold Ephemeris.valid, valid_value, Ephemeris.body_limit in Hv. destruct (Ephemeris.data r) as [b|]; [|done]. destruct (update_order r =? 0) eqn:Eo; [done|].
    intros [= <-]. eapply Hname; [|done]. cbn. rewrite Eo. rewrite !andb_true_iff in Hv. cbn. apply Hv.
  - destruct (_ || _) eqn:Eo; [done|]. apply orb_false_iff in Eo as [Eo _]. intros [= <-]. eapply Hname; [|done]. cbn. rewrite Eo, to_time_id by done.
    by destruct (time_of_id (Ephemeris.deadline r) Hd) as [_ ->].
Qed.

(** C40. The messages between Stars lose nothing and admit nothing else.  A record with a
    valid body and a deadline after the epoch has a message, and the message reads back
    as that record; a message that is accepted reads as such a record, and is its only
    message.  A record the rules call invalid is never sent.  Scopes likewise. *)
Theorem parcel_roundtrip :
  (∀ r, catalog_travels r → ∃ m, to_catalog r = Done m ∧ of_catalog m = Some r) ∧
  (∀ m r, catalog_fields m → of_catalog m = Some r → catalog_travels r ∧ to_catalog r = Done m) ∧
  (∀ r, Catalog.valid r = false → to_catalog r = Thrown logic_error) ∧
  (∀ r, ephemeris_travels r → ∃ m, to_ephemeris r = Done m ∧ of_ephemeris m = Some r) ∧
  (∀ m r, is_u64 (message_deadline m) → of_ephemeris m = Some r → ephemeris_travels r ∧ to_ephemeris r = Done m) ∧
  (∀ r, Ephemeris.valid r = false → to_ephemeris r = Thrown logic_error) ∧
  (∀ sc, scope_of (to_scope sc) = if Scope.valid sc then Some sc else None) ∧
  (∀ m sc, scope_of m = Some sc → Scope.valid sc = true ∧ to_scope sc = m).
Proof.
  split_and!.
  - intros r Hr. destruct (catalog_encodes r Hr) as (m & ? & ? & _). eauto.
  - intros m r Hm Hr. by apply catalog_decodes.
  - intros r Hr. unfold to_catalog. by rewrite Hr.
  - intros r Hr. destruct (ephemeris_encodes r Hr) as (m & ? & ? & _). eauto.
  - intros m r Hm Hr. by apply ephemeris_decodes.
  - apply ephemeris_invalid.
  - apply scope_roundtrip.
  - apply scope_of_some.
Qed.
