(* ===== verification/Dispatch.v ===== *)
(** The sending half of the replication between Stars: [astra/star/src/dispatch.hpp].

    A [Dispatch] brings one peer up to date with this Star's own source.  It looks at
    the source ([Origin.deliver]) each time it has nothing prepared, and prepares one
    packet: the next announced events, or the next page of a baseline captured when
    the history does not reach back.  Positions advance when the packet is handed to
    the stream, not before.

    The two instances differ in the messages, which is the class [Wire]. *)
From stdpp Require Import base numbers strings gmap list.
From S2P Require Import Prelude.
From S2P Require Import Scope.
From S2P Require Import Pages.
From S2P Require Import Index.
From S2P Require Import Origin.
From S2P Require Import Parcel.

(** [CatalogEntry] and [CatalogSnapshot], and the same of the Ephemeris. *)
Record Entry (Message : Type) := { entry_scope : ScopeMessage; entry_key : string; entry_record : option Message }.
Arguments entry_scope {Message}.
Arguments entry_key {Message}.
Arguments entry_record {Message}.
Record Snapshot (Message : Type) := {
  snapshot_position : Z;
  snapshot_entries : list (Entry Message);
  snapshot_complete : bool;
  snapshot_bytes : Z
}.
Arguments snapshot_position {Message}.
Arguments snapshot_entries {Message}.
Arguments snapshot_complete {Message}.
Arguments snapshot_bytes {Message}.

(** The messages of a domain, with the sizes ([ByteSizeLong]) the generated code
    computes. *)
Class Wire (Item : Type) := {
  Action : Type;
  Message : Type;
  key_valid : string → bool;
  action_valid : Action → bool;
  delta_of : Event (Item := Item) → outcome (Delta Action);
  message_of : Item → outcome Message;
  read_message : Message → option Item;
  delta_size : Delta Action → Z;
  entry_size : Entry Message → Z;
  changes_size : Z → list (Delta Action) → Z;
  snapshot_size : Z → list (Entry Message) → bool → Z
}.

(** What a domain's messages promise.  [travels] are the items that have a message, which
    reads back as the item; the delta of an event names what the event names, and a
    receiver accepts it. *)
Class Carried (Item : Type) {wire : Wire Item} (binary : bool) := {
  travels : Item → Prop;
  carried_key k : key_valid k = valid_key binary k;
  carried_there i : travels i → ∃ m, message_of i = Done m;
  carried_back i m : travels i → message_of i = Done m → read_message m = Some i;
  carried_delta e d : (∀ i, event_record e = Some i → travels i) → delta_of e = Done d →
    delta_position d = event_position e ∧ event_position e ≠ 0 ∧ scope_of (delta_scope d) = Some (scope (event_name e)) ∧
    delta_key d = key (event_name e) ∧ key_valid (delta_key d) = true ∧ action_valid (delta_action d) = true
}.

Section dispatch.
Context {Item : Type} {layout : Layout Item} {wire : Wire Item}.
Abbreviation Source := (Origin (Item := Item)).

(** The two bodies of [SessionPacket] a dispatch writes. *)
Inductive Packet := ChangesPacket (m : Changes Action) | SnapshotPacket (m : Snapshot Message).

(** The constant members; [reserve_] and [release_] tell which budget callbacks are set. *)
Record Limits := { capacity_ : Z; target_ : Z; reserve_ : bool; release_ : bool }.

(** [retained_] is what this object holds of the budget. *)
Record Dispatch := {
  baseline_ : option (View (Item := Item));
  packet_ : option Packet;
  sent_ : Z;
  acknowledged_ : Z;
  position_next_ : Z;
  offset_ : Z;
  offset_next_ : Z;
  retained_ : Z;
  opened_ : bool;
  initial_ : bool
}.

Context (li : Limits).

Definition make : outcome Dispatch :=
  if (capacity_ li <? 64) || (8 * 1024 * 1024 <? capacity_ li) || (target_ li =? 0) || (capacity_ li <? target_ li)
     || negb (Bool.eqb (reserve_ li) (release_ li))
  then Thrown invalid_argument
  else Done {| baseline_ := None; packet_ := None; sent_ := 0; acknowledged_ := 0; position_next_ := 0; offset_ := 0; offset_next_ := 0;
               retained_ := 0; opened_ := false; initial_ := true |}.

Definition hold (v : View) (d : Dispatch) : Dispatch :=
  {| baseline_ := Some v; packet_ := packet_ d; sent_ := sent_ d; acknowledged_ := acknowledged_ d; position_next_ := position_next_ d;
     offset_ := 0; offset_next_ := offset_next_ d; retained_ := view_bytes v; opened_ := opened_ d; initial_ := initial_ d |}.
Definition ready_changes (m : Changes Action) (p : Z) (d : Dispatch) : Dispatch :=
  {| baseline_ := baseline_ d; packet_ := Some (ChangesPacket m); sent_ := sent_ d; acknowledged_ := acknowledged_ d; position_next_ := p;
     offset_ := offset_ d; offset_next_ := offset_next_ d; retained_ := retained_ d; opened_ := opened_ d; initial_ := initial_ d |}.
Definition ready_snapshot (m : Snapshot Message) (n : Z) (d : Dispatch) : Dispatch :=
  {| baseline_ := baseline_ d; packet_ := Some (SnapshotPacket m); sent_ := sent_ d; acknowledged_ := acknowledged_ d;
     position_next_ := position_next_ d; offset_ := offset_ d; offset_next_ := n; retained_ := retained_ d; opened_ := opened_ d;
     initial_ := initial_ d |}.

(** [State::deliver]. *)
Definition look (since count budget : Z) : eff (Source * Dispatch) (expected Delivery Error) :=
  zoom fst (λ o p, (o, p.2)) (deliver true since count budget).
Definition on_dispatch (f : Dispatch → Dispatch) (p : Source * Dispatch) : Source * Dispatch := (p.1, f p.2).

Definition resume (position : Z) : eff (Source * Dispatch) (expected unit Error) :=
  p <- read ;;
  if opened_ p.2 then ret (Unexpected input)
  else
    r <- look position 1 (capacity_ li) ;;
    match r with
    | Unexpected x => ret (Unexpected x)
    | Expected _ =>
        modify (on_dispatch (λ d,
          {| baseline_ := baseline_ d; packet_ := packet_ d; sent_ := position; acknowledged_ := position; position_next_ := position_next_ d;
             offset_ := offset_ d; offset_next_ := offset_next_ d; retained_ := retained_ d; opened_ := true; initial_ := initial_ d |})) ;;;
        ret (Expected tt)
    end.

(** [encoded]: a submessage of [size] bytes with its tag and length; a [SessionPacket]
    is one such submessage. *)
Definition bit_width (n : Z) : Z := if n =? 0 then 0 else Z.log2 n + 1.
Definition encoded (size : Z) : Z := 1 + Z.max 1 ((bit_width size + 6) / 7) + size.

(** The loop of [changes]: what has been packed, and up to which position. *)
Fixpoint pack (es : list (Event (Item := Item))) (packed : list (Delta Action)) (bytes position : Z)
    : eff (Source * Dispatch) (expected (list (Delta Action) * Z) Error) :=
  match es with
  | [] => ret (Expected (packed, position))
  | e :: es =>
      entry <- lift (delta_of e) ;;
      let cost := encoded (delta_size entry) in
      if negb (bool_decide (packed = [])) && (target_ li - Z.min bytes (target_ li) <? cost) then ret (Expected (packed, position))
      else if capacity_ li - bytes <? cost then ret (Unexpected capacity)
      else alloc ;;; pack es (packed ++ [entry]) (bytes + cost) (event_position e)
  end.

(** [changes]. *)
Definition prepare_changes (delivery : Delivery) : eff (Source * Dispatch) (expected unit Error) :=
  p <- read ;;
  packed <-? pack (events delivery) [] 32 (sent_ p.2) ;;
  let size := changes_size (head delivery) packed.1 in
  if capacity_ li <? encoded size then ret (Unexpected capacity)
  else
    alloc ;;;
    modify (on_dispatch (ready_changes {| changes_entries := packed.1; changes_head := head delivery; changes_bytes := size |} packed.2)) ;;;
    ret (Expected tt).

(** The page under construction: its rows, its size, and whether a row did not fit. *)
Record Filling := { filled : list (Entry Message); filled_bytes : Z; exceeded : bool }.

Definition add_entry (sc : Scope) (k : string) (i : Item) : eff Filling bool :=
  m <- lift (message_of i) ;;
  let entry := {| entry_scope := to_scope sc; entry_key := k; entry_record := Some m |} in
  let cost := encoded (entry_size entry) in
  x <- read ;;
  if negb (bool_decide (filled x = [])) && (target_ li - Z.min (filled_bytes x) (target_ li) <? cost) then ret false
  else if capacity_ li - filled_bytes x <? cost
  then modify (λ x, {| filled := filled x; filled_bytes := filled_bytes x; exceeded := true |}) ;;; ret false
  else
    alloc ;;;
    modify (λ x, {| filled := filled x ++ [entry]; filled_bytes := filled_bytes x + cost; exceeded := exceeded x |}) ;;;
    ret true.

(** A value built in a local object, which is gone when an exception passes. *)
Definition locally {S T A} (t : T) (m : eff T A) : eff S (A * T) :=
  λ s f, match m t f with
         | (Done a, t, f) => (Done (a, t), s, f)
         | (Thrown x, _, f) => (Thrown x, s, f)
         end.

(** [snapshot]; a missing baseline would be a null dereference. *)
Definition prepare_snapshot : eff (Source * Dispatch) (expected unit Error) :=
  p <- read ;;
  match baseline_ p.2 with
  | None => throw logic_error
  | Some v =>
      r <- locally {| filled := []; filled_bytes := 32; exceeded := false |} (view_page (offset_ p.2) 256 add_entry v) ;;
      if exceeded r.2 then ret (Unexpected capacity)
      else
        let last := offset_ p.2 + r.1 =? view_size v in
        let size := snapshot_size (view_position v) (filled r.2) last in
        if capacity_ li <? encoded size then ret (Unexpected capacity)
        else
          alloc ;;;
          modify (on_dispatch (ready_snapshot
            {| snapshot_position := view_position v; snapshot_entries := filled r.2; snapshot_complete := last; snapshot_bytes := size |}
            (offset_ p.2 + r.1))) ;;;
          ret (Expected tt)
  end.

(** [prepare]: the packet, if there is one; [grant] is what the budget answers. *)
Definition prepare (grant : Z → bool) : eff (Source * Dispatch) (expected (option Packet) Error) :=
  p <- read ;;
  if negb (opened_ p.2) then ret (Unexpected input)
  else
    match packet_ p.2 with
    | Some x => ret (Expected (Some x))
    | None =>
        let page := _ <-? prepare_snapshot ;; p <- read ;; ret (Expected (packet_ p.2)) in
        match baseline_ p.2 with
        | Some _ => page
        | None =>
            delivery <-? look (sent_ p.2) 256 (capacity_ li) ;;
            match baseline delivery with
            | Some v =>
                if reserve_ li && negb (grant (view_bytes v)) then ret (Unexpected capacity)
                else modify (on_dispatch (hold v)) ;;; page
            | None =>
                if negb (initial_ p.2) && bool_decide (events delivery = []) then ret (Expected None)
                else _ <-? prepare_changes delivery ;; p <- read ;; ret (Expected (packet_ p.2))
            end
        end
    end.

(** [dispatched], with the packet handed over. *)
Definition advance (d : Dispatch) : Dispatch :=
  match baseline_ d with
  | Some v =>
      if offset_next_ d =? view_size v
      then {| baseline_ := None; packet_ := None; sent_ := view_position v; acknowledged_ := acknowledged_ d; position_next_ := position_next_ d;
              offset_ := offset_next_ d; offset_next_ := offset_next_ d; retained_ := 0; opened_ := opened_ d; initial_ := false |}
      else {| baseline_ := Some v; packet_ := None; sent_ := sent_ d; acknowledged_ := acknowledged_ d; position_next_ := position_next_ d;
              offset_ := offset_next_ d; offset_next_ := offset_next_ d; retained_ := retained_ d; opened_ := opened_ d; initial_ := false |}
  | None =>
      {| baseline_ := None; packet_ := None; sent_ := position_next_ d; acknowledged_ := acknowledged_ d; position_next_ := position_next_ d;
         offset_ := offset_ d; offset_next_ := offset_next_ d; retained_ := retained_ d; opened_ := opened_ d; initial_ := false |}
  end.
Definition dispatched : eff (Source * Dispatch) Packet :=
  p <- read ;;
  match packet_ p.2 with
  | None => throw logic_error
  | Some x => modify (on_dispatch advance) ;;; ret x
  end.

(** [acknowledge]. *)
Definition acknowledge (position : Z) (d : Dispatch) : bool * Dispatch :=
  if negb (opened_ d) || (position <? acknowledged_ d) || (sent_ d <? position) then (false, d)
  else (true, {| baseline_ := baseline_ d; packet_ := packet_ d; sent_ := sent_ d; acknowledged_ := position; position_next_ := position_next_ d;
                 offset_ := offset_ d; offset_next_ := offset_next_ d; retained_ := retained_ d; opened_ := opened_ d; initial_ := initial_ d |}).
End dispatch.

Arguments Packet Item {wire}.
Arguments Dispatch Item {wire}.

(** ** What a stream of packets conveys *)
Section conveys.
Context {Item : Type} {layout : Layout Item} {wire : Wire Item}.
Abbreviation Facts := (gmap Name Item).
Implicit Types (told : list (Event (Item := Item))) (out : list (Packet Item)) (l : list (Name * Item)).

(** The rows of a snapshot are the encodings of the facts of [l]. *)
Definition entry_for (x : Name * Item) (e : Entry Message) : Prop :=
  ∃ m, message_of x.2 = Done m ∧ e = {| entry_scope := to_scope (scope x.1); entry_key := key x.1; entry_record := Some m |}.

Definition lists_facts l (m : Facts) : Prop := NoDup l.*1 ∧ ∀ n i, (n, i) ∈ l ↔ m !! n = Some i.

(** A packet of the events from position [p] to position [q]. *)
Record run_of told (cap p q : Z) (m : Changes Action) : Prop := {
  ro_range : 0 <= p <= q ∧ q <= Z.of_nat (length told);
  ro_events : Forall2 (λ e d, delta_of e = Done d) (take (Z.to_nat (q - p)) (drop (Z.to_nat p) told)) (changes_entries m);
  ro_head : q <= changes_head m <= Z.of_nat (length told);
  ro_count : Z.of_nat (length (changes_entries m)) <= 256;
  ro_bytes : encoded (changes_bytes m) <= cap
}.

(** The pages of an unfinished snapshot at position [at_] hold the rows [es]. *)
Inductive pages_of (cap at_ : Z) : list (Packet Item) → list (Entry Message) → Prop :=
| pages_none : pages_of cap at_ [] []
| pages_more ps es es' n : pages_of cap at_ ps es → es' ≠ [] → Z.of_nat (length es') <= 256 → encoded n <= cap →
    pages_of cap at_ (ps ++ [SnapshotPacket {| snapshot_position := at_; snapshot_entries := es'; snapshot_complete := false; snapshot_bytes := n |}])
      (es ++ es').

(** Packets that bring a peer from position [start] to a position: each one continues
    where the last one ended, with the next events, or a whole capture of the facts the
    source had at a later position. *)
Inductive conveys told (caps : list (Z * Facts)) (cap start : Z) : list (Packet Item) → Z → Prop :=
| conveys_start : conveys told caps cap start [] start
| conveys_run out p q m : conveys told caps cap start out p → run_of told cap p q m → conveys told caps cap start (out ++ [ChangesPacket m]) q
| conveys_capture out p at_ m l ps es es' n :
    conveys told caps cap start out p → p <= at_ → (at_, m) ∈ caps → lists_facts l m → pages_of cap at_ ps es →
    Forall2 entry_for l (es ++ es') → Z.of_nat (length es') <= 256 → encoded n <= cap →
    conveys told caps cap start
      (out ++ ps ++ [SnapshotPacket {| snapshot_position := at_; snapshot_entries := es'; snapshot_complete := true; snapshot_bytes := n |}]) at_.

Lemma run_of_mono told told' cap p q m : told `prefix_of` told' → run_of told cap p q m → run_of told' cap p q m.
Proof.
  intros [more ->] [R1 R2 R3 R4 R5]. split; [rewrite length_app; lia| |rewrite length_app; lia|done|done].
  rewrite drop_app_le by lia. rewrite take_app_le; [done|]. rewrite length_drop. lia.
Qed.

Lemma conveys_mono told told' caps caps' cap start out p :
  told `prefix_of` told' → caps ⊆ caps' → conveys told caps cap start out p → conveys told' caps' cap start out p.
Proof.
  intros Ht Hc. induction 1 as [|out p q m _ IH Hr|out p at_ m l ps es es' n _ IH Hp Hin Hl Hps Hes Hlen Hn].
  - constructor.
  - econstructor; [done|]. by eapply run_of_mono.
  - econstructor; try done. by apply Hc.
Qed.
End conveys.

(** ** Reading the source *)
Section looking.
Context {Item : Type} {layout : Layout Item} {wire : Wire Item} (binary : bool) (limits : Origin.Limits).
Abbreviation agrees := (agrees true limits).

(** [deliver] needs memory for the events only. *)
Lemma deliver_faults since count budget (o : Origin (Item := Item)) f r o' f0 :
  deliver true since count budget o [] = (r, o', f0) →
  ∃ f', deliver true since count budget o f = (r, o', f') ∨ (deliver true since count budget o f = (Thrown bad_alloc, o, f')).
Proof.
  unfold deliver, capture, idle, gets, bind, read, ret, throw, alloc. cbn.
  destruct (editing_ o) eqn:Ei; cbn; [intros [= <- <- <-]; eauto|]. destruct (_ || _); cbn; [intros [= <- <- <-]; eauto|].
  destruct (_ <? since); cbn; [intros [= <- <- <-]; eauto|]. destruct (since =? _); cbn; [intros [= <- <- <-]; eauto|].
  set (stale := match upper_bound since (history_ o) with [] => true | e :: _ => negb (event_position e - 1 =? since) end).
  destruct stale; cbn; rewrite ?Ei; [intros [= <- <- <-]; eauto|].
  destruct (gather _ _ _ _ _); cbn; [|intros [= <- <- <-]; eauto]. intros [= <- <- <-]. destruct f as [|[] f]; eauto.
Qed.

(** A captured view enumerates the facts. *)
Definition shows_facts (v : View (Item := Item)) (l : list (Name * Item)) : Prop := view_size v = Z.of_nat (length l) ∧ turns (view_root v) l.

Lemma capture_facts o w :
  agrees o w → ∃ v l, capture o [] = (Done v, o, []) ∧ shows_facts v l ∧ lists_facts l (rows w) ∧ view_position v = place (log w).
Proof.
  intros (Hi & Hj & fl & es & Hh). destruct (spells_turns _ _ _ (ho_spells _ _ _ _ _ Hh)) as (l & L1 & L2 & L3 & L4). eexists. exists l.
  unfold capture, idle, bind, read, ret, gets. cbn. rewrite Hi. split_and!; [done|done|done|apply (jo_place _ _ _ _ Hj)].
Qed.

(** What [look] returns. *)
Definition looked (w : model) (since : Z) (r : expected Delivery Error) : Prop :=
  match r with
  | Unexpected _ => True
  | Expected d =>
      since <= place (log w) ∧ head d = place (log w) ∧
      match baseline d with
      | Some v => ∃ l, shows_facts v l ∧ lists_facts l (rows w) ∧ view_position v = place (log w)
      | None => events d `prefix_of` drop (Z.to_nat since) (told (log w)) ∧ (since < place (log w) → events d ≠ []) ∧
          Z.of_nat (length (events d)) <= 256
      end
  end.

Lemma look_source_wp o w (d : Dispatch Item) since budget :
  agrees o w → 0 <= since → 0 < budget →
  wp Faulty (look since 256 budget) (λ r p, p = (o, d) ∧ looked w since r) (λ _ p, p = (o, d)) (o, d).
Proof.
  intros Hok Hs Hb. unfold look. apply wp_zoom. cbn [fst]. intros f _.
  destruct (deliver_spec true limits o w since 256 budget Hok eq_refl Hs ltac:(lia) Hb) as (r & Hr & Hspec).
  destruct (deliver_faults since 256 budget o f _ _ _ Hr) as (f' & [-> | ->]); [|done]. split; [done|]. split; [done|].
  destruct r as [dl|x]; [|done]. destruct Hspec as (H1 & H2 & H3). split_and!; [done|done|]. destruct (baseline dl) as [v|]; [|naive_solver].
  destruct H3 as (_ & _ & Hc). destruct (capture_facts o w Hok) as (v' & l & Hc' & Hl). rewrite Hc in Hc'. injection Hc' as <-. eauto.
Qed.
End looking.

(** ** What a sender keeps *)
Section sending.
Context {Item : Type} {layout : Layout Item} {wire : Wire Item} (limits : Origin.Limits) (li : Limits).
Abbreviation agrees := (agrees true limits).
Abbreviation Facts := (gmap Name Item).
Implicit Types (told : list (Event (Item := Item))) (caps : list (Z * Facts)) (out : list (Packet Item)) (d : Dispatch Item).
Abbreviation conveys told caps := (conveys told caps (capacity_ li)).

(** The rest of a baseline: [sent_part] rows of [l] are in the pages [ps] already. *)
Record paging told caps start d out (v : View (Item := Item)) : Prop := {
  pg_stream : ∃ base ps es l m, out = base ++ ps ∧ conveys told caps start base (sent_ d) ∧ (view_position v, m) ∈ caps ∧ lists_facts l m ∧
    shows_facts v l ∧ pages_of (capacity_ li) (view_position v) ps es ∧ Forall2 entry_for (take (Z.to_nat (offset_ d)) l) es ∧
    match packet_ d with
    | None => True
    | Some pk => ∃ es' n, pk = SnapshotPacket {| snapshot_position := view_position v; snapshot_entries := es';
          snapshot_complete := (offset_next_ d =? view_size v); snapshot_bytes := n |} ∧
        Forall2 entry_for (take (Z.to_nat (offset_next_ d - offset_ d)) (drop (Z.to_nat (offset_ d)) l)) es' ∧
        Z.of_nat (length es') <= 256 ∧ encoded n <= capacity_ li ∧ (offset_next_ d ≠ view_size v → es' ≠ []) ∧ offset_ d <= offset_next_ d <= view_size v
    end;
  pg_offset : 0 <= offset_ d <= view_size v;
  pg_position : sent_ d <= view_position v <= Z.of_nat (length told)
}.

Record serves told caps start d out : Prop := {
  sv_range : 0 <= acknowledged_ d <= sent_ d ∧ sent_ d <= Z.of_nat (length told);
  sv_stream : match baseline_ d with
    | None => conveys told caps start out (sent_ d) ∧
        match packet_ d with
        | None => True
        | Some pk => ∃ m, pk = ChangesPacket m ∧ run_of told (capacity_ li) (sent_ d) (position_next_ d) m
        end
    | Some v => paging told caps start d out v
    end
}.

Definition stream_ok told caps start d out : Prop :=
  if opened_ d then serves told caps start d out else out = [] ∧ packet_ d = None ∧ baseline_ d = None.

Lemma stream_mono told told' caps caps' start d out :
  told `prefix_of` told' → caps ⊆ caps' → stream_ok told caps start d out → stream_ok told' caps' start d out.
Proof.
  intros Ht Hc. assert (Hlen : (length told <= length told')%nat) by (destruct Ht as [? ->]; rewrite length_app; lia).
  unfold stream_ok. destruct (opened_ d); [|done]. intros [S1 S2]. split; [lia|]. destruct (baseline_ d) as [v|].
  - destruct S2 as [(base & ps & es & l & m & P1 & P2 & P3 & P) P4 P5]. split; [|done|lia].
    exists base, ps, es, l, m. split_and!; [done|by eapply conveys_mono|by apply Hc|apply P..].
  - destruct S2 as [C1 C2]. split; [by eapply conveys_mono|]. destruct (packet_ d); [|done]. destruct C2 as (m & -> & Hr). exists m. split; [done|]. by eapply run_of_mono.
Qed.

(** *** Packing events *)
Lemma pack_wp es packed bytes position (p : Origin (Item := Item) * Dispatch Item) :
  wp Faulty (pack li es packed bytes position)
    (λ r p', p' = p ∧ ∀ ds q, r = Expected (ds, q) → ∃ n more, ds = packed ++ more ∧ (n <= length es)%nat ∧
       Forall2 (λ e x, delta_of e = Done x) (take n es) more ∧ q = default position (event_position <$> last (take n es)))
    (λ _ p', p' = p) p.
Proof.
  revert packed bytes position. induction es as [|e es IH]; intros packed bytes position; cbn [pack].
  { wp_step. split; [done|]. intros ds q [= <- <-]. exists 0%nat, []. rewrite app_nil_r. done. }
  wp_step. apply wp_lift. destruct (delta_of e) as [entry|x] eqn:Ee; [|done]. cbv zeta.
  apply wp_if; intros _.
  { wp_step. split; [done|]. intros ds q [= <- <-]. exists 0%nat, []. rewrite app_nil_r. split_and!; [done|lia|done|done]. }
  apply wp_if; intros _; [by wp_step|]. wp_step. wp_step; [|done]. eapply wp_mono; [apply IH| |done].
  intros r p' [-> Hr]. split; [done|]. intros ds q E. destruct (Hr ds q E) as (n & more & -> & Hn & Hf & ->). exists (S n), (entry :: more).
  split_and!; [by rewrite <- app_assoc|cbn; lia|cbn; by constructor|]. cbn [take]. rewrite last_cons. by destruct (last (take n es)).
Qed.

(** *** Filling a page *)
Definition fill_page (l : list (Name * Item)) : eff Filling Z := Pages.deliver (λ n i, add_entry li (scope n) (key n) i) l.

Lemma fill_entries_wp l x :
  wp Faulty (fill_page l)
    (λ n x', 0 <= n <= Z.of_nat (length l) ∧ (∃ more, filled x' = filled x ++ more ∧ Forall2 entry_for (take (Z.to_nat n) l) more) ∧
       (n < Z.of_nat (length l) → exceeded x' = true ∨ filled x' ≠ [])) (λ _ _, True) x.
Proof.
  revert x. induction l as [|[k i] l IH]; intros x; cbn [fill_page Pages.deliver].
  { wp_step. split_and!; [done|cbn; lia| |cbn; lia]. exists []. by rewrite app_nil_r. }
  wp_step. unfold add_entry. wp_step. apply wp_lift. destruct (message_of i) as [m|e] eqn:Em; [|done]. cbv zeta. wp_step. wp_step.
  assert (Hstop : ∀ x' : Filling, filled x' = filled x → (exceeded x' = true ∨ filled x' ≠ []) →
    0 <= 0 <= Z.of_nat (length ((k, i) :: l)) ∧ (∃ more, filled x' = filled x ++ more ∧ Forall2 entry_for (take (Z.to_nat 0) ((k, i) :: l)) more) ∧
    (0 < Z.of_nat (length ((k, i) :: l)) → exceeded x' = true ∨ filled x' ≠ [])).
  { intros x' Hx Hs. split_and!; [done|cbn; lia| |done]. exists []. by rewrite Hx, app_nil_r. }
  apply wp_if; intros E.
  { wp_step. cbn [negb]. wp_step. apply Hstop; [done|]. right. apply andb_true_iff in E as [E _]. by apply negb_true_iff, bool_decide_eq_false in E. }
  apply wp_if; intros _; [repeat wp_step; cbn [negb]; wp_step; apply Hstop; [done|by left]|]. wp_step. wp_step; [|done]. wp_step. wp_step. wp_step. cbn [negb].
  wp_step. eapply wp_mono; [apply IH| |done]. intros n x' (Hn & (more & Hf & H2) & Hs). wp_step. cbn [filled] in Hf.
  split_and!; [lia|cbn [length]; lia| |cbn [length]; intros; apply Hs; lia].
  eexists (_ :: more). rewrite Hf, <- app_assoc. split; [done|]. replace (Z.to_nat (n + 1)) with (S (Z.to_nat n)) by lia. cbn [take].
  constructor; [by exists m|done].
Qed.

(** *** Preparing *)
Section preparing.
Context (o : Origin (Item := Item)) (w : model (Item := Item)) (caps : list (Z * Facts)) (start : Z) (out : list (Packet Item)).
Context (source : agrees o w) (captured : (place (log w), rows w) ∈ caps) (room : 64 <= capacity_ li).
Abbreviation told_ := (told (log w)).

Lemma place_told : place (log w) = Z.of_nat (length told_) ∧ ∀ i e, told_ !! i = Some e → event_position e = Z.of_nat i + 1.
Proof. destruct source as (_ & [J1 _ J2 J3 _ _ _ _] & _). cbn in J2. split; [lia|done]. Qed.

Definition still_ok (d : Dispatch Item) (p : Origin (Item := Item) * Dispatch Item) : Prop :=
  p.1 = o ∧ stream_ok told_ caps start p.2 out ∧ opened_ p.2 = true ∧ sent_ p.2 = sent_ d ∧ acknowledged_ p.2 = acknowledged_ d ∧ initial_ p.2 = initial_ d.

Lemma prepare_changes_wp d dl :
  opened_ d = true → serves told_ caps start d out → baseline_ d = None → packet_ d = None →
  looked w (sent_ d) (Expected dl) → baseline dl = None →
  wp Faulty (prepare_changes li dl)
    (λ r p, still_ok d p ∧ match r with Expected _ => is_Some (packet_ p.2) | Unexpected _ => packet_ p.2 = None end)
    (λ _ p, still_ok d p) (o, d).
Proof.
  intros Hop Hs Hbase Hpk (Hle & Hhead & Hrest) Hnone. rewrite Hnone in Hrest. destruct Hrest as ([tail Hpre] & _ & Hcount).
  destruct place_told as [Hplace Hpos].
  assert (Hsame : still_ok d (o, d)) by (split_and!; try done; unfold stream_ok; cbn [snd]; by rewrite Hop).
  pose proof Hs as [S1 S2]. rewrite Hbase, Hpk in S2.
  unfold prepare_changes. wp_step. wp_step. cbn [snd]. apply wp_try. eapply wp_mono; [apply pack_wp| |by intros x p ->].
  intros r p [-> Hr]. destruct r as [[ds q]|x]; [|done]. destruct (Hr ds q eq_refl) as (n & more & Eds & Hn & Hf & Eq). cbn [fst snd app] in *. subst ds. cbv zeta.
  apply wp_if; intros Hsize; [by wp_step|]. apply Z.ltb_ge in Hsize. wp_step. wp_step; [|done]. wp_step. wp_step. wp_step.
  split; [|by eexists]. unfold on_dispatch, still_ok. cbn [fst snd ready_changes]. split_and!; try done. unfold stream_ok. cbn. rewrite Hop.
  assert (Etake : take n (events dl) = take n (drop (Z.to_nat (sent_ d)) told_)) by (rewrite Hpre, take_app_le; [done|lia]).
  assert (Eq' : q = sent_ d + Z.of_nat n).
  { rewrite Eq. destruct (last (take n (events dl))) as [e|] eqn:El.
    - cbn. rewrite Etake, last_lookup, length_take, length_drop in El. assert (Hl : (n <= length told_ - Z.to_nat (sent_ d))%nat).
      { apply (f_equal length) in Hpre. rewrite length_drop, length_app in Hpre. lia. }
      rewrite Nat.min_l in El by lia. destruct n as [|n]; [by rewrite take_0 in El|]. cbn [pred] in El.
      rewrite lookup_take_lt in El by lia. rewrite lookup_drop in El. rewrite (Hpos _ _ El). lia.
    - apply last_None in El. apply (f_equal length) in El. rewrite length_take in El. cbn in El |- *. lia. }
  split; cbn [ready_changes acknowledged_ sent_ baseline_ packet_ position_next_]; [done|]. rewrite Hbase. split; [apply S2|]. eexists. split; [done|].
  assert (Hlen : length more = n).
  { apply Forall2_length in Hf. rewrite length_take in Hf. lia. }
  assert (Hn' : (n <= length told_ - Z.to_nat (sent_ d))%nat).
  { apply (f_equal length) in Hpre. rewrite length_drop, length_app in Hpre. lia. }
  split; cbn [changes_entries changes_head changes_bytes]; [lia| |lia|lia|done].
  replace (Z.to_nat (q - sent_ d)) with n by lia. by rewrite <- Etake.
Qed.

Lemma prepare_snapshot_wp d v :
  opened_ d = true → serves told_ caps start d out → baseline_ d = Some v → packet_ d = None →
  wp Faulty (prepare_snapshot li)
    (λ r p, still_ok d p ∧ match r with Expected _ => is_Some (packet_ p.2) | Unexpected _ => packet_ p.2 = None end)
    (λ _ p, still_ok d p) (o, d).
Proof.
  intros Hop Hs Hbase Hpk. assert (Hsame : still_ok d (o, d)) by (split_and!; try done; unfold stream_ok; cbn [snd]; by rewrite Hop).
  pose proof Hs as [S1 S2]. rewrite Hbase in S2. destruct S2 as [(base & ps & es & l & m & P1 & P2 & P3 & P4 & [P5 P5'] & P6 & P7 & _) Poff Ppos].
  unfold prepare_snapshot. wp_step. wp_step. cbn [snd]. rewrite Hbase. wp_step.
  apply wp_mono with (Q := λ r p, p = (o, d) ∧ 0 <= r.1 <= Z.of_nat (length (take 256 (drop (Z.to_nat (offset_ d)) l))) ∧
      Forall2 entry_for (take (Z.to_nat r.1) (take 256 (drop (Z.to_nat (offset_ d)) l))) (filled r.2) ∧
      (r.1 < Z.of_nat (length (take 256 (drop (Z.to_nat (offset_ d)) l))) → exceeded r.2 = true ∨ filled r.2 ≠ [])) (E := λ _ p, p = (o, d)); [| |by intros x p ->].
  { intros f Hf. unfold locally, view_page. rewrite P5' by lia. change (Z.to_nat 256) with 256%nat.
    set (more := take 256 _). pose proof (fill_entries_wp more {| filled := []; filled_bytes := 32; exceeded := false |} f I) as Hw. unfold fill_page in Hw.
    destruct (Pages.deliver _ more _ f) as [[[n|x] b] f']; [|done]. destruct Hw as [_ (H1 & (xs & H2 & H3) & H4)]. cbn [filled app] in H2. subst xs. done. }
  intros [n b] p (-> & Hn & Hrows & Hmore). cbn [fst snd] in *. set (more := take 256 _) in *.
  apply wp_if; intros Hex; [by wp_step|]. cbv zeta. apply wp_if; intros Hsize; [by wp_step|]. apply Z.ltb_ge in Hsize.
  wp_step. wp_step; [|done]. wp_step. wp_step. wp_step. split; [|by eexists].
  unfold on_dispatch, still_ok. cbn [fst snd ready_snapshot]. split_and!; try done. unfold stream_ok. cbn [opened_ ready_snapshot]. rewrite Hop.
  split; cbn [ready_snapshot acknowledged_ sent_ baseline_]; [done|]. rewrite Hbase. split; cbn [ready_snapshot offset_ sent_ packet_ offset_next_]; [|done|done].
  exists base, ps, es, l, m. split_and!; try done. eexists (filled b), _. split; [done|].
  assert (Hlm : Z.of_nat (length more) <= view_size v - offset_ d ∧ Z.of_nat (length more) <= 256).
  { unfold more. rewrite length_take, length_drop. lia. }
  assert (Hln : Z.of_nat (length (filled b)) = n).
  { apply Forall2_length in Hrows. rewrite length_take in Hrows. lia. }
  replace (offset_ d + n - offset_ d) with n by lia. split_and!; [|lia|done| |lia|lia].
  - unfold more in Hrows. rewrite take_take in Hrows. replace (Z.to_nat n `min` 256)%nat with (Z.to_nat n) in Hrows by lia. done.
  - intros Hlast E. rewrite E in Hln. cbn in Hln. assert (Hz : n < Z.of_nat (length more)).
    { unfold more. rewrite length_take, length_drop. lia. }
    destruct (Hmore Hz); congruence.
Qed.

Definition prepared_ok (d : Dispatch Item) (r : expected (option (Packet Item)) Error) (p : Origin (Item := Item) * Dispatch Item) : Prop :=
  match r with
  | Expected (Some pk) => packet_ p.2 = Some pk
  | Expected None => baseline_ p.2 = None ∧ sent_ p.2 = place (log w)
  | Unexpected _ => True
  end.

Lemma page_wp d v :
  opened_ d = true → serves told_ caps start d out → baseline_ d = Some v → packet_ d = None →
  wp Faulty (_ <-? prepare_snapshot li ;; p <- read ;; ret (Expected (packet_ p.2)))
    (λ r p, still_ok d p ∧ prepared_ok d r p) (λ _ p, still_ok d p) (o, d).
Proof.
  intros Hop Hs Hb Hpk. apply wp_try. eapply wp_mono; [by apply (prepare_snapshot_wp d v)| |done].
  intros [[]|x] p [Hok Hp]; [|done]. wp_step. wp_step. wp_step. split; [done|]. destruct Hp as [pk Hpk']. by rewrite Hpk'.
Qed.

Lemma prepare_packet_wp grant d :
  stream_ok told_ caps start d out →
  wp Faulty (prepare li grant)
    (λ r p, if opened_ d then still_ok d p ∧ prepared_ok d r p else p = (o, d))
    (λ _ p, if opened_ d then still_ok d p else p = (o, d)) (o, d).
Proof.
  intros Hok. unfold prepare. wp_step. wp_step. cbn [snd]. unfold stream_ok in Hok. destruct (opened_ d) eqn:Hop; cbn [negb]; [|by wp_step].
  assert (Hsame : still_ok d (o, d)) by (split_and!; try done; unfold stream_ok; cbn [snd]; by rewrite Hop).
  destruct (packet_ d) as [pk|] eqn:Hpk; [by wp_step|]. cbv zeta. destruct (baseline_ d) as [v|] eqn:Hbase; [by apply (page_wp d v)|].
  apply wp_try. pose proof (sv_range _ _ _ _ _ Hok) as Hrange. destruct place_told as [Hplace _].
  eapply wp_mono; [apply (look_source_wp limits o w d); [done|lia|lia]| |by intros x p ->]. intros [dl|x] p [-> Hl]; [|done].
  destruct (baseline dl) as [v|] eqn:Hb.
  - apply wp_if; intros _; [by wp_step|]. wp_step. wp_step. unfold on_dispatch. cbn [fst snd].
    assert (Hserves : serves told_ caps start (hold v d) out).
    { destruct Hok as [S1 S2]. rewrite Hbase, Hpk in S2. destruct S2 as [S2 _]. destruct Hl as (L1 & L2 & L3). rewrite Hb in L3. destruct L3 as (l & L4 & L5 & L6).
      split; cbn [hold acknowledged_ sent_ baseline_]; [done|]. split; cbn [hold offset_ sent_ packet_].
      - exists out, [], [], l, (rows w). rewrite app_nil_r, Hpk, L6. change (Z.to_nat 0) with 0%nat. split_and!; try done. constructor.
      - destruct L4 as [-> _]. lia.
      - lia. }
    eapply wp_mono; [apply (page_wp (hold v d) v); [exact Hop|exact Hserves|done|exact Hpk]| |]; cbn.
    + intros r p [(K1 & K2 & K3 & K4 & K5 & K6) Hp]. split; [split_and!; done|exact Hp].
    + intros x p (K1 & K2 & K3 & K4 & K5 & K6). by split_and!.
  - apply wp_if; intros Hidle.
    + wp_step. split; [done|]. split; [done|]. apply andb_true_iff in Hidle as [_ He]. apply bool_decide_eq_true in He.
      destruct Hl as (L1 & L2 & L3). rewrite Hb in L3. destruct L3 as (_ & L4 & _). destruct (decide (sent_ d < place (log w))) as [Hlt|]; [|cbn [snd]; lia]. by destruct (L4 Hlt).
    + apply wp_try. eapply wp_mono; [by apply (prepare_changes_wp d dl)| |done].
      intros [[]|x] p [K Hp]; [|done]. wp_step. wp_step. wp_step. split; [done|]. destruct Hp as [pk Hp]. by rewrite Hp.
Qed.
End preparing.

(** *** Handing over *)
Lemma advance_ok told caps start d out pk :
  stream_ok told caps start d out → packet_ d = Some pk → stream_ok told caps start (advance d) (out ++ [pk]) ∧ opened_ (advance d) = opened_ d.
Proof.
  intros Hok Hpk. unfold stream_ok in *. assert (Eo : opened_ (advance d) = opened_ d).
  { unfold advance. destruct (baseline_ d) as [v|]; [|done]. by destruct (_ =? _). }
  rewrite Eo. split; [|done]. destruct (opened_ d) eqn:Hop; [|by destruct Hok as (_ & ? & _); congruence].
  destruct Hok as [S1 S2]. unfold advance. destruct (baseline_ d) as [v|] eqn:Hb.
  - destruct S2 as [(base & ps & es & l & m & P1 & P2 & P3 & P4 & P5 & P6 & P7 & P8) Poff Ppos]. rewrite Hpk in P8.
    destruct P8 as (es' & n & -> & Q1 & Q2 & Q3 & Q4 & Q5).
    assert (Hjoin : Forall2 entry_for (take (Z.to_nat (offset_next_ d)) l) (es ++ es')).
    { replace (Z.to_nat (offset_next_ d)) with (Z.to_nat (offset_ d) + Z.to_nat (offset_next_ d - offset_ d))%nat by lia.
      rewrite <- take_take_drop. by apply Forall2_app. }
    destruct (Z.eqb_spec (offset_next_ d) (view_size v)) as [E|E].
    + split; cbn [acknowledged_ sent_ baseline_ packet_]; [lia|]. split; [|done]. rewrite P1, <- app_assoc.
      eapply (conveys_capture _ _ _ _ base (sent_ d) _ m l ps es es' n); try done; [lia|].
      rewrite take_ge in Hjoin; [done|]. destruct P5 as [P5 _]. lia.
    + split; cbn [acknowledged_ sent_ baseline_]; [done|]. split; cbn [offset_ sent_ packet_ offset_next_]; [|lia|done].
      eexists base, _, (es ++ es'), l, m. rewrite P1, <- app_assoc. split_and!; [done|done|done|done|done| |done|done].
      apply pages_more; [done|by apply Q4|done|done].
  - destruct S2 as [C1 C2]. rewrite Hpk in C2. destruct C2 as (m & -> & Hr). split; cbn [acknowledged_ sent_ baseline_ packet_].
    + destruct Hr as [R _ _ _ _]. lia.
    + split; [|done]. by eapply conveys_run.
Qed.

Lemma acknowledge_ok told caps start d out p : stream_ok told caps start d out → stream_ok told caps start (acknowledge p d).2 out ∧
  opened_ (acknowledge p d).2 = opened_ d.
Proof.
  intros Hok. unfold acknowledge. destruct (_ || _) eqn:E; [done|]. cbn. split; [|done]. rewrite !orb_false_iff, !Z.ltb_ge in E.
  unfold stream_ok in *. cbn. destruct (opened_ d); [|done]. destruct Hok as [S1 S2]. split; cbn; [lia|]. destruct (baseline_ d); [|done].
  by destruct S2 as [P1 P2 P3].
Qed.

Lemma resume_sender_wp o w d caps position :
  agrees o w → 64 <= capacity_ li → 0 <= position → stream_ok (told (log w)) caps 0 d [] → opened_ d = false →
  acknowledged_ d = 0 → sent_ d = 0 →
  wp Faulty (resume li position)
    (λ r p, p.1 = o ∧ match r with
       | Expected _ => opened_ p.2 = true ∧ stream_ok (told (log w)) caps position p.2 []
       | Unexpected _ => p.2 = d
       end) (λ _ p, p = (o, d)) (o, d).
Proof.
  intros Hok Hcap Hp Hs Hop Ha Hse. unfold resume. wp_step. wp_step. cbn [snd]. rewrite Hop. wp_step.
  unfold look. apply wp_zoom. cbn [fst]. intros f _.
  destruct (deliver_spec true limits o w position 1 (capacity_ li) Hok eq_refl Hp ltac:(lia) ltac:(lia)) as (r & Hr & Hspec).
  destruct (deliver_faults position 1 (capacity_ li) o f _ _ _ Hr) as (f' & [-> | ->]); [|done].
  split; [done|]. destruct r as [dl|x]; cbn; [|by wp_step]. wp_step. wp_step. wp_step. unfold on_dispatch. cbn. split_and!; [done|done|].
  unfold stream_ok in *. rewrite Hop in Hs. cbn. destruct Hs as (_ & Hpk & Hb). split; cbn.
  - destruct Hspec as (H1 & _). destruct (place_told o w Hok) as [Hpl _]. rewrite Hpl in H1. lia.
  - rewrite Hb, Hpk. split; [constructor|done].
Qed.
End sending.

(** ** Histories
    What happens to a source and to one of its senders. *)
Section histories.
Context {Item : Type} {layout : Layout Item} {wire : Wire Item} (binary : bool) (limits : Origin.Limits) (li : Limits).

Inductive act :=
| Write (op : operation (Item := Item) * circumstances)
| Resume (position : Z) (f : faults)
| Prepare (grant : Z → bool) (f : faults)
| Send
| Acknowledge (position : Z).

(** The captures are the facts of the source at every moment, with its position. *)
Record link := {
  source : Origin (Item := Item);
  facts : model (Item := Item);
  sender : Dispatch Item;
  stream : list (Packet Item);
  captures : list (Z * gmap Name Item);
  start : Z
}.

Definition update (x : link) (d : Dispatch Item) (out : list (Packet Item)) (s : Z) : link :=
  {| source := source x; facts := facts x; sender := d; stream := out; captures := captures x; start := s |}.

Definition step (x : link) (a : act) : link :=
  match a with
  | Write op =>
      let '(o, w) := Origin.step binary true limits (source x, facts x) op in
      {| source := o; facts := w; sender := sender x; stream := stream x; captures := (place (log w), rows w) :: captures x; start := start x |}
  | Resume position f =>
      match resume li position (source x, sender x) f with
      | (Done (Expected _), (_, d), _) => update x d (stream x) position
      | (_, (_, d), _) => update x d (stream x) (start x)
      end
  | Prepare grant f => update x (prepare li grant (source x, sender x) f).1.2.2 (stream x) (start x)
  | Send =>
      match dispatched (source x, sender x) [] with
      | (Done pk, (_, d), _) => update x d (stream x ++ [pk]) (start x)
      | (Thrown _, (_, d), _) => update x d (stream x) (start x)
      end
  | Acknowledge position => update x (acknowledge position (sender x)).2 (stream x) (start x)
  end.

Definition sane_act (a : act) : Prop :=
  match a with Write op => Origin.sane op.1 | Resume p _ => 0 <= p | _ => True end.

Definition opening (o : Origin (Item := Item)) (d : Dispatch Item) : link :=
  {| source := o; facts := vacuum; sender := d; stream := []; captures := [(0, ∅)]; start := 0 |}.

Context (HL : Origin.limits_ok limits) (room : 64 <= capacity_ li).

Record linked (x : link) : Prop := {
  lk_source : agrees true limits (source x) (facts x);
  lk_captured : (place (log (facts x)), rows (facts x)) ∈ captures x;
  lk_stream : stream_ok li (told (log (facts x))) (captures x) (start x) (sender x) (stream x);
  lk_closed : opened_ (sender x) = false → start x = 0 ∧ acknowledged_ (sender x) = 0 ∧ sent_ (sender x) = 0
}.

Lemma told_grows xs (w : model (Item := Item)) : told (log w) `prefix_of` told (log (foldl absorb w xs)).
Proof.
  revert w. induction xs as [|x xs IH]; intros w; [done|]. cbn [foldl]. etrans; [|apply IH]. destruct x; cbn; try done. by eexists.
Qed.

Lemma write_grows o w op : told (log w) `prefix_of` told (log (Origin.step binary true limits (o, w) op).2).
Proof. unfold Origin.step. cbn [fst snd]. destruct (perform _ _ _ _ _ _ _) as [[[xs|x] o'] f']; cbn; [apply told_grows|done]. Qed.

Lemma step_linked x a : sane_act a → linked x → linked (step x a).
Proof.
  intros Ha [L1 L2 L3 L4]. destruct a as [op|p f|grant f| |p]; cbn [step sane_act] in *.
  - pose proof (write_grows (source x) (facts x) op) as Hg. destruct (Origin.step binary true limits (source x, facts x) op) as [o w] eqn:Es.
    assert (Hok : agrees true limits o w).
    { unfold Origin.step in Es. cbn [fst snd] in Es.
      pose proof (origin_perform_wp binary true limits HL (sharing op.2) op.1 (source x) (facts x) L1 Ha (script op.2) I) as Hp.
      destruct (perform _ _ _ _ _ _ _) as [[[xs|e] o'] f']; destruct Hp as [_ Hp]; by injection Es as <- <-. }
    split; cbn; [done|left| |done]. eapply stream_mono; [exact Hg| |done]. intros y Hy. by right.
  - destruct (opened_ (sender x)) eqn:Hop.
    + unfold resume, bind, read, ret. cbn. rewrite Hop. split; cbn; try done. by rewrite Hop.
    + destruct (L4 eq_refl) as (Hst & Hack & Hsent). pose proof L3 as L3'. unfold stream_ok in L3'. rewrite Hop in L3'. destruct L3' as (Hout & Hpk & Hb).
      rewrite Hout, Hst in L3.
      pose proof (resume_sender_wp limits li (source x) (facts x) (sender x) (captures x) p L1 room Ha L3 Hop Hack Hsent f I) as Hw.
      destruct (resume li p (source x, sender x) f) as [[[[u|e]|e] [o d]] f']; destruct Hw as [_ Hw].
      * destruct Hw as (Ho & Hd & Hs). cbn in Ho, Hd, Hs. split; cbn; [done|done|by rewrite Hout|]. rewrite Hd. done.
      * destruct Hw as (_ & Hd). cbn in Hd. subst d. split; cbn; try done; by rewrite ?Hout, ?Hst.
      * injection Hw as _ Hd. subst d. split; cbn; try done; by rewrite ?Hout, ?Hst.
  - pose proof (prepare_packet_wp limits li (source x) (facts x) (captures x) (start x) (stream x) L1 L2 room grant (sender x) L3 f I) as Hw.
    destruct (prepare li grant (source x, sender x) f) as [[[r|e] p] f']; destruct Hw as [_ Hw]; destruct (opened_ (sender x)) eqn:Hop; cbn.
    + destruct Hw as [(K1 & K2 & K3 & _) _]. split; cbn; [done|done|done|]. congruence.
    + subst p. split; cbn; try done. intros _. by apply L4.
    + destruct Hw as (K1 & K2 & K3 & _). split; cbn; [done|done|done|]. congruence.
    + subst p. split; cbn; try done. intros _. by apply L4.
  - unfold dispatched, bind, read, modify, ret, throw. cbn. destruct (packet_ (sender x)) as [pk|] eqn:Hpk; [|by split].
    destruct (advance_ok li _ _ _ _ _ pk L3 Hpk) as [Hs Ho]. split; cbn; [done|done|done|]. intros E. rewrite Ho in E. unfold stream_ok in L3. rewrite E in L3.
    destruct L3 as (_ & ? & _). congruence.
  - destruct (acknowledge_ok li _ _ _ _ _ p L3) as [Hs Ho]. split; cbn; [done|done|done|]. intros E. rewrite Ho in E. destruct (L4 E) as (? & ? & ?).
    unfold acknowledge. rewrite E. cbn. done.
Qed.

Lemma run_linked o0 d0 acts :
  Origin.make limits = Done o0 → make li = Done d0 → Forall sane_act acts → linked (foldl step (opening o0 d0) acts).
Proof.
  intros Hmake Hd Hs. assert (H0 : linked (opening o0 d0)).
  { unfold make in Hd. destruct (_ || _); [done|]. injection Hd as <-.
    split; cbn; [apply (origin_run_ok binary true limits HL o0 []); [done|constructor]|left|done|done]. }
  revert H0. generalize (opening o0 d0). induction Hs as [|a acts Ha Hs IH]; intros x Hx; [done|]. cbn [foldl]. apply IH. by apply step_linked.
Qed.

(** *** Progress *)

Definition total {A} (size : A → Z) (xs : list A) : Z := foldr (λ x b, encoded (size x) + b) 0 xs.

(** Everything the source holds can be sent: its events and facts have encodings that
    fit a packet, and a packet is no larger than the sum of its entries. *)
Record sendable (w : model (Item := Item)) (caps : list (Z * gmap Name Item)) : Prop := {
  se_events : ∀ e, e ∈ told (log w) → event_bytes e <= capacity_ li ∧ ∃ x, delta_of e = Done x ∧ 0 <= encoded (delta_size x) <= capacity_ li - 32;
  se_facts : ∀ at_ m n i, (at_, m) ∈ caps → m !! n = Some i → ∃ x, message_of i = Done x ∧
    0 <= encoded (entry_size {| entry_scope := to_scope (scope n); entry_key := key n; entry_record := Some x |}) <= capacity_ li - 32;
  se_changes : ∀ hd xs, 32 + total delta_size xs <= capacity_ li → encoded (changes_size hd xs) <= 32 + total delta_size xs;
  se_snapshot : ∀ at_ xs last, 32 + total entry_size xs <= capacity_ li → encoded (snapshot_size at_ xs last) <= 32 + total entry_size xs
}.

Context (target : 0 < target_ li <= capacity_ li).

Lemma pack_progress es packed bytes position (p : Origin (Item := Item) * Dispatch Item) :
  (∀ e, e ∈ es → ∃ x, delta_of e = Done x ∧ 0 <= encoded (delta_size x) <= capacity_ li - 32) →
  32 <= bytes <= capacity_ li → (packed = [] → bytes = 32) →
  ∃ ds q b, pack li es packed bytes position p [] = (Done (Expected (packed ++ ds, q)), p, []) ∧
    b = bytes + total delta_size ds ∧ b <= capacity_ li.
Proof.
  unfold total. revert packed bytes position. induction es as [|e es IH]; intros packed bytes position He Hb Hz; cbn [pack].
  { exists [], position, bytes. rewrite app_nil_r. cbn. split_and!; [done|lia|lia]. }
  destruct (He e ltac:(left)) as (x & Hx & Hc). unfold bind, lift, alloc, ret. rewrite Hx. cbv zeta.
  destruct (negb (bool_decide (packed = [])) && _) eqn:E1.
  { exists [], position, bytes. rewrite app_nil_r. cbn. split_and!; [done|lia|lia]. }
  assert (Hroom : bytes + encoded (delta_size x) <= capacity_ li).
  { apply andb_false_iff in E1 as [E1|E1]; [|apply Z.ltb_ge in E1; lia]. apply negb_false_iff, bool_decide_eq_true in E1. rewrite (Hz E1) in *. lia. }
  rewrite (proj2 (Z.ltb_ge _ _)) by lia.
  destruct (IH (packed ++ [x]) (bytes + encoded (delta_size x)) (event_position e)) as (ds & q & b & Hp & Eb & Hle).
  { intros e' He'. apply He. by right. }
  { lia. }
  { intros E. by apply app_nil in E as [_ ?]. }
  exists (x :: ds), q, b. rewrite <- app_assoc in Hp. split_and!; [exact Hp|cbn; lia|done].
Qed.

Lemma fill_progress (l : list (Name * Item)) b :
  (∀ x, x ∈ l → ∃ m, message_of x.2 = Done m ∧
     0 <= encoded (entry_size {| entry_scope := to_scope (scope x.1); entry_key := key x.1; entry_record := Some m |}) <= capacity_ li - 32) →
  32 <= filled_bytes b <= capacity_ li → (filled b = [] → filled_bytes b = 32) → exceeded b = false →
  ∃ n b' more, fill_page li l b [] = (Done n, b', []) ∧ exceeded b' = false ∧ filled b' = filled b ++ more ∧
    filled_bytes b' = filled_bytes b + total entry_size more ∧ filled_bytes b' <= capacity_ li.
Proof.
  unfold total. revert b. induction l as [|[k i] l IH]; intros b Hl Hb Hz Hx; cbn [fill_page Pages.deliver].
  { exists 0, b, []. rewrite app_nil_r. cbn. split_and!; [done|done|done|lia|lia]. }
  destruct (Hl (k, i) ltac:(left)) as (m & Hm & Hc). cbn in Hm, Hc. unfold bind at 1. unfold add_entry at 1. unfold bind, lift, read, modify, ret, alloc. rewrite Hm. cbv zeta.
  set (entry := {| entry_scope := to_scope (scope k); entry_key := key k; entry_record := Some m |}) in *.
  destruct (negb (bool_decide (filled b = [])) && _) eqn:E1.
  { exists 0, b, []. rewrite app_nil_r. cbn. split_and!; [done|done|done|lia|lia]. }
  assert (Hroom : filled_bytes b + encoded (entry_size entry) <= capacity_ li).
  { apply andb_false_iff in E1 as [E1|E1]; [|apply Z.ltb_ge in E1; lia]. apply negb_false_iff, bool_decide_eq_true in E1. rewrite (Hz E1) in *. lia. }
  rewrite (proj2 (Z.ltb_ge _ _)) by lia. cbn [negb].
  set (b1 := {| filled := filled b ++ [entry]; filled_bytes := filled_bytes b + encoded (entry_size entry); exceeded := exceeded b |}).
  destruct (IH b1) as (n & b' & more & Hf & H1 & H2 & H3 & H4); cbn.
  { intros x Hin. apply Hl. by right. }
  { lia. }
  { intros E. by apply app_nil in E as [_ ?]. }
  { done. }
  unfold fill_page in Hf. rewrite Hf. exists (n + 1), b', (entry :: more). cbn in H2, H3 |- *. rewrite <- app_assoc in H2. split_and!; [done|done|done|lia|done].
Qed.

Lemma snapshot_progress o w caps d v l m :
  sendable w caps → baseline_ d = Some v → shows_facts v l → lists_facts l m → (view_position v, m) ∈ caps → 0 <= offset_ d <= view_size v →
  ∃ d', prepare_snapshot li (o, d) [] = (Done (Expected tt), (o, d'), []).
Proof.
  intros Hse Hb [Hsz Ht] [_ Hl] Hin Ho. unfold prepare_snapshot, bind, read. cbn [snd]. rewrite Hb. unfold locally, view_page.
  rewrite Ht by lia. change (Z.to_nat 256) with 256%nat. set (more := take 256 (drop (Z.to_nat (offset_ d)) l)).
  destruct (fill_progress more {| filled := []; filled_bytes := 32; exceeded := false |}) as (n & b & es & Hf & H1 & H2 & H3 & H4); cbn; try done; [|lia|].
  { intros [k i] Hx. apply (se_facts _ _ Hse _ m k i Hin). apply Hl. unfold more in Hx. apply (subseteq_take 256 _) in Hx. by apply (subseteq_drop (Z.to_nat (offset_ d)) l). }
  unfold fill_page in Hf. rewrite Hf. cbn [fst snd]. rewrite H1. cbn in H2, H3. cbv zeta.
  rewrite (proj2 (Z.ltb_ge _ _)); [by eexists|]. etrans; [apply (se_snapshot _ _ Hse)|]; rewrite H2; lia.
Qed.

Lemma prepare_progress x :
  linked x → opened_ (sender x) = true → sendable (facts x) (captures x) →
  ∃ r d, prepare li (λ _, true) (source x, sender x) [] = (Done (Expected r), (source x, d), []).
Proof.
  intros [L1 L2 L3 L4] Hop Hse. unfold stream_ok in L3. rewrite Hop in L3. destruct L3 as [S1 S2]. set (d := sender x) in *. set (w := facts x) in *.
  unfold prepare, bind at 1, read at 1. cbn [snd]. fold d. rewrite Hop. cbn [negb].
  destruct (packet_ d) as [pk|] eqn:Hpk; [by eexists _, _|]. destruct (baseline_ d) as [v|] eqn:Hb.
  - destruct S2 as [(base & ps & es & l & m & _ & _ & P3 & P4 & P5 & _) Poff _].
    destruct (snapshot_progress (source x) w (captures x) d v l m Hse Hb P5 P4 P3 Poff) as [d' Hs].
    unfold bind at 1. rewrite Hs. unfold bind, read, ret. by eexists _, _.
  - destruct (deliver_spec true limits (source x) w (sent_ d) 256 (capacity_ li) L1 eq_refl ltac:(lia) ltac:(lia) ltac:(lia)) as (r & Hr & Hspec).
    destruct (place_told limits (source x) w L1) as [Hplace _].
    unfold bind at 1. unfold look, zoom. cbn [fst]. rewrite Hr. cbn [snd].
    destruct r as [dl|e].
    2: { exfalso. destruct Hspec as [[_ ?]|(_ & e' & He & Hbig)]; [lia|]. apply list_elem_of_lookup_2 in He. destruct (se_events _ _ Hse e' He). lia. }
    destruct Hspec as (H1 & H2 & H3). destruct (baseline dl) as [v|].
    + destruct H3 as (_ & _ & Hc). destruct (capture_facts limits (source x) w L1) as (v' & l & Hc' & Hsh & Hl & Hpos). rewrite Hc in Hc'. injection Hc' as <-.
      rewrite andb_false_r. unfold bind at 1, modify. unfold on_dispatch. cbn [fst snd].
      destruct (snapshot_progress (source x) w (captures x) (hold v d) v l (rows w) Hse eq_refl Hsh Hl) as [d' Hs].
      { by rewrite Hpos. } { cbn. destruct Hsh as [-> _]. lia. }
      unfold bind at 1. rewrite Hs. unfold bind, read, ret. by eexists _, _.
    + destruct (negb (initial_ d) && _); [by eexists _, _|]. destruct H3 as ([tail Hpre] & _).
      destruct (pack_progress (events dl) [] 32 (sent_ d) (source x, d)) as (ds & q & b & Hp & Eb & Hle); [|lia|done|].
      { intros e He. apply (se_events _ _ Hse). apply (subseteq_drop (Z.to_nat (sent_ d)) (told (log w))). rewrite Hpre. apply elem_of_app. by left. }
      unfold bind at 1. unfold prepare_changes, bind at 1, read at 1. cbn [snd]. unfold bind at 1. cbn [app] in Hp. rewrite Hp. cbn [fst snd]. cbv zeta.
      rewrite (proj2 (Z.ltb_ge _ _)); [unfold bind, alloc, modify, read, ret; by eexists _, _|].
      etrans; [apply (se_changes _ _ Hse)|]; lia.
Qed.
End histories.

Section sender.
Context {Item : Type} {layout : Layout Item} {wire : Wire Item} (binary : bool) (limits : Origin.Limits) (li : Limits).

Lemma make_sound d0 : make (Item := Item) li = Done d0 → 64 <= capacity_ li ∧ 0 <= target_ li → 0 < target_ li <= capacity_ li.
Proof. unfold make. destruct (_ || _) eqn:E; [done|]. rewrite !orb_false_iff, !Z.ltb_ge, Z.eqb_neq in E. lia. Qed.

Lemma make_room d0 : make (Item := Item) li = Done d0 → 64 <= capacity_ li.
Proof. unfold make. destruct (_ || _) eqn:E; [done|]. rewrite !orb_false_iff, !Z.ltb_ge in E. lia. Qed.

(** What the packets sent so far bring the peer. *)
Definition brought (x : link (Item := Item)) : Prop :=
  0 <= acknowledged_ (sender x) <= sent_ (sender x) ∧ sent_ (sender x) <= place (log (facts x)) ∧
  ∃ out ps, stream x = out ++ ps ∧ conveys (told (log (facts x))) (captures x) (capacity_ li) (start x) out (sent_ (sender x)) ∧
    match baseline_ (sender x) with
    | None => ps = []
    | Some v => ∃ es, pages_of (capacity_ li) (view_position v) ps es
    end.

Lemma linked_brought x : linked limits li x → opened_ (sender x) = true → brought x.
Proof.
  intros [L1 _ L3 _] Hop. unfold stream_ok in L3. rewrite Hop in L3. destruct L3 as [S1 S2]. destruct (place_told limits (source x) (facts x) L1) as [Hp _].
  split_and!; [lia..|lia|]. destruct (baseline_ (sender x)) as [v|].
  - destruct S2 as [(base & ps & es & l & m & P1 & P2 & _ & _ & _ & P6 & _) _ _]. eauto 10.
  - exists (stream x), []. rewrite app_nil_r. naive_solver.
Qed.

(** C11. The replication sender, in every history of writes to the source, resumptions,
    preparations (with any memory fault and any answer of the budget), packets handed to
    the stream and acknowledgements: nothing is sent before the peer has resumed, and then
    the packets of the stream are runs of the source's events, each starting where the
    packet before it ended, with no event lost, repeated or reordered, or whole captures
    of the facts the source had at one later position, none of them over the packet
    limit; acknowledged <= sent <= the source's position.  [prepare] answers that there
    is nothing to send only at the source's position, and on a source whose entries fit
    a packet it never fails. *)
Theorem dispatch_conveys o0 d0 acts :
  Origin.limits_ok limits → Origin.make limits = Done o0 → make li = Done d0 → 0 <= target_ li → Forall sane_act acts →
  let x := foldl (step binary limits li) (opening o0 d0) acts in
  (opened_ (sender x) = false → stream x = []) ∧
  (opened_ (sender x) = true →
     brought x ∧
     (∀ grant f, let '(r, (o, d), _) := prepare li grant (source x, sender x) f in
        o = source x ∧ sent_ d = sent_ (sender x) ∧
        match r with
        | Done (Expected None) => sent_ d = place (log (facts x)) ∧ baseline_ d = None
        | Done (Expected (Some pk)) => packet_ d = Some pk
        | _ => True
        end) ∧
     (sendable li (facts x) (captures x) →
      ∃ r d, prepare li (λ _, true) (source x, sender x) [] = (Done (Expected r), (source x, d), []))).
Proof.
  intros HL Ho Hd Ht Hs x. pose proof (make_room d0 Hd) as Hroom. pose proof (make_sound d0 Hd (conj Hroom Ht)) as Htarget.
  assert (Hx : linked limits li x) by (by eapply run_linked). split.
  { intros Hop. destruct Hx as [_ _ L3 _]. unfold stream_ok in L3. rewrite Hop in L3. apply L3. }
  intros Hop. split_and!; [by apply linked_brought| |by eapply prepare_progress].
  intros grant f. destruct Hx as [L1 L2 L3 _].
  pose proof (prepare_packet_wp limits li (source x) (facts x) (captures x) (start x) (stream x) L1 L2 Hroom grant (sender x) L3 f I) as Hw. rewrite Hop in Hw.
  destruct (prepare _ _ _ _) as [[[r|e] [o d]] f']; destruct Hw as [_ Hw].
  - destruct Hw as [(K1 & _ & _ & K4 & _) Hp]. split_and!; [done|done|]. destruct r as [[pk|]|]; cbn in *; naive_solver.
  - destruct Hw as (K1 & _ & _ & K4 & _). done.
Qed.
End sender.
