(* ===== verification/Landing.v ===== *)
(** The receiving half of a baseline: [astra/star/src/landing.hpp].

    A [Landing] collects the pages of a peer's baseline in a private draft
    ([Origin.Draft]).  Nothing of it is visible before the last page has come; a page
    that is out of place, too large or malformed drops the whole draft, and so does an
    exception. *)
From stdpp Require Import base numbers strings gmap list.
From S2P Require Import Prelude.
From S2P Require Import Scope.
From S2P Require Import Pages.
From S2P Require Import Index.
From S2P Require Import Origin.
From S2P Require Import Parcel.
From S2P Require Import Dispatch.

Section landing.
Context {Item : Type} {layout : Layout Item} {wire : Wire Item} (binary : bool) (limits : Origin.Limits).
Abbreviation Draft := (Draft (Item := Item)).

(** [source_] tells whether a draft may be made here; a landing built from a draft has
    no source.  The draft's limits are the source's. *)
Record Landing := {
  source_ : bool;
  maximum_ : Z;
  draft_ : option Draft;
  position_ : Z;
  received_ : Z;
  complete_ : bool
}.

(** The two constructors. *)
Definition of_source (bytes : Z) : outcome Landing :=
  if bytes =? 0 then Thrown invalid_argument
  else Done {| source_ := true; maximum_ := bytes; draft_ := None; position_ := 0; received_ := 0; complete_ := false |}.
Definition of_draft (d : Draft) (bytes : Z) : outcome Landing :=
  if bytes =? 0 then Thrown invalid_argument
  else Done {| source_ := false; maximum_ := bytes; draft_ := Some d; position_ := draft_position d; received_ := 0; complete_ := false |}.

(** [clear] and [reject]. *)
Definition clear (l : Landing) : Landing :=
  {| source_ := source_ l; maximum_ := maximum_ l; draft_ := None; position_ := 0; received_ := 0; complete_ := false |}.
Definition reject (x : Error) : eff Landing (expected unit Error) := modify clear ;;; ret (Unexpected x).

Definition begin_draft (d : Draft) (p : Z) (l : Landing) : Landing :=
  {| source_ := source_ l; maximum_ := maximum_ l; draft_ := Some d; position_ := p; received_ := received_ l; complete_ := complete_ l |}.
Definition put_draft (d : Draft) (l : Landing) : Landing := begin_draft d (position_ l) l.
Definition count_page (bytes : Z) (last : bool) (l : Landing) : Landing :=
  {| source_ := source_ l; maximum_ := maximum_ l; draft_ := draft_ l; position_ := position_ l; received_ := received_ l + bytes; complete_ := last |}.

Section pages.
Context (exclusive : nat → bool) (clock : nat → Z).

(** The loop over the entries; the clock is read once for each of them. *)
Fixpoint land (index : nat) (es : list (Entry Message)) : eff Landing (option Error) :=
  match es with
  | [] => ret None
  | e :: es =>
      match scope_of (entry_scope e), key_valid (entry_key e), entry_record e with
      | Some sc, true, Some m =>
          alloc ;;;
          match read_message m with
          | None => ret (Some input)
          | Some i =>
              l <- read ;;
              match draft_ l with
              | None => throw logic_error
              | Some d =>
                  x <- zoom (λ l, default d (draft_ l)) put_draft (draft_set binary exclusive limits sc (entry_key e) i (clock index)) ;;
                  match x with
                  | Some x => ret (Some x)
                  | None => land (S index) es
                  end
              end
          end
      | _, _, _ => ret (Some input)
      end
  end.

(** [append]. *)
Definition append (page : Snapshot Message) (minimum : Z) : eff Landing (expected unit Error) :=
  on_throw
    (l <- read ;;
     let bytes := snapshot_bytes page in
     if complete_ l || (snapshot_position page <? minimum)
        || (bool_decide (is_Some (draft_ l)) && negb (snapshot_position page =? position_ l))
     then reject version_error
     else if (256 <? Z.of_nat (length (snapshot_entries page))) || (8 * 1024 * 1024 <? bytes) || (maximum_ l - received_ l <? bytes)
     then reject capacity
     else if (negb (snapshot_complete page) && bool_decide (snapshot_entries page = []))
             || ((snapshot_position page =? 0) && negb (bool_decide (snapshot_entries page = [])))
     then reject input
     else
       begun <- (if bool_decide (is_Some (draft_ l)) then ret true
                 else if negb (source_ l) then ret false
                 else d <- open_draft limits (snapshot_position page) ;; modify (begin_draft d (snapshot_position page)) ;;; ret true) ;;
       if negb begun then reject input
       else
         x <- land 0 (snapshot_entries page) ;;
         match x with
         | Some x => reject x
         | None => modify (count_page bytes (snapshot_complete page)) ;;; ret (Expected tt)
         end)
    (modify clear).
End pages.

(** [take]. *)
Definition take (minimum : Z) (l : Landing) : expected Draft Error * Landing :=
  match draft_ l with
  | Some d =>
      if negb (complete_ l) || (position_ l <? minimum)
      then (Unexpected (if position_ l <? minimum then version_error else input), clear l)
      else (Expected d, clear l)
  | None => (Unexpected (if position_ l <? minimum then version_error else input), clear l)
  end.
End landing.

Arguments Landing Item : clear implicits.


Section refusals.
Context {Item : Type} {layout : Layout Item} (binary : bool) (limits : Origin.Limits) (exclusive : nat → bool).

(** A fact of a draft is refused for its name or for want of room. *)
Lemma prepare_refusals sc k (r : Item) now o :
  wp Faulty (Origin.prepare binary false limits exclusive sc k (Some r) None now form_record)
    (λ x _, match x with Unexpected e => e = capacity ∨ e = input ∧ (Scope.valid sc && valid_key binary k = false) | Expected _ => True end)
    (λ _ _, True) o.
Proof.
  assert (Hrefuse : ∀ e o', wp Faulty (refuse e capacity)
    (λ x (_ : Origin (Item := Item)), match x with Unexpected e => e = capacity ∨ e = input ∧ (Scope.valid sc && valid_key binary k = false) | Expected _ => True end) (λ _ _, True) o').
  { intros e o'. unfold refuse. repeat wp_step. by left. }
  unfold Origin.prepare. wp_step. eapply wp_mono; [apply wp_true| |done]. intros _ o1 _. cbv zeta.
  apply wp_if; intros E1.
  { wp_step. right. split; [done|]. apply orb_true_iff in E1 as [E%negb_true_iff|E%negb_true_iff]; rewrite E; [done|]. by rewrite andb_false_r. }
  apply wp_if; intros E2; [done|]. wp_step. wp_step. wp_step. wp_step. wp_step. eapply wp_mono; [apply wp_true| |done]. intros row o2 _.
  destruct (match row with Some (n, r) => weight (key n) r | None => Some 0 end), (weight k r); try apply Hrefuse.
  repeat (apply wp_if; intros _; [apply Hrefuse|]). wp_step. eapply wp_mono; [apply wp_true| |done]. intros e o3 _.
  cbn [announce]. unfold trim. repeat (wp_step; try done).
Qed.

Lemma draft_set_answers sc k (r : Item) now d m :
  drafted limits d m →
  wp Faulty (draft_set binary exclusive limits sc k r now)
    (λ x _, match x with
            | None => m !! {| scope := sc; key := k |} = None
            | Some duplicate => is_Some (m !! {| scope := sc; key := k |})
            | Some input => Scope.valid sc && valid_key binary k = false
            | Some capacity => True
            | Some _ => False
            end) (λ _ _, True) d.
Proof.
  intros (c & Hc & Hok). unfold draft_set. wp_step. wp_step. rewrite Hc. wp_step. rewrite Hc. cbn [default id]. wp_step.
  intros f Hf. rewrite (find_holds _ _ _ _ _ sc k f Hok). split; [done|]. clear f Hf.
  destruct (m !! _) as [it|] eqn:Em; [by wp_step|]. wp_step. eapply wp_mono; [apply prepare_refusals| |done].
  intros [e|x] c' Hr; [by repeat wp_step|]. wp_step. by destruct Hr as [-> | [-> ?]].
Qed.
End refusals.

(** ** What a landing has collected *)
Section collecting.
Context {Item : Type} {layout : Layout Item} {wire : Wire Item} (binary : bool) {carried : Carried Item binary}.
Context (limits : Origin.Limits) (HL : Origin.limits_ok limits) (exclusive : nat → bool) (clock : nat → Z).
Abbreviation Facts := (gmap Name Item).
Implicit Types (l : Landing Item) (m : Facts) (es : list (Entry Message)).

(** The fact of an entry, if it has one. *)
Definition entry_fact (e : Entry Message) : option (Name * Item) :=
  match scope_of (entry_scope e), key_valid (entry_key e), entry_record e with
  | Some sc, true, Some m => pair {| scope := sc; key := entry_key e |} <$> read_message m
  | _, _, _ => None
  end.

(** The entries are facts with names of their own, none of them in [m] yet. *)
Definition fresh m es (rows : list (Name * Item)) : Prop :=
  Forall2 (λ e x, entry_fact e = Some x) es rows ∧ NoDup rows.*1 ∧ ∀ n, n ∈ rows.*1 → m !! n = None.

Lemma fresh_cons m e es n i rows : entry_fact e = Some (n, i) → m !! n = None → fresh (<[n := i]> m) es rows → fresh m (e :: es) ((n, i) :: rows).
Proof.
  intros He Hn (F1 & F2 & F3). assert (Hnot : n ∉ rows.*1) by (intros Hin; by specialize (F3 n Hin); simplify_map_eq).
  split_and!; [by constructor|by constructor|]. intros n' [-> | Hin]%elem_of_cons; [done|]. specialize (F3 n' Hin).
  rewrite lookup_insert_None in F3. naive_solver.
Qed.

Lemma fresh_uncons m e es rows : fresh m (e :: es) rows → ∃ n i rows', rows = (n, i) :: rows' ∧ entry_fact e = Some (n, i) ∧ m !! n = None ∧
  fresh (<[n := i]> m) es rows'.
Proof.
  intros (F1 & F2 & F3). apply Forall2_cons_inv_l in F1 as ([n i] & rows' & He & F1 & ->). exists n, i, rows'. cbn in F2, F3. apply NoDup_cons in F2 as [F2 F2'].
  split_and!; [done|done|apply F3; left|]. split_and!; [done|done|]. intros n' Hin. rewrite lookup_insert_None. split; [apply F3; by right|]. by intros ->.
Qed.

Lemma joined_cons n i rows m : n ∉ rows.*1 → list_to_map ((n, i) :: rows) ∪ m = list_to_map rows ∪ <[n := i]> m.
Proof.
  intros Hn. cbn. rewrite <- insert_union_l, insert_union_r; [done|]. by apply not_elem_of_list_to_map_1.
Qed.

(** What the loop over the entries leaves. *)
Definition landed l (d : Draft (Item := Item)) m es (x : option Error) l' : Prop :=
  match x with
  | None => ∃ d' rows, l' = put_draft d' l ∧ draft_position d' = draft_position d ∧ fresh m es rows ∧ drafted limits d' (list_to_map rows ∪ m)
  | Some x => (x = capacity ∨ (x = input ∨ x = duplicate) ∧ ∀ rows, ¬ fresh m es rows) ∧ ∃ d', l' = put_draft d' l
  end.

Lemma land_entries_wp l d m index es :
  draft_ l = Some d → drafted limits d m →
  wp Faulty (land binary limits exclusive clock index es)
    (landed l d m es) (λ _ l', ∃ d', l' = put_draft d' l) l.
Proof.
  revert l d m index. induction es as [|e es IH]; intros l d m index Hl Hd; cbn [land].
  { wp_step. exists d, []. split_and!; [by destruct l; cbn in Hl; subst|done| |cbn; by rewrite (left_id_L ∅ (∪))]. split_and!; [done|constructor|]. intros n. by rewrite elem_of_nil. }
  assert (Hself : l = put_draft d l) by (by destruct l; cbn in Hl; subst).
  assert (Hbad : entry_fact e = None → wp Faulty (ret (Some input))
     (landed l d m (e :: es)) (λ _ l', ∃ d', l' = put_draft d' l) l).
  { intros He. wp_step. split; [|by exists d]. right. split; [by left|]. intros rows Hf. apply fresh_uncons in Hf as (n & i & rows' & _ & ? & _). congruence. }
  unfold entry_fact in Hbad. destruct (scope_of (entry_scope e)) as [sc|] eqn:Esc; [|by apply Hbad].
  destruct (key_valid (entry_key e)) eqn:Ek; [|by apply Hbad]. destruct (entry_record e) as [msg|] eqn:Er; [|by apply Hbad].
  wp_step. wp_step; [|by exists d]. destruct (read_message msg) as [i|] eqn:Ei; [|by apply Hbad]. clear Hbad. wp_step. wp_step. rewrite Hl.
  wp_step. wp_step. rewrite Hl. cbn [default id]. set (n := {| scope := sc; key := entry_key e |}).
  assert (He : entry_fact e = Some (n, i)) by (unfold entry_fact; by rewrite Esc, Ek, Er, Ei).
  eapply wp_mono; [apply wp_and; [apply (origin_draft_set_wp binary exclusive limits d m sc (entry_key e) i (clock index) HL Hd)|
    apply (draft_set_answers binary limits exclusive sc (entry_key e) i (clock index) d m Hd)]| |intros x d' _; by exists d'].
  fold n. intros x d' [[Hp Hd'] Ha]. destruct x as [x|].
  - wp_step. split; [|by exists d']. destruct x; try done; [right|right|by left]; (split; [tauto|]); intros rows Hf;
      apply fresh_uncons in Hf as (n' & i' & rows' & _ & He' & Hn & _); rewrite He in He'; injection He' as <- <-.
    + apply scope_of_some in Esc as [Hv _]. rewrite Hv, <- carried_key, Ek in Ha. done.
    + rewrite Hn in Ha. by destruct Ha.
  - specialize (Hd' eq_refl). eapply wp_mono; [apply (IH (put_draft d' l) d' (<[n := i]> m)); [done|done]| |].
    + intros [x|] l'.
      * intros [Hx [d2 ->]]. split; [|by exists d2]. destruct Hx as [Hx|[Hx Hn]]; [by left|right]. split; [done|]. intros rows Hf.
        apply fresh_uncons in Hf as (n' & i' & rows' & -> & He' & _ & Hf). rewrite He in He'. injection He' as <- <-. by apply (Hn rows').
      * intros (d2 & rows & -> & Hp2 & Hf & Hd2). exists d2, ((n, i) :: rows). split_and!; [done|congruence|by apply fresh_cons|].
        rewrite joined_cons; [done|]. intros Hin. destruct Hf as (_ & _ & Hf). specialize (Hf n Hin). by simplify_map_eq.
    + intros x l' [d2 ->]. by exists d2.
Qed.
(** [m] is what the draft holds; without a draft nothing has been collected. *)
Definition landing_ok l m : Prop :=
  match draft_ l with
  | None => position_ l = 0 ∧ received_ l = 0 ∧ complete_ l = false ∧ m = ∅
  | Some d => drafted limits d m ∧ draft_position d = position_ l
  end ∧ 0 <= received_ l <= maximum_ l.

Lemma clear_put d l : clear (put_draft d l) = clear l.
Proof. done. Qed.

(** A page is refused for capacity, for its place, or for its form; then nothing is left. *)
Definition refused l m (page : Snapshot Message) (minimum : Z) (x : Error) : Prop :=
  match x with
  | version_error => complete_ l = true ∨ snapshot_position page < minimum ∨ is_Some (draft_ l) ∧ snapshot_position page ≠ position_ l
  | capacity => True
  | input | duplicate => (draft_ l = None ∧ source_ l = false) ∨ (snapshot_complete page = false ∧ snapshot_entries page = []) ∨
      (snapshot_position page = 0 ∧ snapshot_entries page ≠ []) ∨ ∀ rows, ¬ fresh m (snapshot_entries page) rows
  | history_error => False
  end.

Lemma landing_append_wp l m page minimum :
  landing_ok l m → 0 <= snapshot_bytes page →
  wp Faulty (append binary limits exclusive clock page minimum)
    (λ r l', match r with
             | Expected _ => complete_ l = false ∧ minimum <= snapshot_position page ∧ (is_Some (draft_ l) → snapshot_position page = position_ l) ∧
                 ∃ rows, fresh m (snapshot_entries page) rows ∧ landing_ok l' (list_to_map rows ∪ m) ∧ is_Some (draft_ l') ∧
                   position_ l' = snapshot_position page ∧ complete_ l' = snapshot_complete page ∧ received_ l' = received_ l + snapshot_bytes page
             | Unexpected x => l' = clear l ∧ refused l m page minimum x
             end) (λ _ l', l' = clear l) l.
Proof.
  intros [Hok Hrecv] Hbytes. unfold append. wp_step. wp_step. wp_step. cbv zeta.
  apply wp_if; intros E1.
  { unfold reject. repeat wp_step. split; [done|]. cbn. rewrite !orb_true_iff, andb_true_iff, Z.ltb_lt, negb_true_iff, Z.eqb_neq in E1.
    destruct E1 as [[?|?]|[?%bool_decide_eq_true ?]]; tauto. }
  apply wp_if; intros E2; [unfold reject; by repeat wp_step|].
  apply wp_if; intros E3.
  { unfold reject. repeat wp_step. split; [done|]. cbn. rewrite orb_true_iff, !andb_true_iff, !negb_true_iff, Z.eqb_eq in E3.
    destruct E3 as [[? ?%bool_decide_eq_true]|[? ?%bool_decide_eq_false]]; tauto. }
  rewrite !orb_false_iff, Z.ltb_ge in E1. destruct E1 as [[E1 E1'] E1'']. rewrite !orb_false_iff, !Z.ltb_ge in E2. destruct E2 as [[E2 E2'] E2''].
  assert (Hplace : is_Some (draft_ l) → snapshot_position page = position_ l).
  { intros Hs. rewrite (bool_decide_eq_true_2 _ Hs) in E1''. cbn in E1''. by apply negb_false_iff, Z.eqb_eq in E1''. }
  wp_step.
  apply wp_mono with (Q := λ (b : bool) l', if b then ∃ d, l' = begin_draft d (snapshot_position page) l ∧ drafted limits d m ∧ draft_position d = snapshot_position page
       else l' = l ∧ draft_ l = None ∧ source_ l = false) (E := λ _ l', l' = l).
  { destruct (draft_ l) as [d|] eqn:Ed; cbn [bool_decide is_Some] in *.
    - rewrite bool_decide_eq_true_2 by done. wp_step. exists d. destruct Hok as [Hd Hp]. specialize (Hplace ltac:(done)). split_and!; [|done|congruence].
      rewrite Hplace. destruct l; cbn in *; by subst.
    - rewrite bool_decide_eq_false_2 by (by intros [? ?]). destruct Hok as (_ & _ & _ & ->). apply wp_if; intros Es; [wp_step; by rewrite negb_true_iff in Es|].
      unfold open_draft. wp_step. wp_step. wp_step; [|done]. wp_step. wp_step. unfold Origin.make. destruct (retention limits <? 0); [done|]. wp_step. wp_step. wp_step. wp_step.
      eexists. split_and!; [done| |done]. exists blank. split; [done|]. by apply blank_ok. }
  2: { intros x l' ->. by wp_step. }
  intros [|] l'.
  2: { intros (-> & Hn & Hs). cbn [negb]. unfold reject. repeat wp_step. split; [done|]. cbn. tauto. }
  intros (d & -> & Hd & Hp). cbn [negb]. wp_step. eapply wp_mono; [by apply (land_entries_wp (begin_draft d (snapshot_position page) l) d m)| |].
  2: { intros x l' [d' ->]. by wp_step. }
  intros [x|] l'.
  - intros [Hx [d' ->]]. unfold reject. repeat wp_step. split; [done|]. destruct Hx as [->|[[-> | ->] Hx]]; cbn; tauto.
  - intros (d' & rows & -> & Hp' & Hf & Hd'). repeat wp_step. split_and!; [done|lia|done|]. exists rows. unfold landing_ok. cbn. split_and!; try done; [congruence|lia..].
Qed.
End collecting.

(** ** A whole baseline *)
Section baselines.
Context {Item : Type} {layout : Layout Item} {wire : Wire Item} (binary : bool) {carried : Carried Item binary}.
Context (limits : Origin.Limits).
Abbreviation Facts := (gmap Name Item).
Abbreviation Page := (Snapshot (Message (Item := Item))).
Implicit Types (l : Landing Item) (m : Facts) (ps : list Page).

(** Pages taken in one after the other, each with its own lower bound, clock and memory. *)
Inductive collects l0 : list Page → Landing Item → Prop :=
| collects_none : collects l0 [] l0
| collects_more ps l page exclusive clock minimum f l' f' : collects l0 ps l → 0 <= snapshot_bytes page →
    append binary limits exclusive clock page minimum l f = (Done (Expected tt), l', f') → collects l0 (ps ++ [page]) l'.

Lemma collects_run l0 ps l page exclusive clock minimum f :
  collects l0 ps l → 0 <= snapshot_bytes page → (append binary limits exclusive clock page minimum l f).1.1 = Done (Expected tt) →
  collects l0 (ps ++ [page]) (append binary limits exclusive clock page minimum l f).1.2.
Proof.
  intros Hc Hb Ha. destruct (append _ _ _ _ _ _ _ _) as [[r l'] f'] eqn:E. cbn in *. subst r. by eapply collects_more.
Qed.

(** A landing as the constructors make it, for a baseline at [at_] if it has a draft. *)
Definition begun (at_ : Z) l : Prop :=
  landing_ok limits l ∅ ∧ complete_ l = false ∧
  match draft_ l with None => source_ l = true | Some _ => position_ l = at_ end.

(** The entries of the pages, in order. *)
Definition all_entries ps : list (Entry Message) := ps ≫= snapshot_entries.

Record collected l0 ps l (rows : list (Name * Item)) : Prop := {
  co_facts : Forall2 (λ e x, entry_fact e = Some x) (all_entries ps) rows;
  co_names : NoDup rows.*1;
  co_draft : landing_ok limits l (list_to_map rows);
  co_pages : ps ≠ [] → is_Some (draft_ l);
  co_place : Forall (λ page, snapshot_position page = position_ l) ps;
  co_last : complete_ l = default false (snapshot_complete <$> last ps);
  co_more : ∀ ps' page, ps = ps' ++ [page] → Forall (λ page, snapshot_complete page = false) ps';
  co_still : ps = [] → l = l0
}.

Lemma collects_rows at_ l0 ps l : Origin.limits_ok limits → begun at_ l0 → collects l0 ps l → ∃ rows, collected l0 ps l rows.
Proof.
  intros HL (Hok & Hc & Hb). induction 1 as [|ps l page exclusive clock minimum f l' f' _ IH Hbytes Happ].
  { exists []. split; try done; [constructor|]. intros ps' page E. by destruct ps'. }
  destruct IH as [rows [C1 C2 C3 C4 C5 C6 C7 C8]].
  pose proof (landing_append_wp binary limits HL exclusive clock l (list_to_map rows) page minimum C3 Hbytes f I) as Hw. rewrite Happ in Hw.
  destruct Hw as (_ & Hl & _ & Hplace & more & (F1 & F2 & F3) & Hok' & Hd & Hp & Hlast & _).
  assert (Hdis : ∀ n, n ∈ more.*1 → n ∉ rows.*1).
  { intros n Hn Hin. specialize (F3 n Hn). by apply not_elem_of_list_to_map in F3. }
  exists (rows ++ more). split.
  - unfold all_entries. rewrite bind_app. cbn. rewrite app_nil_r. by apply Forall2_app.
  - rewrite fmap_app. apply NoDup_app. split_and!; [done|set_solver|done].
  - rewrite list_to_map_app. rewrite map_union_comm; [done|]. apply map_disjoint_list_to_map_l. apply Forall_forall. intros [n i] Hin. cbn.
    apply not_elem_of_list_to_map. intros Hm. apply (Hdis n Hm). by apply (list_elem_of_fmap_2 fst) in Hin.
  - done.
  - apply Forall_app. split; [|by constructor]. destruct ps as [|p0 ps]; [done|]. rewrite Hp, (Hplace (C4 ltac:(done))). done.
  - by rewrite last_snoc.
  - intros ps' page' E. apply app_inj_tail in E as [<- <-]. destruct (decide (ps = [])) as [->|Hne]; [done|].
    destruct (exists_last Hne) as (ps0 & p & ->). rewrite last_snoc in C6. cbn in C6. apply Forall_app. split; [by eapply C7|]. constructor; [congruence|done].
  - intros E. by destruct ps.
Qed.

(** C35. What a landing hands over, for any pages, memory faults and clock readings: a
    draft that [take] gives out holds exactly the facts of the entries of all pages, each
    under a name of its own, at the position that every page bears; the last page and no
    other was marked complete.  A page that is refused, and one that meets an exception,
    leaves no part of the baseline behind. *)
Theorem landing_exact at_ l0 ps l page exclusive clock minimum f :
  Origin.limits_ok limits → begun at_ l0 → collects l0 ps l → 0 <= snapshot_bytes page →
  (∀ d, (take minimum l).1 = Expected d →
     ∃ rows ps' final, ps = ps' ++ [final] ∧ Forall2 (λ e x, entry_fact e = Some x) (all_entries ps) rows ∧ NoDup rows.*1 ∧
       drafted limits d (list_to_map rows) ∧ Forall (λ page, snapshot_position page = draft_position d) ps ∧ minimum <= draft_position d ∧
       snapshot_complete final = true ∧ Forall (λ page, snapshot_complete page = false) ps') ∧
  match append binary limits exclusive clock page minimum l f with
  | (Done (Expected _), l', _) => is_Some (draft_ l')
  | (Done (Unexpected _), l', _) | (Thrown _, l', _) => l' = clear l
  end.
Proof.
  intros HL Hb Hc Hbytes. destruct (collects_rows at_ l0 ps l HL Hb Hc) as [rows C]. pose proof C as [C1 C2 C3 C4 C5 C6 C7 C8]. split.
  - intros d Ht. unfold take in Ht. destruct C3 as [Hd _]. destruct (draft_ l) as [d'|] eqn:El; [|done].
    destruct (negb (complete_ l) || (position_ l <? minimum)) eqn:E; [done|]. injection Ht as ->.
    apply orb_false_iff in E as [E1%negb_false_iff E2%Z.ltb_ge]. destruct Hd as [Hd Hp]. rewrite E1 in C6.
    destruct (decide (ps = [])) as [->|Hne]; [done|]. destruct (exists_last Hne) as (ps' & final & E). exists rows, ps', final.
    rewrite E, last_snoc in C6. rewrite Hp. split_and!; try done; [by eapply C7].
  - pose proof (landing_append_wp binary limits HL exclusive clock l (list_to_map rows) page minimum C3 Hbytes f I) as Hw.
    destruct (append _ _ _ _ _ _ _ _) as [[[[u|x]|x] l'] f']; destruct Hw as [_ Hw]; [|apply Hw|done]. destruct Hw as (_ & _ & _ & more & _ & _ & ? & _). done.
Qed.

(** *** The pages a sender writes *)
Definition snapshot_of (p : Packet Item) : option Page := match p with SnapshotPacket m => Some m | ChangesPacket _ => None end.
Definition final_page (at_ : Z) (es : list (Entry Message)) (n : Z) : Page :=
  {| snapshot_position := at_; snapshot_entries := es; snapshot_complete := true; snapshot_bytes := n |}.

(** Facts that can be sent: valid names, and items that travel. *)
Definition portable m : Prop := ∀ n i, m !! n = Some i → Scope.valid (scope n) = true ∧ valid_key binary (key n) = true ∧ travels i.

Lemma pages_unpacked cap at_ packets es :
  pages_of cap at_ packets es →
  all_entries (omap snapshot_of packets) = es ∧
  Forall (λ page, snapshot_complete page = false ∧ snapshot_position page = at_ ∧ snapshot_entries page ≠ []) (omap snapshot_of packets).
Proof.
  induction 1 as [|ps es es' n _ [IH1 IH2] Hne _ _]; [done|]. rewrite omap_app. unfold all_entries in *. rewrite bind_app, IH1. cbn. rewrite app_nil_r.
  split; [done|]. apply Forall_app. split; [done|]. by constructor.
Qed.

Lemma entry_for_fact m x e : portable m → m !! x.1 = Some x.2 → entry_for x e → entry_fact e = Some x.
Proof.
  intros Hm Hx (msg & Hmsg & ->). destruct x as [[sc k] i]. destruct (Hm _ _ Hx) as (H1 & H2 & H3). cbn in *. unfold entry_fact. cbn.
  rewrite scope_roundtrip, H1, carried_key, H2. cbn. by rewrite (carried_back i msg H3 Hmsg).
Qed.

Lemma captured_facts m lst es : portable m → (∀ x, x ∈ lst → m !! x.1 = Some x.2) → Forall2 entry_for lst es → Forall2 (λ e x, entry_fact e = Some x) es lst.
Proof.
  intros Hm Hl Hf. induction Hf as [|x e lst es Hx _ IH]; [constructor|]. constructor; [apply (entry_for_fact m); [done|apply Hl; left|done]|].
  apply IH. intros y Hy. apply Hl. by right.
Qed.

Lemma lists_facts_map m lst : lists_facts lst m → list_to_map lst = m.
Proof.
  intros [Hn Hl]. apply map_eq. intros n. apply option_eq. intros i. rewrite <- Hl. symmetry. by apply elem_of_list_to_map.
Qed.

Lemma same_facts (es : list (Entry Message)) (r r' : list (Name * Item)) :
  Forall2 (λ e x, entry_fact e = Some x) es r → Forall2 (λ e x, entry_fact e = Some x) es r' → r = r'.
Proof.
  intros H. revert r'. induction H as [|e x es r Hx _ IH]; intros r' H'; [by apply Forall2_nil_inv_l in H'|].
  apply Forall2_cons_inv_l in H' as (x' & r'' & Hx' & H' & ->). f_equal; [congruence|by apply IH].
Qed.

(** The pages of one capture, as they come out of a stream. *)
Record capture_pages (at_ : Z) m (lst : list (Name * Item)) ps : Prop := {
  cp_lists : lists_facts lst m;
  cp_facts : Forall2 (λ e x, entry_fact e = Some x) (all_entries ps) lst;
  cp_place : Forall (λ page, snapshot_position page = at_) ps;
  cp_last : ∃ ps' final, ps = ps' ++ [final] ∧ snapshot_complete final = true ∧
    Forall (λ page, snapshot_complete page = false ∧ snapshot_entries page ≠ []) ps'
}.

Lemma conveyed_pages cap at_ m lst packets es es' n :
  portable m → lists_facts lst m → pages_of cap at_ packets es → Forall2 entry_for lst (es ++ es') →
  capture_pages at_ m lst (omap snapshot_of packets ++ [final_page at_ es' n]).
Proof.
  intros Hm Hl Hp Hf. destruct (pages_unpacked cap at_ packets es Hp) as [He Hps]. split; [done| | |].
  - unfold all_entries in *. rewrite bind_app, He. cbn. rewrite app_nil_r. apply (captured_facts m); [done| |done]. intros [k i] Hx. by apply Hl.
  - apply Forall_app. split; [|by constructor]. eapply Forall_impl; [exact Hps|]. naive_solver.
  - eexists _, _. split_and!; [done|done|]. eapply Forall_impl; [exact Hps|]. naive_solver.
Qed.

(** Any page of a capture continues the pages before it. *)
Lemma page_continues at_ m lst ps pre page post l0 l rows :
  capture_pages at_ m lst ps → ps = pre ++ page :: post → begun at_ l0 → collected l0 pre l rows →
  complete_ l = false ∧ snapshot_position page = at_ ∧ (is_Some (draft_ l) → position_ l = at_) ∧ (draft_ l = None → source_ l = true) ∧
  (snapshot_complete page = false → snapshot_entries page ≠ []) ∧ (∃ more, fresh (list_to_map rows) (snapshot_entries page) more) ∧
  (m = ∅ → snapshot_entries page = []).
Proof.
  intros [[P1 P1'] P2 P3 (ps' & final & Eps & P4 & P5)] E (_ & Hc & Hb) [C1 C2 C3 C4 C5 C6 C7 C8]. rewrite E in P2, P3. rewrite Eps in E.
  apply Forall_app in P3 as [P3 P3']. apply Forall_cons in P3' as [Hpos _].
  assert (Hpre : Forall (λ page, snapshot_complete page = false ∧ snapshot_entries page ≠ []) pre ∧ (snapshot_complete page = false → snapshot_entries page ≠ [])).
  { destruct (decide (post = [])) as [->|Hne].
    - apply app_inj_tail in E as [-> ->]. split; [done|]. congruence.
    - destruct (exists_last Hne) as (post' & x & ->). rewrite app_comm_cons, app_assoc in E. apply app_inj_tail in E as [-> ->].
      apply Forall_app in P5 as [P5 P5']. apply Forall_cons in P5' as [? _]. split; [done|naive_solver]. }
  destruct Hpre as [Hpre Hentries].
  unfold all_entries in P2. rewrite bind_app, bind_cons in P2. apply Forall2_app_inv_l in P2 as (r1 & r2 & F1 & F2 & ->).
  apply Forall2_app_inv_l in F2 as (more & r3 & F2 & F3 & ->).
  pose proof (same_facts _ _ _ F1 C1) as ->. rewrite !fmap_app in P1.
  split_and!; [|done| | |done| |].
  - destruct (decide (pre = [])) as [->|Hne]; [by rewrite (C8 eq_refl)|]. destruct (exists_last Hne) as (pre' & x & ->). rewrite C6, last_snoc. cbn.
    apply Forall_app in Hpre as [_ Hx]. apply Forall_cons in Hx as [? _]. naive_solver.
  - destruct pre as [|p0 pre]; [rewrite (C8 eq_refl); intros [d Hd]; by rewrite Hd in Hb|]. intros _. apply Forall_cons in C5 as [<- _]. by apply Forall_cons in P3 as [? _].
  - destruct pre as [|p0 pre]; [rewrite (C8 eq_refl); intros Hd; by rewrite Hd in Hb|]. intros Hd. destruct (C4 ltac:(done)). congruence.
  - exists more. split_and!; [done|by apply NoDup_app in P1 as (_ & _ & [? _]%NoDup_app)|].
    intros n Hn. apply not_elem_of_list_to_map. intros Hin. apply NoDup_app in P1 as (_ & P1 & _). apply (P1 n Hin). rewrite elem_of_app. by left.
  - intros ->. destruct more as [|[n i] more]; [by apply Forall2_nil_inv_r in F2|]. exfalso. specialize (P1' n i). rewrite lookup_empty in P1'.
    destruct P1' as [P1' _]. discriminate P1'. set_solver.
Qed.

(** C12. From the sender to the receiver: the pages of a capture that a sender's stream
    conveys, taken in by a landing of the peer.  No page of it is ever refused except
    for want of room, and once all of them are in, the peer takes out a draft with
    exactly the facts captured at the source, at the position of the capture.  The facts
    are ones a message can carry, and the peer asks for no position beyond the capture's. *)
Theorem capture_lands cap at_ m lst packets es es' n l0 :
  Origin.limits_ok limits → begun at_ l0 → portable m → (at_ = 0 → m = ∅) →
  lists_facts lst m → pages_of cap at_ packets es → Forall2 entry_for lst (es ++ es') →
  let pages := omap snapshot_of packets ++ [final_page at_ es' n] in
  (∀ pre page post l exclusive clock minimum f, pages = pre ++ page :: post → collects l0 pre l → minimum <= at_ → 0 <= snapshot_bytes page →
     match (append binary limits exclusive clock page minimum l f).1.1 with Done (Unexpected x) => x = capacity | _ => True end) ∧
  (∀ l minimum, collects l0 pages l → minimum <= at_ →
     ∃ d, take minimum l = (Expected d, clear l) ∧ drafted limits d m ∧ draft_position d = at_).
Proof.
  intros HL Hb Hm Hz Hl Hp Hf pages. pose proof (conveyed_pages cap at_ m lst packets es es' n Hm Hl Hp Hf) as Hpages. fold pages in Hpages. split.
  - intros pre page post l exclusive clock minimum f E Hc Hmin Hbytes. destruct (collects_rows at_ l0 pre l HL Hb Hc) as [rows C].
    destruct (page_continues at_ m lst pages pre page post l0 l rows Hpages E Hb C) as (Q1 & Q2 & Q3 & Q4 & Q5 & [more Q6] & Q7).
    pose proof (landing_append_wp binary limits HL exclusive clock l (list_to_map rows) page minimum (co_draft _ _ _ _ C) Hbytes f I) as Hw.
    destruct (append _ _ _ _ _ _ _ _) as [[[[u|x]|x] l'] f']; cbn; [done| |done]. destruct Hw as (_ & _ & Hr). subst at_.
    assert (Hbad : ¬ ((draft_ l = None ∧ source_ l = false) ∨ (snapshot_complete page = false ∧ snapshot_entries page = []) ∨
      (snapshot_position page = 0 ∧ snapshot_entries page ≠ []) ∨ ∀ rows', ¬ fresh (list_to_map rows) (snapshot_entries page) rows')).
    { intros [[H1 H2]|[[H1 H2]|[[H1 H2]|H1]]]; [specialize (Q4 H1); congruence|by apply Q5|by apply H2, Q7, Hz|by apply (H1 more)]. }
    destruct x; try done. destruct Hr as [?|[?|[? Hx]]]; [congruence|lia|]. by rewrite (Q3 ltac:(done)) in Hx.
  - intros l minimum Hc Hmin. destruct (collects_rows at_ l0 pages l HL Hb Hc) as [rows [C1 C2 C3 C4 C5 C6 C7 C8]].
    destruct Hpages as [P1 P2 P3 _]. rewrite <- (lists_facts_map m lst P1), (same_facts _ _ _ P2 C1).
    destruct (C4 ltac:(unfold pages; intros E; by apply app_nil in E as [_ ?])) as [d Hd]. exists d. unfold pages in C5, C6. apply Forall_app in C5 as [_ C5]. apply Forall_cons in C5 as [C5 _].
    rewrite last_snoc in C6. cbn in C5, C6. destruct C3 as [C3 _]. rewrite Hd in C3. destruct C3 as [C3 C3'].
    split_and!; [|done|congruence]. unfold take. rewrite Hd, C6, <- C5. cbn. by rewrite (proj2 (Z.ltb_ge _ _)) by lia.
Qed.
End baselines.
