(* ===== verification/Wires.v ===== *)
(** The two domains between Stars: the messages of the Catalog and of the Ephemeris as
    instances of [Wire], with their promises ([Carried]), and samples of a sender and a
    receiver of Catalog facts.  The sizes are the generated code's. *)
From stdpp Require Import base numbers strings gmap list.
From S2P Require Import Prelude.
From S2P Require Import Scope.
From S2P Require Import Catalog.
From S2P Require Import Ephemeris.
From S2P Require Import Pages.
From S2P Require Import Index.
From S2P Require Import Origin.
From S2P Require Import CatalogState.
From S2P Require Import CatalogRun.
From S2P Require Import Parcel.
From S2P Require Import Dispatch.
From S2P Require Import Landing.

Section domains.
Context {Action Message : Type}.

(** [ByteSizeLong] of the four messages of a domain. *)
Record Measures := {
  of_delta : Delta Action → Z;
  of_entry : Entry Message → Z;
  of_changes : Z → list (Delta Action) → Z;
  of_snapshot : Z → list (Entry Message) → bool → Z
}.
End domains.
Arguments Measures : clear implicits.

Definition catalog_wire (ms : Measures CatalogAction CatalogMessage) : Wire Catalog.record :=
  {| key_valid := λ k, text k 1024; action_valid := catalog_action_valid; delta_of := catalog_delta; message_of := to_catalog;
     read_message := of_catalog; delta_size := of_delta ms; entry_size := of_entry ms; changes_size := of_changes ms; snapshot_size := of_snapshot ms |}.
Definition ephemeris_wire (ms : Measures EphemerisAction EphemerisMessage) : Wire Ephemeris.record :=
  {| key_valid := valid_identifier; action_valid := ephemeris_action_valid; delta_of := ephemeris_delta; message_of := to_ephemeris;
     read_message := of_ephemeris; delta_size := of_delta ms; entry_size := of_entry ms; changes_size := of_changes ms; snapshot_size := of_snapshot ms |}.

(** [Ephemeris::valid] and [Origin::valid_key] agree on identifiers. *)
Lemma identifier_key k : valid_identifier k = valid_key true k.
Proof.
  unfold valid_identifier, valid_uuid, valid_key. destruct (Scope.bytes k) as [|b0 [|b1 [|b2 [|b3 [|b4 [|b5 [|b6 [|b7 [|b8 [|b9 [|b10 [|b11 [|b12 [|b13 [|b14 [|b15 [|b16 l]]]]]]]]]]]]]]]]]; reflexivity.
Qed.

#[export] Instance catalog_carried ms : Carried (wire := catalog_wire ms) Catalog.record false.
Proof.
  refine {| travels := catalog_travels : Catalog.record → Prop |}; cbn.
  - done.
  - intros r Hr. destruct (catalog_encodes r Hr) as (m & Hm & _). eauto.
  - intros r m Hr Hm. destruct (catalog_encodes r Hr) as (m' & Hm' & Hof & _). congruence.
  - apply catalog_delta_sound.
Defined.

#[export] Instance ephemeris_carried ms : Carried (wire := ephemeris_wire ms) Ephemeris.record true.
Proof.
  refine {| travels := ephemeris_travels : Ephemeris.record → Prop |}; cbn.
  - apply identifier_key.
  - intros r Hr. destruct (ephemeris_encodes r Hr) as (m & Hm & _). eauto.
  - intros r m Hr Hm. destruct (ephemeris_encodes r Hr) as (m' & Hm' & Hof & _). congruence.
  - apply ephemeris_delta_sound.
Defined.

Module Sample.
Local Open Scope string_scope.
Local Open Scope Z_scope.

#[local] Instance sizes : Sizes := CatalogRun.Sample.sizes.

(** Sizes with room for the tags, lengths and numbers of each message. *)
Definition body_size (m : CatalogMessage) : Z := match message_body m with BodyValue b _ => 40 + buffer_size b | _ => 20 end.
Definition name_size (sc : ScopeMessage) (k : string) : Z :=
  16 + Z.of_nat (String.length (sector_bytes sc) + String.length (spectrum_bytes sc) + String.length k).
Definition delta_bytes (d : Delta CatalogAction) : Z :=
  name_size (delta_scope d) (delta_key d) + 12 + match delta_action d with CatalogFull m => body_size m | _ => 24 end.
Definition entry_bytes (e : Entry CatalogMessage) : Z :=
  name_size (entry_scope e) (entry_key e) + match entry_record e with Some m => body_size m | None => 0 end.
Definition measures : Measures CatalogAction CatalogMessage :=
  {| of_delta := delta_bytes; of_entry := entry_bytes; of_changes := λ _ ds, 11 + total delta_bytes ds;
     of_snapshot := λ _ es _, 13 + total entry_bytes es |}.
#[local] Instance wire : Wire Catalog.record := catalog_wire measures.

Definition limits : Origin.Limits := {| records := 4; scopes := 3; bytes := 8000; history := 2; backlog := 4000; retention := 600 |}.
Lemma port_limits_fine : Origin.limits_ok limits.
Proof. split; cbn; unfold u64_max; lia. Qed.

Definition port : Dispatch.Limits := {| capacity_ := 1024; target_ := 100; reserve_ := true; release_ := true |}.

Definition east : Scope := {| sector := "east"; spectrum := "a" |}.
Definition west : Scope := {| sector := "west"; spectrum := "a" |}.
Definition calm : Origin.circumstances := {| Origin.sharing := λ _, false; Origin.script := [] |}.
Definition published (n : Z) : Catalog.record := {| Catalog.version := n; Catalog.value := Some [Byte.x2a; Byte.x2b]; Catalog.deadline := Some 900 |}.
Definition told_as (sc : Scope) (k : string) (p : Z) : act (Item := Catalog.record) :=
  Write (Change sc k (Some (published p)) (Some p) p form_record None true, calm).

(** Three facts, of which the history keeps two; a peer that starts from nothing is given
    the whole, in pages; a refused budget and a failed allocation delay a page; then a
    fourth fact follows as an event. *)
Definition story : list (act (Item := Catalog.record)) :=
  [told_as east "k" 1; told_as west "k" 2; told_as west "j" 3; Send; Resume 0 []; Prepare (λ _, false) []; Send;
   Prepare (λ _, true) []; Send; Acknowledge 3; told_as east "j" 4; Prepare (λ _, true) [true]; Prepare (λ _, true) []; Send;
   Prepare (λ _, true) []; Send; Acknowledge 3; Prepare (λ _, true) []; Send].

Definition idle_sender : Dispatch Catalog.record :=
  {| baseline_ := None; packet_ := None; sent_ := 0; acknowledged_ := 0; position_next_ := 0; offset_ := 0; offset_next_ := 0; retained_ := 0;
     opened_ := false; initial_ := true |}.
Definition after : link (Item := Catalog.record) := foldl (step false limits port) (opening blank idle_sender) story.

Definition shape (p : Packet Catalog.record) : Z * list string * bool :=
  match p with
  | ChangesPacket m => (changes_head m, delta_key <$> changes_entries m, false)
  | SnapshotPacket m => (snapshot_position m, entry_key <$> snapshot_entries m, snapshot_complete m)
  end.
Example story_run : (sent_ (sender after), acknowledged_ (sender after), shape <$> stream after) =
  (4, 3, [(3, ["k"], false); (3, ["k"], false); (3, ["j"], true); (4, ["j"], false)]).
Proof. vm_compute. reflexivity. Qed.

Lemma story_sane : Forall sane_act story.
Proof. repeat (apply Forall_cons_2; [done|]). by apply Forall_nil_2. Qed.

(** Everything in the story fits a packet. *)
Definition small_event (e : Origin.Event (Item := Catalog.record)) : bool :=
  (event_bytes e <=? 1024) && match catalog_delta e with Done d => (0 <=? encoded (delta_bytes d)) && (encoded (delta_bytes d) <=? 992) | Thrown _ => false end.
Definition small_fact (x : Name * Catalog.record) : bool :=
  match to_catalog x.2 with
  | Done m => let e := {| entry_scope := to_scope (scope x.1); entry_key := key x.1; entry_record := Some m |} in
      (0 <=? encoded (entry_bytes e)) && (encoded (entry_bytes e) <=? 992)
  | Thrown _ => false
  end.

(** A length of at most four bytes covers a packet of the largest size. *)
Lemma encoded_small n : 0 <= n <= 8 * 1024 * 1024 → encoded n <= n + 5.
Proof.
  intros Hn. unfold encoded, bit_width. destruct (Z.eqb_spec n 0) as [->|Hz]; [done|].
  assert (H : Z.log2 n <= 23) by (change 23 with (Z.log2 (2 ^ 23)); apply Z.log2_le_mono; lia).
  assert ((Z.log2 n + 1 + 6) / 7 < 5) by (apply Z.div_lt_upper_bound; lia). lia.
Qed.

Lemma encoded_grows n : 0 <= n → n <= encoded n.
Proof. unfold encoded. lia. Qed.

Lemma packet_total_nonneg {A} (size : A → Z) xs : (∀ x, 0 <= size x) → 0 <= total size xs.
Proof. intros Hs. unfold total. induction xs as [|x xs IH]; cbn; [done|]. pose proof (encoded_grows _ (Hs x)). specialize (Hs x). lia. Qed.

Lemma delta_bytes_nonneg d : 0 <= delta_bytes d.
Proof. unfold delta_bytes, name_size, body_size, buffer_size. destruct (delta_action d) as [m| |]; [destruct (message_body m)|..]; lia. Qed.
Lemma entry_bytes_nonneg e : 0 <= entry_bytes e.
Proof. unfold entry_bytes, name_size, body_size, buffer_size. destruct (entry_record e) as [m|]; [destruct (message_body m)|]; lia. Qed.

Lemma story_sendable : sendable port (facts after) (captures after).
Proof.
  split.
  - assert (H : forallb small_event (told (log (facts after))) = true) by (vm_compute; reflexivity).
    intros e He. rewrite forallb_forall in H. apply list_elem_of_In, H in He. unfold small_event in He. rewrite andb_true_iff, Z.leb_le in He.
    destruct He as [Hb Hd]. split; [exact Hb|]. clear H. change (delta_of e) with (catalog_delta e). destruct (catalog_delta e) as [d|]; [|done]. exists d. rewrite andb_true_iff, !Z.leb_le in Hd. done.
  - assert (H : forallb (λ x, forallb small_fact (map_to_list x.2)) (captures after) = true) by (vm_compute; reflexivity).
    intros at_ m n i Hin Hm. rewrite forallb_forall in H. apply list_elem_of_In, H in Hin. rewrite forallb_forall in Hin.
    apply elem_of_map_to_list, list_elem_of_In, Hin in Hm. unfold small_fact in Hm. clear H Hin.
    cbn [fst snd] in Hm. change (message_of i) with (to_catalog i). destruct (to_catalog i) as [x|]; [|done]. exists x. rewrite andb_true_iff, !Z.leb_le in Hm. done.
  - intros hd xs Hx. pose proof (packet_total_nonneg delta_bytes xs delta_bytes_nonneg). cbn in *. etrans; [apply encoded_small|]; lia.
  - intros at_ xs last Hx. pose proof (packet_total_nonneg entry_bytes xs entry_bytes_nonneg). cbn in *. etrans; [apply encoded_small|]; lia.
Qed.

Lemma dispatch_conveys_witness :
  brought port after ∧ (∃ r d, prepare port (λ _, true) (source after, sender after) [] = (Done (Expected r), (source after, d), [])).
Proof.
  pose proof (dispatch_conveys false limits port blank idle_sender story port_limits_fine eq_refl eq_refl ltac:(done) story_sane) as H.
  assert (E : foldl (step false limits port) (opening blank idle_sender) story = after) by (unfold after; reflexivity).
  cbv zeta in H. rewrite E in H. destruct H as [_ H]. destruct H as (H1 & _ & H2); [vm_compute; reflexivity|].
  exact (conj H1 (H2 story_sendable)).
Defined.

(** A baseline of two facts in two pages, and the landing that takes it in. *)
Definition first : Name := {| scope := east; key := "k" |}.
Definition second : Name := {| scope := west; key := "k" |}.
Definition whole : gmap Name Catalog.record := {[first := published 1; second := published 2]}.
Definition entry_of (n : Name) (p : Z) : Entry CatalogMessage :=
  {| entry_scope := to_scope (scope n); entry_key := key n;
     entry_record := Some {| message_version := p; message_body := BodyValue [Byte.x2a; Byte.x2b] 900 |} |}.
Definition page_one : Snapshot CatalogMessage :=
  {| snapshot_position := 3; snapshot_entries := [entry_of first 1]; snapshot_complete := false; snapshot_bytes := 80 |}.
Definition page_two : Snapshot CatalogMessage := final_page (wire := wire) 3 [entry_of second 2] 80.

Definition empty_landing : Landing Catalog.record :=
  {| source_ := true; maximum_ := 1000; draft_ := None; Landing.position_ := 0; received_ := 0; complete_ := false |}.
Definition land_page (page : Snapshot CatalogMessage) (l : Landing Catalog.record) : Landing Catalog.record :=
  (append (wire := wire) false limits (λ _, false) (λ _, 0) page 2 l []).1.2.
Definition half : Landing Catalog.record := land_page page_one empty_landing.
Definition done_landing : Landing Catalog.record := land_page page_two half.

Lemma landing_begun : begun limits 3 empty_landing.
Proof. split; [|done]. split; [done|cbn; lia]. Qed.

Lemma landing_collected : collects (wire := wire) false limits empty_landing [page_one; page_two] done_landing.
Proof.
  change [page_one; page_two] with (([] ++ [page_one]) ++ [page_two])%list.
  unfold done_landing, half, land_page.
  apply (collects_run (wire := wire) false limits empty_landing ([] ++ [page_one])%list _ page_two);
    [apply (collects_run (wire := wire) false limits empty_landing [] _ page_one); [constructor|done|]|done|]; vm_compute; reflexivity.
Qed.

Lemma landing_exact_witness :
  ∃ d rows, (Landing.take 2 done_landing).1 = Expected d ∧ drafted limits d (list_to_map rows) ∧ rows.*1 = [first; second] ∧
    clear half = (append (wire := wire) false limits (λ _, false) (λ _, 0) page_one 4 half []).1.2.
Proof.
  pose proof (landing_exact (wire := wire) false limits 3 empty_landing [page_one; page_two] done_landing page_one (λ _, false) (λ _, 0) 2 []
    port_limits_fine landing_begun landing_collected ltac:(done)) as [H _].
  assert (Hd : bool_decide (is_Some (draft_ done_landing)) = true) by (vm_compute; reflexivity).
  assert (Ht : (Landing.take 2 done_landing).1 = match draft_ done_landing with Some d => Expected d | None => Unexpected input end).
  { unfold Landing.take. assert (E1 : complete_ done_landing = true) by (vm_compute; reflexivity).
    assert (E2 : Landing.position_ done_landing = 3) by (vm_compute; reflexivity). rewrite E1, E2. by destruct (draft_ done_landing). }
  apply bool_decide_eq_true in Hd as [d Ed]. rewrite Ed in Ht. destruct (H d Ht) as (rows & ps' & final & _ & H1 & _ & H2 & _).
  exists d, rows. split; [exact Ht|]. split; [exact H2|]. split; [|vm_compute; reflexivity].
  cbn in H1. repeat (apply Forall2_cons_inv_l in H1 as (? & ? & [= <-] & H1 & ->)). apply Forall2_nil_inv_l in H1 as ->. reflexivity.
Defined.

Lemma whole_portable : portable (wire := wire) false whole.
Proof.
  intros n i. unfold whole. rewrite lookup_insert_Some, lookup_singleton_Some. intros [[<- <-]|[_ [<- <-]]]; (split; [done|split; [done|]]);
    (split; [done|]; intros d [= <-]; unfold i64_max; lia).
Qed.

Lemma capture_lands_witness :
  ∃ d, Landing.take 2 done_landing = (Expected d, clear done_landing) ∧ drafted limits d whole ∧ draft_position d = 3.
Proof.
  apply (proj2 (capture_lands (wire := wire) false limits 1024 3 whole [(first, published 1); (second, published 2)] [SnapshotPacket (wire := wire) page_one]
    [entry_of first 1] [entry_of second 2] 80 empty_landing port_limits_fine landing_begun whole_portable ltac:(done)
    ltac:(split; [by apply (bool_decide_unpack _)|
      intros n i; unfold whole; rewrite lookup_insert_Some, lookup_singleton_Some, !elem_of_cons, elem_of_nil;
      split; [intros [[= -> ->]|[[= -> ->]|[]]]; [by left|by right]|intros [[<- <-]|[_ [<- <-]]]; tauto]])
    ltac:(apply (pages_more (wire := wire) 1024 3 [] [] [entry_of first 1] 80); [constructor|done|done|done])
    ltac:(repeat constructor; eexists; (split; [reflexivity|reflexivity])))).
  - exact landing_collected.
  - done.
Defined.
End Sample.
