(* ===== verification/Restore.v ===== *)
(** The state of a domain as the replication uses it, and the task that installs a
    received baseline: [astra/star/src/restore.hpp].

    [Catalog::State] and [Ephemeris::State] offer the replication the same operations;
    the class [Store] lists them.  A [Restore] task owns a complete draft of a source
    and installs it one scope at a time, so that no step holds the state for long.  A
    scope that finds no room is put off once, until the others have given theirs back;
    the position of the source is confirmed after the last scope. *)
From stdpp Require Import base numbers strings gmap list.
From S2P Require Import Prelude.
From S2P Require Import Scope.
From S2P Require Import Index.
From S2P Require Import Origin.

(** What the replication distinguishes among the errors of a domain. *)
Inductive Kind := kind_capacity | kind_clock | kind_ended | kind_other.
#[global] Instance kind_eq_dec : EqDecision Kind.
Proof. solve_decision. Defined.

(** The operations of [State] that the replication calls; a call that has to wait for a
    borrowed source is the completed call. *)
Class Store (Item : Type) {layout : Layout Item} := {
  St : Type;
  Failure : Type;
  kind : Failure → Kind;
  own_source : St → Origin (Item := Item);
  st_received : string → eff St (expected Z Failure);
  st_covered : string → Z → Scope → string → eff St (expected bool Failure);
  st_replica : string → Scope → string → eff St (expected (option Item) Failure);
  st_apply : string → Z → Scope → string → option Item → Form → eff St (expected unit Failure);
  st_repair : string → Z → Scope → string → option Item → eff St (expected unit Failure);
  st_resolve : Scope → string → eff St (expected (Z * option Item) Failure);
  st_prepare : string → Z → eff St (expected (Draft (Item := Item)) Failure);
  st_restore : string → Draft (Item := Item) → eff St (expected (list Scope) Failure);
  st_install : string → Draft (Item := Item) → Scope → eff St (expected unit Failure);
  st_finish : string → Z → eff St (expected unit Failure)
}.

Section restore.
Context {Item : Type} {layout : Layout Item} {store : Store Item}.

Record Restore := {
  id_ : string;
  draft_ : Draft (Item := Item);
  scopes_ : list Scope;
  deferred_ : list Scope;
  offset_ : nat;
  failure_ : option Failure;
  retried_ : bool;
  done_ : bool
}.

(** The constructor, with the scopes [State::restore] has listed. *)
Definition make (id : string) (d : Draft) (scopes : list Scope) : Restore :=
  {| id_ := id; draft_ := d; scopes_ := scopes; deferred_ := []; offset_ := 0; failure_ := None; retried_ := false; done_ := false |}.

Definition fail_with (e : Failure) (r : Restore) : Restore :=
  {| id_ := id_ r; draft_ := draft_ r; scopes_ := scopes_ r; deferred_ := deferred_ r; offset_ := offset_ r; failure_ := Some e;
     retried_ := retried_ r; done_ := done_ r |}.
Definition put_off (sc : Scope) (r : Restore) : Restore :=
  {| id_ := id_ r; draft_ := draft_ r; scopes_ := scopes_ r; deferred_ := deferred_ r ++ [sc]; offset_ := offset_ r; failure_ := failure_ r;
     retried_ := retried_ r; done_ := done_ r |}.
Definition move_on (r : Restore) : Restore :=
  {| id_ := id_ r; draft_ := draft_ r; scopes_ := scopes_ r; deferred_ := deferred_ r; offset_ := S (offset_ r); failure_ := failure_ r;
     retried_ := retried_ r; done_ := done_ r |}.
Definition go_again (r : Restore) : Restore :=
  {| id_ := id_ r; draft_ := draft_ r; scopes_ := deferred_ r; deferred_ := []; offset_ := 0; failure_ := failure_ r;
     retried_ := true; done_ := done_ r |}.
Definition conclude (r : Restore) : Restore :=
  {| id_ := id_ r; draft_ := draft_ r; scopes_ := scopes_ r; deferred_ := deferred_ r; offset_ := offset_ r; failure_ := failure_ r;
     retried_ := retried_ r; done_ := true |}.

Definition on_state {A} (m : eff St A) : eff (St * Restore) A := zoom fst (λ s p, (s, p.2)) m.
Definition on_task (f : Restore → Restore) : eff (St * Restore) unit := modify (λ p, (p.1, f p.2)).

(** [step]. *)
Definition step : eff (St * Restore) (expected bool Failure) :=
  p <- read ;;
  let r := p.2 in
  match failure_ r with
  | Some e => ret (Unexpected e)
  | None =>
      if done_ r then ret (Expected true)
      else
        match scopes_ r !! offset_ r with
        | Some sc =>
            x <- on_state (st_install (id_ r) (draft_ r) sc) ;;
            match x with
            | Unexpected e =>
                if negb (bool_decide (kind e = kind_capacity)) || retried_ r
                then on_task (fail_with e) ;;; ret (Unexpected e)
                else on_task (put_off sc) ;;; on_task move_on ;;; ret (Expected false)
            | Expected _ => on_task move_on ;;; ret (Expected false)
            end
        | None =>
            if negb (bool_decide (deferred_ r = [])) then on_task go_again ;;; ret (Expected false)
            else
              x <- on_state (st_finish (id_ r) (draft_position (draft_ r))) ;;
              match x with
              | Unexpected e => on_task (fail_with e) ;;; ret (Unexpected e)
              | Expected _ => on_task conclude ;;; ret (Expected true)
              end
        end
  end.

(** The loop of [State::replace]. *)
Fixpoint finish_loop (fuel : nat) : eff (St * Restore) (option (expected unit Failure)) :=
  match fuel with
  | O => ret None
  | S fuel =>
      r <- step ;;
      match r with
      | Unexpected e => ret (Some (Unexpected e))
      | Expected true => ret (Some (Expected tt))
      | Expected false => finish_loop fuel
      end
  end.
Definition replace (id : string) (d : Draft) : eff St (option (expected unit Failure)) :=
  scopes <- st_restore id d ;;
  match scopes with
  | Unexpected e => ret (Some (Unexpected e))
  | Expected scopes =>
      λ s f, let '(x, p, f) := finish_loop (2 * length scopes + 2) (s, make id d scopes) f in (x, p.1, f)
  end.

(** ** How far a task is *)

(** Steps that are left at most. *)
Definition left_over (r : Restore) : nat :=
  if bool_decide (is_Some (failure_ r)) || done_ r then 0
  else if retried_ r then 1 + (length (scopes_ r) - offset_ r)
  else 2 + 2 * (length (scopes_ r) - offset_ r) + length (deferred_ r).

Record task_ok (r : Restore) : Prop := {
  tk_offset : (offset_ r <= length (scopes_ r))%nat;
  tk_retried : retried_ r = true → deferred_ r = []
}.

(** What a step does to the task, by the answer of the state. *)
Inductive stepped (s : St) (r : Restore) (f : faults) : outcome (expected bool Failure) → St → Restore → Prop :=
| stepped_failed e : failure_ r = Some e → stepped s r f (Done (Unexpected e)) s r
| stepped_done : failure_ r = None → done_ r = true → stepped s r f (Done (Expected true)) s r
| stepped_install sc x s' f' :
    failure_ r = None → done_ r = false → scopes_ r !! offset_ r = Some sc →
    st_install (id_ r) (draft_ r) sc s f = (x, s', f') →
    stepped s r f
      match x with
      | Done (Expected _) => Done (Expected false)
      | Done (Unexpected e) => if bool_decide (kind e = kind_capacity) && negb (retried_ r) then Done (Expected false) else Done (Unexpected e)
      | Thrown e => Thrown e
      end s'
      match x with
      | Done (Expected _) => move_on r
      | Done (Unexpected e) => if bool_decide (kind e = kind_capacity) && negb (retried_ r) then move_on (put_off sc r) else fail_with e r
      | Thrown _ => r
      end
| stepped_again :
    failure_ r = None → done_ r = false → scopes_ r !! offset_ r = None → deferred_ r ≠ [] →
    stepped s r f (Done (Expected false)) s (go_again r)
| stepped_finish x s' f' :
    failure_ r = None → done_ r = false → scopes_ r !! offset_ r = None → deferred_ r = [] →
    st_finish (id_ r) (draft_position (draft_ r)) s f = (x, s', f') →
    stepped s r f
      match x with Done (Expected _) => Done (Expected true) | Done (Unexpected e) => Done (Unexpected e) | Thrown e => Thrown e end s'
      match x with Done (Expected _) => conclude r | Done (Unexpected e) => fail_with e r | Thrown _ => r end.

Lemma step_stepped s r f : let '(x, (s', r'), _) := step (s, r) f in stepped s r f x s' r'.
Proof.
  unfold step, bind at 1, read. cbn [snd]. destruct (failure_ r) as [e|] eqn:Ef; [by constructor|].
  destruct (done_ r) eqn:Ed; [by constructor|]. destruct (scopes_ r !! offset_ r) as [sc|] eqn:Es.
  - unfold bind at 1, on_state, zoom. cbn [fst]. destruct (st_install _ _ _ s f) as [[x s'] f'] eqn:Ei.
    pose proof (stepped_install s r f sc x s' f' Ef Ed Es Ei) as Hs. destruct x as [[u|e]|e]; cbn [snd]; [exact Hs| |exact Hs].
    destruct (bool_decide (kind e = kind_capacity)), (retried_ r); exact Hs.
  - destruct (bool_decide_reflect (deferred_ r = [])) as [E|E]; cbn [negb]; [|by constructor].
    unfold bind at 1, on_state, zoom. cbn [fst]. destruct (st_finish _ _ s f) as [[x s'] f'] eqn:Ei.
    pose proof (stepped_finish s r f x s' f' Ef Ed Es E Ei) as Hs. destruct x as [[u|e]|e]; exact Hs.
Qed.

(** Every step but the last uses up one of the steps that are left. *)
Lemma stepped_left s r f x s' r' :
  stepped s r f x s' r' → task_ok r →
  task_ok r' ∧
  match x with
  | Done (Expected b) => (left_over r' + (if b then 0 else 1) <= left_over r)%nat ∧ done_ r' = b ∧ failure_ r' = None
  | Done (Unexpected e) => failure_ r' = Some e ∧ left_over r' = 0%nat
  | Thrown _ => r' = r
  end.
Proof.
  intros Hs [T1 T2]. assert (Hfail : ∀ e, task_ok (fail_with e r) ∧ failure_ (fail_with e r) = Some e ∧ left_over (fail_with e r) = 0%nat) by done.
  destruct Hs as [e He|He Hd|sc x s' f' He Hd Hsc _|He Hd Hsc Hdef|x s' f' He Hd Hsc Hdef _].
  - split; [done|]. split; [done|]. unfold left_over. by rewrite He.
  - split; [done|]. split_and!; [lia|done|done].
  - pose proof (lookup_lt_Some _ _ _ Hsc). destruct x as [[u|e]|e]; [| |done].
    + split; [by split; cbn; [lia|]|]. unfold left_over. cbn. rewrite He, Hd. cbn. destruct (retried_ r); split_and!; (lia || done).
    + destruct (bool_decide _); cbn [andb]; [|done]. destruct (retried_ r) eqn:Er; cbn [negb]; [done|].
      split; [by split; cbn; [lia|congruence]|]. unfold left_over. cbn. rewrite He, Hd, Er. cbn. rewrite length_app. cbn. split_and!; (lia || done).
  - apply lookup_ge_None in Hsc. assert (Er : retried_ r = false) by (destruct (retried_ r); [by destruct Hdef; apply T2|done]).
    split; [by split; cbn; [lia|]|]. unfold left_over. cbn. rewrite He, Hd, Er. cbn. split_and!; (lia || done).
  - destruct x as [[u|e]|e]; [|done|done]. split; [by split|]. cbn. split_and!; [|done|done]. unfold left_over. cbn. rewrite orb_true_r. lia.
Qed.

Lemma make_task_ok id d scopes : task_ok (make id d scopes) ∧ left_over (make id d scopes) = (2 * length scopes + 2)%nat.
Proof. split; [split; cbn; [lia|done]|]. unfold left_over. cbn. lia. Qed.

Lemma finish_ends fuel s r f : task_ok r → (left_over r <= fuel)%nat → (finish_loop fuel (s, r) f).1.1 = Done None → left_over r = 0%nat.
Proof.
  revert s r f. induction fuel as [|fuel IH]; intros s r f Hok Hl; [lia|]. cbn [finish_loop]. unfold bind at 1.
  pose proof (step_stepped s r f) as Hs. destruct (step (s, r) f) as [[x [s' r']] f']. destruct (stepped_left _ _ _ _ _ _ Hs Hok) as [Hok' Hx].
  destruct x as [[[]|e]|e]; [done| |done|done]. destruct Hx as (Hle & Hd & Hf). intros Hn. apply (IH s' r' f' Hok') in Hn; [|lia].
  unfold left_over in Hn. rewrite Hd, Hf in Hn. cbn in Hn. destruct (retried_ r'); lia.
Qed.

Lemma replace_returns id d s f : (replace id d s f).1.1 ≠ Done None.
Proof.
  unfold replace, bind. destruct (st_restore id d s f) as [[[[l|e]|e] s'] f']; [|done..]. destruct (make_task_ok id d l) as [Hok Hl].
  pose proof (finish_ends (2 * length l + 2) s' (make id d l) f' Hok ltac:(lia)) as Hz.
  destruct (finish_loop _ _ _) as [[r p] f'']. cbn in *. intros ->. specialize (Hz eq_refl). lia.
Qed.
End restore.

Arguments Restore Item {layout store}.

(** ** What the state has been asked
    The same state that also writes down every call of [install] and [finish] with the
    answer it gave. *)
Section traced.
Context {Item : Type} {layout : Layout Item} (store : Store Item).

Inductive Call :=
| Installing (id : string) (d : Draft (Item := Item)) (sc : Scope) (answer : outcome (expected unit Failure))
| Finishing (id : string) (position : Z) (answer : outcome (expected unit Failure)).

Definition quietly {A} (m : eff St A) : eff (St * list Call) A := zoom fst (λ s p, (s, p.2)) m.
Definition noting (c : outcome (expected unit Failure) → Call) (m : eff St (expected unit Failure))
    : eff (St * list Call) (expected unit Failure) :=
  λ p f, let '(x, s, f) := m p.1 f in (x, (s, p.2 ++ [c x]), f).

Definition traced : Store Item :=
  {| St := St * list Call; Failure := Failure; kind := kind; own_source := λ p, own_source p.1;
     st_received id := quietly (st_received id); st_covered id p sc k := quietly (st_covered id p sc k);
     st_replica id sc k := quietly (st_replica id sc k); st_apply id p sc k r fm := quietly (st_apply id p sc k r fm);
     st_repair id p sc k r := quietly (st_repair id p sc k r); st_resolve sc k := quietly (st_resolve sc k);
     st_prepare id p := quietly (st_prepare id p); st_restore id d := quietly (st_restore id d);
     st_install id d sc := noting (Installing id d sc) (st_install id d sc);
     st_finish id p := noting (Finishing id p) (st_finish id p) |}.

(** A step over that state. *)
Definition traced_step (s : St) (cs : list Call) (r : @Restore Item layout traced) (f : faults)
    : outcome (expected bool Failure) * ((St * list Call) * @Restore Item layout traced) * faults :=
  step (store := traced) ((s, cs), r) f.

Lemma traced_stepped s cs r f : let '(x, (p, r'), _) := traced_step s cs r f in stepped (store := traced) (s, cs) r f x p r'.
Proof. exact (step_stepped (store := traced) (s, cs) r f). Qed.

(** The scopes whose installation the state has reported as done, and the positions it has
    confirmed. *)
Definition installed (cs : list Call) : list Scope :=
  omap (λ c, match c with Installing _ _ sc (Done (Expected _)) => Some sc | _ => None end) cs.
Definition confirmed (cs : list Call) : list Z :=
  omap (λ c, match c with Finishing _ p (Done (Expected _)) => Some p | _ => None end) cs.

(** What the task has to do from here on. *)
Definition to_do (r : @Restore Item layout traced) : list Scope := drop (offset_ r) (scopes_ r) ++ deferred_ r.

(** The calls of a task so far, and where it stands. *)
Record work_ok (id : string) (d : Draft (Item := Item)) (scopes : list Scope) (cs : list Call) (r : @Restore Item layout traced) : Prop := {
  wk_task : task_ok r;
  wk_for : id_ r = id ∧ draft_ r = d;
  wk_calls : Forall (λ c, match c with Installing i d' sc _ => i = id ∧ d' = d ∧ sc ∈ scopes | Finishing i p _ => i = id ∧ p = draft_position d end) cs;
  wk_scopes : installed cs ++ to_do r ≡ₚ scopes;
  wk_confirmed : confirmed cs = if done_ r then [draft_position d] else [];
  wk_last : done_ r = true → to_do r = []
}.

Lemma trace_snoc cs c :
  installed (cs ++ [c]) = installed cs ++ installed [c] ∧ confirmed (cs ++ [c]) = confirmed cs ++ confirmed [c].
Proof. split; apply omap_app. Qed.

Lemma stepped_work id d scopes s cs r f x s' cs' r' :
  stepped (store := traced) (s, cs) r f x (s', cs') r' → work_ok id d scopes cs r → work_ok id d scopes cs' r'.
Proof.
  intros Hs [W1 W2 W3 W4 W5 W6]. destruct (stepped_left (store := traced) _ _ _ _ _ _ Hs W1) as [W1' _].
  destruct W2 as [W2 W2'].
  inversion Hs as [e He E1 E2 E3|He Hd E1 E2 E3|sc y s1 f1 He Hd Hsc Hcall E1 E2 E3|He Hd Hsc Hdef E1 E2 E3|y s1 f1 He Hd Hsc Hdef Hcall E1 E2 E3]; clear Hs; subst.
  - done.
  - done.
  - cbn in Hcall. unfold noting in Hcall. cbn [fst snd] in Hcall. destruct (st_install _ _ _ s f) as [[z s2] f2]. injection Hcall as -> -> <- ->.
    destruct (trace_snoc cs (Installing (id_ r) (draft_ r) sc y)) as [I1 I2]. pose proof (drop_S _ _ _ Hsc) as Hdrop.
    assert (Hin : sc ∈ scopes). { rewrite <- W4, elem_of_app. right. unfold to_do. rewrite Hdrop. by left. }
    assert (Hcalls : Forall (λ c, match c with Installing i d' sc _ => i = id_ r ∧ d' = draft_ r ∧ sc ∈ scopes | Finishing i p _ => i = id_ r ∧ p = draft_position (draft_ r) end)
      (cs ++ [Installing (id_ r) (draft_ r) sc y])) by (apply Forall_app; split; [done|]; by apply Forall_singleton).
    rewrite Hd in W5. split; [exact W1'|..].
    + destruct y as [[u|e]|e]; [done|by destruct (_ && _)|done].
    + done.
    + rewrite I1. unfold to_do in *. rewrite Hdrop in W4.
      destruct y as [[u|e]|e]; cbn [installed omap list_omap]; rewrite ?app_nil_r; cbn in *; [by rewrite <- app_assoc| |by rewrite Hdrop].
      destruct (bool_decide _ && negb (retried_ r)); cbn; [|by rewrite Hdrop]. rewrite <- W4. apply Permutation_app_head. rewrite app_assoc. symmetry. apply Permutation_cons_append.
    + rewrite I2, W5. destruct y as [[u|e]|e]; cbn; rewrite ?Hd; [done| |done]. by destruct (_ && _); cbn; rewrite Hd.
    + destruct y as [[u|e]|e]; cbn; [congruence| |congruence]. by destruct (_ && _); cbn; rewrite Hd.
  - apply lookup_ge_None in Hsc. rewrite Hd in W5. split; try done; [|by cbn; rewrite Hd|by cbn; rewrite Hd].
    rewrite <- W4. unfold to_do. cbn. by rewrite (drop_ge (scopes_ r)), app_nil_r by done.
  - cbn in Hcall. unfold noting in Hcall. cbn [fst snd] in Hcall. destruct (st_finish _ _ s f) as [[z s2] f2]. injection Hcall as -> -> <- ->.
    destruct (trace_snoc cs (Finishing (id_ r) (draft_position (draft_ r)) y)) as [I1 I2]. apply lookup_ge_None in Hsc.
    assert (Hnone : to_do r = []) by (unfold to_do; by rewrite drop_ge, Hdef).
    rewrite Hd in W5. split; [exact W1'|by destruct y as [[u|e]|e]| | | |].
    + apply Forall_app. split; [done|]. by apply Forall_singleton.
    + rewrite I1. cbn. rewrite app_nil_r. by destruct y as [[u|e]|e].
    + rewrite I2, W5. destruct y as [[u|e]|e]; cbn; rewrite ?Hd; done.
    + intros _. by destruct y as [[u|e]|e].
Qed.

(** ** Histories of a task
    Before each step other threads may have changed the state in any way. *)
Record progress := { current : St; calls : list Call; task : @Restore Item layout traced; answers : list (outcome (expected bool Failure)) }.
Definition take_step (x : progress) (a : (St → St) * faults) : progress :=
  let '(r, (s, t), _) := traced_step (a.1 (current x)) (calls x) (task x) a.2 in
  {| current := s.1; calls := s.2; task := t; answers := answers x ++ [r] |}.
Definition begin_task (s : St) (id : string) (d : Draft) (scopes : list Scope) : progress :=
  {| current := s; calls := []; task := make (store := traced) id d scopes; answers := [] |}.

(** The steps that were not the last one. *)
Definition goes_on (r : outcome (expected bool Failure)) : bool := match r with Done (Expected false) => true | _ => false end.
Definition unfinished (rs : list (outcome (expected bool Failure))) : nat := length (filter (λ r, goes_on r = true) rs).

Lemma unfinished_snoc rs r : unfinished (rs ++ [r]) = (unfinished rs + match r with Done (Expected false) => 1 | _ => 0 end)%nat.
Proof. unfold unfinished. rewrite filter_app, length_app. f_equal. rewrite filter_cons, filter_nil. by destruct r as [[[]|]|]. Qed.

Lemma run_task s id d scopes acts :
  let x := foldl take_step (begin_task s id d scopes) acts in
  work_ok id d scopes (calls x) (task x) ∧ (unfinished (answers x) + left_over (task x) <= 2 * length scopes + 2)%nat ∧
  (∀ e, Done (Unexpected e) ∈ answers x → failure_ (task x) = Some e) ∧ (Done (Expected true) ∈ answers x → done_ (task x) = true ∧ failure_ (task x) = None).
Proof.
  induction acts as [|a acts IH] using rev_ind; cbn zeta.
  - destruct (make_task_ok (store := traced) id d scopes) as [Hok Hl]. cbn [foldl begin_task calls task answers]. rewrite Hl.
    split_and!; [|done|by intros e ?%elem_of_nil|by intros ?%elem_of_nil]. split; cbn; try done. unfold to_do. cbn. by rewrite drop_0, app_nil_r.
  - rewrite foldl_app. cbn [foldl]. destruct (foldl take_step _ acts) as [s1 c1 r1 a1]. cbn [current calls task answers] in IH. destruct IH as (I1 & I2 & I3 & I4).
    unfold take_step. cbn [current calls task answers]. pose proof (traced_stepped (a.1 s1) c1 r1 a.2) as Hs.
    assert (Hkeep : ∀ e, failure_ r1 = Some e → (traced_step (a.1 s1) c1 r1 a.2).1.2.2 = r1) by (intros e He; unfold traced_step, step, bind, read; cbn; by rewrite He).
    assert (Hend : done_ r1 = true → failure_ r1 = None → (traced_step (a.1 s1) c1 r1 a.2).1.2.2 = r1) by (intros Hd He; unfold traced_step, step, bind, read; cbn; by rewrite He, Hd).
    destruct (traced_step (a.1 s1) c1 r1 a.2) as [[x [[s2 c2] r2]] f2]. cbn [fst snd current calls task answers] in *.
    pose proof (stepped_work id d scopes _ _ _ _ _ _ _ _ Hs I1) as Hok. destruct (stepped_left (store := traced) _ _ _ _ _ _ Hs (wk_task _ _ _ _ _ I1)) as [_ Hx].
    rewrite unfinished_snoc. split; [done|]. split_and!.
    + destruct x as [[[]|]|]; [lia|lia|lia|]. rewrite Hx in *. lia.
    + intros e [He|He%list_elem_of_singleton]%elem_of_app; [pose proof (I3 e He) as Hf; by rewrite (Hkeep e Hf)|]. subst x. apply Hx.
    + intros [He|He%list_elem_of_singleton]%elem_of_app; [|subst x; apply Hx]. destruct (I4 He) as [Hd Hf]. by rewrite (Hend Hd Hf).
Qed.

(** C37. A restoration ends, whatever the state answers and whatever other threads do to it
    between the steps: at most two rounds over the scopes and one confirmation.  By the
    answers the state has given, each scope of the baseline is installed at most once and
    is otherwise still to be done; the position of the baseline is confirmed once, when
    every scope has been installed, and only then the task reports success; it asks for
    nothing but the scopes and the position of its own baseline; the first error is the
    answer of all later steps.  The loop that runs a task to its end always returns. *)
Theorem restore_settles s id d scopes acts :
  let x := foldl take_step (begin_task s id d scopes) acts in
  installed (calls x) ++ to_do (task x) ≡ₚ scopes ∧
  (unfinished (answers x) <= 2 * length scopes + 2)%nat ∧
  (Done (Expected true) ∈ answers x →
     installed (calls x) ≡ₚ scopes ∧ confirmed (calls x) = [draft_position d] ∧ ∀ e, Done (Unexpected e) ∉ answers x) ∧
  (confirmed (calls x) ≠ [] → installed (calls x) ≡ₚ scopes) ∧
  Forall (λ c, match c with Installing i d' sc _ => i = id ∧ d' = d ∧ sc ∈ scopes | Finishing i p _ => i = id ∧ p = draft_position d end) (calls x) ∧
  (∀ e e', Done (Unexpected e) ∈ answers x → Done (Unexpected e') ∈ answers x → e = e') ∧
  ∀ f, (replace id d s f).1.1 ≠ Done None.
Proof.
  intros x. destruct (run_task s id d scopes acts) as ([W1 W2 W3 W4 W5 W6] & H2 & H3 & H4). fold x in W1, W2, W3, W4, W5, W6, H2, H3, H4.
  assert (Hall : done_ (task x) = true → installed (calls x) ≡ₚ scopes) by (intros Hd; by rewrite <- W4, (W6 Hd), app_nil_r).
  split_and!; [done|lia| | |done| |apply replace_returns].
  - intros Ht. destruct (H4 Ht) as [Hd Hf]. split_and!; [by apply Hall|by rewrite W5, Hd|]. intros e He. specialize (H3 e He). congruence.
  - rewrite W5. destruct (done_ (task x)); [|done]. intros _. by apply Hall.
  - intros e e' He He'. apply H3 in He, He'. congruence.
Qed.
End traced.
