(* ===== verification/Exchange.v ===== *)
(** The replication stream of two Stars: [astra/star/src/exchange.hpp] and [exchange.cpp].

    An [Exchange] sits on one authenticated stream and replicates both dynamic domains in
    both directions.  Each domain has a [Pipe]: it queues the peer's events and applies
    them to the state in order, collects and installs baselines, asks for the payload an
    event builds on when it is missing here, and acknowledges what is installed.  The
    space all of this takes is charged to a budget that all streams share.

    A pipe is written once over the domain: its messages ([Wire]), what an event does to
    the fact it names ([Patching]) and the operations of its state ([Store]).  Instants
    are nanoseconds. *)
From stdpp Require Import base numbers strings gmap list.
From S2P Require Import Prelude.
From S2P Require Import Scope.
From S2P Require Import Index.
From S2P Require Import Origin.
From S2P Require Import Parcel.
From S2P Require Import Dispatch.
From S2P Require Import Landing.
From S2P Require Import Restore.

(** ** The budget *)
Record Budget := { used : Z; maximum : Z }.
Definition budget_acquire (bytes : Z) (b : Budget) : bool * Budget :=
  if (maximum b <? used b) || (maximum b - used b <? bytes) then (false, b)
  else (true, {| used := used b + bytes; maximum := maximum b |}).
(** The assertion holds by [exchange_accounts]. *)
Definition budget_release (bytes : Z) (b : Budget) : Budget := {| used := wrap64 (used b - bytes); maximum := maximum b |}.

(** The codes of [Status] a pipe answers with. *)
Inductive Status := status_capacity | status_transport | status_protocol | status_timeout.

(** [Domain], [Repair] and [Repaired]. *)
Inductive Realm := realm_unspecified | realm_catalog | realm_ephemeris.
#[global] Instance realm_eq_dec : EqDecision Realm.
Proof. solve_decision. Defined.
Record Repair := { repair_realm : Realm; repair_scope : ScopeMessage; repair_key : string; trigger : Z; repair_version : Z }.
Inductive Answer (Message : Type) := AnswerRecord (m : Message) | AnswerOther | AnswerUnknown | AnswerUnset.
Arguments AnswerRecord {Message}.
Arguments AnswerOther {Message}.
Arguments AnswerUnknown {Message}.
Arguments AnswerUnset {Message}.
Record Repaired (Message : Type) := { request : Repair; answer_position : Z; answer : Answer Message }.
Arguments request {Message}.
Arguments answer_position {Message}.
Arguments answer {Message}.

(** What an event does: it brings a whole record, changes fields of the record that is
    here (if that is the one it was made for), or removes it. *)
Inductive Effect (Item Message : Type) :=
| Whole (m : Message)
| Fields (patch : Item → option Item) (form : Form)
| Removal
| Senseless.
Arguments Whole {Item Message}.
Arguments Fields {Item Message}.
Arguments Removal {Item Message}.
Arguments Senseless {Item Message}.

(** The switches of a pipe on its domain; the sizes are the compiler's and the generated
    code's. *)
Class Patching (Item : Type) {wire : Wire Item} := {
  realm : Realm;
  effect_of : Action → Effect Item Message;
  asked_version : Action → Z;
  version_wanted : bool;
  sizeof_pending : Z;
  sizeof_response : Z;
  repaired_size : Repaired Message → Z;
  patch_sizes : 0 < sizeof_pending ∧ 0 < sizeof_response ∧ ∀ r, 0 <= repaired_size r
}.

(** The two domains' switches, without the sizes. *)
Definition catalog_effect (a : CatalogAction) : Effect Catalog.record CatalogMessage :=
  match a with
  | CatalogFull m => Whole m
  | CatalogLease v d =>
      Fields (λ r, if bool_decide (Catalog.value r = None) || negb (Catalog.version r =? v) then None
                   else Some {| Catalog.version := Catalog.version r; Catalog.value := Catalog.value r; Catalog.deadline := time_of d |}) form_renew
  | CatalogNothing => Senseless
  end.
Definition catalog_asked (a : CatalogAction) : Z := match a with CatalogLease v _ => v | _ => 0 end.
Definition ephemeris_effect (a : EphemerisAction) : Effect Ephemeris.record EphemerisMessage :=
  match a with
  | EphemerisFull m => Whole m
  | EphemerisLease d order =>
      Fields (λ r, Some {| Ephemeris.attr := Ephemeris.attr r; Ephemeris.data := Ephemeris.data r; Ephemeris.deadline := default 0 (time_of d);
                           Ephemeris.update_order := Ephemeris.update_order r; Ephemeris.renewal := order; Ephemeris.ttl := Ephemeris.ttl r |}) form_renew
  | EphemerisData b order =>
      Fields (λ r, Some {| Ephemeris.attr := Ephemeris.attr r; Ephemeris.data := Some b; Ephemeris.deadline := Ephemeris.deadline r;
                           Ephemeris.update_order := order; Ephemeris.renewal := Ephemeris.renewal r; Ephemeris.ttl := Ephemeris.ttl r |}) form_data
  | EphemerisErase => Removal
  | EphemerisNothing => Senseless
  end.

(** ** One domain *)
Section pipe.
Context {Item : Type} {layout : Layout Item} {wire : Wire Item} {patching : Patching Item} {store : Store Item} (binary : bool).
Abbreviation Delta := (Delta Action).
Abbreviation Changes := (Changes Action).
Abbreviation Page := (Snapshot Message).

Record Pending := { message : Changes; offset : nat; pending_bytes : Z }.

(** What a pipe puts on the stream. *)
Inductive Outgoing := SayResume (p : Z) | SayRepair (r : Repair) | SayAck (p : Z) | SayData (p : Packet Item).

Record Pipe := {
  dispatch_ : Dispatch Item;
  pending_ : list Pending;
  bytes_ : Z;
  landing_ : option (Landing Item);
  recovery_ : option (Restore Item);
  workspace_ : Z;
  repair_ : option Repair;
  packet_ : option Outgoing;
  acknowledgement_ : option Z;
  target_ : option Z;
  received_ : Z;
  seen_ : Z;
  deadline_ : Z;
  resume_ : bool;
  opened_ : bool;
  requested_ : bool;
  dispatched_ : bool
}.

(** The state, the budget and the pipe an operation works on. *)
Record Site := { state_ : St; budget_ : Budget; pipe_ : Pipe }.
Definition set_state (s : St) (x : Site) : Site := {| state_ := s; budget_ := budget_ x; pipe_ := pipe_ x |}.
Definition set_budget (b : Budget) (x : Site) : Site := {| state_ := state_ x; budget_ := b; pipe_ := pipe_ x |}.
Definition on_pipe (f : Pipe → Pipe) (x : Site) : Site := {| state_ := state_ x; budget_ := budget_ x; pipe_ := f (pipe_ x) |}.
Definition on_state {A} (m : eff St A) : eff Site A := zoom state_ set_state m.
Definition acquire (bytes : Z) : eff Site bool :=
  x <- read ;; let '(ok, b) := budget_acquire bytes (budget_ x) in modify (set_budget b) ;;; ret ok.
Definition release (bytes : Z) : eff Site unit := modify (λ x, set_budget (budget_release bytes (budget_ x)) x).

(** The parts of the operations that assign members. *)
Definition set_dispatch (d : Dispatch Item) (p : Pipe) : Pipe :=
  {| dispatch_ := d; pending_ := pending_ p; bytes_ := bytes_ p; landing_ := landing_ p; recovery_ := recovery_ p;
     workspace_ := workspace_ p; repair_ := repair_ p; packet_ := packet_ p; acknowledgement_ := acknowledgement_ p;
     target_ := target_ p; received_ := received_ p; seen_ := seen_ p; deadline_ := deadline_ p; resume_ := resume_ p;
     opened_ := opened_ p; requested_ := requested_ p; dispatched_ := dispatched_ p |}.
Definition set_pending (q : list Pending) (n : Z) (p : Pipe) : Pipe :=
  {| dispatch_ := dispatch_ p; pending_ := q; bytes_ := n; landing_ := landing_ p; recovery_ := recovery_ p;
     workspace_ := workspace_ p; repair_ := repair_ p; packet_ := packet_ p; acknowledgement_ := acknowledgement_ p;
     target_ := target_ p; received_ := received_ p; seen_ := seen_ p; deadline_ := deadline_ p; resume_ := resume_ p;
     opened_ := opened_ p; requested_ := requested_ p; dispatched_ := dispatched_ p |}.
Definition set_landing (l : option (Landing Item)) (p : Pipe) : Pipe :=
  {| dispatch_ := dispatch_ p; pending_ := pending_ p; bytes_ := bytes_ p; landing_ := l; recovery_ := recovery_ p;
     workspace_ := workspace_ p; repair_ := repair_ p; packet_ := packet_ p; acknowledgement_ := acknowledgement_ p;
     target_ := target_ p; received_ := received_ p; seen_ := seen_ p; deadline_ := deadline_ p; resume_ := resume_ p;
     opened_ := opened_ p; requested_ := requested_ p; dispatched_ := dispatched_ p |}.
Definition set_recovery (r : option (Restore Item)) (p : Pipe) : Pipe :=
  {| dispatch_ := dispatch_ p; pending_ := pending_ p; bytes_ := bytes_ p; landing_ := landing_ p; recovery_ := r;
     workspace_ := workspace_ p; repair_ := repair_ p; packet_ := packet_ p; acknowledgement_ := acknowledgement_ p;
     target_ := target_ p; received_ := received_ p; seen_ := seen_ p; deadline_ := deadline_ p; resume_ := resume_ p;
     opened_ := opened_ p; requested_ := requested_ p; dispatched_ := dispatched_ p |}.
Definition set_workspace (n : Z) (p : Pipe) : Pipe :=
  {| dispatch_ := dispatch_ p; pending_ := pending_ p; bytes_ := bytes_ p; landing_ := landing_ p; recovery_ := recovery_ p;
     workspace_ := n; repair_ := repair_ p; packet_ := packet_ p; acknowledgement_ := acknowledgement_ p; target_ := target_ p;
     received_ := received_ p; seen_ := seen_ p; deadline_ := deadline_ p; resume_ := resume_ p; opened_ := opened_ p;
     requested_ := requested_ p; dispatched_ := dispatched_ p |}.
Definition set_repair (r : option Repair) (p : Pipe) : Pipe :=
  {| dispatch_ := dispatch_ p; pending_ := pending_ p; bytes_ := bytes_ p; landing_ := landing_ p; recovery_ := recovery_ p;
     workspace_ := workspace_ p; repair_ := r; packet_ := packet_ p; acknowledgement_ := acknowledgement_ p;
     target_ := target_ p; received_ := received_ p; seen_ := seen_ p; deadline_ := deadline_ p; resume_ := resume_ p;
     opened_ := opened_ p; requested_ := false; dispatched_ := dispatched_ p |}.
Definition set_packet (k : option Outgoing) (p : Pipe) : Pipe :=
  {| dispatch_ := dispatch_ p; pending_ := pending_ p; bytes_ := bytes_ p; landing_ := landing_ p; recovery_ := recovery_ p;
     workspace_ := workspace_ p; repair_ := repair_ p; packet_ := k; acknowledgement_ := acknowledgement_ p;
     target_ := target_ p; received_ := received_ p; seen_ := seen_ p; deadline_ := deadline_ p; resume_ := resume_ p;
     opened_ := opened_ p; requested_ := requested_ p; dispatched_ := dispatched_ p |}.
Definition set_marks (received : Z) (p : Pipe) : Pipe :=
  {| dispatch_ := dispatch_ p; pending_ := pending_ p; bytes_ := bytes_ p; landing_ := landing_ p; recovery_ := recovery_ p;
     workspace_ := workspace_ p; repair_ := repair_ p; packet_ := packet_ p; acknowledgement_ := Some received;
     target_ := target_ p; received_ := received; seen_ := seen_ p; deadline_ := deadline_ p; resume_ := resume_ p;
     opened_ := opened_ p; requested_ := requested_ p; dispatched_ := dispatched_ p |}.
Definition set_target (t : Z) (p : Pipe) : Pipe :=
  {| dispatch_ := dispatch_ p; pending_ := pending_ p; bytes_ := bytes_ p; landing_ := landing_ p; recovery_ := recovery_ p;
     workspace_ := workspace_ p; repair_ := repair_ p; packet_ := packet_ p; acknowledgement_ := acknowledgement_ p;
     target_ := Some (default t (target_ p)); received_ := received_ p; seen_ := seen_ p; deadline_ := deadline_ p;
     resume_ := resume_ p; opened_ := opened_ p; requested_ := requested_ p; dispatched_ := dispatched_ p |}.
Definition set_seen (n : Z) (p : Pipe) : Pipe :=
  {| dispatch_ := dispatch_ p; pending_ := pending_ p; bytes_ := bytes_ p; landing_ := landing_ p; recovery_ := recovery_ p;
     workspace_ := workspace_ p; repair_ := repair_ p; packet_ := packet_ p; acknowledgement_ := acknowledgement_ p;
     target_ := target_ p; received_ := received_ p; seen_ := n; deadline_ := deadline_ p; resume_ := resume_ p;
     opened_ := opened_ p; requested_ := requested_ p; dispatched_ := dispatched_ p |}.
Definition set_deadline (t : Z) (p : Pipe) : Pipe :=
  {| dispatch_ := dispatch_ p; pending_ := pending_ p; bytes_ := bytes_ p; landing_ := landing_ p; recovery_ := recovery_ p;
     workspace_ := workspace_ p; repair_ := repair_ p; packet_ := packet_ p; acknowledgement_ := acknowledgement_ p;
     target_ := target_ p; received_ := received_ p; seen_ := seen_ p; deadline_ := t + 30000000000; resume_ := resume_ p;
     opened_ := opened_ p; requested_ := requested_ p; dispatched_ := dispatched_ p |}.
Definition set_opened (p : Pipe) : Pipe :=
  {| dispatch_ := dispatch_ p; pending_ := pending_ p; bytes_ := bytes_ p; landing_ := landing_ p; recovery_ := recovery_ p;
     workspace_ := workspace_ p; repair_ := repair_ p; packet_ := packet_ p; acknowledgement_ := acknowledgement_ p;
     target_ := target_ p; received_ := received_ p; seen_ := seen_ p; deadline_ := deadline_ p; resume_ := resume_ p;
     opened_ := true; requested_ := requested_ p; dispatched_ := dispatched_ p |}.
Definition set_dispatched (b : bool) (p : Pipe) : Pipe :=
  {| dispatch_ := dispatch_ p; pending_ := pending_ p; bytes_ := bytes_ p; landing_ := landing_ p; recovery_ := recovery_ p;
     workspace_ := workspace_ p; repair_ := repair_ p; packet_ := packet_ p; acknowledgement_ := acknowledgement_ p;
     target_ := target_ p; received_ := received_ p; seen_ := seen_ p; deadline_ := deadline_ p; resume_ := resume_ p;
     opened_ := opened_ p; requested_ := requested_ p; dispatched_ := b |}.
Definition say_resume (p : Pipe) : Pipe :=
  {| dispatch_ := dispatch_ p; pending_ := pending_ p; bytes_ := bytes_ p; landing_ := landing_ p; recovery_ := recovery_ p;
     workspace_ := workspace_ p; repair_ := repair_ p; packet_ := Some (SayResume (received_ p));
     acknowledgement_ := acknowledgement_ p; target_ := target_ p; received_ := received_ p; seen_ := seen_ p;
     deadline_ := deadline_ p; resume_ := false; opened_ := opened_ p; requested_ := requested_ p; dispatched_ := false |}.
Definition say_repair (r : Repair) (p : Pipe) : Pipe :=
  {| dispatch_ := dispatch_ p; pending_ := pending_ p; bytes_ := bytes_ p; landing_ := landing_ p; recovery_ := recovery_ p;
     workspace_ := workspace_ p; repair_ := repair_ p; packet_ := Some (SayRepair r); acknowledgement_ := acknowledgement_ p;
     target_ := target_ p; received_ := received_ p; seen_ := seen_ p; deadline_ := deadline_ p; resume_ := resume_ p;
     opened_ := opened_ p; requested_ := true; dispatched_ := false |}.
Definition say_ack (n : Z) (p : Pipe) : Pipe :=
  {| dispatch_ := dispatch_ p; pending_ := pending_ p; bytes_ := bytes_ p; landing_ := landing_ p; recovery_ := recovery_ p;
     workspace_ := workspace_ p; repair_ := repair_ p; packet_ := Some (SayAck n); acknowledgement_ := None;
     target_ := target_ p; received_ := received_ p; seen_ := seen_ p; deadline_ := deadline_ p; resume_ := resume_ p;
     opened_ := opened_ p; requested_ := requested_ p; dispatched_ := false |}.
Definition emptied (p : Pipe) : Pipe :=
  {| dispatch_ := dispatch_ p; pending_ := []; bytes_ := 0; landing_ := None; recovery_ := None; workspace_ := 0;
     repair_ := None; packet_ := packet_ p; acknowledgement_ := acknowledgement_ p; target_ := target_ p;
     received_ := received_ p; seen_ := seen_ p; deadline_ := deadline_ p; resume_ := resume_ p; opened_ := opened_ p;
     requested_ := false; dispatched_ := dispatched_ p |}.

(** [clear]. *)
Definition clear : eff Site unit := x <- read ;; release (bytes_ (pipe_ x) + workspace_ (pipe_ x)) ;;; modify (on_pipe emptied).

(** The constructor, over the peer's position. *)
Definition pipe_blank (d : Dispatch Item) (position now : Z) : Pipe :=
  {| dispatch_ := d; pending_ := []; bytes_ := 0; landing_ := None; recovery_ := None; workspace_ := 0; repair_ := None; packet_ := None;
     acknowledgement_ := None; target_ := None; received_ := position; seen_ := position; deadline_ := now + 30000000000; resume_ := true;
     opened_ := false; requested_ := false; dispatched_ := false |}.
Definition pipe_limits (capacity : Z) : Dispatch.Limits :=
  {| capacity_ := capacity; Dispatch.target_ := Z.min capacity (256 * 1024); reserve_ := true; release_ := true |}.
Definition pipe_make (peer : string) (capacity now : Z) : eff St Pipe :=
  d <- lift (Dispatch.make (pipe_limits capacity)) ;;
  position <- st_received peer ;;
  match position with
  | Expected p => ret (pipe_blank d p now)
  | Unexpected _ => throw invalid_argument
  end.

Context (peer : string) (capacity : Z).
Abbreviation li := (pipe_limits capacity).

(** [failure]. *)
Definition failure (e : Failure) : Status :=
  match kind e with
  | kind_capacity => status_capacity
  | kind_clock | kind_ended => status_transport
  | kind_other => status_protocol
  end.
(** An error of the state as the status of the stream. *)
Definition or_fail {S A} (m : eff S (expected A Failure)) : eff S (expected A Status) :=
  r <- m ;; ret (match r with Expected a => Expected a | Unexpected e => Unexpected (failure e) end).

(** The sender reads the own source and its budget is the pipe's: what it keeps of a
    baseline is acquired, and released when the baseline has gone out or is dropped. *)
Definition on_dispatch {A} (m : eff (Origin (Item := Item) * Dispatch Item) A) : eff Site A :=
  zoom (λ x, (own_source (state_ x), dispatch_ (pipe_ x))) (λ p, on_pipe (set_dispatch p.2)) m.
Definition sending_error (e : Origin.Error) : Status :=
  match e with Origin.capacity => status_capacity | _ => status_protocol end.

(** [resume] and the [acknowledge] of the peer. *)
Definition pipe_resume (position : Z) : eff Site (expected unit Status) :=
  r <- on_dispatch (Dispatch.resume li position) ;;
  match r with
  | Unexpected e => ret (Unexpected (sending_error e))
  | Expected _ => modify (on_pipe set_opened) ;;; ret (Expected tt)
  end.
Definition pipe_acknowledged (position : Z) : eff Site bool :=
  x <- read ;;
  let '(ok, d) := Dispatch.acknowledge position (dispatch_ (pipe_ x)) in
  modify (on_pipe (set_dispatch d)) ;;; ret ok.

(** The private [acknowledge]. *)
Definition note_received : eff Site unit :=
  r <- on_state (st_received peer) ;;
  match r with
  | Unexpected _ => throw logic_error
  | Expected p => modify (on_pipe (set_marks p))
  end.

(** [missing]. *)
Definition missing (d : Delta) (now : Z) : eff Site unit :=
  alloc ;;;
  modify (on_pipe (λ p, set_deadline now (set_repair (Some
    {| repair_realm := realm; repair_scope := delta_scope d; repair_key := delta_key d; trigger := delta_position d;
       repair_version := asked_version (delta_action d) |}) p))).

(** The end of [apply]: the event as a fact for the state. *)
Definition install_fact (d : Delta) (sc : Scope) (record : option Item) (form : Form) (partial : bool) (now : Z)
    : eff Site (expected bool Status) :=
  r <- on_state (st_apply peer (delta_position d) sc (delta_key d) record form) ;;
  match r with
  | Expected _ => ret (Expected true)
  | Unexpected e =>
      if partial && bool_decide (kind e = kind_ended) then missing d now ;;; ret (Expected false)
      else ret (Unexpected (failure e))
  end.

(** [apply]; [false] is an event that waits for a repair. *)
Definition apply (d : Delta) (now : Z) : eff Site (expected bool Status) :=
  match scope_of (delta_scope d) with
  | None => ret (Unexpected status_protocol)
  | Some sc =>
      is_covered <-? or_fail (on_state (st_covered peer (delta_position d) sc (delta_key d))) ;;
      if (is_covered : bool) then ret (Expected true)
      else
        match effect_of (delta_action d) with
        | Whole m =>
            alloc ;;;
            match read_message m with
            | None => ret (Unexpected status_protocol)
            | Some i => install_fact d sc (Some i) form_record false now
            end
        | Fields patch form =>
            previous <-? or_fail (on_state (st_replica peer sc (delta_key d))) ;;
            match previous ≫= patch with
            | None => missing d now ;;; ret (Expected false)
            | Some i => alloc ;;; install_fact d sc (Some i) form true now
            end
        | Removal => install_fact d sc None form_erase false now
        | Senseless => ret (Unexpected status_protocol)
        end
  end.

(** The loop of [drain].  A packet that has been used up leaves the queue. *)
Definition pop_used (x : Site) : Site :=
  match pending_ (pipe_ x) with
  | p :: q =>
      if (offset p =? length (changes_entries (message p)))%nat
      then set_budget (budget_release (pending_bytes p) (budget_ x)) (on_pipe (set_pending q (bytes_ (pipe_ x) - pending_bytes p)) x)
      else x
  | [] => x
  end.
Definition count_one (p : Pipe) : Pipe :=
  match pending_ p with
  | e :: q => set_pending ({| message := message e; offset := S (offset e); pending_bytes := pending_bytes e |} :: q) (bytes_ p) p
  | [] => p
  end.
Fixpoint drain_loop (fuel remaining : nat) (now : Z) : eff Site (expected unit Status) :=
  match fuel with
  | O => ret (Expected tt)
  | S fuel =>
      x <- read ;;
      match repair_ (pipe_ x), pending_ (pipe_ x), remaining with
      | None, p :: _, S remaining' =>
          match changes_entries (message p) !! offset p with
          | Some d =>
              r <-? apply d now ;;
              if negb r then ret (Expected tt)
              else
                modify (on_pipe count_one) ;;;
                note_received ;;;
                modify (on_pipe (set_deadline now)) ;;;
                modify pop_used ;;;
                drain_loop fuel remaining' now
          | None => modify pop_used ;;; drain_loop fuel remaining now
          end
      | _, _, _ => ret (Expected tt)
      end
  end.
(** At most 256 events and the packets of the queue. *)
Definition drain (now : Z) : eff Site (expected unit Status) :=
  x <- read ;; drain_loop (256 + length (pending_ (pipe_ x))) 256 now.

(** [changes]. *)
Definition backlog : Z := 8 * 1024 * 1024.
Definition misplaced (m : Changes) (p : Pipe) : bool :=
  match changes_entries m with
  | [] => negb (changes_head m =? seen_ p)
  | d :: _ => (seen_ p =? u64_max) || negb (delta_position d =? seen_ p + 1)
  end.
Definition changes (m : Changes) (now : Z) : eff Site (expected unit Status) :=
  x <- read ;;
  let p := pipe_ x in
  if bool_decide (is_Some (landing_ p)) || bool_decide (is_Some (recovery_ p)) || negb (changes_valid key_valid action_valid m) || misplaced m p
  then ret (Unexpected status_protocol)
  else
    modify (on_pipe (set_target (changes_head m))) ;;;
    match last (changes_entries m) with
    | None => note_received ;;; ret (Expected tt)
    | Some d =>
        let bytes := changes_bytes m + sizeof_pending in
        if (length (pending_ p) =? 64)%nat || (backlog <? bytes) || (backlog - bytes <? bytes_ p) then ret (Unexpected status_capacity)
        else
          ok <- acquire bytes ;;
          if negb ok then ret (Unexpected status_capacity)
          else
            on_throw alloc (release bytes) ;;;
            modify (on_pipe (λ p, set_seen (delta_position d)
              (set_pending (pending_ p ++ [{| message := m; offset := 0; pending_bytes := bytes |}]) (bytes_ p + bytes) p))) ;;;
            drain now
    end.

(** [snapshot]; the clock and the sharing of pages are those of the draft. *)
Definition workspace : Z := 64 * 1024 * 1024.
Definition on_landing {A} (l : Landing Item) (m : eff (Landing Item) A) : eff Site A :=
  zoom (λ x, default l (landing_ (pipe_ x))) (λ l, on_pipe (set_landing (Some l))) m.
(** The first page opens a landing, in place of all that is waiting. *)
Definition begin_landing (page : Page) (now : Z) : eff Site (expected unit Status) :=
  x <- read ;;
  match landing_ (pipe_ x) with
  | Some _ => ret (Expected tt)
  | None =>
      if snapshot_position page <? seen_ (pipe_ x) then ret (Unexpected status_protocol)
      else
        candidate <-? or_fail (on_state (st_prepare peer (snapshot_position page))) ;;
        ok <- acquire workspace ;;
        if negb ok then ret (Unexpected status_capacity)
        else
          clear ;;;
          l <- lift (of_draft candidate workspace) ;;
          modify (on_pipe (λ p, set_target (snapshot_position page) (set_deadline now (set_landing (Some l) (set_workspace workspace p))))) ;;;
          ret (Expected tt)
  end.
(** The last page hands the draft to the task that installs it. *)
Definition complete_landing (page : Page) : eff Site (expected unit Status) :=
  x <- read ;;
  match landing_ (pipe_ x) with
  | None => throw logic_error
  | Some l =>
      if negb (complete_ l) then ret (Expected tt)
      else
        let '(taken, l) := Landing.take (received_ (pipe_ x)) l in
        modify (on_pipe (set_landing (Some l))) ;;;
        match taken with
        | Unexpected _ => ret (Unexpected status_protocol)
        | Expected d =>
            scopes <-? or_fail (on_state (st_restore peer d)) ;;
            modify (on_pipe (λ p, set_seen (snapshot_position page) (set_landing None (set_recovery (Some (Restore.make peer d scopes)) p)))) ;;;
            ret (Expected tt)
        end
  end.
Definition snapshot (limits : Origin.Limits) (exclusive : nat → bool) (clock : nat → Z) (page : Page) (now : Z) : eff Site (expected unit Status) :=
  x <- read ;;
  if bool_decide (is_Some (recovery_ (pipe_ x))) then ret (Unexpected status_protocol)
  else
    _ <-? begin_landing page now ;;
    x <- read ;;
    match landing_ (pipe_ x) with
    | None => throw logic_error
    | Some l =>
        accepted <- on_landing l (append binary limits exclusive clock page (received_ (pipe_ x))) ;;
        match accepted with
        | Unexpected Origin.capacity => ret (Unexpected status_capacity)
        | Unexpected _ => ret (Unexpected status_protocol)
        | Expected _ => modify (on_pipe (set_deadline now)) ;;; complete_landing page
        end
    end.

(** [repaired]: an answer to the request that is waiting. *)
Definition same_request (a b : Repair) : bool :=
  bool_decide (sector_bytes (repair_scope a) = sector_bytes (repair_scope b)) && bool_decide (spectrum_bytes (repair_scope a) = spectrum_bytes (repair_scope b))
  && bool_decide (repair_key a = repair_key b) && (trigger a =? trigger b) && (repair_version a =? repair_version b).
Definition repaired (r : Repaired Message) (now : Z) : eff Site (expected unit Status) :=
  x <- read ;;
  match repair_ (pipe_ x) with
  | None => ret (Expected tt)
  | Some wanted =>
      if negb (bool_decide (repair_realm (request r) = realm)) || negb (same_request (request r) wanted) || (answer_position r <? trigger (request r))
      then ret (Unexpected status_protocol)
      else
        match scope_of (repair_scope (request r)) with
        | None => ret (Unexpected status_protocol)
        | Some sc =>
            record <-? match answer r with
                       | AnswerUnknown => ret (Expected None)
                       | AnswerRecord m => alloc ;;; ret (match read_message m with Some i => Expected (Some i) | None => Unexpected status_protocol end)
                       | AnswerOther | AnswerUnset => ret (Unexpected status_protocol)
                       end ;;
            _ <-? or_fail (on_state (st_repair peer (answer_position r) sc (repair_key (request r)) record)) ;;
            modify (on_pipe (λ p, set_deadline now (set_repair None p))) ;;;
            drain now
        end
  end.

(** [repair]: the answer to the peer's request. *)
Definition repair (r : Repair) : eff Site (expected (Repaired Message) Status) :=
  match scope_of (repair_scope r) with
  | None => ret (Unexpected status_protocol)
  | Some sc =>
      if negb (bool_decide (repair_realm r = realm)) || (trigger r =? 0) || Bool.eqb version_wanted (repair_version r =? 0)
      then ret (Unexpected status_protocol)
      else
        current <-? or_fail (on_state (st_resolve sc (repair_key r))) ;;
        if current.1 <? trigger r then ret (Unexpected status_protocol)
        else
          alloc ;;;
          match current.2 with
          | None => ret (Expected {| request := r; answer_position := current.1; answer := AnswerUnknown |})
          | Some i =>
              m <- lift (message_of i) ;;
              ret (Expected {| request := r; answer_position := current.1; answer := AnswerRecord m |})
          end
  end.

(** [ready] and [expired]. *)
Definition pipe_ready (p : Pipe) : bool :=
  match target_ p with Some t => t <=? received_ p | None => false end
  && bool_decide (landing_ p = None) && bool_decide (recovery_ p = None).
Definition pipe_expired (now : Z) (p : Pipe) : bool :=
  (negb (pipe_ready p) || bool_decide (is_Some (landing_ p)) || bool_decide (is_Some (recovery_ p)) || bool_decide (is_Some (repair_ p))
   || negb (bool_decide (pending_ p = []))) && (deadline_ p <=? now).

(** One step of the installation. *)
Definition on_recovery (r : Restore Item) {A} (m : eff (St * Restore Item) A) : eff Site A :=
  zoom (λ x, (state_ x, default r (recovery_ (pipe_ x)))) (λ p x, set_state p.1 (on_pipe (set_recovery (Some p.2)) x)) m.
Definition recover (now : Z) : eff Site (expected unit Status) :=
  x <- read ;;
  match recovery_ (pipe_ x) with
  | None => ret (Expected tt)
  | Some r =>
      installed <-? or_fail (on_recovery r Restore.step) ;;
      modify (on_pipe (set_deadline now)) ;;;
      if (installed : bool) then
        modify (on_pipe (set_recovery None)) ;;;
        x <- read ;;
        release (workspace_ (pipe_ x)) ;;;
        modify (on_pipe (set_workspace 0)) ;;;
        note_received ;;;
        ret (Expected tt)
      else ret (Expected tt)
  end.

(** The sender with the budget: a baseline it takes up is paid for, one that has gone
    out is given back. *)
Definition charge (before after : Dispatch Item) (b : Budget) : Budget :=
  match baseline_ before, baseline_ after with
  | None, Some v => (budget_acquire (view_bytes v) b).2
  | Some _, None => budget_release (retained_ before) b
  | _, _ => b
  end.
Definition on_sender {A} (m : eff (Origin (Item := Item) * Dispatch Item) A) : eff Site A :=
  λ x f,
    let '(r, p, f) := m (own_source (state_ x), dispatch_ (pipe_ x)) f in
    (r, set_budget (charge (dispatch_ (pipe_ x)) p.2 (budget_ x)) (on_pipe (set_dispatch p.2) x), f).

(** [prepare]. *)
Definition prepare (now : Z) : eff Site (expected (option Outgoing) Status) :=
  x <- read ;;
  if pipe_expired now (pipe_ x) then ret (Unexpected status_timeout)
  else
    match packet_ (pipe_ x) with
    | Some k => ret (Expected (Some k))
    | None =>
        _ <-? recover now ;;
        _ <-? drain now ;;
        x <- read ;;
        let p := pipe_ x in
        let say f := alloc ;;; modify (on_pipe f) ;;; x <- read ;; ret (Expected (packet_ (pipe_ x))) in
        if resume_ p then say say_resume
        else
          match repair_ p, requested_ p, acknowledgement_ p with
          | Some r, false, _ => say (say_repair r)
          | _, _, Some n => say (say_ack n)
          | _, _, None =>
              if negb (opened_ p) then ret (Expected None)
              else
                r <- on_sender (Dispatch.prepare li (λ n, (budget_acquire n (budget_ x)).1)) ;;
                match r with
                | Unexpected e => ret (Unexpected (sending_error e))
                | Expected k => modify (on_pipe (set_dispatched (bool_decide (is_Some k)))) ;;; ret (Expected (SayData <$> k))
                end
          end
    end.

(** [take]; without a prepared packet the assertion fails. *)
Definition take : eff Site Outgoing :=
  x <- read ;;
  if dispatched_ (pipe_ x) then modify (on_pipe (set_dispatched false)) ;;; k <- on_sender dispatched ;; ret (SayData k)
  else
    match packet_ (pipe_ x) with
    | None => throw logic_error
    | Some k => modify (on_pipe (set_packet None)) ;;; ret k
    end.

(** The destructors of the pipe and of its sender. *)
Definition pipe_destroy : eff Site unit :=
  clear ;;; x <- read ;; release (retained_ (dispatch_ (pipe_ x))).
End pipe.

Arguments Pipe Item {layout wire store}.
Arguments Site Item {layout wire store}.
Arguments Outgoing Item {wire}.

(** ** Both domains *)
Section exchange.
Context {A B : Type} {la : Layout A} {lb : Layout B} {wa : Wire A} {wb : Wire B} {pa : Patching A} {pb : Patching B} {sa : Store A} {sb : Store B}.
Context (peer : string) (capacity : Z) (limits_a limits_b : Origin.Limits).

(** The packets of a session that carry data; [MessageOther] is any other body, and a
    [Repaired] that names neither domain.  An answer is of the domain its request names. *)
Inductive Body :=
| MessageResume (r : Realm) (p : Z)
| MessageAck (r : Realm) (p : Z)
| MessageCatalogSnapshot (m : Snapshot (Message (Item := A)))
| MessageEphemerisSnapshot (m : Snapshot (Message (Item := B)))
| MessageCatalogChanges (m : Changes (Action (Item := A)))
| MessageEphemerisChanges (m : Changes (Action (Item := B)))
| MessageRepair (r : Repair)
| MessageCatalogRepaired (r : Repaired (Message (Item := A)))
| MessageEphemerisRepaired (r : Repaired (Message (Item := B)))
| MessageOther.

Record Response := { response : Body; response_size : Z }.
Record Exchange := {
  catalog_ : Pipe A;
  ephemeris_ : Pipe B;
  responses_ : list Response;
  response_bytes_ : Z;
  turn_ : Z;
  selected_ : Z
}.
Record Session := { catalog_state : St (Item := A); ephemeris_state : St (Item := B); shared : Budget; exchange_ : Exchange }.

Definition with_exchange (e : Exchange) (x : Session) : Session :=
  {| catalog_state := catalog_state x; ephemeris_state := ephemeris_state x; shared := shared x; exchange_ := e |}.
Definition catalog_site (x : Session) : Site A := {| state_ := catalog_state x; budget_ := shared x; pipe_ := catalog_ (exchange_ x) |}.
Definition ephemeris_site (x : Session) : Site B := {| state_ := ephemeris_state x; budget_ := shared x; pipe_ := ephemeris_ (exchange_ x) |}.
Definition put_catalog (s : Site A) (x : Session) : Session :=
  {| catalog_state := state_ s; ephemeris_state := ephemeris_state x; shared := budget_ s;
     exchange_ := {| catalog_ := pipe_ s; ephemeris_ := ephemeris_ (exchange_ x); responses_ := responses_ (exchange_ x);
                     response_bytes_ := response_bytes_ (exchange_ x); turn_ := turn_ (exchange_ x); selected_ := selected_ (exchange_ x) |} |}.
Definition put_ephemeris (s : Site B) (x : Session) : Session :=
  {| catalog_state := catalog_state x; ephemeris_state := state_ s; shared := budget_ s;
     exchange_ := {| catalog_ := catalog_ (exchange_ x); ephemeris_ := pipe_ s; responses_ := responses_ (exchange_ x);
                     response_bytes_ := response_bytes_ (exchange_ x); turn_ := turn_ (exchange_ x); selected_ := selected_ (exchange_ x) |} |}.
Definition on_catalog {R} (m : eff (Site A) R) : eff Session R := zoom catalog_site put_catalog m.
Definition on_ephemeris {R} (m : eff (Site B) R) : eff Session R := zoom ephemeris_site put_ephemeris m.

Definition set_shared (b : Budget) (x : Session) : Session :=
  {| catalog_state := catalog_state x; ephemeris_state := ephemeris_state x; shared := b; exchange_ := exchange_ x |}.
Definition set_responses (rs : list Response) (n : Z) (x : Session) : Session :=
  with_exchange {| catalog_ := catalog_ (exchange_ x); ephemeris_ := ephemeris_ (exchange_ x); responses_ := rs; response_bytes_ := n;
                   turn_ := turn_ (exchange_ x); selected_ := selected_ (exchange_ x) |} x.
Definition set_selected (n : Z) (x : Session) : Session :=
  with_exchange {| catalog_ := catalog_ (exchange_ x); ephemeris_ := ephemeris_ (exchange_ x); responses_ := responses_ (exchange_ x);
                   response_bytes_ := response_bytes_ (exchange_ x); turn_ := turn_ (exchange_ x); selected_ := n |} x.
Definition set_turn (n : Z) (x : Session) : Session :=
  with_exchange {| catalog_ := catalog_ (exchange_ x); ephemeris_ := ephemeris_ (exchange_ x); responses_ := responses_ (exchange_ x);
                   response_bytes_ := response_bytes_ (exchange_ x); turn_ := n; selected_ := selected_ (exchange_ x) |} x.

(** The constructor; the first pipe is destroyed when the second one throws. *)
Definition exchange_make (now : Z) (ca : St (Item := A)) (cb : St (Item := B)) (b : Budget) : outcome Session :=
  match pipe_make peer capacity now ca [] with
  | (Done p, ca, _) =>
      match pipe_make peer capacity now cb [] with
      | (Done q, cb, _) =>
          Done {| catalog_state := ca; ephemeris_state := cb; shared := b;
                  exchange_ := {| catalog_ := p; ephemeris_ := q; responses_ := []; response_bytes_ := 0; turn_ := 0; selected_ := 0 |} |}
      | (Thrown e, _, _) => Thrown e
      end
  | (Thrown e, _, _) => Thrown e
  end.

(** What a received packet needs besides: the sharing of pages and the clock of drafts. *)
Record Surroundings := { exclusive : nat → bool; clock : nat → Z }.

(** The queue of answers to repairs. *)
Definition replies : Z := 16 * 1024 * 1024.
Definition queue_response (body : Body) (size sizeof : Z) : eff Session (expected unit Status) :=
  let bytes := size + sizeof in
  x <- read ;;
  if (capacity <? size) || (replies <? bytes) || (replies - bytes <? response_bytes_ (exchange_ x)) then ret (Unexpected status_capacity)
  else
    let '(ok, b) := budget_acquire bytes (shared x) in
    if negb ok then ret (Unexpected status_capacity)
    else
      modify (set_shared b) ;;;
      on_throw alloc (modify (λ x, set_shared (budget_release bytes (shared x)) x)) ;;;
      modify (λ x, set_responses (responses_ (exchange_ x) ++ [{| response := body; response_size := bytes |}]) (response_bytes_ (exchange_ x) + bytes) x) ;;;
      ret (Expected tt).

(** [receive]. *)
Definition receive (sur : Surroundings) (packet : Body) (now : Z) : eff Session (expected unit Status) :=
  match packet with
  | MessageResume realm_catalog p => on_catalog (pipe_resume capacity p)
  | MessageResume realm_ephemeris p => on_ephemeris (pipe_resume capacity p)
  | MessageAck r p =>
      ok <- match r with
            | realm_catalog => on_catalog (pipe_acknowledged p)
            | realm_ephemeris => on_ephemeris (pipe_acknowledged p)
            | realm_unspecified => ret false
            end ;;
      ret (if (ok : bool) then Expected tt else Unexpected status_protocol)
  | MessageCatalogSnapshot m => on_catalog (snapshot false peer limits_a (exclusive sur) (clock sur) m now)
  | MessageEphemerisSnapshot m => on_ephemeris (snapshot true peer limits_b (exclusive sur) (clock sur) m now)
  | MessageCatalogChanges m => on_catalog (changes peer m now)
  | MessageEphemerisChanges m => on_ephemeris (changes peer m now)
  | MessageCatalogRepaired r => on_catalog (repaired peer r now)
  | MessageEphemerisRepaired r => on_ephemeris (repaired peer r now)
  | MessageRepair r =>
      x <- read ;;
      if (length (responses_ (exchange_ x)) =? 8)%nat then ret (Unexpected status_capacity)
      else
        match repair_realm r with
        | realm_catalog =>
            a <-? on_catalog (repair r) ;; queue_response (MessageCatalogRepaired a) (repaired_size a) (sizeof_response (Item := A))
        | realm_ephemeris =>
            a <-? on_ephemeris (repair r) ;; queue_response (MessageEphemerisRepaired a) (repaired_size a) (sizeof_response (Item := B))
        | realm_unspecified => ret (Unexpected status_protocol)
        end
  | MessageResume realm_unspecified _ | MessageOther => ret (Unexpected status_protocol)
  end.

(** The packet a pipe has prepared. *)
Definition of_catalog_pipe (k : Outgoing A) : Body :=
  match k with
  | SayResume p => MessageResume realm_catalog p
  | SayAck p => MessageAck realm_catalog p
  | SayRepair r => MessageRepair r
  | SayData (ChangesPacket m) => MessageCatalogChanges m
  | SayData (SnapshotPacket m) => MessageCatalogSnapshot m
  end.
Definition of_ephemeris_pipe (k : Outgoing B) : Body :=
  match k with
  | SayResume p => MessageResume realm_ephemeris p
  | SayAck p => MessageAck realm_ephemeris p
  | SayRepair r => MessageRepair r
  | SayData (ChangesPacket m) => MessageEphemerisChanges m
  | SayData (SnapshotPacket m) => MessageEphemerisSnapshot m
  end.

(** One round of [prepare]: domain 0 is the Catalog. *)
Definition prepare_domain (which now : Z) : eff Session (expected (option Body) Status) :=
  if which =? 0
  then k <-? on_catalog (prepare peer capacity now) ;; ret (Expected (of_catalog_pipe <$> k))
  else k <-? on_ephemeris (prepare peer capacity now) ;; ret (Expected (of_ephemeris_pipe <$> k)).

(** [prepare]. *)
Definition exchange_prepare (now : Z) : eff Session (expected (option Body) Status) :=
  x <- read ;;
  if pipe_expired now (catalog_ (exchange_ x)) || pipe_expired now (ephemeris_ (exchange_ x)) then ret (Unexpected status_timeout)
  else
    match responses_ (exchange_ x) with
    | r :: _ => modify (set_selected 3) ;;; ret (Expected (Some (response r)))
    | [] =>
        let first := turn_ (exchange_ x) mod 2 in
        let second := (turn_ (exchange_ x) + 1) mod 2 in
        k <-? prepare_domain first now ;;
        match k with
        | Some k => modify (set_selected (first + 1)) ;;; ret (Expected (Some k))
        | None =>
            k <-? prepare_domain second now ;;
            match k with
            | Some k => modify (set_selected (second + 1)) ;;; ret (Expected (Some k))
            | None => modify (set_selected 0) ;;; ret (Expected None)
            end
        end
    end.

(** [take]. *)
Definition exchange_take : eff Session Body :=
  x <- read ;;
  let e := exchange_ x in
  if selected_ e =? 3 then
    match responses_ e with
    | [] => throw logic_error
    | r :: rs =>
        modify (λ x, set_selected 0 (set_shared (budget_release (response_size r) (shared x))
          (set_responses rs (response_bytes_ e - response_size r) x))) ;;;
        ret (response r)
    end
  else if (selected_ e =? 1) || (selected_ e =? 2) then
    modify (λ x, set_turn (selected_ e mod 2) (set_selected 0 x)) ;;;
    if selected_ e =? 1 then k <- on_catalog take ;; ret (of_catalog_pipe k)
    else k <- on_ephemeris take ;; ret (of_ephemeris_pipe k)
  else throw logic_error.

(** [ready], [pending] and the destructor. *)
Definition exchange_ready (e : Exchange) : bool := pipe_ready (catalog_ e) && pipe_ready (ephemeris_ e).
Definition exchange_pending (e : Exchange) : bool :=
  bool_decide (is_Some (recovery_ (catalog_ e))) || bool_decide (is_Some (recovery_ (ephemeris_ e))).
Definition exchange_destroy : eff Session unit :=
  x <- read ;;
  modify (λ x, set_shared (budget_release (response_bytes_ (exchange_ x)) (shared x)) x) ;;;
  on_ephemeris pipe_destroy ;;;
  on_catalog pipe_destroy.
End exchange.

Arguments Body A B {wa wb}.
Arguments Exchange A B {la lb wa wb sa sb}.
Arguments Session A B {la lb wa wb sa sb}.
