(* ===== verification/Lawful.v ===== *)
(** What the replication may rely on ([Restore.Store]): the promises of a domain's state,
    and a plain state that keeps them.

    A state knows the position each admitted source has reached here.  An event is
    applied at the next position or not at all; a repair, a draft and the installation of
    a scope leave the position alone; only the confirmation of a whole source moves it
    freely, and never back. *)
From stdpp Require Import base numbers strings gmap list.
From S2P Require Import Prelude.
From S2P Require Import Scope.
From S2P Require Import Index.
From S2P Require Import Origin.
From S2P Require Import Restore.

Section laws.
Context {Item : Type} {layout : Layout Item} {store : Store Item}.

(** Operations that leave every position as it is. *)
Definition steady {A} (healthy : St → Prop) (place_of : string → St → option Z) (m : eff St A) : Prop :=
  ∀ s, healthy s → wp Faulty m (λ _ s', healthy s' ∧ ∀ id, place_of id s' = place_of id s) (λ _ s', healthy s' ∧ ∀ id, place_of id s' = place_of id s) s.

(** Operations of one source [id] that move its position to [next] when they succeed with
    an answer of which [moves] holds, and no position otherwise. *)
Definition moving {A} (healthy : St → Prop) (place_of : string → St → option Z) (id : string) (moves : A → bool) (next : Z → Z → Prop)
    (m : eff St (expected A Failure)) : Prop :=
  ∀ s, healthy s → wp Faulty m
    (λ r s', healthy s' ∧ (∀ id', id' ≠ id → place_of id' s' = place_of id' s) ∧
       match r with
       | Expected a => ∃ p, place_of id s = Some p ∧ if moves a then ∃ q, place_of id s' = Some q ∧ next p q else place_of id s' = Some p
       | Unexpected _ => place_of id s' = place_of id s
       end)
    (λ _ s', healthy s' ∧ ∀ id', place_of id' s' = place_of id' s) s.
End laws.

Class Lawful (Item : Type) {layout : Layout Item} {store : Store Item} := {
  healthy : St → Prop;
  place_of : string → St → option Z;
  draft_limits : Origin.Limits;
  draft_limits_ok : Origin.limits_ok draft_limits;
  own_sane s : healthy s → 0 <= bytes_ (own_source s) + directory_ (own_source s);
  place_range id s p : healthy s → place_of id s = Some p → 0 <= p <= u64_max;
  received_law id : ∀ s, healthy s → wp Faulty (st_received id)
    (λ r s', s' = s ∧ match r with Expected p => place_of id s = Some p | Unexpected _ => place_of id s = None end) (λ _ s', s' = s) s;
  replica_law id sc k : steady healthy place_of (st_replica id sc k);
  resolve_law sc k : steady healthy place_of (st_resolve sc k);
  repair_law id p sc k r : steady healthy place_of (st_repair id p sc k r);
  prepare_law id p : ∀ s, healthy s → wp Faulty (st_prepare id p)
    (λ r s', healthy s' ∧ (∀ id', place_of id' s' = place_of id' s) ∧
       match r with Expected d => draft_position d = p ∧ drafted draft_limits d ∅ ∧ ∃ q, place_of id s = Some q ∧ q <= p | Unexpected _ => True end)
    (λ _ s', healthy s' ∧ ∀ id', place_of id' s' = place_of id' s) s;
  restore_law id d : steady healthy place_of (st_restore id d);
  install_law id d sc : steady healthy place_of (st_install id d sc);
  covered_law id p sc k : moving healthy place_of id (λ b, b) (λ q q', p <= q + 1 ∧ q' = Z.max q p) (st_covered id p sc k);
  uncovered_law id p sc k : ∀ s, healthy s → wp Faulty (st_covered id p sc k)
    (λ r _, r = Expected false → place_of id s = Some (p - 1)) (λ _ _, True) s;
  apply_law id p sc k r fm : moving healthy place_of id (λ _, true) (λ q q', p <= q + 1 ∧ q' = Z.max q p) (st_apply id p sc k r fm);
  finish_law id p : is_u64 p → moving healthy place_of id (λ _, true) (λ q q', q <= p ∧ q' = p) (st_finish id p)
}.

(** ** A plain state
    The facts of each source as a map beside its position. *)
Section plain.
Context {Item : Type} {layout : Layout Item} (plain_limits : Origin.Limits).

Record Plain := { own : Origin (Item := Item); sources : gmap string (Z * gmap Name Item) }.
Inductive Refusal := unknown_source | gap.

Definition set_source (id : string) (q : Z) (m : gmap Name Item) (s : Plain) : Plain :=
  {| own := own s; sources := <[id := (q, m)]> (sources s) |}.
(** An operation on the source [id]. *)
Definition at_source {A} (id : string) (k : Z → gmap Name Item → eff Plain (expected A Refusal)) : eff Plain (expected A Refusal) :=
  s <- read ;;
  match sources s !! id with
  | Some (q, m) => k q m
  | None => ret (Unexpected unknown_source)
  end.
(** The next event, or one that has been seen. *)
Definition in_order {A} (p q : Z) (k : eff Plain (expected A Refusal)) : eff Plain (expected A Refusal) :=
  if (p <=? q + 1) && (p <=? u64_max) then k else ret (Unexpected gap).
Definition with_fact (n : Name) (i : option Item) (m : gmap Name Item) : gmap Name Item := partial_alter (λ _, i) n m.
Definition draft_rows {S} (d : Draft (Item := Item)) (m : eff Origin (list (Name * Item))) : eff S (list (Name * Item)) :=
  match candidate d with
  | Some c => zoom (λ _, c) (λ _ s, s) m
  | None => ret []
  end.

Definition plain_store : Store Item := {|
  St := Plain;
  Failure := Refusal;
  kind _ := kind_other;
  own_source := own;
  st_received id := at_source id (λ q _, ret (Expected q));
  st_covered id p sc k := at_source id (λ q _, in_order p q (ret (Expected (p <=? q))));
  st_replica id sc k := at_source id (λ _ m, ret (Expected (m !! {| scope := sc; key := k |})));
  st_apply id p sc k r fm := at_source id (λ q m, in_order p q (
    if p <=? q then ret (Expected tt)
    else alloc ;;; modify (set_source id p (with_fact {| scope := sc; key := k |} r m)) ;;; ret (Expected tt)));
  st_repair id p sc k r := at_source id (λ q m,
    alloc ;;; modify (set_source id q (with_fact {| scope := sc; key := k |} r m)) ;;; ret (Expected tt));
  st_resolve sc k := s <- read ;; i <- zoom own (λ _ s, s) (find sc k) ;; ret (Expected (position_ (own s), i));
  st_prepare id p := at_source id (λ q _, if p <? q then ret (Unexpected gap) else d <- open_draft plain_limits p ;; ret (Expected d));
  st_restore id d := at_source id (λ _ m,
    rows <- draft_rows d each ;; ret (Expected (remove_dups (scope <$> (map_to_list m).*1 ++ rows.*1))));
  st_install id d sc := at_source id (λ q m,
    rows <- draft_rows d (each_in sc) ;;
    alloc ;;; modify (set_source id q (list_to_map rows ∪ filter (λ x, scope x.1 ≠ sc) m)) ;;; ret (Expected tt));
  st_finish id p := at_source id (λ q m, if p <? q then ret (Unexpected gap) else modify (set_source id p m) ;;; ret (Expected tt))
|}.

Definition plain_healthy (s : Plain) : Prop :=
  0 <= bytes_ (own s) + directory_ (own s) ∧ ∀ id q m, sources s !! id = Some (q, m) → is_u64 q.
Definition plain_place (id : string) (s : Plain) : option Z := fst <$> sources s !! id.

Implicit Types s : Plain.

Lemma at_source_wp {A} id (k : Z → gmap Name Item → eff Plain (expected A Refusal)) Q E s :
  (sources s !! id = None → Q (Unexpected unknown_source) s) → (∀ q m, sources s !! id = Some (q, m) → wp Faulty (k q m) Q E s) → wp Faulty (at_source id k) Q E s.
Proof. intros Hn Hk. unfold at_source. wp_step. wp_step. destruct (sources s !! id) as [[q m]|]; [by apply Hk|wp_step; by apply Hn]. Qed.

Lemma plain_set id q m s : plain_healthy s → is_u64 q → plain_healthy (set_source id q m s) ∧ plain_place id (set_source id q m s) = Some q ∧
  ∀ id', id' ≠ id → plain_place id' (set_source id q m s) = plain_place id' s.
Proof.
  intros [H1 H2] Hq. unfold plain_place. cbn. split_and!; [split; [done|]|by rewrite lookup_insert_eq|].
  - intros id' q' m'. cbn. rewrite lookup_insert_Some. intros [[_ [= <- <-]]|[_ ?]]; [done|by eapply H2].
  - intros id' Hne. by rewrite lookup_insert_ne.
Qed.

(** A source whose position is written back. *)
Lemma plain_same id q m m' s : plain_healthy s → sources s !! id = Some (q, m) →
  plain_healthy (set_source id q m' s) ∧ ∀ id', plain_place id' (set_source id q m' s) = plain_place id' s.
Proof.
  intros Hs E. assert (Hq : is_u64 q) by (by eapply Hs). destruct (plain_set id q m' s Hs Hq) as (H1 & H2 & H3). split; [done|].
  intros id'. destruct (decide (id' = id)) as [->|]; [|by apply H3]. rewrite H2. unfold plain_place. by rewrite E.
Qed.

Lemma draft_rows_wp {A} (d : Draft (Item := Item)) (m : eff Origin (list (Name * Item))) (k : list (Name * Item) → eff Plain A) Q E s :
  (∀ rows, wp Faulty (k rows) Q E s) → (∀ e, E e s) → wp Faulty (rows <- draft_rows d m ;; k rows) Q E s.
Proof.
  intros Hk He. wp_step. unfold draft_rows. destruct (candidate d); [|by wp_step]. apply wp_zoom. eapply wp_mono; [apply wp_true|by auto|by auto].
Qed.

Lemma plain_moving {A} id (moves : A → bool) (next : Z → Z → Prop) (k : Z → gmap Name Item → eff Plain (expected A Refusal)) :
  (∀ s q m, plain_healthy s → sources s !! id = Some (q, m) → wp Faulty (k q m)
     (λ r s', match r with
              | Expected a => if moves a then ∃ q' m', (s' = s ∧ q' = q ∨ s' = set_source id q' m' s) ∧ is_u64 q' ∧ next q q' else s' = s
              | Unexpected _ => s' = s
              end) (λ _ s', s' = s) s) →
  moving (store := plain_store) plain_healthy plain_place id moves next (at_source id k).
Proof.
  intros Hk s Hs. apply at_source_wp.
  - intros E. split_and!; [done|done|]. done.
  - intros q m E. assert (Ep : plain_place id s = Some q) by (unfold plain_place; by rewrite E). eapply wp_mono; [by apply Hk| |by intros e s' ->].
    intros [a|e] s'; [|by intros ->]. destruct (moves a); [|intros ->; split_and!; [done|done|by exists q]].
    intros (q' & m' & [[-> ->]| ->] & Hq & Hn); [split_and!; [done|done|exists q; split; [done|by exists q]]|].
    destruct (plain_set id q' m' s Hs Hq) as (H1 & H2 & H3). split_and!; [done|done|]. exists q. split; [done|]. by exists q'.
Qed.

(** Reads and writes that keep the position. *)
Lemma plain_steady {A} id (k : Z → gmap Name Item → eff Plain (expected A Refusal)) :
  (∀ s q m, sources s !! id = Some (q, m) → wp Faulty (k q m) (λ _ s', s' = s ∨ ∃ m', s' = set_source id q m' s) (λ _ s', s' = s) s) →
  steady (store := plain_store) plain_healthy plain_place (at_source id k).
Proof.
  intros Hk s Hs. apply at_source_wp; [done|]. intros q m E. eapply wp_mono; [by apply (Hk s q m)| |by intros e s' ->].
  intros r s' [->|[m' ->]]; [done|by eapply plain_same].
Qed.

Context (plain_limits_ok : Origin.limits_ok plain_limits).

#[program] Definition plain_lawful : Lawful Item (store := plain_store) := {|
  healthy := plain_healthy;
  place_of := plain_place;
  draft_limits := plain_limits;
  draft_limits_ok := plain_limits_ok
|}.
Next Obligation. by intros s []. Qed.
Next Obligation.
  intros id s p [_ Hs]. unfold plain_place. destruct (sources s !! id) as [[q m]|] eqn:E; [|done]. intros [= <-]. by apply (Hs id q m).
Qed.
Next Obligation.
  intros id s Hs. apply at_source_wp; unfold plain_place.
  - intros E. by rewrite E.
  - intros q m E. wp_step. by rewrite E.
Qed.
Next Obligation. intros id sc k. apply plain_steady. intros s q m E. wp_step. by left. Qed.
Next Obligation.
  intros sc k s Hs. cbn. wp_step. wp_step. wp_step. apply wp_zoom. eapply wp_mono; [apply wp_true| |done]. intros i o _. by wp_step.
Qed.
Next Obligation. intros id p sc k r. apply plain_steady. intros s q m E. wp_step. wp_step; [|done]. wp_step. wp_step. wp_step. right. by eexists. Qed.
Next Obligation.
  intros id p s Hs. apply at_source_wp; [done|]. intros q m E. apply wp_if; intros Hp; [by wp_step|]. apply Z.ltb_ge in Hp.
  wp_step. unfold open_draft. wp_step. wp_step; [|done]. wp_step. apply wp_lift. unfold Origin.make. destruct (_ <? _); [done|]. wp_step. wp_step.
  split; [done|]. split; [done|]. split; [done|]. split; [exists blank; split; [done|by apply blank_ok]|]. exists q. unfold plain_place. by rewrite E.
Qed.
Next Obligation. intros id d. apply plain_steady. intros s q m E. apply draft_rows_wp; [|done]. intros rows. wp_step. by left. Qed.
Next Obligation.
  intros id d sc. apply plain_steady. intros s q m E. apply draft_rows_wp; [|done]. intros rows. wp_step. wp_step; [|done]. wp_step. wp_step. wp_step. right. by eexists.
Qed.
Next Obligation.
  intros id p sc k. apply plain_moving. intros s q m Hs E. unfold in_order. apply wp_if; [|intros _; by wp_step]. intros [Hp _]%andb_true_iff. wp_step.
  destruct (Z.leb_spec p q); [|done]. exists q, m. split_and!; [by left|by eapply Hs|lia|lia].
Qed.
Next Obligation.
  intros id p sc k s Hs. apply at_source_wp; [done|]. intros q m E. unfold in_order. apply wp_if; [|intros _; by wp_step]. intros [Hp%Z.leb_le _]%andb_true_iff. wp_step.
  intros [= Hq%Z.leb_gt]. unfold plain_place. rewrite E. cbn. f_equal. lia.
Qed.
Next Obligation.
  intros id p sc k r fm. apply plain_moving. intros s q m Hs E. assert (is_u64 q) by (by eapply Hs). unfold in_order. apply wp_if; [|intros _; by wp_step].
  intros [Hp%Z.leb_le Hm%Z.leb_le]%andb_true_iff. apply wp_if; intros Hq.
  - apply Z.leb_le in Hq. wp_step. exists q, m. split_and!; [by left|done|lia|lia].
  - apply Z.leb_gt in Hq. wp_step. wp_step; [|done]. wp_step. wp_step. wp_step. exists p. eexists. split_and!; [by right|unfold is_u64 in *; lia|lia|lia].
Qed.
Next Obligation.
  intros id p Hp. apply plain_moving. intros s q m Hs E. apply wp_if; intros Hq; [by wp_step|]. apply Z.ltb_ge in Hq. wp_step. wp_step. wp_step.
  exists p, m. split_and!; [by right|done|lia|done].
Qed.
End plain.
