(* ===== verification/ExchangeAccounts.v ===== *)
(** The budget of the replication streams ([Exchange::Budget], [exchange.cpp]): what is
    charged is what the streams hold, through every operation, error and exception. *)
From stdpp Require Import base numbers strings gmap list.
From S2P Require Import Prelude.
From S2P Require Import Scope.
From S2P Require Import Pages.
From S2P Require Import Index.
From S2P Require Import Origin.
From S2P Require Import Parcel.
From S2P Require Import Dispatch.
From S2P Require Import Landing.
From S2P Require Import Restore.
From S2P Require Import Lawful.
From S2P Require Import Exchange.

(** ** The sender *)
Section sender.
Context {Item : Type} {layout : Layout Item} {wire : Wire Item}.

(** A sender holds what its baseline takes. *)
Definition kept (d : Dispatch Item) : Prop :=
  match baseline_ d with None => retained_ d = 0 | Some v => retained_ d = view_bytes v ∧ 0 <= view_bytes v end.

(** A baseline that has been taken up was granted; none is dropped. *)
Definition taken_up (grant : Z → bool) (d d' : Dispatch Item) : Prop :=
  kept d' ∧ match baseline_ d, baseline_ d' with
            | None, Some v => grant (view_bytes v) = true
            | None, None => True
            | Some v, Some v' => v' = v
            | Some _, None => False
            end.

Lemma taken_up_refl grant d d' : kept d → baseline_ d' = baseline_ d → retained_ d' = retained_ d → taken_up grant d d'.
Proof. intros Hk Eb Er. unfold taken_up, kept in *. rewrite Eb, Er. split; [done|]. by destruct (baseline_ d). Qed.

(** A delivered baseline is a capture of the source. *)
Lemma delivered_bytes since count budget (o : Origin (Item := Item)) :
  wp Faulty (Origin.deliver true since count budget)
    (λ r _, ∀ dl v, r = Expected dl → baseline dl = Some v → view_bytes v = Origin.bytes_ o + Origin.directory_ o) (λ _ _, True) o.
Proof.
  unfold Origin.deliver, idle. wp_step. wp_step. wp_step. apply wp_if; intros E; [by wp_step|]. wp_step. wp_step. wp_step.
  apply wp_if; intros _; [by wp_step|]. apply wp_if; intros _; [by wp_step|]. apply wp_if; intros _; [wp_step; by intros dl v [= <-]|]. cbv zeta.
  apply wp_if; intros _.
  - wp_step. unfold capture, idle. wp_step. wp_step. wp_step. apply wp_if; intros _; [by wp_step|]. wp_step. wp_step. wp_step. by intros dl v [= <-] [= <-].
  - destruct (gather _ _ _ _ _); [|by wp_step]. wp_step. wp_step; [|done]. wp_step. by intros dl v [= <-].
Qed.

Lemma deliver_reads since count budget (o : Origin (Item := Item)) f r o' f' :
  Origin.deliver true since count budget o f = (r, o', f') → o' = o.
Proof.
  unfold Origin.deliver, capture, idle, gets, bind, read, ret, throw, alloc. cbn. destruct (editing_ o) eqn:Ei; cbn; [by intros [= <- <- <-]|].
  destruct (_ || _); cbn; [by intros [= <- <- <-]|]. destruct (_ <? since); cbn; [by intros [= <- <- <-]|]. destruct (since =? _); cbn; [by intros [= <- <- <-]|].
  destruct (match upper_bound since (history_ o) with [] => true | e :: _ => negb (event_position e - 1 =? since) end); cbn; rewrite ?Ei; [by intros [= <- <- <-]|].
  destruct (gather _ _ _ _ _); cbn; [|by intros [= <- <- <-]]. destruct f as [|[] f]; by intros [= <- <- <-].
Qed.

Definition same_baseline (d : Dispatch Item) (p : Origin (Item := Item) * Dispatch Item) : Prop :=
  baseline_ p.2 = baseline_ d ∧ retained_ p.2 = retained_ d.

Lemma changes_hold li dl (o : Origin (Item := Item)) d :
  wp Faulty (prepare_changes li dl) (λ _ p, same_baseline d p) (λ _ p, same_baseline d p) (o, d).
Proof.
  unfold prepare_changes. wp_step. wp_step. apply wp_try. eapply wp_mono; [apply pack_wp| |by intros x p ->]. intros [[ds q]|x] p [-> _]; [|done].
  cbv zeta. apply wp_if; intros _; [by wp_step|]. wp_step. wp_step; [|done]. wp_step. wp_step. by wp_step.
Qed.

Lemma snapshot_hold li (o : Origin (Item := Item)) d :
  wp Faulty (prepare_snapshot li) (λ _ p, same_baseline d p) (λ _ p, same_baseline d p) (o, d).
Proof.
  unfold prepare_snapshot. wp_step. wp_step. cbn [snd]. destruct (baseline_ d) as [v|]; [|by wp_step]. wp_step.
  apply wp_mono with (Q := λ _ p, p = (o, d)) (E := λ _ p, p = (o, d)); [| |by intros x p ->].
  { intros f _. unfold locally. by destruct (view_page _ _ _ _ _ _) as [[[n|x] b] f']. }
  intros r p ->. apply wp_if; intros _; [by wp_step|]. cbv zeta. apply wp_if; intros _; [by wp_step|]. wp_step. wp_step; [|done]. wp_step. wp_step. by wp_step.
Qed.

Lemma prepare_holds li grant (o : Origin (Item := Item)) d :
  reserve_ li = true → kept d → 0 <= Origin.bytes_ o + Origin.directory_ o →
  wp Faulty (Dispatch.prepare li grant) (λ _ p, taken_up grant d p.2) (λ _ p, taken_up grant d p.2) (o, d).
Proof.
  intros Hr Hk Ho. assert (Hsame : ∀ p, same_baseline d p → taken_up grant d p.2) by (intros p [? ?]; by apply taken_up_refl).
  unfold Dispatch.prepare. wp_step. wp_step. cbn [snd]. apply wp_if; intros _; [wp_step; by apply Hsame|].
  destruct (Dispatch.packet_ d); [wp_step; by apply Hsame|]. cbv zeta.
  assert (Hpage : ∀ d0, (∀ p, same_baseline d0 p → taken_up grant d p.2) →
    wp Faulty (_ <-? prepare_snapshot li ;; p <- read ;; ret (Expected (Dispatch.packet_ p.2))) (λ _ p, taken_up grant d p.2) (λ _ p, taken_up grant d p.2) (o, d0)).
  { intros d0 Hd0. apply wp_try. eapply wp_mono; [apply snapshot_hold| |by auto]. intros [u|x] p Hp; [|by apply Hd0]. wp_step. wp_step. wp_step. by apply Hd0. }
  destruct (baseline_ d) as [v0|] eqn:Eb; [by apply Hpage|]. apply wp_try. unfold look. apply wp_zoom. cbn [fst snd].
  apply wp_mono with (Q := λ r o', o' = o ∧ ∀ dl v, r = Expected dl → baseline dl = Some v → view_bytes v = Origin.bytes_ o + Origin.directory_ o) (E := λ _ o', o' = o).
  3: { intros x o' ->. by apply (Hsame (o, d)). }
  { intros f Hf. pose proof (delivered_bytes (sent_ d) 256 (capacity_ li) o f Hf) as Hw.
    assert (Hro : ∀ r o' f', Origin.deliver true (sent_ d) 256 (capacity_ li) o f = (r, o', f') → o' = o) by apply deliver_reads.
    destruct (Origin.deliver _ _ _ _ o f) as [[[r|x] o'] f']; destruct Hw as [_ Hw]; specialize (Hro _ _ _ eq_refl); by subst o'. }
  intros [dl|x] o' [-> Hv]; [|by apply (Hsame (o, d))]. destruct (baseline dl) as [v|] eqn:Ev.
  - rewrite Hr. cbn [andb]. apply wp_if; intros Eg; [wp_step; by apply (Hsame (o, d))|]. wp_step. wp_step. unfold Dispatch.on_dispatch. cbn [fst snd].
    apply Hpage. intros p [Eb' Er']. cbn in Eb', Er'. unfold taken_up, kept. rewrite Eb, Eb'. specialize (Hv dl v eq_refl Ev).
    split; [split; [done|lia]|]. by apply negb_false_iff in Eg.
  - apply wp_if; intros _; [wp_step; by apply (Hsame (o, d))|]. apply wp_try. eapply wp_mono; [apply changes_hold| |by auto].
    intros [u|x] p Hp; [|by apply Hsame]. wp_step. wp_step. wp_step. by apply Hsame.
Qed.
End sender.

(** ** One pipe *)
Section pipe.
Context {Item : Type} {layout : Layout Item} {wire : Wire Item} {patching : Patching Item} {store : Store Item} {lawful : Lawful Item}.
Context (binary : bool) {carried : Carried Item binary} (peer : string) (capacity most base : Z).
Implicit Types (x : Site Item) (p : Pipe Item).

Definition queued (q : list (Pending (Item := Item))) : Z := foldr (λ e n, pending_bytes e + n) 0 q.
Definition held p : Z := bytes_ p + workspace_ p + retained_ (dispatch_ p).
Definition receiving p : bool := bool_decide (is_Some (landing_ p)) || bool_decide (is_Some (recovery_ p)).

Record fits p : Prop := {
  ft_bytes : bytes_ p = queued (pending_ p);
  ft_each : Forall (λ e, 0 < pending_bytes e) (pending_ p);
  ft_backlog : bytes_ p <= backlog;
  ft_count : (length (pending_ p) <= 64)%nat;
  ft_workspace : workspace_ p = if receiving p then workspace else 0;
  ft_sender : kept (dispatch_ p);
  ft_landing : ∀ l, landing_ p = Some l → (∃ m, landing_ok draft_limits l m) ∧ is_u64 (Landing.position_ l);
  ft_recovery : ∀ r, recovery_ p = Some r → is_u64 (draft_position (Restore.draft_ r)) ∧ landing_ p = None
}.

Record account x : Prop := {
  ac_fits : fits (pipe_ x);
  ac_healthy : healthy (state_ x);
  ac_used : used (budget_ x) = base + held (pipe_ x);
  ac_limit : used (budget_ x) <= maximum (budget_ x);
  ac_most : maximum (budget_ x) = most ∧ most <= u64_max ∧ 0 <= base
}.

(** Members that do not bear on what is held. *)
Definition alike p p' : Prop :=
  pending_ p' = pending_ p ∧ bytes_ p' = bytes_ p ∧ workspace_ p' = workspace_ p ∧ dispatch_ p' = dispatch_ p ∧
  landing_ p' = landing_ p ∧ recovery_ p' = recovery_ p.

Lemma alike_account x f : account x → alike (pipe_ x) (f (pipe_ x)) → account (on_pipe f x).
Proof.
  intros [[F1 F2 F3 F4 F5 F6 F7 F8] A2 A3 A4 A5] (E1 & E2 & E3 & E4 & E5 & E6). split; cbn; try done.
  - split; unfold receiving; rewrite ?E1, ?E2, ?E3, ?E4, ?E5, ?E6; done.
  - unfold held in *. by rewrite E2, E3, E4.
Qed.

Lemma queued_nonneg q : Forall (λ e, 0 < pending_bytes e) q → 0 <= queued q.
Proof. unfold queued. induction 1 as [|e q He _ IH]; cbn; lia. Qed.

Lemma kept_nonneg (d : Dispatch Item) : kept d → 0 <= retained_ d.
Proof. unfold kept. destruct (baseline_ d); lia. Qed.

Lemma fits_nonneg p : fits p → 0 <= bytes_ p ∧ (workspace_ p = 0 ∨ workspace_ p = workspace) ∧ 0 <= retained_ (dispatch_ p).
Proof.
  intros [F1 F2 _ _ F5 F6 _ _]. rewrite F1. split_and!; [by apply queued_nonneg|rewrite F5; destruct (receiving p); tauto|by apply kept_nonneg].
Qed.

(** An operation that keeps the account, however it ends. *)
Definition keeps {A} (m : eff (Site Item) A) : Prop := ∀ x, account x → wp Faulty m (λ _ x', account x') (λ _ x', account x') x.

Lemma keeps_ret {A} (a : A) : keeps (ret a).
Proof. intros x Hx. by wp_step. Qed.
Lemma keeps_throw {A} e : keeps (throw (A := A) e).
Proof. intros x Hx. by wp_step. Qed.
Lemma keeps_alloc : keeps alloc.
Proof. intros x Hx. by wp_step. Qed.
Lemma keeps_lift {A} (o : outcome A) : keeps (lift o).
Proof. intros x Hx. apply wp_lift. by destruct o. Qed.
Lemma keeps_bind {A B} (m : eff (Site Item) A) (k : A → eff (Site Item) B) : keeps m → (∀ a, keeps (k a)) → keeps (bind m k).
Proof. intros Hm Hk x Hx. wp_step. eapply wp_mono; [by apply Hm| |done]. intros a x' Hx'. by apply Hk. Qed.
Lemma keeps_read {A} (k : Site Item → eff (Site Item) A) : (∀ x, account x → wp Faulty (k x) (λ _ x', account x') (λ _ x', account x') x) → keeps (x <- read ;; k x).
Proof. intros Hk x Hx. wp_step. wp_step. by apply Hk. Qed.
Lemma keeps_try {A B F} (m : eff (Site Item) (expected A F)) (k : A → eff (Site Item) (expected B F)) :
  keeps m → (∀ a, keeps (k a)) → keeps (a <-? m ;; k a).
Proof. intros Hm Hk. apply keeps_bind; [done|]. intros [a|e]; [apply Hk|apply keeps_ret]. Qed.
Lemma keeps_modify f : (∀ p, alike p (f p)) → keeps (modify (on_pipe f)).
Proof. intros Hf x Hx. wp_step. by apply alike_account. Qed.
Lemma keeps_if {A} (b : bool) (m m' : eff (Site Item) A) : keeps m → keeps m' → keeps (if b then m else m').
Proof. by destruct b. Qed.
Lemma keeps_or_fail {A} (m : eff (Site Item) (expected A Failure)) : keeps m → keeps (or_fail m).
Proof. intros Hm. apply keeps_bind; [done|]. intros r. apply keeps_ret. Qed.

(** The state alone. *)
Lemma account_state x s : account x → healthy s → account (set_state s x).
Proof. intros [A1 A2 A3 A4 A5] Hs. by split. Qed.
Lemma keeps_state {A} (m : eff St A) : steady healthy place_of m → keeps (on_state m).
Proof.
  intros Hm x Hx. apply wp_zoom. eapply wp_mono; [apply Hm, Hx| |]; intros ? s' [Hs _]; by apply account_state.
Qed.
Lemma keeps_moving {A} id mv nx (m : eff St (expected A Failure)) : moving healthy place_of id mv nx m → keeps (on_state m).
Proof.
  intros Hm x Hx. apply wp_zoom. eapply wp_mono; [apply Hm, Hx| |]; intros ? s' [Hs _]; by apply account_state.
Qed.
Lemma keeps_received : keeps (on_state (st_received peer)).
Proof.
  intros x Hx. apply wp_zoom. eapply wp_mono; [apply received_law, Hx| |]; cbn.
  - intros r s' [-> _]. by apply account_state; [|apply Hx].
  - intros e s' ->. by apply account_state; [|apply Hx].
Qed.
End pipe.

Create HintDb accounts.
#[export] Hint Resolve keeps_ret keeps_throw keeps_alloc keeps_lift keeps_bind keeps_try keeps_if keeps_or_fail keeps_received
  keeps_state keeps_moving replica_law resolve_law repair_law restore_law install_law : accounts.
#[export] Hint Extern 2 (keeps _ _ (modify (on_pipe _))) => (apply keeps_modify; intros ?; by split_and!) : accounts.

Section operations.
Context {Item : Type} {layout : Layout Item} {wire : Wire Item} {patching : Patching Item} {store : Store Item} {lawful : Lawful Item}.
Context (binary : bool) {carried : Carried Item binary} (peer : string) (capacity most base : Z).
Implicit Types (x : Site Item) (p : Pipe Item).
Abbreviation keeps := (keeps most base).
Abbreviation account := (account most base).

Lemma note_received_keeps : keeps (note_received peer).
Proof. unfold note_received. apply keeps_bind; [eauto with accounts|]. intros [n|e]; eauto with accounts. Qed.

Lemma missing_keeps d now : keeps (missing d now).
Proof. unfold missing. eauto with accounts. Qed.

#[local] Hint Resolve note_received_keeps missing_keeps : accounts.

Lemma install_fact_keeps d sc r fm partial now : keeps (install_fact peer d sc r fm partial now).
Proof.
  unfold install_fact. apply keeps_bind; [eapply keeps_moving; by apply apply_law|]. intros [u|e]; [eauto with accounts|].
  destruct (partial && _); eauto with accounts.
Qed.

Lemma apply_keeps d now : keeps (apply peer d now).
Proof.
  pose proof (install_fact_keeps d) as Hi. unfold apply. destruct (scope_of _) as [sc|]; [|eauto with accounts].
  apply keeps_try; [apply keeps_or_fail; eapply keeps_moving; by apply covered_law|]. intros [|]; [eauto with accounts|].
  destruct (effect_of _) as [m|patch form| |]; [| |by apply Hi|eauto with accounts].
  - apply keeps_bind; [eauto with accounts|]. intros _. destruct (read_message m); [by apply Hi|eauto with accounts].
  - apply keeps_try; [eauto with accounts|]. intros prev. destruct (prev ≫= patch); [|eauto with accounts].
    apply keeps_bind; [eauto with accounts|]. intros _. by apply Hi.
Qed.

(** *** The queue *)
Lemma release_exact b n : 0 <= used b - n → used b <= u64_max → 0 <= n → used (budget_release n b) = used b - n ∧ maximum (budget_release n b) = maximum b.
Proof. intros H1 H2 H3. cbn. split; [|done]. apply wrap64_small. unfold is_u64. lia. Qed.

Lemma pop_keeps : keeps (modify pop_used).
Proof.
  intros x Hx. wp_step. unfold pop_used. destruct (pending_ (pipe_ x)) as [|e q] eqn:Eq; [done|]. destruct (_ =? _)%nat; [|done].
  destruct Hx as [F A2 A3 A4 A5]. pose proof (fits_nonneg _ F) as (N1 & N2 & N3). destruct F as [F1 F2 F3 F4 F5 F6 F7 F8]. rewrite Eq in F1, F2, F4. cbn in F1.
  apply Forall_cons in F2 as [He F2]. pose proof (queued_nonneg q F2). fold (queued q) in F1. unfold held in *.
  assert (Hw : 0 <= workspace_ (pipe_ x)) by (unfold workspace in N2; lia).
  destruct (release_exact (budget_ x) (pending_bytes e)) as [Hu Hm]; [lia|lia|lia|].
  split; cbn [budget_ set_budget on_pipe state_ pipe_]; [|done|unfold held; rewrite Hu; cbn; lia|rewrite Hu, Hm; lia|by rewrite Hm].
  split; cbn; [unfold queued in *; lia|done|unfold queued in *; lia|cbn in F4; lia|done|done|done|done].
Qed.

Lemma count_one_keeps : keeps (modify (on_pipe count_one)).
Proof.
  intros x [F A2 A3 A4 A5]. wp_step. unfold count_one. split; cbn [on_pipe state_ budget_ pipe_]; try done.
  - destruct F as [F1 F2 F3 F4 F5 F6 F7 F8]. destruct (pending_ (pipe_ x)) as [|e q] eqn:Eq; [split; by rewrite ?Eq|]. apply Forall_cons in F2 as [He F2].
    split; cbn; try done. by constructor.
  - destruct (pending_ (pipe_ x)); done.
Qed.


#[local] Hint Resolve install_fact_keeps apply_keeps pop_keeps count_one_keeps : accounts.

Lemma drain_keeps fuel remaining now : keeps (drain_loop peer fuel remaining now).
Proof.
  revert remaining. induction fuel as [|fuel IH]; intros remaining; cbn [drain_loop]; [eauto with accounts|]. apply keeps_read. intros x Hx.
  destruct (repair_ (pipe_ x)); [by wp_step|]. destruct (pending_ (pipe_ x)) as [|e q]; [by wp_step|]. destruct remaining as [|remaining]; [by wp_step|].
  assert (Hgo : ∀ n, keeps (modify pop_used ;;; drain_loop peer fuel n now)) by (intros n; apply keeps_bind; eauto with accounts).
  destruct (_ !! _) as [d|]; [|by apply Hgo]. revert x Hx. change (keeps (r <-? apply peer d now ;; if negb r then ret (Expected tt)
    else modify (on_pipe count_one) ;;; note_received peer ;;; modify (on_pipe (set_deadline now)) ;;; modify pop_used ;;; drain_loop peer fuel remaining now)).
  apply keeps_try; [eauto with accounts|]. intros [|]; cbn [negb]; [|eauto with accounts]. repeat (apply keeps_bind; [eauto with accounts|intros _]). apply IH.
Qed.

Lemma drain_all_keeps now : keeps (drain peer now).
Proof. unfold drain. apply keeps_read. intros x Hx. by apply drain_keeps. Qed.

(** *** Acquiring and giving back *)
Definition paid (n : Z) x : Site Item := set_budget {| used := used (budget_ x) + n; maximum := maximum (budget_ x) |} x.

Lemma acquire_wp n x (Q : bool → Site Item → Prop) E :
  account x → Q false x → (used (budget_ x) + n <= maximum (budget_ x) → Q true (paid n x)) → wp Faulty (acquire n) Q E x.
Proof.
  intros Hx Hno Hyes. unfold acquire, budget_acquire. wp_step. wp_step. destruct (_ || _) eqn:Eb; cbn.
  - wp_step. wp_step. wp_step. by destruct x.
  - apply orb_false_iff in Eb as [_ Eb%Z.ltb_ge]. wp_step. wp_step. wp_step. apply Hyes. lia.
Qed.

(** A pipe whose holding has changed by as much as the budget. *)
Lemma account_paid n x p :
  account x → fits p → held p = held (pipe_ x) + n → used (budget_ x) + n <= maximum (budget_ x) → account (on_pipe (λ _, p) (paid n x)).
Proof. intros [A1 A2 A3 A4 A5] Hf Hh Hle. split; cbn; [done|done|lia|done|done]. Qed.

Lemma paid_back n x : account x → set_budget (budget_release n (budget_ (paid n x))) (paid n x) = x.
Proof.
  intros [A1 A2 A3 A4 A5]. pose proof (fits_nonneg _ A1) as (N1 & N2 & N3). destruct x as [s [u mx] p]. unfold paid, set_budget, budget_release. cbn in *.
  replace (u + n - n) with u by lia. rewrite wrap64_small; [done|]. unfold is_u64, held, workspace in *. lia.
Qed.

Lemma held_back n x : account x → 0 <= n <= held (pipe_ x) → used (budget_release n (budget_ x)) = used (budget_ x) - n.
Proof. intros [A1 A2 A3 A4 A5] Hn. apply release_exact; lia. Qed.

Lemma emptied_fits p : fits p → fits (emptied p) ∧ held (emptied p) = retained_ (dispatch_ p).
Proof. intros [F1 F2 F3 F4 F5 F6 F7 F8]. split; [|unfold held; cbn; lia]. split; cbn; try done; try (unfold backlog; lia). Qed.

Lemma clear_wp n x :
  account x → 0 <= n → used (budget_ x) + n <= maximum (budget_ x) →
  wp Faulty clear (λ _ x', x' = on_pipe emptied (set_budget {| used := base + retained_ (dispatch_ (pipe_ x)) + n; maximum := maximum (budget_ x) |} x))
    (λ _ _, False) (paid n x).
Proof.
  intros Hx Hn Hle. pose proof (fits_nonneg _ (ac_fits _ _ _ Hx)) as (N1 & N2 & N3). destruct Hx as [A1 A2 A3 A4 (A5 & A6 & A7)]. unfold clear, release.
  wp_step. wp_step. wp_step. wp_step. wp_step. unfold on_pipe, set_budget. cbn. f_equal. unfold budget_release. cbn. f_equal. unfold held in A3.
  assert (Hw : 0 <= workspace_ (pipe_ x)) by (unfold workspace in N2; lia).
  rewrite wrap64_small; [lia|]. unfold is_u64. lia.
Qed.

Lemma clear_keeps : keeps clear.
Proof.
  intros x Hx. pose proof (clear_wp 0 x Hx ltac:(lia)) as Hc. assert (Hp : paid 0 x = x) by (unfold paid, set_budget; rewrite Z.add_0_r; by destruct x as [? [] ?]).
  rewrite Hp in Hc. eapply wp_mono; [apply Hc; destruct Hx; lia| |done]. intros _ x' ->. destruct Hx as [A1 A2 A3 A4 A5]. destruct (emptied_fits _ A1) as [He Hh].
  pose proof (fits_nonneg _ A1) as (N1 & N2 & N3). split; cbn [pipe_ on_pipe set_budget budget_ state_ used maximum]; [done|done|lia| |done].
  unfold held, workspace in *. lia.
Qed.

#[local] Hint Resolve drain_all_keeps : accounts.

(** *** The operations of a pipe *)
Lemma enqueue_fits p e : fits p → 0 < pending_bytes e → pending_bytes e + bytes_ p <= backlog → (length (pending_ p) < 64)%nat → ∀ n,
  fits (set_seen n (set_pending (pending_ p ++ [e]) (bytes_ p + pending_bytes e) p)).
Proof.
  intros [F1 F2 F3 F4 F5 F6 F7 F8] He Hb Hc n. split; cbn; try done.
  - rewrite F1. unfold queued. rewrite foldr_app. cbn. generalize (pending_ p) as q. induction q as [|e' q IH]; cbn; lia.
  - apply Forall_app. by split; [|constructor].
  - lia.
  - rewrite length_app. cbn. lia.
Qed.

Lemma changes_keeps m now : 0 <= changes_bytes m → keeps (changes peer m now).
Proof.
  intros Hb. unfold changes. apply keeps_read. intros x Hx. apply wp_if; intros _; [by wp_step|]. wp_step. wp_step.
  set (x1 := on_pipe _ x). assert (Hx1 : account x1) by (apply alike_account; [done|by split_and!]).
  destruct (last (changes_entries m)) as [d|]; [|revert Hx1; generalize x1; change (keeps (note_received peer ;;; ret (Expected (E := Status) tt))); eauto with accounts].
  cbv zeta. apply wp_if; intros E; [by wp_step|]. rewrite !orb_false_iff, Nat.eqb_neq, !Z.ltb_ge in E. destruct E as [[E1 E2] E3].
  pose proof (ft_count _ (ac_fits _ _ _ Hx)) as Hcount. pose proof (proj1 patch_sizes) as Hsize.
  wp_step. apply acquire_wp; [done|cbn [negb]; by wp_step|]. intros Hroom. cbn [negb]. wp_step. wp_step. wp_step.
  - wp_step. wp_step. apply drain_all_keeps. apply (account_paid (changes_bytes m + sizeof_pending) x1); [done| | |done].
    + apply (enqueue_fits (pipe_ x1) {| message := m; offset := 0; pending_bytes := changes_bytes m + sizeof_pending |}); cbn; [apply Hx1|lia|lia|].
      destruct Hx1 as [[? ? ? ? ? ? ? ?] ? ? ? ?]. lia.
    + unfold held. cbn. lia.
  - unfold release. wp_step. by rewrite paid_back.
Qed.


(** *** Baselines *)
Lemma clear_landing_ok l m : landing_ok draft_limits l m → landing_ok draft_limits (Landing.clear l) ∅ ∧ is_u64 (Landing.position_ (Landing.clear l)).
Proof. intros [_ H]. split; [|done]. split; cbn; [done|lia]. Qed.

(** Another landing in the place of the one that is there. *)
Lemma landing_account x l l' f :
  account x → landing_ (pipe_ x) = Some l → (∃ m, landing_ok draft_limits l' m) → is_u64 (Landing.position_ l') →
  alike (set_landing (Some l') (pipe_ x)) (f (pipe_ x)) → account (on_pipe f x).
Proof.
  intros [[F1 F2 F3 F4 F5 F6 F7 F8] A2 A3 A4 A5] El Hok Hu (E1 & E2 & E3 & E4 & E5 & E6). cbn in *. split; cbn; try done.
  - split; unfold receiving in *; rewrite ?E1, ?E2, ?E3, ?E4, ?E5, ?E6; try done.
    + rewrite F5, El. done.
    + intros ? [= <-]. done.
    + intros r Hr. destruct (F8 r Hr). congruence.
  - unfold held in *. by rewrite E2, E3, E4.
Qed.

Lemma append_keeps exclusive clock page minimum l x :
  account x → landing_ (pipe_ x) = Some l → 0 <= snapshot_bytes page → is_u64 (snapshot_position page) →
  wp Faulty (on_landing l (append binary draft_limits exclusive clock page minimum))
    (λ r x', account x' ∧ recovery_ (pipe_ x') = recovery_ (pipe_ x) ∧
       (∀ u, r = Expected u → ∃ l', landing_ (pipe_ x') = Some l' ∧ is_Some (Landing.draft_ l') ∧ Landing.position_ l' = snapshot_position page))
    (λ _ x', account x') x.
Proof.
  intros Hx Hl Hb Hu. unfold on_landing. apply wp_zoom. rewrite Hl. cbn [default id]. destruct (ft_landing _ (ac_fits _ _ _ Hx) l Hl) as [[m Hm] Hp].
  eapply wp_mono; [by apply (landing_append_wp binary draft_limits draft_limits_ok exclusive clock l m)| |].
  - intros [u|e] l' Hr; cbn.
    + destruct Hr as (_ & _ & _ & rows & _ & Hok & Hd & Hpos & _). split_and!; [|done|eauto 10].
      eapply (landing_account x l l'); [done|done|by eexists|by rewrite Hpos|by split_and!].
    + destruct Hr as [-> _]. destruct (clear_landing_ok l m Hm) as [H1 H2]. split_and!; [|done|done].
      eapply (landing_account x l); [done|done|by eexists|done|by split_and!].
  - intros e l' ->. destruct (clear_landing_ok l m Hm) as [H1 H2]. eapply (landing_account x l); [done|done|by eexists|done|by split_and!].
Qed.

Lemma state_still {A} (m : eff St A) x :
  steady healthy place_of m → account x → wp Faulty (on_state m) (λ _ x', account x' ∧ pipe_ x' = pipe_ x) (λ _ x', account x') x.
Proof. intros Hm Hx. apply wp_zoom. eapply wp_mono; [apply Hm, Hx| |]; intros ? s' [Hs _]; [split; [|done]|]; by apply account_state. Qed.

Lemma begin_landing_keeps page now x :
  account x → recovery_ (pipe_ x) = None → is_u64 (snapshot_position page) →
  wp Faulty (begin_landing peer page now) (λ _ x', account x' ∧ recovery_ (pipe_ x') = None) (λ _ x', account x') x.
Proof.
  intros Hx Hr Hu. unfold begin_landing. wp_step. wp_step. destruct (landing_ (pipe_ x)) as [l|] eqn:El; [by wp_step|]. apply wp_if; intros _; [by wp_step|].
  apply wp_try. unfold or_fail. wp_step. unfold on_state. apply wp_zoom. eapply wp_mono; [apply prepare_law, Hx| |].
  2: { intros e s' [Hs _]. by apply account_state. }
  intros r s' (Hs & _ & Hd). set (x1 := set_state s' x). assert (Hx1 : account x1) by (by apply account_state). wp_step. destruct r as [d|e]; [|done].
  wp_step. apply acquire_wp; [done|cbn [negb]; by wp_step|]. intros Hroom. cbn [negb]. wp_step.
  eapply wp_mono; [apply (clear_wp workspace x1 Hx1); [unfold workspace; lia|exact Hroom]| |done]. intros _ x2 ->. wp_step. apply wp_lift.
  destruct (of_draft d workspace) as [l0|e] eqn:El0; [|done]. wp_step. wp_step. wp_step.
  split; [|done]. destruct Hx1 as [A1 A2 A3 A4 A5]. destruct (emptied_fits _ A1) as [[F1 F2 F3 F4 F5 F6 F7 F8] Hh]. pose proof (fits_nonneg _ A1) as (N1 & N2 & N3).
  unfold of_draft in El0. cbn in El0. injection El0 as <-. destruct Hd as (Hd1 & Hd2 & _).
  split; cbn [pipe_ on_pipe set_budget budget_ state_ used maximum]; [|done|unfold held; cbn; lia| |done].
  - split; cbn; try done. intros ? [= <-]. cbn. rewrite Hd1. split; [|done]. exists ∅. split; cbn; [done|unfold workspace; lia].
  - unfold held, workspace in *. lia.
Qed.

Lemma complete_landing_keeps page l x :
  account x → recovery_ (pipe_ x) = None → landing_ (pipe_ x) = Some l → wp Faulty (complete_landing peer page) (λ _ x', account x') (λ _ x', account x') x.
Proof.
  intros Hx Hr El. unfold complete_landing. wp_step. wp_step. rewrite El. apply wp_if; intros _; [by wp_step|].
  destruct (ft_landing _ (ac_fits _ _ _ Hx) l El) as [[m Hm] Hp]. destruct (clear_landing_ok l m Hm) as [H1 H2].
  destruct (Landing.take _ l) as [taken l2] eqn:Et. assert (El2 : l2 = Landing.clear l ∧ ∀ d, taken = Expected d → is_u64 (draft_position d)).
  { unfold Landing.take in Et. destruct Hm as [Hm _]. destruct (Landing.draft_ l) as [d0|]; [|by injection Et as <- <-]. destruct Hm as [_ Hpos].
    destruct (_ || _); injection Et as <- <-; (split; [done|]); [done|]. intros d [= <-]. by rewrite Hpos. }
  destruct El2 as [-> Hdraft]. wp_step. wp_step. set (x3 := on_pipe _ x).
  assert (Hx3 : account x3) by (eapply (landing_account x l); [done|done|by eexists|exact H2|by split_and!]).
  destruct taken as [d|e]; [|by wp_step]. apply wp_try. unfold or_fail. wp_step. eapply wp_mono; [apply state_still; [apply restore_law|exact Hx3]| |done].
  intros r x4 [Hx4 Hp4]. wp_step. destruct r as [scs|e]; [|done]. wp_step. wp_step. wp_step.
  destruct Hx4 as [[F1 F2 F3 F4 F5 F6 F7 F8] A2 A3 A4 A5]. rewrite Hp4 in *. split; cbn; rewrite ?Hp4; try done. split; cbn; rewrite ?Hp4; try done.
  intros ? [= <-]. cbn. split; [by apply Hdraft|done].
Qed.

Lemma snapshot_keeps exclusive clock page now :
  0 <= snapshot_bytes page → is_u64 (snapshot_position page) → keeps (snapshot binary peer draft_limits exclusive clock page now).
Proof.
  intros Hb Hu. unfold snapshot. apply keeps_read. intros x Hx. apply wp_if; intros Er; [by wp_step|]. apply wp_try.
  assert (Hr : recovery_ (pipe_ x) = None) by (apply bool_decide_eq_false in Er; destruct (recovery_ (pipe_ x)); [destruct Er; by eexists|done]).
  eapply wp_mono; [by apply begin_landing_keeps| |done]. clear x Hx Hr Er. intros [u|e] x [Hx Hr]; [|done]. wp_step. wp_step.
  destruct (landing_ (pipe_ x)) as [l|] eqn:El; [|by wp_step]. wp_step. eapply wp_mono; [by apply append_keeps| |done].
  intros [u'|e] x' (Hx' & Hr' & Hl'); [|destruct e; by wp_step]. destruct (Hl' u' eq_refl) as (l' & El' & _). wp_step. wp_step.
  eapply complete_landing_keeps; [|by cbn; rewrite Hr'|by cbn]. apply alike_account; [done|by split_and!].
Qed.

Lemma repaired_keeps r now : keeps (repaired peer r now).
Proof.
  unfold repaired. apply keeps_read. intros x Hx. destruct (repair_ (pipe_ x)) as [wanted|]; [|by wp_step]. apply wp_if; intros _; [by wp_step|].
  destruct (scope_of _) as [sc|]; [|by wp_step]. revert x Hx. eapply keeps_try.
  - destruct (answer r); eauto with accounts.
  - intros rec. apply keeps_try; [eauto with accounts|]. intros _. apply keeps_bind; [|eauto with accounts]. apply keeps_modify. intros p. by split_and!.
Qed.

Lemma answer_keeps r : keeps (Exchange.repair r).
Proof.
  unfold Exchange.repair. destruct (scope_of _) as [sc|]; [|eauto with accounts]. apply keeps_if; [eauto with accounts|].
  apply keeps_try; [apply keeps_or_fail, keeps_state, resolve_law|].
  intros [p i]. apply keeps_if; [eauto with accounts|]. apply keeps_bind; [eauto with accounts|]. intros _. cbn [snd]. destruct i; [|apply keeps_ret].
  apply keeps_bind; [apply keeps_lift|intros m; apply keeps_ret].
Qed.

(** *** Installing *)
Lemma step_healthy (s : St) r : healthy s → is_u64 (draft_position (Restore.draft_ r)) →
  wp Faulty Restore.step (λ _ q, healthy q.1 ∧ Restore.draft_ q.2 = Restore.draft_ r) (λ _ q, healthy q.1 ∧ Restore.draft_ q.2 = Restore.draft_ r) (s, r).
Proof.
  intros Hs Hu. unfold Restore.step, on_task. wp_step. wp_step. cbn [snd]. destruct (failure_ r); [by wp_step|]. apply wp_if; intros _; [by wp_step|].
  destruct (_ !! _) as [sc|].
  - wp_step. apply wp_zoom. eapply wp_mono; [by apply install_law| |by intros e s' []]. cbn [fst snd].
    intros [u|e] s' [Hs' _]; [by repeat wp_step|]. apply wp_if; intros _; by repeat wp_step.
  - apply wp_if; intros _; [by repeat wp_step|]. wp_step. apply wp_zoom. eapply wp_mono; [by apply finish_law| |by intros e s' []]. cbn [fst snd].
    intros [u|e] s' [Hs' _]; by repeat wp_step.
Qed.

Lemma recovery_account x r r' s :
  account x → recovery_ (pipe_ x) = Some r → healthy s → is_u64 (draft_position (Restore.draft_ r')) →
  account (set_state s (on_pipe (set_recovery (Some r')) x)).
Proof.
  intros [[F1 F2 F3 F4 F5 F6 F7 F8] A2 A3 A4 A5] Er Hs Hu. split; cbn; try done. split; cbn; try done.
  - rewrite F5. unfold receiving. cbn. by rewrite Er.
  - intros ? [= <-]. split; [done|]. by apply (F8 r).
Qed.

Lemma recover_keeps now : keeps (recover peer now).
Proof.
  unfold recover. apply keeps_read. intros x Hx. destruct (recovery_ (pipe_ x)) as [r|] eqn:Er; [|by wp_step]. apply wp_try. unfold or_fail. wp_step.
  destruct (ft_recovery _ (ac_fits _ _ _ Hx) r Er) as [Hu Hland]. unfold on_recovery. apply wp_zoom. rewrite Er. cbn [default id].
  eapply wp_mono; [apply step_healthy; [apply Hx|done]| |].
  2: { intros e [s' r'] [Hs Hd]. cbn in Hd. apply (recovery_account x r); [done|done|done|by cbn; rewrite Hd]. }
  intros res [s' r'] [Hs Hd]. cbn [fst snd] in *. set (x1 := set_state _ _).
  assert (Hx1 : account x1) by (apply (recovery_account x r); [done|done|done|by rewrite Hd]). wp_step. destruct res as [b|e]; [|done]. wp_step. wp_step.
  set (x2 := on_pipe _ x1). assert (Hx2 : account x2) by (apply alike_account; [done|by split_and!]).
  destruct b; [|by wp_step]. wp_step. wp_step. wp_step. wp_step. unfold release. wp_step. wp_step. wp_step. wp_step.
  match goal with |- wp _ _ _ _ ?y => set (x3 := y) end. enough (Hx3 : account x3).
  { wp_step. eapply wp_mono; [by apply note_received_keeps| |done]. intros u x4 Hx4. by wp_step. }
  destruct Hx2 as [F A2 A3 A4 (A5 & A6 & A7)]. pose proof (fits_nonneg _ F) as (N1 & N2 & N3). destruct F as [F1 F2 F3 F4 F5 F6 F7 F8].
  assert (Ew : workspace_ (pipe_ x2) = workspace) by (rewrite F5; unfold receiving; cbn; by rewrite orb_true_r).
  unfold held in A3. assert (Eu : used (budget_ x3) = used (budget_ x2) - workspace).
  { change (used (budget_ x3)) with (wrap64 (used (budget_ x2) - workspace_ (pipe_ x2))). rewrite Ew. apply wrap64_small. unfold is_u64, workspace in *. lia. }
  split; [|done|rewrite Eu; unfold held; cbn in *; lia|rewrite Eu; cbn in *; unfold workspace; lia|done].
  split; cbn; try done. unfold receiving. cbn. cbn in Hland. by rewrite Hland.
Qed.

(** *** Sending *)
Lemma sender_account x d :
  account x → kept d →
  match baseline_ (dispatch_ (pipe_ x)), baseline_ d with
  | None, Some v => (budget_acquire (view_bytes v) (budget_ x)).1 = true
  | Some v, Some v' => v' = v
  | _, _ => True
  end →
  account (set_budget (charge (dispatch_ (pipe_ x)) d (budget_ x)) (on_pipe (set_dispatch d) x)).
Proof.
  intros [F A2 A3 A4 (A5 & A6 & A7)] Hk Hb. pose proof (fits_nonneg _ F) as (N1 & N2 & N3). destruct F as [F1 F2 F3 F4 F5 F6 F7 F8]. unfold held in A3.
  assert (Hw : 0 <= workspace_ (pipe_ x)) by (unfold workspace in N2; lia).
  assert (Hc : used (charge (dispatch_ (pipe_ x)) d (budget_ x)) = used (budget_ x) - retained_ (dispatch_ (pipe_ x)) + retained_ d ∧
    used (charge (dispatch_ (pipe_ x)) d (budget_ x)) <= most ∧ maximum (charge (dispatch_ (pipe_ x)) d (budget_ x)) = most).
  { unfold charge. unfold kept in F6, Hk. destruct (baseline_ (dispatch_ (pipe_ x))) as [v|], (baseline_ d) as [v'|].
    - subst v'. lia.
    - cbn. rewrite wrap64_small; [lia|]. unfold is_u64. lia.
    - unfold budget_acquire in *. destruct (_ || _) eqn:E; [done|]. apply orb_false_iff in E as [_ E%Z.ltb_ge]. cbn. lia.
    - lia. }
  destruct Hc as (C1 & C2 & C3).
  split; cbn [pipe_ on_pipe set_budget budget_ state_]; [by split|done|unfold held; cbn; lia|by rewrite C3|by split_and!].
Qed.

Lemma pipe_prepare_keeps now : keeps (Exchange.prepare peer capacity now).
Proof.
  unfold Exchange.prepare. apply keeps_read. intros x Hx. apply wp_if; intros _; [by wp_step|]. destruct (packet_ (pipe_ x)); [by wp_step|].
  revert x Hx. apply keeps_try; [apply recover_keeps|]. intros _. apply keeps_try; [apply drain_all_keeps|]. intros _. apply keeps_read. intros x Hx. cbv zeta.
  assert (Hsay : ∀ f, (∀ p, alike p (f p)) → keeps (alloc ;;; modify (on_pipe f) ;;; x <- read ;; ret (Expected (E := Status) (packet_ (pipe_ x))))).
  { intros f Hf. apply keeps_bind; [eauto with accounts|]. intros _. apply keeps_bind; [by apply keeps_modify|]. intros _. apply keeps_read. intros x' Hx'. by wp_step. }
  apply wp_if; intros _; [apply Hsay; [|done]; intros p; by split_and!|].
  assert (Hack : ∀ n, keeps (alloc ;;; modify (on_pipe (say_ack n)) ;;; x <- read ;; ret (Expected (E := Status) (packet_ (pipe_ x))))).
  { intros n. apply Hsay. intros p. by split_and!. }
  assert (Hsend : wp Faulty (if negb (opened_ (pipe_ x)) then ret (Expected None) else
      r <- on_sender (Dispatch.prepare (pipe_limits capacity) (λ n, (budget_acquire n (budget_ x)).1)) ;;
      match r with
      | Unexpected e => ret (Unexpected (sending_error e))
      | Expected k => modify (on_pipe (set_dispatched (bool_decide (is_Some k)))) ;;; ret (Expected (SayData <$> k))
      end) (λ _ x', account x') (λ _ x', account x') x).
  { apply wp_if; intros _; [by wp_step|]. wp_step.
    apply wp_mono with (Q := λ _ x', account x') (E := λ _ x', account x').
    - intros f Hf. unfold on_sender. pose proof (prepare_holds (pipe_limits capacity) (λ n, (budget_acquire n (budget_ x)).1) (own_source (state_ x)) (dispatch_ (pipe_ x)) eq_refl
        (ft_sender _ (ac_fits _ _ _ Hx)) (own_sane _ (ac_healthy _ _ _ Hx)) f Hf) as Hw.
      destruct (Dispatch.prepare _ _ _ _) as [[[r|e] [o d]] f']; destruct Hw as [Hf' [Hk Hb]]; (split; [done|]); (apply sender_account; [done|done|]); cbn [snd] in *; revert Hb;
        by destruct (baseline_ (dispatch_ (pipe_ x))), (baseline_ d).
    - intros [k|e] x' Hx'; [|by wp_step]. wp_step. wp_step. wp_step. apply alike_account; [done|by split_and!].
    - done. }
  destruct (repair_ (pipe_ x)) as [r|]; [destruct (requested_ (pipe_ x))|]; destruct (acknowledgement_ (pipe_ x)) as [n|]; try done; try (by apply Hack);
    (apply Hsay; [intros p; by split_and!|done]).
Qed.

Lemma advance_holds (d : Dispatch Item) : kept d → kept (advance d) ∧
  match baseline_ d, baseline_ (advance d) with Some v, Some v' => v' = v | None, Some _ => False | _, _ => True end.
Proof. unfold kept, advance. destruct (baseline_ d) as [v|] eqn:E; [|by intros]. destruct (_ =? _); cbn; [done|]. done. Qed.

Lemma pipe_take_keeps : keeps Exchange.take.
Proof.
  unfold Exchange.take. apply keeps_read. intros x Hx. apply wp_if; intros _.
  - wp_step. wp_step. set (x1 := on_pipe _ x). assert (Hx1 : account x1) by (apply alike_account; [done|by split_and!]). clearbody x1. wp_step.
    apply wp_mono with (Q := λ _ x', account x') (E := λ _ x', account x'); [|intros k x' Hx'; by wp_step|done].
    intros f Hf. unfold on_sender, dispatched, bind, read, modify, ret, throw. cbn [snd]. destruct (Dispatch.packet_ (dispatch_ (pipe_ x1))); cbn.
    + split; [done|]. destruct (advance_holds (dispatch_ (pipe_ x1)) (ft_sender _ (ac_fits _ _ _ Hx1))) as [H1 H2].
      apply sender_account; [done|done|]. revert H2. by destruct (baseline_ (dispatch_ (pipe_ x1))), (baseline_ (advance _)).
    + split; [done|]. apply (sender_account x1); [done|apply Hx1|]. by destruct (baseline_ (dispatch_ (pipe_ x1))).
  - destruct (packet_ (pipe_ x)); [|by wp_step]. wp_step. wp_step. wp_step. apply alike_account; [done|by split_and!].
Qed.

Lemma dispatch_account x d : account x → baseline_ d = baseline_ (dispatch_ (pipe_ x)) → retained_ d = retained_ (dispatch_ (pipe_ x)) →
  account (on_pipe (set_dispatch d) x).
Proof.
  intros [[F1 F2 F3 F4 F5 F6 F7 F8] A2 A3 A4 A5] Eb Er. split; cbn; try done; [|unfold held in *; cbn; by rewrite Er]. split; cbn; try done.
  unfold kept in *. by rewrite Eb, Er.
Qed.

Lemma resume_keeps position : keeps (pipe_resume capacity position).
Proof.
  unfold pipe_resume. apply keeps_bind.
  - intros x Hx. unfold Exchange.on_dispatch. apply wp_zoom. set (d := dispatch_ (pipe_ x)).
    apply wp_mono with (Q := λ _ q, same_baseline d q) (E := λ _ q, same_baseline d q); [|intros r q [? ?]; by apply dispatch_account..].
    unfold Dispatch.resume. wp_step. wp_step. cbn [snd]. apply wp_if; intros _; [by wp_step|]. wp_step. unfold look. apply wp_zoom. cbn [fst].
    eapply wp_mono; [apply wp_true|by intros [dl|e] o' _; repeat wp_step|done].
  - intros [u|e]; eauto with accounts.
Qed.

Lemma acknowledged_keeps position : keeps (pipe_acknowledged position).
Proof.
  unfold pipe_acknowledged. apply keeps_read. intros x Hx. destruct (Dispatch.acknowledge _ _) as [ok d] eqn:E. wp_step. wp_step. wp_step.
  apply dispatch_account; [done|..]; unfold Dispatch.acknowledge in E; destruct (_ || _); by injection E as <- <-.
Qed.
End operations.

(** ** A whole session *)
Section destroy.
Context {Item : Type} {layout : Layout Item} {wire : Wire Item} {patching : Patching Item} {store : Store Item} {lawful : Lawful Item}.
Context (most base : Z).

(** A destroyed pipe has given everything back. *)
Lemma destroy_wp (x : Site Item) :
  account most base x → wp Faulty pipe_destroy (λ _ x', budget_ x' = {| used := base; maximum := most |} ∧ state_ x' = state_ x) (λ _ _, False) x.
Proof.
  intros Hx. pose proof Hx as [F A2 A3 A4 (A5 & A6 & A7)]. pose proof (fits_nonneg _ F) as (N1 & N2 & N3). unfold held, workspace in *.
  unfold pipe_destroy, clear, release. repeat wp_step. cbn. split; [|done]. unfold budget_release. cbn. rewrite A5. f_equal.
  rewrite (wrap64_small (used _ - _)); [|unfold is_u64; lia]. rewrite wrap64_small; [lia|]. unfold is_u64. lia.
Qed.

(** The constructor takes nothing. *)
Lemma make_fits peer capacity now (s : St) f p s' f' :
  healthy s → pipe_make peer capacity now s f = (Done p, s', f') → fits p ∧ held p = 0 ∧ s' = s.
Proof.
  intros Hs. pose proof (received_law peer s Hs) as Hr. unfold pipe_make, Dispatch.make, bind, lift, ret, throw. destruct (_ || _); [done|].
  specialize (Hr f I). destruct (st_received peer s f) as [[[[n|e]|e] s1] f1]; try done. destruct Hr as (_ & -> & _). intros [= <- <- <-].
  split; [|done]. split; cbn; done || (unfold backlog; lia).
Qed.
End destroy.

Section session.
Context {A B : Type} {la : Layout A} {lb : Layout B} {wa : Wire A} {wb : Wire B} {pa : Patching A} {pb : Patching B} {sa : Store A} {sb : Store B}.
Context {lawa : Lawful A} {lawb : Lawful B} {ca : Carried A false} {cb : Carried B true}.
Context (peer : string) (capacity : Z).
Implicit Types (x : Session A B).

(** The answers that wait. *)
Record answers_fit (e : Exchange A B) : Prop := {
  an_bytes : response_bytes_ e = foldr (λ r n, response_size r + n) 0 (responses_ e);
  an_each : Forall (λ r, 0 < response_size r) (responses_ e);
  an_most : response_bytes_ e <= replies;
  an_count : (length (responses_ e) <= 8)%nat
}.

(** What is charged, when others hold [outer]: what this stream holds, and no more than
    there is. *)
Record balanced (outer : Z) x : Prop := {
  bl_catalog : fits (catalog_ (exchange_ x));
  bl_ephemeris : fits (ephemeris_ (exchange_ x));
  bl_answers : answers_fit (exchange_ x);
  bl_used : used (shared x) = outer + held (catalog_ (exchange_ x)) + held (ephemeris_ (exchange_ x)) + response_bytes_ (exchange_ x);
  bl_limit : used (shared x) <= maximum (shared x) <= u64_max;
  bl_outer : 0 <= outer
}.
Definition sound (outer : Z) x : Prop := balanced outer x ∧ healthy (catalog_state x) ∧ healthy (ephemeris_state x).

Lemma answers_nonneg e : answers_fit e → 0 <= response_bytes_ e.
Proof. intros [-> Hs _ _]. induction Hs as [|r rs Hr _ IH]; cbn; lia. Qed.

Lemma held_nonneg {I} {l : Layout I} {w : Wire I} {t : Patching I} {s : Store I} {k : Lawful I} (p : Pipe I) : fits p → 0 <= held p.
Proof. intros (N1 & N2 & N3)%fits_nonneg. unfold held, workspace in *. lia. Qed.

(** Each pipe sees the rest as held by others. *)
Lemma sound_catalog outer x : sound outer x →
  account (maximum (shared x)) (outer + held (ephemeris_ (exchange_ x)) + response_bytes_ (exchange_ x)) (catalog_site x).
Proof.
  intros [[B1 B2 B3 B4 B5 B6] [H1 H2]]. pose proof (answers_nonneg _ B3). pose proof (held_nonneg _ B2). split; cbn; try done; lia.
Qed.
Lemma catalog_sound outer x s : sound outer x →
  account (maximum (shared x)) (outer + held (ephemeris_ (exchange_ x)) + response_bytes_ (exchange_ x)) s → sound outer (put_catalog s x).
Proof.
  intros [[B1 B2 B3 B4 B5 B6] [H1 H2]] [A1 A2 A3 A4 (A5 & A6 & A7)]. split; [|by split]. split; cbn; try done; try lia. by destruct B3; split.
Qed.
Lemma sound_ephemeris outer x : sound outer x →
  account (maximum (shared x)) (outer + held (catalog_ (exchange_ x)) + response_bytes_ (exchange_ x)) (ephemeris_site x).
Proof.
  intros [[B1 B2 B3 B4 B5 B6] [H1 H2]]. pose proof (answers_nonneg _ B3). pose proof (held_nonneg _ B1). split; cbn; try done; lia.
Qed.
Lemma ephemeris_sound outer x s : sound outer x →
  account (maximum (shared x)) (outer + held (catalog_ (exchange_ x)) + response_bytes_ (exchange_ x)) s → sound outer (put_ephemeris s x).
Proof.
  intros [[B1 B2 B3 B4 B5 B6] [H1 H2]] [A1 A2 A3 A4 (A5 & A6 & A7)]. split; [|by split]. split; cbn; try done; try lia. by destruct B3; split.
Qed.

(** Operations of the session that keep it sound. *)
Definition guards {R} (m : eff (Session A B) R) : Prop :=
  ∀ outer x, sound outer x → wp Faulty m (λ _ x', sound outer x') (λ _ x', sound outer x') x.

Lemma guards_ret {R} (a : R) : guards (ret a).
Proof. intros o x Hx. by wp_step. Qed.
Lemma guards_throw {R} e : guards (throw (A := R) e).
Proof. intros o x Hx. by wp_step. Qed.
Lemma guards_bind {R R'} (m : eff (Session A B) R) (k : R → eff (Session A B) R') : guards m → (∀ a, guards (k a)) → guards (bind m k).
Proof. intros Hm Hk o x Hx. wp_step. eapply wp_mono; [by apply Hm| |done]. intros a x' Hx'. by apply Hk. Qed.
Lemma guards_try {R R' F} (m : eff (Session A B) (expected R F)) (k : R → eff (Session A B) (expected R' F)) :
  guards m → (∀ a, guards (k a)) → guards (a <-? m ;; k a).
Proof. intros Hm Hk. apply guards_bind; [done|]. intros [a|e]; [apply Hk|apply guards_ret]. Qed.
Lemma guards_catalog {R} (m : eff (Site A) R) : (∀ most base, keeps most base m) → guards (on_catalog m).
Proof.
  intros Hm o x Hx. apply wp_zoom. eapply wp_mono; [by apply Hm, sound_catalog| |]; intros ? s Hs; by apply catalog_sound.
Qed.
Lemma guards_ephemeris {R} (m : eff (Site B) R) : (∀ most base, keeps most base m) → guards (on_ephemeris m).
Proof.
  intros Hm o x Hx. apply wp_zoom. eapply wp_mono; [by apply Hm, sound_ephemeris| |]; intros ? s Hs; by apply ephemeris_sound.
Qed.

Lemma queue_guards body size sizeof outer x :
  sound outer x → (length (responses_ (exchange_ x)) < 8)%nat → 0 <= size → 0 < sizeof →
  wp Faulty (queue_response capacity body size sizeof) (λ _ x', sound outer x') (λ _ x', sound outer x') x.
Proof.
  intros [[B1 B2 B3 B4 B5 B6] Hh] Hn Hs Hz. pose proof (answers_nonneg _ B3). pose proof (held_nonneg _ B1). pose proof (held_nonneg _ B2).
  unfold queue_response. cbv zeta. wp_step. wp_step. destruct (_ || _) eqn:E; [by wp_step|]. apply orb_false_iff in E as [[_ E1]%orb_false_iff E2].
  unfold budget_acquire. destruct ((maximum (shared x) <? used (shared x)) || _) eqn:Eb; cbn [negb]; [by wp_step|]. apply orb_false_iff in Eb as [_ Eb%Z.ltb_ge].
  wp_step. wp_step. wp_step. wp_step. wp_step.
  - wp_step. wp_step. wp_step. split; [|done]. destruct B3 as [N1 N2 N3 N4]. split; cbn; try done; try lia. split; cbn.
    + rewrite N1, foldr_app. cbn. generalize (responses_ (exchange_ x)). intros rs. induction rs as [|r rs IH]; cbn; [lia|]. lia.
    + apply Forall_app. split; [done|]. constructor; [cbn; lia|done].
    + lia.
    + rewrite length_app. cbn. lia.
  - wp_step. cbn. split; [|done]. split; cbn; try done; rewrite wrap64_small by (unfold is_u64; lia); lia.
Qed.

Definition sensible (b : Body A B) : Prop :=
  match b with
  | MessageCatalogSnapshot m => 0 <= snapshot_bytes m ∧ is_u64 (snapshot_position m)
  | MessageEphemerisSnapshot m => 0 <= snapshot_bytes m ∧ is_u64 (snapshot_position m)
  | MessageCatalogChanges m => 0 <= changes_bytes m
  | MessageEphemerisChanges m => 0 <= changes_bytes m
  | _ => True
  end.

Lemma receive_guards sur packet now : sensible packet → guards (receive peer capacity (draft_limits (Item := A)) (draft_limits (Item := B)) sur packet now).
Proof.
  destruct packet as [[] p|[] p|m|m|m|m|r|r|r|]; cbn; intros Hp; try apply guards_ret.
  - apply guards_catalog. intros. apply resume_keeps.
  - apply guards_ephemeris. intros. apply resume_keeps.
  - apply guards_bind; [|intros; apply guards_ret]. apply guards_catalog. intros. apply acknowledged_keeps.
  - apply guards_bind; [|intros; apply guards_ret]. apply guards_ephemeris. intros. apply acknowledged_keeps.
  - apply guards_catalog. intros. destruct Hp. by apply snapshot_keeps.
  - apply guards_ephemeris. intros. destruct Hp. by apply snapshot_keeps.
  - apply guards_catalog. intros. by apply changes_keeps.
  - apply guards_ephemeris. intros. by apply changes_keeps.
  - intros o x Hx. wp_step. wp_step. apply wp_if; [intros _; by wp_step|]. intros Hn%Nat.eqb_neq. pose proof (an_count _ (bl_answers _ _ (proj1 Hx))) as Hc.
    destruct (repair_realm r); [by wp_step| |]; apply wp_try; apply wp_zoom.
    + eapply wp_mono; [by apply answer_keeps, sound_catalog| |]; [|intros e s Hs; by apply catalog_sound]. intros [a|e] s Hs; (pose proof (catalog_sound o x s Hx Hs) as Hs'); [|done].
      apply queue_guards; [done|cbn; lia|apply patch_sizes..].
    + eapply wp_mono; [by apply answer_keeps, sound_ephemeris| |]; [|intros e s Hs; by apply ephemeris_sound]. intros [a|e] s Hs; (pose proof (ephemeris_sound o x s Hx Hs) as Hs'); [|done].
      apply queue_guards; [done|cbn; lia|apply patch_sizes..].
  - apply guards_catalog. intros. apply repaired_keeps.
  - apply guards_ephemeris. intros. apply repaired_keeps.
Qed.

(** Members that do not bear on what is held. *)
Lemma guards_selected n : guards (modify (set_selected n)).
Proof. intros o x [[B1 B2 B3 B4 B5 B6] Hh]. wp_step. split; [|done]. split; try done. by destruct B3; split. Qed.
Lemma guards_turn n m : guards (modify (λ x, set_turn n (set_selected m x))).
Proof. intros o x [[B1 B2 B3 B4 B5 B6] Hh]. wp_step. split; [|done]. split; try done. by destruct B3; split. Qed.

Lemma domain_guards which now : guards (prepare_domain peer capacity which now).
Proof.
  unfold prepare_domain. destruct (_ =? _); (apply guards_try; [|intros; apply guards_ret]); [apply guards_catalog|apply guards_ephemeris]; intros; apply pipe_prepare_keeps.
Qed.

Lemma prepare_guards now : guards (exchange_prepare peer capacity now).
Proof.
  intros o x Hx. unfold exchange_prepare. wp_step. wp_step. apply wp_if; intros _; [by wp_step|].
  assert (Hsel : ∀ n (k : option (Body A B)), guards (modify (set_selected n) ;;; ret (Expected (E := Status) k))).
  { intros n k. apply guards_bind; [apply guards_selected|]. intros. apply guards_ret. }
  destruct (responses_ (exchange_ x)) as [|r rs]; [|by apply Hsel]. cbv zeta. revert Hx. generalize (turn_ (exchange_ x)). intros t. revert o x.
  apply guards_try; [apply domain_guards|]. intros [k|]; [apply Hsel|]. apply guards_try; [apply domain_guards|]. intros [k|]; apply Hsel.
Qed.

Lemma take_guards : guards exchange_take.
Proof.
  intros o x Hx. unfold exchange_take. wp_step. wp_step. cbv zeta. apply wp_if; intros _.
  - destruct (responses_ (exchange_ x)) as [|r rs] eqn:Er; [by wp_step|]. wp_step. wp_step. wp_step. destruct Hx as [[B1 B2 B3 B4 B5 B6] Hh].
    pose proof (held_nonneg _ B1). pose proof (held_nonneg _ B2). split; [|done]. destruct B3 as [N1 N2 N3 N4]. rewrite Er in N1, N2, N4. cbn in N1, N4.
    apply Forall_cons in N2 as [N2 N5]. assert (0 <= foldr (λ r n, response_size r + n) 0 rs) by (clear -N5; induction N5 as [|a l Ha _ IH]; cbn; lia).
    split; cbn; try done; try (rewrite wrap64_small by (unfold is_u64; lia); lia). split; cbn; done || lia.
  - apply wp_if; intros _; [|by wp_step]. revert Hx. generalize (selected_ (exchange_ x)). intros n. revert o x. apply guards_bind; [apply guards_turn|]. intros _.
    destruct (n =? 1); (apply guards_bind; [|intros; apply guards_ret]); [apply guards_catalog|apply guards_ephemeris]; intros; apply pipe_take_keeps.
Qed.

Lemma exchange_destroy_wp outer x : sound outer x → wp Faulty exchange_destroy (λ _ x', used (shared x') = outer) (λ _ _, False) x.
Proof.
  intros Hx. pose proof Hx as [[B1 B2 B3 B4 B5 B6] Hh]. pose proof (answers_nonneg _ B3). pose proof (held_nonneg _ B1). pose proof (held_nonneg _ B2).
  unfold exchange_destroy. wp_step. wp_step. wp_step. wp_step. set (x1 := set_shared _ x).
  assert (Eu : used (shared x1) = used (shared x) - response_bytes_ (exchange_ x)) by (cbn; apply wrap64_small; unfold is_u64; lia).
  wp_step. apply wp_zoom. eapply wp_mono; [apply (destroy_wp (maximum (shared x)) (outer + held (catalog_ (exchange_ x))))| |done].
  { destruct Hh. split; cbn in *; try done; lia. }
  intros _ s [Es _]. apply wp_zoom. eapply wp_mono; [apply (destroy_wp (maximum (shared x)) outer)| |done].
  { destruct Hh. split; cbn; rewrite ?Es; cbn; try done; lia. }
  intros _ s' [Es' _]. cbn. by rewrite Es'.
Qed.

(** ** Histories *)

(** What happens to a stream: a packet arrives, the session looks for one to send and
    takes it, and meanwhile other streams acquire and release space of the budget and
    others work on the states. *)
Inductive happens : Session A B * Z → Session A B * Z → Prop :=
| happens_receive x outer sur packet now f r x' f' :
    sensible packet → receive peer capacity (draft_limits (Item := A)) (draft_limits (Item := B)) sur packet now x f = (r, x', f') → happens (x, outer) (x', outer)
| happens_prepare x outer now f r x' f' : exchange_prepare peer capacity now x f = (r, x', f') → happens (x, outer) (x', outer)
| happens_take x outer f r x' f' : exchange_take x f = (r, x', f') → happens (x, outer) (x', outer)
| happens_outside x outer outer' c e :
    0 <= outer' → used (shared x) - outer + outer' <= maximum (shared x) → healthy c → healthy e →
    happens (x, outer)
      ({| catalog_state := c; ephemeris_state := e; shared := {| used := used (shared x) - outer + outer'; maximum := maximum (shared x) |};
          exchange_ := exchange_ x |}, outer').

Lemma guards_run {R} (m : eff (Session A B) R) outer x f r x' f' : guards m → sound outer x → m x f = (r, x', f') → sound outer x'.
Proof. intros Hm Hx E. specialize (Hm outer x Hx f I). rewrite E in Hm. destruct r; apply Hm. Qed.

Lemma happens_sound a b : happens a b → sound a.2 a.1 → sound b.2 b.1.
Proof.
  intros [x o sur k now f r x' f' Hk E|x o now f r x' f' E|x o f r x' f' E|x o o' c e Ho Hu Hc He] Hx; cbn [fst snd] in *.
  - eapply guards_run; [by apply receive_guards|done|done].
  - eapply guards_run; [apply prepare_guards|done|done].
  - eapply guards_run; [apply take_guards|done|done].
  - destruct Hx as [[B1 B2 B3 B4 B5 B6] _]. split; [|done]. split; cbn; done || lia.
Qed.

Lemma happens_onward x outer x' outer' : happens (x, outer) (x', outer') → sound outer x → sound outer' x'.
Proof. apply happens_sound. Qed.

Lemma opening_sound now s s' b x :
  healthy s → healthy s' → 0 <= used b <= maximum b → maximum b <= u64_max → exchange_make peer capacity now s s' b = Done x → sound (used b) x.
Proof.
  intros Hs Hs' Hb Hm. unfold exchange_make. destruct (pipe_make peer capacity now s []) as [[[p|e] t] f] eqn:E1; [|done].
  destruct (pipe_make peer capacity now s' []) as [[[q|e] t'] f'] eqn:E2; [|done]. intros [= <-].
  destruct (make_fits _ _ _ _ _ _ _ _ Hs E1) as (F1 & G1 & ->). destruct (make_fits _ _ _ _ _ _ _ _ Hs' E2) as (F2 & G2 & ->).
  split; [|done]. split; cbn; try done; [|rewrite G1, G2; lia|lia|lia]. split; cbn; [done|constructor|unfold replies; lia|lia].
Qed.

(** C14. The budget of replication is exact.  Through every history of a stream (packets of
    any content, calls of [prepare] and [take] in any order, allocation failures at any
    place, other streams and writers in between), what is charged to the budget is what
    others hold plus the packets that wait, the workspace of a baseline, the baseline being
    sent and the answers that wait of this stream; it never exceeds the maximum; each
    domain's backlog has at most 64 packets and 8 MiB, the answers are at most 8 and
    16 MiB; and the destructor gives everything back. *)
Theorem exchange_accounts now (s : St (Item := A)) (s' : St (Item := B)) b x0 x outer :
  healthy s → healthy s' → 0 <= used b <= maximum b → maximum b <= u64_max →
  exchange_make peer capacity now s s' b = Done x0 → rtc happens (x0, used b) (x, outer) →
  balanced outer x ∧ ∀ f, ∃ x' f', exchange_destroy x f = (Done tt, x', f') ∧ used (shared x') = outer.
Proof.
  intros Hs Hs' Hb Hm Ex Hr. assert (Hx : sound outer x).
  { change (sound (x, outer).2 (x, outer).1). apply (rtc_ind_r (R := happens) (λ a, sound a.2 a.1) (x0, used b)); [by eapply opening_sound| |done]. intros a c _ Hac Ha. by apply (happens_sound a c). }
  split; [apply Hx|]. intros f. pose proof (exchange_destroy_wp outer x Hx f I) as Hd.
  destruct (exchange_destroy x f) as [[[[]|e] x'] f']; [|by destruct Hd]. exists x', f'. split; [done|apply Hd].
Qed.
End session.
