(* ===== verification/ExchangeOrder.v ===== *)
(** The order of the replication streams ([exchange.cpp]): events are applied one after
    the other, none is lost or repeated, and what is acknowledged is installed. *)
From stdpp Require Import base numbers strings gmap list list_numbers.
From S2P Require Import Prelude.
From S2P Require Import Scope.
From S2P Require Import Index.
From S2P Require Import Origin.
From S2P Require Import Parcel.
From S2P Require Import Dispatch.
From S2P Require Import Landing.
From S2P Require Import Restore.
From S2P Require Import Lawful.
From S2P Require Import Exchange.
From S2P Require Import ExchangeAccounts.

Section order.
Context {Item : Type} {layout : Layout Item} {wire : Wire Item} {patching : Patching Item} {store : Store Item} {lawful : Lawful Item}.
Context (binary : bool) {carried : Carried Item binary} (peer : string) (capacity : Z).
Implicit Types (x : Site Item) (p : Pipe Item).

(** The positions of the events that wait. *)
Definition waiting (e : Pending (Item := Item)) : list Z := delta_position <$> drop (offset e) (changes_entries (message e)).
Definition unapplied (q : list (Pending (Item := Item))) : list Z := q ≫= waiting.

(** The source has come to [n]: the events that wait are the next ones, up to the last
    one seen; nothing beyond [n] is acknowledged. *)
Record follows (n : Z) x : Prop := {
  fl_place : place_of peer (state_ x) = Some n;
  fl_received : received_ (pipe_ x) <= n;
  fl_ack : ∀ a, acknowledgement_ (pipe_ x) = Some a → a <= n;
  fl_packet : ∀ a, packet_ (pipe_ x) = Some (SayAck a) ∨ packet_ (pipe_ x) = Some (SayResume a) → a <= n;
  fl_offsets : Forall (λ e, (offset e <= length (changes_entries (message e)))%nat) (pending_ (pipe_ x));
  fl_queue : receiving (pipe_ x) = false → n <= seen_ (pipe_ x) ∧ unapplied (pending_ (pipe_ x)) = seqZ (n + 1) (seen_ (pipe_ x) - n);
  fl_busy : receiving (pipe_ x) = true → pending_ (pipe_ x) = [];
  fl_recovery : ∀ r, recovery_ (pipe_ x) = Some r → draft_position (Restore.draft_ r) = seen_ (pipe_ x) ∧ Restore.id_ r = peer ∧ Restore.done_ r = false
}.

(** Members that do not bear on the order. *)
Definition level p p' : Prop :=
  pending_ p' = pending_ p ∧ received_ p' = received_ p ∧ seen_ p' = seen_ p ∧ landing_ p' = landing_ p ∧ recovery_ p' = recovery_ p ∧
  acknowledgement_ p' = acknowledgement_ p ∧ packet_ p' = packet_ p.

Lemma level_follows n x x' :
  follows n x → place_of peer (state_ x') = place_of peer (state_ x) → level (pipe_ x) (pipe_ x') → follows n x'.
Proof.
  intros [F1 F2 F3 F4 F5 F6 F7 F8] Ep (E1 & E2 & E3 & E4 & E5 & E6 & E7). unfold receiving in *.
  split; unfold receiving; rewrite ?Ep, ?E1, ?E2, ?E3, ?E4, ?E5, ?E6, ?E7; done.
Qed.

(** Operations that leave the place of the source and the queue, when they succeed. *)
Definition stays {A} (ok : A → Prop) (m : eff (Site Item) A) : Prop :=
  ∀ x, healthy (state_ x) → wp Faulty m (λ r x', ok r → healthy (state_ x') ∧ place_of peer (state_ x') = place_of peer (state_ x) ∧ level (pipe_ x) (pipe_ x')) (λ _ _, True) x.

Lemma stays_missing d now : stays (λ _, True) (missing d now).
Proof. intros x Hx. unfold missing. wp_step. wp_step; [|done]. wp_step. intros _. split_and!; [done|done|]. by split_and!. Qed.

Lemma stays_state {A} ok (m : eff St A) : steady healthy place_of m → stays ok (on_state m).
Proof. intros Hm x Hx. apply wp_zoom. eapply wp_mono; [by apply Hm| |done]. intros r s' [Hs Hp] _. cbn. split_and!; [done|apply Hp|]. by split_and!. Qed.

(** The position is read back. *)
Lemma note_received_wp n x :
  healthy (state_ x) → place_of peer (state_ x) = Some n → wp Faulty (note_received peer) (λ _ x', x' = on_pipe (set_marks n) x) (λ _ _, True) x.
Proof.
  intros Hs Hp. unfold note_received. wp_step. apply wp_zoom. eapply wp_mono; [by apply received_law| |done]. cbn. intros [q|e] s' [-> Hq]; [|by wp_step].
  wp_step. rewrite Hp in Hq. injection Hq as ->. by destruct x.
Qed.

(** ** One event *)
Definition moved (n : Z) x (b : bool) x' : Prop :=
  healthy (state_ x') ∧ place_of peer (state_ x') = Some (if b then n + 1 else n) ∧ level (pipe_ x) (pipe_ x') ∧ (b = false → is_Some (repair_ (pipe_ x'))).

Lemma install_fact_moves n x d sc r fm partial now :
  healthy (state_ x) → place_of peer (state_ x) = Some n → delta_position d = n + 1 →
  wp Faulty (install_fact peer d sc r fm partial now) (λ a x', ∀ b, a = Expected b → moved n x b x') (λ _ _, True) x.
Proof.
  intros Hs Hp Hd. unfold install_fact. wp_step. apply wp_zoom. eapply wp_mono; [by apply apply_law| |done]. cbn. intros [u|e] s' (Hs' & _ & Hr).
  - destruct Hr as (q & Hq & q' & Hq' & _ & ->). rewrite Hp in Hq. injection Hq as <-. wp_step. intros b [= <-]. split_and!; [done| |by split_and!|done].
    cbn. rewrite Hq'. f_equal. lia.
  - apply wp_if; intros _; [|by wp_step]. wp_step. unfold missing. wp_step. wp_step; [|done]. wp_step. wp_step. intros b [= <-].
    split_and!; [done|cbn; congruence|by split_and!|]. by eexists.
Qed.

Lemma apply_moves n x d now :
  healthy (state_ x) → place_of peer (state_ x) = Some n → delta_position d = n + 1 →
  wp Faulty (apply peer d now) (λ a x', ∀ b, a = Expected b → moved n x b x') (λ _ _, True) x.
Proof.
  intros Hs Hp Hd. unfold apply. destruct (scope_of _) as [sc|]; [|by wp_step]. apply wp_try. unfold or_fail. wp_step. apply wp_zoom.
  eapply wp_mono; [by apply covered_law| |done]. cbn. intros [b|e] s' (Hs' & _ & Hr); wp_step; [|done]. destruct Hr as (q & Hq & Hr). rewrite Hp in Hq. injection Hq as <-.
  destruct b.
  { destruct Hr as (q' & Hq' & _ & ->). wp_step. intros b [= <-]. split_and!; [done| |by split_and!|done]. cbn. rewrite Hq'. f_equal. lia. }
  set (x1 := set_state s' x). assert (Hgo : ∀ r fm partial x2, healthy (state_ x2) → place_of peer (state_ x2) = Some n → level (pipe_ x) (pipe_ x2) →
    wp Faulty (install_fact peer d sc r fm partial now) (λ a x', ∀ b, a = Expected b → moved n x b x') (λ _ _, True) x2).
  { intros r fm partial x2 H1 H2 H3. eapply wp_mono; [by apply (install_fact_moves n)| |done]. intros a x' Ha b Hb. destruct (Ha b Hb) as (M1 & M2 & M3 & M4).
    split_and!; [done|done| |done]. unfold level in *. intuition congruence. }
  assert (Hmiss : ∀ x2, healthy (state_ x2) → place_of peer (state_ x2) = Some n → level (pipe_ x) (pipe_ x2) →
    wp Faulty (missing d now ;;; ret (Expected (E := Status) false)) (λ a x', ∀ b, a = Expected b → moved n x b x') (λ _ _, True) x2).
  { intros x2 H1 H2 H3. unfold missing. wp_step. wp_step. wp_step; [|done]. wp_step. wp_step. intros b [= <-]. split_and!; [done|done|done|by eexists]. }
  destruct (effect_of _) as [m|patch form| |]; [| |by apply Hgo|by wp_step].
  - wp_step. wp_step; [|done]. destruct (read_message m); [by apply Hgo|by wp_step].
  - apply wp_try. wp_step. apply wp_zoom. eapply wp_mono; [by apply replica_law| |done]. intros [prev|e] s2 [Hs2 Hp2]; wp_step; [|done].
    assert (H2 : place_of peer s2 = Some n) by (rewrite Hp2; exact Hr).
    destruct (prev ≫= patch); [|by apply Hmiss]. wp_step. wp_step; [|done]. by apply Hgo.
Qed.

(** ** The queue *)
Lemma unapplied_cons e q : unapplied (e :: q) = waiting e ++ unapplied q.
Proof. done. Qed.

Lemma unapplied_head n x e q d :
  follows n x → pending_ (pipe_ x) = e :: q → changes_entries (message e) !! offset e = Some d →
  receiving (pipe_ x) = false ∧ delta_position d = n + 1 ∧ n < seen_ (pipe_ x) ∧
  (delta_position <$> drop (S (offset e)) (changes_entries (message e))) ++ unapplied q = seqZ (n + 2) (seen_ (pipe_ x) - n - 1).
Proof.
  intros Hf Ep Ed. assert (Hr : receiving (pipe_ x) = false).
  { destruct (receiving (pipe_ x)) eqn:E; [|done]. pose proof (fl_busy _ _ Hf E). congruence. }
  destruct (fl_queue _ _ Hf Hr) as [Hle Hq]. rewrite Ep in Hq. cbn in Hq. unfold waiting in Hq. rewrite (drop_S _ _ _ Ed) in Hq. cbn in Hq.
  destruct (decide (n < seen_ (pipe_ x))) as [Hlt|]; [|by rewrite seqZ_nil in Hq by lia]. rewrite seqZ_cons in Hq by lia. injection Hq as Hd Hq.
  split_and!; [done|done|done|]. etrans; [exact Hq|]. f_equal; lia.
Qed.

(** An entry that has been used up goes. *)
Lemma pop_follows n x : follows n x → follows n (pop_used x) ∧ state_ (pop_used x) = state_ x ∧ repair_ (pipe_ (pop_used x)) = repair_ (pipe_ x) ∧
  receiving (pipe_ (pop_used x)) = receiving (pipe_ x) ∧ seen_ (pipe_ (pop_used x)) = seen_ (pipe_ x) ∧
  (length (pending_ (pipe_ (pop_used x))) <= length (pending_ (pipe_ x)))%nat ∧
  (∀ e q, pending_ (pipe_ x) = e :: q → changes_entries (message e) !! offset e = None → pending_ (pipe_ (pop_used x)) = q).
Proof.
  intros Hf. unfold pop_used. destruct (pending_ (pipe_ x)) as [|e q] eqn:Ep; [rewrite Ep; by split_and!|]. destruct (Nat.eqb_spec (offset e) (length (changes_entries (message e)))) as [El|El].
  - split; [|cbn; split_and!; try done; [lia|by intros ? ? [= <- <-]]]. destruct Hf as [F1 F2 F3 F4 F5 F6 F7 F8]. rewrite Ep in *.
    split; cbn; try done; [by apply Forall_cons in F5 as []| |by intros H; specialize (F7 H)].
    intros Hr. destruct (F6 Hr) as [H1 H2]. split; [done|]. rewrite <- H2, unapplied_cons. unfold waiting. rewrite drop_ge by lia. done.
  - split; [done|]. rewrite Ep. split_and!; try done. intros ? ? [= <- <-] Hn%lookup_ge_None. pose proof (fl_offsets _ _ Hf) as Ho. rewrite Ep in Ho.
    apply Forall_cons in Ho as [Ho _]. lia.
Qed.

(** One event further. *)
Lemma count_follows n x e q d x1 now :
  follows n x → pending_ (pipe_ x) = e :: q → changes_entries (message e) !! offset e = Some d →
  place_of peer (state_ x1) = Some (n + 1) → level (pipe_ x) (pipe_ x1) →
  follows (n + 1) (on_pipe (set_deadline now) (on_pipe (set_marks (n + 1)) (on_pipe count_one x1))).
Proof.
  intros Hf Ep Ed Hp (E1 & E2 & E3 & E4 & E5 & E6 & E7). destruct (unapplied_head n x e q d Hf Ep Ed) as (Hr & Hd & Hlt & Hq). destruct Hf as [F1 F2 F3 F4 F5 F6 F7 F8].
  rewrite Ep in E1, F5. unfold on_pipe, count_one. rewrite E1. cbn. apply Forall_cons in F5 as [Ho F5]. apply lookup_lt_Some in Ed.
  split; cbn; try done.
  - intros a [= <-]. lia.
  - intros a Ha. rewrite E7 in Ha. specialize (F4 a Ha). lia.
  - constructor; [cbn; lia|done].
  - intros _. rewrite E3. split; [lia|]. etrans; [exact Hq|]. f_equal; lia.
  - unfold receiving in *. cbn. rewrite E4, E5. intros H. by rewrite H in Hr.
  - intros r. rewrite E5, E3. apply F8.
Qed.

Lemma drain_follows fuel remaining now n x :
  healthy (state_ x) → follows n x → (remaining + length (pending_ (pipe_ x)) <= fuel)%nat →
  wp Faulty (drain_loop peer fuel remaining now)
    (λ r x', ∀ u, r = Expected u → ∃ n', n <= n' ∧ healthy (state_ x') ∧ follows n' x' ∧ receiving (pipe_ x') = receiving (pipe_ x) ∧ seen_ (pipe_ x') = seen_ (pipe_ x) ∧
       (receiving (pipe_ x) = false → is_Some (repair_ (pipe_ x')) ∨ n' = Z.min (seen_ (pipe_ x)) (n + Z.of_nat remaining))) (λ _ _, True) x.
Proof.
  revert remaining n x. induction fuel as [|fuel IH]; intros remaining n x Hs Hf Hfuel; cbn [drain_loop].
  { wp_step. intros u _. exists n. split_and!; try done. intros Hr. right. assert (remaining = 0%nat) as -> by lia. destruct (fl_queue _ _ Hf Hr). lia. }
  assert (Hstop : (∀ (Hr : receiving (pipe_ x) = false), is_Some (repair_ (pipe_ x)) ∨ n = Z.min (seen_ (pipe_ x)) (n + Z.of_nat remaining)) →
    wp Faulty (ret (Expected (E := Status) tt)) (λ r x', ∀ u, r = Expected u → ∃ n', n <= n' ∧ healthy (state_ x') ∧ follows n' x' ∧ receiving (pipe_ x') = receiving (pipe_ x) ∧ seen_ (pipe_ x') = seen_ (pipe_ x) ∧
       (receiving (pipe_ x) = false → is_Some (repair_ (pipe_ x')) ∨ n' = Z.min (seen_ (pipe_ x)) (n + Z.of_nat remaining))) (λ _ _, True) x).
  { intros H. wp_step. intros u _. exists n. by split_and!. }
  wp_step. wp_step. destruct (repair_ (pipe_ x)) as [rp|] eqn:Erp; [apply Hstop; intros _; left; by eexists|].
  destruct (pending_ (pipe_ x)) as [|e q] eqn:Ep.
  { apply Hstop. intros Hr. right. destruct (fl_queue _ _ Hf Hr) as [H1 H2]. rewrite Ep in H2. destruct (decide (n < seen_ (pipe_ x))); [|lia]. by rewrite seqZ_cons in H2 by lia. }
  destruct remaining as [|remaining]; [apply Hstop; intros Hr; right; destruct (fl_queue _ _ Hf Hr); lia|].
  destruct (changes_entries (message e) !! offset e) as [d|] eqn:Ed.
  - destruct (unapplied_head n x e q d Hf Ep Ed) as (Hr & Hd & Hlt & Hq). apply wp_try. eapply wp_mono; [apply (apply_moves n); [done|apply Hf|done]| |done].
    intros [b|err] x1 Hm; [|done]. destruct (Hm b eq_refl) as (M1 & M2 & M3 & M4). destruct b; cbn [negb].
    + wp_step. wp_step. wp_step. eapply wp_mono; [by apply (note_received_wp (n + 1))| |done]. intros _ x2 ->. wp_step. wp_step. wp_step. wp_step.
      pose proof (count_follows n x e q d x1 now Hf Ep Ed M2 M3) as Hf2. set (x2 := on_pipe (set_deadline now) _) in *.
      destruct M3 as (E1 & E2 & E3 & E4 & E5 & E6 & E7).
      assert (Hsame : pending_ (pipe_ x2) = {| message := message e; offset := S (offset e); pending_bytes := pending_bytes e |} :: q ∧ seen_ (pipe_ x2) = seen_ (pipe_ x) ∧ receiving (pipe_ x2) = receiving (pipe_ x)).
      { unfold x2, on_pipe, count_one, receiving. cbn. rewrite E1, Ep. cbn. by rewrite E3, E4, E5. }
      destruct Hsame as (S1 & S2 & S3). destruct (pop_follows _ _ Hf2) as (P1 & P2 & P3 & P4 & P5 & P6 & _).
      eapply wp_mono; [apply (IH remaining (n + 1)); [by rewrite P2|done|]| |done].
      { rewrite S1 in P6. cbn in P6, Hfuel. lia. }
      intros r x3 H u Hu. destruct (H u Hu) as (n' & H1 & H2 & H3 & H4 & H5 & H6). exists n'. rewrite P4, S3 in *. rewrite P5, S2 in *. split_and!; try done; [lia|].
      intros Hr'. destruct (H6 Hr') as [?| ->]; [by left|right; lia].
    + wp_step. intros u _. exists n. destruct M3 as (E1 & E2 & E3 & E4 & E5 & E6 & E7). split_and!; try done; [by apply (level_follows n x); [done|rewrite M2; symmetry; apply Hf|]|unfold receiving; by rewrite E4, E5|].
      intros _. left. by apply M4.
  - destruct (pop_follows _ _ Hf) as (P1 & P2 & P3 & P4 & P5 & P6 & P7). specialize (P7 e q Ep Ed). wp_step. wp_step.
    eapply wp_mono; [apply (IH (S remaining) n); [by rewrite P2|done|rewrite P7; cbn in Hfuel; lia]| |done].
    intros r x3 H u Hu. destruct (H u Hu) as (n' & H1 & H2 & H3 & H4 & H5 & H6). exists n'. rewrite P4 in *. rewrite P5 in *. split_and!; done.
Qed.

(** ** The operations *)
Context (most base : Z).
Abbreviation account := (account most base).
Definition leads {A} (n : Z) (r : expected A Status) x : Prop := ∀ u, r = Expected u → ∃ n', n <= n' ∧ follows n' x.

Lemma drain_leads n now x : healthy (state_ x) → follows n x → wp Faulty (drain peer now) (λ r x', leads n r x') (λ _ _, True) x.
Proof.
  intros Hs Hf. unfold drain. wp_step. wp_step. eapply wp_mono; [by apply (drain_follows _ _ now n)| |done]. intros r x' H u Hu. destruct (H u Hu) as (n' & ? & _ & ? & _). eauto.
Qed.

Lemma marks_follow n x : follows n x → follows n (on_pipe (set_marks n) x).
Proof. intros [F1 F2 F3 F4 F5 F6 F7 F8]. split; cbn; try done. intros a [= <-]. lia. Qed.

Lemma entries_consecutive head previous (l : list (Delta Action)) :
  entries_valid key_valid action_valid head previous l = true → previous ≠ 0 → delta_position <$> l = seqZ (previous + 1) (Z.of_nat (length l)).
Proof.
  revert previous. induction l as [|d l IH]; intros q; [done|]. cbn [entries_valid]. destruct (_ || _) eqn:E; [done|]. destruct (negb (action_valid (delta_action d))); [done|]. intros Hl Hq.
  apply orb_false_iff in E as [[[[_ _]%orb_false_iff E0%Z.eqb_neq]%orb_false_iff _]%orb_false_iff E]. apply andb_false_iff in E as [E|E]; [by apply negb_false_iff, Z.eqb_eq in E|].
  apply orb_false_iff in E as [_ E%negb_false_iff%Z.eqb_eq]. apply IH in Hl; [|done].
  cbn. rewrite Hl, E. symmetry. rewrite seqZ_cons by lia. f_equal. f_equal; lia.
Qed.

Lemma changes_consecutive (m : Changes Action) d ds :
  changes_valid key_valid action_valid m = true → changes_entries m = d :: ds →
  delta_position <$> changes_entries m = seqZ (delta_position d) (Z.of_nat (length (changes_entries m))).
Proof.
  unfold changes_valid. destruct (_ || _); [done|]. intros H El. rewrite El in *. cbn [entries_valid] in H. destruct (_ || _ || _ || _ || _) eqn:E in H; [done|].
  destruct (negb (action_valid (delta_action d))); [done|]. apply orb_false_iff in E as [[[[_ _]%orb_false_iff E0%Z.eqb_neq]%orb_false_iff _]%orb_false_iff _].
  apply entries_consecutive in H; [|done]. cbn. rewrite H. symmetry. rewrite seqZ_cons by lia. f_equal. f_equal; lia.
Qed.

Lemma last_position (l : list (Delta Action)) d q : last l = Some d → delta_position <$> l = seqZ q (Z.of_nat (length l)) → delta_position d = q + Z.of_nat (length l) - 1.
Proof.
  intros Hl Hs. rewrite last_lookup in Hl. assert (H : (delta_position <$> l) !! pred (length l) = Some (delta_position d)) by (by rewrite list_lookup_fmap, Hl).
  rewrite Hs, lookup_seqZ in H. pose proof (lookup_lt_Some _ _ _ Hl). lia.
Qed.

(** A packet of events joins the queue where it belongs. *)
Lemma enqueue_follows n x m d b k :
  follows n x → receiving (pipe_ x) = false → changes_valid key_valid action_valid m = true → misplaced m (pipe_ x) = false → last (changes_entries m) = Some d →
  follows n (on_pipe (λ p, set_seen (delta_position d) (set_pending (pending_ p ++ [{| message := m; offset := 0; pending_bytes := b |}]) k p)) x).
Proof.
  intros [F1 F2 F3 F4 F5 F6 F7 F8] Hr Hv Hm Hl. destruct (changes_entries m) as [|d0 ds] eqn:Ee; [done|]. pose proof (changes_consecutive m d0 ds Hv Ee) as Hc.
  unfold misplaced in Hm. rewrite Ee in Hm. apply orb_false_iff in Hm as [_ Hm%negb_false_iff%Z.eqb_eq]. rewrite <- Ee in Hl. pose proof (last_position _ d _ Hl Hc) as Hd.
  destruct (F6 Hr) as [Hle Hq]. assert (Hlen : 0 < Z.of_nat (length (changes_entries m))) by (rewrite Ee; cbn; lia). split; cbn; try done.
  - apply Forall_app. split; [done|]. constructor; [cbn; lia|done].
  - intros _. split; [lia|]. unfold unapplied. rewrite bind_app. fold (unapplied (pending_ (pipe_ x))). rewrite Hq. cbn. unfold waiting. cbn. rewrite app_nil_r, drop_0, Hc.
    replace (delta_position d - n) with ((seen_ (pipe_ x) - n) + Z.of_nat (length (changes_entries m))) by lia. rewrite seqZ_app by lia. f_equal. f_equal; lia.
  - unfold receiving in *. cbn. congruence.
  - intros r Er. unfold receiving in Hr. rewrite Er in Hr. by rewrite orb_true_r in Hr.
Qed.

Lemma changes_leads m now n x : account x → follows n x → wp Faulty (changes peer m now) (λ r x', leads n r x') (λ _ _, True) x.
Proof.
  intros Hx Hf. unfold changes. wp_step. wp_step. apply wp_if; intros E; [by wp_step|]. rewrite !orb_false_iff, negb_false_iff in E. destruct E as [[Hr Hv] Hm].
  apply orb_false_iff in Hr. fold (receiving (pipe_ x)) in Hr. wp_step. wp_step. set (x1 := on_pipe _ x). assert (Hf1 : follows n x1) by (by apply (level_follows n x); [done|done|split_and!]).
  destruct (last (changes_entries m)) as [d|] eqn:El.
  - cbv zeta. apply wp_if; intros _; [by wp_step|]. wp_step. unfold acquire. wp_step. wp_step. destruct (budget_acquire _ _) as [[] b]; wp_step; wp_step; wp_step; cbn [negb]; [|by wp_step].
    wp_step. wp_step. wp_step; [|unfold release; by wp_step]. wp_step. wp_step. apply drain_leads; [apply Hx|].
    apply (enqueue_follows n (set_budget b x1) m d); [by apply (level_follows n x1); [done|done|split_and!]|exact Hr|done|exact Hm|done].
  - wp_step. eapply wp_mono; [apply (note_received_wp n); [apply Hx|apply Hf1]| |done]. intros _ x2 ->. wp_step. intros u _. exists n. split; [lia|]. by apply marks_follow.
Qed.

(** *** Baselines *)
Lemma begin_landing_leads page now n x :
  account x → follows n x → recovery_ (pipe_ x) = None →
  wp Faulty (begin_landing peer page now) (λ r x', ∀ u, r = Expected u → follows n x') (λ _ _, True) x.
Proof.
  intros Hx Hf Hr. unfold begin_landing. wp_step. wp_step. destruct (landing_ (pipe_ x)) as [l|] eqn:El; [by wp_step|]. apply wp_if; intros _; [by wp_step|].
  apply wp_try. unfold or_fail. wp_step. apply wp_zoom. eapply wp_mono; [apply prepare_law, Hx| |done]. intros [d|e] s' (Hs & Hp & _); wp_step; [|done].
  wp_step. unfold acquire. wp_step. wp_step. destruct (budget_acquire _ _) as [[] b]; wp_step; wp_step; wp_step; cbn [negb]; [|by wp_step]. wp_step. unfold clear, release. wp_step. wp_step. wp_step. wp_step. wp_step.
  wp_step. apply wp_lift. destruct (of_draft d workspace) as [l0|e]; [|done]. wp_step. wp_step. wp_step. intros u _.
  destruct Hf as [F1 F2 F3 F4 F5 F6 F7 F8]. split; cbn; try done. by rewrite Hp.
Qed.

(** Only the landing changes. *)
Lemma on_landing_only {A} l (m : eff (Landing Item) A) x :
  wp Faulty (on_landing l m) (λ _ x', ∃ l', x' = on_pipe (set_landing (Some l')) x) (λ _ _, True) x.
Proof. apply wp_zoom. eapply wp_mono; [apply wp_true| |done]. intros r l' _. by exists l'. Qed.

Lemma landing_follows n x l l' : follows n x → landing_ (pipe_ x) = Some l → follows n (on_pipe (set_landing (Some l')) x).
Proof.
  intros [F1 F2 F3 F4 F5 F6 F7 F8] El. assert (Hr : receiving (pipe_ x) = true) by (unfold receiving; by rewrite El).
  split; cbn; try done. intros _. by apply F7.
Qed.

Lemma complete_landing_leads page l n x :
  account x → follows n x → recovery_ (pipe_ x) = None → landing_ (pipe_ x) = Some l → Landing.position_ l = snapshot_position page →
  wp Faulty (complete_landing peer page) (λ r x', ∀ u, r = Expected u → follows n x') (λ _ _, True) x.
Proof.
  intros Hx Hf Hr El Hpos. unfold complete_landing. wp_step. wp_step. rewrite El. apply wp_if; intros _; [by wp_step|].
  destruct (ft_landing _ (ac_fits _ _ _ Hx) l El) as [[m Hm] _]. assert (Hrec : receiving (pipe_ x) = true) by (unfold receiving; by rewrite El).
  destruct (Landing.take _ l) as [taken l2] eqn:Et. assert (Hd : ∀ d, taken = Expected d → draft_position d = snapshot_position page).
  { intros d ->. unfold Landing.take in Et. destruct Hm as [Hm _]. destruct (Landing.draft_ l) as [d0|]; [|done]. destruct Hm as [_ Hp]. destruct (_ || _); [done|]. injection Et as <- <-. congruence. }
  wp_step. wp_step. destruct taken as [d|e]; [|by wp_step]. apply wp_try. unfold or_fail. wp_step. apply wp_zoom.
  eapply wp_mono; [apply restore_law, Hx| |done]. intros [scs|e] s' [Hs Hp]; wp_step; [|done]. wp_step. wp_step. wp_step. intros u _.
  destruct Hf as [F1 F2 F3 F4 F5 F6 F7 F8]. split; cbn; try done; [by rewrite Hp|intros _; by apply F7|]. intros ? [= <-]. cbn. split_and!; [by apply Hd|done|done].
Qed.

Lemma snapshot_leads exclusive clock page now n x :
  account x → follows n x → 0 <= snapshot_bytes page → is_u64 (snapshot_position page) →
  wp Faulty (snapshot binary peer draft_limits exclusive clock page now) (λ r x', leads n r x') (λ _ _, True) x.
Proof.
  intros Hx Hf Hb Hu. unfold snapshot. wp_step. wp_step. apply wp_if; intros Er; [by wp_step|]. apply wp_try.
  assert (Hr : recovery_ (pipe_ x) = None) by (apply bool_decide_eq_false in Er; destruct (recovery_ (pipe_ x)); [destruct Er; by eexists|done]).
  eapply wp_mono; [apply wp_and; [by apply begin_landing_leads|by apply (begin_landing_keeps peer most base page now)]| |done].
  clear x Hx Hf Hr Er. intros [u|e] x [Hf [Hx Hr]]; [|done]. specialize (Hf u eq_refl). wp_step. wp_step.
  destruct (landing_ (pipe_ x)) as [l|] eqn:El; [|by wp_step]. wp_step.
  eapply wp_mono; [apply wp_and; [by apply (append_keeps binary most base exclusive clock page _ l x)|apply on_landing_only]| |done].
  intros [u'|e] x' [(Hx' & Hr' & Hl') [l' ->]]; [|destruct e; by wp_step]. destruct (Hl' u' eq_refl) as (l2 & El2 & _ & Hpos). cbn in El2. injection El2 as <-.
  wp_step. wp_step. eapply wp_mono; [apply (complete_landing_leads page l' n)| |done]; [|  |done|done|done|].
  - apply alike_account; [done|by split_and!].
  - apply (level_follows n (on_pipe (set_landing (Some l')) x)); [by eapply landing_follows|done|by split_and!].
  - intros r x2 H v Hv. exists n. split; [lia|by apply (H v)].
Qed.

Lemma repaired_leads r now n x : account x → follows n x → wp Faulty (repaired peer r now) (λ a x', leads n a x') (λ _ _, True) x.
Proof.
  intros Hx Hf. unfold repaired. wp_step. wp_step. destruct (repair_ (pipe_ x)) as [wanted|]; [|wp_step; intros u _; exists n; split; [lia|done]].
  apply wp_if; intros _; [by wp_step|]. destruct (scope_of _) as [sc|]; [|by wp_step]. apply wp_try.
  apply wp_mono with (Q := λ _ x', x' = x) (E := λ _ _, True); [destruct (answer r); repeat (wp_step; try done)| |done]. intros [i|e] x' ->; [|done].
  apply wp_try. unfold or_fail. wp_step. apply wp_zoom. eapply wp_mono; [apply repair_law, Hx| |done]. intros [u|e] s' [Hs Hp]; wp_step; [|done].
  wp_step. wp_step. apply drain_leads; [done|]. apply (level_follows n x); [done|apply Hp|by split_and!].
Qed.

(** *** Installing *)
Lemma step_place n (s : St) r :
  healthy s → is_u64 (draft_position (Restore.draft_ r)) → place_of (Restore.id_ r) s = Some n → Restore.done_ r = false →
  wp Faulty Restore.step (λ a q, ∀ b, a = Expected b →
    healthy q.1 ∧ Restore.draft_ q.2 = Restore.draft_ r ∧ Restore.id_ q.2 = Restore.id_ r ∧ Restore.done_ q.2 = b ∧
    if b then n <= draft_position (Restore.draft_ r) ∧ place_of (Restore.id_ r) q.1 = Some (draft_position (Restore.draft_ r)) else place_of (Restore.id_ r) q.1 = Some n)
    (λ _ _, True) (s, r).
Proof.
  intros Hs Hu Hp Hd. unfold Restore.step, on_task. wp_step. wp_step. cbn [snd]. destruct (failure_ r); [by wp_step|]. rewrite Hd.
  destruct (_ !! _) as [sc|].
  - wp_step. apply wp_zoom. eapply wp_mono; [by apply install_law| |done]. cbn [fst snd]. intros [u|e] s' [Hs' Hp'].
    + repeat wp_step. intros b [= <-]. cbn. split_and!; try done. congruence.
    + apply wp_if; intros _; repeat wp_step; [done|]. intros b [= <-]. cbn. split_and!; try done. congruence.
  - apply wp_if; intros _; [repeat wp_step; intros b [= <-]; by split_and!|]. wp_step. apply wp_zoom. eapply wp_mono; [by apply finish_law| |done]. cbn [fst snd].
    intros [u|e] s' (Hs' & _ & Hr); repeat wp_step; [|done]. intros b [= <-]. destruct Hr as (q & Hq & q' & Hq' & Hle & ->). rewrite Hp in Hq. injection Hq as <-. by split_and!.
Qed.

Lemma recover_leads now n x : account x → follows n x → wp Faulty (recover peer now)
  (λ r x', ∀ u, r = Expected u → ∃ n', n <= n' ∧ follows n' x' ∧ healthy (state_ x') ∧ (recovery_ (pipe_ x) = None → x' = x) ∧ packet_ (pipe_ x') = packet_ (pipe_ x)) (λ _ _, True) x.
Proof.
  intros Hx Hf. unfold recover. wp_step. wp_step. destruct (recovery_ (pipe_ x)) as [r|] eqn:Er.
  2: { wp_step. intros u _. exists n. split_and!; [lia|done|apply Hx|done|done]. }
  destruct (ft_recovery _ (ac_fits _ _ _ Hx) r Er) as [Hu Hland]. destruct (fl_recovery _ _ Hf r Er) as (Hpos & Hid & Hdone). apply wp_try. unfold or_fail. wp_step. unfold on_recovery. apply wp_zoom.
  rewrite Er. cbn [default id]. eapply wp_mono; [apply (step_place n); [apply Hx|done|rewrite Hid; apply Hf|done]| |done].
  intros [b|e] [s' r'] H; wp_step; [|done]. destruct (H b eq_refl) as (H1 & H2 & H3 & H4 & H5). cbn [fst snd] in *. rewrite Hid in *. wp_step. wp_step.
  assert (Hrec : receiving (pipe_ x) = true) by (unfold receiving; rewrite Er; by rewrite orb_true_r). pose proof Hf as [F1 F2 F3 F4 F5 F6 F7 F8]. specialize (F7 Hrec).
  destruct b.
  - destruct H5 as [Hle Hp]. wp_step. wp_step. wp_step. wp_step. wp_step. unfold release. wp_step. wp_step. wp_step. wp_step.
    eapply wp_mono; [apply (note_received_wp (seen_ (pipe_ x))); [done|cbn; congruence]| |done]. intros _ x2 ->. wp_step. intros u _. exists (seen_ (pipe_ x)). rewrite Hpos in *.
    split_and!; [done| |done|done|done]. split; cbn; try done.
    + intros a [= <-]. lia.
    + intros a Ha. specialize (F4 a Ha). lia.
    + intros _. split; [lia|]. rewrite F7. by rewrite seqZ_nil by lia.
  - wp_step. intros u _. exists n. split_and!; [lia| |done|done|done]. split; cbn; try done; [unfold receiving; cbn; by rewrite orb_true_r|]. intros ? [= <-]. split_and!; congruence.
Qed.

(** *** Sending *)

(** A successful look for a packet has applied what waited, 256 events at most. *)
Definition drained {A} (n : Z) x (r : expected A Status) x' : Prop :=
  ∀ u, r = Expected u → ∃ n', n <= n' ∧ follows n' x' ∧
    (packet_ (pipe_ x) = None → receiving (pipe_ x) = false → is_Some (repair_ (pipe_ x')) ∨ n' = Z.min (seen_ (pipe_ x)) (n + 256)).

Lemma prepare_leads now n x : account x → follows n x → wp Faulty (Exchange.prepare peer capacity now) (drained n x) (λ _ _, True) x.
Proof.
  intros Hx Hf. unfold Exchange.prepare. wp_step. wp_step. apply wp_if; intros _; [by wp_step|].
  destruct (packet_ (pipe_ x)) as [k0|] eqn:Ek; [wp_step; intros u _; exists n; split_and!; [lia|done|congruence]|]. apply wp_try.
  eapply wp_mono; [by apply (recover_leads now n)| |done]. intros [u|e] x1 H; [|done]. destruct (H u eq_refl) as (n1 & L1 & Hf1 & Hs1 & Hsame & Hk1). apply wp_try. unfold drain. wp_step. wp_step.
  eapply wp_mono; [by apply (drain_follows _ _ now n1)| |done]. intros [u2|e] x2 H2; [|done]. destruct (H2 u2 eq_refl) as (n2 & L2 & Hs2 & Hf2 & Hr2 & Hseen2 & Hall).
  assert (Hend : receiving (pipe_ x) = false → is_Some (repair_ (pipe_ x2)) ∨ n2 = Z.min (seen_ (pipe_ x)) (n + 256)).
  { intros Hr. assert (Er : recovery_ (pipe_ x) = None) by (unfold receiving in Hr; destruct (recovery_ (pipe_ x)); [by rewrite orb_true_r in Hr|done]). specialize (Hsame Er) as ->.
    destruct (Hall Hr) as [?| ->]; [by left|right]. destruct Hf as [F1 _ _ _ _ _ _ _]. destruct Hf1 as [G1 _ _ _ _ _ _ _]. assert (n1 = n) as -> by congruence. done. }
  wp_step. wp_step. cbv zeta. assert (Hsay : ∀ f, (∀ p, repair_ (f p) = repair_ p) → follows n2 (on_pipe f x2) →
    wp Faulty (alloc ;;; modify (on_pipe f) ;;; x <- read ;; ret (Expected (E := Status) (packet_ (pipe_ x))))
      (drained n x) (λ _ _, True) x2).
  { intros f Hrp Hfw. wp_step. wp_step; [|done]. wp_step. wp_step. wp_step. wp_step. wp_step. intros v _. exists n2. split_and!; [lia|done|]. intros _. cbn. rewrite Hrp. done. }
  pose proof Hf2 as [F1 F2 F3 F4 F5 F6 F7 F8]. apply wp_if; intros _.
  { apply Hsay; [done|]. split; cbn; try done. intros a [[=]|[= <-]]. done. }
  assert (Hack : ∀ a, acknowledgement_ (pipe_ x2) = Some a → follows n2 (on_pipe (say_ack a) x2)).
  { intros a Ha. split; cbn; try done. intros a' [[= <-]|[=]]. by apply F3. }
  assert (Hrep : ∀ r, follows n2 (on_pipe (say_repair r) x2)) by (intros r; split; cbn; try done; intros a' [[=]|[=]]).
  assert (Hsend : wp Faulty (if negb (opened_ (pipe_ x2)) then ret (Expected None) else
      r <- on_sender (Dispatch.prepare (pipe_limits capacity) (λ n, (budget_acquire n (budget_ x2)).1)) ;;
      match r with
      | Unexpected e => ret (Unexpected (sending_error e))
      | Expected k => modify (on_pipe (set_dispatched (bool_decide (is_Some k)))) ;;; ret (Expected (SayData <$> k))
      end) (drained n x) (λ _ _, True) x2).
  { apply wp_if; intros _; [wp_step; intros v _; exists n2; split_and!; [lia|done|by intros _]|]. wp_step. intros f Hff. unfold on_sender.
    destruct (Dispatch.prepare _ _ _ f) as [[[[k|e]|e] [o d]] f'] eqn:Ed; (split; [done|]); [|by wp_step|done]. wp_step. wp_step. wp_step. intros v _.
    exists n2. split_and!; [lia| |by intros _]. by apply (level_follows n2 x2); [done|done|split_and!]. }
  destruct (repair_ (pipe_ x2)) as [rp|]; [destruct (requested_ (pipe_ x2))|]; destruct (acknowledgement_ (pipe_ x2)) as [a|] eqn:Ea; try done; try (apply Hsay; [done|by apply Hack]);
    (apply Hsay; [done|by apply Hrep]).
Qed.

Lemma take_leads n x : follows n x → wp Faulty Exchange.take (λ k x', follows n x' ∧ ∀ a, k = SayAck a ∨ k = SayResume a → a <= n) (λ _ _, True) x.
Proof.
  intros Hf. unfold Exchange.take. wp_step. wp_step. apply wp_if; intros _.
  - wp_step. wp_step. wp_step. intros f Hff. unfold on_sender. destruct (dispatched _ f) as [[[k|e] [o d]] f']; (split; [done|]); [|done]. wp_step.
    split; [by apply (level_follows n x); [done|done|split_and!]|by intros a [|]].
  - destruct (packet_ (pipe_ x)) as [k|] eqn:Ek; [|by wp_step]. wp_step. wp_step. wp_step. destruct Hf as [F1 F2 F3 F4 F5 F6 F7 F8].
    split; [split; cbn; try done; by intros a []|]. intros a [->| ->]; apply F4; tauto.
Qed.

Lemma resume_leads position n x : follows n x → wp Faulty (pipe_resume capacity position) (λ r x', leads n r x') (λ _ _, True) x.
Proof.
  intros Hf. unfold pipe_resume. wp_step. apply wp_zoom. eapply wp_mono; [apply wp_true| |done]. intros [u|e] q _; [|by wp_step]. wp_step. wp_step. wp_step.
  intros v _. exists n. split; [lia|]. by apply (level_follows n x); [done|done|split_and!].
Qed.

Lemma acknowledged_leads position n x : follows n x → wp Faulty (pipe_acknowledged position) (λ _ x', follows n x') (λ _ _, True) x.
Proof.
  intros Hf. unfold pipe_acknowledged. wp_step. wp_step. destruct (Dispatch.acknowledge _ _) as [ok d]. wp_step. wp_step. wp_step. by apply (level_follows n x); [done|done|split_and!].
Qed.

(** While a baseline is being installed the events that continue it are turned away, as
    if they were out of order. *)
Theorem installing_refuses_next r m now x f :
  recovery_ (pipe_ x) = Some r → changes_valid key_valid action_valid m = true → misplaced m (pipe_ x) = false →
  changes peer m now x f = (Done (Unexpected status_protocol), x, f).
Proof. intros Hr Hv Hm. unfold changes, bind, read. by rewrite Hr, orb_true_r. Qed.

Lemma make_follows now (s : St) f p s' f' b n :
  healthy s → pipe_make peer capacity now s f = (Done p, s', f') → place_of peer s = Some n → follows n {| state_ := s'; budget_ := b; pipe_ := p |}.
Proof.
  intros Hs. pose proof (received_law peer s Hs) as Hr. unfold pipe_make, Dispatch.make, bind, lift, ret, throw. destruct (_ || _); [done|].
  specialize (Hr f I). destruct (st_received peer s f) as [[[[q|e]|e] s1] f1]; try done. destruct Hr as (_ & -> & Hq). intros [= <- <- <-]. rewrite Hq. intros [= <-].
  split; cbn; try done; [by intros a []|]. intros _. split; [lia|]. by rewrite seqZ_nil by lia.
Qed.
End order.

(** ** Histories *)
Section histories.
Context {Item : Type} {layout : Layout Item} {wire : Wire Item} {patching : Patching Item} {store : Store Item} {lawful : Lawful Item}.
Context (binary : bool) {carried : Carried Item binary} (peer : string) (capacity : Z).
Implicit Types (x : Site Item) (p : Pipe Item).

(** What happens to a pipe of a stream that goes on: its operations succeed, others use
    the budget (of which they hold [base]) and work on the state, but nobody else moves
    the peer's source. *)
Inductive proceeds : Site Item * Z → Site Item * Z → Prop :=
| proceeds_changes x base m now f u x' f' :
    0 <= changes_bytes m → changes peer m now x f = (Done (Expected u), x', f') → proceeds (x, base) (x', base)
| proceeds_snapshot x base exclusive clock page now f u x' f' :
    0 <= snapshot_bytes page → is_u64 (snapshot_position page) → snapshot binary peer draft_limits exclusive clock page now x f = (Done (Expected u), x', f') →
    proceeds (x, base) (x', base)
| proceeds_repaired x base r now f u x' f' : repaired peer r now x f = (Done (Expected u), x', f') → proceeds (x, base) (x', base)
| proceeds_resume x base position f u x' f' : pipe_resume capacity position x f = (Done (Expected u), x', f') → proceeds (x, base) (x', base)
| proceeds_acknowledged x base position f x' f' : pipe_acknowledged position x f = (Done true, x', f') → proceeds (x, base) (x', base)
| proceeds_prepare x base now f k x' f' : Exchange.prepare peer capacity now x f = (Done (Expected k), x', f') → proceeds (x, base) (x', base)
| proceeds_take x base f k x' f' : Exchange.take x f = (Done k, x', f') → proceeds (x, base) (x', base)
| proceeds_outside x base base' s :
    0 <= base' → used (budget_ x) - base + base' <= maximum (budget_ x) → healthy s → place_of peer s = place_of peer (state_ x) →
    proceeds (x, base) ({| state_ := s; budget_ := {| used := used (budget_ x) - base + base'; maximum := maximum (budget_ x) |}; pipe_ := pipe_ x |}, base').

Definition standing (start most : Z) (a : Site Item * Z) : Prop := account most a.2 a.1 ∧ ∃ n, start <= n ∧ follows peer n a.1.

Lemma standing_run {A} (m : eff (Site Item) A) (ok : A → Prop) start most base x f r x' f' :
  standing start most (x, base) → keeps most base m →
  (∀ n, account most base x → follows peer n x → wp Faulty m (λ r x', ok r → ∃ n', n <= n' ∧ follows peer n' x') (λ _ _, True) x) →
  m x f = (Done r, x', f') → ok r → standing start most (x', base).
Proof.
  intros [Hx (n & Hn & Hf)] Hk Hl E Hok. specialize (Hk x Hx f I). specialize (Hl n Hx Hf f I). rewrite E in Hk, Hl. split; [apply Hk|].
  destruct (proj2 Hl Hok) as (n' & ? & ?). exists n'. split; [lia|done].
Qed.

Lemma proceeds_standing start most a b : proceeds a b → standing start most a → standing start most b.
Proof.
  assert (Hw : ∀ A n (m : eff (Site Item) (expected A Status)) x, wp Faulty m (λ r x', leads peer n r x') (λ _ _, True) x →
    wp Faulty m (λ r x', (∃ u, r = Expected u) → ∃ n', n <= n' ∧ follows peer n' x') (λ _ _, True) x).
  { intros A n m x H. eapply wp_mono; [exact H| |done]. intros r x' Hl [u Hu]. by apply (Hl u). }
  intros [x base m now f u x' f' Hb E|x base ex cl page now f u x' f' Hb Hu E|x base r now f u x' f' E|x base q f u x' f' E|x base q f x' f' E|x base now f k x' f' E|x base f k x' f' E|x base base' s Hb Hle Hs Hp] Hst.
  - eapply (standing_run _ (λ r, ∃ u, r = Expected u)); [done|by apply changes_keeps| |done|by eexists]. intros n Hx Hf. by eapply Hw, changes_leads.
  - eapply (standing_run _ (λ r, ∃ u, r = Expected u)); [done|by apply snapshot_keeps| |done|by eexists]. intros n Hx Hf. by eapply Hw, snapshot_leads.
  - eapply (standing_run _ (λ r, ∃ u, r = Expected u)); [done|by apply repaired_keeps| |done|by eexists]. intros n Hx Hf. by eapply Hw, repaired_leads.
  - eapply (standing_run _ (λ r, ∃ u, r = Expected u)); [done|by apply resume_keeps| |done|by eexists]. intros n Hx Hf. by eapply Hw, resume_leads.
  - eapply (standing_run _ (λ _, True)); [done|by apply acknowledged_keeps| |done|done]. intros n Hx Hf. eapply wp_mono; [by apply acknowledged_leads| |done]. intros r x1 H _. by exists n.
  - eapply (standing_run _ (λ r, ∃ u, r = Expected u)); [done|by apply pipe_prepare_keeps| |done|by eexists]. intros n Hx Hf. eapply wp_mono; [by eapply prepare_leads| |done].
    intros r x1 H [u Hu]. destruct (H u Hu) as (n' & ? & ? & _). by exists n'.
  - eapply (standing_run _ (λ _, True)); [done|by apply pipe_take_keeps| |done|done]. intros n Hx Hf. eapply wp_mono; [by apply take_leads| |done]. intros r x1 [H _] _. by exists n.
  - destruct Hst as [[A1 A2 A3 A4 (A5 & A6 & A7)] (n & Hn & Hf)]. cbn [fst snd] in *. split.
    + split; cbn; try done; lia.
    + exists n. split; [done|]. by apply (level_follows peer n x); [done|done|split_and!].
Qed.

(** C13. The replication stream keeps the order of its source.  While a stream goes on,
    whatever packets arrive and however its calls are interleaved with the rest of the
    system: the events that wait are exactly the successors of the position the peer's
    source has reached here, without gap or repetition; that position never falls back;
    every position put on the stream as an acknowledgement or a resumption is installed;
    and a call of [prepare] that succeeds has applied all waiting events, 256 at most,
    unless it waits for a repair. *)
Theorem stream_in_order most now (s : St) f p s' f' b start x base :
  healthy s → place_of peer s = Some start → pipe_make peer capacity now s f = (Done p, s', f') →
  0 <= used b <= maximum b → maximum b = most → most <= u64_max →
  rtc proceeds ({| state_ := s'; budget_ := b; pipe_ := p |}, used b) (x, base) →
  ∃ n, start <= n ∧ place_of peer (state_ x) = Some n ∧
    (receiving (pipe_ x) = false → unapplied (pending_ (pipe_ x)) = seqZ (n + 1) (seen_ (pipe_ x) - n)) ∧
    (∀ g k x' g' a, Exchange.take x g = (Done k, x', g') → k = SayAck a ∨ k = SayResume a → a <= n) ∧
    (∀ t g k x' g', Exchange.prepare peer capacity t x g = (Done (Expected k), x', g') → packet_ (pipe_ x) = None → receiving (pipe_ x) = false →
       is_Some (repair_ (pipe_ x')) ∨ place_of peer (state_ x') = Some (Z.min (seen_ (pipe_ x)) (n + 256))).
Proof.
  intros Hs Hp Hm Hb Hmx Hmost Hr. assert (Hst : standing start most (x, base)).
  { apply (rtc_ind_r (R := proceeds) (standing start most) ({| state_ := s'; budget_ := b; pipe_ := p |}, used b)); [| |done].
    - destruct (make_fits _ _ _ _ _ _ _ _ Hs Hm) as (F1 & G1 & Es). split; [|exists start; split; [lia|by eapply make_follows]]. subst s'. split; cbn; try done; lia.
    - intros y z _ Hyz Hy. by eapply proceeds_standing. }
  destruct Hst as [Hx (n & Hn & Hf)]. cbn [fst snd] in *. exists n. split; [done|]. split; [apply Hf|]. split; [intros H; by apply Hf|]. split.
  - intros g k x' g' a E Hk. pose proof (take_leads peer n x Hf g I) as Ht. rewrite E in Ht. by apply Ht.
  - intros t g k x' g' E Hk Hrc. pose proof (prepare_leads peer capacity most base t n x Hx Hf g I) as Hd. rewrite E in Hd. destruct Hd as [_ Hd].
    destruct (Hd k eq_refl) as (n' & _ & Hf' & H). destruct (H Hk Hrc) as [?| ->]; [by left|right]. apply Hf'.
Qed.
End histories.
