(* ===== verification/Replication.v ===== *)
(** Replication of both domains: the switches of a pipe on its domain ([Patching]) for the
    Catalog and the Ephemeris, and a sample stream over plain states. *)
From stdpp Require Import base numbers strings gmap list list_numbers.
From S2P Require Import Prelude.
From S2P Require Import Scope.
From S2P Require Import Catalog.
From S2P Require Import Ephemeris.
From S2P Require Import Index.
From S2P Require Import Origin.
From S2P Require Import CatalogState.
From S2P Require Import CatalogRun.
From S2P Require Import Parcel.
From S2P Require Import Dispatch.
From S2P Require Import Landing.
From S2P Require Import Wires.
From S2P Require Import Restore.
From S2P Require Import Lawful.
From S2P Require Import Exchange.
From S2P Require Import ExchangeAccounts.
From S2P Require Import ExchangeOrder.

(** [sizeof] of the queues' elements and [ByteSizeLong] of an answer. *)
Record Extents (Message : Type) := { of_pending : Z; of_response : Z; of_repaired : Repaired Message → Z }.
Arguments of_pending {Message}.
Arguments of_response {Message}.
Arguments of_repaired {Message}.
Definition extents_ok {Message} (e : Extents Message) : Prop := 0 < of_pending e ∧ 0 < of_response e ∧ ∀ r, 0 <= of_repaired e r.

Definition catalog_patching ms (e : Extents CatalogMessage) (He : extents_ok e) : Patching Catalog.record (wire := catalog_wire ms) :=
  {| realm := realm_catalog; effect_of := catalog_effect : @Action _ (catalog_wire ms) → _; asked_version := catalog_asked; version_wanted := true;
     sizeof_pending := of_pending e; sizeof_response := of_response e; repaired_size := of_repaired e : Repaired (@Message _ (catalog_wire ms)) → Z; patch_sizes := He |}.
Definition ephemeris_patching ms (e : Extents EphemerisMessage) (He : extents_ok e) : Patching Ephemeris.record (wire := ephemeris_wire ms) :=
  {| realm := realm_ephemeris; effect_of := ephemeris_effect : @Action _ (ephemeris_wire ms) → _; asked_version := λ _, 0; version_wanted := false;
     sizeof_pending := of_pending e; sizeof_response := of_response e; repaired_size := of_repaired e : Repaired (@Message _ (ephemeris_wire ms)) → Z; patch_sizes := He |}.

(** ** A sample stream *)
Module Sample.
Local Open Scope string_scope.
Local Open Scope Z_scope.
Import Wires.Sample.

#[local] Instance sizes : Sizes := CatalogRun.Sample.sizes.
#[local] Instance sightings : Layout Ephemeris.record.
Proof. refine {| Index.measure := λ _, 64; sizeof_event := 96; sizeof_name := 48; sizeof_item := 72 |}; [intros; unfold u64_max; lia|lia]. Defined.
#[local] Instance catalog_port : Wire Catalog.record := catalog_wire measures.
#[local] Instance ephemeris_port : Wire Ephemeris.record :=
  ephemeris_wire {| of_delta := λ _, 100; of_entry := λ _, 100; of_changes := λ _ ds, 100 * Z.of_nat (length ds); of_snapshot := λ _ es _, 100 * Z.of_nat (length es) |}.
#[local] Instance catalog_switch : Patching Catalog.record.
Proof. apply (catalog_patching measures {| of_pending := 56; of_response := 48; of_repaired := λ _, 120 |}). by split_and!. Defined.
#[local] Instance ephemeris_switch : Patching Ephemeris.record.
Proof. eapply (ephemeris_patching _ {| of_pending := 56; of_response := 48; of_repaired := λ _, 120 |}). by split_and!. Defined.
#[local] Instance catalog_store : Store Catalog.record := plain_store limits.
#[local] Instance ephemeris_store : Store Ephemeris.record := plain_store limits.
#[local] Instance catalog_lawful : Lawful Catalog.record := plain_lawful limits port_limits_fine.
#[local] Instance ephemeris_lawful : Lawful Ephemeris.record := plain_lawful limits port_limits_fine.

(** Both states know the peer; the budget is used by others already. *)
Definition known {Item} : Plain (Item := Item) := {| own := blank; sources := {["peer" := (0, ∅)]} |}.
Definition known_catalog : St (Store := catalog_store) := known (Item := Catalog.record).
Definition known_ephemeris : St (Store := ephemeris_store) := known (Item := Ephemeris.record).
Definition purse : Budget := {| used := 100; maximum := 100000000 |}.
Definition session : Type := Session Catalog.record Ephemeris.record.
Definition sur : Surroundings := {| exclusive := λ _, false; clock := λ _, 0 |}.

Lemma known_healthy {Item} : plain_healthy (known (Item := Item)).
Proof. split; [done|]. cbn. intros id q m H. apply lookup_singleton_Some in H as [_ [= <- _]]. done. Qed.

(** A packet of two Catalog events, the first page of a baseline of the Ephemeris, a
    refused answer, and a search for something to send. *)
Definition event_at (p : Z) (k : string) : Delta CatalogAction :=
  {| delta_position := p; delta_scope := to_scope east; delta_key := k;
     delta_action := CatalogFull {| message_version := p; message_body := BodyValue [Byte.x2a] 900 |} |}.
Definition two_events : Changes CatalogAction := {| changes_entries := [event_at 1 "k"; event_at 2 "j"]; changes_head := 2; changes_bytes := 120 |}.
Definition a_page : Snapshot EphemerisMessage :=
  {| snapshot_position := 7;
     snapshot_entries := [{| entry_scope := to_scope east; entry_key := "0123456789abcdef";
       entry_record := Some {| message_attr := [Byte.x2a]; message_data := [Byte.x2b]; message_deadline := 900; message_update := 1; message_renewal := 1; message_ttl := 500 |} |}];
     snapshot_complete := false; snapshot_bytes := 90 |}.

Definition still {Item} {wire : Wire Item} : Dispatch Item :=
  {| baseline_ := None; Dispatch.packet_ := None; sent_ := 0; acknowledged_ := 0; position_next_ := 0; Dispatch.offset_ := 0; offset_next_ := 0;
     retained_ := 0; Dispatch.opened_ := false; initial_ := true |}.
Definition at_start : session :=
  Build_Session (A := Catalog.record) (B := Ephemeris.record) known_catalog known_ephemeris purse
    (Build_Exchange (A := Catalog.record) (B := Ephemeris.record) (pipe_blank still 0 0) (pipe_blank still 0 0) [] 0 0 0).
Example opened : exchange_make (A := Catalog.record) (B := Ephemeris.record) "peer" 1048576 0 known_catalog known_ephemeris purse = Done at_start.
Proof. reflexivity. Qed.
Definition events_message : Body Catalog.record Ephemeris.record := MessageCatalogChanges (A := Catalog.record) (B := Ephemeris.record) two_events.
Definition page_message : Body Catalog.record Ephemeris.record := MessageEphemerisSnapshot (A := Catalog.record) (B := Ephemeris.record) a_page.
Definition listen (k : Body Catalog.record Ephemeris.record) : eff session (expected unit Status) :=
  receive "peer" 1048576 (draft_limits (Item := Catalog.record)) (draft_limits (Item := Ephemeris.record)) sur k 10.
Definition hear (k : Body Catalog.record Ephemeris.record) (x : session) : session := (listen k x []).1.2.
Definition heard : session := hear page_message (hear events_message at_start).
Definition sought : session := (exchange_prepare "peer" 1048576 20 heard []).1.2.

Example sample_numbers :
  (used (shared heard), received_ (catalog_ (exchange_ heard)), acknowledgement_ (catalog_ (exchange_ heard)), held (ephemeris_ (exchange_ heard)),
   selected_ (exchange_ sought)) = (100 + 67108864, 2, Some 2, 67108864, 1).
Proof. vm_compute. reflexivity. Qed.

(** Meanwhile the others give 60 bytes back. *)
Definition meanwhile (x : session) : session :=
  Build_Session (A := Catalog.record) (B := Ephemeris.record) (catalog_state x) (ephemeris_state x)
    {| used := used (shared x) - 100 + 40; maximum := maximum (shared x) |} (exchange_ x).
Definition seek (x : session) : session := (exchange_prepare "peer" 1048576 20 x []).1.2.
Definition finally : session := seek (meanwhile heard).

Lemma ran {S A} (m : eff S A) s f : m s f = ((m s f).1.1, (m s f).1.2, (m s f).2).
Proof. by destruct (m s f) as [[]]. Qed.

Lemma hear_happens k x outer : sensible k → happens (A := Catalog.record) (B := Ephemeris.record) "peer" 1048576 (x, outer) (hear k x, outer).
Proof. intros Hk. exact (happens_receive "peer" 1048576 x outer sur k 10 [] _ _ _ Hk (ran (listen k) x [])). Qed.
Lemma seek_happens x outer : happens (A := Catalog.record) (B := Ephemeris.record) "peer" 1048576 (x, outer) (seek x, outer).
Proof. exact (happens_prepare "peer" 1048576 x outer 20 [] _ _ _ (ran (exchange_prepare "peer" 1048576 20) x [])). Qed.

Lemma catalog_begins : healthy known_catalog.
Proof. apply known_healthy. Qed.
Lemma ephemeris_begins : healthy known_ephemeris.
Proof. apply known_healthy. Qed.

Lemma start_sound : sound 100 at_start.
Proof. by apply (opening_sound (A := Catalog.record) (B := Ephemeris.record) "peer" 1048576 0 known_catalog known_ephemeris purse _ catalog_begins ephemeris_begins). Qed.

Lemma events_sensible : sensible events_message.
Proof. unfold sensible, events_message. by vm_compute. Qed.
Lemma page_sensible : sensible page_message.
Proof. unfold sensible, page_message. split; [by vm_compute|]. unfold is_u64, u64_max. cbn. lia. Qed.

Lemma first_step : happens (A := Catalog.record) (B := Ephemeris.record) "peer" 1048576 (at_start, 100) (hear events_message at_start, 100).
Proof. exact (hear_happens events_message at_start 100 events_sensible). Qed.
Lemma second_step : happens (A := Catalog.record) (B := Ephemeris.record) "peer" 1048576 (hear events_message at_start, 100) (heard, 100).
Proof. unfold heard. exact (hear_happens page_message (hear events_message at_start) 100 page_sensible). Qed.
Lemma heard_sound : sound 100 heard.
Proof. exact (happens_onward _ _ _ _ _ _ second_step (happens_onward _ _ _ _ _ _ first_step start_sound)). Qed.
Lemma third_step : happens (A := Catalog.record) (B := Ephemeris.record) "peer" 1048576 (heard, 100) (meanwhile heard, 40).
Proof.
  destruct heard_sound as [_ [H1 H2]]. unfold meanwhile. apply happens_outside; [lia| |exact H1|exact H2].
  assert (Eu : used (shared heard) = 67108964) by (vm_compute; reflexivity). assert (Em : maximum (shared heard) = 100000000) by (vm_compute; reflexivity).
  rewrite Eu, Em. lia.
Qed.

Lemma sample_history : rtc (happens (A := Catalog.record) (B := Ephemeris.record) "peer" 1048576) (at_start, 100) (finally, 40).
Proof.
  apply (rtc_l _ _ _ _ first_step), (rtc_l _ _ _ _ second_step), (rtc_l _ _ _ _ third_step), rtc_once. unfold finally. exact (seek_happens (meanwhile heard) 40).
Qed.

Lemma exchange_accounts_witness : balanced 40 finally ∧ used (shared finally) = 40 + 64 * 1024 * 1024.
Proof.
  split; [|vm_compute; reflexivity].
  apply (exchange_accounts (A := Catalog.record) (B := Ephemeris.record) "peer" 1048576 0 known_catalog known_ephemeris purse at_start finally 40
    catalog_begins ephemeris_begins ltac:(cbn; lia) ltac:(cbn; unfold u64_max; lia) opened sample_history).
Defined.

(** The Catalog's pipe alone: it is given two events, looks for something to say and asks
    the peer to resume. *)
Definition pipe_start : Site Catalog.record := {| state_ := known_catalog; budget_ := purse; pipe_ := pipe_blank still 0 0 |}.
Definition feed : eff (Site Catalog.record) (expected unit Status) := changes (Item := Catalog.record) "peer" two_events 10.
Definition fed : Site Catalog.record := (feed pipe_start []).1.2.
Definition look : eff (Site Catalog.record) (expected (option (Outgoing Catalog.record)) Status) := Exchange.prepare (Item := Catalog.record) "peer" 1048576 20.
Definition looked : Site Catalog.record := (look fed []).1.2.

(** A run that succeeds. *)
Definition went_well {A E} (r : outcome (expected A E)) : bool := match r with Done (Expected _) => true | _ => false end.
Lemma ran_well {S A E} (m : eff S (expected A E)) s f : went_well (m s f).1.1 = true → ∃ u, m s f = (Done (Expected u), (m s f).1.2, (m s f).2).
Proof. intros H. destruct (m s f) as [[[[u|e]|e] s'] f']; [|done..]. by exists u. Qed.

Lemma feed_proceeds x base : went_well (feed x []).1.1 = true → proceeds (Item := Catalog.record) false "peer" 1048576 (x, base) ((feed x []).1.2, base).
Proof. intros [u E]%ran_well. unfold feed in *. exact (proceeds_changes false "peer" 1048576 x base two_events 10 [] u _ _ ltac:(by vm_compute) E). Qed.
Lemma look_proceeds x base : went_well (look x []).1.1 = true → proceeds (Item := Catalog.record) false "peer" 1048576 (x, base) ((look x []).1.2, base).
Proof. intros [u E]%ran_well. unfold look in *. exact (proceeds_prepare false "peer" 1048576 x base 20 [] u _ _ E). Qed.

Lemma fed_step : proceeds (Item := Catalog.record) false "peer" 1048576 (pipe_start, 100) (fed, 100).
Proof. assert (E : went_well (feed pipe_start []).1.1 = true) by (vm_compute; reflexivity). unfold fed. exact (feed_proceeds pipe_start 100 E). Qed.
Lemma looked_step : proceeds (Item := Catalog.record) false "peer" 1048576 (fed, 100) (looked, 100).
Proof. assert (E : went_well (look fed []).1.1 = true) by (vm_compute; reflexivity). unfold looked. exact (look_proceeds fed 100 E). Qed.

Lemma pipe_history : rtc (proceeds (Item := Catalog.record) false "peer" 1048576) (pipe_start, 100) (looked, 100).
Proof. apply (rtc_l _ _ _ _ fed_step), rtc_once, looked_step. Qed.

Lemma stream_in_order_witness : ∃ n, 0 <= n ∧ place_of "peer" (state_ looked) = Some n ∧
  ∀ g k x' g' a, Exchange.take looked g = (Done k, x', g') → k = SayAck a ∨ k = SayResume a → a <= n.
Proof.
  destruct (stream_in_order false "peer" 1048576 100000000 0 known_catalog [] (pipe_blank still 0 0) known_catalog [] purse 0 looked 100
    catalog_begins eq_refl eq_refl ltac:(cbn; lia) eq_refl ltac:(unfold u64_max; lia) pipe_history) as (n & H1 & H2 & _ & H3 & _).
  exists n. exact (conj H1 (conj H2 H3)).
Defined.

(** A state with no room for the scope [east] until [west] is in place. *)
Definition cramped : Store Catalog.record :=
  {| St := bool; Failure := Kind; kind e := e; own_source _ := blank;
     st_received _ := ret (Expected 0); st_covered _ _ _ _ := ret (Expected false); st_replica _ _ _ := ret (Expected None);
     st_apply _ _ _ _ _ _ := ret (Unexpected kind_other); st_repair _ _ _ _ _ := ret (Unexpected kind_other);
     st_resolve _ _ := ret (Expected (0, None)); st_prepare _ _ := ret (Unexpected kind_other); st_restore _ _ := ret (Expected []);
     st_install _ _ sc := room <- read ;;
       if negb (bool_decide (sc = east)) then modify (λ _, true) ;;; ret (Expected tt)
       else ret (if (room : bool) then Expected tt else Unexpected kind_capacity);
     st_finish _ _ := ret (Expected tt) |}.
Definition west : Scope := {| sector := "west"; spectrum := "a" |}.
Definition a_draft : Origin.Draft (Item := Catalog.record) := {| Origin.candidate := None; Origin.draft_position := 7 |}.
Definition five_steps : list ((bool → bool) * faults) := replicate 5 (λ room, room, []).
Definition settled : progress cramped := foldl (take_step cramped) (begin_task cramped false "peer" a_draft [east; west]) five_steps.

Lemma restore_settles_witness :
  Done (Expected true) ∈ answers cramped settled ∧ installed cramped (calls cramped settled) ≡ₚ [east; west] ∧ confirmed cramped (calls cramped settled) = [7].
Proof.
  assert (Hd : Done (Expected true) ∈ answers cramped settled) by (vm_compute; repeat (first [left; reflexivity|right])).
  destruct (restore_settles cramped false "peer" a_draft [east; west] five_steps) as (_ & _ & H & _). destruct (H Hd) as (H1 & H2 & _).
  exact (conj Hd (conj H1 H2)).
Defined.
End Sample.
