(* ===== verification/Ledger.v ===== *)
(** The membership ledger of Pulsar: [pulsar/src/ledger.cpp] and [ledger.hpp], with
    [Identity::role], [Identity::encode] and [decode_member] of
    [common/src/identity.cpp].

    A registration is checked against the current members and the start requests seen
    so far, prepared in memory, made durable by one SQLite transaction over two tables,
    and only then shown to readers.  A process may die at any point and any call of the
    database may fail, a COMMIT even after it has taken effect.  A restart rebuilds the
    view from the tables and refuses contents that do not belong together.

    SQL is modelled by what the fixed statements of the source do to the tables, the
    constraints of the schema included; a call fails when the fault script says so.
    Protobuf is the class [Protobuf]. *)
From Stdlib Require Import Ascii.
From stdpp Require Import base numbers strings gmap sets list sorting countable.
From S2P Require Import Prelude.
From S2P Require Import Scope.
From S2P Require Import Types.

(** ** Messages *)

(** [proto.orbit.v1.Member]; an open enumeration is its number. *)
Record OrbitMember := {
  orbit_galaxy : string; orbit_id : string; orbit_principal : string; orbit_advertise : string;
  orbit_epoch : Z; orbit_role : Z; orbit_group : string
}.

Definition ROLE_UNSPECIFIED : Z := 0.
Definition ROLE_STAR : Z := 1.
Definition ROLE_PLANET : Z := 2.
Definition ROLE_POLARIS : Z := 3.
Definition ROLE_ASTROLABE : Z := 4.

(** [Identity::role] of a message. *)
Definition role_of (value : Z) : Result Role :=
  if value =? ROLE_STAR then Expected star
  else if value =? ROLE_PLANET then Expected planet
  else if value =? ROLE_POLARIS then Expected polaris
  else if value =? ROLE_ASTROLABE then Expected astrolabe
  else Unexpected identity.

(** [Identity::role] of a member. *)
Definition role_number (r : Role) : Z :=
  match r with star => ROLE_STAR | planet => ROLE_PLANET | polaris => ROLE_POLARIS | astrolabe => ROLE_ASTROLABE end.

(** The bytes of a digest as a string, and back. *)
Definition digest_bytes (p : Principal.Principal) : string := of_chars (chr <$> Principal.bytes p).
Definition digest_of (s : string) : Principal.Principal := {| Principal.bytes := ord <$> chars s |}.

(** [Identity::encode]. *)
Definition encode (m : Member) : OrbitMember :=
  {| orbit_galaxy := galaxy m; orbit_id := id m; orbit_principal := digest_bytes (principal m);
     orbit_advertise := Endpoint.text (address m); orbit_epoch := epoch m; orbit_role := role_number (role m);
     orbit_group := group m |}.

Definition set_principal (s : string) (m : OrbitMember) : OrbitMember :=
  {| orbit_galaxy := orbit_galaxy m; orbit_id := orbit_id m; orbit_principal := s; orbit_advertise := orbit_advertise m;
     orbit_epoch := orbit_epoch m; orbit_role := orbit_role m; orbit_group := orbit_group m |}.

Definition ascii_text (s : string) : Prop := Forall (λ c, ord c < 128) (chars s).

(** Messages whose text fields are plain and whose numbers fit their types. *)
Definition orbit_ok (m : OrbitMember) : Prop :=
  ascii_text (orbit_galaxy m) ∧ ascii_text (orbit_advertise m) ∧ ascii_text (orbit_group m) ∧
  is_u64 (orbit_epoch m) ∧ 0 <= orbit_role m < 128.

(** [SerializeAsString] and [ParseFromArray]: a message written is read back. *)
Class Protobuf := {
  serialize : OrbitMember → string;
  parse_message : string → option OrbitMember;
  parse_serialize : ∀ m, orbit_ok m → parse_message (serialize m) = Some m
}.

Section messages.
Context `{Inet}.

(** [decode_member]. *)
Definition decode_member (value : OrbitMember) : Result Member :=
  if negb (String.length (orbit_principal value) =? 32)%nat then Unexpected identity
  else
    match Endpoint.parse (orbit_advertise value) false, role_of (orbit_role value) with
    | Expected a, Expected r =>
        if negb (valid_id (orbit_id value)) || negb (String.eqb (Endpoint.text a) (orbit_advertise value))
        then Unexpected identity
        else
          let result :=
            {| galaxy := orbit_galaxy value; id := orbit_id value; principal := digest_of (orbit_principal value);
               address := a; epoch := orbit_epoch value; role := r; group := orbit_group value |} in
          match validate result with Expected _ => Expected result | Unexpected e => Unexpected e end
    | _, _ => Unexpected identity
    end.
End messages.

(** ** Failing calls *)

(** A call of the system or of SQLite whose failure [Database::require] reports. *)
Definition io {S} : eff S unit :=
  λ s f,
    match f with
    | true :: f' => (Thrown runtime_error, s, f')
    | false :: f' => (Done tt, s, f')
    | [] => (Done tt, s, [])
    end.

(** Something the process does not learn. *)
Definition hidden {S} : eff S bool :=
  λ s f, match f with b :: f' => (Done b, s, f') | [] => (Done false, s, []) end.

(** [try m catch (...) { h; }]. *)
Definition catching {S A} (m h : eff S A) : eff S A :=
  λ s f, match m s f with (Thrown _, s', f') => h s' f' | r => r end.

(** [Database::require]. *)
Definition require {S} (condition : bool) : eff S unit := if condition then ret tt else throw runtime_error.

(** ** Tables *)

(** The three tables: the one row of [metadata], [members] and [starts]. *)
Record Tables := {
  meta_galaxy : string;
  meta_authority : string;
  member_rows : gmap string string;
  start_rows : gmap string (string * string)
}.

(** The state file: missing, created without a schema, or a database. *)
Inductive File := Absent | Blank | Stored (t : Tables).

(** [Ledger::Start]. *)
Record Start := { start_principal : string; start_epoch : Z }.

Abbreviation Members := (gmap string Member).
Abbreviation Starts := (gmap string Start).

(** The members of [Ledger]. *)
Record Ledger := {
  members_ : Members;
  starts_ : Starts;
  galaxy_ : string;
  maximum_ : Z;
  maximum_starts_ : Z;
  writable_ : bool
}.

(** A process with its ledger, the open transaction of its connection, and the file. *)
Record Site := { file_ : File; transaction_ : option Tables; ledger_ : Ledger }.

Definition set_file (x : File) (s : Site) : Site := {| file_ := x; transaction_ := transaction_ s; ledger_ := ledger_ s |}.
Definition set_transaction (x : option Tables) (s : Site) : Site :=
  {| file_ := file_ s; transaction_ := x; ledger_ := ledger_ s |}.
Definition set_ledger (x : Ledger) (s : Site) : Site := {| file_ := file_ s; transaction_ := transaction_ s; ledger_ := x |}.

(** ** Statements *)

(** [BEGIN] and [BEGIN IMMEDIATE]. *)
Definition begin_sql : eff Site unit :=
  io ;;;
  s <- read ;;
  match transaction_ s, file_ s with
  | None, Stored t => modify (set_transaction (Some t))
  | _, _ => throw runtime_error
  end.

(** [COMMIT]: an error says neither whether the transaction has become durable nor
    whether it is still open. *)
Definition commit_sql : eff Site unit :=
  s <- read ;;
  match transaction_ s with
  | None => throw runtime_error
  | Some t =>
      failed <- hidden ;;
      if failed : bool then
        landed <- hidden ;;
        if landed : bool then modify (set_file (Stored t)) ;;; modify (set_transaction None) ;;; throw runtime_error
        else
          open <- hidden ;;
          (if open : bool then ret tt else modify (set_transaction None)) ;;; throw runtime_error
      else modify (set_file (Stored t)) ;;; modify (set_transaction None)
  end.

(** [Database::rollback]. *)
Definition rollback : eff Site bool :=
  s <- read ;;
  match transaction_ s with
  | None => ret true
  | Some _ =>
      failed <- hidden ;;
      if failed : bool then ret false else modify (set_transaction None) ;;; ret true
  end.

(** [Query::text] and [Query::blob] bind at most 2048 bytes. *)
Definition bind_value (value : string) : eff Site unit := require (String.length value <=? 2048)%nat ;;; io.

(** [INSERT INTO members ... ON CONFLICT(principal) DO UPDATE]. *)
Definition upsert_member (principal body : string) : eff Site unit :=
  io ;;;
  s <- read ;;
  match transaction_ s with
  | None => throw runtime_error
  | Some t =>
      require ((String.length principal =? 64)%nat && (1 <=? String.length body)%nat && (String.length body <=? 1024)%nat) ;;;
      modify (set_transaction (Some {| meta_galaxy := meta_galaxy t; meta_authority := meta_authority t;
                                       member_rows := <[principal := body]> (member_rows t); start_rows := start_rows t |}))
  end.

(** [INSERT INTO starts]: the primary key, the reference to [members] and the unique
    pair are checked. *)
Definition insert_start (request principal epoch : string) : eff Site unit :=
  io ;;;
  s <- read ;;
  match transaction_ s with
  | None => throw runtime_error
  | Some t =>
      require ((String.length request =? 32)%nat && (String.length epoch =? 8)%nat
               && negb (bool_decide (is_Some (start_rows t !! request)))
               && bool_decide (is_Some (member_rows t !! principal))
               && forallb (λ r, negb (bool_decide (r.2 = (principal, epoch)))) (map_to_list (start_rows t))) ;;;
      modify (set_transaction (Some {| meta_galaxy := meta_galaxy t; meta_authority := meta_authority t;
                                       member_rows := member_rows t;
                                       start_rows := <[request := (principal, epoch)]> (start_rows t) |}))
  end.

(** [SELECT ... FROM starts ORDER BY principal,epoch]; text and blobs compare by their
    bytes. *)
Definition start_le (a b : string * (string * string)) : Prop :=
  if bool_decide (a.2.1 = b.2.1) then String.le a.2.2 b.2.2 else String.le a.2.1 b.2.1.

#[global] Instance start_le_dec : RelDecision start_le.
Proof. intros a b. unfold start_le. destruct (bool_decide (a.2.1 = b.2.1)); apply _. Defined.

Definition ordered_starts (t : Tables) : list (string * (string * string)) := merge_sort start_le (map_to_list (start_rows t)).

(** [Database::epoch] in both directions. *)
Definition epoch_bytes (value : Z) : string :=
  of_chars ((λ index, chr (Z.land (Z.shiftr value (56 - index * 8)) 255)) <$> seqZ 0 8).

Definition epoch_value (value : string) : option Z :=
  if negb (String.length value =? 8)%nat then None
  else
    let result := foldl (λ acc c, Z.lor (wrap64 (Z.shiftl acc 8)) (ord c)) 0 (chars value) in
    if result =? 0 then None else Some result.

(** ** Operations *)
Section ledger.
Context `{Inet, Protobuf}.

Definition with_epoch (e : Z) (m : Member) : Member :=
  {| galaxy := galaxy m; id := id m; principal := principal m; address := address m; epoch := e; role := role m;
     group := group m |}.

Definition key_of (m : Member) : string := Principal.text (principal m).

(** The loop of [Ledger::validate]: how many members have the role, and whether another
    deployment has the identity or the endpoint. *)
Fixpoint survey (member : Member) (principal : string) (view : list (string * Member)) (role_count : Z) : option Z :=
  match view with
  | [] => Some role_count
  | (key, current) :: view' =>
      let role_count := if bool_decide (role current = role member) then role_count + 1 else role_count in
      if negb (String.eqb key principal) && (String.eqb (id current) (id member) || bool_decide (address current = address member))
      then None
      else survey member principal view' role_count
  end.

(** What a new registration of a deployment must keep of the old one. *)
Definition replaces (member old : Member) : bool :=
  bool_decide (role old = role member) && bool_decide (address old = address member) && negb (String.eqb (id old) (id member)).

(** [Ledger::validate]. *)
Definition validate_record (l : Ledger) (member : Member) (request_id : string) (view : Members) : Result unit :=
  if match validate member with Expected _ => false | Unexpected _ => true end
     || negb (String.eqb (galaxy member) (galaxy_ l)) || negb (String.length request_id =? 32)%nat
  then Unexpected configuration
  else if bool_decide (is_Some (starts_ l !! request_id)) then Unexpected conflict
  else if maximum_starts_ l <=? Z.of_nat (size (starts_ l)) then Unexpected capacity
  else
    let principal := key_of member in
    let old := view !! principal in
    let previous := match old with None => 0 | Some o => epoch o end in
    if (previous =? u64_max) || negb (epoch member =? previous + 1)
       || match old with None => false | Some o => negb (replaces member o) end
    then Unexpected conflict
    else
      match survey member principal (in_order view) 0 with
      | None => Unexpected conflict
      | Some role_count =>
          if negb (bool_decide (is_Some old)) && (maximum_ l <=? role_count) then Unexpected capacity else Expected tt
      end.

(** [Ledger::commit]. *)
Definition isolate (s : Site) : Site :=
  let l := ledger_ s in
  set_ledger {| members_ := members_ l; starts_ := starts_ l; galaxy_ := galaxy_ l; maximum_ := maximum_ l;
                maximum_starts_ := maximum_starts_ l; writable_ := false |} s.

Definition commit (member : Member) (request payload : string) : eff Site bool :=
  require ((1 <=? String.length payload)%nat && (String.length payload <=? 1024)%nat) ;;;
  alloc ;;;
  let principal := key_of member in
  let epoch := epoch_bytes (epoch member) in
  catching
    (io ;;; bind_value principal ;;; bind_value payload ;;;
     io ;;; bind_value request ;;; bind_value principal ;;; bind_value epoch ;;;
     begin_sql ;;; upsert_member principal payload ;;; insert_start request principal epoch ;;; commit_sql ;;; ret true)
    (modify isolate ;;; rollback ;;; ret false).

(** The stored body: format 1 keeps the digest as text. *)
Definition body_of (m : Member) : string := serialize (set_principal (key_of m) (encode m)).

(** What becomes visible after the commit; nothing of it allocates. *)
Definition publish (member : Member) (request : string) (s : Site) : Site :=
  let l := ledger_ s in
  set_ledger {| members_ := <[key_of member := member]> (members_ l);
                starts_ := <[request := {| start_principal := key_of member; start_epoch := epoch member |}]> (starts_ l);
                galaxy_ := galaxy_ l; maximum_ := maximum_ l; maximum_starts_ := maximum_starts_ l; writable_ := writable_ l |} s.

(** [Ledger::register_member]; [prepare] builds the answer and may throw. *)
Definition register_member {R} (candidate : Member) (request_id : string) (prepare : Member → Members → outcome R)
    : eff Site (Result R) :=
  l <- gets ledger_ ;;
  if negb (writable_ l) then ret (Unexpected transport)
  else if negb (String.length request_id =? 32)%nat || negb (epoch candidate =? 0) || negb (String.eqb (galaxy candidate) (galaxy_ l))
  then ret (Unexpected configuration)
  else
    alloc ;;;
    let principal := key_of candidate in
    let view := members_ l in
    let old := view !! principal in
    match starts_ l !! request_id with
    | Some start =>
        match old with
        | None => ret (Unexpected conflict)
        | Some o =>
            if negb (String.eqb (start_principal start) principal) || negb (start_epoch start =? epoch o)
               || negb (bool_decide (role o = role candidate)) || negb (String.eqb (group o) (group candidate))
               || negb (bool_decide (address o = address candidate))
            then ret (Unexpected conflict)
            else answer <- lift (prepare o view) ;; ret (Expected answer)
        end
    | None =>
        if match old with Some o => epoch o =? u64_max | None => false end then ret (Unexpected conflict)
        else
          let candidate := with_epoch (match old with None => 1 | Some o => epoch o + 1 end) candidate in
          alloc ;;;
          _ <-? ret (validate_record l candidate request_id view) ;;
          alloc ;;;
          let replacement := <[principal := candidate]> view in
          alloc ;;;
          alloc ;;;
          let payload := body_of candidate in
          answer <- lift (prepare candidate replacement) ;;
          committed <- commit candidate request_id payload ;;
          if committed : bool then modify (publish candidate request_id) ;;; ret (Expected answer)
          else ret (Unexpected transport)
    end.

(** [Ledger::snapshot] and [Ledger::current]. *)
Definition ledger_snapshot (member : Member) (l : Ledger) : option Members :=
  match members_ l !! key_of member with
  | Some found => if bool_decide (found = member) then Some (members_ l) else None
  | None => None
  end.

Definition ledger_current (member : Member) (l : Ledger) : bool := bool_decide (is_Some (ledger_snapshot member l)).

(** *** Restoring *)

(** The locals of the first loop of [Ledger::restore]; [counts] by role. *)
Record Recovery := {
  recovered : Members;
  ids : gset string;
  addresses : list Endpoint.Endpoint;
  counts : Role → Z
}.

Definition empty_recovery : Recovery := {| recovered := ∅; ids := ∅; addresses := []; counts := λ _, 0 |}.

(** One row of [members]; [None] where [require] throws. *)
Definition restore_row (l : Ledger) (row : string * string) (r : Recovery) : option Recovery :=
  let '(principal, body) := row in
  if negb ((String.length principal =? 64)%nat && (1 <=? String.length body)%nat && (String.length body <=? 1024)%nat)
  then None
  else
    match parse_message body with
    | None => None
    | Some record =>
        match Principal.parse (orbit_principal record) with
        | Unexpected _ => None
        | Expected digest =>
            if negb (String.eqb (orbit_principal record) principal) then None
            else
              match decode_member (set_principal (digest_bytes digest) record) with
              | Unexpected _ => None
              | Expected member =>
                  if negb (String.eqb (galaxy member) (galaxy_ l)) || negb (String.eqb (key_of member) principal) then None
                  else
                    let count := counts r (role member) + 1 in
                    if negb (count <=? maximum_ l) || bool_decide (id member ∈ ids r) || bool_decide (address member ∈ addresses r)
                       || bool_decide (is_Some (recovered r !! principal))
                    then None
                    else Some {| recovered := <[principal := member]> (recovered r); ids := {[ id member ]} ∪ ids r;
                                 addresses := address member :: addresses r;
                                 counts := λ x, if bool_decide (x = role member) then count else counts r x |}
              end
        end
    end.

Fixpoint restore_members (l : Ledger) (rows : list (string * string)) (r : Recovery) : eff Site Recovery :=
  io ;;;
  match rows with
  | [] => ret r
  | row :: rows' =>
      alloc ;;;
      match restore_row l row r with
      | None => throw runtime_error
      | Some r' => restore_members l rows' r'
      end
  end.

(** The locals of the second loop, with [starts_]. *)
Record Trail := { previous : string; sequence : Z; deployments : Z; known : Starts }.

Definition empty_trail : Trail := {| previous := ""; sequence := 0; deployments := 0; known := ∅ |}.

(** The start records of [previous] reach its current incarnation. *)
Definition complete (found : Members) (t : Trail) : bool :=
  String.eqb (previous t) "" || match found !! previous t with Some m => sequence t =? epoch m | None => false end.

(** One row of [starts]. *)
Definition restore_start (l : Ledger) (found : Members) (row : string * (string * string)) (t : Trail) : option Trail :=
  let '(request, (principal, blob)) := row in
  match epoch_value blob, found !! principal with
  | Some e, Some member =>
      if negb (String.length request =? 32)%nat || (maximum_starts_ l <=? Z.of_nat (size (known t))) then None
      else
        let moved := negb (String.eqb (previous t) principal) in
        if moved && negb (complete found t) then None
        else
          let sequence := if moved then 0 else sequence t in
          let deployments := if moved then deployments t + 1 else deployments t in
          if (sequence =? u64_max) || negb (e =? sequence + 1) || (epoch member <? e)
             || bool_decide (is_Some (known t !! request))
          then None
          else Some {| previous := principal; sequence := e; deployments := deployments;
                       known := <[request := {| start_principal := principal; start_epoch := e |}]> (known t) |}
  | _, _ => None
  end.

Fixpoint restore_starts (l : Ledger) (found : Members) (rows : list (string * (string * string))) (t : Trail)
    : eff Site Trail :=
  io ;;;
  match rows with
  | [] => ret t
  | row :: rows' =>
      alloc ;;;
      match restore_start l found row t with
      | None => throw runtime_error
      | Some t' => restore_starts l found rows' t'
      end
  end.

Definition install (found : Members) (t : Trail) (s : Site) : Site :=
  let l := ledger_ s in
  set_ledger {| members_ := found; starts_ := known t; galaxy_ := galaxy_ l; maximum_ := maximum_ l;
                maximum_starts_ := maximum_starts_ l; writable_ := writable_ l |} s.

(** [Ledger::restore]. *)
Definition restore : eff Site unit :=
  begin_sql ;;;
  on_throw
    (alloc ;;;
     s <- read ;;
     match transaction_ s with
     | None => throw runtime_error
     | Some t =>
         let l := ledger_ s in
         io ;;;
         r <- restore_members l (in_order (member_rows t)) empty_recovery ;;
         io ;;;
         trail <- restore_starts l (recovered r) (ordered_starts t) empty_trail ;;
         require ((deployments trail =? Z.of_nat (size (recovered r))) && complete (recovered r) trail) ;;;
         commit_sql ;;;
         modify (install (recovered r) trail)
     end)
    (rollback ;;; ret tt).

(** *** Opening *)

(** The transaction of an initialization: the schema and its one row of metadata.  A
    failed COMMIT may have taken effect. *)
Definition create_schema (galaxy authority : string) : eff Site unit :=
  let t := {| meta_galaxy := galaxy; meta_authority := authority; member_rows := ∅; start_rows := ∅ |} in
  io ;;; io ;;; bind_value galaxy ;;; bind_value authority ;;; io ;;;
  failed <- hidden ;;
  if failed : bool then
    landed <- hidden ;;
    (if landed : bool then modify (set_file (Stored t)) else ret tt) ;;; throw runtime_error
  else modify (set_file (Stored t)).

(** [Database::Database]: the lock, the file, the settings, the schema and the binding.
    The settings of the connection are calls that can fail. *)
Definition open_database (galaxy authority : string) (initialize : bool) : eff Site unit :=
  io ;;;
  (if initialize then io else ret tt) ;;;
  s <- read ;;
  (match initialize, file_ s with
   | true, Absent => io ;;; modify (set_file Blank)
   | false, Stored _ => io
   | _, _ => throw runtime_error
   end) ;;;
  io ;;;
  (if initialize then create_schema galaxy authority ;;; io else ret tt) ;;;
  io ;;;
  s <- read ;;
  match file_ s with
  | Stored t => require (String.eqb (meta_galaxy t) galaxy && String.eqb (meta_authority t) authority)
  | _ => throw runtime_error
  end.

(** The configuration the constructor accepts. *)
Definition configured (galaxy authority : string) (maximum starts : Z) : bool :=
  valid_name galaxy && match Principal.parse authority with Expected _ => true | Unexpected _ => false end
  && negb (maximum =? 0) && (maximum <=? 4096) && negb (starts =? 0) && (starts <=? 1000000).

(** [Ledger::Ledger]. *)
Definition make_ledger (galaxy authority : string) (maximum starts : Z) (initialize : bool) : eff Site unit :=
  modify (set_transaction None) ;;;
  modify (set_ledger {| members_ := ∅; starts_ := ∅; galaxy_ := galaxy; maximum_ := maximum; maximum_starts_ := starts;
                        writable_ := true |}) ;;;
  require (configured galaxy authority maximum starts) ;;;
  open_database galaxy authority initialize ;;;
  restore.

(** ** Histories

    A process is started on the file, serves registrations, and ends at any time; what
    an ended process leaves is its file.  [served] is what it answered with success:
    the request with the member it was given. *)
Inductive event :=
| Launch (galaxy authority : string) (maximum starts : Z) (initialize : bool) (f : faults)
| Register (candidate : Member) (request : string) (prepare : Member → Members → outcome unit) (f : faults)
| Crash.

Record World := { disk : File; process : option Site; served : list (string * Member) }.

Definition world_start : World := {| disk := Absent; process := None; served := [] |}.

Definition blank_ledger : Ledger :=
  {| members_ := ∅; starts_ := ∅; galaxy_ := ""; maximum_ := 0; maximum_starts_ := 0; writable_ := false |}.

Definition answering (prepare : Member → Members → outcome unit) (m : Member) (v : Members) : outcome Member :=
  match prepare m v with Done _ => Done m | Thrown e => Thrown e end.

(** A launch while a process runs fails at the lock. *)
Definition world_step (w : World) (e : event) : World :=
  match e, process w with
  | Launch g a m n i f, None =>
      match make_ledger g a m n i {| file_ := disk w; transaction_ := None; ledger_ := blank_ledger |} f with
      | (Done _, s, _) => {| disk := file_ s; process := Some s; served := served w |}
      | (Thrown _, s, _) => {| disk := file_ s; process := None; served := served w |}
      end
  | Register c r p f, Some s =>
      match register_member c r (answering p) s f with
      | (Done (Expected m), s', _) => {| disk := file_ s'; process := Some s'; served := served w ++ [(r, m)] |}
      | (_, s', _) => {| disk := file_ s'; process := Some s'; served := served w |}
      end
  | Crash, Some s => {| disk := file_ s; process := None; served := served w |}
  | _, _ => w
  end.

Definition world_run (es : list event) : World := foldl world_step world_start es.
End ledger.
