(* ===== verification/Membership.v ===== *)
(** The contract of the membership ledger: it refines an append-only log of grants.

    A grant is a start request with the member it was given.  The tables, the view in
    memory and every answer are functions of a lawful log; a restart reads the log of
    the tables back exactly. *)
From Stdlib Require Import Ascii.
From stdpp Require Import base numbers sorting countable strings gmap sets list.
From S2P Require Import Prelude.
From S2P Require Import Scope.
From S2P Require Import Types.
From S2P Require Import Ledger.

(** ** Rules for failing calls *)
Section rules.
Context {S : Type} (r : reliability).

Lemma wp_io (Q : unit → S → Prop) E s :
  (r = Faulty → E runtime_error s) → Q tt s → wp r io Q E s.
Proof.
  intros HE HQ f Hf. unfold io. destruct f as [|[] f]; [done| |].
  - destruct r; [done|]. split; [done|]. by apply HE.
  - destruct r; [done|]. by split.
Qed.

Lemma wp_hidden (Q : bool → S → Prop) E s :
  (r = Faulty → Q true s) → Q false s → wp r hidden Q E s.
Proof.
  intros HE HQ f Hf. unfold hidden. destruct f as [|[] f]; [done| |]; (destruct r; [done|]); split; try done. by apply HE.
Qed.

Lemma wp_catching {A} (m h : eff S A) Q E s :
  wp r m Q (λ _ s', wp r h Q E s') s → wp r (catching m h) Q E s.
Proof.
  intros Hm f Hf. specialize (Hm f Hf). unfold catching.
  destruct (m s f) as [[[a|e] s'] f']; [done|]. destruct Hm as [Hf' Hh]. by apply Hh.
Qed.

Lemma wp_require (b : bool) (Q : unit → S → Prop) E s :
  (b = true → Q tt s) → (b = false → E runtime_error s) → wp r (require b) Q E s.
Proof. intros HQ HE. unfold require. destruct b; [apply wp_ret|apply wp_throw]; auto. Qed.
End rules.

(** Structural steps, the failing calls included. *)
Ltac sql_step :=
  lazymatch goal with
  | |- wp _ io _ _ _ => apply wp_io; [intros ?|]
  | |- wp _ alloc _ _ _ => apply wp_alloc; [|intros ?]
  | |- wp _ hidden _ _ _ => apply wp_hidden; [intros ?|]
  | |- wp _ (require _) _ _ _ => apply wp_require; intros ?
  | |- wp _ (catching _ _) _ _ _ => apply wp_catching
  | _ => wp_step
  end.

(** ** Numbers as blobs *)
Definition value_from (acc : Z) (cs : list ascii) : Z := foldl (λ acc c, acc * 256 + ord c) acc cs.

Lemma ord_range c : 0 <= ord c < 256.
Proof. unfold ord. pose proof (Ascii.N_ascii_bounded c). lia. Qed.

Lemma value_from_lt a b cs ds : length cs = length ds → a < b → value_from a cs < value_from b ds.
Proof.
  revert a b ds. induction cs as [|c cs IH]; intros a b [|d ds] Hl Hab; simpl in *; try done.
  apply IH; [lia|]. pose proof (ord_range c). pose proof (ord_range d). lia.
Qed.

(** The order of blobs of one length is the order of the numbers they spell. *)
Lemma blob_order cs ds a :
  length cs = length ds → String.le (of_chars cs) (of_chars ds) → value_from a cs <= value_from a ds.
Proof.
  revert a ds. induction cs as [|c cs IH]; intros a [|d ds] Hl Hle; simpl in *; try done.
  unfold String.le, String.leb in Hle. simpl in Hle. unfold Ascii.compare in Hle.
  destruct (N.compare_spec (N_of_ascii c) (N_of_ascii d)) as [E|E|E]; simpl in Hle.
  - assert (ord c = ord d) as -> by (unfold ord; lia). apply IH; [lia|]. by unfold String.le, String.leb.
  - apply Z.lt_le_incl, value_from_lt; [lia|]. unfold ord. lia.
  - done.
Qed.

Definition octet (value index : Z) : Z := Z.land (Z.shiftr value (56 - index * 8)) 255.

Lemma octet_div value index : 0 <= index < 8 → octet value index = value / 2 ^ (56 - index * 8) mod 256.
Proof.
  intros Hi. unfold octet. change 255 with (Z.ones 8). rewrite Z.land_ones, Z.shiftr_div_pow2 by lia. done.
Qed.

Lemma epoch_bytes_chars value : chars (epoch_bytes value) = (λ i, chr (octet value i)) <$> [0;1;2;3;4;5;6;7].
Proof. unfold epoch_bytes. by rewrite chars_of_chars. Qed.

Lemma epoch_bytes_length value : String.length (epoch_bytes value) = 8%nat.
Proof. by rewrite <- Principal.length_chars, epoch_bytes_chars. Qed.

Lemma join_octet acc c : 0 <= acc -> acc * 256 <= u64_max -> 0 <= c < 256 → Z.lor (wrap64 (Z.shiftl acc 8)) c = acc * 256 + c.
Proof.
  intros Ha Hm Hc. rewrite Z.shiftl_mul_pow2 by lia. change (2 ^ 8) with 256.
  rewrite wrap64_small by (unfold is_u64; lia).
  rewrite <- Z.add_lor_land, Z.add_comm. assert (Z.land (acc * 256) c = 0) as ->; [|lia].
  apply Z.bits_inj'. intros n Hn. rewrite Z.land_spec, Z.bits_0.
  destruct (Z.lt_ge_cases n 8).
  - change 256 with (2 ^ 8). rewrite Z.mul_pow2_bits_low by lia. done.
  - assert (Hb : 2 ^ 8 <= 2 ^ n) by (apply Z.pow_le_mono_r; lia).
    assert (Z.testbit c n = false) as ->; [|apply andb_false_r].
    apply Z.testbit_false; [lia|]. by rewrite Z.div_small by lia.
Qed.

(** The prefix of a blob spells the high bits. *)
Lemma high_step value h k : 0 <= k → h = k + 8 → value / 2 ^ h * 256 + value / 2 ^ k mod 256 = value / 2 ^ k.
Proof.
  intros Hk ->. rewrite Z.pow_add_r, <- Z.div_div by lia. change (2 ^ 8) with 256.
  pose proof (Z.div_mod (value / 2 ^ k) 256). lia.
Qed.

Lemma epoch_spelled value : is_u64 value → value_from 0 (chars (epoch_bytes value)) = value.
Proof.
  intros Hv. rewrite epoch_bytes_chars. simpl.
  assert (Ho : ∀ i, 0 <= i < 8 → ord (chr (octet value i)) = octet value i).
  { intros i Hi. apply ord_chr. rewrite octet_div by done. apply Z.mod_pos_bound. lia. }
  rewrite !Ho, !octet_div by lia. simpl (56 - _).
  rewrite (Z.mod_small (value / 2 ^ 56)) by (unfold is_u64, u64_max in Hv; split; [apply Z.div_pos; lia|apply Z.div_lt_upper_bound; lia]).
  change (0 * 256 + value / 2 ^ 56) with (value / 2 ^ 56).
  rewrite (high_step value 56 (56 - 1 * 8)), (high_step value (56 - 1 * 8) (56 - 2 * 8)),
    (high_step value (56 - 2 * 8) (56 - 3 * 8)), (high_step value (56 - 3 * 8) (56 - 4 * 8)),
    (high_step value (56 - 4 * 8) (56 - 5 * 8)), (high_step value (56 - 5 * 8) (56 - 6 * 8)),
    (high_step value (56 - 6 * 8) (56 - 7 * 8)) by lia.
  apply Z.div_1_r.
Qed.

Lemma epoch_folds cs acc :
  0 <= acc → value_from acc cs <= u64_max →
  foldl (λ acc c, Z.lor (wrap64 (Z.shiftl acc 8)) (ord c)) acc cs = value_from acc cs ∧ acc <= value_from acc cs.
Proof.
  revert acc. induction cs as [|c cs IH]; intros acc Ha Hv; simpl in *; [done|].
  pose proof (ord_range c).
  assert (Hgrow : ∀ ds a, 0 <= a → a <= value_from a ds).
  { clear. induction ds as [|d ds IH]; intros a Ha; simpl; [done|]. pose proof (ord_range d).
    specialize (IH (a * 256 + ord d) ltac:(lia)). lia. }
  pose proof (Hgrow cs (acc * 256 + ord c) ltac:(lia)).
  rewrite join_octet by (try lia). destruct (IH (acc * 256 + ord c) ltac:(lia) Hv). lia.
Qed.

(** An incarnation survives its blob, up to the largest one. *)
Lemma epoch_roundtrip value : 1 <= value <= u64_max → epoch_value (epoch_bytes value) = Some value.
Proof.
  intros Hv. unfold epoch_value. rewrite epoch_bytes_length. cbn [Nat.eqb negb].
  assert (Hs : value_from 0 (chars (epoch_bytes value)) = value) by (apply epoch_spelled; unfold is_u64; lia).
  destruct (epoch_folds (chars (epoch_bytes value)) 0) as [-> _]; [lia|lia|]. rewrite Hs.
  destruct (Z.eqb_spec value 0); [lia|done].
Qed.

Lemma epoch_order a b :
  is_u64 a → is_u64 b → String.le (epoch_bytes a) (epoch_bytes b) → a <= b.
Proof.
  intros Ha Hb Hle. rewrite <- (epoch_spelled a), <- (epoch_spelled b) by done.
  apply blob_order; [by rewrite !Principal.length_chars, !epoch_bytes_length|]. by rewrite !of_chars_chars.
Qed.

Lemma epoch_bytes_inj a b : is_u64 a → is_u64 b → epoch_bytes a = epoch_bytes b → a = b.
Proof.
  intros Ha Hb E. rewrite <- (epoch_spelled a), <- (epoch_spelled b), E by done. done.
Qed.

(** ** Messages *)
Lemma role_roundtrip r : role_of (role_number r) = Expected r.
Proof. by destruct r. Qed.

Lemma digest_roundtrip p : Principal.well_formed p → digest_of (digest_bytes p) = p ∧ String.length (digest_bytes p) = 32%nat.
Proof.
  intros [Hl Hb]. destruct p as [bs]. unfold digest_of, digest_bytes. simpl in *.
  rewrite <- Principal.length_chars, chars_of_chars, length_fmap. split; [|done]. f_equal.
  rewrite <- list_fmap_compose. transitivity ((λ b, b) <$> bs); [|apply list_fmap_id].
  apply list_fmap_ext. intros i b Hi. simpl. apply ord_chr.
  eapply Forall_lookup in Hb; [|exact Hi]. done.
Qed.

Lemma principal_text_length p : Principal.well_formed p → String.length (Principal.text p) = 64%nat.
Proof.
  intros [Hl _]. unfold Principal.text. rewrite <- Principal.length_chars, chars_of_chars, Principal.length_bind_pairs. lia.
Qed.

Lemma text_inj p q :
  Principal.well_formed p → Principal.well_formed q → Principal.text p = Principal.text q → p = q.
Proof.
  intros Hp%(proj1 Principal.principal_roundtrip) Hq%(proj1 Principal.principal_roundtrip) E.
  rewrite E in Hp. congruence.
Qed.

Lemma valid_name_ascii s : valid_name s = true → ascii_text s.
Proof.
  unfold valid_name, ascii_text. intros [_ Hf]%andb_true_iff. apply Forall_forall. intros c Hc.
  rewrite forallb_forall in Hf. specialize (Hf c (proj1 (list_elem_of_In _ _) Hc)).
  assert (Hx : ∀ d, Ascii.eqb c d = true → ord d < 128 → ord c < 128) by (intros d ->%Ascii.eqb_eq; done).
  unfold letter, is_digit in Hf. rewrite !orb_true_iff, !andb_true_iff in Hf.
  destruct Hf as [[[[Hf|Hf]|Hf]|Hf]|Hf]; [lia|lia| | |]; (eapply Hx; [exact Hf|]); vm_compute; reflexivity.
Qed.

Section encoding.
Context `{Inet}.

Lemma validate_inv m :
  validate m = Expected tt →
  valid_name (galaxy m) = true ∧ valid_name (group m) = true ∧ valid_id (id m) = true ∧
  Endpoint.parse (Endpoint.text (address m)) false = Expected (address m).
Proof.
  unfold validate. destruct (valid_name (galaxy m)), (valid_name (group m)), (valid_id (id m)); try done. simpl.
  destruct (epoch m =? 0); [done|]. destruct (Endpoint.parse _ _); [|done]. by case_bool_decide; subst.
Qed.

Lemma endpoint_ascii value e : Endpoint.parse value false = Expected e → ascii_text (Endpoint.text e).
Proof.
  intros Hp. unfold Endpoint.parse in Hp. destruct (split_last colon (chars value)) as [[h p]|]; [|done].
  destruct (port_number p false) as [n|] eqn:En; [|done]. destruct (port_number_range _ _ _ En) as [Hn _].
  destruct (Endpoint.parse_host_inv _ _ _ _ Hp) as (<- & b & Hb & He & _).
  pose proof (ntop_numeric _ _ _ Hb He) as Hnum.
  assert (Hhost : ascii_text (Endpoint.host e)).
  { unfold ascii_text. eapply Forall_impl; [exact Hnum|]. intros c Hc. unfold numeric_char, is_digit in Hc.
    rewrite !orb_true_iff, !andb_true_iff in Hc.
    destruct Hc as [[[Hc|Hc]|Hc%Ascii.eqb_eq]|Hc%Ascii.eqb_eq]; [lia|lia|subst; done|subst; done]. }
  assert (Hport : ascii_text (to_string (Endpoint.port e))).
  { unfold to_string, ascii_text. rewrite chars_of_chars.
    destruct (digits_shape 20 (Endpoint.port e) []) as (c & rest & -> & Hd); [lia|constructor|lia|].
    eapply Forall_impl; [exact Hd|]. intros x Hx. unfold is_digit in Hx. rewrite andb_true_iff in Hx. lia. }
  unfold ascii_text, Endpoint.text in *. rewrite !Endpoint.chars_app.
  destruct (Endpoint.ipv6 e); rewrite ?Endpoint.chars_app, !Forall_app; split_and!; try done;
    repeat constructor; vm_compute; reflexivity.
Qed.

(** A member that passes the checks survives its message, in the form of the wire and in
    the one of the tables. *)
Lemma member_roundtrip m :
  validate m = Expected tt → Principal.well_formed (principal m) → decode_member (encode m) = Expected m.
Proof.
  intros Hv Hp. destruct (digest_roundtrip _ Hp) as [Hd Hl]. destruct (validate_inv m Hv) as (_ & _ & Hi & Ha).
  unfold decode_member, encode. cbn [orbit_principal orbit_advertise orbit_role orbit_id orbit_galaxy orbit_epoch orbit_group].
  rewrite Hl, Ha, role_roundtrip, Hi, String.eqb_refl, Hd. cbn [Nat.eqb negb orb].
  destruct m; simpl in *. by rewrite Hv.
Qed.

Lemma stored_message m s :
  validate m = Expected tt → is_u64 (epoch m) → orbit_ok (set_principal s (encode m)).
Proof.
  intros Hv He. destruct (validate_inv m Hv) as (Hg & Hr & _ & Ha). repeat split; simpl.
  - by apply valid_name_ascii.
  - by eapply endpoint_ascii.
  - by apply valid_name_ascii.
  - apply He.
  - apply He.
  - by destruct (role m).
  - by destruct (role m).
Qed.
End encoding.

(** ** Logs of grants *)
Section logs.
Context `{Inet, Protobuf}.
Abbreviation Log := (list (string * Member)).

Definition start_of (m : Member) : Start := {| start_principal := key_of m; start_epoch := epoch m |}.

(** The view and the start records a log amounts to. *)
Definition members_of (log : Log) : Members := foldl (λ v g, <[key_of g.2 := g.2]> v) ∅ log.
Definition starts_of (log : Log) : Starts := foldl (λ v g, <[g.1 := start_of g.2]> v) ∅ log.

Definition launch_row (s : Start) : string * string := (start_principal s, epoch_bytes (start_epoch s)).

(** The tables that hold a log. *)
Definition contents (galaxy authority : string) (log : Log) : Tables :=
  {| meta_galaxy := galaxy; meta_authority := authority; member_rows := body_of <$> members_of log;
     start_rows := launch_row <$> starts_of log |}.

(** What the incarnation of a deployment was before. *)
Definition reached (v : Members) (key : string) : Z := match v !! key with None => 0 | Some o => epoch o end.

Record grantable (m : Member) : Prop := {
  grantable_valid : validate m = Expected tt;
  grantable_digest : Principal.well_formed (principal m);
  grantable_epoch : 1 <= epoch m <= u64_max;
  grantable_body : (1 <= String.length (body_of m) <= 1024)%nat
}.

(** The grants a log may be continued with. *)
Record next (gal : string) (log : Log) (g : string * Member) : Prop := {
  next_member : grantable g.2;
  next_galaxy : galaxy g.2 = gal;
  next_request : String.length g.1 = 32%nat;
  next_fresh : starts_of log !! g.1 = None;
  next_epoch : epoch g.2 = reached (members_of log) (key_of g.2) + 1;
  next_same : ∀ o, members_of log !! key_of g.2 = Some o →
    role o = role g.2 ∧ address o = address g.2 ∧ id o ≠ id g.2;
  next_other : ∀ k c, members_of log !! k = Some c → k ≠ key_of g.2 → id c ≠ id g.2 ∧ address c ≠ address g.2
}.

(** Logs: every deployment counts its incarnations from one, keeps its role and endpoint
    and takes a new identity each time; requests are used once; no two current members
    share an identity or an endpoint. *)
Inductive lawful (gal : string) : Log → Prop :=
| lawful_nil : lawful gal []
| lawful_snoc log g : lawful gal log → next gal log g → lawful gal (log ++ [g]).

Lemma members_snoc log g : members_of (log ++ [g]) = <[key_of g.2 := g.2]> (members_of log).
Proof. unfold members_of. by rewrite foldl_app. Qed.
Lemma starts_snoc log g : starts_of (log ++ [g]) = <[g.1 := start_of g.2]> (starts_of log).
Proof. unfold starts_of. by rewrite foldl_app. Qed.

(** What belongs together in a view and its start records. *)
Record consistent (gal : string) (v : Members) (st : Starts) : Prop := {
  con_member : ∀ k m, v !! k = Some m → key_of m = k ∧ grantable m ∧ galaxy m = gal;
  con_distinct : ∀ k k' m m', v !! k = Some m → v !! k' = Some m' → k ≠ k' → id m ≠ id m' ∧ address m ≠ address m';
  con_start : ∀ r s, st !! r = Some s → String.length r = 32%nat ∧
    ∃ m, v !! start_principal s = Some m ∧ 1 <= start_epoch s <= epoch m;
  con_all : ∀ k m e, v !! k = Some m → 1 <= e <= epoch m → ∃ r, st !! r = Some {| start_principal := k; start_epoch := e |};
  con_once : ∀ r r' s, st !! r = Some s → st !! r' = Some s → r = r'
}.

Lemma reached_cases v k : (v !! k = None ∧ reached v k = 0) ∨ ∃ o, v !! k = Some o ∧ reached v k = epoch o.
Proof. unfold reached. destruct (v !! k) as [o|]; eauto. Qed.

Lemma consistent_next gal log g :
  consistent gal (members_of log) (starts_of log) → next gal log g →
  consistent gal (members_of (log ++ [g])) (starts_of (log ++ [g])).
Proof.
  intros [C1 C2 C3 C4 C5] [N1 N2 N3 N4 N5 N6 N7]. rewrite members_snoc, starts_snoc.
  set (v := members_of log) in *. set (st := starts_of log) in *. destruct g as [q m]. simpl in *.
  assert (Hold : ∀ r s, st !! r = Some s → start_principal s = key_of m → start_epoch s < epoch m).
  { intros r s Hs E. destruct (C3 r s Hs) as (_ & o & Ho & He). rewrite E in Ho. unfold reached in N5.
    rewrite Ho in N5. lia. }
  split.
  - intros k c [[<- <-]|[Hk Hc]]%lookup_insert_Some; [done|]. by apply C1.
  - intros k k' c c' [[<- <-]|[Hk Hc]]%lookup_insert_Some [[<- <-]|[Hk' Hc']]%lookup_insert_Some Hne.
    + done.
    + destruct (N7 k' c' Hc' ltac:(done)) as [? ?]. split; congruence.
    + by apply (N7 k c).
    + by apply (C2 k k').
  - intros r s [[<- <-]|[Hr Hs]]%lookup_insert_Some.
    + split; [done|]. exists m. rewrite lookup_insert_eq. split; [done|]. simpl. destruct N1. lia.
    + destruct (C3 r s Hs) as (Hl & o & Ho & He). split; [done|].
      destruct (decide (start_principal s = key_of m)) as [E|E].
      * exists m. rewrite E, lookup_insert_eq. split; [done|]. specialize (Hold r s Hs E). lia.
      * exists o. by rewrite lookup_insert_ne by done.
  - assert (Hq : ∀ r s, st !! r = Some s → <[q := start_of m]> st !! r = Some s).
    { intros r s Hs. rewrite lookup_insert_ne; [done|]. intros ->. congruence. }
    intros k c e [[<- <-]|[Hk Hc]]%lookup_insert_Some He.
    + destruct (decide (e = epoch m)) as [->|Hne]; [exists q; apply lookup_insert_eq|].
      destruct (reached_cases v (key_of m)) as [[_ E]|(o & Ho & E)]; [lia|].
      destruct (C4 _ o e Ho ltac:(lia)) as [r Hr]. exists r. by apply Hq.
    + destruct (C4 k c e Hc He) as [r Hr]. exists r. by apply Hq.
  - intros r r' s [[<- <-]|[Hr Hs]]%lookup_insert_Some [[<- E]|[Hr' Hs']]%lookup_insert_Some.
    + done.
    + specialize (Hold r' _ Hs' eq_refl). simpl in Hold. lia.
    + subst s. specialize (Hold r _ Hs eq_refl). simpl in Hold. lia.
    + by apply (C5 r r' s).
Qed.

Lemma lawful_consistent gal log : lawful gal log → consistent gal (members_of log) (starts_of log).
Proof.
  induction 1 as [|log g _ IH Hg]; [|by apply consistent_next].
  split; intros; simplify_map_eq.
Qed.

(** The records of a log come from its grants. *)
Lemma members_from log k m : members_of log !! k = Some m → ∃ q, (q, m) ∈ log ∧ key_of m = k.
Proof.
  induction log as [|g log IH] using rev_ind; [done|]. rewrite members_snoc.
  intros [[<- <-]|[Hk Hm]]%lookup_insert_Some.
  - exists g.1. split; [|done]. apply elem_of_app. right. destruct g. by apply list_elem_of_singleton.
  - destruct (IH Hm) as (q & Hq & ?). exists q. split; [|done]. apply elem_of_app. by left.
Qed.

Lemma starts_from log q s : starts_of log !! q = Some s → ∃ m, (q, m) ∈ log ∧ start_of m = s.
Proof.
  induction log as [|g log IH] using rev_ind; [done|]. rewrite starts_snoc.
  intros [[<- <-]|[Hk Hm]]%lookup_insert_Some.
  - exists g.2. split; [|done]. apply elem_of_app. right. destruct g. by apply list_elem_of_singleton.
  - destruct (IH Hm) as (m & Hq & ?). exists m. split; [|done]. apply elem_of_app. by left.
Qed.

(** A grant is on record, and its deployment has not gone back since. *)
Lemma granted_kept gal log q m :
  lawful gal log → (q, m) ∈ log →
  starts_of log !! q = Some (start_of m) ∧
  ∃ c, members_of log !! key_of m = Some c ∧ epoch m <= epoch c ∧ (epoch m = epoch c → c = m).
Proof.
  induction 1 as [|log g Hl IH Hg]; [by intros ?%not_elem_of_nil|].
  rewrite starts_snoc, members_snoc. intros [Hin|E%list_elem_of_singleton]%elem_of_app; [|subst g]; simpl.
  2: { rewrite !lookup_insert_eq. eauto with lia. }
  destruct (IH Hin) as (Hs & c & Hc & He & Hq). split.
  - rewrite lookup_insert_ne; [done|]. intros <-. pose proof (next_fresh _ _ _ Hg). congruence.
  - destruct (decide (key_of g.2 = key_of m)) as [E|E].
    + exists g.2. rewrite E, lookup_insert_eq. pose proof (next_epoch _ _ _ Hg) as N. unfold reached in N.
      rewrite E, Hc in N. split_and!; [done|lia|lia].
    + rewrite lookup_insert_ne by done. eauto.
Qed.

(** Two grants of one request, or of one incarnation of a deployment, are the same. *)
Lemma granted_once gal log q q' m m' :
  lawful gal log → (q, m) ∈ log → (q', m') ∈ log →
  q = q' ∨ (key_of m = key_of m' ∧ epoch m = epoch m') → q = q' ∧ m = m'.
Proof.
  induction 1 as [|log g Hl IH Hg]; [by intros ?%not_elem_of_nil|].
  assert (Hnew : ∀ q m, (q, m) ∈ log → q ≠ g.1 ∧ (key_of m = key_of g.2 → epoch m < epoch g.2)).
  { intros q0 m0 Hin. destruct (granted_kept _ _ _ _ Hl Hin) as (Hs & c & Hc & He & _).
    pose proof (next_fresh _ _ _ Hg). pose proof (next_epoch _ _ _ Hg) as N. split; [congruence|]. intros E.
    unfold reached in N. rewrite <- E, Hc in N. lia. }
  intros [H1|H1%list_elem_of_singleton]%elem_of_app [H2|H2%list_elem_of_singleton]%elem_of_app Hor.
  - by apply IH.
  - destruct (Hnew _ _ H1) as [Ha Hb]. subst g. simpl in *. destruct Hor as [->|[E E']]; [done|]. specialize (Hb E). lia.
  - destruct (Hnew _ _ H2) as [Ha Hb]. subst g. simpl in *. destruct Hor as [->|[E E']]; [done|]. specialize (Hb (eq_sym E)). lia.
  - split; congruence.
Qed.

(** A start record and a current member that agree on the incarnation are one grant. *)
Lemma granted_current gal log q s k m :
  lawful gal log → starts_of log !! q = Some s → members_of log !! k = Some m →
  start_principal s = k → start_epoch s = epoch m → (q, m) ∈ log.
Proof.
  intros Hl Hs Hm Hk He. destruct (starts_from _ _ _ Hs) as (m' & Hin & <-). destruct (members_from _ _ _ Hm) as (q' & Hin' & Hk').
  simpl in *. destruct (granted_once _ _ _ _ _ _ Hl Hin Hin') as [-> ->]; [right; split; congruence|done].
Qed.

(** ** Restoring *)
Definition role_total (r : Role) (l : list (string * Member)) : Z := Z.of_nat (length (filter (λ p, role p.2 = r) l)).

(** The limits of a ledger hold its contents. *)
Definition fits (maximum starts : Z) (v : Members) (st : Starts) : Prop :=
  (∀ r, role_total r (map_to_list v) <= maximum) ∧ Z.of_nat (size st) <= starts.

Lemma role_total_app r l k : role_total r (l ++ k) = role_total r l + role_total r k.
Proof. unfold role_total. rewrite filter_app, length_app. lia. Qed.
Lemma role_total_one r p : role_total r [p] = if bool_decide (r = role p.2) then 1 else 0.
Proof. unfold role_total. rewrite filter_cons. case_bool_decide as E; [subst; by rewrite decide_True|]. by rewrite decide_False. Qed.
Lemma role_total_nonneg r l : 0 <= role_total r l.
Proof. unfold role_total. lia. Qed.
Lemma role_total_perm r l k : l ≡ₚ k → role_total r l = role_total r k.
Proof. intros E. unfold role_total. by rewrite E. Qed.

(** The rows already read. *)
Record reads (pre : list (string * Member)) (r : Recovery) : Prop := {
  reads_members : recovered r = list_to_map pre;
  reads_ids : ∀ x, x ∈ ids r ↔ ∃ p, p ∈ pre ∧ id p.2 = x;
  reads_addresses : ∀ x, x ∈ addresses r ↔ ∃ p, p ∈ pre ∧ address p.2 = x;
  reads_counts : ∀ x, counts r x = role_total x pre
}.

Lemma reads_empty : reads [] empty_recovery.
Proof.
  split; try done.
  - intros x. split; [by intros ?%not_elem_of_empty|]. by intros (p & ?%not_elem_of_nil & _).
  - intros x. split; [by intros ?%not_elem_of_nil|]. by intros (p & ?%not_elem_of_nil & _).
Qed.

(** A body reads back to its member. *)
Lemma body_decodes m :
  grantable m →
  parse_message (body_of m) = Some (set_principal (key_of m) (encode m)) ∧
  Principal.parse (key_of m) = Expected (principal m) ∧
  decode_member (set_principal (digest_bytes (principal m)) (set_principal (key_of m) (encode m))) = Expected m.
Proof.
  intros [Hv Hd He _]. split_and!.
  - apply parse_serialize, stored_message; [done|]. unfold is_u64. lia.
  - by apply Principal.principal_roundtrip.
  - rewrite <- (member_roundtrip m Hv Hd). done.
Qed.

Lemma snoc_elem {A} (P : A → Prop) pre (x : A) : (∃ p, p ∈ pre ++ [x] ∧ P p) ↔ (∃ p, p ∈ pre ∧ P p) ∨ P x.
Proof.
  split.
  - intros (p & [Hp| ->%list_elem_of_singleton]%elem_of_app & HP); eauto.
  - intros [(p & Hp & HP)|HP]; [exists p|exists x]; (split; [|done]); apply elem_of_app; [by left|right].
    by apply list_elem_of_singleton.
Qed.

Lemma restore_row_spec l pre k m r :
  reads pre r → grantable m → key_of m = k → galaxy m = galaxy_ l →
  (∀ p, p ∈ pre → p.1 ≠ k ∧ id p.2 ≠ id m ∧ address p.2 ≠ address m) →
  if role_total (role m) (pre ++ [(k, m)]) <=? maximum_ l
  then ∃ r', restore_row l (k, body_of m) r = Some r' ∧ reads (pre ++ [(k, m)]) r'
  else restore_row l (k, body_of m) r = None.
Proof.
  intros [R1 R2 R3 R4] Hg Hk Hgal Hnew. destruct (body_decodes m Hg) as (Hp & Hd & Hm). pose proof Hg as [_ Hw _ Hb].
  assert (Hl : String.length k = 64%nat) by (rewrite <- Hk; by apply principal_text_length).
  unfold restore_row. rewrite Hl, Hp. destruct Hb as [Hb1%Nat.leb_le Hb2%Nat.leb_le]. rewrite Hb1, Hb2.
  cbn [Nat.eqb negb andb orbit_principal set_principal]. rewrite Hd, Hk, String.eqb_refl. cbn [negb].
  change (set_principal (digest_bytes (principal m)) (set_principal k (encode m))) with
    (set_principal (digest_bytes (principal m)) (set_principal (key_of m) (encode m))). rewrite Hm, Hgal, Hk, !String.eqb_refl.
  cbn [negb orb]. rewrite role_total_app, role_total_one, R4. rewrite bool_decide_true by done.
  destruct (Z.leb_spec (role_total (role m) pre + 1) (maximum_ l)) as [Hfit|Hfit]; cbn [negb orb]; [|done].
  rewrite (bool_decide_false (id m ∈ ids r)) by (rewrite R2; intros (p & Hin & E); by destruct (Hnew p Hin) as (_ & ? & _)).
  rewrite (bool_decide_false (address m ∈ addresses r)) by (rewrite R3; intros (p & Hin & E); by destruct (Hnew p Hin) as (_ & _ & ?)).
  assert (Hnone : recovered r !! k = None).
  { rewrite R1. apply not_elem_of_list_to_map_1. intros ([k' c] & -> & Hin)%list_elem_of_fmap. by destruct (Hnew _ Hin). }
  rewrite Hnone, bool_decide_false by (by intros [? ?]). cbn [orb]. eexists. split; [done|]. split; simpl.
  - rewrite R1, list_to_map_snoc; [done|]. intros ([k' c] & -> & Hin)%list_elem_of_fmap. by destruct (Hnew _ Hin).
  - intros x. rewrite (snoc_elem (λ p, id p.2 = x)), <- R2, elem_of_union, elem_of_singleton. simpl. naive_solver.
  - intros x. rewrite (snoc_elem (λ p, address p.2 = x)), <- R3, elem_of_cons. simpl. naive_solver.
  - intros x. rewrite role_total_app, role_total_one, R4. simpl. case_bool_decide as E; [by subst|lia].
Qed.

Definition member_row (p : string * Member) : string * string := (p.1, body_of p.2).

Lemma restore_members_wp mode gal v st l pre post r (s : Site) :
  consistent gal v st → galaxy_ l = gal → pre ++ post ≡ₚ map_to_list v → reads pre r →
  (∀ x, role_total x pre <= maximum_ l) →
  wp mode (restore_members l (member_row <$> post) r)
    (λ r' s', s' = s ∧ reads (pre ++ post) r' ∧ ∀ x, role_total x (pre ++ post) <= maximum_ l)
    (λ _ s', s' = s ∧ (mode = Reliable → ¬ ∀ x, role_total x (map_to_list v) <= maximum_ l)) s.
Proof.
  intros Hc Hgal. revert pre r. induction post as [|[k m] post IH]; intros pre r Hq Hr Hmax; cbn [fmap list_fmap restore_members].
  { repeat sql_step; [by split; [|intros ->]|]. rewrite app_nil_r. done. }
  assert (Hall : ∀ p, p ∈ pre ++ (k, m) :: post → v !! p.1 = Some p.2).
  { intros [k' m'] Hin. apply elem_of_map_to_list. by rewrite <- Hq. }
  assert (Hv : v !! k = Some m) by (apply (Hall (k, m)); set_solver).
  destruct (con_member _ _ _ Hc k m Hv) as (Hk & Hg & Hgm).
  assert (Hnd : NoDup ((pre ++ (k, m) :: post).*1)) by (rewrite Hq; apply NoDup_fst_map_to_list).
  assert (Hnew : ∀ p, p ∈ pre → p.1 ≠ k ∧ id p.2 ≠ id m ∧ address p.2 ≠ address m).
  { intros p Hin. assert (Hne : p.1 ≠ k).
    { intros <-. rewrite fmap_app in Hnd. apply NoDup_app in Hnd as (_ & Hnd & _).
      apply (Hnd p.1); [by apply list_elem_of_fmap_2|]. apply elem_of_cons. by left. }
    split; [done|]. apply (con_distinct _ _ _ Hc p.1 k); [apply Hall; set_solver|done|done]. }
  repeat sql_step; [by split; [|intros ->]| |by split; [|intros ->]].
  pose proof (restore_row_spec l pre k m r Hr Hg Hk ltac:(congruence) Hnew) as Hrow.
  change (member_row (k, m)) with (k, body_of m).
  destruct (Z.leb_spec (role_total (role m) (pre ++ [(k, m)])) (maximum_ l)) as [Hf|Hf].
  - destruct Hrow as (r' & -> & Hr'). rewrite cons_middle, app_assoc in Hq |- *. apply IH; [done|done|].
    intros x. destruct (decide (x = role m)) as [->|Hx]; [done|]. specialize (Hmax x).
    rewrite role_total_app, role_total_one, bool_decide_false by done. lia.
  - rewrite Hrow. sql_step. split; [done|]. intros _ Hfit. specialize (Hfit (role m)).
    rewrite <- (role_total_perm _ _ _ Hq), cons_middle, app_assoc, role_total_app in Hfit.
    pose proof (role_total_nonneg (role m) post). lia.
Qed.

(** *** The order of the start records *)
Definition before (a b : string * Start) : Prop :=
  (start_principal a.2 = start_principal b.2 ∧ start_epoch a.2 <= start_epoch b.2) ∨
  (start_principal a.2 ≠ start_principal b.2 ∧ String.le (start_principal a.2) (start_principal b.2)).

Definition start_row (p : string * Start) : string * (string * string) := (p.1, launch_row p.2).

Lemma before_rows a b :
  is_u64 (start_epoch a.2) → is_u64 (start_epoch b.2) → start_le (start_row a) (start_row b) → before a b.
Proof.
  intros Ha Hb. unfold start_le, start_row, launch_row, before. simpl. case_bool_decide; [|by right].
  intros Hle. left. split; [done|]. by apply epoch_order.
Qed.

#[local] Instance start_le_trans : Transitive start_le.
Proof.
  intros [ra [pa ea]] [rb [pb eb]] [rc [pc ec]]. unfold start_le. simpl.
  destruct (decide (pa = pb)) as [<-|Hab]; [rewrite (bool_decide_true (pa = pa)) by done|rewrite (bool_decide_false (pa = pb)) by done].
  { case_bool_decide; [|done]. intros. by etrans. }
  destruct (decide (pb = pc)) as [<-|Hbc]; [by rewrite (bool_decide_false (pa = pb)) by done|].
  rewrite (bool_decide_false (pb = pc)) by done. intros H1' H2'. case_bool_decide as E; [|by etrans].
  subst pc. destruct Hab. by apply (anti_symm String.le).
Qed.

#[local] Instance start_le_total : Total start_le.
Proof.
  intros [ra [pa ea]] [rb [pb eb]]. unfold start_le. simpl.
  destruct (decide (pa = pb)) as [<-|Hab]; [rewrite bool_decide_true by done; apply (total String.le)|].
  rewrite !bool_decide_false by done. apply (total String.le).
Qed.

(** The rows of the table are the records in that order. *)
Lemma ordered_rows gal v st (t : Tables) :
  consistent gal v st → start_rows t = launch_row <$> st →
  ∃ q, ordered_starts t = start_row <$> q ∧ q ≡ₚ map_to_list st ∧ StronglySorted before q.
Proof.
  intros Hc Ht.
  assert (Hp : ordered_starts t ≡ₚ start_row <$> map_to_list st).
  { unfold ordered_starts. rewrite merge_sort_Permutation, Ht, map_to_list_fmap. done. }
  destruct (Permutation_map_inv _ _ Hp) as (q & Eq & Hq). exists q. split_and!; [done|done|].
  assert (Hu : ∀ p, p ∈ q → is_u64 (start_epoch p.2)).
  { intros [r s] Hin. rewrite <- Hq in Hin. apply elem_of_map_to_list in Hin.
    destruct (con_start _ _ _ Hc r s Hin) as (_ & m & Hm & He). destruct (con_member _ _ _ Hc _ _ Hm) as (_ & Hg & _).
    pose proof (grantable_epoch _ Hg). unfold is_u64. simpl. lia. }
  assert (Hs : StronglySorted start_le (start_row <$> q)).
  { replace (start_row <$> q) with (ordered_starts t). apply (StronglySorted_merge_sort start_le). }
  clear Eq Hq Hp. induction q as [|a q IH]; [constructor|]. cbn in Hs. apply StronglySorted_cons in Hs as [Ha Hs].
  constructor; [apply IH; [set_solver|done]|]. apply Forall_forall. intros b Hb. apply before_rows; [set_solver..|].
  eapply Forall_forall in Ha; [exact Ha|]. by apply list_elem_of_fmap_2.
Qed.

(** The records already read. *)
Record trails (pre : list (string * Start)) (t : Trail) : Prop := {
  trails_known : known t = list_to_map pre;
  trails_last : match last pre with
                | None => previous t = "" ∧ sequence t = 0
                | Some p => previous t = start_principal p.2 ∧ sequence t = start_epoch p.2
                end;
  trails_count : deployments t = Z.of_nat (size (list_to_set (C := gset string) ((λ p, start_principal p.2) <$> pre)))
}.

Section trail.
Context (gal : string) (v : Members) (st : Starts) (Hc : consistent gal v st).
Context (q : list (string * Start)) (Hq : q ≡ₚ map_to_list st) (Hs : StronglySorted before q).

Lemma row_known r s : (r, s) ∈ q ↔ st !! r = Some s.
Proof using Hq. rewrite Hq. apply elem_of_map_to_list. Qed.

Lemma rows_nodup : NoDup (q.*1).
Proof using Hq. rewrite Hq. apply NoDup_fst_map_to_list. Qed.

(** An element of the part read comes before the last one of it. *)
Lemma before_last pre post p x : q = pre ++ post → last pre = Some p → x ∈ pre → x = p ∨ before x p.
Proof using Hs.
  intros E [pre' ->]%last_Some Hx. rewrite E in Hs. apply StronglySorted_app_1_l in Hs.
  apply elem_of_app in Hx as [Hx|Hx%list_elem_of_singleton]; [right|by left].
  apply (StronglySorted_app_1_elem_of _ _ _ _ _ Hs Hx). by apply list_elem_of_singleton.
Qed.

Lemma before_split pre post x y : q = pre ++ post → x ∈ pre → y ∈ post → before x y.
Proof using Hs. intros E. rewrite E in Hs. by apply StronglySorted_app_1_elem_of. Qed.

Lemma before_apart a b :
  before a b → before b a → start_principal a.2 = start_principal b.2.
Proof using.
  intros [[E _]|[_ H1]] [[E' _]|[_ H2]]; try congruence. by apply (anti_symm String.le).
Qed.

(** Once the rows have moved on from a deployment, all its records have been read. *)
Lemma deployment_complete pre post p m :
  q = pre ++ post → last pre = Some p → (∀ y, y ∈ post → start_principal y.2 ≠ start_principal p.2) →
  v !! start_principal p.2 = Some m → start_epoch p.2 = epoch m.
Proof using Hc Hq Hs.
  intros E Hl Hpost Hm. assert (Hp : p ∈ q) by (rewrite E; apply elem_of_app; left; by apply last_Some_elem_of).
  destruct p as [r s]. simpl in *. apply row_known in Hp. destruct (con_start _ _ _ Hc r s Hp) as (_ & m' & Hm' & He).
  assert (m' = m) as -> by congruence.
  destruct (con_all _ _ _ Hc _ m (epoch m) Hm ltac:(lia)) as [r' Hr'].
  apply row_known in Hr'. rewrite E in Hr'. apply elem_of_app in Hr' as [Hin|Hin]; [|by destruct (Hpost _ Hin)].
  destruct (before_last _ _ _ _ E Hl Hin) as [[= <- <-]|[[_ Hle]|[Hne _]]]; simpl in *; [done|lia|done].
Qed.

(** Two records of one deployment differ in their incarnations. *)
Lemma records_differ pre post x y :
  q = pre ++ y :: post → x ∈ pre → start_principal x.2 = start_principal y.2 → start_epoch x.2 ≠ start_epoch y.2.
Proof using Hc Hq Hs.
  intros E Hx Hp He. destruct x as [rx sx], y as [ry sy]. simpl in *. assert (sx = sy) as -> by (destruct sx, sy; simpl in *; congruence).
  pose proof rows_nodup as Hn. rewrite E, fmap_app in Hn. apply NoDup_app in Hn as (_ & Hn & _).
  apply (Hn rx); [by apply (list_elem_of_fmap_2 fst _ _ Hx)|]. simpl. apply elem_of_cons. left.
  apply (con_once _ _ _ Hc rx ry sy); apply row_known; rewrite E; set_solver.
Qed.

(** The record of the incarnation before that of a row has been read. *)
Lemma predecessor_read pre post r s :
  q = pre ++ (r, s) :: post → start_epoch s ≠ 1 →
  ∃ z, z ∈ pre ∧ start_principal z.2 = start_principal s ∧ start_epoch z.2 = start_epoch s - 1.
Proof using Hc Hq Hs.
  intros E He. assert (Hr : (r, s) ∈ q) by (rewrite E; set_solver). apply row_known in Hr.
  destruct (con_start _ _ _ Hc r s Hr) as (_ & m & Hm & Hr').
  destruct (con_all _ _ _ Hc _ m (start_epoch s - 1) Hm ltac:(lia)) as [r' Hz]. apply row_known in Hz. rewrite E in Hz.
  apply elem_of_app in Hz as [Hz|Hz]; [by exists (r', {| start_principal := start_principal s; start_epoch := start_epoch s - 1 |})|].
  exfalso. apply elem_of_cons in Hz as [Hz|Hz].
  - assert (Hee : start_epoch s - 1 = start_epoch s) by (injection Hz as _ Hz; destruct s; simpl in *; congruence). lia.
  - rewrite cons_middle, app_assoc in E. assert (Hb : before (r, s) (r', {| start_principal := start_principal s; start_epoch := start_epoch s - 1 |})).
    { apply (before_split _ _ _ _ E); [|done]. apply elem_of_app. right. by apply list_elem_of_singleton. }
    destruct Hb as [[_ Hle]|[Hne _]]; simpl in *; [lia|done].
Qed.

(** Rows of one deployment count up; a new deployment has not been seen and starts at one. *)
Lemma next_row pre post r s :
  q = pre ++ (r, s) :: post →
  match last pre with
  | Some p =>
      if decide (start_principal p.2 = start_principal s) then start_epoch s = start_epoch p.2 + 1
      else start_epoch s = 1 ∧ (∀ x, x ∈ pre → start_principal x.2 ≠ start_principal s) ∧
           (∀ y, y ∈ (r, s) :: post → start_principal y.2 ≠ start_principal p.2)
  | None => start_epoch s = 1
  end.
Proof using Hc Hq Hs.
  intros E. pose proof (predecessor_read pre post r s E) as Hpred. destruct (last pre) as [p|] eqn:El.
  2: { apply last_None in El as ->. destruct (decide (start_epoch s = 1)) as [|Hn]; [done|].
       by destruct (Hpred Hn) as (z & ?%not_elem_of_nil & _). }
  assert (Hp : p ∈ pre) by (by apply last_Some_elem_of).
  assert (Hps : before p (r, s)) by (apply (before_split _ _ _ _ E); [done|apply elem_of_cons; by left]).
  unfold before in Hps. cbn [snd] in Hps. case_decide as Heq.
  - pose proof (records_differ _ _ _ _ E Hp Heq) as Hd. destruct Hps as [[_ Hle]|[Hne _]]; [|done]. simpl in *.
    assert (1 <= start_epoch p.2).
    { destruct p as [rp sp]. assert (Hin : (rp, sp) ∈ q) by (rewrite E; set_solver). apply row_known in Hin.
      destruct (con_start _ _ _ Hc _ _ Hin) as (_ & m & _ & ?). simpl. lia. }
    destruct (Hpred ltac:(lia)) as (z & Hz & Hzp & Hze).
    destruct (before_last _ _ _ _ E El Hz) as [->|[[_ Hzl]|[Hne _]]]; [lia|lia|congruence].
  - assert (Hfresh : ∀ x, x ∈ pre → start_principal x.2 ≠ start_principal s).
    { intros x Hx Hxs. destruct (before_last _ _ _ _ E El Hx) as [->|Hb]; [done|].
      destruct Hb as [[? _]|[_ Hle]]; [congruence|]. destruct Hps as [[? _]|[_ Hle']]; [congruence|]. simpl in *.
      apply Heq. rewrite Hxs in Hle. by apply (anti_symm String.le). }
    split_and!; [|done|].
    + destruct (decide (start_epoch s = 1)) as [|Hn]; [done|]. destruct (Hpred Hn) as (z & Hz & Hzp & _). by destruct (Hfresh z Hz).
    + intros y Hy Hyp. apply elem_of_cons in Hy as [->|Hy]; [by apply Heq|].
      assert (Hsy : before (r, s) y).
      { rewrite cons_middle, app_assoc in E. apply (before_split _ _ _ _ E); [|done]. apply elem_of_app. right.
        by apply list_elem_of_singleton. }
      destruct Hsy as [[? _]|[_ Hle]]; [simpl in *; congruence|]. destruct Hps as [[? _]|[_ Hle']]; [congruence|].
      simpl in *. apply Heq. rewrite Hyp in Hle. by apply (anti_symm String.le).
Qed.

Lemma trail_complete pre post p t :
  q = pre ++ post → trails pre t → last pre = Some p → (∀ y, y ∈ post → start_principal y.2 ≠ start_principal p.2) →
  complete v t = true.
Proof using Hc Hq Hs.
  intros E [_ T2 _] Hl Hpost. rewrite Hl in T2. destruct T2 as [T2 T3]. unfold complete. rewrite T2, T3.
  assert (Hp : p ∈ q) by (rewrite E; apply elem_of_app; left; by apply last_Some_elem_of). destruct p as [r s].
  apply row_known in Hp. destruct (con_start _ _ _ Hc r s Hp) as (_ & m & Hm & _).
  rewrite (deployment_complete _ _ _ m E Hl Hpost Hm). simpl. rewrite Hm, Z.eqb_refl. apply orb_true_r.
Qed.

Lemma key_nonempty k m : v !! k = Some m → k ≠ "".
Proof using Hc.
  intros Hm ->. destruct (con_member _ _ _ Hc _ _ Hm) as (Hk & [_ Hw _ _] & _). apply principal_text_length in Hw.
  unfold key_of in Hk. by rewrite Hk in Hw.
Qed.

(** The checks of a row that do not depend on the capacity. *)
Lemma restore_start_moves pre post r s t :
  q = pre ++ (r, s) :: post → trails pre t →
  let moved := negb (String.eqb (previous t) (start_principal s)) in
  moved && negb (complete v t) = false ∧
  start_epoch s = (if moved then 0 else sequence t) + 1 ∧
  (if moved then deployments t + 1 else deployments t) =
    Z.of_nat (size (list_to_set (C := gset string) ((λ p, start_principal p.2) <$> pre ++ [(r, s)]))).
Proof using Hc Hq Hs.
  intros E Ht. pose proof (next_row _ _ _ _ E) as Hn. pose proof Ht as [_ T2 T3].
  assert (Hm : ∃ m, v !! start_principal s = Some m).
  { assert (Hin : (r, s) ∈ q) by (rewrite E; set_solver). apply row_known in Hin.
    destruct (con_start _ _ _ Hc r s Hin) as (_ & m & Hm & _). eauto. }
  destruct Hm as [m Hm]. apply key_nonempty in Hm as Hne. rewrite fmap_app, list_to_set_app_L. simpl. rewrite (right_id_L ∅ (∪)) by done.
  set (X := list_to_set _) in T3 |- *.
  assert (Hgrow : start_principal s ∉ X → Z.of_nat (size (X ∪ {[start_principal s]})) = deployments t + 1).
  { intros Hx. rewrite size_union, size_singleton by set_solver. lia. }
  destruct (last pre) as [p|] eqn:El.
  - destruct T2 as [T2 T4]. rewrite T2, T4. destruct (String.eqb_spec (start_principal p.2) (start_principal s)) as [Hp|Hp]; cbn [negb andb].
    + rewrite decide_True in Hn by done. split_and!; [done|lia|]. rewrite T3. do 2 f_equal.
      assert (start_principal s ∈ X); [|set_solver]. unfold X. apply elem_of_list_to_set, list_elem_of_fmap.
      exists p. split; [done|]. by apply last_Some_elem_of.
    + rewrite decide_False in Hn by done. destruct Hn as (He & Hfresh & Hpost).
      rewrite (trail_complete _ _ _ _ E Ht El Hpost). split_and!; [done|lia|]. symmetry. apply Hgrow.
      unfold X. rewrite elem_of_list_to_set. intros (x & Hx & Hin)%list_elem_of_fmap. by apply (Hfresh x Hin).
  - apply last_None in El as ->. destruct T2 as [T2 T4]. rewrite T2.
    destruct (String.eqb_spec "" (start_principal s)) as [|_]; [congruence|]. cbn [negb andb].
    unfold complete. rewrite T2. split_and!; [done|lia|]. symmetry. apply Hgrow. unfold X. set_solver.
Qed.

Lemma restore_start_spec l pre post r s t :
  q = pre ++ (r, s) :: post → trails pre t →
  if Z.of_nat (length pre) <? maximum_starts_ l
  then ∃ t', restore_start l v (start_row (r, s)) t = Some t' ∧ trails (pre ++ [(r, s)]) t'
  else restore_start l v (start_row (r, s)) t = None.
Proof using Hc Hq Hs.
  intros E Ht. destruct (restore_start_moves _ _ _ _ _ E Ht) as (Hmove & Hepoch & Hcount). pose proof Ht as [T1 T2 T3].
  assert (Hin : (r, s) ∈ q) by (rewrite E; set_solver). apply row_known in Hin.
  destruct (con_start _ _ _ Hc r s Hin) as (Hl & m & Hm & He). destruct (con_member _ _ _ Hc _ _ Hm) as (_ & Hg & _).
  pose proof (grantable_epoch _ Hg) as Hge.
  assert (Hnd : NoDup (pre.*1) ∧ r ∉ pre.*1).
  { pose proof rows_nodup as Hn. rewrite E, fmap_app in Hn. apply NoDup_app in Hn as (? & Hn & _). split; [done|].
    intros Hx. apply (Hn r Hx). simpl. apply elem_of_cons. by left. }
  destruct Hnd as [Hnd Hfresh]. assert (Hsize : size (known t) = length pre) by (rewrite T1; by apply map_size_list_to_map).
  unfold restore_start, start_row, launch_row. cbn [fst snd]. rewrite epoch_roundtrip, Hm, Hl, Hsize by lia. cbn [Nat.eqb negb orb].
  destruct (Z.ltb_spec (Z.of_nat (length pre)) (maximum_starts_ l)) as [Hcap|Hcap].
  2: { by rewrite (proj2 (Z.leb_le _ _) Hcap). }
  rewrite (proj2 (Z.leb_gt _ _) Hcap), Hmove. cbv zeta in Hcount |- *.
  set (moved := negb (String.eqb (previous t) (start_principal s))) in *.
  set (sq := if moved then 0 else sequence t) in *.
  rewrite (proj2 (Z.eqb_neq sq u64_max)) by lia. rewrite (proj2 (Z.eqb_eq (start_epoch s) (sq + 1))) by done.
  rewrite (proj2 (Z.ltb_ge (epoch m) (start_epoch s))) by lia.
  assert (Hnone : known t !! r = None) by (rewrite T1; by apply not_elem_of_list_to_map_1).
  rewrite Hnone, bool_decide_false by (by intros [? ?]). cbn [negb orb]. eexists. split; [done|]. split; simpl.
  - rewrite T1, list_to_map_snoc by done. by destruct s.
  - by rewrite last_snoc.
  - done.
Qed.

Lemma restore_starts_wp mode l pre post t (site : Site) :
  q = pre ++ post → trails pre t → Z.of_nat (length pre) <= maximum_starts_ l →
  wp mode (restore_starts l v (start_row <$> post) t)
    (λ t' s', s' = site ∧ trails q t' ∧ Z.of_nat (length q) <= maximum_starts_ l)
    (λ _ s', s' = site ∧ (mode = Reliable → ¬ Z.of_nat (size st) <= maximum_starts_ l)) site.
Proof using Hc Hq Hs.
  revert pre t. induction post as [|[r s] post IH]; intros pre t E Ht Hmax; cbn [fmap list_fmap restore_starts].
  { repeat sql_step; [by split; [|intros ->]|]. rewrite E, app_nil_r. done. }
  repeat sql_step; [by split; [|intros ->]| |by split; [|intros ->]].
  pose proof (restore_start_spec l _ _ _ _ _ E Ht) as Hrow.
  destruct (Z.ltb_spec (Z.of_nat (length pre)) (maximum_starts_ l)) as [Hf|Hf].
  - destruct Hrow as (t' & -> & Ht'). apply (IH (pre ++ [(r, s)])); [by rewrite E, cons_middle, app_assoc|done|].
    rewrite length_app. simpl. lia.
  - rewrite Hrow. sql_step. split; [done|]. intros _ Hfit.
    assert (Hlen : length q = size st) by (rewrite Hq; apply length_map_to_list).
    rewrite E, length_app, length_cons in Hlen. lia.
Qed.

(** At the end every deployment of the view has been seen. *)
Lemma trail_end t : trails q t → deployments t = Z.of_nat (size v) ∧ complete v t = true ∧ known t = st.
Proof using Hc Hq Hs.
  intros Ht. pose proof Ht as [T1 T2 T3]. split_and!.
  - rewrite T3, <- size_dom. do 2 f_equal. apply set_eq. intros k. rewrite elem_of_list_to_set, list_elem_of_fmap, elem_of_dom. split.
    + intros ([r s] & -> & Hin). apply row_known in Hin. destruct (con_start _ _ _ Hc r s Hin) as (_ & m & Hm & _). by exists m.
    + intros [m Hm]. destruct (con_member _ _ _ Hc _ _ Hm) as (_ & Hg & _). pose proof (grantable_epoch _ Hg).
      destruct (con_all _ _ _ Hc k m 1 Hm ltac:(lia)) as [r Hr]. eexists. split; [|by apply row_known]. done.
  - destruct (last q) as [p|] eqn:El.
    + apply (trail_complete q [] p); [by rewrite app_nil_r|done|done|]. by intros y ?%not_elem_of_nil.
    + destruct T2 as [T2 _]. unfold complete. by rewrite T2.
  - rewrite T1. transitivity (list_to_map (M := Starts) (map_to_list st)); [|apply list_to_map_to_list].
    apply list_to_map_proper; [apply rows_nodup|done].
Qed.
End trail.

(** ** Refinement *)

Definition with_log (log : Log) (l : Ledger) : Ledger :=
  {| members_ := members_of log; starts_ := starts_of log; galaxy_ := galaxy_ l; maximum_ := maximum_ l;
     maximum_starts_ := maximum_starts_ l; writable_ := writable_ l |}.

Definition log_fits (l : Ledger) (log : Log) : Prop := fits (maximum_ l) (maximum_starts_ l) (members_of log) (starts_of log).

Lemma reads_all gal v st r q :
  consistent gal v st → q ≡ₚ map_to_list v → reads q r → recovered r = v.
Proof.
  intros Hc Hq [R1 _ _ _]. rewrite R1. transitivity (list_to_map (M := Members) (map_to_list v)); [|apply list_to_map_to_list].
  apply list_to_map_proper; [|done]. rewrite Hq. apply NoDup_fst_map_to_list.
Qed.

Lemma member_rows_order v : ∃ q, in_order (body_of <$> v) = member_row <$> q ∧ q ≡ₚ map_to_list v.
Proof.
  assert (Hp : in_order (body_of <$> v) ≡ₚ member_row <$> map_to_list v).
  { unfold in_order. rewrite merge_sort_Permutation, map_to_list_fmap. done. }
  destruct (Permutation_map_inv _ _ Hp) as (q & Eq & Hq). by exists q.
Qed.

(** A transaction that only reads leaves the file. *)
Lemma commit_read_wp mode t (s : Site) :
  transaction_ s = Some t → file_ s = Stored t →
  wp mode commit_sql (λ _ s', s' = set_transaction None s)
    (λ _ s', mode = Faulty ∧ file_ s' = file_ s) s.
Proof.
  intros Ht Hf. unfold commit_sql. repeat sql_step. rewrite Ht. repeat sql_step; try done.
  unfold set_file, set_transaction. simpl. by rewrite Hf.
Qed.

Lemma rollback_wp mode (s : Site) (Q : bool → Site → Prop) E :
  (∀ b t, (transaction_ s = None → t = None) → Q b (set_transaction t s)) → wp mode rollback Q E s.
Proof.
  intros HQ. unfold rollback. repeat sql_step. destruct (transaction_ s) eqn:Et; repeat sql_step.
  - replace s with (set_transaction (transaction_ s) s) by (by destruct s). apply HQ. by rewrite Et.
  - by apply HQ.
  - replace s with (set_transaction None s) by (destruct s; simpl in *; by subst). by apply HQ.
Qed.

(** A restart reads back exactly what the tables hold, and fails only when a call fails or
    when the limits are too small. *)
Lemma restore_wp mode gal auth log (s : Site) :
  lawful gal log → file_ s = Stored (contents gal auth log) → transaction_ s = None → galaxy_ (ledger_ s) = gal →
  0 <= maximum_ (ledger_ s) → 0 <= maximum_starts_ (ledger_ s) →
  wp mode restore
    (λ _ s', file_ s' = file_ s ∧ transaction_ s' = None ∧ ledger_ s' = with_log log (ledger_ s) ∧ log_fits (ledger_ s) log)
    (λ _ s', file_ s' = file_ s ∧ (mode = Reliable → ¬ log_fits (ledger_ s) log)) s.
Proof.
  intros Hl Hf Ht Hg Hm Hn. pose proof (lawful_consistent _ _ Hl) as Hc. unfold restore, begin_sql.
  repeat sql_step; [by split; [|intros ->]|]. rewrite Ht, Hf. apply wp_modify, wp_on_throw.
  set (s1 := set_transaction (Some (contents gal auth log)) s).
  eapply wp_mono with (E := λ _ s', file_ s' = Stored (contents gal auth log) ∧ (mode = Reliable → ¬ log_fits (ledger_ s) log)).
  2: { intros a s' Ha. exact Ha. }
  2: { intros e s' He. apply wp_bind, rollback_wp. intros b t _. by apply wp_ret. }
  repeat sql_step; [|by split; [|intros ->]]. cbn [transaction_ s1 set_transaction ledger_].
  destruct (member_rows_order (members_of log)) as (qm & Em & Hqm).
  destruct (ordered_rows _ _ _ (contents gal auth log) Hc eq_refl) as (qs & Es & Hqs & Hss).
  cbn [contents member_rows]. rewrite Em, Es. repeat sql_step; [by split; [|intros ->]|].
  eapply wp_mono; [apply (restore_members_wp mode gal (members_of log) (starts_of log) _ [] qm); [done|done|done|apply reads_empty|done]| |].
  2: { intros e s' [-> He]. split; [done|]. intros Hr [Hfit _]. by apply He. }
  intros r s' (-> & Hr & Hfit). simpl in Hr, Hfit. rewrite (reads_all _ _ _ _ _ Hc Hqm Hr).
  repeat sql_step; [by split; [|intros ->]|].
  eapply wp_mono; [apply (restore_starts_wp gal _ _ Hc qs Hqs Hss mode _ [] qs)| |].
  - done.
  - by split.
  - done.
  - intros t s' (-> & Ht' & Hlen). destruct (trail_end _ _ _ Hc _ Hqs Hss t Ht') as (-> & -> & Hk).
    repeat sql_step; [|by rewrite Z.eqb_refl in *].
    eapply wp_mono; [apply (commit_read_wp mode (contents gal auth log)); [done|by rewrite <- Hf]| |].
    + intros _ s' ->. repeat sql_step. unfold install, with_log. simpl. rewrite Hk. split_and!; [done..|].
      split; [by intros x; rewrite <- (role_total_perm _ _ _ Hqm)|].
      by rewrite <- (length_map_to_list (starts_of log)), <- Hqs.
    + intros e s' [-> He]. split; [by rewrite He|discriminate].
  - intros e s' [-> He]. split; [done|]. intros Hr' [_ Hfit']. by apply He.
Qed.

(** *** Registering *)
Lemma survey_spec m k l n c :
  survey m k l n = Some c →
  c = n + role_total (role m) l ∧ ∀ p, p ∈ l → p.1 ≠ k → id p.2 ≠ id m ∧ address p.2 ≠ address m.
Proof.
  revert n. induction l as [|[k' o] l IH]; intros n; simpl.
  { intros [= <-]. split; [unfold role_total; simpl; lia|by intros p ?%not_elem_of_nil]. }
  destruct (negb (String.eqb k' k) && _) eqn:Ec; [done|]. intros Hs. destruct (IH _ Hs) as [-> Hall]. split.
  - change ((k', o) :: l) with ([(k', o)] ++ l). rewrite role_total_app, role_total_one. simpl.
    repeat case_bool_decide; try congruence; lia.
  - intros p [->|Hp]%elem_of_cons Hne; [|by apply Hall]. simpl in *.
    apply andb_false_iff in Ec as [Ec|Ec]; [apply negb_false_iff, String.eqb_eq in Ec; done|].
    apply orb_false_iff in Ec as [E1%String.eqb_neq E2%bool_decide_eq_false]. done.
Qed.

Lemma role_total_insert v k m x :
  role_total x (map_to_list (<[k := m]> v)) =
  role_total x (map_to_list v) + role_total x [(k, m)] - match v !! k with Some o => role_total x [(k, o)] | None => 0 end.
Proof.
  destruct (v !! k) as [o|] eqn:Ek.
  - rewrite (role_total_perm x (map_to_list v) ([(k, o)] ++ map_to_list (delete k v))).
    + rewrite <- insert_delete_eq, (role_total_perm x _ ([(k, m)] ++ map_to_list (delete k v))).
      * rewrite !role_total_app. lia.
      * apply map_to_list_insert, lookup_delete_eq.
    + rewrite <- (insert_delete_id v k o Ek) at 1. apply map_to_list_insert, lookup_delete_eq.
  - rewrite (role_total_perm x _ ([(k, m)] ++ map_to_list v)) by (by apply map_to_list_insert). rewrite role_total_app. lia.
Qed.

Definition holding (log : Log) (l : Ledger) : Prop := members_ l = members_of log ∧ starts_ l = starts_of log.

(** What the checks of a registration establish. *)
Lemma validated_next l log m q :
  holding log l → log_fits l log → Principal.well_formed (principal m) →
  (1 <= String.length (body_of m) <= 1024)%nat → (∀ k o, members_of log !! k = Some o → 0 <= epoch o <= u64_max) →
  validate_record l m q (members_ l) = Expected tt →
  next (galaxy_ l) log (q, m) ∧ log_fits l (log ++ [(q, m)]).
Proof.
  intros [Hm Hs] [F1 F2] Hw Hb Hu. unfold validate_record. rewrite Hm, Hs.
  destruct (validate m) as [[]|] eqn:Ev; [|done]. cbn [orb].
  destruct (String.eqb_spec (galaxy m) (galaxy_ l)) as [Hg|]; [|done].
  destruct (Nat.eqb_spec (String.length q) 32) as [Hq|]; [|done]. cbn [negb orb].
  case_bool_decide as Hfresh; [done|]. apply eq_None_not_Some in Hfresh.
  destruct (Z.leb_spec (maximum_starts_ l) (Z.of_nat (size (starts_of log)))) as [|Hroom]; [done|].
  fold (reached (members_of log) (key_of m)).
  destruct (Z.eqb_spec (reached (members_of log) (key_of m)) u64_max) as [|Hmax]; [done|].
  destruct (Z.eqb_spec (epoch m) (reached (members_of log) (key_of m) + 1)) as [He|]; [|done]. cbn [negb orb].
  destruct (match members_of log !! key_of m with None => false | Some o => negb (replaces m o) end) eqn:Erep; [done|].
  destruct (survey m (key_of m) (in_order (members_of log)) 0) as [c|] eqn:Esv; [|done].
  destruct (survey_spec _ _ _ _ _ Esv) as [-> Hother].
  rewrite (role_total_perm _ (in_order _) (map_to_list (members_of log))) in * by apply merge_sort_Permutation.
  intros Hcap. split.
  - split; simpl; try done.
    + split; try done. destruct (reached_cases (members_of log) (key_of m)) as [[_ E]|(o & Ho & E)]; [unfold u64_max in *; lia|].
      pose proof (Hu _ _ Ho). lia.
    + intros o Ho. rewrite Ho in Erep. apply negb_false_iff in Erep. unfold replaces in Erep.
      rewrite !andb_true_iff, !bool_decide_eq_true, negb_true_iff, String.eqb_neq in Erep. tauto.
    + intros k o Ho Hk. apply (Hother (k, o)); [by apply in_order_elem|done].
  - split.
    + intros x. rewrite members_snoc, role_total_insert. specialize (F1 x). cbn [snd fst].
      destruct (members_of log !! key_of m) as [o|] eqn:Ho.
      * apply negb_false_iff in Erep. unfold replaces in Erep. rewrite !andb_true_iff, !bool_decide_eq_true in Erep.
        rewrite !role_total_one. simpl. destruct Erep as [[-> _] _]. lia.
      * rewrite bool_decide_false in Hcap by (by intros [? ?]). cbn [negb andb] in Hcap.
        destruct (Z.leb_spec (maximum_ l) (0 + role_total (role m) (map_to_list (members_of log)))); [done|].
        rewrite role_total_one. simpl. case_bool_decide; [subst|]; lia.
    + rewrite starts_snoc. simpl. rewrite map_size_insert_None by done. lia.
Qed.

(** The row of a new incarnation breaks no constraint. *)
Lemma start_unique gal log q m :
  lawful gal log → next gal log (q, m) →
  forallb (λ r, negb (bool_decide (r.2 = (key_of m, epoch_bytes (epoch m))))) (map_to_list (launch_row <$> starts_of log)) = true.
Proof.
  intros Hl Hn. apply forallb_forall. intros [r [k e]] Hin. apply list_elem_of_In, elem_of_map_to_list in Hin.
  rewrite lookup_fmap in Hin. destruct (starts_of log !! r) as [s|] eqn:Es; [|done]. cbn [fmap option_fmap option_map] in Hin.
  apply (inj Some) in Hin. rewrite <- Hin. apply negb_true_iff, bool_decide_eq_false. simpl. intros E. pose proof (f_equal fst E) as Ek.
  pose proof (f_equal snd E) as Ee. simpl in Ek, Ee. pose proof (lawful_consistent _ _ Hl) as Hc.
  destruct (con_start _ _ _ Hc r s Es) as (_ & o & Ho & Hr). destruct (con_member _ _ _ Hc _ _ Ho) as (_ & Hg & _).
  pose proof (grantable_epoch _ Hg). pose proof (grantable_epoch _ (next_member _ _ _ Hn)) as Hm. simpl in Hm.
  apply epoch_bytes_inj in Ee; [|unfold is_u64; lia..]. pose proof (next_epoch _ _ _ Hn) as N. simpl in N.
  unfold reached in N. rewrite <- Ek, Ho in N. lia.
Qed.

Definition isolated (l : Ledger) : Ledger :=
  {| members_ := members_ l; starts_ := starts_ l; galaxy_ := galaxy_ l; maximum_ := maximum_ l;
     maximum_starts_ := maximum_starts_ l; writable_ := false |}.

Lemma contents_snoc gal auth log q m :
  contents gal auth (log ++ [(q, m)]) =
  {| meta_galaxy := gal; meta_authority := auth; member_rows := <[key_of m := body_of m]> (member_rows (contents gal auth log));
     start_rows := <[q := (key_of m, epoch_bytes (epoch m))]> (start_rows (contents gal auth log)) |}.
Proof. unfold contents. rewrite members_snoc, starts_snoc, !fmap_insert. done. Qed.

(** The transaction of a registration writes both rows or fails; a failure leaves the file
    as it was or as it would have been. *)
Lemma commit_wp mode gal auth log q m (s : Site) :
  lawful gal log → next gal log (q, m) → file_ s = Stored (contents gal auth log) → transaction_ s = None →
  wp mode (commit m q (body_of m))
    (λ b s', if b : bool then s' = set_file (Stored (contents gal auth (log ++ [(q, m)]))) s
             else mode = Faulty ∧ ledger_ s' = isolated (ledger_ s) ∧
                  (file_ s' = file_ s ∨ file_ s' = Stored (contents gal auth (log ++ [(q, m)]))))
    (λ _ s', s' = s ∧ mode = Faulty) s.
Proof.
  intros Hl Hn Hf Ht. pose proof (next_member _ _ _ Hn) as [_ Hw Hm Hb]. simpl in *. pose proof (next_request _ _ _ Hn) as Hq.
  simpl in Hq. pose proof (principal_text_length _ Hw) as Hk. fold (key_of m) in Hk.
  destruct Hb as [Hb1%Nat.leb_le Hb2%Nat.leb_le]. unfold commit. rewrite Hb1, Hb2.
  apply wp_bind, wp_require; [intros _|done]. apply wp_bind, wp_alloc; [|done]. apply wp_catching.
  set (P s' := ledger_ s' = ledger_ s ∧ (file_ s' = file_ s ∨ file_ s' = Stored (contents gal auth (log ++ [(q, m)])))).
  eapply wp_mono with (Q := λ b s', b = true ∧ s' = set_file (Stored (contents gal auth (log ++ [(q, m)]))) s)
    (E := λ _ s', mode = Faulty ∧ P s').
  2: { intros b s' [-> ->]. done. }
  2: { intros e s' (Hmode & Hled & Hfile). apply wp_bind, wp_modify, wp_bind, rollback_wp. intros b t _. apply wp_ret. simpl.
       by rewrite <- Hled. }
  assert (HP : P s) by (split; [done|by left]).
  assert (Hbind : ∀ x Q, (String.length x <=? 2048)%nat = true → Q tt s → wp mode (bind_value x) Q (λ _ s', mode = Faulty ∧ P s') s).
  { intros x Q Hx HQ. unfold bind_value. rewrite Hx. repeat sql_step; done. }
  repeat ((apply wp_bind, wp_io; [done|]) || (apply wp_bind, Hbind;
    [rewrite ?epoch_bytes_length, ?Hk, ?Hq; (done || (apply Nat.leb_le in Hb2; apply Nat.leb_le; lia))|])).
  assert (HPt : ∀ t, P (set_transaction t s)) by (intros t; split; [done|by left]).
  unfold begin_sql. apply wp_bind, wp_bind, wp_io; [done|]. apply wp_bind, wp_read. rewrite Ht, Hf. apply wp_modify.
  unfold upsert_member. apply wp_bind, wp_bind, wp_io; [done|]. apply wp_bind, wp_read. cbn [transaction_ set_transaction].
  rewrite Hk, Hb1, Hb2. apply wp_bind, wp_require; [intros _|done]. apply wp_modify.
  unfold insert_start. apply wp_bind, wp_bind, wp_io; [done|]. apply wp_bind, wp_read. cbn [transaction_ set_transaction start_rows member_rows].
  rewrite Hq, epoch_bytes_length, lookup_insert_eq. cbn [start_rows contents]. pose proof (next_fresh _ _ _ Hn) as Hfr. simpl in Hfr.
  rewrite lookup_fmap, Hfr, (start_unique _ _ _ _ Hl Hn).
  rewrite bool_decide_false, bool_decide_true by (done || by intros [? ?]).
  apply wp_bind, wp_require; [intros _|done]. apply wp_modify.
  unfold commit_sql. apply wp_bind, wp_bind, wp_read. cbn [transaction_ set_transaction meta_galaxy meta_authority contents member_rows start_rows].
  pose proof (contents_snoc gal auth log q m) as Hnew. cbn [member_rows start_rows contents] in Hnew. rewrite <- Hnew.
  repeat sql_step; try (split; [done|]); try (split; [done|]; by right); try apply HPt.
  unfold set_file, set_transaction. simpl. by rewrite Ht.
Qed.

(** A running process: what its view shows, and what the file holds beyond it after a
    commit of unknown outcome. *)
Record holds (gal auth : string) (log pending : Log) (s : Site) : Prop := {
  holds_file : file_ s = Stored (contents gal auth (log ++ pending));
  holds_lawful : lawful gal log;
  holds_all : lawful gal (log ++ pending);
  holds_view : holding log (ledger_ s);
  holds_galaxy : galaxy_ (ledger_ s) = gal;
  holds_pending : pending = [] ∨ (∃ g, pending = [g]) ∧ writable_ (ledger_ s) = false;
  holds_idle : writable_ (ledger_ s) = true → transaction_ s = None;
  holds_fits : log_fits (ledger_ s) (log ++ pending)
}.

Lemma holds_granted gal auth log g (s : Site) t :
  holds gal auth log [] s → writable_ (ledger_ s) = true → next gal log g → log_fits (ledger_ s) (log ++ [g]) →
  t = set_file (Stored (contents gal auth (log ++ [g]))) s →
  holds gal auth (log ++ [g]) [] (publish g.2 g.1 t).
Proof.
  intros [_ Hl _ [Hm Hs] Hg _ Hi _] Hw Hn Hf ->. destruct g as [q m].
  assert (Hl' : lawful gal (log ++ [(q, m)])) by (by constructor).
  split; rewrite ?app_nil_r; try done.
  - split; simpl; [by rewrite members_snoc, Hm|by rewrite starts_snoc, Hs].
  - by left.
Qed.

Lemma holds_isolated gal auth log g (s s' : Site) :
  holds gal auth log [] s → next gal log g → log_fits (ledger_ s) (log ++ [g]) → ledger_ s' = isolated (ledger_ s) →
  file_ s' = file_ s ∨ file_ s' = Stored (contents gal auth (log ++ [g])) →
  ∃ pending, (pending = [] ∨ pending = [g]) ∧ holds gal auth log pending s'.
Proof.
  intros [Hfile Hl _ Hv Hg _ _ Hfit] Hn Hf Hled [E|E].
  - exists []. split; [by left|]. rewrite app_nil_r in *. split; rewrite ?app_nil_r, ?Hled; try done; [by rewrite E|by left].
  - exists [g]. split; [by right|]. split; rewrite ?Hled; try done; [by constructor|right; by split; [exists g|]].
Qed.

(** A registration answers with the member the log has for the request, which is then the
    current one of its deployment; anything else leaves the view as it was. *)
Lemma register_wp mode {R} gal auth log pending (s : Site) c q (prepare : Member → Members → outcome R) :
  holds gal auth log pending s → Principal.well_formed (principal c) →
  wp mode (register_member c q prepare)
    (λ a s', match a with
      | Expected x => ∃ m log', pending = [] ∧ prepare m (members_of log') = Done x ∧ holds gal auth log' [] s' ∧
          (log' = log ∧ s' = s ∨ log' = log ++ [(q, m)]) ∧
          (q, m) ∈ log' ∧ members_of log' !! key_of m = Some m ∧ principal m = principal c ∧ role m = role c
      | Unexpected _ => s' = s ∨ pending = [] ∧ mode = Faulty ∧ ∃ m pending', holds gal auth log pending' s' ∧
          (pending' = [] ∨ pending' = [(q, m)])
      end)
    (λ _ s', s' = s) s.
Proof.
  intros Hh Hw. pose proof Hh as [Hfile Hl _ [Hm Hs] Hg Hp Hi Hfit]. pose proof (lawful_consistent _ _ Hl) as Hc.
  unfold register_member. apply wp_bind, wp_gets.
  destruct (writable_ (ledger_ s)) eqn:Ewr; cbn [negb]; [|apply wp_ret; by left].
  destruct Hp as [->|[_ ?]]; [|done]. rewrite app_nil_r in *. apply wp_if; intros Hin; [apply wp_ret; by left|].
  apply wp_bind, wp_alloc; [|done]. rewrite Hm, Hs.
  destruct (starts_of log !! q) as [st|] eqn:Est.
  { destruct (members_of log !! key_of c) as [o|] eqn:Eo; [|apply wp_ret; by left].
    apply wp_if; intros Hmis; [apply wp_ret; by left|]. apply wp_bind, wp_lift.
    destruct (prepare o (members_of log)) as [x|] eqn:Epr; [|done]. apply wp_ret. exists o, log.
    rewrite !orb_false_iff, !negb_false_iff, String.eqb_eq, Z.eqb_eq, bool_decide_eq_true in Hmis.
    destruct Hmis as [[[[H1 H2] H3] _] _].
    destruct (con_member _ _ _ Hc _ _ Eo) as (Hk & Hgo & _). split_and!; try done.
    - by left.
    - by apply (granted_current gal log q st (key_of c)).
    - by rewrite Hk.
    - apply text_inj; [by destruct Hgo|done|done]. }
  apply wp_if; intros Hex; [apply wp_ret; by left|]. apply wp_bind, wp_alloc; [|done].
  set (m := with_epoch _ c). rewrite <- Hm. apply wp_bind, wp_ret.
  destruct (validate_record (ledger_ s) m q (members_ (ledger_ s))) as [[]|] eqn:Ev; [|apply wp_ret; by left].
  do 3 (apply wp_bind, wp_alloc; [|done]). apply wp_bind, wp_lift. rewrite Hm.
  change (<[key_of c := m]> (members_of log)) with (<[key_of (q, m).2 := (q, m).2]> (members_of log)). rewrite <- members_snoc.
  destruct (prepare m (members_of (log ++ [(q, m)]))) as [x|] eqn:Epr; [|done]. apply wp_bind.
  destruct (decide (1 <= String.length (body_of m) <= 1024)%nat) as [Hb|Hb].
  2: { unfold commit. apply wp_bind, wp_require; [|done]. rewrite andb_true_iff, !Nat.leb_le. lia. }
  destruct (validated_next (ledger_ s) log m q) as [Hn Hf]; try done.
  { intros k o Ho. destruct (con_member _ _ _ Hc _ _ Ho) as (_ & [_ _ He _] & _). lia. }
  rewrite Hg in Hn. eapply wp_mono; [apply (commit_wp mode gal auth log); [done|done|done|by apply Hi]| |].
  - intros [] s' Hcom.
    + apply wp_bind, wp_modify, wp_ret. exists m, (log ++ [(q, m)]).
      split_and!; [done|done|by apply (holds_granted _ _ _ (q, m) s)|by right| |by rewrite members_snoc, lookup_insert_eq|done|done].
      apply elem_of_app. right. by apply list_elem_of_singleton.
    + apply wp_ret. right. destruct Hcom as (-> & Hled & Hfl). split_and!; [done|done|]. exists m.
      destruct (holds_isolated gal auth log (q, m) s s') as (pending & Hpend & Hh'); try done.
      exists pending. split; [done|]. by destruct Hpend; [left|right].
  - by intros e s' [-> _].
Qed.

(** *** Opening *)

(** What a file can become while a process is being started on it. *)
Definition opened (gal auth : string) (initialize : bool) (f f' : File) : Prop :=
  f' = f ∨ initialize = true ∧ f = Absent ∧ (f' = Blank ∨ f' = Stored (contents gal auth [])).

Lemma open_database_wp mode gal auth initialize (s : Site) :
  (String.length gal <= 2048)%nat → (String.length auth <= 2048)%nat →
  wp mode (open_database gal auth initialize)
    (λ _ s', ∃ t, file_ s' = Stored t ∧ meta_galaxy t = gal ∧ meta_authority t = auth ∧
       opened gal auth initialize (file_ s) (file_ s') ∧ s' = set_file (file_ s') s)
    (λ _ s', opened gal auth initialize (file_ s) (file_ s') ∧
       (mode = Reliable → ¬ (initialize = false ∧ ∃ log, file_ s = Stored (contents gal auth log)))) s.
Proof.
  intros Hlg%Nat.leb_le Hla%Nat.leb_le. unfold open_database, create_schema, bind_value. rewrite Hlg, Hla.
  assert (Hblank : opened gal auth true Absent Blank) by (right; auto).
  assert (Hfresh : opened gal auth true Absent
    (Stored {| meta_galaxy := gal; meta_authority := auth; member_rows := ∅; start_rows := ∅ |})).
  { right. split_and!; [done|done|right]. unfold contents, members_of, starts_of. cbn [foldl]. by rewrite !fmap_empty. }
  destruct initialize.
  - repeat sql_step; try (split; [by left|by intros _ [? _]]). destruct (file_ s) eqn:Ef; repeat sql_step.
    all: cbn [file_ set_file]; repeat sql_step.
    all: try (split; [first [exact Hblank|exact Hfresh|by left]|by intros _ [? _]]).
    eexists. split_and!; [done|done|done|exact Hfresh|done].
  - repeat sql_step; try (split; [by left|by intros ->]). destruct (file_ s) as [| |t] eqn:Ef; repeat sql_step.
    all: try (split; [by left|by intros _ (_ & ? & ?)]).
    all: try (split; [by left|by intros ->]).
    rewrite Ef. repeat sql_step.
    + match goal with E : _ && _ = true |- _ => apply andb_true_iff in E as [E1%String.eqb_eq E2%String.eqb_eq] end.
      exists t. split_and!; [done|done|done|by left|by destruct s; simpl in *; subst].
    + split; [by left|]. intros _ (_ & log & [= ->]). simpl in *. by rewrite !String.eqb_refl in *.
Qed.

Lemma configured_lengths gal auth m n :
  configured gal auth m n = true → (String.length gal <= 2048)%nat ∧ (String.length auth <= 2048)%nat.
Proof.
  unfold configured. destruct (valid_name gal) eqn:Hn; [|done]. destruct (Principal.parse auth) as [p|] eqn:Hp; [|done].
  intros _. apply Principal.principal_roundtrip in Hp as [Hw <-]. rewrite (principal_text_length _ Hw).
  unfold valid_name in Hn. rewrite !andb_true_iff in Hn. rewrite <- Principal.length_chars. lia.
Qed.

(** A started process shows the log of its file; a start that fails leaves the file, or
    one just initialized. *)
Lemma make_ledger_wp mode gal auth m n initialize (s : Site) g0 a0 log :
  0 <= m → 0 <= n →
  match file_ s with Stored t => t = contents g0 a0 log ∧ lawful g0 log | _ => log = [] end →
  wp mode (make_ledger gal auth m n initialize)
    (λ _ s', holds gal auth log [] s' ∧ writable_ (ledger_ s') = true ∧ opened gal auth initialize (file_ s) (file_ s'))
    (λ _ s', opened gal auth initialize (file_ s) (file_ s') ∧
       (mode = Reliable → ¬ (initialize = false ∧ configured gal auth m n = true ∧ file_ s = Stored (contents gal auth log) ∧
          fits m n (members_of log) (starts_of log)))) s.
Proof.
  intros Hm Hn Hf. unfold make_ledger. apply wp_bind, wp_modify, wp_bind, wp_modify, wp_bind.
  apply wp_require; intros Hcfg; [|split; [by left|intros _ (_ & ? & _); congruence]].
  destruct (configured_lengths _ _ _ _ Hcfg) as [Hlg Hla]. apply wp_bind.
  eapply wp_mono; [apply (open_database_wp mode gal auth initialize); done| |].
  2: { intros e s' [Ho He]. split; [exact Ho|]. intros Hr (Hi & _ & Hs & _). apply He; [done|]. split; [done|]. by exists log. }
  intros _ s' (t & Hft & Hgal & Hauth & Ho & Hs').
  assert (Ht : t = contents gal auth log ∧ lawful gal log).
  { destruct Ho as [E|(_ & E & [E'|E'])]; cbn [file_ set_ledger set_transaction] in E.
    - rewrite <- E, Hft in Hf. destruct Hf as [-> Hl]. simpl in Hgal, Hauth. by subst.
    - congruence.
    - rewrite E in Hf. subst log. split; [congruence|constructor]. }
  destruct Ht as [-> Hl]. rewrite Hs', Hft. cbn [file_ set_file].
  eapply wp_mono; [apply (restore_wp mode gal auth log); done| |].
  - intros _ s'' (Hf'' & Ht'' & Hled & Hfit). rewrite Hft in Ho. simpl in Hf''. split_and!.
    + split; rewrite ?app_nil_r, ?Hled; try done; by left.
    + by rewrite Hled.
    + rewrite Hf''. exact Ho.
  - intros e s'' (Hf'' & Hfit). simpl in Hf''. rewrite Hf''. split; [rewrite <- Hft; exact Ho|].
    intros Hr (_ & _ & _ & Hfits). by apply Hfit.
Qed.

(** *** Histories *)

(** Arguments within their machine types: digests have their 32 bytes, limits are
    unsigned. *)
Definition event_ok (e : event) : Prop :=
  match e with
  | Launch _ _ m n _ _ => 0 <= m ∧ 0 <= n
  | Register c _ _ _ => Principal.well_formed (principal c)
  | Crash => True
  end.

(** A file that holds a log. *)
Definition stores (f : File) (log : Log) : Prop :=
  match f with Stored t => ∃ gal auth, t = contents gal auth log ∧ lawful gal log | _ => log = [] end.

(** Answers in the order they were given: one request is one member, and a deployment
    never goes back to an incarnation it has left. *)
Definition fences (a b : string * Member) : Prop :=
  (a.1 = b.1 → a.2 = b.2) ∧
  (principal a.2 = principal b.2 → epoch a.2 <= epoch b.2 ∧ (epoch a.2 = epoch b.2 → a = b)).

Definition world_inv (w : World) (log : Log) : Prop :=
  stores (disk w) log ∧ StronglySorted fences (served w) ∧
  match process w with
  | None => ∀ g, g ∈ served w → g ∈ log
  | Some s => ∃ gal auth seen pending, log = seen ++ pending ∧ holds gal auth seen pending s ∧ disk w = file_ s ∧
                ∀ g, g ∈ served w → g ∈ seen
  end.

Lemma holds_stores gal auth seen pending (s : Site) : holds gal auth seen pending s → stores (file_ s) (seen ++ pending).
Proof. intros []. unfold stores. rewrite holds_file0. by exists gal, auth. Qed.

Lemma opened_stores gal auth i f f' log : opened gal auth i f f' → stores f log → stores f' log.
Proof.
  intros [->|(_ & -> & [->| ->])]; [done|done|]. simpl. intros ->. exists gal, auth. by split; [|constructor].
Qed.

(** An answer is fenced by all the earlier ones. *)
Lemma served_snoc gal log (l : Log) q m :
  lawful gal log → (q, m) ∈ log → members_of log !! key_of m = Some m → (∀ g, g ∈ l → g ∈ log) →
  StronglySorted fences l → StronglySorted fences (l ++ [(q, m)]).
Proof.
  intros Hl Hin Hcur Hall Hs. apply StronglySorted_app. split_and!; [|done|repeat constructor].
  intros [q' m'] ? Hg ->%list_elem_of_singleton. specialize (Hall _ Hg). split; simpl.
  - intros ->. by apply (granted_once gal log q q m' m); [..|left].
  - intros Hp. assert (Hk : key_of m' = key_of m) by (unfold key_of; by rewrite Hp).
    destruct (granted_kept _ _ _ _ Hl Hall) as (_ & c & Hc & He & _). rewrite Hk, Hcur in Hc. injection Hc as <-.
    split; [done|]. intros E. destruct (granted_once gal log q' q m' m Hl Hall Hin) as [-> ->]; [by right|done].
Qed.

Lemma launch_inv w log gal auth m n i f :
  process w = None → world_inv w log → 0 <= m → 0 <= n →
  world_inv (world_step w (Launch gal auth m n i f)) log.
Proof.
  intros Hp (Hst & Hsv & Hall) Hm Hn. rewrite Hp in Hall. cbn [world_step]. rewrite Hp.
  set (s := {| file_ := disk w; transaction_ := None; ledger_ := blank_ledger |}).
  assert (Hf : ∃ g0 a0, match file_ s with Stored t => t = contents g0 a0 log ∧ lawful g0 log | _ => log = [] end).
  { simpl. unfold stores in Hst. destruct (disk w); [by exists "", ""|by exists "", ""|]. by destruct Hst as (g & a & ?); exists g, a. }
  destruct Hf as (g0 & a0 & Hf).
  pose proof (make_ledger_wp Faulty gal auth m n i s g0 a0 log Hm Hn Hf f I) as Hwp.
  destruct (make_ledger gal auth m n i s f) as [[[[]|e] s'] f']; destruct Hwp as [_ Hwp].
  - destruct Hwp as (Hh & _ & Ho). split_and!; [by eapply opened_stores|done|]. simpl.
    exists gal, auth, log, []. rewrite app_nil_r. split_and!; [done|done|done|done].
  - destruct Hwp as [Ho _]. split_and!; [by eapply opened_stores|done|done].
Qed.

Lemma register_inv w log (s : Site) c q p f :
  process w = Some s → world_inv w log → Principal.well_formed (principal c) →
  ∃ log', log `prefix_of` log' ∧ world_inv (world_step w (Register c q p f)) log'.
Proof.
  intros Hp (Hst & Hsv & Hall) Hw. rewrite Hp in Hall. destruct Hall as (gal & auth & seen & pending & -> & Hh & Hd & Hall).
  cbn [world_step]. rewrite Hp.
  pose proof (register_wp Faulty gal auth seen pending s c q (answering p) Hh Hw f I) as Hwp.
  assert (Hkeep : ∃ log', seen ++ pending `prefix_of` log' ∧
    world_inv {| disk := file_ s; process := Some s; served := served w |} log').
  { exists (seen ++ pending). split; [done|]. split_and!; [by rewrite <- Hd|done|]. simpl. by exists gal, auth, seen, pending. }
  destruct (register_member c q (answering p) s f) as [[[[x|e]|e] s'] f']; destruct Hwp as [_ Hwp].
  - destruct Hwp as (m & log' & -> & Hpr & Hh' & Hlog & Hin & Hcur & _). unfold answering in Hpr.
    destruct (p m (members_of log')) as [[]|]; [|done]. injection Hpr as <-. rewrite app_nil_r.
    assert (Hpre : seen `prefix_of` log') by (destruct Hlog as [[-> _]| ->]; [done|by apply prefix_app_r]).
    assert (Hsub : ∀ g, g ∈ served w → g ∈ log') by (intros g Hg; eapply elem_of_prefix; [by apply Hall|done]).
    exists log'. split; [done|]. split_and!; simpl.
    + pose proof (holds_stores _ _ _ _ _ Hh') as Hs'. by rewrite app_nil_r in Hs'.
    + apply (served_snoc gal log'); try done. apply Hh'.
    + exists gal, auth, log', []. rewrite app_nil_r. split_and!; try done.
      intros g [Hg|Hg%list_elem_of_singleton]%elem_of_app; [by apply Hsub|by subst].
  - destruct Hwp as [->|(-> & _ & m & pending' & Hh' & Hor)]; [done|]. rewrite app_nil_r in *.
    exists (seen ++ pending'). split; [by apply prefix_app_r|]. split_and!; simpl; [by eapply holds_stores|done|].
    by exists gal, auth, seen, pending'.
  - by subst.
Qed.

Lemma world_step_inv w log e :
  world_inv w log → event_ok e → ∃ log', log `prefix_of` log' ∧ world_inv (world_step w e) log'.
Proof.
  intros Hi He. destruct e as [gal auth m n i f|c q p f|]; destruct (process w) as [s|] eqn:Ep.
  - exists log. cbn [world_step]. by rewrite Ep.
  - exists log. split; [done|]. by apply launch_inv; try apply He.
  - by eapply register_inv.
  - exists log. cbn [world_step]. by rewrite Ep.
  - exists log. split; [done|]. cbn [world_step]. rewrite Ep. destruct Hi as (Hst & Hsv & Hall). rewrite Ep in Hall.
    destruct Hall as (gal & auth & seen & pending & -> & Hh & Hd & Hall). rewrite Hd in Hst. split_and!; [done|done|].
    simpl. intros g Hg. apply elem_of_app. left. by apply Hall.
  - exists log. cbn [world_step]. by rewrite Ep.
Qed.

Lemma world_run_inv es : Forall event_ok es → ∃ log, world_inv (world_run es) log.
Proof.
  induction es as [|e es IH] using rev_ind; intros Hes.
  - exists []. split_and!; [done|apply SSorted_nil|by intros g ?%not_elem_of_nil].
  - apply Forall_app in Hes as [Hes He]. apply Forall_inv in He. destruct (IH Hes) as [log Hi]. unfold world_run. rewrite foldl_app. simpl.
    destruct (world_step_inv _ _ e Hi He) as (log' & _ & Hi'). by exists log'.
Qed.

(** C8. The registry of Pulsar refines an append-only log of grants, whatever crashes.
    After any history of starts, registrations and ends of the process, with any call of
    the database or of the allocator failing and any COMMIT of unknown outcome, the tables
    hold exactly a lawful log (incarnations of a deployment count up one by one, requests
    are used once, no two members share an identity or an endpoint); every registration
    answered with success is in it; and a running process shows that log within its
    limits, short of at most the one grant whose commit failed, after which it registers
    nothing. *)
Theorem ledger_durable (es : list event) :
  Forall event_ok es →
  ∃ log, stores (disk (world_run es)) log ∧ (∀ g, g ∈ served (world_run es) → g ∈ log) ∧
    ∀ s, process (world_run es) = Some s →
      ∃ seen, holding seen (ledger_ s) ∧ log_fits (ledger_ s) log ∧
        (log = seen ∨ writable_ (ledger_ s) = false ∧ ∃ g, log = seen ++ [g]).
Proof.
  intros Hes. destruct (world_run_inv es Hes) as (log & Hst & _ & Hall). exists log.
  destruct (process (world_run es)) as [s|]; [|done].
  destruct Hall as (gal & auth & seen & pending & -> & Hh & Hd & Hall). split_and!; [done| |].
  - intros g Hg. apply elem_of_app. left. by apply Hall.
  - intros ? [= <-]. exists seen. destruct Hh as [_ _ _ Hv _ Hp _ Hf]. split_and!; [done|done|].
    destruct Hp as [->|[[g ->] Hw]]; [left; apply app_nil_r|right; eauto].
Qed.

(** C10. Admissions are fenced for ever.  In the order of the answers, over all restarts, a
    start request that is answered again is given the member it was given first, and a
    deployment never returns to an incarnation it has left; and a running process does not
    take the credential of a left incarnation for a current one. *)
Theorem ledger_fences (es : list event) :
  Forall event_ok es →
  StronglySorted fences (served (world_run es)) ∧
  ∀ s a b, process (world_run es) = Some s → a ∈ served (world_run es) → b ∈ served (world_run es) →
    principal a.2 = principal b.2 → epoch a.2 < epoch b.2 → ledger_current a.2 (ledger_ s) = false.
Proof.
  intros Hes. destruct (world_run_inv es Hes) as (log & _ & Hs & Hall). split; [done|]. intros s [qa a] [qb b] Hp Ha Hb E Hlt. simpl in *.
  rewrite Hp in Hall. destruct Hall as (gal & auth & seen & pending & -> & Hh & _ & Hall).
  destruct (granted_kept _ _ _ _ (holds_lawful _ _ _ _ _ Hh) (Hall _ Hb)) as (_ & c & Hc & He & _).
  unfold ledger_current, ledger_snapshot. rewrite (proj1 (holds_view _ _ _ _ _ Hh)).
  replace (key_of a) with (key_of b) by (unfold key_of; by rewrite E). rewrite Hc.
  rewrite (bool_decide_false (c = a)) by (intros ->; lia). apply bool_decide_eq_false. by intros [? ?].
Qed.

(** C20. A restart brings everything back.  When no process runs and the file is a database,
    a start with its galaxy and authority, with limits that hold its contents and without
    a failing call, gives a process that registers again and shows the whole log: every
    start request ever answered and every incarnation reached. *)
Theorem ledger_recovers (es : list event) (t : Tables) (maximum starts : Z) :
  Forall event_ok es → process (world_run es) = None → disk (world_run es) = Stored t →
  configured (meta_galaxy t) (meta_authority t) maximum starts = true → 0 <= maximum → 0 <= starts →
  ∃ log, stores (Stored t) log ∧ (∀ g, g ∈ served (world_run es) → g ∈ log) ∧
    (fits maximum starts (members_of log) (starts_of log) →
     let w := world_run (es ++ [Launch (meta_galaxy t) (meta_authority t) maximum starts false []]) in
     ∃ s, process w = Some s ∧ holding log (ledger_ s) ∧ writable_ (ledger_ s) = true ∧ disk w = Stored t ∧
       ∀ q m, (q, m) ∈ served w → starts_ (ledger_ s) !! q = Some (start_of m) ∧
         ∃ c, members_ (ledger_ s) !! key_of m = Some c ∧ epoch m <= epoch c).
Proof.
  intros Hes Hp Hd Hcfg Hm Hn. destruct (world_run_inv es Hes) as (log & Hst & _ & Hall). rewrite Hp in Hall. rewrite Hd in Hst.
  exists log. split_and!; [done|done|]. intros Hfit w. unfold w, world_run. rewrite foldl_app. fold (world_run es). cbn [foldl world_step].
  rewrite Hp, Hd. destruct Hst as (gal & auth & -> & Hl). cbn [meta_galaxy meta_authority contents] in *.
  set (s0 := {| file_ := _; transaction_ := None; ledger_ := blank_ledger |}).
  pose proof (wp_reliable_run _ _ _ _ (make_ledger_wp Reliable gal auth maximum starts false s0 gal auth log Hm Hn (conj eq_refl Hl))) as Hwp.
  destruct (make_ledger gal auth maximum starts false s0 []) as [[[[]|e] s'] f'].
  2: { destruct Hwp as [_ Hno]. by destruct (Hno eq_refl). }
  destruct Hwp as (Hh & Hw & Ho). exists s'. pose proof (holds_view _ _ _ _ _ Hh) as [Hvm Hvs]. cbn [process disk served]. split_and!; try done.
  - destruct Ho as [->|[? _]]; done.
  - rewrite Hvm, Hvs. intros q m Hin. destruct (granted_kept _ _ _ _ Hl (Hall _ Hin)) as (Hs & c & Hc & He & _). eauto.
Qed.
(** *** What is granted *)
Lemma survey_total m k l n :
  (∀ p, p ∈ l → p.1 ≠ k → id p.2 ≠ id m ∧ address p.2 ≠ address m) → survey m k l n = Some (n + role_total (role m) l).
Proof.
  revert n. induction l as [|[k' o] l IH]; intros n Hall; simpl; [unfold role_total; simpl; f_equal; lia|].
  assert (Hno : negb (String.eqb k' k) && (String.eqb (id o) (id m) || bool_decide (address o = address m)) = false).
  { destruct (String.eqb_spec k' k) as [|Hne]; [done|]. destruct (Hall (k', o) ltac:(set_solver) Hne) as [H1 H2].
    apply String.eqb_neq in H1. simpl in H1, H2. by rewrite H1, bool_decide_false. }
  rewrite Hno, IH by (intros p Hp; apply Hall; set_solver).
  change ((k', o) :: l) with ([(k', o)] ++ l). rewrite role_total_app, role_total_one. simpl. f_equal.
  repeat case_bool_decide; try congruence; lia.
Qed.

(** The checks pass for every lawful continuation there is room for. *)
Lemma next_validated l log m q :
  holding log l → next (galaxy_ l) log (q, m) → log_fits l (log ++ [(q, m)]) →
  validate_record l m q (members_ l) = Expected tt.
Proof.
  intros [Hm Hs] [[N1 _ N1' _] N2 N3 N4 N5 N6 N7] [F1 F2]. simpl in *. unfold validate_record. rewrite Hm, Hs, N1, N2, N3, N4.
  rewrite String.eqb_refl, bool_decide_false by (by intros [? ?]). cbn [Nat.eqb negb orb].
  rewrite starts_snoc in F2. simpl in F2. rewrite map_size_insert_None in F2 by done.
  rewrite (proj2 (Z.leb_gt (maximum_starts_ l) (Z.of_nat (size (starts_of log))))) by lia.
  fold (reached (members_of log) (key_of m)).
  rewrite (proj2 (Z.eqb_neq (reached (members_of log) (key_of m)) u64_max)) by lia. rewrite (proj2 (Z.eqb_eq _ _) N5). cbn [negb orb].
  rewrite survey_total.
  2: { intros [k o] Hin. apply in_order_elem in Hin. simpl. by apply N7. }
  rewrite (role_total_perm _ (in_order _) (map_to_list (members_of log))) by apply merge_sort_Permutation.
  specialize (F1 (role m)). rewrite members_snoc, role_total_insert in F1. cbn [fst snd] in F1.
  destruct (members_of log !! key_of m) as [o|] eqn:Eo.
  - destruct (N6 o eq_refl) as (E1 & E2 & E3%String.eqb_neq). unfold replaces.
    rewrite E1, E2, E3, !bool_decide_true by done. done.
  - rewrite role_total_one in F1. simpl in F1. rewrite bool_decide_true in F1 by done. cbn [negb andb].
    by rewrite (proj2 (Z.leb_gt (maximum_ l) _)) by lia.
Qed.

Lemma register_grants gal auth log (s : Site) c q (prepare : Member → Members → outcome Member) :
  let m := with_epoch (reached (members_of log) (key_of c) + 1) c in
  holds gal auth log [] s → writable_ (ledger_ s) = true → epoch c = 0 →
  next gal log (q, m) → log_fits (ledger_ s) (log ++ [(q, m)]) → prepare m (members_of (log ++ [(q, m)])) = Done m →
  wp Reliable (register_member c q prepare) (λ a _, a = Expected m) (λ _ _, False) s.
Proof.
  intros m Hh Hwr He Hn Hfit Hpr. pose proof Hh as [Hfile Hl _ [Hm Hs] Hg _ Hi _]. rewrite app_nil_r in Hfile.
  pose proof Hn as [_ N2 N3 N4 N5 _ _]. simpl in N2, N3, N4. unfold register_member. apply wp_bind, wp_gets.
  rewrite Hwr, Hm, Hs, N4, N3, He, Hg, N2, String.eqb_refl. cbn [negb Nat.eqb orb Z.eqb]. apply wp_bind, wp_alloc; [|done].
  assert (Ex : match members_of log !! key_of c with Some o => epoch o =? u64_max | None => false end = false).
  { pose proof (grantable_epoch _ (next_member _ _ _ Hn)) as Hm'. simpl in Hm'. unfold reached in Hm'.
    destruct (members_of log !! key_of c); [|done]. apply Z.eqb_neq. lia. }
  rewrite Ex. apply wp_bind, wp_alloc; [|done].
  assert (Em : with_epoch (match members_of log !! key_of c with Some o => epoch o + 1 | None => 1 end) c = m).
  { unfold m, reached. by destruct (members_of log !! key_of c). }
  rewrite Em. apply wp_bind, wp_ret. rewrite <- Hm, (next_validated _ log) by (by rewrite ?Hg).
  do 3 (apply wp_bind, wp_alloc; [|done]). apply wp_bind, wp_lift. rewrite Hm.
  change (<[key_of c := m]> (members_of log)) with (<[key_of (q, m).2 := (q, m).2]> (members_of log)). rewrite <- members_snoc, Hpr.
  apply wp_bind. eapply wp_mono; [apply (commit_wp Reliable gal auth log); [done|done|done|by apply Hi]| |by intros e s' [_ ?]].
  intros [] s' Hcom; [|by destruct Hcom]. apply wp_bind, wp_modify, wp_ret. done.
Qed.

(** C21. What may be granted is granted.  In any history, to a running process that has not
    been isolated, a registration with a new request that continues its log lawfully and
    fits its limits is answered with the next incarnation of its deployment when no call
    fails and the answer can be prepared, and the tables then hold the log with it. *)
Theorem ledger_grants (es : list event) (s : Site) (c : Member) (q : string) (prepare : Member → Members → outcome unit) :
  Forall event_ok es → process (world_run es) = Some s → writable_ (ledger_ s) = true →
  Principal.well_formed (principal c) → epoch c = 0 → (∀ m v, prepare m v = Done tt) →
  ∃ log, holding log (ledger_ s) ∧ stores (disk (world_run es)) log ∧
    let m := with_epoch (reached (members_of log) (key_of c) + 1) c in
    (next (galaxy_ (ledger_ s)) log (q, m) → log_fits (ledger_ s) (log ++ [(q, m)]) →
     let w := world_run (es ++ [Register c q prepare []]) in
     served w = served (world_run es) ++ [(q, m)] ∧ stores (disk w) (log ++ [(q, m)])).
Proof.
  intros Hes Hp Hwr Hw He Hpr. destruct (world_run_inv es Hes) as (log & Hst & _ & Hall). rewrite Hp in Hall.
  destruct Hall as (gal & auth & seen & pending & -> & Hh & Hd & Hall).
  destruct (holds_pending _ _ _ _ _ Hh) as [->|[_ ?]]; [|congruence]. rewrite app_nil_r in *. exists seen.
  split_and!; [apply Hh|done|]. rewrite (holds_galaxy _ _ _ _ _ Hh). intros m Hn Hfit w. unfold w, world_run. rewrite foldl_app.
  fold (world_run es). cbn [foldl world_step]. rewrite Hp.
  pose proof (wp_reliable_run _ _ _ _ (register_grants gal auth seen s c q (answering prepare) Hh Hwr He Hn Hfit
    ltac:(unfold answering; by rewrite Hpr))) as Hgr.
  pose proof (wp_reliable_run _ _ _ _ (register_wp Reliable gal auth seen [] s c q (answering prepare) Hh Hw)) as Hre.
  destruct (register_member c q (answering prepare) s []) as [[[a|e] s'] f']; [|done]. subst a.
  destruct Hre as (m' & log' & _ & Ha & Hh' & Hor & Hin & _). unfold answering in Ha. rewrite Hpr in Ha. injection Ha as ->.
  split; [done|]. simpl. destruct Hor as [[-> _]| ->].
  - pose proof (next_fresh _ _ _ Hn) as Hf. simpl in Hf.
    destruct (granted_kept _ _ _ _ (holds_lawful _ _ _ _ _ Hh) Hin) as [Hs _]. congruence.
  - pose proof (holds_stores _ _ _ _ _ Hh') as Hs'. by rewrite app_nil_r in Hs'.
Qed.
End logs.

(** ** A concrete history *)
Module Sample.
Import Types.Sample.

(** A self-delimiting encoding that satisfies the law of [Protobuf]: a mark before each
    byte of a field and another one at its end. *)
Definition mark : ascii := Ascii.one.
Definition field (s : string) : list ascii := (c ← chars s; [mark; c]) ++ [Ascii.zero].

Fixpoint read_field (cs : list ascii) : option (list ascii * list ascii) :=
  match cs with
  | [] => None
  | m :: cs' =>
      if Ascii.eqb m Ascii.zero then Some ([], cs')
      else match cs' with
           | [] => None
           | c :: cs'' => match read_field cs'' with Some (f, rest) => Some (c :: f, rest) | None => None end
           end
  end.

Lemma read_field_spec s rest : read_field (field s ++ rest) = Some (chars s, rest).
Proof.
  unfold field. rewrite <- app_assoc. simpl. induction (chars s) as [|c cs IH]; [done|]. simpl. unfold mbind in IH. by rewrite IH.
Qed.

Definition tagged (m : OrbitMember) : string :=
  of_chars (field (orbit_galaxy m) ++ field (orbit_id m) ++ field (orbit_principal m) ++ field (orbit_advertise m)
            ++ field (epoch_bytes (orbit_epoch m)) ++ field (of_chars [chr (orbit_role m)]) ++ field (orbit_group m)).

Definition untagged (s : string) : option OrbitMember :=
  '(a, r) ← read_field (chars s); '(b, r) ← read_field r; '(c, r) ← read_field r; '(d, r) ← read_field r;
  '(e, r) ← read_field r; '(f, r) ← read_field r; '(g, r) ← read_field r;
  Some {| orbit_galaxy := of_chars a; orbit_id := of_chars b; orbit_principal := of_chars c; orbit_advertise := of_chars d;
          orbit_epoch := value_from 0 e; orbit_role := value_from 0 f; orbit_group := of_chars g |}.

Lemma untagged_tagged m : orbit_ok m → untagged (tagged m) = Some m.
Proof.
  intros (_ & _ & _ & He & Hr). unfold untagged, tagged. rewrite chars_of_chars.
  do 6 (rewrite read_field_spec; cbn [mbind option_bind]).
  replace (field (orbit_group m)) with (field (orbit_group m) ++ []) by apply app_nil_r.
  rewrite read_field_spec. cbn [mbind option_bind]. rewrite !of_chars_chars, (epoch_spelled _ He), chars_of_chars.
  cbn [value_from foldl]. rewrite ord_chr by lia. by destruct m.
Qed.

#[export] Instance tagged_protobuf : Protobuf := {
  serialize := tagged; parse_message := untagged; parse_serialize := untagged_tagged
}.

Definition digest (n : Z) : Principal.Principal := {| Principal.bytes := replicate 32 n |}.
Definition authority : string := Principal.text (digest 1).
Definition request (c : ascii) : string := of_chars (replicate 32 c).

(** A start of deployment [n] on port [p]. *)
Definition candidate (n p : Z) (name : string) : Member :=
  {| galaxy := "alpha"; id := name; principal := digest n;
     address := {| Endpoint.host := "7f000001"; Endpoint.port := p; Endpoint.ipv6 := false; Endpoint.wildcard := false |};
     epoch := 0; role := star; group := "west" |}.

Definition willing (m : Member) (v : Members) : outcome unit := Done tt.

(** Sixteen calls precede the COMMIT of a registration. *)
Definition lost_commit : faults := replicate 16 false ++ [true; true].

(** A first start, a retry, a restart of the deployment, a second deployment; after a crash
    an old request is refused and a commit takes effect although it reports an error. *)
Definition story : list event :=
  [Launch "alpha" authority 4 8 true []; Register (candidate 7 80 "p_a") (request "a") willing [];
   Register (candidate 7 80 "p_b") (request "a") willing []; Register (candidate 7 80 "p_c") (request "c") willing [];
   Register (candidate 9 81 "p_d") (request "d") willing []; Crash; Launch "alpha" authority 4 8 false [];
   Register (candidate 7 80 "p_e") (request "a") willing []; Register (candidate 9 81 "p_f") (request "f") willing lost_commit;
   Register (candidate 9 81 "p_g") (request "g") willing []].

Lemma story_ok : Forall event_ok story.
Proof. repeat constructor; simpl; try lia; try (apply Forall_replicate; lia). Qed.

(** What the registrations of the story were given: the request and the incarnation. *)
Definition summary (w : World) : list (string * string * Z) := (λ g, (g.1, id g.2, epoch g.2)) <$> served w.

Lemma story_served :
  summary (world_run story) =
    [(request "a", "p_a", 1); (request "a", "p_a", 1); (request "c", "p_c", 2); (request "d", "p_d", 1)]%string.
Proof. vm_compute. reflexivity. Qed.

Lemma ledger_durable_witness :
  length (served (world_run story)) = 4%nat ∧
  ∃ log, stores (disk (world_run story)) log ∧ (∀ g, g ∈ served (world_run story) → g ∈ log) ∧
    ∀ s, process (world_run story) = Some s →
      ∃ seen, holding seen (ledger_ s) ∧ log_fits (ledger_ s) log ∧
        (log = seen ∨ writable_ (ledger_ s) = false ∧ ∃ g, log = seen ++ [g]).
Proof. split; [vm_compute; reflexivity|]. apply (ledger_durable story story_ok). Defined.

Lemma ledger_fences_witness :
  StronglySorted fences (served (world_run story)) ∧
  ∀ s a b, process (world_run story) = Some s → a ∈ served (world_run story) → b ∈ served (world_run story) →
    principal a.2 = principal b.2 → epoch a.2 < epoch b.2 → ledger_current a.2 (ledger_ s) = false.
Proof. apply (ledger_fences story story_ok). Defined.

(** The tables the story ends with: four start records, the lost commit among them. *)
Definition tables : Tables :=
  match disk (world_run (story ++ [Crash])) with
  | Stored t => t
  | _ => {| meta_galaxy := ""; meta_authority := ""; member_rows := ∅; start_rows := ∅ |}
  end.

Lemma tables_size : size (start_rows tables) = 4%nat.
Proof. vm_compute. reflexivity. Qed.

Lemma crashed_ok : Forall event_ok (story ++ [Crash]).
Proof. apply Forall_app. split; [apply story_ok|repeat constructor]. Qed.

Lemma crashed_disk : process (world_run (story ++ [Crash])) = None ∧ disk (world_run (story ++ [Crash])) = Stored tables.
Proof. split; vm_compute; reflexivity. Qed.

Lemma ledger_recovers_witness :
  size (start_rows tables) = 4%nat ∧
  ∃ log, stores (Stored tables) log ∧ (∀ g, g ∈ served (world_run (story ++ [Crash])) → g ∈ log) ∧
    (fits 4 8 (members_of log) (starts_of log) →
     let w := world_run ((story ++ [Crash]) ++ [Launch (meta_galaxy tables) (meta_authority tables) 4 8 false []]) in
     ∃ s, process w = Some s ∧ holding log (ledger_ s) ∧ writable_ (ledger_ s) = true ∧ disk w = Stored tables ∧
       ∀ q m, (q, m) ∈ served w → starts_ (ledger_ s) !! q = Some (start_of m) ∧
         ∃ c, members_ (ledger_ s) !! key_of m = Some c ∧ epoch m <= epoch c).
Proof.
  split; [exact tables_size|]. destruct crashed_disk as [Hp Hd].
  apply (ledger_recovers (story ++ [Crash]) tables 4 8 crashed_ok Hp Hd); [vm_compute; reflexivity|lia|lia].
Defined.

(** The process after the first four registrations, and a third deployment. *)
Definition running : Site :=
  match process (world_run (take 5 story)) with
  | Some s => s
  | None => {| file_ := Absent; transaction_ := None; ledger_ := blank_ledger |}
  end.

Lemma running_process : process (world_run (take 5 story)) = Some running ∧ writable_ (ledger_ running) = true.
Proof. split; vm_compute; reflexivity. Qed.

Lemma ledger_grants_witness :
  let es := take 5 story in let c := candidate 11 82 "p_h" in let q := request "h" in
  ∃ log, holding log (ledger_ running) ∧ stores (disk (world_run es)) log ∧
    let m := with_epoch (reached (members_of log) (key_of c) + 1) c in
    (next (galaxy_ (ledger_ running)) log (q, m) → log_fits (ledger_ running) (log ++ [(q, m)]) →
     let w := world_run (es ++ [Register c q willing []]) in
     served w = served (world_run es) ++ [(q, m)] ∧ stores (disk w) (log ++ [(q, m)])).
Proof.
  destruct running_process as [Hp Hw].
  apply (ledger_grants (take 5 story) running (candidate 11 82 "p_h") (request "h") willing); [|exact Hp|exact Hw| |done|done].
  - apply Forall_take, story_ok.
  - split; [done|]. apply Forall_replicate. lia.
Defined.
End Sample.
