(* ===== verification/Issuer.v ===== *)
(** Who is let in and whom they are told about: [pulsar/src/authority.cpp],
    [pulsar/src/issuer.cpp] and [Identity::verify] of [common/src/identity.cpp].

    Cryptography is a parameter: the class [Crypto] has the hash, the key derivation and
    the signature, with the one law the protocol relies on, that a signature verifies. *)
From Stdlib Require Import Ascii.
From stdpp Require Import base numbers sorting countable strings gmap sets list.
From S2P Require Import Prelude.
From S2P Require Import Scope.
From S2P Require Import Types.
From S2P Require Import Ledger.
From S2P Require Import Membership.

(** [SHA256], [PKCS5_PBKDF2_HMAC] with its fixed parameters, [ED25519_sign] and
    [ED25519_verify]. *)
Class Crypto := {
  sha256 : string → list Z;
  derive : string → list Z → option (list Z);
  sign_bytes : string → option string;
  verify_bytes : string → string → bool;
  sha256_octets : ∀ s, length (sha256 s) = 32%nat ∧ Forall (λ b, 0 <= b < 256) (sha256 s);
  sign_verifies : ∀ s x, sign_bytes s = Some x → String.length x = 64%nat ∧ verify_bytes s x = true
}.

(** ** Accounts *)

(** What [yyjson] reads of [accounts.json]. *)
#[warnings="-register-all"]
Inductive Json := JsonText (s : string) | JsonArray (l : list Json) | JsonObject (l : list (string * Json)) | JsonOther.

Record Account := { username : string; salt : list Z; hash : list Z; roles : Z }.

Definition blank_account : Account := {| username := ""; salt := replicate 16 0; hash := replicate 32 0; roles := 0 |}.

(** [text]: anything but a string is empty. *)
Definition json_text (j : Json) : string := match j with JsonText s => s | _ => "" end.

(** One digit of [unhex]. *)
Definition hex_digit (c : ascii) : Z :=
  if (48 <=? ord c) && (ord c <=? 57) then ord c - 48
  else if (97 <=? ord c) && (ord c <=? 102) then ord c - 97 + 10
  else if (65 <=? ord c) && (ord c <=? 70) then ord c - 65 + 10
  else -1.

Fixpoint unhex_loop (cs : list ascii) (i : nat) (output : list Z) : option (list Z) :=
  match cs with
  | [] => Some output
  | c :: cs' =>
      let digit := hex_digit c in
      if digit <? 0 then None
      else
        let old := default 0 (output !! (i / 2)%nat) in
        unhex_loop cs' (S i) (<[(i / 2)%nat := Z.lor (Z.shiftl old 4) digit mod 256]> output)
  end.

(** [unhex] into [output], whose length is the one expected. *)
Definition unhex (value : string) (output : list Z) : option (list Z) :=
  if negb (String.length value =? 2 * length output)%nat then None else unhex_loop (chars value) 0 output.

Definition role_bit (name : string) : Z :=
  if String.eqb name "star" then 1 else if String.eqb name "planet" then 2
  else if String.eqb name "polaris" then 4 else if String.eqb name "astrolabe" then 8 else 0.

Fixpoint read_roles (l : list Json) (granted : Z) : option Z :=
  match l with
  | [] => Some granted
  | j :: l' =>
      let bit := role_bit (json_text j) in
      if (bit =? 0) || negb (Z.land granted bit =? 0) then None else read_roles l' (Z.lor granted bit)
  end.

Definition set_username (s : string) (a : Account) : Account := {| username := s; salt := salt a; hash := hash a; roles := roles a |}.
Definition set_salt (x : list Z) (a : Account) : Account := {| username := username a; salt := x; hash := hash a; roles := roles a |}.
Definition set_hash (x : list Z) (a : Account) : Account := {| username := username a; salt := salt a; hash := x; roles := roles a |}.
Definition set_roles (x : Z) (a : Account) : Account := {| username := username a; salt := salt a; hash := hash a; roles := x |}.

(** One field of an account: its slot and the account with it. *)
Definition read_field (name : string) (value : Json) (a : Account) : option (nat * Account) :=
  if String.eqb name "username" then
    if valid_name (json_text value) then Some (0%nat, set_username (json_text value) a) else None
  else if String.eqb name "salt" then
    match unhex (json_text value) (salt a) with Some x => Some (1%nat, set_salt x a) | None => None end
  else if String.eqb name "hash" then
    match unhex (json_text value) (hash a) with Some x => Some (2%nat, set_hash x a) | None => None end
  else if String.eqb name "roles" then
    match value with
    | JsonArray l =>
        if bool_decide (l = []) || (4 <? length l)%nat then None
        else match read_roles l (roles a) with Some r => Some (3%nat, set_roles r a) | None => None end
    | _ => None
    end
  else Some (4%nat, a).

(** The loop over the fields; [seen] is the bit set. *)
Fixpoint read_fields (fields : list (string * Json)) (seen : list bool) (a : Account) : option (list bool * Account) :=
  match fields with
  | [] => Some (seen, a)
  | (name, value) :: fields' =>
      match read_field name value a with
      | None => None
      | Some (slot, a') =>
          if (slot =? 4)%nat || default false (seen !! slot) then None else read_fields fields' (<[slot := true]> seen) a'
      end
  end.

Definition read_account (j : Json) : option Account :=
  match j with
  | JsonObject fields =>
      if negb (length fields =? 4)%nat then None
      else match read_fields fields (replicate 4 false) blank_account with
           | Some (seen, a) => if forallb (λ b, b) seen then Some a else None
           | None => None
           end
  | _ => None
  end.

Fixpoint read_accounts (l : list Json) (accounts : list Account) : option (list Account) :=
  match l with
  | [] => Some accounts
  | j :: l' =>
      match read_account j with
      | None => None
      | Some a =>
          if existsb (λ x, String.eqb (username x) (username a)) accounts then None else read_accounts l' (accounts ++ [a])
      end
  end.

(** The accounts of [Authority::load]. *)
Definition load_accounts (root : Json) : option (list Account) :=
  match root with
  | JsonArray l => if bool_decide (l = []) || (64 <? length l)%nat then None else read_accounts l []
  | _ => None
  end.

(** ** Answers of a call *)
Inductive StatusCode :=
| OK | CANCELLED | INVALID_ARGUMENT | PERMISSION_DENIED | RESOURCE_EXHAUSTED | ABORTED | INTERNAL | UNAVAILABLE | UNAUTHENTICATED.

#[global] Instance status_code_eq_dec : EqDecision StatusCode.
Proof. solve_decision. Defined.

(** [RegistrationRequest], with its encoded size. *)
Record RegistrationRequest := {
  request_galaxy : string; request_advertise : string; request_role : Z; request_group : string; request_round : Z;
  request_username : string; request_password : string; request_key : string; request_size : Z
}.

(** The bit of a requested role. *)
Definition wanted_bit (value : Z) : Z :=
  if value =? ROLE_STAR then 1 else if value =? ROLE_PLANET then 2
  else if value =? ROLE_POLARIS then 4 else if value =? ROLE_ASTROLABE then 8 else 0.

(** What a call finds around it: whether it has been cancelled when it starts, after the
    derivation and while it prepares its answer; whether one of the four permits is free;
    the random bytes it gets. *)
Record Call := { cancelled_first : bool; cancelled_later : bool; cancelled_last : bool; permit : bool; entropy : option (list Z) }.

Section issuer.
Context `{Inet, Protobuf, Crypto}.

(** [Authority::authenticate]. *)
Definition authenticate (accounts : list Account) (call : Call) (r : RegistrationRequest) : StatusCode :=
  if cancelled_first call then CANCELLED
  else if negb (valid_name (request_username r)) || (String.length (request_password r) =? 0)%nat
          || (1024 <? String.length (request_password r))%nat
  then UNAUTHENTICATED
  else if negb (permit call) then RESOURCE_EXHAUSTED
  else
    let found := List.find (λ a, String.eqb (username a) (request_username r)) accounts in
    let account := default blank_account found in
    let matches := match derive (request_password r) (salt account) with Some x => bool_decide (x = hash account) | None => false end in
    if cancelled_later call then CANCELLED
    else if negb matches || negb (bool_decide (is_Some found)) then UNAUTHENTICATED
    else if negb (Z.land (roles account) (wanted_bit (request_role r)) =? 0) then OK
    else PERMISSION_DENIED.

(** [admission_signature_domain], then a NUL. *)
Definition signed (admission : string) : string :=
  of_chars (chars "proto.orbit.v1.admission" ++ Ascii.zero :: chars admission).

(** [Authority::sign]. *)
Definition sign (m : OrbitMember) : outcome (string * string) :=
  let admission := serialize m in
  match sign_bytes (signed admission) with Some s => Done (admission, s) | None => Thrown runtime_error end.

(** [Identity::verify]. *)
Definition verify (value signature : string) : Result Member :=
  if (1024 <? String.length value)%nat || negb (String.length signature =? 64)%nat then Unexpected identity
  else if negb (verify_bytes (signed value) signature) then Unexpected identity
  else match parse_message value with None => Unexpected identity | Some m => decode_member m end.

(** ** Candidates *)
Definition id_le (a b : Member) : Prop := String.le (id a) (id b).
#[local] Instance id_le_dec : RelDecision id_le.
Proof. intros a b. unfold id_le. apply _. Defined.

Definition by_id (l : list Member) : list Member := merge_sort id_le l.

(** Whom a role is told about. *)
Definition offered (local member : Member) : bool :=
  bool_decide (role member = star) || bool_decide (role local = astrolabe)
  || (bool_decide (role member = polaris) && negb (bool_decide (role local = planet))).

(** The first eight bytes of the digest of the deployment. *)
Definition seed_of (local : Member) : Z :=
  foldl (λ acc b, Z.lor (wrap64 (Z.shiftl acc 8)) b) 0 (take 8 (sha256 (key_of local))).

(** [std::ranges::rotate] from [offset]. *)
Definition rotate (seed round : Z) (pool : list Member) : list Member :=
  match pool with
  | [] => []
  | _ =>
      let offset := Z.to_nat (wrap64 (seed + round * 4) mod Z.of_nat (length pool)) in
      drop offset pool ++ take offset pool
  end.

(** [candidates]. *)
Definition candidates (members : Members) (local : Member) (round : Z) : list Member :=
  let stars := by_id (List.filter (offered local) ((in_order members).*2)) in
  if negb (bool_decide (role local = planet)) then stars
  else
    let near m := String.eqb (group m) (group local) in
    let seed := seed_of local in
    let nearby := rotate seed round (List.filter near stars) in
    let remote := rotate seed round (List.filter (λ m, negb (near m)) stars) in
    let remote_count := Nat.min 4 (length remote) in
    let local_count := Nat.min (length nearby) (8 - remote_count) in
    let remote_count := Nat.min (length remote) (8 - local_count) in
    by_id (take local_count nearby) ++ by_id (take remote_count remote).

(** ** Handlers *)

(** [RegistrationResponse]. *)
Record Response := { response_members : list OrbitMember; admission : string; signature : string; pulse_endpoint : string }.

(** Encoded sizes of the messages. *)
Context (response_size : Response → Z) (member_size : OrbitMember → Z).

(** [rejected]. *)
Definition rejected (e : Code) : StatusCode :=
  match e with
  | configuration => INVALID_ARGUMENT
  | conflict => ABORTED
  | capacity => RESOURCE_EXHAUSTED
  | _ => UNAVAILABLE
  end.

Definition answer_limit : Z := 8 * 1024 * 1024.

(** The answer [Register] prepares under the lock of the ledger. *)
Definition prepare_response (pulse : string) (call : Call) (round : Z) (local : Member) (members : Members) : outcome Response :=
  if cancelled_last call then Thrown runtime_error
  else
    match sign (encode local) with
    | Thrown e => Thrown e
    | Done (a, s) =>
        let prepared :=
          {| response_members := encode <$> candidates members local round; admission := a; signature := s;
             pulse_endpoint := if bool_decide (role local = star) then pulse else "" |} in
        if answer_limit <? response_size prepared then Thrown runtime_error else Done prepared
    end.

(** The deployment a registration speaks for. *)
Definition fingerprint (galaxy : string) (r : RegistrationRequest) : Principal.Principal :=
  {| Principal.bytes :=
       sha256 (of_chars (chars (request_username r) ++ Ascii.zero :: chars galaxy ++ Ascii.zero :: chars (request_advertise r))) |}.

(** [Issuer::Register]. *)
Definition register_body (galaxy pulse : string) (accounts : list Account) (call : Call) (r : RegistrationRequest)
    : eff Site (StatusCode * option Response) :=
  match role_of (request_role r) with
  | Unexpected _ => ret (INVALID_ARGUMENT, None)
  | Expected role =>
      if (4096 <? request_size r) || negb (String.length (request_key r) =? 32)%nat
         || (negb (bool_decide (role = planet)) && negb (request_round r =? 0))
      then ret (INVALID_ARGUMENT, None)
      else
        alloc ;;;
        match authenticate accounts call r with
        | OK =>
            match Endpoint.parse (request_advertise r) false with
            | Unexpected _ => ret (INVALID_ARGUMENT, None)
            | Expected address =>
                if negb (String.eqb (request_galaxy r) galaxy) || negb (String.eqb (Endpoint.text address) (request_advertise r))
                   || negb (valid_name (request_group r))
                then ret (INVALID_ARGUMENT, None)
                else
                  match entropy call with
                  | None => throw runtime_error
                  | Some random =>
                      alloc ;;;
                      let candidate :=
                        {| Types.galaxy := galaxy; id := "p_" +:+ Principal.text {| Principal.bytes := random |};
                           principal := fingerprint galaxy r; Types.address := address; epoch := 0; Types.role := role;
                           group := request_group r |} in
                      committed <- register_member candidate (request_key r) (prepare_response pulse call (request_round r)) ;;
                      match committed with
                      | Unexpected e => ret (rejected e, None)
                      | Expected prepared => ret (OK, Some prepared)
                      end
                  end
            end
        | status => ret (status, None)
        end
  end.

(** The exceptions of a call become a status. *)
Definition guarded {A} (on_alloc on_other : StatusCode) (m : eff Site (StatusCode * option A)) : eff Site (StatusCode * option A) :=
  λ s f,
    match m s f with
    | (Thrown bad_alloc, s', f') => (Done (on_alloc, None), s', f')
    | (Thrown _, s', f') => (Done (on_other, None), s', f')
    | r => r
    end.

Definition register_call (galaxy pulse : string) (accounts : list Account) (call : Call) (r : RegistrationRequest)
    : eff Site (StatusCode * option Response) :=
  guarded RESOURCE_EXHAUSTED (if cancelled_last call then CANCELLED else INTERNAL) (register_body galaxy pulse accounts call r).

(** The loop of [Issuer::List]; [cancelled] answers before each member. *)
Fixpoint list_members (l : list Member) (cancelled : list bool) (bytes : Z) (prepared : list OrbitMember)
    : eff Site (StatusCode * option (list OrbitMember)) :=
  match l with
  | [] => ret (OK, Some prepared)
  | m :: l' =>
      match cancelled with
      | true :: _ => ret (CANCELLED, None)
      | _ =>
          alloc ;;;
          let bytes := bytes + member_size (encode m) + 6 in
          if answer_limit <? bytes then ret (RESOURCE_EXHAUSTED, None)
          else alloc ;;; list_members l' (tail cancelled) bytes (prepared ++ [encode m])
      end
  end.

(** [Issuer::List] with the credentials the metadata has under the two names. *)
Definition list_call (galaxy : string) (size : Z) (admissions signatures : list string) (cancelled : list bool)
    : eff Site (StatusCode * option (list OrbitMember)) :=
  guarded RESOURCE_EXHAUSTED INTERNAL
    (l <- gets ledger_ ;;
     if negb (size =? 0) then ret (INVALID_ARGUMENT, None)
     else
       match admissions, signatures with
       | [a], [s] =>
           alloc ;;;
           match verify a s with
           | Unexpected _ => ret (UNAUTHENTICATED, None)
           | Expected member =>
               if negb (String.eqb (Types.galaxy member) galaxy) || bool_decide (role member = planet)
               then ret (UNAUTHENTICATED, None)
               else
                 match ledger_snapshot member l with
                 | None => ret (UNAUTHENTICATED, None)
                 | Some view => alloc ;;; list_members (candidates view member 0) cancelled 0 []
                 end
           end
       | _, _ => ret (UNAUTHENTICATED, None)
       end).
End issuer.

(** ** The accounts that are loaded *)
Record account_ok (a : Account) : Prop := {
  account_name : valid_name (username a) = true;
  account_salt : length (salt a) = 16%nat ∧ Forall (λ b, 0 <= b < 256) (salt a);
  account_hash : length (hash a) = 32%nat ∧ Forall (λ b, 0 <= b < 256) (hash a);
  account_roles : 1 <= roles a <= 15
}.

Lemma unhex_loop_octets cs i output x :
  unhex_loop cs i output = Some x → Forall (λ b, 0 <= b < 256) output →
  length x = length output ∧ Forall (λ b, 0 <= b < 256) x.
Proof.
  revert i output. induction cs as [|c cs IH]; intros i output; simpl; [by intros [= <-]|].
  destruct (hex_digit c <? 0); [done|]. intros Hx Ho. destruct (IH _ _ Hx) as [Hl Hf].
  - apply Forall_insert; [done|]. apply Z.mod_pos_bound. lia.
  - by rewrite length_insert in Hl.
Qed.

Lemma unhex_octets s output x :
  unhex s output = Some x → Forall (λ b, 0 <= b < 256) output → length x = length output ∧ Forall (λ b, 0 <= b < 256) x.
Proof. unfold unhex. destruct (negb _); [done|]. apply unhex_loop_octets. Qed.

Lemma read_roles_range l granted r : read_roles l granted = Some r → 0 <= granted <= 15 → granted <= r <= 15 ∧ (l ≠ [] → 1 <= r).
Proof.
  revert granted. induction l as [|j l IH]; intros granted; simpl; [intros [= <-]; intros; split; [lia|done]|].
  assert (Hbit : role_bit (json_text j) = 0 ∨ role_bit (json_text j) = 1 ∨ role_bit (json_text j) = 2 ∨
    role_bit (json_text j) = 4 ∨ role_bit (json_text j) = 8).
  { unfold role_bit. repeat case_match; tauto. }
  set (bit := role_bit (json_text j)) in *. clearbody bit. destruct (Z.eqb_spec bit 0) as [|Hnz]; [done|]. simpl.
  destruct (negb _); [done|]. intros Hr Hg.
  assert (Hor : granted <= Z.lor granted bit <= 15 ∧ 1 <= Z.lor granted bit).
  { assert (Hall : forallb (λ g, forallb (λ b, (g <=? Z.lor g b) && (Z.lor g b <=? 15) && (1 <=? Z.lor g b)) [1; 2; 4; 8])
      (seqZ 0 16) = true) by (vm_compute; reflexivity).
    rewrite forallb_forall in Hall. specialize (Hall granted). rewrite <- list_elem_of_In, elem_of_seqZ, forallb_forall in Hall.
    specialize (Hall ltac:(lia) bit). rewrite !andb_true_iff in Hall. rewrite <- list_elem_of_In in Hall.
    assert (bit ∈ [1; 2; 4; 8]) as Hin by (rewrite !elem_of_cons; tauto). specialize (Hall Hin). lia. }
  destruct (IH _ Hr ltac:(lia)) as [H1 _]. lia.
Qed.

(** The fields that have been read are in order. *)
Definition partly_ok (seen : list bool) (a : Account) : Prop :=
  (seen !! 0%nat = Some true → valid_name (username a) = true) ∧
  (length (salt a) = 16%nat ∧ Forall (λ b, 0 <= b < 256) (salt a)) ∧
  (length (hash a) = 32%nat ∧ Forall (λ b, 0 <= b < 256) (hash a)) ∧
  0 <= roles a <= 15 ∧ (seen !! 3%nat = Some true → 1 <= roles a).

Lemma read_field_ok name value a slot a' seen :
  length seen = 4%nat → read_field name value a = Some (slot, a') → slot ≠ 4%nat → partly_ok seen a → partly_ok (<[slot := true]> seen) a'.
Proof.
  intros Hlen Hr Hs (P1 & [P2 P2'] & [P3 P3'] & [P4 P4'] & P5). unfold read_field in Hr.
  assert (Hkeep : ∀ i j : nat, i ≠ j → <[i := true]> seen !! j = seen !! j) by (intros; by apply list_lookup_insert_ne).
  destruct (String.eqb name "username").
  { destruct (valid_name (json_text value)) eqn:Ev; [|done]. injection Hr as <- <-. split_and!; try done. by rewrite Hkeep. }
  destruct (String.eqb name "salt").
  { destruct (unhex _ _) as [x|] eqn:Eu; [|done]. injection Hr as <- <-. apply unhex_octets in Eu as [E1 E2]; [|done].
    rewrite P2 in E1. split_and!; try done; by rewrite Hkeep. }
  destruct (String.eqb name "hash").
  { destruct (unhex _ _) as [x|] eqn:Eu; [|done]. injection Hr as <- <-. apply unhex_octets in Eu as [E1 E2]; [|done].
    rewrite P3 in E1. split_and!; try done; by rewrite Hkeep. }
  destruct (String.eqb name "roles"); [|by injection Hr as <- <-].
  destruct value as [|l| |]; try done. case_bool_decide as El; [done|]. simpl in Hr. destruct (4 <? length l)%nat; [done|].
  destruct (read_roles l (roles a)) as [r|] eqn:Er; [|done]. injection Hr as <- <-.
  destruct (read_roles_range _ _ _ Er ltac:(lia)) as [H1 H2]. split_and!; simpl; try done; try lia.
  - by rewrite Hkeep.
  - intros _. by apply H2.
Qed.

Lemma read_fields_ok fields seen a seen' a' :
  length seen = 4%nat → read_fields fields seen a = Some (seen', a') → partly_ok seen a → partly_ok seen' a' ∧ length seen' = 4%nat.
Proof.
  revert seen a. induction fields as [|[name value] fields IH]; intros seen a Hlen; simpl; [by intros [= <- <-]|].
  destruct (read_field name value a) as [[slot b]|] eqn:Ef; [|done].
  destruct (Nat.eqb_spec slot 4) as [|Hs]; [done|]. simpl. destruct (default false (seen !! slot)); [done|].
  intros Hr Hp. eapply IH; [|exact Hr|]; [by rewrite length_insert|]. by eapply read_field_ok.
Qed.

Lemma read_account_ok j a : read_account j = Some a → account_ok a.
Proof.
  destruct j as [| |fields|]; simpl; try done. destruct (negb _); [done|].
  destruct (read_fields fields _ _) as [[seen b]|] eqn:Er; [|done]. destruct (forallb (λ x, x) seen) eqn:Ea; [|done]. intros [= <-].
  apply read_fields_ok in Er as [(P1 & P2 & P3 & P4 & P5) Hl]; [|done|].
  - assert (Hall : ∀ i, (i < 4)%nat → seen !! i = Some true).
    { intros i Hi. destruct (lookup_lt_is_Some_2 seen i ltac:(lia)) as [x Hx]. rewrite Hx. f_equal.
      rewrite forallb_forall in Ea. apply (Ea x). by eapply list_elem_of_In, list_elem_of_lookup_2. }
    split; [by apply P1, Hall; lia|done|done|]. specialize (P5 (Hall 3%nat ltac:(lia))). lia.
  - split_and!; try done; by apply Forall_replicate.
Qed.

(** C36. The table of accounts is well formed.  Whatever [accounts.json] holds, when it is
    accepted there are between 1 and 64 accounts, no two of one name; each has a valid
    name, a salt of 16 bytes, a digest of 32 bytes and at least one of the four roles and
    nothing else. *)
Theorem accounts_typed (root : Json) (accounts : list Account) :
  load_accounts root = Some accounts →
  (1 <= length accounts <= 64)%nat ∧ NoDup (username <$> accounts) ∧ Forall account_ok accounts.
Proof.
  destruct root as [|l| |]; simpl; try done. case_bool_decide as El; [done|]. simpl.
  destruct (Nat.ltb_spec 64 (length l)) as [|Hl]; [done|]. intros Hr.
  assert (Hgen : ∀ l acc r, read_accounts l acc = Some r → NoDup (username <$> acc) → Forall account_ok acc →
    length r = (length acc + length l)%nat ∧ NoDup (username <$> r) ∧ Forall account_ok r).
  { clear. induction l as [|j l IH]; intros acc r; simpl; [intros [= <-]; split; [lia|done]|].
    destruct (read_account j) as [a|] eqn:Ea; [|done]. apply read_account_ok in Ea.
    destruct (existsb _ acc) eqn:Ee; [done|]. intros Hr Hn Hf. destruct (IH _ _ Hr) as (E1 & E2 & E3).
    - rewrite fmap_app. apply NoDup_app. split_and!; [done| |apply NoDup_singleton]. intros x Hx Hx'%list_elem_of_singleton. subst x.
      apply list_elem_of_fmap in Hx as (b & Hb & Hin). apply not_true_iff_false in Ee. apply Ee, existsb_exists. exists b.
      split; [by apply list_elem_of_In|]. by apply String.eqb_eq.
    - apply Forall_app. split; [done|]. by apply Forall_singleton.
    - rewrite length_app in E1. simpl in E1. split_and!; [lia|done|done]. }
  destruct (Hgen _ _ _ Hr) as (E1 & E2 & E3); [constructor|constructor|]. simpl in E1. split_and!; [|lia|done|done].
  destruct l; [done|simpl in *; lia].
Qed.

(** ** Whom a Planet is offered *)
Section offers.
Context `{Inet, Protobuf, Crypto}.

#[local] Existing Instance id_le_dec.

#[local] Instance id_le_trans : Transitive id_le.
Proof. intros a b c. unfold id_le. apply (transitivity (R := String.le)). Qed.
#[local] Instance id_le_total : Total id_le.
Proof. intros a b. unfold id_le. apply (total String.le). Qed.

Lemma by_id_perm l : by_id l ≡ₚ l.
Proof. apply merge_sort_Permutation. Qed.
Lemma by_id_sorted l : StronglySorted id_le (by_id l).
Proof. apply (StronglySorted_merge_sort id_le). Qed.

(** The place where the rotation begins. *)
Definition turn (seed round : Z) (n : nat) : nat := Z.to_nat (wrap64 (seed + round * 4) mod Z.of_nat n).

Lemma rotate_split seed round pool :
  rotate seed round pool = drop (turn seed round (length pool)) pool ++ take (turn seed round (length pool)) pool.
Proof. unfold rotate, turn. destruct pool; [by rewrite drop_nil, take_nil|done]. Qed.

Lemma rotate_perm seed round pool : rotate seed round pool ≡ₚ pool.
Proof. rewrite rotate_split, Permutation_app_comm. by rewrite take_drop. Qed.

Lemma rotate_length seed round pool : length (rotate seed round pool) = length pool.
Proof. by rewrite rotate_perm. Qed.

Lemma turn_bound seed round n : (0 < n)%nat → (turn seed round n < n)%nat.
Proof.
  intros Hn. unfold turn. pose proof (Z.mod_pos_bound (wrap64 (seed + round * 4)) (Z.of_nat n) ltac:(lia)). lia.
Qed.

(** Where an element ends up, counted from the start of the rotation. *)
Lemma rotate_window seed round pool j x w :
  pool !! j = Some x → ((j + length pool - turn seed round (length pool)) `mod` length pool < w)%nat →
  x ∈ take w (rotate seed round pool).
Proof.
  intros Hj Hw. pose proof (lookup_lt_Some _ _ _ Hj) as Hlt. set (n := length pool) in *.
  pose proof (turn_bound seed round n ltac:(lia)) as Ht. set (o := turn seed round n) in *. rewrite rotate_split. fold n. fold o.
  destruct (le_lt_dec o j) as [Hle|Hgt].
  - assert (E : ((j + n - o) `mod` n = j - o)%nat).
    { replace (j + n - o)%nat with (j - o + 1 * n)%nat by lia. rewrite Nat.Div0.mod_add. apply Nat.mod_small. lia. }
    rewrite E in Hw. apply list_elem_of_lookup_2 with (j - o)%nat. rewrite lookup_take_lt, lookup_app_l by (rewrite ?length_drop; lia).
    rewrite lookup_drop. replace (o + (j - o))%nat with j by lia. done.
  - assert (E : ((j + n - o) `mod` n = j + n - o)%nat) by (apply Nat.mod_small; lia).
    rewrite E in Hw. apply list_elem_of_lookup_2 with (j + n - o)%nat. rewrite lookup_take_lt, lookup_app_r by (rewrite ?length_drop; lia).
    rewrite length_drop. fold n. replace (j + n - o - (n - o))%nat with j by lia. rewrite lookup_take_lt by lia. done.
Qed.

(** A window of four reaches every element in as many rounds as the pool has fours. *)
Lemma rotate_reaches seed round pool x :
  x ∈ pool → 0 <= seed → 0 <= round → seed + (round + Z.of_nat (length pool)) * 4 <= u64_max →
  ∃ k : Z, 0 <= k ∧ k * 4 < Z.of_nat (length pool) ∧
    ∀ w, (Nat.min 4 (length pool) <= w)%nat → x ∈ take w (rotate seed (round + k) pool).
Proof.
  intros [j Hj]%list_elem_of_lookup Hs Hr Hmax. pose proof (lookup_lt_Some _ _ _ Hj) as Hlt. set (n := length pool) in *.
  destruct (le_lt_dec n 4) as [Hn|Hn].
  { exists 0. split_and!; [lia|lia|]. intros w Hw. rewrite take_ge; [|rewrite rotate_perm; fold n; lia].
    rewrite rotate_perm. by eapply list_elem_of_lookup_2. }
  set (d := (Z.of_nat j - (seed + round * 4)) mod Z.of_nat n).
  pose proof (Z.mod_pos_bound (Z.of_nat j - (seed + round * 4)) (Z.of_nat n) ltac:(lia)) as Hd. fold d in Hd.
  pose proof (Z.div_mod d 4 ltac:(lia)) as Hdm. pose proof (Z.mod_pos_bound d 4 ltac:(lia)) as Hm4. set (k := d / 4) in *.
  exists k. split_and!; [apply Z.div_pos; lia|lia|]. intros w Hw.
  apply (rotate_window _ _ _ j); [done|]. fold n.
  pose proof (turn_bound seed (round + k) n ltac:(lia)) as Ht.
  assert (Hk : 0 <= k <= Z.of_nat n) by (split; [apply Z.div_pos; lia|apply Z.div_le_upper_bound; lia]).
  assert (Hturn : Z.of_nat (turn seed (round + k) n) = (seed + (round + k) * 4) mod Z.of_nat n).
  { unfold turn. rewrite wrap64_small by (unfold is_u64; lia).
    pose proof (Z.mod_pos_bound (seed + (round + k) * 4) (Z.of_nat n) ltac:(lia)). lia. }
  apply Nat.lt_le_trans with 4%nat; [|lia]. apply Nat2Z.inj_lt. rewrite Nat2Z.inj_mod.
  rewrite Nat2Z.inj_sub, Nat2Z.inj_add, Hturn by lia.
  assert (E : (Z.of_nat j + Z.of_nat n - (seed + (round + k) * 4) mod Z.of_nat n) mod Z.of_nat n = d mod 4).
  { rewrite Zminus_mod_idemp_r.
    replace (Z.of_nat j + Z.of_nat n - (seed + (round + k) * 4)) with (Z.of_nat j - (seed + round * 4) - 4 * k + 1 * Z.of_nat n) by lia.
    rewrite Z.mod_add by lia. rewrite <- Zminus_mod_idemp_l. fold d. rewrite Z.mod_small by lia. lia. }
  rewrite E. change (Z.of_nat 4) with 4. lia.
Qed.

Definition same_group (local m : Member) : bool := String.eqb (group m) (group local).

(** The members a role is told about, and the two pools of a Planet. *)
Definition known_to (v : Members) (local : Member) : list Member := by_id (List.filter (offered local) ((in_order v).*2)).
Definition pool (v : Members) (local : Member) (near : bool) : list Member :=
  List.filter (λ m, Bool.eqb near (same_group local m)) (known_to v local).

Lemma known_elem v local x : x ∈ known_to v local ↔ offered local x = true ∧ ∃ k, v !! k = Some x.
Proof.
  unfold known_to. rewrite by_id_perm, list_elem_of_In, filter_In, <- list_elem_of_In, list_elem_of_fmap. split.
  - intros [([k y] & -> & Hin) Ho]. apply in_order_elem in Hin. eauto.
  - intros [Ho [k Hk]]. split; [|done]. exists (k, x). by rewrite in_order_elem.
Qed.

Lemma NoDup_list_filter {A} (f : A → bool) l : NoDup l → NoDup (List.filter f l).
Proof. rewrite !NoDup_ListNoDup. apply List.NoDup_filter. Qed.

Lemma known_nodup gal log local : lawful gal log → NoDup (known_to (members_of log) local).
Proof.
  intros Hl. pose proof (lawful_consistent _ _ Hl) as Hc. unfold known_to. rewrite by_id_perm. apply NoDup_list_filter.
  apply NoDup_fmap_2_strong; [|apply in_order_nodup]. intros [k x] [k' y] Hx Hy E. simpl in E. subst y.
  apply in_order_elem in Hx, Hy. destruct (con_member _ _ _ Hc _ _ Hx) as [<- _]. by destruct (con_member _ _ _ Hc _ _ Hy) as [<- _].
Qed.

Lemma pool_elem v local near x : x ∈ pool v local near ↔ x ∈ known_to v local ∧ same_group local x = near.
Proof.
  unfold pool. rewrite list_elem_of_In, filter_In, <- list_elem_of_In. rewrite eqb_true_iff. naive_solver.
Qed.

Lemma filter_length_le {A} (f : A → bool) l : (length (List.filter f l) <= length l)%nat.
Proof. induction l as [|x l IH]; simpl; [lia|]. destruct (f x); simpl; lia. Qed.

Lemma pool_size v local near : (length (pool v local near) <= size v)%nat.
Proof.
  unfold pool. etrans; [apply filter_length_le|]. unfold known_to. rewrite by_id_perm. etrans; [apply filter_length_le|].
  unfold in_order. rewrite length_fmap, merge_sort_Permutation. by rewrite length_map_to_list.
Qed.

(** How many of each pool are shown. *)
Definition shown (n f : nat) (near : bool) : nat :=
  let l := Nat.min n (8 - Nat.min 4 f) in if near then l else Nat.min f (8 - l).

Lemma shown_bounds n f :
  (shown n f true + shown n f false = Nat.min 8 (n + f))%nat ∧ (Nat.min 4 n <= shown n f true <= n)%nat ∧
  (Nat.min 4 f <= shown n f false <= f)%nat.
Proof. unfold shown. lia. Qed.

Definition part (v : Members) (local : Member) (round : Z) (near : bool) : list Member :=
  take (shown (length (pool v local true)) (length (pool v local false)) near) (rotate (seed_of local) round (pool v local near)).

(** A Planet is shown a part of each pool. *)
Lemma candidates_parts v local round :
  role local = planet → candidates v local round = by_id (part v local round true) ++ by_id (part v local round false).
Proof.
  intros Hp. unfold candidates. rewrite (bool_decide_true (role local = planet)) by done. cbn [negb]. fold (known_to v local).
  assert (E1 : List.filter (λ m, String.eqb (group m) (group local)) (known_to v local) = pool v local true).
  { apply List.filter_ext. intros m. unfold same_group. by destruct (String.eqb _ _). }
  assert (E2 : List.filter (λ m, negb (String.eqb (group m) (group local))) (known_to v local) = pool v local false).
  { apply List.filter_ext. intros m. unfold same_group. by destruct (String.eqb _ _). }
  rewrite E1, E2. unfold part, shown. by rewrite !rotate_length.
Qed.

Lemma part_elem v local round near x : x ∈ part v local round near → x ∈ pool v local near.
Proof. unfold part. intros Hx. rewrite <- (rotate_perm (seed_of local) round). apply elem_of_take in Hx as (i & Hi & _). by eapply list_elem_of_lookup_2. Qed.

Lemma part_length v local round near :
  length (part v local round near) = shown (length (pool v local true)) (length (pool v local false)) near.
Proof.
  unfold part. rewrite length_take, rotate_length. pose proof (shown_bounds (length (pool v local true)) (length (pool v local false))).
  destruct near; lia.
Qed.

Lemma filter_constant {A} (f : A → bool) b l : (∀ y, y ∈ l → f y = b) → List.filter f l = if b then l else [].
Proof.
  induction l as [|y l IH]; intros Hall; simpl; [by destruct b|]. rewrite (Hall y), IH by set_solver. by destruct b.
Qed.

Lemma part_side v local round near b :
  length (List.filter (λ y, Bool.eqb b (same_group local y)) (by_id (part v local round near))) =
  if Bool.eqb b near then shown (length (pool v local true)) (length (pool v local false)) near else 0%nat.
Proof.
  rewrite (filter_constant _ (Bool.eqb b near)).
  - destruct (Bool.eqb b near); [|done]. by rewrite by_id_perm, part_length.
  - intros y Hy. rewrite by_id_perm in Hy. apply part_elem, pool_elem in Hy as [_ ->]. done.
Qed.

Lemma part_nodup gal log local round near : lawful gal log → NoDup (part (members_of log) local round near).
Proof.
  intros Hl. unfold part. apply (sublist_NoDup _ (rotate (seed_of local) round (pool (members_of log) local near))).
  - rewrite rotate_perm. unfold pool. apply NoDup_list_filter. by eapply known_nodup.
  - apply sublist_take.
Qed.

Lemma candidate_part v local round x :
  role local = planet → x ∈ candidates v local round ↔ x ∈ part v local round (same_group local x).
Proof.
  intros Hp. rewrite (candidates_parts _ _ _ Hp), elem_of_app, !by_id_perm. split.
  - intros [Hx|Hx]; pose proof (proj2 (proj1 (pool_elem _ _ _ _) (part_elem _ _ _ _ _ Hx))) as ->; done.
  - destruct (same_group local x); [by left|by right].
Qed.

(** The seed is not negative. *)
Lemma seed_range local : 0 <= seed_of local.
Proof.
  assert (Hfold : ∀ l a, Forall (λ b, 0 <= b < 256) l → 0 <= a → 0 <= foldl (λ acc b, Z.lor (wrap64 (Z.shiftl acc 8)) b) a l).
  { induction l as [|b l IH]; intros a Hl Ha; simpl; [done|]. apply Forall_cons in Hl as [Hb Hl]. apply IH; [done|].
    apply Z.lor_nonneg. split; [|lia]. apply wrap64_u64. }
  apply Hfold; [|done]. apply Forall_take, sha256_octets.
Qed.

(** C22. A Planet is offered a fair choice.  From the members of any lawful log it is shown
    at most eight Stars, each once; a Star is left out only when eight are shown and four
    of them are on its side (of the Planet's group, or of the other groups); and every
    Star comes up within as many rounds as there are fours of members, as long as neither
    the round, of 32 bits in the request, nor the 64-bit counter wraps. *)
Theorem candidates_fair (gal : string) (log : list (string * Member)) (local : Member) (round : Z) :
  lawful gal log → role local = planet → 0 <= round →
  let v := members_of log in
  let offer r := candidates v local r in
  let is_star x := role x = star ∧ v !! key_of x = Some x in
  NoDup (offer round) ∧ (length (offer round) <= 8)%nat ∧ (∀ x, x ∈ offer round → is_star x) ∧
  (∀ x, is_star x → x ∉ offer round → length (offer round) = 8%nat ∧
     (4 <= length (List.filter (λ y, Bool.eqb (same_group local x) (same_group local y)) (offer round)))%nat) ∧
  (∀ x, is_star x → seed_of local + (round + Z.of_nat (size v)) * 4 <= u64_max →
     ∃ k, 0 <= k ∧ k * 4 < Z.of_nat (size v) ∧ x ∈ offer (round + k)).
Proof.
  intros Hl Hp Hr v offer is_star. pose proof (lawful_consistent _ _ Hl) as Hc.
  assert (Hstar : ∀ x, x ∈ known_to v local ↔ is_star x).
  { intros x. rewrite known_elem. unfold is_star.
    assert (offered local x = true ↔ role x = star) as -> by (unfold offered; rewrite Hp; by destruct (role x)).
    split; [|naive_solver]. intros [Hs [k Hk]]. split; [done|]. by destruct (con_member _ _ _ Hc _ _ Hk) as [-> _]. }
  pose proof (shown_bounds (length (pool v local true)) (length (pool v local false))) as (Hsum & Hn & Hf).
  assert (Hlen : length (offer round) = Nat.min 8 (length (pool v local true) + length (pool v local false))).
  { unfold offer. rewrite candidates_parts, length_app, !by_id_perm, !part_length by done. lia. }
  split_and!.
  - unfold offer. rewrite candidates_parts, !by_id_perm by done. apply NoDup_app. split_and!; [by eapply part_nodup| |by eapply part_nodup].
    intros x H1'%part_elem%pool_elem H2'%part_elem%pool_elem. destruct H1', H2'. congruence.
  - lia.
  - intros x Hx%candidate_part%part_elem%pool_elem; [|done]. apply Hstar, Hx.
  - intros x Hx Hout. apply Hstar in Hx. assert (Hin : x ∈ pool v local (same_group local x)) by (by apply pool_elem).
    unfold offer in Hout. rewrite candidate_part in Hout by done.
    assert (Hlt : (shown (length (pool v local true)) (length (pool v local false)) (same_group local x) < length (pool v local (same_group local x)))%nat).
    { apply Nat.nle_gt. intros Hge. apply Hout. unfold part. rewrite take_ge; [by rewrite rotate_perm|]. by rewrite rotate_length. }
    assert (Hcount : length (List.filter (λ y, Bool.eqb (same_group local x) (same_group local y)) (offer round)) =
      shown (length (pool v local true)) (length (pool v local false)) (same_group local x)).
    { unfold offer. rewrite candidates_parts, List.filter_app, length_app, !part_side by done. destruct (same_group local x); simpl; lia. }
    rewrite Hcount. destruct (same_group local x); lia.
  - intros x Hx Hmax. apply Hstar in Hx. assert (Hin : x ∈ pool v local (same_group local x)) by (by apply pool_elem).
    pose proof (pool_size v local (same_group local x)) as Hsz.
    destruct (rotate_reaches (seed_of local) round _ x Hin (seed_range local) Hr ltac:(lia)) as (k & Hk & Hk4 & Hall).
    exists k. split_and!; [done|lia|]. unfold offer. rewrite candidate_part by done. unfold part. apply Hall.
    destruct (same_group local x); lia.
Qed.
End offers.

(** ** What an admission is worth *)
Section admissions.
Context `{Inet, Protobuf, Crypto}.
Context (response_size : Response → Z) (member_size : OrbitMember → Z).

Lemma signed_verifies m a s :
  grantable m → sign (encode m) = Done (a, s) → (String.length a <= 1024)%nat → verify a s = Expected m.
Proof.
  intros [Hv Hd He _] Hs Hl. unfold sign in Hs. destruct (sign_bytes _) as [x|] eqn:Ex; [|done]. injection Hs as <- <-.
  destruct (sign_verifies _ _ Ex) as [H64 Hok]. unfold verify. rewrite H64, Hok.
  rewrite (proj2 (Nat.ltb_ge 1024 _)) by done. cbn [Nat.eqb negb orb].
  change (encode m) with (set_principal (digest_bytes (principal m)) (encode m)) at 1.
  rewrite parse_serialize by (apply stored_message; [done|unfold is_u64; lia]). by apply member_roundtrip.
Qed.

Lemma prepared_answer pulse call round m v resp :
  prepare_response response_size pulse call round m v = Done resp →
  sign (encode m) = Done (admission resp, signature resp) ∧ response_members resp = encode <$> candidates v m round.
Proof.
  unfold prepare_response. destruct (cancelled_last call); [done|]. destruct (sign (encode m)) as [[a s]|]; [|done].
  destruct (_ <? _); [done|]. by intros [= <-].
Qed.

Definition authorised (accounts : list Account) (r : RegistrationRequest) : Prop :=
  ∃ a, a ∈ accounts ∧ username a = request_username r ∧ derive (request_password r) (salt a) = Some (hash a) ∧
    Z.land (roles a) (wanted_bit (request_role r)) ≠ 0.

Lemma authenticate_ok accounts call r : authenticate accounts call r = OK → authorised accounts r.
Proof.
  unfold authenticate. destruct (cancelled_first call); [done|]. destruct (_ || _); [done|]. destruct (negb (permit call)); [done|].
  destruct (List.find _ accounts) as [a|] eqn:Ef.
  - change (default blank_account (Some a)) with a. apply find_some in Ef as [Hin%list_elem_of_In Hn%String.eqb_eq].
    destruct (derive (request_password r) (salt a)) as [x|] eqn:Ed.
    + destruct (cancelled_later call); [done|]. case_bool_decide as Eh; cbn [negb orb]; [|done].
      rewrite (bool_decide_true (is_Some (Some a))) by done. cbn [negb]. destruct (Z.eqb_spec (Z.land (roles a) (wanted_bit (request_role r))) 0); [done|]. intros _. exists a. by subst x.
    + destruct (cancelled_later call); [done|]. done.
  - destruct (cancelled_later call); [done|]. rewrite (bool_decide_false (is_Some None)) by (by intros [? ?]).
    by rewrite orb_true_r.
Qed.

(** The members of a list fit one answer. *)
Definition total_size (l : list Member) : Z := foldr (λ m acc, member_size (encode m) + 6 + acc) 0 l.

Lemma list_members_run l bytes prepared (s : Site) :
  (∀ m, 0 <= member_size m) → bytes + total_size l <= answer_limit →
  list_members member_size l [] bytes prepared s [] = (Done (OK, Some (prepared ++ (encode <$> l))), s, []).
Proof.
  intros Hpos. revert bytes prepared. induction l as [|m l IH]; intros bytes prepared Hb; simpl.
  - unfold ret. by rewrite app_nil_r.
  - simpl in Hb. assert (0 <= total_size l).
    { clear -Hpos. induction l as [|x l IH]; simpl; [lia|]. specialize (Hpos (encode x)). lia. }
    unfold bind, alloc. rewrite (proj2 (Z.ltb_ge _ _)) by lia. rewrite IH by lia. by rewrite <- app_assoc.
Qed.

(** A handler that answered [OK] ran its body. *)
Lemma guarded_ok {A} a b (m : eff Site (StatusCode * option A)) s f x s' f' :
  a ≠ OK → b ≠ OK → guarded a b m s f = (Done (OK, Some x), s', f') → m s f = (Done (OK, Some x), s', f').
Proof.
  intros Ha Hb. unfold guarded. destruct (m s f) as [[[?|e] ?] ?]; [done|]. destruct e; intros [=]; congruence.
Qed.

(** What the body of [Register] did when it answered. *)
Lemma register_body_ok galaxy pulse accounts call r s f resp s' f' :
  register_body response_size galaxy pulse accounts call r s f = (Done (OK, Some resp), s', f') →
  ∃ c f1 f2, authenticate accounts call r = OK ∧ principal c = fingerprint galaxy r ∧ role_of (request_role r) = Expected (role c) ∧
    register_member c (request_key r) (prepare_response response_size pulse call (request_round r)) s f1 = (Done (Expected resp), s', f2).
Proof.
  unfold register_body. destruct (role_of (request_role r)) as [ro|] eqn:Er; [|done].
  destruct (_ || _); [done|]. unfold bind at 1. unfold alloc at 1.
  assert (Hmain : ∀ g, match authenticate accounts call r with
    | OK => match Endpoint.parse (request_advertise r) false with
      | Unexpected _ => ret (INVALID_ARGUMENT, None)
      | Expected address =>
          if negb (String.eqb (request_galaxy r) galaxy) || negb (String.eqb (Endpoint.text address) (request_advertise r))
             || negb (valid_name (request_group r))
          then ret (INVALID_ARGUMENT, None)
          else match entropy call with
            | None => throw runtime_error
            | Some random =>
                alloc ;;;
                committed <- register_member
                  {| Types.galaxy := galaxy; id := "p_" +:+ Principal.text {| Principal.bytes := random |};
                     principal := fingerprint galaxy r; Types.address := address; epoch := 0; Types.role := ro;
                     group := request_group r |} (request_key r) (prepare_response response_size pulse call (request_round r)) ;;
                match committed with
                | Unexpected e => ret (rejected e, None)
                | Expected prepared => ret (OK, Some prepared)
                end
            end
      end
    | status => ret (status, None)
    end s g = (Done (OK, Some resp), s', f') → ∃ c f1 f2, authenticate accounts call r = OK ∧ principal c = fingerprint galaxy r ∧
      Expected (E := Code) ro = Expected (role c) ∧
      register_member c (request_key r) (prepare_response response_size pulse call (request_round r)) s f1 = (Done (Expected resp), s', f2)).
  { intros g. destruct (authenticate accounts call r); try done. destruct (Endpoint.parse _ _) as [ad|]; [|done].
    destruct (_ || _); [done|]. destruct (entropy call) as [random|]; [|done].
    set (c := {| Types.galaxy := galaxy |}). unfold bind at 1. unfold alloc at 1.
    assert (Hreg : ∀ h, (committed <- register_member c (request_key r) (prepare_response response_size pulse call (request_round r)) ;;
        match committed with Unexpected e => ret (rejected e, None) | Expected prepared => ret (OK, Some prepared) end) s h =
        (Done (OK, Some resp), s', f') →
      register_member c (request_key r) (prepare_response response_size pulse call (request_round r)) s h = (Done (Expected resp), s', f')).
    { intros h. unfold bind. destruct (register_member _ _ _ s h) as [[[[x|e]|e] s1] f1]; [by intros [= -> -> ->]| |done].
      unfold ret. by destruct e. }
    destruct g as [|[] g]; [|done|]; intros Hx%Hreg; exists c; eauto 10. }
  destruct f as [|[] f]; [|done|]; apply Hmain.
Qed.

(** C19. An admission is worth what it says.  When [Register] answers a request in any
    history of the ledger, the account named knew its password and has the role; the
    signed admission verifies and names the deployment and the role of the request; the
    process that issued it takes it for current; the members sent with it are the
    candidates of its view; and [List] accepts it at once, for any role but a Planet.  The
    admission is one metadata can carry, at most 1024 bytes, and for [List] the encoded
    candidates fit its answer. *)
Theorem admission_current (es : list event) (s s' : Site) (galaxy pulse : string) (accounts : list Account) (call : Call)
    (r : RegistrationRequest) (f f' : faults) (resp : Response) :
  Forall event_ok es → process (world_run es) = Some s →
  register_call response_size galaxy pulse accounts call r s f = (Done (OK, Some resp), s', f') →
  (String.length (admission resp) <= 1024)%nat →
  authorised accounts r ∧
  ∃ m, verify (admission resp) (signature resp) = Expected m ∧ principal m = fingerprint galaxy r ∧
    role_of (request_role r) = Expected (role m) ∧ ledger_current m (ledger_ s') = true ∧
    response_members resp = encode <$> candidates (members_ (ledger_ s')) m (request_round r) ∧
    (role m ≠ planet → (∀ x, 0 <= member_size x) →
     total_size (candidates (members_ (ledger_ s')) m 0) <= answer_limit →
     list_call member_size (galaxy_ (ledger_ s')) 0 [admission resp] [signature resp] [] s' [] =
       (Done (OK, Some (encode <$> candidates (members_ (ledger_ s')) m 0)), s', [])).
Proof.
  intros Hes Hp Hcall Hlen. destruct (world_run_inv es Hes) as (log & _ & _ & Hall). rewrite Hp in Hall.
  destruct Hall as (gal & auth & seen & pending & -> & Hh & _ & _).
  unfold register_call in Hcall. apply guarded_ok in Hcall; [|done|by destruct (cancelled_last call)].
  destruct (register_body_ok _ _ _ _ _ _ _ _ _ _ Hcall) as (c & f1 & f2 & Hauth & Hpc & Hrc & Hreg).
  split; [by eapply authenticate_ok|].
  assert (Hw : Principal.well_formed (principal c)) by (rewrite Hpc; apply sha256_octets).
  pose proof (register_wp Faulty gal auth seen pending s c (request_key r) (prepare_response response_size pulse call (request_round r)) Hh Hw f1 I) as Hwp.
  rewrite Hreg in Hwp. destruct Hwp as (_ & m & log' & _ & Hpr & Hh' & _ & Hin & Hcur & Hpm & Hrm).
  destruct (prepared_answer _ _ _ _ _ _ Hpr) as [Hsign Hmem].
  pose proof (lawful_consistent _ _ (holds_lawful _ _ _ _ _ Hh')) as Hc. destruct (con_member _ _ _ Hc _ _ Hcur) as (_ & Hg & Hgal).
  pose proof (holds_view _ _ _ _ _ Hh') as [Hvm _].
  assert (Hver : verify (admission resp) (signature resp) = Expected m) by (by apply signed_verifies).
  assert (Hsnap : ledger_snapshot m (ledger_ s') = Some (members_ (ledger_ s'))).
  { unfold ledger_snapshot. rewrite Hvm, Hcur. by rewrite bool_decide_true. }
  exists m. rewrite <- Hpc, Hrc, Hpm, Hrm. split_and!; try done.
  - unfold ledger_current. rewrite Hsnap. by rewrite bool_decide_true.
  - by rewrite Hvm.
  - intros Hnp Hpos Hsize. unfold list_call, guarded, bind at 1. cbn [gets Z.eqb negb]. unfold bind at 1, alloc at 1.
    rewrite Hver, Hgal, (holds_galaxy _ _ _ _ _ Hh'), String.eqb_refl, bool_decide_false, Hsnap by congruence. cbn [negb orb].
    unfold bind, alloc. by rewrite list_members_run.
Qed.
End admissions.

(** ** Concrete inputs *)
Module Sample.
Import Types.Sample.
Import Membership.Sample.

(** Stand-ins that satisfy the law of [Crypto]: a checksum, and a signature that spells it. *)
Definition checksum (s : string) : list Z :=
  (λ i, foldl (λ acc c, (acc * 31 + ord c + i) mod 256) i (chars s)) <$> seqZ 0 32.

Definition seal (s : string) : string := Principal.text {| Principal.bytes := checksum s |}.

Lemma checksum_octets s : length (checksum s) = 32%nat ∧ Forall (λ b, 0 <= b < 256) (checksum s).
Proof.
  unfold checksum. rewrite length_fmap, length_seqZ. split; [done|]. apply Forall_fmap, Forall_forall. intros i Hi%elem_of_seqZ. simpl.
  assert (Hfold : ∀ cs a, 0 <= a < 256 → 0 <= foldl (λ acc c, (acc * 31 + ord c + i) mod 256) a cs < 256).
  { induction cs as [|c cs IH]; intros a Ha; simpl; [done|]. apply IH, Z.mod_pos_bound. lia. }
  apply Hfold. lia.
Qed.

Lemma seal_verifies s x : Some (seal s) = Some x → String.length x = 64%nat ∧ String.eqb x (seal s) = true.
Proof.
  intros [= <-]. rewrite String.eqb_refl. split; [|done]. apply principal_text_length. apply checksum_octets.
Qed.

#[export] Instance sample_crypto : Crypto := {
  sha256 := checksum; derive := λ password salt, Some (checksum password); sign_bytes := λ s, Some (seal s);
  verify_bytes := λ s x, String.eqb x (seal s); sha256_octets := checksum_octets; sign_verifies := seal_verifies
}.

(** Two accounts as a file has them. *)
Definition accounts_json : Json :=
  JsonArray
    [JsonObject [("username", JsonText "west"); ("salt", JsonText "000102030405060708090a0b0c0d0e0F");
                 ("hash", JsonText (seal "secret")); ("roles", JsonArray [JsonText "star"; JsonText "planet"])];
     JsonObject [("roles", JsonArray [JsonText "polaris"]); ("username", JsonText "archive");
                 ("salt", JsonText "ffffffffffffffffffffffffffffffff"); ("hash", JsonText (seal "other"))]]%string.

Definition accounts : list Account := default [] (load_accounts accounts_json).

Lemma accounts_typed_witness :
  load_accounts accounts_json = Some accounts ∧
  (1 <= length accounts <= 64)%nat ∧ NoDup (username <$> accounts) ∧ Forall account_ok accounts.
Proof. split; [vm_compute; reflexivity|]. apply (accounts_typed accounts_json). vm_compute. reflexivity. Defined.

(** A log of two Stars, and a Planet that asks. *)
Definition first_grant : string * Member := (request "a", with_epoch 1 (candidate 7 80 "p_a")).
Definition second_grant : string * Member := (request "b", with_epoch 1 (candidate 9 81 "p_b")).
Definition guest : Member :=
  {| galaxy := "alpha"; id := "p_z"; principal := digest 3; address := address (candidate 3 90 "p_z"); epoch := 1; role := planet;
     group := "east" |}.

Lemma granted_ok n p name : (n = 7 ∨ n = 9) → (p = 80 ∨ p = 81) → (name = "p_a" ∨ name = "p_b") → grantable (with_epoch 1 (candidate n p name)).
Proof.
  intros Hn Hp Hs. split.
  - destruct Hn as [->| ->], Hp as [->| ->], Hs as [->| ->]; vm_compute; reflexivity.
  - split; [done|]. apply Forall_replicate. lia.
  - by split.
  - split; apply Nat.leb_le; destruct Hn as [->| ->], Hp as [->| ->], Hs as [->| ->]; vm_compute; reflexivity.
Qed.

Lemma two_lawful : lawful "alpha" [first_grant; second_grant].
Proof.
  apply (lawful_snoc "alpha" [first_grant]); [apply (lawful_snoc "alpha" []); [constructor|]|].
  - split; try done; [apply granted_ok; tauto|..]; intros; simplify_map_eq.
  - split; try done; [apply granted_ok; tauto|].
    intros k o Ho Hk. change (<[key_of first_grant.2 := first_grant.2]> (∅ : Members) !! k = Some o) in Ho. apply lookup_insert_Some in Ho as [[_ <-]|[_ Ho]]; [done|]. by rewrite lookup_empty in Ho.
Qed.

Lemma candidates_fair_witness :
  let v := members_of [first_grant; second_grant] in
  let offer r := candidates v guest r in
  let is_star x := role x = star ∧ v !! key_of x = Some x in
  NoDup (offer 5%Z) ∧ (length (offer 5%Z) <= 8)%nat ∧ (∀ x, x ∈ offer 5 → is_star x) ∧
  (∀ x, is_star x → x ∉ offer 5 → length (offer 5%Z) = 8%nat ∧
     (4 <= length (List.filter (λ y, Bool.eqb (same_group guest x) (same_group guest y)) (offer 5%Z)))%nat) ∧
  (∀ x, is_star x → seed_of guest + (5 + Z.of_nat (size v)) * 4 <= u64_max →
     ∃ k, 0 <= k ∧ k * 4 < Z.of_nat (size v) ∧ x ∈ offer (5 + k)).
Proof. apply (candidates_fair "alpha" [first_grant; second_grant] guest 5 two_lawful); done. Defined.

(** A registration of a Star by the first account. *)
Definition asked : RegistrationRequest :=
  {| request_galaxy := "alpha"; request_advertise := "7f000001:85"; request_role := ROLE_STAR; request_group := "west";
     request_round := 0; request_username := "west"; request_password := "secret"; request_key := request "r"; request_size := 200 |}.

Definition calm : Call :=
  {| cancelled_first := false; cancelled_later := false; cancelled_last := false; permit := true; entropy := Some (replicate 32 77) |}.

Definition no_size (r : Response) : Z := 0.
Definition small (m : OrbitMember) : Z := 300.

Definition answered : outcome (StatusCode * option Response) * Site * faults :=
  register_call no_size "alpha" "7f000001:99" accounts calm asked running [].

Definition answer : Response :=
  match answered with
  | (Done (_, Some x), _, _) => x
  | _ => {| response_members := []; admission := ""; signature := ""; pulse_endpoint := "" |}
  end.

Definition later : Site := answered.1.2.

Lemma answered_ok : register_call no_size "alpha" "7f000001:99" accounts calm asked running [] = (Done (OK, Some answer), later, []).
Proof. vm_compute. reflexivity. Qed.

Lemma admission_current_witness :
  length (response_members answer) = 3%nat ∧ authorised accounts asked ∧
  ∃ m, verify (admission answer) (signature answer) = Expected m ∧ principal m = fingerprint "alpha" asked ∧
    role_of (request_role asked) = Expected (role m) ∧ ledger_current m (ledger_ later) = true ∧
    response_members answer = encode <$> candidates (members_ (ledger_ later)) m (request_round asked) ∧
    (role m ≠ planet → (∀ x, 0 <= small x) →
     total_size small (candidates (members_ (ledger_ later)) m 0) <= answer_limit →
     list_call small (galaxy_ (ledger_ later)) 0 [admission answer] [signature answer] [] later [] =
       (Done (OK, Some (encode <$> candidates (members_ (ledger_ later)) m 0)), later, [])).
Proof.
  split; [vm_compute; reflexivity|]. destruct running_process as [Hp _].
  apply (admission_current no_size small (take 5 story) running later "alpha" "7f000001:99" accounts calm asked [] [] answer);
    [apply Forall_take, story_ok|exact Hp|exact answered_ok|]. apply Nat.leb_le. vm_compute. reflexivity.
Defined.
End Sample.
