(* ===== verification/Pulse.v ===== *)
(** Where the time of a Star comes from: [common/src/clock_precision.hpp],
    [pulsar/src/physical_clock.cpp] ([Source]), [pulsar/src/pulse.cpp] and
    [common/src/pulse_client.cpp] ([Sampler]), over the clock and the filter of [Clock].

    Instants of the two BOOTTIME clocks, what the kernel answers and what the network
    delivers are inputs; the waits between samples are left out. *)
From stdpp Require Import base numbers sorting strings gmap list.
From S2P Require Import Prelude.
From S2P Require Import Clock.
From S2P Require Import Types.
From S2P Require Import Ledger.
From S2P Require Import Membership.
From S2P Require Import Issuer.

(** ** The precision of a clock *)

(** The inner loop: [before], [best] and [edges]; [None] when the clock went back. *)
Fixpoint measure_batch (readings : list Z) (before best : Z) (edges : nat) : option (Z * Z * nat) :=
  match readings with
  | [] => Some (before, best, edges)
  | after :: readings' =>
      if (32 <=? edges)%nat then Some (before, best, edges)
      else if after <? before then None
      else if before <? after then measure_batch readings' after (Z.min best (after - before)) (S edges)
      else measure_batch readings' after best edges
  end.

(** The outer loop: one batch of up to 128 readings for each time [running] agrees. *)
Fixpoint measure_loop (batches : list (list Z)) (before best : Z) (edges : nat) : option (Z * nat) :=
  if (32 <=? edges)%nat then Some (best, edges)
  else
    match batches with
    | [] => Some (best, edges)
    | readings :: batches' =>
        match measure_batch (take 128 readings) before best edges with
        | None => None
        | Some (before, best, edges) => measure_loop batches' before best edges
        end
    end.

(** [measure_clock_precision]: [first] is the reading before the loop. *)
Definition measure_clock_precision (first : Z) (batches : list (list Z)) (minimum : Z) : outcome Z :=
  if (minimum =? 0) || (20000000 <? minimum) then Thrown invalid_argument
  else if first <? 0 then Thrown runtime_error
  else
    match measure_loop batches first u64_max 0 with
    | None => Thrown runtime_error
    | Some (best, edges) =>
        if (edges <? 3)%nat || (20000000 <? best) then Thrown runtime_error else Done (Z.max minimum best)
    end.

(** ** The physical reference *)

(** The flags of [timex] the code reads, as the kernel numbers them. *)
Definition STA_UNSYNC : Z := 0x40.
Definition STA_CLOCKERR : Z := 0x1000.
Definition STA_NANO : Z := 0x2000.
Definition TIME_ERROR : Z := 5.

(** One look at the kernel: [adjtimex] between two readings of BOOTTIME, with the wall
    clock; [wall_ok] says whether [clock_gettime] answered. *)
Record Kernel := {
  k_before : Z; k_status : Z; k_flags : Z; k_maxerror : Z; k_esterror : Z; k_offset : Z;
  k_wall_ok : bool; k_seconds : Z; k_nanoseconds : Z; k_after : Z
}.

Definition nano (k : Kernel) : bool := negb (Z.land (k_flags k) STA_NANO =? 0).
Definition error_us (k : Kernel) : Z := Z.max (k_maxerror k) (k_esterror k).
Definition unit_of (k : Kernel) : Z := if nano k then 1 else 1000.

(** [Source::sample]. *)
Definition source_sample (k : Kernel) : option Estimate :=
  if (k_status k <? 0) || (k_status k =? TIME_ERROR) || negb (Z.land (k_flags k) (Z.lor STA_UNSYNC STA_CLOCKERR) =? 0)
     || (k_maxerror k <? 0) || (k_esterror k <? 0) || negb (k_wall_ok k)
  then None
  else if (k_after k <? k_before k) || (20000000 <? k_after k - k_before k) || (k_seconds k <? 0) || (k_nanoseconds k <? 0)
          || (1000000000 <=? k_nanoseconds k) || ((maximum - k_nanoseconds k) / 1000000000 <? k_seconds k)
  then None
  else
    let offset_limit := clock_uncertainty_limit_ns / unit_of k in
    if (clock_uncertainty_limit_ns / 1000 <? error_us k) || (k_offset k <? - offset_limit) || (offset_limit <? k_offset k)
    then None
    else
      let offset := if k_offset k <? 0 then - k_offset k else k_offset k in
      let uncertainty :=
        wrap64 (wrap64 (wrap64 (error_us k * 1000) + wrap64 (offset * unit_of k)) + (k_after k - k_before k)) in
      if clock_uncertainty_limit_ns <? uncertainty then None
      else Some {| e_time := k_seconds k * 1000000000 + k_nanoseconds k; e_sampled := k_after k; e_uncertainty_ns := uncertainty;
                   e_rtt_ns := 0 |}.

(** The members of [Source] that it shares with the calls. *)
Record Source := { source_clock : Clock; source_precision : Z }.

Definition set_clock (c : Clock) (s : Source) : Source := {| source_clock := c; source_precision := source_precision s |}.
Definition source_revoke (s : Source) : Source := set_clock (revoke (source_clock s)) s.

(** What a turn of the sampling thread meets: the measured precision when it is still
    unknown, what the provider answers ([None] when it throws), whether the thread is asked
    to stop before, during and after the sample, and the instant of [publish]. *)
Record Turn := {
  measured : outcome Z; stop_before : bool; provided : option (option Estimate); stop_during : bool; stop_after : bool;
  published : Z
}.

(** One turn of [Source::run]; a turn that leaves the loop revokes as the thread does at
    its end. *)
Definition source_turn (t : Turn) (s : Source) : Source :=
  match (if source_precision s =? 0 then measured t else Done (source_precision s)) with
  | Thrown _ => source_revoke s
  | Done p =>
      let s := {| source_clock := source_clock s; source_precision := p |} in
      if stop_before t then source_revoke s
      else
        match provided t with
        | None => source_revoke s
        | Some sample =>
            let sample :=
              if stop_during t then sample
              else match sample with
                   | None => None
                   | Some e =>
                       if clock_uncertainty_limit_ns <? e_uncertainty_ns e then None
                       else Some {| e_time := e_time e; e_sampled := e_sampled e;
                                    e_uncertainty_ns := wrap64 (e_uncertainty_ns e + p); e_rtt_ns := e_rtt_ns e |}
                   end in
            if stop_after t then source_revoke s
            else
              match sample with
              | None => source_revoke s
              | Some e =>
                  match observe_clock e (published t) (source_clock s) with
                  | (true, c) => set_clock c s
                  | (false, c) => source_revoke (set_clock c s)
                  end
              end
        end
  end.

(** ** One exchange *)
Record Pong := {
  pong_t0 : Z; pong_t1 : Z; pong_t2 : Z; pong_precision : Z; pong_uncertainty : Z; pong_synchronized : bool
}.

(** The two readings of [OnReadDone] take the lock of the clock one after the other, so
    other steps can come between them.  The first, at [l1] ([None] when the reading throws):
    the status to finish with, or the reading and the precision the answer will carry. *)
Definition bounce_first (t0 : Z) (l1 : option Z) (s : Source) : (StatusCode + Reading * Z) * Source :=
  match l1 with
  | None => (inl UNAVAILABLE, s)
  | Some l1 =>
      let '(r1, c) := read_clock l1 (source_clock s) in
      let s := set_clock c s in
      match r1 with
      | None => (inl UNAVAILABLE, s)
      | Some t1 =>
          if negb (synchronized t1) then (inl UNAVAILABLE, s)
          else if i64_max <? t0 then (inl INVALID_ARGUMENT, s)
          else (inr (t1, source_precision s), s)
      end
  end.

(** The second, at [l2]. *)
Definition bounce_second (t0 : Z) (t1 : Reading) (precision : Z) (l2 : option Z) (s : Source) : (StatusCode + Pong) * Source :=
  match l2 with
  | None => (inl UNAVAILABLE, s)
  | Some l2 =>
      let '(r2, c) := read_clock l2 (source_clock s) in
      let s := set_clock c s in
      match r2 with
      | None => (inl UNAVAILABLE, s)
      | Some t2 =>
          if negb (synchronized t2) || (time t2 <? time t1) || (precision =? 0) then (inl UNAVAILABLE, s)
          else (inr {| pong_t0 := t0; pong_t1 := wrap64 (time t1); pong_t2 := wrap64 (time t2); pong_precision := precision;
                       pong_uncertainty := Z.max (uncertainty_ns t1) (uncertainty_ns t2); pong_synchronized := true |}, s)
      end
  end.

(** ** A batch of the Star *)

(** What the worker meets at one index of the loop: a request to stop, the instant before
    the write, whether the write and the read went through, the answer, the instant after
    the read, and whether the pause ended without a request to stop. *)
Record Probe := {
  probe_stop : bool; probe_t0 : Z; probe_io : bool; probe_pong : Pong; probe_t3 : Z; probe_wait : bool
}.

(** The loop of [Sampler::sample]: [valid], [received] and the filter. *)
Fixpoint sampler_loop (index : nat) (probes : list Probe) (received : nat) (f : Filter) : bool * nat * Filter :=
  match probes with
  | [] => (true, received, f)
  | p :: probes' =>
      if (8 <=? index)%nat || probe_stop p then (true, received, f)
      else if probe_t0 p <? 0 then (false, received, f)
      else if negb (probe_io p) then (true, received, f)
      else
        let received := S received in
        let pong := probe_pong p in
        if negb (pong_t0 pong =? wrap64 (probe_t0 p)) || negb (pong_synchronized pong) then (false, received, f)
        else
          let f := (filter_observe (pong_t0 pong) (pong_t1 pong) (pong_t2 pong) (probe_t3 p) (pong_precision pong)
                      (pong_uncertainty pong) (pong_synchronized pong) f).2 in
          if negb (index =? 7)%nat && negb (probe_wait p) then (true, received, f)
          else sampler_loop (S index) probes' received f
  end.

(** The members of [Sampler] with the clock it feeds. *)
Record Sampler := { sampler_clock : Clock; sampler_precision : Z; failures : Z }.

(** [DATA_LOSS] is not among the codes of the registry. *)
Inductive SampleStatus := sampled_ok | data_loss | status_of (c : StatusCode).

(** [Sampler::sample]: [finished] is the final status of the stream, [stopped] a request to
    stop seen after it, [at_] the instant of [publish]. *)
Definition sampler_sample (probes : list Probe) (finished : StatusCode) (stopped : bool) (at_ : Z) (precision : Z) (c : Clock)
    : outcome SampleStatus * Clock :=
  match make_filter precision with
  | Thrown e => (Thrown e, c)
  | Done f =>
      let '(valid, received, f) := sampler_loop 0 probes 0 f in
      if negb valid then (Done data_loss, c)
      else if negb (bool_decide (finished = OK)) then (Done (status_of finished), c)
      else
        match filter_result f with
        | None => (Done (status_of UNAVAILABLE), c)
        | Some e =>
            if stopped || negb (received =? 8)%nat then (Done (status_of UNAVAILABLE), c)
            else
              match observe_clock e at_ c with
              | (true, c') => (Done sampled_ok, c')
              | (false, c') => (Done data_loss, c')
              end
        end
  end.

(** What a turn of [Sampler::run] meets: the measured precision when it is still unknown, a
    request to stop seen before the batch, the batch with its final status, whether a call
    of it throws, and the instant of [publish]. *)
Record Round := {
  round_measured : outcome Z; round_ended : bool; round_probes : list Probe; round_status : StatusCode; round_stopped : bool; round_thrown : bool;
  round_at : Z
}.

Definition refused_by_peer (s : SampleStatus) : bool :=
  match s with data_loss => true | status_of c => bool_decide (c = PERMISSION_DENIED) || bool_decide (c = UNAUTHENTICATED) | sampled_ok => false end.

(** One turn; the thread revokes when it leaves the loop. *)
Definition sampler_round (r : Round) (s : Sampler) : Sampler :=
  let failed (x : Sampler) := {| sampler_clock := sampler_clock x; sampler_precision := sampler_precision x;
                                 failures := Z.min (failures x + 1) 7 |} in
  let broken := failed {| sampler_clock := revoke (sampler_clock s); sampler_precision := 0; failures := failures s |} in
  match (if sampler_precision s =? 0 then round_measured r else Done (sampler_precision s)) with
  | Thrown _ => broken
  | Done p =>
      if round_ended r
      then {| sampler_clock := revoke (sampler_clock s); sampler_precision := p; failures := failures s |}
      else if round_thrown r then broken
      else
        match sampler_sample (round_probes r) (round_status r) (round_stopped r) (round_at r) p (sampler_clock s) with
        | (Thrown _, _) => broken
        | (Done sampled_ok, c) => {| sampler_clock := c; sampler_precision := p; failures := 0 |}
        | (Done status, c) =>
            failed {| sampler_clock := if refused_by_peer status then revoke c else c; sampler_precision := p; failures := failures s |}
        end
  end.

(** The wait before the next turn, in milliseconds, without the jitter. *)
Definition sampler_delay (s : Sampler) : Z := if failures s =? 0 then 1000 else Z.min (Z.shiftl 100 (failures s - 1)) 5000.

(** ** Accuracy from end to end

    [tau_p] and [tau_s] are the reference time as functions of the local clocks of Pulsar
    and of the Star. *)

Lemma measured_range first batches minimum p :
  0 <= minimum → measure_clock_precision first batches minimum = Done p → 1 <= p <= 20000000.
Proof.
  intros Hm. unfold measure_clock_precision. destruct (Z.eqb_spec minimum 0); [done|]. destruct (Z.ltb_spec 20000000 minimum); [done|].
  destruct (first <? 0); [done|]. destruct (measure_loop _ _ _ _) as [[best edges]|]; [|done].
  destruct (edges <? 3)%nat; [done|]. destruct (Z.ltb_spec 20000000 best); [done|]. intros [= <-]. lia.
Qed.

(** Answers of the kernel within their types; BOOTTIME counts from the boot. *)
Definition kernel_typed (k : Kernel) : Prop :=
  0 <= k_before k ∧ is_i64 (k_before k) ∧ is_i64 (k_after k) ∧ is_i64 (k_maxerror k) ∧ is_i64 (k_esterror k) ∧ is_i64 (k_offset k) ∧
  is_i64 (k_seconds k) ∧ is_i64 (k_nanoseconds k).

(** The kernel means what it reports: at some instant between the two readings of BOOTTIME,
    which are truncated to the precision [p] of that clock, the wall clock was off by at most
    the reported error and offset. *)
Definition kernel_honest (tau : Z → Z) (p : Z) (k : Kernel) : Prop :=
  ∃ w, k_before k <= w <= k_after k + p ∧
    Z.abs (tau w - (k_seconds k * 1000000000 + k_nanoseconds k)) <= error_us k * 1000 + Z.abs (k_offset k) * unit_of k.

(** How far the reference can stray from BOOTTIME within the longest window or precision the
    code accepts: [Source::sample] and [OnReadDone] add windows and precisions as they are
    and leave this out. *)
Definition stray : Z := drift 20000000 2000.

Lemma drift_stray d : 0 <= d <= 20000000 → drift d 2000 <= stray.
Proof.
  intros Hd. assert (20000000 <= maximum) by (unfold maximum, i64_max; lia).
  pose proof (drift_bounds d 2000 ltac:(lia) ltac:(lia)). change stray with 40000. lia.
Qed.

(** Once [run] has added the precision, the error of a sample lacks only the stray. *)
Lemma source_sample_sound tau p k e :
  steady 2000 tau → kernel_typed k → 0 <= p <= 20000000 → kernel_honest tau p k → source_sample k = Some e →
  Z.abs (tau (e_sampled e) - e_time e) <= e_uncertainty_ns e + p + stray ∧
  0 <= e_time e <= maximum ∧ is_i64 (e_sampled e) ∧ 0 <= e_uncertainty_ns e <= clock_uncertainty_limit_ns ∧ e_rtt_ns e = 0.
Proof.
  intros Htau (Hb & T1 & T2 & T3 & T4 & T5 & T6 & T7) Hpr (w & Hw & Herr). unfold source_sample.
  match goal with |- (if ?b then _ else _) = _ → _ => destruct b eqn:E1; [done|] end.
  match goal with |- (if ?b then _ else _) = _ → _ => destruct b eqn:E2; [done|] end. cbv zeta.
  match goal with |- (if ?b then _ else _) = _ → _ => destruct b eqn:E3; [done|] end.
  repeat match goal with E : _ || _ = false |- _ => apply orb_false_iff in E as [? ?] end.
  repeat match goal with E : (_ <? _) = false |- _ => apply Z.ltb_ge in E end.
  repeat match goal with E : (_ <=? _) = false |- _ => apply Z.leb_gt in E end.
  set (off := if k_offset k <? 0 then - k_offset k else k_offset k).
  assert (Hoff : off = Z.abs (k_offset k)) by (unfold off; destruct (Z.ltb_spec (k_offset k) 0); lia).
  assert (Hunit : 0 <= off * unit_of k <= clock_uncertainty_limit_ns).
  { rewrite Hoff. unfold unit_of, clock_uncertainty_limit_ns in *. destruct (nano k); [rewrite Z.div_1_r in *|change (500000000 / 1000) with 500000 in *]; lia. }
  assert (Herr0 : 0 <= error_us k * 1000 <= clock_uncertainty_limit_ns).
  { unfold error_us, clock_uncertainty_limit_ns in *. change (500000000 / 1000) with 500000 in *. lia. }
  unfold clock_uncertainty_limit_ns in *.
  rewrite (wrap64_small (error_us k * 1000)), (wrap64_small (off * unit_of k)) by (unfold is_u64, u64_max; lia).
  rewrite (wrap64_small (error_us k * 1000 + off * unit_of k)) by (unfold is_u64, u64_max; lia).
  rewrite wrap64_small by (unfold is_u64, u64_max; lia).
  match goal with |- (if ?b then _ else _) = _ → _ => destruct b eqn:E4; [done|] end. apply Z.ltb_ge in E4. intros [= <-].
  pose proof (Z.mul_div_le (maximum - k_nanoseconds k) 1000000000 ltac:(lia)).
  cbn [e_time e_sampled e_uncertainty_ns e_rtt_ns]. rewrite <- Hoff in Herr. split_and!; try lia; try apply T2.
  assert (Hm : 20000000 <= maximum) by (unfold maximum, i64_max; lia). destruct (Z.le_gt_cases w (k_after k)) as [Hle|Hgt].
  - pose proof (Htau w (k_after k) ltac:(lia) ltac:(lia)) as Hd. pose proof (drift_stray (k_after k - w) ltac:(lia)). lia.
  - pose proof (Htau (k_after k) w ltac:(lia) ltac:(lia)) as Hd. pose proof (drift_stray (w - k_after k) ltac:(lia)). lia.
Qed.

(** A clock whose estimate is sound up to [sl]. *)
Definition tracking (tau : Z → Z) (sl : Z) (c : Clock) : Prop := ok c ∧ ∀ e, estimate_ c = Some e → sound tau sl e.

Lemma tracking_apply tau sl o c : tracking tau sl c → op_ok o → op_sound tau sl o → tracking tau sl (apply o c).2.
Proof. intros [Hok Hs] Ho Hos. split; [by apply apply_ok|]. intros e. by apply apply_sound. Qed.

Lemma tracking_read tau sl l c : tracking tau sl c → is_i64 l → tracking tau sl (read_clock l c).2.
Proof. intros Hc Hl. by apply (tracking_apply tau sl (Now l) c). Qed.

Lemma tracking_revoke tau sl c : tracking tau sl c → tracking tau sl (revoke c).
Proof. intros Hc. by apply (tracking_apply tau sl Revoke c). Qed.

Lemma tracking_observe tau sl e l c :
  tracking tau sl c → op_ok (Publish e l) → sound tau sl e → tracking tau sl (observe_clock e l c).2.
Proof. intros Hc Ho Hs. by apply (tracking_apply tau sl (Publish e l) c). Qed.

Lemma tracking_make tau sl ppm c : is_u64 ppm → make ppm = Done c → tracking tau sl c.
Proof. intros Hu Hm. destruct (make_ok ppm c Hu Hm) as (Hok & Hn & _). split; [done|]. by rewrite Hn. Qed.

(** What a reading is worth: the reference is within its error, and its time is a public
    one. *)
Lemma reading_accurate tau sl l c rd c' :
  steady 2000 tau → tracking tau sl c → is_i64 l → read_clock l c = (Some rd, c') →
  0 <= l ∧ Z.abs (tau l - time rd) <= uncertainty_ns rd + sl ∧ 0 <= time rd <= maximum ∧ is_u64 (uncertainty_ns rd) ∧
  (synchronized rd = true → uncertainty_ns rd <= clock_uncertainty_limit_ns).
Proof.
  intros Htau [Hok Hs] Hl Hr. destruct (estimate_ c) as [e|] eqn:Ee; [|unfold read_clock in Hr; by rewrite Ee in Hr].
  pose proof (read_covered tau sl Htau c l e Hok Ee (Hs e eq_refl) Hl) as Hcov. rewrite Hr in Hcov.
  assert (Hok' : ok c') by (pose proof (apply_ok (Now l) c Hok Hl) as Ha; cbn [apply] in Ha; by rewrite Hr in Ha).
  unfold read_clock in Hr. rewrite Ee in Hr. pose proof (advance_continues c l Hok ltac:(by rewrite Ee) Hl) as Hadv.
  destruct (advance l c) as [[] c1]; [|done]. destruct Hadv as (-> & _). injection Hr as <- <-.
  unfold covered in Hcov. cbn [fst snd time uncertainty_ns local_ moved] in Hcov. split_and!; try done.
  - apply (ok_local _ Hok').
  - cbn [time]. apply Hok'.
  - cbn [time]. apply Hok'.
  - cbn [uncertainty_ns]. apply wrap64_u64.
  - cbn [synchronized uncertainty_ns]. rewrite !andb_true_iff, !Z.leb_le. tauto.
Qed.

(** *** Pulsar *)
Section chain.
Context (tau_p tau_s : Z → Z) (Hp : steady 2000 tau_p) (Hs : steady 1500 tau_s).

(** A calibration that succeeds comes from measuring the clock; the timer around it can
    fail too. *)
Definition calibrates (o : outcome Z) : Prop :=
  ∀ p, o = Done p → ∃ first batches minimum, 0 <= minimum ∧ measure_clock_precision first batches minimum = Done p.

Lemma calibrates_range o p : calibrates o → o = Done p → 1 <= p <= 20000000.
Proof using. intros Hc Ho. destruct (Hc p Ho) as (first & batches & minimum & Hm & Hp'). by eapply measured_range. Qed.

(** The precision a turn works with. *)
Definition turn_precision (t : Turn) (s : Source) : outcome Z := if source_precision s =? 0 then measured t else Done (source_precision s).

(** A turn of the sampling thread with the default provider, on an honest kernel; a request
    to stop is not taken back. *)
Definition turn_genuine (t : Turn) (s : Source) : Prop :=
  calibrates (measured t) ∧
  (provided t = None ∨ ∃ k, kernel_typed k ∧ (∀ p, turn_precision t s = Done p → kernel_honest tau_p p k) ∧ provided t = Some (source_sample k)) ∧
  is_i64 (published t) ∧ (stop_during t = true → stop_after t = true).

(** The states of Pulsar's clock under turns and readings in any order. *)
Inductive source_reach : Source → Prop :=
| source_start c : make 500 = Done c → source_reach {| source_clock := c; source_precision := 0 |}
| source_turned t s : source_reach s → turn_genuine t s → source_reach (source_turn t s)
| source_read l s : source_reach s → is_i64 l → source_reach (set_clock (read_clock l (source_clock s)).2 s).

Definition source_ok (s : Source) : Prop := tracking tau_p stray (source_clock s) ∧ 0 <= source_precision s <= 20000000.

Lemma source_revoke_ok s : source_ok s → source_ok (source_revoke s).
Proof using. intros [Hc Hr]. split; [by apply tracking_revoke|done]. Qed.

Lemma source_turn_ok t s : source_ok s → turn_genuine t s → source_ok (source_turn t s).
Proof using Hp.
  intros [Hc Hr] (Hme & Hpr & Hpub & Hstop). unfold source_turn. fold (turn_precision t s).
  destruct (turn_precision t s) as [p|e] eqn:Em; [|by apply source_revoke_ok].
  assert (Hp' : 0 <= p <= 20000000).
  { unfold turn_precision in Em. destruct (source_precision s =? 0); [|by injection Em as <-]. apply (calibrates_range _ _ Hme) in Em. lia. }
  set (s1 := {| source_clock := source_clock s; source_precision := p |}). assert (Hs1 : source_ok s1) by done.
  destruct (stop_before t); [by apply source_revoke_ok|].
  destruct Hpr as [->|(k & Hkt & Hkh & ->)]; [by apply source_revoke_ok|].
  destruct (stop_after t) eqn:Esa; [by destruct (stop_during t); apply source_revoke_ok|].
  destruct (stop_during t); [by specialize (Hstop eq_refl)|].
  destruct (source_sample k) as [e|] eqn:Ek; [|by apply source_revoke_ok].
  destruct (source_sample_sound tau_p p k e Hp Hkt Hp' (Hkh p eq_refl) Ek) as (Hso & Ht & Hsm & Hu & Hrt).
  rewrite (proj2 (Z.ltb_ge _ _)) by lia. unfold clock_uncertainty_limit_ns in *.
  rewrite wrap64_small by (unfold is_u64, u64_max; lia). set (e' := {| e_time := _ |}).
  assert (Ho' : tracking tau_p stray (observe_clock e' (published t) (source_clock s1)).2).
  { apply tracking_observe; [done| |unfold sound; simpl; lia]. simpl. rewrite Hrt. unfold is_i64, is_u64, maximum, u64_max, i64_max in *. lia. }
  destruct (observe_clock e' (published t) (source_clock s1)) as [[] c]; [|apply source_revoke_ok]; by split.
Qed.

Lemma source_reach_ok s : source_reach s → source_ok s.
Proof using Hp.
  induction 1 as [c Hm|t s _ IH Ht|l s _ [Hc Hr] Hl]; [|by apply source_turn_ok|split; [by apply tracking_read|done]].
  split; [|simpl; lia]. by apply (tracking_make _ _ 500); [|done].
Qed.

(** The first reading of an answer, taken at [l1]. *)
Definition stamped (l1 : Z) (t1 : Reading) (precision : Z) : Prop :=
  0 <= l1 ∧ Z.abs (tau_p l1 - time t1) <= uncertainty_ns t1 + stray ∧ 0 <= time t1 <= maximum ∧ is_u64 (uncertainty_ns t1) ∧
  0 <= precision <= 20000000.

Lemma bounce_first_ok t0 l1 s :
  source_reach s → (∀ l, l1 = Some l → is_i64 l) →
  source_reach (bounce_first t0 l1 s).2 ∧
  ∀ t1 precision, (bounce_first t0 l1 s).1 = inr (t1, precision) → ∃ l, l1 = Some l ∧ stamped l t1 precision ∧ t0 <= i64_max.
Proof using Hp.
  intros Hsr H1. unfold bounce_first. destruct l1 as [l1|]; [|done]. specialize (H1 l1 eq_refl).
  pose proof (source_read l1 s Hsr H1) as Hs1. destruct (source_reach_ok s Hsr) as [Hc Hr].
  destruct (read_clock l1 (source_clock s)) as [r1 c1] eqn:E1. cbn [snd] in Hs1. destruct r1 as [t1|]; [|done].
  destruct (reading_accurate _ _ _ _ _ _ Hp Hc H1 E1) as (A & B & C & D & _).
  destruct (negb (synchronized t1)); [done|]. destruct (Z.ltb_spec i64_max t0); [done|]. split; [done|].
  intros t p [= <- <-]. by exists l1.
Qed.

(** What an answer read at [l1] and [l2] says is true of the reference. *)
Definition truthful (l1 l2 : Z) (pong : Pong) : Prop :=
  0 <= l1 ∧ 0 <= l2 ∧ Z.abs (tau_p l1 - pong_t1 pong) <= pong_uncertainty pong + stray ∧
  Z.abs (tau_p l2 - pong_t2 pong) <= pong_uncertainty pong + stray ∧
  0 <= pong_t1 pong <= pong_t2 pong ∧ pong_t2 pong <= maximum ∧ pong_synchronized pong = true ∧
  1 <= pong_precision pong <= 20000000 ∧ is_u64 (pong_uncertainty pong).

Lemma bounce_second_ok t0 l1 t1 precision l2 s :
  source_reach s → (∀ l, l2 = Some l → is_i64 l) → stamped l1 t1 precision →
  source_reach (bounce_second t0 t1 precision l2 s).2 ∧
  ∀ pong, (bounce_second t0 t1 precision l2 s).1 = inr pong → ∃ l, l2 = Some l ∧ truthful l1 l pong ∧ pong_t0 pong = t0 ∧ pong_precision pong = precision.
Proof using Hp.
  intros Hsr H2 (A1 & B1 & C1 & D1 & Hpr). unfold bounce_second. destruct l2 as [l2|]; [|done]. specialize (H2 l2 eq_refl).
  pose proof (source_read l2 s Hsr H2) as Hs1. destruct (source_reach_ok s Hsr) as [Hc Hr].
  destruct (read_clock l2 (source_clock s)) as [r2 c2] eqn:E2. cbn [snd] in Hs1. destruct r2 as [t2|]; [|done].
  destruct (reading_accurate _ _ _ _ _ _ Hp Hc H2 E2) as (A2 & B2 & C2 & D2 & _).
  destruct (negb (synchronized t2)); [done|]. destruct (Z.ltb_spec (time t2) (time t1)); [done|]. cbn [orb].
  destruct (Z.eqb_spec precision 0); [done|]. split; [done|]. intros pong [= <-]. exists l2. split_and!; try done. unfold truthful.
  cbn [pong_t0 pong_t1 pong_t2 pong_precision pong_uncertainty pong_synchronized].
  rewrite !wrap64_small by (unfold is_u64, u64_max, maximum, i64_max in *; lia). unfold is_u64 in *. split_and!; try lia; done.
Qed.

(** *** The Star *)

(** A probe that went through was answered by such a Pulsar, between the write and the
    read.  Every instant is known to the precision of the clock that read it: [lp] on the
    Star, the precision of the answer on Pulsar. *)
Definition probe_genuine (lp : Z) (p : Probe) : Prop :=
  is_i64 (probe_t0 p) ∧ is_i64 (probe_t3 p) ∧
  (probe_io p = true → ∃ src1 src2 l1 l2 t1 precision b1 b2 a0 a3,
     source_reach src1 ∧ source_reach src2 ∧ is_i64 l1 ∧ is_i64 l2 ∧
     (bounce_first (wrap64 (probe_t0 p)) (Some l1) src1).1 = inr (t1, precision) ∧
     (bounce_second (wrap64 (probe_t0 p)) t1 precision (Some l2) src2).1 = inr (probe_pong p) ∧
     l1 <= b1 <= l1 + precision ∧ l2 <= b2 <= l2 + precision ∧
     probe_t0 p <= a0 <= probe_t0 p + lp ∧ probe_t3 p <= a3 <= probe_t3 p + lp ∧
     tau_s a0 <= tau_p b1 ∧ tau_p b1 <= tau_p b2 ∧ tau_p b2 <= tau_s a3).

Definition sample_of (p : Probe) : sample :=
  {| s_t0 := pong_t0 (probe_pong p); s_t1 := pong_t1 (probe_pong p); s_t2 := pong_t2 (probe_pong p); s_t3 := probe_t3 p;
     s_precision := pong_precision (probe_pong p); s_uncertainty := pong_uncertainty (probe_pong p);
     s_synchronized := pong_synchronized (probe_pong p) |}.

(** An instant [b] known as [l] to a precision: the reading, moved to [b], strays further. *)
Lemma reading_moved l b p t e :
  0 <= l → l <= b <= l + p → 0 <= p <= 20000000 → Z.abs (tau_p l - t) <= e + stray → Z.abs (t + (b - l) - tau_p b) <= e + 2 * stray.
Proof using Hp.
  intros Hl Hb Hpr He. assert (20000000 <= maximum) by (unfold maximum, i64_max; lia).
  pose proof (Hp l b Hl ltac:(lia)). pose proof (drift_stray (b - l) ltac:(lia)). lia.
Qed.

Lemma probe_faithful lp p :
  probe_genuine lp p → probe_io p = true → 0 <= probe_t0 p → sample_ok (sample_of p) ∧ faithful tau_s (2 * stray) lp (sample_of p).
Proof using Hp.
  intros (T0 & T3 & Hio) Ht H0.
  destruct (Hio Ht) as (src1 & src2 & l1 & l2 & t1 & pr & b1 & b2 & a0 & a3 & S1 & S2 & L1 & L2 & F1 & F2 & B1 & B2 & A0 & A3 & C1 & C2 & C3).
  destruct (bounce_first_ok (wrap64 (probe_t0 p)) (Some l1) src1 S1 ltac:(by intros ? [= <-])) as [_ Hf].
  destruct (Hf _ _ F1) as (? & [= <-] & Hst & _).
  destruct (bounce_second_ok (wrap64 (probe_t0 p)) l1 t1 pr (Some l2) src2 S2 ltac:(by intros ? [= <-]) Hst) as [_ Hg].
  destruct (Hg _ F2) as (? & [= <-] & (P1 & P2 & R1 & R2 & V1 & V2 & _ & Pr & U) & E0 & Epr).
  rewrite wrap64_small in E0 by (unfold is_i64, is_u64, u64_max, i64_max in *; lia). split.
  - unfold sample_ok, sample_of. cbn. rewrite E0. unfold is_i64, is_u64, u64_max, maximum, i64_max in *. lia.
  - pose proof (reading_moved l1 b1 pr _ _ P1 B1 ltac:(lia) R1). pose proof (reading_moved l2 b2 pr _ _ P2 B2 ltac:(lia) R2).
    exists a0, a3, (tau_p b1), (tau_p b2), (pong_t1 (probe_pong p) + (b1 - l1)), (pong_t2 (probe_pong p) + (b2 - l2)).
    unfold sample_of. cbn. rewrite E0, Epr. split_and!; lia.
Qed.

(** The filter of a batch has seen faithful samples only. *)
Lemma sampler_loop_faithful lp index probes received f valid received' f' :
  Forall (probe_genuine lp) probes → sampler_loop index probes received f = (valid, received', f') →
  ∃ batch, f' = fold_left feed batch f ∧ Forall sample_ok batch ∧ Forall (faithful tau_s (2 * stray) lp) batch.
Proof using Hp.
  revert index received f. induction probes as [|p probes IH]; intros index received f Hall; cbn [sampler_loop].
  { intros [= <- <- <-]. by exists []. }
  inversion_clear Hall as [|?? Hg Hrest]. destruct ((8 <=? index)%nat || probe_stop p); [intros [= <- <- <-]; by exists []|].
  destruct (Z.ltb_spec (probe_t0 p) 0) as [|H0]; [intros [= <- <- <-]; by exists []|].
  destruct (probe_io p) eqn:Eio; cbn [negb]; [|intros [= <- <- <-]; by exists []].
  destruct (_ || _); [intros [= <- <- <-]; by exists []|].
  destruct (probe_faithful lp p Hg Eio H0) as [Hso Hfa]. destruct (negb (index =? 7)%nat && _).
  - intros [= <- <- <-]. exists [sample_of p]. by rewrite !Forall_singleton.
  - intros Hl. destruct (IH _ _ _ Hrest Hl) as (batch & -> & Hb1 & Hb2). exists (sample_of p :: batch). by rewrite !Forall_cons.
Qed.

(** The precision a round works with. *)
Definition round_precision (r : Round) (s : Sampler) : outcome Z := if sampler_precision s =? 0 then round_measured r else Done (sampler_precision s).

Definition round_genuine (r : Round) (s : Sampler) : Prop :=
  calibrates (round_measured r) ∧
  (∀ lp, round_precision r s = Done lp → Forall (probe_genuine lp) (round_probes r)) ∧ is_i64 (round_at r).

(** The states of a Star's clock under rounds and readings in any order. *)
Inductive star_reach : Sampler → Prop :=
| star_start c : make 1000 = Done c → star_reach {| sampler_clock := c; sampler_precision := 0; failures := 0 |}
| star_round r s : star_reach s → round_genuine r s → star_reach (sampler_round r s)
| star_read l s : star_reach s → is_i64 l →
    star_reach {| sampler_clock := (read_clock l (sampler_clock s)).2; sampler_precision := sampler_precision s; failures := failures s |}.

Definition star_ok (s : Sampler) : Prop :=
  tracking tau_s (2 * stray) (sampler_clock s) ∧ 0 <= sampler_precision s <= 20000000 ∧ 0 <= failures s <= 7.

Lemma sampler_sample_ok probes finished stopped at_ lp c out c' :
  tracking tau_s (2 * stray) c → 0 <= lp <= 20000000 → Forall (probe_genuine lp) probes → is_i64 at_ →
  sampler_sample probes finished stopped at_ lp c = (out, c') → tracking tau_s (2 * stray) c'.
Proof using Hp Hs.
  intros Hc Hlp Hall Hat. unfold sampler_sample. destruct (make_filter lp) as [f|] eqn:Ef; [|by intros [= <- <-]].
  destruct (sampler_loop 0 probes 0 f) as [[valid received] f'] eqn:El.
  destruct (sampler_loop_faithful _ _ _ _ _ _ _ _ Hall El) as (batch & -> & Hb1 & Hb2).
  destruct (negb valid); [by intros [= <- <-]|]. destruct (negb _); [by intros [= <- <-]|].
  destruct (filter_result _) as [e|] eqn:Er; [|by intros [= <- <-]]. destruct (_ || _); [by intros [= <- <-]|].
  destruct (filter_covers_reference tau_s (2 * stray) lp f batch e Hs ltac:(unfold is_u64, u64_max; lia) Ef Hb1 Hb2 Er) as (Hso & Ht & Hsm & Hu & Hrt).
  assert (Ho : tracking tau_s (2 * stray) (observe_clock e at_ c).2).
  { apply tracking_observe; [done| |done]. simpl. unfold is_i64, is_u64, maximum, u64_max, i64_max in *. lia. }
  destruct (observe_clock e at_ c) as [[] c2]; by intros [= <- <-].
Qed.

Lemma sampler_round_ok r s : star_ok s → round_genuine r s → star_ok (sampler_round r s).
Proof using Hp Hs.
  intros (Hc & Hpr & Hf) (Hme & Hall & Hat). unfold sampler_round. fold (round_precision r s).
  assert (Hrev : tracking tau_s (2 * stray) (revoke (sampler_clock s))) by (by apply tracking_revoke).
  destruct (round_precision r s) as [lp|] eqn:El; [|split_and!; simpl; done || lia].
  assert (Hlp : 0 <= lp <= 20000000).
  { unfold round_precision in El. destruct (sampler_precision s =? 0); [|by injection El as <-].
    apply (calibrates_range _ _ Hme) in El. lia. }
  destruct (round_ended r); [split_and!; simpl; done || lia|].
  destruct (round_thrown r); [split_and!; simpl; done || lia|].
  destruct (sampler_sample _ _ _ _ lp _) as [[st|] c'] eqn:Es; [|split_and!; simpl; done || lia].
  pose proof (sampler_sample_ok _ _ _ _ _ _ _ _ Hc Hlp (Hall lp eq_refl) Hat Es) as Hc'.
  assert (Hc'' : tracking tau_s (2 * stray) (if refused_by_peer st then revoke c' else c')) by (destruct (refused_by_peer st); [by apply tracking_revoke|done]).
  destruct st; split_and!; simpl; done || lia.
Qed.

Lemma star_reach_ok s : star_reach s → star_ok s.
Proof using Hp Hs.
  induction 1 as [c Hm|r s _ IH Hr|l s _ (Hc & Hpr & Hf) Hl]; [|by apply sampler_round_ok|].
  - split_and!; simpl; try lia. by apply (tracking_make _ _ 1000).
  - split_and!; simpl; try lia. by apply tracking_read.
Qed.

(** C9. The time of a Star is right from end to end.  Assume a kernel on Pulsar's host that
    means what it reports, at some instant between the two readings of BOOTTIME around the
    look at it; clocks whose readings are truncated to the measured precision and drift from
    the reference by at most the budgets of the code, 2000 ppm on Pulsar and 1500 ppm on the
    Star; and probes that were really answered by such a Pulsar, between their write and their
    read.  Then at any point of any history of samples, answers, batches, failures,
    revocations and readings on both machines, a reading of the Star is within its declared
    error of the reference time, up to 80 microseconds: the drift, within a sample's window
    and within the precision of the answer's stamps, that the code leaves out of the declared
    error.  That error is at most half a second while the clock says it is synchronized. *)
Theorem star_time_accurate (s : Sampler) (l : Z) (rd : Reading) (c : Clock) :
  star_reach s → is_i64 l → read_clock l (sampler_clock s) = (Some rd, c) →
  Z.abs (tau_s l - time rd) <= uncertainty_ns rd + 80000 ∧ 0 <= time rd <= maximum ∧
  (synchronized rd = true → uncertainty_ns rd <= clock_uncertainty_limit_ns).
Proof using Hp Hs.
  intros Hr Hl Hrd. destruct (star_reach_ok s Hr) as [Hc _].
  destruct (reading_accurate tau_s (2 * stray) l (sampler_clock s) rd c) as (_ & A & B & _ & D); try done.
  by apply (steady_weaken 1500).
Qed.

(** The pauses between batches stay between a tenth of a second and five seconds. *)
Lemma sampler_delay_bounds s : star_reach s → 100 <= sampler_delay s <= 5000.
Proof using Hp Hs.
  intros Hr. destruct (star_reach_ok s Hr) as (_ & _ & Hf). unfold sampler_delay. destruct (Z.eqb_spec (failures s) 0); [lia|].
  rewrite Z.shiftl_mul_pow2 by lia. assert (1 <= 2 ^ (failures s - 1)) by (apply (Z.pow_le_mono_r 2 0); lia). lia.
Qed.
End chain.

(** ** The streams of the service *)

(** [Reactor]: which of its operations is outstanding, the ping and the first reading while
    [OnReadDone] is between its two readings, or the status it has finished with. *)
Inductive Phase := Receiving | Stamping (t0 l1 : Z) (t1 : Reading) (precision : Z) | Sending | Finished (c : StatusCode).

(** An answer with the instants of its two readings. *)
Record Answer := { first_at : Z; second_at : Z; answer_pong : Pong }.

Record Stream := { admitted_ : bool; responses_ : nat; phase_ : Phase; sent_ : list Answer }.

(** [Pulse] with the streams gRPC has not released. *)
Record Service := { permits_ : Z; streams_ : gmap nat Stream; source_ : Source }.

Definition set_streams (x : gmap nat Stream) (s : Service) : Service := {| permits_ := permits_ s; streams_ := x; source_ := source_ s |}.
Definition set_source (x : Source) (s : Service) : Service := {| permits_ := permits_ s; streams_ := streams_ s; source_ := x |}.

Definition set_phase (p : Phase) (r : Stream) : Stream :=
  {| admitted_ := admitted_ r; responses_ := responses_ r; phase_ := p; sent_ := sent_ r |}.

Definition finish (c : StatusCode) (r : Stream) : Stream := set_phase (Finished c) r.

(** What gRPC and the sampling thread can do: open a stream with its credentials, checked
    against the members the ledger shows then ([alarm] says whether the timer could be
    set), complete the outstanding operation of a stream, take the second reading of an
    answer, release a finished stream, sample. *)
Inductive callback :=
| Open (n : nat) (ledger : Ledger) (admissions signatures : list string) (alarm : bool)
| ReadDone (n : nat) (ok halted : bool) (t0 : Z) (l1 : option Z)
| Stamp (n : nat) (l2 : option Z)
| WriteDone (n : nat) (ok : bool)
| OnDone (n : nat)
| Sampled (t : Turn).

Section service.
Context `{Inet, Protobuf, Crypto}.

(** [Reactor::start] for an admitted stream: the phase it leaves it in. *)
Definition check_credential (ledger : Ledger) (admissions signatures : list string) (alarm : bool) : Phase :=
  match admissions, signatures with
  | [a], [s] =>
      match verify a s with
      | Unexpected _ => Finished PERMISSION_DENIED
      | Expected value =>
          if negb (bool_decide (role value = star)) || negb (ledger_current value ledger) then Finished PERMISSION_DENIED
          else if negb alarm then Finished INTERNAL
          else Receiving
      end
  | _, _ => Finished UNAUTHENTICATED
  end.

(** [Pulse::Bounce]. *)
Definition open_stream (n : nat) (ledger : Ledger) (admissions signatures : list string) (alarm : bool) (s : Service) : Service :=
  let fresh := {| admitted_ := false; responses_ := 0; phase_ := Receiving; sent_ := [] |} in
  if permits_ s =? 0 then set_streams (<[n := finish RESOURCE_EXHAUSTED fresh]> (streams_ s)) s
  else
    {| permits_ := permits_ s - 1; source_ := source_ s;
       streams_ := <[n := {| admitted_ := true; responses_ := 0; phase_ := check_credential ledger admissions signatures alarm; sent_ := [] |}]>
                     (streams_ s) |}.

(** [Reactor::OnReadDone] up to its first reading, *)
Definition read_done (n : nat) (ok halted : bool) (t0 : Z) (l1 : option Z) (r : Stream) (s : Service) : Service :=
  if negb ok then set_streams (<[n := finish (if halted then CANCELLED else OK) r]> (streams_ s)) s
  else
    match bounce_first t0 l1 (source_ s) with
    | (inl status, src) => set_source src (set_streams (<[n := finish status r]> (streams_ s)) s)
    | (inr (t1, precision), src) =>
        set_source src (set_streams (<[n := set_phase (Stamping t0 (default 0 l1) t1 precision) r]> (streams_ s)) s)
    end.

(** and from its second one. *)
Definition stamp_done (n : nat) (t0 l1 : Z) (t1 : Reading) (precision : Z) (l2 : option Z) (r : Stream) (s : Service) : Service :=
  match bounce_second t0 t1 precision l2 (source_ s) with
  | (inl status, src) => set_source src (set_streams (<[n := finish status r]> (streams_ s)) s)
  | (inr pong, src) =>
      set_source src
        (set_streams (<[n := {| admitted_ := admitted_ r; responses_ := responses_ r; phase_ := Sending;
                                sent_ := sent_ r ++ [{| first_at := l1; second_at := default 0 l2; answer_pong := pong |}] |}]>
                        (streams_ s)) s)
  end.

(** [Reactor::OnWriteDone]. *)
Definition write_done (n : nat) (ok : bool) (r : Stream) (s : Service) : Service :=
  let r' :=
    if negb ok then finish CANCELLED r
    else
      let counted := {| admitted_ := admitted_ r; responses_ := S (responses_ r); phase_ := Receiving; sent_ := sent_ r |} in
      if (responses_ counted =? 8)%nat then finish OK counted else counted in
  set_streams (<[n := r']> (streams_ s)) s.

(** [Reactor::OnDone]. *)
Definition on_done (n : nat) (r : Stream) (s : Service) : Service :=
  {| permits_ := if admitted_ r then permits_ s + 1 else permits_ s; streams_ := delete n (streams_ s); source_ := source_ s |}.

(** gRPC completes only what is outstanding. *)
Definition serve (s : Service) (e : callback) : Service :=
  match e with
  | Open n l a g alarm => match streams_ s !! n with None => open_stream n l a g alarm s | Some _ => s end
  | ReadDone n ok halted t0 l1 =>
      match streams_ s !! n with
      | Some r => match phase_ r with Receiving => read_done n ok halted t0 l1 r s | _ => s end
      | None => s
      end
  | Stamp n l2 =>
      match streams_ s !! n with
      | Some r => match phase_ r with Stamping t0 l1 t1 precision => stamp_done n t0 l1 t1 precision l2 r s | _ => s end
      | None => s
      end
  | WriteDone n ok =>
      match streams_ s !! n with Some r => match phase_ r with Sending => write_done n ok r s | _ => s end | None => s end
  | OnDone n =>
      match streams_ s !! n with Some r => match phase_ r with Finished _ => on_done n r s | _ => s end | None => s end
  | Sampled t => set_source (source_turn t (source_ s)) s
  end.

Definition service_start (c : Clock) : Service :=
  {| permits_ := 64; streams_ := ∅; source_ := {| source_clock := c; source_precision := 0 |} |}.

Definition serving (c : Clock) (es : list callback) : Service := foldl serve (service_start c) es.

(** What a callback can bring: instants within their type, honest turns. *)
Definition callback_ok (tau_p : Z → Z) (s : Service) (e : callback) : Prop :=
  match e with
  | ReadDone _ _ _ _ l | Stamp _ l => ∀ x, l = Some x → is_i64 x
  | Sampled t => turn_genuine tau_p t (source_ s)
  | _ => True
  end.

Fixpoint callbacks_ok (tau_p : Z → Z) (s : Service) (es : list callback) : Prop :=
  match es with [] => True | e :: es' => callback_ok tau_p s e ∧ callbacks_ok tau_p (serve s e) es' end.

Record stream_ok (tau_p : Z → Z) (r : Stream) : Prop := {
  stream_live : (∀ c, phase_ r ≠ Finished c) → admitted_ r = true ∧ (responses_ r < 8)%nat;
  stream_responses : (responses_ r <= 8)%nat;
  stream_sent : (responses_ r <= length (sent_ r) <= 8)%nat ∧
                match phase_ r with
                | Receiving => length (sent_ r) = responses_ r
                | Stamping _ l1 t1 precision => length (sent_ r) = responses_ r ∧ stamped tau_p l1 t1 precision
                | Sending => length (sent_ r) = S (responses_ r)
                | Finished _ => True
                end;
  stream_true : Forall (λ a, truthful tau_p (first_at a) (second_at a) (answer_pong a)) (sent_ r)
}.

Definition taken (m : gmap nat Stream) : Z := map_sum (λ _ r, if admitted_ r then 1 else 0) m.

Record service_ok (tau_p : Z → Z) (s : Service) : Prop := {
  service_permits : 0 <= permits_ s ∧ permits_ s + taken (streams_ s) = 64;
  service_streams : ∀ n r, streams_ s !! n = Some r → stream_ok tau_p r;
  service_source : source_reach tau_p (source_ s)
}.

(** Replacing a stream by one that holds its permit alike. *)
Lemma service_update tau_p s n r r' src :
  service_ok tau_p s → streams_ s !! n = Some r → admitted_ r' = admitted_ r → stream_ok tau_p r' → source_reach tau_p src →
  service_ok tau_p (set_source src (set_streams (<[n := r']> (streams_ s)) s)).
Proof.
  intros [[S1 S2] S3 S4] Hn Ha Hr Hsrc. split; simpl; [|intros m x [[<- <-]|[_ Hx]]%lookup_insert_Some; [done|by eapply S3]|done].
  split; [done|]. unfold taken in *. rewrite (map_sum_insert _ _ n r r' Hn), Ha. lia.
Qed.

Lemma open_stream_ok tau_p s n l a g alarm :
  service_ok tau_p s → streams_ s !! n = None → service_ok tau_p (open_stream n l a g alarm s).
Proof.
  intros [[S1 S2] S3 S4] Hn. unfold open_stream, taken in *. destruct (Z.eqb_spec (permits_ s) 0) as [E|E]; split; simpl; try done.
  - split; [done|]. unfold taken. rewrite map_sum_insert_new by done. simpl. lia.
  - intros m x [[<- <-]|[_ Hx]]%lookup_insert_Some; [|by eapply S3]. split; simpl; [naive_solver|lia|split; [lia|done]|constructor].
  - split; [lia|]. unfold taken. rewrite map_sum_insert_new by done. simpl. lia.
  - intros m x [[<- <-]|[_ Hx]]%lookup_insert_Some; [|by eapply S3].
    split; cbn [admitted_ responses_ phase_ sent_ length].
    + intros _. split; [done|lia].
    + lia.
    + split; [lia|]. unfold check_credential. repeat case_match; done.
    + constructor.
Qed.

(** A stream that finishes keeps what it has answered. *)
Lemma finish_ok tau_p c r : stream_ok tau_p r → stream_ok tau_p (finish c r).
Proof. intros [R1 R2 [R3 _] R5]. split; simpl; try done. intros Hno. by destruct (Hno c). Qed.

Lemma read_done_ok tau_p s n ok halted t0 l1 r :
  steady 2000 tau_p → service_ok tau_p s → streams_ s !! n = Some r → phase_ r = Receiving → (∀ x, l1 = Some x → is_i64 x) →
  service_ok tau_p (read_done n ok halted t0 l1 r s).
Proof.
  intros Hp Hs Hn Hph Hl. pose proof (service_streams _ _ Hs _ _ Hn) as Hr. unfold read_done.
  pose proof (service_source _ _ Hs) as Hsrc. destruct ok; cbn [negb].
  - destruct (bounce_first_ok tau_p Hp t0 l1 (source_ s) Hsrc Hl) as [Hsrc' Hf].
    destruct (bounce_first t0 l1 (source_ s)) as [[c|[t1 pr]] src]; [by eapply service_update, Hsrc'; eauto using finish_ok|].
    eapply service_update, Hsrc'; [done|done|done|]. destruct (Hf t1 pr eq_refl) as (l & -> & Hst & _).
    destruct Hr as [R1 R2 [R3 R4] R5]. rewrite Hph in R1, R4. split; cbn [set_phase admitted_ responses_ phase_ sent_ default]; try done.
    intros _. by apply R1.
  - set (x := finish _ r). change (set_streams (<[n := x]> (streams_ s)) s) with (set_source (source_ s) (set_streams (<[n := x]> (streams_ s)) s)).
    eapply service_update; eauto. by apply finish_ok.
Qed.

Lemma stamp_done_ok tau_p s n t0 l1 t1 pr l2 r :
  steady 2000 tau_p → service_ok tau_p s → streams_ s !! n = Some r → phase_ r = Stamping t0 l1 t1 pr → (∀ x, l2 = Some x → is_i64 x) →
  service_ok tau_p (stamp_done n t0 l1 t1 pr l2 r s).
Proof.
  intros Hp Hs Hn Hph Hl. pose proof (service_streams _ _ Hs _ _ Hn) as Hr. unfold stamp_done.
  pose proof (stream_sent _ _ Hr) as [R3 R4]. rewrite Hph in R4. destruct R4 as [Hlen Hst].
  destruct (bounce_second_ok tau_p Hp t0 l1 t1 pr l2 (source_ s) (service_source _ _ Hs) Hl Hst) as [Hsrc Hg].
  destruct (bounce_second t0 t1 pr l2 (source_ s)) as [[c|pong] src]; [by eapply service_update, Hsrc; eauto using finish_ok|].
  eapply service_update, Hsrc; [done|done|done|]. destruct (Hg pong eq_refl) as (l & -> & Ht & _).
  destruct Hr as [R1 R2 _ R5]. rewrite Hph in R1. destruct R1 as [Ra Rl]; [done|].
  split; cbn [admitted_ responses_ phase_ sent_ default]; [done|done| |].
  - rewrite length_app. simpl. lia.
  - apply Forall_app. split; [done|]. by apply Forall_singleton.
Qed.

Lemma write_done_ok tau_p s n ok r :
  service_ok tau_p s → streams_ s !! n = Some r → phase_ r = Sending → service_ok tau_p (write_done n ok r s).
Proof.
  intros Hs Hn Hph. pose proof (service_streams _ _ Hs _ _ Hn) as Hr. unfold write_done.
  set (r' := if negb ok then _ else _). change (set_streams (<[n := r']> (streams_ s)) s) with
    (set_source (source_ s) (set_streams (<[n := r']> (streams_ s)) s)).
  eapply service_update; [done|done| | |by destruct Hs].
  - unfold r'. destruct ok; cbn [negb]; [|done]. by destruct (responses_ _ =? 8)%nat.
  - unfold r'. destruct ok; cbn [negb]; [|by apply finish_ok]. destruct Hr as [R1 R2 [R3 R4] R5]. rewrite Hph in R1, R4.
    destruct R1 as [Ra Rl]; [done|]. cbn [responses_]. destruct (Nat.eqb_spec (S (responses_ r)) 8) as [E|E].
    + split; simpl; [intros Hno; by destruct (Hno OK)|lia|split; [lia|done]|done].
    + split; simpl; [intros _; split; [done|lia]|lia|split; lia|done].
Qed.

Lemma on_done_ok tau_p s n r : service_ok tau_p s → streams_ s !! n = Some r → service_ok tau_p (on_done n r s).
Proof.
  intros [[S1 S2] S3 S4] Hn. split; simpl; [|intros m x [_ Hx]%lookup_delete_Some; by eapply S3|done].
  unfold taken in *. rewrite (map_sum_delete _ _ n r Hn) in S2. destruct (admitted_ r); lia.
Qed.

Lemma serve_ok tau_p s e : steady 2000 tau_p → service_ok tau_p s → callback_ok tau_p s e → service_ok tau_p (serve s e).
Proof.
  intros Hp Hs He. destruct e as [n l a g alarm|n ok halted t0 l1|n l2|n ok|n|t]; cbn [serve];
    [| | | | |destruct Hs as [S1 S2 S3]; split; [done|done|by constructor]].
  { destruct (streams_ s !! n) eqn:En; [done|]. by apply open_stream_ok. }
  all: destruct (streams_ s !! n) as [r|] eqn:En; [|done]; destruct (phase_ r) eqn:Eph; try done.
  - by apply read_done_ok.
  - by apply stamp_done_ok.
  - by apply write_done_ok.
  - by apply on_done_ok.
Qed.

(** A finished stream stays as it is until gRPC releases it. *)
Lemma serve_finished s e n r x :
  streams_ s !! n = Some r → phase_ r = Finished x → e ≠ OnDone n → streams_ (serve s e) !! n = Some r.
Proof.
  intros Hn Hph He.
  assert (Hu : ∀ m q (y : Stream) src, streams_ s !! m = Some q → phase_ q ≠ Finished x →
    streams_ (set_source src (set_streams (<[m := y]> (streams_ s)) s)) !! n = Some r).
  { intros m q y src Hm Hq. simpl. rewrite lookup_insert_ne; [done|]. congruence. }
  destruct e as [m l a g alarm|m ok halted t0 l1|m l2|m ok|m|t]; cbn [serve]; [| | | | |done].
  all: destruct (streams_ s !! m) as [q|] eqn:Em; try done.
  - assert (m ≠ n) by congruence. unfold open_stream. by destruct (_ =? 0); simpl; rewrite lookup_insert_ne.
  - destruct (phase_ q) eqn:Eq; try done. unfold read_done. destruct ok; cbn [negb].
    + destruct (bounce_first _ _ _) as [[?|[? ?]] ?]; by eapply Hu; [done|rewrite Eq].
    + by apply (Hu m q _ (source_ s) Em); rewrite Eq.
  - destruct (phase_ q) eqn:Eq; try done. unfold stamp_done.
    destruct (bounce_second _ _ _ _ _) as [[?|?] ?]; by eapply Hu; [done|rewrite Eq].
  - destruct (phase_ q) eqn:Eq; try done. by apply (Hu m q _ (source_ s) Em); rewrite Eq.
  - destruct (phase_ q) eqn:Eq; try done. simpl. rewrite lookup_delete_ne; [done|]. congruence.
Qed.

(** C23. The time service is bounded and truthful.  Whatever streams are opened with whatever
    credentials, however their operations complete and whatever comes between the two
    readings of an answer: the 64 permits are never overdrawn and each comes back, every
    stream that has not finished holds one, and no stream is answered more than eight times
    nor again after it has finished.  When the kernel means what it reports and the reference
    drifts from Pulsar's BOOTTIME by at most 2000 ppm, every answer carries two ordered
    times, each within the declared error, up to 40 microseconds, of the reference at the
    instant of the very reading that gave it. *)
Theorem pulse_bounded (tau_p : Z → Z) (c : Clock) (es : list callback) :
  steady 2000 tau_p → make 500 = Done c → callbacks_ok tau_p (service_start c) es →
  service_ok tau_p (serving c es) ∧
  ∀ n r x e, streams_ (serving c es) !! n = Some r → phase_ r = Finished x → e ≠ OnDone n → streams_ (serve (serving c es) e) !! n = Some r.
Proof.
  intros Hp Hm Hes. split; [|by intros; eapply serve_finished]. revert Hes. unfold serving. assert (Hs : service_ok tau_p (service_start c)).
  { split; simpl; [done|intros n r; by rewrite lookup_empty|by constructor]. }
  revert Hs. generalize (service_start c). induction es as [|e es IH]; intros s Hs; [done|]. intros [He Hes].
  apply IH; [by apply serve_ok|done].
Qed.
End service.

(** ** A concrete chain *)
Module Sample.
Import Clock.Sample.
Import Types.Sample.
Import Membership.Sample.
Import Issuer.Sample.

(** A look at a kernel that is synchronized to within a millisecond. *)
Definition kernel : Kernel :=
  {| k_before := 1000000000; k_status := 0; k_flags := STA_NANO; k_maxerror := 1000; k_esterror := 500; k_offset := -100;
     k_wall_ok := true; k_seconds := 1700000001; k_nanoseconds := 0; k_after := 1000005000 |}.

Definition calibration : outcome Z := measure_clock_precision 0 [[100; 200; 300; 300; 400]] 1.

Lemma calibration_genuine : calibrates calibration.
Proof. intros p Hp. by exists 0, [[100; 200; 300; 300; 400]], 1. Qed.

Definition first_turn : Turn :=
  {| measured := calibration; stop_before := false; provided := Some (source_sample kernel); stop_during := false; stop_after := false;
     published := 1000010000 |}.

Definition pulsar_clock : Clock := match make 500 with Done c => c | Thrown _ => Clock.Sample.fresh end.
Definition unmeasured : Source := {| source_clock := pulsar_clock; source_precision := 0 |}.

Lemma first_turn_genuine : turn_genuine reference first_turn unmeasured.
Proof.
  split_and!; [apply calibration_genuine| |done|done]. right. exists kernel. split_and!; [done..| |done].
  intros p Hp. apply (calibrates_range _ _ calibration_genuine) in Hp.
  exists 1000000000. split; [simpl; lia|]. vm_compute. discriminate.
Qed.

Definition calibrated : Source := source_turn first_turn unmeasured.

Lemma calibrated_reach : source_reach reference calibrated.
Proof. unfold calibrated. apply source_turned; [by apply source_start|apply first_turn_genuine]. Qed.

(** Eight exchanges ten milliseconds apart. *)
Definition no_pong : Pong :=
  {| pong_t0 := 0; pong_t1 := 0; pong_t2 := 0; pong_precision := 0; pong_uncertainty := 0; pong_synchronized := false |}.
Definition no_reading : Reading :=
  {| time := 0; uncertainty_ns := 0; rtt_ns := 0; sampled := 0; ready := false; synchronized := false |}.

Definition first_stamp (t0 : Z) : Reading * Z :=
  match (bounce_first t0 (Some (t0 + 1000000)) calibrated).1 with inr x => x | inl _ => (no_reading, 0) end.
Definition second_stamp (t0 : Z) : Pong :=
  match (bounce_second t0 (first_stamp t0).1 (first_stamp t0).2 (Some (t0 + 1100000)) calibrated).1 with inr x => x | inl _ => no_pong end.

Definition probe_at (i : Z) : Probe :=
  let t0 := 1100000000 + i * 10000000 in
  {| probe_stop := false; probe_t0 := t0; probe_io := true; probe_pong := second_stamp t0; probe_t3 := t0 + 2000000; probe_wait := true |}.

Definition probes : list Probe := probe_at <$> seqZ 0 8.

Definition answered (i : Z) : Prop :=
  let t0 := probe_t0 (probe_at i) in
  (bounce_first (wrap64 t0) (Some (t0 + 1000000)) calibrated).1 = inr ((first_stamp t0).1, 100) ∧
  (bounce_second (wrap64 t0) (first_stamp t0).1 100 (Some (t0 + 1100000)) calibrated).1 = inr (probe_pong (probe_at i)).

Lemma answered_all i : i ∈ seqZ 0 8 → answered i.
Proof.
  intros Hi. assert (Hall : Forall answered (seqZ 0 8)).
  { repeat (apply Forall_cons; split; [vm_compute; split; reflexivity|]). constructor. }
  eapply Forall_forall in Hall; [exact Hall|done].
Qed.

Lemma probes_genuine lp : 0 <= lp → Forall (probe_genuine reference reference lp) probes.
Proof.
  intros Hlp. apply Forall_fmap, Forall_forall. intros i Hi. destruct (answered_all i Hi) as [Ha Hb]. apply elem_of_seqZ in Hi.
  unfold compose, probe_genuine. set (t0 := probe_t0 (probe_at i)) in *. assert (Ht : t0 = 1100000000 + i * 10000000) by done.
  change (probe_t3 (probe_at i)) with (t0 + 2000000). unfold is_i64, i64_max. split_and!; try lia. intros _.
  exists calibrated, calibrated, (t0 + 1000000), (t0 + 1100000), (first_stamp t0).1, 100, (t0 + 1000050), (t0 + 1100050), t0, (t0 + 2000000).
  unfold reference. split_and!; try exact Ha; try exact Hb; try apply calibrated_reach; lia.
Qed.

Definition round : Round :=
  {| round_measured := calibration; round_ended := false; round_probes := probes; round_status := OK; round_stopped := false; round_thrown := false;
     round_at := 1172001000 |}.

Definition star_clock : Clock := match make 1000 with Done c => c | Thrown _ => Clock.Sample.fresh end.
Definition fresh_star : Sampler := {| sampler_clock := star_clock; sampler_precision := 0; failures := 0 |}.
Definition timed_star : Sampler := sampler_round round fresh_star.

Lemma timed_reach : star_reach reference reference timed_star.
Proof.
  unfold timed_star. apply star_round; [unfold fresh_star; by apply star_start|].
  split_and!; [apply calibration_genuine| |done]. intros lp Hl. apply probes_genuine. unfold round_precision in Hl. cbn [fresh_star sampler_precision Z.eqb round round_measured] in Hl.
  apply measured_range in Hl; lia.
Qed.

Definition reading_now : Reading :=
  default no_reading (read_clock 2000000000 (sampler_clock timed_star)).1.

Lemma star_time_accurate_witness :
  synchronized reading_now = true ∧
  Z.abs (reference 2000000000 - time reading_now) <= uncertainty_ns reading_now + 80000 ∧ 0 <= time reading_now <= maximum ∧
  (synchronized reading_now = true → uncertainty_ns reading_now <= clock_uncertainty_limit_ns).
Proof.
  split; [vm_compute; reflexivity|].
  apply (star_time_accurate reference reference (reference_steady 2000) (reference_steady 1500) timed_star 2000000000 reading_now
    (read_clock 2000000000 (sampler_clock timed_star)).2 timed_reach); [done|]. vm_compute. reflexivity.
Defined.

(** A Star with the admission it has just been given asks for the time; another caller has
    no credential. *)
Definition calls : list callback :=
  [Sampled first_turn; Open 0 (ledger_ later) [admission answer] [signature answer] true; Open 1 (ledger_ later) [] [] true;
   ReadDone 0 true false 1100000000 (Some 1101000000); OnDone 1; Stamp 0 (Some 1101100000); WriteDone 0 true].

Lemma calls_ok : callbacks_ok reference (service_start pulsar_clock) calls.
Proof. split; [exact first_turn_genuine|]. repeat (split; [first [done | by intros ? [= <-]]|]). done. Qed.

Definition after_calls : Service := serving pulsar_clock calls.

Lemma after_calls_state :
  permits_ after_calls = 63 ∧ (λ r, (responses_ r, length (sent_ r))) <$> streams_ after_calls !! 0%nat = Some (1%nat, 1%nat) ∧
  streams_ after_calls !! 1%nat = None.
Proof. vm_compute. done. Qed.

Lemma pulsar_clock_made : make 500 = Done pulsar_clock.
Proof. vm_compute. reflexivity. Qed.

Lemma pulse_bounded_witness :
  permits_ after_calls = 63 ∧ service_ok reference (serving pulsar_clock calls).
Proof.
  split; [exact (proj1 after_calls_state)|].
  exact (proj1 (pulse_bounded reference pulsar_clock calls (reference_steady 2000) pulsar_clock_made calls_ok)).
Defined.
End Sample.
